(* ===== verification/_CoqProject ===== *)
-Q . S2P
Prelude.v
OrderedMap.v
PerfectHash.v
CircularArray.v
LruCache.v
Packer.v
PriorityQueue.v
Double.v
StdSort.v
Graph.v
ShortestPath.v
Constraints.v
PathSearch.v
Trie.v
Yen.v
ConstrainedPath.v
KShortestPaths.v
DisjunctPaths.v
AllPairs.v
Waypoints.v
EventQueue.v
Tcp.v
NetAddr.v
DisjointSets.v
Packet.v
Match.v
Queue.v
Device.v
PtrQueue.v
IntervalTree.v
RangeSet.v
PackedVector.v
SortedRuns.v
ColumnIndex.v
ColumnStorage.v
BoolColumn.v
Rational.v
LinearProgram.v
FlowProblem.v
FlowOptima.v
DemandScaling.v
FlowPaths.v
FlowRecovery.v
MinDelay.v
MinMax.v
MultiCommodity.v
SourceMerge.v
PacketSources.v
BulkGen.v
FlowDriver.v
FlowPack.v
