(* ===== verification/Prelude.v ===== *)
(** A verification library for NCode's common code ([src/]): the graph
    algorithms, the packet-level simulator, the flow optimization and the
    containers that they are built on.

    * The program and its parts

    - Containers ([src/src/perfect_hash.h], [circular_array.h], [lru_cache.h],
      [packer.h], [common.h], [interval_tree.h], [num_col.h], [ptr_queue.h]):
      sets and maps over sequential indices, a ring, a cache, encodings of
      sequences of integers, a heap, an interval tree, columns of numbers with
      indices, and a queue between threads.
    - Networks ([src/src/net/]): links and walks, [GraphBuilder] and
      [GraphStorage], Dijkstra's and Floyd-Warshall's algorithms, Yen's
      enumeration of paths, constraints on paths, IP addresses and ranges.
    - Events ([src/src/event_queue.h]): a clock and a heap of events for
      consumers, which drives the simulator.
    - The simulator ([src/src/htsim/]): packets, queues and pipes, the matcher
      of a device, devices and networks, TCP, and the generators and drivers of
      traffic.
    - Optimization ([src/src/lp/]): linear programs and the flow problems that
      are turned into them.

    The graph algorithms use the heap and the sets of indices; the simulator's
    components schedule events and exchange packets; columns use the packer,
    the interval tree and the range sets; flow problems use the graph storage
    and the linear programs.

    * How the code is modelled

    A function of the code is a function here, with its state passed
    explicitly; a method that changes an object returns the object.  Code that
    can fail returns [outcome]: a failed [CHECK] is [Fail CheckFailed], what
    C++ leaves undefined is [Fail Undefined].  Integers that can wrap or
    overflow keep their width ([wrap], [u16], [u32] and [u64] below); indices
    of vectors are [nat].  A range-based [for] that may fail is [mfold].
    [std::map] and [std::set] are [gmap] and [gset] visited in order
    ([OrderedMap]).  [double] is binary64 from the Standard Library ([Double])
    where a result depends on rounding bit by bit (flow counters, interval
    trees, gaps between packets), and a rational with a rounding function as a parameter in the flow
    problems.  Library code whose choice is free ([std::sort], random numbers,
    the optimizers) is a parameter with a class of what it promises
    ([StdSort], [Rounding], [solves]).

    * The files

    - [Prelude], [OrderedMap], [Double], [StdSort], [Rational]: shared
      definitions, lemmas and tactics.
    - [PerfectHash], [CircularArray], [LruCache], [Packer], [PriorityQueue],
      [PtrQueue], [IntervalTree]: one container each.  [RangeSet],
      [PackedVector], [SortedRuns], [ColumnIndex], [ColumnStorage] and
      [BoolColumn] are the parts of [num_col.h].
    - [Graph], [ShortestPath], [Constraints], [PathSearch], [Trie],
      [ConstrainedPath], [Yen], [KShortestPaths], [DisjunctPaths], [AllPairs],
      [Waypoints], [DisjointSets], [NetAddr]: [net_common.h],
      [net_common.cc], [algorithm.h], [algorithm.cc] and [trie.h] of
      [src/src/net/].
    - [EventQueue]: [event_queue.h] and [event_queue.cc].
    - [Packet], [Match], [Queue], [Device], [Tcp]: the files of the same names
      in [src/src/htsim/], with [network.h] in [Device] and [flow_counter.h] in
      [Packet].
    - [LinearProgram]: [lp.h] and [lp.cc].  [FlowProblem], [FlowOptima],
      [DemandScaling], [FlowPaths], [FlowRecovery], [MinDelay], [MinMax],
      [MultiCommodity]: [mc_flow.h] and [mc_flow.cc].
    - [SourceMerge], [PacketSources], [BulkGen]: [bulk_gen.h] and
      [bulk_gen.cc].  [FlowDriver], [FlowPack]: [flow_driver.h] and
      [flow_driver.cc], on the same merge of sources.

    * What the theorems show

    - Paths: shortest path trees, all-pairs distances and the K shortest paths
      are what graph theory says they are, for every graph whose delays do not
      overflow ([ShortestPath], [KShortestPaths]; [AllPairs] without excluded
      nodes and parallel links); merging several generators keeps the order,
      and a path comes back only after another one of the same delay
      ([DisjunctPaths]); the exhaustive search enumerates simple paths
      ([PathSearch]); constraint sets accept exactly
      the paths that visit their sets in order ([Constraints]); a graph storage
      represents its builder ([Graph]).
    - Events: the queue delivers events in order of time, loses none, can be
      interrupted and resumed, and no event outlives its consumer
      ([EventQueue]).
    - Simulation: a queue is a server with a finite buffer ([Queue]); the
      matcher's tree agrees with a linear search through the rules and holds no
      dangling rules ([Match]); devices account for packets and hops are
      bounded ([Device]); a TCP transfer over a network without losses and
      reordering, in which no timeout passes, completes, the sink reassembles a
      stream of equal segments that begins with the first one, and a source
      does not send beyond its window ([Tcp]).
    - Traffic: generators send the packets of their sources merged in the order
      of time; the threaded generator sends the same packets as the one without
      threads in every interleaving, and no thread blocks for ever ([BulkGen]);
      the cache of a pack of drivers is invisible ([FlowPack]); a feedback loop
      has one transfer at a time ([FlowDriver]).  A source is orderly for a
      number of requests, since clocks of 64 bits wrap around.
    - Containers refine their abstract counterparts: sets, sequences, FIFO
      queues with no lost wake-ups (as long as nothing is invalidated or
      drained), encodings that round-trip, indices that answer queries.  A
      column is shown to answer queries when its blocks are kept packed
      ([kept_packed]); run-length encoded blocks do not report their extremes,
      and [rle_chunk_loses_values] shows the consequence.
    - Optimization: the CPLEX handle implements the program that a client
      describes, up to the tolerance and the gap of CPLEX ([LinearProgram]).
      For an optimizer that solves its programs ([solves]), feasibility,
      maximum flow and minimum cost are what their names say, the minimum of
      the largest utilization is met up to a factor, and the search for a scale
      factor ends with the largest one ([FlowOptima], [MultiCommodity],
      [MinMax], [DemandScaling]).  A demand of a node without links gets no row;
      [asked_demands] are the demands that a program asks for, and theorems
      about other problems assume that sources have links.  The recovery of
      paths splits every acyclic flow into paths ([FlowPaths]); the theorems on
      the paths of whole problems in [MinDelay] and [MultiCommodity] assume
      that the solution has such flows ([good_flows]).

    Theorems that are examples of behaviour that the code does not intend
    (overflow, unbounded searches, lost values) are stated with concrete inputs
    and evaluated.

    * Fuel

    Loops whose recursion is not structural take fuel, and a theorem about such
    a loop states how much is enough and that the result is then not
    [OutOfFuel].  The depth of the path recovery is bounded by the number of
    levels of an acyclic flow, the heap loops by the number of elements, the
    shortest path loop by one entry per link, the search for a scale factor by
    thirty halvings of an interval of length a million, the event loop by the
    events that are scheduled, and the drivers by the key frames or spikes that
    are left.  The sizes of batches and caches are parameters, so that the
    theorems hold for every size that is not zero.

    * What is not modelled, and why

    - [src/src/viz/] (ctemplate, the JSON library, graphers, the web page and
      server): vendored code, templates and output.
    - [strutil], [stringpiece], [map_util], [stl_util], [substitute],
      [alphanum], [md5], [status], [statusor], [port.h]: third-party utility
      code.
    - [file], [fwrapper], [logging], [thread_runner], [pcap],
      [pcap_consumer], the event queues that read the clock of the machine:
      input, output and the operating system.
    - [stats], [predict], [bloom], [free_list.h], [demand_matrix], [net_gen],
      [graph_query], [animator], [physical]: summaries, random and fixed inputs
      for the modelled code, a generated parser, and output.
    - Printing, memory statistics ([GetStats], [ByteEstimate] where no decision
      depends on it) and the destructors that only free memory.
    - The optimizers CPLEX and GLPK, which are libraries; of the GLPK build only
      the choice of bound types is modelled, since its state lives in the
      library. *)

From stdpp Require Export prelude gmap list sorting.
From Stdlib Require Export ZArith Lia.

Open Scope Z_scope.
Open Scope nat_scope.

(** ** Fallible code

    A [CHECK] that does not hold, a [LOG(FATAL)] and an uncaught [Die] abort
    the process ([CheckFailed]); an access outside a vector, a null
    dereference and the like are undefined behaviour ([Undefined]); a loop
    that is given too little fuel ends in [OutOfFuel], which is not a
    behaviour of the program and which the termination theorems exclude. *)

Inductive failure : Set := CheckFailed | Undefined | OutOfFuel.

Inductive outcome (A : Type) : Type :=
| Ok (a : A)
| Fail (f : failure).
Arguments Ok {A} a.
Arguments Fail {A} f.

#[global] Instance failure_eq_dec : EqDecision failure.
Proof. solve_decision. Defined.
#[global] Instance outcome_eq_dec `{EqDecision A} : EqDecision (outcome A).
Proof. solve_decision. Defined.

#[global] Instance outcome_ret : MRet outcome := @Ok.
#[global] Instance outcome_bind : MBind outcome :=
  fun A B f m => match m with Ok a => f a | Fail e => Fail e end.
#[global] Instance outcome_fmap : FMap outcome :=
  fun A B f m => match m with Ok a => Ok (f a) | Fail e => Fail e end.

(** [CHECK(b)]. *)
Definition check (b : bool) : outcome unit :=
  if b then Ok tt else Fail CheckFailed.

(** [v[i]] on a [std::vector]: an index out of range is undefined. *)
Definition vec_at {A} (v : list A) (i : nat) : outcome A :=
  match v !! i with Some a => Ok a | None => Fail Undefined end.

Definition is_Ok {A} (m : outcome A) : Prop := exists a, m = Ok a.

(** Left-to-right loop over a vector whose body may fail. *)
Fixpoint mfold {A S} (f : S -> A -> outcome S) (l : list A) (s : S) : outcome S :=
  match l with
  | [] => Ok s
  | a :: l' => s' ← f s a; mfold f l' s'
  end.

(** ** Machine integers *)

Definition wrap (w x : Z) : Z := (x mod 2 ^ w)%Z.
Definition u8 : Z -> Z := wrap 8.
Definition u16 : Z -> Z := wrap 16.
Definition u32 : Z -> Z := wrap 32.
Definition u64 : Z -> Z := wrap 64.
Definition umax (w : Z) : Z := (2 ^ w - 1)%Z.
Definition int64_max : Z := (2 ^ 63 - 1)%Z.

Create HintDb ncode.

Lemma wrap_bound w x : (0 <= w)%Z -> (0 <= wrap w x < 2 ^ w)%Z.
Proof. intros. apply Z.mod_pos_bound. lia. Qed.

Lemma wrap_id w x : (0 <= x < 2 ^ w)%Z -> wrap w x = x.
Proof. intros. by apply Z.mod_small. Qed.

Lemma wrap_idemp w x : (0 <= w)%Z -> wrap w (wrap w x) = wrap w x.
Proof. intros. apply wrap_id, wrap_bound. done. Qed.

Lemma u64_sub x y : u64 (u64 x - y) = u64 (x - y)%Z.
Proof. unfold u64, wrap. by rewrite Zminus_mod_idemp_l. Qed.

Lemma u64_add x y : u64 (u64 x + y) = u64 (x + y)%Z.
Proof. unfold u64, wrap. by rewrite Zplus_mod_idemp_l. Qed.

#[export] Hint Resolve wrap_bound wrap_id wrap_idemp : ncode.

(** ** Outcome lemmas *)

(** The first step of a sequence, as a rewriting rule. *)
Lemma bind_Ok_l {A B} (a : A) (f : A -> outcome B) : (Ok a ≫= f) = f a.
Proof. done. Qed.

Lemma bind_Ok {A B} (m : outcome A) (f : A -> outcome B) b :
  m ≫= f = Ok b <-> exists a, m = Ok a /\ f a = Ok b.
Proof.
  split.
  - destruct m as [a|e]; [|done]. intros H. by exists a.
  - by intros (a & -> & H).
Qed.

Lemma check_Ok b u : check b = Ok u <-> b = true.
Proof. destruct b, u; done. Qed.

Lemma vec_at_Ok {A} (v : list A) i a : vec_at v i = Ok a <-> v !! i = Some a.
Proof. unfold vec_at. destruct (v !! i); naive_solver. Qed.

Lemma vec_at_lt {A} (v : list A) i : i < length v -> exists a, vec_at v i = Ok a.
Proof.
  intros [a Ha]%lookup_lt_is_Some_2. exists a. by apply vec_at_Ok.
Qed.

Lemma mfold_app {A S} (f : S -> A -> outcome S) l1 l2 s :
  mfold f (l1 ++ l2) s = mfold f l1 s ≫= mfold f l2.
Proof.
  revert s. induction l1 as [|a l1 IH]; intros s; [done|]. simpl.
  destruct (f s a); [apply IH|done].
Qed.

(** Loop rule: an invariant preserved by every iteration holds at the end, and
    a loop whose body cannot fail under the invariant does not fail. *)
Lemma mfold_inv {A S} (I : list A -> S -> Prop) (f : S -> A -> outcome S) l s :
  I [] s ->
  (forall done_ a s, (done_ ++ [a]) `prefix_of` l -> I done_ s ->
     exists s', f s a = Ok s' /\ I (done_ ++ [a]) s') ->
  exists s', mfold f l s = Ok s' /\ I l s'.
Proof.
  intros H0 Hstep.
  cut (forall l2 l1 s, l = l1 ++ l2 -> I l1 s ->
         exists s', mfold f l2 s = Ok s' /\ I l s').
  { intros Hc. by apply (Hc l [] s). }
  clear s H0. induction l2 as [|a l2 IH]; intros l1 s -> HI.
  { exists s. by rewrite app_nil_r. }
  destruct (Hstep l1 a s) as (s' & Hs' & HI'); [|done|].
  { exists l2. by rewrite <-app_assoc. }
  simpl. rewrite Hs'. simpl. apply (IH (l1 ++ [a])); [|done].
  by rewrite <-app_assoc.
Qed.

Lemma prefix_of_seq (l : list nat) a n :
  (l ++ [a]) `prefix_of` seq 0 n -> a = length l /\ a < n.
Proof.
  intros [r Hr]. assert (Ha : seq 0 n !! length l = Some a).
  { rewrite Hr, <-app_assoc, lookup_app_r, Nat.sub_diag by lia. done. }
  apply lookup_seq in Ha. lia.
Qed.

(** The loop [for (i = 0; i < n; ++i)]. *)
Lemma mfold_seq_inv {S} (I : nat -> S -> Prop) (f : S -> nat -> outcome S) n s :
  I 0 s ->
  (forall i s, i < n -> I i s -> exists s', f s i = Ok s' /\ I (1 + i) s') ->
  exists s', mfold f (seq 0 n) s = Ok s' /\ I n s'.
Proof.
  intros H0 Hstep.
  destruct (mfold_inv (λ l, I (length l)) f (seq 0 n) s) as (s' & Hs' & HI); [done| |].
  - intros l a s0 [-> Hlt]%prefix_of_seq Hs0.
    destruct (Hstep (length l) s0 Hlt Hs0) as (s1 & ? & ?). exists s1.
    split; [done|]. by rewrite length_app, Nat.add_comm.
  - exists s'. by rewrite length_seq in HI.
Qed.

(** Destruct the binds and checks of hypotheses of the shape [m = Ok a]. *)
Ltac inv_ok :=
  repeat match goal with
  | H : (_ ≫= _) = Ok _ |- _ =>
      apply bind_Ok in H; destruct H as (? & ? & H)
  | H : Ok _ = Ok _ |- _ => injection H as ?
  | H : mret _ = Ok _ |- _ => change (Ok _ = Ok _) in H
  | H : Fail _ = Ok _ |- _ => discriminate H
  | H : check _ = Ok _ |- _ => apply check_Ok in H
  | H : vec_at _ _ = Ok _ |- _ => apply vec_at_Ok in H
  end; simplify_eq/=.

(** ** Vectors *)

(** [v.resize(n, x)]: truncates or pads with [x]. *)
Definition vresize {A} (v : list A) (n : nat) (x : A) : list A := resize n x v.

Lemma vresize_grow_lookup {A} (v : list A) n x i :
  length v <= n ->
  vresize v n x !! i =
    if decide (i < length v) then v !! i
    else if decide (i < n) then Some x else None.
Proof.
  intros Hn. unfold vresize. rewrite resize_spec.
  rewrite take_ge by lia.
  case_decide as H1; [by rewrite lookup_app_l|].
  rewrite lookup_app_r by lia.
  case_decide as H2.
  - apply lookup_replicate. split; [done|lia].
  - apply lookup_replicate_None. lia.
Qed.

Lemma length_vresize {A} (v : list A) n x : length (vresize v n x) = n.
Proof. apply length_resize. Qed.

(** A fold over positions that only ever writes position [i] at step [i]. *)
Lemma fold_left_app_seq {S} (f : S -> nat -> S) n s :
  fold_left f (seq 0 (Datatypes.S n)) s = f (fold_left f (seq 0 n) s) n.
Proof. rewrite seq_S, fold_left_app. done. Qed.

Lemma fold_left_ext {A S} (f g : S -> A -> S) l s :
  (forall s a, f s a = g s a) -> fold_left f l s = fold_left g l s.
Proof. intros H. revert s. induction l as [|a l IH]; intros s; simpl; [done|]. by rewrite H. Qed.

Lemma list_filter_fmap {A B} (f : A -> B) (P : B -> Prop) `{forall x, Decision (P x)} (l : list A) :
  filter P (f <$> l) = f <$> filter (λ a, P (f a)) l.
Proof.
  induction l as [|a l IH]; [done|]. rewrite fmap_cons, !filter_cons.
  destruct (decide (P (f a))); rewrite ?fmap_cons; by rewrite IH.
Qed.

Lemma lookup_app_add {A} (l1 l2 : list A) i : (l1 ++ l2) !! (length l1 + i) = l2 !! i.
Proof. rewrite lookup_app_r by lia. f_equal. lia. Qed.

Lemma list_nil_elem_of {A} (l : list A) : l = [] <-> forall x, x ∉ l.
Proof. split; [intros -> x; apply not_elem_of_nil|apply elem_of_nil_inv]. Qed.

Lemma list_filter_none {A} (P : A -> Prop) `{forall x, Decision (P x)} (l : list A) :
  Forall (λ x, ¬ P x) l -> filter P l = [].
Proof. induction 1; [done|]. by rewrite filter_cons_False. Qed.

Lemma list_filter_all {A} (P : A -> Prop) `{forall x, Decision (P x)} (l : list A) :
  Forall P l -> filter P l = l.
Proof. induction 1; [done|]. rewrite filter_cons_True by done. by f_equal. Qed.

Lemma list_filter_ext_in {A} (P Q : A -> Prop) `{forall x, Decision (P x)} `{forall x, Decision (Q x)}
    (l : list A) :
  Forall (λ x, P x <-> Q x) l -> filter P l = filter Q l.
Proof.
  induction 1 as [|x l Hx _ IH]; [done|]. rewrite !filter_cons, IH.
  repeat case_decide; naive_solver.
Qed.

Lemma filter_seq_sorted (P : nat -> Prop) `{forall x, Decision (P x)} k n :
  StronglySorted lt (filter P (seq k n)).
Proof.
  revert k. induction n as [|n IH]; intros k; simpl; [constructor|].
  rewrite filter_cons. case_decide; [|apply IH]. constructor; [apply IH|].
  apply Forall_forall. intros x [_ Hx%elem_of_seq]%list_elem_of_filter. lia.
Qed.

(** ** Option helpers *)

(** [default false (l !! i)]: reading a flag vector, with [false] out of range. *)
Definition flag_at (l : list bool) (i : nat) : bool := default false (l !! i).

Lemma flag_at_true l i : flag_at l i = true <-> l !! i = Some true.
Proof. unfold flag_at. destruct (l !! i) as [[]|]; naive_solver. Qed.

Lemma flag_at_ge l i : length l <= i -> flag_at l i = false.
Proof. intros H. unfold flag_at. by rewrite lookup_ge_None_2. Qed.

Lemma flag_at_insert l i j b :
  i < length l -> flag_at (<[i:=b]> l) j = if decide (i = j) then b else flag_at l j.
Proof.
  intros H. unfold flag_at. case_decide as Hij.
  - subst. by rewrite list_lookup_insert_eq.
  - by rewrite list_lookup_insert_ne.
Qed.

Lemma flag_at_vresize l n i :
  length l <= n -> flag_at (vresize l n false) i = flag_at l i.
Proof.
  intros H. unfold flag_at. rewrite vresize_grow_lookup by done.
  case_decide; [done|].
  rewrite (lookup_ge_None_2 l i) by lia. by case_decide.
Qed.
