(* ===== verification/OrderedMap.v ===== *)
(** [std::map] and [std::set]: finite maps whose iteration visits the keys in
    increasing order.  The contents are a [gmap] (a [gset]); [items] is the
    sequence a range-based [for] visits. *)

From stdpp Require Export strings.
From S2P Require Import Prelude.

(** Keys with the total order [operator<] induces. *)
Class KeyOrder (K : Type) `{EqDecision K} := {
  key_leb : K -> K -> bool;
  key_leb_total a b : key_leb a b = true \/ key_leb b a = true;
  key_leb_trans a b c : key_leb a b = true -> key_leb b c = true -> key_leb a c = true;
  key_leb_antisym a b : key_leb a b = true -> key_leb b a = true -> a = b
}.

Definition key_le `{KeyOrder K} (a b : K) : Prop := key_leb a b = true.
Definition key_lt `{KeyOrder K} (a b : K) : Prop := key_leb a b = true /\ a <> b.

#[global] Instance key_le_dec `{KeyOrder K} (a b : K) : Decision (key_le a b).
Proof. unfold key_le. apply _. Defined.

#[global] Instance key_le_antisymm `{KeyOrder K} : AntiSymm (=) (key_le (K := K)).
Proof. intros a b. apply key_leb_antisym. Qed.

(** [std::string] compares bytes, as [String.compare] does. *)
#[global] Program Instance string_key_order : KeyOrder string := { key_leb := String.leb }.
Next Obligation.
  intros a b. destruct (String.leb_total a b); auto.
Qed.
Next Obligation.
  unfold String.leb. intros a b c.
  assert (Hc : forall a b c, String.compare a b <> Gt -> String.compare b c <> Gt ->
                String.compare a c <> Gt).
  { clear a b c. induction a as [|x a IH]; intros [|y b] [|z c]; simpl; try done.
    unfold Ascii.compare. generalize (Ascii.N_of_ascii x), (Ascii.N_of_ascii y), (Ascii.N_of_ascii z).
    intros p q r. specialize (IH b c).
    destruct (N.compare_spec p q), (N.compare_spec q r), (N.compare_spec p r);
      subst; try done; try (intros; lia). }
  specialize (Hc a b c).
  destruct (String.compare a b), (String.compare b c), (String.compare a c); naive_solver.
Qed.
Next Obligation. apply String.leb_antisym. Qed.

#[global] Program Instance Z_key_order : KeyOrder Z := { key_leb := Z.leb }.
Next Obligation. intros. rewrite !Z.leb_le. lia. Qed.
Next Obligation. intros a b c. rewrite !Z.leb_le. lia. Qed.
Next Obligation. intros a b. rewrite !Z.leb_le. lia. Qed.

#[global] Program Instance nat_key_order : KeyOrder nat := { key_leb := Nat.leb }.
Next Obligation. intros. rewrite !Nat.leb_le. lia. Qed.
Next Obligation. intros a b c. rewrite !Nat.leb_le. lia. Qed.
Next Obligation. intros a b. rewrite !Nat.leb_le. lia. Qed.

Section ordered_map.
Context `{Countable K, !KeyOrder K} {V : Type}.
Implicit Types m : gmap K V.

Definition entry_le (a b : K * V) : Prop := key_le a.1 b.1.

#[global] Instance entry_le_dec a b : Decision (entry_le a b).
Proof. unfold entry_le. apply _. Defined.

#[global] Instance entry_le_total : Total entry_le.
Proof. intros a b. apply key_leb_total. Qed.

#[global] Instance entry_le_trans : Transitive entry_le.
Proof. intros a b c. apply key_leb_trans. Qed.

(** The entries, in the order of the keys. *)
Definition items m : list (K * V) := merge_sort entry_le (map_to_list m).

Lemma items_Permutation m : items m ≡ₚ map_to_list m.
Proof. apply merge_sort_Permutation. Qed.

Lemma elem_of_items m k v : (k, v) ∈ items m <-> m !! k = Some v.
Proof. by rewrite items_Permutation, elem_of_map_to_list. Qed.

Lemma NoDup_items_keys m : NoDup (items m).*1.
Proof. rewrite items_Permutation. apply NoDup_fst_map_to_list. Qed.

Lemma items_sorted m : StronglySorted key_lt (items m).*1.
Proof.
  assert (Hs : StronglySorted entry_le (items m)) by (apply StronglySorted_merge_sort; apply _).
  pose proof (NoDup_items_keys m) as Hnd.
  induction Hs as [|[k v] l Hs IH Hall]; [constructor|]. simpl in *.
  apply NoDup_cons in Hnd as [Hk Hnd]. constructor; [by apply IH|].
  apply Forall_forall. intros k' Hk'. split; [|naive_solver].
  apply list_elem_of_fmap in Hk' as ([k'' v'] & -> & Hin).
  rewrite Forall_forall in Hall. by apply (Hall _ Hin).
Qed.

Lemma items_empty : items ∅ = [].
Proof. unfold items. by rewrite map_to_list_empty. Qed.

End ordered_map.

(** The order a range-based [for] over a [std::set] visits. *)
Definition set_items `{Countable K, !KeyOrder K} (s : gset K) : list K :=
  merge_sort key_le (elements s).

Lemma set_items_Permutation `{Countable K, !KeyOrder K} (s : gset K) :
  set_items s ≡ₚ elements s.
Proof. apply merge_sort_Permutation. Qed.

Lemma elem_of_set_items `{Countable K, !KeyOrder K} (s : gset K) k :
  k ∈ set_items s <-> k ∈ s.
Proof. by rewrite set_items_Permutation, elem_of_elements. Qed.

(** A strictly sorted sequence of keys is determined by its elements. *)
Lemma sorted_keys_unique `{Countable K, !KeyOrder K} (l1 l2 : list K) :
  StronglySorted key_lt l1 -> StronglySorted key_lt l2 ->
  (forall k, k ∈ l1 <-> k ∈ l2) -> l1 = l2.
Proof.
  intros H1 H2 Hin.
  assert (Hnd : forall l : list K, StronglySorted key_lt l -> NoDup l).
  { induction 1 as [|k l Hs IH Hall]; [constructor|]. constructor; [|done].
    intros Hk. rewrite Forall_forall in Hall. by destruct (Hall k Hk). }
  assert (Hle : forall l : list K, StronglySorted key_lt l -> StronglySorted key_le l).
  { induction 1 as [|k l Hs IH Hall]; constructor; [done|].
    eapply Forall_impl; [done|]. by intros x []. }
  apply (StronglySorted_unique (key_le (K := K))); [by apply Hle..|].
  apply NoDup_Permutation; auto.
Qed.
