(* ===== verification/PerfectHash.v ===== *)
(** Model of [src/src/perfect_hash.h]: the store that hands out sequential
    indices ([PerfectHashStore]), the flag-vector set of indices
    ([PerfectHashSet]) and the flag-vector map ([PerfectHashMap]), with their
    iterators.  Every set operation is proved to implement the operation on
    finite sets ([gset nat]) it is named after, and the map operations to
    implement partial functions; the range-based [for] loops are proved to
    terminate and to visit every element once, in increasing order, as long as
    the index type can represent the size of the underlying vector. *)

From S2P Require Import Prelude.

(** [Index<Tag, V>(i)] for an unsigned [V] of [bits] bits: the conversion from
    [size_t] keeps the low bits. *)
Definition Index_ (bits : Z) (i : nat) : nat := Z.to_nat (wrap bits (Z.of_nat i)).

(** A vector length that [V] can represent. *)
Definition fits (bits : Z) (n : nat) : Prop := (Z.of_nat n < 2 ^ bits)%Z.

Lemma Index_id bits i : fits bits i -> Index_ bits i = i.
Proof. intros H. unfold Index_, fits in *. rewrite wrap_id; lia. Qed.

Lemma fits_le bits n m : n <= m -> fits bits m -> fits bits n.
Proof. unfold fits. lia. Qed.

#[export] Hint Resolve Index_id fits_le : ncode.

(** ** PerfectHashStore *)
Module PerfectHashStore.
Section store.
Context {T : Type} (bits : Z).

Record t := mk { items_ : list T }.

Definition empty : t := mk [].

(** [AddItem] and [MoveItem] differ only in how the item gets there. *)
Definition AddItem (st : t) (item : T) : outcome (t * nat) :=
  _ ← check (Z.of_nat (length (items_ st)) <? umax bits)%Z;
  let next_index := Index_ bits (length (items_ st)) in
  Ok (mk (items_ st ++ [item]), next_index).

Definition MoveItem (st : t) (item : T) : outcome (t * nat) :=
  _ ← check (Z.of_nat (length (items_ st)) <? umax bits)%Z;
  let next_index := Index_ bits (length (items_ st)) in
  Ok (mk (items_ st ++ [item]), next_index).

Definition GetItemOrNull (st : t) (index : nat) : option T :=
  if length (items_ st) <=? index then None else items_ st !! index.

Definition GetItemOrDie (st : t) (index : nat) : outcome T :=
  _ ← check (index <? length (items_ st));
  vec_at (items_ st) index.

Definition size (st : t) : nat := length (items_ st).

Lemma MoveItem_Ok st item st' i :
  MoveItem st item = Ok (st', i) ->
  st' = mk (items_ st ++ [item]) /\ i = size st /\ fits bits (S (size st)).
Proof.
  unfold MoveItem, umax. intros H. inv_ok.
  match goal with Hc : (_ <? _)%Z = true |- _ => apply Z.ltb_lt in Hc end.
  unfold fits, size. split_and!; [done|apply Index_id; unfold fits; lia|lia].
Qed.

Lemma GetItemOrDie_Ok st i a : GetItemOrDie st i = Ok a <-> items_ st !! i = Some a.
Proof.
  unfold GetItemOrDie. split.
  - intros H. by inv_ok.
  - intros H. pose proof (lookup_lt_Some _ _ _ H) as Hlt.
    rewrite (proj2 (Nat.ltb_lt _ _) Hlt). simpl. by apply vec_at_Ok.
Qed.

End store.
Arguments t : clear implicits.
End PerfectHashStore.

(** ** Range-based for over a flag vector

    The iterators of the set and of the map are the same code over a test
    [has] ([Contains] or [HasValue]) and the length [size] of the vector. *)
Section range_for.
Context (bits : Z) (size : nat) (has : nat -> bool).

(** [for (i = 0; i < size; ++i) if (has(i)) break;], from [i] with [n] left. *)
Fixpoint first_from (n i : nat) : nat :=
  match n with
  | O => i
  | S n' => if has i then i else first_from n' (S i)
  end.

(** [operator++]. *)
Fixpoint iter_next (fuel i : nat) : outcome nat :=
  match fuel with
  | O => Fail OutOfFuel
  | S fuel' =>
      if decide (i = size) then Ok i
      else let i' := Index_ bits (S i) in
           if has i' then Ok i' else iter_next fuel' i'
  end.

(** [for (x : *this)]: from [begin()] until [operator!=] with [end()] fails. *)
Fixpoint iter_list (fuel i : nat) : outcome (list nat) :=
  match fuel with
  | O => Fail OutOfFuel
  | S fuel' =>
      if decide (i = Index_ bits size) then Ok []
      else i' ← iter_next (S (S size)) i;
           rest ← iter_list fuel' i';
           Ok (i :: rest)
  end.

Definition range_for : outcome (list nat) :=
  iter_list (S size) (Index_ bits (first_from size 0)).

Hypothesis Hfits : fits bits size.
Hypothesis Hhas : forall i, size <= i -> has i = false.

Lemma first_from_le n i : i <= first_from n i <= i + n.
Proof.
  revert i. induction n as [|n IH]; intros i; simpl; [lia|].
  destruct (has i); [lia|]. specialize (IH (S i)). lia.
Qed.

Lemma iter_next_spec fuel i :
  i < size -> size - i < fuel -> iter_next fuel i = Ok (first_from (size - S i) (S i)).
Proof.
  revert i. induction fuel as [|fuel IH]; intros i Hi Hf; [lia|]. simpl.
  rewrite decide_False by lia. rewrite Index_id by eauto with ncode.
  destruct (decide (S i = size)) as [Heq|].
  - rewrite Hhas by lia. replace (size - S i) with 0 by lia. simpl.
    destruct fuel; [lia|]. simpl. by rewrite decide_True.
  - destruct (size - S i) as [|k] eqn:Hk; [lia|]. simpl.
    destruct (has (S i)) eqn:Hh; [done|].
    rewrite IH by lia. f_equal. f_equal. lia.
Qed.

Lemma iter_list_spec n j fuel :
  n + j = size -> n < fuel ->
  iter_list fuel (first_from n j) = Ok (filter (λ i, has i = true) (seq j n)).
Proof.
  revert j fuel. induction n as [|n IH]; intros j fuel Hj Hf.
  - destruct fuel; [lia|]. simpl in *. rewrite decide_True; [done|].
    by rewrite Index_id.
  - simpl. destruct (has j) eqn:Hh.
    + destruct fuel; [lia|]. simpl.
      rewrite decide_False by (rewrite Index_id; [lia|done]).
      rewrite filter_cons_True by done.
      pose proof (iter_next_spec (S (S size)) j ltac:(lia) ltac:(lia)) as Hn.
      cbn [iter_next] in Hn. rewrite Hn. simpl.
      replace (size - S j) with n by lia. by rewrite IH by lia.
    + rewrite filter_cons_False by congruence. apply IH; lia.
Qed.

(** The loop terminates and visits the set positions in increasing order. *)
Lemma range_for_spec : range_for = Ok (filter (λ i, has i = true) (seq 0 size)).
Proof.
  unfold range_for. rewrite Index_id; [apply iter_list_spec; lia|].
  eapply fits_le; [|done]. pose proof (first_from_le size 0). lia.
Qed.
End range_for.

(** ** PerfectHashSet *)
Module PerfectHashSet.

(** [set_] is a [std::vector<char>] that only ever holds 0 and 1. *)
Record t := mk { set_ : list bool }.

#[global] Instance t_eq_dec : EqDecision t.
Proof. solve_decision. Defined.

Definition empty : t := mk [].

Definition Contains (s : t) (index : nat) : bool :=
  if index <? length (set_ s) then flag_at (set_ s) index else false.

Definition Insert (s : t) (index : nat) : t :=
  let v := vresize (set_ s) (Nat.max (length (set_ s)) (index + 1)) false in
  mk (<[index := true]> v).

Definition Remove (s : t) (index : nat) : t :=
  if index <? length (set_ s) then mk (<[index := false]> (set_ s)) else s.

(** The constructors from an initializer list, a vector and a [std::set]. *)
Definition of_list (l : list nat) : t := fold_left Insert l empty.

Definition FullSetFromStore {T} (store : PerfectHashStore.t T) : t :=
  mk (vresize [] (PerfectHashStore.size store) true).

Definition InsertAll (s other : t) : t :=
  let other_size := length (set_ other) in
  let v := vresize (set_ s) (Nat.max (length (set_ s)) other_size) false in
  mk (fold_left (λ v i, if flag_at (set_ other) i then <[i := true]> v else v)
        (seq 0 other_size) v).

Definition RemoveAll (s other : t) : t :=
  let min_size := Nat.min (length (set_ s)) (length (set_ other)) in
  mk (fold_left (λ v i, if flag_at (set_ other) i then <[i := false]> v else v)
        (seq 0 min_size) (set_ s)).

Definition Empty (s : t) : bool := forallb negb (set_ s).

Definition Clear (s : t) : t := mk [].

Definition Intersection (bits : Z) (s other : t) : t :=
  let to := Nat.min (length (set_ other)) (length (set_ s)) in
  fold_left (λ out i, if flag_at (set_ s) i && flag_at (set_ other) i
                      then Insert out (Index_ bits i) else out)
    (seq 0 to) empty.

Definition Intersects (s other : t) : bool :=
  let to := Nat.min (length (set_ other)) (length (set_ s)) in
  existsb (λ i, flag_at (set_ s) i && flag_at (set_ other) i) (seq 0 to).

Definition Difference (bits : Z) (s other : t) : t :=
  fold_left (λ out i,
      if flag_at (set_ other) i then
        if (length (set_ s) <=? i) || negb (flag_at (set_ s) i)
        then Insert out (Index_ bits i) else out
      else out)
    (seq 0 (length (set_ other))) empty.

Definition DifferenceEmpty (s other : t) : bool :=
  forallb (λ i,
      if flag_at (set_ other) i then
        negb ((length (set_ s) <=? i) || negb (flag_at (set_ s) i))
      else true)
    (seq 0 (length (set_ other))).

Definition Count (s : t) : nat := length (filter (λ b, b = true) (set_ s)).

(** [begin()], [operator++] and the range-based for loop. *)
Definition begin (bits : Z) (s : t) : nat :=
  Index_ bits (first_from (Contains s) (length (set_ s)) 0).
Definition next (bits : Z) (s : t) (index : nat) : outcome nat :=
  iter_next bits (length (set_ s)) (Contains s) (S (S (length (set_ s)))) index.
Definition iterate (bits : Z) (s : t) : outcome (list nat) :=
  range_for bits (length (set_ s)) (Contains s).

(** [operator==] compares the vectors. *)
Definition eqb (a b : t) : bool := bool_decide (set_ a = set_ b).

(** *** Refinement to finite sets *)

Definition elems (s : t) : list nat := filter (λ i, Contains s i = true) (seq 0 (length (set_ s))).
Definition denote (s : t) : gset nat := list_to_set (elems s).

Lemma Contains_flag s i : Contains s i = flag_at (set_ s) i.
Proof.
  unfold Contains. destruct (Nat.ltb_spec i (length (set_ s))); [done|].
  by rewrite flag_at_ge.
Qed.

Lemma Contains_lt s i : Contains s i = true -> i < length (set_ s).
Proof. unfold Contains. by destruct (Nat.ltb_spec i (length (set_ s))). Qed.

Lemma Contains_ge s i : length (set_ s) <= i -> Contains s i = false.
Proof. intros. rewrite Contains_flag. by apply flag_at_ge. Qed.

Lemma elem_of_elems s i : i ∈ elems s <-> Contains s i = true.
Proof.
  unfold elems. rewrite list_elem_of_filter, elem_of_seq.
  split; [by intros []|].
  intros H. pose proof (Contains_lt _ _ H). split; [done|lia].
Qed.

Lemma elem_of_denote s i : i ∈ denote s <-> Contains s i = true.
Proof. unfold denote. by rewrite elem_of_list_to_set, elem_of_elems. Qed.

Lemma NoDup_elems s : NoDup (elems s).
Proof. apply NoDup_filter, NoDup_seq. Qed.

Lemma Contains_Insert s i j :
  Contains (Insert s i) j = if decide (i = j) then true else Contains s j.
Proof.
  rewrite !Contains_flag. unfold Insert. simpl.
  rewrite flag_at_insert by (rewrite length_vresize; lia).
  case_decide; [done|]. apply flag_at_vresize. lia.
Qed.

Lemma Contains_Remove s i j :
  Contains (Remove s i) j = if decide (i = j) then false else Contains s j.
Proof.
  rewrite !Contains_flag. unfold Remove.
  destruct (Nat.ltb_spec i (length (set_ s))).
  - simpl. by rewrite flag_at_insert.
  - case_decide; [|done]. subst. by apply flag_at_ge.
Qed.

Lemma Contains_empty i : Contains empty i = false.
Proof. done. Qed.

(** The loops of [InsertAll] and [RemoveAll]. *)
Lemma flag_at_write_loop (o v : list bool) b n j :
  n <= length v ->
  flag_at (fold_left (λ v i, if flag_at o i then <[i := b]> v else v) (seq 0 n) v) j =
  if bool_decide (j < n) && flag_at o j then b else flag_at v j.
Proof.
  intros Hn. pose (f := λ (v : list bool) i, if flag_at o i then <[i := b]> v else v).
  assert (Hlen : forall l, length (fold_left f l v) = length v).
  { intros l. induction l as [|x l IH] using rev_ind; [done|].
    rewrite fold_left_app. simpl. unfold f at 1.
    destruct (flag_at o x); by rewrite ?length_insert. }
  fold f. induction n as [|n IH]; [done|].
  rewrite fold_left_app_seq. unfold f at 1.
  destruct (flag_at o n) eqn:Ho.
  - rewrite flag_at_insert by (rewrite Hlen; lia). destruct (decide (n = j)) as [Hnj|Hnj].
    + subst. rewrite Ho. by rewrite bool_decide_true by lia.
    + rewrite IH by lia. destruct (decide (j < n)).
      * by rewrite !bool_decide_true by lia.
      * by rewrite !bool_decide_false by lia.
  - rewrite IH by lia. destruct (decide (j = n)) as [->|].
    + rewrite Ho. by rewrite !andb_false_r.
    + destruct (decide (j < n)).
      * by rewrite !bool_decide_true by lia.
      * by rewrite !bool_decide_false by lia.
Qed.

Lemma Contains_InsertAll s o j :
  Contains (InsertAll s o) j = Contains s j || Contains o j.
Proof.
  rewrite !Contains_flag. unfold InsertAll. simpl.
  rewrite flag_at_write_loop by (rewrite length_vresize; lia).
  rewrite flag_at_vresize by lia. case_bool_decide; simpl.
  - by destruct (flag_at (set_ o) j), (flag_at (set_ s) j).
  - rewrite (flag_at_ge (set_ o)) by lia. by rewrite orb_false_r.
Qed.

Lemma Contains_RemoveAll s o j :
  Contains (RemoveAll s o) j = Contains s j && negb (Contains o j).
Proof.
  rewrite !Contains_flag. unfold RemoveAll. simpl.
  rewrite flag_at_write_loop by lia. case_bool_decide; simpl.
  - by destruct (flag_at (set_ o) j), (flag_at (set_ s) j).
  - destruct (decide (j < length (set_ s))).
    + rewrite (flag_at_ge (set_ o)) by lia. by rewrite andb_true_r.
    + by rewrite (flag_at_ge (set_ s)) by lia.
Qed.

(** The loops of [Intersection] and [Difference]: insert the positions below
    [n] that satisfy [p]. *)
Lemma Contains_insert_loop bits (p : nat -> bool) n j :
  fits bits n ->
  Contains (fold_left (λ out i, if p i then Insert out (Index_ bits i) else out)
              (seq 0 n) empty) j = bool_decide (j < n) && p j.
Proof.
  induction n as [|n IH]; intros Hf.
  { by rewrite bool_decide_false by lia. }
  rewrite fold_left_app_seq, Index_id by eauto with ncode.
  specialize (IH ltac:(eauto with ncode)).
  destruct (decide (n = j)) as [->|Hne].
  - rewrite (bool_decide_true (j < S j)) by lia.
    destruct (p j) eqn:Hp; [by rewrite Contains_Insert, decide_True|].
    by rewrite IH, andb_false_r.
  - rewrite (bool_decide_ext (j < S n) (j < n)) by lia. rewrite <-IH.
    destruct (p n); [by rewrite Contains_Insert, decide_False|done].
Qed.

Lemma Contains_Intersection bits s o j :
  fits bits (length (set_ s)) ->
  Contains (Intersection bits s o) j = Contains s j && Contains o j.
Proof.
  intros Hf. unfold Intersection. rewrite Contains_insert_loop.
  2: { eapply fits_le; [|done]. lia. }
  rewrite !Contains_flag. case_bool_decide as H; [done|].
  destruct (decide (j < length (set_ s))).
  - by rewrite (flag_at_ge (set_ o)), andb_false_r by lia.
  - by rewrite (flag_at_ge (set_ s)) by lia.
Qed.

Lemma Contains_Difference bits s o j :
  fits bits (length (set_ o)) ->
  Contains (Difference bits s o) j = Contains o j && negb (Contains s j).
Proof.
  intros Hf. unfold Difference.
  rewrite (fold_left_ext _ (λ out i,
     if flag_at (set_ o) i && ((length (set_ s) <=? i) || negb (flag_at (set_ s) i))
     then Insert out (Index_ bits i) else out)).
  2: { intros x y. by destruct (flag_at (set_ o) y). }
  rewrite Contains_insert_loop by done. rewrite !Contains_flag.
  case_bool_decide as H.
  - simpl. destruct (Nat.leb_spec (length (set_ s)) j); [|done].
    rewrite (flag_at_ge (set_ s)) by done. done.
  - by rewrite (flag_at_ge (set_ o)) by lia.
Qed.

Lemma Contains_of_list l j : Contains (of_list l) j = true <-> j ∈ l.
Proof.
  unfold of_list. induction l as [|x l IH] using rev_ind.
  { simpl. rewrite Contains_empty. set_solver. }
  rewrite fold_left_app. simpl. rewrite Contains_Insert.
  rewrite elem_of_app, list_elem_of_singleton, <-IH.
  destruct (decide (x = j)); intuition congruence.
Qed.

Lemma Count_length_elems s : Count s = length (elems s).
Proof.
  unfold Count, elems. destruct s as [l]. simpl.
  rewrite (list_filter_iff _ (λ i, flag_at l i = true)).
  2: { intros i. by rewrite Contains_flag. }
  induction l as [|b l IH]; [done|].
  change (seq 0 (length (b :: l))) with (0 :: seq 1 (length l)).
  rewrite <-fmap_S_seq, !filter_cons, list_filter_fmap.
  change (flag_at (b :: l) 0) with b.
  destruct b; simpl; rewrite length_fmap, IH; done.
Qed.

Lemma Count_denote s : Count s = size (denote s).
Proof.
  rewrite Count_length_elems. unfold denote. by rewrite size_list_to_set by apply NoDup_elems.
Qed.

Lemma denote_of_list l : denote (of_list l) = list_to_set l.
Proof.
  apply set_eq. intros x. by rewrite elem_of_denote, Contains_of_list, elem_of_list_to_set.
Qed.

Lemma Empty_true s : Empty s = true <-> denote s = ∅.
Proof.
  unfold Empty. rewrite forallb_forall. split.
  - intros H. apply set_eq. intros i. rewrite elem_of_denote, Contains_flag, flag_at_true.
    split; [|set_solver]. intros Hi. exfalso.
    assert (negb true = true); [|done]. apply H, list_elem_of_In.
    by eapply list_elem_of_lookup_2.
  - intros H b [i Hi]%list_elem_of_In%list_elem_of_lookup_1. destruct b; [|done].
    exfalso. assert (i ∈ denote s) as Hin; [|set_solver].
    by apply elem_of_denote; rewrite Contains_flag; apply flag_at_true.
Qed.

Lemma Intersects_true s o : Intersects s o = true <-> ¬ denote s ## denote o.
Proof.
  unfold Intersects. rewrite existsb_exists. split.
  - intros (i & Hi & Hb) Hdis. apply andb_true_iff in Hb as [H1 H2].
    rewrite <-Contains_flag in H1, H2. apply (Hdis i); by apply elem_of_denote.
  - intros H. destruct (set_choose_or_empty (denote s ∩ denote o)) as [[i Hi]|Hn].
    + exists i. apply elem_of_intersection in Hi as [H1 H2].
      rewrite elem_of_denote in H1, H2. rewrite <-!Contains_flag, H1, H2.
      apply Contains_lt in H1, H2. split; [apply in_seq; lia|done].
    + exfalso. apply H. set_solver.
Qed.

Lemma DifferenceEmpty_true s o : DifferenceEmpty s o = true <-> denote o ⊆ denote s.
Proof.
  unfold DifferenceEmpty. rewrite forallb_forall. split.
  - intros H i Hi. rewrite elem_of_denote in *. pose proof (Contains_lt _ _ Hi) as Hlt.
    assert (In i (seq 0 (length (set_ o)))) as Hin by (apply in_seq; lia).
    apply H in Hin as Hb. clear H. rename Hb into H.
    rewrite <-!Contains_flag, Hi in H.
    destruct (Contains s i) eqn:Hs; [done|]. by rewrite orb_true_r in H.
  - intros H i Hi. rewrite <-!Contains_flag. destruct (Contains o i) eqn:Ho; [|done].
    apply elem_of_denote, H, elem_of_denote in Ho. rewrite Ho.
    apply Contains_lt in Ho. destruct (Nat.leb_spec (length (set_ s)) i); [lia|done].
Qed.

Lemma FullSetFromStore_spec {T} (st : PerfectHashStore.t T) i :
  Contains (FullSetFromStore st) i = true <-> i < PerfectHashStore.size st.
Proof.
  rewrite Contains_flag, flag_at_true. unfold FullSetFromStore. simpl.
  rewrite vresize_grow_lookup by (simpl; lia).
  case_decide as Hl; [by apply Nat.nlt_0_r in Hl|]. case_decide; naive_solver.
Qed.

Lemma set_iterate_spec bits s :
  fits bits (length (set_ s)) -> iterate bits s = Ok (elems s).
Proof. intros Hf. apply range_for_spec; [done|]. apply Contains_ge. Qed.

Lemma iterate_full bits {T} (st : PerfectHashStore.t T) :
  fits bits (PerfectHashStore.size st) ->
  iterate bits (FullSetFromStore st) = Ok (seq 0 (PerfectHashStore.size st)).
Proof.
  intros Hf. assert (Hl : length (set_ (FullSetFromStore st)) = PerfectHashStore.size st)
    by apply length_vresize.
  rewrite set_iterate_spec by by rewrite Hl. f_equal. unfold elems. rewrite Hl.
  apply list_filter_all, Forall_forall. intros i Hi%elem_of_seq.
  apply FullSetFromStore_spec. lia.
Qed.

End PerfectHashSet.

(** ** PerfectHashMap *)
Module PerfectHashMap.
Section map.
Context {V : Type}.

(** The value a default-constructed [Value] has. *)
Context (dflt : V).

Record t := mk { values_ : list (bool * V) }.

Definition empty : t := mk [].

Definition HasValue (m : t) (index : nat) : bool :=
  if index <? length (values_ m) then default false (fst <$> values_ m !! index) else false.

Definition Add (m : t) (index : nat) (value : V) : t :=
  let v := vresize (values_ m) (Nat.max (length (values_ m)) (index + 1)) (false, dflt) in
  mk (<[index := (true, value)]> v).

Definition GetValueOrDie (m : t) (index : nat) : outcome V :=
  _ ← check (index <? length (values_ m));
  x ← vec_at (values_ m) index;
  _ ← check x.1;
  Ok x.2.

(** The non-const [operator[]]: grows the vector, marks the slot as used and
    returns a reference to its value.  [Ref] is the map after the call, with
    the value the reference points to; [RefAssign m i v] is [m[i] = v]. *)
Definition Ref (m : t) (index : nat) : outcome (t * V) :=
  let v := vresize (values_ m) (Nat.max (length (values_ m)) (index + 1)) (false, dflt) in
  x ← vec_at v index;
  Ok (mk (<[index := (true, x.2)]> v), x.2).
Definition RefAssign (m : t) (index : nat) (value : V) : t :=
  let v := vresize (values_ m) (Nat.max (length (values_ m)) (index + 1)) (false, dflt) in
  mk (<[index := (true, value)]> v).

(** [UnsafeAccess]: no bounds check; the const version leaves the flag. *)
Definition UnsafeAccess (m : t) (index : nat) : outcome V :=
  x ← vec_at (values_ m) index; Ok x.2.

Definition Resize (m : t) (size : nat) : t := mk (vresize (values_ m) size (false, dflt)).

Definition Clear (m : t) : t := mk [].

Definition Count (m : t) : nat := length (filter (λ p, p.1 = true) (values_ m)).

Definition Empty (m : t) : bool := bool_decide (Count m = 0).

Definition GetFirst (bits : Z) (m : t) : nat :=
  Index_ bits (first_from (HasValue m) (length (values_ m)) 0).

(** Range-based for: the visited indices with the values behind the pointers. *)
Definition iterate (bits : Z) (m : t) : outcome (list (nat * V)) :=
  order ← range_for bits (length (values_ m)) (HasValue m);
  mfold (λ acc i, x ← vec_at (values_ m) i; Ok (acc ++ [(i, x.2)])) order [].

(** *** Refinement to partial functions *)

Definition lookup (m : t) (i : nat) : option V :=
  match values_ m !! i with Some (true, v) => Some v | _ => None end.

(** The value read through [operator[]]: the default in a fresh slot. *)
Definition slot (m : t) (i : nat) : V := default dflt (snd <$> values_ m !! i).

Lemma HasValue_lookup m i : HasValue m i = true <-> is_Some (lookup m i).
Proof.
  unfold HasValue, lookup, is_Some.
  destruct (Nat.ltb_spec i (length (values_ m))) as [Hl|Hl].
  - destruct (values_ m !! i) as [[[] v]|]; naive_solver.
  - rewrite (lookup_ge_None_2 _ _ Hl). naive_solver.
Qed.

Lemma HasValue_false m i : HasValue m i = false <-> lookup m i = None.
Proof.
  rewrite <-not_true_iff_false, HasValue_lookup, eq_None_not_Some. done.
Qed.

Lemma GetValueOrDie_Ok m i v : GetValueOrDie m i = Ok v <-> lookup m i = Some v.
Proof.
  unfold GetValueOrDie, lookup. split.
  - intros H. inv_ok. destruct x0 as [[] ?]; simplify_eq/=. by case_match; simplify_eq/=.
  - destruct (values_ m !! i) as [[[] w]|] eqn:Hi; intros; simplify_eq/=.
    pose proof (lookup_lt_Some _ _ _ Hi) as Hlt.
    rewrite (proj2 (Nat.ltb_lt _ _) Hlt). simpl. unfold vec_at. by rewrite Hi.
Qed.

Lemma lookup_lt m i v : lookup m i = Some v -> i < length (values_ m).
Proof.
  unfold lookup. destruct (values_ m !! i) eqn:Hi; [|done]. intros _.
  by eapply lookup_lt_Some.
Qed.

Lemma lookup_Add m i v j :
  lookup (Add m i v) j = if decide (i = j) then Some v else lookup m j.
Proof.
  unfold lookup, Add. simpl. case_decide as Hij.
  - subst. by rewrite list_lookup_insert_eq by (rewrite length_vresize; lia).
  - rewrite list_lookup_insert_ne by done.
    rewrite vresize_grow_lookup by lia. case_decide; [done|].
    rewrite (lookup_ge_None_2 (values_ m)) by lia. by case_decide.
Qed.

Lemma RefAssign_Add m i v : RefAssign m i v = Add m i v.
Proof. done. Qed.

Lemma slot_Add m i v j : slot (Add m i v) j = if decide (i = j) then v else slot m j.
Proof.
  unfold slot, Add. simpl. case_decide as Hij.
  - subst. by rewrite list_lookup_insert_eq by (rewrite length_vresize; lia).
  - rewrite list_lookup_insert_ne by done.
    rewrite vresize_grow_lookup by lia. case_decide; [done|].
    rewrite (lookup_ge_None_2 (values_ m)) by lia. by case_decide.
Qed.

Lemma lookup_slot m i v : lookup m i = Some v -> slot m i = v.
Proof. unfold lookup, slot. repeat case_match; naive_solver. Qed.

Lemma Ref_Ok m i : Ref m i = Ok (Add m i (slot m i), slot m i).
Proof.
  unfold Ref, Add, vec_at, slot.
  rewrite vresize_grow_lookup by lia.
  destruct (decide (i < length (values_ m))) as [Hl|Hl].
  - apply lookup_lt_is_Some in Hl as [[b v] Hv]. by rewrite Hv.
  - rewrite decide_True by lia. by rewrite (lookup_ge_None_2 (values_ m)) by lia.
Qed.

Lemma lookup_Resize m n i :
  length (values_ m) <= n -> lookup (Resize m n) i = lookup m i.
Proof.
  intros H. unfold lookup, Resize. simpl. rewrite vresize_grow_lookup by done.
  case_decide; [done|]. rewrite (lookup_ge_None_2 (values_ m)) by lia. by case_decide.
Qed.

Lemma slot_Resize m n i :
  length (values_ m) <= n -> slot (Resize m n) i = slot m i.
Proof.
  intros H. unfold slot, Resize. simpl. rewrite vresize_grow_lookup by done.
  case_decide; [done|]. rewrite (lookup_ge_None_2 (values_ m)) by lia. by case_decide.
Qed.

Definition keys (m : t) : list nat :=
  filter (λ i, HasValue m i = true) (seq 0 (length (values_ m))).

Lemma elem_of_keys m i : i ∈ keys m <-> is_Some (lookup m i).
Proof.
  unfold keys. rewrite list_elem_of_filter, elem_of_seq, HasValue_lookup.
  split; [by intros []|]. intros Hs. split; [done|]. destruct Hs as [v Hv].
  apply lookup_lt in Hv. lia.
Qed.

Lemma map_iterate_spec bits m :
  fits bits (length (values_ m)) ->
  exists kvs, iterate bits m = Ok kvs /\ map fst kvs = keys m /\
    Forall (λ kv, lookup m kv.1 = Some kv.2) kvs.
Proof.
  intros Hf. unfold iterate. rewrite range_for_spec; [|done|].
  2: { intros i Hi. unfold HasValue. destruct (Nat.ltb_spec i (length (values_ m))); [lia|done]. }
  fold (keys m). simpl.
  apply (mfold_inv (λ ks (acc : list (nat * V)),
            map fst acc = ks /\ Forall (λ kv, lookup m kv.1 = Some kv.2) acc)); [done|].
  intros ks i acc Hpre [Hks Hall].
  assert (is_Some (lookup m i)) as [v Hv].
  { apply elem_of_keys. destruct Hpre as [r ->]. set_solver. }
  exists (acc ++ [(i, v)]). split.
  - unfold vec_at. unfold lookup in Hv.
    destruct (values_ m !! i) as [[[] w]|]; naive_solver.
  - rewrite map_app, Hks. split; [done|]. by apply Forall_app_2; [|constructor].
Qed.

End map.
Arguments t : clear implicits.
Arguments mk {V} values_.
Arguments empty {V}.
End PerfectHashMap.

(** ** Properties *)

Import PerfectHashSet.

(** C38: on every pair of sets whose vectors the index type can address, each
    operation of [PerfectHashSet] computes the operation on finite sets it is
    named after: [Insert], [Remove], [InsertAll] (union), [RemoveAll]
    (difference), [Intersection], [Difference] ('other' minus this),
    [Contains], [Count] (cardinality), [Empty], [Intersects] and
    [DifferenceEmpty] (inclusion). *)
Theorem PerfectHashSet_refines_gset bits s o i :
  fits bits (length (set_ s)) -> fits bits (length (set_ o)) ->
  denote (Insert s i) = {[i]} ∪ denote s /\
  denote (Remove s i) = denote s ∖ {[i]} /\
  denote (InsertAll s o) = denote s ∪ denote o /\
  denote (RemoveAll s o) = denote s ∖ denote o /\
  denote (Intersection bits s o) = denote s ∩ denote o /\
  denote (Difference bits s o) = denote o ∖ denote s /\
  Contains s i = bool_decide (i ∈ denote s) /\
  Count s = size (denote s) /\
  Empty s = bool_decide (denote s = ∅) /\
  Intersects s o = bool_decide (¬ denote s ## denote o) /\
  DifferenceEmpty s o = bool_decide (denote o ⊆ denote s).
Proof.
  intros Hs Ho.
  assert (Hext : forall a X, (forall j, Contains a j = true <-> j ∈ X) -> denote a = X).
  { intros a X H. apply set_eq. intros j. by rewrite elem_of_denote. }
  split_and!.
  1-6: apply Hext; intros j;
    rewrite ?Contains_Insert, ?Contains_Remove, ?Contains_InsertAll, ?Contains_RemoveAll,
      ?Contains_Intersection, ?Contains_Difference by done;
    rewrite ?elem_of_union, ?elem_of_difference, ?elem_of_intersection,
      ?elem_of_singleton, ?elem_of_denote; try case_decide;
    rewrite ?orb_true_iff, ?andb_true_iff, ?negb_true_iff, ?not_true_iff_false;
    intuition congruence.
  - apply eq_true_iff_eq. by rewrite bool_decide_eq_true, elem_of_denote.
  - rewrite Count_length_elems. unfold denote. by rewrite size_list_to_set by apply NoDup_elems.
  - apply eq_true_iff_eq. by rewrite bool_decide_eq_true, Empty_true.
  - apply eq_true_iff_eq. by rewrite bool_decide_eq_true, Intersects_true.
  - apply eq_true_iff_eq. by rewrite bool_decide_eq_true, DifferenceEmpty_true.
Qed.

Lemma PerfectHashSet_refines_gset_witness :
  denote (Intersection 16 (of_list [1; 4]) (of_list [4; 7])) =
  denote (of_list [1; 4]) ∩ denote (of_list [4; 7]).
Proof.
  apply (PerfectHashSet_refines_gset 16 (of_list [1; 4]) (of_list [4; 7]) 0);
    vm_compute; reflexivity.
Defined.

(** a range-based [for] over a set terminates and visits exactly the
    elements of the set, each once, in strictly increasing order. *)
Theorem PerfectHashSet_iterate_sorted bits s :
  fits bits (length (set_ s)) ->
  exists l, iterate bits s = Ok l /\ StronglySorted lt l /\ list_to_set l = denote s.
Proof.
  intros Hf. exists (elems s). split_and!; [by apply set_iterate_spec| |done].
  apply filter_seq_sorted.
Qed.

Lemma PerfectHashSet_iterate_sorted_witness :
  exists l, iterate 16 (of_list [3; 0; 5]) = Ok l /\ StronglySorted lt l /\
    list_to_set l = denote (of_list [3; 0; 5]).
Proof. apply PerfectHashSet_iterate_sorted. vm_compute. reflexivity. Defined.

(** without the bound of the previous property the loop goes wrong.  For an
    8-bit index type a set that holds index 0 and index 255 has a vector of 256
    elements, [end()] is the truncated index 0, equal to [begin()], and a
    range-based [for] visits nothing. *)
Theorem PerfectHashSet_iterate_truncated :
  iterate 8 (of_list [0; 255]) = Ok [] /\ Count (of_list [0; 255]) = 2.
Proof. vm_compute. done. Qed.

(** [operator==] compares the underlying vectors: it never equates two
    different sets, but it distinguishes equal sets, such as the empty set
    before an insertion and after the element is removed again. *)
Theorem PerfectHashSet_eqb_sound :
  (forall a b, eqb a b = true -> denote a = denote b) /\
  eqb empty (Remove (Insert empty 2) 2) = false /\
  denote empty = denote (Remove (Insert empty 2) 2).
Proof.
  split; [|split; vm_compute; done].
  intros [a] [b] H%bool_decide_eq_true. simpl in H. by subst.
Qed.

(** a [PerfectHashMap] is a partial function: [Add] and the assignment
    through [operator[]] update it at one index, [HasValue] is its domain,
    [GetValueOrDie] returns the value exactly where it is defined and fails
    its [CHECK] elsewhere, and iteration yields its graph in increasing order
    of the index. *)
Theorem PerfectHashMap_refines_function {V} (d : V) bits (m : PerfectHashMap.t V) i v j :
  fits bits (length (PerfectHashMap.values_ m)) ->
  let lk := PerfectHashMap.lookup in
  lk (PerfectHashMap.Add d m i v) j = (if decide (i = j) then Some v else lk m j) /\
  lk (PerfectHashMap.RefAssign d m i v) j = (if decide (i = j) then Some v else lk m j) /\
  PerfectHashMap.HasValue m j = bool_decide (is_Some (lk m j)) /\
  PerfectHashMap.GetValueOrDie m j =
    match lk m j with Some w => Ok w | None => Fail CheckFailed end /\
  exists kvs, PerfectHashMap.iterate bits m = Ok kvs /\ StronglySorted lt (map fst kvs) /\
    (forall k w, (k, w) ∈ kvs <-> lk m k = Some w).
Proof.
  intros Hf lk. split_and!.
  - apply PerfectHashMap.lookup_Add.
  - apply PerfectHashMap.lookup_Add.
  - apply eq_true_iff_eq. by rewrite bool_decide_eq_true, PerfectHashMap.HasValue_lookup.
  - subst lk. destruct (PerfectHashMap.lookup m j) eqn:Hj.
    { by apply PerfectHashMap.GetValueOrDie_Ok. }
    unfold PerfectHashMap.GetValueOrDie, PerfectHashMap.lookup, vec_at in *.
    destruct (Nat.ltb_spec j (length (PerfectHashMap.values_ m))) as [Hl|]; [|done].
    apply lookup_lt_is_Some in Hl as [[[] w] Hw]; rewrite Hw in Hj |- *; done.
  - destruct (PerfectHashMap.map_iterate_spec bits m Hf) as (kvs & Hk & Hkeys & Hall).
    exists kvs. split_and!; [done| |].
    + rewrite Hkeys. apply filter_seq_sorted.
    + intros k w. rewrite Forall_forall in Hall. split; [by intros Hin%Hall|].
      intros Hlk. assert (k ∈ map fst kvs) as Hin.
      { rewrite Hkeys. apply PerfectHashMap.elem_of_keys. by eexists. }
      apply list_elem_of_fmap in Hin as ([k' w'] & -> & Hin). simpl in *.
      pose proof (Hall _ Hin) as Hw. simpl in Hw. subst lk. congruence.
Qed.

Lemma PerfectHashMap_refines_function_witness :
  PerfectHashMap.GetValueOrDie (PerfectHashMap.Add 0 PerfectHashMap.empty 3 7) 3 = Ok 7.
Proof.
  apply (PerfectHashMap_refines_function 0 16
           (PerfectHashMap.Add 0 PerfectHashMap.empty 3 7) 3 7 3).
  vm_compute. reflexivity.
Defined.

(** the store hands out the indices 0, 1, 2, ... without truncation, keeps
    every item that was added before and fails its [CHECK] exactly when the
    next index would not be smaller than the largest value of the index type. *)
Theorem PerfectHashStore_MoveItem_spec {T} bits (st : PerfectHashStore.t T) x :
  (0 <= bits)%Z ->
  match PerfectHashStore.MoveItem bits st x with
  | Ok (st', i) =>
      i = PerfectHashStore.size st /\
      PerfectHashStore.GetItemOrDie st' i = Ok x /\
      (forall j y, PerfectHashStore.GetItemOrDie st j = Ok y ->
                   PerfectHashStore.GetItemOrDie st' j = Ok y) /\
      (forall j, PerfectHashStore.size st' <= j ->
                 PerfectHashStore.GetItemOrDie st' j = Fail CheckFailed /\
                 PerfectHashStore.GetItemOrNull st' j = None)
  | Fail e => e = CheckFailed /\ (umax bits <= Z.of_nat (PerfectHashStore.size st))%Z
  end.
Proof.
  intros Hb. destruct (PerfectHashStore.MoveItem bits st x) as [[st' i]|e] eqn:E.
  - apply PerfectHashStore.MoveItem_Ok in E as (-> & -> & Hf). unfold PerfectHashStore.size.
    setoid_rewrite PerfectHashStore.GetItemOrDie_Ok. simpl. split_and!; [done| | |].
    + by rewrite lookup_app_r, Nat.sub_diag.
    + intros j y Hj. by apply lookup_app_l_Some.
    + intros j Hj. unfold PerfectHashStore.GetItemOrDie, PerfectHashStore.GetItemOrNull.
      cbn [PerfectHashStore.items_].
      rewrite (proj2 (Nat.ltb_ge _ _) Hj), (proj2 (Nat.leb_le _ _) Hj). done.
  - unfold PerfectHashStore.MoveItem in E.
    destruct (Z.ltb_spec (Z.of_nat (length (PerfectHashStore.items_ st))) (umax bits));
      simplify_eq/=. unfold PerfectHashStore.size. done.
Qed.

Lemma PerfectHashStore_MoveItem_spec_witness :
  PerfectHashStore.GetItemOrDie (PerfectHashStore.mk [10; 20]) 1 = Ok 20.
Proof.
  pose proof (PerfectHashStore_MoveItem_spec 16 (PerfectHashStore.mk [10]) 20 ltac:(lia)) as H.
  exact (proj1 (proj2 H)).
Defined.
