(* ===== verification/CircularArray.v ===== *)
(** Model of [src/src/circular_array.h] (with [IsPowerOfTwo] of
    [src/src/common.h], the static assertion it depends on): a ring of
    [NumValues] slots with a free-running 64-bit write index.  The array is
    proved to hold exactly the most recent [NumValues] values, in insertion
    order, for histories of any length, including those after which the write
    index has wrapped around. *)

From S2P Require Import Prelude.

Open Scope Z_scope.

(** [((x != 0) && ((x & (~x + 1)) == x))] on [uint32_t]. *)
Definition IsPowerOfTwo (x : Z) : bool :=
  negb (x =? 0) && (Z.land x (u32 (u32 (Z.lnot x) + 1)) =? x).

Lemma u32_neg x : u32 (u32 (Z.lnot x) + 1) = u32 (- x).
Proof.
  unfold u32, wrap. rewrite Z.add_mod_idemp_l by lia. f_equal.
  unfold Z.lnot. lia.
Qed.

Lemma IsPowerOfTwo_sound x :
  0 <= x < 2 ^ 32 -> IsPowerOfTwo x = true -> x = 2 ^ Z.log2 x.
Proof.
  intros Hx H. apply andb_true_iff in H as [Hnz%negb_true_iff%Z.eqb_neq Heq%Z.eqb_eq].
  rewrite u32_neg in Heq. set (j := Z.log2 x) in *.
  assert (Hj : 2 ^ j <= x < 2 ^ Z.succ j) by (apply Z.log2_spec; lia).
  assert (Hj0 : 0 <= j) by apply Z.log2_nonneg.
  assert (Hj32 : j < 32) by (apply Z.log2_lt_pow2; lia).
  destruct (decide (x - 1 < 2 ^ j)) as [|Hge]; [lia|exfalso].
  assert (Hb : Z.testbit x j = true) by (apply Z.bit_log2; lia).
  rewrite <-Heq, Z.land_spec in Hb. apply andb_true_iff in Hb as [_ Hb].
  unfold u32, wrap in Hb. rewrite Z.mod_pow2_bits_low in Hb by lia.
  rewrite Z.bits_opp in Hb by lia. apply negb_true_iff in Hb.
  replace j with (Z.log2 (Z.pred x)) in Hb.
  - rewrite Z.bit_log2 in Hb; [done|]. pose proof (Z.pow_pos_nonneg 2 j). lia.
  - apply Z.log2_unique; lia.
Qed.

Module CircularArray.
Section ring.
Context {T : Type} (NumValues : Z).

Record t := mk { num_values_ : Z; index_ : Z; values_ : list T }.

Definition kMask : Z := NumValues - 1.

(** The constructor; [values_] starts with default-constructed elements. *)
Definition init (d : T) : t := mk 0 0 (replicate (Z.to_nat NumValues) d).

Definition write (s : t) (i : Z) (value : T) : outcome (list T) :=
  if decide (0 <= i < Z.of_nat (length (values_ s)))
  then Ok (<[Z.to_nat i := value]> (values_ s)) else Fail Undefined.

Definition AddValue (s : t) (value : T) : outcome t :=
  vs ← write s (Z.land (index_ s) kMask) value;
  let n := if num_values_ s <? NumValues then u64 (num_values_ s + 1) else num_values_ s in
  Ok (mk n (u64 (index_ s + 1)) vs).

(** [MoveValue] is [AddValue] with the value moved in. *)
Definition MoveValue (s : t) (value : T) : outcome t :=
  vs ← write s (Z.land (index_ s) kMask) value;
  let n := if num_values_ s <? NumValues then u64 (num_values_ s + 1) else num_values_ s in
  Ok (mk n (u64 (index_ s + 1)) vs).

Definition size (s : t) : Z := num_values_ s.
Definition empty (s : t) : bool := num_values_ s =? 0.

Definition MostRecentValueOrDie (s : t) : outcome T :=
  _ ← check (0 <? num_values_ s);
  vec_at (values_ s) (Z.to_nat (Z.land (u64 (index_ s - 1)) kMask)).

Definition OldestValueOrDie (s : t) : outcome T :=
  _ ← check (0 <? num_values_ s);
  let start := Z.land (u64 (index_ s - num_values_ s)) kMask in
  vec_at (values_ s) (Z.to_nat start).

Definition GetValues (s : t) : outcome (list T * t) :=
  let start := Z.land (u64 (index_ s - num_values_ s)) kMask in
  values ← mfold (λ out i,
      let value_index := Z.land (u64 (start + Z.of_nat i)) kMask in
      v ← vec_at (values_ s) (Z.to_nat value_index);
      Ok (out ++ [v])) (seq 0 (Z.to_nat (num_values_ s))) [];
  Ok (values, mk 0 0 (values_ s)).

(** *** Abstract view: the history of values since the last [GetValues] *)

Context (k : Z) (Hk : 0 <= k < 64) (HN : NumValues = 2 ^ k).

(** The last [NumValues] values of a history. *)
Definition window (h : list T) : list T := drop (length h - Z.to_nat NumValues) h.

(** Representation: the value written at time [p] is at [p mod NumValues]. *)
Definition rep (h : list T) (s : t) : Prop :=
  index_ s = u64 (Z.of_nat (length h)) /\
  num_values_ s = Z.min (Z.of_nat (length h)) NumValues /\
  length (values_ s) = Z.to_nat NumValues /\
  forall p v, h !! p = Some v -> Z.of_nat (length h) - NumValues <= Z.of_nat p ->
    values_ s !! Z.to_nat (Z.of_nat p mod NumValues) = Some v.

Lemma N_pos : 0 < NumValues < 2 ^ 64.
Proof using Hk HN.
  rewrite HN. split; [apply Z.pow_pos_nonneg; lia|apply Z.pow_lt_mono_r; lia].
Qed.

Lemma mask_mod x : Z.land (u64 x) kMask = x mod NumValues.
Proof using Hk HN.
  unfold kMask, u64, wrap. rewrite HN.
  replace (2 ^ k - 1) with (Z.ones k) by (rewrite Z.ones_equiv; lia).
  rewrite Z.land_ones by lia.
  replace (2 ^ 64) with (2 ^ k * 2 ^ (64 - k)) by (rewrite <-Z.pow_add_r by lia; f_equal; lia).
  rewrite Z.rem_mul_r by (try apply Z.pow_nonzero; try apply Z.pow_pos_nonneg; lia).
  rewrite (Z.mul_comm (2 ^ k)), Z.mod_add by (apply Z.pow_nonzero; lia).
  apply Z.mod_mod, Z.pow_nonzero; lia.
Qed.

Lemma mod_range x : 0 <= x mod NumValues < NumValues.
Proof using Hk HN. pose proof N_pos. apply Z.mod_pos_bound. lia. Qed.

(** Two times less than [NumValues] apart never share a slot. *)
Lemma mod_distinct x y : 0 < x - y < NumValues -> x mod NumValues <> y mod NumValues.
Proof using Hk HN.
  intros H Heq. pose proof N_pos.
  assert (Hd : (x - y) mod NumValues = 0) by (rewrite Zminus_mod, Heq, Z.sub_diag; done).
  rewrite Z.mod_small in Hd; lia.
Qed.

Lemma window_rep_init d : rep [] (init d).
Proof using Hk HN.
  pose proof N_pos. unfold rep, init. simpl. split_and!; [done|lia| |].
  - by rewrite length_replicate.
  - intros p v Hp. by rewrite lookup_nil in Hp.
Qed.

Lemma rep_AddValue h s v : rep h s -> exists s', AddValue s v = Ok s' /\ rep (h ++ [v]) s'.
Proof using Hk HN.
  intros (Hi & Hn & Hl & Hv). pose proof N_pos as HNp.
  set (len := Z.of_nat (length h)) in *.
  pose proof (mod_range len) as Hm.
  assert (Hslot : Z.land (index_ s) kMask = len mod NumValues) by (rewrite Hi; apply mask_mod).
  eexists. split.
  { unfold AddValue, write. rewrite Hslot, decide_True by (rewrite Hl; lia). reflexivity. }
  unfold rep. simpl. rewrite length_app, length_insert. simpl. split_and!.
  - rewrite Hi, u64_add. f_equal. lia.
  - rewrite Hn. destruct (Z.ltb_spec (Z.min len NumValues) NumValues); [|lia].
    unfold u64. rewrite wrap_id; lia.
  - done.
  - intros p w Hp Hrange. apply lookup_app_Some in Hp as [Hp|[Hge Hp]].
    + pose proof (lookup_lt_Some _ _ _ Hp) as Hlt.
      rewrite list_lookup_insert_ne; [apply Hv; [done|lia]|].
      pose proof (mod_range (Z.of_nat p)). intros Heq.
      apply (mod_distinct len (Z.of_nat p)); lia.
    + apply list_lookup_singleton_Some in Hp as [Hp ->].
      replace (Z.of_nat p) with len by lia.
      apply list_lookup_insert_eq. rewrite Hl. lia.
Qed.

Lemma lookup_window h i :
  window h !! i = h !! (length h - Z.to_nat NumValues + i)%nat.
Proof. unfold window. by rewrite lookup_drop. Qed.

Lemma length_window h : Z.of_nat (length (window h)) = Z.min (Z.of_nat (length h)) NumValues.
Proof using Hk HN. pose proof N_pos. unfold window. rewrite length_drop. lia. Qed.

(** Reading slot [(start + i) & kMask] gives the [i]-th value of the window. *)
Lemma rep_read h s i v :
  rep h s -> window h !! i = Some v ->
  values_ s !! Z.to_nat (Z.land (u64 (Z.land (u64 (index_ s - num_values_ s)) kMask
                                        + Z.of_nat i)) kMask) = Some v.
Proof using Hk HN.
  intros (Hi & Hn & Hl & Hv) Hw. rewrite lookup_window in Hw. pose proof N_pos.
  rewrite mask_mod, Hi, u64_sub, mask_mod, Z.add_mod_idemp_l by lia.
  replace (Z.of_nat (length h) - num_values_ s + Z.of_nat i)
    with (Z.of_nat (length h - Z.to_nat NumValues + i)) by lia.
  apply Hv; [done|lia].
Qed.

Lemma rep_GetValues h s :
  rep h s -> exists s', GetValues s = Ok (window h, s') /\ rep [] s'.
Proof using Hk HN.
  intros Hr. destruct Hr as (Hi & Hn & Hl & Hv) eqn:Hrep. clear Hrep.
  pose proof N_pos. unfold GetValues.
  assert (Hnum : Z.to_nat (num_values_ s) = length (window h)).
  { pose proof (length_window h). lia. }
  destruct (mfold_inv (λ ks out, out = take (length ks) (window h))
     (λ out i,
       let value_index :=
         Z.land (u64 (Z.land (u64 (index_ s - num_values_ s)) kMask + Z.of_nat i)) kMask in
       v ← vec_at (values_ s) (Z.to_nat value_index); Ok (out ++ [v]))
     (seq 0 (Z.to_nat (num_values_ s))) []) as (out & Hout & ->).
  - done.
  - intros ks i out [r Hks] ->.
    assert (i = length ks /\ i < length (window h))%nat as [-> Hlt].
    { assert (Hki : seq 0 (Z.to_nat (num_values_ s)) !! length ks = Some i).
      { rewrite Hks, <-app_assoc. by rewrite lookup_app_r, Nat.sub_diag by lia. }
      apply lookup_seq in Hki as [-> ?]. split; [done|lia]. }
    apply lookup_lt_is_Some in Hlt as [v Hlt].
    exists (take (length ks) (window h) ++ [v]). split.
    + unfold vec_at. by rewrite (rep_read h s (length ks) v).
    + rewrite length_app. simpl. rewrite Nat.add_1_r. by rewrite (take_S_r _ _ v).
  - cbv zeta in Hout |- *. rewrite Hout. simpl. rewrite length_seq, Hnum, take_ge by lia.
    eexists. split; [reflexivity|]. unfold rep. simpl. split_and!; [done|lia|done|].
    intros p v Hp. by rewrite lookup_nil in Hp.
Qed.

End ring.
Arguments t : clear implicits.
End CircularArray.

Import CircularArray.

(** after any sequence of [AddValue] calls on a fresh circular array whose
    capacity is a power of two, no access is out of bounds, [GetValues]
    returns the most recent [NumValues] values in insertion order and empties
    the array, [size] is their number, and the most recent and the oldest value
    are the last and the first of them (the queries die on an empty array).
    The history may be longer than 2^64, where the write index wraps. *)
Theorem CircularArray_window {T} k (d : T) h :
  0 <= k < 64 ->
  let N := 2 ^ k in
  exists s s', mfold (AddValue N) h (init N d) = Ok s /\
    GetValues N s = Ok (window N h, s') /\
    size s = Z.of_nat (length (window N h)) /\ size s' = 0 /\
    MostRecentValueOrDie N s =
      match last h with Some v => Ok v | None => Fail CheckFailed end /\
    OldestValueOrDie N s =
      match head (window N h) with Some v => Ok v | None => Fail CheckFailed end.
Proof.
  intros Hk N.
  assert (exists s, mfold (AddValue N) h (init N d) = Ok s /\ rep N h s) as (s & Hs & Hr).
  { apply (mfold_inv (rep N)); [by eapply window_rep_init|].
    intros done_ a s _ Hr. by eapply rep_AddValue. }
  destruct (rep_GetValues N k Hk eq_refl h s Hr) as (s' & Hg & Hr').
  exists s, s'. pose proof (N_pos N k Hk eq_refl) as HN.
  pose proof (length_window N k Hk eq_refl h) as Hlw.
  destruct Hr as (Hi & Hn & Hl & Hv) eqn:E. clear E.
  split_and!; [done|done|unfold size; lia| | |].
  - destruct Hr' as (_ & Hn' & _). unfold size. simpl in Hn'. lia.
  - unfold MostRecentValueOrDie. destruct h as [|v h _] using rev_ind.
    { simpl in *. rewrite (proj2 (Z.ltb_ge 0 _)) by lia. done. }
    rewrite last_snoc. rewrite length_app in *. simpl in *.
    rewrite (proj2 (Z.ltb_lt 0 _)) by lia. simpl.
    rewrite Hi, u64_sub, (mask_mod N k) by done. apply vec_at_Ok.
    replace (Z.of_nat (length h + 1) - 1) with (Z.of_nat (length h)) by lia.
    apply Hv; [|lia]. by rewrite lookup_app_r, Nat.sub_diag.
  - unfold OldestValueOrDie. destruct (window N h) as [|v w] eqn:Hw.
    { simpl in *. rewrite (proj2 (Z.ltb_ge 0 _)) by lia. done. }
    simpl in *. rewrite (proj2 (Z.ltb_lt 0 _)) by lia. simpl. apply vec_at_Ok.
    pose proof (rep_read N k Hk eq_refl h s 0 v Hr) as Hread.
    rewrite Hw, Z.add_0_r in Hread. specialize (Hread eq_refl).
    rewrite (mask_mod N k) in Hread by done.
    rewrite Z.mod_small in Hread; [done|].
    rewrite (mask_mod N k) by done. by apply mod_range with k.
Qed.

Lemma CircularArray_window_witness :
  exists s s', mfold (AddValue (2 ^ 2)) [1; 2; 3; 4; 5; 6] (init (2 ^ 2) 0) = Ok s /\
    GetValues (2 ^ 2) s = Ok (window (2 ^ 2) [1; 2; 3; 4; 5; 6], s') /\
    size s = Z.of_nat (length (window (2 ^ 2) [1; 2; 3; 4; 5; 6])) /\ size s' = 0 /\
    MostRecentValueOrDie (2 ^ 2) s = Ok 6 /\ OldestValueOrDie (2 ^ 2) s = Ok 3.
Proof. apply (CircularArray_window 2 0 [1; 2; 3; 4; 5; 6]). lia. Defined.
