(* ===== verification/LruCache.v ===== *)
(** Model of [src/src/lru_cache.h].  The [std::list] of keys is a list of
    nodes with an identity, so that the iterator an entry stores is the
    identity of a node and [splice] moves that very node.  The cache is proved
    to refine an abstract list of key/value pairs in most-recently-used order
    that is never longer than the configured maximum. *)

From S2P Require Import Prelude.

Module LRUCache.
Section lru.
Context {K V : Type} `{Countable K}.

Record ObjectAndListIterator := mkEntry { object : option V; iterator : option nat }.

Record t := mk {
  max_cache_size_ : nat;
  keys_ : list (nat * K);
  cache_map_ : gmap K ObjectAndListIterator;
  next_node : nat;                              (* list nodes allocated so far *)
}.

Definition create (max : nat) : t := mk max [] ∅ 0.

(** [keys_.splice(keys_.begin(), keys_, it)]. *)
Definition splice (it : option nat) (keys : list (nat * K)) : outcome (list (nat * K)) :=
  match it with
  | None => Fail Undefined
  | Some id =>
      match filter (λ n, n.1 = id) keys with
      | [n] => Ok (n :: filter (λ n, n.1 ≠ id) keys)
      | _ => Fail Undefined
      end
  end.

#[local] Arguments splice : simpl never.

(** Returns the state and the item passed to [ItemEvicted]. *)
Definition EvictOldest (s : t) : outcome (t * (K * V)) :=
  match last (keys_ s) with
  | None => Fail Undefined
  | Some (_, to_evict) =>
      match cache_map_ s !! to_evict with
      | None => Fail CheckFailed
      | Some e =>
          match object e with
          | None => Fail Undefined
          | Some v =>
              Ok (mk (max_cache_size_ s) (take (length (keys_ s) - 1) (keys_ s))
                     (delete to_evict (cache_map_ s)) (next_node s), (to_evict, v))
          end
      end
  end.

(** [cache_map_[key]]: default-constructs a missing entry. *)
Definition map_ref (s : t) (key : K) : t * ObjectAndListIterator :=
  match cache_map_ s !! key with
  | Some e => (s, e)
  | None =>
      let e := mkEntry None None in
      (mk (max_cache_size_ s) (keys_ s) (<[key := e]> (cache_map_ s)) (next_node s), e)
  end.

(** The common tail of an insertion: evict if needed, then link a new node. *)
Definition evict_if_full (s : t) : outcome (t * list (K * V)) :=
  if max_cache_size_ s <? size (cache_map_ s)
  then '(s', kv) ← EvictOldest s; Ok (s', [kv])
  else Ok (s, []).

Definition Emplace (s : t) (key : K) (value : V) : outcome (t * V * list (K * V)) :=
  let '(s, e) := map_ref s key in
  match object e with
  | Some v =>
      keys ← splice (iterator e) (keys_ s);
      Ok (mk (max_cache_size_ s) keys (cache_map_ s) (next_node s), v, [])
  | None =>
      '(s, evicted) ← evict_if_full s;
      let id := next_node s in
      Ok (mk (max_cache_size_ s) ((id, key) :: keys_ s)
             (<[key := mkEntry (Some value) (Some id)]> (cache_map_ s)) (S id),
          value, evicted)
  end.

Definition InsertNew (s : t) (key : K) (value : V) : outcome (t * V * list (K * V)) :=
  let '(s, e) := map_ref s key in
  match object e with
  | Some old =>
      keys ← splice (iterator e) (keys_ s);
      Ok (mk (max_cache_size_ s) keys
             (<[key := mkEntry (Some value) (iterator e)]> (cache_map_ s)) (next_node s),
          value, [(key, old)])
  | None =>
      '(s, evicted) ← evict_if_full s;
      let id := next_node s in
      Ok (mk (max_cache_size_ s) ((id, key) :: keys_ s)
             (<[key := mkEntry (Some value) (Some id)]> (cache_map_ s)) (S id),
          value, evicted)
  end.

Definition FindOrNull (s : t) (key : K) : outcome (t * option V) :=
  match cache_map_ s !! key with
  | None => Ok (s, None)
  | Some e =>
      match object e with
      | None => Fail CheckFailed
      | Some v =>
          keys ← splice (iterator e) (keys_ s);
          Ok (mk (max_cache_size_ s) keys (cache_map_ s) (next_node s), Some v)
      end
  end.

Fixpoint EvictAll_loop (fuel : nat) (s : t) (out : list (K * V)) : outcome (t * list (K * V)) :=
  match fuel with
  | O => Fail OutOfFuel
  | S fuel =>
      if decide (size (cache_map_ s) = 0) then Ok (s, out)
      else '(s', kv) ← EvictOldest s; EvictAll_loop fuel s' (out ++ [kv])
  end.
Definition EvictAll (s : t) : outcome (t * list (K * V)) :=
  EvictAll_loop (S (size (cache_map_ s))) s [].

Definition Values (s : t) : gmap K (option V) := object <$> cache_map_ s.

(** *** Abstract specification *)

(** A most-recently-used-first list; [touch] moves a key to the front. *)
Definition touch (key : K) (l : list (K * V)) : list (K * V) :=
  filter (λ p, p.1 = key) l ++ filter (λ p, p.1 ≠ key) l.
Definition spec_new (max : nat) (key : K) (v : V) (l : list (K * V)) :=
  ((key, v) :: take (max - 1) l, drop (max - 1) l).
Definition spec_emplace (max : nat) (key : K) (v : V) (l : list (K * V)) :=
  if decide (key ∈ l.*1) then (touch key l, []) else spec_new max key v l.
Definition spec_insert_new (max : nat) (key : K) (v : V) (l : list (K * V)) :=
  if decide (key ∈ l.*1)
  then ((key, v) :: filter (λ p, p.1 ≠ key) l, filter (λ p, p.1 = key) l)
  else spec_new max key v l.
Definition spec_find (key : K) (l : list (K * V)) : list (K * V) * option V :=
  (touch key l, head (filter (λ p, p.1 = key) l).*2).

(** *** Representation

    [es] pairs every list node with its key and value. *)
Implicit Types es : list (nat * (K * V)).

Definition node_of (e : nat * (K * V)) : nat * K := (e.1, e.2.1).
Definition entry_of (e : nat * (K * V)) : K * ObjectAndListIterator :=
  (e.2.1, mkEntry (Some e.2.2) (Some e.1)).

Record repr (es : list (nat * (K * V))) (s : t) : Prop := {
  repr_keys : keys_ s = node_of <$> es;
  repr_map : cache_map_ s = list_to_map (entry_of <$> es);
  repr_ids : NoDup es.*1;
  repr_nodup : NoDup es.*2.*1;
  repr_fresh : Forall (λ id, id < next_node s) es.*1;
  repr_size : length es <= max_cache_size_ s;
}.

Definition refines (l : list (K * V)) (s : t) : Prop := exists es, repr es s /\ es.*2 = l.

Lemma entry_keys es : (entry_of <$> es).*1 = es.*2.*1.
Proof. by rewrite <-!list_fmap_compose. Qed.

Lemma size_entries es : NoDup es.*2.*1 -> size (list_to_map (entry_of <$> es) : gmap K _) = length es.
Proof.
  intros Hnd. rewrite map_size_list_to_map by (by rewrite entry_keys). by rewrite length_fmap.
Qed.

Lemma lookup_entry es e :
  NoDup es.*2.*1 -> e ∈ es ->
  (list_to_map (entry_of <$> es) : gmap K _) !! e.2.1 = Some (mkEntry (Some e.2.2) (Some e.1)).
Proof.
  intros Hnd He. apply elem_of_list_to_map_1; [by rewrite entry_keys|].
  apply (list_elem_of_fmap_2 entry_of _ _ He).
Qed.

Lemma lookup_no_entry es k :
  k ∉ es.*2.*1 -> (list_to_map (entry_of <$> es) : gmap K _) !! k = None.
Proof. intros Hk. apply not_elem_of_list_to_map_1. by rewrite entry_keys. Qed.

(** Selecting by node identity and by key is the same thing. *)
Lemma select_unique es e :
  NoDup es.*1 -> NoDup es.*2.*1 -> e ∈ es ->
  filter (λ x, x.1 = e.1) es = [e] /\ filter (λ x, x.2.1 = e.2.1) es = [e] /\
  filter (λ x, x.1 ≠ e.1) es = filter (λ x, x.2.1 ≠ e.2.1) es.
Proof.
  intros H1 H2 (es1 & es2 & ->)%list_elem_of_split.
  rewrite !fmap_app, !fmap_cons in H1. rewrite !fmap_app, !fmap_cons in H2.
  apply NoDup_app in H1 as (_ & Hd1 & [Hn1 _]%NoDup_cons).
  apply NoDup_app in H2 as (_ & Hd2 & [Hn2 _]%NoDup_cons).
  assert (Hid : forall x, x ∈ es1 \/ x ∈ es2 -> x.1 ≠ e.1 /\ x.2.1 ≠ e.2.1).
  { intros x [Hx|Hx]; split; intros Heq.
    - apply (Hd1 x.1); [by apply list_elem_of_fmap_2|]. rewrite Heq. left.
    - apply (Hd2 x.2.1); [by do 2 apply list_elem_of_fmap_2|]. rewrite Heq. left.
    - apply Hn1. rewrite <-Heq. by apply list_elem_of_fmap_2.
    - apply Hn2. rewrite <-Heq. by do 2 apply list_elem_of_fmap_2. }
  assert (Hnone : forall l : list (nat * (K * V)), (forall x, x ∈ l -> x ∈ es1 \/ x ∈ es2) ->
            filter (λ x, x.1 = e.1) l = [] /\ filter (λ x, x.2.1 = e.2.1) l = [] /\
            filter (λ x, x.1 ≠ e.1) l = l /\ filter (λ x, x.2.1 ≠ e.2.1) l = l).
  { intros l Hl. split_and!.
    - apply list_filter_none, Forall_forall. intros x Hx. by apply Hid, Hl.
    - apply list_filter_none, Forall_forall. intros x Hx. by apply Hid, Hl.
    - apply list_filter_all, Forall_forall. intros x Hx. by apply Hid, Hl.
    - apply list_filter_all, Forall_forall. intros x Hx. by apply Hid, Hl. }
  destruct (Hnone es1) as (A1 & A2 & A3 & A4); [by left|].
  destruct (Hnone es2) as (B1 & B2 & B3 & B4); [by right|].
  rewrite !filter_app, !filter_cons_True, !filter_cons_False by (simpl; tauto).
  by rewrite A1, A2, A3, A4, B1, B2, B3, B4.
Qed.

Lemma splice_repr es e :
  NoDup es.*1 -> NoDup es.*2.*1 -> e ∈ es ->
  splice (Some e.1) (node_of <$> es) =
    Ok (node_of <$> (e :: filter (λ x, x.2.1 ≠ e.2.1) es)).
Proof.
  intros H1 H2 He. destruct (select_unique es e H1 H2 He) as (Ha & _ & Hc).
  unfold splice. rewrite !list_filter_fmap. simpl. by rewrite Ha, Hc.
Qed.

Lemma move_front_perm es e :
  NoDup es.*1 -> NoDup es.*2.*1 -> e ∈ es -> e :: filter (λ x, x.2.1 ≠ e.2.1) es ≡ₚ es.
Proof.
  intros H1 H2 He. destruct (select_unique es e H1 H2 He) as (_ & Hb & _).
  etransitivity; [|apply (filter_app_complement (λ x : nat * (K * V), x.2.1 = e.2.1))].
  by rewrite Hb.
Qed.

(** Reordering the nodes, possibly replacing the value of the front one. *)
Lemma repr_front es e v s :
  repr es s -> e ∈ es ->
  repr ((e.1, (e.2.1, v)) :: filter (λ x, x.2.1 ≠ e.2.1) es)
    (mk (max_cache_size_ s) (node_of <$> (e :: filter (λ x, x.2.1 ≠ e.2.1) es))
        (<[e.2.1 := mkEntry (Some v) (Some e.1)]> (cache_map_ s)) (next_node s)).
Proof.
  intros [Hk Hm Hi Hn Hf Hs] He.
  pose proof (move_front_perm es e Hi Hn He) as Hp.
  assert (Hi' : NoDup (e :: filter (λ x, x.2.1 ≠ e.2.1) es).*1) by (by rewrite Hp).
  assert (Hn' : NoDup (e :: filter (λ x, x.2.1 ≠ e.2.1) es).*2.*1) by (by rewrite Hp).
  constructor; simpl in *; try done.
  - rewrite Hm. rewrite <-(list_to_map_proper (entry_of <$> (e :: filter (λ x, x.2.1 ≠ e.2.1) es))
      (entry_of <$> es)); [|by rewrite entry_keys|by rewrite Hp].
    simpl. by rewrite insert_insert_eq.
  - revert Hf. rewrite <-Hp at 1. done.
  - apply Permutation_length in Hp. simpl in Hp. lia.
Qed.

Lemma mem_keys es k : k ∈ es.*2.*1 -> exists e, e ∈ es /\ e.2.1 = k.
Proof.
  intros ([k' v] & -> & ([id kv] & -> & He)%list_elem_of_fmap)%list_elem_of_fmap.
  by exists (id, kv).
Qed.

(** Evicting from a state that may hold one extra, still empty entry. *)
Lemma EvictOldest_repr es e s key (extra : bool) :
  keys_ s = node_of <$> (es ++ [e]) -> NoDup (es ++ [e]).*2.*1 ->
  (extra = true -> key ∉ (es ++ [e]).*2.*1) ->
  cache_map_ s = (if extra then <[key := mkEntry None None]> else id)
                   (list_to_map (entry_of <$> (es ++ [e]))) ->
  EvictOldest s = Ok (mk (max_cache_size_ s) (node_of <$> es)
     ((if extra then <[key := mkEntry None None]> else id) (list_to_map (entry_of <$> es)))
     (next_node s), e.2).
Proof.
  intros Hk Hn Hx Hm. unfold EvictOldest.
  rewrite Hk, fmap_app, fmap_cons, fmap_nil, last_snoc. simpl.
  assert (He : e ∈ es ++ [e]) by (apply elem_of_app; right; left).
  assert (Hdel : delete e.2.1 (list_to_map (entry_of <$> (es ++ [e])) : gmap K _)
                 = list_to_map (entry_of <$> es)).
  { rewrite (list_to_map_proper _ (entry_of e :: (entry_of <$> es))).
    - simpl. apply delete_insert_id. apply lookup_no_entry.
      rewrite !fmap_app in Hn. apply NoDup_app in Hn as (_ & Hd & _).
      intros Hin. apply (Hd _ Hin). left.
    - by rewrite entry_keys.
    - rewrite fmap_app. simpl. by rewrite Permutation_app_comm. }
  assert (Hne : extra = true -> key ≠ e.2.1).
  { intros Hex ->. apply (Hx Hex). by do 2 apply list_elem_of_fmap_2. }
  assert (Hlk : cache_map_ s !! e.2.1 = Some (mkEntry (Some e.2.2) (Some e.1))).
  { rewrite Hm. destruct extra; simpl; [rewrite lookup_insert_ne by (by apply Hne)|];
      by apply lookup_entry. }
  rewrite Hlk. simpl. rewrite length_app, length_fmap. simpl.
  rewrite Nat.add_sub, take_app_length' by (by rewrite length_fmap).
  replace (delete e.2.1 (cache_map_ s)) with
    ((if extra then <[key:=mkEntry None None]> else id)
       (list_to_map (entry_of <$> es) : gmap K ObjectAndListIterator)).
  - by destruct e as [? []].
  - rewrite Hm, <-Hdel. destruct extra; simpl; [|done].
    symmetry. apply delete_insert_ne. symmetry. by apply Hne.
Qed.

Lemma max_pos_split es max :
  0 < max -> length es = max -> exists es' e, es = es' ++ [e] /\ length es' = max - 1.
Proof.
  intros Hm Hl. destruct es as [|e es' _] using rev_ind; [simpl in *; lia|].
  exists es', e. split; [done|]. rewrite length_app in Hl. simpl in Hl. lia.
Qed.

Lemma insert_fresh es s key v :
  repr es s -> 0 < max_cache_size_ s -> key ∉ es.*2.*1 ->
  exists es' s0,
    evict_if_full (map_ref s key).1 = Ok (s0, drop (max_cache_size_ s - 1) es.*2) /\
    es'.*2 = take (max_cache_size_ s - 1) es.*2 /\
    repr ((next_node s0, (key, v)) :: es')
      (mk (max_cache_size_ s0) ((next_node s0, key) :: keys_ s0)
          (<[key := mkEntry (Some v) (Some (next_node s0))]> (cache_map_ s0)) (S (next_node s0))).
Proof.
  intros [Hk Hm Hi Hn Hf Hs] Hmax Hkey.
  unfold map_ref. rewrite Hm, lookup_no_entry by done. simpl.
  unfold evict_if_full. simpl.
  rewrite map_size_insert_None, size_entries by (done || by apply lookup_no_entry).
  destruct (Nat.ltb_spec (max_cache_size_ s) (S (length es))) as [Hfull|Hroom].
  - destruct (max_pos_split es (max_cache_size_ s)) as (es' & e & -> & Hl); [done|lia|].
    rewrite (EvictOldest_repr es' e _ key true); simpl; try done.
    exists es'. eexists. rewrite fmap_app. rewrite length_app in Hs. simpl in *.
    rewrite drop_app_length', take_app_length' by (rewrite length_fmap; lia).
    split_and!; [reflexivity|done|].
    rewrite !fmap_app in Hi. rewrite !fmap_app in Hn. rewrite !fmap_app in Hf.
    rewrite !fmap_app, not_elem_of_app in Hkey.
    apply NoDup_app in Hi as (Hi & _ & _). apply NoDup_app in Hn as (Hn & _ & _).
    apply Forall_app in Hf as [Hf _]. constructor; simpl.
    + done.
    + by rewrite insert_insert_eq.
    + apply NoDup_cons. split; [|done]. rewrite Forall_forall in Hf. intros Hin%Hf. lia.
    + apply NoDup_cons. tauto.
    + constructor; [lia|]. eapply Forall_impl; [done|]. simpl. lia.
    + lia.
  - exists es. eexists. rewrite drop_ge, take_ge by (rewrite length_fmap; lia).
    split_and!; [reflexivity|done|]. constructor; simpl.
    + by rewrite Hk.
    + by rewrite insert_insert_eq.
    + apply NoDup_cons. split; [|done]. rewrite Forall_forall in Hf. intros Hin%Hf. lia.
    + by apply NoDup_cons.
    + constructor; [lia|]. eapply Forall_impl; [done|]. simpl. lia.
    + lia.
Qed.

Lemma filter_key_snd es e :
  NoDup es.*1 -> NoDup es.*2.*1 -> e ∈ es ->
  filter (λ p, p.1 = e.2.1) es.*2 = [e.2] /\
  filter (λ p, p.1 ≠ e.2.1) es.*2 = (filter (λ x, x.2.1 ≠ e.2.1) es).*2.
Proof.
  intros H1 H2 He. rewrite !list_filter_fmap.
  destruct (select_unique es e H1 H2 He) as (_ & -> & _). done.
Qed.

Lemma EvictAll_repr es s out :
  repr es s ->
  exists s', EvictAll_loop (S (length es)) s out = Ok (s', out ++ reverse es.*2) /\ repr [] s'.
Proof.
  revert s out. induction es as [|e es IH] using rev_ind; intros s out Hr.
  - exists s. simpl. rewrite (repr_map _ _ Hr), decide_True by done.
    by rewrite app_nil_r.
  - pose proof Hr as [Hk Hm Hi Hn Hf Hs].
    rewrite length_app, Nat.add_1_r. cbn [EvictAll_loop].
    rewrite Hm, size_entries, decide_False by (done || (rewrite length_app; simpl; lia)).
    rewrite (EvictOldest_repr es e s e.2.1 false); [|done..].
    simpl. rewrite !fmap_app in Hi. rewrite !fmap_app in Hn. rewrite !fmap_app in Hf.
    edestruct (IH (mk (max_cache_size_ s) (node_of <$> es) (list_to_map (entry_of <$> es))
                      (next_node s)) (out ++ [e.2])) as (s' & Hs' & Hr').
    { constructor; simpl; try done.
      - by apply NoDup_app in Hi as (? & _).
      - by apply NoDup_app in Hn as (? & _).
      - by apply Forall_app in Hf as [? _].
      - rewrite length_app in Hs. lia. }
    exists s'. split; [|done]. etransitivity; [exact Hs'|]. f_equal. f_equal.
    by rewrite fmap_app, reverse_app, <-app_assoc.
Qed.

(** A lookup that hits: the entry, and the state after moving its node. *)
Lemma repr_lookup es e s :
  repr es s -> e ∈ es -> cache_map_ s !! e.2.1 = Some (mkEntry (Some e.2.2) (Some e.1)).
Proof. intros [_ -> _ Hn _ _] He. by apply lookup_entry. Qed.

Lemma repr_lookup_None es k s : repr es s -> k ∉ es.*2.*1 -> cache_map_ s !! k = None.
Proof. intros [_ -> _ _ _ _]. apply lookup_no_entry. Qed.

Lemma repr_splice es e s :
  repr es s -> e ∈ es ->
  splice (Some e.1) (keys_ s) = Ok (node_of <$> (e :: filter (λ x, x.2.1 ≠ e.2.1) es)).
Proof. intros [-> _ Hi Hn _ _] He. by apply splice_repr. Qed.

Lemma repr_touch es e s :
  repr es s -> e ∈ es ->
  repr (e :: filter (λ x, x.2.1 ≠ e.2.1) es)
    (mk (max_cache_size_ s) (node_of <$> (e :: filter (λ x, x.2.1 ≠ e.2.1) es))
        (cache_map_ s) (next_node s)).
Proof.
  intros Hr He. pose proof (repr_front es e e.2.2 s Hr He) as Hf.
  rewrite insert_id in Hf by (by eapply repr_lookup). by destruct e as [? []].
Qed.

Lemma map_ref_hit es e s :
  repr es s -> e ∈ es -> map_ref s e.2.1 = (s, mkEntry (Some e.2.2) (Some e.1)).
Proof. intros Hr He. unfold map_ref. by erewrite repr_lookup. Qed.

Lemma map_ref_miss es k s :
  repr es s -> k ∉ es.*2.*1 -> (map_ref s k).2 = mkEntry None None.
Proof. intros Hr Hk. unfold map_ref. by erewrite repr_lookup_None. Qed.

Lemma evict_if_full_max s s' ev :
  evict_if_full s = Ok (s', ev) -> max_cache_size_ s' = max_cache_size_ s.
Proof.
  unfold evict_if_full, EvictOldest. intros. repeat case_match; simplify_eq/=; done.
Qed.

Lemma map_ref_max s k : max_cache_size_ (map_ref s k).1 = max_cache_size_ s.
Proof. unfold map_ref. by case_match. Qed.

Lemma touch_front es e :
  NoDup es.*1 -> NoDup es.*2.*1 -> e ∈ es ->
  touch e.2.1 es.*2 = (e :: filter (λ x, x.2.1 ≠ e.2.1) es).*2.
Proof.
  intros Hi Hn He. unfold touch. by destruct (filter_key_snd es e Hi Hn He) as [-> ->].
Qed.

Lemma refines_create max : refines [] (create max).
Proof. exists []. split; [|done]. constructor; simpl; try done; try constructor. lia. Qed.

End lru.
Arguments t K V {_ _}.
End LRUCache.

Import LRUCache.

#[local] Arguments splice : simpl never.

Section properties.
Context {K V : Type} `{Countable K}.
Implicit Types (l : list (K * V)) (s : LRUCache.t K V).

(** [Emplace] implements the abstract least-recently-used list: a key that
    is present moves to the front and keeps its value, a new key goes to the
    front and, when the cache is full, exactly the least recently used pair is
    evicted.  No iterator is dangling and no [CHECK] fails. *)
Theorem LRUCache_Emplace_refines l s key v :
  refines l s -> 0 < max_cache_size_ s ->
  exists s' w, Emplace s key v = Ok (s', w, (spec_emplace (max_cache_size_ s) key v l).2) /\
    refines (spec_emplace (max_cache_size_ s) key v l).1 s' /\
    head (spec_emplace (max_cache_size_ s) key v l).1 = Some (key, w) /\
    max_cache_size_ s' = max_cache_size_ s.
Proof.
  intros (es & Hr & <-) Hmax. unfold spec_emplace, Emplace.
  destruct (decide (key ∈ es.*2.*1)) as [Hin|Hin].
  - apply mem_keys in Hin as (e & He & <-). pose proof Hr as [_ _ Hi Hn _ _].
    rewrite (map_ref_hit es) by done. simpl. rewrite (repr_splice es) by done. simpl.
    rewrite touch_front by done. do 2 eexists. split_and!; [done| | |done].
    + eexists. split; [by apply repr_touch|done].
    + by destruct e as [? []].
  - destruct (insert_fresh es s key v Hr Hmax Hin) as (es' & s0 & He & Hes & Hr').
    pose proof (evict_if_full_max _ _ _ He) as Hms. rewrite map_ref_max in Hms.
    pose proof (map_ref_miss es key s Hr Hin) as Hmiss.
    destruct (map_ref s key) as [s1 e1]. simpl in *. subst e1. simpl. rewrite He. simpl.
    do 2 eexists. split_and!; [done| |done|done].
    exists ((next_node s0, (key, v)) :: es'). split; [done|]. csimpl. by rewrite Hes.
Qed.

(** [InsertNew] implements the abstract list too: a key that is present is
    moved to the front with the new value and its old pair is reported as
    evicted; a new key behaves as in [Emplace]. *)
Theorem LRUCache_InsertNew_refines l s key v :
  refines l s -> 0 < max_cache_size_ s ->
  exists s', InsertNew s key v = Ok (s', v, (spec_insert_new (max_cache_size_ s) key v l).2) /\
    refines (spec_insert_new (max_cache_size_ s) key v l).1 s' /\
    max_cache_size_ s' = max_cache_size_ s.
Proof.
  intros (es & Hr & <-) Hmax. unfold spec_insert_new, InsertNew.
  destruct (decide (key ∈ es.*2.*1)) as [Hin|Hin].
  - apply mem_keys in Hin as (e & He & <-). pose proof Hr as [_ _ Hi Hn _ _].
    rewrite (map_ref_hit es) by done. simpl. rewrite (repr_splice es) by done. simpl.
    destruct (filter_key_snd es e Hi Hn He) as [Ha Hb]. eexists.
    split; [rewrite Ha, (surjective_pairing e.2); reflexivity|split; [|done]].
    exists ((e.1, (e.2.1, v)) :: filter (λ x, x.2.1 ≠ e.2.1) es). split.
    + by apply repr_front.
    + csimpl. by rewrite Hb.
  - destruct (insert_fresh es s key v Hr Hmax Hin) as (es' & s0 & He & Hes & Hr').
    pose proof (evict_if_full_max _ _ _ He) as Hms. rewrite map_ref_max in Hms.
    pose proof (map_ref_miss es key s Hr Hin) as Hmiss.
    destruct (map_ref s key) as [s1 e1]. simpl in *. subst e1. simpl. rewrite He. simpl.
    eexists. split_and!; [done| |done].
    exists ((next_node s0, (key, v)) :: es'). split; [done|]. csimpl. by rewrite Hes.
Qed.

(** [FindOrNull] returns the value of the key in the abstract list and
    moves the key to the front, or returns null and changes nothing. *)
Theorem LRUCache_FindOrNull_refines l s key :
  refines l s ->
  exists s', FindOrNull s key = Ok (s', (spec_find key l).2) /\
    refines (spec_find key l).1 s' /\ max_cache_size_ s' = max_cache_size_ s.
Proof.
  intros (es & Hr & <-). unfold spec_find, FindOrNull.
  destruct (decide (key ∈ es.*2.*1)) as [Hin|Hin].
  - apply mem_keys in Hin as (e & He & <-). pose proof Hr as [_ _ Hi Hn _ _].
    rewrite (repr_lookup es) by done. simpl. rewrite (repr_splice es) by done. simpl.
    rewrite touch_front by done. destruct (filter_key_snd es e Hi Hn He) as [-> _].
    eexists. split_and!; [done| |done]. eexists. split; [by apply repr_touch|done].
  - rewrite (repr_lookup_None es) by done. exists s.
    assert (Hno : Forall (λ p, p.1 ≠ key) es.*2).
    { apply Forall_forall. intros p Hp <-. apply Hin. by apply list_elem_of_fmap_2. }
    unfold touch. rewrite (list_filter_none (λ p, p.1 = key)) by done.
    rewrite (list_filter_all (λ p, p.1 ≠ key)) by done.
    split_and!; [done| |done]. by exists es.
Qed.

(** [EvictAll] terminates, evicts every pair, the least recently used one
    first, and leaves an empty cache. *)
Theorem LRUCache_EvictAll_empties l s :
  refines l s -> exists s', EvictAll s = Ok (s', reverse l) /\ refines [] s'.
Proof.
  intros (es & Hr & <-). unfold EvictAll.
  destruct (EvictAll_repr es s [] Hr) as (s' & Hs' & Hr').
  rewrite (repr_map _ _ Hr), size_entries by apply Hr. exists s'. split; [done|by exists []].
Qed.

End properties.

Lemma LRUCache_Emplace_refines_witness :
  exists s' w, Emplace (create 2 : LRUCache.t nat nat) 1 10 = Ok (s', w, []) /\
    refines [(1, 10)] s' /\ head [(1, 10)] = Some (1, w) /\ max_cache_size_ s' = 2.
Proof. apply (LRUCache_Emplace_refines [] (create 2) 1 10); [apply refines_create|simpl; lia]. Defined.

Lemma LRUCache_InsertNew_refines_witness :
  exists s', InsertNew (create 2 : LRUCache.t nat nat) 1 10 = Ok (s', 10, []) /\
    refines [(1, 10)] s' /\ max_cache_size_ s' = 2.
Proof. apply (LRUCache_InsertNew_refines [] (create 2) 1 10); [apply refines_create|simpl; lia]. Defined.

Lemma LRUCache_FindOrNull_refines_witness :
  exists s', FindOrNull (create 2 : LRUCache.t nat nat) 1 = Ok (s', None) /\
    refines [] s' /\ max_cache_size_ s' = 2.
Proof. apply (LRUCache_FindOrNull_refines [] (create 2) 1), refines_create. Defined.

Lemma LRUCache_EvictAll_empties_witness :
  exists s', EvictAll (create 3 : LRUCache.t nat nat) = Ok (s', []) /\ refines [] s'.
Proof. apply (LRUCache_EvictAll_empties [] (create 3)), refines_create. Defined.

(** a cache constructed with a maximum size of zero takes [keys_.back()] of
    an empty list on the first insertion, whatever the key and the value. *)
Theorem LRUCache_zero_capacity_undefined {K V} `{Countable K} (key : K) (v : V) :
  Emplace (create 0) key v = Fail Undefined /\ InsertNew (create 0) key v = Fail Undefined.
Proof.
  unfold Emplace, InsertNew, create, map_ref. simpl. rewrite lookup_empty. simpl.
  unfold evict_if_full. simpl. rewrite map_size_insert_None by apply lookup_empty.
  by rewrite map_size_empty.
Qed.
