(* ===== verification/Packer.v ===== *)
(** Model of [src/src/packer.h] and [src/src/packer.cc].

    [PackedUintSeq] stores a non-decreasing sequence of 64-bit integers as the
    variable-length (1 to 8 bytes) encoding of the differences; [RLEField]
    stores a sequence as strides [X, X + t, X + 2t, ...].  Both are proved to
    give back exactly what was appended, through [Restore], through the
    iterators and (for [RLEField]) through random access. *)

From S2P Require Import Prelude.

Open Scope Z_scope.

#[local] Arguments Z.shiftl : simpl never.
#[local] Arguments Z.shiftr : simpl never.
#[local] Arguments Z.lor : simpl never.
#[local] Arguments Z.land : simpl never.
#[local] Arguments u8 : simpl never.

(** ** Big-endian byte splitting *)

Lemma testbit_u8 x i : 0 <= i -> Z.testbit (u8 x) i = (i <? 8) && Z.testbit x i.
Proof.
  intros Hi. unfold u8, wrap. destruct (Z.ltb_spec i 8).
  - by rewrite Z.mod_pow2_bits_low.
  - by rewrite Z.mod_pow2_bits_high.
Qed.

(** Joining the bits above [m] with the byte at [k = m - 8]. *)
Lemma be_step d k m :
  0 <= k -> m = k + 8 ->
  Z.lor (Z.shiftl (Z.shiftr d m) m) (Z.shiftl (u8 (Z.shiftr d k)) k)
  = Z.shiftl (Z.shiftr d k) k.
Proof.
  intros Hk ->. apply Z.bits_inj'. intros i Hi. rewrite Z.lor_spec, !Z.shiftl_spec by done.
  destruct (Z.ltb_spec i k).
  { rewrite !Z.testbit_neg_r by lia. done. }
  rewrite testbit_u8, (Z.shiftr_spec d k (i - k)) by lia.
  replace (i - k + k) with i by lia.
  destruct (Z.ltb_spec (i - k) 8); simpl.
  - by rewrite Z.testbit_neg_r by lia.
  - rewrite Z.shiftr_spec by lia. replace (i - (k + 8) + (k + 8)) with i by lia.
    by rewrite orb_false_r.
Qed.

Lemma be_last d : Z.lor (Z.shiftl (Z.shiftr d 8) 8) (u8 d) = d.
Proof.
  pose proof (be_step d 0 8 ltac:(lia) eq_refl) as H.
  by rewrite Z.shiftr_0_r, !Z.shiftl_0_r in H.
Qed.

(** The first byte: a 3-bit tag above the 5 most significant bits. *)
Lemma first_byte top tag :
  0 <= top < 32 -> 0 <= tag < 256 -> Z.land tag 31 = 0 ->
  Z.land (u8 (Z.lor top tag)) 0xE0 = tag /\ Z.land (u8 (Z.lor top tag)) 0x1F = top.
Proof.
  intros Htop Htag H31.
  assert (Hhigh : forall i, 5 <= i -> Z.testbit top i = false).
  { intros i Hi. rewrite <-(Z.mod_small top (2 ^ 5)) by lia.
    by apply Z.mod_pow2_bits_high. }
  assert (Htag8 : forall i, 8 <= i -> Z.testbit tag i = false).
  { intros i Hi. rewrite <-(Z.mod_small tag (2 ^ 8)) by lia.
    by apply Z.mod_pow2_bits_high. }
  assert (Hlow : forall i, 0 <= i < 5 -> Z.testbit tag i = false).
  { intros i Hi. assert (Hb : Z.testbit (Z.land tag (Z.ones 5)) i = false).
    { change (Z.ones 5) with 31. rewrite H31. apply Z.testbit_0_l. }
    rewrite Z.land_spec, Z.ones_spec_low, andb_true_r in Hb by lia. done. }
  change 0xE0 with (Z.shiftl (Z.ones 3) 5). change 0x1F with (Z.ones 5).
  split; apply Z.bits_inj'; intros i Hi; rewrite Z.land_spec, testbit_u8, Z.lor_spec by done.
  - rewrite Z.shiftl_spec by done. destruct (Z.ltb_spec i 5).
    + rewrite (Hlow i) by lia. rewrite (Z.testbit_neg_r _ (i - 5)) by lia. apply andb_false_r.
    + rewrite (Hhigh i) by lia. destruct (Z.ltb_spec i 8).
      * rewrite Z.ones_spec_low by lia. simpl. apply andb_true_r.
      * by rewrite (Htag8 i) by lia.
  - destruct (Z.ltb_spec i 5).
    + rewrite (Hlow i) by lia. rewrite Z.ones_spec_low by lia.
      rewrite (proj2 (Z.ltb_lt i 8)) by lia. simpl. by rewrite orb_false_r, andb_true_r.
    + rewrite (Hhigh i), Z.ones_spec_high by lia. apply andb_false_r.
Qed.

Lemma shiftr_range d k n : 0 <= k -> 0 <= n -> 0 <= d < 2 ^ (k + n) -> 0 <= Z.shiftr d k < 2 ^ n.
Proof.
  intros Hk Hn Hd. rewrite Z.shiftr_div_pow2 by done. rewrite Z.pow_add_r in Hd by done. split.
  - apply Z.div_pos; [lia|]. by apply Z.pow_pos_nonneg.
  - apply Z.div_lt_upper_bound; [by apply Z.pow_pos_nonneg|lia].
Qed.

(** ** PackedUintSeq *)
Module PackedUintSeq.

Definition kOneByteLimit : Z := 32.
Definition kTwoByteLimit : Z := 8192.
Definition kThreeByteLimit : Z := 2097152.
Definition kFourByteLimit : Z := 536870912.
Definition kFiveByteLimit : Z := 137438953472.
Definition kSixByteLimit : Z := 35184372088832.
Definition kSevenByteLimit : Z := 9007199254740992.
Definition kEightByteLimit : Z := 2305843009213693952.

Definition kOneBytePacked : Z := 0x0.
Definition kTwoBytesPacked : Z := 0x20.
Definition kThreeBytesPacked : Z := 0x40.
Definition kFourBytesPacked : Z := 0x60.
Definition kFiveBytesPacked : Z := 0x80.
Definition kSixBytesPacked : Z := 0xA0.
Definition kSevenBytesPacked : Z := 0xC0.
Definition kEightBytesPacked : Z := 0xE0.
Definition kMask : Z := 0x1F.

Record t := mk { data_ : list Z; len_ : nat; last_append_ : Z }.

Definition init : t := mk [] 0 0.

Definition SizeBytes (s : t) : nat := length (data_ s).

Local Notation "x >> n" := (Z.shiftr x n) (at level 35).
Local Notation "x << n" := (Z.shiftl x n) (at level 35).
Local Notation "x .| y" := (Z.lor x y) (at level 36, left associativity).

(** The chain of comparisons of [Append]: the bytes pushed for a difference
    ([push_back] converts to [uint8_t]). *)
Definition pack (diff : Z) : outcome (list Z) :=
  if diff <? kOneByteLimit then
    Ok [u8 diff]
  else if diff <? kTwoByteLimit then
    Ok [u8 (diff >> 8 .| kTwoBytesPacked); u8 diff]
  else if diff <? kThreeByteLimit then
    Ok [u8 (diff >> 16 .| kThreeBytesPacked); u8 (diff >> 8); u8 (diff >> 0)]
  else if diff <? kFourByteLimit then
    Ok [u8 (diff >> 24 .| kFourBytesPacked); u8 (diff >> 16); u8 (diff >> 8); u8 diff]
  else if diff <? kFiveByteLimit then
    Ok [u8 (diff >> 32 .| kFiveBytesPacked); u8 (diff >> 24); u8 (diff >> 16);
        u8 (diff >> 8); u8 diff]
  else if diff <? kSixByteLimit then
    Ok [u8 (diff >> 40 .| kSixBytesPacked); u8 (diff >> 32); u8 (diff >> 24);
        u8 (diff >> 16); u8 (diff >> 8); u8 diff]
  else if diff <? kSevenByteLimit then
    Ok [u8 (diff >> 48 .| kSevenBytesPacked); u8 (diff >> 40); u8 (diff >> 32);
        u8 (diff >> 24); u8 (diff >> 16); u8 (diff >> 8); u8 diff]
  else if diff <? kEightByteLimit then
    Ok [u8 (diff >> 56 .| kEightBytesPacked); u8 (diff >> 48); u8 (diff >> 40);
        u8 (diff >> 32); u8 (diff >> 24); u8 (diff >> 16); u8 (diff >> 8); u8 diff]
  else Fail CheckFailed.

(** [Append(value, bytes)]; [bytes] is threaded through. *)
Definition Append (s : t) (value : Z) (bytes : nat) : outcome (t * nat) :=
  _ ← check (last_append_ s <=? value);
  let diff := u64 (value - last_append_ s) in
  packed ← pack diff;
  Ok (mk (data_ s ++ packed) (S (len_ s)) value, (bytes + length packed)%nat).

(** Returns the value and the increment of the offset.  Every shifted operand
    is below 2^64, so the [uint64_t] arithmetic does not wrap. *)
Definition DeflateSingleInteger (s : t) (offset : nat) : outcome (Z * nat) :=
  let d i := vec_at (data_ s) (offset + i)%nat in
  c ← vec_at (data_ s) offset;
  let sign_bits := Z.land c kEightBytesPacked in
  let head := Z.land c kMask in
  if sign_bits =? kOneBytePacked then Ok (head, 1%nat)
  else if sign_bits =? kTwoBytesPacked then
    b1 ← d 1%nat;
    Ok ((head << 8) .| b1, 2%nat)
  else if sign_bits =? kThreeBytesPacked then
    b1 ← d 1%nat; b2 ← d 2%nat;
    Ok ((head << 16) .| (b1 << 8) .| b2, 3%nat)
  else if sign_bits =? kFourBytesPacked then
    b1 ← d 1%nat; b2 ← d 2%nat; b3 ← d 3%nat;
    Ok ((head << 24) .| (b1 << 16) .| (b2 << 8) .| b3, 4%nat)
  else if sign_bits =? kFiveBytesPacked then
    b1 ← d 1%nat; b2 ← d 2%nat; b3 ← d 3%nat; b4 ← d 4%nat;
    Ok ((head << 32) .| (b1 << 24) .| (b2 << 16) .| (b3 << 8) .| b4, 5%nat)
  else if sign_bits =? kSixBytesPacked then
    b1 ← d 1%nat; b2 ← d 2%nat; b3 ← d 3%nat; b4 ← d 4%nat; b5 ← d 5%nat;
    Ok ((head << 40) .| (b1 << 32) .| (b2 << 24) .| (b3 << 16) .| (b4 << 8) .| b5, 6%nat)
  else if sign_bits =? kSevenBytesPacked then
    b1 ← d 1%nat; b2 ← d 2%nat; b3 ← d 3%nat; b4 ← d 4%nat; b5 ← d 5%nat; b6 ← d 6%nat;
    Ok ((head << 48) .| (b1 << 40) .| (b2 << 32) .| (b3 << 24) .| (b4 << 16)
        .| (b5 << 8) .| b6, 7%nat)
  else
    b1 ← d 1%nat; b2 ← d 2%nat; b3 ← d 3%nat; b4 ← d 4%nat; b5 ← d 5%nat; b6 ← d 6%nat;
    b7 ← d 7%nat;
    Ok ((head << 56) .| (b1 << 48) .| (b2 << 40) .| (b3 << 32) .| (b4 << 24)
        .| (b5 << 16) .| (b6 << 8) .| b7, 8%nat).

Fixpoint Restore_loop (s : t) (n : nat) (offset : nat) (prev_value : Z) : outcome (list Z) :=
  match n with
  | O => Ok []
  | S n' =>
      '(diff, inc) ← DeflateSingleInteger s offset;
      let prev_value := u64 (prev_value + diff) in
      rest ← Restore_loop s n' (offset + inc) prev_value;
      Ok (prev_value :: rest)
  end.
Definition Restore (s : t) : outcome (list Z) := Restore_loop s (len_ s) 0 0.

(** *** PackedUintSeqIterator *)
Record iter := mkIter { next_offset_ : nat; prev_value_ : Z; element_count_ : nat }.
Definition iter_init : iter := mkIter 0 0 0.

(** [Next]: [None] when it returns false. *)
Definition Next (s : t) (it : iter) : outcome (iter * option Z) :=
  if (len_ s <=? element_count_ it)%nat then Ok (it, None)
  else
    '(diff, inc) ← DeflateSingleInteger s (next_offset_ it);
    let v := u64 (prev_value_ it + diff) in
    Ok (mkIter (next_offset_ it + inc) v (S (element_count_ it)), Some v).

(** A client's [while (it.Next(&v)) out.push_back(v);]. *)
Fixpoint iterate (fuel : nat) (s : t) (it : iter) : outcome (list Z) :=
  match fuel with
  | O => Fail OutOfFuel
  | S fuel =>
      '(it', o) ← Next s it;
      match o with
      | None => Ok []
      | Some v => rest ← iterate fuel s it'; Ok (v :: rest)
      end
  end.

(** *** One integer *)

(** Case of [DeflateSingleInteger] for one tag: read the first byte, dispatch on
    its tag, then read the remaining bytes. *)
Ltac deflate_case Hat Hat0 top k tag :=
  destruct (first_byte top tag) as [Ht Hh];
  [try (apply (shiftr_range _ k 5); lia); lia|by vm_compute|by vm_compute|];
  rewrite (Hat0 _ eq_refl); cbv beta iota zeta delta [mbind outcome_bind];
  unfold kMask, kEightBytesPacked, kOneBytePacked, kTwoBytesPacked, kThreeBytesPacked,
    kFourBytesPacked, kFiveBytesPacked, kSixBytesPacked, kSevenBytesPacked in *;
  rewrite Ht, Hh; cbv beta iota zeta delta [Z.eqb Pos.eqb];
  repeat match goal with
    | |- context [vec_at _ (_ + ?i)%nat] => rewrite (Hat i _ eq_refl); cbv beta iota
    end.

Lemma deflate_pack s pre post diff bs :
  0 <= diff -> pack diff = Ok bs -> data_ s = pre ++ bs ++ post ->
  DeflateSingleInteger s (length pre) = Ok (diff, length bs).
Proof.
  intros Hd Hp Hdata. unfold DeflateSingleInteger.
  assert (Hat : forall i b, bs !! i = Some b ->
            vec_at (data_ s) (length pre + i)%nat = Ok b).
  { intros i b Hi. apply vec_at_Ok. rewrite Hdata, lookup_app_r by lia.
    replace (length pre + i - length pre)%nat with i by lia.
    by apply lookup_app_l_Some. }
  assert (Hat0 : forall b, bs !! 0%nat = Some b -> vec_at (data_ s) (length pre) = Ok b).
  { intros b Hb. rewrite <-(Nat.add_0_r (length pre)). by apply Hat. }
  unfold pack, kOneByteLimit, kTwoByteLimit, kThreeByteLimit, kFourByteLimit, kFiveByteLimit,
    kSixByteLimit, kSevenByteLimit, kEightByteLimit in Hp.
  destruct (Z.ltb_spec diff 32); [|destruct (Z.ltb_spec diff 8192);
    [|destruct (Z.ltb_spec diff 2097152); [|destruct (Z.ltb_spec diff 536870912);
    [|destruct (Z.ltb_spec diff 137438953472); [|destruct (Z.ltb_spec diff 35184372088832);
    [|destruct (Z.ltb_spec diff 9007199254740992);
    [|destruct (Z.ltb_spec diff 2305843009213693952); [|done]]]]]]]];
    injection Hp as <-.
  - rewrite <-(Z.lor_0_r diff) in Hat0.
    deflate_case Hat Hat0 diff 0 0. done.
  - deflate_case Hat Hat0 (diff >> 8) 8 kTwoBytesPacked. by rewrite be_last.
  - rewrite Z.shiftr_0_r in Hat. deflate_case Hat Hat0 (diff >> 16) 16 kThreeBytesPacked. by rewrite (be_step diff 8 16), be_last by done.
  - deflate_case Hat Hat0 (diff >> 24) 24 kFourBytesPacked. by rewrite (be_step diff 16 24), (be_step diff 8 16), be_last by done.
  - deflate_case Hat Hat0 (diff >> 32) 32 kFiveBytesPacked. by rewrite (be_step diff 24 32), (be_step diff 16 24), (be_step diff 8 16), be_last by done.
  - deflate_case Hat Hat0 (diff >> 40) 40 kSixBytesPacked. by rewrite (be_step diff 32 40), (be_step diff 24 32), (be_step diff 16 24), (be_step diff 8 16), be_last by done.
  - deflate_case Hat Hat0 (diff >> 48) 48 kSevenBytesPacked. by rewrite (be_step diff 40 48), (be_step diff 32 40), (be_step diff 24 32), (be_step diff 16 24), (be_step diff 8 16), be_last by done.
  - deflate_case Hat Hat0 (diff >> 56) 56 kEightBytesPacked. by rewrite (be_step diff 48 56), (be_step diff 40 48), (be_step diff 32 40), (be_step diff 24 32), (be_step diff 16 24), (be_step diff 8 16), be_last by done.
Qed.

(** *** Sequences *)

(** What [Append] accepts after [prev]. *)
Fixpoint appendable (prev : Z) (vs : list Z) : bool :=
  match vs with
  | [] => true
  | v :: r => (prev <=? v) && (v - prev <? kEightByteLimit) && (v <? 2 ^ 64) && appendable v r
  end.

Fixpoint diffs (prev : Z) (vs : list Z) : list Z :=
  match vs with [] => [] | v :: r => (v - prev) :: diffs v r end.

Lemma pack_total diff :
  0 <= diff -> diff < kEightByteLimit ->
  exists bs, pack diff = Ok bs /\ (1 <= length bs <= 8)%nat.
Proof.
  intros H0 H8. unfold pack. repeat case_match; try by (eexists; split; [reflexivity|simpl; lia]).
  apply Z.ltb_ge in H7. lia.
Qed.

Lemma pack_fails diff : kEightByteLimit <= diff -> pack diff = Fail CheckFailed.
Proof.
  intros H. unfold pack, kEightByteLimit, kOneByteLimit, kTwoByteLimit, kThreeByteLimit,
    kFourByteLimit, kFiveByteLimit, kSixByteLimit, kSevenByteLimit in *.
  repeat match goal with
    | |- context [?x <? ?y] => rewrite (proj2 (Z.ltb_ge x y)) by lia
    end. done.
Qed.

(** The whole behaviour of [Append]. *)
Lemma Append_cases s value bytes :
  0 <= last_append_ s -> value < 2 ^ 64 ->
  if (last_append_ s <=? value) && (value - last_append_ s <? kEightByteLimit)
  then exists bs, pack (value - last_append_ s) = Ok bs /\ (1 <= length bs <= 8)%nat /\
         Append s value bytes =
           Ok (mk (data_ s ++ bs) (S (len_ s)) value, (bytes + length bs)%nat)
  else Append s value bytes = Fail CheckFailed.
Proof.
  intros Hl Hv. unfold Append. destruct (Z.leb_spec (last_append_ s) value); [|done].
  cbv beta iota zeta delta [check mbind outcome_bind andb].
  unfold u64. rewrite wrap_id by lia.
  destruct (Z.ltb_spec (value - last_append_ s) kEightByteLimit) as [H8|H8].
  - destruct (pack_total (value - last_append_ s)) as (bs & -> & Hbs); [lia|done|].
    by exists bs.
  - by rewrite pack_fails.
Qed.

(** A run of [Append] calls with the byte counter threaded through. *)
Definition AppendAll (vs : list Z) (s : t) (bytes : nat) : outcome (t * nat) :=
  mfold (λ sb v, Append sb.1 v sb.2) vs (s, bytes).

Lemma AppendAll_spec vs s bytes :
  0 <= last_append_ s -> appendable (last_append_ s) vs = true ->
  exists bss s', AppendAll vs s bytes = Ok (s', (bytes + length (concat bss))%nat) /\
    Forall2 (λ d bs, pack d = Ok bs) (diffs (last_append_ s) vs) bss /\
    data_ s' = data_ s ++ concat bss /\ len_ s' = (len_ s + length vs)%nat.
Proof.
  unfold AppendAll. revert s bytes. induction vs as [|v vs IH]; intros s bytes Hl Ha.
  { exists [], s. simpl. rewrite app_nil_r, !Nat.add_0_r. by split_and!. }
  cbn [appendable] in Ha. rewrite !andb_true_iff in Ha. destruct Ha as [[[H1 H2] H3] H4].
  apply Z.leb_le in H1. apply Z.ltb_lt in H3.
  pose proof (Append_cases s v bytes Hl H3) as Hc. rewrite (proj2 (Z.leb_le _ _) H1), H2 in Hc.
  destruct Hc as (bs & Hp & _ & Happ). cbn [mfold fst snd]. rewrite Happ.
  cbv beta iota zeta delta [mbind outcome_bind].
  destruct (IH (mk (data_ s ++ bs) (S (len_ s)) v) (bytes + length bs)%nat)
    as (bss & s' & Hf & Hall & Hd & Hlen); [simpl; lia|done|]. simpl in *.
  exists (bs :: bss), s'. simpl. rewrite length_app. split_and!.
  - rewrite Hf. do 2 f_equal. lia.
  - by constructor.
  - by rewrite Hd, <-app_assoc.
  - lia.
Qed.

Lemma Restore_loop_spec s vs prev pre bss :
  0 <= prev -> appendable prev vs = true ->
  Forall2 (λ d bs, pack d = Ok bs) (diffs prev vs) bss -> data_ s = pre ++ concat bss ->
  Restore_loop s (length vs) (length pre) prev = Ok vs.
Proof.
  revert prev pre bss. induction vs as [|v vs IH]; intros prev pre bss Hp Ha Hall Hd; [done|].
  cbn [appendable] in Ha. rewrite !andb_true_iff in Ha. destruct Ha as [[[H1 H2] H3] H4].
  apply Z.leb_le in H1. apply Z.ltb_lt in H3.
  cbn [diffs] in Hall. apply Forall2_cons_inv_l in Hall as (bs & bss' & Hbs & Hall & ->).
  cbn [length Restore_loop]. rewrite (deflate_pack s pre (concat bss') (v - prev) bs);
    [|lia|done|done]. cbv beta iota zeta delta [mbind outcome_bind].
  replace (prev + (v - prev)) with v by lia. unfold u64. rewrite wrap_id by lia.
  rewrite <-length_app. rewrite (IH v (pre ++ bs) bss'); [done|lia|done|done|].
  by rewrite <-app_assoc.
Qed.

Lemma iterate_S fuel s it :
  iterate (S fuel) s it =
    '(it', o) ← Next s it;
    match o with None => Ok [] | Some v => rest ← iterate fuel s it'; Ok (v :: rest) end.
Proof. done. Qed.

(** Iterating is restoring, from any position. *)
Lemma iterate_Restore s n off prev :
  (n <= len_ s)%nat ->
  iterate (S n) s (mkIter off prev (len_ s - n)) = Restore_loop s n off prev.
Proof.
  revert off prev. induction n as [|n IH]; intros off prev Hn.
  - simpl. unfold Next. simpl. rewrite Nat.sub_0_r, Nat.leb_refl. done.
  - rewrite iterate_S. unfold Next. cbn [element_count_ next_offset_ prev_value_ Restore_loop].
    rewrite (proj2 (Nat.leb_gt _ _)) by lia.
    destruct (DeflateSingleInteger s off) as [[diff inc]|e]; [|done].
    cbv beta iota zeta delta [mbind outcome_bind].
    replace (S (len_ s - S n)) with (len_ s - n)%nat by lia. by rewrite IH by lia.
Qed.

End PackedUintSeq.

(** ** RLEField *)
Module RLEField.

(** What a stride computes with values of the element type [T]; [rle_sub] is
    [increment_ = value - value_] and [rle_at x n t] is [x + n * t], both
    converted back to [T]; [rle_at_iter] is the expression of the iterator,
    [x + static_cast<T>(n) * t]. *)
Class RleType (T : Type) := {
  rle_eq_dec :: EqDecision T;
  rle_sub : T -> T -> T;
  rle_at : T -> nat -> T -> T;
  rle_at_iter : T -> nat -> T -> T;
  rle_min : T -> T -> T;
}.

(** What the algorithm relies on. *)
Class RleLaws (T : Type) `{RleType T} : Prop := {
  rle_at_0 : forall x t, rle_at x 0 t = x;
  rle_at_1 : forall x v, rle_at x 1 (rle_sub v x) = v;
  rle_iter : forall x n t, rle_at_iter x n t = rle_at x n t;
}.

Section rle.
Context {T : Type} `{RleType T}.

Record Stride := mkStride { value_ : T; increment_ : T; len_ : nat; starting_index_ : nat }.

(** [min_value_] and [max_value_] have no initializer: the constructor leaves
    whatever the memory held. *)
Record t := mk {
  strides_ : list Stride; total_num_elements_ : nat; min_value_ : T; max_value_ : T }.

(** The increment of a new stride is [0]. *)
Context (zero : T).

Definition init (junk_min junk_max : T) : t := mk [] 0 junk_min junk_max.

Definition Append (f : t) (value : T) : t :=
  let total := S (total_num_elements_ f) in
  match last (strides_ f) with
  | None => mk [mkStride value zero 0 0] total (min_value_ f) (max_value_ f)
  | Some last_stride =>
      let front := take (length (strides_ f) - 1) (strides_ f) in
      if decide (len_ last_stride = 0%nat) then
        mk (front ++ [mkStride (value_ last_stride) (rle_sub value (value_ last_stride)) 1
                        (starting_index_ last_stride)]) total (min_value_ f) (max_value_ f)
      else
        let expected := rle_at (value_ last_stride) (len_ last_stride + 1) (increment_ last_stride) in
        if decide (value = expected) then
          mk (front ++ [mkStride (value_ last_stride) (increment_ last_stride)
                          (S (len_ last_stride)) (starting_index_ last_stride)])
            total (min_value_ f) (max_value_ f)
        else
          mk (strides_ f ++ [mkStride value zero 0
                               (starting_index_ last_stride + len_ last_stride + 1)])
            total (rle_min (min_value_ f) value) (rle_min (max_value_ f) value)
  end.

(** The constructor from a vector. *)
Definition of_vector (junk_min junk_max : T) (values : list T) : t :=
  fold_left Append values (init junk_min junk_max).

Definition restore_stride (s : Stride) : list T :=
  value_ s :: map (λ i, rle_at (value_ s) (i + 1) (increment_ s)) (seq 0 (len_ s)).
Definition Restore (f : t) : list T := concat (map restore_stride (strides_ f)).

Definition size (f : t) : nat := total_num_elements_ f.

Definition min_value (f : t) : outcome T :=
  _ ← check (0 <? total_num_elements_ f)%nat; Ok (min_value_ f).
Definition max_value (f : t) : outcome T :=
  _ ← check (0 <? total_num_elements_ f)%nat; Ok (max_value_ f).

(** [std::upper_bound] on the strides: the first one that starts after [index]. *)
Fixpoint upper_bound (index : nat) (l : list Stride) : nat :=
  match l with
  | [] => 0
  | s :: l' => if (index <? starting_index_ s)%nat then 0 else S (upper_bound index l')
  end.

Definition at_ (f : t) (index : nat) : outcome T :=
  _ ← check (index <? total_num_elements_ f)%nat;
  let it := upper_bound index (strides_ f) in
  _ ← check (negb (it =? 0)%nat);
  stride ← vec_at (strides_ f) (it - 1);
  let delta := (index - starting_index_ stride)%nat in
  Ok (rle_at (value_ stride) delta (increment_ stride)).

(** *** RLEFieldIterator *)
Record iter := mkIter { curr_stride_ : option Stride; stride_index_ : nat; index_in_stride_ : nat }.
Definition iter_init : iter := mkIter None 0 0.

Definition stride_value (it : iter) (s : Stride) : iter * option T :=
  (mkIter (Some s) (stride_index_ it) (S (index_in_stride_ it)),
   Some (rle_at_iter (value_ s) (index_in_stride_ it) (increment_ s))).

Definition Next (f : t) (it : iter) : iter * option T :=
  let advance := match curr_stride_ it with
                 | None => true
                 | Some s => (len_ s <? index_in_stride_ it)%nat
                 end in
  if advance then
    match strides_ f !! stride_index_ it with
    | None => (it, None)
    | Some s => stride_value (mkIter (Some s) (S (stride_index_ it)) 0) s
    end
  else match curr_stride_ it with
       | Some s => stride_value it s
       | None => (it, None)
       end.

Fixpoint iterate (fuel : nat) (f : t) (it : iter) : outcome (list T) :=
  match fuel with
  | O => Fail OutOfFuel
  | S fuel =>
      match Next f it with
      | (_, None) => Ok []
      | (it', Some v) => rest ← iterate fuel f it'; Ok (v :: rest)
      end
  end.

(** *** Correctness against the interface *)
Context `{!RleLaws T}.

(** The strides are contiguous from index [i]. *)
Fixpoint contiguous (i : nat) (l : list Stride) : Prop :=
  match l with
  | [] => True
  | s :: l' => starting_index_ s = i /\ contiguous (i + len_ s + 1) l'
  end.

Lemma length_restore_stride s : length (restore_stride s) = S (len_ s).
Proof. unfold restore_stride. simpl. by rewrite length_map, length_seq. Qed.

Lemma contiguous_app i l1 l2 :
  contiguous i (l1 ++ l2) <->
  contiguous i l1 /\ contiguous (i + length (concat (map restore_stride l1))) l2.
Proof.
  revert i. induction l1 as [|s l1 IH]; intros i; [simpl; rewrite Nat.add_0_r; tauto|].
  cbn [app contiguous map concat]. rewrite IH, length_app, length_restore_stride.
  replace (i + (S (len_ s) + length (concat (map restore_stride l1))))%nat
    with (i + len_ s + 1 + length (concat (map restore_stride l1)))%nat by lia. tauto.
Qed.

(** The representation invariant, which every [Append] preserves. *)
Definition rep (vs : list T) (f : t) : Prop :=
  Restore f = vs /\ total_num_elements_ f = length vs /\ contiguous 0 (strides_ f).

Lemma rle_rep_init a b : rep [] (init a b).
Proof. done. Qed.

Lemma rep_Append vs f v : rep vs f -> rep (vs ++ [v]) (Append f v).
Proof using RleLaws0.
  intros (Hr & Ht & Hc). unfold Append, rep, Restore in *.
  destruct (strides_ f) as [|s front _] eqn:Hs using rev_ind.
  { simpl in *. subst vs. simpl. by rewrite Ht. }
  rewrite last_snoc. rewrite length_app. cbn [length].
  rewrite Nat.add_sub, take_app_length' by done.
  rewrite map_app, concat_app in Hr. cbn [map concat] in Hr. rewrite app_nil_r in Hr.
  apply contiguous_app in Hc as [Hc1 [Hc2 _]]. simpl in Hc2.
  destruct (decide (len_ s = 0)%nat) as [Hz|Hz]; [|case_decide as He]; cbn [strides_ total_num_elements_].
  - rewrite map_app, concat_app, contiguous_app, length_app. cbn [map concat length].
    rewrite app_nil_r. split_and!; [|lia|done|by simpl].
    rewrite <-Hr, <-app_assoc. f_equal. unfold restore_stride. rewrite Hz. simpl.
    by rewrite rle_at_1.
  - rewrite map_app, concat_app, contiguous_app, length_app. cbn [map concat length].
    rewrite app_nil_r. split_and!; [|lia|done|by simpl].
    rewrite <-Hr, <-app_assoc. f_equal. unfold restore_stride. cbn [len_ value_ increment_].
    rewrite seq_S, map_app. simpl. by rewrite He.
  - rewrite map_app, concat_app, contiguous_app, length_app. cbn [map concat length].
    rewrite map_app, concat_app. cbn [map concat]. rewrite !app_nil_r, Hr.
    split_and!; [done|lia|by apply contiguous_app|]. simpl. split; [|done].
    rewrite <-Hr, length_app, length_restore_stride. lia.
Qed.

Lemma rep_of_vector a b vs : rep vs (of_vector a b vs).
Proof using RleLaws0.
  unfold of_vector. induction vs as [|v vs IH] using rev_ind; [apply rle_rep_init|].
  rewrite fold_left_app. simpl. by apply rep_Append.
Qed.

(** Reading element [i] of one stride. *)
Lemma restore_stride_lookup s i :
  (i <= len_ s)%nat -> restore_stride s !! i = Some (rle_at (value_ s) i (increment_ s)).
Proof using RleLaws0.
  intros Hi. unfold restore_stride. destruct i as [|i]; simpl; [by rewrite rle_at_0|].
  change (map ?f ?l) with (f <$> l). rewrite list_lookup_fmap, lookup_seq_lt by lia. simpl.
  by rewrite Nat.add_1_r.
Qed.

(** The stride [upper_bound] selects is the one that holds the index. *)
Lemma upper_bound_spec index i0 l :
  contiguous i0 l -> (i0 <= index < i0 + length (concat (map restore_stride l)))%nat ->
  exists s, upper_bound index l <> 0%nat /\ l !! (upper_bound index l - 1)%nat = Some s /\
    concat (map restore_stride l) !! (index - i0)%nat =
      Some (rle_at (value_ s) (index - starting_index_ s) (increment_ s)).
Proof using RleLaws0.
  revert i0. induction l as [|s l IH]; intros i0 Hc Hi; [simpl in Hi; lia|].
  cbn [contiguous] in Hc. destruct Hc as [Hs Hc]. cbn [map concat] in *.
  rewrite length_app, length_restore_stride in Hi. cbn [upper_bound].
  rewrite (proj2 (Nat.ltb_ge _ _)) by lia.
  destruct (decide (index <= i0 + len_ s)%nat) as [Hin|Hout].
  - assert (upper_bound index l = 0)%nat as ->.
    { destruct l as [|s' l]; [done|]. simpl in Hc |- *. destruct Hc as [Hs' _].
      by rewrite (proj2 (Nat.ltb_lt _ _)) by lia. }
    exists s. split_and!; [done|done|].
    rewrite lookup_app_l by (rewrite length_restore_stride; lia).
    rewrite Hs. apply restore_stride_lookup. lia.
  - destruct (IH (i0 + len_ s + 1)%nat Hc) as (s' & Hn & Hl & Hv); [lia|].
    exists s'. split_and!; [done| |].
    + simpl. rewrite Nat.sub_0_r. destruct (upper_bound index l); [done|].
      simpl. simpl in Hl. by rewrite Nat.sub_0_r in Hl.
    + rewrite lookup_app_r by (rewrite length_restore_stride; lia).
      rewrite length_restore_stride, <-Hv. f_equal. lia.
Qed.

Lemma at_spec vs f i : rep vs f -> at_ f i =
  match vs !! i with Some v => Ok v | None => Fail CheckFailed end.
Proof using RleLaws0.
  intros (Hr & Ht & Hc). unfold at_. rewrite Ht.
  destruct (Nat.ltb_spec i (length vs)) as [Hi|Hi]; [|by rewrite lookup_ge_None_2].
  destruct (upper_bound_spec i 0 (strides_ f) Hc) as (s & Hn & Hl & Hv).
  { unfold Restore in Hr. rewrite Hr. lia. }
  simpl. rewrite (proj2 (Nat.eqb_neq _ _) Hn). simpl. unfold vec_at. rewrite Hl. simpl.
  rewrite Nat.sub_0_r in Hv. unfold Restore in Hr. rewrite Hr in Hv. by rewrite Hv.
Qed.

(** The iterator, from position [j] of stride [s] with [rest] still to come. *)
Lemma iterate_stride f s front rest j fuel :
  strides_ f = front ++ s :: rest -> (j <= S (len_ s))%nat ->
  (length (drop j (restore_stride s) ++ concat (map restore_stride rest)) < fuel)%nat ->
  iterate fuel f (mkIter (Some s) (S (length front)) j) =
    Ok (drop j (restore_stride s) ++ concat (map restore_stride rest)).
Proof using RleLaws0.
  revert front s rest j. induction fuel as [|fuel IH]; intros front s rest j Hs Hj Hf; [lia|].
  rewrite length_app, length_drop, length_restore_stride in Hf. simpl. unfold Next. simpl.
  destruct (Nat.ltb_spec (len_ s) j) as [Hend|Hmid].
  - rewrite drop_ge by (rewrite length_restore_stride; lia). simpl.
    destruct rest as [|s' rest]; simpl.
    { by rewrite Hs, (lookup_ge_None_2 (front ++ [s])) by (rewrite length_app; simpl; lia). }
    rewrite Hs, lookup_app_r, Nat.sub_succ_l, Nat.sub_diag by lia. simpl.
    cbn [map concat] in Hf. rewrite length_app, length_restore_stride in Hf.
    rewrite rle_iter, rle_at_0.
    replace (S (S (length front))) with (S (length (front ++ [s]))) by (rewrite length_app; simpl; lia).
    rewrite (IH (front ++ [s]) s' rest 1%nat); [|by rewrite <-app_assoc|lia|].
    2: { rewrite length_app, length_drop, length_restore_stride. lia. }
    done.
  - simpl. rewrite (IH front s rest (S j)); [|done|lia|].
    2: { rewrite length_app, length_drop, length_restore_stride. lia. }
    simpl. rewrite rle_iter.
    rewrite (drop_S (restore_stride s) (rle_at (value_ s) j (increment_ s)) j); [done|].
    by apply restore_stride_lookup.
Qed.

Lemma rle_iterate_spec vs f : rep vs f -> iterate (S (length vs)) f iter_init = Ok vs.
Proof using RleLaws0.
  intros (Hr & Ht & Hc). unfold Restore in Hr. simpl. unfold Next. simpl.
  destruct (strides_ f) as [|s rest] eqn:Hs; simpl; [by subst|].
  rewrite rle_iter, rle_at_0. cbn [map concat] in Hr.
  rewrite (iterate_stride f s [] rest 1); [by rewrite <-Hr|done|lia|].
  rewrite <-Hr, !length_app, length_drop, length_restore_stride. lia.
Qed.

End rle.
Arguments t : clear implicits.

(** [uint64_t] (and, up to the choice of representatives, [int64_t]): a residue
    modulo 2^64; the product with the [size_t] counter is computed modulo 2^64. *)
Definition word64 : Type := { z : Z | (u64 z =? z) = true }.
Definition of_Z (z : Z) : word64 :=
  exist _ (u64 z) (proj2 (Z.eqb_eq _ _) (wrap_idemp 64 z ltac:(lia))).
#[global] Instance rle_u64 : RleType word64 := {|
  rle_sub v x := of_Z (`v - `x);
  rle_at x n t := of_Z (`x + Z.of_nat n * `t);
  rle_at_iter x n t := of_Z (`x + u64 (Z.of_nat n) * `t);
  rle_min x y := if `y <? `x then y else x;
|}.

Lemma word64_eq (a b : word64) : `a = `b -> a = b.
Proof. apply (sig_eq_pi _). Qed.

Lemma word64_id (a : word64) : u64 (`a) = `a.
Proof. destruct a as [z Hz]. by apply Z.eqb_eq. Qed.

Lemma u64_step x v : u64 (x + 1 * u64 (v - x)) = u64 v.
Proof.
  unfold u64, wrap. rewrite Z.mul_1_l, Z.add_mod_idemp_r by done. f_equal. lia.
Qed.

Lemma u64_mul_l x n t : u64 (x + u64 n * t) = u64 (x + n * t).
Proof.
  unfold u64, wrap. rewrite (Z.add_mod x (n mod 2 ^ 64 * t)), Z.mul_mod_idemp_l by done.
  by rewrite <-Z.add_mod by done.
Qed.

#[global] Instance rle_u64_laws : RleLaws word64.
Proof.
  split.
  - intros x t. apply word64_eq. change (u64 (`x + 0 * `t) = `x).
    rewrite Z.mul_0_l, Z.add_0_r. apply word64_id.
  - intros x v. apply word64_eq. change (u64 (`x + 1 * u64 (`v - `x)) = `v).
    rewrite u64_step. apply word64_id.
  - intros x n t. apply word64_eq. apply u64_mul_l.
Qed.

(** [bool]: the difference and the sums are computed in [int] or [size_t] and
    converted back, so that every non-zero value is [true]. *)
Definition bool_of (z : Z) : bool := negb (z =? 0).
#[global] Instance rle_bool : RleType bool := {|
  rle_sub v x := bool_of (Z.b2z v - Z.b2z x);
  rle_at x n t := bool_of (u64 (Z.b2z x + u64 (Z.of_nat n * Z.b2z t)));
  rle_at_iter x n t := bool_of (Z.b2z x + Z.b2z (bool_of (Z.of_nat n)) * Z.b2z t);
  rle_min := andb;
|}.

End RLEField.

(** ** Properties *)

Import PackedUintSeq.

(** for every sequence the packer accepts (non-decreasing 64-bit values,
    consecutive differences below 2^61), appending it to an empty sequence
    succeeds, reports the number of bytes it added, and both [Restore] and the
    iterator give back exactly the appended values, in order, without reading
    outside the buffer. *)
Theorem PackedUintSeq_roundtrip vs :
  appendable 0 vs = true ->
  exists s bytes, AppendAll vs init 0 = Ok (s, bytes) /\ SizeBytes s = bytes /\
    Restore s = Ok vs /\ iterate (S (len_ s)) s iter_init = Ok vs.
Proof.
  intros Ha. destruct (AppendAll_spec vs init 0) as (bss & s & Hs & Hall & Hd & Hl); [done|done|].
  assert (Hr : Restore_loop s (length vs) 0 0 = Ok vs).
  { by apply (Restore_loop_spec s vs 0 [] bss). }
  cbn [init data_ len_ app Nat.add] in Hd, Hl.
  exists s, (length (concat bss)). split_and!; [done|unfold SizeBytes; by rewrite Hd| |].
  - unfold Restore. by rewrite Hl.
  - pose proof (iterate_Restore s (len_ s) 0 0 ltac:(lia)) as Hi.
    rewrite Nat.sub_diag in Hi. unfold iter_init. rewrite Hi. by rewrite Hl.
Qed.

Lemma PackedUintSeq_roundtrip_witness :
  exists s bytes, AppendAll [5; 5; 300; 2 ^ 40; 2 ^ 60] init 0 = Ok (s, bytes) /\
    SizeBytes s = bytes /\ Restore s = Ok [5; 5; 300; 2 ^ 40; 2 ^ 60] /\
    iterate (S (len_ s)) s iter_init = Ok [5; 5; 300; 2 ^ 40; 2 ^ 60].
Proof. apply PackedUintSeq_roundtrip. vm_compute. reflexivity. Defined.

(** [Append] fails its [CHECK] exactly when the new value is smaller than
    the last one or exceeds it by 2^61 or more; otherwise it adds between one
    and eight bytes, counts them and remembers the value. *)
Theorem PackedUintSeq_Append_total s value bytes :
  0 <= last_append_ s -> value < 2 ^ 64 ->
  match Append s value bytes with
  | Ok (s', bytes') =>
      last_append_ s <= value < last_append_ s + 2 ^ 61 /\
      last_append_ s' = value /\ len_ s' = S (len_ s) /\
      (bytes + SizeBytes s' = bytes' + SizeBytes s)%nat /\
      (SizeBytes s + 1 <= SizeBytes s' <= SizeBytes s + 8)%nat
  | Fail e => e = CheckFailed /\ (value < last_append_ s \/ last_append_ s + 2 ^ 61 <= value)
  end.
Proof.
  intros Hl Hv. pose proof (Append_cases s value bytes Hl Hv) as Hc.
  destruct (Z.leb_spec (last_append_ s) value);
    destruct (Z.ltb_spec (value - last_append_ s) kEightByteLimit) as [H8|H8];
    unfold kEightByteLimit in H8; simpl in Hc.
  - destruct Hc as (bs & _ & Hb & ->). unfold SizeBytes. simpl. rewrite length_app. lia.
  - rewrite Hc. split; [done|lia].
  - rewrite Hc. split; [done|lia].
  - rewrite Hc. split; [done|lia].
Qed.

Lemma PackedUintSeq_Append_total_witness :
  Append (mk [7] 1 7) 6 0 = Fail CheckFailed /\ (6 < 7 \/ 7 + 2 ^ 61 <= 6).
Proof.
  pose proof (PackedUintSeq_Append_total (mk [7] 1 7) 6 0 ltac:(simpl; lia) ltac:(lia)) as H.
  split; [reflexivity|exact (proj2 H)].
Defined.

Import RLEField.

(** for every element type that satisfies the interface of the strides
    (and so for the 64-bit integers), a run-length encoded field gives back the
    appended sequence through [Restore] and through the iterator, has its
    length as its size, and [at] returns its elements by position and dies
    outside of it. *)
Theorem RLEField_roundtrip `{RleLaws T} (zero a b : T) vs i :
  let f := of_vector zero a b vs in
  RLEField.Restore f = vs /\ RLEField.size f = length vs /\
  RLEField.iterate (S (length vs)) f RLEField.iter_init = Ok vs /\
  at_ f i = match vs !! i with Some v => Ok v | None => Fail CheckFailed end.
Proof.
  intros f. pose proof (rep_of_vector zero a b vs) as Hr. split_and!.
  - apply Hr.
  - apply Hr.
  - by apply RLEField.rle_iterate_spec.
  - by apply at_spec.
Qed.

Lemma RLEField_roundtrip_witness :
  let f := of_vector (of_Z 0) (of_Z 0) (of_Z 0) (map of_Z [3; 5; 7; 9; 2]) in
  RLEField.Restore f = map of_Z [3; 5; 7; 9; 2] /\ length (strides_ f) = 2%nat.
Proof. split; [apply (RLEField_roundtrip _ _ _ (map of_Z [3; 5; 7; 9; 2]) 0%nat)|reflexivity]. Defined.

(** [bool] does not satisfy that interface: the increment of a stride that
    goes from true to false is converted to true, and the sequence
    [true, false] is restored, and iterated, as [true, true]. *)
Theorem RLEField_bool_corrupts a b :
  let f := of_vector false a b [true; false] in
  RLEField.Restore f = [true; true] /\
  RLEField.iterate 3 f RLEField.iter_init = Ok [true; true] /\ at_ f 1 = Ok true.
Proof. vm_compute. done. Qed.

(** the extreme values a field reports do not depend on the values it
    holds in the first stride: whatever memory content the constructor left in
    [min_value_] and [max_value_] is what a field with one stride returns. *)
Theorem RLEField_extremes_uninitialized (a b v : word64) :
  let f := of_vector (of_Z 0) a b [v] in
  RLEField.min_value f = Ok a /\ RLEField.max_value f = Ok b.
Proof. done. Qed.
