(* ===== verification/PriorityQueue.v ===== *)
(** Model of [VectorPriorityQueue] ([src/src/common.h]): a binary heap kept in
    a vector with [std::push_heap] and [std::pop_heap].  [Compare] is a
    "less" test, the top is an element nothing is greater than.  The heap
    algorithms are proved to keep the heap property and to permute the
    elements; the class [PriorityQueue] states what the users of a priority
    queue rely on, and the heap is its instance. *)

From S2P Require Import Prelude.

(** ** Strict weak orders, as bool comparators *)

(** [Compare] as the standard library requires it of a heap: [a] is not less
    than [b] is a total preorder. *)
Class StrictWeakOrder {A} (cmp : A -> A -> bool) : Prop := {
  swo_irrefl : forall a, cmp a a = false;
  swo_trans : forall a b c, cmp a b = false -> cmp b c = false -> cmp a c = false;
  swo_asym : forall a b, cmp a b = true -> cmp b a = false
}.

(** ** The interface of a priority queue *)

Class PriorityQueue (Q A : Type) := {
  pq_empty : Q;
  pq_emplace : Q -> A -> Q;
  pq_pop_top : Q -> option (A * Q);
  pq_elements : Q -> list A
}.

(** [pq_ok] is the representation invariant of the implementation. *)
Class PriorityQueueLaws {A} (cmp : A -> A -> bool) (Q : Type) `{PriorityQueue Q A} := {
  pq_ok : Q -> Prop;
  pq_empty_ok : pq_ok pq_empty;
  pq_empty_elements : pq_elements pq_empty = [];
  pq_emplace_ok q a : pq_ok q -> pq_ok (pq_emplace q a);
  pq_emplace_elements q a : pq_ok q -> pq_elements (pq_emplace q a) ≡ₚ a :: pq_elements q;
  pq_pop_top_None q : pq_ok q -> pq_pop_top q = None <-> pq_elements q = [];
  pq_pop_top_Some q a q' :
    pq_ok q -> pq_pop_top q = Some (a, q') ->
    pq_ok q' /\ pq_elements q ≡ₚ a :: pq_elements q' /\
    Forall (λ b, cmp a b = false) (pq_elements q)
}.

(** ** VectorPriorityQueue *)
Module VectorPriorityQueue.
Section heap.
Context {A : Type} (cmp : A -> A -> bool).

(** [container_[i]]; every index the algorithms use is in range, [d] is the
    value being moved. *)
Definition at_ (d : A) (l : list A) (i : nat) : A := default d (l !! i).

Definition parent (i : nat) : nat := (i - 1) / 2.

(** [std::push_heap]: the hole at [i] moves towards the root while the parent
    is less than [v]. *)
Fixpoint sift_up (fuel : nat) (l : list A) (i : nat) (v : A) : list A :=
  match fuel with
  | O => <[i := v]> l
  | S fuel' =>
      if (0 <? i) && cmp (at_ v l (parent i)) v
      then sift_up fuel' (<[i := at_ v l (parent i)]> l) (parent i) v
      else <[i := v]> l
  end.

(** The descent of [std::pop_heap]: the hole moves to the greater child until
    it is at a leaf; the vector and the final position of the hole. *)
Fixpoint sift_down (fuel : nat) (l : list A) (i : nat) (v : A) : list A * nat :=
  match fuel with
  | O => (l, i)
  | S fuel' =>
      let n := length l in
      let second := 2 * (i + 1) in
      if second <? n then
        let c := if cmp (at_ v l second) (at_ v l (second - 1)) then second - 1 else second in
        sift_down fuel' (<[i := at_ v l c]> l) c v
      else if second =? n then
        sift_down fuel' (<[i := at_ v l (second - 1)]> l) (second - 1) v
      else (l, i)
  end.

Definition empty (l : list A) : bool := match l with [] => true | _ => false end.
Definition size (l : list A) : nat := length l.
Definition top (l : list A) : outcome A := vec_at l 0.

Definition emplace (l : list A) (v : A) : list A := sift_up (S (length l)) (l ++ [v]) (length l) v.

(** [pop]: the last element takes the place of the top. *)
Definition pop (l : list A) : outcome (list A) :=
  match last l with
  | None => Fail Undefined
  | Some v =>
      let l' := take (length l - 1) l in
      if length l' =? 0 then Ok []
      else
        let '(l2, hole) := sift_down (S (length l')) l' 0 v in
        Ok (sift_up (S hole) l2 hole v)
  end.

Definition PopTop (l : list A) : outcome (A * list A) :=
  tmp ← top l; l' ← pop l; Ok (tmp, l').

(** *** The heap property *)

Definition le_at (l : list A) (i j : nat) : Prop :=
  forall a b, l !! i = Some a -> l !! j = Some b -> cmp b a = false.

Definition heap (l : list A) : Prop := forall j, 0 < j -> le_at l j (parent j).

(** All pairs except those that involve position [i] are ordered, and the
    children of [i] are not greater than its parent. *)
Definition heap_hole (l : list A) (i : nat) : Prop :=
  (forall j, 0 < j -> j <> i -> parent j <> i -> le_at l j (parent j)) /\
  (forall j, 0 < j -> parent j = i -> 0 < i -> le_at l j (parent i)).

Definition children_le (l : list A) (i : nat) (v : A) : Prop :=
  forall j a, 0 < j -> parent j = i -> l !! j = Some a -> cmp v a = false.

Lemma parent_lt i : 0 < i -> parent i < i.
Proof. intros. unfold parent. apply Nat.Div0.div_lt_upper_bound. lia. Qed.

Lemma parent_child i j : 0 < j -> parent j = i <-> j = 2 * i + 1 \/ j = 2 * i + 2.
Proof.
  intros. unfold parent. pose proof (Nat.div_mod_eq (j - 1) 2).
  pose proof (Nat.mod_upper_bound (j - 1) 2 ltac:(done)). lia.
Qed.

Lemma at_lookup d l i : i < length l -> l !! i = Some (at_ d l i).
Proof.
  intros [a Ha]%lookup_lt_is_Some_2. unfold at_. by rewrite Ha.
Qed.

(** Writing a vector position and then another, as a permutation. *)
Lemma insert_Permutation l i (x v : A) : l !! i = Some x -> x :: <[i := v]> l ≡ₚ v :: l.
Proof.
  revert i. induction l as [|a l IH]; intros [|i] H; simplify_eq/=.
  - apply Permutation_swap.
  - rewrite Permutation_swap, (IH i H). apply Permutation_swap.
Qed.

Lemma move_hole_Permutation (l : list A) i p x v :
  i <> p -> i < length l -> l !! p = Some x ->
  <[p := v]> (<[i := x]> l) ≡ₚ <[i := v]> l.
Proof.
  intros Hip [y Hy]%lookup_lt_is_Some_2 Hx.
  apply (Permutation_cons_inv (a := x)), (Permutation_cons_inv (a := y)).
  rewrite (insert_Permutation _ p x v) by (by rewrite list_lookup_insert_ne).
  rewrite (Permutation_swap v y), (insert_Permutation l i y x Hy).
  rewrite (Permutation_swap x y), (insert_Permutation l i y v Hy).
  apply Permutation_swap.
Qed.

Context `{!StrictWeakOrder cmp}.

(** Moving the parent down into the hole. *)
Lemma hole_up l i v :
  0 < i < length l -> heap_hole l i -> children_le l i v ->
  cmp (at_ v l (parent i)) v = true ->
  let l' := <[i := at_ v l (parent i)]> l in
  heap_hole l' (parent i) /\ children_le l' (parent i) v.
Proof.
  intros Hi [H1 H2] Hc Hlt. pose proof (parent_lt i ltac:(lia)) as Hp.
  pose proof (at_lookup v l (parent i) ltac:(lia)) as Hpv.
  set (x := at_ v l (parent i)) in *. simpl.
  assert (Hxv : cmp v x = false) by by apply swo_asym.
  assert (Hi' : forall y, <[i := x]> l !! i = Some y -> y = x).
  { intros y. rewrite list_lookup_insert_eq by lia. congruence. }
  split; [split|].
  - intros j Hj Hjp Hpj a b. destruct (decide (j = i)) as [->|Hji]; [done|].
    rewrite (list_lookup_insert_ne _ i j) by done.
    destruct (decide (parent j = i)) as [Hpi|Hpi].
    + rewrite Hpi. intros Ha ->%Hi'. by apply (H2 j Hj Hpi ltac:(lia)).
    + rewrite list_lookup_insert_ne by done. by apply H1.
  - intros j Hj Hpj Hpp a b. pose proof (parent_lt (parent i) Hpp).
    rewrite (list_lookup_insert_ne _ i (parent (parent i))) by lia.
    assert (Hx : forall b, l !! parent (parent i) = Some b -> cmp b x = false).
    { intros b' Hb'. by apply (H1 (parent i) ltac:(lia) ltac:(lia) ltac:(lia)). }
    destruct (decide (j = i)) as [->|Hji].
    + by intros ->%Hi' Hb; apply Hx.
    + rewrite list_lookup_insert_ne by done. intros Ha Hb.
      apply (swo_trans _ x); [by apply Hx|].
      apply (H1 j Hj ltac:(lia) ltac:(lia)); [done|]. by rewrite Hpj.
  - intros j a Hj Hpj Ha. destruct (decide (j = i)) as [->|Hji].
    + by apply Hi' in Ha as ->.
    + rewrite list_lookup_insert_ne in Ha by done. apply (swo_trans _ x); [done|].
      apply (H1 j Hj ltac:(lia) ltac:(lia)); [done|]. by rewrite Hpj.
Qed.

(** Filling the hole. *)
Lemma hole_fill l i v :
  i < length l -> heap_hole l i -> children_le l i v ->
  (0 < i -> cmp (at_ v l (parent i)) v = false) -> heap (<[i := v]> l).
Proof.
  intros Hi [H1 H2] Hc Hle j Hj a b. pose proof (parent_lt j Hj).
  destruct (decide (j = i)) as [->|Hji].
  - rewrite list_lookup_insert_eq by done. rewrite list_lookup_insert_ne by lia.
    intros [= <-] Hb. specialize (Hle Hj). unfold at_ in Hle. by rewrite Hb in Hle.
  - rewrite list_lookup_insert_ne by done. destruct (decide (parent j = i)) as [Hpi|Hpi].
    + rewrite Hpi, list_lookup_insert_eq by done. intros Ha [= <-]. by eapply Hc.
    + rewrite list_lookup_insert_ne by done. by apply H1.
Qed.

Lemma sift_up_spec fuel l i v :
  i < fuel -> i < length l -> heap_hole l i -> children_le l i v ->
  heap (sift_up fuel l i v) /\ sift_up fuel l i v ≡ₚ <[i := v]> l.
Proof.
  revert l i. induction fuel as [|fuel IH]; intros l i Hf Hi Hh Hc; [lia|]. simpl.
  destruct ((0 <? i) && cmp (at_ v l (parent i)) v) eqn:Hb.
  - apply andb_true_iff in Hb as [Hi0%Nat.ltb_lt Hlt].
    pose proof (parent_lt i Hi0). destruct (hole_up l i v) as [Hh' Hc']; [lia|done..|].
    destruct (IH (<[i := at_ v l (parent i)]> l) (parent i)) as [Hheap Hperm];
      [lia|rewrite length_insert; lia|done..|].
    split; [done|]. rewrite Hperm. apply move_hole_Permutation; [lia..|].
    apply at_lookup. lia.
  - split; [|done]. apply hole_fill; [done..|]. intros Hi0%Nat.ltb_lt.
    by rewrite Hi0 in Hb.
Qed.

(** Moving a child [c] that is not less than its sibling up into the hole. *)
Lemma hole_down l i c v :
  c < length l -> 0 < c -> parent c = i -> heap_hole l i ->
  (forall j b, 0 < j -> parent j = i -> l !! j = Some b -> cmp (at_ v l c) b = false) ->
  heap_hole (<[i := at_ v l c]> l) c.
Proof.
  intros Hc Hc0 Hpc [H1 H2] Hmax. pose proof (parent_lt c Hc0) as Hlt.
  pose proof (at_lookup v l c Hc) as Hx. set (x := at_ v l c) in *.
  assert (Hi' : forall y, <[i := x]> l !! i = Some y -> y = x).
  { intros y. rewrite list_lookup_insert_eq by lia. congruence. }
  split.
  - intros j Hj Hjc Hpj a b. pose proof (parent_lt j Hj).
    destruct (decide (j = i)) as [->|Hji].
    + rewrite (list_lookup_insert_ne _ i (parent i)) by lia. intros ->%Hi' Hb.
      by apply (H2 c Hc0 Hpc Hj).
    + rewrite list_lookup_insert_ne by done. destruct (decide (parent j = i)) as [Hpi|Hpi].
      * rewrite Hpi. intros Ha ->%Hi'. by apply (Hmax j).
      * rewrite list_lookup_insert_ne by done. by apply H1.
  - intros j Hj Hpj _ a b. rewrite Hpc. pose proof (parent_lt j Hj).
    rewrite (list_lookup_insert_ne _ i j) by lia. intros Ha ->%Hi'.
    apply (H1 j Hj ltac:(lia) ltac:(lia)); [done|]. by rewrite Hpj.
Qed.

Lemma sift_down_spec fuel l i v :
  length l - i < fuel -> i < length l -> heap_hole l i ->
  let '(l2, h) := sift_down fuel l i v in
  length l2 = length l /\ h < length l /\ heap_hole l2 h /\ children_le l2 h v /\
  <[h := v]> l2 ≡ₚ <[i := v]> l.
Proof.
  revert l i. induction fuel as [|fuel IH]; intros l i Hf Hi Hh; [lia|].
  cbn [sift_down]. set (second := 2 * (i + 1)).
  assert (Hstep : forall c, c < length l -> 0 < c -> parent c = i ->
    (forall j b, 0 < j -> parent j = i -> l !! j = Some b -> cmp (at_ v l c) b = false) ->
    let '(l2, h) := sift_down fuel (<[i := at_ v l c]> l) c v in
    length l2 = length l /\ h < length l /\ heap_hole l2 h /\ children_le l2 h v /\
    <[h := v]> l2 ≡ₚ <[i := v]> l).
  { intros c Hc Hc0 Hpc Hmax. pose proof (parent_lt c Hc0).
    pose proof (IH (<[i := at_ v l c]> l) c) as IHc. rewrite !length_insert in IHc.
    specialize (IHc ltac:(lia) Hc (hole_down l i c v Hc Hc0 Hpc Hh Hmax)).
    destruct (sift_down _ _ _ _) as [l2 h]. destruct IHc as (? & ? & ? & ? & Hp).
    split_and!; [done..|]. rewrite Hp. apply move_hole_Permutation; [lia..|].
    by apply at_lookup. }
  assert (Hself : forall c, cmp (at_ v l c) (at_ v l c) = false) by (intros; apply swo_irrefl).
  destruct (Nat.ltb_spec second (length l)) as [Hs|Hs].
  - pose proof (at_lookup v l second Hs) as E2.
    pose proof (at_lookup v l (second - 1) ltac:(lia)) as E1.
    destruct (cmp (at_ v l second) (at_ v l (second - 1))) eqn:Hcmp; apply Hstep;
      try lia; try (apply parent_child; lia);
      intros j b Hj [->| ->]%parent_child Hb; try lia.
    1,3: replace (2 * i + 1) with (second - 1) in Hb by lia.
    3,4: replace (2 * i + 2) with second in Hb by lia.
    all: simplify_eq; auto using swo_asym.
  - destruct (Nat.eqb_spec second (length l)) as [He|He].
    + pose proof (at_lookup v l (second - 1) ltac:(lia)) as E1.
      apply Hstep; [lia|lia|apply parent_child; lia|].
      intros j b Hj [->| ->]%parent_child Hb; try lia.
      * replace (2 * i + 1) with (second - 1) in Hb by lia. by simplify_eq.
      * apply lookup_lt_Some in Hb. lia.
    + split_and!; [done..| |done].
      intros j a Hj [->| ->]%parent_child Ha; try lia; apply lookup_lt_Some in Ha; lia.
Qed.

(** *** The operations *)

Lemma emplace_spec l v : heap l -> heap (emplace l v) /\ emplace l v ≡ₚ v :: l.
Proof.
  intros Hh. unfold emplace.
  assert (Hlt : forall j a, l !! j = Some a -> (l ++ [v]) !! j = Some a -> j < length l)
    by (intros j a Ha _; by eapply lookup_lt_Some).
  destruct (sift_up_spec (S (length l)) (l ++ [v]) (length l) v) as [H1 H2].
  - lia.
  - rewrite length_app. simpl. lia.
  - split.
    + intros j Hj Hjn Hpn a b Ha Hb. pose proof (parent_lt j Hj).
      pose proof (lookup_lt_Some _ _ _ Ha) as Hl. rewrite length_app in Hl. simpl in Hl.
      rewrite lookup_app_l in Ha, Hb by lia. by eapply Hh.
    + intros j Hj Hpn _ a b Ha. pose proof (parent_lt j Hj).
      pose proof (lookup_lt_Some _ _ _ Ha) as Hl. rewrite length_app in Hl. simpl in Hl. lia.
  - intros j a Hj Hpn Ha. pose proof (parent_lt j Hj).
    pose proof (lookup_lt_Some _ _ _ Ha) as Hl. rewrite length_app in Hl. simpl in Hl. lia.
  - split; [done|]. rewrite H2, <-(Nat.add_0_r (length l)), insert_app_r. simpl.
    by rewrite Permutation_app_comm.
Qed.

Lemma heap_top_max l a : heap l -> l !! 0 = Some a -> Forall (λ b, cmp a b = false) l.
Proof.
  intros Hh Ha. apply Forall_lookup. intros i. induction (lt_wf i) as [i _ IH].
  intros b Hb. destruct (decide (i = 0)) as [->|Hi].
  { simplify_eq. apply swo_irrefl. }
  pose proof (parent_lt i ltac:(lia)) as Hp.
  destruct (lookup_lt_is_Some_2 l (parent i)) as [c Hc].
  { apply lookup_lt_Some in Hb. lia. }
  apply (swo_trans _ c); [by apply (IH (parent i))|].
  by apply (Hh i ltac:(lia)).
Qed.

Lemma heap_app_l l k : heap (l ++ k) -> heap l.
Proof.
  intros Hh j Hj a b Ha Hb. by apply (Hh j Hj); apply lookup_app_l_Some.
Qed.

Lemma pop_spec a l :
  heap (a :: l) -> exists l', pop (a :: l) = Ok l' /\ heap l' /\ l' ≡ₚ l.
Proof.
  intros Hh. destruct l as [|v l _] using rev_ind; [by exists []|].
  unfold pop. rewrite app_comm_cons in Hh |- *. rewrite last_snoc, length_app.
  replace (length (a :: l) + length [v] - 1) with (length (a :: l)) by (simpl; lia).
  rewrite take_app_length. apply heap_app_l in Hh. cbn [length]. cbn [Nat.eqb].
  pose proof (sift_down_spec (S (S (length l))) (a :: l) 0 v) as Hd.
  destruct (sift_down _ _ _ _) as [l2 h].
  destruct Hd as (Hlen & Hhl & Hh2 & Hc & Hp); [simpl; lia|simpl; lia| |].
  { split; [intros; by apply Hh|lia]. }
  destruct (sift_up_spec (S h) l2 h v) as [H1 H2]; [lia|lia|done..|].
  eexists. split_and!; [done|done|]. rewrite H2, Hp. simpl.
  by rewrite Permutation_app_comm.
Qed.

Lemma PopTop_spec l :
  heap l ->
  match l with
  | [] => PopTop l = Fail Undefined
  | a :: rest => exists l', PopTop l = Ok (a, l') /\ heap l' /\ l' ≡ₚ rest
  end.
Proof.
  intros Hh. destruct l as [|a l]; [done|].
  destruct (pop_spec a l Hh) as (l' & Hp & H1 & H2). exists l'.
  unfold PopTop, top. cbn [vec_at lookup list_lookup]. rewrite Hp. done.
Qed.

End heap.
End VectorPriorityQueue.

(** *** The heap implements the interface *)

Definition pop_top_opt {A} (cmp : A -> A -> bool) (l : list A) : option (A * list A) :=
  match VectorPriorityQueue.PopTop cmp l with Ok r => Some r | Fail _ => None end.

#[global] Instance heap_queue {A} (cmp : A -> A -> bool) : PriorityQueue (list A) A := {
  pq_empty := [];
  pq_emplace := VectorPriorityQueue.emplace cmp;
  pq_pop_top := pop_top_opt cmp;
  pq_elements := λ l, l
}.

#[global] Instance heap_queue_laws {A} (cmp : A -> A -> bool) `{!StrictWeakOrder cmp} :
  PriorityQueueLaws cmp (list A) (H := heap_queue cmp).
Proof.
  refine {| pq_ok := VectorPriorityQueue.heap cmp |}; simpl.
  - intros j Hj a b Ha. done.
  - done.
  - intros q a Hq. by apply VectorPriorityQueue.emplace_spec.
  - intros q a Hq. by apply VectorPriorityQueue.emplace_spec.
  - intros q Hq. unfold pop_top_opt.
    pose proof (VectorPriorityQueue.PopTop_spec cmp q Hq) as Hp.
    destruct q as [|a q]; [by rewrite Hp|]. by destruct Hp as (l' & -> & _).
  - intros q a q' Hq. unfold pop_top_opt.
    pose proof (VectorPriorityQueue.PopTop_spec cmp q Hq) as Hp.
    destruct q as [|b q]; [by rewrite Hp|]. destruct Hp as (l' & -> & Hl' & Hperm).
    intros [= -> ->]. split_and!; [done|by rewrite Hperm|].
    by apply VectorPriorityQueue.heap_top_max.
Defined.

(** ** Properties *)

Import VectorPriorityQueue.

(** Emptying a queue: [while (!q.empty()) out.push_back(q.PopTop());]. *)
Fixpoint drain {A} (cmp : A -> A -> bool) (fuel : nat) (q : list A) : outcome (list A) :=
  match fuel with
  | O => Fail OutOfFuel
  | S fuel' =>
      if empty q then Ok []
      else '(a, q') ← PopTop cmp q; rest ← drain cmp fuel' q'; Ok (a :: rest)
  end.

Lemma drain_spec {A} (cmp : A -> A -> bool) `{!StrictWeakOrder cmp} fuel q :
  heap cmp q -> length q < fuel ->
  exists out, drain cmp fuel q = Ok out /\ out ≡ₚ q /\
    StronglySorted (λ a b, cmp a b = false) out.
Proof.
  revert q. induction fuel as [|fuel IH]; intros q Hq Hf; [lia|]. simpl.
  pose proof (PopTop_spec cmp q Hq) as Hp.
  destruct q as [|a q]; [exists []; split_and!; [done..|constructor]|].
  destruct Hp as (l' & Hpop & Hl' & Hperm). cbn [empty]. rewrite Hpop. simpl.
  destruct (IH l' Hl') as (out & -> & Hout & Hs).
  { rewrite Hperm. simpl in Hf. lia. }
  exists (a :: out). split_and!; [done|by rewrite Hout, Hperm|].
  constructor; [done|]. rewrite Hout, Hperm.
  pose proof (heap_top_max cmp (a :: q) a Hq eq_refl) as Hm. by apply Forall_cons in Hm as [_ ?].
Qed.

Lemma emplace_all_heap {A} (cmp : A -> A -> bool) `{!StrictWeakOrder cmp} l q :
  heap cmp q -> heap cmp (fold_left (emplace cmp) l q) /\ fold_left (emplace cmp) l q ≡ₚ l ++ q.
Proof.
  revert q. induction l as [|a l IH]; intros q Hq; [done|]. simpl.
  destruct (emplace_spec cmp q a Hq) as [H1 H2]. destruct (IH _ H1) as [H3 H4].
  split; [done|]. rewrite H4, H2. by rewrite Permutation_middle.
Qed.

(** pushing any sequence of elements into an empty [VectorPriorityQueue] and
    popping until it is empty terminates and yields a permutation of the
    elements in which no element is less than a later one, for every
    comparator that is a strict weak order. *)
Theorem VectorPriorityQueue_heapsort {A} (cmp : A -> A -> bool) (l : list A) :
  StrictWeakOrder cmp ->
  exists out,
    drain cmp (S (length l)) (fold_left (emplace cmp) l []) = Ok out /\
    out ≡ₚ l /\ StronglySorted (λ a b, cmp a b = false) out.
Proof.
  intros Hc. destruct (emplace_all_heap cmp l []) as [H1 H2]; [by intros j Hj a b|].
  rewrite app_nil_r in H2.
  destruct (drain_spec cmp (S (length l)) _ H1) as (out & ? & ? & ?); [rewrite H2; lia|].
  exists out. split_and!; [done|by etrans|done].
Qed.

#[global] Instance Zltb_swo : StrictWeakOrder Z.ltb.
Proof. split; intros *; rewrite ?Z.ltb_ge, ?Z.ltb_lt; lia. Qed.

#[global] Instance Zgtb_swo : StrictWeakOrder Z.gtb.
Proof. split; intros *; rewrite !Z.gtb_ltb, ?Z.ltb_ge, ?Z.ltb_lt; lia. Qed.

Lemma VectorPriorityQueue_heapsort_witness :
  StrictWeakOrder Z.ltb /\
  exists out, drain Z.ltb 6 (fold_left (emplace Z.ltb) [3; 1; 4; 1; 5]%Z []) = Ok out /\
    out ≡ₚ [3; 1; 4; 1; 5]%Z /\ StronglySorted (λ a b, Z.ltb a b = false) out.
Proof.
  split; [apply Zltb_swo|]. apply (VectorPriorityQueue_heapsort Z.ltb [3; 1; 4; 1; 5]%Z).
  apply Zltb_swo.
Defined.
