(* ===== verification/Double.v ===== *)
(** The [double] arithmetic that several components use: IEEE 754 binary64,
    round to nearest even, as the Standard Library specifies it. *)

From Stdlib Require Export SpecFloat.
From S2P Require Import Prelude.

(** ** [double]: IEEE 754 binary64 *)
Module Double.

Definition of_Z (n : Z) : spec_float := binary_normalize 53 1024 n 0 false.
Definition add : spec_float -> spec_float -> spec_float := SFadd 53 1024.
Definition sub : spec_float -> spec_float -> spec_float := SFsub 53 1024.
Definition mul : spec_float -> spec_float -> spec_float := SFmul 53 1024.
Definition div : spec_float -> spec_float -> spec_float := SFdiv 53 1024.
Definition leb : spec_float -> spec_float -> bool := SFleb.
Definition ltb : spec_float -> spec_float -> bool := SFltb.

(** Towards zero; [None] for infinities and NaN. *)
Definition trunc (f : spec_float) : option Z :=
  match f with
  | S754_zero _ => Some 0%Z
  | S754_finite s m e =>
      let x := if (0 <=? e)%Z then Z.shiftl (Z.pos m) e else Z.shiftr (Z.pos m) (- e) in
      Some (if s then (- x)%Z else x)
  | _ => None
  end.

(** [static_cast<uint64_t>]: undefined when the value does not fit. *)
Definition to_u64 (f : spec_float) : outcome Z :=
  match trunc f with
  | Some x => if ((0 <=? x) && (x <=? umax 64))%Z%bool then Ok x else Fail Undefined
  | None => Fail Undefined
  end.

End Double.
