(* ===== verification/StdSort.v ===== *)
(** What the code relies on of [std::sort] and [std::lower_bound].  [std::sort]
    is not stable, so that the order of equivalent elements is not determined:
    clients are proved against the class [StdSort], for every function that
    returns a sorted permutation. *)

From S2P Require Import Prelude PriorityQueue.

(** No later element is less than an earlier one. *)
Definition sorted_by {A} (cmp : A -> A -> bool) : list A -> Prop :=
  StronglySorted (λ a b, cmp b a = false).

(** [std::sort], with the comparison that it is given. *)
Class StdSort (sort : forall A, (A -> A -> bool) -> list A -> list A) : Prop := {
  sort_perm A cmp l : sort A cmp l ≡ₚ l;
  sort_sorted A cmp l : StrictWeakOrder cmp -> sorted_by cmp (sort A cmp l)
}.

(** [std::lower_bound]: binary search for the first position whose element is
    not less; [before] is true of the elements that are. *)
Fixpoint lower_bound {A} (fuel : nat) (before : A -> bool) (l : list A) (first count : nat) : outcome nat :=
  match count with
  | O => Ok first
  | _ =>
      match fuel with
      | O => Fail OutOfFuel
      | S fuel' =>
          let half := count / 2 in
          x ← vec_at l (first + half);
          if before x then lower_bound fuel' before l (first + half + 1) (count - (half + 1))
          else lower_bound fuel' before l first half
      end
  end.

(** On a sequence in which the elements that are less come first, the result
    separates the two kinds. *)
Lemma lower_bound_spec {A} (before : A -> bool) (l : list A) fuel : forall first count,
  count <= fuel -> first + count <= length l ->
  (forall i j x y, i < j -> l !! i = Some x -> l !! j = Some y -> before y = true -> before x = true) ->
  (forall i x, i < first -> l !! i = Some x -> before x = true) ->
  (forall i x, first + count <= i -> l !! i = Some x -> before x = false) ->
  exists n, lower_bound fuel before l first count = Ok n /\ n <= length l /\
    Forall (λ x, before x = true) (take n l) /\ Forall (λ x, before x = false) (drop n l).
Proof.
  induction fuel as [|fuel IH]; intros first count Hf Hlen Hmono Hlo Hhi.
  - assert (count = 0) as -> by lia. exists first. split; [done|]. split; [lia|]. rewrite !Forall_lookup. split.
    + intros i x [Hx Hi]%lookup_take_Some. by eapply Hlo.
    + intros i x Hx. rewrite lookup_drop in Hx. eapply Hhi; [|done]. lia.
  - cbn [lower_bound]. destruct count as [|count].
    { exists first. split; [done|]. split; [lia|]. rewrite !Forall_lookup. split.
      + intros i x [Hx Hi]%lookup_take_Some. by eapply Hlo.
      + intros i x Hx. rewrite lookup_drop in Hx. eapply Hhi; [|done]. lia. }
    pose proof (Nat.div_lt (S count) 2 ltac:(lia) ltac:(lia)) as Hdiv. set (half := S count / 2) in *.
    destruct (vec_at_lt l (first + half)) as [x Hx]; [lia|]. rewrite Hx. cbn [mbind outcome_bind].
    apply vec_at_Ok in Hx. destruct (before x) eqn:Hb.
    + apply IH; [lia|lia|done| |].
      * intros i y Hi Hy. destruct (decide (i = first + half)) as [->|]; [congruence|].
        eapply Hmono; [|done|exact Hx|done]. lia.
      * intros i y Hi Hy. eapply Hhi; [|done]. lia.
    + apply IH; [lia|lia|done|done|]. intros i y Hi Hy.
      destruct (decide (i = first + half)) as [->|]; [congruence|].
      apply not_true_is_false. intros Hy'. rewrite (Hmono (first + half) i x y) in Hb; [done|lia|done..].
Qed.

(** An instance: merge sort. *)
Definition merge_sort_by A (cmp : A -> A -> bool) (l : list A) : list A :=
  @merge_sort A (λ a b, cmp b a = false) (λ a b, bool_eq_dec (cmp b a) false) l.

#[global] Instance merge_sort_is_sort : StdSort merge_sort_by.
Proof.
  split.
  - intros A cmp l. apply merge_sort_Permutation.
  - intros A cmp l Hcmp. apply StronglySorted_merge_sort.
    + intros a b c Hba Hcb. by eapply swo_trans.
    + intros a b. destruct (cmp b a) eqn:Hba; [|by left]. right. by apply swo_asym.
Qed.

(** Comparing by an integer key. *)
Lemma key_less_swo {A} (f : A -> Z) : StrictWeakOrder (λ a b, f a <? f b)%Z.
Proof.
  split; intros.
  - apply Z.ltb_irrefl.
  - rewrite Z.ltb_ge in *. lia.
  - rewrite Z.ltb_ge. rewrite Z.ltb_lt in *. lia.
Qed.

Lemma key_greater_swo {A} (f : A -> Z) : StrictWeakOrder (λ a b, f b <? f a)%Z.
Proof.
  split; intros.
  - apply Z.ltb_irrefl.
  - rewrite Z.ltb_ge in *. lia.
  - rewrite Z.ltb_ge. rewrite Z.ltb_lt in *. lia.
Qed.

Lemma sorted_by_impl {A} (cmp : A -> A -> bool) (R : A -> A -> Prop) l :
  (forall a b, cmp b a = false -> R a b) -> sorted_by cmp l -> StronglySorted R l.
Proof.
  intros HR. induction 1 as [|a l _ IH Hall]; constructor; [done|]. eapply Forall_impl; [exact Hall|]. apply HR.
Qed.

Lemma sorted_lookup {A} (R : A -> A -> Prop) l i j x y :
  StronglySorted R l -> i < j -> l !! i = Some x -> l !! j = Some y -> R x y.
Proof.
  intros Hs. revert i j. induction Hs as [|a l _ IH Hall]; intros [|i] [|j] Hij Hx Hy; try (done || lia); cbn in *.
  - injection Hx as ->. rewrite Forall_lookup in Hall. by eapply Hall.
  - eapply (IH i j); [lia|done..].
Qed.

Lemma StronglySorted_snoc {A} (R : A -> A -> Prop) l x :
  StronglySorted R l -> Forall (λ a, R a x) l -> StronglySorted R (l ++ [x]).
Proof.
  induction 1 as [|a l _ IH Hall]; intros Hx; cbn; [by repeat constructor|]. apply Forall_cons in Hx as [Ha Hx].
  constructor; [by apply IH|]. apply Forall_app. split; [done|]. by constructor.
Qed.
