(* ===== verification/Graph.v ===== *)
(** Model of the graph part of [src/src/net/net_common.h] and
    [src/src/net/net_common.cc]: links and bandwidths, [GraphBuilder],
    [AdjacencyList], [GraphStorage] and [Walk].  Node and link indices are
    16-bit ([kIndexBits]); delays are signed 64-bit microsecond counts and
    bandwidths unsigned 64-bit counts.  The theorems say that a storage built
    from a builder represents exactly the builder's links, under each of the
    ways the code looks them up. *)

From S2P Require Import Prelude OrderedMap PerfectHash.

Definition kIndexBits : Z := 16.

(** [std::chrono::microseconds] is a signed 64-bit count. *)
Definition Delay := Z.
Definition Delay_max : Delay := int64_max.

(** Sum of two delays; signed overflow is undefined. *)
Definition delay_add (a b : Delay) : outcome Delay :=
  if ((- 2 ^ 63 <=? a + b) && (a + b <=? int64_max))%Z then Ok (a + b)%Z else Fail Undefined.

Lemma delay_add_Ok a b : (- 2 ^ 63 <= a + b <= Delay_max)%Z -> delay_add a b = Ok (a + b)%Z.
Proof.
  unfold Delay_max. intros H. unfold delay_add.
  by rewrite (proj2 (Z.leb_le _ (a + b))), (proj2 (Z.leb_le (a + b) _)) by lia.
Qed.

(** ** Bandwidth *)
Module Bandwidth.
Definition t := Z.
Definition FromBitsPerSecond (bps : Z) : t := u64 bps.
Definition Zero : t := 0%Z.
Definition Max : t := umax 64.
(** [operator+=], [operator-=] and [operator+] wrap around. *)
Definition plus_assign (a b : t) : t := u64 (a + b).
Definition minus_assign (a b : t) : t := u64 (a - b).
Definition add (a b : t) : t := u64 (a + b).
End Bandwidth.

(** ** Links *)
Record GraphLinkBase := mkGraphLinkBase {
  src_id : string;
  dst_id : string;
  src_port : Z;
  dst_port : Z;
  bandwidth : Bandwidth.t;
  delay : Delay
}.

#[global] Instance GraphLinkBase_eq_dec : EqDecision GraphLinkBase.
Proof. solve_decision. Defined.

(** The constructor with ports, and the one that leaves them zero. *)
Definition new_GraphLinkBase (src dst : string) (sport dport : Z) (bw : Bandwidth.t) (d : Delay)
  : outcome GraphLinkBase :=
  _ ← check (negb (d =? 0)%Z);
  _ ← check (negb (bw =? Bandwidth.Zero)%Z);
  Ok (mkGraphLinkBase src dst sport dport bw d).
Definition new_GraphLinkBase_no_ports (src dst : string) (bw : Bandwidth.t) (d : Delay)
  : outcome GraphLinkBase :=
  new_GraphLinkBase src dst 0 0 bw d.

Definition set_bandwidth (l : GraphLinkBase) (bw : Bandwidth.t) : GraphLinkBase :=
  mkGraphLinkBase (src_id l) (dst_id l) (src_port l) (dst_port l) bw (delay l).

(** [AddToBandwidth]: saturating addition. *)
Definition AddToBandwidth (l : GraphLinkBase) (bw : Bandwidth.t) : GraphLinkBase :=
  let bw_before := bandwidth l in
  let sum := Bandwidth.plus_assign (bandwidth l) bw in
  set_bandwidth l (if (sum <? bw_before)%Z then Bandwidth.Max else sum).

Definition ToStringNoPorts (l : GraphLinkBase) : string := src_id l +:+ "->" +:+ dst_id l.

(** A node is its id; a link in a storage has the indices of its endpoints and
    (pointers to) the nodes. *)
Record GraphNode := mkGraphNode { id : string }.

Record GraphLink := mkGraphLink {
  base : GraphLinkBase;
  src : nat;
  dst : nat;
  src_node : GraphNode;
  dst_node : GraphNode
}.

#[global] Instance GraphNode_eq_dec : EqDecision GraphNode.
Proof. solve_decision. Defined.
#[global] Instance GraphLink_eq_dec : EqDecision GraphLink.
Proof. solve_decision. Defined.

Notation Links := (list nat) (only parsing).

(** ** GraphBuilder *)
Module GraphBuilder.
Record t := mk { auto_port_numbers_ : bool; links_ : list GraphLinkBase }.

Definition init (auto_port_numbers : bool) : t := mk auto_port_numbers [].

Definition is_empty (s : string) : bool := bool_decide (s = EmptyString).

Definition AddLink (b : t) (link : GraphLinkBase) : outcome t :=
  _ ← check (negb (is_empty (src_id link)));
  _ ← check (negb (is_empty (dst_id link)));
  _ ← check (negb (bool_decide (src_id link = dst_id link)));
  if negb (auto_port_numbers_ b) then
    _ ← check (negb (src_port link =? 0)%Z);
    _ ← check (negb (dst_port link =? 0)%Z);
    Ok (mk (auto_port_numbers_ b) (links_ b ++ [link]))
  else
    _ ← check (src_port link =? 0)%Z;
    _ ← check (dst_port link =? 0)%Z;
    let port_num := u32 (Z.of_nat (length (links_ b) + 1)) in
    l ← new_GraphLinkBase (src_id link) (dst_id link) port_num port_num
          (bandwidth link) (delay link);
    Ok (mk (auto_port_numbers_ b) (links_ b ++ [l])).

(** [RemoveMultipleLinks]: [links_no_multi] maps a pair of ids to (a pointer
    to) the first link between them, which is the position of that link in
    [links_]; the bandwidth of the others is added through the pointer. *)
Definition links_no_multi_t := gmap string (gmap string nat).

Definition ptr_at (m : links_no_multi_t) (s d : string) : option nat := m !! s ≫= (.!! d).

Definition merge_step (acc : links_no_multi_t * list GraphLinkBase) (i : nat)
  : outcome (links_no_multi_t * list GraphLinkBase) :=
  let '(m, links) := acc in
  link ← vec_at links i;
  match ptr_at m (src_id link) (dst_id link) with
  | Some p =>
      first ← vec_at links p;
      Ok (m, <[p := AddToBandwidth first (bandwidth link)]> links)
  | None =>
      Ok (<[src_id link := <[dst_id link := i]> (default ∅ (m !! src_id link))]> m, links)
  end.

Definition RemoveMultipleLinks (b : t) : outcome t :=
  '(m, links) ← mfold merge_step (seq 0 (length (links_ b))) (∅, links_ b);
  new_links ← mfold (λ out p, l ← vec_at links p; Ok (out ++ [l]))
                (items m ≫= λ '(_, rest), (items rest).*2) [];
  Ok (mk (auto_port_numbers_ b) new_links).

Definition AllNodeNames (b : t) : gset string :=
  fold_left (λ out link, {[dst_id link]} ∪ ({[src_id link]} ∪ out)) (links_ b) ∅.

(** A client that adds a sequence of links. *)
Definition AddLinks (b : t) (ls : list GraphLinkBase) : outcome t := mfold AddLink ls b.
End GraphBuilder.

(** ** AdjacencyList *)
Module AdjacencyList.
Record LinkInfo := mkLinkInfo {
  link_index : nat;
  src_index : nat;
  dst_index : nat;
  delay : Delay
}.

#[global] Instance LinkInfo_eq_dec : EqDecision LinkInfo.
Proof. solve_decision. Defined.

Record t := mk {
  adj_ : PerfectHashMap.t (list LinkInfo);
  all_nodes_ : PerfectHashSet.t
}.

Definition empty : t := mk PerfectHashMap.empty PerfectHashSet.empty.

Definition AddLink (a : t) (link s d : nat) (dl : Delay) : outcome t :=
  '(m, v) ← PerfectHashMap.Ref [] (adj_ a) s;
  Ok (mk (PerfectHashMap.RefAssign [] m s (v ++ [mkLinkInfo link s d dl]))
         (PerfectHashSet.Insert (PerfectHashSet.Insert (all_nodes_ a) s) d)).

Definition Clear (a : t) : t :=
  mk (PerfectHashMap.Clear (adj_ a)) (PerfectHashSet.Clear (all_nodes_ a)).

(** [GetNeighbors] cannot die: it tests [HasValue] first. *)
Definition GetNeighbors (a : t) (node : nat) : list LinkInfo :=
  if negb (PerfectHashMap.HasValue (adj_ a) node) then []
  else match PerfectHashMap.GetValueOrDie (adj_ a) node with Ok v => v | Fail _ => [] end.

Definition AllNodes (a : t) : PerfectHashSet.t := all_nodes_ a.
Definition Adjacencies (a : t) : PerfectHashMap.t (list LinkInfo) := adj_ a.

(** The number of links. *)
Definition link_count (a : t) : nat := length (PerfectHashMap.values_ (adj_ a) ≫= snd).

Lemma GetNeighbors_lookup a u :
  GetNeighbors a u = default [] (PerfectHashMap.lookup (adj_ a) u).
Proof.
  unfold GetNeighbors. destruct (PerfectHashMap.HasValue (adj_ a) u) eqn:Hh; simpl.
  - apply PerfectHashMap.HasValue_lookup in Hh as [v Hv].
    rewrite Hv. by apply PerfectHashMap.GetValueOrDie_Ok in Hv as ->.
  - by apply PerfectHashMap.HasValue_false in Hh as ->.
Qed.

(** Slots that were never used hold an empty vector. *)
Definition slots_ok (a : t) : Prop :=
  forall u, PerfectHashMap.lookup (adj_ a) u = None -> PerfectHashMap.slot [] (adj_ a) u = [].

Definition wf (a : t) : Prop :=
  slots_ok a /\
  (forall u e, e ∈ GetNeighbors a u ->
     src_index e = u /\ PerfectHashSet.Contains (all_nodes_ a) u = true /\
     PerfectHashSet.Contains (all_nodes_ a) (dst_index e) = true).

Lemma slot_GetNeighbors a u : slots_ok a -> PerfectHashMap.slot [] (adj_ a) u = GetNeighbors a u.
Proof.
  intros Hs. rewrite GetNeighbors_lookup.
  destruct (PerfectHashMap.lookup (adj_ a) u) as [v|] eqn:Hv; simpl.
  - by apply PerfectHashMap.lookup_slot.
  - by apply Hs.
Qed.

(** What [AddLink] changes. *)
Lemma AddLink_spec a link s d dl :
  wf a ->
  exists a', AddLink a link s d dl = Ok a' /\ wf a' /\
    (forall u, GetNeighbors a' u =
       if decide (u = s) then GetNeighbors a u ++ [mkLinkInfo link s d dl]
       else GetNeighbors a u) /\
    (forall u, PerfectHashSet.Contains (all_nodes_ a') u = true <->
       u = s \/ u = d \/ PerfectHashSet.Contains (all_nodes_ a) u = true).
Proof.
  intros [Hs Hw]. unfold AddLink. rewrite PerfectHashMap.Ref_Ok. simpl.
  eexists. split; [done|]. set (a' := mk _ _).
  assert (Hn : forall u, GetNeighbors a' u =
       if decide (u = s) then GetNeighbors a u ++ [mkLinkInfo link s d dl]
       else GetNeighbors a u).
  { intros u. rewrite !GetNeighbors_lookup. simpl.
    rewrite PerfectHashMap.RefAssign_Add, !PerfectHashMap.lookup_Add.
    destruct (decide (u = s)) as [->|Hne].
    - rewrite decide_True by done. simpl. by rewrite slot_GetNeighbors, GetNeighbors_lookup.
    - by rewrite !decide_False by done. }
  assert (Hc : forall u, PerfectHashSet.Contains (all_nodes_ a') u = true <->
       u = s \/ u = d \/ PerfectHashSet.Contains (all_nodes_ a) u = true).
  { intros u. simpl. rewrite !PerfectHashSet.Contains_Insert. repeat case_decide; naive_solver. }
  split_and!; [split|done..].
  - intros u. simpl. rewrite PerfectHashMap.RefAssign_Add, !PerfectHashMap.lookup_Add,
      !PerfectHashMap.slot_Add. repeat case_decide; try done. apply Hs.
  - intros u e. rewrite Hn, !Hc. destruct (decide (u = s)) as [->|Hne].
    + rewrite elem_of_app, list_elem_of_singleton.
      intros [He| ->]; [|naive_solver]. apply Hw in He. naive_solver.
    + intros He. apply Hw in He. naive_solver.
Qed.

Lemma empty_wf : wf empty.
Proof. split; [done|]. intros u e. rewrite GetNeighbors_lookup. simpl. set_solver. Qed.
End AdjacencyList.

(** ** GraphStorage *)
Module GraphStorage.

Record t := mk {
  links_ : gmap string (gmap string Links);
  nodes_ : gmap string nat;
  link_store_ : PerfectHashStore.t GraphLink;
  node_store_ : PerfectHashStore.t GraphNode;
  adjacency_list_ : AdjacencyList.t;
  simple_ : bool;
  node_order_ : list string
}.

Definition init (node_order : list string) : t :=
  mk ∅ ∅ PerfectHashStore.empty PerfectHashStore.empty AdjacencyList.empty true node_order.

Definition GetLink (g : t) (link_index : nat) : outcome GraphLink :=
  PerfectHashStore.GetItemOrDie (link_store_ g) link_index.

Definition GetNode (g : t) (node_index : nat) : outcome GraphNode :=
  PerfectHashStore.GetItemOrDie (node_store_ g) node_index.

Definition NodeFromString (g : t) (i : string) : outcome (t * nat) :=
  match nodes_ g !! i with
  | Some index => Ok (g, index)
  | None =>
      '(store, index) ← PerfectHashStore.MoveItem kIndexBits (node_store_ g) (mkGraphNode i);
      Ok (mk (links_ g) (<[i := index]> (nodes_ g)) (link_store_ g) store
             (adjacency_list_ g) (simple_ g) (node_order_ g), index)
  end.

(** [FindOrDie(map, key)]. *)
Definition find_or_die `{Countable K} {V} (m : gmap K V) (k : K) : outcome V :=
  match m !! k with Some v => Ok v | None => Fail CheckFailed end.

Definition NodeFromStringOrDie (g : t) (i : string) : outcome nat := find_or_die (nodes_ g) i.
Definition NodeFromStringOrNull (g : t) (i : string) : option nat := nodes_ g !! i.

Definition FindUniqueInverseOrDie (g : t) (link : GraphLink) : outcome nat :=
  s ← GetNode g (src link);
  d ← GetNode g (dst link);
  dst_to_links ← find_or_die (links_ g) (id d);
  links ← find_or_die dst_to_links (id s);
  _ ← check (length links =? 1);
  vec_at links 0.

Definition FindUniqueInverseOrNull (g : t) (link : GraphLink) : outcome (option nat) :=
  s ← GetNode g (src link);
  d ← GetNode g (dst link);
  match links_ g !! id d with
  | None => Ok None
  | Some dst_to_links =>
      match dst_to_links !! id s with
      | None => Ok None
      | Some links =>
          if negb (length links =? 1) then Ok None
          else i ← vec_at links 0; Ok (Some i)
      end
  end.

Definition LinkCount (g : t) : nat := PerfectHashStore.size (link_store_ g).
Definition NodeCount (g : t) : nat := PerfectHashStore.size (node_store_ g).
Definition AllNodes (g : t) : PerfectHashSet.t := PerfectHashSet.FullSetFromStore (node_store_ g).
Definition AllLinks (g : t) : PerfectHashSet.t := PerfectHashSet.FullSetFromStore (link_store_ g).

(** [links_[s][d].emplace_back(index)]. *)
Definition record_link (m : gmap string (gmap string Links)) (s d : string) (index : nat) :
  gmap string (gmap string Links) :=
  let inner := default ∅ (m !! s) in
  <[s := <[d := default [] (inner !! d) ++ [index]]> inner]> m.

(** One iteration of [PopulateAdjacencyList]. *)
Definition populate_step (g : t) (link : nat) : outcome t :=
  link_ptr ← GetLink g link;
  let double := existsb (λ info, AdjacencyList.dst_index info =? dst link_ptr)
                  (AdjacencyList.GetNeighbors (adjacency_list_ g) (src link_ptr)) in
  adj ← AdjacencyList.AddLink (adjacency_list_ g) link (src link_ptr) (dst link_ptr)
          (delay (base link_ptr));
  Ok (mk (links_ g) (nodes_ g) (link_store_ g) (node_store_ g) adj
         (if double then false else simple_ g) (node_order_ g)).

Definition PopulateAdjacencyList (g : t) : outcome t :=
  all ← PerfectHashSet.iterate kIndexBits (AllLinks g);
  mfold populate_step all
    (mk (links_ g) (nodes_ g) (link_store_ g) (node_store_ g) (adjacency_list_ g) true
        (node_order_ g)).

(** Creating a link between two nodes of the storage and recording it. *)
Definition store_link (g : t) (link_base : GraphLinkBase) (s d : nat) : outcome (t * nat) :=
  sn ← GetNode g s;
  dn ← GetNode g d;
  '(store, index) ← PerfectHashStore.MoveItem kIndexBits (link_store_ g)
                      (mkGraphLink link_base s d sn dn);
  Ok (mk (record_link (links_ g) (src_id link_base) (dst_id link_base) index) (nodes_ g) store
         (node_store_ g) (adjacency_list_ g) (simple_ g) (node_order_ g), index).

(** One iteration of the constructor's loop; [node_ids] is only filled when an
    order of the nodes was given. *)
Definition construct_step (acc : t * gset string) (link_base : GraphLinkBase)
  : outcome (t * gset string) :=
  let '(g, node_ids) := acc in
  let node_ids := if bool_decide (node_order_ g = []) then node_ids
                  else {[dst_id link_base]} ∪ ({[src_id link_base]} ∪ node_ids) in
  '(g, src_index) ← NodeFromString g (src_id link_base);
  '(g, dst_index) ← NodeFromString g (dst_id link_base);
  '(g, _) ← store_link g link_base src_index dst_index;
  Ok (g, node_ids).

Definition construct (graph_builder : GraphBuilder.t) (node_order : list string) : outcome t :=
  '(g, node_ids) ← mfold construct_step (GraphBuilder.links_ graph_builder)
                     (init node_order, ∅);
  g ← PopulateAdjacencyList g;
  if bool_decide (node_order_ g = []) then Ok g
  else
    _ ← check (size node_ids =? length (node_order_ g));
    _ ← mfold (λ _ node_id, check (bool_decide (node_id ∈ node_ids))) (node_order_ g) tt;
    Ok g.

(** [LinkOrDie] by names and by indices. *)
Definition LinkOrDie (g : t) (s d : string) : outcome nat :=
  _ ← check (negb (GraphBuilder.is_empty s) && negb (GraphBuilder.is_empty d));
  _ ← check (negb (bool_decide (s = d)));
  match links_ g !! s with
  | Some inner =>
      match inner !! d with
      | Some links => vec_at links 0
      | None => Fail CheckFailed
      end
  | None => Fail CheckFailed
  end.

Definition LinkOrDie_index (g : t) (s d : nat) : outcome nat :=
  _ ← check (negb (s =? d));
  match filter (λ info, AdjacencyList.dst_index info = d)
          (AdjacencyList.GetNeighbors (adjacency_list_ g) s) with
  | info :: _ => Ok (AdjacencyList.link_index info)
  | [] => Fail CheckFailed
  end.

Definition HasLink (g : t) (s d : string) : outcome bool :=
  _ ← check (negb (GraphBuilder.is_empty s) && negb (GraphBuilder.is_empty d));
  _ ← check (negb (bool_decide (s = d)));
  match links_ g !! s with
  | Some inner =>
      match inner !! d with
      | Some links => _ ← check (negb (bool_decide (links = []))); Ok true
      | None => Ok false
      end
  | None => Ok false
  end.

Definition LinkPtrOrDie (g : t) (s d : string) : outcome GraphLink :=
  i ← LinkOrDie g s d; GetLink g i.

Definition NodeOrderOrDie (g : t) : outcome (list string) :=
  _ ← check (negb (bool_decide (node_order_ g = []))); Ok (node_order_ g).

(** [ToBuilder]: the links in the order of [links_]. *)
Definition ToBuilder (g : t) : outcome GraphBuilder.t :=
  mfold (λ out entry,
           let '(s, d, i) := entry in
           link_ptr ← GetLink g i;
           l ← new_GraphLinkBase_no_ports s d (bandwidth (base link_ptr)) (delay (base link_ptr));
           GraphBuilder.AddLink out l)
    (items (links_ g) ≫= λ '(s, inner), items inner ≫= λ '(d, ix), (λ i, (s, d, i)) <$> ix)
    (GraphBuilder.init true).

(** [GetClusterName]; [Join] puts the delimiter between the elements only. *)
Fixpoint join (delim : string) (l : list string) : string :=
  match l with
  | [] => ""
  | [x] => x
  | x :: l' => x +:+ delim +:+ join delim l'
  end.

Definition node_ids_of (g : t) (l : list nat) : outcome (list string) :=
  mfold (λ out n, nd ← GetNode g n; Ok (out ++ [id nd])) l [].

Definition GetClusterName (g : t) (nodes : PerfectHashSet.t) : outcome string :=
  if PerfectHashSet.Count nodes =? 1 then
    nd ← GetNode g (PerfectHashSet.begin kIndexBits nodes); Ok (id nd)
  else
    order ← PerfectHashSet.iterate kIndexBits nodes;
    names ← node_ids_of g order;
    Ok ("C" +:+ join "_" names).

(** [ClusterNodes].  The first loop names the clusters, ... *)
Record clustering := mkClustering {
  new_storage : t;
  node_to_cluster : PerfectHashMap.t nat;
  cluster_names : list string;
  real_to_clustered_links : PerfectHashMap.t nat;
  real_to_clustered_nodes : PerfectHashMap.t nat;
  port_num : nat
}.

Definition cluster_step (g : t) (c : clustering) (i_cluster : nat * PerfectHashSet.t)
  : outcome clustering :=
  let '(i, cluster) := i_cluster in
  cluster_name ← GetClusterName g cluster;
  order ← PerfectHashSet.iterate kIndexBits cluster;
  mfold (λ c n,
           '(ns, index) ← NodeFromString (new_storage c) cluster_name;
           Ok (mkClustering ns (PerfectHashMap.RefAssign 0 (node_to_cluster c) n i)
                 (cluster_names c) (real_to_clustered_links c)
                 (PerfectHashMap.Add 0 (real_to_clustered_nodes c) n index) (port_num c)))
    order
    (mkClustering (new_storage c) (node_to_cluster c) (cluster_names c ++ [cluster_name])
       (real_to_clustered_links c) (real_to_clustered_nodes c) (port_num c)).

(** ... the second adds a link for every link between different clusters. *)
Definition cluster_link_step (g : t) (c : clustering) (link_index : nat) : outcome clustering :=
  link ← GetLink g link_index;
  '(m, src_cluster) ← PerfectHashMap.Ref 0 (node_to_cluster c) (src link);
  '(m, dst_cluster) ← PerfectHashMap.Ref 0 m (dst link);
  let c := mkClustering (new_storage c) m (cluster_names c) (real_to_clustered_links c)
             (real_to_clustered_nodes c) (port_num c) in
  if src_cluster =? dst_cluster then Ok c
  else
    src_cluster_name ← vec_at (cluster_names c) src_cluster;
    dst_cluster_name ← vec_at (cluster_names c) dst_cluster;
    '(ns, src_cluster_index) ← NodeFromString (new_storage c) src_cluster_name;
    '(ns, dst_cluster_index) ← NodeFromString ns dst_cluster_name;
    let port := u32 (Z.of_nat (S (port_num c))) in
    new_link_base ← new_GraphLinkBase src_cluster_name dst_cluster_name port port
                      (bandwidth (base link)) (delay (base link));
    '(ns, clustered_link_index) ← store_link ns new_link_base src_cluster_index dst_cluster_index;
    Ok (mkClustering ns m (cluster_names c)
          (PerfectHashMap.Add 0 (real_to_clustered_links c) link_index clustered_link_index)
          (real_to_clustered_nodes c) (S (port_num c))).

Definition ClusterNodes (g : t) (clusters : list PerfectHashSet.t)
    (links_map nodes_map : PerfectHashMap.t nat)
  : outcome (t * PerfectHashMap.t nat * PerfectHashMap.t nat) :=
  c ← mfold (cluster_step g) (zip (seq 0 (length clusters)) clusters)
        (mkClustering (init []) PerfectHashMap.empty [] links_map nodes_map 0);
  all ← PerfectHashSet.iterate kIndexBits (AllLinks g);
  c ← mfold (cluster_link_step g) all c;
  ns ← PopulateAdjacencyList (new_storage c);
  Ok (ns, real_to_clustered_links c, real_to_clustered_nodes c).

(** *** What a storage represents *)

(** The positions of the links from [s] to [d] in a list of links. *)
Definition links_between (ls : list GraphLinkBase) (s d : string) : list nat :=
  filter (λ i, (λ l, (src_id l, dst_id l)) <$> ls !! i = Some (s, d)) (seq 0 (length ls)).

(** The names of the endpoints of a list of links. *)
Definition names (ls : list GraphLinkBase) : gset string :=
  list_to_set (ls ≫= λ l, [src_id l; dst_id l]).

(** Node ids and node indices are in bijection. *)
Definition nodes_ok (g : t) : Prop :=
  forall name i, nodes_ g !! name = Some i <->
    PerfectHashStore.items_ (node_store_ g) !! i = Some (mkGraphNode name).

Definition link_repr (g : t) (l : GraphLinkBase) (link : GraphLink) : Prop :=
  base link = l /\ nodes_ g !! src_id l = Some (src link) /\
  nodes_ g !! dst_id l = Some (dst link) /\
  src_node link = mkGraphNode (src_id l) /\ dst_node link = mkGraphNode (dst_id l).

(** The storage holds exactly the links [ls], in this order. *)
Record represents (ls : list GraphLinkBase) (g : t) : Prop := {
  repr_nodes : nodes_ok g;
  repr_names : dom (nodes_ g) = names ls;
  repr_links : Forall2 (link_repr g) ls (PerfectHashStore.items_ (link_store_ g));
  repr_between : forall s d,
    links_ g !! s ≫= (.!! d) =
      match links_between ls s d with [] => None | is_ => Some is_ end
}.

Lemma elem_of_names ls name :
  name ∈ names ls <-> exists l, l ∈ ls /\ (name = src_id l \/ name = dst_id l).
Proof.
  unfold names. rewrite elem_of_list_to_set, list_elem_of_bind. set_solver.
Qed.

Lemma names_snoc ls l : names (ls ++ [l]) = names ls ∪ {[src_id l; dst_id l]}.
Proof.
  apply set_eq. intros x. rewrite elem_of_union, !elem_of_names. set_solver.
Qed.

Lemma elem_of_links_between ls s d i :
  i ∈ links_between ls s d <-> exists l, ls !! i = Some l /\ src_id l = s /\ dst_id l = d.
Proof.
  unfold links_between. rewrite list_elem_of_filter, elem_of_seq. split.
  - intros [Hi _]. destruct (ls !! i) as [l|]; naive_solver.
  - intros (l & Hl & <- & <-). rewrite Hl. apply lookup_lt_Some in Hl.
    split; [done|lia].
Qed.

Lemma links_between_snoc ls l s d :
  links_between (ls ++ [l]) s d =
    links_between ls s d ++ (if decide ((src_id l, dst_id l) = (s, d)) then [length ls] else []).
Proof.
  unfold links_between. rewrite length_app. simpl. rewrite seq_app, filter_app. f_equal.
  - apply list_filter_ext_in. apply Forall_forall. intros i Hi%elem_of_seq.
    by rewrite lookup_app_l by lia.
  - simpl. rewrite filter_cons, lookup_app_r, Nat.sub_diag by lia. simpl.
    repeat case_decide; simplify_eq; done.
Qed.

(** *** The constructor's loop *)

Lemma node_store_size g : nodes_ok g -> size (nodes_ g) = PerfectHashStore.size (node_store_ g).
Proof.
  intros Hok. unfold PerfectHashStore.size. rewrite <-size_dom.
  assert (Hnd : NoDup (id <$> PerfectHashStore.items_ (node_store_ g))).
  { apply NoDup_alt. intros i j x Hi Hj. 
    apply list_lookup_fmap_Some in Hi as ([xi] & -> & Hi).
    apply list_lookup_fmap_Some in Hj as ([xj] & Heq & Hj). simpl in *. subst.
    apply Hok in Hi, Hj. congruence. }
  rewrite <-(length_fmap id), <-(size_list_to_set (C := gset string)) by done. f_equal.
  apply set_eq. intros x. rewrite elem_of_dom, elem_of_list_to_set, list_elem_of_fmap. split.
  - intros [i Hi%Hok]. exists (mkGraphNode x). split; [done|]. by eapply list_elem_of_lookup_2.
  - intros ([y] & -> & [i Hi]%list_elem_of_lookup_1). exists i. by apply Hok.
Qed.

Lemma NodeFromString_spec g name :
  nodes_ok g ->
  (nodes_ g !! name = None -> fits kIndexBits (S (NodeCount g))) ->
  exists g' i, NodeFromString g name = Ok (g', i) /\ nodes_ok g' /\
    (forall j, nodes_ g !! name = Some j -> j = i) /\ nodes_ g' = <[name := i]> (nodes_ g) /\
    links_ g' = links_ g /\ link_store_ g' = link_store_ g /\
    adjacency_list_ g' = adjacency_list_ g /\ node_order_ g' = node_order_ g.
Proof.
  intros Hok Hroom. unfold NodeFromString.
  destruct (nodes_ g !! name) as [i|] eqn:Hn.
  { exists g, i. split_and!; try done; [by intros j [=]|by rewrite insert_id]. }
  specialize (Hroom eq_refl). unfold NodeCount, PerfectHashStore.size in Hroom.
  unfold PerfectHashStore.MoveItem.
  rewrite (proj2 (Z.ltb_lt _ _)) by (unfold fits, umax in *; lia).
  cbv beta iota zeta delta [mbind outcome_bind check].
  rewrite Index_id by eauto with ncode.
  eexists _, _. split_and!; try done. simpl. intros x i. simpl.
  rewrite lookup_insert_Some, lookup_app_Some, list_lookup_singleton_Some, (Hok x i). split.
  - intros [[<- <-]|[Hx Hi]]; [|by left]. right. split; [lia|]. by rewrite Nat.sub_diag.
  - intros [Hi|(Hge & H0 & [= <-])].
    + right. split; [|done]. intros <-. apply Hok in Hi. congruence.
    + left. split; [done|]. lia.
Qed.
Lemma record_link_lookup m s d i s' d' :
  record_link m s d i !! s' ≫= (.!! d') =
    if decide ((s, d) = (s', d')) then Some (default [] (m !! s ≫= (.!! d)) ++ [i])
    else m !! s' ≫= (.!! d').
Proof.
  unfold record_link. destruct (decide (s = s')) as [<-|Hs].
  - rewrite lookup_insert_eq. simpl. destruct (decide (d = d')) as [<-|Hd].
    + rewrite lookup_insert_eq, decide_True by done. by destruct (m !! s).
    + rewrite lookup_insert_ne, decide_False by congruence. by destruct (m !! s).
  - by rewrite lookup_insert_ne, decide_False by congruence.
Qed.

Lemma insert_compat_subseteq (m : gmap string nat) name i :
  (forall j, m !! name = Some j -> j = i) -> m ⊆ <[name := i]> m.
Proof.
  intros H. apply map_subseteq_spec. intros k v Hk. apply lookup_insert_Some.
  destruct (decide (name = k)) as [->|]; [|by right]. left. by rewrite (H v Hk).
Qed.

Lemma link_repr_mono g g' l link :
  nodes_ g ⊆ nodes_ g' -> link_repr g l link -> link_repr g' l link.
Proof.
  rewrite map_subseteq_spec. intros Hsub (H1 & H2 & H3 & H4 & H5).
  split_and!; eauto.
Qed.

Lemma GetNode_name g name i : nodes_ok g -> nodes_ g !! name = Some i ->
  GetNode g i = Ok (mkGraphNode name).
Proof. intros Hok Hi. apply PerfectHashStore.GetItemOrDie_Ok. by apply Hok. Qed.

Lemma GetLink_items g i link :
  PerfectHashStore.items_ (link_store_ g) !! i = Some link -> GetLink g i = Ok link.
Proof. apply PerfectHashStore.GetItemOrDie_Ok. Qed.

Lemma store_link_spec g l s d :
  nodes_ok g -> nodes_ g !! src_id l = Some s -> nodes_ g !! dst_id l = Some d ->
  fits kIndexBits (S (LinkCount g)) ->
  exists g', store_link g l s d = Ok (g', LinkCount g) /\
    links_ g' = record_link (links_ g) (src_id l) (dst_id l) (LinkCount g) /\
    nodes_ g' = nodes_ g /\ node_store_ g' = node_store_ g /\
    PerfectHashStore.items_ (link_store_ g') = PerfectHashStore.items_ (link_store_ g) ++
      [mkGraphLink l s d (mkGraphNode (src_id l)) (mkGraphNode (dst_id l))] /\
    adjacency_list_ g' = adjacency_list_ g /\ node_order_ g' = node_order_ g.
Proof.
  intros Hok Hs Hd Hroom. unfold store_link.
  rewrite (GetNode_name g (src_id l) s), (GetNode_name g (dst_id l) d) by done.
  unfold LinkCount, PerfectHashStore.size in *. unfold PerfectHashStore.MoveItem.
  cbv beta iota zeta delta [mbind outcome_bind].
  rewrite (proj2 (Z.ltb_lt _ _)) by (unfold fits, umax in *; lia).
  cbv beta iota zeta delta [mbind outcome_bind check].
  rewrite Index_id by eauto with ncode. eexists. split_and!; done.
Qed.

Lemma construct_step_spec ls l g ids :
  represents ls g ->
  fits kIndexBits (S (length ls)) -> fits kIndexBits (size (names (ls ++ [l]))) ->
  exists g' ids', construct_step (g, ids) l = Ok (g', ids') /\
    represents (ls ++ [l]) g' /\ adjacency_list_ g' = adjacency_list_ g /\
    node_order_ g' = node_order_ g /\
    ids' = (if bool_decide (node_order_ g = []) then ids else ids ∪ {[src_id l; dst_id l]}).
Proof.
  intros [Hok Hnames Hlinks Hbetween] Hroom Hnroom. unfold construct_step.
  rewrite names_snoc, <-Hnames in Hnroom.
  assert (Hroom' : forall m : gmap string nat, forall name,
            dom m ⊆ dom (nodes_ g) ∪ {[src_id l; dst_id l]} -> name ∈ ({[src_id l; dst_id l]} : gset string) ->
            m !! name = None -> fits kIndexBits (S (size m))).
  { intros m name Hdom Hname Hm. eapply fits_le; [|exact Hnroom].
    assert (S (size m) = size ({[name]} ∪ dom m)) as ->.
    - rewrite size_union, size_singleton, size_dom; [done|].
      apply disjoint_singleton_l. by apply not_elem_of_dom.
    - apply subseteq_size. set_solver. }
  destruct (NodeFromString_spec g (src_id l)) as
    (g1 & s & H1 & Hok1 & Hc1 & Hn1 & Hl1 & Hs1 & Ha1 & Ho1); [done| |].
  { intros Hnone. unfold NodeCount. rewrite <-node_store_size by done.
    apply (Hroom' _ (src_id l)); set_solver. }
  destruct (NodeFromString_spec g1 (dst_id l)) as
    (g2 & d & H2 & Hok2 & Hc2 & Hn2 & Hl2 & Hs2 & Ha2 & Ho2); [done| |].
  { intros Hnone. unfold NodeCount. rewrite <-node_store_size by done.
    apply (Hroom' _ (dst_id l)); [rewrite Hn1; set_solver|set_solver|done]. }
  pose proof (insert_compat_subseteq _ _ _ Hc1) as Hsub1. rewrite <-Hn1 in Hsub1.
  pose proof (insert_compat_subseteq _ _ _ Hc2) as Hsub2. rewrite <-Hn2 in Hsub2.
  assert (Hsrc : nodes_ g2 !! src_id l = Some s).
  { eapply lookup_weaken; [|done]. by rewrite Hn1, lookup_insert_eq. }
  assert (Hdst : nodes_ g2 !! dst_id l = Some d) by by rewrite Hn2, lookup_insert_eq.
  pose proof (Forall2_length _ _ _ Hlinks) as Hlen.
  assert (Hcount : LinkCount g2 = length ls).
  { unfold LinkCount, PerfectHashStore.size. congruence. }
  destruct (store_link_spec g2 l s d) as (g3 & H3 & Hl3 & Hn3 & Hns3 & Hi3 & Ha3 & Ho3);
    [done..|by rewrite Hcount|].
  eexists g3, _. rewrite H1. simpl. rewrite H2. simpl. rewrite H3. simpl.
  split_and!; [done| |congruence|congruence|].
  - assert (Hsub : nodes_ g ⊆ nodes_ g3) by (rewrite Hn3; by etrans).
    split.
    + intros x i. rewrite Hn3, Hns3. apply Hok2.
    + rewrite Hn3, Hn2, Hn1, !dom_insert_L, Hnames, names_snoc. set_solver.
    + rewrite Hi3, Hs2, Hs1. apply Forall2_app.
      * eapply Forall2_impl; [done|]. intros ??. by apply link_repr_mono.
      * constructor; [|done]. split_and!; try done; by rewrite Hn3.
    + intros s' d'. rewrite Hl3, record_link_lookup, Hcount, Hl2, Hl1, !Hbetween,
        links_between_snoc.
      repeat case_decide; simplify_eq; rewrite ?app_nil_r; [|done].
      by destruct (links_between ls (src_id l) (dst_id l)).
  - case_bool_decide; set_solver.
Qed.

(** *** PopulateAdjacencyList *)

Definition info_of (i : nat) (l : GraphLink) : AdjacencyList.LinkInfo :=
  AdjacencyList.mkLinkInfo i (src l) (dst l) (delay (base l)).

(** The links out of [u] among the first [n], in the order of their indices. *)
Definition out_links (links : list GraphLink) (n u : nat) : list AdjacencyList.LinkInfo :=
  omap (λ i, links !! i ≫= λ l, if decide (src l = u) then Some (info_of i l) else None) (seq 0 n).

Definition endpoints (l : GraphLink) : nat * nat := (src l, dst l).

Lemma elem_of_out_links links n u e :
  e ∈ out_links links n u <->
  exists i l, i < n /\ links !! i = Some l /\ src l = u /\ e = info_of i l.
Proof.
  unfold out_links. rewrite list_elem_of_omap. split.
  - intros (i & Hi%elem_of_seq & Hl). destruct (links !! i) as [l|] eqn:Hli; simplify_eq/=.
    case_decide; simplify_eq. exists i, l. split_and!; [lia|done..].
  - intros (i & l & Hi & Hl & <- & ->). exists i. rewrite Hl. simpl.
    rewrite decide_True by done. split; [apply elem_of_seq; lia|done].
Qed.

Lemma out_links_S links n u l :
  links !! n = Some l ->
  out_links links (S n) u = out_links links n u ++ if decide (src l = u) then [info_of n l] else [].
Proof.
  intros Hl. unfold out_links. rewrite seq_S, omap_app. simpl. rewrite Hl. simpl.
  by case_decide.
Qed.

(** The adjacency list holds the first [n] links. *)
Record populated (links : list GraphLink) (n : nat) (a : AdjacencyList.t) (simple : bool) : Prop := {
  pop_wf : AdjacencyList.wf a;
  pop_neighbors : forall u, AdjacencyList.GetNeighbors a u = out_links links n u;
  pop_nodes : forall u, PerfectHashSet.Contains (AdjacencyList.all_nodes_ a) u = true <->
    exists l, l ∈ take n links /\ (u = src l \/ u = dst l);
  pop_simple : simple = true <-> NoDup (endpoints <$> take n links)
}.

Definition same_but_adjacency (g g' : t) : Prop :=
  links_ g' = links_ g /\ nodes_ g' = nodes_ g /\ link_store_ g' = link_store_ g /\
  node_store_ g' = node_store_ g /\ node_order_ g' = node_order_ g.

Lemma populate_step_spec g n l :
  let links := PerfectHashStore.items_ (link_store_ g) in
  links !! n = Some l -> populated links n (adjacency_list_ g) (simple_ g) ->
  exists g', populate_step g n = Ok g' /\ same_but_adjacency g g' /\
    populated links (1 + n) (adjacency_list_ g') (simple_ g').
Proof.
  intros links Hl [Hwf Hn Hnodes Hsimple]. unfold populate_step, GetLink.
  rewrite (proj2 (PerfectHashStore.GetItemOrDie_Ok _ _ _) Hl). simpl.
  destruct (AdjacencyList.AddLink_spec (adjacency_list_ g) n (src l) (dst l) (delay (base l)) Hwf)
    as (a' & -> & Hwf' & Hn' & Hc'). simpl.
  eexists. split_and!; [done..|]. simpl. split; simpl.
  - done.
  - intros u. rewrite Hn', !Hn. rewrite (out_links_S _ _ _ _ Hl).
    repeat case_decide; subst; try done. by rewrite app_nil_r.
  - intros u. rewrite Hc', Hnodes, (take_S_r _ _ _ Hl). set_solver.
  - rewrite (take_S_r _ _ _ Hl), fmap_app, NoDup_app, Hn.
    assert (Hex : existsb (λ info, AdjacencyList.dst_index info =? dst l)
                    (out_links links n (src l)) = true <->
                  endpoints l ∈ endpoints <$> take n links).
    { rewrite existsb_exists, list_elem_of_fmap. split.
      - intros (e & He%list_elem_of_In & Hd%Nat.eqb_eq).
        apply elem_of_out_links in He as (i & l' & Hi & Hl' & Hs & ->). simpl in Hd.
        exists l'. unfold endpoints. rewrite Hs, Hd. split; [done|].
        apply list_elem_of_lookup_2 with i. by rewrite lookup_take_lt by lia.
      - intros (l' & [= Hs Hd] & [i Hi]%list_elem_of_lookup_1).
        apply lookup_take_Some in Hi as [Hi Hlt]. exists (info_of i l'). split.
        + apply list_elem_of_In, elem_of_out_links. by exists i, l'.
        + apply Nat.eqb_eq. done. }
    destruct (existsb _ _) eqn:He.
    + split; [done|]. intros (_ & Hnd & _). exfalso. apply (Hnd (endpoints l)); [by apply Hex|].
      set_solver.
    + rewrite Hsimple. split; [|by intros []]. intros Hnd. split_and!; [done| |apply NoDup_singleton].
      intros x Hx ->%list_elem_of_singleton. apply Hex in Hx. congruence.
Qed.

Lemma PopulateAdjacencyList_spec g :
  adjacency_list_ g = AdjacencyList.empty -> fits kIndexBits (LinkCount g) ->
  exists g', PopulateAdjacencyList g = Ok g' /\ same_but_adjacency g g' /\
    populated (PerfectHashStore.items_ (link_store_ g)) (LinkCount g) (adjacency_list_ g') (simple_ g').
Proof.
  intros Ha Hf. unfold PopulateAdjacencyList, AllLinks.
  rewrite PerfectHashSet.iterate_full by done.
  cbv beta iota delta [mbind outcome_bind]. rewrite Ha.
  apply (mfold_seq_inv (λ n g', same_but_adjacency g g' /\
    populated (PerfectHashStore.items_ (link_store_ g)) n (adjacency_list_ g') (simple_ g'))).
  - split; [done|]. simpl. split; [apply AdjacencyList.empty_wf|done| |].
    + intros u. simpl. rewrite PerfectHashSet.Contains_empty. set_solver.
    + split; [intros; constructor|done].
  - intros n g1 Hn [(E1 & E2 & E3 & E4 & E5) Hpop].
    destruct (lookup_lt_is_Some_2 _ _ Hn) as [l Hl].
    destruct (populate_step_spec g1 n l) as (g2 & H2 & (F1 & F2 & F3 & F4 & F5) & Hpop2);
      [congruence|congruence|].
    exists g2. split_and!; [done|repeat split; congruence|congruence].
Qed.

(** *** The whole constructor *)

Lemma represents_init order : represents [] (init order).
Proof.
  split; try done.
Qed.

Lemma names_prefix ls1 ls2 : ls1 `prefix_of` ls2 -> names ls1 ⊆ names ls2.
Proof.
  intros [k ->] x. rewrite !elem_of_names. set_solver.
Qed.

Lemma construct_loop ls order :
  fits kIndexBits (length ls) -> fits kIndexBits (size (names ls)) ->
  exists g ids, mfold construct_step ls (init order, ∅) = Ok (g, ids) /\
    represents ls g /\ adjacency_list_ g = AdjacencyList.empty /\ node_order_ g = order /\
    ids = (if bool_decide (order = []) then ∅ else names ls).
Proof.
  intros Hlen Hnames.
  destruct (mfold_inv (λ l (acc : t * gset string), represents l acc.1 /\
      adjacency_list_ acc.1 = AdjacencyList.empty /\ node_order_ acc.1 = order /\
      acc.2 = (if bool_decide (order = []) then ∅ else names l))
    construct_step ls (init order, ∅)) as ([g ids] & H & HI).
  - split_and!; [apply represents_init|done..|]. by case_bool_decide.
  - intros l a [g ids] Hpre (Hr & Ha & Ho & Hids). simpl in *.
    pose proof (prefix_length _ _ Hpre) as Hl. rewrite length_app in Hl. simpl in Hl.
    destruct (construct_step_spec l a g ids Hr) as (g' & ids' & H' & Hr' & Ha' & Ho' & Hi').
    + eapply fits_le; [|exact Hlen]. lia.
    + eapply fits_le; [|exact Hnames]. apply subseteq_size. by apply names_prefix.
    + exists (g', ids'). split_and!; try done; simpl; [congruence..|].
      rewrite Hi', Ho, Hids, names_snoc. destruct (decide (order = [])) as [E|E];
        [by rewrite !(bool_decide_true _ E)|by rewrite !(bool_decide_false _ E)].
  - exists g, ids. destruct HI as (? & ? & ? & ?). done.
Qed.

Lemma represents_same ls g g' : same_but_adjacency g g' -> represents ls g -> represents ls g'.
Proof.
  intros (E1 & E2 & E3 & E4 & E5) [H1 H2 H3 H4]. split.
  - intros name i. rewrite E2, E4. apply H1.
  - by rewrite E2.
  - rewrite E3. eapply Forall2_impl; [done|]. intros l link. unfold link_repr. by rewrite E2.
  - intros s d. rewrite E1. apply H4.
Qed.

Lemma represents_LinkCount ls g : represents ls g -> LinkCount g = length ls.
Proof. intros [_ _ H _]. symmetry. by eapply Forall2_length. Qed.

Lemma construct_no_order b :
  let ls := GraphBuilder.links_ b in
  fits kIndexBits (length ls) -> fits kIndexBits (size (names ls)) ->
  exists g, construct b [] = Ok g /\ represents ls g /\
    populated (PerfectHashStore.items_ (link_store_ g)) (length ls) (adjacency_list_ g) (simple_ g).
Proof.
  intros ls Hl Hn. destruct (construct_loop ls [] Hl Hn) as (g & ids & H & Hr & Ha & Ho & Hi).
  destruct (PopulateAdjacencyList_spec g Ha) as (g' & H' & Hsame & Hpop).
  { by rewrite (represents_LinkCount ls). }
  exists g'. unfold construct. fold ls. rewrite H. simpl. rewrite H'. simpl.
  rewrite bool_decide_true by (by destruct Hsame as (_ & _ & _ & _ & ->)).
  split_and!; [done|by eapply represents_same|].
  rewrite (represents_LinkCount ls g Hr) in Hpop. by destruct Hsame as (_ & _ & -> & _).
Qed.

(** *** Lookups *)

Lemma links_between_head ls s d i is_ :
  links_between ls s d = i :: is_ ->
  (exists l, ls !! i = Some l /\ src_id l = s /\ dst_id l = d) /\
  (forall j l, ls !! j = Some l -> src_id l = s -> dst_id l = d -> i <= j).
Proof.
  intros H. split.
  - apply elem_of_links_between. rewrite H. set_solver.
  - intros j l Hj Hs Hd.
    assert (Hin : j ∈ i :: is_) by (rewrite <-H; apply elem_of_links_between; eauto).
    pose proof (filter_seq_sorted (λ i, (λ l, (src_id l, dst_id l)) <$> ls !! i = Some (s, d))
                  0 (length ls)) as Hs'.
    fold (links_between ls s d) in Hs'. rewrite H in Hs'. inversion Hs' as [|? ? _ Hall]; subst.
    apply elem_of_cons in Hin as [->|Hin]; [done|]. rewrite Forall_forall in Hall.
    apply Hall in Hin. lia.
Qed.

Lemma links_between_nil ls s d :
  links_between ls s d = [] <-> ~ exists l, l ∈ ls /\ src_id l = s /\ dst_id l = d.
Proof.
  rewrite list_nil_elem_of. split.
  - intros H (l & [i Hi]%list_elem_of_lookup_1 & Hs & Hd). apply (H i).
    apply elem_of_links_between. eauto.
  - intros H i (l & Hl & Hs & Hd)%elem_of_links_between. apply H. exists l.
    split_and!; [by eapply list_elem_of_lookup_2|done..].
Qed.
End GraphStorage.

(** ** Walks *)

Definition TotalDelayOfLinks (links : Links) (g : GraphStorage.t) : outcome Delay :=
  mfold (λ total i, link ← GraphStorage.GetLink g i; delay_add total (delay (base link))) links 0%Z.

Definition HasDuplicateLinks (links : Links) : bool :=
  existsb (λ i, existsb (λ j, match links !! i, links !! j with
                              | Some a, Some b => a =? b
                              | _, _ => false
                              end)
                  (seq (i + 1) (length links - (i + 1))))
    (seq 0 (length links)).

(** The loop of [HasDuplicateNodes]. *)
Fixpoint dup_nodes_loop (g : GraphStorage.t) (nodes : PerfectHashSet.t) (links : Links)
  : outcome bool :=
  match links with
  | [] => Ok false
  | l :: links' =>
      link ← GraphStorage.GetLink g l;
      if PerfectHashSet.Contains nodes (dst link) then Ok true
      else dup_nodes_loop g (PerfectHashSet.Insert nodes (dst link)) links'
  end.

Definition HasDuplicateNodes (links : Links) (g : GraphStorage.t) : outcome bool :=
  match links with
  | [] => Ok false
  | l :: _ =>
      link ← GraphStorage.GetLink g l;
      dup_nodes_loop g (PerfectHashSet.Insert PerfectHashSet.empty (src link)) links
  end.

(** The first [i], counted from [from] with [n] left, at which [p one two i]
    differ; [path_two] is indexed without a check. *)
Fixpoint first_difference (pos : nat -> nat * nat) (path_one path_two : Links) (n i : nat)
  : outcome (option nat) :=
  match n with
  | O => Ok None
  | S n' =>
      link_one ← vec_at path_one (pos i).1;
      link_two ← vec_at path_two (pos i).2;
      if link_one =? link_two then first_difference pos path_one path_two n' (S i)
      else Ok (Some i)
  end.

(** [LinksDetour]; the results are [size_t]. *)
Definition LinksDetour (path_one path_two : Links) : outcome (Z * Z) :=
  _ ← check (negb (bool_decide (path_one = [])));
  _ ← check (negb (bool_decide (path_two = [])));
  detour_start ← first_difference (λ i, (i, i)) path_one path_two (length path_one) 0;
  match detour_start with
  | None => Ok (umax 64, umax 64)
  | Some start =>
      detour_end ← first_difference (λ i, (length path_one - i, length path_two - i))
                     path_one path_two (length path_one - 1) 1;
      let detour_end := match detour_end with Some i => Z.of_nat i | None => umax 64 end in
      Ok (Z.of_nat start, u64 (Z.of_nat (length path_two) - detour_end))
  end.

Module Walk.
Record t := mk { links_ : Links; delay_ : Delay }.

#[global] Instance Walk_eq_dec : EqDecision t.
Proof. solve_decision. Defined.

Definition init : t := mk [] 0%Z.
Definition of_links_delay (links : Links) (d : Delay) : t := mk links d.
Definition of_links (links : Links) (g : GraphStorage.t) : outcome t :=
  d ← TotalDelayOfLinks links g; Ok (mk links d).

Definition Contains (w : t) (link : nat) : bool := existsb (Nat.eqb link) (links_ w).

Definition ContainsAny (w : t) (links : PerfectHashSet.t) : bool :=
  existsb (PerfectHashSet.Contains links) (links_ w).

(** The overload on nodes. *)
Fixpoint contains_any_loop (g : GraphStorage.t) (nodes : PerfectHashSet.t) (links : Links)
  : outcome bool :=
  match links with
  | [] => Ok false
  | l :: links' =>
      link ← GraphStorage.GetLink g l;
      if PerfectHashSet.Contains nodes (src link) || PerfectHashSet.Contains nodes (dst link)
      then Ok true else contains_any_loop g nodes links'
  end.
Definition ContainsAnyNode (w : t) (nodes : PerfectHashSet.t) (g : GraphStorage.t) : outcome bool :=
  contains_any_loop g nodes (links_ w).

Definition IsTrail (w : t) : bool := negb (HasDuplicateLinks (links_ w)).
Definition IsPath (w : t) (g : GraphStorage.t) : outcome bool :=
  negb <$> HasDuplicateNodes (links_ w) g.

Definition LinkSet (w : t) : PerfectHashSet.t :=
  fold_left PerfectHashSet.Insert (links_ w) PerfectHashSet.empty.

(** [FirstHop] and [LastHop]: the ends of an empty vector are undefined. *)
Definition FirstHop (w : t) (g : GraphStorage.t) : outcome nat :=
  match links_ w with
  | [] => Fail Undefined
  | l :: _ => link ← GraphStorage.GetLink g l; Ok (src link)
  end.
Definition LastHop (w : t) (g : GraphStorage.t) : outcome nat :=
  match last (links_ w) with
  | None => Fail Undefined
  | Some l => link ← GraphStorage.GetLink g l; Ok (dst link)
  end.

(** [BottleneckLinks]: the set, and what it stores through the [bandwidth]
    pointer ([None]: left alone).  [min_bandwidth] is never assigned. *)
Definition bottleneck_step (g : GraphStorage.t) (min_bandwidth : Bandwidth.t)
    (acc : PerfectHashSet.t * option Bandwidth.t) (link : nat)
  : outcome (PerfectHashSet.t * option Bandwidth.t) :=
  let '(out, bw) := acc in
  link_ptr ← GraphStorage.GetLink g link;
  let link_bw := bandwidth (base link_ptr) in
  if (link_bw <? min_bandwidth)%Z then
    Ok (PerfectHashSet.Insert (PerfectHashSet.Clear out) link, Some link_bw)
  else if (link_bw =? min_bandwidth)%Z then Ok (PerfectHashSet.Insert out link, bw)
  else Ok (out, bw).

Definition BottleneckLinks (w : t) (g : GraphStorage.t)
  : outcome (PerfectHashSet.t * option Bandwidth.t) :=
  mfold (bottleneck_step g Bandwidth.Max) (links_ w) (PerfectHashSet.empty, None).

(** [operator<] and [operator>]: delay first, then the links
    lexicographically; [operator==] compares the links only. *)
Fixpoint lex_ltb (a b : Links) : bool :=
  match a, b with
  | _, [] => false
  | [], _ :: _ => true
  | x :: a', y :: b' => if x <? y then true else if y <? x then false else lex_ltb a' b'
  end.
Definition ltb (a b : t) : bool :=
  if negb (delay_ a =? delay_ b)%Z then (delay_ a <? delay_ b)%Z
  else lex_ltb (links_ a) (links_ b).
Definition gtb (a b : t) : bool :=
  if negb (delay_ a =? delay_ b)%Z then (delay_ b <? delay_ a)%Z
  else lex_ltb (links_ b) (links_ a).
Definition eqb (a b : t) : bool := bool_decide (links_ a = links_ b).

Lemma lex_ltb_irrefl a : lex_ltb a a = false.
Proof. induction a as [|x a IH]; [done|]. simpl. by rewrite Nat.ltb_irrefl. Qed.

Lemma lex_ltb_asym a b : lex_ltb a b = true -> lex_ltb b a = false.
Proof.
  revert b. induction a as [|x a IH]; intros [|y b]; simpl; try done.
  destruct (Nat.ltb_spec x y), (Nat.ltb_spec y x); try done; try lia. apply IH.
Qed.

Lemma lex_ltb_trans a b c : lex_ltb a b = false -> lex_ltb b c = false -> lex_ltb a c = false.
Proof.
  revert b c. induction a as [|x a IH]; intros [|y b] [|z c]; simpl; try done.
  destruct (Nat.ltb_spec x y), (Nat.ltb_spec y x), (Nat.ltb_spec y z), (Nat.ltb_spec z y),
    (Nat.ltb_spec x z), (Nat.ltb_spec z x); try done; try lia. apply IH.
Qed.

Lemma lex_ltb_total a b : lex_ltb a b = false -> lex_ltb b a = false -> a = b.
Proof.
  revert b. induction a as [|x a IH]; intros [|y b]; simpl; try done.
  destruct (Nat.ltb_spec x y), (Nat.ltb_spec y x); try done; try lia.
  intros. f_equal; [lia|]. by apply IH.
Qed.
End Walk.

(** ** Properties of the storage *)

Import GraphStorage.

Lemma represents_lookup ls g i l :
  represents ls g -> ls !! i = Some l ->
  exists link, PerfectHashStore.items_ (link_store_ g) !! i = Some link /\ link_repr g l link.
Proof. intros [_ _ H _] Hl. by destruct (Forall2_lookup_l _ _ _ _ _ H Hl) as (link & ? & ?); exists link. Qed.

(** Equal endpoints are equal names. *)
Lemma link_repr_endpoints g l1 l2 k1 k2 :
  nodes_ok g -> link_repr g l1 k1 -> link_repr g l2 k2 ->
  endpoints k1 = endpoints k2 <-> (src_id l1, dst_id l1) = (src_id l2, dst_id l2).
Proof.
  intros Hok (_ & Hs1 & Hd1 & _) (_ & Hs2 & Hd2 & _). unfold endpoints. split.
  - intros [= Es Ed]. rewrite Es in Hs1. rewrite Ed in Hd1.
    apply Hok in Hs1, Hs2, Hd1, Hd2. congruence.
  - intros [= Es Ed]. rewrite Es in Hs1. rewrite Ed in Hd1. congruence.
Qed.

Lemma NoDup_endpoints ls g :
  represents ls g ->
  NoDup (endpoints <$> PerfectHashStore.items_ (link_store_ g)) <->
  NoDup ((λ l, (src_id l, dst_id l)) <$> ls).
Proof.
  intros [Hok _ Hlinks _]. revert Hlinks.
  generalize (PerfectHashStore.items_ (link_store_ g)). intros links Hlinks.
  induction Hlinks as [|l link ls links Hl Hls IH]; [split; constructor|].
  rewrite !fmap_cons, !NoDup_cons, IH. f_equiv. rewrite !list_elem_of_fmap. f_equiv. split.
  - intros (link' & Heq & [i Hi]%list_elem_of_lookup_1).
    eapply Forall2_lookup_r in Hi as (l' & Hl' & Hr); [|done].
    exists l'. split; [by eapply link_repr_endpoints|]. by eapply list_elem_of_lookup_2.
  - intros (l' & Heq & [i Hi]%list_elem_of_lookup_1).
    eapply Forall2_lookup_l in Hi as (link' & Hl' & Hr); [|done].
    exists link'. split; [by eapply link_repr_endpoints|]. by eapply list_elem_of_lookup_2.
Qed.

(** C39: a [GraphStorage] can be built from every builder whose links and node
    names fit the 16-bit indices, and it holds exactly the builder's links: link
    [i] of the storage is link [i] of the builder with the indices of its
    endpoints, names and node indices are in bijection, [links_] lists the links
    between two names in insertion order, the neighbours of a node are its
    outgoing links in insertion order, and [IsSimple] holds exactly when no two
    links have the same endpoints. *)
Theorem GraphStorage_construct_represents (b : GraphBuilder.t) :
  let ls := GraphBuilder.links_ b in
  fits kIndexBits (length ls) -> fits kIndexBits (size (names ls)) ->
  exists g, construct b [] = Ok g /\ represents ls g /\
    (forall u, AdjacencyList.GetNeighbors (adjacency_list_ g) u =
       out_links (PerfectHashStore.items_ (link_store_ g)) (length ls) u) /\
    AdjacencyList.wf (adjacency_list_ g) /\
    (simple_ g = true <-> NoDup ((λ l, (src_id l, dst_id l)) <$> ls)).
Proof.
  intros ls Hl Hn. destruct (construct_no_order b Hl Hn) as (g & H & Hr & [Hwf Hnb Hnodes Hs]).
  exists g. split_and!; [done|done|done|done|]. fold ls in Hs, Hr. rewrite Hs.
  rewrite <-(NoDup_endpoints ls g Hr), take_ge; [done|].
  rewrite <-(represents_LinkCount ls g Hr). done.
Qed.

Definition triangle : list GraphLinkBase :=
  [mkGraphLinkBase "A" "B" 1 1 10 5; mkGraphLinkBase "B" "C" 2 2 20 7;
   mkGraphLinkBase "A" "C" 3 3 10 20; mkGraphLinkBase "B" "A" 4 4 10 5]%Z.

Lemma GraphStorage_construct_represents_witness :
  exists g, construct (GraphBuilder.mk true triangle) [] = Ok g /\ represents triangle g.
Proof.
  destruct (GraphStorage_construct_represents (GraphBuilder.mk true triangle))
    as (g & H & Hr & _); [vm_compute; reflexivity..|].
  exists g. split; [exact H|exact Hr].
Defined.

Lemma find_between ls g s d :
  represents ls g ->
  (match links_ g !! s with
   | Some inner => match inner !! d with Some l => Some l | None => None end
   | None => None
   end) = match links_between ls s d with [] => None | is_ => Some is_ end.
Proof.
  intros [_ _ _ H]. rewrite <-H. destruct (links_ g !! s) as [inner|]; simpl; [|done].
  by destruct (inner !! d).
Qed.

Lemma LinkOrDie_spec ls g s d :
  represents ls g -> s <> EmptyString -> d <> EmptyString -> s <> d ->
  LinkOrDie g s d = match links_between ls s d with [] => Fail CheckFailed | i :: _ => Ok i end.
Proof.
  intros Hr Hs Hd Hsd. unfold LinkOrDie, GraphBuilder.is_empty.
  rewrite !bool_decide_false by done. simpl. pose proof (find_between ls g s d Hr) as Hf.
  destruct (links_ g !! s) as [inner|]; [destruct (inner !! d)|];
    destruct (links_between ls s d); simplify_eq; done.
Qed.

Lemma HasLink_spec ls g s d :
  represents ls g -> s <> EmptyString -> d <> EmptyString -> s <> d ->
  HasLink g s d = Ok (negb (bool_decide (links_between ls s d = []))).
Proof.
  intros Hr Hs Hd Hsd. unfold HasLink, GraphBuilder.is_empty.
  rewrite !bool_decide_false by done. simpl. pose proof (find_between ls g s d Hr) as Hf.
  destruct (links_ g !! s) as [inner|]; [destruct (inner !! d)|];
    destruct (links_between ls s d); simplify_eq; done.
Qed.

(** The links from [s] to [d], seen through the adjacency list. *)
Lemma neighbors_between ls g s d si di :
  represents ls g -> nodes_ g !! s = Some si -> nodes_ g !! d = Some di ->
  AdjacencyList.link_index <$>
    filter (λ e, AdjacencyList.dst_index e = di)
      (out_links (PerfectHashStore.items_ (link_store_ g)) (length ls) si) =
  links_between ls s d.
Proof.
  intros Hr Hs Hd. unfold out_links, links_between.
  assert (Hall : Forall (λ i, i < length ls) (seq 0 (length ls))).
  { apply Forall_forall. intros i Hi%elem_of_seq. lia. }
  induction Hall as [|i is_ Hi _ IH]; [done|].
  destruct (lookup_lt_is_Some_2 _ _ Hi) as [l Hl].
  destruct (represents_lookup ls g i l Hr Hl) as (link & Hlink & Hrepr).
  rewrite filter_cons. simpl. rewrite Hlink, Hl. simpl.
  assert (Hiff : (src link = si /\ dst link = di) <-> (src_id l, dst_id l) = (s, d)).
  { destruct Hr as [Hok _ _ _]. destruct Hrepr as (_ & H1 & H2 & _). split.
    - intros [<- <-]. apply Hok in H1, H2, Hs, Hd. congruence.
    - intros [= <- <-]. split; congruence. }
  destruct (decide (src link = si)) as [E1|E1]; simpl.
  - rewrite filter_cons. simpl. destruct (decide (dst link = di)) as [E2|E2]; simpl.
    + rewrite decide_True by (f_equal; by apply Hiff). simpl. by f_equal.
    + rewrite decide_False; [done|]. intros E%(inj Some)%Hiff. tauto.
  - rewrite decide_False; [done|]. intros E%(inj Some)%Hiff. tauto.
Qed.

(** in a storage built from a builder, for two different non-empty names,
    [HasLink] tells whether the builder has a link between them, [LinkOrDie]
    returns the first such link and dies exactly when there is none, and the
    overload that takes node indices agrees with it. *)
Theorem GraphStorage_lookup_spec (b : GraphBuilder.t) g s d :
  let ls := GraphBuilder.links_ b in
  fits kIndexBits (length ls) -> fits kIndexBits (size (names ls)) ->
  construct b [] = Ok g -> s <> EmptyString -> d <> EmptyString -> s <> d ->
  HasLink g s d = Ok (bool_decide (Exists (λ l, src_id l = s /\ dst_id l = d) ls)) /\
  match LinkOrDie g s d with
  | Ok i => (exists l, ls !! i = Some l /\ src_id l = s /\ dst_id l = d) /\
            forall j l, ls !! j = Some l -> src_id l = s -> dst_id l = d -> i <= j
  | Fail e => e = CheckFailed /\ ~ exists l, l ∈ ls /\ src_id l = s /\ dst_id l = d
  end /\
  (forall si di, NodeFromStringOrNull g s = Some si -> NodeFromStringOrNull g d = Some di ->
     LinkOrDie_index g si di = LinkOrDie g s d).
Proof.
  intros ls Hl Hn Hc Hs Hd Hsd.
  destruct (construct_no_order b Hl Hn) as (g' & H & Hr & [Hwf Hnb _ _]).
  fold ls in Hr, Hnb. rewrite Hc in H. injection H as <-.
  rewrite (HasLink_spec ls), (LinkOrDie_spec ls) by done. split_and!.
  - f_equal. apply eq_true_iff_eq.
    rewrite negb_true_iff, bool_decide_eq_false, bool_decide_eq_true, links_between_nil, Exists_exists.
    destruct (decide (Exists (λ l, src_id l = s /\ dst_id l = d) ls)) as [E|E];
      rewrite Exists_exists in E; tauto.
  - destruct (links_between ls s d) eqn:E.
    + split; [done|]. by apply links_between_nil.
    + by eapply links_between_head.
  - intros si di Hsi Hdi. unfold LinkOrDie_index, NodeFromStringOrNull in *.
    assert (si <> di) as Hne%Nat.eqb_neq.
    { intros ->. destruct Hr as [Hok _ _ _]. apply Hok in Hsi, Hdi. congruence. }
    rewrite Hne, Hnb, <-(neighbors_between ls g s d si di) by done. simpl.
    by destruct (filter _ _).
Qed.

Lemma GraphStorage_lookup_spec_witness :
  match construct (GraphBuilder.mk true triangle) [] with
  | Ok g => HasLink g "A" "C" =
      Ok (bool_decide (Exists (λ l, src_id l = "A" /\ dst_id l = "C") triangle))
  | Fail _ => False
  end.
Proof.
  destruct (construct (GraphBuilder.mk true triangle) []) as [g|] eqn:E.
  - apply (GraphStorage_lookup_spec (GraphBuilder.mk true triangle) g "A" "C");
      [vm_compute; reflexivity|vm_compute; reflexivity|exact E|discriminate..].
  - vm_compute in E. discriminate.
Defined.

(** for a link of a storage, [FindUniqueInverseOrNull] returns the link back
    when there is exactly one and null otherwise; [FindUniqueInverseOrDie]
    returns it or dies. *)
Theorem GraphStorage_inverse_spec (b : GraphBuilder.t) g i l :
  let ls := GraphBuilder.links_ b in
  fits kIndexBits (length ls) -> fits kIndexBits (size (names ls)) ->
  construct b [] = Ok g -> ls !! i = Some l ->
  exists link, GetLink g i = Ok link /\ base link = l /\
    FindUniqueInverseOrNull g link =
      Ok (match links_between ls (dst_id l) (src_id l) with [j] => Some j | _ => None end) /\
    FindUniqueInverseOrDie g link =
      match links_between ls (dst_id l) (src_id l) with [j] => Ok j | _ => Fail CheckFailed end.
Proof.
  intros ls Hl Hn Hc Hi.
  destruct (construct_no_order b Hl Hn) as (g' & H & Hr & _).
  fold ls in Hr. rewrite Hc in H. injection H as <-.
  destruct (represents_lookup ls g i l Hr Hi) as (link & Hlink & Hb & Hs & Hd & _).
  exists link. split_and!; [by apply PerfectHashStore.GetItemOrDie_Ok|done|..].
  all: unfold FindUniqueInverseOrNull, FindUniqueInverseOrDie, find_or_die;
    rewrite (GetNode_name g (src_id l) (src link)) by (done || apply Hr);
    rewrite (GetNode_name g (dst_id l) (dst link)) by (done || apply Hr); simpl;
    pose proof (find_between ls g (dst_id l) (src_id l) Hr) as Hf;
    destruct (links_ g !! dst_id l) as [inner|]; simpl;
    [destruct (inner !! src_id l); simpl|];
    destruct (links_between ls (dst_id l) (src_id l)) as [|j [|]]; simplify_eq; done.
Qed.

Lemma GraphStorage_inverse_spec_witness :
  match construct (GraphBuilder.mk true triangle) [] with
  | Ok g => exists link, GetLink g 3 = Ok link /\ FindUniqueInverseOrNull g link = Ok (Some 0)
  | Fail _ => False
  end.
Proof.
  destruct (construct (GraphBuilder.mk true triangle) []) as [g|] eqn:E.
  - destruct (GraphStorage_inverse_spec (GraphBuilder.mk true triangle) g 3
      (mkGraphLinkBase "B" "A" 4 4 10 5)%Z) as (link & H1 & _ & H2 & _);
      [vm_compute; reflexivity|vm_compute; reflexivity|exact E|reflexivity|].
    exists link. split; [exact H1|]. rewrite H2. vm_compute. reflexivity.
  - vm_compute in E. discriminate.
Defined.

(** ** Properties of walks *)

Lemma HasDuplicateLinks_false links : HasDuplicateLinks links = false <-> NoDup links.
Proof.
  unfold HasDuplicateLinks. rewrite <-not_true_iff_false, existsb_exists, NoDup_alt. split.
  - intros H i j x Hi Hj. destruct (decide (i = j)) as [|Hne]; [done|]. exfalso. apply H.
    apply lookup_lt_Some in Hi as Hli. apply lookup_lt_Some in Hj as Hlj.
    exists (Nat.min i j). split; [apply in_seq; lia|]. apply existsb_exists.
    exists (Nat.max i j). split; [apply in_seq; lia|].
    destruct (Nat.lt_total i j) as [|[|]]; [|done|].
    + rewrite Nat.min_l, Nat.max_r, Hi, Hj by lia. by apply Nat.eqb_eq.
    + rewrite Nat.min_r, Nat.max_l, Hi, Hj by lia. by apply Nat.eqb_eq.
  - intros H (i & Hi%in_seq & (j & Hj%in_seq & Heq)%existsb_exists).
    destruct (links !! i) as [a|] eqn:Ea; [|done]. destruct (links !! j) as [c|] eqn:Ec; [|done].
    apply Nat.eqb_eq in Heq as ->. pose proof (H i j c Ea Ec). lia.
Qed.

(** The nodes a sequence of links passes. *)
Definition path_nodes (p : list GraphLink) : list nat :=
  match p with [] => [] | l :: _ => src l :: (dst <$> p) end.

Lemma dup_nodes_loop_spec g nodes links p :
  mapM (λ i, PerfectHashStore.items_ (link_store_ g) !! i) links = Some p ->
  exists r, dup_nodes_loop g nodes links = Ok r /\
    (r = false <-> NoDup (dst <$> p) /\ Forall (λ n, PerfectHashSet.Contains nodes n = false) (dst <$> p)).
Proof.
  revert nodes p. induction links as [|i links IH]; intros nodes p Hp; simpl in *.
  { injection Hp as <-. exists false. split; [done|]. split; [|done]. split; constructor. }
  destruct (PerfectHashStore.items_ (link_store_ g) !! i) as [l|] eqn:Hl; [|done]. simpl in Hp.
  destruct (mapM _ links) as [p'|] eqn:Hp'; [|done]. injection Hp as <-. rewrite fmap_cons.
  rewrite (GetLink_items g i l Hl). simpl.
  destruct (PerfectHashSet.Contains nodes (dst l)) eqn:Hc.
  - exists true. split; [done|]. rewrite Forall_cons. split; [done|]. intros (_ & ? & _). congruence.
  - destruct (IH (PerfectHashSet.Insert nodes (dst l)) p' eq_refl) as (r & -> & Hr).
    exists r. split; [done|]. rewrite Hr, NoDup_cons, Forall_cons, !Forall_forall.
    setoid_rewrite PerfectHashSet.Contains_Insert. split.
    + intros [Hnd H]. split_and!; [|done|done|].
      * intros Hin. apply H in Hin. by rewrite decide_True in Hin.
      * intros n Hn. apply H in Hn. by case_decide.
    + intros ((Hnin & Hnd) & _ & H). split; [done|]. intros n Hn.
      rewrite decide_False by (intros <-; done). by apply H.
Qed.

(** [IsTrail] holds exactly when no link occurs twice, and for links of the
    storage [IsPath] holds exactly when no node occurs twice among the nodes the
    links pass. *)
Theorem Walk_IsTrail_IsPath_spec (w : Walk.t) g p :
  mapM (λ i, PerfectHashStore.items_ (link_store_ g) !! i) (Walk.links_ w) = Some p ->
  Walk.IsTrail w = bool_decide (NoDup (Walk.links_ w)) /\
  Walk.IsPath w g = Ok (bool_decide (NoDup (path_nodes p))).
Proof.
  intros Hp. split.
  - unfold Walk.IsTrail. apply eq_true_iff_eq.
    by rewrite negb_true_iff, HasDuplicateLinks_false, bool_decide_eq_true.
  - unfold Walk.IsPath, HasDuplicateNodes. destruct (Walk.links_ w) as [|i links].
    { injection Hp as <-. by rewrite bool_decide_true by constructor. }
    destruct (PerfectHashStore.items_ (link_store_ g) !! i) as [l|] eqn:Hl.
    2: { simpl in Hp. by rewrite Hl in Hp. }
    rewrite (GetLink_items g i l Hl). cbn [mbind outcome_bind].
    destruct (dup_nodes_loop_spec g (PerfectHashSet.Insert PerfectHashSet.empty (src l))
                (i :: links) p Hp) as (r & -> & Hr).
    assert (exists p', p = l :: p') as [p' ->].
    { simpl in Hp. rewrite Hl in Hp. simpl in Hp. destruct (mapM _ links); [|done]. injection Hp as <-. eauto. }
    cbn [fmap outcome_fmap]. f_equal. apply eq_true_iff_eq.
    rewrite negb_true_iff, Hr, bool_decide_eq_true. unfold path_nodes.
    rewrite NoDup_cons, Forall_forall. setoid_rewrite PerfectHashSet.Contains_Insert.
    split.
    + intros [Hnd H]. split; [|done]. intros Hin. apply H in Hin. by rewrite decide_True in Hin.
    + intros [Hnin Hnd]. split; [done|]. intros n Hn. by rewrite decide_False by (intros <-; done).
Qed.

Lemma Walk_IsTrail_IsPath_spec_witness :
  match construct (GraphBuilder.mk true triangle) [] with
  | Ok g => Walk.IsPath (Walk.mk [0; 1] 12%Z) g = Ok true /\ Walk.IsPath (Walk.mk [0; 3] 10%Z) g = Ok false
  | Fail _ => False
  end.
Proof.
  destruct (construct (GraphBuilder.mk true triangle) []) as [g|] eqn:E.
  - vm_compute in E. injection E as <-.
    split; match goal with |- Walk.IsPath ?w ?g = _ =>
      edestruct (Walk_IsTrail_IsPath_spec w g) as [_ H];
        [vm_compute; reflexivity|rewrite H; vm_compute; reflexivity]
    end.
  - vm_compute in E. discriminate.
Defined.

(** [BottleneckLinks] is meant to return the links with the smallest
    bandwidth of the walk.  It never updates the minimum it compares with, so
    on every walk whose links are below the largest representable bandwidth it
    returns the last link alone, and reports the bandwidth of the last link. *)
Theorem Walk_BottleneckLinks_returns_last g links i d link :
  Forall (λ j, exists l, GetLink g j = Ok l /\ (bandwidth (base l) < Bandwidth.Max)%Z) links ->
  GetLink g i = Ok link -> (bandwidth (base link) < Bandwidth.Max)%Z ->
  exists out, Walk.BottleneckLinks (Walk.mk (links ++ [i]) d) g = Ok (out, Some (bandwidth (base link))) /\
    PerfectHashSet.denote out = {[i]}.
Proof.
  intros Hall Hi Hbw. unfold Walk.BottleneckLinks. cbn [Walk.links_]. rewrite mfold_app.
  destruct (mfold_inv (λ _ _, True) (Walk.bottleneck_step g Bandwidth.Max) links
              (PerfectHashSet.empty, None)) as ([out bw] & -> & _); [done| |].
  { intros dn a [o b'] Hpre _. rewrite Forall_forall in Hall.
    destruct (Hall a) as (l & Hl & Hlt).
    { destruct Hpre as [r ->]. set_solver. }
    unfold Walk.bottleneck_step. rewrite Hl. cbn [mbind outcome_bind].
    rewrite (proj2 (Z.ltb_lt _ _) Hlt). eauto. }
  cbn [mbind outcome_bind mfold Walk.bottleneck_step]. rewrite Hi. cbn [mbind outcome_bind].
  rewrite (proj2 (Z.ltb_lt _ _) Hbw). eexists. split; [done|].
  apply set_eq. intros x. rewrite PerfectHashSet.elem_of_denote, PerfectHashSet.Contains_Insert.
  rewrite elem_of_singleton. case_decide; [naive_solver|]. split; [done|congruence].
Qed.

Lemma Walk_BottleneckLinks_returns_last_witness :
  match construct (GraphBuilder.mk true triangle) [] with
  | Ok g => exists out, Walk.BottleneckLinks (Walk.mk [0; 1] 12%Z) g = Ok (out, Some 20%Z) /\
              PerfectHashSet.denote out = {[1]}
  | Fail _ => False
  end.
Proof.
  destruct (construct (GraphBuilder.mk true triangle) []) as [g|] eqn:E.
  - vm_compute in E. injection E as <-.
    apply (Walk_BottleneckLinks_returns_last _ [0] 1 12%Z
      (mkGraphLink (mkGraphLinkBase "B" "C" 2 2 20 7)%Z 1 2 (mkGraphNode "B") (mkGraphNode "C")));
      [|vm_compute; reflexivity|vm_compute; reflexivity].
    repeat constructor. eexists. split; [vm_compute; reflexivity|vm_compute; reflexivity].
  - vm_compute in E. discriminate.
Defined.

(** Scanning two sequences that agree on [n] positions and then differ. *)
Lemma first_difference_spec pos one two n k i :
  (forall j, j < k -> exists a, one !! (pos (i + j)).1 = Some a /\ two !! (pos (i + j)).2 = Some a) ->
  (k < n -> exists a b, one !! (pos (i + k)).1 = Some a /\ two !! (pos (i + k)).2 = Some b /\ a <> b) ->
  k <= n ->
  first_difference pos one two n i = Ok (if decide (k < n) then Some (i + k) else None).
Proof.
  revert k i. induction n as [|n IH]; intros k i Hsame Hdiff Hk; cbn [first_difference].
  { by rewrite decide_False by lia. }
  destruct k as [|k].
  - destruct Hdiff as (a & b & Ha & Hb & Hab); [lia|]. rewrite Nat.add_0_r in *.
    unfold vec_at. rewrite Ha, Hb. cbn [mbind outcome_bind]. apply Nat.eqb_neq in Hab as ->.
    by rewrite decide_True by lia.
  - destruct (Hsame 0) as (a & Ha & Hb); [lia|]. rewrite Nat.add_0_r in *.
    unfold vec_at. rewrite Ha, Hb. cbn [mbind outcome_bind]. rewrite Nat.eqb_refl.
    rewrite (IH k (S i)); [| | |lia].
    + f_equal. repeat case_decide; try lia; [f_equal; lia|done].
    + intros j Hj. destruct (Hsame (S j)) as (c & Hc); [lia|]. exists c.
      by replace (S i + j) with (i + S j) by lia.
    + intros Hlt. destruct Hdiff as (c & e & Hc); [lia|]. exists c, e.
      by replace (S i + k) with (i + S k) by lia.
Qed.

(** two paths that share a prefix [pre] and a suffix [suf] and differ in
    between (the detours [m1] and [m2] start and end with different links) have
    the detour of the second reported as the positions of the first and of the
    last link of [m2], as long as the first path has a link besides the last
    one of its own detour and the suffix. *)
Theorem LinksDetour_spec pre suf m1 m2 a1 a2 b1 b2 :
  head m1 = Some a1 -> head m2 = Some a2 -> a1 <> a2 ->
  last m1 = Some b1 -> last m2 = Some b2 -> b1 <> b2 ->
  2 <= length pre + length m1 ->
  (Z.of_nat (length pre + length m2 + length suf) < 2 ^ 64)%Z ->
  LinksDetour (pre ++ m1 ++ suf) (pre ++ m2 ++ suf) =
    Ok (Z.of_nat (length pre), Z.of_nat (length pre + length m2 - 1)).
Proof.
  intros Ha1 Ha2 Ha Hb1 Hb2 Hb Hlen Hfit.
  rewrite head_lookup in Ha1, Ha2. rewrite last_lookup in Hb1, Hb2.
  pose proof (lookup_lt_Some _ _ _ Ha1) as L1. pose proof (lookup_lt_Some _ _ _ Ha2) as L2.
  unfold LinksDetour. rewrite !bool_decide_false.
  2,3: intros E%(f_equal length); rewrite !length_app in E; simpl in E; lia.
  cbn [negb check mbind outcome_bind].
  rewrite (first_difference_spec (λ i, (i, i)) _ _ _ (length pre)); cbn [fst snd Nat.add].
  2: { intros j Hj. destruct (lookup_lt_is_Some_2 _ _ Hj) as [c Hc]. exists c.
       by rewrite !lookup_app_l by lia. }
  2: { intros _. exists a1, a2. rewrite <-(Nat.add_0_r (length pre)), !lookup_app_add.
       rewrite !lookup_app_l by lia. done. }
  2: { rewrite !length_app. lia. }
  rewrite decide_True by (rewrite !length_app; lia). cbn [mbind outcome_bind].
  rewrite (first_difference_spec _ _ _ _ (length suf)); cbn [fst snd].
  2: { intros j Hj. destruct (lookup_lt_is_Some_2 suf (length suf - 1 - j)) as [c Hc]; [lia|].
       exists c. rewrite !length_app.
       replace (length pre + (length m1 + length suf) - (1 + j))
         with (length pre + (length m1 + (length suf - 1 - j))) by lia.
       replace (length pre + (length m2 + length suf) - (1 + j))
         with (length pre + (length m2 + (length suf - 1 - j))) by lia.
       by rewrite !lookup_app_add. }
  2: { intros _. exists b1, b2. rewrite !length_app.
       replace (length pre + (length m1 + length suf) - (1 + length suf))
         with (length pre + pred (length m1)) by lia.
       replace (length pre + (length m2 + length suf) - (1 + length suf))
         with (length pre + pred (length m2)) by lia.
       rewrite !lookup_app_add, !lookup_app_l by lia. done. }
  2: { rewrite !length_app. lia. }
  rewrite decide_True by (rewrite !length_app; lia). cbn [mbind outcome_bind].
  rewrite !length_app. unfold u64. rewrite wrap_id by lia. f_equal. f_equal. lia.
Qed.

Lemma LinksDetour_spec_witness :
  LinksDetour ([0] ++ [1] ++ [2; 3]) ([0] ++ [4; 5] ++ [2; 3]) = Ok (1, 2)%Z.
Proof.
  apply (LinksDetour_spec [0] [2; 3] [1] [4; 5] 1 4 1 5);
    first [reflexivity|discriminate|vm_compute; reflexivity|simpl; lia].
Defined.

(** when the first path is a single link and the second one starts with
    another link, the second loop of [LinksDetour] does not run, the end stays
    at the largest [size_t], and the reported end of the detour is one past the
    size of the second path instead of its last position. *)
Theorem LinksDetour_single_link a b two :
  a <> b -> (Z.of_nat (length two) + 2 < 2 ^ 64)%Z ->
  LinksDetour [a] (b :: two) = Ok (0%Z, Z.of_nat (length (b :: two)) + 1)%Z.
Proof.
  intros Hab Hlen. unfold LinksDetour. rewrite !bool_decide_false by done. simpl.
  apply Nat.eqb_neq in Hab as ->. simpl. f_equal. f_equal.
  unfold u64, wrap, umax.
  replace (Z.of_nat (S (length two)) - (2 ^ 64 - 1))%Z
    with (Z.of_nat (S (length two)) + 1 + -1 * 2 ^ 64)%Z by lia.
  rewrite Z.mod_add, Z.mod_small by lia. done.
Qed.

Lemma LinksDetour_single_link_witness : LinksDetour [2] [0; 1] = Ok (0, 3)%Z.
Proof. apply (LinksDetour_single_link 2 0 [1]); [discriminate|vm_compute; reflexivity]. Defined.
