(* ===== verification/ShortestPath.v ===== *)
(** Model of [ExclusionSet] and of the single-source shortest path tree
    [ShortestPath] ([src/src/net/algorithm.h], [src/src/net/algorithm.cc]):
    Dijkstra's algorithm with a priority queue from which stale entries are
    never deleted and which stops when all destinations are reached.  The
    algorithm is written against the interface of a priority queue; the
    binary heap is the instance the code uses.  It is proved to terminate, and
    to return for every destination a shortest path that respects the
    exclusions, or nothing exactly when there is none. *)

From S2P Require Import Prelude OrderedMap PerfectHash PriorityQueue Graph.

Import AdjacencyList.

(** ** ExclusionSet *)
Module ExclusionSet.
Record t := mk {
  links_to_exclude_ : PerfectHashSet.t;
  nodes_to_exclude_ : PerfectHashSet.t
}.

Definition empty : t := mk PerfectHashSet.empty PerfectHashSet.empty.

Definition Links (x : t) (set : PerfectHashSet.t) : t :=
  mk (PerfectHashSet.InsertAll (links_to_exclude_ x) set) (nodes_to_exclude_ x).
Definition Nodes (x : t) (set : PerfectHashSet.t) : t :=
  mk (links_to_exclude_ x) (PerfectHashSet.InsertAll (nodes_to_exclude_ x) set).

Definition ShouldExcludeLink (x : t) (link : nat) : bool :=
  PerfectHashSet.Contains (links_to_exclude_ x) link.
Definition ShouldExcludeNode (x : t) (node : nat) : bool :=
  PerfectHashSet.Contains (nodes_to_exclude_ x) node.

Definition AddAll (x other : t) : t :=
  mk (PerfectHashSet.InsertAll (links_to_exclude_ x) (links_to_exclude_ other))
     (PerfectHashSet.InsertAll (nodes_to_exclude_ x) (nodes_to_exclude_ other)).
End ExclusionSet.

(** The additional sets are pointers that may be null. *)
Definition CanExcludeNode (node : nat) (constraints : ExclusionSet.t)
    (additional_nodes_to_avoid : option PerfectHashSet.t) : bool :=
  if match additional_nodes_to_avoid with
     | Some s => PerfectHashSet.Contains s node | None => false end
  then true
  else ExclusionSet.ShouldExcludeNode constraints node.

Definition CanExcludeLink (link : nat) (constraints : ExclusionSet.t)
    (additional_links_to_avoid : option PerfectHashSet.t) : bool :=
  if match additional_links_to_avoid with
     | Some s => PerfectHashSet.Contains s link | None => false end
  then true
  else ExclusionSet.ShouldExcludeLink constraints link.

(** ** ShortestPath *)
Module ShortestPath.

(** [std::greater] on pairs of a delay and a node. *)
Definition DelayAndIndex : Type := Delay * nat.
Definition greater (a b : DelayAndIndex) : bool :=
  if (b.1 <? a.1)%Z then true
  else if (a.1 <? b.1)%Z then false
  else b.2 <? a.2.

#[global] Instance greater_swo : StrictWeakOrder greater.
Proof.
  split; intros *; unfold greater;
    repeat match goal with
      | |- context [Z.ltb ?x ?y] => destruct (Z.ltb_spec x y)
      | |- context [Nat.ltb ?x ?y] => destruct (Nat.ltb_spec x y)
      end; try done; lia.
Qed.

Record t := mk {
  src_ : nat;
  destinations_ : PerfectHashSet.t;
  previous_ : PerfectHashMap.t (option LinkInfo);
  min_delays_ : PerfectHashMap.t Delay
}.

(** *** ComputePaths *)
Section compute.
Context {Q : Type} `{!PriorityQueue Q DelayAndIndex}.
Context (exclusion_set : ExclusionSet.t) (adj_list : AdjacencyList.t).
Context (nodes_to_avoid links_to_avoid : option PerfectHashSet.t).

Record state := mkState {
  s_min_delays : PerfectHashMap.t Delay;
  s_previous : PerfectHashMap.t (option LinkInfo);
  vertex_queue : Q;
  destinations_remaining : Z
}.

(** One neighbour of the node that was taken off the queue at [distance]. *)
Definition relax (distance : Delay) (st : state) (out_link_info : LinkInfo) : outcome state :=
  if CanExcludeLink (link_index out_link_info) exclusion_set links_to_avoid then Ok st
  else if CanExcludeNode (dst_index out_link_info) exclusion_set nodes_to_avoid then Ok st
  else
    let neighbor_node := dst_index out_link_info in
    distance_via_neighbor ← delay_add distance (delay out_link_info);
    '(m, curr_min_distance) ← PerfectHashMap.Ref Delay_max (s_min_delays st) neighbor_node;
    if (distance_via_neighbor <? curr_min_distance)%Z then
      Ok (mkState (PerfectHashMap.RefAssign Delay_max m neighbor_node distance_via_neighbor)
            (PerfectHashMap.RefAssign None (s_previous st) neighbor_node (Some out_link_info))
            (pq_emplace (vertex_queue st) (distance_via_neighbor, neighbor_node))
            (destinations_remaining st))
    else Ok (mkState m (s_previous st) (vertex_queue st) (destinations_remaining st)).

(** The [while (!vertex_queue.empty())] loop. *)
Fixpoint search (destinations : PerfectHashSet.t) (fuel : nat) (st : state) : outcome state :=
  match fuel with
  | O => Fail OutOfFuel
  | S fuel' =>
      match pq_pop_top (vertex_queue st) with
      | None => Ok st
      | Some ((distance, current), q) =>
          '(m, min_distance) ← PerfectHashMap.Ref Delay_max (s_min_delays st) current;
          let st := mkState m (s_previous st) q (destinations_remaining st) in
          if (min_distance <? distance)%Z then search destinations fuel' st
          else
            let found := PerfectHashSet.Contains destinations current in
            let remaining := if found then u64 (destinations_remaining st - 1)
                             else destinations_remaining st in
            let st := mkState (s_min_delays st) (s_previous st) (vertex_queue st) remaining in
            if found && (remaining =? 0)%Z then Ok st
            else
              st ← mfold (relax distance) (GetNeighbors adj_list current) st;
              search destinations fuel' st
      end
  end.

(** Every link is relaxed at most once and every queue entry but the first
    comes from a link. *)
Definition search_fuel : nat := S (S (link_count adj_list)).

Definition ComputePaths (src : nat) (destinations : PerfectHashSet.t) : outcome t :=
  let count := PerfectHashSet.Count (AllNodes adj_list) in
  let min_delays := PerfectHashMap.Resize Delay_max PerfectHashMap.empty count in
  let previous := PerfectHashMap.Resize None PerfectHashMap.empty count in
  if CanExcludeNode src exclusion_set nodes_to_avoid then
    Ok (mk src destinations previous min_delays)
  else
    let st := mkState (PerfectHashMap.RefAssign Delay_max min_delays src 0%Z) previous
                (pq_emplace pq_empty (0%Z, src))
                (Z.of_nat (PerfectHashSet.Count destinations)) in
    st ← search destinations search_fuel st;
    Ok (mk src destinations (s_previous st) (s_min_delays st)).
End compute.

(** *** Reading the tree *)

Fixpoint RecoverPath (fuel : nat) (src current : nat)
    (previous : PerfectHashMap.t (option LinkInfo)) (links_reverse : Links) : outcome Links :=
  match fuel with
  | O => Fail OutOfFuel
  | S fuel' =>
      if current =? src then Ok (reverse links_reverse)
      else if negb (PerfectHashMap.HasValue previous current) then Ok []
      else
        p ← PerfectHashMap.GetValueOrDie previous current;
        match p with
        | None => Fail Undefined
        | Some link_info =>
            RecoverPath fuel' src (src_index link_info) previous
              (links_reverse ++ [link_index link_info])
        end
  end.

Definition recover_fuel (previous : PerfectHashMap.t (option LinkInfo)) : nat :=
  S (S (length (PerfectHashMap.values_ previous))).

Definition GetPath (tree : t) (dst : nat) : outcome (option Walk.t) :=
  _ ← check (PerfectHashSet.Contains (destinations_ tree) dst);
  links ← RecoverPath (recover_fuel (previous_ tree)) (src_ tree) dst (previous_ tree) [];
  match links with
  | [] => Ok None
  | _ =>
      distance ← PerfectHashMap.GetValueOrDie (min_delays_ tree) dst;
      Ok (Some (Walk.mk links distance))
  end.

Definition GetPathDistance (tree : t) (dst : nat) : outcome Delay :=
  _ ← check (PerfectHashSet.Contains (destinations_ tree) dst);
  if negb (PerfectHashMap.HasValue (min_delays_ tree) dst) then Ok Delay_max
  else PerfectHashMap.UnsafeAccess (min_delays_ tree) dst.

Definition ElementsInTree (tree : t) : outcome (PerfectHashSet.t * PerfectHashSet.t) :=
  entries ← PerfectHashMap.iterate kIndexBits (previous_ tree);
  mfold (λ acc node_and_info,
           match node_and_info.2 with
           | None => Fail Undefined
           | Some link_info =>
               let nodes := PerfectHashSet.Insert acc.1 (src_index link_info) in
               let nodes := PerfectHashSet.Insert nodes (dst_index link_info) in
               Ok (nodes, PerfectHashSet.Insert acc.2 (link_index link_info))
           end)
    entries (PerfectHashSet.empty, PerfectHashSet.empty).

(** *** Specification: walks over usable links *)

Inductive walk (adj : AdjacencyList.t) (ok : LinkInfo -> bool) : nat -> list LinkInfo -> nat -> Prop :=
| walk_nil u : walk adj ok u [] u
| walk_snoc u p v e :
    walk adj ok u p v -> e ∈ GetNeighbors adj v -> ok e = true ->
    walk adj ok u (p ++ [e]) (dst_index e).

Definition cost (p : list LinkInfo) : Z := foldr (λ e c, delay e + c)%Z 0%Z p.

Lemma cost_app p q : cost (p ++ q) = (cost p + cost q)%Z.
Proof. unfold cost. induction p as [|e p IH]; simpl; lia. Qed.

Lemma walk_nil_inv adj ok u v : walk adj ok u [] v -> v = u.
Proof.
  remember [] as l eqn:Hl. intros H. revert Hl. destruct H as [|u p w e]; [done|].
  by destruct p.
Qed.

Lemma walk_app adj ok u p v q w : walk adj ok u p v -> walk adj ok v q w -> walk adj ok u (p ++ q) w.
Proof.
  intros Hp Hq. induction Hq as [|v q x e Hq IH Hin Hok]; [by rewrite app_nil_r|].
  rewrite app_assoc. eapply walk_snoc; [by apply IH|done..].
Qed.

Lemma walk_cost_nonneg adj ok u p v :
  (forall x e, e ∈ GetNeighbors adj x -> (0 < delay e)%Z) -> walk adj ok u p v -> (0 <= cost p)%Z.
Proof.
  intros Hpos. induction 1 as [|u p v e Hp IH Hin Hok]; [done|].
  rewrite cost_app. specialize (Hpos _ _ Hin). unfold cost at 2. simpl. lia.
Qed.

(** *** The invariant of the search *)
Section correctness.
Context {Q : Type} `{!PriorityQueue Q DelayAndIndex, !PriorityQueueLaws greater Q}.
Context (excl : ExclusionSet.t) (adj : AdjacencyList.t).
Context (avoid_nodes avoid_links : option PerfectHashSet.t).
Context (src : nat) (dests : PerfectHashSet.t) (D : Z).

Definition usable (e : LinkInfo) : bool :=
  negb (CanExcludeLink (link_index e) excl avoid_links) &&
  negb (CanExcludeNode (dst_index e) excl avoid_nodes).

Hypothesis Hwf : AdjacencyList.wf adj.
Hypothesis Hpos : forall u e, e ∈ GetNeighbors adj u -> (0 < delay e <= D)%Z.
(** No sum of delays along a path overflows. *)
Hypothesis Hfit : (D * Z.of_nat (S (PerfectHashSet.Count (AllNodes adj))) < Delay_max)%Z.

#[local] Notation state := (@state Q).
#[local] Notation queue st := (@pq_elements Q DelayAndIndex _ (vertex_queue st)).

(** The tentative distance of a node. *)
Definition dist (st : state) (v : nat) : Z := PerfectHashMap.slot Delay_max (s_min_delays st) v.

(** Nodes the search can reach. *)
Definition universe : gset nat := {[src]} ∪ PerfectHashSet.denote (AllNodes adj).

(** [S] is the set of settled nodes, [c] the distance the search has advanced
    to, [C] the links of settled nodes that were relaxed. *)
Record inv (S : gset nat) (c : Z) (C : LinkInfo -> Prop) (st : state) : Prop := {
  i_queue : pq_ok (vertex_queue st);
  i_map : forall v, PerfectHashMap.lookup (s_min_delays st) v = None -> dist st v = Delay_max;
  i_le : forall v, (0 <= dist st v <= Delay_max)%Z;
  i_src : dist st src = 0%Z;
  i_prev : forall v, v <> src -> (dist st v < Delay_max)%Z ->
    exists e, PerfectHashMap.lookup (s_previous st) v = Some (Some e) /\
      e ∈ GetNeighbors adj (src_index e) /\ usable e = true /\ dst_index e = v /\
      src_index e ∈ S /\ dist st v = (dist st (src_index e) + delay e)%Z;
  i_prev_none : forall v, v = src \/ dist st v = Delay_max ->
    PerfectHashMap.lookup (s_previous st) v = None;
  i_entry : forall q v, (q, v) ∈ queue st -> (dist st v <= q < Delay_max)%Z;
  i_stale : forall q v, (q, v) ∈ queue st -> v ∈ S -> (dist st v < q)%Z;
  i_front : forall v, v ∉ S -> (dist st v < Delay_max)%Z -> (dist st v, v) ∈ queue st;
  i_nodup : NoDup (queue st);
  i_settled : forall u, u ∈ S -> (dist st u <= c)%Z;
  i_ahead : forall q v, (q, v) ∈ queue st -> (c <= q)%Z;
  i_c : (0 <= c < Delay_max)%Z;
  i_closed : forall u e, u ∈ S -> e ∈ GetNeighbors adj u -> usable e = true -> C e ->
    (dist st (dst_index e) <= dist st u + delay e)%Z;
  i_bound_settled : forall u, u ∈ S -> (dist st u <= D * (Z.of_nat (size S) - 1))%Z;
  i_bound : forall v, (dist st v < Delay_max)%Z -> (dist st v <= D * Z.of_nat (size S))%Z;
  i_universe : forall v, (dist st v < Delay_max)%Z -> v ∈ universe;
  i_remaining : destinations_remaining st = Z.of_nat (size (PerfectHashSet.denote dests ∖ S))
}.

Lemma D_nonneg u e : e ∈ GetNeighbors adj u -> (0 <= D)%Z.
Proof. intros H%Hpos. lia. Qed.

Lemma settled_in_universe S c C st : inv S c C st -> S ⊆ universe.
Proof.
  intros HI u Hu. eapply i_universe; [done|].
  pose proof (i_settled _ _ _ _ HI u Hu). pose proof (i_c _ _ _ _ HI). lia.
Qed.

Lemma universe_size : size universe <= 1 + PerfectHashSet.Count (AllNodes adj).
Proof.
  clear Hwf Hpos Hfit. unfold universe. rewrite size_union_alt, size_singleton.
  rewrite PerfectHashSet.Count_denote. apply Nat.add_le_mono_l, subseteq_size. set_solver.
Qed.

(** A distance bounded by the number of settled nodes does not overflow. *)
Lemma settled_fits S c C st : (0 <= D)%Z -> inv S c C st -> (D * Z.of_nat (size S) < Delay_max)%Z.
Proof.
  intros HD HI. pose proof (subseteq_size _ _ (settled_in_universe _ _ _ _ HI)).
  pose proof universe_size. nia.
Qed.

(** Equality of the observable parts of two maps. *)
Lemma dist_Add st u v (d : Z) m' :
  s_min_delays st = PerfectHashMap.Add Delay_max m' u d ->
  dist st v = if decide (u = v) then d else PerfectHashMap.slot Delay_max m' v.
Proof. unfold dist. intros ->. by rewrite PerfectHashMap.slot_Add. Qed.

(** Reading a distance through [operator[]] changes nothing but a flag. *)
Definition touch (st : state) (v : nat) : state :=
  mkState (PerfectHashMap.Add Delay_max (s_min_delays st) v (dist st v)) (s_previous st)
    (vertex_queue st) (destinations_remaining st).

Lemma dist_touch st u v : dist (touch st u) v = dist st v.
Proof.
  rewrite (dist_Add _ u v (dist st u) (s_min_delays st)) by done. by case_decide; subst.
Qed.

Lemma inv_touch S c C st v : inv S c C st -> inv S c C (touch st v).
Proof.
  intros []. split; intros *; rewrite ?dist_touch; eauto.
  - intros Hn. apply i_map0. simpl in Hn. rewrite PerfectHashMap.lookup_Add in Hn.
    by case_decide.
  - intros H1 H2. destruct (i_prev0 v0 H1 H2) as (e & He). exists e. by rewrite !dist_touch.
Qed.

(** Lowering the distance of a node that is not settled yet. *)
Definition lower (st : state) (e : LinkInfo) (d : Z) : state :=
  mkState (PerfectHashMap.Add Delay_max (s_min_delays (touch st (dst_index e))) (dst_index e) d)
    (PerfectHashMap.Add None (s_previous st) (dst_index e) (Some e))
    (pq_emplace (vertex_queue st) (d, dst_index e)) (destinations_remaining st).

Lemma dist_lower st e d v :
  dist (lower st e d) v = if decide (dst_index e = v) then d else dist st v.
Proof.
  rewrite (dist_Add _ (dst_index e) v d (s_min_delays (touch st (dst_index e)))) by done.
  case_decide; [done|]. apply dist_touch.
Qed.

Lemma queue_lower st e d q v :
  pq_ok (vertex_queue st) ->
  (q, v) ∈ queue (lower st e d) <-> (q, v) = (d, dst_index e) \/ (q, v) ∈ queue st.
Proof. intros Hq. simpl. by rewrite pq_emplace_elements, elem_of_cons. Qed.

Lemma inv_lower S c (C : LinkInfo -> Prop) st u e :
  inv S c C st -> u ∈ S -> dist st u = c -> e ∈ GetNeighbors adj u -> usable e = true ->
  (c + delay e < dist st (dst_index e))%Z ->
  inv S c (λ x, C x \/ x = e) (lower st e (c + delay e)).
Proof.
  intros HI Hu Hc He Hok Hlt. pose proof (Hpos u e He) as Hd.
  pose proof (proj2 Hwf u e He) as (Hsrc & Hnu & Hnw).
  set (w := dst_index e) in *. set (d := (c + delay e)%Z) in *.
  pose proof (i_c _ _ _ _ HI) as Hc0.
  assert (Hw : w ∉ S). { intros Hw. pose proof (i_settled _ _ _ _ HI w Hw). lia. }
  assert (Hws : w <> src). { intros E. rewrite E, (i_src _ _ _ _ HI) in Hlt. lia. }
  assert (HdS : forall v, v ∈ S -> dist (lower st e d) v = dist st v).
  { intros v Hv. rewrite dist_lower, decide_False; [done|]. fold w. by intros <-. }
  assert (Hle : forall v, (dist (lower st e d) v <= dist st v)%Z).
  { intros v. rewrite dist_lower. case_decide as E; [|done]. rewrite <-E. fold w. lia. }
  assert (Hdb : (d <= D * Z.of_nat (size S))%Z).
  { pose proof (i_bound_settled _ _ _ _ HI u Hu). unfold d. lia. }
  pose proof (settled_fits _ _ _ _ (D_nonneg _ _ He) HI) as Hfits.
  assert (Hent := i_entry _ _ _ _ HI).
  assert (Hq := λ q v, queue_lower st e d q v (i_queue _ _ _ _ HI)).
  split.
  - apply pq_emplace_ok, HI.
  - intros v. simpl. rewrite PerfectHashMap.lookup_Add, dist_lower. case_decide; [done|].
    rewrite PerfectHashMap.lookup_Add, decide_False by done. apply (i_map _ _ _ _ HI).
  - intros v. rewrite dist_lower. case_decide; [lia|apply HI].
  - rewrite dist_lower, decide_False by done. apply HI.
  - intros v Hv. rewrite dist_lower. simpl. rewrite PerfectHashMap.lookup_Add. fold w.
    destruct (decide (w = v)) as [<-|Hwv].
    + intros _. exists e. rewrite Hsrc, HdS, Hc by done. done.
    + intros Hf. destruct (i_prev _ _ _ _ HI v Hv Hf) as (e' & ? & ? & ? & ? & Hs & ?).
      exists e'. rewrite HdS by done. done.
  - intros v. rewrite dist_lower. simpl. rewrite PerfectHashMap.lookup_Add. fold w.
    destruct (decide (w = v)) as [<-|Hwv]; [naive_solver lia|]. apply HI.
  - intros q v [[= -> ->]|Hin]%Hq.
    + rewrite dist_lower, decide_True by done. lia.
    + specialize (Hle v). specialize (Hent q v Hin). lia.
  - intros q v [[= -> ->]|Hin]%Hq Hv; [done|]. rewrite HdS by done. by apply (i_stale _ _ _ _ HI).
  - intros v Hv. rewrite dist_lower, Hq. fold w. destruct (decide (w = v)) as [<-|Hwv]; [by left|].
    intros Hf. right. by apply (i_front _ _ _ _ HI).
  - simpl. rewrite pq_emplace_elements by apply HI. apply NoDup_cons. split; [|apply HI].
    intros Hin%Hent. fold w in Hin. lia.
  - intros v Hv. rewrite HdS by done. by apply (i_settled _ _ _ _ HI).
  - intros q v [[= -> ->]|Hin]%Hq; [lia|]. by apply (i_ahead _ _ _ _ HI q v).
  - done.
  - intros u' e' Hu' He' Hok' [HC| ->].
    + rewrite (HdS u' Hu'). etrans; [apply Hle|]. by apply (i_closed _ _ _ _ HI u' e').
    + pose proof (proj1 (proj2 Hwf u' e He')) as Hsrc'. rewrite dist_lower, decide_True by done.
      rewrite <-Hsrc', Hsrc, HdS by done. lia.
  - intros v Hv. rewrite HdS by done. by apply (i_bound_settled _ _ _ _ HI).
  - intros v. rewrite dist_lower. case_decide; [done|]. apply (i_bound _ _ _ _ HI).
  - intros v. rewrite dist_lower. fold w. destruct (decide (w = v)) as [<-|Hwv]; [|apply (i_universe _ _ _ _ HI)].
    intros _. unfold universe. apply elem_of_union_r, PerfectHashSet.elem_of_denote, Hnw.
  - apply HI.
Qed.

(** Adding to the relaxed links one that does not give a shorter way. *)
Lemma inv_closed_more S c (C C' : LinkInfo -> Prop) st :
  inv S c C st ->
  (forall u e, u ∈ S -> e ∈ GetNeighbors adj u -> usable e = true -> C' e -> ~ C e ->
     (dist st (dst_index e) <= dist st u + delay e)%Z) ->
  (forall e, C e \/ ~ C e) -> inv S c C' st.
Proof.
  intros [] Hmore Hdec. split; eauto. intros u e Hu He Hok HC'.
  destruct (Hdec e); [by apply i_closed0|by apply Hmore].
Qed.

(** What one iteration over the neighbours of [u] establishes. *)
Lemma relax_spec S c u st done_ e :
  let C l x := src_index x <> u \/ x ∈ l in
  inv S c (C done_) st -> u ∈ S -> dist st u = c -> e ∈ GetNeighbors adj u ->
  exists st', relax excl avoid_nodes avoid_links c st e = Ok st' /\
    inv S c (C (done_ ++ [e])) st' /\ dist st' u = c /\
    length (queue st') <= 1 + length (queue st).
Proof.
  intros C HI Hu Hc He. unfold relax.
  pose proof (proj2 Hwf u e He) as (Hsrc & _ & _). pose proof (Hpos u e He) as Hd.
  assert (Hskip : forall st', inv S c (C done_) st' -> (usable e = false \/
     dist st' (dst_index e) <= dist st' u + delay e)%Z -> inv S c (C (done_ ++ [e])) st').
  { intros st' HI' Hor. eapply inv_closed_more; [done| |].
    - intros u' e' Hu' He' Hok HC' HnC. assert (e' = e) as ->.
      { unfold C in *. rewrite elem_of_app, list_elem_of_singleton in HC'. tauto. }
      assert (u' = u) as -> by (rewrite <-Hsrc; symmetry; apply (proj2 Hwf u' e He')).
      destruct Hor; [congruence|lia].
    - intros x. unfold C. destruct (decide (src_index x = u)), (decide (x ∈ done_)); tauto. }
  destruct (CanExcludeLink _ _ _) eqn:E1.
  { exists st. split_and!; [done| |done|lia]. apply Hskip; [done|]. left.
    unfold usable. by rewrite E1. }
  destruct (CanExcludeNode _ _ _) eqn:E2.
  { exists st. split_and!; [done| |done|lia]. apply Hskip; [done|]. left.
    unfold usable. by rewrite E2, andb_false_r. }
  assert (Hok : usable e = true) by (unfold usable; by rewrite E1, E2).
  pose proof (i_c _ _ _ _ HI) as Hc0.
  pose proof (settled_fits _ _ _ _ (D_nonneg _ _ He) HI) as Hfits.
  pose proof (i_bound_settled _ _ _ _ HI u Hu) as Hb.
  assert (Hadd : delay_add c (delay e) = Ok (c + delay e)%Z).
  { apply delay_add_Ok. lia. }
  rewrite Hadd. cbn [mbind outcome_bind]. rewrite PerfectHashMap.Ref_Ok.
  cbn [mbind outcome_bind]. fold (dist st (dst_index e)).
  destruct (Z.ltb_spec (c + delay e) (dist st (dst_index e))) as [Hlt|Hge].
  - exists (lower st e (c + delay e)). split_and!; [done| | |].
    + eapply inv_closed_more; [by apply (inv_lower S c (C done_) st u e)| |].
      * intros u' e' _ _ _ HC' HnC. unfold C in *.
        rewrite elem_of_app, list_elem_of_singleton in HC'. tauto.
      * intros x. unfold C. destruct (decide (src_index x = u)), (decide (x ∈ done_)),
          (decide (x = e)); tauto.
    + rewrite dist_lower, decide_False; [done|]. intros <-. lia.
    + simpl. rewrite (Permutation_length (pq_emplace_elements _ _ (i_queue _ _ _ _ HI))). done.
  - exists (touch st (dst_index e)). split_and!; [done| |by rewrite dist_touch|simpl; lia].
    apply Hskip; [by apply inv_touch|]. right. rewrite !dist_touch. lia.
Qed.

(** *** Termination: links that are still to be relaxed *)

Definition out_degree (u : nat) : nat := length (GetNeighbors adj u).
Definition slots : list nat := seq 0 (length (PerfectHashMap.values_ (adj_ adj))).
Definition pending (S : gset nat) : nat :=
  sum_list_with (λ u, if decide (u ∈ S) then 0 else out_degree u) slots.

Lemma sum_list_with_mono (f g : nat -> nat) l :
  (forall x, g x <= f x) -> sum_list_with g l <= sum_list_with f l.
Proof.
  intros Hle. induction l as [|x l IH]; simpl; [done|]. specialize (Hle x). lia.
Qed.

Lemma sum_list_with_fmap (f : nat -> nat) (h : nat -> nat) l :
  sum_list_with f (h <$> l) = sum_list_with (f ∘ h) l.
Proof. induction l as [|x l IH]; [done|]. rewrite fmap_cons. simpl. by f_equal. Qed.

Lemma sum_list_with_drop (f g : nat -> nat) u w l :
  NoDup l -> u ∈ l -> (forall x, g x <= f x) -> g u + w <= f u ->
  sum_list_with g l + w <= sum_list_with f l.
Proof.
  intros Hnd Hu Hle Huw. induction Hnd as [|x l Hx Hnd IH]; [by apply not_elem_of_nil in Hu|].
  simpl. destruct (decide (u = x)) as [->|Hne].
  - pose proof (sum_list_with_mono f g l Hle). lia.
  - specialize (Hle x). specialize (IH ltac:(set_solver)). lia.
Qed.

Lemma out_degree_outside u : u ∉ slots -> out_degree u = 0.
Proof.
  intros Hu. unfold out_degree. rewrite GetNeighbors_lookup. unfold PerfectHashMap.lookup.
  rewrite lookup_ge_None_2; [done|]. unfold slots in Hu. rewrite elem_of_seq in Hu. lia.
Qed.

Lemma pending_settle S u : u ∉ S -> pending ({[u]} ∪ S) + out_degree u <= pending S.
Proof.
  intros Hu. unfold pending.
  assert (Hle : forall x, (if decide (x ∈ {[u]} ∪ S) then 0 else out_degree x) <=
                          (if decide (x ∈ S) then 0 else out_degree x)).
  { intros x. destruct (decide (x ∈ S)), (decide (x ∈ {[u]} ∪ S)); try lia. set_solver. }
  destruct (decide (u ∈ slots)) as [Hin|Hout].
  - apply (sum_list_with_drop _ _ u); [apply NoDup_seq|done..|].
    rewrite decide_True, decide_False by set_solver. lia.
  - rewrite (out_degree_outside u Hout), Nat.add_0_r. by apply sum_list_with_mono.
Qed.

Lemma sum_degrees_le (vals : list (bool * list LinkInfo)) f :
  (forall u, f u <= default 0 (length ∘ snd <$> vals !! u)) ->
  sum_list_with f (seq 0 (length vals)) <= length (vals ≫= snd).
Proof.
  revert f. induction vals as [|v vals IH]; intros f Hf; [done|]. simpl. rewrite length_app.
  apply Nat.add_le_mono; [by apply (Hf 0)|]. rewrite <-fmap_S_seq, sum_list_with_fmap.
  apply IH. intros u. apply (Hf (S u)).
Qed.

Lemma pending_link_count : pending ∅ <= link_count adj.
Proof.
  apply sum_degrees_le. intros u. rewrite decide_False by set_solver.
  unfold out_degree. rewrite GetNeighbors_lookup.
  unfold PerfectHashMap.lookup. destruct (_ !! u) as [[[] v]|]; simpl; lia.
Qed.

(** *** The search *)

(** Taking a node off the queue. *)
Definition popped (st : state) (q : Q) (r : Z) : state :=
  mkState (s_min_delays st) (s_previous st) q r.

Lemma inv_stale S c C st d u q :
  inv S c C st -> pq_pop_top (vertex_queue st) = Some ((d, u), q) -> (dist st u < d)%Z ->
  inv S c C (popped st q (destinations_remaining st)).
Proof.
  intros HI Hpop Hlt. destruct (pq_pop_top_Some _ _ _ (i_queue _ _ _ _ HI) Hpop) as (Hq & Hperm & _).
  assert (Hsub : forall x, x ∈ pq_elements q -> x ∈ queue st).
  { intros x Hx. rewrite Hperm. set_solver. }
  pose proof (i_nodup _ _ _ _ HI) as Hnd. rewrite Hperm in Hnd. apply NoDup_cons in Hnd as [_ Hnd].
  destruct HI. split; eauto. intros v Hv Hf. specialize (i_front0 v Hv Hf).
  rewrite Hperm in i_front0. apply elem_of_cons in i_front0 as [[= E ->]|Hin]; [|done].
  change (dist (popped st q (destinations_remaining st)) u) with (dist st u) in *. lia.
Qed.

Lemma inv_settle S c st d u q r :
  inv S c (λ _, True) st -> pq_pop_top (vertex_queue st) = Some ((d, u), q) ->
  ~ (dist st u < d)%Z ->
  r = Z.of_nat (size (PerfectHashSet.denote dests ∖ ({[u]} ∪ S))) ->
  (0 <= D)%Z ->
  inv ({[u]} ∪ S) d (λ x, src_index x <> u) (popped st q r) /\ (u ∉ S) /\ dist st u = d /\
  (forall v, v ∉ S -> (d <= dist st v)%Z).
Proof.
  intros HI Hpop Hge Hr HD.
  destruct (pq_pop_top_Some _ _ _ (i_queue _ _ _ _ HI) Hpop) as (Hq & Hperm & Hmin).
  assert (Htop : (d, u) ∈ queue st) by (rewrite Hperm; set_solver).
  pose proof (i_entry _ _ _ _ HI d u Htop) as Hent.
  assert (Hdu : dist st u = d) by lia.
  assert (HuS : u ∉ S).
  { intros Hu. pose proof (i_stale _ _ _ _ HI d u Htop Hu). lia. }
  assert (Hsub : forall x, x ∈ pq_elements q -> x ∈ queue st).
  { intros x Hx. rewrite Hperm. set_solver. }
  pose proof (i_nodup _ _ _ _ HI) as Hnd. rewrite Hperm in Hnd. apply NoDup_cons in Hnd as [Hnin Hnd].
  assert (Hle : forall q' v, (q', v) ∈ queue st -> (d <= q')%Z).
  { intros q' v Hin. rewrite Forall_forall in Hmin. specialize (Hmin _ Hin).
    unfold greater in Hmin. simpl in Hmin. destruct (Z.ltb_spec q' d); [done|lia]. }
  pose proof (i_ahead _ _ _ _ HI d u Htop) as Hcd.
  assert (Hsize : size ({[u]} ∪ S) = 1 + size S).
  { rewrite size_union, size_singleton by set_solver. done. }
  pose proof (i_bound _ _ _ _ HI) as Hbnd. pose proof (i_bound_settled _ _ _ _ HI) as Hbs.
  pose proof (i_settled _ _ _ _ HI) as Hset. pose proof (i_c _ _ _ _ HI) as Hc.
  assert (Hfar : forall v, v ∉ S -> (d <= dist st v)%Z).
  { intros v Hv. destruct (decide (dist st v < Delay_max)%Z) as [Hf|Hf]; [|lia].
    by apply (Hle _ v), (i_front _ _ _ _ HI). }
  split_and!; [|done..].
  destruct HI. split; try done; try eauto;
    change (dist (popped st q r)) with (dist st); cbn [popped vertex_queue s_previous destinations_remaining].
  - intros v Hv Hf. destruct (i_prev0 v Hv Hf) as (e & ? & ? & ? & ? & ? & ?). exists e.
    split_and!; [done..| |done]. set_solver.
  - intros q' v Hin [->%elem_of_singleton|Hv]%elem_of_union; [|by eauto].
    pose proof (i_entry0 _ _ (Hsub _ Hin)) as He.
    assert (q' <> d) by (intros ->; done). lia.
  - intros v Hv Hf. assert (v <> u /\ v ∉ S) as [Hvu Hv'] by set_solver.
    specialize (i_front0 v Hv' Hf). rewrite Hperm in i_front0.
    apply elem_of_cons in i_front0 as [[= E ->]|]; done.
  - intros v [->%elem_of_singleton|Hv]%elem_of_union; [lia|]. specialize (Hset v Hv). lia.
  - lia.
  - intros u' e [->%elem_of_singleton|Hv]%elem_of_union He Hok HC; [|by apply i_closed0].
    exfalso. apply HC, (proj2 Hwf u e He).
  - intros v [->%elem_of_singleton|Hv]%elem_of_union; rewrite Hsize.
    + specialize (Hbnd u ltac:(lia)). lia.
    + specialize (Hbs v Hv). nia.
  - intros v Hf. rewrite Hsize. specialize (Hbnd v Hf). nia.
Qed.

(** Every walk either has been found or leaves the closed set [S], beyond
    which every distance is at least [b]. *)
Lemma frontier (S : gset nat) b (d : nat -> Z) p v :
  d src = 0%Z ->
  (forall u e, u ∈ S -> e ∈ GetNeighbors adj u -> usable e = true ->
     (d (dst_index e) <= d u + delay e)%Z) ->
  (forall x, x ∉ S -> (b <= d x)%Z) ->
  walk adj usable src p v -> (d v <= cost p)%Z \/ (b <= cost p)%Z.
Proof.
  intros Hsrc Hclosed Hb Hw. remember src as s eqn:Hs. revert Hs Hsrc.
  induction Hw as [u|u p w e Hw IH He Hok]; intros -> Hsrc; [left; by rewrite Hsrc|].
  specialize (IH eq_refl Hsrc). pose proof (Hpos w e He) as Hd.
  rewrite cost_app. change (cost [e]) with (delay e + 0)%Z. destruct IH as [IH|IH]; [|right; lia].
  destruct (decide (w ∈ S)) as [Hin|Hout].
  - left. specialize (Hclosed w e Hin He Hok). lia.
  - right. specialize (Hb w Hout). lia.
Qed.

(** The distances of the destinations are those of shortest walks. *)
Definition final (st : state) : Prop :=
  (exists S c C, inv S c C st) /\
  forall v, PerfectHashSet.Contains dests v = true ->
    (forall p, walk adj usable src p v -> (dist st v <= cost p)%Z) /\
    ((exists p, walk adj usable src p v) -> (dist st v < Delay_max)%Z).

Hypothesis HD : (0 <= D)%Z.
Hypothesis Hdests : fits 64 (PerfectHashSet.Count dests).

(** The queue ran empty: everything reachable is settled. *)
Lemma final_empty S c st : inv S c (λ _, True) st -> queue st = [] -> final st.
Proof.
  intros HI Hq. split; [by eauto|].
  assert (Hfin : forall v, (dist st v < Delay_max)%Z -> v ∈ S).
  { intros v Hv. destruct (decide (v ∈ S)) as [|Hn]; [done|].
    pose proof (i_front _ _ _ _ HI v Hn Hv) as Hin. rewrite Hq in Hin. by apply not_elem_of_nil in Hin. }
  assert (Hcl : forall u e, u ∈ S -> e ∈ GetNeighbors adj u -> usable e = true ->
     (dist st (dst_index e) <= dist st u + delay e)%Z).
  { intros u e Hu He Hok. by apply (i_closed _ _ _ _ HI). }
  intros v _. split.
  - intros p Hp. destruct (frontier S Delay_max (dist st) p v) as [|Hmax]; try done.
    + apply HI.
    + intros x Hx. destruct (decide (dist st x < Delay_max)%Z) as [Hf%Hfin|]; [done|lia].
    + pose proof (i_le _ _ _ _ HI v). lia.
  - intros [p Hp]. remember src as s eqn:Hs. revert Hs.
    induction Hp as [u|u p w e Hp IH He Hok]; intros ->.
    + rewrite (i_src _ _ _ _ HI). done.
    + specialize (Hfin w (IH eq_refl)). pose proof (Hcl w e Hfin He Hok).
      pose proof (i_bound_settled _ _ _ _ HI w Hfin). pose proof (Hpos w e He).
      pose proof (settled_fits _ _ _ _ HD HI). nia.
Qed.

(** The search stopped at the last destination. *)
Lemma final_found S c d u st st' :
  inv S c (λ _, True) st -> u ∉ S -> dist st u = d -> (forall v, v ∉ S -> (d <= dist st v)%Z) ->
  inv ({[u]} ∪ S) d (λ x, src_index x <> u) st' ->
  (forall v, dist st' v = dist st v) -> destinations_remaining st' = 0%Z -> final st'.
Proof.
  intros HI Hu Hd Hfar HI' Hsame Hrem. split; [by eauto|].
  assert (Hin : forall v, PerfectHashSet.Contains dests v = true -> v ∈ {[u]} ∪ S).
  { intros v Hv%PerfectHashSet.elem_of_denote. rewrite (i_remaining _ _ _ _ HI') in Hrem.
    assert (Hsz : size (PerfectHashSet.denote dests ∖ ({[u]} ∪ S)) = 0) by lia.
    apply size_empty_inv in Hsz. destruct (decide (v ∈ {[u]} ∪ S)); [done|]. set_solver. }
  intros v Hv%Hin. pose proof (i_settled _ _ _ _ HI' v Hv) as Hle. split.
  - intros p Hp. destruct (frontier S d (dist st) p v) as [H|H]; try done.
    + apply HI.
    + intros u' e Hu' He Hok. by apply (i_closed _ _ _ _ HI).
    + rewrite Hsame. done.
    + lia.
  - intros _. pose proof (i_c _ _ _ _ HI'). lia.
Qed.

Lemma remaining_step (S : gset nat) u :
  u ∉ S ->
  Z.of_nat (size (PerfectHashSet.denote dests ∖ ({[u]} ∪ S))) =
    if PerfectHashSet.Contains dests u
    then u64 (Z.of_nat (size (PerfectHashSet.denote dests ∖ S)) - 1)
    else Z.of_nat (size (PerfectHashSet.denote dests ∖ S)).
Proof.
  intros Hu. destruct (PerfectHashSet.Contains dests u) eqn:Hc.
  - apply PerfectHashSet.elem_of_denote in Hc.
    assert (Hs : size (PerfectHashSet.denote dests ∖ S) =
                 1 + size (PerfectHashSet.denote dests ∖ ({[u]} ∪ S))).
    { rewrite <-(size_singleton (C := gset nat) u), <-size_union by set_solver. f_equal.
      apply set_eq. intros x. destruct (decide (x = u)); set_solver. }
    assert (Hle : size (PerfectHashSet.denote dests ∖ S) <= PerfectHashSet.Count dests).
    { rewrite PerfectHashSet.Count_length_elems. unfold PerfectHashSet.denote at 1.
      etrans; [apply subseteq_size, (subseteq_difference_l _ _ _ (reflexivity _))|].
      by rewrite size_list_to_set by apply PerfectHashSet.NoDup_elems. }
    unfold u64. rewrite wrap_id; [lia|]. unfold fits in Hdests. lia.
  - do 2 f_equal. assert (u ∉ PerfectHashSet.denote dests).
    { rewrite PerfectHashSet.elem_of_denote. congruence. }
    set_solver.
Qed.

Lemma search_spec fuel S c st :
  inv S c (λ _, True) st -> length (queue st) + pending S < fuel ->
  exists st', search excl adj avoid_nodes avoid_links dests fuel st = Ok st' /\ final st'.
Proof.
  revert S c st. induction fuel as [|fuel IH]; intros S c st HI Hfuel; [lia|]. simpl.
  pose proof (i_queue _ _ _ _ HI) as Hok.
  destruct (pq_pop_top (vertex_queue st)) as [[[d u] q]|] eqn:Hpop.
  2: { exists st. split; [done|]. eapply final_empty; [done|]. by apply pq_pop_top_None. }
  rewrite PerfectHashMap.Ref_Ok. cbn [mbind outcome_bind].
  fold (dist st u). pose proof (inv_touch _ _ _ _ u HI) as HIt.
  destruct (pq_pop_top_Some _ _ _ Hok Hpop) as (_ & Hperm & _).
  rewrite (Permutation_length Hperm) in Hfuel. simpl in Hfuel.
  destruct (Z.ltb_spec (dist st u) d) as [Hlt|Hge].
  - apply (IH S c (popped (touch st u) q (destinations_remaining st))).
    + apply (inv_stale _ _ _ (touch st u) d u q HIt Hpop). by rewrite dist_touch.
    + simpl. lia.
  - destruct (inv_settle S c (touch st u) d u q
      (if PerfectHashSet.Contains dests u then u64 (destinations_remaining st - 1)
       else destinations_remaining st)) as (HI' & Hu & Hd & Hfar); [done|done| | |done|].
    { rewrite dist_touch. lia. }
    { rewrite (i_remaining _ _ _ _ HI). symmetry. apply remaining_step.
      intros Hu. assert (Hin : (d, u) ∈ queue st) by (rewrite Hperm; set_solver).
      pose proof (i_stale _ _ _ _ HI d u Hin Hu). lia. }
    set (r := if PerfectHashSet.Contains dests u then _ else _) in *.
    cbn [destinations_remaining s_min_delays s_previous vertex_queue].
    change (mkState _ _ _ _) with (popped (touch st u) q r).
    destruct (PerfectHashSet.Contains dests u && (r =? 0)%Z) eqn:Hstop.
    + eexists. split; [done|]. apply andb_true_iff in Hstop as [_ Hr%Z.eqb_eq].
      eapply (final_found S c d u (touch st u)); try done.
    + destruct (mfold_inv (λ l s', inv ({[u]} ∪ S) d (λ x, src_index x <> u \/ x ∈ l) s' /\
          dist s' u = d /\ length (queue s') <= length l + length (pq_elements q))
        (relax excl avoid_nodes avoid_links d) (GetNeighbors adj u)
        (popped (touch st u) q r)) as (st2 & Hst2 & HI2 & Hd2 & Hl2).
      * split_and!; [|done|simpl; lia]. eapply inv_closed_more; [done| |].
        { intros ???? ? [?|[]%not_elem_of_nil]; tauto. }
        { intros x. destruct (decide (src_index x = u)); tauto. }
      * intros l e s' Hpre (Hs' & Hds' & Hl').
        destruct (relax_spec ({[u]} ∪ S) d u s' l e) as (s2 & ? & ? & ? & ?); [done|set_solver|done| |].
        { destruct Hpre as [k ->]. set_solver. }
        exists s2. rewrite length_app. simpl. split_and!; [done..|lia].
      * rewrite Hst2. cbn [mbind outcome_bind]. apply (IH ({[u]} ∪ S) d).
        { eapply inv_closed_more; [done| |].
          - intros u' e Hu' He _ _ HC. exfalso. apply HC.
            destruct (decide (src_index e = u)) as [Heq|]; [|by left]. right.
            by rewrite <-Heq, (proj1 (proj2 Hwf u' e He)).
          - intros x. destruct (decide (src_index x = u)), (decide (x ∈ GetNeighbors adj u)); tauto. }
        { pose proof (pending_settle S u Hu). unfold out_degree in *. lia. }
Qed.

(** *** The whole computation *)

Definition start : state :=
  let count := PerfectHashSet.Count (AllNodes adj) in
  mkState (PerfectHashMap.RefAssign Delay_max (PerfectHashMap.Resize Delay_max PerfectHashMap.empty count)
             src 0%Z)
    (PerfectHashMap.Resize None PerfectHashMap.empty count)
    (pq_emplace pq_empty (0%Z, src)) (Z.of_nat (PerfectHashSet.Count dests)).

Lemma dist_start v : dist start v = if decide (src = v) then 0%Z else Delay_max.
Proof.
  unfold dist, start. simpl. rewrite PerfectHashMap.RefAssign_Add, PerfectHashMap.slot_Add.
  case_decide; [done|]. by rewrite PerfectHashMap.slot_Resize by (simpl; lia).
Qed.

Lemma queue_start x : x ∈ queue start <-> x = (0%Z, src).
Proof.
  unfold start. simpl. rewrite pq_emplace_elements by apply pq_empty_ok.
  rewrite pq_empty_elements. apply list_elem_of_singleton.
Qed.

Lemma inv_start : inv ∅ 0 (λ _, True) start.
Proof.
  assert (Hmax : (0 < Delay_max)%Z) by done.
  assert (Hfin : forall v, (dist start v < Delay_max)%Z -> v = src).
  { intros v. rewrite dist_start. case_decide; [done|lia]. }
  split; try (intros *; set_solver); try done.
  - apply pq_emplace_ok, pq_empty_ok.
  - intros v. rewrite dist_start. unfold start. simpl.
    rewrite PerfectHashMap.RefAssign_Add, PerfectHashMap.lookup_Add. by case_decide.
  - intros v. rewrite dist_start. case_decide; lia.
  - by rewrite dist_start, decide_True.
  - intros v _. unfold start. simpl. by rewrite PerfectHashMap.lookup_Resize by (simpl; lia).
  - intros q v [= -> ->]%queue_start. rewrite dist_start, decide_True by done. lia.
  - intros v _ Hf. rewrite (Hfin v Hf). rewrite queue_start, dist_start, decide_True by done. done.
  - unfold start. simpl. rewrite pq_emplace_elements by apply pq_empty_ok.
    rewrite pq_empty_elements. apply NoDup_singleton.
  - intros q v [= -> ->]%queue_start. lia.
  - intros v Hf. rewrite (Hfin v Hf), dist_start, decide_True by done. lia.
  - unfold start. simpl. rewrite difference_empty_L.
    rewrite PerfectHashSet.Count_length_elems. unfold PerfectHashSet.denote.
    by rewrite size_list_to_set by apply PerfectHashSet.NoDup_elems.
Qed.

Lemma ComputePaths_spec :
  CanExcludeNode src excl avoid_nodes = false ->
  exists st, final st /\
    ComputePaths (Q := Q) excl adj avoid_nodes avoid_links src dests =
      Ok (mk src dests (s_previous st) (s_min_delays st)).
Proof.
  intros Hsrc. destruct (search_spec (search_fuel adj) ∅ 0 start inv_start) as (st & Hst & Hf).
  { unfold start. simpl. rewrite (Permutation_length (pq_emplace_elements _ _ pq_empty_ok)).
    rewrite pq_empty_elements. pose proof pending_link_count. unfold search_fuel. simpl. lia. }
  exists st. split; [done|]. unfold ComputePaths. rewrite Hsrc. fold start. by rewrite Hst.
Qed.

(** *** Following the links back to the source *)

Lemma recover_chain prev p v fuel acc :
  walk adj usable src p v ->
  Forall (λ e, PerfectHashMap.lookup prev (dst_index e) = Some (Some e) /\ dst_index e <> src) p ->
  length p < fuel ->
  RecoverPath fuel src v prev acc = Ok ((link_index <$> p) ++ reverse acc).
Proof.
  intros Hw. revert fuel acc. remember src as s eqn:Hs. revert Hs.
  induction Hw as [u|u p w e Hw IH He Hok]; intros -> fuel acc Hall Hf;
    (destruct fuel as [|fuel]; [simpl in Hf; lia|]); cbn [RecoverPath].
  { by rewrite Nat.eqb_refl. }
  apply Forall_app in Hall as [Hall [[Hl Hne] _]%Forall_cons].
  rewrite (proj2 (Nat.eqb_neq _ _) Hne).
  rewrite (proj2 (PerfectHashMap.HasValue_lookup _ _)) by eauto.
  rewrite (proj2 (PerfectHashMap.GetValueOrDie_Ok _ _ _) Hl). cbn [negb mbind outcome_bind].
  rewrite (proj1 (proj2 Hwf w e He)), IH; [|done|done|rewrite length_app in Hf; simpl in Hf; lia].
  by rewrite reverse_snoc, fmap_app, <-app_assoc.
Qed.

(** The tree holds a path of the tentative length to every reached node. *)
Lemma tree_path S c C st v :
  inv S c C st -> (dist st v < Delay_max)%Z ->
  exists p, walk adj usable src p v /\ cost p = dist st v /\ NoDup (src :: (dst_index <$> p)) /\
    Forall (λ e, PerfectHashMap.lookup (s_previous st) (dst_index e) = Some (Some e) /\
                 dst_index e <> src /\ (dist st (dst_index e) <= dist st v)%Z) p.
Proof.
  intros HI. pose proof (i_le _ _ _ _ HI) as Hle.
  remember (Z.to_nat (dist st v)) as n eqn:Hn. revert v Hn.
  induction (lt_wf n) as [n _ IH]. intros v -> Hf.
  destruct (decide (v = src)) as [->|Hv].
  { exists []. rewrite (i_src _ _ _ _ HI). split_and!; [constructor|done| |done].
    apply NoDup_singleton. }
  destruct (i_prev _ _ _ _ HI v Hv Hf) as (e & Hl & He & Hok & Hd & _ & Hdist).
  pose proof (Hpos _ _ He) as Hde. pose proof (Hle (src_index e)) as Hle'. pose proof (Hle v) as Hlev.
  destruct (IH (Z.to_nat (dist st (src_index e)))) with (v := src_index e)
    as (p & Hw & Hc & Hnd & Hall); [lia|done|lia|].
  exists (p ++ [e]). rewrite <-Hd at 1. split_and!.
  - by eapply walk_snoc.
  - rewrite cost_app. change (cost [e]) with (delay e + 0)%Z. lia.
  - rewrite fmap_app, app_comm_cons. apply NoDup_app. split_and!; [done| |apply NoDup_singleton].
    intros x Hx Hx'. apply list_elem_of_singleton in Hx'. rewrite Hx', Hd in Hx.
    apply elem_of_cons in Hx as [?|(e' & -> & Hin)%list_elem_of_fmap]; [done|].
    rewrite Forall_forall in Hall. destruct (Hall _ Hin) as (_ & _ & ?). lia.
  - apply Forall_app. split.
    + eapply Forall_impl; [done|]. intros e' (? & ? & ?). split_and!; [done..|lia].
    + repeat constructor; rewrite Hd; done.
Qed.

Lemma recover_length prev (p : list LinkInfo) :
  NoDup (dst_index <$> p) ->
  Forall (λ e, PerfectHashMap.lookup prev (dst_index e) = Some (Some e)) p ->
  length p < recover_fuel prev.
Proof.
  intros Hnd Hall. unfold recover_fuel. rewrite <-(length_fmap dst_index).
  assert (Hsub : (dst_index <$> p) ⊆+ seq 0 (length (PerfectHashMap.values_ prev))).
  { apply NoDup_submseteq; [done|]. intros x (e & -> & He)%list_elem_of_fmap.
    rewrite Forall_forall in Hall. apply elem_of_seq. split; [lia|].
    apply Hall in He. apply PerfectHashMap.lookup_lt in He. lia. }
  apply submseteq_length in Hsub. rewrite length_seq in Hsub. lia.
Qed.

(** What a tree answers for a destination that was searched for. *)
Lemma tree_answers st dst :
  final st -> PerfectHashSet.Contains dests dst = true ->
  let tree := mk src dests (s_previous st) (s_min_delays st) in
  GetPathDistance tree dst = Ok (dist st dst) /\
  ((dist st dst = Delay_max /\ dst <> src /\ ~ (exists p, walk adj usable src p dst) /\
    GetPath tree dst = Ok None) \/
   exists p, walk adj usable src p dst /\ (forall p', walk adj usable src p' dst -> (cost p <= cost p')%Z) /\
     dist st dst = cost p /\ NoDup (src :: (dst_index <$> p)) /\
     GetPath tree dst =
       Ok (if decide (dst = src) then None else Some (Walk.mk (link_index <$> p) (cost p)))).
Proof.
  intros [(S & c & C & HI) Hfinal] Hdst tree. destruct (Hfinal dst Hdst) as [Hopt Hreach].
  assert (Hval : PerfectHashMap.HasValue (s_min_delays st) dst = true ->
            PerfectHashMap.GetValueOrDie (s_min_delays st) dst = Ok (dist st dst) /\
            PerfectHashMap.UnsafeAccess (s_min_delays st) dst = Ok (dist st dst)).
  { intros [x Hx]%PerfectHashMap.HasValue_lookup. unfold dist.
    rewrite (PerfectHashMap.lookup_slot _ _ _ _ Hx). split; [by apply PerfectHashMap.GetValueOrDie_Ok|].
    unfold PerfectHashMap.UnsafeAccess, vec_at. unfold PerfectHashMap.lookup in Hx.
    destruct (PerfectHashMap.values_ (s_min_delays st) !! dst) as [[[] y]|]; by simplify_eq/=. }
  assert (Hnone : PerfectHashMap.HasValue (s_min_delays st) dst = false -> dist st dst = Delay_max).
  { intros Hh%PerfectHashMap.HasValue_false. by apply (i_map _ _ _ _ HI). }
  unfold GetPathDistance, GetPath. cbn [destinations_ min_delays_ previous_ src_ tree].
  rewrite Hdst. cbn [check mbind outcome_bind]. split.
  { destruct (PerfectHashMap.HasValue (s_min_delays st) dst); [by apply Hval|]. simpl.
    by rewrite Hnone. }
  destruct (decide (dist st dst < Delay_max)%Z) as [Hf|Hf].
  - right. destruct (tree_path _ _ _ _ _ HI Hf) as (p & Hw & Hc & Hnd & Hall).
    exists p. split_and!; [done|intros; rewrite Hc; by apply Hopt|done|done|].
    assert (Hnd' : NoDup (dst_index <$> p)) by (by apply NoDup_cons in Hnd as [_ ?]).
    rewrite (recover_chain _ p); [|done| |].
    2: { eapply Forall_impl; [done|]. by intros e (? & ? & _). }
    2: { apply recover_length; [done|]. eapply Forall_impl; [done|]. by intros e (? & _). }
    cbn [reverse rev_append mbind outcome_bind]. rewrite app_nil_r.
    destruct (decide (dst = src)) as [->|Hne].
    + assert (p = []) as ->; [|done]. inversion Hw as [|u p' w e Hw' He Hok]; [done|].
      exfalso. subst. apply NoDup_cons in Hnd as [Hnin _]. rewrite fmap_app in Hnin. set_solver.
    + destruct p as [|e p]; [by apply walk_nil_inv in Hw|].
      rewrite fmap_cons. cbn [mbind outcome_bind]. rewrite <-fmap_cons.
      destruct (PerfectHashMap.HasValue (s_min_delays st) dst) eqn:Hh.
      * destruct (Hval eq_refl) as [-> _]. cbn [mbind outcome_bind]. by rewrite Hc.
      * specialize (Hnone eq_refl). lia.
  - left. pose proof (i_le _ _ _ _ HI dst). assert (Hmax : dist st dst = Delay_max) by lia.
    assert (Hne : dst <> src).
    { intros ->. rewrite (i_src _ _ _ _ HI) in Hmax. done. }
    split_and!; [done|done|by intros ?%Hreach|].
    unfold recover_fuel. cbn [RecoverPath]. rewrite (proj2 (Nat.eqb_neq _ _) Hne).
    rewrite (proj2 (PerfectHashMap.HasValue_false _ _)); [done|].
    apply (i_prev_none _ _ _ _ HI). by right.
Qed.
End correctness.

(** The algorithm with the queue of the code, [std::priority_queue] with
    [std::greater]. *)
Definition Compute : ExclusionSet.t -> AdjacencyList.t -> option PerfectHashSet.t ->
    option PerfectHashSet.t -> nat -> PerfectHashSet.t -> outcome t :=
  @ComputePaths (list DelayAndIndex) (heap_queue greater).
End ShortestPath.

(** ** Properties *)

Import ShortestPath.

(** The delays of the links are positive and no sum of delays along a path can
    overflow. *)
Definition delays_ok (adj : AdjacencyList.t) (D : Z) : Prop :=
  (0 <= D)%Z /\ (forall u e, e ∈ GetNeighbors adj u -> (0 < delay e <= D)%Z) /\
  (D * Z.of_nat (S (PerfectHashSet.Count (AllNodes adj))) < Delay_max)%Z.

(** What a computed tree answers for all its destinations. *)
Lemma tree_correct excl adj nodes links src dests D :
  AdjacencyList.wf adj -> delays_ok adj D -> fits 64 (PerfectHashSet.Count dests) ->
  let ok := usable excl nodes links in
  exists tree, Compute excl adj nodes links src dests = Ok tree /\
    forall dst, PerfectHashSet.Contains dests dst = true ->
    ((CanExcludeNode src excl nodes = true \/ dst <> src /\ ~ exists p, walk adj ok src p dst) /\
     GetPathDistance tree dst = Ok Delay_max /\ GetPath tree dst = Ok None) \/
    (CanExcludeNode src excl nodes = false /\
     exists p, walk adj ok src p dst /\ (forall p', walk adj ok src p' dst -> (cost p <= cost p')%Z) /\
       NoDup (src :: (dst_index <$> p)) /\ GetPathDistance tree dst = Ok (cost p) /\
       GetPath tree dst =
         Ok (if decide (dst = src) then None else Some (Walk.mk (link_index <$> p) (cost p)))).
Proof.
  intros Hwf (HD & Hpos & Hfit) Hd ok.
  destruct (CanExcludeNode src excl nodes) eqn:Hex.
  - unfold Compute, ComputePaths. rewrite Hex. eexists. split; [done|]. intros dst Hdst. left.
    split; [by left|]. unfold GetPath, GetPathDistance, recover_fuel.
    cbn [destinations_ previous_ src_ min_delays_ RecoverPath]. rewrite Hdst. cbn [check mbind outcome_bind].
    rewrite !(proj2 (PerfectHashMap.HasValue_false _ _))
      by (by rewrite PerfectHashMap.lookup_Resize by (simpl; lia)).
    by destruct (dst =? src).
  - destruct (ComputePaths_spec (Q := list DelayAndIndex) (PriorityQueue0 := heap_queue greater)
                excl adj nodes links src dests D Hwf Hpos Hfit HD Hd Hex) as (st & Hf & HC).
    eexists. split; [exact HC|]. intros dst Hdst.
    destruct (tree_answers (Q := list DelayAndIndex) (PriorityQueue0 := heap_queue greater)
                excl adj nodes links src dests D Hwf Hpos Hfit HD Hd st dst Hf Hdst)
      as (Hg & [(Hmax & Hne & Hno & Hp)|(p & Hw & Hopt & Hc & Hnd & Hp)]).
    + left. rewrite Hg, Hmax. split_and!; [by right|done|exact Hp].
    + right. split; [done|]. exists p. rewrite Hg, Hc. by split_and!.
Qed.

(** C3: the computation of a shortest path tree terminates without failure, and
    for every destination [GetPath] returns a path from the source that uses no
    excluded link and enters no excluded node, visits no node twice, carries the
    sum of its delays, and is not longer than any other such walk; it returns
    null exactly when the destination is the source itself, when the source is
    excluded, or when there is no such walk. *)
Theorem ShortestPath_GetPath_correct excl adj nodes links src dests D dst :
  AdjacencyList.wf adj -> delays_ok adj D -> fits 64 (PerfectHashSet.Count dests) ->
  PerfectHashSet.Contains dests dst = true ->
  let ok := usable excl nodes links in
  exists tree r, Compute excl adj nodes links src dests = Ok tree /\ GetPath tree dst = Ok r /\
  match r with
  | Some w => CanExcludeNode src excl nodes = false /\ exists p, p <> [] /\
      walk adj ok src p dst /\ Walk.links_ w = link_index <$> p /\ Walk.delay_ w = cost p /\
      NoDup (src :: (dst_index <$> p)) /\
      forall p', walk adj ok src p' dst -> (cost p <= cost p')%Z
  | None => dst = src \/ CanExcludeNode src excl nodes = true \/
      ~ exists p, walk adj ok src p dst
  end.
Proof.
  intros Hwf HD Hd Hdst ok.
  destruct (tree_correct excl adj nodes links src dests D Hwf HD Hd) as (tree & HC & Hall).
  destruct (Hall dst Hdst) as [([?|[? ?]] & _ & Hg)|(Hex & p & Hw & Hopt & Hnd & _ & Hg)].
  1,2: exists tree, None; auto.
  eexists tree, _. split_and!; [done|exact Hg|]. case_decide as Hds; [by left|]. split; [done|].
  exists p. split_and!; try done. intros ->. by apply walk_nil_inv in Hw.
Qed.

(** C4: for every destination [GetPathDistance] returns the length of a
    shortest usable walk from the source (zero for the source itself), or the
    largest delay when there is none or the source is excluded. *)
Theorem ShortestPath_distance_correct excl adj nodes links src dests D dst :
  AdjacencyList.wf adj -> delays_ok adj D -> fits 64 (PerfectHashSet.Count dests) ->
  PerfectHashSet.Contains dests dst = true ->
  let ok := usable excl nodes links in
  exists tree d, Compute excl adj nodes links src dests = Ok tree /\ GetPathDistance tree dst = Ok d /\
  ((d = Delay_max /\ (CanExcludeNode src excl nodes = true \/ ~ exists p, walk adj ok src p dst)) \/
   (CanExcludeNode src excl nodes = false /\
    exists p, walk adj ok src p dst /\ d = cost p /\
      forall p', walk adj ok src p' dst -> (cost p <= cost p')%Z)).
Proof.
  intros Hwf HD Hd Hdst ok.
  destruct (tree_correct excl adj nodes links src dests D Hwf HD Hd) as (tree & HC & Hall).
  destruct (Hall dst Hdst) as [(Hno & Hg & _)|(Hex & p & Hw & Hopt & Hnd & Hg & _)].
  - exists tree, Delay_max. split_and!; [done..|]. left. split; [done|]. destruct Hno as [?|[? ?]]; auto.
  - exists tree, (cost p). split_and!; [done..|]. right. split; [done|]. by exists p.
Qed.

(** A triangle in which the direct link is longer than the way round. *)
Definition small_adj : AdjacencyList.t :=
  AdjacencyList.mk
    (PerfectHashMap.mk [(true, [mkLinkInfo 0 0 1 5; mkLinkInfo 2 0 2 20]%Z);
                        (true, [mkLinkInfo 1 1 2 7; mkLinkInfo 3 1 0 5]%Z)])
    (PerfectHashSet.of_list [0; 1; 2]).

Lemma small_adj_wf : AdjacencyList.wf small_adj.
Proof.
  split.
  - intros [|[|u]]; done.
  - intros [|[|[|u]]] e He; vm_compute in He;
      repeat (apply elem_of_cons in He as [->|He]; [done|]); by apply not_elem_of_nil in He.
Qed.

Lemma small_adj_delays : delays_ok small_adj 20.
Proof.
  split_and!; [done| |done]. intros [|[|[|u]]] e He; vm_compute in He;
    repeat (apply elem_of_cons in He as [->|He]; [done|]); by apply not_elem_of_nil in He.
Qed.

Lemma ShortestPath_GetPath_correct_witness :
  exists tree r, Compute ExclusionSet.empty small_adj None None 0 (PerfectHashSet.of_list [2]) = Ok tree /\
    GetPath tree 2 = Ok r /\ Walk.links_ <$> r = Some [0; 1].
Proof.
  destruct (ShortestPath_GetPath_correct ExclusionSet.empty small_adj None None 0
    (PerfectHashSet.of_list [2]) 20 2 small_adj_wf small_adj_delays) as (tree & r & HC & HG & _);
    [vm_compute; reflexivity..|].
  exists tree, r. split; [exact HC|]. split; [exact HG|].
  vm_compute in HC. injection HC as <-. vm_compute in HG. injection HG as <-. reflexivity.
Defined.

Lemma ShortestPath_distance_correct_witness :
  exists tree d, Compute ExclusionSet.empty small_adj None None 0 (PerfectHashSet.of_list [2]) = Ok tree /\
    GetPathDistance tree 2 = Ok d /\ d = 12%Z.
Proof.
  destruct (ShortestPath_distance_correct ExclusionSet.empty small_adj None None 0
    (PerfectHashSet.of_list [2]) 20 2 small_adj_wf small_adj_delays) as (tree & d & HC & HG & _);
    [vm_compute; reflexivity..|].
  exists tree, d. split; [exact HC|]. split; [exact HG|].
  vm_compute in HC. injection HC as <-. vm_compute in HG. injection HG as <-. reflexivity.
Defined.
