(* ===== verification/Constraints.v ===== *)
(** Model of [ConstraintSet] ([src/src/net/algorithm.h],
    [src/src/net/algorithm.cc]): an exclusion set with a sequence of disjoint
    sets of nodes that a path has to visit in order.  The theorems say when
    sets can be added, that [MinVisit] reports the number of sets exactly for
    the paths that visit all of them in order, and that [Waypoints] picks one
    node from each set. *)

From S2P Require Import Prelude OrderedMap PerfectHash PriorityQueue Graph ShortestPath.

Module ConstraintSet.

Record t := mk {
  exclusion_set_ : ExclusionSet.t;
  to_visit_ : list PerfectHashSet.t;
  node_to_visit_index_ : PerfectHashMap.t nat
}.

Definition init : t := mk ExclusionSet.empty [] PerfectHashMap.empty.

(** The loop of [AddToVisitSet]. *)
Definition add_node (set_index : nat) (m : PerfectHashMap.t nat) (node_index : nat)
  : outcome (PerfectHashMap.t nat) :=
  _ ← check (negb (PerfectHashMap.HasValue m node_index));
  Ok (PerfectHashMap.RefAssign 0 m node_index set_index).

Definition AddToVisitSet (cs : t) (set : PerfectHashSet.t) : outcome t :=
  let set_index := length (to_visit_ cs) in
  nodes ← PerfectHashSet.iterate kIndexBits set;
  m ← mfold (add_node set_index) nodes (node_to_visit_index_ cs);
  Ok (mk (exclusion_set_ cs) (to_visit_ cs ++ [set]) m).

(** The constructor. *)
Definition construct (exclusion_set : ExclusionSet.t) (to_visit : list PerfectHashSet.t) : outcome t :=
  mfold AddToVisitSet to_visit (mk exclusion_set [] PerfectHashMap.empty).

Definition ExtendFirstSetToVisitOrDie (cs : t) (set : PerfectHashSet.t) : outcome t :=
  _ ← check (length (to_visit_ cs) =? 1);
  current_to_visit ← vec_at (to_visit_ cs) 0;
  let current_to_visit := PerfectHashSet.InsertAll current_to_visit set in
  AddToVisitSet (mk (exclusion_set_ cs) [] (PerfectHashMap.Clear (node_to_visit_index_ cs)))
    current_to_visit.

(** The index of the set a node is in, as [HasValue] and [GetValueOrDie]
    give it. *)
Definition visit_index (cs : t) (node : nat) : outcome (option nat) :=
  if PerfectHashMap.HasValue (node_to_visit_index_ cs) node then
    i ← PerfectHashMap.GetValueOrDie (node_to_visit_index_ cs) node; Ok (Some i)
  else Ok None.

(** The loop of [MinVisit]; indices are [int]s that start at -1. *)
Fixpoint min_visit_loop (cs : t) (g : GraphStorage.t) (current_index : Z) (links : Links)
  : outcome Z :=
  match links with
  | [] => Ok (current_index + 1)%Z
  | link :: links' =>
      link_ptr ← GraphStorage.GetLink g link;
      oi ← visit_index cs (dst link_ptr);
      match oi with
      | None => min_visit_loop cs g current_index links'
      | Some i =>
          let i := Z.of_nat i in
          if (i <? current_index)%Z then Ok (i + 1)%Z
          else if negb (current_index =? i)%Z && negb (current_index + 1 =? i)%Z
          then Ok (current_index + 1)%Z
          else min_visit_loop cs g i links'
      end
  end.

Definition MinVisit (cs : t) (links : Links) (g : GraphStorage.t) : outcome Z :=
  match links with
  | [] => Ok 0%Z
  | front :: _ =>
      link_ptr ← GraphStorage.GetLink g front;
      oi ← visit_index cs (src link_ptr);
      match oi with
      | None => min_visit_loop cs g (-1) links
      | Some i =>
          let i := Z.of_nat i in
          if negb (-1 =? i)%Z && negb (-1 + 1 =? i)%Z then Ok (-1 + 1)%Z
          else min_visit_loop cs g i links
      end
  end.

(** [Waypoints]: the same scan, with a [CHECK] that indices do not decrease. *)
Definition waypoint_step (cs : t) (acc : list nat * Z) (node : nat) : outcome (list nat * Z) :=
  let '(out, last_i) := acc in
  oi ← visit_index cs node;
  match oi with
  | None => Ok (out, last_i)
  | Some i =>
      let i := Z.of_nat i in
      _ ← check (last_i <=? i)%Z;
      if negb (last_i =? i)%Z then Ok (out ++ [node], i) else Ok (out, last_i)
  end.

Definition Waypoints (cs : t) (links : Links) (g : GraphStorage.t) : outcome (list nat) :=
  match links with
  | [] => Ok []
  | front :: _ =>
      link_ptr ← GraphStorage.GetLink g front;
      acc ← waypoint_step cs ([], -1)%Z (src link_ptr);
      acc ← mfold (λ acc link, link_ptr ← GraphStorage.GetLink g link;
                               waypoint_step cs acc (dst link_ptr)) links acc;
      Ok acc.1
  end.

Definition FindSetToVisitOrNull (cs : t) (node : nat) : outcome (option PerfectHashSet.t) :=
  oi ← visit_index cs node;
  match oi with
  | None => Ok None
  | Some i => s ← vec_at (to_visit_ cs) i; Ok (Some s)
  end.

Definition ShouldExcludeLink (cs : t) (link : nat) : bool :=
  ExclusionSet.ShouldExcludeLink (exclusion_set_ cs) link.
Definition ShouldExcludeNode (cs : t) (node : nat) : bool :=
  ExclusionSet.ShouldExcludeNode (exclusion_set_ cs) node.

(** [SanitizeConstraints]. *)
Definition sanitize_step (src dst n : nat) (to_return : t) (i_set : nat * PerfectHashSet.t) : outcome t :=
  let '(i, set) := i_set in
  set ← (if (i =? 0) && PerfectHashSet.Contains set src then Ok (PerfectHashSet.Clear set)
         else if (i =? n - 1) && PerfectHashSet.Contains set dst then Ok (PerfectHashSet.Clear set)
         else
           _ ← check (negb (PerfectHashSet.Contains set src) || negb (PerfectHashSet.Contains set dst));
           Ok set);
  if PerfectHashSet.Empty set then Ok to_return else AddToVisitSet to_return set.

Definition SanitizeConstraints (cs : t) (src dst : nat) : outcome t :=
  match to_visit_ cs with
  | [] => Ok cs
  | _ =>
      let excl := ExclusionSet.Links ExclusionSet.empty
                    (ExclusionSet.links_to_exclude_ (exclusion_set_ cs)) in
      let excl := ExclusionSet.Nodes excl (ExclusionSet.nodes_to_exclude_ (exclusion_set_ cs)) in
      mfold (sanitize_step src dst (length (to_visit_ cs)))
        (zip (seq 0 (length (to_visit_ cs))) (to_visit_ cs))
        (mk excl [] PerfectHashMap.empty)
  end.

(** *** The invariant: the sets are disjoint and the map is their index *)

Definition wf (cs : t) : Prop :=
  forall n i, PerfectHashMap.lookup (node_to_visit_index_ cs) n = Some i <->
    exists s, to_visit_ cs !! i = Some s /\ PerfectHashSet.Contains s n = true.

Definition fresh (cs : t) (set : PerfectHashSet.t) : Prop :=
  forall n, PerfectHashSet.Contains set n = true ->
    PerfectHashMap.lookup (node_to_visit_index_ cs) n = None.

Lemma wf_init excl : wf (mk excl [] PerfectHashMap.empty).
Proof. intros n i. simpl. split; [done|]. by intros (s & Hs & _). Qed.

Lemma add_node_eq k m x :
  add_node k m x = match PerfectHashMap.lookup m x with
                   | None => Ok (PerfectHashMap.Add 0 m x k)
                   | Some _ => Fail CheckFailed
                   end.
Proof.
  unfold add_node. destruct (PerfectHashMap.lookup m x) eqn:Hl.
  - by rewrite (proj2 (PerfectHashMap.HasValue_lookup _ _)) by eauto.
  - by rewrite (proj2 (PerfectHashMap.HasValue_false _ _) Hl).
Qed.

(** Adding the nodes one by one succeeds exactly when they are all new. *)
Lemma add_nodes_Ok k nodes m :
  NoDup nodes -> Forall (λ n, PerfectHashMap.lookup m n = None) nodes ->
  exists m', mfold (add_node k) nodes m = Ok m' /\
    forall n, PerfectHashMap.lookup m' n = if decide (n ∈ nodes) then Some k else PerfectHashMap.lookup m n.
Proof.
  revert m. induction nodes as [|x nodes IH]; intros m Hnd Hall.
  { exists m. split; [done|]. intros n. by rewrite decide_False by apply not_elem_of_nil. }
  apply NoDup_cons in Hnd as [Hx Hnd]. apply Forall_cons in Hall as [Hm Hall].
  cbn [mfold]. rewrite add_node_eq, Hm. cbn [mbind outcome_bind].
  destruct (IH (PerfectHashMap.Add 0 m x k) Hnd) as (m' & Hm' & Hl).
  { rewrite Forall_forall in *. intros n Hn. rewrite PerfectHashMap.lookup_Add.
    rewrite decide_False by (by intros ->). by apply Hall. }
  exists m'. split; [done|]. intros n. rewrite Hl, PerfectHashMap.lookup_Add.
  destruct (decide (n ∈ nodes)), (decide (n ∈ x :: nodes)), (decide (x = n)); set_solver.
Qed.

Lemma add_nodes_Fail k nodes m x :
  x ∈ nodes -> is_Some (PerfectHashMap.lookup m x) -> mfold (add_node k) nodes m = Fail CheckFailed.
Proof.
  revert m. induction nodes as [|y nodes IH]; intros m Hx Hm; [by apply not_elem_of_nil in Hx|].
  cbn [mfold]. rewrite add_node_eq. destruct (PerfectHashMap.lookup m y) eqn:Hy; [done|].
  cbn [mbind outcome_bind]. apply elem_of_cons in Hx as [->|Hx].
  { rewrite Hy in Hm. by destruct Hm. }
  apply IH; [done|]. rewrite PerfectHashMap.lookup_Add. by case_decide.
Qed.

Lemma AddToVisitSet_cases cs set :
  wf cs -> fits kIndexBits (length (PerfectHashSet.set_ set)) ->
  (fresh cs set /\ exists cs', AddToVisitSet cs set = Ok cs' /\ wf cs' /\
     to_visit_ cs' = to_visit_ cs ++ [set] /\ exclusion_set_ cs' = exclusion_set_ cs) \/
  (~ fresh cs set /\ AddToVisitSet cs set = Fail CheckFailed).
Proof.
  intros Hwf Hf. unfold AddToVisitSet. rewrite PerfectHashSet.set_iterate_spec by done.
  cbn [mbind outcome_bind].
  destruct (decide (Forall (λ n, PerfectHashMap.lookup (node_to_visit_index_ cs) n = None)
              (PerfectHashSet.elems set))) as [Hall|Hn].
  - left. split.
    { intros n Hn%PerfectHashSet.elem_of_elems. rewrite Forall_forall in Hall. by apply Hall. }
    destruct (add_nodes_Ok (length (to_visit_ cs)) _ _ (PerfectHashSet.NoDup_elems set) Hall)
      as (m' & -> & Hl). cbn [mbind outcome_bind]. eexists. split_and!; [done| |done..].
    intros n i. cbn [node_to_visit_index_ to_visit_]. rewrite Hl.
    destruct (decide (n ∈ PerfectHashSet.elems set)) as [Hin|Hout];
      rewrite PerfectHashSet.elem_of_elems in *.
    + rewrite Forall_forall in Hall. specialize (Hall n).
      rewrite PerfectHashSet.elem_of_elems in Hall. specialize (Hall Hin). split.
      * intros [= <-]. exists set. rewrite lookup_app_r, Nat.sub_diag by lia. done.
      * intros (s & [Hs|[Hge Hs]]%lookup_app_Some & Hc).
        -- assert (PerfectHashMap.lookup (node_to_visit_index_ cs) n = Some i); [|congruence].
           apply Hwf. eauto.
        -- apply list_lookup_singleton_Some in Hs as [Hs _]. f_equal. lia.
    + rewrite (Hwf n i). split.
      * intros (s & Hs & Hc). exists s. split; [by apply lookup_app_l_Some|done].
      * intros (s & [Hs|[Hge Hs]]%lookup_app_Some & Hc); [by eauto|].
        apply list_lookup_singleton_Some in Hs as [_ <-]. done.
  - right. apply not_Forall_Exists, Exists_exists in Hn as (x & Hx & Hl); [|apply _].
    split.
    { intros Hfr. apply Hl, Hfr. by apply PerfectHashSet.elem_of_elems. }
    rewrite (add_nodes_Fail _ _ _ x Hx); [done|]. by apply not_eq_None_Some.
Qed.

(** *** Visiting the sets in order *)

(** The index of the set a node is in. *)
Definition set_index (cs : t) (n : nat) : option nat :=
  fst <$> list_find (λ s, PerfectHashSet.Contains s n = true) (to_visit_ cs).

(** The sequence of sets a sequence of nodes passes. *)
Definition visit_sequence (cs : t) (nodes : list nat) : list nat := omap (set_index cs) nodes.

(** All sets are visited, and never one before an earlier one. *)
Definition visits_in_order (cs : t) (nodes : list nat) : Prop :=
  StronglySorted le (visit_sequence cs nodes) /\
  forall i, i < length (to_visit_ cs) -> i ∈ visit_sequence cs nodes.

Lemma set_index_lookup cs n :
  wf cs -> PerfectHashMap.lookup (node_to_visit_index_ cs) n = set_index cs n.
Proof.
  intros Hwf. unfold set_index.
  destruct (list_find _ (to_visit_ cs)) as [[i s]|] eqn:Hf; simpl.
  - apply list_find_Some in Hf as (Hs & Hc & _). apply Hwf. eauto.
  - apply list_find_None in Hf. rewrite Forall_forall in Hf.
    destruct (PerfectHashMap.lookup (node_to_visit_index_ cs) n) as [i|] eqn:Hl; [|done].
    apply Hwf in Hl as (s & Hs & Hc). apply list_elem_of_lookup_2 in Hs. by apply Hf in Hs.
Qed.

Lemma visit_index_eq cs n : wf cs -> visit_index cs n = Ok (set_index cs n).
Proof.
  intros Hwf. unfold visit_index. rewrite <-set_index_lookup by done.
  destruct (PerfectHashMap.lookup (node_to_visit_index_ cs) n) as [i|] eqn:Hl.
  - rewrite (proj2 (PerfectHashMap.HasValue_lookup _ _)) by eauto.
    by rewrite (proj2 (PerfectHashMap.GetValueOrDie_Ok _ _ _) Hl).
  - by rewrite (proj2 (PerfectHashMap.HasValue_false _ _) Hl).
Qed.

Lemma set_index_lt cs n i : set_index cs n = Some i -> i < length (to_visit_ cs).
Proof.
  unfold set_index. intros ([j s] & Hf & ->)%fmap_Some.
  apply list_find_Some in Hf as (Hs & _). by eapply lookup_lt_Some.
Qed.

Lemma visit_sequence_lt cs nodes : Forall (λ i, i < length (to_visit_ cs)) (visit_sequence cs nodes).
Proof.
  apply Forall_forall. intros i (n & _ & Hn)%list_elem_of_omap. by eapply set_index_lt.
Qed.

(** [MinVisit] as a scan over the sequence of sets. *)
Fixpoint scan (cur : Z) (l : list nat) : Z :=
  match l with
  | [] => cur + 1
  | i :: l' =>
      if (Z.of_nat i <? cur)%Z then Z.of_nat i + 1
      else if negb (cur =? Z.of_nat i)%Z && negb (cur + 1 =? Z.of_nat i)%Z then cur + 1
      else scan (Z.of_nat i) l'
  end%Z.

Lemma scan_complete cur k l :
  (-1 <= cur < Z.of_nat k)%Z -> Forall (λ i, i < k) l ->
  scan cur l = Z.of_nat k <->
  StronglySorted Z.le (cur :: (Z.of_nat <$> l)) /\
  forall i, (cur < Z.of_nat i)%Z -> i < k -> i ∈ l.
Proof.
  intros Hcur Hall. revert cur Hcur. induction Hall as [|i l Hi Hall IH]; intros cur Hcur; simpl.
  { split.
    - intros He. split; [repeat constructor|]. intros. lia.
    - intros [_ H]. destruct (decide (cur + 1 = Z.of_nat k)%Z) as [|Hne]; [done|].
      destruct (not_elem_of_nil (Z.to_nat (cur + 1))). apply H; lia. }
  destruct (Z.ltb_spec (Z.of_nat i) cur) as [Hlt|Hge].
  { split; [lia|]. intros [Hs _]. inversion Hs as [|? ? _ Hf]; subst.
    apply Forall_cons in Hf as [? _]. lia. }
  destruct (Z.eqb_spec cur (Z.of_nat i)) as [He|He]; simpl.
  - rewrite IH by lia. rewrite <-He. split.
    + intros [Hs Hc]. split.
      * inversion Hs; subst. by repeat constructor.
      * intros j Hj Hjk. apply list_elem_of_further. by apply Hc.
    + intros [Hs Hc]. inversion Hs as [|? ? Hs' _]; subst. split; [done|].
      intros j Hj Hjk. specialize (Hc j Hj Hjk). apply elem_of_cons in Hc as [->|]; [lia|done].
  - destruct (Z.eqb_spec (cur + 1) (Z.of_nat i)) as [He2|He2]; simpl.
    + rewrite IH by lia. split.
      * intros [Hs Hc]. split.
        -- constructor; [done|]. inversion Hs as [|? ? _ Hf]; subst. constructor; [lia|].
           eapply Forall_impl; [done|]. simpl. lia.
        -- intros j Hj Hjk. destruct (decide (j = i)) as [->|]; [apply list_elem_of_here|].
           apply list_elem_of_further. apply Hc; lia.
      * intros [Hs Hc]. inversion Hs as [|? ? Hs' _]; subst. split; [done|].
        intros j Hj Hjk. specialize (Hc j ltac:(lia) Hjk). apply elem_of_cons in Hc as [->|]; [lia|done].
    + split; [lia|]. intros [Hs Hc]. inversion Hs as [|? ? Hs' Hf]; subst.
      inversion Hs' as [|? ? _ Hf']; subst.
      assert (Hin : Z.to_nat (cur + 1) ∈ i :: l) by (apply Hc; lia).
      apply elem_of_cons in Hin as [?|Hin]; [lia|].
      rewrite Forall_forall in Hf'. specialize (Hf' (Z.of_nat (Z.to_nat (cur + 1)))).
      rewrite list_elem_of_fmap in Hf'. specialize (Hf' ltac:(eauto)). lia.
Qed.

Lemma min_visit_loop_scan cs g cur links p :
  wf cs -> mapM (λ i, PerfectHashStore.items_ (GraphStorage.link_store_ g) !! i) links = Some p ->
  min_visit_loop cs g cur links = Ok (scan cur (visit_sequence cs (dst <$> p))).
Proof.
  intros Hwf. revert cur p. induction links as [|l links IH]; intros cur p Hp; simpl in Hp.
  { by injection Hp as <-. }
  destruct (PerfectHashStore.items_ _ !! l) as [link|] eqn:Hl; [|done]. simpl in Hp.
  destruct (mapM _ links) as [p'|] eqn:Hp'; [|done]. injection Hp as <-.
  cbn [min_visit_loop]. rewrite (GraphStorage.GetLink_items _ _ _ Hl). cbn [mbind outcome_bind].
  rewrite visit_index_eq by done. cbn [mbind outcome_bind]. rewrite fmap_cons.
  unfold visit_sequence. cbn [omap list_omap].
  destruct (set_index cs (dst link)) as [i|]; [|by apply IH].
  cbn [scan]. repeat case_match; try done. by apply IH.
Qed.

Lemma MinVisit_scan cs g links p :
  wf cs -> links <> [] ->
  mapM (λ i, PerfectHashStore.items_ (GraphStorage.link_store_ g) !! i) links = Some p ->
  MinVisit cs links g = Ok (scan (-1) (visit_sequence cs (path_nodes p))).
Proof.
  intros Hwf Hne Hp. destruct links as [|l links]; [done|]. unfold MinVisit.
  assert (exists link p', p = link :: p' /\
     PerfectHashStore.items_ (GraphStorage.link_store_ g) !! l = Some link) as (link & p' & -> & Hl).
  { simpl in Hp. destruct (PerfectHashStore.items_ _ !! l) as [link|]; [|done]. simpl in Hp.
    destruct (mapM _ links) as [p'|]; [|done]. injection Hp as <-. eauto. }
  rewrite (GraphStorage.GetLink_items _ _ _ Hl).
  cbn [mbind outcome_bind]. rewrite visit_index_eq by done. cbn [mbind outcome_bind path_nodes].
  unfold visit_sequence. cbn [omap list_omap].
  destruct (set_index cs (src link)) as [i|]; [|by apply min_visit_loop_scan].
  cbn [scan]. rewrite (proj2 (Z.ltb_ge _ _)) by lia.
  case_match; [done|]. by apply min_visit_loop_scan.
Qed.
End ConstraintSet.

(** ** Properties *)

Import ConstraintSet.

Lemma StronglySorted_le_Z l : StronglySorted Z.le (Z.of_nat <$> l) <-> StronglySorted le l.
Proof.
  induction l as [|i l IH]; simpl; [split; constructor|]. split.
  - intros H. inversion H as [|? ? Hs Hf]; subst. constructor; [by apply IH|].
    rewrite Forall_fmap in Hf. eapply Forall_impl; [done|]. simpl. lia.
  - intros H. inversion H as [|? ? Hs Hf]; subst. constructor; [by apply IH|].
    rewrite Forall_fmap. eapply Forall_impl; [done|]. simpl. lia.
Qed.

Lemma MinVisit_complete cs g links p :
  wf cs -> links <> [] ->
  mapM (λ i, PerfectHashStore.items_ (GraphStorage.link_store_ g) !! i) links = Some p ->
  exists n, MinVisit cs links g = Ok n /\
    (n = Z.of_nat (length (to_visit_ cs)) <-> visits_in_order cs (path_nodes p)).
Proof.
  intros Hwf Hne Hp. rewrite (MinVisit_scan cs g links p) by done. eexists. split; [done|].
  unfold visits_in_order. pose proof (visit_sequence_lt cs (path_nodes p)) as Hlt.
  set (l := visit_sequence cs (path_nodes p)) in *.
  destruct (decide (length (to_visit_ cs) = 0)) as [Hz|Hnz].
  { rewrite Hz in *. destruct l as [|i l]; [|apply Forall_cons in Hlt as [? _]; lia].
    split; [|done]. intros _. split; [constructor|lia]. }
  rewrite scan_complete by (done || lia). rewrite <-StronglySorted_le_Z. split.
  - intros [Hs Hc]. inversion Hs; subst. split; [done|]. intros i Hi. apply Hc; lia.
  - intros [Hs Hc]. split; [|intros; by apply Hc]. constructor; [done|].
    rewrite Forall_fmap. apply Forall_forall. intros i _. simpl. lia.
Qed.

(** on a non-empty path [MinVisit] never fails, and it returns the number of
    sets exactly when the path visits all the sets, none of them after a later
    one. *)
Theorem ConstraintSet_MinVisit_complete cs g links p :
  wf cs -> links <> [] ->
  mapM (λ i, PerfectHashStore.items_ (GraphStorage.link_store_ g) !! i) links = Some p ->
  exists n, MinVisit cs links g = Ok n /\
    (n = Z.of_nat (length (to_visit_ cs)) <-> visits_in_order cs (path_nodes p)).
Proof. apply MinVisit_complete. Qed.

Lemma sorted_last_max l i :
  StronglySorted le l -> i ∈ l -> (forall j, j ∈ l -> j <= i) -> last l = Some i.
Proof.
  intros Hs (l1 & l2 & ->)%list_elem_of_split Hle.
  destruct (decide (l2 = [])) as [->|Hne]; [apply last_snoc|].
  destruct (exists_last Hne) as (l3 & j & ->). rewrite app_comm_cons, app_assoc, last_snoc.
  f_equal. assert (j <= i) by (apply Hle; set_solver).
  apply StronglySorted_app_1_r in Hs. inversion Hs as [|? ? _ Hf]; subst.
  rewrite Forall_forall in Hf. assert (i <= j) by (apply Hf; set_solver). lia.
Qed.

(** Waypoints: the sets of the nodes picked so far are those passed so far. *)
Lemma waypoint_step_spec cs out last_i seen n :
  wf cs ->
  StronglySorted le (seen ++ visit_sequence cs [n]) ->
  last_i = default (-1)%Z (Z.of_nat <$> last seen) ->
  StronglySorted lt (visit_sequence cs out) -> (forall i, i ∈ visit_sequence cs out <-> i ∈ seen) ->
  exists out' last', waypoint_step cs (out, last_i) n = Ok (out', last') /\
    last' = default (-1)%Z (Z.of_nat <$> last (seen ++ visit_sequence cs [n])) /\
    StronglySorted lt (visit_sequence cs out') /\
    (forall i, i ∈ visit_sequence cs out' <-> i ∈ seen ++ visit_sequence cs [n]) /\
    (Forall (λ m, is_Some (set_index cs m)) out -> Forall (λ m, is_Some (set_index cs m)) out') /\
    (out' = out \/ out' = out ++ [n]).
Proof.
  intros Hwf Hs Hlast Hout Hin. unfold waypoint_step. rewrite visit_index_eq by done.
  cbn [mbind outcome_bind].
  assert (Hadd : visit_sequence cs [n] = match set_index cs n with Some i => [i] | None => [] end) by done.
  rewrite Hadd in *. clear Hadd. destruct (set_index cs n) as [i|] eqn:Hi.
  2: { rewrite app_nil_r. exists out, last_i. split_and!; auto. }
  rewrite last_snoc. simpl.
  assert (Hle : forall j, j ∈ seen -> j <= i).
  { intros j Hj. apply StronglySorted_app in Hs as (Hs & _).
    apply (Hs j i Hj). set_solver. }
  assert (Hl : (last_i <= Z.of_nat i)%Z).
  { destruct (last seen) as [j|] eqn:Hj; simpl in Hlast; [|lia].
    apply last_Some_elem_of in Hj. apply Hle in Hj. lia. }
  rewrite (proj2 (Z.leb_le _ _) Hl). cbn [check mbind outcome_bind].
  destruct (Z.eqb_spec last_i (Z.of_nat i)) as [He|He]; cbn [negb].
  - exists out, last_i. split_and!; [done|done|done| |done|by left].
    intros j. rewrite Hin, elem_of_app, list_elem_of_singleton. split; [by left|].
    intros [| ->]; [done|]. destruct (last seen) as [j|] eqn:Hj; simpl in Hlast; [|lia].
    apply last_Some_elem_of in Hj. by replace i with j by lia.
  - exists (out ++ [n]), (Z.of_nat i).
    assert (Hseq : visit_sequence cs (out ++ [n]) = visit_sequence cs out ++ [i]).
    { unfold visit_sequence. rewrite omap_app. simpl. by rewrite Hi. }
    rewrite Hseq. split_and!; [done|done| | | |by right].
    + apply StronglySorted_app_2; [|done|repeat constructor].
      intros j1 j2 Hj1 ->%list_elem_of_singleton. apply Hin in Hj1 as Hj1'.
      destruct (decide (j1 = i)) as [->|]; [|specialize (Hle j1 Hj1'); lia]. exfalso.
      assert (Hlast' : last seen = Some i).
      { apply sorted_last_max; [|done..]. by apply StronglySorted_app_1_l in Hs. }
      rewrite Hlast' in Hlast. simpl in Hlast. lia.
    + intros j. rewrite !elem_of_app, Hin. done.
    + intros Hall. apply Forall_app. split; [done|]. constructor; [by eauto|done].
Qed.

Lemma waypoints_fold cs nodes done_ out last_i :
  wf cs -> StronglySorted le (visit_sequence cs (done_ ++ nodes)) ->
  last_i = default (-1)%Z (Z.of_nat <$> last (visit_sequence cs done_)) ->
  StronglySorted lt (visit_sequence cs out) ->
  (forall i, i ∈ visit_sequence cs out <-> i ∈ visit_sequence cs done_) ->
  Forall (λ m, is_Some (set_index cs m)) out -> out `sublist_of` done_ ->
  exists out' last', mfold (waypoint_step cs) nodes (out, last_i) = Ok (out', last') /\
    StronglySorted lt (visit_sequence cs out') /\
    (forall i, i ∈ visit_sequence cs out' <-> i ∈ visit_sequence cs (done_ ++ nodes)) /\
    Forall (λ m, is_Some (set_index cs m)) out' /\ out' `sublist_of` (done_ ++ nodes).
Proof.
  intros Hwf. revert done_ out last_i.
  induction nodes as [|n nodes IH]; intros done_ out last_i Hs Hl Hout Hin Hall Hsub.
  { rewrite app_nil_r. exists out, last_i. done. }
  assert (Happ : forall l1 l2, visit_sequence cs (l1 ++ l2) = visit_sequence cs l1 ++ visit_sequence cs l2)
    by (intros; apply omap_app).
  change (n :: nodes) with ([n] ++ nodes) in Hs |- *. rewrite (assoc_L (++)) in Hs |- *.
  destruct (waypoint_step_spec cs out last_i (visit_sequence cs done_) n)
    as (o & l & Hstep & Hl' & Hso & Hino & Hallo & Ho); try done.
  { rewrite Happ in Hs. apply StronglySorted_app_1_l in Hs. by rewrite <-Happ. }
  rewrite <-Happ in Hl', Hino. cbn [app mfold]. rewrite Hstep. cbn [mbind outcome_bind].
  apply (IH (done_ ++ [n])); auto. destruct Ho as [->| ->].
  - by apply sublist_inserts_r.
  - by apply sublist_app.
Qed.

Lemma Waypoints_fold cs g links p :
  links <> [] -> mapM (λ i, PerfectHashStore.items_ (GraphStorage.link_store_ g) !! i) links = Some p ->
  Waypoints cs links g = fst <$> mfold (waypoint_step cs) (path_nodes p) ([], -1)%Z.
Proof.
  assert (Hfold : forall links p acc,
    mapM (λ i, PerfectHashStore.items_ (GraphStorage.link_store_ g) !! i) links = Some p ->
    mfold (λ acc link, link_ptr ← GraphStorage.GetLink g link;
                       waypoint_step cs acc (dst link_ptr)) links acc =
    mfold (waypoint_step cs) (dst <$> p) acc).
  { clear. induction links as [|l links IH]; intros p acc Hp; simpl in Hp.
    { by injection Hp as <-. }
    destruct (PerfectHashStore.items_ _ !! l) as [link|] eqn:Hl; [|done]. simpl in Hp.
    destruct (mapM _ links) as [p'|] eqn:Hp'; [|done]. injection Hp as <-.
    cbn [mfold]. rewrite (GraphStorage.GetLink_items _ _ _ Hl). cbn [mbind outcome_bind].
    rewrite fmap_cons. cbn [mfold]. destruct (waypoint_step cs acc (dst link)); [|done].
    by apply IH. }
  intros Hne Hp. destruct links as [|l links]; [done|]. unfold Waypoints.
  destruct p as [|link p].
  { simpl in Hp. destruct (PerfectHashStore.items_ _ !! l); [|done]. simpl in Hp.
    by destruct (mapM _ links). }
  assert (Hl : PerfectHashStore.items_ (GraphStorage.link_store_ g) !! l = Some link).
  { simpl in Hp. destruct (PerfectHashStore.items_ _ !! l) as [link'|]; [|done]. simpl in Hp.
    destruct (mapM _ links); [|done]. by injection Hp as -> _. }
  rewrite (GraphStorage.GetLink_items _ _ _ Hl).
  cbn [mbind outcome_bind path_nodes].
  change (mfold (waypoint_step cs) (src link :: _) _)
    with (acc ← waypoint_step cs ([], -1)%Z (src link); mfold (waypoint_step cs) (dst <$> link :: p) acc).
  destruct (waypoint_step cs _ (src link)) as [acc|]; [|done]. cbn [mbind outcome_bind].
  rewrite (Hfold _ _ _ Hp). by destruct (mfold (waypoint_step cs) _ acc).
Qed.

Lemma StronglySorted_lt_seq k n : StronglySorted lt (seq k n).
Proof.
  revert k. induction n as [|n IH]; intros k; simpl; [constructor|]. constructor; [apply IH|].
  apply Forall_forall. intros x Hx%elem_of_seq. lia.
Qed.

(** for a path that visits all sets in order [Waypoints] does not fail; it
    returns one node from each set, in the order of the sets, and these nodes
    occur in this order on the path. *)
Theorem ConstraintSet_Waypoints_spec cs g links p :
  wf cs -> links <> [] ->
  mapM (λ i, PerfectHashStore.items_ (GraphStorage.link_store_ g) !! i) links = Some p ->
  visits_in_order cs (path_nodes p) ->
  exists ws, Waypoints cs links g = Ok ws /\
    Forall2 (λ n s, PerfectHashSet.Contains s n = true) ws (to_visit_ cs) /\
    ws `sublist_of` path_nodes p.
Proof.
  intros Hwf Hne Hp [Hs Hall]. rewrite (Waypoints_fold cs g links p) by done.
  destruct (waypoints_fold cs (path_nodes p) [] [] (-1)%Z)
    as (ws & l & -> & Hws & Hin & Hsome & Hsub); try done; [constructor|].
  cbn [fmap outcome_fmap fst]. exists ws. split_and!; [done| |done].
  set (k := length (to_visit_ cs)) in *. simpl in Hin.
  assert (Hseq : visit_sequence cs ws = seq 0 k).
  { apply (StronglySorted_unique_strong lt); [intros x y; lia|done|apply StronglySorted_lt_seq|].
    pose proof (visit_sequence_lt cs (path_nodes p)) as Hlt. rewrite Forall_forall in Hlt.
    apply NoDup_Permutation; [|apply NoDup_seq|].
    - clear -Hws. induction Hws as [|x l Hl IH Hx]; constructor; [|done].
      intros Hin. rewrite Forall_forall in Hx. specialize (Hx x Hin). lia.
    - intros i. rewrite Hin, elem_of_seq. split; [intros Hi; specialize (Hlt i Hi); lia|].
      intros Hi. apply Hall. lia. }
  assert (Hidx : set_index cs <$> ws = Some <$> seq 0 k).
  { rewrite <-Hseq. clear -Hsome. unfold visit_sequence.
    induction Hsome as [|x l [i Hi] _ IH]; [done|]. rewrite fmap_cons. cbn [omap list_omap].
    by rewrite Hi, fmap_cons, IH. }
  apply Forall2_same_length_lookup. split.
  { apply (f_equal length) in Hidx. rewrite !length_fmap, length_seq in Hidx. done. }
  intros i n s Hn Hs'. assert (Hi : set_index cs n = Some i).
  { apply (f_equal (.!! i)) in Hidx. rewrite !list_lookup_fmap, Hn in Hidx. simpl in Hidx.
    rewrite lookup_seq_lt in Hidx by (by eapply lookup_lt_Some). by simplify_eq/=. }
  unfold set_index in Hi. apply fmap_Some in Hi as ([j s'] & Hf & Hj). simpl in Hj. subst j.
  apply list_find_Some in Hf as (Hs2 & Hc & _). congruence.
Qed.

(** *** Building constraint sets *)

Definition disjoint_sets (sets : list PerfectHashSet.t) : Prop :=
  forall i j s1 s2 n, sets !! i = Some s1 -> sets !! j = Some s2 ->
    PerfectHashSet.Contains s1 n = true -> PerfectHashSet.Contains s2 n = true -> i = j.

Lemma wf_disjoint cs : wf cs -> disjoint_sets (to_visit_ cs).
Proof.
  intros Hwf i j s1 s2 n H1 H2 C1 C2.
  assert (PerfectHashMap.lookup (node_to_visit_index_ cs) n = Some i) by (apply Hwf; eauto).
  assert (PerfectHashMap.lookup (node_to_visit_index_ cs) n = Some j) by (apply Hwf; eauto).
  congruence.
Qed.

Lemma disjoint_snoc cs set :
  wf cs -> disjoint_sets (to_visit_ cs ++ [set]) <-> fresh cs set.
Proof.
  intros Hwf. split.
  - intros Hd n Hn. destruct (PerfectHashMap.lookup (node_to_visit_index_ cs) n) as [i|] eqn:Hl; [|done].
    apply Hwf in Hl as (s & Hs & Hc). apply lookup_lt_Some in Hs as Hlt. exfalso.
    assert (i = length (to_visit_ cs)); [|lia].
    eapply Hd; [by apply lookup_app_l_Some|by rewrite lookup_app_r, Nat.sub_diag by lia|done..].
  - intros Hf i j s1 s2 n H1 H2 C1 C2.
    assert (Hnew : forall k s, (to_visit_ cs ++ [set]) !! k = Some s -> PerfectHashSet.Contains s n = true ->
              (PerfectHashMap.lookup (node_to_visit_index_ cs) n = Some k) \/
              (k = length (to_visit_ cs) /\ PerfectHashSet.Contains set n = true)).
    { intros k s [Hs|[Hk Hs]]%lookup_app_Some Hc; [left; apply Hwf; eauto|].
      apply list_lookup_singleton_Some in Hs as [Hk0 ->]. right. split; [lia|done]. }
    destruct (Hnew _ _ H1 C1) as [E1|[-> N1]], (Hnew _ _ H2 C2) as [E2|[-> N2]];
      [congruence| | |done].
    + rewrite (Hf n N2) in E1. done.
    + rewrite (Hf n N1) in E2. done.
Qed.

(** C40: a constraint set can be built from a sequence of sets of nodes exactly
    when the sets are pairwise disjoint (otherwise the program dies), and the
    result maps every node to the one set it is in. *)
Theorem ConstraintSet_construct_iff_disjoint excl sets :
  Forall (λ s, fits kIndexBits (length (PerfectHashSet.set_ s))) sets ->
  (disjoint_sets sets /\ exists cs, construct excl sets = Ok cs /\ wf cs /\
     to_visit_ cs = sets /\ exclusion_set_ cs = excl) \/
  (~ disjoint_sets sets /\ construct excl sets = Fail CheckFailed).
Proof.
  unfold construct. induction sets as [|s sets IH] using rev_ind; intros Hfit.
  { left. split; [by intros i j ?? n|]. eexists. split_and!; [done|apply wf_init|done..]. }
  apply Forall_app in Hfit as [Hfit [Hs _]%Forall_cons]. rewrite mfold_app.
  destruct (IH Hfit) as [(Hd & cs & -> & Hwf & Htv & Hex)|(Hd & ->)]; cbn [mbind outcome_bind mfold].
  - pose proof (disjoint_snoc cs s Hwf) as Hiff. rewrite Htv in Hiff.
    destruct (AddToVisitSet_cases cs s Hwf Hs) as [(Hf & cs' & -> & Hwf' & Htv' & Hex')|(Hf & ->)].
    + left. split; [by apply Hiff|]. exists cs'. split_and!; [done..|congruence|congruence].
    + right. split; [by rewrite Hiff|done].
  - right. split; [|done]. intros Hd'. apply Hd. intros i j s1 s2 n H1 H2.
    eapply Hd'; by apply lookup_app_l_Some.
Qed.

Lemma ConstraintSet_construct_iff_disjoint_witness :
  exists cs, construct ExclusionSet.empty [PerfectHashSet.of_list [1]; PerfectHashSet.of_list [2; 3]] = Ok cs.
Proof.
  destruct (ConstraintSet_construct_iff_disjoint ExclusionSet.empty
    [PerfectHashSet.of_list [1]; PerfectHashSet.of_list [2; 3]]) as [(_ & cs & H & _)|(_ & H)].
  - repeat constructor.
  - exists cs. exact H.
  - vm_compute in H. discriminate.
Defined.

(** A constraint set with one set, of node 1. *)
Definition visit_one : t :=
  mk ExclusionSet.empty [PerfectHashSet.of_list [1]] (PerfectHashMap.mk [(false, 0); (true, 0)]).

Lemma visit_one_wf : wf visit_one.
Proof.
  assert (Hc : forall n, PerfectHashSet.Contains (PerfectHashSet.of_list [1]) n = true <-> n = 1).
  { intros n. rewrite PerfectHashSet.Contains_of_list. set_solver. }
  intros n i. split.
  - destruct n as [|[|n]]; intros H; vm_compute in H; try done. injection H as <-.
    exists (PerfectHashSet.of_list [1]). split; [done|]. by apply Hc.
  - intros (s & [-> <-]%list_lookup_singleton_Some & ->%Hc). done.
Qed.

Lemma ConstraintSet_MinVisit_complete_witness :
  match GraphStorage.construct (GraphBuilder.mk true triangle) [] with
  | Ok g => exists n, MinVisit visit_one [0; 1] g = Ok n /\ n = 1%Z
  | Fail _ => False
  end.
Proof.
  destruct (GraphStorage.construct (GraphBuilder.mk true triangle) []) as [g|] eqn:E.
  - vm_compute in E. injection E as <-.
    match goal with |- context [MinVisit _ ?l ?g] =>
      edestruct (ConstraintSet_MinVisit_complete visit_one g l) as (n & H & _);
        [exact visit_one_wf|discriminate|vm_compute; reflexivity|]
    end.
    exists n. split; [exact H|]. vm_compute in H. injection H as <-. reflexivity.
  - vm_compute in E. discriminate.
Defined.

Lemma ConstraintSet_Waypoints_spec_witness :
  match GraphStorage.construct (GraphBuilder.mk true triangle) [] with
  | Ok g => exists ws, Waypoints visit_one [0; 1] g = Ok ws /\ ws = [1]
  | Fail _ => False
  end.
Proof.
  destruct (GraphStorage.construct (GraphBuilder.mk true triangle) []) as [g|] eqn:E.
  - vm_compute in E. injection E as <-.
    match goal with |- context [Waypoints _ ?l ?g] =>
      edestruct (ConstraintSet_Waypoints_spec visit_one g l) as (ws & H & _);
        [exact visit_one_wf|discriminate|vm_compute; reflexivity| |]
    end.
    + split; [repeat constructor|]. intros i Hi. destruct i; [|simpl in Hi; lia].
      vm_compute. constructor.
    + exists ws. split; [exact H|]. vm_compute in H. injection H as <-. reflexivity.
  - vm_compute in E. discriminate.
Defined.

(** the [CHECK] of [SanitizeConstraints] says that the source and the
    destination can only be part of the first and the last set, but it tests
    that no other set has both: a middle set that contains the source is
    accepted and kept. *)
Theorem SanitizeConstraints_accepts_src_in_middle :
  exists cs cs',
    construct ExclusionSet.empty
      [PerfectHashSet.of_list [5]; PerfectHashSet.of_list [0; 6]; PerfectHashSet.of_list [7]] = Ok cs /\
    SanitizeConstraints cs 0 9 = Ok cs' /\
    exists s, to_visit_ cs' !! 1 = Some s /\ PerfectHashSet.Contains s 0 = true.
Proof.
  eexists _, _. split; [vm_compute; reflexivity|]. split; [vm_compute; reflexivity|].
  eexists. split; vm_compute; reflexivity.
Qed.
