(* ===== verification/PathSearch.v ===== *)
(** Model of the exhaustive searches of [src/src/net/algorithm.cc]:
    [ReachableNodes] and the depth-first enumeration of paths [Paths].  The
    sets the C++ code threads through the recursion by pointer are threaded as
    state.  [ReachableNodes] is proved to compute exactly the nodes reachable
    over usable links; [Paths] in its default (simple) mode to call back
    exactly once with each simple path within its limits. *)

From S2P Require Import Prelude OrderedMap PerfectHash PriorityQueue Graph ShortestPath Constraints.

Import AdjacencyList ShortestPath.

(** ** ReachableNodes *)

Fixpoint ReachableNodesRecursive (fuel : nat) (adjacency_list : AdjacencyList.t)
    (exclusion_set : ExclusionSet.t) (at_ : nat) (nodes_seen : PerfectHashSet.t)
  : outcome PerfectHashSet.t :=
  match fuel with
  | O => Fail OutOfFuel
  | S fuel' =>
      if PerfectHashSet.Contains nodes_seen at_ then Ok nodes_seen
      else
        mfold (λ nodes_seen out_link_info,
                 if ExclusionSet.ShouldExcludeLink exclusion_set (link_index out_link_info)
                 then Ok nodes_seen
                 else if ExclusionSet.ShouldExcludeNode exclusion_set (dst_index out_link_info)
                 then Ok nodes_seen
                 else ReachableNodesRecursive fuel' adjacency_list exclusion_set
                        (dst_index out_link_info) nodes_seen)
          (GetNeighbors adjacency_list at_) (PerfectHashSet.Insert nodes_seen at_)
  end.

(** No node is entered twice, so the recursion is at most one deeper than
    there are nodes. *)
Definition search_depth (adj : AdjacencyList.t) : nat :=
  S (S (PerfectHashSet.Count (AllNodes adj))).

Definition ReachableNodes (src : nat) (g : GraphStorage.t) (exclusion_set : ExclusionSet.t)
  : outcome PerfectHashSet.t :=
  let adj := GraphStorage.adjacency_list_ g in
  ReachableNodesRecursive (search_depth adj) adj exclusion_set src PerfectHashSet.empty.

(** ** Paths *)

Record DFSConfig := mkDFSConfig { simple : bool; max_distance : Delay; max_hops : Z }.
Definition default_config : DFSConfig := mkDFSConfig true Delay_max (umax 64).

(** The arguments passed by pointer, and the walks handed to the callback. *)
Record dfs_state := mkDfs {
  links_seen : PerfectHashSet.t;
  nodes_seen : PerfectHashSet.t;
  current : Links;
  total_distance : Delay;
  called_with : list Walk.t
}.

Section paths.
Context (config : DFSConfig) (dst : nat) (g : GraphStorage.t) (constraints : ConstraintSet.t).

(** One outgoing link; [rec] is the recursive call. *)
Definition follow_link (rec : nat -> dfs_state -> outcome dfs_state) (st : dfs_state)
    (out_link_info : LinkInfo) : outcome dfs_state :=
  let link := link_index out_link_info in
  let next_hop := dst_index out_link_info in
  if ConstraintSet.ShouldExcludeLink constraints link then Ok st
  else if ConstraintSet.ShouldExcludeNode constraints next_hop then Ok st
  else if negb (simple config) && PerfectHashSet.Contains (links_seen st) link then Ok st
  else
    let seen := if simple config then links_seen st else PerfectHashSet.Insert (links_seen st) link in
    total ← delay_add (total_distance st) (delay out_link_info);
    st ← rec next_hop (mkDfs seen (nodes_seen st) (current st ++ [link]) total (called_with st));
    total ← delay_add (total_distance st) (- delay out_link_info);
    let seen := if simple config then links_seen st else PerfectHashSet.Remove (links_seen st) link in
    Ok (mkDfs seen (nodes_seen st) (removelast (current st)) total (called_with st)).

Fixpoint PathsRecursive (fuel : nat) (at_ : nat) (st : dfs_state) : outcome dfs_state :=
  match fuel with
  | O => Fail OutOfFuel
  | S fuel' =>
      if (max_hops config <? Z.of_nat (length (current st)))%Z then Ok st
      else if at_ =? dst then
        min_v ← ConstraintSet.MinVisit constraints (current st) g;
        if negb (min_v =? Z.of_nat (length (ConstraintSet.to_visit_ constraints)))%Z then Ok st
        else
          Ok (mkDfs (links_seen st) (nodes_seen st) (current st) (total_distance st)
                (called_with st ++ [Walk.mk (current st) (total_distance st)]))
      else if (max_distance config <? total_distance st)%Z then Ok st
      else if simple config && PerfectHashSet.Contains (nodes_seen st) at_ then Ok st
      else
        let seen := if simple config then PerfectHashSet.Insert (nodes_seen st) at_ else nodes_seen st in
        st ← mfold (follow_link (PathsRecursive fuel'))
               (GetNeighbors (GraphStorage.adjacency_list_ g) at_)
               (mkDfs (links_seen st) seen (current st) (total_distance st) (called_with st));
        let seen := if simple config then PerfectHashSet.Remove (nodes_seen st) at_ else nodes_seen st in
        Ok (mkDfs (links_seen st) seen (current st) (total_distance st) (called_with st))
  end.
End paths.

(** In simple mode no node, otherwise no link, is passed twice. *)
Definition paths_fuel (config : DFSConfig) (g : GraphStorage.t) : nat :=
  let adj := GraphStorage.adjacency_list_ g in
  if simple config then search_depth adj else S (S (link_count adj)).

Definition Paths (src dst : nat) (g : GraphStorage.t) (constraints : ConstraintSet.t)
    (config : DFSConfig) : outcome (list Walk.t) :=
  st ← PathsRecursive config dst g constraints (paths_fuel config g) src
         (mkDfs PerfectHashSet.empty PerfectHashSet.empty [] 0%Z []);
  Ok (called_with st).

(** ** ReachableNodes: proofs *)
Section reachable.
Context (adj : AdjacencyList.t) (excl : ExclusionSet.t).
Hypothesis Hwf : AdjacencyList.wf adj.

#[local] Notation ok := (usable excl None None).
#[local] Notation D := PerfectHashSet.denote.

Lemma neighbor_universe src u e : e ∈ GetNeighbors adj u -> dst_index e ∈ universe adj src.
Proof.
  intros He. unfold universe. apply elem_of_union_r, PerfectHashSet.elem_of_denote, (proj2 Hwf u e He).
Qed.

Lemma denote_Insert s x : D (PerfectHashSet.Insert s x) = {[x]} ∪ D s.
Proof.
  apply set_eq. intros y. rewrite elem_of_union, elem_of_singleton, !PerfectHashSet.elem_of_denote,
    PerfectHashSet.Contains_Insert. case_decide; naive_solver.
Qed.

Lemma denote_Remove s x : D (PerfectHashSet.Remove s x) = D s ∖ {[x]}.
Proof.
  apply set_eq. intros y. rewrite elem_of_difference, elem_of_singleton, !PerfectHashSet.elem_of_denote,
    PerfectHashSet.Contains_Remove. case_decide; naive_solver.
Qed.

(** The set grew by nodes reachable from [at_], whose successors are in it. *)
Definition explored (at_ : nat) (seen seen' : gset nat) : Prop :=
  seen ⊆ seen' /\
  (forall x, x ∈ seen' -> x ∈ seen \/ exists p, walk adj ok at_ p x) /\
  (forall x e, x ∈ seen' -> x ∉ seen -> e ∈ GetNeighbors adj x -> ok e = true -> dst_index e ∈ seen').

Lemma ReachableNodesRecursive_spec src fuel at_ s :
  at_ ∈ universe adj src -> size (universe adj src ∖ D s) < fuel ->
  exists s', ReachableNodesRecursive fuel adj excl at_ s = Ok s' /\
    at_ ∈ D s' /\ explored at_ (D s) (D s').
Proof.
  revert at_ s. induction fuel as [|fuel IH]; intros at_ s Hat Hf; [lia|]. cbn [ReachableNodesRecursive].
  destruct (PerfectHashSet.Contains s at_) eqn:Hc.
  { apply PerfectHashSet.elem_of_denote in Hc. exists s. split_and!; [done|done|].
    split_and!; [done|by left|done]. }
  assert (Hn : at_ ∉ D s) by (rewrite PerfectHashSet.elem_of_denote; congruence).
  assert (Hdec : forall X, {[at_]} ∪ D s ⊆ X -> size (universe adj src ∖ X) < fuel).
  { intros X HX. assert (size (universe adj src ∖ X) < size (universe adj src ∖ D s)); [|lia].
    apply subset_size. set_solver. }
  set (step := λ nodes_seen out_link_info, _).
  destruct (mfold_inv (λ l s', {[at_]} ∪ D s ⊆ D s' /\
      (forall x, x ∈ D s' -> x ∈ D s \/ exists p, walk adj ok at_ p x) /\
      (forall x e, x ∈ D s' -> x ∉ {[at_]} ∪ D s -> e ∈ GetNeighbors adj x -> ok e = true -> dst_index e ∈ D s') /\
      (forall e, e ∈ l -> ok e = true -> dst_index e ∈ D s'))
    step (GetNeighbors adj at_) (PerfectHashSet.Insert s at_)) as (s' & Hs' & H1 & H2 & H3 & H4).
  - rewrite denote_Insert. split_and!; [done| |set_solver|set_solver].
    intros x [->%elem_of_singleton|]%elem_of_union; [|by left]. right. exists []. constructor.
  - intros l e s1 Hpre (H1 & H2 & H3 & H4).
    assert (He : e ∈ GetNeighbors adj at_) by (destruct Hpre as [k ->]; set_solver).
    assert (Hskip : ok e = false -> exists s', Ok s1 = Ok s' /\ {[at_]} ∪ D s ⊆ D s' /\
      (forall x, x ∈ D s' -> x ∈ D s \/ exists p, walk adj ok at_ p x) /\
      (forall x e, x ∈ D s' -> x ∉ {[at_]} ∪ D s -> e ∈ GetNeighbors adj x -> ok e = true -> dst_index e ∈ D s') /\
      (forall e', e' ∈ l ++ [e] -> ok e' = true -> dst_index e' ∈ D s')).
    { intros Hok. exists s1. split_and!; [done..|].
      intros e' [| ->%list_elem_of_singleton]%elem_of_app Hok'; [by apply H4|congruence]. }
    unfold step. unfold usable, CanExcludeLink, CanExcludeNode in Hskip.
    destruct (ExclusionSet.ShouldExcludeLink excl (link_index e)) eqn:E1; [by apply Hskip|].
    destruct (ExclusionSet.ShouldExcludeNode excl (dst_index e)) eqn:E2; [by apply Hskip|].
    assert (Hok : ok e = true) by (unfold usable, CanExcludeLink, CanExcludeNode; by rewrite E1, E2).
    destruct (IH (dst_index e) s1) as (s2 & Hs2 & Hin & Hsub & Hr & Hcl).
    { by eapply neighbor_universe. } { by apply Hdec. }
    exists s2. split_and!; [done|set_solver| | |].
    + intros x [Hx|[p Hp]]%Hr; [by apply H2|]. right. exists ([e] ++ p).
      eapply walk_app; [|done]. apply (walk_snoc _ _ _ [] at_ e); [constructor|done..].
    + intros x e' Hx Hx' He' Hok'. destruct (decide (x ∈ D s1)) as [Hx1|Hx1]; [|by eapply Hcl].
      apply Hsub. by eapply H3.
    + intros e' [He'| ->%list_elem_of_singleton]%elem_of_app Hok'; [|done]. apply Hsub. by apply H4.
  - exists s'. split_and!; [done|set_solver|]. split_and!; [set_solver|done|].
    intros x e Hx Hx' He Hok. destruct (decide (x = at_)) as [->|Hne]; [by apply H4|].
    eapply H3; [done|set_solver|done..].
Qed.
End reachable.

(** ** Paths: the enumeration as a pure function *)
Section enumerate.
Context (config : DFSConfig) (dst : nat) (adj : AdjacencyList.t) (excl : ExclusionSet.t).

#[local] Notation ok := (usable excl None None).

(** The ways on from [at_] after [n] links of total delay [d], not entering
    [seen]. *)
Fixpoint ways (fuel : nat) (at_ : nat) (seen : gset nat) (n : nat) (d : Z) : list (list LinkInfo) :=
  match fuel with
  | O => []
  | S fuel' =>
      if (max_hops config <? Z.of_nat n)%Z then []
      else if at_ =? dst then [[]]
      else if (max_distance config <? d)%Z then []
      else if bool_decide (at_ ∈ seen) then []
      else GetNeighbors adj at_ ≫= λ e,
             if ok e then cons e <$> ways fuel' (dst_index e) ({[at_]} ∪ seen) (S n) (d + delay e)%Z
             else []
  end.

(** A way from [u] to [v], first link first. *)
Inductive way : nat -> list LinkInfo -> nat -> Prop :=
| way_nil u : way u [] u
| way_cons u e p v :
    e ∈ GetNeighbors adj u -> ok e = true -> way (dst_index e) p v -> way u (e :: p) v.

Lemma way_walk u p v : way u p v <-> walk adj ok u p v.
Proof.
  split.
  - induction 1 as [u|u e p v He Hok _ IH]; [constructor|].
    apply (walk_app _ _ u [e] (dst_index e)); [|done].
    apply (walk_snoc _ _ u [] u e); [constructor|done..].
  - induction 1 as [u|u p v e _ IH He Hok]; [constructor|].
    induction IH as [u|u e' p v He' Hok' _ IH]; simpl; econstructor; eauto. constructor.
Qed.

(** A simple way within the limits: the nodes are new, and the delay up to each
    node before the last is within [max_distance]. *)
Definition admissible (at_ : nat) (seen : gset nat) (n : nat) (d : Z) (p : list LinkInfo) : Prop :=
  (Z.of_nat (n + length p) <= max_hops config)%Z /\
  NoDup (at_ :: (dst_index <$> p)) /\
  Forall (λ x, x ∉ seen) (at_ :: (dst_index <$> p)) /\
  (forall q r, p = q ++ r -> r <> [] -> (d + cost q <= max_distance config)%Z).

Lemma admissible_cons at_ seen n d e p :
  admissible at_ seen n d (e :: p) <->
  (at_ ∉ seen) /\ (d <= max_distance config)%Z /\
  admissible (dst_index e) ({[at_]} ∪ seen) (S n) (d + delay e) p.
Proof.
  unfold admissible. simpl length. rewrite fmap_cons, Forall_cons, NoDup_cons, (Forall_forall _ (_ :: _)).
  rewrite (Forall_forall _ (dst_index e :: _)). split.
  - intros (Hn & [Hx Hnd] & [Hs Hseen] & Hd). split_and!; [done| |lia|done| |].
    + specialize (Hd [] (e :: p) eq_refl ltac:(done)). simpl in Hd. lia.
    + intros x Hin. specialize (Hseen x Hin). set_solver.
    + intros q r -> Hr. specialize (Hd (e :: q) r eq_refl Hr). simpl in Hd. lia.
  - intros (Hs & Hd & Hn & Hnd & Hseen & Hd'). split_and!; [lia| |done|done| |].
    + intros Hin. specialize (Hseen _ Hin). set_solver.
    + intros x Hin. specialize (Hseen x Hin). set_solver.
    + intros [|y q] r Hq Hr; simplify_eq/=; [lia|]. specialize (Hd' q r eq_refl Hr). lia.
Qed.

Lemma way_end u p v : way u p v -> p <> [] -> v ∈ dst_index <$> p.
Proof.
  induction 1 as [|u e p v He Hok Hw IH]; [done|]. intros _. rewrite fmap_cons.
  destruct p as [|e' p]; [inversion Hw; subst; set_solver|]. set_solver.
Qed.

(** The enumeration lists exactly the admissible ways. *)
Lemma elem_of_ways fuel at_ seen n d p :
  dst ∉ seen -> length p < fuel ->
  p ∈ ways fuel at_ seen n d <-> way at_ p dst /\ admissible at_ seen n d p.
Proof.
  revert at_ seen n d p. induction fuel as [|fuel IH]; intros at_ seen n d p Hdst Hf; [lia|].
  cbn [ways]. destruct (Z.ltb_spec (max_hops config) (Z.of_nat n)) as [Hh|Hh].
  { split; [set_solver|]. intros [_ (Hn & _)]. lia. }
  destruct (Nat.eqb_spec at_ dst) as [->|Hne].
  { rewrite list_elem_of_singleton. split.
    - intros ->. split; [constructor|]. split_and!; simpl.
      + lia.
      + apply NoDup_singleton.
      + by repeat constructor.
      + intros [|] [|]; naive_solver.
    - intros [Hw (_ & Hnd & _)]. destruct p as [|e p]; [done|]. exfalso.
      apply NoDup_cons in Hnd as [Hnd _]. by apply Hnd, (way_end dst). }
  assert (Hp : way at_ p dst -> p <> []) by (intros Hw ->; by inversion Hw).
  destruct (Z.ltb_spec (max_distance config) d) as [Hm|Hm].
  { split; [set_solver|]. intros [Hw (_ & _ & _ & Hd)]. specialize (Hd [] p eq_refl (Hp Hw)).
    simpl in Hd. lia. }
  case_bool_decide as Hs.
  { split; [set_solver|]. intros [_ (_ & _ & Ha & _)]. by apply Forall_cons in Ha as [? _]. }
  rewrite list_elem_of_bind. split.
  - intros (e & Hp' & He). destruct (ok e) eqn:Hok; [|by apply not_elem_of_nil in Hp'].
    apply list_elem_of_fmap in Hp' as (p' & -> & Hp'). simpl in Hf.
    apply IH in Hp' as [Hw Ha]; [|set_solver|lia].
    split; [by econstructor|]. by apply admissible_cons.
  - intros [Hw Ha]. specialize (Hp Hw). destruct Hw as [|u e p v He Hok Hw]; [done|].
    exists e. split; [|done]. rewrite Hok. apply list_elem_of_fmap. exists p. split; [done|].
    simpl in Hf. apply admissible_cons in Ha as (_ & _ & Ha). apply IH; [set_solver|lia|done].
Qed.

Lemma NoDup_ways fuel at_ seen n d :
  (forall u, NoDup (GetNeighbors adj u)) -> NoDup (ways fuel at_ seen n d).
Proof.
  intros Hnd. revert at_ seen n d. induction fuel as [|fuel IH]; intros at_ seen n d; simpl; [constructor|].
  repeat (case_match; [first [apply NoDup_nil_2|apply NoDup_singleton]|]). apply NoDup_bind; [|intros e _|done].
  - intros e1 e2 p _ _ Hp1 Hp2.
    destruct (ok e1); [|by apply not_elem_of_nil in Hp1]. destruct (ok e2); [|by apply not_elem_of_nil in Hp2].
    apply list_elem_of_fmap in Hp1 as (p1 & -> & _). by apply list_elem_of_fmap in Hp2 as (p2 & [= ->] & _).
  - destruct (ok e); [|constructor]. by apply NoDup_fmap; [intros ?? [=]|].
Qed.
End enumerate.

(** ** Paths: the recursion refines the enumeration *)
Section refine.
Context (config : DFSConfig) (dst : nat) (g : GraphStorage.t) (cs : ConstraintSet.t) (src : nat) (M : Z).
#[local] Notation adj := (GraphStorage.adjacency_list_ g).
#[local] Notation excl := (ConstraintSet.exclusion_set_ cs).
#[local] Notation items := (PerfectHashStore.items_ (GraphStorage.link_store_ g)).

Hypothesis Hsimple : simple config = true.
Hypothesis Hwf : AdjacencyList.wf adj.
Hypothesis Hdelays : delays_ok adj M.
Hypothesis Hcs : ConstraintSet.wf cs.
(** The adjacency list and the link store agree. *)
Hypothesis Hlinks : forall u e, e ∈ GetNeighbors adj u ->
  exists l, items !! link_index e = Some l /\ Graph.src l = u /\ Graph.dst l = dst_index e.

Definition complies (links : Links) : bool :=
  match ConstraintSet.MinVisit cs links g with
  | Ok v => (v =? Z.of_nat (length (ConstraintSet.to_visit_ cs)))%Z
  | Fail _ => false
  end.

(** What is handed to the callback for the ways on from a position. *)
Definition emit (cur : Links) (d : Z) (ws : list (list LinkInfo)) : list Walk.t :=
  omap (λ p, let links := cur ++ (link_index <$> p) in
             if complies links then Some (Walk.mk links (d + cost p)%Z) else None) ws.

Definition resolved (links : Links) : Prop := Forall (λ i, is_Some (items !! i)) links.

Lemma MinVisit_resolved links : resolved links -> exists v, ConstraintSet.MinVisit cs links g = Ok v.
Proof.
  intros Hr. destruct (decide (links = [])) as [->|Hne]; [by exists 0%Z|].
  apply (mapM_is_Some_2 (λ i, items !! i)) in Hr as [p Hp].
  rewrite (ConstraintSet.MinVisit_scan cs g links p Hcs Hne Hp). eauto.
Qed.

(** A recursive call leaves everything but the output as it was. *)
Record returns (st : dfs_state) (new : list Walk.t) (st' : dfs_state) : Prop := {
  ret_links : links_seen st' = links_seen st;
  ret_nodes : PerfectHashSet.denote (nodes_seen st') = PerfectHashSet.denote (nodes_seen st);
  ret_current : current st' = current st;
  ret_total : total_distance st' = total_distance st;
  ret_out : called_with st' = called_with st ++ new
}.

(** The state at a call: as many nodes as links were passed. *)
Record call_ok (at_ : nat) (st : dfs_state) : Prop := {
  call_at : at_ ∈ universe adj src;
  call_sub : PerfectHashSet.denote (nodes_seen st) ⊆ universe adj src;
  call_dst : dst ∉ PerfectHashSet.denote (nodes_seen st);
  call_res : resolved (current st);
  call_total : (0 <= total_distance st <= M * Z.of_nat (size (PerfectHashSet.denote (nodes_seen st))))%Z
}.

Lemma universe_fits (X : gset nat) : X ⊆ universe adj src -> (M * Z.of_nat (size X) < Delay_max)%Z.
Proof.
  intros HX%subseteq_size. pose proof (universe_size adj src). destruct Hdelays as (HM & _ & Hfit).
  eapply Z.le_lt_trans; [|exact Hfit]. apply Z.mul_le_mono_nonneg_l; [done|]. lia.
Qed.

Lemma emit_app cur d ws1 ws2 : emit cur d (ws1 ++ ws2) = emit cur d ws1 ++ emit cur d ws2.
Proof. apply omap_app. Qed.

Lemma emit_cons cur d e ws :
  emit (cur ++ [link_index e]) (d + delay e)%Z ws = emit cur d (cons e <$> ws).
Proof.
  unfold emit. induction ws as [|p ws IH]; [done|]. rewrite fmap_cons. cbn [omap list_omap].
  rewrite IH, fmap_cons, <-app_assoc. simpl. by replace (d + delay e + cost p)%Z with (d + (delay e + cost p))%Z by lia.
Qed.

Lemma follow_link_spec fuel st at_ e :
  (forall u s, call_ok u s -> size (universe adj src ∖ PerfectHashSet.denote (nodes_seen s)) < fuel ->
     exists s', PathsRecursive config dst g cs fuel u s = Ok s' /\
       returns s (emit (current s) (total_distance s)
         (ways config dst adj excl fuel u (PerfectHashSet.denote (nodes_seen s))
            (length (current s)) (total_distance s))) s') ->
  e ∈ GetNeighbors adj at_ ->
  PerfectHashSet.denote (nodes_seen st) ⊆ universe adj src -> dst ∉ PerfectHashSet.denote (nodes_seen st) ->
  resolved (current st) -> at_ ∈ PerfectHashSet.denote (nodes_seen st) ->
  (0 <= total_distance st <= M * (Z.of_nat (size (PerfectHashSet.denote (nodes_seen st))) - 1))%Z ->
  size (universe adj src ∖ PerfectHashSet.denote (nodes_seen st)) < fuel ->
  exists st', follow_link config cs (PathsRecursive config dst g cs fuel) st e = Ok st' /\
    returns st (if usable excl None None e
      then emit (current st) (total_distance st)
             (cons e <$> ways config dst adj excl fuel (dst_index e) (PerfectHashSet.denote (nodes_seen st))
                (S (length (current st))) (total_distance st + delay e)%Z)
      else []) st'.
Proof.
  intros IH He Hsub Hdst Hres Hat Htot Hf. unfold follow_link, usable, CanExcludeLink, CanExcludeNode.
  unfold ConstraintSet.ShouldExcludeLink, ConstraintSet.ShouldExcludeNode. rewrite Hsimple.
  assert (Hskip : exists st', Ok st = Ok st' /\ returns st [] st').
  { exists st. split; [done|]. split; try done. by rewrite app_nil_r. }
  destruct (ExclusionSet.ShouldExcludeLink excl (link_index e)); [done|].
  destruct (ExclusionSet.ShouldExcludeNode excl (dst_index e)); [done|].
  cbn [negb andb].
  destruct Hdelays as (HM & Hpos & _). pose proof (Hpos _ _ He) as Hd.
  pose proof (universe_fits _ Hsub) as Hfit.
  rewrite delay_add_Ok by lia. cbn [mbind outcome_bind].
  destruct (IH (dst_index e) (mkDfs (links_seen st) (nodes_seen st) (current st ++ [link_index e])
    (total_distance st + delay e)%Z (called_with st))) as (s' & -> & Hr).
  { split; cbn [nodes_seen current total_distance]; [|done|done| |lia].
    - unfold universe. apply elem_of_union_r, PerfectHashSet.elem_of_denote, (proj2 Hwf _ _ He).
    - apply Forall_app. split; [done|]. constructor; [|done]. destruct (Hlinks _ _ He) as (l & -> & _). eauto. }
  { done. }
  destruct Hr as [R1 R2 R3 R4 R5]. cbn [links_seen nodes_seen current total_distance called_with] in *.
  cbn [mbind outcome_bind]. rewrite R4, delay_add_Ok by lia. cbn [mbind outcome_bind].
  eexists. split; [done|]. split; cbn [links_seen nodes_seen current total_distance called_with]; try done.
  - rewrite R3. by rewrite removelast_last.
  - lia.
  - rewrite R5, emit_cons, length_app. simpl. by rewrite Nat.add_1_r.
Qed.

Lemma emit_nil cur d : emit cur d [[]] = if complies cur then [Walk.mk cur d] else [].
Proof.
  unfold emit. cbn [omap list_omap fmap list_fmap]. rewrite app_nil_r.
  change (cost []) with 0%Z. rewrite Z.add_0_r. by destruct (complies cur).
Qed.

Lemma PathsRecursive_spec fuel at_ st :
  call_ok at_ st -> size (universe adj src ∖ PerfectHashSet.denote (nodes_seen st)) < fuel ->
  exists st', PathsRecursive config dst g cs fuel at_ st = Ok st' /\
    returns st (emit (current st) (total_distance st)
      (ways config dst adj excl fuel at_ (PerfectHashSet.denote (nodes_seen st))
         (length (current st)) (total_distance st))) st'.
Proof.
  revert at_ st. induction fuel as [|fuel IH]; intros at_ st [C1 C2 C3 C4 C5] Hf; [lia|].
  cbn [PathsRecursive ways]. rewrite Hsimple.
  assert (Hskip : exists st', Ok st = Ok st' /\ returns st [] st').
  { exists st. split; [done|]. split; try done. by rewrite app_nil_r. }
  destruct (max_hops config <? Z.of_nat (length (current st)))%Z; [done|].
  destruct (Nat.eqb_spec at_ dst) as [->|Hne].
  { rewrite emit_nil. destruct (MinVisit_resolved _ C4) as [v Hv]. unfold complies. rewrite Hv.
    cbn [mbind outcome_bind]. destruct (v =? _)%Z; [|done]. cbn [negb]. eexists. split; [done|]. done. }
  destruct (max_distance config <? total_distance st)%Z; [done|]. cbn [andb].
  destruct (PerfectHashSet.Contains (nodes_seen st) at_) eqn:Hc.
  { rewrite bool_decide_true by (by apply PerfectHashSet.elem_of_denote). done. }
  assert (Hn : at_ ∉ PerfectHashSet.denote (nodes_seen st)).
  { rewrite PerfectHashSet.elem_of_denote. congruence. }
  rewrite bool_decide_false by done.
  set (st0 := mkDfs (links_seen st) (PerfectHashSet.Insert (nodes_seen st) at_) (current st)
                (total_distance st) (called_with st)).
  assert (HD : PerfectHashSet.denote (nodes_seen st0) = {[at_]} ∪ PerfectHashSet.denote (nodes_seen st))
    by apply denote_Insert.
  assert (Hsize : size ({[at_]} ∪ PerfectHashSet.denote (nodes_seen st)) =
                  1 + size (PerfectHashSet.denote (nodes_seen st))).
  { rewrite size_union, size_singleton by set_solver. done. }
  assert (Hlt : size (universe adj src ∖ ({[at_]} ∪ PerfectHashSet.denote (nodes_seen st))) < fuel).
  { eapply Nat.lt_le_trans; [apply (subset_size _ (universe adj src ∖ PerfectHashSet.denote (nodes_seen st)))|lia].
    set_solver. }
  set (f := λ e, if usable excl None None e then _ else _).
  destruct (mfold_inv (λ l s, returns st0 (emit (current st) (total_distance st) (l ≫= f)) s)
    (follow_link config cs (PathsRecursive config dst g cs fuel)) (GetNeighbors adj at_) st0)
    as (s' & Hs' & [R1 R2 R3 R4 R5]).
  - split; try done. by rewrite app_nil_r.
  - intros l e s Hpre [R1 R2 R3 R4 R5].
    assert (He : e ∈ GetNeighbors adj at_) by (destruct Hpre as [k ->]; set_solver).
    destruct (follow_link_spec fuel s at_ e IH He) as (s2 & Hs2 & [Q1 Q2 Q3 Q4 Q5]).
    { rewrite R2, HD. apply union_least; [by apply singleton_subseteq_l|done]. }
    { rewrite R2, HD, not_elem_of_union, elem_of_singleton. by split. }
    { by rewrite R3. }
    { rewrite R2, HD. by apply elem_of_union_l, elem_of_singleton. }
    { rewrite R2, HD, R4, Hsize. cbn [total_distance st0]. lia. }
    { by rewrite R2, HD. }
    exists s2. split; [done|]. split; try congruence.
    rewrite Q5, R5, <-app_assoc, bind_app, emit_app. cbn [mbind list_bind]. rewrite app_nil_r.
    rewrite R2, HD, R3, R4. do 2 f_equal. unfold f. by destruct (usable excl None None e).
  - rewrite Hs'. cbn [mbind outcome_bind]. eexists. split; [done|].
    split; cbn [links_seen nodes_seen current total_distance called_with]; try done.
    rewrite denote_Remove, R2, HD. set_solver.
Qed.
End refine.

(** ** Properties *)

(** [ReachableNodes] terminates and returns exactly the nodes to which there
    is a walk from the source over links that are not excluded into nodes that
    are not excluded (the source itself is always included). *)
Theorem ReachableNodes_correct src g excl :
  AdjacencyList.wf (GraphStorage.adjacency_list_ g) ->
  exists s, ReachableNodes src g excl = Ok s /\
    forall v, PerfectHashSet.Contains s v = true <->
      exists p, walk (GraphStorage.adjacency_list_ g) (usable excl None None) src p v.
Proof.
  intros Hwf. unfold ReachableNodes. set (adj := GraphStorage.adjacency_list_ g) in *.
  destruct (ReachableNodesRecursive_spec adj excl Hwf src (search_depth adj) src PerfectHashSet.empty)
    as (s & Hs & Hin & Hsub & Hr & Hcl).
  { unfold universe. set_solver. }
  { unfold search_depth. pose proof (universe_size adj src).
    pose proof (subseteq_size (universe adj src ∖ PerfectHashSet.denote PerfectHashSet.empty)
                  (universe adj src) ltac:(set_solver)). lia. }
  exists s. split; [done|]. intros v. rewrite <-PerfectHashSet.elem_of_denote. split.
  - intros [Hv|Hv]%Hr; [|done]. by apply not_elem_of_empty in Hv.
  - intros [p Hp]. remember src as u eqn:Hu. revert Hu.
    induction Hp as [u|u p v e _ IH He Hok]; intros ->; [done|].
    eapply Hcl; [by apply IH|apply not_elem_of_empty|done..].
Qed.

(** *** Storages built from a builder *)
Section built.
Context (b : GraphBuilder.t) (g : GraphStorage.t).
#[local] Notation ls := (GraphBuilder.links_ b).
#[local] Notation adj := (GraphStorage.adjacency_list_ g).
#[local] Notation items := (PerfectHashStore.items_ (GraphStorage.link_store_ g)).

Hypothesis Hlen : fits kIndexBits (length ls).
Hypothesis Hnames : fits kIndexBits (size (GraphStorage.names ls)).
Hypothesis Hg : GraphStorage.construct b [] = Ok g.

Lemma built_populated :
  GraphStorage.populated items (length ls) adj (GraphStorage.simple_ g).
Proof.
  destruct (GraphStorage.construct_no_order b Hlen Hnames) as (g' & H & _ & Hp).
  rewrite Hg in H. by injection H as <-.
Qed.

Lemma built_neighbor u e :
  e ∈ GetNeighbors adj u ->
  exists l, items !! link_index e = Some l /\ Graph.src l = u /\ Graph.dst l = dst_index e /\
    e = GraphStorage.info_of (link_index e) l.
Proof.
  rewrite (GraphStorage.pop_neighbors _ _ _ _ built_populated).
  intros (i & l & _ & Hl & Hs & ->)%GraphStorage.elem_of_out_links. by exists l.
Qed.

Lemma built_index_inj u e1 e2 :
  e1 ∈ GetNeighbors adj u -> e2 ∈ GetNeighbors adj u -> link_index e1 = link_index e2 -> e1 = e2.
Proof.
  intros (l1 & H1 & _ & _ & E1)%built_neighbor (l2 & H2 & _ & _ & E2)%built_neighbor Heq.
  rewrite E1, E2, Heq. f_equal. congruence.
Qed.

Lemma built_NoDup u : NoDup (GetNeighbors adj u).
Proof.
  rewrite (GraphStorage.pop_neighbors _ _ _ _ built_populated). unfold GraphStorage.out_links.
  generalize (length ls). intros n. induction n as [|n IH]; [constructor|].
  rewrite seq_S, omap_app. apply NoDup_app. split_and!; [done| |].
  - intros e (i & Hi%elem_of_seq & He)%list_elem_of_omap (j & Hj & He')%list_elem_of_omap.
    apply list_elem_of_singleton in Hj as ->.
    destruct (items !! i); simplify_eq/=. destruct (items !! n); simplify_eq/=.
    repeat case_decide; simplify_eq/=. lia.
  - simpl. destruct (items !! n); simpl; [case_decide|]; simpl; repeat constructor; set_solver.
Qed.
End built.

Section ways_lemmas.
Context (adj : AdjacencyList.t) (excl : ExclusionSet.t).

Lemma ways_length config dst fuel at_ seen n d p :
  p ∈ ways config dst adj excl fuel at_ seen n d -> length p < fuel.
Proof.
  revert at_ seen n d p. induction fuel as [|fuel IH]; intros at_ seen n d p; cbn [ways].
  { by intros ?%not_elem_of_nil. }
  destruct (_ <? _)%Z; [by intros ?%not_elem_of_nil|].
  destruct (at_ =? dst); [intros ->%list_elem_of_singleton; simpl; lia|].
  destruct (_ <? _)%Z; [by intros ?%not_elem_of_nil|].
  case_bool_decide; [by intros ?%not_elem_of_nil|].
  intros (e & Hp & _)%list_elem_of_bind. destruct (usable _ _ _ e); [|by apply not_elem_of_nil in Hp].
  apply list_elem_of_fmap in Hp as (p' & -> & Hp'%IH). simpl. lia.
Qed.

Lemma way_length src dst p :
  AdjacencyList.wf adj -> way adj excl src p dst -> NoDup (src :: (dst_index <$> p)) ->
  length p < search_depth adj.
Proof.
  intros Hwf Hw Hnd. apply way_walk in Hw.
  assert (Hin : forall x, x ∈ src :: (dst_index <$> p) -> x ∈ universe adj src).
  { intros x [->|(e & -> & He)%list_elem_of_fmap]%elem_of_cons; unfold universe; [set_solver|].
    apply elem_of_union_r, PerfectHashSet.elem_of_denote. clear Hnd.
    induction Hw as [|u p v e' Hw IH He' Hok]; [by apply not_elem_of_nil in He|].
    apply elem_of_app in He as [He| ->%list_elem_of_singleton]; [by apply IH|].
    by apply (proj2 Hwf v e'). }
  assert (Hsz : length (src :: (dst_index <$> p)) <= size (universe adj src)).
  { rewrite <-(size_list_to_set (C := gset nat)) by done. apply subseteq_size.
    intros x. rewrite elem_of_list_to_set. apply Hin. }
  simpl in Hsz. rewrite length_fmap in Hsz. pose proof (universe_size adj src).
  unfold search_depth. lia.
Qed.

Lemma way_inj u p1 p2 v1 v2 :
  (forall u e1 e2, e1 ∈ GetNeighbors adj u -> e2 ∈ GetNeighbors adj u ->
     link_index e1 = link_index e2 -> e1 = e2) ->
  way adj excl u p1 v1 -> way adj excl u p2 v2 -> link_index <$> p1 = link_index <$> p2 -> p1 = p2.
Proof.
  intros Hinj H1. revert p2 v2. induction H1 as [u|u e p v He Hok _ IH]; intros p2 v2 H2 Heq.
  - by destruct p2.
  - destruct H2 as [|u e' p' v' He' Hok' H2]; [done|]. injection Heq as Hi Hp.
    assert (e = e') as <- by by apply (Hinj u). f_equal. by eapply IH.
Qed.
End ways_lemmas.

Lemma NoDup_omap_inj {A B} (f : A -> option B) (l : list A) :
  (forall x1 x2 y, x1 ∈ l -> x2 ∈ l -> f x1 = Some y -> f x2 = Some y -> x1 = x2) ->
  NoDup l -> NoDup (omap f l).
Proof.
  intros Hinj Hnd. induction Hnd as [|x l Hx _ IH]; [constructor|]. cbn [omap list_omap].
  assert (IH' : NoDup (omap f l)) by (apply IH; intros; eapply Hinj; [set_solver..|done|done]).
  destruct (f x) as [y|] eqn:Hf; [|done]. constructor; [|done].
  intros (x' & Hx' & Hf')%list_elem_of_omap. apply Hx.
  assert (x = x') as ->; [|done]. eapply Hinj; [set_solver..|done|done].
Qed.

(** The links of a way resolve to links of the storage along the same nodes. *)
Lemma way_resolves g excl u p v :
  (forall u e, e ∈ GetNeighbors (GraphStorage.adjacency_list_ g) u ->
     exists l, PerfectHashStore.items_ (GraphStorage.link_store_ g) !! link_index e = Some l /\
       Graph.src l = u /\ Graph.dst l = dst_index e) ->
  way (GraphStorage.adjacency_list_ g) excl u p v ->
  exists ls, mapM (λ i, PerfectHashStore.items_ (GraphStorage.link_store_ g) !! i) (link_index <$> p) = Some ls /\
    Graph.dst <$> ls = dst_index <$> p /\ (p <> [] -> path_nodes ls = u :: (dst_index <$> p)).
Proof.
  intros Hl. induction 1 as [u|u e p v He Hok Hw (ls & Hm & Hd & _)]; [by exists []|].
  destruct (Hl u e He) as (l & Hi & Hs & Hdst). exists (l :: ls).
  split_and!.
  - rewrite fmap_cons. simpl. rewrite Hi. simpl. by rewrite Hm.
  - by rewrite !fmap_cons, Hdst, Hd.
  - intros _. unfold path_nodes. by rewrite !fmap_cons, Hs, Hdst, Hd.
Qed.

(** The visit constraints of a walk from [src] along the links [p]; a walk
    without links satisfies them only when there are none. *)
Definition satisfies_visits (cs : ConstraintSet.t) (src : nat) (p : list LinkInfo) : Prop :=
  match p with
  | [] => ConstraintSet.to_visit_ cs = []
  | _ => ConstraintSet.visits_in_order cs (src :: (dst_index <$> p))
  end.

Lemma complies_spec g cs excl u p v :
  ConstraintSet.wf cs ->
  (forall u e, e ∈ GetNeighbors (GraphStorage.adjacency_list_ g) u ->
     exists l, PerfectHashStore.items_ (GraphStorage.link_store_ g) !! link_index e = Some l /\
       Graph.src l = u /\ Graph.dst l = dst_index e) ->
  way (GraphStorage.adjacency_list_ g) excl u p v ->
  complies g cs (link_index <$> p) = true <-> satisfies_visits cs u p.
Proof.
  intros Hcs Hl Hw. unfold complies. destruct p as [|e p].
  { cbn [fmap list_fmap ConstraintSet.MinVisit satisfies_visits]. rewrite Z.eqb_eq.
    destruct (ConstraintSet.to_visit_ cs); [by split|]. simpl length. split; [lia|done]. }
  destruct (way_resolves g excl u (e :: p) v Hl Hw) as (ls & Hm & _ & Hn).
  assert (Hne : link_index <$> e :: p <> []) by (rewrite fmap_cons; discriminate).
  destruct (MinVisit_complete cs g (link_index <$> e :: p) ls Hcs Hne Hm) as (n & -> & Hiff).
  rewrite Z.eqb_eq, Hiff, Hn by done. done.
Qed.

(** C37: in its default mode, on a storage built from a builder, [Paths]
    terminates, and the walks it hands to the callback are, each once, exactly
    the paths from the source to the destination that use no excluded link and
    enter no excluded node, visit no node twice, have at most [max_hops] links,
    satisfy the visit constraints, and whose delay up to the node before the
    last is within [max_distance] (the delay of the last link is not counted). *)
Theorem Paths_simple_correct (b : GraphBuilder.t) g cs config src dst M :
  let ls := GraphBuilder.links_ b in
  let adj := GraphStorage.adjacency_list_ g in
  fits kIndexBits (length ls) -> fits kIndexBits (size (GraphStorage.names ls)) ->
  GraphStorage.construct b [] = Ok g -> delays_ok adj M -> ConstraintSet.wf cs ->
  simple config = true ->
  exists out, Paths src dst g cs config = Ok out /\ NoDup out /\
    forall w, w ∈ out <-> exists p,
      walk adj (usable (ConstraintSet.exclusion_set_ cs) None None) src p dst /\
      w = Walk.mk (link_index <$> p) (cost p) /\
      NoDup (src :: (dst_index <$> p)) /\ (Z.of_nat (length p) <= max_hops config)%Z /\
      satisfies_visits cs src p /\
      forall q r, p = q ++ r -> r <> [] -> (cost q <= max_distance config)%Z.
Proof.
  intros ls adj Hlen Hnames Hg Hdel Hcs Hsimple.
  set (excl := ConstraintSet.exclusion_set_ cs).
  pose proof (GraphStorage.pop_wf _ _ _ _ (built_populated b g Hlen Hnames Hg)) as Hwf. fold adj in Hwf.
  assert (Hlinks : forall u e, e ∈ GetNeighbors adj u ->
    exists l, PerfectHashStore.items_ (GraphStorage.link_store_ g) !! link_index e = Some l /\
       Graph.src l = u /\ Graph.dst l = dst_index e).
  { intros u e He. destruct (built_neighbor b g Hlen Hnames Hg u e He) as (l & ? & ? & ? & _). eauto. }
  set (ws := ways config dst adj excl (search_depth adj) src ∅ 0 0).
  destruct (PathsRecursive_spec config dst g cs src M Hsimple Hwf Hdel Hcs Hlinks (search_depth adj) src
    (mkDfs PerfectHashSet.empty PerfectHashSet.empty [] 0%Z [])) as (st & Hst & [_ _ _ _ Hout]).
  { split; cbn [nodes_seen current total_distance];
      change (PerfectHashSet.denote PerfectHashSet.empty) with (∅ : gset nat).
    - unfold universe. set_solver.
    - set_solver.
    - set_solver.
    - constructor.
    - rewrite size_empty. lia. }
  { cbn [nodes_seen]. change (PerfectHashSet.denote PerfectHashSet.empty) with (∅ : gset nat). fold adj.
    rewrite difference_empty_L. fold adj. pose proof (universe_size adj src). unfold search_depth. lia. }
  exists (called_with st). unfold Paths, paths_fuel. rewrite Hsimple. fold adj. rewrite Hst.
  cbn [mbind outcome_bind]. split; [done|]. rewrite Hout. cbn [called_with current total_distance nodes_seen length app].
  change (PerfectHashSet.denote PerfectHashSet.empty) with (∅ : gset nat). fold adj excl ws.
  assert (Hws : forall p, p ∈ ws <-> way adj excl src p dst /\ admissible config src ∅ 0 0 p).
  { intros p. split.
    - intros Hp. pose proof (ways_length _ _ _ _ _ _ _ _ _ _ Hp).
      apply elem_of_ways in Hp; [done|set_solver|done].
    - intros [Hw Ha]. apply elem_of_ways; [set_solver| |done].
      apply (way_length adj excl src dst); [done..|]. apply Ha. }
  split.
  - apply NoDup_omap_inj; [|apply NoDup_ways; by eapply built_NoDup].
    intros p1 p2 w [H1 _]%Hws [H2 _]%Hws E1 E2. simpl in E1, E2.
    repeat case_match; simplify_eq. eapply way_inj; [|done..].
    intros u e1 e2. by apply (built_index_inj b g).
  - intros w. unfold emit. rewrite list_elem_of_omap. split.
    + intros (p & [Hw (Hh & Hnd & _ & Hd)]%Hws & He). simpl in He.
      destruct (complies g cs (link_index <$> p)) eqn:Hc; [|done]. injection He as <-.
      exists p. split_and!; [by apply way_walk|done|done|lia| |].
      * by apply (complies_spec g cs excl src p dst).
      * intros q r Hq Hr. specialize (Hd q r Hq Hr). lia.
    + intros (p & Hw%way_walk & -> & Hnd & Hh & Hv & Hd). exists p. split.
      * apply Hws. split; [done|]. split_and!; [lia|done| |].
        -- apply Forall_forall. intros x _. set_solver.
        -- intros q r Hq Hr. specialize (Hd q r Hq Hr). lia.
      * simpl. rewrite (proj2 (complies_spec g cs excl src p dst Hcs Hlinks Hw) Hv). done.
Qed.

(** Decides a statement about all links out of a node of a concrete graph. *)
Ltac each_neighbor :=
  intros [|[|[|u]]] e He; vm_compute in He;
  repeat (apply elem_of_cons in He as [->|He]; [done|]); by apply not_elem_of_nil in He.

Lemma ReachableNodes_correct_witness :
  match GraphStorage.construct (GraphBuilder.mk true triangle) [] with
  | Ok g => exists s, ReachableNodes 2 g ExclusionSet.empty = Ok s /\ PerfectHashSet.Contains s 0 = false
  | Fail _ => False
  end.
Proof.
  destruct (GraphStorage.construct (GraphBuilder.mk true triangle) []) as [g|] eqn:E.
  - vm_compute in E. injection E as <-.
    match goal with |- context [ReachableNodes ?s ?g ?x] =>
      destruct (ReachableNodes_correct s g x) as (r & H & _)
    end.
    + split; [intros [|[|u]]; done|each_neighbor].
    + exists r. split; [exact H|]. vm_compute in H. injection H as <-. reflexivity.
  - vm_compute in E. discriminate.
Defined.

Lemma Paths_simple_correct_witness :
  match GraphStorage.construct (GraphBuilder.mk true triangle) [] with
  | Ok g => exists out, Paths 0 2 g ConstraintSet.init default_config = Ok out /\
              out = [Walk.mk [0; 1] 12%Z; Walk.mk [2] 20%Z]
  | Fail _ => False
  end.
Proof.
  destruct (GraphStorage.construct (GraphBuilder.mk true triangle) []) as [g|] eqn:E.
  - destruct (Paths_simple_correct (GraphBuilder.mk true triangle) g ConstraintSet.init default_config
      0 2 20) as (out & H & _).
    + vm_compute. reflexivity.
    + vm_compute. reflexivity.
    + exact E.
    + vm_compute in E. injection E as <-. split; [done|]. split; [each_neighbor|done].
    + apply ConstraintSet.wf_init.
    + reflexivity.
    + exists out. split; [exact H|]. vm_compute in E. injection E as <-.
      vm_compute in H. injection H as <-. reflexivity.
  - vm_compute in E. discriminate.
Defined.
