(* ===== verification/Trie.v ===== *)
(** Model of [Trie] ([src/src/net/trie.h]): a trie whose nodes list the values
    of all sequences that pass through them, children in insertion order.  A
    lookup is proved to return exactly the values of the sequences that have
    the prefix, in the order they were added. *)

From S2P Require Import Prelude.

Module Trie.
Section trie.
Context {T V : Type} `{EqDecision T}.

Inductive TrieNode : Type :=
| mkTrieNode (values : list V) (children : list (T * TrieNode)).

Definition values (n : TrieNode) : list V := let 'mkTrieNode v _ := n in v.
Definition children (n : TrieNode) : list (T * TrieNode) := let 'mkTrieNode _ c := n in c.
Definition empty_node : TrieNode := mkTrieNode [] [].

(** The first child with the element. *)
Fixpoint find_child (element : T) (cs : list (T * TrieNode)) : option TrieNode :=
  match cs with
  | [] => None
  | (t, n) :: cs' => if decide (t = element) then Some n else find_child element cs'
  end.

(** Apply [f] to the child with the element, which is added if missing. *)
Fixpoint update_child (element : T) (f : TrieNode -> TrieNode) (cs : list (T * TrieNode))
  : list (T * TrieNode) :=
  match cs with
  | [] => [(element, f empty_node)]
  | (t, n) :: cs' => if decide (t = element) then (t, f n) :: cs' else (t, n) :: update_child element f cs'
  end.

Fixpoint AddRecursive (sequence : list T) (value : V) (at_ : TrieNode) : TrieNode :=
  match sequence with
  | [] => mkTrieNode (values at_ ++ [value]) (children at_)
  | element :: rest =>
      mkTrieNode (values at_ ++ [value]) (update_child element (AddRecursive rest value) (children at_))
  end.

Definition Add (root : TrieNode) (sequence : list T) (value : V) : outcome TrieNode :=
  _ ← check (negb (bool_decide (sequence = [])));
  Ok (AddRecursive sequence value root).

Fixpoint HasPrefixRecursive (prefix : list T) (at_ : TrieNode) : outcome (list V) :=
  match prefix with
  | [] => Fail CheckFailed
  | element :: rest =>
      match find_child element (children at_) with
      | None => Ok []
      | Some in_trie =>
          match rest with
          | [] => Ok (values in_trie)
          | _ => HasPrefixRecursive rest in_trie
          end
      end
  end.

Definition SequencesWithPrefix (root : TrieNode) (prefix : list T) : outcome (list V) :=
  match prefix with
  | [] => Ok (values root)
  | _ => HasPrefixRecursive prefix root
  end.

(** *** Lookup after insertion *)

Fixpoint values_at (n : TrieNode) (prefix : list T) : list V :=
  match prefix with
  | [] => values n
  | e :: rest => match find_child e (children n) with None => [] | Some n' => values_at n' rest end
  end.

Lemma SequencesWithPrefix_values_at n prefix : SequencesWithPrefix n prefix = Ok (values_at n prefix).
Proof.
  destruct prefix as [|e rest]; [done|]. unfold SequencesWithPrefix.
  revert n e. induction rest as [|e' rest IH]; intros n e; simpl; destruct (find_child e (children n)); try done.
  specialize (IH t e'). simpl in IH. done.
Qed.

Lemma find_update e e' f cs :
  find_child e (update_child e' f cs) =
    if decide (e = e') then Some (f (default empty_node (find_child e cs))) else find_child e cs.
Proof.
  induction cs as [|[t n] cs IH]; simpl; [by repeat case_decide; subst|].
  destruct (decide (t = e')) as [->|Hne]; simpl.
  - destruct (decide (e' = e)) as [->|]; [by rewrite decide_True|by rewrite decide_False].
  - destruct (decide (t = e)) as [->|]; [by rewrite decide_False|]. done.
Qed.

Lemma values_at_empty prefix : values_at empty_node prefix = [].
Proof. by destruct prefix. Qed.

Lemma values_at_Add s v n prefix :
  values_at (AddRecursive s v n) prefix =
    values_at n prefix ++ (if decide (prefix `prefix_of` s) then [v] else []).
Proof.
  revert n prefix. induction s as [|x s IH]; intros n [|e rest]; cbn [AddRecursive values_at values children].
  - by rewrite decide_True by apply prefix_nil.
  - rewrite decide_False by apply prefix_nil_not. by rewrite app_nil_r.
  - by rewrite decide_True by apply prefix_nil.
  - rewrite find_update. destruct (decide (e = x)) as [->|Hne].
    + rewrite IH. destruct (find_child x (children n)); simpl; [|rewrite values_at_empty; simpl];
        (destruct (decide (rest `prefix_of` s)) as [H|H];
         [rewrite decide_True by (by apply prefix_cons)|rewrite decide_False by (by intros ?%prefix_cons_inv_2)]); done.
    + rewrite decide_False by (by intros ?%prefix_cons_inv_1). by rewrite app_nil_r.
Qed.
End trie.
Arguments TrieNode : clear implicits.
End Trie.

(** ** Properties *)

Import Trie.

(** after any series of [Add]s of non-empty sequences to an empty trie (no
    [Add] fails), a lookup of any prefix returns the values of exactly the
    sequences that start with it, in the order they were added. *)
Theorem Trie_lookup_spec {T V} `{EqDecision T} (added : list (list T * V)) (prefix : list T) :
  Forall (λ sv, sv.1 <> []) added ->
  exists root, mfold (λ n sv, Add n sv.1 sv.2) added empty_node = Ok root /\
    SequencesWithPrefix root prefix =
      Ok (snd <$> filter (λ sv, prefix `prefix_of` sv.1) added).
Proof.
  intros Hall. induction added as [|[s v] added IH] using rev_ind.
  { exists empty_node. split; [done|]. by rewrite SequencesWithPrefix_values_at, values_at_empty. }
  apply Forall_app in Hall as [Hall [Hs _]%Forall_cons]. destruct (IH Hall) as (root & Hr & Hl).
  rewrite mfold_app, Hr. cbn [mbind outcome_bind mfold fst snd]. unfold Add.
  rewrite bool_decide_false by done. cbn [negb check mbind outcome_bind].
  eexists. split; [done|]. rewrite SequencesWithPrefix_values_at, values_at_Add.
  rewrite SequencesWithPrefix_values_at in Hl. injection Hl as ->.
  rewrite filter_app, fmap_app, filter_cons. simpl. by case_decide.
Qed.

Lemma Trie_lookup_spec_witness :
  exists root, mfold (λ n sv, Add n sv.1 sv.2) [([1; 2; 3], 10); ([1; 4], 20); ([1; 2], 30)] empty_node = Ok root /\
    SequencesWithPrefix root [1; 2] = Ok [10; 30].
Proof.
  destruct (Trie_lookup_spec [([1; 2; 3], 10); ([1; 4], 20); ([1; 2], 30)] [1; 2]) as (root & H & L).
  - repeat constructor; discriminate.
  - exists root. split; [exact H|]. rewrite L. vm_compute. reflexivity.
Defined.
