(* ===== verification/Yen.v ===== *)
(** The combinatorics of Yen's algorithm in Lawler's form, on an abstract set
    of paths none of which is a proper prefix of another.  Emitted paths and
    the roots at which paths may leave them partition the paths that are still
    to come; the generator of [KShortestPaths.v] maintains this partition. *)

From S2P Require Import Prelude.

Section prefixes.
Context {A : Type}.
Implicit Types l k w : list A.

Lemma prefix_eq_take l w : l `prefix_of` w <-> l = take (length l) w.
Proof.
  split; [intros [k ->]; by rewrite take_app_length|]. intros ->. apply prefix_take.
Qed.

Lemma prefix_shorter l1 l2 w :
  l1 `prefix_of` w -> l2 `prefix_of` w -> length l1 <= length l2 -> l1 `prefix_of` l2.
Proof.
  intros H1 H2 Hlen. destruct (prefix_weak_total l1 l2 w H1 H2) as [?|H]; [done|].
  rewrite (prefix_length_eq l2 l1); done.
Qed.

Lemma take_snoc_prefix w i x : w !! i = Some x -> take i w ++ [x] `prefix_of` w.
Proof. intros H. rewrite <-(take_S_r w i x H). apply prefix_take. Qed.

Lemma prefix_snoc_lt l x w : l ++ [x] `prefix_of` w -> length l < length w.
Proof. intros H%prefix_length. rewrite length_app in H. simpl in H. lia. Qed.

Lemma prefix_snoc_l l x w : l ++ [x] `prefix_of` w -> l `prefix_of` w.
Proof. intros H. etrans; [|done]. by apply prefix_app_r. Qed.

Lemma prefix_snoc_take w i x y : take i w ++ [y] `prefix_of` w -> w !! i = Some x -> y = x.
Proof.
  intros H Hx. pose proof (lookup_lt_Some _ _ _ Hx).
  apply (prefix_lookup_Some _ _ i y) in H; [congruence|].
  rewrite lookup_app_r by (rewrite length_take; lia). by rewrite length_take, Nat.min_l, Nat.sub_diag by lia.
Qed.
End prefixes.

Section yen.
Context {A : Type} `{EqDecision A} (P : list A -> Prop) (c : list A -> Z).
Hypothesis P_prefix : forall q1 q2, P q1 -> P q2 -> q1 `prefix_of` q2 -> q1 = q2.
Implicit Types (K : list (list A)) (R q w : list A) (C : list (list A * nat)).

(** An emitted path leaves the root [R] over [x]. *)
Definition used K R (x : A) : Prop := exists k, k ∈ K /\ R ++ [x] `prefix_of` k.

(** The paths that leave the root [R] as no emitted path does. *)
Definition class K R q : Prop :=
  P q /\ R `prefix_of` q /\ forall x, R ++ [x] `prefix_of` q -> ~ used K R x.

Definition root (wi : list A * nat) : list A := take wi.2 wi.1.

Definition roots_from (i : nat) (w : list A) : list (list A) :=
  (λ j, take j w) <$> seq i (length w - i).

Lemma elem_of_roots_from R i w :
  R ∈ roots_from i w <-> exists j, R = take j w /\ i <= j < length w.
Proof.
  unfold roots_from. rewrite list_elem_of_fmap. setoid_rewrite elem_of_seq.
  split; intros (j & -> & Hj); exists j; (split; [done|lia]).
Qed.

Lemma roots_from_cons i w : i < length w -> roots_from i w = take i w :: roots_from (S i) w.
Proof.
  intros Hi. unfold roots_from. replace (length w - i) with (S (length w - S i)) by lia. done.
Qed.

Lemma NoDup_roots_from i w : NoDup (roots_from i w).
Proof.
  unfold roots_from. apply NoDup_fmap_2_strong; [|apply NoDup_seq].
  intros x y Hx%elem_of_seq Hy%elem_of_seq Heq%(f_equal length).
  rewrite !length_take in Heq. lia.
Qed.

(** The emitted paths [K], the candidates [C] (one for each root that was
    expanded and not taken) and the roots [Rp] still to be expanded. *)
Record yinv K C (Rp : list (list A)) : Prop := {
  y_P : forall k, k ∈ K -> P k;
  y_nodup : NoDup K;
  y_cand : forall w i, (w, i) ∈ C -> i < length w /\ class K (take i w) w /\
    forall q, class K (take i w) q -> (c w <= c q)%Z;
  y_root : forall R, R ∈ (root <$> C) ++ Rp -> exists x, used K R x;
  y_roots : NoDup ((root <$> C) ++ Rp);
  y_cover : forall q, P q -> q ∈ K \/ exists R, R ∈ (root <$> C) ++ Rp /\ class K R q;
  y_order : forall k q, k ∈ K -> P q -> q ∉ K -> (c k <= c q)%Z;
  y_sorted : StronglySorted Z.le (c <$> K)
}.

Lemma yinv_perm K C C' Rp : C ≡ₚ C' -> yinv K C Rp -> yinv K C' Rp.
Proof.
  intros Hp []. assert (Hr : (root <$> C) ++ Rp ≡ₚ (root <$> C') ++ Rp) by (by rewrite Hp).
  split; try done.
  - intros w i Hw. apply y_cand0. by rewrite Hp.
  - intros R HR. apply y_root0. by rewrite Hr.
  - by rewrite <-Hr.
  - intros q Hq. destruct (y_cover0 q Hq) as [|(R & HR & Hc)]; [by left|]. right. exists R.
    by rewrite <-Hr.
Qed.

(** Two different paths part somewhere after a common root. *)
Lemma divergence R q w :
  P q -> P w -> q <> w -> R `prefix_of` q -> R `prefix_of` w ->
  exists j, length R <= j < length w /\ take j w `prefix_of` q /\
    forall x, take j w ++ [x] `prefix_of` q -> ~ take j w ++ [x] `prefix_of` w.
Proof.
  intros Hq Hw Hne HRq HRw. destruct (max_prefix q w) as [[q' w'] k] eqn:Hm.
  assert (Hk1 : k `prefix_of` q) by (by eapply max_prefix_fst_prefix_alt).
  assert (Hk2 : k `prefix_of` w) by (by eapply max_prefix_snd_prefix_alt).
  assert (HRk : R `prefix_of` k) by (by eapply max_prefix_max_alt).
  assert (Ht : take (length k) w = k) by (symmetry; by apply prefix_eq_take).
  exists (length k). rewrite Ht. split_and!; [by apply prefix_length| |done|].
  - destruct (decide (length k < length w)) as [|Hge]; [done|]. exfalso. apply Hne. symmetry.
    apply P_prefix; [done..|]. rewrite <-(prefix_length_eq k w Hk2) by lia. done.
  - intros x Hx1 Hx2. assert (Hx : k ++ [x] `prefix_of` k) by (by eapply max_prefix_max_alt).
    apply prefix_length in Hx. rewrite length_app in Hx. simpl in Hx. lia.
Qed.

Lemma used_mono K K' R x : K ⊆ K' -> used K R x -> used K' R x.
Proof. intros HK (k & Hk & Hp). exists k. split; [by apply HK|done]. Qed.

Lemma class_anti K K' R q : K ⊆ K' -> class K' R q -> class K R q.
Proof. intros HK (? & ? & Hn). split_and!; [done..|]. intros x Hx Hu. by eapply Hn, used_mono. Qed.

Lemma yinv_start w : P w -> (forall q, P q -> (c w <= c q)%Z) -> yinv [w] [] (roots_from 0 w).
Proof.
  intros Hw Hmin. split.
  - by intros k ->%list_elem_of_singleton.
  - apply NoDup_singleton.
  - by intros ? ? ?%not_elem_of_nil.
  - intros R (j & -> & _ & Hj)%elem_of_roots_from.
    destruct (lookup_lt_is_Some_2 w j Hj) as [x Hx]. exists x, w. split; [by apply list_elem_of_singleton|].
    by apply take_snoc_prefix.
  - apply NoDup_roots_from.
  - intros q Hq. destruct (decide (q = w)) as [->|Hne]; [left; by apply list_elem_of_singleton|]. right.
    destruct (divergence [] q w) as (j & Hj & Hp & Hx); [done|done|done|apply prefix_nil..|].
    exists (take j w). split; [apply elem_of_roots_from; exists j; simpl in Hj; split; [done|lia]|].
    split_and!; [done..|]. intros x Hxq (k & ->%list_elem_of_singleton & Hk). by eapply Hx.
  - intros k q ->%list_elem_of_singleton Hq _. by apply Hmin.
  - repeat constructor.
Qed.

Lemma yinv_skip K C R Rp : yinv K C (R :: Rp) -> (forall q, ~ class K R q) -> yinv K C Rp.
Proof.
  intros [] Hno. split; try done.
  - intros R' HR'. apply y_root0. set_solver.
  - apply NoDup_app in y_roots0 as (? & ? & ?%NoDup_cons). apply NoDup_app. split_and!; set_solver.
  - intros q Hq. destruct (y_cover0 q Hq) as [|(R' & HR' & Hc)]; [by left|]. right. exists R'.
    split; [|done]. apply elem_of_app in HR' as [?|[->|?]%elem_of_cons]; [set_solver| |set_solver].
    by apply Hno in Hc.
Qed.

Lemma yinv_spur K C R Rp w :
  yinv K C (R :: Rp) -> class K R w -> (forall q, class K R q -> (c w <= c q)%Z) ->
  yinv K ((w, length R) :: C) Rp.
Proof.
  intros [] Hw Hmin. assert (HR : take (length R) w = R).
  { symmetry. apply prefix_eq_take, Hw. }
  assert (Hlt : length R < length w).
  { destruct (y_root0 R) as (x & k & Hk & Hx); [set_solver|].
    destruct (decide (length R < length w)) as [|Hge]; [done|]. exfalso.
    assert (R = w) as ->. { rewrite <-HR. apply take_ge. lia. }
    assert (w = k) as <-. { apply P_prefix; [apply Hw|by apply y_P0|by eapply prefix_snoc_l]. }
    apply prefix_snoc_lt in Hx. lia. }
  assert (Hr : (root <$> (w, length R) :: C) ++ Rp ≡ₚ (root <$> C) ++ R :: Rp).
  { rewrite fmap_cons. unfold root at 1. simpl. rewrite HR. by rewrite Permutation_middle. }
  split; try done.
  - intros w' i [[= -> ->]|Hin]%elem_of_cons; [|by apply y_cand0]. by rewrite HR.
  - intros R'. rewrite Hr. apply y_root0.
  - by rewrite Hr.
  - intros q Hq. destruct (y_cover0 q Hq) as [|(R' & HR' & Hc)]; [by left|]. right. exists R'.
    by rewrite Hr.
Qed.

Lemma yinv_done K : yinv K [] [] -> forall q, P q -> q ∈ K.
Proof. intros [] q Hq. destruct (y_cover0 q Hq) as [|(R & HR & _)]; [done|]. by apply not_elem_of_nil in HR. Qed.

(** Taking a candidate off closes only its own root. *)
Lemma class_grow K w i R' :
  class K (take i w) w -> i < length w -> (exists x, used K (take i w) x) -> (exists x, used K R' x) ->
  R' <> take i w -> forall q, class K R' q -> class (K ++ [w]) R' q.
Proof.
  intros (_ & _ & Hw) Hi (y & k & Hk & Hy) (y' & k' & Hk' & Hy') Hne q (Hq & Hp & Hn).
  destruct (lookup_lt_is_Some_2 w i Hi) as [x0 Hx0].
  pose proof (take_snoc_prefix w i x0 Hx0) as Hpre.
  split_and!; [done..|]. intros x Hx (k2 & [Hk2| ->%list_elem_of_singleton]%elem_of_app & Hk2p).
  { eapply Hn; [done|]. by exists k2. }
  assert (Hli : length (take i w) = i) by (rewrite length_take; lia).
  destruct (Nat.lt_trichotomy (length R') i) as [Hlt|[Heq|Hgt]].
  - apply (Hn x Hx). exists k. split; [done|]. etrans; [|by eapply prefix_snoc_l].
    eapply prefix_shorter; [done|apply prefix_take|]. rewrite length_app, Hli. simpl. lia.
  - apply Hne. rewrite (proj1 (prefix_eq_take R' w)), Heq; [done|]. by eapply prefix_snoc_l.
  - apply (Hw x0 Hpre). exists k'. split; [done|]. etrans; [|by eapply prefix_snoc_l].
    eapply prefix_shorter; [done|by eapply prefix_snoc_l|]. rewrite length_app, Hli. simpl. lia.
Qed.

(** An unexpanded root beyond the one a path was found at is new. *)
Lemma later_root_unused K w i j x :
  class K (take i w) w -> i < j -> j <= length w -> ~ used K (take j w) x.
Proof.
  intros (_ & _ & Hw) Hij Hj (k & Hk & Hp). destruct (lookup_lt_is_Some_2 w i) as [x0 Hx0]; [lia|].
  apply (Hw x0); [by apply take_snoc_prefix|]. exists k. split; [done|].
  etrans; [|by eapply prefix_snoc_l]. rewrite <-(take_S_r w i x0 Hx0).
  eapply prefix_shorter; [apply prefix_take..|]. rewrite !length_take. lia.
Qed.

Lemma yinv_pop K C w i :
  yinv K ((w, i) :: C) [] -> (forall w' i', (w', i') ∈ C -> (c w <= c w')%Z) ->
  yinv (K ++ [w]) C (roots_from i w).
Proof.
  intros [] Hmin. rewrite app_nil_r in *. rewrite fmap_cons in *.
  assert (Hw : (w, i) ∈ (w, i) :: C) by apply list_elem_of_here.
  destruct (y_cand0 w i Hw) as (Hi & Hcw & Hcmin).
  assert (Huw : exists x, used K (take i w) x) by (apply y_root0, list_elem_of_here).
  apply NoDup_cons in y_roots0 as [Hnew Hroots]. change (root (w, i)) with (take i w) in *.
  assert (HwK : w ∉ K).
  { intros HwK. destruct (lookup_lt_is_Some_2 w i Hi) as [x Hx]. destruct Hcw as (_ & _ & Hn).
    apply (Hn x); [by apply take_snoc_prefix|]. exists w. split; [done|by apply take_snoc_prefix]. }
  assert (Hgrow : forall R q, R ∈ root <$> C -> class K R q -> class (K ++ [w]) R q).
  { intros R q HR. apply (class_grow K w i R); [done..|by apply y_root0, list_elem_of_further|].
    intros ->. done. }
  split.
  - intros k [?| ->%list_elem_of_singleton]%elem_of_app; [by apply y_P0|]. apply Hcw.
  - apply NoDup_app. split_and!; [done|set_solver|apply NoDup_singleton].
  - intros w' i' Hin. destruct (y_cand0 w' i') as (? & Hc' & Hm'); [by apply list_elem_of_further|].
    split_and!; [done| |].
    + apply Hgrow; [|done]. apply list_elem_of_fmap. by exists (w', i').
    + intros q Hq. apply Hm'. eapply class_anti; [|done]. set_solver.
  - intros R [HR|(j & -> & Hj)%elem_of_roots_from]%elem_of_app.
    + destruct (y_root0 R) as [x Hx]; [set_solver|]. exists x. eapply used_mono; [|done]. set_solver.
    + destruct (lookup_lt_is_Some_2 w j) as [x Hx]; [lia|]. exists x, w. split; [set_solver|].
      by apply take_snoc_prefix.
  - apply NoDup_app. split_and!; [done| |apply NoDup_roots_from].
    intros R HR (j & -> & Hj)%elem_of_roots_from. destruct (decide (j = i)) as [->|Hne]; [done|].
    destruct (y_root0 (take j w)) as [x Hx]; [set_solver|].
    eapply later_root_unused; [done| | |done]; lia.
  - intros q Hq. destruct (y_cover0 q Hq) as [HqK|(R & [->|HR]%elem_of_cons & Hc)].
    + left. set_solver.
    + destruct (decide (q = w)) as [->|Hne]; [left; set_solver|]. right.
      destruct (divergence (take i w) q w) as (j & Hj & Hp & Hx); [done|apply Hcw|done|apply Hc|apply prefix_take|].
      rewrite length_take in Hj. exists (take j w). split.
      { apply elem_of_app. right. apply elem_of_roots_from. exists j. split; [done|lia]. }
      split_and!; [done..|]. intros x Hxq (k & [Hk| ->%list_elem_of_singleton]%elem_of_app & Hkp); [|by eapply Hx].
      destruct (decide (j = i)) as [->|Hji].
      * destruct Hc as (_ & _ & Hn). apply (Hn x Hxq). by exists k.
      * eapply (later_root_unused K w i j); [done|lia|lia|]. by exists k.
    + right. exists R. split; [set_solver|]. by apply Hgrow.
  - intros k q [Hk| ->%list_elem_of_singleton]%elem_of_app Hq Hnin; [apply y_order0; set_solver|].
    destruct (y_cover0 q Hq) as [HqK|(R & [->|HR]%elem_of_cons & Hc)]; [set_solver|by apply Hcmin|].
    apply list_elem_of_fmap in HR as ([w' i'] & -> & Hin).
    destruct (y_cand0 w' i') as (_ & _ & Hm'); [by apply list_elem_of_further|].
    etrans; [by eapply Hmin|]. by apply Hm'.
  - rewrite fmap_app. apply StronglySorted_app_2; [|done|repeat constructor].
    intros x y (k & -> & Hk)%list_elem_of_fmap ->%list_elem_of_singleton. apply y_order0; [done|apply Hcw|done].
Qed.
End yen.
