(* ===== verification/ConstrainedPath.v ===== *)
(** Model of the shortest path between two nodes that visits given sets of
    nodes in order ([ShortestPathStatic] and [ShortestPathWithConstraints] of
    [src/src/net/algorithm.cc]): shortest path trees are computed from each set
    to the next, their distances form a second graph, and the shortest path
    through this graph tells which paths to stitch together. *)

From S2P Require Import Prelude OrderedMap PerfectHash PriorityQueue Graph ShortestPath Constraints.

Import AdjacencyList.

(** The variables of [ShortestPathStatic] that live through its outer loop. *)
Record path_graph := mkPathGraph {
  path_graph_adj_list : AdjacencyList.t;
  path_graph_link_index_gen : Z;
  sp_trees : PerfectHashMap.t (option ShortestPath.t);
  link_map : PerfectHashMap.t (nat * nat)
}.

(** [size_t path_graph_link_index_gen = -1]. *)
Definition empty_path_graph : path_graph :=
  mkPathGraph AdjacencyList.empty (umax 64) PerfectHashMap.empty PerfectHashMap.empty.

Section static.
Context (src dst : nat) (nodes_to_avoid links_to_avoid : PerfectHashSet.t).
Context (exclusion_set : ExclusionSet.t) (to_visit : list PerfectHashSet.t).
Context (adj_list : AdjacencyList.t).

(** The innermost loop: one destination of one tree.  The second component is
    [no_path_found]. *)
Definition add_destination (tree : ShortestPath.t) (node_to_visit : nat)
    (acc : path_graph * bool) (destination : nat) : outcome (path_graph * bool) :=
  let '(pg, no_path_found) := acc in
  let gen := u64 (path_graph_link_index_gen pg + 1) in
  let new_link_index := Index_ kIndexBits (Z.to_nat gen) in
  sp_delay ← ShortestPath.GetPathDistance tree destination;
  if (sp_delay =? Delay_max)%Z
  then Ok (mkPathGraph (path_graph_adj_list pg) gen (sp_trees pg) (link_map pg), no_path_found)
  else
    adj ← AddLink (path_graph_adj_list pg) new_link_index node_to_visit destination sp_delay;
    Ok (mkPathGraph adj gen (sp_trees pg)
          (PerfectHashMap.RefAssign (0, 0) (link_map pg) new_link_index (node_to_visit, destination)),
        false).

(** One source of a level. *)
Definition add_source (to_exclude destinations : PerfectHashSet.t)
    (acc : path_graph * bool) (node_to_visit : nat) : outcome (path_graph * bool) :=
  let '(pg, no_path_found) := acc in
  tree ← ShortestPath.Compute exclusion_set adj_list (Some to_exclude) (Some links_to_avoid)
           node_to_visit destinations;
  let pg := mkPathGraph (path_graph_adj_list pg) (path_graph_link_index_gen pg)
              (PerfectHashMap.RefAssign None (sp_trees pg) node_to_visit (Some tree)) (link_map pg) in
  dests ← PerfectHashSet.iterate kIndexBits destinations;
  mfold (add_destination tree node_to_visit) dests (pg, no_path_found).

(** The sets of a level.  The loop variable [i] of the source is a [size_t]
    that runs from -1 to [to_visit_count - 1]; [next] is [i + 1]. *)
Definition level_to_exclude (next : nat) : PerfectHashSet.t :=
  let others := fold_left (λ acc j_set,
                   if negb (next =? S j_set.1) && negb (next =? j_set.1)
                   then PerfectHashSet.InsertAll acc j_set.2 else acc)
                  (zip (seq 0 (length to_visit)) to_visit) PerfectHashSet.empty in
  let others := if negb (next =? length to_visit) then PerfectHashSet.Insert others dst else others in
  PerfectHashSet.InsertAll others nodes_to_avoid.

Definition level_destinations (next : nat) : outcome PerfectHashSet.t :=
  if next =? length to_visit then Ok (PerfectHashSet.Insert PerfectHashSet.empty dst)
  else s ← vec_at to_visit next; Ok (PerfectHashSet.InsertAll PerfectHashSet.empty s).

Definition level_sources (next : nat) : outcome PerfectHashSet.t :=
  if next =? 0 then Ok (PerfectHashSet.Insert PerfectHashSet.empty src)
  else s ← vec_at to_visit (next - 1); Ok (PerfectHashSet.InsertAll PerfectHashSet.empty s).

(** The outer loop, which returns null when a level finds no path. *)
Fixpoint levels (remaining : list nat) (pg : path_graph) : outcome (option path_graph) :=
  match remaining with
  | [] => Ok (Some pg)
  | next :: remaining' =>
      destinations ← level_destinations next;
      sources ← level_sources next;
      _ ← check (negb (PerfectHashSet.Empty sources));
      _ ← check (negb (PerfectHashSet.Empty destinations));
      order ← PerfectHashSet.iterate kIndexBits sources;
      '(pg, no_path_found) ← mfold (add_source (level_to_exclude next) destinations) order (pg, true);
      if (no_path_found : bool) then Ok None else levels remaining' pg
  end.

(** One link of the path through the path graph. *)
Definition stitch_step (pg : path_graph) (acc : Links * Delay) (path_graph_link : nat)
  : outcome (Links * Delay) :=
  let '(final_path, total_delay) := acc in
  '(_, (sub_path_from, sub_path_to)) ← PerfectHashMap.Ref (0, 0) (link_map pg) path_graph_link;
  ptr ← PerfectHashMap.GetValueOrDie (sp_trees pg) sub_path_from;
  match ptr with
  | None => Fail Undefined
  | Some sp_tree =>
      sub_path ← ShortestPath.GetPath sp_tree sub_path_to;
      match sub_path with
      | None => Fail CheckFailed
      | Some w =>
          total_delay ← delay_add total_delay (Walk.delay_ w);
          Ok (final_path ++ Walk.links_ w, total_delay)
      end
  end.

Definition ShortestPathStatic : outcome (option Walk.t) :=
  if length to_visit =? 0 then
    sp_tree ← ShortestPath.Compute exclusion_set adj_list (Some nodes_to_avoid) (Some links_to_avoid)
                src (PerfectHashSet.of_list [dst]);
    ShortestPath.GetPath sp_tree dst
  else
    opg ← levels (seq 0 (S (length to_visit))) empty_path_graph;
    match opg with
    | None => Ok None
    | Some pg =>
        path_graph_sp ← ShortestPath.Compute ExclusionSet.empty (path_graph_adj_list pg) None None
                          src (PerfectHashSet.of_list [dst]);
        sp ← ShortestPath.GetPath path_graph_sp dst;
        match sp with
        | None => Ok None
        | Some w =>
            '(final_path, total_delay) ← mfold (stitch_step pg) (Walk.links_ w) ([], 0%Z);
            Ok (Some (Walk.mk final_path total_delay))
        end
    end.
End static.

Definition ShortestPathWithConstraints (src dst : nat) (g : GraphStorage.t)
    (constraints : ConstraintSet.t) : outcome (option Walk.t) :=
  sanitized_constraints ← ConstraintSet.SanitizeConstraints constraints src dst;
  ShortestPathStatic src dst PerfectHashSet.empty PerfectHashSet.empty
    (ConstraintSet.exclusion_set_ sanitized_constraints)
    (ConstraintSet.to_visit_ sanitized_constraints) (GraphStorage.adjacency_list_ g).
