(* ===== verification/KShortestPaths.v ===== *)
(** Model of [KShortestPathsGenerator] ([src/src/net/algorithm.h],
    [src/src/net/algorithm.cc]): paths in increasing order of length by Yen's
    algorithm with Lawler's start indices.  Without sets to visit the generator
    is proved to enumerate exactly the simple paths, each once, from the
    shortest to the longest. *)

From S2P Require Import Prelude OrderedMap PerfectHash PriorityQueue Graph ShortestPath Constraints.
From S2P Require Import ConstrainedPath Trie PathSearch Yen.

Import AdjacencyList.

Module KShortestPathsGenerator.

Definition PathAndStartIndex : Type := Walk.t * nat.

Definition PathAndStartIndexComparator (a b : PathAndStartIndex) : bool := Walk.gtb a.1 b.1.

#[global] Instance comparator_swo : StrictWeakOrder PathAndStartIndexComparator.
Proof.
  split.
  - intros a. unfold PathAndStartIndexComparator, Walk.gtb. by rewrite Z.eqb_refl, Walk.lex_ltb_irrefl.
  - intros a b c. unfold PathAndStartIndexComparator, Walk.gtb.
    destruct (Z.eqb_spec (Walk.delay_ a.1) (Walk.delay_ b.1)), (Z.eqb_spec (Walk.delay_ b.1) (Walk.delay_ c.1)),
      (Z.eqb_spec (Walk.delay_ a.1) (Walk.delay_ c.1)); cbn [negb]; rewrite ?Z.ltb_ge; try lia.
    intros H1 H2. by eapply Walk.lex_ltb_trans.
  - intros a b. unfold PathAndStartIndexComparator, Walk.gtb.
    rewrite (Z.eqb_sym (Walk.delay_ b.1)). destruct (Z.eqb_spec (Walk.delay_ a.1) (Walk.delay_ b.1)); cbn [negb].
    + apply Walk.lex_ltb_asym.
    + rewrite Z.ltb_lt, Z.ltb_ge. lia.
Qed.

Record t := mk {
  k_paths_ : list PathAndStartIndex;
  k_paths_trie_ : Trie.TrieNode nat Z;
  candidates_ : list PathAndStartIndex;
  src_ : nat;
  dst_ : nat;
  constraints_ : ConstraintSet.t;
  storage_ : GraphStorage.t
}.

Definition construct (src dst : nat) (g : GraphStorage.t) (constraints : ConstraintSet.t) : outcome t :=
  constraints ← ConstraintSet.SanitizeConstraints constraints src dst;
  Ok (mk [] Trie.empty_node [] src dst constraints g).

Definition k (gen : t) : nat := length (k_paths_ gen).

(** [ShortestPath]: [std::next] past the end of the sets is undefined. *)
Definition ShortestPath (gen : t) (src dst : nat) (nodes_to_avoid links_to_avoid : PerfectHashSet.t)
    (links_so_far : Links) : outcome (option Walk.t) :=
  to_visit_index ← ConstraintSet.MinVisit (constraints_ gen) links_so_far (storage_ gen);
  let to_visit := ConstraintSet.to_visit_ (constraints_ gen) in
  if (Z.of_nat (length to_visit) <? to_visit_index)%Z then Fail Undefined
  else ShortestPathStatic src dst nodes_to_avoid links_to_avoid
         (ConstraintSet.exclusion_set_ (constraints_ gen)) (drop (Z.to_nat to_visit_index) to_visit)
         (GraphStorage.adjacency_list_ (storage_ gen)).

Definition ShortestPathThatAvoids (gen : t) (nodes_to_avoid links_to_avoid : PerfectHashSet.t)
  : outcome (option Walk.t) :=
  ShortestPath gen (src_ gen) (dst_ gen) nodes_to_avoid links_to_avoid [].

Definition GetLinkExclusionSet (gen : t) (root_path : Links) (out : PerfectHashSet.t)
  : outcome PerfectHashSet.t :=
  match root_path with
  | [] => mfold (λ out path, l ← vec_at (Walk.links_ path.1) 0; Ok (PerfectHashSet.Insert out l))
            (k_paths_ gen) out
  | _ =>
      paths_with_same_prefix ← Trie.SequencesWithPrefix (k_paths_trie_ gen) root_path;
      mfold (λ out k,
               path ← vec_at (k_paths_ gen) (Z.to_nat k);
               let k_path_links := Walk.links_ path.1 in
               _ ← check (length root_path <? length k_path_links);
               l ← vec_at k_path_links (length root_path);
               Ok (PerfectHashSet.Insert out l))
        paths_with_same_prefix out
  end.

(** The variables of the loop of [NextPath]. *)
Record spur_state := mkSpur {
  links_to_exclude : PerfectHashSet.t;
  nodes_to_exclude : PerfectHashSet.t;
  root_path : Links;
  candidates : list PathAndStartIndex
}.

Definition spur_step (gen : t) (start_index : nat) (st : spur_state) (i_link : nat * nat)
  : outcome spur_state :=
  let '(i, link_index) := i_link in
  link ← GraphStorage.GetLink (storage_ gen) link_index;
  let spur_node := src link in
  if i <? start_index then
    Ok (mkSpur (links_to_exclude st) (PerfectHashSet.Insert (nodes_to_exclude st) spur_node)
          (root_path st ++ [link_index]) (candidates st))
  else
    to_exclude ← GetLinkExclusionSet gen (root_path st) (links_to_exclude st);
    spur_path ← ShortestPath gen spur_node (dst_ gen) (nodes_to_exclude st) to_exclude (root_path st);
    cands ← match spur_path with
            | None => Ok (candidates st)
            | Some w =>
                candidate_path ← Walk.of_links (root_path st ++ Walk.links_ w) (storage_ gen);
                Ok (VectorPriorityQueue.emplace PathAndStartIndexComparator (candidates st)
                      (candidate_path, i))
            end;
    Ok (mkSpur to_exclude (PerfectHashSet.Insert (nodes_to_exclude st) spur_node)
          (root_path st ++ [link_index]) cands).

Definition NextPath (gen : t) : outcome (t * bool) :=
  match last (k_paths_ gen) with
  | None =>
      path ← ShortestPath gen (src_ gen) (dst_ gen) PerfectHashSet.empty PerfectHashSet.empty [];
      match path with
      | None => Ok (gen, false)
      | Some path =>
          trie ← Trie.Add (k_paths_trie_ gen) (Walk.links_ path) 0%Z;
          Ok (mk (k_paths_ gen ++ [(path, 0)]) trie (candidates_ gen) (src_ gen) (dst_ gen)
                (constraints_ gen) (storage_ gen), true)
      end
  | Some (last_path, start_index) =>
      let last_path_links := Walk.links_ last_path in
      st ← mfold (spur_step gen start_index) (zip (seq 0 (length last_path_links)) last_path_links)
             (mkSpur PerfectHashSet.empty PerfectHashSet.empty [] (candidates_ gen));
      if VectorPriorityQueue.empty (candidates st)
      then Ok (mk (k_paths_ gen) (k_paths_trie_ gen) (candidates st) (src_ gen) (dst_ gen)
                 (constraints_ gen) (storage_ gen), false)
      else
        '(min_candidate, cands) ← VectorPriorityQueue.PopTop PathAndStartIndexComparator (candidates st);
        trie ← Trie.Add (k_paths_trie_ gen) (Walk.links_ min_candidate.1)
                 (u32 (Z.of_nat (length (k_paths_ gen))));
        Ok (mk (k_paths_ gen ++ [min_candidate]) trie cands (src_ gen) (dst_ gen)
              (constraints_ gen) (storage_ gen), true)
  end.

(** The loop of [KthShortestPathOrNull], [delta] times. *)
Fixpoint next_paths (delta : nat) (gen : t) : outcome (t * bool) :=
  match delta with
  | O => Ok (gen, true)
  | S delta' =>
      '(gen, found) ← NextPath gen;
      if (found : bool) then next_paths delta' gen else Ok (gen, false)
  end.

Definition KthShortestPathOrNull (gen : t) (k : nat) : outcome (t * option Walk.t) :=
  if k <? length (k_paths_ gen) then
    path ← vec_at (k_paths_ gen) k; Ok (gen, Some path.1)
  else
    '(gen, found) ← next_paths (k + 1 - length (k_paths_ gen)) gen;
    if negb found then Ok (gen, None)
    else match last (k_paths_ gen) with
         | None => Fail Undefined
         | Some path => Ok (gen, Some path.1)
         end.

(** [KforPath] dereferences the path it gets, also when it is null. *)
Fixpoint kfor_loop (to_look_for : Walk.t) (remaining k : nat) (gen : t) : outcome (t * nat) :=
  match remaining with
  | O => Ok (gen, k)
  | S remaining' =>
      '(gen, path) ← KthShortestPathOrNull gen k;
      match path with
      | None => Fail Undefined
      | Some path =>
          _ ← check (Walk.delay_ path <=? Walk.delay_ to_look_for)%Z;
          if Walk.eqb to_look_for path then Ok (gen, k)
          else kfor_loop to_look_for remaining' (S k) gen
      end
  end.
Definition KforPath (gen : t) (to_look_for : Walk.t) (k_limit : nat) : outcome (t * nat) :=
  kfor_loop to_look_for k_limit 0 gen.
End KShortestPathsGenerator.

(** ** Correctness without sets to visit *)
Section correctness.
Import ShortestPath.
Context (g : GraphStorage.t) (cs : ConstraintSet.t) (src dst : nat) (M : Z).
#[local] Notation adj := (GraphStorage.adjacency_list_ g).
#[local] Notation excl := (ConstraintSet.exclusion_set_ cs).
#[local] Notation items := (PerfectHashStore.items_ (GraphStorage.link_store_ g)).
#[local] Notation indices p := (link_index <$> p).
#[local] Notation nodes u p := (u :: (dst_index <$> p)).

Hypothesis Hwf : AdjacencyList.wf adj.
Hypothesis Hdel : delays_ok adj M.
Hypothesis Hlinks : forall u e, e ∈ GetNeighbors adj u ->
  exists l, items !! link_index e = Some l /\ Graph.src l = u /\ Graph.dst l = dst_index e /\
    e = GraphStorage.info_of (link_index e) l.
Hypothesis Hcs : ConstraintSet.wf cs.
Hypothesis Hvisit : ConstraintSet.to_visit_ cs = [].
Hypothesis Hne : src <> dst.

Definition simple_path (p : list LinkInfo) : Prop :=
  CanExcludeNode src excl None = false /\ way adj excl src p dst /\ NoDup (nodes src p).

(** The same for a list of links. *)
Definition is_path (l : Links) : Prop := exists p, l = indices p /\ simple_path p.

Definition total (l : Links) : Z :=
  match TotalDelayOfLinks l g with Ok d => d | Fail _ => 0%Z end.

(** *** Ways *)

Lemma index_inj u1 u2 e1 e2 :
  e1 ∈ GetNeighbors adj u1 -> e2 ∈ GetNeighbors adj u2 -> link_index e1 = link_index e2 ->
  e1 = e2 /\ u1 = u2.
Proof.
  intros (l1 & H1 & S1 & _ & E1)%Hlinks (l2 & H2 & S2 & _ & E2)%Hlinks Heq.
  assert (l1 = l2) as <- by congruence. split; [|congruence]. rewrite E1, E2. by f_equal.
Qed.

Lemma indices_inj u p1 p2 v1 v2 :
  way adj excl u p1 v1 -> way adj excl u p2 v2 -> indices p1 = indices p2 -> p1 = p2.
Proof. apply way_inj. intros x e1 e2 H1 H2 Heq. by eapply index_inj. Qed.

Lemma way_app_inv u p q v :
  way adj excl u (p ++ q) v <-> exists m, way adj excl u p m /\ way adj excl m q v.
Proof.
  split.
  - revert u. induction p as [|e p IH]; intros u; [exists u; split; [constructor|done]|].
    inversion_clear 1 as [|? ? ? ? He Hok H']. destruct (IH _ H') as (m & H1 & H2).
    exists m. split; [by constructor|done].
  - intros (m & H1 & H2). induction H1; [done|]. simpl. constructor; auto.
Qed.

Lemma way_last u p v : way adj excl u p v -> last (nodes u p) = Some v.
Proof.
  induction 1 as [|u e p v He Hok Hw IH]; [done|]. rewrite fmap_cons. by rewrite last_cons_cons.
Qed.

Lemma way_fun u p v1 v2 : way adj excl u p v1 -> way adj excl u p v2 -> v1 = v2.
Proof. intros H1%way_last H2%way_last. congruence. Qed.

(** The way along a prefix of the links of a way. *)
Lemma way_prefix u p v R :
  way adj excl u p v -> R `prefix_of` indices p ->
  exists p1 p2 m, p = p1 ++ p2 /\ R = indices p1 /\ way adj excl u p1 m /\ way adj excl m p2 v.
Proof.
  intros Hw [k Hk]. apply fmap_app_inv in Hk as (p1 & p2 & -> & -> & ->).
  apply way_app_inv in Hw as (m & ? & ?). by exists p1, p2, m.
Qed.

Lemma simple_disjoint u p q :
  NoDup (nodes u (p ++ q)) <->
  NoDup (nodes u p) /\ NoDup (dst_index <$> q) /\ forall x, x ∈ nodes u p -> x ∉ dst_index <$> q.
Proof.
  rewrite fmap_app, app_comm_cons, NoDup_app. tauto.
Qed.

(** No simple path is a proper prefix of another. *)
Lemma is_path_prefix q1 q2 : is_path q1 -> is_path q2 -> q1 `prefix_of` q2 -> q1 = q2.
Proof.
  intros (p1 & -> & _ & Hw1 & _) (p2 & -> & _ & Hw2 & Hnd) Hp.
  destruct (way_prefix _ _ _ _ Hw2 Hp) as (pa & pb & m & -> & Heq & Ha & Hb).
  rewrite (indices_inj _ _ _ _ _ Hw1 Ha Heq) in Hw1 |- *.
  rewrite (way_fun _ _ _ _ Ha Hw1) in *.
  destruct pb as [|e pb]; [by rewrite app_nil_r|]. exfalso.
  apply simple_disjoint in Hnd as (_ & _ & Hd). apply (Hd dst).
  - apply way_last in Hw1. by eapply last_Some_elem_of.
  - by eapply way_end.
Qed.

Lemma is_path_nonempty q : is_path q -> q <> [].
Proof. intros (p & -> & _ & Hw & _) Hp%fmap_nil_inv. subst p. by inversion Hw. Qed.

(** *** Delays *)

Lemma way_cost_bound u p v : way adj excl u p v -> (0 <= cost p <= M * Z.of_nat (length p))%Z.
Proof.
  destruct Hdel as (HM & Hpos & _).
  induction 1 as [|u e p v He Hok Hw IH]; [simpl; lia|]. specialize (Hpos u e He).
  change (cost (e :: p)) with (delay e + cost p)%Z. simpl length. lia.
Qed.

Lemma mfold_delays u p v t :
  way adj excl u p v -> (0 <= t)%Z -> (t + cost p <= Delay_max)%Z ->
  mfold (λ total i, link ← GraphStorage.GetLink g i; delay_add total (Graph.delay (base link)))
    (indices p) t = Ok (t + cost p)%Z.
Proof.
  intros Hw. revert t. induction Hw as [|u e p v He Hok Hw IH]; intros t Ht Hmax.
  { simpl. f_equal. lia. }
  destruct (Hlinks u e He) as (l & Hl & _ & _ & Hinfo). rewrite fmap_cons. cbn [mfold].
  rewrite (GraphStorage.GetLink_items _ _ _ Hl). cbn [mbind outcome_bind].
  assert (Hd : Graph.delay (base l) = delay e) by (by rewrite Hinfo). rewrite Hd.
  change (cost (e :: p)) with (delay e + cost p)%Z in *.
  pose proof (way_cost_bound _ _ _ Hw). destruct Hdel as (_ & Hpos & _). specialize (Hpos u e He).
  rewrite delay_add_Ok by lia. cbn [mbind outcome_bind].
  rewrite IH by lia. f_equal. lia.
Qed.

Lemma total_delay u p v :
  way adj excl u p v -> NoDup (nodes u p) ->
  TotalDelayOfLinks (indices p) g = Ok (cost p) /\ total (indices p) = cost p.
Proof.
  intros Hw Hnd. assert (H : TotalDelayOfLinks (indices p) g = Ok (cost p)).
  { unfold TotalDelayOfLinks. rewrite (mfold_delays u p v); [done|done|lia|].
    pose proof (way_cost_bound _ _ _ Hw). pose proof (way_length adj excl u v p Hwf Hw Hnd) as Hlen.
    destruct Hdel as (HM & _ & Hfit). unfold search_depth in Hlen. nia. }
  split; [done|]. unfold total. by rewrite H.
Qed.

(** *** Exclusions of the search for a spur path *)

Lemma usable_Some (N X : PerfectHashSet.t) e :
  usable excl (Some N) (Some X) e = true <->
  usable excl None None e = true /\ PerfectHashSet.Contains N (dst_index e) = false /\
  PerfectHashSet.Contains X (link_index e) = false.
Proof.
  unfold usable, CanExcludeLink, CanExcludeNode.
  destruct (PerfectHashSet.Contains N _), (PerfectHashSet.Contains X _); simpl; rewrite ?andb_false_r;
    naive_solver.
Qed.

Lemma walk_Some (N X : PerfectHashSet.t) u p v :
  walk adj (usable excl (Some N) (Some X)) u p v <->
  way adj excl u p v /\
  Forall (λ e, PerfectHashSet.Contains N (dst_index e) = false /\
               PerfectHashSet.Contains X (link_index e) = false) p.
Proof.
  rewrite way_walk. split.
  - induction 1 as [|u p v e Hw (IHw & IHf) He Hok]; [split; constructor|].
    apply usable_Some in Hok as (? & ? & ?). split; [by econstructor|].
    apply Forall_app. split; [done|]. by constructor.
  - intros [Hw Hf]. induction Hw as [|u p v e Hw IH He Hok]; [constructor|].
    apply Forall_app in Hf as [Hf [[? ?] _]%Forall_cons]. econstructor; [by apply IH|done|].
    by apply usable_Some.
Qed.

Lemma end_not_excluded p v :
  way adj excl src p v -> CanExcludeNode src excl None = false ->
  ExclusionSet.ShouldExcludeNode excl v = false.
Proof.
  intros Hw Hs. apply way_walk in Hw. destruct Hw as [|u p v e Hw He Hok]; [done|].
  unfold usable in Hok. apply andb_true_iff in Hok as [_ Hok%negb_true_iff]. done.
Qed.

(** What the search from the end [v] of the root [pr] has to avoid. *)
Record exclusions (K : list Links) (pr : list LinkInfo) (v : nat) (N X : PerfectHashSet.t) : Prop := {
  ex_nodes : forall n, PerfectHashSet.Contains N n = true <-> n ∈ nodes src pr /\ n <> v;
  ex_used : forall x, used K (indices pr) x -> PerfectHashSet.Contains X x = true;
  ex_links : forall x, PerfectHashSet.Contains X x = true ->
    exists R', R' `prefix_of` indices pr /\ used K R' x
}.

Section spur.
Context (K : list Links) (pr : list LinkInfo) (v : nat) (N X : PerfectHashSet.t).
Hypothesis HK : forall k, k ∈ K -> is_path k.
Hypothesis Hpr : way adj excl src pr v.
Hypothesis Hex : exclusions K pr v N X.

(** An excluded link on a simple path beyond the root is its first link. *)
Lemma excluded_link_first p' e :
  way adj excl v p' dst -> NoDup (nodes src (pr ++ p')) -> e ∈ p' ->
  PerfectHashSet.Contains X (link_index e) = true -> used K (indices pr) (link_index e) /\ head p' = Some e.
Proof.
  intros Hw Hnd (p1 & p2 & ->)%list_elem_of_split HX.
  destruct (ex_links _ _ _ _ _ Hex _ HX) as (R' & HR' & k & Hk & Hkp).
  destruct (HK k Hk) as (pk & -> & _ & Hwk & _).
  destruct (way_prefix _ _ _ _ Hwk Hkp) as (pk' & pk2 & m' & -> & Hi & Hwk' & _).
  symmetry in Hi. apply fmap_app_inv in Hi as (pk1 & le & -> & Hi & ->).
  apply way_app_inv in Hwk' as (m & Hwk1 & Hle).
  destruct le as [|e' [|? ?]]; simplify_eq. inversion Hle as [|? ? ? ? He' _ _ HA]; subst.
  destruct (way_prefix _ _ _ _ Hpr HR') as (r1 & r2 & mr & -> & Hr & Hr1 & Hr2).
  assert (r1 = pk1) as -> by (by eapply indices_inj).
  assert (mr = m) as -> by (by eapply way_fun).
  apply way_app_inv in Hw as (m2 & Hp1 & He). inversion He as [|? ? ? ? He2 _ _]; subst.
  assert (m2 = m) as -> by (eapply index_inj; [exact He2|exact He'|by injection Hi]).
  assert (Hnil : r2 ++ p1 = []).
  { destruct (r2 ++ p1) as [|e0 rest] eqn:Heq; [done|]. exfalso.
    assert (Hw12 : way adj excl m (r2 ++ p1) m) by (apply way_app_inv; eauto).
    replace ((pk1 ++ r2) ++ p1 ++ e :: p2) with (pk1 ++ (r2 ++ p1) ++ e :: p2) in Hnd by (by rewrite !app_assoc).
    apply simple_disjoint in Hnd as (_ & _ & Hd). apply (Hd m).
    - eapply last_Some_elem_of. by eapply way_last.
    - rewrite fmap_app. apply elem_of_app. left. eapply way_end; [done|]. by rewrite Heq. }
  apply app_nil in Hnil as [-> ->]. rewrite app_nil_r. split; [|done]. by exists (indices ((pk1 ++ [e']) ++ pk2)).
Qed.

Lemma class_suffix q :
  class is_path K (indices pr) q ->
  exists p', q = indices (pr ++ p') /\ simple_path (pr ++ p') /\
    walk adj (usable excl (Some N) (Some X)) v p' dst.
Proof.
  intros ((p & -> & Hs & Hw & Hnd) & Hp & Hnew).
  destruct (way_prefix _ _ _ _ Hw Hp) as (pa & p' & m & -> & Hi & Ha & Hb).
  assert (pa = pr) as -> by (by eapply indices_inj). assert (m = v) as -> by (by eapply way_fun).
  exists p'. split_and!; [done..|]. apply walk_Some. split; [done|]. apply Forall_forall. intros e He. split.
  - apply not_true_iff_false. intros [Hn _]%(ex_nodes _ _ _ _ _ Hex).
    apply simple_disjoint in Hnd as (_ & _ & Hd). apply (Hd _ Hn). apply list_elem_of_fmap. by exists e.
  - apply not_true_iff_false. intros HX.
    destruct (excluded_link_first p' e Hb Hnd He HX) as [Hu Hh].
    apply (Hnew (link_index e)); [|done]. destruct p' as [|? p']; simplify_eq/=.
    rewrite fmap_app. apply prefix_app. rewrite fmap_cons. apply prefix_cons, prefix_nil.
Qed.

Lemma suffix_class p' :
  CanExcludeNode src excl None = false -> NoDup (nodes src pr) ->
  walk adj (usable excl (Some N) (Some X)) v p' dst -> NoDup (nodes v p') ->
  simple_path (pr ++ p') /\ class is_path K (indices pr) (indices (pr ++ p')).
Proof.
  intros Hs Hnd [Hw Hf]%walk_Some Hnd'. rewrite Forall_forall in Hf.
  assert (Hsimple : simple_path (pr ++ p')).
  { split_and!; [done|apply way_app_inv; eauto|]. apply simple_disjoint.
    apply NoDup_cons in Hnd' as [Hv Hnd']. split_and!; [done..|].
    intros x Hx Hin. destruct (decide (x = v)) as [->|Hxv]; [done|].
    apply list_elem_of_fmap in Hin as (e & -> & He). destruct (Hf e He) as [Hn _].
    rewrite (proj2 (ex_nodes _ _ _ _ _ Hex _)) in Hn; done. }
  split; [done|]. split_and!; [by exists (pr ++ p')|rewrite fmap_app; by apply prefix_app_r|].
  intros x Hx Hu%(ex_used _ _ _ _ _ Hex). rewrite fmap_app in Hx. apply prefix_app_inv in Hx.
  destruct p' as [|e p']; [by apply prefix_nil_not in Hx|]. rewrite fmap_cons in Hx.
  apply prefix_cons_inv_1 in Hx as ->. destruct (Hf e) as [_ Hn]; [apply list_elem_of_here|]. congruence.
Qed.

(** The search for a spur path finds the shortest path of the class of the
    root. *)
Lemma spur_search :
  v <> dst -> NoDup (nodes src pr) -> (pr <> [] -> CanExcludeNode src excl None = false) ->
  exists r, ShortestPathStatic v dst N X excl [] adj = Ok r /\
  match r with
  | None => forall q, ~ class is_path K (indices pr) q
  | Some w =>
      let l := indices pr ++ Walk.links_ w in
      class is_path K (indices pr) l /\ (forall q, class is_path K (indices pr) q -> (total l <= total q)%Z) /\
      Walk.of_links l g = Ok (Walk.mk l (total l)) /\ (pr = [] -> Walk.delay_ w = total l)
  end.
Proof.
  intros Hv Hnd Hsrc. unfold ShortestPathStatic. cbn [length Nat.eqb].
  destruct (tree_correct excl adj (Some N) (Some X) v (PerfectHashSet.of_list [dst]) M Hwf Hdel)
    as (tree & -> & Htree).
  { rewrite PerfectHashSet.Count_denote, PerfectHashSet.denote_of_list.
    by rewrite list_to_set_singleton_L, size_singleton. }
  cbn [mbind outcome_bind].
  destruct (Htree dst) as [(Hno & _ & Hg)|(Hvok & p' & Hw & Hmin & Hnd' & _ & Hg)];
    [by apply PerfectHashSet.Contains_of_list, list_elem_of_singleton| |].
  - exists None. split; [done|]. intros q Hq. pose proof (class_suffix q Hq) as (p' & _ & Hs & Hw).
    destruct Hno as [Hno|[_ Hno]]; [|by apply Hno; exists p'].
    unfold CanExcludeNode in Hno. destruct (PerfectHashSet.Contains N v) eqn:HN.
    + by apply (ex_nodes _ _ _ _ _ Hex) in HN as [_ ?].
    + rewrite (end_not_excluded pr v Hpr (proj1 Hs)) in Hno. done.
  - rewrite decide_False in Hg by done. eexists. split; [exact Hg|]. cbn zeta. cbn [Walk.links_ Walk.delay_].
    assert (Hs : CanExcludeNode src excl None = false).
    { destruct pr as [|e0 pr'] eqn:Hpr0; [|by apply Hsrc]. inversion Hpr; subst.
      unfold CanExcludeNode in *. by destruct (PerfectHashSet.Contains N _). }
    rewrite <-fmap_app. destruct (suffix_class p' Hs Hnd Hw Hnd') as [Hsp Hcl].
    destruct (total_delay src (pr ++ p') dst (proj1 (proj2 Hsp)) (proj2 (proj2 Hsp))) as [Ht1 Ht2].
    split_and!; [done| | |].
    + intros q Hq. destruct (class_suffix q Hq) as (p2 & -> & Hsp2 & Hw2).
      destruct (total_delay src (pr ++ p2) dst (proj1 (proj2 Hsp2)) (proj2 (proj2 Hsp2))) as [_ ->].
      rewrite Ht2, !cost_app. specialize (Hmin p2 Hw2). lia.
    + unfold Walk.of_links. rewrite Ht1. cbn [mbind outcome_bind]. by rewrite Ht2.
    + intros ->. by rewrite Ht2.
Qed.
End spur.

(** *** The state of the generator *)
Import KShortestPathsGenerator.

Lemma insert_all_spec {A} (f : PerfectHashSet.t -> A -> outcome PerfectHashSet.t) (h : A -> nat) l out :
  (forall a out, a ∈ l -> f out a = Ok (PerfectHashSet.Insert out (h a))) ->
  exists out', mfold f l out = Ok out' /\
    forall x, PerfectHashSet.Contains out' x = true <->
      PerfectHashSet.Contains out x = true \/ exists a, a ∈ l /\ h a = x.
Proof.
  revert out. induction l as [|a l IH]; intros out Hf.
  - exists out. split; [done|]. set_solver.
  - cbn [mfold]. rewrite Hf by apply list_elem_of_here. cbn [mbind outcome_bind].
    destruct (IH (PerfectHashSet.Insert out (h a))) as (out' & -> & Hout).
    { intros b o Hb. apply Hf. by apply list_elem_of_further. }
    exists out'. split; [done|]. intros x. rewrite Hout, PerfectHashSet.Contains_Insert.
    case_decide; set_solver.
Qed.

#[local] Notation links_of := (λ p : PathAndStartIndex, Walk.links_ p.1).
#[local] Notation candidate_of := (λ p : PathAndStartIndex, (Walk.links_ p.1, p.2)).

(** The trie knows the indices of the emitted paths with a given prefix. *)
Definition trie_ok (ks : list PathAndStartIndex) (trie : Trie.TrieNode nat Z) : Prop :=
  forall R z, z ∈ Trie.values_at trie R <->
    exists j p, ks !! j = Some p /\ z = Z.of_nat j /\ R `prefix_of` links_of p.

Definition weighed (p : PathAndStartIndex) : Prop := Walk.delay_ p.1 = total (links_of p).

Lemma trie_ok_Add ks trie p :
  trie_ok ks trie -> (Z.of_nat (length ks) < 2 ^ 32)%Z -> is_path (links_of p) ->
  exists trie', Trie.Add trie (links_of p) (u32 (Z.of_nat (length ks))) = Ok trie' /\
    trie_ok (ks ++ [p]) trie'.
Proof.
  intros Htrie Hfit Hp. unfold Trie.Add. rewrite bool_decide_false by (by apply is_path_nonempty).
  cbn [negb check mbind outcome_bind]. eexists. split; [done|]. intros R z.
  rewrite Trie.values_at_Add, elem_of_app, (Htrie R z). unfold u32, wrap. rewrite Z.mod_small by lia. split.
  - intros [(j & p' & Hj & -> & Hpre)|Hz].
    + exists j, p'. split_and!; [by apply lookup_app_l_Some|done..].
    + case_decide as Hpre; [|by apply not_elem_of_nil in Hz]. apply list_elem_of_singleton in Hz as ->.
      exists (length ks), p. split_and!; [|done..]. by rewrite lookup_app_r, Nat.sub_diag by lia.
  - intros (j & p' & Hj & -> & Hpre). apply lookup_app_Some in Hj as [Hj|[Hge Hj]]; [left; eauto|]. right.
    apply list_lookup_singleton_Some in Hj as [Hj <-]. rewrite decide_True by done.
    apply list_elem_of_singleton. f_equal. lia.
Qed.

(** The links by which emitted paths leave a root of one of them. *)
Lemma GetLinkExclusionSet_spec gen L i X :
  trie_ok (k_paths_ gen) (k_paths_trie_ gen) ->
  (forall k, k ∈ links_of <$> k_paths_ gen -> is_path k) ->
  L ∈ links_of <$> k_paths_ gen -> i < length L ->
  exists X', GetLinkExclusionSet gen (take i L) X = Ok X' /\
    forall x, PerfectHashSet.Contains X' x = true <->
      PerfectHashSet.Contains X x = true \/ used (links_of <$> k_paths_ gen) (take i L) x.
Proof.
  intros Htrie HK HL Hi. set (R := take i L).
  set (h := λ p : PathAndStartIndex, default 0 (links_of p !! length R)).
  assert (Hlong : forall p, p ∈ k_paths_ gen -> R `prefix_of` links_of p ->
            links_of p !! length R = Some (h p) /\ R ++ [h p] `prefix_of` links_of p).
  { intros p Hp HR. assert (Hlt : length R < length (links_of p)).
    { destruct (decide (length R < length (links_of p))) as [|Hge]; [done|]. exfalso.
      assert (HeqR : R = links_of p) by (apply prefix_length_eq; [done|lia]).
      assert (links_of p = L).
      { apply is_path_prefix; [apply HK, list_elem_of_fmap; eauto|by apply HK|].
        rewrite <-HeqR. apply prefix_take. }
      rewrite <-H, <-HeqR in Hi. unfold R in Hi. rewrite length_take in Hi. lia. }
    destruct (lookup_lt_is_Some_2 _ _ Hlt) as [x Hx]. unfold h. rewrite Hx. split; [done|].
    rewrite (proj1 (prefix_eq_take R _) HR). by apply take_snoc_prefix. }
  assert (Hused : forall x, used (links_of <$> k_paths_ gen) R x <->
            exists p, p ∈ k_paths_ gen /\ R `prefix_of` links_of p /\ h p = x).
  { intros x. split.
    - intros (k & (p & -> & Hp)%list_elem_of_fmap & Hpre). exists p.
      pose proof (prefix_snoc_l _ _ _ Hpre) as HR. destruct (Hlong p Hp HR) as [Hx _].
      split_and!; [done..|]. apply (prefix_lookup_Some _ _ (length R) x) in Hpre; [congruence|].
      by rewrite lookup_app_r, Nat.sub_diag by lia.
    - intros (p & Hp & HR & <-). exists (links_of p). split; [apply list_elem_of_fmap; eauto|].
      by apply Hlong. }
  unfold GetLinkExclusionSet. destruct R as [|r R'] eqn:HRe.
  - match goal with |- context [mfold ?f _ _] =>
      destruct (insert_all_spec f h (k_paths_ gen) X) as (X' & HX & HX'); [|rewrite HX] end.
    { intros p out Hp. unfold vec_at. destruct (Hlong p Hp (prefix_nil _)) as [Hx _].
      change (length []) with 0 in Hx. by rewrite Hx. }
    exists X'. split; [done|]. intros x. rewrite HX', Hused. pose proof (@prefix_nil nat). naive_solver.
  - rewrite Trie.SequencesWithPrefix_values_at. cbn [mbind outcome_bind].
    match goal with |- context [mfold ?f _ _] =>
      destruct (insert_all_spec f (λ z, default 0 (h <$> k_paths_ gen !! Z.to_nat z))
        (Trie.values_at (k_paths_trie_ gen) (r :: R')) X) as (X' & HX & HX'); [|rewrite HX] end.
    { intros z out (j & p & Hj & -> & Hpre)%Htrie. rewrite Nat2Z.id, (proj2 (vec_at_Ok _ _ _) Hj), Hj.
      cbn [mbind outcome_bind]. destruct (Hlong p (list_elem_of_lookup_2 _ _ _ Hj) Hpre) as [Hx _].
      rewrite (proj2 (Nat.ltb_lt _ _)) by (by eapply lookup_lt_Some). cbn [check mbind outcome_bind].
      by rewrite (proj2 (vec_at_Ok _ _ _) Hx). }
    exists X'. split; [done|]. intros x. rewrite HX', Hused. apply or_iff_compat_l. split.
    + intros (z & (j & p & Hj & -> & Hpre)%Htrie & <-). rewrite Nat2Z.id, Hj. exists p.
      split_and!; [by eapply list_elem_of_lookup_2|done..].
    + intros (p & [j Hj]%list_elem_of_lookup_1 & Hpre & <-). exists (Z.of_nat j).
      rewrite Nat2Z.id, Hj. split; [|done]. apply Htrie. eauto.
Qed.

(** *** The loop of [NextPath] *)

Definition fixed (gen : t) : Prop :=
  src_ gen = src /\ dst_ gen = dst /\ constraints_ gen = cs /\ storage_ gen = g.

(** With no sets to visit the search is the plain one. *)
Lemma ShortestPath_plain gen u v N X pr m :
  fixed gen -> way adj excl src pr m ->
  KShortestPathsGenerator.ShortestPath gen u v N X (indices pr) = ShortestPathStatic u v N X excl [] adj.
Proof.
  intros (_ & _ & Hc & Hs) Hw. unfold KShortestPathsGenerator.ShortestPath. rewrite Hc, Hs, Hvisit.
  assert (ConstraintSet.MinVisit cs (indices pr) g = Ok 0%Z) as ->; [|done].
  destruct pr as [|e pr]; [done|].
  destruct (way_resolves g excl src (e :: pr) m) as (ls & Hm & _); [|done|].
  { intros x e' He'. destruct (Hlinks x e' He') as (l & ? & ? & ? & _). eauto. }
  destruct (MinVisit_complete cs g (indices (e :: pr)) ls Hcs) as (n & -> & Hn); [done..|].
  f_equal. rewrite Hvisit in Hn. apply Hn. unfold ConstraintSet.visits_in_order. rewrite Hvisit.
  pose proof (ConstraintSet.visit_sequence_lt cs (path_nodes ls)) as Hlt. rewrite Hvisit in Hlt.
  destruct (ConstraintSet.visit_sequence cs (path_nodes ls)) as [|i l]; [|apply Forall_cons in Hlt as [? _]; simpl in *; lia].
  split; [constructor|simpl; lia].
Qed.

Section loop.
Context (gen : t) (pl : list LinkInfo) (s : nat).
#[local] Notation L := (indices pl).
#[local] Notation K := (links_of <$> k_paths_ gen).
Hypothesis Hfixed : fixed gen.
Hypothesis Htrie : trie_ok (k_paths_ gen) (k_paths_trie_ gen).
Hypothesis Hpl : simple_path pl.
Hypothesis HL : L ∈ K.

Record spur_inv (i : nat) (st : spur_state) : Prop := {
  sp_root : root_path st = take i L;
  sp_nodes : forall n, PerfectHashSet.Contains (nodes_to_exclude st) n = true <-> n ∈ take i (nodes src pl);
  sp_links : forall x, PerfectHashSet.Contains (links_to_exclude st) x = true ->
    exists R', R' `prefix_of` take i L /\ used K R' x;
  sp_heap : VectorPriorityQueue.heap PathAndStartIndexComparator (candidates st);
  sp_weighed : Forall weighed (candidates st);
  sp_yinv : yinv is_path total K (candidate_of <$> candidates st) (roots_from (i `max` s) L);
  sp_grow : length (candidates_ gen) <= length (candidates st)
}.

(** The node at position [i] of the last path. *)
Lemma spur_node i e :
  pl !! i = Some e ->
  exists v l, way adj excl src (take i pl) v /\ nodes src pl !! i = Some v /\
    nodes src (take i pl) = take i (nodes src pl) ++ [v] /\ v <> dst /\
    GraphStorage.GetLink g (link_index e) = Ok l /\ Graph.src l = v.
Proof.
  intros He. destruct Hpl as (_ & Hw & Hnd). rewrite <-(take_drop_middle pl i e He) in Hw.
  apply way_app_inv in Hw as (v & Hw1 & Hw2). inversion Hw2 as [|? ? ? ? Hin _ Hw3]; subst.
  destruct (Hlinks v e Hin) as (l & Hl & Hs & _). exists v, l.
  assert (Htake : nodes src (take i pl) = take (S i) (nodes src pl)) by (by rewrite firstn_cons, fmap_take).
  pose proof (lookup_lt_Some _ _ _ He) as Hi.
  assert (Hv : nodes src pl !! i = Some v).
  { pose proof (way_last _ _ _ Hw1) as Hlast. rewrite Htake, last_lookup, length_take in Hlast.
    simpl length in Hlast. rewrite length_fmap in Hlast.
    replace (pred _) with i in Hlast by lia. by rewrite lookup_take_lt in Hlast by lia. }
  split_and!; [done|done| | |by apply GraphStorage.GetLink_items|done].
  - by rewrite Htake, (take_S_r _ _ _ Hv).
  - intros ->. rewrite <-(take_drop_middle pl i e He) in Hnd. apply simple_disjoint in Hnd as (_ & _ & Hd).
    apply (Hd dst); [eapply last_Some_elem_of; by eapply way_last|by eapply way_end].
Qed.

Lemma is_path_K st i : spur_inv i st -> forall k, k ∈ K -> is_path k.
Proof. intros HI. apply (y_P _ _ _ _ _ (sp_yinv _ _ HI)). Qed.

(** What the search from the node at position [i] has to avoid. *)
Lemma spur_exclusions i st X' v :
  spur_inv i st -> i < length pl -> nodes src (take i pl) = take i (nodes src pl) ++ [v] ->
  (forall x, PerfectHashSet.Contains X' x = true <->
     PerfectHashSet.Contains (links_to_exclude st) x = true \/ used K (take i L) x) ->
  exclusions K (take i pl) v (nodes_to_exclude st) X'.
Proof.
  intros HI Hi Hnodes HX'. destruct Hpl as (_ & _ & Hnd). rewrite <-fmap_take in HX'. split.
  - intros n. rewrite (sp_nodes _ _ HI n), Hnodes, elem_of_app, list_elem_of_singleton.
    assert (Hnd' : NoDup (nodes src (take i pl))).
    { rewrite <-(take_drop i pl) in Hnd. by apply simple_disjoint in Hnd as (? & _ & _). }
    rewrite Hnodes in Hnd'. apply NoDup_app in Hnd' as (_ & Hd & _). set_solver.
  - intros x Hx. apply HX'. by right.
  - intros x [Hx|Hx]%HX'.
    + destruct (sp_links _ _ HI x Hx) as (R' & HR' & Hu). rewrite <-fmap_take in HR'. eauto.
    + eauto.
Qed.

Lemma spur_step_spec i st e :
  spur_inv i st -> pl !! i = Some e ->
  exists st', spur_step gen s st (i, link_index e) = Ok st' /\ spur_inv (S i) st'.
Proof.
  intros HI He. pose proof (lookup_lt_Some _ _ _ He) as Hi.
  destruct (spur_node i e He) as (v & l & Hw & Hv & Hnodes & Hvd & Hl & Hs).
  destruct Hfixed as (_ & Hdst & _ & Hstore). unfold spur_step. rewrite Hstore, Hl.
  cbn [mbind outcome_bind]. rewrite Hs, Hdst.
  assert (HLi : L !! i = Some (link_index e)) by (by rewrite list_lookup_fmap, He).
  assert (Hroot : root_path st ++ [link_index e] = take (S i) L)
    by (by rewrite (sp_root _ _ HI), (take_S_r _ _ _ HLi)).
  assert (HN : forall n, PerfectHashSet.Contains (PerfectHashSet.Insert (nodes_to_exclude st) v) n = true <->
            n ∈ take (S i) (nodes src pl)).
  { intros n. rewrite PerfectHashSet.Contains_Insert, (take_S_r _ _ _ Hv), elem_of_app, list_elem_of_singleton.
    case_decide; [naive_solver|]. rewrite (sp_nodes _ _ HI n). naive_solver. }
  assert (Hpre : forall R', R' `prefix_of` take i L -> R' `prefix_of` take (S i) L).
  { intros R' HR'. etrans; [done|]. rewrite (take_S_r _ _ _ HLi). by apply prefix_app_r. }
  destruct (Nat.ltb_spec i s) as [Hlt|Hge].
  { eexists. split; [done|]. destruct HI. split; cbn; try done.
    - intros x (R' & ? & ?)%sp_links0. eauto.
    - by replace (S i `max` s) with (i `max` s) by lia. }
  destruct (GetLinkExclusionSet_spec gen L i (links_to_exclude st)) as (X' & HX & HX');
    [done|by eapply is_path_K|done|by rewrite length_fmap|].
  rewrite (sp_root _ _ HI), HX. cbn [mbind outcome_bind]. rewrite <-fmap_take.
  rewrite (ShortestPath_plain gen v dst _ _ (take i pl) v Hfixed Hw).
  pose proof (spur_exclusions i st X' v HI Hi Hnodes HX') as Hex.
  assert (Hnd : NoDup (nodes src (take i pl))).
  { destruct Hpl as (_ & _ & Hnd). rewrite <-(take_drop i pl) in Hnd. by apply simple_disjoint in Hnd as (? & _ & _). }
  destruct (spur_search K (take i pl) v (nodes_to_exclude st) X' (is_path_K _ _ HI) Hw Hex Hvd Hnd
    (λ _, proj1 Hpl)) as (r & -> & Hr). cbn [mbind outcome_bind].
  pose proof (sp_yinv _ _ HI) as HY. rewrite Nat.max_l, roots_from_cons in HY by (rewrite ?length_fmap; lia).
  assert (HX2 : forall x, PerfectHashSet.Contains X' x = true -> exists R', R' `prefix_of` take (S i) L /\ used K R' x).
  { intros x (R' & HR' & Hu)%(ex_links _ _ _ _ _ Hex). rewrite fmap_take in HR'. eauto. }
  rewrite fmap_take in Hr |- *. destruct r as [w|].
  - destruct Hr as (Hcl & Hmin & -> & _). cbn [mbind outcome_bind]. eexists. split; [done|].
    set (wk := Walk.mk _ _).
    destruct (VectorPriorityQueue.emplace_spec PathAndStartIndexComparator (candidates st) (wk, i) (sp_heap _ _ HI))
      as [Hheap Hperm].
    split; cbn; [by rewrite (sp_root _ _ HI) in Hroot|done|done|done| | |].
    + rewrite Hperm. constructor; [done|apply HI].
    + eapply yinv_perm; [by rewrite Hperm|]. rewrite fmap_cons, Nat.max_l by lia.
      pose proof (yinv_spur is_path total is_path_prefix _ _ _ _ _ HY Hcl Hmin) as HY'.
      rewrite length_take, length_fmap, Nat.min_l in HY' by lia. exact HY'.
    + rewrite Hperm. pose proof (sp_grow _ _ HI). simpl. lia.
  - eexists. split; [done|]. split; cbn; [by rewrite (sp_root _ _ HI) in Hroot|done|done|apply HI|apply HI| |apply HI].
    rewrite Nat.max_l by lia. eapply yinv_skip; [exact is_path_prefix|exact HY|exact Hr].
Qed.

Lemma spur_loop st :
  spur_inv 0 st ->
  exists st', mfold (spur_step gen s) (zip (seq 0 (length L)) L) st = Ok st' /\ spur_inv (length L) st'.
Proof.
  intros HI. destruct (mfold_inv (λ done_ st, spur_inv (length done_) st) (spur_step gen s)
    (zip (seq 0 (length L)) L) st) as (st' & Hm & HI'); [done| |].
  - intros done_ [i x] st1 Hp HI1. rewrite length_app. simpl. rewrite Nat.add_1_r.
    apply (prefix_lookup_Some _ _ (length done_) (i, x)) in Hp;
      [|by rewrite lookup_app_r, Nat.sub_diag by lia].
    apply lookup_zip_with_Some in Hp as (? & ? & [= <- <-] & [-> Hlt]%lookup_seq & Hx).
    apply list_lookup_fmap_Some in Hx as (e & -> & He). by apply spur_step_spec.
  - rewrite length_zip_with, length_seq, Nat.min_id in HI'. eauto.
Qed.
End loop.

(** *** The generator *)

Record ginv (gen : t) : Prop := {
  gi_fixed : fixed gen;
  gi_trie : trie_ok (k_paths_ gen) (k_paths_trie_ gen);
  gi_heap : VectorPriorityQueue.heap PathAndStartIndexComparator (candidates_ gen);
  gi_weighed : Forall weighed (k_paths_ gen ++ candidates_ gen);
  gi_paths : match last (k_paths_ gen) with
             | None => candidates_ gen = []
             | Some p => yinv is_path total (links_of <$> k_paths_ gen) (candidate_of <$> candidates_ gen)
                           (roots_from p.2 (links_of p))
             end
}.

Lemma roots_from_end i (l : Links) : length l <= i -> roots_from i l = [].
Proof. intros Hi. unfold roots_from. by replace (length l - i) with 0 by lia. Qed.

Lemma first_path gen :
  ginv gen -> k_paths_ gen = [] ->
  exists gen' b, NextPath gen = Ok (gen', b) /\ ginv gen' /\
    if (b : bool) then exists p, k_paths_ gen' = k_paths_ gen ++ [p]
    else k_paths_ gen' = k_paths_ gen /\ forall q, is_path q -> q ∈ links_of <$> k_paths_ gen'.
Proof.
  intros HG Hnil. destruct HG as [Hf Ht Hh Hwt Hp]. rewrite Hnil in Hp. unfold NextPath. rewrite Hnil.
  cbn [last] in Hp |- *. pose proof Hf as (-> & -> & _ & _).
  assert (Hw0 : way adj excl src [] src) by constructor.
  rewrite (ShortestPath_plain gen src dst _ _ [] src Hf Hw0 : KShortestPathsGenerator.ShortestPath _ _ _ _ _ [] = _).
  destruct (spur_search [] [] src PerfectHashSet.empty PerfectHashSet.empty) as (r & -> & Hr);
    [by intros ? ?%not_elem_of_nil|done| |done|apply NoDup_singleton|done|].
  { split; [|by intros x (k & ?%not_elem_of_nil & _)|by intros x; rewrite PerfectHashSet.Contains_empty].
    intros n. rewrite PerfectHashSet.Contains_empty. set_solver. }
  assert (Hclass : forall q, class is_path [] [] q <-> is_path q).
  { intros q. split; [by intros [? _]|]. intros Hq. split_and!; [done|apply prefix_nil|].
    by intros x _ (k & ?%not_elem_of_nil & _). }
  cbn [mbind outcome_bind]. destruct r as [w|].
  - destruct Hr as (Hcl%Hclass & Hmin & _ & Hdelay). cbn [fmap list_fmap app] in *.
    destruct (trie_ok_Add [] (k_paths_trie_ gen) (w, 0)) as (trie & Htrie & Hok); [by rewrite <-Hnil|done|done|].
    change (u32 (Z.of_nat (length []))) with 0%Z in Htrie. cbn [fst] in Htrie. rewrite Htrie.
    cbn [mbind outcome_bind].
    eexists _, true. split; [done|]. split; [|by eexists]. rewrite Hp in Hwt |- *.
    destruct Hf as (_ & _ & ? & ?). split; cbn; [by split_and!|done|by intros ?| |].
    + apply Forall_singleton. by apply Hdelay.
    + apply yinv_start; [apply is_path_prefix|done|]. intros q Hq. by apply Hmin, Hclass.
  - eexists gen, false. split; [done|]. split; [split; try done; by rewrite Hnil|].
    split; [done|]. intros q Hq%Hclass. by apply Hr in Hq.
Qed.

Lemma comparator_total a b :
  weighed a -> weighed b -> PathAndStartIndexComparator a b = false ->
  (total (links_of a) <= total (links_of b))%Z.
Proof.
  unfold weighed, PathAndStartIndexComparator, Walk.gtb. intros <- <-.
  destruct (Z.eqb_spec (Walk.delay_ a.1) (Walk.delay_ b.1)); cbn [negb]; [lia|]. rewrite Z.ltb_ge. lia.
Qed.

Lemma next_path gen p :
  ginv gen -> (Z.of_nat (length (k_paths_ gen)) < 2 ^ 32)%Z -> last (k_paths_ gen) = Some p ->
  exists gen' b, NextPath gen = Ok (gen', b) /\ ginv gen' /\
    if (b : bool) then exists p, k_paths_ gen' = k_paths_ gen ++ [p]
    else k_paths_ gen' = k_paths_ gen /\ forall q, is_path q -> q ∈ links_of <$> k_paths_ gen'.
Proof.
  intros HG Hfit Hlast. pose proof HG as [Hf Ht Hh Hwt HY]. rewrite Hlast in HY.
  unfold NextPath. rewrite Hlast. destruct p as [wl s]. cbn [fst snd] in HY.
  assert (HL : Walk.links_ wl ∈ links_of <$> k_paths_ gen).
  { apply list_elem_of_fmap. exists (wl, s). split; [done|]. by apply last_Some_elem_of. }
  destruct (y_P _ _ _ _ _ HY _ HL) as (pl & Hpl & Hsimple). rewrite Hpl in HL, HY |- *.
  apply Forall_app in Hwt as [Hwk Hwc].
  destruct (spur_loop gen pl s Hf Ht Hsimple HL
    (mkSpur PerfectHashSet.empty PerfectHashSet.empty [] (candidates_ gen))) as (st & -> & HI).
  { split; cbn; try done. intros n. split; [done|by intros ?%not_elem_of_nil]. }
  cbn [mbind outcome_bind]. pose proof (sp_yinv _ _ _ _ _ HI) as HY'.
  rewrite roots_from_end in HY' by lia.
  destruct (candidates st) as [|c0 rest] eqn:Hc; cbn [VectorPriorityQueue.empty].
  { pose proof (sp_grow _ _ _ _ _ HI) as Hgrow. rewrite Hc in Hgrow. cbn in Hgrow.
    assert (candidates_ gen = []) as Hnil by (apply nil_length_inv; lia).
    exists gen, false. split; [destruct gen; cbn in *; by subst|]. split_and!; [done..|].
    by apply (yinv_done is_path total). }
  pose proof (VectorPriorityQueue.PopTop_spec PathAndStartIndexComparator (candidates st) (sp_heap _ _ _ _ _ HI)) as Hpop.
  pose proof (VectorPriorityQueue.heap_top_max PathAndStartIndexComparator (candidates st) c0 (sp_heap _ _ _ _ _ HI)) as Htop.
  pose proof (sp_weighed _ _ _ _ _ HI) as Hw. rewrite Hc in Hpop, Htop, Hw.
  destruct Hpop as (l' & -> & Hheap' & Hperm). cbn [mbind outcome_bind].
  apply Forall_cons in Hw as [Hw0 Hwr]. specialize (Htop eq_refl). apply Forall_cons in Htop as [_ Htop].
  destruct c0 as [w0 i0]. rewrite fmap_cons in HY'. cbn [fst snd] in HY' |- *.
  destruct (y_cand _ _ _ _ _ HY' (Walk.links_ w0) i0) as (_ & [Hpath _] & _); [apply list_elem_of_here|].
  destruct (trie_ok_Add (k_paths_ gen) (k_paths_trie_ gen) (w0, i0) Ht Hfit Hpath) as (trie & Htrie & Hok).
  cbn [fst] in Htrie. rewrite Htrie. cbn [mbind outcome_bind].
  eexists _, true. split; [done|]. split; [|by eexists]. destruct Hf as (? & ? & ? & ?).
  split; cbn; [done|done|done| |].
  - rewrite Hperm. apply Forall_app. split; [apply Forall_app; split; [done|by constructor]|done].
  - rewrite last_snoc, fmap_app. cbn. eapply yinv_perm; [by rewrite Hperm|].
    apply (yinv_pop is_path total is_path_prefix); [exact HY'|].
    intros w' i' ([w1 i1] & [= -> ->] & Hin)%list_elem_of_fmap.
    rewrite Forall_forall in Htop, Hwr. by apply (comparator_total (w0, i0) (w1, i1)); auto.
Qed.

Lemma NextPath_spec gen :
  ginv gen -> (Z.of_nat (length (k_paths_ gen)) < 2 ^ 32)%Z ->
  exists gen' b, NextPath gen = Ok (gen', b) /\ ginv gen' /\
    if (b : bool) then exists p, k_paths_ gen' = k_paths_ gen ++ [p]
    else k_paths_ gen' = k_paths_ gen /\ forall q, is_path q -> q ∈ links_of <$> k_paths_ gen'.
Proof.
  intros HG Hfit. destruct (last (k_paths_ gen)) as [p|] eqn:Hl; [by eapply next_path|].
  apply last_None in Hl. by apply first_path.
Qed.

Lemma next_paths_spec delta gen :
  ginv gen -> (Z.of_nat (length (k_paths_ gen) + delta) <= 2 ^ 32)%Z ->
  exists gen' b, next_paths delta gen = Ok (gen', b) /\ ginv gen' /\
    if (b : bool) then length (k_paths_ gen') = length (k_paths_ gen) + delta
    else length (k_paths_ gen') < length (k_paths_ gen) + delta /\
         forall q, is_path q -> q ∈ links_of <$> k_paths_ gen'.
Proof.
  revert gen. induction delta as [|delta IH]; intros gen HG Hfit.
  { exists gen, true. split_and!; [done|done|lia]. }
  destruct (NextPath_spec gen HG) as (gen1 & b & Hnext & HG1 & Hb); [lia|].
  cbn [next_paths]. rewrite Hnext. cbn [mbind outcome_bind]. destruct b.
  - destruct Hb as [p Hp]. assert (Hlen : length (k_paths_ gen1) = S (length (k_paths_ gen)))
      by (rewrite Hp, length_app; simpl; lia).
    destruct (IH gen1 HG1) as (gen' & b & -> & HG' & Hb); [lia|].
    exists gen', b. split_and!; [done..|]. destruct b; [lia|]. destruct Hb. split; [lia|done].
  - destruct Hb as [Hp Hall]. exists gen1, false. split_and!; [done|done|rewrite Hp; lia|done].
Qed.

Lemma KthShortestPathOrNull_spec gen k :
  ginv gen -> (Z.of_nat k < 2 ^ 32)%Z ->
  exists gen' r, KthShortestPathOrNull gen k = Ok (gen', r) /\ ginv gen' /\
    match r with
    | Some w => fst <$> k_paths_ gen' !! k = Some w
    | None => length (k_paths_ gen') <= k /\ forall q, is_path q -> q ∈ links_of <$> k_paths_ gen'
    end.
Proof.
  intros HG Hk. unfold KthShortestPathOrNull. destruct (Nat.ltb_spec k (length (k_paths_ gen))) as [Hlt|Hge].
  { destruct (lookup_lt_is_Some_2 _ _ Hlt) as [p Hp]. rewrite (proj2 (vec_at_Ok _ _ _) Hp).
    eexists gen, _. split_and!; [done|done|]. exact (f_equal (fmap fst) Hp). }
  destruct (next_paths_spec (k + 1 - length (k_paths_ gen)) gen HG) as (gen' & b & -> & HG' & Hb); [lia|].
  cbn [mbind outcome_bind]. destruct b; cbn [negb].
  - rewrite last_lookup, Hb. replace (pred _) with k by lia.
    destruct (lookup_lt_is_Some_2 (k_paths_ gen') k) as [p Hp]; [lia|]. rewrite Hp.
    eexists gen', _. split_and!; [done|done|]. exact (f_equal (fmap fst) Hp).
  - exists gen', None. destruct Hb as [Hlen Hall]. split_and!; [done|done|lia|done].
Qed.

(** The query for the path after the last one. *)
Lemma query_next gen :
  ginv gen -> (Z.of_nat (length (k_paths_ gen)) < 2 ^ 32)%Z ->
  exists gen' r, KthShortestPathOrNull gen (KShortestPathsGenerator.k gen) = Ok (gen', r) /\ ginv gen' /\
    match r with
    | Some w => exists i, k_paths_ gen' = k_paths_ gen ++ [(w, i)]
    | None => k_paths_ gen' = k_paths_ gen /\ forall q, is_path q -> q ∈ links_of <$> k_paths_ gen'
    end.
Proof.
  intros HG Hfit. unfold KthShortestPathOrNull, KShortestPathsGenerator.k. rewrite Nat.ltb_irrefl.
  replace (_ + 1 - _) with 1 by lia. cbn [next_paths].
  destruct (NextPath_spec gen HG Hfit) as (gen' & b & -> & HG' & Hb). cbn [mbind outcome_bind].
  destruct b; cbn [mbind outcome_bind negb].
  - destruct Hb as [[w i] Hp]. rewrite Hp, last_snoc. exists gen', (Some w). split_and!; [done|done|eauto].
  - exists gen', None. split_and!; [done|done|apply Hb..].
Qed.

Lemma construct_ginv : exists gen, construct src dst g cs = Ok gen /\ ginv gen.
Proof.
  unfold construct, ConstraintSet.SanitizeConstraints. rewrite Hvisit. cbn [mbind outcome_bind].
  eexists. split; [done|]. split; cbn; [done| |by intros ?|constructor|done].
  intros R z. rewrite Trie.values_at_empty. split; [by intros ?%not_elem_of_nil|by intros (j & p & ? & _)].
Qed.

(** What the invariant says about the emitted paths. *)
Lemma ginv_yinv gen :
  ginv gen -> exists C Rp, yinv is_path total (links_of <$> k_paths_ gen) C Rp \/ k_paths_ gen = [].
Proof.
  intros [_ _ _ _ H]. destruct (last (k_paths_ gen)) eqn:Hl; [eauto|].
  exists [], []. right. by apply last_None.
Qed.
End correctness.

(** ** Properties *)

Import KShortestPathsGenerator.

(** Earlier queries to a generator. *)
Definition queries (ks : list nat) (gen : t) : outcome t :=
  mfold (λ gen k, '(gen, _) ← KthShortestPathOrNull gen k; Ok gen) ks gen.

Section theorem.
Context (g : GraphStorage.t) (cs : ConstraintSet.t) (src dst : nat).

(** The walks the generator may return: simple paths over links and nodes that
    are not excluded. *)
Definition allowed_path (p : list LinkInfo) : Prop :=
  CanExcludeNode src (ConstraintSet.exclusion_set_ cs) None = false /\
  ShortestPath.walk (GraphStorage.adjacency_list_ g)
    (ShortestPath.usable (ConstraintSet.exclusion_set_ cs) None None) src p dst /\
  NoDup (src :: (dst_index <$> p)).

Definition walk_of (p : list LinkInfo) : Walk.t := Walk.mk (link_index <$> p) (ShortestPath.cost p).

(** The walks [ws] are the shortest paths, in order. *)
Record shortest_first (ws : list Walk.t) : Prop := {
  sf_paths : forall w, w ∈ ws -> exists p, allowed_path p /\ w = walk_of p;
  sf_distinct : NoDup (Walk.links_ <$> ws);
  sf_sorted : StronglySorted Z.le (Walk.delay_ <$> ws);
  sf_shorter : forall p w, allowed_path p -> walk_of p ∉ ws -> w ∈ ws ->
    (Walk.delay_ w <= ShortestPath.cost p)%Z
}.
End theorem.

Section result.
Context (g : GraphStorage.t) (cs : ConstraintSet.t) (src dst : nat) (M : Z).
Hypothesis Hwf : AdjacencyList.wf (GraphStorage.adjacency_list_ g).
Hypothesis Hdel : delays_ok (GraphStorage.adjacency_list_ g) M.
Hypothesis Hlinks : forall u e, e ∈ GetNeighbors (GraphStorage.adjacency_list_ g) u ->
  exists l, PerfectHashStore.items_ (GraphStorage.link_store_ g) !! link_index e = Some l /\
    Graph.src l = u /\ Graph.dst l = dst_index e /\ e = GraphStorage.info_of (link_index e) l.
Hypothesis Hne : src <> dst.

Lemma allowed_simple p : allowed_path g cs src dst p <-> simple_path g cs src dst p.
Proof. unfold allowed_path, simple_path. by rewrite way_walk. Qed.

Lemma allowed_total p :
  allowed_path g cs src dst p -> total g (link_index <$> p) = ShortestPath.cost p.
Proof.
  intros (_ & Hw & Hnd)%allowed_simple. by eapply (total_delay g cs src dst M Hwf Hdel Hlinks Hne).
Qed.

Lemma ginv_walk gen w :
  ginv g cs src dst gen -> w ∈ fst <$> k_paths_ gen ->
  exists p, allowed_path g cs src dst p /\ w = walk_of p.
Proof.
  intros HG ([w' i] & -> & Hin)%list_elem_of_fmap. simpl.
  destruct (ginv_yinv _ _ _ _ _ HG) as (C & Rp & [HY|Hnil]); [|rewrite Hnil in Hin; by apply not_elem_of_nil in Hin].
  assert (Hp : is_path g cs src dst (Walk.links_ w')).
  { apply (y_P _ _ _ _ _ HY), list_elem_of_fmap. by exists (w', i). }
  destruct Hp as (p & Hl & Hs). exists p. apply allowed_simple in Hs. split; [done|].
  pose proof (gi_weighed _ _ _ _ _ HG) as Hwt. rewrite Forall_forall in Hwt.
  specialize (Hwt (w', i)). unfold weighed in Hwt. cbn [fst] in Hwt. rewrite Hl, allowed_total in Hwt by done.
  unfold walk_of. destruct w' as [l d]. cbn in *. rewrite Hl, Hwt; [done|]. apply elem_of_app. by left.
Qed.

Lemma elem_of_emitted gen p :
  ginv g cs src dst gen -> allowed_path g cs src dst p ->
  link_index <$> p ∈ (λ q : PathAndStartIndex, Walk.links_ q.1) <$> k_paths_ gen <->
  walk_of p ∈ fst <$> k_paths_ gen.
Proof.
  intros HG Hp. split.
  - intros (q & Hl & Hq)%list_elem_of_fmap.
    destruct (ginv_walk gen q.1 HG) as (p' & Hp' & Hw); [apply list_elem_of_fmap; by exists q|].
    assert (walk_of p = q.1) as ->; [|apply list_elem_of_fmap; by exists q]. rewrite Hw. rewrite Hw in Hl.
    unfold walk_of in *. cbn in Hl. rewrite Hl. f_equal.
    rewrite <-(allowed_total p Hp), Hl. by apply allowed_total.
  - intros (q & Hl & Hq)%list_elem_of_fmap. apply list_elem_of_fmap. exists q. by rewrite <-Hl.
Qed.

Lemma ginv_shortest_first gen :
  ginv g cs src dst gen -> shortest_first g cs src dst (fst <$> k_paths_ gen).
Proof.
  intros HG. destruct (ginv_yinv _ _ _ _ _ HG) as (C & Rp & [HY|Hnil]).
  2: { rewrite Hnil. split; [by intros ? ?%not_elem_of_nil|constructor|constructor|].
       by intros ? ? _ _ ?%not_elem_of_nil. }
  assert (Hd : (λ w, total g (Walk.links_ w)) <$> (fst <$> k_paths_ gen) = Walk.delay_ <$> (fst <$> k_paths_ gen)).
  { apply list_fmap_ext. intros i w Hw%list_elem_of_lookup_2.
    destruct (ginv_walk gen w HG Hw) as (p & Hp & ->). by apply allowed_total. }
  split.
  - intros w. by apply ginv_walk.
  - rewrite <-list_fmap_compose. apply HY.
  - rewrite <-Hd, <-list_fmap_compose. pose proof (y_sorted _ _ _ _ _ HY) as Hs.
    rewrite <-list_fmap_compose in Hs. exact Hs.
  - intros p w Hp Hnin Hw. destruct (ginv_walk gen w HG Hw) as (p' & Hp' & ->). cbn.
    rewrite <-(allowed_total p Hp), <-(allowed_total p' Hp'). apply (y_order _ _ _ _ _ HY).
    + by apply elem_of_emitted.
    + exists p. split; [done|]. by apply allowed_simple.
    + by rewrite elem_of_emitted.
Qed.
End result.

(** C1: on a storage built from a builder and with no sets to visit, a generator
    answers any sequence of queries without failure: the paths it has generated
    are simple paths over usable links with their delays, all different, sorted
    by delay, and no other simple path is shorter than one of them; the answer
    to query [k] is the [k]-th of them, or null when there are at most [k]
    simple paths, all of which have then been generated. *)
Theorem KShortestPaths_correct (b : GraphBuilder.t) g cs src dst M ks k :
  let ls := GraphBuilder.links_ b in
  fits kIndexBits (length ls) -> fits kIndexBits (size (GraphStorage.names ls)) ->
  GraphStorage.construct b [] = Ok g -> delays_ok (GraphStorage.adjacency_list_ g) M ->
  ConstraintSet.wf cs -> ConstraintSet.to_visit_ cs = [] -> src <> dst ->
  Forall (λ i, Z.of_nat i < 2 ^ 32)%Z (k :: ks) ->
  exists gen0 gen gen' r, construct src dst g cs = Ok gen0 /\ queries ks gen0 = Ok gen /\
    KthShortestPathOrNull gen k = Ok (gen', r) /\
    let ws := fst <$> k_paths_ gen' in
    shortest_first g cs src dst ws /\
    match r with
    | Some w => ws !! k = Some w
    | None => length ws <= k /\ forall p, allowed_path g cs src dst p -> walk_of p ∈ ws
    end.
Proof.
  intros ls Hlen Hnames Hg Hdel Hcs Hvisit Hne [Hk Hks]%Forall_cons.
  pose proof (GraphStorage.pop_wf _ _ _ _ (built_populated b g Hlen Hnames Hg)) as Hwf.
  pose proof (built_neighbor b g Hlen Hnames Hg) as Hlinks.
  pose proof (KthShortestPathOrNull_spec g cs src dst M Hwf Hdel Hlinks Hcs Hvisit Hne) as Hquery.
  destruct (construct_ginv g cs src dst Hvisit) as (gen0 & H0 & HG0). exists gen0.
  assert (Hq : exists gen, queries ks gen0 = Ok gen /\ ginv g cs src dst gen).
  { clear H0. unfold queries. revert gen0 HG0. induction Hks as [|k' ks Hk' Hks IH]; intros gen0 HG0; [eauto|].
    destruct (Hquery gen0 k' HG0 Hk') as (gen1 & r & He & HG1 & _). cbn [mfold]. rewrite He.
    cbn [mbind outcome_bind]. by apply IH. }
  destruct Hq as (gen & Hq & HG). destruct (Hquery gen k HG Hk) as (gen' & r & He & HG' & Hr).
  exists gen, gen', r. split_and!; [done|done|done|]. cbn zeta.
  split; [by eapply ginv_shortest_first|]. rewrite list_lookup_fmap.
  destruct r as [w|]; [done|]. rewrite length_fmap. destruct Hr as [Hl Hall]. split; [done|].
  intros p Hp. apply (elem_of_emitted g cs src dst M Hwf Hdel Hlinks Hne); [done..|].
  apply Hall. exists p. split; [done|]. by apply allowed_simple.
Qed.

Lemma KShortestPaths_correct_witness :
  match GraphStorage.construct (GraphBuilder.mk true triangle) [] with
  | Ok g => exists gen0 gen gen' r, construct 0 2 g ConstraintSet.init = Ok gen0 /\
      queries [0; 5] gen0 = Ok gen /\ KthShortestPathOrNull gen 1 = Ok (gen', r) /\
      fst <$> k_paths_ gen' = [Walk.mk [0; 1] 12%Z; Walk.mk [2] 20%Z] /\ r = Some (Walk.mk [2] 20%Z)
  | Fail _ => False
  end.
Proof.
  destruct (GraphStorage.construct (GraphBuilder.mk true triangle) []) as [g|] eqn:E.
  - destruct (KShortestPaths_correct (GraphBuilder.mk true triangle) g ConstraintSet.init 0 2 20 [0; 5] 1)
      as (gen0 & gen & gen' & r & H0 & Hq & Hk & _).
    + vm_compute. reflexivity.
    + vm_compute. reflexivity.
    + exact E.
    + vm_compute in E. injection E as <-. split; [done|]. split; [each_neighbor|done].
    + apply ConstraintSet.wf_init.
    + reflexivity.
    + done.
    + repeat constructor.
    + exists gen0, gen, gen', r. split_and!; [done..| |].
      all: vm_compute in E; injection E as <-; vm_compute in H0; injection H0 as <-;
           vm_compute in Hq; injection Hq as <-; vm_compute in Hk; injection Hk as <- <-; reflexivity.
  - vm_compute in E. discriminate.
Defined.
