(* ===== verification/DisjunctPaths.v ===== *)
(** Model of [DisjunctKShortestPathsGenerator] ([src/src/net/algorithm.h],
    [src/src/net/algorithm.cc]), which merges the paths of several generators,
    one for each constraint set, with a priority queue.  When the constraint
    sets only exclude links and nodes the merged sequence is proved to be in
    order of delay, to leave out no path and to repeat a path only when another
    one of the same delay comes between; an example shows that this happens. *)

From S2P Require Import Prelude OrderedMap PerfectHash PriorityQueue Graph ShortestPath Constraints.
From S2P Require Import ConstrainedPath Trie PathSearch Yen KShortestPaths.

Module DisjunctKShortestPathsGenerator.

(** A generator index and its next path. *)
Notation PathGenAndPath := (nat * Walk.t)%type (only parsing).
Definition Comparator (lhs rhs : PathGenAndPath) : bool := (Walk.delay_ rhs.2 <? Walk.delay_ lhs.2)%Z.

Record t := mk {
  queue_ : list PathGenAndPath;
  ksp_generators_ : list KShortestPathsGenerator.t;
  k_paths_ : list Walk.t;
  k_path_generator_indices_ : list nat
}.

Definition PopAndEnqueue (d : t) : outcome (t * PathGenAndPath) :=
  '(top, q) ← VectorPriorityQueue.PopTop Comparator (queue_ d);
  let gen_i := top.1 in
  ksp_gen ← vec_at (ksp_generators_ d) gen_i;
  '(ksp_gen, candidate) ←
    KShortestPathsGenerator.KthShortestPathOrNull ksp_gen (KShortestPathsGenerator.k ksp_gen);
  let q := match candidate with
           | None => q
           | Some w => VectorPriorityQueue.emplace Comparator q (gen_i, w)
           end in
  Ok (mk q (<[gen_i := ksp_gen]> (ksp_generators_ d)) (k_paths_ d) (k_path_generator_indices_ d), top).

(** Pops the paths equal to the one that is returned. *)
Fixpoint skip_same (fuel : nat) (to_return : Walk.t) (d : t) : outcome t :=
  match fuel with
  | O => Fail OutOfFuel
  | S fuel' =>
      if VectorPriorityQueue.empty (queue_ d) then Ok d
      else
        top ← VectorPriorityQueue.top (queue_ d);
        if Walk.eqb top.2 to_return then
          '(d, _) ← PopAndEnqueue d; skip_same fuel' to_return d
        else Ok d
  end.

Definition Next (d : t) : outcome (t * option PathGenAndPath) :=
  if VectorPriorityQueue.empty (queue_ d) then Ok (d, None)
  else
    '(d, to_return) ← PopAndEnqueue d;
    d ← skip_same (S (length (ksp_generators_ d))) to_return.2 d;
    Ok (d, Some to_return).

Fixpoint next_paths (delta : nat) (d : t) : outcome (t * bool) :=
  match delta with
  | O => Ok (d, true)
  | S delta' =>
      '(d, next) ← Next d;
      match next with
      | None => Ok (d, false)
      | Some (gen_index, w) =>
          next_paths delta' (mk (queue_ d) (ksp_generators_ d) (k_paths_ d ++ [w])
                               (k_path_generator_indices_ d ++ [gen_index]))
      end
  end.

(** The path with the index of its generator. *)
Definition KthShortestPathOrNull (d : t) (k : nat) : outcome (t * option PathGenAndPath) :=
  if k <? length (k_paths_ d) then
    path ← vec_at (k_paths_ d) k;
    i ← vec_at (k_path_generator_indices_ d) k;
    Ok (d, Some (i, path))
  else
    '(d, found) ← next_paths (k + 1 - length (k_paths_ d)) d;
    if negb found then Ok (d, None)
    else match last (k_path_generator_indices_ d), last (k_paths_ d) with
         | Some i, Some path => Ok (d, Some (i, path))
         | _, _ => Fail Undefined
         end.

Definition ksp_generator (d : t) (i : nat) : outcome KShortestPathsGenerator.t :=
  _ ← check (i <? length (ksp_generators_ d)); vec_at (ksp_generators_ d) i.

(** The first path of the generator at [i] is queued. *)
Definition enqueue_first (d : t) (i : nat) : outcome t :=
  generator ← vec_at (ksp_generators_ d) i;
  '(generator, walk) ←
    KShortestPathsGenerator.KthShortestPathOrNull generator (KShortestPathsGenerator.k generator);
  Ok (mk (match walk with
          | None => queue_ d
          | Some w => VectorPriorityQueue.emplace Comparator (queue_ d) (i, w)
          end) (<[i := generator]> (ksp_generators_ d)) (k_paths_ d) (k_path_generator_indices_ d)).

(** The constraint sets in the order of [std::set]. *)
Definition construct (src dst : nat) (g : GraphStorage.t) (constraints : list ConstraintSet.t) : outcome t :=
  gens ← mfold (λ gens cs, gen ← KShortestPathsGenerator.construct src dst g cs; Ok (gens ++ [gen]))
           constraints [];
  mfold enqueue_first (seq 0 (length gens)) (mk [] gens [] []).

Definition avoid_step (nodes_to_avoid links_to_avoid : PerfectHashSet.t) (current : option Walk.t)
    (generator : KShortestPathsGenerator.t) : outcome (option Walk.t) :=
  p ← KShortestPathsGenerator.ShortestPathThatAvoids generator nodes_to_avoid links_to_avoid;
  match p, current with
  | None, _ => Ok current
  | Some p, Some c => if (Walk.delay_ c <? Walk.delay_ p)%Z then Ok current else Ok (Some p)
  | Some p, None => Ok (Some p)
  end.
Definition ShortestPathThatAvoids (d : t) (nodes_to_avoid links_to_avoid : PerfectHashSet.t)
  : outcome (option Walk.t) :=
  mfold (avoid_step nodes_to_avoid links_to_avoid) (ksp_generators_ d) None.
End DisjunctKShortestPathsGenerator.

(** ** What the merge relies on

    A source of paths for a constraint set: a generator in a state [ps_inv] has
    produced different paths in order of delay, none of which is longer than a
    path that is still to come, and can be asked for the next one. *)
Class PathSource (src dst : nat) (g : GraphStorage.t) (css : list ConstraintSet.t) := {
  ps_inv : ConstraintSet.t -> KShortestPathsGenerator.t -> Prop;
  ps_allowed : ConstraintSet.t -> Walk.t -> Prop;
  ps_construct cs : cs ∈ css ->
    exists gen, KShortestPathsGenerator.construct src dst g cs = Ok gen /\ ps_inv cs gen /\
      KShortestPathsGenerator.k_paths_ gen = [];
  ps_next cs gen : cs ∈ css -> ps_inv cs gen ->
    (Z.of_nat (length (KShortestPathsGenerator.k_paths_ gen)) < 2 ^ 32)%Z ->
    exists gen' r, KShortestPathsGenerator.KthShortestPathOrNull gen (KShortestPathsGenerator.k gen) = Ok (gen', r) /\
      ps_inv cs gen' /\
      match r with
      | Some w => exists i, KShortestPathsGenerator.k_paths_ gen' = KShortestPathsGenerator.k_paths_ gen ++ [(w, i)]
      | None => KShortestPathsGenerator.k_paths_ gen' = KShortestPathsGenerator.k_paths_ gen /\
          forall w, ps_allowed cs w -> w ∈ fst <$> KShortestPathsGenerator.k_paths_ gen'
      end;
  ps_sound cs gen w : cs ∈ css -> ps_inv cs gen -> w ∈ fst <$> KShortestPathsGenerator.k_paths_ gen ->
    ps_allowed cs w;
  ps_distinct cs gen : cs ∈ css -> ps_inv cs gen ->
    NoDup (Walk.links_ <$> (fst <$> KShortestPathsGenerator.k_paths_ gen));
  ps_sorted cs gen : cs ∈ css -> ps_inv cs gen ->
    StronglySorted Z.le (Walk.delay_ <$> (fst <$> KShortestPathsGenerator.k_paths_ gen));
  ps_later cs gen v w : cs ∈ css -> ps_inv cs gen -> ps_allowed cs v ->
    v ∉ fst <$> KShortestPathsGenerator.k_paths_ gen -> w ∈ fst <$> KShortestPathsGenerator.k_paths_ gen ->
    (Walk.delay_ w <= Walk.delay_ v)%Z;
  ps_delay cs cs' v w : cs ∈ css -> cs' ∈ css -> ps_allowed cs v -> ps_allowed cs' w ->
    Walk.links_ v = Walk.links_ w -> v = w
}.

(** *** The merge *)
Section merge.
Context (src dst : nat) (g : GraphStorage.t) (css : list ConstraintSet.t) `{!PathSource src dst g css}.
Import DisjunctKShortestPathsGenerator.
#[local] Notation paths gen := (fst <$> KShortestPathsGenerator.k_paths_ gen).

#[global] Instance Comparator_swo : StrictWeakOrder Comparator.
Proof.
  split; intros *; unfold Comparator; rewrite ?Z.ltb_ge, ?Z.ltb_lt; lia.
Qed.

(** [E] are the paths popped so far. *)
Record dinv (E : Walk.t -> Prop) (d : t) : Prop := {
  d_gens : Forall2 ps_inv css (ksp_generators_ d);
  d_heap : VectorPriorityQueue.heap Comparator (queue_ d);
  d_nodup : NoDup (fst <$> queue_ d);
  d_queued : forall i w, (i, w) ∈ queue_ d ->
    (forall x, E x -> (Walk.delay_ x <= Walk.delay_ w)%Z) /\
    exists gen, ksp_generators_ d !! i = Some gen /\ last (paths gen) = Some w;
  d_exhausted : forall i gen cs, ksp_generators_ d !! i = Some gen -> css !! i = Some cs ->
    i ∉ fst <$> queue_ d -> forall w, ps_allowed cs w -> w ∈ paths gen;
  d_popped : forall i gen w, ksp_generators_ d !! i = Some gen -> w ∈ paths gen -> (i, w) ∉ queue_ d -> E w;
  d_emitted : forall w, E w -> exists cs, cs ∈ css /\ ps_allowed cs w
}.

Lemma gens_lookup E d i gen :
  dinv E d -> ksp_generators_ d !! i = Some gen ->
  exists cs, css !! i = Some cs /\ cs ∈ css /\ ps_inv cs gen.
Proof.
  intros HI Hg. destruct (Forall2_lookup_r _ _ _ _ _ (d_gens _ _ HI) Hg) as (cs & Hcs & Hinv).
  exists cs. split_and!; [done|by eapply list_elem_of_lookup_2|done].
Qed.

(** The candidate that replaces a popped path in the queue. *)
Definition requeued (i : nat) (w : Walk.t) (rest q' : list PathGenAndPath) : Prop :=
  q' ≡ₚ rest \/ exists w', q' ≡ₚ (i, w') :: rest /\ Walk.links_ w' <> Walk.links_ w.

Lemma pop_enqueue_spec E d i w rest :
  dinv E d -> queue_ d = (i, w) :: rest ->
  (forall gen, ksp_generators_ d !! i = Some gen ->
     (Z.of_nat (length (KShortestPathsGenerator.k_paths_ gen)) < 2 ^ 32)%Z) ->
  exists d' gen gen', PopAndEnqueue d = Ok (d', (i, w)) /\ dinv (λ x, E x \/ x = w) d' /\
    requeued i w rest (queue_ d') /\ k_paths_ d' = k_paths_ d /\
    k_path_generator_indices_ d' = k_path_generator_indices_ d /\
    ksp_generators_ d !! i = Some gen /\ ksp_generators_ d' = <[i := gen']> (ksp_generators_ d) /\
    length (KShortestPathsGenerator.k_paths_ gen') <= S (length (KShortestPathsGenerator.k_paths_ gen)).
Proof.
  intros HI Hq Hfit. pose proof HI as [Hgens Hheap Hnd Hqd Hexh Hpop Hem]. rewrite Hq in Hnd.
  assert (Hiw : (i, w) ∈ queue_ d) by (rewrite Hq; apply list_elem_of_here).
  destruct (Hqd i w Hiw) as (Hb & gen & Hgen & Hlast). specialize (Hfit gen Hgen).
  destruct (gens_lookup _ _ _ _ HI Hgen) as (cs & Hcs & Hin & Hinv).
  destruct (ps_next cs gen Hin Hinv Hfit) as (gen' & r & Hnext & Hinv' & Hr).
  pose proof (VectorPriorityQueue.PopTop_spec Comparator (queue_ d) Hheap) as Hpt.
  pose proof (VectorPriorityQueue.heap_top_max Comparator (queue_ d) (i, w) Hheap) as Htop.
  rewrite Hq in Hpt, Htop. specialize (Htop eq_refl). destruct Hpt as (q & Hpt & Hheapq & Hperm).
  unfold PopAndEnqueue. rewrite Hq, Hpt. cbn [mbind outcome_bind fst].
  rewrite (proj2 (vec_at_Ok _ _ _) Hgen). cbn [mbind outcome_bind]. rewrite Hnext. cbn [mbind outcome_bind].
  apply NoDup_cons in Hnd as [Hnew Hnd]. rewrite Forall_forall in Htop.
  assert (Hrest : forall j v, (j, v) ∈ rest -> (Walk.delay_ w <= Walk.delay_ v)%Z /\ j <> i).
  { intros j v Hj. split.
    - specialize (Htop (j, v) (list_elem_of_further _ _ _ Hj)). unfold Comparator in Htop. simpl in Htop. lia.
    - intros ->. apply Hnew, list_elem_of_fmap. by exists (i, v). }
  assert (Hw : w ∈ paths gen) by (by apply last_Some_elem_of).
  assert (Hlt : i < length (ksp_generators_ d)) by (by eapply lookup_lt_Some).
  assert (Hgens' : Forall2 ps_inv css (<[i:=gen']> (ksp_generators_ d))).
  { pose proof (Forall2_insert _ _ _ _ _ i Hgens Hinv') as H. by rewrite (list_insert_id css i cs Hcs) in H. }
  assert (Hkeep : forall w', r = Some w' -> (Walk.delay_ w <= Walk.delay_ w')%Z /\ Walk.links_ w' <> Walk.links_ w).
  { intros w' ->. destruct Hr as [s Hk]. split.
    - pose proof (ps_sorted cs gen' Hin Hinv') as Hs. rewrite Hk, !fmap_app in Hs.
      apply StronglySorted_app_1_elem_of with (x1 := Walk.delay_ w) (x2 := Walk.delay_ w') in Hs; [done| |set_solver].
      apply list_elem_of_fmap. by exists w.
    - pose proof (ps_distinct cs gen' Hin Hinv') as Hd. rewrite Hk, !fmap_app in Hd.
      apply NoDup_app in Hd as (_ & Hd & _). intros Heq. apply (Hd (Walk.links_ w)).
      + apply list_elem_of_fmap. by exists w.
      + simpl. rewrite Heq. by apply list_elem_of_singleton. }
  set (q' := match r with None => q | Some w' => VectorPriorityQueue.emplace Comparator q (i, w') end).
  assert (Hq' : VectorPriorityQueue.heap Comparator q' /\
            q' ≡ₚ match r with None => rest | Some w' => (i, w') :: rest end).
  { unfold q'. destruct r as [w'|]; [|done].
    destruct (VectorPriorityQueue.emplace_spec Comparator q (i, w') Hheapq) as [Hh Hp].
    split; [exact Hh|]. etrans; [exact Hp|]. by apply Permutation_skip. }
  destruct Hq' as [Hheap' Hperm'].
  assert (Hpaths : forall x, x ∈ paths gen' -> (i, x) ∉ q' -> x ∈ paths gen).
  { intros x Hx Hnin. destruct r as [w'|]; [|by destruct Hr as [<- _]]. destruct Hr as [s Hk].
    rewrite Hk, fmap_app in Hx. apply elem_of_app in Hx as [?|Hx]; [done|].
    apply list_elem_of_singleton in Hx as ->. exfalso. apply Hnin. rewrite Hperm'. apply list_elem_of_here. }
  eexists _, gen, gen'. split; [done|]. split; [split; cbn|].
  - done.
  - done.
  - rewrite Hperm'. destruct r; [|done]. rewrite fmap_cons. by apply NoDup_cons.
  - intros j v. rewrite Hperm'. intros Hj.
    destruct (decide ((j, v) ∈ rest)) as [Hjr|Hjr].
    + destruct (Hrest j v Hjr) as [? ?].
      split; [intros x [Hx| ->]; [specialize (Hb x Hx); lia|done]|]. rewrite list_lookup_insert_ne by done.
      apply Hqd. rewrite Hq. by apply list_elem_of_further.
    + destruct r as [w'|]; [|done]. apply elem_of_cons in Hj as [[= -> ->]|?]; [|done].
      destruct (Hkeep _ eq_refl) as [Hv _].
      split; [intros x [Hx| ->]; [specialize (Hb x Hx); lia|done]|]. exists gen'. rewrite list_lookup_insert_eq by done. split; [done|].
      destruct Hr as [s ->]. rewrite fmap_app. apply last_snoc.
  - intros j gen1 cs1 Hg1 Hc1 Hout. rewrite Hperm' in Hout. destruct (decide (j = i)) as [->|Hji].
    + rewrite list_lookup_insert_eq in Hg1 by done. simplify_eq. destruct r as [w'|]; [set_solver|]. apply Hr.
    + rewrite list_lookup_insert_ne in Hg1 by done. apply (Hexh j); [done..|]. rewrite Hq, fmap_cons.
      destruct r; set_solver.
  - intros j gen1 x Hg1 Hx Hnin. destruct (decide (j = i)) as [->|Hji].
    + rewrite list_lookup_insert_eq in Hg1 by done. injection Hg1 as <-. specialize (Hpaths x Hx Hnin).
      destruct (decide (x = w)) as [->|Hxw]; [by right|]. left. apply (Hpop i gen); [done..|].
      rewrite Hq. intros [[= ?]|Hr']%elem_of_cons; [done|]. by destruct (Hrest _ _ Hr').
    + rewrite list_lookup_insert_ne in Hg1 by done. left. apply (Hpop j gen1); [done..|].
      rewrite Hq. intros [[= ? _]|Hr']%elem_of_cons; [done|]. apply Hnin. rewrite Hperm'.
      destruct r; [by apply list_elem_of_further|done].
  - intros x [Hx| ->].
    + by apply Hem.
    + exists cs. split; [done|]. by apply (ps_sound cs gen).
  - split_and!; try done.
    + unfold requeued. cbn. destruct r as [w'|]; [right|by left]. exists w'. split; [done|by apply Hkeep].
    + destruct r as [w'|]; [destruct Hr as [s ->]; rewrite length_app; simpl; lia|destruct Hr as [-> _]; lia].
Qed.

Lemma dinv_ext E E' d : (forall x, E x <-> E' x) -> dinv E d -> dinv E' d.
Proof.
  intros HE []. split; try done.
  - intros i w Hw. destruct (d_queued0 i w Hw) as [Hb Hg]. split; [|done]. intros x Hx%HE. auto.
  - intros i gen w Hg Hw Hn. apply HE. eauto.
  - intros w Hw%HE. auto.
Qed.

Definition bounded (n : nat) (d : t) : Prop :=
  forall i gen, ksp_generators_ d !! i = Some gen -> length (KShortestPathsGenerator.k_paths_ gen) <= S n.

(** While the copies of [w] are popped, a generator has moved on at most once,
    and then its candidate is another path. *)
Definition skipping (n : nat) (w : Walk.t) (d : t) : Prop :=
  forall i gen, ksp_generators_ d !! i = Some gen ->
    length (KShortestPathsGenerator.k_paths_ gen) <= S n \/
    (length (KShortestPathsGenerator.k_paths_ gen) <= S (S n) /\
     forall v, (i, v) ∈ queue_ d -> Walk.links_ v <> Walk.links_ w).

Definition copies (w : Walk.t) (q : list PathGenAndPath) : nat :=
  length (filter (λ e, Walk.links_ e.2 = Walk.links_ w) q).

(** Popping a copy of [w] keeps a generator from being asked twice. *)
Lemma skipping_pop n w d d' i v rest gen gen' :
  skipping n w d -> NoDup (fst <$> queue_ d) -> queue_ d = (i, v) :: rest -> Walk.links_ v = Walk.links_ w ->
  requeued i v rest (queue_ d') -> ksp_generators_ d !! i = Some gen ->
  ksp_generators_ d' = <[i := gen']> (ksp_generators_ d) ->
  length (KShortestPathsGenerator.k_paths_ gen') <= S (length (KShortestPathsGenerator.k_paths_ gen)) ->
  length (KShortestPathsGenerator.k_paths_ gen) <= S n ->
  skipping n w d' /\ S (copies w (queue_ d')) = copies w (queue_ d).
Proof.
  intros Hs Hnd Hq Hv Hre Hg Hg' Hlen Hn. rewrite Hq in Hnd. apply NoDup_cons in Hnd as [Hnew _]. split.
  - intros j gj Hj. rewrite Hg' in Hj. destruct (decide (j = i)) as [->|Hji].
    + rewrite list_lookup_insert_eq in Hj by (by eapply lookup_lt_Some). injection Hj as <-. right.
      split; [lia|]. intros x Hx. destruct Hre as [Hp|(w' & Hp & Hne)]; rewrite Hp in Hx.
      * exfalso. apply Hnew, list_elem_of_fmap. by exists (i, x).
      * apply elem_of_cons in Hx as [[= ->]|Hx]; [congruence|].
        exfalso. apply Hnew, list_elem_of_fmap. by exists (i, x).
    + rewrite list_lookup_insert_ne in Hj by done. destruct (Hs j gj Hj) as [?|[? Hno]]; [by left|]. right.
      split; [done|]. intros x Hx. apply Hno. rewrite Hq.
      destruct Hre as [Hp|(w' & Hp & _)]; rewrite Hp in Hx; [by apply list_elem_of_further|].
      apply elem_of_cons in Hx as [[= ? _]|Hx]; [done|by apply list_elem_of_further].
  - unfold copies. rewrite Hq, filter_cons_True by done. simpl. f_equal.
    destruct Hre as [Hp|(w' & Hp & Hne)]; rewrite Hp; [done|].
    rewrite filter_cons_False; [done|]. simpl. congruence.
Qed.

(** No copy of [w] is at the top of the queue. *)
Definition passed (w : Walk.t) (q : list PathGenAndPath) : Prop :=
  forall e, head q = Some e -> Walk.links_ e.2 <> Walk.links_ w.

Lemma skip_same_spec fuel E w n d :
  dinv E d -> E w -> skipping n w d -> (Z.of_nat (S n) < 2 ^ 32)%Z -> copies w (queue_ d) < fuel ->
  exists d', skip_same fuel w d = Ok d' /\ dinv E d' /\ bounded (S n) d' /\ k_paths_ d' = k_paths_ d /\
    k_path_generator_indices_ d' = k_path_generator_indices_ d /\ passed w (queue_ d').
Proof.
  revert d. induction fuel as [|fuel IH]; intros d HI HE Hs Hn Hc; [lia|].
  assert (Hdone : bounded (S n) d) by (intros i gen Hg; destruct (Hs i gen Hg) as [?|[? _]]; lia).
  cbn [skip_same]. destruct (queue_ d) as [|[i v] rest] eqn:Hq; cbn [VectorPriorityQueue.empty].
  { exists d. rewrite Hq. by split_and!. }
  cbn [VectorPriorityQueue.top vec_at lookup list_lookup mbind outcome_bind snd]. unfold Walk.eqb.
  case_bool_decide as Hv; [|exists d; rewrite Hq; split_and!; try done; by intros e [= <-]].
  assert (Hiv : (i, v) ∈ queue_ d) by (rewrite Hq; apply list_elem_of_here).
  destruct (d_queued _ _ HI i v Hiv) as (_ & gen & Hg & Hlast).
  assert (Hlen : length (KShortestPathsGenerator.k_paths_ gen) <= S n).
  { destruct (Hs i gen Hg) as [?|[_ Hno]]; [done|]. by apply Hno in Hiv. }
  destruct (pop_enqueue_spec E d i v rest HI Hq) as (d1 & gen0 & gen' & Hpop & HI1 & Hre & Hk & Hidx & Hg0 & Hg' & Hlen').
  { intros gen1 Hg1. simplify_eq. lia. }
  simplify_eq. rewrite Hpop. cbn [mbind outcome_bind].
  destruct (skipping_pop n w d d1 i v rest gen gen' Hs (d_nodup _ _ HI) Hq Hv Hre Hg Hg' Hlen' Hlen) as [Hs1 Hc1].
  assert (v = w) as ->.
  { destruct (gens_lookup _ _ _ _ HI Hg) as (cs & _ & Hin & Hinv).
    destruct (d_emitted _ _ HI w HE) as (cs' & Hin' & Hal').
    apply (ps_delay cs cs'); try done. apply (ps_sound cs gen); [done..|]. by apply last_Some_elem_of. }
  destruct (IH d1) as (d' & -> & HI' & Hb & Hk' & Hidx' & Hps); try done.
  - eapply dinv_ext; [|exact HI1]. naive_solver.
  - rewrite Hq in Hc1. lia.
  - exists d'. split_and!; [done..|congruence|congruence|done].
Qed.

Lemma queue_length E d : dinv E d -> length (queue_ d) <= length (ksp_generators_ d).
Proof.
  intros HI. rewrite <-(length_fmap fst). transitivity (length (seq 0 (length (ksp_generators_ d)))).
  - apply submseteq_length, NoDup_submseteq; [apply HI|]. intros i ([j w] & -> & Hin)%list_elem_of_fmap.
    destruct (d_queued _ _ HI j w Hin) as (_ & gen & Hg & _). apply lookup_lt_Some in Hg. apply elem_of_seq. simpl. lia.
  - by rewrite length_seq.
Qed.

Lemma Next_spec E n d :
  dinv E d -> bounded n d -> (Z.of_nat (S n) < 2 ^ 32)%Z ->
  (queue_ d = [] /\ Next d = Ok (d, None)) \/
  exists d' i w cs, Next d = Ok (d', Some (i, w)) /\ dinv (λ x, E x \/ x = w) d' /\ bounded (S n) d' /\
    k_paths_ d' = k_paths_ d /\ k_path_generator_indices_ d' = k_path_generator_indices_ d /\
    css !! i = Some cs /\ ps_allowed cs w /\ (forall x, E x -> (Walk.delay_ x <= Walk.delay_ w)%Z) /\
    head (queue_ d) = Some (i, w) /\ passed w (queue_ d').
Proof.
  intros HI Hb Hn. unfold Next. destruct (queue_ d) as [|[i w] rest] eqn:Hq; [by left|right].
  cbn [VectorPriorityQueue.empty].
  assert (Hiw : (i, w) ∈ queue_ d) by (rewrite Hq; apply list_elem_of_here).
  destruct (d_queued _ _ HI i w Hiw) as (Hlow & gen & Hg & Hlast).
  destruct (gens_lookup _ _ _ _ HI Hg) as (cs & Hcs & Hin & Hinv).
  destruct (pop_enqueue_spec E d i w rest HI Hq) as (d1 & gen0 & gen' & -> & HI1 & Hre & Hk & Hidx & Hg0 & Hg' & Hlen').
  { intros gen1 Hg1. specialize (Hb i gen1 Hg1). lia. }
  assert (gen0 = gen) as -> by congruence.
  destruct (skipping_pop n w d d1 i w rest gen gen') as [Hs1 _]; try done;
    [intros j gj Hj; left; by eapply Hb|apply HI|by eapply Hb|].
  cbn [mbind outcome_bind snd].
  destruct (skip_same_spec (S (length (ksp_generators_ d1))) (λ x, E x \/ x = w) w n d1) as
    (d' & -> & HI' & Hb' & Hk' & Hidx' & Hps); try done; [by right| |].
  { pose proof (queue_length _ _ HI1). unfold copies.
    pose proof (length_filter (λ e : PathGenAndPath, Walk.links_ e.2 = Walk.links_ w) (queue_ d1)). lia. }
  exists d', i, w, cs. cbn [mbind outcome_bind]. rewrite ?Hq. split_and!; try done; [congruence|congruence|].
  apply (ps_sound cs gen); [done..|]. by apply last_Some_elem_of.
Qed.

(** *** Queries *)

Record sinv (d : t) : Prop := {
  s_dinv : dinv (λ w, w ∈ k_paths_ d) d;
  s_bounded : bounded (length (k_paths_ d)) d;
  s_sorted : StronglySorted Z.le (Walk.delay_ <$> k_paths_ d);
  s_length : length (k_path_generator_indices_ d) = length (k_paths_ d);
  s_origin : forall j w, k_paths_ d !! j = Some w -> exists i cs,
    k_path_generator_indices_ d !! j = Some i /\ css !! i = Some cs /\ ps_allowed cs w;
  s_passed : forall w, last (k_paths_ d) = Some w -> passed w (queue_ d);
  s_differ : forall j v w, k_paths_ d !! j = Some v -> k_paths_ d !! S j = Some w -> Walk.links_ w <> Walk.links_ v
}.

(** The exhausted generators have handed out everything. *)
Lemma sinv_complete d cs w : sinv d -> queue_ d = [] -> cs ∈ css -> ps_allowed cs w -> w ∈ k_paths_ d.
Proof.
  intros [HI _ _ _ _ _ _] Hq [i Hi]%list_elem_of_lookup_1 Hw.
  destruct (Forall2_lookup_l _ _ _ _ _ (d_gens _ _ HI) Hi) as (gen & Hg & _).
  apply (d_popped _ _ HI i gen); [done| |rewrite Hq; by apply not_elem_of_nil].
  apply (d_exhausted _ _ HI i gen cs); [done..|by rewrite Hq; apply not_elem_of_nil|done].
Qed.

Lemma delays_sorted_lookup {A} (R : relation A) l i j x y :
  StronglySorted R l -> i < j -> l !! i = Some x -> l !! j = Some y -> R x y.
Proof.
  intros Hs. revert i j. induction Hs as [|a l Hs IH Hall]; intros [|i] [|j] Hij Hi Hj; try lia; try done.
  - injection Hi as <-. rewrite Forall_forall in Hall. by apply Hall, list_elem_of_lookup_2 with j.
  - apply (IH i j); [lia|done..].
Qed.

(** Between two copies of a path is another one of the same delay. *)
Lemma sinv_repeats d j j' w :
  sinv d -> j < j' -> k_paths_ d !! j = Some w -> k_paths_ d !! j' = Some w ->
  exists m v, j < m < j' /\ k_paths_ d !! m = Some v /\ Walk.links_ v <> Walk.links_ w /\
    Walk.delay_ v = Walk.delay_ w.
Proof.
  intros HS Hj Hw Hw'. pose proof (lookup_lt_Some _ _ _ Hw') as Hlt.
  destruct (lookup_lt_is_Some_2 (k_paths_ d) (S j)) as [v Hv]; [lia|].
  pose proof (s_differ _ HS j w v Hw Hv) as Hne. exists (S j), v.
  assert (S j <> j') by (intros <-; congruence). split_and!; [lia..|done|done|].
  assert (Hle : forall a c x y, a < c -> k_paths_ d !! a = Some x -> k_paths_ d !! c = Some y ->
            (Walk.delay_ x <= Walk.delay_ y)%Z).
  { intros a c x y Hac Ha Hc. apply (delays_sorted_lookup Z.le (Walk.delay_ <$> k_paths_ d) a c);
      [apply HS|done|by rewrite list_lookup_fmap, Ha|by rewrite list_lookup_fmap, Hc]. }
  apply Z.le_antisymm; [apply (Hle (S j) j')|apply (Hle j (S j))]; auto with lia.
Qed.

(** A path that was not handed out is not shorter than one that was. *)
Lemma sinv_later d cs v w :
  sinv d -> cs ∈ css -> ps_allowed cs v -> v ∉ k_paths_ d -> w ∈ k_paths_ d ->
  (Walk.delay_ w <= Walk.delay_ v)%Z.
Proof.
  intros [HI _ _ _ _ _ _] Hin Hv Hnin Hw. pose proof Hin as [i Hi]%list_elem_of_lookup_1.
  destruct (Forall2_lookup_l _ _ _ _ _ (d_gens _ _ HI) Hi) as (gen & Hg & Hinv).
  destruct (decide (i ∈ fst <$> queue_ d)) as [([j x] & -> & Hq)%list_elem_of_fmap|Hout].
  - destruct (d_queued _ _ HI j x Hq) as (Hlow & gen' & Hg' & Hlast). simpl in *. simplify_eq.
    specialize (Hlow w Hw). destruct (decide (v ∈ paths gen)) as [Hvg|Hvg].
    + destruct (decide (v = x)) as [->|Hvx]; [done|]. exfalso. apply Hnin.
      apply (d_popped _ _ HI j gen); [done..|]. intros Hjv. apply Hvx.
      assert (Heq : (j, v) = (j, x)); [|by injection Heq].
      destruct (list_elem_of_lookup_1 _ _ Hq) as [a Ha], (list_elem_of_lookup_1 _ _ Hjv) as [c Hc].
      assert (a = c) as <-; [|congruence].
      eapply (NoDup_lookup (fst <$> queue_ d)); [apply HI|by rewrite list_lookup_fmap, Ha|by rewrite list_lookup_fmap, Hc].
    + pose proof (ps_later cs gen v x Hin Hinv Hv Hvg (last_Some_elem_of _ _ Hlast)). lia.
  - exfalso. apply Hnin. apply (d_popped _ _ HI i gen); [done| |].
    + by apply (d_exhausted _ _ HI i gen cs).
    + intros Hq. apply Hout, list_elem_of_fmap. by exists (i, v).
Qed.

Lemma next_paths_sinv delta d :
  sinv d -> (Z.of_nat (length (k_paths_ d) + delta) < 2 ^ 32)%Z ->
  exists d' b, next_paths delta d = Ok (d', b) /\ sinv d' /\
    if (b : bool) then length (k_paths_ d') = length (k_paths_ d) + delta
    else length (k_paths_ d') < length (k_paths_ d) + delta /\ queue_ d' = [].
Proof.
  revert d. induction delta as [|delta IH]; intros d HS Hfit.
  { exists d, true. split_and!; [done..|lia]. }
  pose proof HS as [HI Hb Hs Hl Ho Hp Hd]. cbn [next_paths].
  destruct (Next_spec _ _ d HI Hb) as [[Hq ->]|(d1 & i & w & cs & -> & HI1 & Hb1 & Hk & Hidx & Hcs & Hw & Hlow & Htop & Hps)]; [lia| |];
    cbn [mbind outcome_bind].
  { exists d, false. split_and!; [done..|lia|done]. }
  set (d2 := mk _ _ _ _). destruct (IH d2) as (d' & b & -> & HS' & Hr); unfold d2; cbn.
  - split; cbn.
    + destruct HI1 as [H1 H2 H3 H4 H5 H6 H7]. rewrite Hk.
      assert (HE : forall x, x ∈ k_paths_ d ++ [w] <-> x ∈ k_paths_ d \/ x = w)
        by (intros x; by rewrite elem_of_app, list_elem_of_singleton).
      apply (dinv_ext (λ x, x ∈ k_paths_ d \/ x = w)); [naive_solver|]. by split.
    + intros j gj Hj. specialize (Hb1 j gj Hj). rewrite Hk, length_app. simpl. lia.
    + rewrite Hk, fmap_app. apply StronglySorted_app_2; [|done|repeat constructor].
      intros x y (v & -> & Hv)%list_elem_of_fmap ->%list_elem_of_singleton. by apply Hlow.
    + rewrite !length_app, Hk, Hidx. simpl. lia.
    + intros j x. rewrite Hk, Hidx. intros [Hj|[Hge Hj]]%lookup_app_Some.
      * destruct (Ho j x Hj) as (i' & cs' & Hi' & ?). exists i', cs'. split; [by apply lookup_app_l_Some|done].
      * apply list_lookup_singleton_Some in Hj as [Hj <-]. exists i, cs. split; [|done].
        rewrite lookup_app_r by lia. by replace (j - _) with 0 by lia.
    + rewrite Hk. intros x. rewrite last_snoc. by intros [= <-].
    + intros j v x. rewrite Hk. intros Hj [Hj'|[Hge Hj']]%lookup_app_Some.
      * rewrite lookup_app_l in Hj by (apply lookup_lt_Some in Hj'; lia). by apply (Hd j).
      * apply list_lookup_singleton_Some in Hj' as [Hj' <-]. rewrite lookup_app_l in Hj by lia.
        apply (Hp v) with (e := (i, w)); [|done]. by rewrite last_lookup, <-Hj; f_equal; lia.
  - rewrite Hk, length_app. simpl. lia.
  - exists d', b. split_and!; [done..|]. unfold d2 in Hr. cbn in Hr. rewrite Hk, length_app in Hr. simpl in Hr.
    destruct b; [lia|]. destruct Hr. split; [lia|done].
Qed.

Lemma KthShortestPathOrNull_sinv d k :
  sinv d -> (Z.of_nat (S k) < 2 ^ 32)%Z ->
  exists d' r, KthShortestPathOrNull d k = Ok (d', r) /\ sinv d' /\
    match r with
    | Some (i, w) => k_paths_ d' !! k = Some w /\ k_path_generator_indices_ d' !! k = Some i
    | None => length (k_paths_ d') <= k /\ queue_ d' = []
    end.
Proof.
  intros HS Hk. unfold KthShortestPathOrNull. destruct (Nat.ltb_spec k (length (k_paths_ d))) as [Hlt|Hge].
  { destruct (lookup_lt_is_Some_2 _ _ Hlt) as [w Hw]. destruct (s_origin _ HS k w Hw) as (i & cs & Hi & _).
    rewrite (proj2 (vec_at_Ok _ _ _) Hw), (proj2 (vec_at_Ok _ _ _) Hi). eexists d, _. by split_and!. }
  destruct (next_paths_sinv (k + 1 - length (k_paths_ d)) d HS) as (d' & b & -> & HS' & Hb); [lia|].
  cbn [mbind outcome_bind]. destruct b; cbn [negb].
  - rewrite !last_lookup, (s_length _ HS'), Hb. replace (pred _) with k by lia.
    destruct (lookup_lt_is_Some_2 (k_paths_ d') k) as [w Hw]; [lia|].
    destruct (s_origin _ HS' k w Hw) as (i & cs & Hi & _). rewrite Hw, Hi. eexists d', _. by split_and!.
  - exists d', None. destruct Hb. split_and!; [done..|lia|done].
Qed.

(** *** Construction *)

(** The first paths of the generators before [n] are queued. *)
Record cinv (n : nat) (d : t) : Prop := {
  c_gens : Forall2 ps_inv css (ksp_generators_ d);
  c_heap : VectorPriorityQueue.heap Comparator (queue_ d);
  c_nodup : NoDup (fst <$> queue_ d);
  c_queued : forall i w, (i, w) ∈ queue_ d -> i < n /\
    exists gen, ksp_generators_ d !! i = Some gen /\ paths gen = [w];
  c_other : forall i gen cs, ksp_generators_ d !! i = Some gen -> css !! i = Some cs ->
    i ∉ fst <$> queue_ d -> paths gen = [] /\ (i < n -> forall w, ~ ps_allowed cs w);
  c_empty : k_paths_ d = [] /\ k_path_generator_indices_ d = []
}.

Lemma enqueue_first_spec n d :
  cinv n d -> n < length css -> exists d', enqueue_first d n = Ok d' /\ cinv (S n) d'.
Proof.
  intros [Hgens Hheap Hnd Hqd Hother Hempty] Hn.
  destruct (lookup_lt_is_Some_2 css n Hn) as [cs Hcs]. pose proof (list_elem_of_lookup_2 _ _ _ Hcs) as Hin.
  destruct (Forall2_lookup_l _ _ _ _ _ Hgens Hcs) as (gen & Hg & Hinv).
  assert (Hnew : n ∉ fst <$> queue_ d).
  { intros ([j w] & -> & Hj)%list_elem_of_fmap. apply Hqd in Hj as [? _]. simpl in *. lia. }
  destruct (Hother n gen cs Hg Hcs Hnew) as [Hnil _]. apply fmap_nil_inv in Hnil.
  destruct (ps_next cs gen Hin Hinv) as (gen' & r & Hnext & Hinv' & Hr); [rewrite Hnil; simpl; lia|].
  unfold enqueue_first. rewrite (proj2 (vec_at_Ok _ _ _) Hg). cbn [mbind outcome_bind].
  rewrite Hnext. cbn [mbind outcome_bind]. eexists. split; [done|].
  set (q' := match r with None => queue_ d | Some w => VectorPriorityQueue.emplace Comparator (queue_ d) (n, w) end).
  assert (Hq' : VectorPriorityQueue.heap Comparator q' /\
            q' ≡ₚ match r with None => queue_ d | Some w => (n, w) :: queue_ d end).
  { unfold q'. destruct r as [w|]; [|done].
    apply (VectorPriorityQueue.emplace_spec Comparator (queue_ d) (n, w) Hheap). }
  destruct Hq' as [Hheap' Hperm]. assert (Hlt : n < length (ksp_generators_ d)) by (by eapply lookup_lt_Some).
  rewrite Hnil in Hr. split; cbn.
  - pose proof (Forall2_insert _ _ _ _ _ n Hgens Hinv') as H. by rewrite (list_insert_id css n cs Hcs) in H.
  - done.
  - rewrite Hperm. destruct r; [|done]. rewrite fmap_cons. by apply NoDup_cons.
  - intros i w. rewrite Hperm. intros Hiw. destruct (decide (i = n)) as [->|Hne].
    + split; [lia|]. exists gen'. rewrite list_lookup_insert_eq by done. split; [done|].
      destruct r as [v|]; [|exfalso; apply Hnew, list_elem_of_fmap; by exists (n, w)].
      apply elem_of_cons in Hiw as [[= ->]|Hiw]; [by destruct Hr as [s ->]|].
      exfalso. apply Hnew, list_elem_of_fmap. by exists (n, w).
    + rewrite list_lookup_insert_ne by done. destruct (Hqd i w) as [? ?]; [|split; [lia|done]].
      destruct r; [|done]. by apply elem_of_cons in Hiw as [[= ? _]|?].
  - intros i gi ci Hgi Hci Hout. rewrite Hperm in Hout. destruct (decide (i = n)) as [->|Hne].
    + rewrite list_lookup_insert_eq in Hgi by done. simplify_eq. destruct r as [v|]; [set_solver|].
      destruct Hr as [-> Hall]. split; [done|]. intros _ w Hw%Hall. by apply not_elem_of_nil in Hw.
    + rewrite list_lookup_insert_ne in Hgi by done. destruct (Hother i gi ci Hgi Hci) as [? Hc]; [destruct r; set_solver|].
      split; [done|]. intros Hi. apply Hc. lia.
  - done.
Qed.

Lemma construct_sinv : exists d, construct src dst g css = Ok d /\ sinv d.
Proof.
  assert (Hgens : exists gens, mfold (λ gens cs, gen ← KShortestPathsGenerator.construct src dst g cs; Ok (gens ++ [gen]))
            css [] = Ok gens /\
          Forall2 (λ cs gen, ps_inv cs gen /\ KShortestPathsGenerator.k_paths_ gen = []) css gens).
  { destruct (mfold_inv (λ l gens, Forall2 (λ cs gen, ps_inv cs gen /\ KShortestPathsGenerator.k_paths_ gen = []) l gens)
      (λ gens cs, gen ← KShortestPathsGenerator.construct src dst g cs; Ok (gens ++ [gen])) css [])
      as (gens & ? & ?); [constructor| |eauto].
    intros l cs gens [r Hr] HF. destruct (ps_construct cs) as (gen & -> & Hinv & Hnil).
    { rewrite Hr, !elem_of_app, list_elem_of_singleton. auto. }
    eexists. split; [done|]. apply Forall2_app; [done|]. by constructor. }
  destruct Hgens as (gens & Hm & HF). pose proof (Forall2_length _ _ _ HF) as Hlen.
  unfold construct. rewrite Hm. cbn [mbind outcome_bind].
  destruct (mfold_seq_inv cinv enqueue_first (length gens) (mk [] gens [] [])) as (d & -> & HC).
  - split; cbn; [|by intros ?|constructor|by intros ? ? ?%not_elem_of_nil| |done].
    + eapply Forall2_impl; [exact HF|]. by intros cs gen [? _].
    + intros i gen cs Hg Hc _. destruct (Forall2_lookup_lr _ _ _ _ _ _ HF Hc Hg) as [_ ->].
      split; [done|]. intros ?. lia.
  - intros i d Hi HC. apply enqueue_first_spec; [done|lia].
  - exists d. split; [done|]. destruct HC as [Hg Hh Hnd Hqd Hother [Hk Hidx]].
    assert (Hcs : forall i gen, ksp_generators_ d !! i = Some gen -> exists cs, css !! i = Some cs /\ i < length gens).
    { intros i gen Hi. destruct (Forall2_lookup_r _ _ _ _ _ Hg Hi) as (cs & Hc & _). exists cs. split; [done|].
      apply lookup_lt_Some in Hc. lia. }
    split; rewrite ?Hk, ?Hidx; [split; try done| |constructor|done|done|done|done].
    + intros i w Hiw. split; [by intros x ?%not_elem_of_nil|]. destruct (Hqd i w Hiw) as (_ & gen & ? & Hp).
      exists gen. split; [done|]. by rewrite Hp.
    + intros i gen cs Hi Hc Hout w Hw. destruct (Hother i gen cs Hi Hc Hout) as [_ Hno].
      destruct (Hcs i gen Hi) as (_ & _ & Hlt). by apply Hno in Hw.
    + intros i gen w Hi Hw Hout. exfalso. destruct (Hcs i gen Hi) as (cs & Hc & _).
      destruct (decide (i ∈ fst <$> queue_ d)) as [([j v] & -> & Hj)%list_elem_of_fmap|Hni].
      * destruct (Hqd j v Hj) as (_ & gen' & ? & Hp). simpl in *. simplify_eq. rewrite Hp in Hw.
        apply list_elem_of_singleton in Hw as ->. done.
      * destruct (Hother i gen cs Hi Hc Hni) as [Hp _]. rewrite Hp in Hw. by apply not_elem_of_nil in Hw.
    + by intros w ?%not_elem_of_nil.
    + intros i gen Hi. etrans; [apply (Nat.eq_le_incl _ (length (paths gen))); symmetry; apply length_fmap|]. destruct (Hcs i gen Hi) as (cs & Hc & _).
      destruct (decide (i ∈ fst <$> queue_ d)) as [([j v] & -> & Hj)%list_elem_of_fmap|Hni].
      * destruct (Hqd j v Hj) as (_ & gen' & ? & Hp). simpl in *. simplify_eq. rewrite Hp. simpl. lia.
      * destruct (Hother i gen cs Hi Hc Hni) as [Hp _]. rewrite Hp. simpl. lia.
Qed.
End merge.

(** ** Properties *)

Import DisjunctKShortestPathsGenerator.

(** The generators of paths without sets to visit are such sources. *)
Section source.
Context (b : GraphBuilder.t) (g : GraphStorage.t) (css : list ConstraintSet.t) (src dst : nat) (M : Z).
Hypothesis Hlen : fits kIndexBits (length (GraphBuilder.links_ b)).
Hypothesis Hnames : fits kIndexBits (size (GraphStorage.names (GraphBuilder.links_ b))).
Hypothesis Hg : GraphStorage.construct b [] = Ok g.
Hypothesis Hdel : delays_ok (GraphStorage.adjacency_list_ g) M.
Hypothesis Hcss : Forall (λ cs, ConstraintSet.wf cs /\ ConstraintSet.to_visit_ cs = []) css.
Hypothesis Hne : src <> dst.

Lemma ksp_source_facts :
  AdjacencyList.wf (GraphStorage.adjacency_list_ g) /\
  (forall u e, e ∈ AdjacencyList.GetNeighbors (GraphStorage.adjacency_list_ g) u ->
     exists l, PerfectHashStore.items_ (GraphStorage.link_store_ g) !! AdjacencyList.link_index e = Some l /\
       Graph.src l = u /\ Graph.dst l = AdjacencyList.dst_index e /\
       e = GraphStorage.info_of (AdjacencyList.link_index e) l).
Proof.
  split; [exact (GraphStorage.pop_wf _ _ _ _ (built_populated b g Hlen Hnames Hg))|].
  exact (built_neighbor b g Hlen Hnames Hg).
Qed.

#[local] Lemma css_ok cs : cs ∈ css -> ConstraintSet.wf cs /\ ConstraintSet.to_visit_ cs = [].
Proof. rewrite Forall_forall in Hcss. apply Hcss. Qed.

Definition ksp_source : PathSource src dst g css.
Proof.
  destruct ksp_source_facts as [Hwf Hlinks].
  pose proof (λ cs, ginv_shortest_first g cs src dst M Hwf Hdel Hlinks Hne) as Hsf.
  refine {| ps_inv := λ cs gen, ginv g cs src dst gen;
            ps_allowed := λ cs w, exists p, allowed_path g cs src dst p /\ w = walk_of p |}.
  - intros cs [_ Hv]%css_ok. destruct (construct_ginv g cs src dst Hv) as (gen & H & HG).
    exists gen. split_and!; [done..|]. unfold KShortestPathsGenerator.construct, ConstraintSet.SanitizeConstraints in H.
    rewrite Hv in H. by injection H as <-.
  - intros cs gen [Hcw Hv]%css_ok HG Hfit.
    destruct (query_next g cs src dst M Hwf Hdel Hlinks Hcw Hv Hne gen HG Hfit) as (gen' & r & Hq & HG' & Hr).
    exists gen', r. split_and!; [done..|]. destruct r; [done|]. destruct Hr as [Heq Hall]. split; [done|].
    intros w (p & Hp & ->). apply (elem_of_emitted g cs src dst M Hwf Hdel Hlinks Hne gen' p HG' Hp).
    apply Hall. exists p. split; [done|]. by apply allowed_simple.
  - intros cs gen w _ HG Hw. by eapply sf_paths; [apply Hsf|].
  - intros cs gen _ HG. by eapply sf_distinct, Hsf.
  - intros cs gen _ HG. by eapply sf_sorted, Hsf.
  - intros cs gen v w _ HG (p & Hp & ->) Hv Hw. by eapply sf_shorter; [apply Hsf|..].
  - intros cs cs' v w _ _ (p & Hp & ->) (q & Hq & ->) Heq. unfold walk_of in *. cbn in Heq. rewrite Heq. f_equal.
    rewrite <-(allowed_total g cs src dst M Hwf Hdel Hlinks Hne p Hp), Heq.
    by apply (allowed_total g cs' src dst M Hwf Hdel Hlinks Hne q).
Defined.
End source.

(** Earlier queries. *)
Definition disjunct_queries (ks : list nat) (d : t) : outcome t :=
  mfold (λ d k, '(d, _) ← KthShortestPathOrNull d k; Ok d) ks d.

(** C2: for constraint sets that only exclude links and nodes, the merged
    generator answers any sequence of queries without failure: every path it
    has handed out is an allowed path of the constraint set of the generator it
    reports, the paths are in order of delay, a path is handed out again only
    after a different path of the same delay (so that two paths in a row always
    differ), and no allowed path of any set that was not handed out is shorter
    than one that was; the answer to query
    [k] is the [k]-th path, or null when all allowed paths have been handed
    out. *)
Theorem DisjunctKShortestPaths_merges (b : GraphBuilder.t) g css src dst M ks k :
  let ls := GraphBuilder.links_ b in
  fits kIndexBits (length ls) -> fits kIndexBits (size (GraphStorage.names ls)) ->
  GraphStorage.construct b [] = Ok g -> delays_ok (GraphStorage.adjacency_list_ g) M ->
  Forall (λ cs, ConstraintSet.wf cs /\ ConstraintSet.to_visit_ cs = []) css -> src <> dst ->
  Forall (λ i, Z.of_nat (S i) < 2 ^ 32)%Z (k :: ks) ->
  exists d0 d d' r, construct src dst g css = Ok d0 /\ disjunct_queries ks d0 = Ok d /\
    KthShortestPathOrNull d k = Ok (d', r) /\
    let ws := k_paths_ d' in
    (forall j w, ws !! j = Some w -> exists i cs p, k_path_generator_indices_ d' !! j = Some i /\
       css !! i = Some cs /\ allowed_path g cs src dst p /\ w = walk_of p) /\
    StronglySorted Z.le (Walk.delay_ <$> ws) /\
    (forall j j' w, j < j' -> ws !! j = Some w -> ws !! j' = Some w ->
       exists m v, j < m < j' /\ ws !! m = Some v /\ Walk.links_ v <> Walk.links_ w /\
         Walk.delay_ v = Walk.delay_ w) /\
    (forall cs p w, cs ∈ css -> allowed_path g cs src dst p -> walk_of p ∉ ws -> w ∈ ws ->
       (Walk.delay_ w <= ShortestPath.cost p)%Z) /\
    match r with
    | Some (i, w) => ws !! k = Some w /\ k_path_generator_indices_ d' !! k = Some i
    | None => length ws <= k /\ forall cs p, cs ∈ css -> allowed_path g cs src dst p -> walk_of p ∈ ws
    end.
Proof.
  intros ls Hlen Hnames Hg Hdel Hcss Hne [Hk Hks]%Forall_cons.
  set (HPS := ksp_source b g css src dst M Hlen Hnames Hg Hdel Hcss Hne).
  assert (Hal : forall cs w, @ps_allowed src dst g css HPS cs w <->
            exists p, allowed_path g cs src dst p /\ w = walk_of p).
  { intros cs w. unfold HPS, ksp_source. by destruct (ksp_source_facts b g Hlen Hnames Hg). }
  destruct (construct_sinv src dst g css) as (d0 & H0 & HS0). exists d0.
  assert (Hq : exists d, disjunct_queries ks d0 = Ok d /\ sinv src dst g css d).
  { clear H0. unfold disjunct_queries. revert d0 HS0. induction Hks as [|k' ks Hk' Hks IH]; intros d0 HS0; [eauto|].
    destruct (KthShortestPathOrNull_sinv src dst g css d0 k' HS0 Hk') as (d1 & r & He & HS1 & _).
    cbn [mfold]. rewrite He. cbn [mbind outcome_bind]. by apply IH. }
  destruct Hq as (d & Hq & HS).
  destruct (KthShortestPathOrNull_sinv src dst g css d k HS Hk) as (d' & r & He & HS' & Hr).
  exists d, d', r. split_and!; [done..|]. cbn zeta. split_and!.
  - intros j w Hj. destruct (s_origin _ _ _ _ _ HS' j w Hj) as (i & cs & Hi & Hcs & (p & Hp & ->)%Hal). eauto 8.
  - apply HS'.
  - intros j j' w. by apply (sinv_repeats src dst g css).
  - intros cs p w Hcs Hp Hnin Hw. change (ShortestPath.cost p) with (Walk.delay_ (walk_of p)).
    eapply (sinv_later src dst g css); [exact HS'|exact Hcs| |done|done]. apply Hal. eauto.
  - destruct r as [[i w]|]; [done|]. destruct Hr as [Hl Hnil]. split; [done|].
    intros cs p Hcs Hp. eapply (sinv_complete src dst g css); [done..|]. apply Hal. eauto.
Qed.

(** Three ways of the same length from A to B. *)
Definition three_ways : list GraphLinkBase :=
  [mkGraphLinkBase "A" "X" 1 1 10 5; mkGraphLinkBase "X" "B" 2 2 10 5;
   mkGraphLinkBase "A" "Y" 3 3 10 5; mkGraphLinkBase "Y" "B" 4 4 10 5;
   mkGraphLinkBase "A" "Z" 5 5 10 5; mkGraphLinkBase "Z" "B" 6 6 10 5]%Z.

Definition excluding (links : list nat) : ConstraintSet.t :=
  ConstraintSet.mk (ExclusionSet.Links ExclusionSet.empty (PerfectHashSet.of_list links)) [] PerfectHashMap.empty.

Lemma DisjunctKShortestPaths_merges_witness :
  match GraphStorage.construct (GraphBuilder.mk true three_ways) [] with
  | Ok g => exists d0 d d' r, construct 0 2 g [excluding [0; 4]; excluding [2]] = Ok d0 /\
      disjunct_queries [0] d0 = Ok d /\ KthShortestPathOrNull d 2 = Ok (d', r) /\
      r = Some (1, Walk.mk [4; 5] 10%Z)
  | Fail _ => False
  end.
Proof.
  destruct (GraphStorage.construct (GraphBuilder.mk true three_ways) []) as [g|] eqn:E.
  - destruct (DisjunctKShortestPaths_merges (GraphBuilder.mk true three_ways) g [excluding [0; 4]; excluding [2]]
      0 2 5 [0] 2) as (d0 & d & d' & r & H0 & Hq & Hk & _).
    + vm_compute. reflexivity.
    + vm_compute. reflexivity.
    + exact E.
    + vm_compute in E. injection E as <-. split; [done|]. split; [|done].
      intros [|[|[|[|[|u]]]]] e He; vm_compute in He;
        repeat (apply elem_of_cons in He as [->|He]; [done|]); by apply not_elem_of_nil in He.
    + repeat constructor; apply ConstraintSet.wf_init.
    + done.
    + repeat constructor.
    + exists d0, d, d', r. split_and!; [done..|]. vm_compute in E. injection E as <-.
      vm_compute in H0. injection H0 as <-. vm_compute in Hq. injection Hq as <-.
      vm_compute in Hk. injection Hk as <- <-. reflexivity.
  - vm_compute in E. discriminate.
Defined.

(** The queue orders paths by delay only, and [Next] only skips copies at its
    top: with another path of the same delay between them the merged generator
    hands out the same path twice. *)
Theorem DisjunctKShortestPaths_repeats_path :
  match GraphStorage.construct (GraphBuilder.mk true three_ways) [] with
  | Ok g => exists d0 d r, construct 0 2 g [excluding []; excluding [0; 2]] = Ok d0 /\
      KthShortestPathOrNull d0 3 = Ok (d, r) /\
      Walk.links_ <$> k_paths_ d = [[0; 1]; [4; 5]; [2; 3]; [4; 5]]
  | Fail _ => False
  end.
Proof.
  vm_compute (GraphStorage.construct _ _). eexists _, _, _.
  split; [vm_compute; reflexivity|]. split; vm_compute; reflexivity.
Qed.
