(* ===== verification/AllPairs.v ===== *)
(** Model of [AllPairShortestPath] ([src/src/net/algorithm.h],
    [src/src/net/algorithm.cc]): the Floyd-Warshall algorithm on a matrix of
    distances and successors that is stored as a map of maps and updated in
    place.  When no node is excluded and no two usable links are parallel it is
    proved to compute the distances of shortest walks, the same as the shortest
    path trees, and to return shortest simple paths.  Two examples show what
    happens otherwise. *)

From S2P Require Import Prelude OrderedMap PerfectHash PriorityQueue Graph ShortestPath.

Import AdjacencyList ShortestPath.

Module AllPairShortestPath.

Record SPData := mkSPData { distance : Delay; next_link : nat; next_node : nat }.
Definition SPData_init : SPData := mkSPData Delay_max 0 0.

#[local] Notation matrix := (PerfectHashMap.t (PerfectHashMap.t SPData)).

(** [data_[i][j]]: the matrix after the two (non-const) accesses, with the
    value the reference points to; and the assignment through it. *)
Definition access (data : matrix) (i j : nat) : outcome (matrix * SPData) :=
  '(data, row) ← PerfectHashMap.Ref PerfectHashMap.empty data i;
  '(row, x) ← PerfectHashMap.Ref SPData_init row j;
  Ok (PerfectHashMap.RefAssign PerfectHashMap.empty data i row, x).
Definition assign (data : matrix) (i j : nat) (x : SPData) : outcome matrix :=
  '(data, row) ← PerfectHashMap.Ref PerfectHashMap.empty data i;
  Ok (PerfectHashMap.RefAssign PerfectHashMap.empty data i (PerfectHashMap.RefAssign SPData_init row j x)).

Section compute.
Context (exclusion_set : ExclusionSet.t) (adj_list : AdjacencyList.t).
Context (nodes_to_avoid links_to_avoid : option PerfectHashSet.t).

Definition init_node (data : matrix) (node : nat) : outcome matrix :=
  if CanExcludeNode node exclusion_set nodes_to_avoid then Ok data
  else
    '(data, node_data) ← access data node node;
    assign data node node (mkSPData 0%Z (next_link node_data) (next_node node_data)).

Definition init_link (data : matrix) (link_info : LinkInfo) : outcome matrix :=
  if CanExcludeLink (link_index link_info) exclusion_set links_to_avoid then Ok data
  else assign data (src_index link_info) (dst_index link_info)
         (mkSPData (delay link_info) (link_index link_info) (dst_index link_info)).

(** The body of the three nested loops. *)
Definition relax_pair (k i : nat) (data : matrix) (j : nat) : outcome matrix :=
  '(data, i_k) ← access data i k;
  '(data, k_j) ← access data k j;
  let any_max := (distance i_k =? Delay_max)%Z || (distance k_j =? Delay_max)%Z in
  alt_distance ← (if any_max then Ok Delay_max else delay_add (distance i_k) (distance k_j));
  '(data, i_j_data) ← access data i j;
  if (alt_distance <? distance i_j_data)%Z then
    data ← assign data i j (mkSPData alt_distance (next_link i_j_data) (next_node i_j_data));
    '(data, i_k_data) ← access data i k;
    assign data i j (mkSPData alt_distance (next_link i_k_data) (next_node i_k_data))
  else Ok data.

Definition ComputePaths : outcome matrix :=
  nodes ← PerfectHashSet.iterate kIndexBits (AllNodes adj_list);
  data ← mfold init_node nodes PerfectHashMap.empty;
  adjacencies ← PerfectHashMap.iterate kIndexBits (Adjacencies adj_list);
  data ← mfold (λ data node_and_neighbors, mfold init_link node_and_neighbors.2 data) adjacencies data;
  mfold (λ data k, mfold (λ data i, mfold (relax_pair k i) nodes data) nodes data) nodes data.
End compute.

(** The const accesses of the queries die on a missing entry. *)
Definition at_const (data : matrix) (i j : nat) : outcome SPData :=
  row ← PerfectHashMap.GetValueOrDie data i; PerfectHashMap.GetValueOrDie row j.

Definition GetDistance (data : matrix) (src dst : nat) : outcome Delay :=
  x ← at_const data src dst; Ok (distance x).

Fixpoint follow (fuel : nat) (data : matrix) (dst next : nat) (links : Links) : outcome Links :=
  match fuel with
  | O => Fail OutOfFuel
  | S fuel' =>
      if next =? dst then Ok links
      else
        datum ← at_const data next dst;
        follow fuel' data dst (next_node datum) (links ++ [next_link datum])
  end.

(** The nodes of a path are different, so there are at most as many as rows. *)
Definition GetPath (data : matrix) (src dst : nat) : outcome (option Walk.t) :=
  x ← at_const data src dst;
  if (distance x =? Delay_max)%Z then Ok None
  else
    links ← follow (S (length (PerfectHashMap.values_ data))) data dst src [];
    Ok (Some (Walk.mk links (distance x))).

(** *** The matrix as a function *)

Definition cell (data : matrix) (i j : nat) : SPData :=
  PerfectHashMap.slot SPData_init (PerfectHashMap.slot PerfectHashMap.empty data i) j.
Definition present (data : matrix) (i j : nat) : Prop :=
  exists row, PerfectHashMap.lookup data i = Some row /\ is_Some (PerfectHashMap.lookup row j).

(** [data'] is [data] with the cell [(i, j)] set to [x]. *)
Definition updated (data data' : matrix) (i j : nat) (x : SPData) : Prop :=
  (forall i' j', cell data' i' j' = if decide (i' = i /\ j' = j) then x else cell data i' j') /\
  (forall i' j', present data i' j' -> present data' i' j') /\ present data' i j.

Lemma at_const_present data i j : present data i j -> at_const data i j = Ok (cell data i j).
Proof.
  intros (row & Hrow & x & Hx). unfold at_const, cell.
  rewrite (proj2 (PerfectHashMap.GetValueOrDie_Ok _ _ _) Hrow). cbn [mbind outcome_bind].
  rewrite (proj2 (PerfectHashMap.GetValueOrDie_Ok _ _ _) Hx).
  by rewrite (PerfectHashMap.lookup_slot _ _ _ _ Hrow), (PerfectHashMap.lookup_slot _ _ _ _ Hx).
Qed.

Lemma assign_spec data i j x :
  exists data', assign data i j x = Ok data' /\ updated data data' i j x.
Proof.
  unfold assign. rewrite PerfectHashMap.Ref_Ok. cbn [mbind outcome_bind]. eexists. split; [done|].
  rewrite !PerfectHashMap.RefAssign_Add. unfold updated, cell, present.
  split_and!.
  - intros i' j'. rewrite !PerfectHashMap.slot_Add. destruct (decide (i = i')) as [->|Hi].
    + rewrite PerfectHashMap.slot_Add. repeat case_decide; naive_solver.
    + rewrite decide_False by naive_solver. done.
  - intros i' j' (row & Hrow & Hj). rewrite !PerfectHashMap.lookup_Add.
    destruct (decide (i = i')) as [->|Hi]; [|eauto]. eexists. split; [done|].
    rewrite PerfectHashMap.lookup_Add, (PerfectHashMap.lookup_slot _ _ _ _ Hrow). case_decide; eauto.
  - rewrite !PerfectHashMap.lookup_Add, decide_True by done. eexists. split; [done|].
    rewrite PerfectHashMap.lookup_Add, decide_True by done. eauto.
Qed.

Lemma access_spec data i j :
  exists data', access data i j = Ok (data', cell data i j) /\ updated data data' i j (cell data i j).
Proof.
  destruct (assign_spec data i j (cell data i j)) as (data' & Ha & Hu). exists data'. split; [|done].
  unfold assign in Ha. unfold access. rewrite PerfectHashMap.Ref_Ok in *. cbn [mbind outcome_bind] in *.
  rewrite PerfectHashMap.Ref_Ok. cbn [mbind outcome_bind]. injection Ha as <-. done.
Qed.

(** Reading changes no cell. *)
Lemma updated_same data data' i j i' j' :
  updated data data' i j (cell data i j) -> cell data' i' j' = cell data i' j'.
Proof. intros [Hc _]. rewrite Hc. case_decide; naive_solver. Qed.

(** *** Walks, in terms of their inner nodes *)
Section warshall.
Context (adj : AdjacencyList.t) (ok : LinkInfo -> bool) (nodes : list nat) (D : Z).
Hypothesis Hpos : forall u e, e ∈ GetNeighbors adj u -> (0 < delay e <= D)%Z.
Hypothesis Hnodes : forall u e, e ∈ GetNeighbors adj u -> u ∈ nodes /\ dst_index e ∈ nodes.
Hypothesis Hloop : forall u e, e ∈ GetNeighbors adj u -> ok e = true -> dst_index e <> u.
Hypothesis HD : (0 <= D)%Z.
Hypothesis Hfit : (2 * D * Z.of_nat (S (length nodes)) < Delay_max)%Z.

#[local] Notation walk := (walk adj ok).

Lemma walk_app_inv u p q v : walk u (p ++ q) v -> exists m, walk u p m /\ walk m q v.
Proof.
  revert v. induction q as [|e q IH] using rev_ind; intros v.
  { rewrite app_nil_r. exists v. split; [done|constructor]. }
  rewrite app_assoc. remember ((p ++ q) ++ [e]) as l eqn:Hl. intros Hw.
  destruct Hw as [|u l v e' Hw He Hok]; [by destruct (p ++ q)|].
  apply app_inj_tail in Hl as [-> ->]. destruct (IH v Hw) as (m & ? & ?).
  exists m. split; [done|]. by econstructor.
Qed.

Lemma walk_cons_inv u e p v :
  walk u (e :: p) v -> e ∈ GetNeighbors adj u /\ ok e = true /\ walk (dst_index e) p v.
Proof.
  intros (m & H1 & H2)%(walk_app_inv u [e] p). remember [e] as l eqn:Hl.
  destruct H1 as [|u p' w e' Hw He Hok]; [done|]. apply (app_inj_tail p' []) in Hl as [-> ->].
  apply walk_nil_inv in Hw as ->. done.
Qed.

Lemma walk_cons u e p v :
  e ∈ GetNeighbors adj u -> ok e = true -> walk (dst_index e) p v -> walk u (e :: p) v.
Proof.
  intros He Hok Hw. apply (walk_app _ _ u [e] (dst_index e)); [|done].
  apply (walk_snoc _ _ u [] u e); [constructor|done..].
Qed.

(** The nodes between the ends of a walk are in [T]. *)
Definition through (T : gset nat) (p : list LinkInfo) : Prop :=
  forall p1 e p2, p = p1 ++ e :: p2 -> p2 <> [] -> dst_index e ∈ T.

Lemma through_app T p q : through T (p ++ q) -> through T p /\ through T q.
Proof.
  intros H. split; intros p1 e p2 -> Hne.
  - eapply (H p1 e (p2 ++ q)); [by rewrite <-app_assoc|]. by destruct p2.
  - eapply (H (p ++ p1) e p2); [by rewrite <-app_assoc|done].
Qed.

Lemma through_join T u p k q v :
  walk u p k -> through T p -> through T q -> k ∈ T -> walk k q v -> through T (p ++ q).
Proof.
  intros Hp Hsp Hsq Hk Hq p1 e p2 Heq Hne.
  destruct (decide (length p1 < length p)) as [Hlt|Hge].
  - assert (exists r, p = p1 ++ e :: r /\ p2 = r ++ q) as (r & -> & ->).
    { exists (drop (S (length p1)) p). rewrite <-(take_drop (length p1) p) in Heq |- * at 1.
      assert (Hl : length (take (length p1) p) = length p1) by (rewrite length_take; lia).
      rewrite <-app_assoc in Heq. apply app_inj_1 in Heq as [Ht Hd]; [|done].
      destruct (drop (length p1) p) as [|x r] eqn:Hdr.
      { apply (f_equal length) in Hdr. rewrite length_drop in Hdr. simpl in Hdr. lia. }
      simpl in Hd. injection Hd as -> <-. rewrite Ht. 
      replace (drop (S (length p1)) p) with r; [done|].
      replace (S (length p1)) with (length p1 + 1) by lia. rewrite <-drop_drop, Hdr. done. }
    destruct r as [|e' r]; [|by apply (Hsp p1 e (e' :: r))].
    apply walk_app_inv in Hp as (m & _ & Hm). apply walk_cons_inv in Hm as (_ & _ & ->%walk_nil_inv). done.
  - eapply (Hsq (drop (length p) p1) e p2); [|done].
    rewrite <-(take_drop (length p) p1) in Heq at 1. rewrite <-app_assoc in Heq.
    apply app_inj_1 in Heq as [_ ?]; [done|]. rewrite length_take. lia.
Qed.

Lemma walk_nodes u p v : walk u p v -> u ∈ nodes -> Forall (λ x, x ∈ nodes) (u :: (dst_index <$> p)).
Proof.
  intros Hw Hu. induction Hw as [u|u p v e Hw IH He Hok]; [by constructor|].
  rewrite fmap_app, app_comm_cons. apply Forall_app. split; [by apply IH|].
  constructor; [|constructor]. by eapply Hnodes.
Qed.

(** Cycles can be cut out of a walk. *)
Lemma walk_simple T u p v :
  walk u p v -> through T p ->
  exists q, walk u q v /\ through T q /\ NoDup (u :: (dst_index <$> q)).
Proof.
  revert u. induction p as [|e p IH]; intros u Hw Ht.
  { exists []. split_and!; [done|done|apply NoDup_singleton]. }
  apply walk_cons_inv in Hw as (He & Hok & Hw).
  destruct (decide (p = [])) as [->|Hne].
  { apply walk_nil_inv in Hw as ->. exists [e]. split_and!; [|done|].
    - apply walk_cons; [done..|constructor].
    - apply NoDup_cons. split; [|apply NoDup_singleton]. intros Hin%list_elem_of_singleton.
      by apply (Hloop u e He Hok). }
  pose proof (Ht [] e p eq_refl Hne) as HeT. destruct (through_app T [e] p Ht) as [Ht1 Htp].
  destruct (IH _ Hw Htp) as (q & Hq & Htq & Hnd).
  destruct (decide (u ∈ dst_index <$> q)) as [(e' & Hu & (q1 & q2 & ->)%list_elem_of_split)%list_elem_of_fmap|Hout].
  - exists q2. apply walk_app_inv in Hq as (m & _ & (_ & _ & Hq2)%walk_cons_inv). rewrite <-Hu in Hq2.
    split_and!; [done| |].
    + by destruct (through_app T (q1 ++ [e']) q2) as [_ ?]; [rewrite <-app_assoc|].
    + apply NoDup_cons in Hnd as [_ Hnd]. rewrite fmap_app, fmap_cons, <-Hu in Hnd.
      by apply NoDup_app in Hnd as (_ & _ & ?).
  - exists (e :: q). split_and!; [by apply walk_cons| |].
    + apply (through_join T u [e] (dst_index e) q v); try done. apply walk_cons; [done..|constructor].
    + apply NoDup_cons. split; [|done]. apply not_elem_of_cons. split; [|done].
      intros Heq. by apply (Hloop u e He Hok).
Qed.

Lemma simple_cost u q v :
  u ∈ nodes -> walk u q v -> NoDup (u :: (dst_index <$> q)) ->
  (0 <= cost q <= D * Z.of_nat (length nodes))%Z.
Proof.
  intros Hu Hw Hnd. assert (Hl : length q < length nodes).
  { assert (Hs : u :: (dst_index <$> q) ⊆+ nodes).
    { apply NoDup_submseteq; [done|]. apply Forall_forall. by eapply walk_nodes. }
    apply submseteq_length in Hs. simpl in Hs. rewrite length_fmap in Hs. lia. }
  assert (Hc : (0 <= cost q <= D * Z.of_nat (length q))%Z).
  { clear Hnd Hl Hfit. induction Hw as [|u q v e Hw IH He Hok]; [simpl; lia|].
    rewrite cost_app, length_app. change (cost [e]) with (delay e + 0)%Z. simpl length.
    specialize (Hpos v e He). specialize (IH Hu). lia. }
  nia.
Qed.

(** *** The invariant of the outer loop *)

Implicit Types d : nat -> nat -> SPData.
#[local] Notation dist d i j := (distance (d i j)).

Record winv (T : gset nat) d : Prop := {
  w_range : forall i j, i ∈ nodes -> j ∈ nodes -> (0 <= dist d i j <= Delay_max)%Z;
  w_diag : forall i, i ∈ nodes -> dist d i i = 0%Z;
  w_lower : forall i j p, i ∈ nodes -> j ∈ nodes -> walk i p j -> through T p -> (dist d i j <= cost p)%Z;
  w_reach : forall i j, i ∈ nodes -> j ∈ nodes -> (dist d i j < Delay_max)%Z ->
    exists p, walk i p j /\ through T p;
  w_next : forall i j, i ∈ nodes -> j ∈ nodes -> i <> j -> (dist d i j < Delay_max)%Z ->
    exists e, e ∈ GetNeighbors adj i /\ ok e = true /\ next_link (d i j) = link_index e /\
      next_node (d i j) = dst_index e /\ (delay e + dist d (dst_index e) j <= dist d i j)%Z
}.

Definition alt d (k i j : nat) : Z :=
  if (dist d i k =? Delay_max)%Z || (dist d k j =? Delay_max)%Z then Delay_max
  else (dist d i k + dist d k j)%Z.

Definition round d (k i j : nat) : SPData :=
  if (alt d k i j <? dist d i j)%Z then mkSPData (alt d k i j) (next_link (d i k)) (next_node (d i k))
  else d i j.

(** A finite distance is that of a simple walk, so sums do not overflow. *)
Lemma winv_bound T d i j :
  winv T d -> i ∈ nodes -> j ∈ nodes -> (dist d i j < Delay_max)%Z ->
  (dist d i j <= D * Z.of_nat (length nodes))%Z.
Proof.
  intros HI Hi Hj Hf. destruct (w_reach _ _ HI i j Hi Hj Hf) as (p & Hp & Ht).
  destruct (walk_simple T i p j Hp Ht) as (q & Hq & Htq & Hnd).
  pose proof (w_lower _ _ HI i j q Hi Hj Hq Htq). pose proof (simple_cost i q j Hi Hq Hnd). lia.
Qed.

Lemma dist_round d k i j : dist (round d k) i j = Z.min (dist d i j) (alt d k i j).
Proof. unfold round. destruct (Z.ltb_spec (alt d k i j) (dist d i j)); simpl; lia. Qed.

Lemma alt_cases T d k i j :
  winv T d -> k ∈ nodes -> i ∈ nodes -> j ∈ nodes ->
  (alt d k i j = Delay_max /\ (dist d i k = Delay_max \/ dist d k j = Delay_max)) \/
  (alt d k i j = dist d i k + dist d k j /\ dist d i k < Delay_max /\ dist d k j < Delay_max)%Z.
Proof.
  intros HI Hk Hi Hj. pose proof (w_range _ _ HI i k Hi Hk). pose proof (w_range _ _ HI k j Hk Hj).
  unfold alt. destruct (Z.eqb_spec (dist d i k) Delay_max), (Z.eqb_spec (dist d k j) Delay_max); simpl; lia.
Qed.

(** The row and the column of [k] do not change in the round of [k]. *)
Lemma round_fixed T d k i :
  winv T d -> k ∈ nodes -> i ∈ nodes -> round d k i k = d i k /\ round d k k i = d k i.
Proof.
  intros HI Hk Hi. pose proof (w_diag _ _ HI k Hk).
  pose proof (w_range _ _ HI i k Hi Hk). pose proof (w_range _ _ HI k i Hk Hi).
  unfold round. split.
  - destruct (Z.ltb_spec (alt d k i k) (dist d i k)); [|done].
    destruct (alt_cases T d k i k HI Hk Hi Hk) as [[? _]|[? _]]; lia.
  - destruct (Z.ltb_spec (alt d k k i) (dist d k i)); [|done].
    destruct (alt_cases T d k k i HI Hk Hk Hi) as [[? _]|[? _]]; lia.
Qed.

Lemma inner_or_not k (p : list LinkInfo) :
  (exists p1 e p2, p = p1 ++ e :: p2 /\ p2 <> [] /\ dst_index e = k) \/
  (forall p1 e p2, p = p1 ++ e :: p2 -> p2 <> [] -> dst_index e <> k).
Proof.
  induction p as [|e p [(p1 & e' & p2 & -> & Hne & Hk)|IH]].
  - right. by intros [|? ?].
  - left. exists (e :: p1), e', p2. done.
  - destruct (decide (p <> [] /\ dst_index e = k)) as [[Hne Hk]|Hno].
    + left. by exists [], e, p.
    + right. intros [|x p1] e' p2 Heq Hne Hk; simplify_eq/=; [by apply Hno|]. by eapply IH.
Qed.

Lemma round_lower T d k :
  winv T d -> k ∈ nodes -> forall n i j p, length p <= n -> i ∈ nodes -> j ∈ nodes ->
  walk i p j -> through ({[k]} ∪ T) p -> (dist (round d k) i j <= cost p)%Z.
Proof.
  intros HI Hk n. induction n as [n IH] using lt_wf_ind. intros i j p Hn Hi Hj Hp Ht.
  rewrite dist_round. destruct (inner_or_not k p) as [(p1 & e & p2 & -> & Hne & He)|Hno].
  - replace (p1 ++ e :: p2) with ((p1 ++ [e]) ++ p2) in * by (by rewrite <-app_assoc).
    destruct (walk_app_inv _ _ _ _ Hp) as (m & Hp1 & Hp2).
    assert (m = k) as ->.
    { destruct (walk_app_inv _ _ _ _ Hp1) as (m' & _ & (_ & _ & ->%walk_nil_inv)%walk_cons_inv). done. }
    destruct (through_app _ _ _ Ht) as [Ht1 Ht2]. rewrite !length_app in Hn. simpl in Hn.
    assert (0 < length p2) by (destruct p2; [done|simpl; lia]).
    assert (H1 : (dist (round d k) i k <= cost (p1 ++ [e]))%Z).
    { apply (IH (length p1 + 1)); try done; [lia|rewrite length_app; simpl; lia]. }
    assert (H2 : (dist (round d k) k j <= cost p2)%Z) by (apply (IH (length p2)); try done; lia).
    destruct (round_fixed T d k i HI Hk Hi) as [-> _] in H1.
    destruct (round_fixed T d k j HI Hk Hj) as [_ ->] in H2.
    rewrite cost_app. pose proof (w_range _ _ HI i k Hi Hk). pose proof (w_range _ _ HI k j Hk Hj).
    pose proof (w_range _ _ HI i j Hi Hj).
    destruct (alt_cases T d k i j HI Hk Hi Hj) as [(-> & [?|?])|(-> & _)]; lia.
  - assert (Ht' : through T p).
    { intros p1 e p2 Heq Hne. specialize (Ht p1 e p2 Heq Hne). specialize (Hno p1 e p2 Heq Hne). set_solver. }
    pose proof (w_lower _ _ HI i j p Hi Hj Hp Ht'). lia.
Qed.

Lemma round_next T d k i j :
  winv T d -> k ∈ nodes -> i ∈ nodes -> j ∈ nodes -> i <> j -> (dist (round d k) i j < Delay_max)%Z ->
  exists e, e ∈ GetNeighbors adj i /\ ok e = true /\ next_link (round d k i j) = link_index e /\
    next_node (round d k i j) = dst_index e /\
    (delay e + dist (round d k) (dst_index e) j <= dist (round d k) i j)%Z.
Proof.
  intros HI Hk Hi Hj Hij Hf. unfold round in Hf |- * at 1 2 4.
  destruct (Z.ltb_spec (alt d k i j) (dist d i j)) as [Hlt|Hge]; cbn [distance next_link next_node] in *.
  - pose proof (w_range _ _ HI i j Hi Hj).
    destruct (alt_cases T d k i j HI Hk Hi Hj) as [[? _]|(Halt & Hik & Hkj)]; [lia|].
    assert (Hne : i <> k).
    { intros ->. pose proof (w_diag _ _ HI k Hk). lia. }
    destruct (w_next _ _ HI i k Hi Hk Hne Hik) as (e & He & Hok & Hl & Hn & Hd).
    exists e. split_and!; [done..|]. rewrite Halt, dist_round.
    assert (Hen : dst_index e ∈ nodes) by (by eapply Hnodes).
    pose proof (w_range _ _ HI (dst_index e) k Hen Hk). pose proof (proj1 (Hpos i e He)).
    destruct (alt_cases T d k (dst_index e) j HI Hk Hen Hj) as [(_ & [?|?])|(-> & _)]; lia.
  - destruct (w_next _ _ HI i j Hi Hj Hij Hf) as (e & He & Hok & Hl & Hn & Hd).
    exists e. split_and!; [done..|]. rewrite dist_round. lia.
Qed.

Lemma winv_round T d k : winv T d -> k ∈ nodes -> winv ({[k]} ∪ T) (round d k).
Proof.
  intros HI Hk. split.
  - intros i j Hi Hj. rewrite dist_round. pose proof (w_range _ _ HI i j Hi Hj).
    pose proof (w_range _ _ HI i k Hi Hk). pose proof (w_range _ _ HI k j Hk Hj).
    destruct (alt_cases T d k i j HI Hk Hi Hj) as [[-> _]|[-> _]]; lia.
  - intros i Hi. rewrite dist_round, (w_diag _ _ HI i Hi).
    pose proof (w_range _ _ HI i k Hi Hk). pose proof (w_range _ _ HI k i Hk Hi).
    destruct (alt_cases T d k i i HI Hk Hi Hi) as [[-> _]|[-> _]]; unfold Delay_max in *; lia.
  - intros i j p Hi Hj Hp Ht. by apply (round_lower T d k HI Hk (length p)).
  - intros i j Hi Hj. rewrite dist_round. intros Hf.
    destruct (decide (dist d i j < Delay_max)%Z) as [Hd|Hd].
    + destruct (w_reach _ _ HI i j Hi Hj Hd) as (p & Hp & Ht). exists p. split; [done|].
      intros p1 e p2 Heq Hne. apply elem_of_union_r. by eapply Ht.
    + pose proof (w_range _ _ HI i j Hi Hj).
      destruct (alt_cases T d k i j HI Hk Hi Hj) as [[? _]|(_ & Hik & Hkj)]; [lia|].
      destruct (w_reach _ _ HI i k Hi Hk Hik) as (p & Hp & Htp).
      destruct (w_reach _ _ HI k j Hk Hj Hkj) as (q & Hq & Htq).
      exists (p ++ q). split; [by eapply walk_app|].
      apply (through_join _ i p k q j); try done; [| |set_solver]; intros p1 e p2 Heq Hne;
        apply elem_of_union_r; [by eapply Htp|by eapply Htq].
  - intros i j Hi Hj Hij Hf. by apply (round_next T).
Qed.

(** *** The loops *)

(** During the round of [k] the cells in [P] have been processed. *)
Definition mixes d (k : nat) (P : nat -> nat -> Prop) (data : matrix) : Prop :=
  (forall i j, i ∈ nodes -> j ∈ nodes ->
     (P i j -> cell data i j = round d k i j) /\ (~ P i j -> cell data i j = d i j)).

Lemma mixes_fixed T d k P data i :
  winv T d -> k ∈ nodes -> i ∈ nodes -> (forall i j, P i j \/ ~ P i j) -> mixes d k P data ->
  cell data i k = d i k /\ cell data k i = d k i.
Proof.
  intros HI Hk Hi Hdec HP. destruct (round_fixed T d k i HI Hk Hi) as [H1 H2]. split.
  - destruct (HP i k Hi Hk) as [Hy Hn]. destruct (Hdec i k) as [Hp|Hp]; [by rewrite Hy|by apply Hn].
  - destruct (HP k i Hk Hi) as [Hy Hn]. destruct (Hdec k i) as [Hp|Hp]; [by rewrite Hy|by apply Hn].
Qed.

Lemma relax_pair_spec T d k P data i j :
  winv T d -> k ∈ nodes -> i ∈ nodes -> j ∈ nodes -> (forall i j, P i j \/ ~ P i j) ->
  mixes d k P data -> ~ P i j ->
  exists data', relax_pair k i data j = Ok data' /\
    mixes d k (λ i' j', P i' j' \/ (i' = i /\ j' = j)) data' /\
    (forall i' j', present data i' j' -> present data' i' j') /\ present data' i j.
Proof.
  intros HI Hk Hi Hj Hdec HP Hnew.
  destruct (mixes_fixed T d k P data i HI Hk Hi Hdec HP) as [Hik _].
  destruct (mixes_fixed T d k P data j HI Hk Hj Hdec HP) as [_ Hkj].
  pose proof (proj2 (HP i j Hi Hj) Hnew) as Hij. unfold relax_pair.
  destruct (access_spec data i k) as (d1 & -> & U1). cbn [mbind outcome_bind].
  destruct (access_spec d1 k j) as (d2 & -> & U2). cbn [mbind outcome_bind].
  rewrite (updated_same _ _ _ _ k j U1), Hik, Hkj.
  assert (Hsum : (if (dist d i k =? Delay_max)%Z || (dist d k j =? Delay_max)%Z then @Ok Delay Delay_max
                  else delay_add (dist d i k) (dist d k j)) = Ok (alt d k i j)).
  { pose proof (w_range _ _ HI i k Hi Hk). pose proof (w_range _ _ HI k j Hk Hj).
    unfold alt. destruct (Z.eqb_spec (dist d i k) Delay_max), (Z.eqb_spec (dist d k j) Delay_max); try done.
    pose proof (winv_bound T d i k HI Hi Hk). pose proof (winv_bound T d k j HI Hk Hj).
    cbn [orb]. apply delay_add_Ok. nia. }
  setoid_rewrite Hsum. cbn [mbind outcome_bind].
  destruct (access_spec d2 i j) as (d3 & -> & U3). cbn [mbind outcome_bind].
  assert (Hc3 : forall i' j', cell d3 i' j' = cell data i' j').
  { intros. by rewrite (updated_same _ _ _ _ _ _ U3), (updated_same _ _ _ _ _ _ U2), (updated_same _ _ _ _ _ _ U1). }
  rewrite (updated_same _ _ _ _ i j U2), (updated_same _ _ _ _ i j U1), Hij.
  assert (Hpres : forall i' j', present data i' j' -> present d3 i' j').
  { intros i' j' H. apply U3, U2, U1. done. }
  assert (Hmix : forall data', (forall i' j', cell data' i' j' =
              if decide (i' = i /\ j' = j) then round d k i j else cell data i' j') ->
            mixes d k (λ i' j', P i' j' \/ (i' = i /\ j' = j)) data').
  { intros data' Hc i' j' Hi' Hj'. rewrite Hc. destruct (HP i' j' Hi' Hj') as [Hy Hn].
    case_decide as Hd; [destruct Hd as [-> ->]|]; split; intros H; try done; naive_solver. }
  unfold round in Hmix. destruct (Z.ltb_spec (alt d k i j) (dist d i j)) as [Hlt|Hge].
  - destruct (assign_spec d3 i j (mkSPData (alt d k i j) (next_link (d i j)) (next_node (d i j))))
      as (d4 & -> & U4). cbn [mbind outcome_bind].
    destruct (access_spec d4 i k) as (d5 & -> & U5). cbn [mbind outcome_bind].
    set (y := mkSPData _ (next_link (cell d4 i k)) (next_node (cell d4 i k))).
    destruct (assign_spec d5 i j y) as (d6 & -> & U6). exists d6. split; [done|].
    assert (Hy : y = mkSPData (alt d k i j) (next_link (d i k)) (next_node (d i k))).
    { unfold y. f_equal; rewrite (proj1 U4); (case_decide as Hd; [destruct Hd as [_ ->]; done|]);
        by rewrite Hc3, Hik. }
    split_and!; [apply Hmix| |apply U6].
    + intros i' j'. rewrite (proj1 U6), Hy. case_decide as Hd; [done|].
      rewrite (updated_same _ _ _ _ _ _ U5), (proj1 U4), decide_False by done. apply Hc3.
    + intros i' j' H. apply U6, U5, U4, Hpres. done.
  - exists d3. split; [done|]. split_and!; [apply Hmix|done|apply U3].
    intros i' j'. rewrite Hc3. case_decide as Hd; [|done]. destruct Hd as [-> ->]. done.
Qed.

Hypothesis Hnd : NoDup nodes.

Lemma mixes_ext d k (P Q : nat -> nat -> Prop) data :
  (forall i j, i ∈ nodes -> j ∈ nodes -> P i j <-> Q i j) -> mixes d k P data -> mixes d k Q data.
Proof.
  intros Heq HP i j Hi Hj. destruct (HP i j Hi Hj), (Heq i j Hi Hj). split; intros; auto.
Qed.

Lemma prefix_fresh (l : list nat) a : l ++ [a] `prefix_of` nodes -> a ∈ nodes /\ a ∉ l.
Proof.
  clear Hpos Hnodes Hloop HD Hfit. intros [r Hr]. rewrite Hr in Hnd. rewrite Hr. split.
  - rewrite !elem_of_app, list_elem_of_singleton. auto.
  - apply NoDup_app in Hnd as (H & _ & _). apply NoDup_app in H as (_ & H & _).
    intros Hin. by eapply H, list_elem_of_singleton.
Qed.

Lemma row_loop T d k i rows data :
  winv T d -> k ∈ nodes -> i ∈ nodes -> i ∉ rows ->
  mixes d k (λ i' _, i' ∈ rows) data ->
  exists data', mfold (relax_pair k i) nodes data = Ok data' /\
    mixes d k (λ i' _, i' ∈ rows ++ [i]) data' /\
    (forall i' j', present data i' j' -> present data' i' j') /\
    (forall j, j ∈ nodes -> present data' i j).
Proof.
  intros HI Hk Hi Hrows HP.
  destruct (mfold_inv (λ js data', mixes d k (λ i' j', i' ∈ rows \/ (i' = i /\ j' ∈ js)) data' /\
      (forall i' j', present data i' j' -> present data' i' j') /\ (forall j, j ∈ js -> present data' i j))
    (relax_pair k i) nodes data) as (data' & Hm & HP' & Hpres & Hrow).
  - split_and!; [|done|by intros ? ?%not_elem_of_nil]. eapply mixes_ext; [|exact HP]. set_solver.
  - intros js j data1 [Hj Hjs]%prefix_fresh (HP1 & Hp1 & Hr1).
    destruct (relax_pair_spec T d k (λ i' j', i' ∈ rows \/ (i' = i /\ j' ∈ js)) data1 i j HI Hk Hi Hj) as (data2 & He & HP2 & Hp2 & Hij);
      [intros i' j'; destruct (decide (i' ∈ rows)), (decide (i' = i)), (decide (j' ∈ js)); naive_solver
      |exact HP1|naive_solver|].
    exists data2. split; [done|]. split_and!.
    + eapply mixes_ext; [|exact HP2]. intros i' j' _ _. rewrite elem_of_app, list_elem_of_singleton. naive_solver.
    + auto.
    + intros j' [?| ->%list_elem_of_singleton]%elem_of_app; auto.
  - exists data'. split_and!; [done| |done|done]. eapply mixes_ext; [|exact HP'].
    intros i' j' _ Hj'. rewrite elem_of_app, list_elem_of_singleton. naive_solver.
Qed.

Lemma round_loop T d k data :
  winv T d -> k ∈ nodes -> (forall i j, i ∈ nodes -> j ∈ nodes -> cell data i j = d i j) ->
  exists data', mfold (λ data i, mfold (relax_pair k i) nodes data) nodes data = Ok data' /\
    (forall i j, i ∈ nodes -> j ∈ nodes -> cell data' i j = round d k i j /\ present data' i j).
Proof.
  intros HI Hk Hd.
  destruct (mfold_inv (λ rows data', mixes d k (λ i' _, i' ∈ rows) data' /\
      (forall i j, i ∈ rows -> j ∈ nodes -> present data' i j))
    (λ data i, mfold (relax_pair k i) nodes data) nodes data) as (data' & Hm & HP & Hpres).
  - split; [|by intros ? ? ?%not_elem_of_nil]. intros i j Hi Hj. split; [by intros ?%not_elem_of_nil|auto].
  - intros rows i data1 [Hi Hrows]%prefix_fresh (HP1 & Hp1).
    destruct (row_loop T d k i rows data1 HI Hk Hi Hrows HP1) as (data2 & He & HP2 & Hmono & Hrow).
    exists data2. split_and!; [done|done|].
    intros i' j [?| ->%list_elem_of_singleton]%elem_of_app Hj; auto.
  - exists data'. split; [done|]. intros i j Hi Hj. split; [by apply HP|by apply Hpres].
Qed.

(** All rounds. *)
Lemma rounds_spec data :
  winv ∅ (cell data) ->
  exists data', mfold (λ data k, mfold (λ data i, mfold (relax_pair k i) nodes data) nodes data) nodes data
                = Ok data' /\
    winv (list_to_set nodes) (cell data') /\
    (nodes <> [] -> forall i j, i ∈ nodes -> j ∈ nodes -> present data' i j).
Proof.
  intros HI.
  assert (Hext : forall T d data', winv T d ->
            (forall i j, i ∈ nodes -> j ∈ nodes -> cell data' i j = d i j) -> winv T (cell data')).
  { intros T d data' [H1 H2 H3 H4 H5] Hc. split.
    - intros i j Hi Hj. rewrite Hc by done. auto.
    - intros i Hi. rewrite Hc by done. auto.
    - intros i j p Hi Hj. rewrite Hc by done. auto.
    - intros i j Hi Hj. rewrite Hc by done. auto.
    - intros i j Hi Hj Hij. rewrite Hc by done. intros Hf.
      destruct (H5 i j Hi Hj Hij Hf) as (e & He & Hok & Hl & Hn & Hle). exists e.
      rewrite (Hc (dst_index e) j) by first [done|by eapply Hnodes]. done. }
  destruct (mfold_inv (λ ks data', winv (list_to_set ks) (cell data') /\
      (ks <> [] -> forall i j, i ∈ nodes -> j ∈ nodes -> present data' i j))
    (λ data k, mfold (λ data i, mfold (relax_pair k i) nodes data) nodes data) nodes data)
    as (data' & Hm & HI' & Hp).
  - done.
  - intros ks k data1 [Hk _]%prefix_fresh [HI1 _].
    destruct (round_loop _ _ k data1 HI1 Hk) as (data2 & He & Hall); [done|].
    exists data2. split; [done|]. split.
    + eapply Hext; [|intros i j Hi Hj; by apply Hall].
      assert (Hl : (list_to_set (ks ++ [k]) : gset nat) = {[k]} ∪ list_to_set ks) by set_solver.
      rewrite Hl. by apply winv_round.
    + intros _ i j Hi Hj. by apply Hall.
  - by exists data'.
Qed.

(** *** Following the successors *)

Lemma follow_spec data dst :
  (forall i j, i ∈ nodes -> j ∈ nodes -> present data i j) ->
  winv (list_to_set nodes) (cell data) -> dst ∈ nodes ->
  forall fuel u links (seen : list nat), u ∈ nodes -> (dist (cell data) u dst < Delay_max)%Z ->
    NoDup seen -> Forall (λ x, x ∈ nodes /\ (dist (cell data) u dst < dist (cell data) x dst)%Z) seen ->
    length nodes < fuel + length seen ->
    exists q, follow fuel data dst u links = Ok (links ++ (link_index <$> q)) /\ walk u q dst /\
      (cost q <= dist (cell data) u dst)%Z /\ NoDup (u :: (dst_index <$> q)) /\
      Forall (λ x, (dist (cell data) x dst < dist (cell data) u dst)%Z) (dst_index <$> q).
Proof.
  intros Hpres HI Hdst fuel.
  induction fuel as [|fuel IH]; intros u links seen Hu Hf Hns Hseen Hfuel.
  { exfalso. assert (Hs : seen ⊆+ nodes).
    { apply NoDup_submseteq; [done|]. intros x Hx. rewrite Forall_forall in Hseen. by apply Hseen. }
    apply submseteq_length in Hs. lia. }
  cbn [follow]. destruct (Nat.eqb_spec u dst) as [->|Hne].
  { exists []. rewrite app_nil_r. split_and!; [done|constructor| |apply NoDup_singleton|constructor].
    rewrite (w_diag _ _ HI dst Hdst). done. }
  rewrite (at_const_present data u dst) by auto. cbn [mbind outcome_bind].
  destruct (w_next _ _ HI u dst Hu Hdst Hne Hf) as (e & He & Hok & Hl & Hn & Hle). rewrite Hl, Hn.
  pose proof (proj1 (Hpos u e He)) as Hd. assert (Hen : dst_index e ∈ nodes) by (by eapply Hnodes).
  destruct (IH (dst_index e) (links ++ [link_index e]) (u :: seen)) as (q & Hq & Hw & Hc & Hnq & Hless).
  - done.
  - lia.
  - apply NoDup_cons. split; [|done]. intros Hin. rewrite Forall_forall in Hseen. apply Hseen in Hin as [_ ?]. lia.
  - constructor; [split; [done|lia]|]. eapply Forall_impl; [exact Hseen|]. intros x [? ?]. split; [done|lia].
  - simpl. lia.
  - assert (Hless' : Forall (λ x, (dist (cell data) x dst < dist (cell data) u dst)%Z) (dst_index <$> e :: q)).
    { rewrite fmap_cons. constructor; [lia|]. eapply Forall_impl; [exact Hless|]. intros x Hx. simpl in *. lia. }
    exists (e :: q). rewrite Hq, <-app_assoc, fmap_cons. split_and!; [done|by apply walk_cons| | |exact Hless'].
    + change (cost (e :: q)) with (delay e + cost q)%Z. lia.
    + apply NoDup_cons. split; [|done]. intros Hin. rewrite Forall_forall in Hless'.
      apply Hless' in Hin. lia.
Qed.
End warshall.

(** *** Initialisation *)
Section init.
Context (excl : ExclusionSet.t) (adj : AdjacencyList.t) (avoid_nodes avoid_links : option PerfectHashSet.t).
#[local] Notation ok := (usable excl avoid_nodes avoid_links).
#[local] Notation nodes := (PerfectHashSet.elems (AllNodes adj)).

Hypothesis Hwf : AdjacencyList.wf adj.
Hypothesis Hincl : forall n, n ∈ nodes -> CanExcludeNode n excl avoid_nodes = false.
Hypothesis Hloop : forall u e, e ∈ GetNeighbors adj u -> ok e = true -> dst_index e <> u.
(** No two usable links have the same ends. *)
Hypothesis Huniq : forall u e1 e2, e1 ∈ GetNeighbors adj u -> e2 ∈ GetNeighbors adj u ->
  ok e1 = true -> ok e2 = true -> dst_index e1 = dst_index e2 -> e1 = e2.

Definition link_cell (e : LinkInfo) : SPData := mkSPData (delay e) (link_index e) (dst_index e).

Lemma neighbor_nodes u e : e ∈ GetNeighbors adj u -> src_index e = u /\ u ∈ nodes /\ dst_index e ∈ nodes.
Proof.
  intros He. destruct (proj2 Hwf u e He) as (? & ? & ?). by rewrite !PerfectHashSet.elem_of_elems.
Qed.

Lemma usable_link u e :
  e ∈ GetNeighbors adj u -> CanExcludeLink (link_index e) excl avoid_links = negb (ok e).
Proof.
  intros (_ & _ & Hd)%neighbor_nodes. unfold usable. rewrite (Hincl _ Hd). cbn [negb].
  by rewrite andb_true_r, negb_involutive.
Qed.

Lemma init_nodes_spec :
  exists data, mfold (init_node excl avoid_nodes) nodes PerfectHashMap.empty = Ok data /\
    forall i j, cell data i j = if decide (i = j /\ i ∈ nodes) then mkSPData 0%Z 0 0 else SPData_init.
Proof.
  destruct (mfold_inv (λ (l : list nat) data, forall i j, cell data i j =
      if decide (i = j /\ i ∈ l) then mkSPData 0%Z 0 0 else SPData_init)
    (init_node excl avoid_nodes) nodes PerfectHashMap.empty) as (data & Hm & Hc); [| |by exists data].
  { intros i j. rewrite decide_False; [done|]. intros [_ ?%not_elem_of_nil]. done. }
  intros l n data Hpre Hc. unfold init_node. rewrite Hincl.
  2: { destruct Hpre as [r ->]. rewrite !elem_of_app, list_elem_of_singleton. auto. }
  destruct (access_spec data n n) as (d1 & -> & U1). cbn [mbind outcome_bind].
  assert (Hnext : next_link (cell data n n) = 0 /\ next_node (cell data n n) = 0).
  { rewrite Hc. by case_decide. }
  destruct Hnext as [-> ->]. destruct (assign_spec d1 n n (mkSPData 0%Z 0 0)) as (d2 & -> & U2).
  exists d2. split; [done|]. intros i j. rewrite (proj1 U2), (updated_same _ _ _ _ _ _ U1), Hc.
  destruct (decide (i = n /\ j = n)) as [[-> ->]|Hne]; [by rewrite decide_True by set_solver|].
  destruct (decide (i = j /\ i ∈ l)) as [Hd|Hd]; [by rewrite decide_True by set_solver|].
  rewrite decide_False; [done|]. intros [-> [?| ->%list_elem_of_singleton]%elem_of_app]; naive_solver.
Qed.

Lemma init_links_spec data links :
  Forall (λ e, e ∈ GetNeighbors adj (src_index e)) links ->
  exists data', mfold (init_link excl avoid_links) links data = Ok data' /\
    (forall e, e ∈ links -> ok e = true -> cell data' (src_index e) (dst_index e) = link_cell e) /\
    (forall i j, ~ (exists e, e ∈ links /\ ok e = true /\ src_index e = i /\ dst_index e = j) ->
       cell data' i j = cell data i j).
Proof.
  intros Hall. apply (mfold_inv (λ l data',
    (forall e, e ∈ l -> ok e = true -> cell data' (src_index e) (dst_index e) = link_cell e) /\
    (forall i j, ~ (exists e, e ∈ l /\ ok e = true /\ src_index e = i /\ dst_index e = j) ->
       cell data' i j = cell data i j))).
  { split; [by intros ? ?%not_elem_of_nil|done]. }
  intros l e d1 Hpre [Hl Hother].
  assert (Hin : forall x, x ∈ l ++ [e] -> x ∈ GetNeighbors adj (src_index x)).
  { intros x Hx. rewrite Forall_forall in Hall. apply Hall. destruct Hpre as [r ->]. apply elem_of_app. auto. }
  unfold init_link. rewrite (usable_link (src_index e)) by (apply Hin; set_solver).
  destruct (ok e) eqn:Hok; cbn [negb].
  - fold (link_cell e). destruct (assign_spec d1 (src_index e) (dst_index e) (link_cell e)) as (d2 & -> & U2).
    exists d2. split; [done|]. split.
    + intros x Hx Hokx. rewrite (proj1 U2). case_decide as Hd.
      * destruct Hd as [Hs Hd]. f_equal. symmetry. apply (Huniq (src_index e)); try done.
        -- rewrite <-Hs. by apply Hin.
        -- apply Hin. set_solver.
      * apply Hl; [|done]. apply elem_of_app in Hx as [?| ->%list_elem_of_singleton]; [done|naive_solver].
    + intros i j Hno. rewrite (proj1 U2). case_decide as Hd.
      * exfalso. apply Hno. exists e. split_and!; [set_solver|done|naive_solver..].
      * apply Hother. intros (x & Hx & ?). apply Hno. exists x. split; [set_solver|done].
  - exists d1. split; [done|]. split.
    + intros x [?| ->%list_elem_of_singleton]%elem_of_app Hokx; [auto|congruence].
    + intros i j Hno. apply Hother. intros (x & Hx & ?). apply Hno. exists x. split; [set_solver|done].
Qed.

Context (D : Z).
Hypothesis Hpos : forall u e, e ∈ GetNeighbors adj u -> (0 < delay e <= D)%Z.
Hypothesis HDmax : (D < Delay_max)%Z.

(** After initialisation the matrix holds the distances of walks of at most one
    link. *)
Lemma winv_init data :
  (forall e, e ∈ GetNeighbors adj (src_index e) -> ok e = true ->
     cell data (src_index e) (dst_index e) = link_cell e) ->
  (forall i j, ~ (exists e, e ∈ GetNeighbors adj i /\ ok e = true /\ dst_index e = j) ->
     cell data i j = if decide (i = j /\ i ∈ nodes) then mkSPData 0%Z 0 0 else SPData_init) ->
  winv adj ok nodes ∅ (cell data).
Proof.
  intros Hl Ho.
  assert (Hlink : forall i e, e ∈ GetNeighbors adj i -> ok e = true -> cell data i (dst_index e) = link_cell e).
  { intros i e He Hok. destruct (neighbor_nodes i e He) as [<- _]. auto. }
  assert (Hcase : forall i j, i ∈ nodes -> j ∈ nodes ->
            (exists e, e ∈ GetNeighbors adj i /\ ok e = true /\ dst_index e = j /\ cell data i j = link_cell e) \/
            ((forall e, e ∈ GetNeighbors adj i -> ok e = true -> dst_index e <> j) /\
             cell data i j = if decide (i = j) then mkSPData 0%Z 0 0 else SPData_init)).
  { intros i j Hi Hj.
    destruct (decide (Exists (λ e, ok e = true /\ dst_index e = j) (GetNeighbors adj i))) as [Hex|Hno].
    - apply Exists_exists in Hex as (e & He & Hok & <-). left. exists e. auto.
    - right. assert (Hnone : forall e, e ∈ GetNeighbors adj i -> ok e = true -> dst_index e <> j).
      { intros e He Hok Hd. apply Hno, Exists_exists. eauto. }
      split; [done|]. rewrite Ho by naive_solver. repeat case_decide; naive_solver. }
  assert (Hdiag : forall i, i ∈ nodes -> distance (cell data i i) = 0%Z).
  { intros i Hi. destruct (Hcase i i Hi Hi) as [(e & He & Hok & Hd & _)|[_ ->]]; [|by rewrite decide_True].
    by apply Hloop in He. }
  assert (Hshort : forall i p j, walk adj ok i p j -> through ∅ p ->
            p = [] \/ exists e, p = [e] /\ e ∈ GetNeighbors adj i /\ ok e = true /\ dst_index e = j).
  { intros i [|e [|e' p]] j Hw Ht; [by left| |].
    - right. apply walk_cons_inv in Hw as (He & Hok & ->%walk_nil_inv). eauto.
    - specialize (Ht [] e (e' :: p) eq_refl). set_solver. }
  split.
  - intros i j Hi Hj. destruct (Hcase i j Hi Hj) as [(e & He & _ & _ & ->)|[_ ->]].
    + specialize (Hpos i e He). cbn. lia.
    + by case_decide.
  - done.
  - intros i j p Hi Hj Hw Ht. destruct (Hshort i p j Hw Ht) as [->|(e & -> & He & Hok & <-)].
    + apply walk_nil_inv in Hw as ->. by rewrite Hdiag.
    + rewrite (Hlink i e He Hok). cbn. lia.
  - intros i j Hi Hj Hf. destruct (Hcase i j Hi Hj) as [(e & He & Hok & <- & _)|[_ Hc]].
    + exists [e]. split; [apply walk_cons; [done..|constructor]|]. by intros [|? [|? ?]] ? ? [= -> <-] ?.
    + rewrite Hc in Hf. case_decide as Hd; [|simpl in Hf; lia]. subst j. exists []. split; [constructor|]. by intros [|? ?].
  - intros i j Hi Hj Hij Hf. destruct (Hcase i j Hi Hj) as [(e & He & Hok & <- & Hc)|[_ Hc]].
    + exists e. rewrite Hc. split_and!; [done..|]. rewrite Hdiag by done. cbn. lia.
    + rewrite Hc, decide_False in Hf by done. simpl in Hf. lia.
Qed.
End init.
End AllPairShortestPath.

(** ** Properties *)

Import AllPairShortestPath.

(** The conditions under which the matrix is right: no node of the graph is
    excluded, links join different nodes, no two usable links are parallel, and
    no sum of two distances overflows. *)
Record all_pairs_ok (excl : ExclusionSet.t) (adj : AdjacencyList.t)
    (nodes links : option PerfectHashSet.t) (D : Z) : Prop := {
  ap_wf : AdjacencyList.wf adj;
  ap_nodes : fits kIndexBits (length (PerfectHashSet.set_ (AllNodes adj)));
  ap_rows : fits kIndexBits (length (PerfectHashMap.values_ (Adjacencies adj)));
  ap_delays : delays_ok adj D;
  ap_sums : (2 * D * Z.of_nat (S (PerfectHashSet.Count (AllNodes adj))) < Delay_max)%Z;
  ap_included : forall n, PerfectHashSet.Contains (AllNodes adj) n = true -> CanExcludeNode n excl nodes = false;
  ap_loops : forall u e, e ∈ GetNeighbors adj u -> dst_index e <> u;
  ap_parallel : forall u e1 e2, e1 ∈ GetNeighbors adj u -> e2 ∈ GetNeighbors adj u ->
    usable excl nodes links e1 = true -> usable excl nodes links e2 = true ->
    dst_index e1 = dst_index e2 -> e1 = e2
}.

Section properties.
Context (excl : ExclusionSet.t) (adj : AdjacencyList.t) (avoid_nodes avoid_links : option PerfectHashSet.t) (D : Z).
Hypothesis Hok : all_pairs_ok excl adj avoid_nodes avoid_links D.
#[local] Notation ok := (usable excl avoid_nodes avoid_links).
#[local] Notation nodes := (PerfectHashSet.elems (AllNodes adj)).

Lemma mfold_nested {A B S} (f : S -> B -> outcome S) (g : A -> list B) l s :
  mfold (λ s a, mfold f (g a) s) l s = mfold f (l ≫= g) s.
Proof.
  revert s. induction l as [|a l IH]; intros s; [done|].
  change ((a :: l) ≫= g) with (g a ++ (l ≫= g)). rewrite mfold_app. cbn [mfold].
  destruct (mfold f (g a) s); [apply IH|done].
Qed.

Lemma adjacencies_links :
  exists kvs, PerfectHashMap.iterate kIndexBits (Adjacencies adj) = Ok kvs /\
    forall e, e ∈ kvs ≫= snd <-> e ∈ GetNeighbors adj (src_index e).
Proof.
  destruct (PerfectHashMap.map_iterate_spec kIndexBits (Adjacencies adj) (ap_rows _ _ _ _ _ Hok))
    as (kvs & Hit & Hkeys & Hall). exists kvs. split; [done|]. rewrite Forall_forall in Hall. intros e. split.
  - intros ([u es] & He & Hin)%list_elem_of_bind. pose proof (Hall _ Hin) as Hl. simpl in Hl, He.
    assert (Heu : e ∈ GetNeighbors adj u) by (rewrite GetNeighbors_lookup; unfold Adjacencies in Hl; by rewrite Hl).
    by destruct (proj2 (ap_wf _ _ _ _ _ Hok) u e Heu) as (-> & _).
  - intros He. rewrite GetNeighbors_lookup in He.
    destruct (PerfectHashMap.lookup (adj_ adj) (src_index e)) as [es|] eqn:Hl; [|by apply not_elem_of_nil in He].
    apply list_elem_of_bind. assert (Hk : src_index e ∈ PerfectHashMap.keys (Adjacencies adj)).
    { apply PerfectHashMap.elem_of_keys. eauto. }
    rewrite <-Hkeys in Hk. apply list_elem_of_fmap in Hk as ([u es'] & Hu & Hin). simpl in Hu. subst u.
    exists (src_index e, es'). split; [|done]. specialize (Hall _ Hin). simpl in *.
    unfold Adjacencies in Hall. rewrite Hl in Hall. by injection Hall as ->.
Qed.

Lemma ComputePaths_winv :
  exists data, ComputePaths excl adj avoid_nodes avoid_links = Ok data /\
    winv adj ok nodes (list_to_set nodes) (cell data) /\
    (forall i j, i ∈ nodes -> j ∈ nodes -> present data i j).
Proof.
  destruct Hok as [Hwf Hfn Hfr (HD & Hpos & Hfit) Hsum Hincl Hloop Hpar].
  assert (Hincl' : forall n, n ∈ nodes -> CanExcludeNode n excl avoid_nodes = false).
  { intros n Hn%PerfectHashSet.elem_of_elems. auto. }
  pose proof (λ u e H (_ : ok e = true), Hloop u e H) as Hloop'.
  assert (Hends : forall u e, e ∈ GetNeighbors adj u -> u ∈ nodes /\ dst_index e ∈ nodes).
  { intros u e He. by destruct (neighbor_nodes adj Hwf u e He) as (_ & ? & ?). }
  destruct adjacencies_links as (kvs & Hit & Hlinks).
  destruct (init_nodes_spec excl adj avoid_nodes avoid_links Hwf Hincl' Hloop' Hpar) as (d1 & H1 & Hc1).
  destruct (init_links_spec excl adj avoid_nodes avoid_links Hwf Hincl' Hloop' Hpar d1 (kvs ≫= snd)) as (d2 & H2 & Hl2 & Ho2).
  { apply Forall_forall. intros e. apply Hlinks. }
  assert (Hmax : (D < Delay_max)%Z) by nia.
  assert (HI : winv adj ok nodes ∅ (cell d2)).
  { apply (winv_init excl adj avoid_nodes avoid_links Hwf Hincl' Hloop' Hpar D Hpos Hmax).
    - intros e He Hoke. apply Hl2; [|done]. by apply Hlinks.
    - intros i j Hno. rewrite Ho2, Hc1; [done|]. intros (e & He%Hlinks & Hoke & <- & Hd). apply Hno. eauto. }
  rewrite PerfectHashSet.Count_length_elems in Hsum.
  destruct (rounds_spec adj ok nodes D Hpos Hends Hloop' HD Hsum (PerfectHashSet.NoDup_elems _) d2 HI)
    as (data & Hm & HI' & Hp).
  exists data. split.
  - unfold ComputePaths. rewrite PerfectHashSet.set_iterate_spec by done. cbn [mbind outcome_bind].
    rewrite H1. cbn [mbind outcome_bind]. rewrite Hit. cbn [mbind outcome_bind].
    rewrite (mfold_nested (init_link excl avoid_links) snd kvs d1), H2. cbn [mbind outcome_bind]. exact Hm.
  - split; [done|]. intros i j Hi. apply Hp; [|done]. intros Hn. rewrite Hn in Hi. by apply not_elem_of_nil in Hi.
Qed.

(** What the matrix answers for all pairs of nodes. *)
Lemma all_pairs_answers :
  exists data, ComputePaths excl adj avoid_nodes avoid_links = Ok data /\
    forall i j, i ∈ nodes -> j ∈ nodes ->
    (GetDistance data i j = Ok Delay_max /\ GetPath data i j = Ok None /\
       ~ exists p, walk adj ok i p j) \/
    exists p, GetDistance data i j = Ok (cost p) /\
      GetPath data i j = Ok (Some (Walk.mk (link_index <$> p) (cost p))) /\
      walk adj ok i p j /\ NoDup (i :: (dst_index <$> p)) /\
      forall p', walk adj ok i p' j -> (cost p <= cost p')%Z.
Proof.
  destruct ComputePaths_winv as (data & HC & HI & Hp). exists data. split; [done|]. intros i j Hi Hj.
  destruct Hok as [Hwf Hfn Hfr (HD & Hpos & Hfit) Hsum Hincl Hloop Hpar].
  assert (Hends : forall u e, e ∈ GetNeighbors adj u -> u ∈ nodes /\ dst_index e ∈ nodes).
  { intros u e He. by destruct (neighbor_nodes adj Hwf u e He) as (_ & ? & ?). }
  rewrite PerfectHashSet.Count_length_elems in Hsum.
  assert (Hthrough : forall p v, walk adj ok i p v -> through (list_to_set nodes) p).
  { intros p v Hw p1 e p2 -> _. apply walk_app_inv in Hw as (m & _ & (He & _ & _)%walk_cons_inv).
    apply elem_of_list_to_set. by eapply Hends. }
  assert (Hlow : forall p, walk adj ok i p j -> (distance (cell data i j) <= cost p)%Z).
  { intros p Hw. by apply (w_lower _ _ _ _ _ HI); [..|eapply Hthrough]. }
  pose proof (w_range _ _ _ _ _ HI i j Hi Hj) as Hrange.
  assert (HG : GetDistance data i j = Ok (distance (cell data i j))).
  { unfold GetDistance. by rewrite at_const_present by auto. }
  unfold GetPath. rewrite HG, at_const_present by auto. cbn [mbind outcome_bind].
  destruct (Z.eqb_spec (distance (cell data i j)) Delay_max) as [Heq|Hne].
  - left. rewrite Heq. split_and!; [done..|]. intros (p & Hw).
    destruct (walk_simple adj ok nodes D (λ u e H _, Hloop u e H) Hsum _ i p j Hw (Hthrough _ _ Hw)) as (q & Hq & _ & Hnq).
    pose proof (Hlow q Hq). pose proof (simple_cost adj ok nodes D Hpos Hends HD Hsum i q j Hi Hq Hnq). nia.
  - right. assert (Hrows : length nodes <= length (PerfectHashMap.values_ data)).
    { assert (Hs : nodes ⊆+ seq 0 (length (PerfectHashMap.values_ data))).
      { apply NoDup_submseteq; [apply PerfectHashSet.NoDup_elems|]. intros x Hx. apply elem_of_seq.
        destruct (Hp x j Hx Hj) as (row & Hrow%PerfectHashMap.lookup_lt & _). lia. }
      apply submseteq_length in Hs. by rewrite length_seq in Hs. }
    destruct (follow_spec adj ok nodes D Hpos Hends Hsum data j Hp HI Hj (S (length (PerfectHashMap.values_ data)))
      i [] []) as (q & -> & Hq & Hc & Hnq & _); [done|lia|constructor|constructor|simpl; lia|].
    pose proof (Hlow q Hq). assert (distance (cell data i j) = cost q) as -> by lia.
    exists q. cbn [mbind outcome_bind app]. split_and!; [done..|]. intros p' Hp'. specialize (Hlow p' Hp'). lia.
Qed.
End properties.

(** C5: when no node is excluded and no two usable links are parallel the
    computation of all shortest paths succeeds, and for all nodes [GetPath]
    returns a shortest usable walk, which visits no node twice and carries its
    delay, or null exactly when there is no walk (the empty walk from a node to
    itself). *)
Theorem AllPairShortestPath_GetPath_correct excl adj nodes links D src dst :
  all_pairs_ok excl adj nodes links D ->
  PerfectHashSet.Contains (AllNodes adj) src = true -> PerfectHashSet.Contains (AllNodes adj) dst = true ->
  let ok := usable excl nodes links in
  exists data r, ComputePaths excl adj nodes links = Ok data /\ GetPath data src dst = Ok r /\
  match r with
  | Some w => exists p, walk adj ok src p dst /\ Walk.links_ w = link_index <$> p /\ Walk.delay_ w = cost p /\
      NoDup (src :: (dst_index <$> p)) /\ forall p', walk adj ok src p' dst -> (cost p <= cost p')%Z
  | None => ~ exists p, walk adj ok src p dst
  end.
Proof.
  intros Hok Hs%PerfectHashSet.elem_of_elems Hd%PerfectHashSet.elem_of_elems ok.
  destruct (all_pairs_answers excl adj nodes links D Hok) as (data & HC & Hall).
  destruct (Hall src dst Hs Hd) as [(_ & Hp & Hno)|(p & _ & Hp & Hw & Hnd & Hmin)].
  - exists data, None. auto.
  - eexists data, _. split_and!; [done|exact Hp|]. exists p. auto.
Qed.

(** under the same conditions the matrix gives for every pair of nodes the
    distance that the shortest path tree of the source gives. *)
Theorem AllPairShortestPath_agrees_with_tree excl adj nodes links D src dests dst :
  all_pairs_ok excl adj nodes links D -> fits 64 (PerfectHashSet.Count dests) ->
  PerfectHashSet.Contains dests dst = true ->
  PerfectHashSet.Contains (AllNodes adj) src = true -> PerfectHashSet.Contains (AllNodes adj) dst = true ->
  exists data tree d, ComputePaths excl adj nodes links = Ok data /\
    Compute excl adj nodes links src dests = Ok tree /\
    GetDistance data src dst = Ok d /\ GetPathDistance tree dst = Ok d.
Proof.
  intros Hok Hf Hin Hs Hd.
  destruct (all_pairs_answers excl adj nodes links D Hok) as (data & HC & Hall).
  destruct (tree_correct excl adj nodes links src dests D (ap_wf _ _ _ _ _ Hok) (ap_delays _ _ _ _ _ Hok) Hf)
    as (tree & HT & Htree).
  pose proof (ap_included _ _ _ _ _ Hok src Hs) as Hex.
  specialize (Hall src dst (proj2 (PerfectHashSet.elem_of_elems _ _) Hs) (proj2 (PerfectHashSet.elem_of_elems _ _) Hd)).
  exists data, tree.
  destruct Hall as [(Hg & _ & Hno)|(p & Hg & _ & Hw & _ & Hmin)],
    (Htree dst Hin) as [([?|[_ Hno']] & Ht & _)|(_ & q & Hq & Hmin' & _ & Ht & _)].
  - congruence.
  - eauto.
  - exfalso. eauto.
  - congruence.
  - exfalso. eauto.
  - exists (cost p). split_and!; [done..|]. rewrite Ht. f_equal. specialize (Hmin q Hq). specialize (Hmin' p Hw). lia.
Qed.

Lemma small_adj_all_pairs : all_pairs_ok ExclusionSet.empty small_adj None None 20.
Proof.
  split; [apply small_adj_wf|done|done|apply small_adj_delays|done|done| |].
  - intros [|[|[|u]]] e He; vm_compute in He;
      repeat (apply elem_of_cons in He as [->|He]; [done|]); by apply not_elem_of_nil in He.
  - intros [|[|[|u]]] e1 e2 H1 H2; vm_compute in H1, H2;
      repeat (apply elem_of_cons in H1 as [->|H1]); try (by apply not_elem_of_nil in H1);
      repeat (apply elem_of_cons in H2 as [->|H2]); try (by apply not_elem_of_nil in H2); done.
Qed.

Lemma AllPairShortestPath_GetPath_correct_witness :
  exists data r, ComputePaths ExclusionSet.empty small_adj None None = Ok data /\
    GetPath data 0 2 = Ok r /\ Walk.links_ <$> r = Some [0; 1].
Proof.
  destruct (AllPairShortestPath_GetPath_correct ExclusionSet.empty small_adj None None 20 0 2
    small_adj_all_pairs) as (data & r & HC & HG & _); [reflexivity..|].
  exists data, r. split; [exact HC|]. split; [exact HG|].
  vm_compute in HC. injection HC as <-. vm_compute in HG. injection HG as <-. reflexivity.
Defined.

Lemma AllPairShortestPath_agrees_with_tree_witness :
  exists data tree d, ComputePaths ExclusionSet.empty small_adj None None = Ok data /\
    Compute ExclusionSet.empty small_adj None None 0 (PerfectHashSet.of_list [2]) = Ok tree /\
    GetDistance data 0 2 = Ok d /\ GetPathDistance tree 2 = Ok d.
Proof.
  apply (AllPairShortestPath_agrees_with_tree ExclusionSet.empty small_adj None None 20 0
    (PerfectHashSet.of_list [2]) 2 small_adj_all_pairs); reflexivity.
Defined.

(** With node 1 excluded the path from 0 to 2 still leads through it; only the
    distance of the node to itself is affected. *)
Theorem AllPairShortestPath_ignores_excluded_nodes :
  let excl := ExclusionSet.Nodes ExclusionSet.empty (PerfectHashSet.of_list [1]) in
  exists data, ComputePaths excl small_adj None None = Ok data /\
    GetPath data 0 2 = Ok (Some (Walk.mk [0; 1] 12%Z)) /\ GetDistance data 1 1 = Ok 10%Z.
Proof. eexists. split; [vm_compute; reflexivity|]. by vm_compute. Qed.

(** Of two parallel links the last one is used, even when it is longer. *)
Theorem AllPairShortestPath_parallel_links :
  let adj := AdjacencyList.mk
    (PerfectHashMap.mk [(true, [mkLinkInfo 0 0 1 5; mkLinkInfo 1 0 1 20]%Z)]) (PerfectHashSet.of_list [0; 1]) in
  exists data, ComputePaths ExclusionSet.empty adj None None = Ok data /\
    GetPath data 0 1 = Ok (Some (Walk.mk [1] 20%Z)).
Proof. eexists. split; [vm_compute; reflexivity|]. by vm_compute. Qed.
