(* ===== verification/Waypoints.v ===== *)
(** Model of [CombineWaypoints] and [CommonSPLinks]
    ([src/src/net/algorithm.cc]).  Merging waypoint lists is proved to keep
    every list as a subsequence of the result when the waypoints can reach one
    another; [CommonSPLinks] is shown to forget that an intersection became
    empty. *)

From S2P Require Import Prelude OrderedMap PerfectHash PriorityQueue Graph ShortestPath.

Import AdjacencyList.

(** A map from the root to the shortest path tree (a pointer). *)
#[local] Notation tree_map := (PerfectHashMap.t (option ShortestPath.t)).

Definition DelayOrDie (sp_trees : tree_map) (src dst : nat) : outcome Delay :=
  ptr ← PerfectHashMap.GetValueOrDie sp_trees src;
  match ptr with
  | None => Fail Undefined
  | Some tree =>
      to_return ← ShortestPath.GetPathDistance tree dst;
      _ ← check (negb (to_return =? Delay_max)%Z);
      Ok to_return
  end.

(** One iteration of the loop of [ClosestTo]. *)
Definition closest_step (sp_trees : tree_map) (waypoint_list : list nat) (new_waypoint : nat)
    (best : Delay * nat) (i : nat) : outcome (Delay * nat) :=
  let '(best_delta, best_i) := best in
  wp ← vec_at waypoint_list i;
  wp_next ← vec_at waypoint_list (i + 1);
  direct_delay ← DelayOrDie sp_trees wp wp_next;
  to_new ← DelayOrDie sp_trees wp new_waypoint;
  from_new ← DelayOrDie sp_trees new_waypoint wp_next;
  indirect_delay ← delay_add to_new from_new;
  _ ← check (direct_delay <=? indirect_delay)%Z;
  delta ← delay_add indirect_delay (- direct_delay);
  if (delta <? best_delta)%Z then Ok (delta, i) else Ok (best_delta, best_i).

Definition ClosestTo (sp_trees : tree_map) (waypoint_list : list nat) (new_waypoint start_index : nat)
  : outcome nat :=
  _ ← check (1 <? length waypoint_list);
  _ ← check (start_index <? length waypoint_list - 1);
  '(_, best_i) ← mfold (closest_step sp_trees waypoint_list new_waypoint)
                   (seq start_index (length waypoint_list - 1 - start_index)) (Delay_max, 0);
  Ok best_i.

(** [vector::insert] at a position of the vector. *)
Definition insert_at (l : list nat) (i x : nat) : list nat := take i l ++ x :: drop i l.

Definition merge_step (sp_trees : tree_map) (acc : list nat * nat) (waypoint_to_merge : nat)
  : outcome (list nat * nat) :=
  let '(current_waypoints, prev_index) := acc in
  new_index ← ClosestTo sp_trees current_waypoints waypoint_to_merge prev_index;
  Ok (insert_at current_waypoints (new_index + 1) waypoint_to_merge, new_index + 1).

Definition Merge (to_merge : list nat) (sp_trees : tree_map) (current_waypoints : list nat)
  : outcome (list nat) :=
  '(current_waypoints, _) ← mfold (merge_step sp_trees) to_merge (current_waypoints, 0);
  Ok current_waypoints.

Definition GetSPTrees (nodes : PerfectHashSet.t) (exclusion_set : ExclusionSet.t)
    (adj_list : AdjacencyList.t) : outcome tree_map :=
  order ← PerfectHashSet.iterate kIndexBits nodes;
  mfold (λ out node,
           tree ← ShortestPath.Compute exclusion_set adj_list None None node nodes;
           Ok (PerfectHashMap.RefAssign None out node (Some tree)))
    order PerfectHashMap.empty.

Definition CombineWaypoints (src dst : nat) (exclusion_set : ExclusionSet.t) (adj_list : AdjacencyList.t)
    (waypoints : list (list nat)) : outcome (list nat) :=
  _ ← check (negb (bool_decide (waypoints = [])));
  let all_waypoints := fold_left PerfectHashSet.Insert (concat waypoints) (PerfectHashSet.of_list [src; dst]) in
  sp_trees ← GetSPTrees all_waypoints exclusion_set adj_list;
  first_waypoint_list ← vec_at waypoints 0;
  let current_waypoints := [src] ++ first_waypoint_list ++ [dst] in
  current_waypoints ← mfold (λ current_waypoints waypoint_list, Merge waypoint_list sp_trees current_waypoints)
                        (drop 1 waypoints) current_waypoints;
  Ok (take (length current_waypoints - 2) (drop 1 current_waypoints)).

(** ** CommonSPLinks *)

(** The link that stands for both directions of a link of a tree. *)
Definition same_way (g : GraphStorage.t) (acc : PerfectHashSet.t) (link_index : nat) : outcome PerfectHashSet.t :=
  link ← GraphStorage.GetLink g link_index;
  if Graph.src link <? Graph.dst link then Ok (PerfectHashSet.Insert acc link_index)
  else
    inverse_link_index ← GraphStorage.FindUniqueInverseOrNull g link;
    match inverse_link_index with
    | None => Ok (PerfectHashSet.Insert acc link_index)
    | Some i => Ok (PerfectHashSet.Insert acc i)
    end.

(** One root: [out] and [all_links]. *)
Definition common_step (g : GraphStorage.t) (acc : PerfectHashSet.t * PerfectHashSet.t) (root : nat)
  : outcome (PerfectHashSet.t * PerfectHashSet.t) :=
  let '(out, all_links) := acc in
  let adj_list := GraphStorage.adjacency_list_ g in
  let others := PerfectHashSet.Remove (AllNodes adj_list) root in
  sp ← ShortestPath.Compute ExclusionSet.empty adj_list None None root others;
  '(_, links_in_tree) ← ShortestPath.ElementsInTree sp;
  order ← PerfectHashSet.iterate kIndexBits links_in_tree;
  links_in_tree_same_way ← mfold (same_way g) order PerfectHashSet.empty;
  let all_links := PerfectHashSet.InsertAll all_links links_in_tree_same_way in
  if PerfectHashSet.Empty out then Ok (links_in_tree_same_way, all_links)
  else Ok (PerfectHashSet.Intersection kIndexBits out links_in_tree_same_way, all_links).

(** The set, with the numerator and the denominator of the returned [double]. *)
Definition CommonSPLinks (g : GraphStorage.t) : outcome (PerfectHashSet.t * (nat * nat)) :=
  roots ← PerfectHashSet.iterate kIndexBits (AllNodes (GraphStorage.adjacency_list_ g));
  '(out, all_links) ← mfold (common_step g) roots (PerfectHashSet.empty, PerfectHashSet.empty);
  Ok (out, (PerfectHashSet.Count out, PerfectHashSet.Count all_links)).

(** ** Correctness of [CombineWaypoints] *)
Section combine.
Import ShortestPath.
Context (excl : ExclusionSet.t) (adj : AdjacencyList.t) (W : PerfectHashSet.t) (D : Z).
#[local] Notation ok := (usable excl None None).
#[local] Notation "x ∈w" := (PerfectHashSet.Contains W x = true) (at level 70).

Hypothesis Hwf : AdjacencyList.wf adj.
Hypothesis Hdel : delays_ok adj D.
Hypothesis Hsum : (2 * D * Z.of_nat (S (PerfectHashSet.Count (AllNodes adj))) < Delay_max)%Z.
Hypothesis HW : fits kIndexBits (length (PerfectHashSet.set_ W)).
Hypothesis Hreach : forall u v, u ∈w -> v ∈w ->
  CanExcludeNode u excl None = false /\ exists p, walk adj ok u p v.

Lemma simple_walk_cost u p v :
  walk adj ok u p v -> NoDup (u :: (dst_index <$> p)) ->
  (0 <= cost p <= D * Z.of_nat (PerfectHashSet.Count (AllNodes adj)))%Z.
Proof.
  destruct Hdel as (HD & Hpos & _). intros Hw Hnd.
  assert (Hc : (0 <= cost p <= D * Z.of_nat (length p))%Z /\
            forall x, x ∈ dst_index <$> p -> x ∈ PerfectHashSet.elems (AllNodes adj)).
  { clear Hnd. induction Hw as [|u p v e Hw [IH1 IH2] He Hok]; [simpl; split; [lia|by intros ? ?%not_elem_of_nil]|].
    rewrite cost_app, length_app. change (cost [e]) with (delay e + 0)%Z. simpl length.
    specialize (Hpos v e He). split; [lia|]. intros x. rewrite fmap_app, elem_of_app.
    intros [Hx|Hx]; [by apply IH2|]. apply list_elem_of_singleton in Hx as ->.
    apply PerfectHashSet.elem_of_elems. by apply (proj2 Hwf v e). }
  destruct Hc as [Hc Hin]. apply NoDup_cons in Hnd as [_ Hnd].
  assert (Hs : dst_index <$> p ⊆+ PerfectHashSet.elems (AllNodes adj)) by (by apply NoDup_submseteq).
  apply submseteq_length in Hs. rewrite length_fmap, <-PerfectHashSet.Count_length_elems in Hs. nia.
Qed.

(** The trees answer for all pairs of waypoints. *)
Definition trees_ok (trees : tree_map) : Prop :=
  forall u v, u ∈w -> v ∈w -> exists d, DelayOrDie trees u v = Ok d /\
    (0 <= d <= D * Z.of_nat (PerfectHashSet.Count (AllNodes adj)))%Z /\
    (exists p, walk adj ok u p v /\ d = cost p) /\ (forall p, walk adj ok u p v -> (d <= cost p)%Z).

Lemma GetSPTrees_spec : exists trees, GetSPTrees W excl adj = Ok trees /\ trees_ok trees.
Proof.
  unfold GetSPTrees. rewrite PerfectHashSet.set_iterate_spec by done. cbn [mbind outcome_bind].
  assert (Hcount : fits 64 (PerfectHashSet.Count W)).
  { unfold fits in *. rewrite PerfectHashSet.Count_length_elems. unfold PerfectHashSet.elems.
    pose proof (length_filter (λ i, PerfectHashSet.Contains W i = true) (seq 0 (length (PerfectHashSet.set_ W)))) as Hl.
    rewrite length_seq in Hl. unfold kIndexBits in HW. lia. }
  destruct (mfold_inv (λ l out, forall u, u ∈ l -> exists tree, PerfectHashMap.lookup out u = Some (Some tree) /\
      Compute excl adj None None u W = Ok tree)
    (λ out node, tree ← Compute excl adj None None node W;
                 Ok (PerfectHashMap.RefAssign None out node (Some tree)))
    (PerfectHashSet.elems W) PerfectHashMap.empty) as (trees & Hm & Htrees).
  - by intros u ?%not_elem_of_nil.
  - intros l n out _ Hout. destruct (tree_correct excl adj None None n W D Hwf Hdel Hcount) as (tree & HT & _).
    rewrite HT. cbn [mbind outcome_bind]. eexists. split; [done|]. intros u Hu.
    rewrite PerfectHashMap.RefAssign_Add, PerfectHashMap.lookup_Add. destruct (decide (n = u)) as [->|Hne]; [eauto|].
    apply Hout. apply elem_of_app in Hu as [?| ->%list_elem_of_singleton]; done.
  - exists trees. split; [done|]. intros u v Hu Hv.
    destruct (Htrees u) as (tree & Hl & HT); [by apply PerfectHashSet.elem_of_elems|].
    destruct (tree_correct excl adj None None u W D Hwf Hdel Hcount) as (tree' & HT' & Hall).
    rewrite HT in HT'. injection HT' as <-. destruct (Hreach u v Hu Hv) as [Hex Hp].
    destruct (Hall v Hv) as [([?|[_ ?]] & _)|(_ & p & Hw & Hmin & Hnd & Hd & _)]; [congruence|done|].
    pose proof (simple_walk_cost u p v Hw Hnd) as Hc. exists (cost p). split_and!; [|lia|lia|eauto|done].
    unfold DelayOrDie. rewrite (proj2 (PerfectHashMap.GetValueOrDie_Ok _ _ _) Hl). cbn [mbind outcome_bind].
    rewrite Hd. cbn [mbind outcome_bind]. rewrite (proj2 (Z.eqb_neq _ _)); [done|]. destruct Hdel as (? & _ & ?). nia.
Qed.

Lemma prefix_of_seq_from (l : list nat) a s n :
  (l ++ [a]) `prefix_of` seq s n -> a = s + length l /\ length l < n.
Proof.
  intros [r Hr]. assert (Ha : seq s n !! length l = Some a).
  { rewrite Hr, <-app_assoc, lookup_app_r, Nat.sub_diag by lia. done. }
  apply lookup_seq in Ha. lia.
Qed.

(** The position found is one after which the new waypoint can be inserted. *)
Lemma ClosestTo_spec trees l x start :
  trees_ok trees -> Forall (λ n, n ∈w) l -> x ∈w -> start < length l - 1 ->
  exists i, ClosestTo trees l x start = Ok i /\ start <= i < length l - 1.
Proof.
  intros Ht Hl Hx Hs. unfold ClosestTo. rewrite (proj2 (Nat.ltb_lt _ _)) by lia.
  rewrite (proj2 (Nat.ltb_lt _ _)) by lia. cbn [check mbind outcome_bind].
  match goal with |- context [mfold ?f ?ll ?b] => destruct (mfold_inv
      (λ (js : list nat) (best : Delay * nat), (js = [] /\ best = (Delay_max, 0)) \/
         ((best.1 < Delay_max)%Z /\ start <= best.2 < length l - 1)) f ll b) as ([bd bi] & -> & Hb) end; [by left| |].
  - intros js j [bd bi] [-> Hlt]%prefix_of_seq_from Hinv. set (j := start + length js) in *.
    destruct (lookup_lt_is_Some_2 l j) as [wp Hwp]; [lia|].
    destruct (lookup_lt_is_Some_2 l (j + 1)) as [wn Hwn]; [lia|].
    unfold closest_step. rewrite (proj2 (vec_at_Ok _ _ _) Hwp), (proj2 (vec_at_Ok _ _ _) Hwn).
    cbn [mbind outcome_bind]. rewrite Forall_forall in Hl.
    pose proof (Hl _ (list_elem_of_lookup_2 _ _ _ Hwp)) as W1. pose proof (Hl _ (list_elem_of_lookup_2 _ _ _ Hwn)) as W2.
    destruct (Ht wp wn W1 W2) as (d1 & -> & B1 & _ & Hmin). cbn [mbind outcome_bind].
    destruct (Ht wp x W1 Hx) as (d2 & -> & B2 & (p2 & P2 & ->) & _). cbn [mbind outcome_bind].
    destruct (Ht x wn Hx W2) as (d3 & -> & B3 & (p3 & P3 & ->) & _). cbn [mbind outcome_bind].
    destruct Hdel as (HD & _ & _).
    rewrite delay_add_Ok by nia. cbn [mbind outcome_bind].
    assert (Htri : (d1 <= cost p2 + cost p3)%Z) by (rewrite <-cost_app; apply Hmin; by eapply walk_app).
    rewrite (proj2 (Z.leb_le _ _) Htri). cbn [check mbind outcome_bind].
    rewrite delay_add_Ok by nia. cbn [mbind outcome_bind].
    destruct (Z.ltb_spec (cost p2 + cost p3 + - d1) bd) as [Hlt'|Hge]; eexists; (split; [done|]); right; simpl.
    + split; [nia|lia].
    + destruct Hinv as [[-> [= -> ->]]|Hinv]; [nia|done].
  - exists bi. split; [done|]. destruct Hb as [[Hnil _]|[_ ?]]; [|done].
    destruct (length l - 1 - start) eqn:He; [lia|done].
Qed.

(** *** Merging *)

(** Inserting into the waypoints between the two ends. *)
Lemma insert_between (s t : nat) mid m x :
  m <= length mid -> insert_at (s :: mid ++ [t]) (m + 1) x = s :: insert_at mid m x ++ [t].
Proof.
  intros Hm. unfold insert_at. rewrite Nat.add_1_r. cbn [take drop]. rewrite take_app_le, drop_app_le by lia.
  by rewrite <-!app_assoc, app_comm_cons.
Qed.

Lemma insert_at_perm l i x : insert_at l i x ≡ₚ x :: l.
Proof. unfold insert_at. by rewrite <-Permutation_middle, take_drop. Qed.

Lemma sublist_insert_at l i x : l `sublist_of` insert_at l i x.
Proof.
  unfold insert_at. rewrite <-(take_drop i l) at 1. apply sublist_app; [done|]. by apply sublist_cons.
Qed.

Lemma Merge_spec trees s t mid to_merge :
  trees_ok trees -> Forall (λ n, n ∈w) (s :: mid ++ [t]) -> Forall (λ n, n ∈w) to_merge ->
  exists mid', Merge to_merge trees (s :: mid ++ [t]) = Ok (s :: mid' ++ [t]) /\
    mid' ≡ₚ to_merge ++ mid /\ mid `sublist_of` mid' /\ to_merge `sublist_of` mid'.
Proof.
  intros Ht Hall Hm. unfold Merge.
  match goal with |- context [mfold ?f ?l ?b] => destruct (mfold_inv
      (λ (js : list nat) (acc : list nat * nat), exists mid', acc.1 = s :: mid' ++ [t] /\
         acc.2 <= length mid' /\ mid' ≡ₚ js ++ mid /\ mid `sublist_of` mid' /\
         js `sublist_of` take acc.2 mid') f l b) as ([cur prev] & -> & mid' & Hcur & Hprev & Hperm & Hsub & Hjs) end.
  - exists mid. cbn [fst snd]. split_and!; [done|lia|done|done|done].
  - intros js x [cur prev] [r Hr] (mid' & Hcur & Hprev & Hperm & Hsub & Hjs). cbn [fst snd] in *. subst cur.
    assert (Hin : Forall (λ n, n ∈w) (s :: mid' ++ [t])).
    { rewrite Forall_cons, Forall_app in Hall |- *. destruct Hall as (? & Hmid & ?). split_and!; [done| |done].
      rewrite Hperm, Forall_app. split; [|done]. rewrite Hr, !Forall_app in Hm. by destruct Hm as [[? _] _]. }
    assert (Hx : x ∈w).
    { rewrite Forall_forall in Hm. apply Hm. rewrite Hr, !elem_of_app, list_elem_of_singleton. auto. }
    destruct (ClosestTo_spec trees (s :: mid' ++ [t]) x prev Ht Hin Hx) as (i & Hi & Hb).
    { simpl. rewrite length_app. simpl. lia. }
    simpl length in Hb. rewrite length_app in Hb. simpl in Hb.
    unfold merge_step. rewrite Hi. cbn [mbind outcome_bind]. rewrite insert_between by lia.
    eexists. split; [done|]. exists (insert_at mid' i x). cbn [fst snd]. split_and!; [done| | | |].
    + rewrite insert_at_perm. simpl. lia.
    + rewrite insert_at_perm, Hperm, <-app_assoc. apply Permutation_middle.
    + etrans; [done|]. apply sublist_insert_at.
    + unfold insert_at. rewrite take_app_add' by (rewrite length_take; lia). cbn [take].
      apply sublist_app; [|done]. etrans; [exact Hjs|]. replace prev with (prev `min` i) by lia.
      rewrite <-take_take. apply sublist_take.
  - cbn [fst snd] in *. subst cur. exists mid'. cbn [mbind outcome_bind].
    split_and!; [done..|]. etrans; [exact Hjs|]. apply sublist_take.
Qed.
End combine.

(** ** Properties *)

Lemma elem_of_concat {A} (x : A) ls : x ∈ concat ls <-> exists l, x ∈ l /\ l ∈ ls.
Proof. induction ls as [|l ls IH]; simpl; [set_solver|]. rewrite elem_of_app, IH. set_solver. Qed.

Definition all_waypoints (src dst : nat) (waypoints : list (list nat)) : PerfectHashSet.t :=
  fold_left PerfectHashSet.Insert (concat waypoints) (PerfectHashSet.of_list [src; dst]).

Lemma Contains_all_waypoints src dst waypoints x :
  PerfectHashSet.Contains (all_waypoints src dst waypoints) x = true <->
  x = src \/ x = dst \/ x ∈ concat waypoints.
Proof.
  unfold all_waypoints.
  assert (H : forall l s, PerfectHashSet.Contains (fold_left PerfectHashSet.Insert l s) x = true <->
            PerfectHashSet.Contains s x = true \/ x ∈ l).
  { induction l as [|y l IH]; intros s; simpl; [set_solver|].
    rewrite IH, PerfectHashSet.Contains_Insert. case_decide; set_solver. }
  rewrite H, PerfectHashSet.Contains_of_list. set_solver.
Qed.

(** when all waypoints and the two ends can reach one another over usable
    links, [CombineWaypoints] does not fail; its result holds exactly the
    waypoints of all the lists, and every list is a subsequence of it. *)
Theorem CombineWaypoints_spec src dst excl adj D first rest :
  let waypoints := first :: rest in
  let W := all_waypoints src dst waypoints in
  AdjacencyList.wf adj -> delays_ok adj D ->
  (2 * D * Z.of_nat (S (PerfectHashSet.Count (AllNodes adj))) < Delay_max)%Z ->
  fits kIndexBits (length (PerfectHashSet.set_ W)) ->
  (forall u v, PerfectHashSet.Contains W u = true -> PerfectHashSet.Contains W v = true ->
     CanExcludeNode u excl None = false /\
     exists p, ShortestPath.walk adj (ShortestPath.usable excl None None) u p v) ->
  exists out, CombineWaypoints src dst excl adj waypoints = Ok out /\
    out ≡ₚ concat waypoints /\ Forall (λ l, l `sublist_of` out) waypoints.
Proof.
  intros waypoints W Hwf Hdel Hsum HW Hreach. unfold CombineWaypoints.
  rewrite bool_decide_false by done. cbn [negb check mbind outcome_bind].
  destruct (GetSPTrees_spec excl adj W D Hwf Hdel Hsum HW Hreach) as (trees & HT & Ht).
  unfold W, all_waypoints in HT. rewrite HT. cbn [mbind outcome_bind].
  rewrite (proj2 (vec_at_Ok waypoints 0 first) eq_refl). cbn [mbind outcome_bind].
  assert (HinW : forall l, l ∈ waypoints -> Forall (λ n, PerfectHashSet.Contains W n = true) l).
  { intros l Hl. apply Forall_forall. intros x Hx. apply Contains_all_waypoints. right. right.
    apply elem_of_concat. eauto. }
  assert (Hends : PerfectHashSet.Contains W src = true /\ PerfectHashSet.Contains W dst = true)
    by (split; apply Contains_all_waypoints; auto).
  change (drop 1 waypoints) with rest.
  destruct (mfold_inv (λ done_ cur, exists mid, cur = src :: mid ++ [dst] /\ mid ≡ₚ concat (first :: done_) /\
      Forall (λ l, l `sublist_of` mid) (first :: done_))
    (λ current_waypoints waypoint_list, Merge waypoint_list trees current_waypoints) rest
    ([src] ++ first ++ [dst])) as (cur & -> & mid & -> & Hperm & Hsub).
  - exists first. split_and!; [done|simpl; by rewrite app_nil_r|by constructor].
  - intros done_ l cur [r Hr] (mid & -> & Hperm & Hsub).
    assert (Hmid : Forall (λ n, PerfectHashSet.Contains W n = true) mid).
    { rewrite Hperm. apply Forall_forall. intros x (l' & Hx & Hl')%elem_of_concat.
      specialize (HinW l'). rewrite Forall_forall in HinW. apply HinW; [|done]. unfold waypoints. rewrite Hr.
      apply elem_of_cons in Hl' as [->|Hl']; [apply list_elem_of_here|apply list_elem_of_further].
      apply elem_of_app. left. apply elem_of_app. by left. }
    destruct (Merge_spec excl adj W D Hdel Hsum trees src dst mid l Ht) as (mid' & -> & Hp' & Hs1 & Hs2).
    + rewrite Forall_cons, Forall_app, Forall_singleton. naive_solver.
    + apply HinW. unfold waypoints. rewrite Hr. apply list_elem_of_further. rewrite !elem_of_app, list_elem_of_singleton. auto.
    + eexists. split; [done|]. exists mid'. split_and!; [done| |].
      * rewrite Hp', Hperm, app_comm_cons, concat_app. simpl. rewrite app_nil_r. apply Permutation_app_comm.
      * rewrite app_comm_cons. apply Forall_app. split; [|by constructor].
        eapply Forall_impl; [exact Hsub|]. intros l' Hl'. etrans; [exact Hl'|exact Hs1].
  - cbn [mbind outcome_bind]. exists mid. split; [|done]. cbn [drop length]. rewrite length_app. simpl.
    rewrite drop_0, take_app_length'; [done|]. lia.
Qed.

(** A ring of three nodes. *)
Definition ring : AdjacencyList.t :=
  AdjacencyList.mk
    (PerfectHashMap.mk [(true, [mkLinkInfo 0 0 1 5]%Z); (true, [mkLinkInfo 1 1 2 5]%Z); (true, [mkLinkInfo 2 2 0 5]%Z)])
    (PerfectHashSet.of_list [0; 1; 2]).

Lemma ring_walk u v : u < 3 -> v < 3 ->
  exists p, ShortestPath.walk ring (ShortestPath.usable ExclusionSet.empty None None) u p v.
Proof.
  set (ok := ShortestPath.usable ExclusionSet.empty None None).
  assert (Hstep : forall u e, GetNeighbors ring u = [e] -> ShortestPath.walk ring ok u [e] (dst_index e)).
  { intros w e He. apply (ShortestPath.walk_snoc ring ok w [] w e); [constructor| |done].
    rewrite He. by apply list_elem_of_singleton. }
  pose proof (Hstep 0 (mkLinkInfo 0 0 1 5%Z) eq_refl) as S0.
  pose proof (Hstep 1 (mkLinkInfo 1 1 2 5%Z) eq_refl) as S1.
  pose proof (Hstep 2 (mkLinkInfo 2 2 0 5%Z) eq_refl) as S2. simpl in S0, S1, S2.
  intros Hu Hv. destruct u as [|[|[|u]]], v as [|[|[|v]]]; try lia; eexists;
    first [by constructor | eassumption | eapply ShortestPath.walk_app; eassumption].
Qed.

Lemma CombineWaypoints_spec_witness :
  exists out, CombineWaypoints 0 2 ExclusionSet.empty ring [[1]; [1; 2]] = Ok out /\ out = [1; 1; 2].
Proof.
  destruct (CombineWaypoints_spec 0 2 ExclusionSet.empty ring 5 [1] [[1; 2]]) as (out & H & _).
  - split; [intros [|[|[|u]]]; done|].
    intros [|[|[|u]]] e He; vm_compute in He;
      repeat (apply elem_of_cons in He as [->|He]; [done|]); by apply not_elem_of_nil in He.
  - split_and!; [done| |done]. intros [|[|[|u]]] e He; vm_compute in He;
      repeat (apply elem_of_cons in He as [->|He]; [done|]); by apply not_elem_of_nil in He.
  - done.
  - done.
  - intros u v Hu Hv. split; [done|]. apply ring_walk.
    + destruct u as [|[|[|u]]]; [lia..|]. vm_compute in Hu. done.
    + destruct v as [|[|[|v]]]; [lia..|]. vm_compute in Hv. done.
  - exists out. split; [exact H|]. vm_compute in H. by injection H as <-.
Defined.

(** Once the intersection is empty the next root starts it anew: in the graph
    C -> A -> B no link is in the tree of B, yet both links are returned. *)
Theorem CommonSPLinks_restarts :
  match GraphStorage.construct (GraphBuilder.mk true
          [mkGraphLinkBase "A" "B" 1 1 10 5; mkGraphLinkBase "C" "A" 2 2 10 5]%Z) [] with
  | Ok g =>
      CommonSPLinks g = Ok (PerfectHashSet.of_list [0; 1], (2, 2)) /\
      exists tree, ShortestPath.Compute ExclusionSet.empty (GraphStorage.adjacency_list_ g) None None 1
                     (PerfectHashSet.of_list [0; 2]) = Ok tree /\
        ShortestPath.ElementsInTree tree = Ok (PerfectHashSet.empty, PerfectHashSet.empty)
  | Fail _ => False
  end.
Proof.
  vm_compute (GraphStorage.construct _ _). split; [vm_compute; reflexivity|].
  eexists. split; [vm_compute; reflexivity|]. vm_compute. reflexivity.
Qed.
