(* ===== verification/EventQueue.v ===== *)
(** Model of the event queue ([src/src/event_queue.h], [event_queue.cc]): the
    clock, the consumers with their counters of outstanding events, and the
    queue of scheduled events, which is a [VectorPriorityQueue].  The virtual
    [HandleEvent] of the consumers is a parameter: a function of the consumer,
    the clock and the state of the application that returns the calls it makes
    into the queue.  [SimTimeEventQueue] is the implementation of the clock;
    the two that read the clock of the machine are not modelled. *)

From S2P Require Import Prelude PriorityQueue.

Import VectorPriorityQueue.

(** ** Time: a wrapper of an unsigned 64-bit integer *)
Module EventQueueTime.

Definition ZeroTime : Z := 0%Z.
Definition MaxTime : Z := umax 64.
Definition add (a b : Z) : Z := u64 (a + b).
Definition sub (a b : Z) : outcome Z := _ ← check (b <=? a)%Z; Ok (a - b)%Z.
Definition mul (a i : Z) : Z := u64 (a * i).

End EventQueueTime.

Module EventQueue.

Record ScheduledEvent := mkEvent { at_time : Z; consumer : nat }.

#[global] Instance ScheduledEvent_eq_dec : EqDecision ScheduledEvent.
Proof. solve_decision. Defined.

(** Greater times are less, so that the top is the earliest event. *)
Definition Comparator (lhs rhs : ScheduledEvent) : bool := (at_time rhs <? at_time lhs)%Z.

(** [outstanding] holds [outstanding_event_count_] of every consumer that is
    alive; a consumer is named by its address. *)
Record t := mk {
  stop_time_ : Z;
  queue_ : list ScheduledEvent;
  time_ : Z;
  outstanding : gmap nat Z
}.

Definition init : t := mk EventQueueTime.MaxTime [] EventQueueTime.ZeroTime ∅.

Definition CurrentTime (q : t) : Z := time_ q.
Definition AdvanceTimeTo (q : t) (at_ : Z) : t := mk (stop_time_ q) (queue_ q) at_ (outstanding q).
Definition set_stop (q : t) (s : Z) : t := mk s (queue_ q) (time_ q) (outstanding q).
Definition set_queue (q : t) (l : list ScheduledEvent) : t := mk (stop_time_ q) l (time_ q) (outstanding q).
Definition set_outstanding (q : t) (o : gmap nat Z) : t := mk (stop_time_ q) (queue_ q) (time_ q) o.

Definition Stop (q : t) : t := set_stop q (CurrentTime q).

Definition Enqueue (q : t) (at_ : Z) (c : nat) : t :=
  set_queue q (emplace Comparator (queue_ q) (mkEvent at_ c)).

(** ** Consumers; a consumer that was destroyed must not be used *)

Definition event_count (q : t) (c : nat) : outcome Z :=
  match outstanding q !! c with Some n => Ok n | None => Fail Undefined end.

(** The constructor of a consumer. *)
Definition NewConsumer (q : t) (c : nat) : outcome t :=
  match outstanding q !! c with
  | Some _ => Fail Undefined
  | None => Ok (set_outstanding q (<[c := 0%Z]> (outstanding q)))
  end.

Definition EnqueueAt (q : t) (c : nat) (at_ : Z) : outcome t :=
  n ← event_count q c;
  Ok (Enqueue (set_outstanding q (<[c := u64 (n + 1)]> (outstanding q))) at_ c).

Definition EnqueueIn (q : t) (c : nat) (in_ : Z) : outcome t :=
  n ← event_count q c;
  Ok (Enqueue (set_outstanding q (<[c := u64 (n + 1)]> (outstanding q)))
        (EventQueueTime.add (CurrentTime q) in_) c).

(** The queue is emptied and the events of other consumers are put back. *)
Definition EvictConsumer (q : t) (c : nat) : outcome t :=
  events ← drain Comparator (S (length (queue_ q))) (queue_ q);
  Ok (set_queue q
        (fold_left (emplace Comparator) (filter (λ e, consumer e <> c) events) [])).

(** The destructor of a consumer. *)
Definition DestroyConsumer (q : t) (c : nat) : outcome t :=
  n ← event_count q c;
  q' ← (if (0 <? n)%Z then EvictConsumer q c else Ok q);
  Ok (set_outstanding q' (delete c (outstanding q'))).

(** The calls into the queue. *)
Inductive call : Type :=
| CallNew (c : nat)
| CallEnqueueAt (c : nat) (at_ : Z)
| CallEnqueueIn (c : nat) (in_ : Z)
| CallStop
| CallEvict (c : nat)
| CallDestroy (c : nat).

Definition perform (q : t) (x : call) : outcome t :=
  match x with
  | CallNew c => NewConsumer q c
  | CallEnqueueAt c at_ => EnqueueAt q c at_
  | CallEnqueueIn c in_ => EnqueueIn q c in_
  | CallStop => Ok (Stop q)
  | CallEvict c => EvictConsumer q c
  | CallDestroy c => DestroyConsumer q c
  end.

(** ** Running the queue *)
Section run.
Context {U : Type}.

(** [HandleEvent] of a consumer, at the time of the clock. *)
Variable HandleEvent : nat -> Z -> U -> U * list call.

Definition HandleEventPublic (q : t) (c : nat) (u : U) : outcome (t * U) :=
  n ← event_count q c;
  let q1 := set_outstanding q (<[c := u64 (n - 1)]> (outstanding q)) in
  let '(u', calls) := HandleEvent c (CurrentTime q1) u in
  q2 ← mfold perform calls q1;
  Ok (q2, u').

(** [NextEvent] moves the clock to the time of the top. *)
Definition NextEvent (q : t) : outcome (t * ScheduledEvent) :=
  next_event ← top (queue_ q);
  Ok (AdvanceTimeTo q (at_time next_event), next_event).

Definition PopEvent (q : t) : outcome t :=
  l ← pop Comparator (queue_ q); Ok (set_queue q l).

(** The loop of [Run]; the third component is the trace of the events handed
    to consumers, with the time of the clock. *)
Fixpoint Run_loop (fuel : nat) (q : t) (u : U) : outcome (t * U * list (Z * ScheduledEvent)) :=
  match fuel with
  | O => Fail OutOfFuel
  | S fuel' =>
      if empty (queue_ q) then Ok (q, u, [])
      else
        '(q1, next_event) ← NextEvent q;
        let now := CurrentTime q1 in
        if (stop_time_ q1 <=? now)%Z then Ok (q1, u, [])
        else
          q2 ← PopEvent q1;
          '(q3, u') ← HandleEventPublic q2 (consumer next_event) u;
          '(q4, u'', trace) ← Run_loop fuel' q3 u';
          Ok (q4, u'', (now, next_event) :: trace)
  end.

(** [SimTimeEventQueue::Run]. *)
Definition Run (fuel : nat) (q : t) (u : U) : outcome (t * U * list (Z * ScheduledEvent)) :=
  '(q', u', trace) ← Run_loop fuel q u;
  Ok (AdvanceTimeTo q' (stop_time_ q'), u', trace).

(** [SimTimeEventQueue::NanosToTime]: picoseconds, in 64 bits. *)
Definition NanosToTime (nanos : Z) : Z := u64 (u64 nanos * 1000).
Definition TimeToNanos (duration : Z) : Z := (duration / 1000)%Z.

(** The conversion of milliseconds to nanoseconds is signed. *)
Definition RawMillisToTime (millis : Z) : outcome Z :=
  if ((0 <=? millis) && (millis * 1000000 <=? int64_max))%Z%bool
  then Ok (NanosToTime (millis * 1000000)) else Fail Undefined.
Definition TimeToRawMillis (duration : Z) : Z := (TimeToNanos duration / 1000000)%Z.

Definition StopIn (q : t) (nanos : Z) : t :=
  let delta := NanosToTime nanos in
  let new_kill_time := EventQueueTime.add (CurrentTime q) delta in
  if (new_kill_time <? stop_time_ q)%Z then set_stop q new_kill_time else q.

Definition RunAndStopIn (fuel : nat) (q : t) (nanos : Z) (u : U) :
    outcome (t * U * list (Z * ScheduledEvent)) :=
  Run fuel (StopIn (set_stop q EventQueueTime.MaxTime) nanos) u.

End run.

(** ** Ownership: no event is left for a destroyed consumer *)

#[global] Instance Comparator_swo : StrictWeakOrder Comparator.
Proof. unfold Comparator. split; intros *; rewrite ?Z.ltb_ge, ?Z.ltb_lt; lia. Qed.

(** The events of consumer [c] that are in the queue. *)
Definition pending (l : list ScheduledEvent) (c : nat) : nat :=
  length (filter (λ e, consumer e = c) l).

#[global] Instance pending_proper : Proper ((≡ₚ) ==> (=) ==> (=)) pending.
Proof. intros l1 l2 Hl c _ <-. unfold pending. by rewrite Hl. Qed.

Lemma pending_cons e l c :
  pending (e :: l) c = (if decide (consumer e = c) then 1 else 0) + pending l c.
Proof. unfold pending. rewrite filter_cons. by case_decide. Qed.

Lemma pending_zero l c : pending l c = 0 <-> Forall (λ e, consumer e <> c) l.
Proof.
  induction l as [|e l IH]; [by split; [constructor|]|]. rewrite pending_cons, Forall_cons, <-IH.
  case_decide; naive_solver lia.
Qed.

Lemma pending_evicted l c c' :
  pending (filter (λ e, consumer e <> c) l) c' = if decide (c = c') then 0 else pending l c'.
Proof.
  induction l as [|e l IH]; [by case_decide|]. rewrite filter_cons.
  repeat case_decide; rewrite ?pending_cons, IH, ?pending_cons; repeat case_decide; naive_solver lia.
Qed.

Record owned (n : Z) (q : t) : Prop := {
  owned_bound : (0 <= n)%Z;
  owned_heap : heap Comparator (queue_ q);
  owned_count : forall c,
    match outstanding q !! c with
    | Some k => (Z.of_nat (pending (queue_ q) c) <= k <= n)%Z
    | None => pending (queue_ q) c = 0
    end
}.

Lemma EvictConsumer_spec q c :
  heap Comparator (queue_ q) ->
  exists l, EvictConsumer q c = Ok (set_queue q l) /\ heap Comparator l /\
    l ≡ₚ filter (λ e, consumer e <> c) (queue_ q).
Proof.
  intros Hh. unfold EvictConsumer.
  destruct (drain_spec Comparator (S (length (queue_ q))) _ Hh) as (out & -> & Hout & _); [lia|].
  cbn [mbind outcome_bind]. eexists. split; [done|].
  destruct (emplace_all_heap Comparator (filter (λ e, consumer e <> c) out) []) as [H1 H2];
    [by intros j Hj a b|].
  split; [done|]. by rewrite H2, app_nil_r, Hout.
Qed.

Lemma event_count_Ok q c n : event_count q c = Ok n <-> outstanding q !! c = Some n.
Proof. unfold event_count. destruct (outstanding q !! c); naive_solver. Qed.

Lemma owned_mono n n' q : (n <= n')%Z -> owned n q -> owned n' q.
Proof.
  intros Hn [H0 H1 H2]. split; [lia|done|]. intros c. specialize (H2 c).
  destruct (outstanding q !! c); [lia|done].
Qed.

(** Scheduling an event of a live consumer. *)
Lemma owned_enqueue n q c k at_ :
  owned n q -> (n + 1 < 2 ^ 64)%Z -> outstanding q !! c = Some k ->
  owned (n + 1) (Enqueue (set_outstanding q (<[c := u64 (k + 1)]> (outstanding q))) at_ c).
Proof.
  intros [H0 Hh Hc] Hn Hk.
  destruct (emplace_spec Comparator (queue_ q) (mkEvent at_ c) Hh) as [H1 H2].
  assert (Hp : forall c', pending (emplace Comparator (queue_ q) (mkEvent at_ c)) c' =
    (if decide (c = c') then 1 else 0) + pending (queue_ q) c').
  { intros c'. by rewrite H2, pending_cons. }
  split; [lia|done|]. intros c'. cbn [Enqueue set_queue set_outstanding queue_ outstanding].
  rewrite Hp. pose proof (Hc c) as Hck. rewrite Hk in Hck.
  unfold u64. rewrite wrap_id by lia. case_decide as Heq.
  - subst c'. rewrite lookup_insert_eq. lia.
  - rewrite lookup_insert_ne by done. specialize (Hc c'). destruct (outstanding q !! c'); lia.
Qed.

Lemma owned_evict n q q' c : owned n q -> EvictConsumer q c = Ok q' ->
  owned n q' /\ pending (queue_ q') c = 0 /\ outstanding q' = outstanding q.
Proof.
  intros [H0 Hh Hc] Hq. destruct (EvictConsumer_spec q c Hh) as (l & Hl & Hhl & Hp).
  rewrite Hl in Hq. injection Hq as <-. cbn [set_queue queue_ outstanding].
  assert (Hpc : forall c', pending l c' = if decide (c = c') then 0 else pending (queue_ q) c').
  { intros c'. by rewrite Hp, pending_evicted. }
  split_and!; [split; [done..|]|rewrite Hpc; by case_decide|done].
  intros c'. cbn [set_queue queue_ outstanding]. specialize (Hc c'). rewrite Hpc.
  destruct (outstanding q !! c'); case_decide; lia.
Qed.

Lemma owned_destroy n q q' c : owned n q -> DestroyConsumer q c = Ok q' ->
  owned n q' /\ pending (queue_ q') c = 0 /\ outstanding q' !! c = None.
Proof.
  intros Hq H. unfold DestroyConsumer in H. apply bind_Ok in H as (k & Hk%event_count_Ok & H).
  apply bind_Ok in H as (q1 & H1 & [= <-]).
  assert (owned n q1 /\ pending (queue_ q1) c = 0) as (Ho & Hp).
  { destruct (Z.ltb_spec 0 k) as [Hk0|Hk0].
    - destruct (owned_evict n q q1 c Hq H1) as (? & ? & ?). done.
    - injection H1 as <-. split; [done|]. pose proof (owned_count _ _ Hq c) as Hc.
      rewrite Hk in Hc. lia. }
  cbn [set_outstanding queue_ outstanding]. split_and!; [|done|by rewrite lookup_delete_eq].
  destruct Ho as [H0 Hh Hc]. split; [done..|]. intros c'. cbn [set_outstanding queue_ outstanding].
  destruct (decide (c = c')) as [->|Hne].
  - by rewrite lookup_delete_eq.
  - rewrite lookup_delete_ne by done. apply Hc.
Qed.

Lemma owned_perform n q x q' :
  owned n q -> (n + 1 < 2 ^ 64)%Z -> perform q x = Ok q' -> owned (n + 1) q'.
Proof.
  intros Ho Hn. destruct x as [c|c at_|c in_| |c|c]; cbn [perform].
  - unfold NewConsumer. destruct (outstanding q !! c) eqn:Hc; [done|]. intros [= <-].
    destruct Ho as [H0 H1 H2]. split; [lia|done|]. intros c'. cbn [set_outstanding queue_ outstanding].
    pose proof (H2 c) as Hcc. rewrite Hc in Hcc. specialize (H2 c').
    destruct (decide (c = c')) as [->|Hne].
    + rewrite lookup_insert_eq. lia.
    + rewrite lookup_insert_ne by done. destruct (outstanding q !! c'); lia.
  - intros (k & Hk%event_count_Ok & [= <-])%bind_Ok. by apply owned_enqueue.
  - intros (k & Hk%event_count_Ok & [= <-])%bind_Ok. by apply owned_enqueue.
  - intros [= <-]. apply (owned_mono n); [lia|]. by destruct Ho.
  - intros H. apply (owned_mono n); [lia|]. by eapply owned_evict.
  - intros H. apply (owned_mono n); [lia|]. by eapply owned_destroy.
Qed.

(** Handing the earliest event to its consumer. *)
Definition deliver (q : t) : outcome (t * ScheduledEvent) :=
  '(q1, e) ← NextEvent q;
  q2 ← PopEvent q1;
  k ← event_count q2 (consumer e);
  Ok (set_outstanding q2 (<[consumer e := u64 (k - 1)]> (outstanding q2)), e).

(** The states of a queue after a sequence of calls and deliveries; the index
    counts the calls. *)
Inductive reachable : Z -> t -> Prop :=
| reach_init : reachable 0 init
| reach_call n q x q' : reachable n q -> perform q x = Ok q' -> reachable (n + 1) q'
| reach_deliver n q e q' : reachable n q -> deliver q = Ok (q', e) -> reachable n q'
| reach_stop n q s : reachable n q -> reachable n (set_stop q s)
| reach_time n q s : reachable n q -> reachable n (AdvanceTimeTo q s).

Lemma pop_queue q e l :
  heap Comparator (queue_ q) -> queue_ q = e :: l ->
  exists l', PopEvent (AdvanceTimeTo q (at_time e)) = Ok (set_queue (AdvanceTimeTo q (at_time e)) l') /\
    NextEvent q = Ok (AdvanceTimeTo q (at_time e), e) /\ heap Comparator l' /\ l' ≡ₚ l.
Proof.
  intros Hh Hq. unfold PopEvent, NextEvent. cbn [AdvanceTimeTo queue_]. rewrite Hq in *.
  destruct (pop_spec Comparator e l Hh) as (l' & -> & H1 & H2). by exists l'.
Qed.

(** A queue that is not empty has a live consumer for its first event. *)
Lemma owned_deliver n q :
  owned n q -> queue_ q <> [] -> (n < 2 ^ 64)%Z ->
  exists q' e k, deliver q = Ok (q', e) /\ owned n q' /\
    outstanding q !! consumer e = Some k /\ (0 < k)%Z /\
    outstanding q' !! consumer e = Some (k - 1)%Z.
Proof.
  intros [H0 Hh Hc] Hne Hn. destruct (queue_ q) as [|e l] eqn:Hq; [done|].
  rewrite <-Hq in Hh. destruct (pop_queue q e l Hh Hq) as (l' & Hpop & Hnext & Hh' & Hl').
  assert (Hpe : forall c, pending l' c + (if decide (consumer e = c) then 1 else 0) = pending (queue_ q) c).
  { intros c. rewrite Hl', Hq, pending_cons. lia. }
  rewrite <-Hq in Hc. pose proof (Hc (consumer e)) as Hce. rewrite <-Hpe, decide_True in Hce by done.
  destruct (outstanding q !! consumer e) as [k|] eqn:Hk; [|lia].
  exists (set_outstanding (set_queue (AdvanceTimeTo q (at_time e)) l')
            (<[consumer e := (k - 1)%Z]> (outstanding q))), e, k.
  split_and!; [|split; [done..|]|done|lia|].
  - unfold deliver. rewrite Hnext. cbn [mbind outcome_bind]. rewrite Hpop.
    cbn [mbind outcome_bind event_count set_queue AdvanceTimeTo outstanding]. unfold event_count.
    cbn [set_queue AdvanceTimeTo outstanding]. rewrite Hk. cbn [mbind outcome_bind].
    unfold u64. by rewrite wrap_id by lia.
  - intros c. cbn [set_outstanding set_queue AdvanceTimeTo queue_ outstanding]. specialize (Hc c).
    rewrite <-Hpe in Hc. destruct (decide (consumer e = c)) as [<-|Hne'].
    + rewrite lookup_insert_eq. rewrite Hk in Hc. lia.
    + rewrite lookup_insert_ne by done. destruct (outstanding q !! c); lia.
  - cbn [set_outstanding outstanding]. apply lookup_insert_eq.
Qed.

Lemma reachable_bound n q : reachable n q -> (0 <= n)%Z.
Proof. induction 1; lia. Qed.

Lemma reachable_owned n q : reachable n q -> (n < 2 ^ 64)%Z -> owned n q.
Proof.
  induction 1 as [|n q x q' Hr IH Hp|n q e q' Hr IH Hd|n q s Hr IH|n q s Hr IH]; intros Hn.
  - split; [done|by intros j Hj a b|]. intros c. done.
  - apply (owned_perform n q x); [apply IH; lia|done..].
  - specialize (IH Hn). destruct (decide (queue_ q = [])) as [Hq|Hq].
    { unfold deliver, NextEvent in Hd. by rewrite Hq in Hd. }
    destruct (owned_deliver n q IH Hq Hn) as (q1 & e1 & k & Hd1 & Ho & _). congruence.
  - destruct (IH Hn) as [H0 H1 H2]. by split.
  - destruct (IH Hn) as [H0 H1 H2]. by split.
Qed.

Section run_reachable.
Context {U : Type} (HandleEvent : nat -> Z -> U -> U * list call).

Lemma performed_reachable calls : forall n q q',
  reachable n q -> mfold perform calls q = Ok q' -> reachable (n + Z.of_nat (length calls)) q'.
Proof.
  induction calls as [|x calls IH]; intros n q q' Hr H.
  { injection H as <-. by rewrite Z.add_0_r. }
  apply bind_Ok in H as (q1 & H1 & H2).
  replace (n + Z.of_nat (length (x :: calls)))%Z with ((n + 1) + Z.of_nat (length calls))%Z
    by (cbn [length]; lia).
  apply (IH _ q1); [|done]. by eapply reach_call.
Qed.

(** One round of the loop, seen from its result. *)
Lemma Run_loop_step fuel q u r :
  queue_ q <> [] -> Run_loop HandleEvent (S fuel) q u = Ok r ->
  exists q1 e, NextEvent q = Ok (q1, e) /\
    if (stop_time_ q <=? at_time e)%Z then r = (q1, u, [])
    else exists q2 u' calls q3 q4 u'' trace, deliver q = Ok (q2, e) /\
      HandleEvent (consumer e) (at_time e) u = (u', calls) /\ mfold perform calls q2 = Ok q3 /\
      Run_loop HandleEvent fuel q3 u' = Ok (q4, u'', trace) /\
      r = (q4, u'', (at_time e, e) :: trace).
Proof.
  intros Hne H. cbn [Run_loop] in H. destruct (queue_ q) as [|e l] eqn:Hq; [done|].
  cbn [empty] in H. unfold deliver, NextEvent in *. rewrite Hq in *. cbn [top vec_at mbind outcome_bind] in *.
  change (top (e :: l)) with (Ok e) in *. cbn [mbind outcome_bind] in *.
  exists (AdvanceTimeTo q (at_time e)), e. split; [done|].
  change (stop_time_ (AdvanceTimeTo q (at_time e))) with (stop_time_ q) in H.
  change (CurrentTime (AdvanceTimeTo q (at_time e))) with (at_time e) in H.
  destruct (stop_time_ q <=? at_time e)%Z; [by injection H as <-|].
  apply bind_Ok in H as (q2 & Hp & H). apply bind_Ok in H as ([q3 u'] & Hh & H).
  apply bind_Ok in H as ([[q4 u''] trace] & Hr & [= <-]).
  unfold HandleEventPublic in Hh. apply bind_Ok in Hh as (k & Hk & Hh).
  assert (Ht : CurrentTime q2 = at_time e).
  { unfold PopEvent in Hp. apply bind_Ok in Hp as (? & _ & [= <-]). done. }
  cbn [set_outstanding CurrentTime time_] in Hh. unfold CurrentTime in Hh, Ht.
  cbn [set_outstanding time_] in Hh. rewrite Ht in Hh.
  destruct (HandleEvent (consumer e) (at_time e) u) as [u1 calls] eqn:Hc.
  apply bind_Ok in Hh as (q3' & Hf & [= <- <-]). rewrite Hp. cbn [mbind outcome_bind]. rewrite Hk.
  cbn [mbind outcome_bind]. eauto 15.
Qed.

Lemma Run_loop_reachable fuel : forall n q u q' u' trace,
  reachable n q -> Run_loop HandleEvent fuel q u = Ok (q', u', trace) -> exists n', reachable n' q'.
Proof.
  induction fuel as [|fuel IH]; intros n q u q' u' trace Hr H; [done|].
  destruct (decide (queue_ q = [])) as [Hq|Hq].
  { cbn [Run_loop] in H. rewrite Hq in H. cbn [empty] in H. injection H as <- <- <-. eauto. }
  destruct (Run_loop_step _ _ _ _ Hq H) as (q1 & e & Hn & Hs).
  destruct (stop_time_ q <=? at_time e)%Z.
  - injection Hs as -> -> ->. unfold NextEvent in Hn. apply bind_Ok in Hn as (e' & _ & [= <- <-]).
    eexists. by apply reach_time.
  - destruct Hs as (q2 & u1 & calls & q3 & q4 & u2 & tr & Hd & _ & Hf & Hl & [= -> -> ->]).
    eapply IH; [|done]. eapply performed_reachable; [|done]. by eapply reach_deliver.
Qed.
End run_reachable.

(** ** Order of the deliveries *)

(** A call made at time [now] that does not schedule into the past. *)
Definition not_past (now : Z) (x : call) : Prop :=
  match x with
  | CallEnqueueAt _ at_ => (now <= at_)%Z
  | CallEnqueueIn _ in_ => (0 <= in_ /\ now + in_ < 2 ^ 64)%Z
  | _ => True
  end.

Record future (now : Z) (q : t) : Prop := {
  future_heap : heap Comparator (queue_ q);
  future_events : Forall (λ e, (now <= at_time e)%Z) (queue_ q);
  future_clock : time_ q = now
}.

Lemma future_enqueue now q o at_ c :
  future now q -> (now <= at_)%Z -> future now (Enqueue (set_outstanding q o) at_ c).
Proof.
  intros [H1 H2 H3] Hat. destruct (emplace_spec Comparator (queue_ q) (mkEvent at_ c) H1) as [He Hp].
  split; [done| |done]. cbn [Enqueue set_queue set_outstanding queue_]. rewrite Hp. by constructor.
Qed.

Lemma future_evict now q q' c : future now q -> EvictConsumer q c = Ok q' ->
  future now q' /\ stop_time_ q' = stop_time_ q.
Proof.
  intros [H1 H2 H3] Hq. destruct (EvictConsumer_spec q c H1) as (l & Hl & Hh & Hp).
  rewrite Hl in Hq. injection Hq as <-. split; [|done]. split; [done| |done].
  cbn [set_queue queue_]. rewrite Hp. apply Forall_forall. intros e [_ He]%list_elem_of_filter.
  by eapply Forall_forall in H2.
Qed.

Lemma future_perform now q x q' :
  (0 <= now)%Z -> future now q -> not_past now x -> perform q x = Ok q' ->
  future now q' /\ (stop_time_ q' = stop_time_ q \/ stop_time_ q' = now).
Proof.
  intros Hnow Hf Hx. destruct x as [c|c at_|c in_| |c|c]; cbn [perform not_past] in *.
  - unfold NewConsumer. destruct (outstanding q !! c); [done|]. intros [= <-].
    destruct Hf as [H1 H2 H3]. split; [by split|by left].
  - intros (k & _ & [= <-])%bind_Ok. split; [by apply future_enqueue|by left].
  - intros (k & _ & [= <-])%bind_Ok. split; [|by left].
    apply future_enqueue; [done|]. unfold EventQueueTime.add, u64, CurrentTime.
    rewrite (future_clock _ _ Hf), wrap_id by lia. lia.
  - intros [= <-]. destruct Hf as [H1 H2 H3]. split; [by split|]. by right.
  - intros H. destruct (future_evict _ _ _ _ Hf H) as [? ?]. auto.
  - intros (k & _ & (q1 & Hq1 & [= <-])%bind_Ok)%bind_Ok.
    assert (future now q1 /\ stop_time_ q1 = stop_time_ q) as [[H1 H2 H3] Hs].
    { destruct (0 <? k)%Z; [by eapply future_evict|]. by injection Hq1 as <-. }
    split; [by split|by left].
Qed.

Lemma future_performs now calls : forall q q',
  (0 <= now)%Z -> future now q -> Forall (not_past now) calls -> mfold perform calls q = Ok q' ->
  future now q' /\ (stop_time_ q' = stop_time_ q \/ stop_time_ q' = now).
Proof.
  induction calls as [|x calls IH]; intros q q' Hnow Hf Hc H.
  { injection H as <-. auto. }
  apply bind_Ok in H as (q1 & H1 & H2). apply Forall_cons in Hc as [Hx Hc].
  destruct (future_perform now q x q1 Hnow Hf Hx H1) as [Hf1 Hs1].
  destruct (IH q1 q' Hnow Hf1 Hc H2) as [Hf2 Hs2]. split; [done|]. destruct Hs2 as [-> | ->]; auto.
Qed.

Lemma future_deliver q e q2 t0 :
  heap Comparator (queue_ q) -> Forall (λ e, (t0 <= at_time e)%Z) (queue_ q) ->
  deliver q = Ok (q2, e) ->
  future (at_time e) q2 /\ stop_time_ q2 = stop_time_ q /\ (t0 <= at_time e)%Z.
Proof.
  intros Hh Ht Hd. destruct (queue_ q) as [|e0 l] eqn:Hq.
  { unfold deliver, NextEvent in Hd. by rewrite Hq in Hd. }
  rewrite <-Hq in Hh. destruct (pop_queue q e0 l Hh Hq) as (l' & Hp & Hn & Hh' & Hl').
  unfold deliver in Hd. rewrite Hn in Hd. cbn [mbind outcome_bind] in Hd. rewrite Hp in Hd.
  apply bind_Ok in Hd as (q0 & [= <-] & Hd). apply bind_Ok in Hd as (k & _ & [= <- <-]).
  split_and!; [|done|by apply Forall_cons in Ht as [? _]].
  split; [done| |done]. cbn [set_outstanding set_queue queue_]. rewrite Hl'.
  pose proof (heap_top_max Comparator (queue_ q) e0 Hh) as Hm. rewrite Hq in Hm.
  specialize (Hm eq_refl). apply Forall_cons in Hm as [_ Hm]. eapply Forall_impl; [exact Hm|].
  intros e. unfold Comparator. cbn beta. rewrite Z.ltb_ge. done.
Qed.

(** ** Queues whose consumers only schedule later events *)

Definition later (live : gset nat) (now : Z) (x : call) : Prop :=
  match x with
  | CallEnqueueAt c at_ => c ∈ live /\ (now < at_ < 2 ^ 64)%Z
  | CallEnqueueIn c in_ => c ∈ live /\ (0 < in_ /\ now + in_ < 2 ^ 64)%Z
  | _ => False
  end.

Lemma later_not_past live now x : later live now x -> not_past now x.
Proof. destruct x; cbn [later not_past]; try done; lia. Qed.

Lemma later_perform live now q x :
  (0 <= now)%Z -> heap Comparator (queue_ q) -> time_ q = now -> dom (outstanding q) = live ->
  later live now x ->
  exists q' e, perform q x = Ok q' /\ heap Comparator (queue_ q') /\ time_ q' = now /\
    dom (outstanding q') = live /\ stop_time_ q' = stop_time_ q /\
    queue_ q' ≡ₚ e :: queue_ q /\ consumer e ∈ live /\ (now < at_time e)%Z.
Proof.
  intros Hnow Hh Ht Hd Hx.
  assert (Hen : forall c k at_, outstanding q !! c = Some k ->
    let q' := Enqueue (set_outstanding q (<[c := u64 (k + 1)]> (outstanding q))) at_ c in
    heap Comparator (queue_ q') /\ time_ q' = now /\ dom (outstanding q') = live /\
    stop_time_ q' = stop_time_ q /\ queue_ q' ≡ₚ mkEvent at_ c :: queue_ q).
  { intros c k at_ Hk q'. destruct (emplace_spec Comparator (queue_ q) (mkEvent at_ c) Hh) as [He Hp].
    split_and!; try done. unfold q'. cbn [Enqueue set_queue set_outstanding outstanding].
    rewrite dom_insert_L, Hd. apply elem_of_dom_2 in Hk. set_solver. }
  assert (Hlive : forall c, c ∈ live -> exists k, event_count q c = Ok k /\ outstanding q !! c = Some k).
  { intros c Hc. rewrite <-Hd in Hc. apply elem_of_dom in Hc as [k Hk].
    exists k. by rewrite event_count_Ok. }
  destruct x as [| c at_ | c in_ | | |]; try done; cbn [perform later] in *.
  - destruct Hx as [Hc Hat]. destruct (Hlive c Hc) as (k & Hk1 & Hk2). unfold EnqueueAt.
    rewrite Hk1. cbn [mbind outcome_bind]. destruct (Hen c k at_ Hk2) as (? & ? & ? & ? & ?).
    eexists _, (mkEvent at_ c). split_and!; try done. cbn [at_time]. lia.
  - destruct Hx as [Hc Hat]. destruct (Hlive c Hc) as (k & Hk1 & Hk2). unfold EnqueueIn.
    rewrite Hk1. cbn [mbind outcome_bind].
    destruct (Hen c k (EventQueueTime.add (CurrentTime q) in_) Hk2) as (? & ? & ? & ? & ?).
    eexists _, (mkEvent (EventQueueTime.add (CurrentTime q) in_) c). split_and!; try done.
    cbn [at_time]. unfold EventQueueTime.add, u64, CurrentTime. rewrite Ht, wrap_id by lia. lia.
Qed.

Lemma later_performs live now calls : forall q,
  (0 <= now)%Z -> heap Comparator (queue_ q) -> time_ q = now -> dom (outstanding q) = live ->
  Forall (later live now) calls ->
  exists q' new, mfold perform calls q = Ok q' /\ heap Comparator (queue_ q') /\ time_ q' = now /\
    dom (outstanding q') = live /\ stop_time_ q' = stop_time_ q /\
    queue_ q' ≡ₚ new ++ queue_ q /\ length new = length calls /\
    Forall (λ e, consumer e ∈ live /\ (now < at_time e)%Z) new.
Proof.
  induction calls as [|x calls IH]; intros q Hnow Hh Ht Hd Hc.
  { exists q, []. split_and!; try done. }
  apply Forall_cons in Hc as [Hx Hc].
  destruct (later_perform live now q x Hnow Hh Ht Hd Hx) as (q1 & e & H1 & Hh1 & Ht1 & Hd1 & Hs1 & Hp1 & Hc1 & He).
  destruct (IH q1 Hnow Hh1 Ht1 Hd1 Hc) as (q2 & new & H2 & Hh2 & Ht2 & Hd2 & Hs2 & Hp2 & Hl & Hn).
  exists q2, (new ++ [e]). cbn [mfold]. rewrite H1. cbn [mbind outcome_bind].
  split_and!; try done; [congruence| | |].
  - rewrite Hp2, Hp1. by rewrite <-app_assoc.
  - rewrite length_app. cbn [length]. lia.
  - apply Forall_app. by repeat constructor.
Qed.

(** What is left to do before [stop], for handlers that make at most [k]
    calls. *)
Definition weight (k : nat) (stop : Z) (e : ScheduledEvent) : nat :=
  if (at_time e <? stop)%Z then S k ^ Z.to_nat (stop - at_time e) else 0.
Definition potential (k : nat) (stop : Z) (l : list ScheduledEvent) : nat :=
  sum_list_with (weight k stop) l.

Lemma potential_new k stop now new :
  (now < stop)%Z -> Forall (λ e, (now < at_time e)%Z) new ->
  potential k stop new <= length new * S k ^ Z.to_nat (stop - now - 1).
Proof.
  intros Hs. unfold potential. induction 1 as [|e new He _ IH]; [done|].
  cbn [sum_list_with length]. apply Nat.add_le_mono; [|exact IH]. unfold weight.
  destruct (Z.ltb_spec (at_time e) stop); [|lia]. apply Nat.pow_le_mono_r; lia.
Qed.

(** Handling an event lowers the potential. *)
Lemma potential_handled k stop e l new :
  (at_time e < stop)%Z -> length new <= k -> Forall (λ e', (at_time e < at_time e')%Z) new ->
  potential k stop (new ++ l) < potential k stop (e :: l).
Proof.
  intros He Hk Hn. pose proof (potential_new k stop (at_time e) new He Hn) as Hp.
  unfold potential in *. rewrite sum_list_with_app. cbn [sum_list_with].
  cut (sum_list_with (weight k stop) new < weight k stop e); [lia|].
  unfold weight at 2. rewrite (proj2 (Z.ltb_lt _ _) He).
  replace (Z.to_nat (stop - at_time e)) with (S (Z.to_nat (stop - at_time e - 1))) by lia.
  rewrite Nat.pow_succ_r'. pose proof (Nat.pow_nonzero (S k) (Z.to_nat (stop - at_time e - 1))). nia.
Qed.

Section theorems.
Context {U : Type} (HandleEvent : nat -> Z -> U -> U * list call).

Lemma Run_loop_empty fuel q u : queue_ q = [] -> Run_loop HandleEvent (S fuel) q u = Ok (q, u, []).
Proof. intros Hq. cbn [Run_loop]. by rewrite Hq. Qed.

(** One round, computed. *)
Lemma Run_loop_deliver fuel q u e l q2 :
  queue_ q = e :: l -> deliver q = Ok (q2, e) ->
  Run_loop HandleEvent (S fuel) q u =
    if (stop_time_ q <=? at_time e)%Z then Ok (AdvanceTimeTo q (at_time e), u, [])
    else
      let '(u', calls) := HandleEvent (consumer e) (at_time e) u in
      q3 ← mfold perform calls q2;
      '(q4, u'', trace) ← Run_loop HandleEvent fuel q3 u';
      Ok (q4, u'', (at_time e, e) :: trace).
Proof.
  intros Hq Hd. cbn [Run_loop]. rewrite Hq. cbn [empty]. unfold deliver, NextEvent in *. rewrite Hq in *.
  change (top (e :: l)) with (Ok e) in *. cbn [mbind outcome_bind] in *.
  change (stop_time_ (AdvanceTimeTo q (at_time e))) with (stop_time_ q).
  change (CurrentTime (AdvanceTimeTo q (at_time e))) with (at_time e).
  destruct (stop_time_ q <=? at_time e)%Z; [done|].
  apply bind_Ok in Hd as (q1 & Hp & Hd). rewrite Hp. cbn [mbind outcome_bind].
  apply bind_Ok in Hd as (n & Hn & [= <-]). unfold HandleEventPublic. rewrite Hn. cbn [mbind outcome_bind].
  assert (Ht : CurrentTime (set_outstanding q1 (<[consumer e := u64 (n - 1)]> (outstanding q1))) = at_time e).
  { unfold PopEvent in Hp. apply bind_Ok in Hp as (? & _ & [= <-]). done. }
  rewrite Ht. destruct (HandleEvent (consumer e) (at_time e) u) as [u' calls].
  destruct (mfold perform calls _); done.
Qed.

Lemma deliver_live q e l live :
  heap Comparator (queue_ q) -> queue_ q = e :: l -> consumer e ∈ live -> dom (outstanding q) = live ->
  exists q2, deliver q = Ok (q2, e) /\ heap Comparator (queue_ q2) /\ queue_ q2 ≡ₚ l /\
    time_ q2 = at_time e /\ dom (outstanding q2) = live /\ stop_time_ q2 = stop_time_ q.
Proof.
  intros Hh Hq Hc Hd. destruct (pop_queue q e l Hh Hq) as (l' & Hp & Hn & Hh' & Hl').
  unfold deliver. rewrite Hn. cbn [mbind outcome_bind]. rewrite Hp. cbn [mbind outcome_bind].
  rewrite <-Hd in Hc. pose proof Hc as Hc'. apply elem_of_dom in Hc as [k Hk]. unfold event_count.
  cbn [set_queue AdvanceTimeTo outstanding]. rewrite Hk. cbn [mbind outcome_bind].
  eexists. split; [done|]. cbn [set_outstanding set_queue AdvanceTimeTo outstanding queue_ time_ stop_time_].
  split_and!; try done. rewrite dom_insert_L, Hd. rewrite Hd in Hc'. set_solver.
Qed.

Lemma Run_loop_all k live stop fuel : forall q u,
  (forall c now u, (0 <= now < stop)%Z ->
     length (HandleEvent c now u).2 <= k /\ Forall (later live now) (HandleEvent c now u).2) ->
  heap Comparator (queue_ q) -> dom (outstanding q) = live -> stop_time_ q = stop ->
  Forall (λ e, consumer e ∈ live /\ (0 <= at_time e)%Z) (queue_ q) ->
  potential k stop (queue_ q) < fuel ->
  exists q' u' trace, Run_loop HandleEvent fuel q u = Ok (q', u', trace) /\
    queue_ q ⊆+ (snd <$> trace) ++ queue_ q' /\ stop_time_ q' = stop /\
    Forall (λ e, (stop <= at_time e)%Z) (queue_ q').
Proof.
  induction fuel as [|fuel IH]; intros q u HH Hh Hd Hs Hq Hf; [lia|].
  destruct (queue_ q) as [|e l] eqn:Hql.
  { exists q, u, []. rewrite Run_loop_empty, Hql by done. split_and!; try done. }
  rewrite <-Hql in Hh. pose proof Hq as [[Hec He0] Hl]%Forall_cons.
  destruct (deliver_live q e l live Hh Hql Hec Hd) as (q2 & Hdel & Hh2 & Hq2 & Ht2 & Hd2 & Hs2).
  rewrite (Run_loop_deliver fuel q u e l q2 Hql Hdel), Hs.
  destruct (Z.leb_spec stop (at_time e)) as [Hstop|Hstop].
  - eexists _, _, _. split; [done|]. cbn [fmap list_fmap app AdvanceTimeTo queue_ stop_time_].
    rewrite Hql. split_and!; [done..|].
    pose proof (heap_top_max Comparator (queue_ q) e Hh) as Hm. rewrite Hql in Hm.
    eapply Forall_impl; [exact (Hm eq_refl)|]. intros e'. unfold Comparator. cbn beta.
    rewrite Z.ltb_ge. lia.
  - destruct (HH (consumer e) (at_time e) u) as [Hk Hlater]; [lia|].
    destruct (HandleEvent (consumer e) (at_time e) u) as [u' calls]. cbn [snd] in Hk, Hlater.
    destruct (later_performs live (at_time e) calls q2 He0 Hh2 Ht2 Hd2 Hlater)
      as (q3 & new & -> & Hh3 & Ht3 & Hd3 & Hs3 & Hq3 & Hlen & Hnew). cbn [mbind outcome_bind].
    destruct (IH q3 u' HH Hh3 Hd3) as (q4 & u4 & trace & -> & Hsub & Hs4 & Hend).
    + congruence.
    + rewrite Hq3, Hq2. apply Forall_app. split; [|done]. eapply Forall_impl; [exact Hnew|].
      cbn beta. intros e' [? ?]. split; [done|lia].
    + assert (Hnew' : Forall (λ e', (at_time e < at_time e')%Z) new).
      { eapply Forall_impl; [exact Hnew|]. by intros e' [_ ?]. }
      pose proof (potential_handled k stop e l new Hstop ltac:(lia) Hnew') as Hpot.
      unfold potential in *. rewrite Hq3, Hq2. lia.
    + cbn [mbind outcome_bind]. eexists _, _, _. split; [done|]. split_and!; [|done..].
      cbn [fmap list_fmap app snd]. apply submseteq_skip. etrans; [|exact Hsub]. rewrite Hq3, Hq2.
      apply submseteq_inserts_l. done.
Qed.

Lemma Run_loop_order stop fuel : forall t0 q u q' u' trace,
  (forall c now u, (0 <= now < stop)%Z -> Forall (not_past now) (HandleEvent c now u).2) ->
  (stop_time_ q <= stop)%Z -> (0 <= t0)%Z -> heap Comparator (queue_ q) -> Forall (λ e, (t0 <= at_time e)%Z) (queue_ q) ->
  Run_loop HandleEvent fuel q u = Ok (q', u', trace) ->
  StronglySorted Z.le (fst <$> trace) /\
  Forall (λ x, x.1 = at_time x.2 /\ (t0 <= x.1 < stop_time_ q)%Z) trace /\
  (stop_time_ q' <= stop_time_ q)%Z /\ Forall (λ e, (stop_time_ q' <= at_time e)%Z) (queue_ q').
Proof.
  induction fuel as [|fuel IH]; intros t0 q u q' u' trace HH Hmax H0 Hh Ht Hr; [done|].
  destruct (decide (queue_ q = [])) as [Hq|Hq].
  { rewrite Run_loop_empty in Hr by done. injection Hr as <- <- <-. rewrite Hq.
    split_and!; try done; constructor. }
  destruct (Run_loop_step HandleEvent fuel q u _ Hq Hr) as (q1 & e & Hn & Hs).
  destruct (Z.leb_spec (stop_time_ q) (at_time e)) as [Hstop|Hstop].
  - injection Hs as -> -> ->. unfold NextEvent in Hn. apply bind_Ok in Hn as (e' & He%vec_at_Ok & [= <- <-]).
    cbn [AdvanceTimeTo stop_time_ queue_]. split_and!; [constructor|constructor|done|].
    eapply Forall_impl; [exact (heap_top_max Comparator (queue_ q) e' Hh He)|].
    intros e2. unfold Comparator. cbn beta. rewrite Z.ltb_ge. lia.
  - destruct Hs as (q2 & u1 & calls & q3 & q4 & u2 & tr & Hd & Hc & Hf & Hl & [= -> -> ->]).
    destruct (future_deliver q e q2 t0 Hh Ht Hd) as (Hf2 & Hs2 & Ht0).
    assert (He : (0 <= at_time e)%Z) by lia.
    pose proof (HH (consumer e) (at_time e) u ltac:(lia)) as Hcalls. rewrite Hc in Hcalls.
    destruct (future_performs _ calls q2 q3 He Hf2 Hcalls Hf) as [[Hh3 Ht3 Hc3] Hs3].
    assert (Hle3 : (stop_time_ q3 <= stop_time_ q)%Z) by (destruct Hs3 as [-> | ->]; lia).
    destruct (IH (at_time e) q3 u1 q4 u2 tr HH ltac:(lia) He Hh3 Ht3 Hl) as (Hsort & Hall & Hle & Hend).
    split_and!; [| |lia|done].
    + cbn [fmap list_fmap fst]. constructor; [done|]. apply Forall_fmap.
      eapply Forall_impl; [exact Hall|]. cbn beta. intros [now e'] [_ ?]. cbn in *. lia.
    + constructor; [cbn; split; [done|lia]|]. eapply Forall_impl; [exact Hall|]. cbn beta.
      intros [now e'] [-> ?]. cbn in *. split; [done|lia].
Qed.

(** ** Stopping and resuming *)

Lemma perform_stop q x s :
  x <> CallStop -> perform (set_stop q s) x = (λ q', set_stop q' s) <$> perform q x.
Proof.
  intros Hx. destruct x as [c|c at_|c in_| |c|c]; try done; cbn [perform].
  - unfold NewConsumer. cbn [set_stop outstanding]. by destruct (outstanding q !! c).
  - unfold EnqueueAt, event_count. cbn [set_stop outstanding]. by destruct (outstanding q !! c).
  - unfold EnqueueIn, event_count. cbn [set_stop outstanding]. by destruct (outstanding q !! c).
  - unfold EvictConsumer. cbn [set_stop queue_]. by destruct (drain _ _ _).
  - unfold DestroyConsumer, event_count, EvictConsumer. cbn [set_stop outstanding queue_].
    destruct (outstanding q !! c) as [n|]; [|done]. cbn [mbind outcome_bind].
    destruct (0 <? n)%Z; [|done]. by destruct (drain _ _ _).
Qed.

Lemma performs_stop calls s : forall q,
  Forall (.≠ CallStop) calls ->
  mfold perform calls (set_stop q s) = (λ q', set_stop q' s) <$> mfold perform calls q.
Proof.
  induction calls as [|x calls IH]; intros q Hc; [done|]. apply Forall_cons in Hc as [Hx Hc].
  cbn [mfold]. rewrite perform_stop by done. destruct (perform q x) as [q'|]; [|done].
  cbn [fmap outcome_fmap mbind outcome_bind]. by apply IH.
Qed.

Lemma deliver_stop q s :
  deliver (set_stop q s) = (λ x, (set_stop x.1 s, x.2)) <$> deliver q.
Proof.
  unfold deliver, NextEvent, PopEvent. cbn [set_stop queue_].
  destruct (top (queue_ q)) as [e|]; [|done]. cbn [mbind outcome_bind AdvanceTimeTo queue_ set_stop].
  destruct (pop Comparator (queue_ q)); [|done]. cbn [mbind outcome_bind]. unfold event_count.
  cbn [set_queue AdvanceTimeTo set_stop outstanding]. by destruct (outstanding q !! consumer e).
Qed.

Lemma set_stop_self q : set_stop q (stop_time_ q) = q.
Proof. by destruct q. Qed.

Lemma Run_loop_stop_time fuel : forall q u q' u' trace,
  (forall c now u, Forall (.≠ CallStop) (HandleEvent c now u).2) ->
  Run_loop HandleEvent fuel q u = Ok (q', u', trace) -> stop_time_ q' = stop_time_ q.
Proof.
  induction fuel as [|fuel IH]; intros q u q' u' trace HH H; [done|].
  destruct (decide (queue_ q = [])) as [Hq|Hq].
  { rewrite Run_loop_empty in H by done. by injection H as <- <- <-. }
  destruct (Run_loop_step HandleEvent fuel q u _ Hq H) as (q1 & e & Hn & Hs).
  destruct (stop_time_ q <=? at_time e)%Z.
  - injection Hs as -> -> ->. unfold NextEvent in Hn. by apply bind_Ok in Hn as (? & _ & [= <- <-]).
  - destruct Hs as (q2 & u1 & calls & q3 & q4 & u2 & tr & Hd & Hc & Hf & Hl & [= -> -> ->]).
    apply IH in Hl as ->; [|done]. rewrite <-(set_stop_self q), deliver_stop in Hd.
    destruct (deliver q) as [[q2' e']|]; [|done]. injection Hd as <- ->. cbn [fst] in Hf.
    pose proof (HH (consumer e) (at_time e) u) as Hns. rewrite Hc in Hns.
    rewrite performs_stop in Hf by done. destruct (mfold perform calls q2'); [|done].
    by injection Hf as <-.
Qed.

(** The clock before [Run] does not matter, except for what is left when the
    queue is empty. *)
Lemma Run_clock fuel q u s : Run HandleEvent fuel (AdvanceTimeTo q s) u = Run HandleEvent fuel q u.
Proof.
  unfold Run. destruct fuel as [|fuel]; [done|]. cbn [Run_loop AdvanceTimeTo queue_].
  destruct (queue_ q); done.
Qed.

Lemma Run_loop_unfold fuel q u :
  Run_loop HandleEvent (S fuel) q u =
    if empty (queue_ q) then Ok (q, u, [])
    else
      '(q1, next_event) ← NextEvent q;
      if (stop_time_ q1 <=? CurrentTime q1)%Z then Ok (q1, u, [])
      else
        q2 ← PopEvent q1;
        '(q3, u') ← HandleEventPublic HandleEvent q2 (consumer next_event) u;
        '(q4, u'', trace) ← Run_loop HandleEvent fuel q3 u';
        Ok (q4, u'', (CurrentTime q1, next_event) :: trace).
Proof. done. Qed.

Lemma Run_loop_more n : forall q u r,
  Run_loop HandleEvent n q u = Ok r -> Run_loop HandleEvent (S n) q u = Ok r.
Proof.
  induction n as [|n IH]; intros q u r H; [done|]. rewrite Run_loop_unfold in H |- *.
  destruct (empty (queue_ q)); [done|]. destruct (NextEvent q) as [[q1 e]|]; [|done].
  cbn [mbind outcome_bind] in *. destruct (stop_time_ q1 <=? CurrentTime q1)%Z; [done|].
  destruct (PopEvent q1) as [q2|]; [|done]. cbn [mbind outcome_bind] in *.
  destruct (HandleEventPublic HandleEvent q2 (consumer e) u) as [[q3 u']|]; [|done].
  cbn [mbind outcome_bind] in *. apply bind_Ok in H as ([[q4 u''] tr] & H & Hr).
  by rewrite (IH _ _ _ H).
Qed.

Lemma Run_more n m q u r :
  n <= m -> Run HandleEvent n q u = Ok r -> Run HandleEvent m q u = Ok r.
Proof.
  intros Hle H. induction Hle as [|m _ IH]; [done|]. unfold Run in IH |- *.
  apply bind_Ok in IH as ([[q' u'] tr] & Hl & <-). by rewrite (Run_loop_more _ _ _ _ Hl).
Qed.

(** One round of [Run] that delivers an event. *)
Lemma Run_deliver fuel q u e l q2 u' calls q3 :
  queue_ q = e :: l -> (at_time e < stop_time_ q)%Z -> deliver q = Ok (q2, e) ->
  HandleEvent (consumer e) (at_time e) u = (u', calls) -> mfold perform calls q2 = Ok q3 ->
  Run HandleEvent (S fuel) q u =
    '(q4, u'', trace) ← Run HandleEvent fuel q3 u'; Ok (q4, u'', (at_time e, e) :: trace).
Proof.
  intros Hq Hs Hd Hc Hf. unfold Run.
  rewrite (Run_loop_deliver fuel q u e l q2 Hq Hd), (proj2 (Z.leb_gt _ _) Hs), Hc, Hf.
  cbn [mbind outcome_bind]. by destruct (Run_loop HandleEvent fuel q3 u') as [[[? ?] ?]|].
Qed.

Lemma Run_resume n1 : forall n2 q u s1 s2 q1 u1 tr1 q2 u2 tr2,
  (forall c now u, Forall (.≠ CallStop) (HandleEvent c now u).2) -> (s1 <= s2)%Z ->
  Run HandleEvent n1 (set_stop q s1) u = Ok (q1, u1, tr1) ->
  Run HandleEvent n2 (set_stop q1 s2) u1 = Ok (q2, u2, tr2) ->
  Run HandleEvent (n1 + n2) (set_stop q s2) u = Ok (q2, u2, tr1 ++ tr2).
Proof.
  induction n1 as [|n1 IH]; intros n2 q u s1 s2 q1 u1 tr1 q2 u2 tr2 HH Hs H1 H2; [done|].
  destruct (queue_ q) as [|e l] eqn:Hq.
  { unfold Run in H1. rewrite Run_loop_empty in H1 by done. injection H1 as <- <- <-.
    apply (Run_more n2); [lia|]. rewrite <-(Run_clock n2 (set_stop q s2) u s1). exact H2. }
  destruct (Z.ltb_spec (at_time e) s1) as [Hlt|Hge].
  - unfold Run in H1. apply bind_Ok in H1 as ([[q1' u1'] tr1'] & H1 & [= <- <- <-]).
    destruct (Run_loop_step HandleEvent n1 (set_stop q s1) u _ ltac:(by cbn; rewrite Hq) H1)
      as (qn & e' & Hn & Hs1).
    unfold NextEvent in Hn. cbn [set_stop queue_] in Hn. rewrite Hq in Hn. injection Hn as <- <-.
    cbn [set_stop stop_time_] in Hs1. rewrite (proj2 (Z.leb_gt _ _) Hlt) in Hs1.
    destruct Hs1 as (qd & u' & calls & q3 & q4 & u'' & tr & Hd & Hc & Hf & Hl & [= -> -> ->]).
    rewrite deliver_stop in Hd. destruct (deliver q) as [[qd' e']|] eqn:Hdq; [|done].
    injection Hd as <- <-. cbn [fst snd] in *.
    pose proof (HH (consumer e') (at_time e') u) as Hns. rewrite Hc in Hns. cbn [snd] in Hns.
    rewrite performs_stop in Hf by done. destruct (mfold perform calls qd') as [q3'|] eqn:Hf'; [|done].
    injection Hf as <-. cbn [Nat.add].
    rewrite (Run_deliver (n1 + n2) (set_stop q s2) u e' l (set_stop qd' s2) u' calls (set_stop q3' s2)).
    + rewrite (IH n2 q3' u' s1 s2 (AdvanceTimeTo q4 (stop_time_ q4)) u'' tr q2 u2 tr2); [done..| |done].
      unfold Run. by rewrite Hl.
    + done.
    + cbn [set_stop stop_time_]. lia.
    + by rewrite deliver_stop, Hdq.
    + done.
    + by rewrite performs_stop, Hf'.
  - unfold Run in H1. rewrite Run_loop_unfold in H1. cbn [set_stop queue_] in H1. rewrite Hq in H1.
    cbn [empty] in H1. unfold NextEvent in H1. cbn [set_stop queue_] in H1. rewrite Hq in H1.
    change (top (e :: l)) with (Ok e) in H1. cbn [mbind outcome_bind] in H1.
    unfold CurrentTime in H1. cbn [AdvanceTimeTo set_stop stop_time_ time_] in H1.
    rewrite (proj2 (Z.leb_le _ _) Hge) in H1. injection H1 as <- <- <-.
    apply (Run_more n2); [lia|]. rewrite <-(Run_clock n2 (set_stop q s2) u s1). exact H2.
Qed.
End theorems.
End EventQueue.

Import EventQueue.

(** ** Properties *)

(** C11: in every reachable state of an event queue each event in the queue
    belongs to a live consumer whose counter of outstanding events covers all
    of its events; so the first event can always be handed to its consumer,
    whose counter does not wrap, and destroying a consumer leaves no event for
    it in the queue.  Running the queue leads to reachable states. *)
Theorem EventQueue_no_dangling_events n q :
  reachable n q -> (n < 2 ^ 64)%Z ->
  Forall (λ e, exists k, outstanding q !! consumer e = Some k /\
                 (Z.of_nat (pending (queue_ q) (consumer e)) <= k)%Z) (queue_ q) /\
  (queue_ q <> [] -> exists q' e k, deliver q = Ok (q', e) /\
     outstanding q !! consumer e = Some k /\ (0 < k)%Z /\
     outstanding q' !! consumer e = Some (k - 1)%Z) /\
  (forall c q', DestroyConsumer q c = Ok q' -> Forall (λ e, consumer e <> c) (queue_ q')) /\
  (forall U (HandleEvent : nat -> Z -> U -> U * list call) fuel u q' u' trace,
     Run_loop HandleEvent fuel q u = Ok (q', u', trace) -> exists n', reachable n' q').
Proof.
  intros Hr Hn. pose proof (reachable_owned n q Hr Hn) as Ho. split_and!.
  - apply Forall_forall. intros e He. pose proof (owned_count _ _ Ho (consumer e)) as Hc.
    destruct (outstanding q !! consumer e) as [k|]; [exists k; split; [done|lia]|].
    apply pending_zero in Hc. by eapply Forall_forall in Hc.
  - intros Hne. destruct (owned_deliver n q Ho Hne Hn) as (q' & e & k & ? & _ & ? & ? & ?). eauto 10.
  - intros c q' Hd. destruct (owned_destroy n q q' c Ho Hd) as (_ & Hp & _).
    by apply pending_zero.
  - intros U HE fuel u q' u' trace HR. by eapply Run_loop_reachable.
Qed.

(** C12: if no consumer schedules into the past, the events are handed to the
    consumers in the order of their times, each when the clock shows its time,
    from the current time on and strictly before the stop time; when [Run]
    returns no event before the stop time is left in the queue and the clock
    shows the stop time. *)
Theorem EventQueue_Run_in_order {U} (HandleEvent : nat -> Z -> U -> U * list call)
    n q fuel u q' u' trace :
  reachable n q -> (n < 2 ^ 64)%Z -> (0 <= time_ q)%Z ->
  Forall (λ e, (time_ q <= at_time e)%Z) (queue_ q) ->
  (forall c now u, (0 <= now < stop_time_ q)%Z -> Forall (not_past now) (HandleEvent c now u).2) ->
  Run HandleEvent fuel q u = Ok (q', u', trace) ->
  StronglySorted Z.le (fst <$> trace) /\
  Forall (λ x, x.1 = at_time x.2 /\ (time_ q <= x.1 < stop_time_ q)%Z) trace /\
  Forall (λ e, (stop_time_ q' <= at_time e)%Z) (queue_ q') /\ time_ q' = stop_time_ q'.
Proof.
  intros Hr Hn H0 Ht HH HR. pose proof (reachable_owned n q Hr Hn) as [_ Hh _].
  apply bind_Ok in HR as ([[q1 u1] tr1] & HR & [= <- <- <-]).
  destruct (Run_loop_order HandleEvent _ fuel _ q u _ _ _ HH (Z.le_refl _) H0 Hh Ht HR) as (? & ? & _ & ?). done.
Qed.

(** C10: if every handler makes at most [k] calls, each of which schedules a
    later event of a live consumer, then [Run] terminates, within a number of
    rounds that the times of the queued events bound; every event that was in
    the queue has been handed to its consumer or lies at or after the stop
    time, and nothing before the stop time is left, also not of the events
    that were added on the way. *)
Theorem EventQueue_Run_delivers_all {U} (HandleEvent : nat -> Z -> U -> U * list call)
    n k q u :
  reachable n q -> (n < 2 ^ 64)%Z ->
  Forall (λ e, (0 <= at_time e)%Z) (queue_ q) ->
  (forall c now u, (0 <= now < stop_time_ q)%Z ->
     length (HandleEvent c now u).2 <= k /\
     Forall (later (dom (outstanding q)) now) (HandleEvent c now u).2) ->
  exists q' u' trace,
    Run HandleEvent (S (potential k (stop_time_ q) (queue_ q))) q u = Ok (q', u', trace) /\
    queue_ q ⊆+ (snd <$> trace) ++ queue_ q' /\
    Forall (λ e, (stop_time_ q <= at_time e)%Z) (queue_ q').
Proof.
  intros Hr Hn H0 HH. pose proof (reachable_owned n q Hr Hn) as [_ Hh Hc].
  destruct (Run_loop_all HandleEvent k (dom (outstanding q)) (stop_time_ q)
              (S (potential k (stop_time_ q) (queue_ q))) q u HH Hh eq_refl eq_refl)
    as (q' & u' & trace & HR & Hsub & Hs & Hend); [|lia|].
  - apply Forall_forall. intros e He. split; [|by eapply Forall_forall in H0].
    specialize (Hc (consumer e)). apply elem_of_dom.
    destruct (outstanding q !! consumer e) as [x|]; [by exists x|].
    apply pending_zero in Hc. by eapply Forall_forall in Hc.
  - exists (AdvanceTimeTo q' (stop_time_ q')), u', trace. unfold Run. by rewrite HR.
Qed.

(** C13: stopping a simulation and resuming it is invisible: running for [d1]
    and then for [d2] nanoseconds ends in the same state, with the same
    deliveries, as running for [d1 + d2], whatever the consumers do except
    calling [Stop]. *)
Theorem EventQueue_resume {U} (HandleEvent : nat -> Z -> U -> U * list call)
    n1 n2 d1 d2 q u q1 u1 trace1 q2 u2 trace2 :
  (forall c now u, Forall (.≠ CallStop) (HandleEvent c now u).2) ->
  (0 <= time_ q)%Z -> (0 <= d1)%Z -> (0 <= d2)%Z -> (time_ q + (d1 + d2) * 1000 < umax 64)%Z ->
  RunAndStopIn HandleEvent n1 q d1 u = Ok (q1, u1, trace1) ->
  RunAndStopIn HandleEvent n2 q1 d2 u1 = Ok (q2, u2, trace2) ->
  RunAndStopIn HandleEvent (n1 + n2) q (d1 + d2) u = Ok (q2, u2, trace1 ++ trace2).
Proof.
  intros HH H0 Hd1 Hd2 Hmax H1 H2. unfold RunAndStopIn in *.
  assert (Hnt : forall d, (0 <= d)%Z -> (d * 1000 < umax 64)%Z -> NanosToTime d = (d * 1000)%Z).
  { intros d Hd Hlt. unfold NanosToTime, u64, umax in *. rewrite (wrap_id 64 d), wrap_id; lia. }
  assert (HSI : forall q d, (0 <= time_ q)%Z -> (0 <= d)%Z -> (time_ q + d * 1000 < umax 64)%Z ->
    StopIn (set_stop q EventQueueTime.MaxTime) d = set_stop q (time_ q + d * 1000)).
  { intros q' d Hq Hd Hlt. unfold StopIn. rewrite Hnt by lia.
    unfold EventQueueTime.add, CurrentTime, EventQueueTime.MaxTime, u64, umax in *.
    cbn [set_stop time_ stop_time_]. rewrite wrap_id by lia. by rewrite (proj2 (Z.ltb_lt _ _) Hlt). }
  rewrite HSI in H1 |- * by lia.
  assert (Ht1 : time_ q1 = (time_ q + d1 * 1000)%Z).
  { unfold Run in H1. apply bind_Ok in H1 as ([[q' u'] tr] & HR & [= <- <- <-]).
    cbn [AdvanceTimeTo time_]. by rewrite (Run_loop_stop_time HandleEvent _ _ _ _ _ _ HH HR). }
  rewrite HSI in H2 by lia.
  eapply Run_resume; [done| |exact H1|]; [lia|].
  rewrite Ht1 in H2. replace (time_ q + (d1 + d2) * 1000)%Z with (time_ q + d1 * 1000 + d2 * 1000)%Z by lia.
  exact H2.
Qed.

(** times of the simulated queue convert back to the nanoseconds and the
    milliseconds they come from, as long as the picoseconds fit 64 bits. *)
Theorem SimTimeEventQueue_time_roundtrip nanos millis :
  (0 <= nanos)%Z -> (nanos * 1000 < 2 ^ 64)%Z ->
  (0 <= millis)%Z -> (millis * 1000000000 < 2 ^ 64)%Z ->
  TimeToNanos (NanosToTime nanos) = nanos /\
  exists time, RawMillisToTime millis = Ok time /\ TimeToRawMillis time = millis.
Proof.
  intros H1 H2 H3 H4.
  assert (Hn : forall n, (0 <= n)%Z -> (n * 1000 < 2 ^ 64)%Z -> TimeToNanos (NanosToTime n) = n).
  { intros n Hn Hb. unfold TimeToNanos, NanosToTime, u64. rewrite (wrap_id 64 n), wrap_id by lia.
    by rewrite Z.div_mul. }
  split; [by apply Hn|]. unfold RawMillisToTime, int64_max.
  rewrite (proj2 (Z.leb_le 0 millis)), (proj2 (Z.leb_le _ _)) by lia. cbn [andb].
  eexists. split; [done|]. unfold TimeToRawMillis. rewrite Hn by lia. by rewrite Z.div_mul.
Qed.

(** ** Witnesses: a consumer that rings every 100 units and wakes another one *)

Definition ticker (c : nat) (now : Z) (rings : nat) : nat * list call :=
  if c =? 0 then (S rings, [CallEnqueueIn 0 100; CallEnqueueIn 1 50]) else (rings, []).

Definition ticking : t :=
  set_stop (mk (umax 64) [mkEvent 10 0] 0 (<[0 := 1%Z]> (<[1 := 0%Z]> ∅))) 250.

Lemma ticking_reachable : reachable 3 ticking.
Proof.
  apply reach_stop.
  refine (performed_reachable [CallNew 1; CallNew 0; CallEnqueueAt 0 10] 0 init _ reach_init _).
  vm_compute. reflexivity.
Qed.

Lemma ticker_later c now rings :
  (0 <= now < stop_time_ ticking)%Z ->
  length (ticker c now rings).2 <= 2 /\
  Forall (later (dom (outstanding ticking)) now) (ticker c now rings).2.
Proof.
  intros Hnow. change (stop_time_ ticking) with 250%Z in Hnow. unfold ticker. split.
  { destruct (c =? 0); cbn; lia. }
  destruct (c =? 0); cbn [snd]; repeat constructor; cbn; try lia; apply elem_of_dom; by eexists.
Qed.

Lemma EventQueue_no_dangling_events_witness :
  exists q' e k, deliver ticking = Ok (q', e) /\
    outstanding ticking !! consumer e = Some k /\ (0 < k)%Z /\
    outstanding q' !! consumer e = Some (k - 1)%Z.
Proof.
  destruct (EventQueue_no_dangling_events 3 ticking) as (_ & H & _).
  - apply ticking_reachable.
  - reflexivity.
  - apply H. discriminate.
Defined.

Lemma EventQueue_Run_in_order_witness :
  exists q' u' trace, Run ticker 10 ticking 0 = Ok (q', u', trace) /\ length trace = 5 /\
    StronglySorted Z.le (fst <$> trace) /\ time_ q' = 250%Z.
Proof.
  eexists _, _, _. split; [vm_compute; reflexivity|]. split; [reflexivity|].
  edestruct (EventQueue_Run_in_order ticker 3 ticking 10 0) as (H1 & _ & _ & _).
  - apply ticking_reachable.
  - reflexivity.
  - vm_compute. discriminate.
  - apply Forall_singleton. vm_compute. discriminate.
  - intros c now u Hnow. eapply Forall_impl; [apply ticker_later, Hnow|]. apply later_not_past.
  - vm_compute. reflexivity.
  - split; [exact H1|reflexivity].
Defined.

Lemma EventQueue_Run_delivers_all_witness :
  exists q' u' trace,
    Run ticker (S (potential 2 250 (queue_ ticking))) ticking 0 = Ok (q', u', trace) /\
    queue_ ticking ⊆+ (snd <$> trace) ++ queue_ q' /\
    Forall (λ e, (250 <= at_time e)%Z) (queue_ q').
Proof.
  apply (EventQueue_Run_delivers_all ticker 3 2 ticking 0).
  - apply ticking_reachable.
  - reflexivity.
  - apply Forall_singleton. vm_compute. discriminate.
  - apply ticker_later.
Defined.

(** Times are in picoseconds, so a nanosecond covers ten rings. *)
Lemma EventQueue_resume_witness :
  exists q1 u1 tr1 q2 u2 tr2,
    RunAndStopIn ticker 100 ticking 1 0 = Ok (q1, u1, tr1) /\
    RunAndStopIn ticker 100 q1 2 u1 = Ok (q2, u2, tr2) /\
    RunAndStopIn ticker 200 ticking 3 0 = Ok (q2, u2, tr1 ++ tr2) /\ u2 = 30.
Proof.
  eexists _, _, _, _, _, _. split; [vm_compute; reflexivity|]. split; [vm_compute; reflexivity|].
  split; [|reflexivity].
  eapply (EventQueue_resume ticker 100 100 1 2 ticking 0).
  - intros c now u. unfold ticker. destruct (c =? 0); repeat constructor; discriminate.
  - vm_compute. discriminate.
  - lia.
  - lia.
  - reflexivity.
  - vm_compute. reflexivity.
  - vm_compute. reflexivity.
Defined.

Lemma SimTimeEventQueue_time_roundtrip_witness :
  TimeToNanos (NanosToTime 1500) = 1500%Z /\
  exists time, RawMillisToTime 200 = Ok time /\ TimeToRawMillis time = 200%Z.
Proof. apply (SimTimeEventQueue_time_roundtrip 1500 200); lia. Defined.

(** [EvictConsumer] does not reset the counter, so a consumer without events
    still reports an outstanding one. *)
Lemma EvictConsumer_keeps_count :
  exists q, EvictConsumer ticking 0 = Ok q /\ queue_ q = [] /\ event_count q 0 = Ok 1%Z.
Proof. eexists. split; [vm_compute; reflexivity|]. split; reflexivity. Qed.
