(* ===== verification/Tcp.v ===== *)
(** Model of the TCP of the simulator ([src/src/htsim/tcp.h], [tcp.cc], with
    [Connection] of [packet.h], [packet.cc]): the source with its congestion
    window, the sink with its reassembly list and the shared retransmission
    timer.  Machine integers keep their width.  A packet handed to [out_] and
    a call of a callback are appended to the field [out_] of the state; what
    the callee does with them is not part of a step. *)

From S2P Require Import Prelude EventQueue.

(** Signed integers of [w] bits. *)
Definition swrap (w x : Z) : Z :=
  let y := wrap w x in if (y <? 2 ^ (w - 1))%Z then y else (y - 2 ^ w)%Z.
Definition s32 : Z -> Z := swrap 32.
Definition s64 : Z -> Z := swrap 64.

(** The fields of a [TCPPacket] that TCP uses. *)
Record packet := mkPacket { size_bytes : Z; time_sent : Z; sequence : Z; tag : Z }.

Definition kDefaultTag : Z := 0%Z.

(** [TCPPacket::TCPPacket]. *)
Definition new_packet (size_ time_ seq_ : Z) : outcome packet :=
  _ ← check (0 <? size_)%Z; Ok (mkPacket size_ time_ seq_ kDefaultTag).

Record ConnectionStats := mkStats { pkts_tx : Z; pkts_rx : Z; bytes_tx : Z; bytes_rx : Z }.

Definition count_tx (c : ConnectionStats) (p : packet) : ConnectionStats :=
  mkStats (u64 (pkts_tx c + 1)) (pkts_rx c) (u64 (bytes_tx c + size_bytes p)) (bytes_rx c).
Definition count_rx (c : ConnectionStats) (p : packet) : ConnectionStats :=
  mkStats (pkts_tx c) (u64 (pkts_rx c + 1)) (bytes_tx c) (u64 (bytes_rx c + size_bytes p)).

(** What leaves a connection: packets and calls of callbacks. *)
Inductive output : Type :=
| Sent (p : packet)
| SendBufferDrained
| CompletionTime (time_ count : Z)
| FastRetx (seq_ : Z)
| RetxTimeout (seq_ : Z)
| TagChange (count : Z).

(** The packets of an output. *)
Definition packets (l : list output) : list packet :=
  omap (λ o, match o with Sent p => Some p | _ => None end) l.

Module TCPSink.

Record t := mk {
  cumulative_ack_ : Z;
  received_ : list Z;
  last_seen_incoming_tag_ : Z;
  tag_change_count_ : Z;
  stats_ : ConnectionStats;
  out_ : list output
}.

Definition init : t := mk 0 [] (umax 32) 0 (mkStats 0 0 0 0) [].

Definition Reset (s : t) : t :=
  mk 0 [] (umax 32) (tag_change_count_ s) (stats_ s) (out_ s).

Definition kAckSize : Z := 40%Z.

Definition SendAck (s : t) (time_ : Z) : outcome t :=
  p ← new_packet kAckSize time_ (cumulative_ack_ s);
  Ok (mk (cumulative_ack_ s) (received_ s) (last_seen_incoming_tag_ s) (tag_change_count_ s)
        (count_tx (stats_ s) p) (out_ s ++ [Sent p])).

(** The loop that acknowledges stored packets. *)
Fixpoint ack_stored (received : list Z) (ack size_ : Z) : list Z * Z :=
  match received with
  | front :: rest =>
      if (front =? u64 (ack + 1))%Z then ack_stored rest (u64 (ack + size_)) size_
      else (received, ack)
  | [] => ([], ack)
  end.

(** The loop that fills a hole. *)
Fixpoint fill_hole (received : list Z) (seqno : Z) : list Z :=
  match received with
  | [] => []
  | it :: rest =>
      if (seqno =? it)%Z then received
      else if (seqno <? it)%Z then seqno :: received
      else it :: fill_hole rest seqno
  end.

Definition store (received : list Z) (seqno : Z) : list Z :=
  match last received with
  | None => [seqno]
  | Some back => if (back <? seqno)%Z then received ++ [seqno] else fill_hole received seqno
  end.

Definition see_tag (s : t) (tag_ : Z) : t :=
  if decide (last_seen_incoming_tag_ s = tag_) then s
  else
    let count := u64 (tag_change_count_ s + 1) in
    mk (cumulative_ack_ s) (received_ s) tag_ count (stats_ s) (out_ s ++ [TagChange count]).

Definition ReceivePacket (s : t) (pkt : packet) : outcome t :=
  let seqno := sequence pkt in
  let s1 := if (seqno =? 1)%Z then Reset s else s in
  let s2 := see_tag s1 (tag pkt) in
  let next := u64 (cumulative_ack_ s2 + 1) in
  let '(received, ack) :=
    if (seqno =? next)%Z then
      ack_stored (received_ s2) (u64 (seqno + size_bytes pkt - 1)) (size_bytes pkt)
    else if (seqno <? next)%Z then (received_ s2, cumulative_ack_ s2)
    else (store (received_ s2) seqno, cumulative_ack_ s2) in
  SendAck (mk ack received (last_seen_incoming_tag_ s2) (tag_change_count_ s2) (stats_ s2) (out_ s2))
    (time_sent pkt).

(** [Connection::HandlePacket]. *)
Definition HandlePacket (s : t) (pkt : packet) : outcome t :=
  ReceivePacket (mk (cumulative_ack_ s) (received_ s) (last_seen_incoming_tag_ s)
                   (tag_change_count_ s) (count_rx (stats_ s) pkt) (out_ s)) pkt.

(** [AddData] and [Close] of a sink are fatal. *)
Definition AddData (s : t) (bytes : Z) : outcome t := Fail CheckFailed.
Definition Close (s : t) : outcome t := Fail CheckFailed.

End TCPSink.

Module TCPSource.

Record TCPSourceConfig := mkConfig {
  mss : Z; maxcwnd : Z; inital_cwnd_size : Z; simulate_initial_handshake : bool
}.

(** Round-trip estimates. *)
Record timing := mkTiming {
  rtt_ : Z; rto_ : Z; mdev_ : Z; rtt_avg_ : Z; rtt_cum_ : Z; sawtooth_ : Z
}.

Record t := mk {
  config : TCPSourceConfig;
  last_sent_time_ : Z;
  highest_seqno_sent_ : Z;
  highest_seqno_sent_real_ : Z;
  cwnd_ : Z;
  last_acked_ : Z;
  dupacks_ : Z;
  ssthresh_ : Z;
  timing_ : timing;
  recoverq_ : Z;
  in_fast_recovery_ : bool;
  send_buffer_ : Z;
  first_sent_time_ : Z;
  close_count_ : Z;
  pending_add_ : Z;
  original_first_sent_time_ : Z;
  on_send_buffer_drained_ : bool;
  completion_times_callback_ : bool;
  stats_ : ConnectionStats;
  out_ : list output
}.

Definition mss_ (s : t) : Z := mss (config s).

(** *** Assignments *)

Definition set_last_sent_time (s : t) (x : Z) : t := mk (config s) x (highest_seqno_sent_ s) (highest_seqno_sent_real_ s) (cwnd_ s) (last_acked_ s) (dupacks_ s) (ssthresh_ s) (timing_ s) (recoverq_ s) (in_fast_recovery_ s) (send_buffer_ s) (first_sent_time_ s) (close_count_ s) (pending_add_ s) (original_first_sent_time_ s) (on_send_buffer_drained_ s) (completion_times_callback_ s) (stats_ s) (out_ s).
Definition set_highest (s : t) (x : Z) : t := mk (config s) (last_sent_time_ s) x (highest_seqno_sent_real_ s) (cwnd_ s) (last_acked_ s) (dupacks_ s) (ssthresh_ s) (timing_ s) (recoverq_ s) (in_fast_recovery_ s) (send_buffer_ s) (first_sent_time_ s) (close_count_ s) (pending_add_ s) (original_first_sent_time_ s) (on_send_buffer_drained_ s) (completion_times_callback_ s) (stats_ s) (out_ s).
Definition set_highest_real (s : t) (x : Z) : t := mk (config s) (last_sent_time_ s) (highest_seqno_sent_ s) x (cwnd_ s) (last_acked_ s) (dupacks_ s) (ssthresh_ s) (timing_ s) (recoverq_ s) (in_fast_recovery_ s) (send_buffer_ s) (first_sent_time_ s) (close_count_ s) (pending_add_ s) (original_first_sent_time_ s) (on_send_buffer_drained_ s) (completion_times_callback_ s) (stats_ s) (out_ s).
Definition set_cwnd (s : t) (x : Z) : t := mk (config s) (last_sent_time_ s) (highest_seqno_sent_ s) (highest_seqno_sent_real_ s) x (last_acked_ s) (dupacks_ s) (ssthresh_ s) (timing_ s) (recoverq_ s) (in_fast_recovery_ s) (send_buffer_ s) (first_sent_time_ s) (close_count_ s) (pending_add_ s) (original_first_sent_time_ s) (on_send_buffer_drained_ s) (completion_times_callback_ s) (stats_ s) (out_ s).
Definition set_last_acked (s : t) (x : Z) : t := mk (config s) (last_sent_time_ s) (highest_seqno_sent_ s) (highest_seqno_sent_real_ s) (cwnd_ s) x (dupacks_ s) (ssthresh_ s) (timing_ s) (recoverq_ s) (in_fast_recovery_ s) (send_buffer_ s) (first_sent_time_ s) (close_count_ s) (pending_add_ s) (original_first_sent_time_ s) (on_send_buffer_drained_ s) (completion_times_callback_ s) (stats_ s) (out_ s).
Definition set_dupacks (s : t) (x : Z) : t := mk (config s) (last_sent_time_ s) (highest_seqno_sent_ s) (highest_seqno_sent_real_ s) (cwnd_ s) (last_acked_ s) x (ssthresh_ s) (timing_ s) (recoverq_ s) (in_fast_recovery_ s) (send_buffer_ s) (first_sent_time_ s) (close_count_ s) (pending_add_ s) (original_first_sent_time_ s) (on_send_buffer_drained_ s) (completion_times_callback_ s) (stats_ s) (out_ s).
Definition set_ssthresh (s : t) (x : Z) : t := mk (config s) (last_sent_time_ s) (highest_seqno_sent_ s) (highest_seqno_sent_real_ s) (cwnd_ s) (last_acked_ s) (dupacks_ s) x (timing_ s) (recoverq_ s) (in_fast_recovery_ s) (send_buffer_ s) (first_sent_time_ s) (close_count_ s) (pending_add_ s) (original_first_sent_time_ s) (on_send_buffer_drained_ s) (completion_times_callback_ s) (stats_ s) (out_ s).
Definition set_timing (s : t) (x : timing) : t := mk (config s) (last_sent_time_ s) (highest_seqno_sent_ s) (highest_seqno_sent_real_ s) (cwnd_ s) (last_acked_ s) (dupacks_ s) (ssthresh_ s) x (recoverq_ s) (in_fast_recovery_ s) (send_buffer_ s) (first_sent_time_ s) (close_count_ s) (pending_add_ s) (original_first_sent_time_ s) (on_send_buffer_drained_ s) (completion_times_callback_ s) (stats_ s) (out_ s).
Definition set_recovery (s : t) (x : Z) (b : bool) : t := mk (config s) (last_sent_time_ s) (highest_seqno_sent_ s) (highest_seqno_sent_real_ s) (cwnd_ s) (last_acked_ s) (dupacks_ s) (ssthresh_ s) (timing_ s) x b (send_buffer_ s) (first_sent_time_ s) (close_count_ s) (pending_add_ s) (original_first_sent_time_ s) (on_send_buffer_drained_ s) (completion_times_callback_ s) (stats_ s) (out_ s).
Definition set_send_buffer (s : t) (x : Z) : t := mk (config s) (last_sent_time_ s) (highest_seqno_sent_ s) (highest_seqno_sent_real_ s) (cwnd_ s) (last_acked_ s) (dupacks_ s) (ssthresh_ s) (timing_ s) (recoverq_ s) (in_fast_recovery_ s) x (first_sent_time_ s) (close_count_ s) (pending_add_ s) (original_first_sent_time_ s) (on_send_buffer_drained_ s) (completion_times_callback_ s) (stats_ s) (out_ s).
Definition set_first_sent_time (s : t) (x : Z) : t := mk (config s) (last_sent_time_ s) (highest_seqno_sent_ s) (highest_seqno_sent_real_ s) (cwnd_ s) (last_acked_ s) (dupacks_ s) (ssthresh_ s) (timing_ s) (recoverq_ s) (in_fast_recovery_ s) (send_buffer_ s) x (close_count_ s) (pending_add_ s) (original_first_sent_time_ s) (on_send_buffer_drained_ s) (completion_times_callback_ s) (stats_ s) (out_ s).
Definition set_pending_add (s : t) (x : Z) : t := mk (config s) (last_sent_time_ s) (highest_seqno_sent_ s) (highest_seqno_sent_real_ s) (cwnd_ s) (last_acked_ s) (dupacks_ s) (ssthresh_ s) (timing_ s) (recoverq_ s) (in_fast_recovery_ s) (send_buffer_ s) (first_sent_time_ s) (close_count_ s) x (original_first_sent_time_ s) (on_send_buffer_drained_ s) (completion_times_callback_ s) (stats_ s) (out_ s).
Definition set_original_first_sent_time (s : t) (x : Z) : t := mk (config s) (last_sent_time_ s) (highest_seqno_sent_ s) (highest_seqno_sent_real_ s) (cwnd_ s) (last_acked_ s) (dupacks_ s) (ssthresh_ s) (timing_ s) (recoverq_ s) (in_fast_recovery_ s) (send_buffer_ s) (first_sent_time_ s) (close_count_ s) (pending_add_ s) x (on_send_buffer_drained_ s) (completion_times_callback_ s) (stats_ s) (out_ s).
Definition OnSendBufferDrained (s : t) (x : bool) : t := mk (config s) (last_sent_time_ s) (highest_seqno_sent_ s) (highest_seqno_sent_real_ s) (cwnd_ s) (last_acked_ s) (dupacks_ s) (ssthresh_ s) (timing_ s) (recoverq_ s) (in_fast_recovery_ s) (send_buffer_ s) (first_sent_time_ s) (close_count_ s) (pending_add_ s) (original_first_sent_time_ s) x (completion_times_callback_ s) (stats_ s) (out_ s).
Definition set_completion_times_callback (s : t) (x : bool) : t := mk (config s) (last_sent_time_ s) (highest_seqno_sent_ s) (highest_seqno_sent_real_ s) (cwnd_ s) (last_acked_ s) (dupacks_ s) (ssthresh_ s) (timing_ s) (recoverq_ s) (in_fast_recovery_ s) (send_buffer_ s) (first_sent_time_ s) (close_count_ s) (pending_add_ s) (original_first_sent_time_ s) (on_send_buffer_drained_ s) x (stats_ s) (out_ s).
Definition set_stats (s : t) (x : ConnectionStats) : t := mk (config s) (last_sent_time_ s) (highest_seqno_sent_ s) (highest_seqno_sent_real_ s) (cwnd_ s) (last_acked_ s) (dupacks_ s) (ssthresh_ s) (timing_ s) (recoverq_ s) (in_fast_recovery_ s) (send_buffer_ s) (first_sent_time_ s) (close_count_ s) (pending_add_ s) (original_first_sent_time_ s) (on_send_buffer_drained_ s) (completion_times_callback_ s) x (out_ s).
Definition emit (s : t) (o : output) : t := mk (config s) (last_sent_time_ s) (highest_seqno_sent_ s) (highest_seqno_sent_real_ s) (cwnd_ s) (last_acked_ s) (dupacks_ s) (ssthresh_ s) (timing_ s) (recoverq_ s) (in_fast_recovery_ s) (send_buffer_ s) (first_sent_time_ s) (close_count_ s) (pending_add_ s) (original_first_sent_time_ s) (on_send_buffer_drained_ s) (completion_times_callback_ s) (stats_ s) (out_ s ++ [o]).

(** Times of the simulated event queue. *)
Definition seconds (n : Z) : Z := EventQueue.NanosToTime (n * 1000000000).
Definition milliseconds (n : Z) : Z := EventQueue.NanosToTime (n * 1000000).

Definition Close (s : t) : t :=
  mk (config s) EventQueueTime.ZeroTime 0 0 0 0 0 (umax 32) (mkTiming 0 (seconds 1) 0 0 0 0) 0 false 0
    EventQueueTime.MaxTime (u64 (close_count_ s + 1)) (pending_add_ s) (original_first_sent_time_ s)
    (on_send_buffer_drained_ s) (completion_times_callback_ s) (stats_ s) (out_ s).

Definition construct (c : TCPSourceConfig) : t :=
  Close (mk c 0 0 0 0 0 0 0 (mkTiming 0 0 0 0 0 0) 0 false 0 0 0 0 EventQueueTime.MaxTime
           false false (mkStats 0 0 0 0) []).

(** [Connection::SendPacket]. *)
Definition SendPacket (s : t) (p : packet) : t := emit (set_stats s (count_tx (stats_ s) p)) (Sent p).

Definition RetransmitPacket (now : Z) (s : t) : outcome t :=
  pkt_ptr ← new_packet (mss_ s) now (u64 (last_acked_ s + 1));
  Ok (SendPacket (set_last_sent_time s now) pkt_ptr).

(** *** Congestion window *)

Definition InflateWindow (s : t) : outcome t :=
  let newly_acked0 := s32 (u64 (u64 (last_acked_ s + cwnd_ s) - highest_seqno_sent_ s)) in
  let newly_acked := if (mss_ s <? newly_acked0)%Z then mss_ s else newly_acked0 in
  if (newly_acked <? 0)%Z then Ok s
  else if (cwnd_ s <? ssthresh_ s)%Z then
    let increase := Z.min (ssthresh_ s - cwnd_ s) newly_acked in
    let cwnd := u32 (cwnd_ s + increase) in
    Ok (set_cwnd s (if (maxcwnd (config s) <? cwnd)%Z then maxcwnd (config s) else cwnd))
  else if (mss_ s =? 0)%Z || (cwnd_ s =? 0)%Z then Fail Undefined
  else if (2 ^ 31 <=? newly_acked * mss_ s)%Z then Fail Undefined
  else
    let pkts := (cwnd_ s / mss_ s)%Z in
    let increase0 := (newly_acked * mss_ s / cwnd_ s)%Z in
    let increase := if (increase0 =? 0)%Z then 1%Z else increase0 in
    let s1 := set_cwnd s (u32 (cwnd_ s + increase)) in
    if decide (pkts = cwnd_ s1 / mss_ s)%Z then Ok s1
    else
      let ti := timing_ s1 in
      if (sawtooth_ ti =? 2 ^ 31 - 1)%Z then Fail Undefined
      else Ok (set_timing s1 (mkTiming (rtt_ ti) (rto_ ti) (mdev_ ti) (rtt_avg_ ti)
                                (u64 (rtt_cum_ ti + rtt_ ti)) (sawtooth_ ti + 1))).

(** *** Sending *)

(** The loop of [SendPackets]. *)
Fixpoint send_loop (fuel : nat) (now : Z) (s : t) : outcome t :=
  if (u64 (last_acked_ s + cwnd_ s) <? u64 (highest_seqno_sent_ s + mss_ s))%Z then Ok s
  else if (send_buffer_ s =? 0)%Z then Ok s
  else
    match fuel with
    | O => Fail OutOfFuel
    | S fuel' =>
        let s1 := if (highest_seqno_sent_ s =? 0)%Z then set_first_sent_time s now else s in
        let to_tx := Z.min (mss_ s1) (send_buffer_ s1) in
        pkt_ptr ← new_packet to_tx now (u64 (highest_seqno_sent_ s1 + 1));
        let s2 := set_send_buffer s1 (send_buffer_ s1 - to_tx) in
        let s3 := set_highest s2 (u64 (highest_seqno_sent_ s2 + to_tx)) in
        let s4 := set_highest_real s3 (u64 (highest_seqno_sent_real_ s3 + to_tx)) in
        let s5 := set_last_sent_time s4 now in
        send_loop fuel' now (SendPacket s5 pkt_ptr)
    end.

(** A round for every segment of the window, one for the last segment and one
    for the end. *)
Definition send_fuel (s : t) : nat :=
  S (S (Z.to_nat ((last_acked_ s + cwnd_ s - highest_seqno_sent_ s) / mss_ s))).

(** [AddData], for the [SendPackets] it calls. *)
Definition add_data (SendPackets : t -> outcome t) (s : t) (bytes : Z) : outcome t :=
  let s1 := if (send_buffer_ s <? mss_ s)%Z then Close s else s in
  let '(s2, bytes) :=
    if (cwnd_ s1 =? 0)%Z then
      let s' := set_cwnd s1 (u32 (inital_cwnd_size (config s1) * mss_ s1)) in
      if simulate_initial_handshake (config s1) && (pending_add_ s1 =? 0)%Z
      then (set_pending_add s' bytes, 1%Z) else (s', bytes)
    else (s1, bytes) in
  let s3 :=
    if (u64 (send_buffer_ s2 + bytes) <? send_buffer_ s2)%Z then set_send_buffer s2 (umax 64)
    else set_send_buffer s2 (u64 (send_buffer_ s2 + bytes)) in
  SendPackets s3.

(** [DataTransferred], for the [AddData] it calls. *)
Definition data_transferred (AddData : t -> Z -> outcome t) (now : Z) (s : t) : outcome t :=
  if simulate_initial_handshake (config s) && negb (pending_add_ s =? 0)%Z then
    let s1 := set_original_first_sent_time s (first_sent_time_ s) in
    s2 ← AddData s1 (pending_add_ s1);
    Ok (set_pending_add s2 0)
  else if negb (on_send_buffer_drained_ s) then Ok s
  else
    s1 ← (if completion_times_callback_ s then
            completion_time ← EventQueueTime.sub now
              (if simulate_initial_handshake (config s) then original_first_sent_time_ s
               else first_sent_time_ s);
            Ok (emit s (CompletionTime completion_time (close_count_ s)))
          else Ok s);
    Ok (OnSendBufferDrained (emit s1 SendBufferDrained) false).

(** [SendPackets] calls [DataTransferred], which may call [AddData], which
    calls [SendPackets] again; [depth] bounds the nesting. *)
Fixpoint send_packets (depth : nat) (now : Z) (s : t) : outcome t :=
  match depth with
  | O => Fail OutOfFuel
  | S depth' =>
      if (highest_seqno_sent_real_ s <=? last_acked_ s)%Z && (send_buffer_ s =? 0)%Z
      then data_transferred (add_data (send_packets depth' now)) now s
      else send_loop (send_fuel s) now s
  end.

Definition SendPackets (now : Z) (s : t) : outcome t := send_packets 2 now s.
Definition AddData (now : Z) (s : t) (bytes : Z) : outcome t := add_data (SendPackets now) s bytes.
Definition DataTransferred (now : Z) (s : t) : outcome t := data_transferred (AddData now) now s.

(** *** Acknowledgements *)

(** The estimates of the round trip after a sample [m]. *)
Definition estimate (ti : timing) (m : Z) : timing :=
  if (m =? 0)%Z then ti
  else if (0 <? rtt_ ti)%Z then
    let m1 := s64 (m - Z.shiftr (rtt_ ti) 3) in
    let rtt := u64 (rtt_ ti + m1) in
    let m2 :=
      if (m1 <? 0)%Z then
        let m' := s64 (- m1 - Z.shiftr (mdev_ ti) 2) in
        if (0 <? m')%Z then Z.shiftr m' 3 else m'
      else s64 (m1 - Z.shiftr (mdev_ ti) 2) in
    mkTiming rtt (rto_ ti) (u64 (mdev_ ti + m2)) (rtt_avg_ ti) (rtt_cum_ ti) (sawtooth_ ti)
  else
    mkTiming (u64 (Z.shiftl m 3)) (rto_ ti) (u64 (Z.shiftl m 1)) (rtt_avg_ ti) (rtt_cum_ ti) (sawtooth_ ti).

Definition update_rto (ti : timing) : timing :=
  let rto := u64 (Z.shiftr (rtt_ ti) 3 + mdev_ ti) in
  let rto := if (rto <? milliseconds 200)%Z then milliseconds 200 else rto in
  let rto := if (seconds 5 <? rto)%Z then seconds 2 else rto in
  mkTiming (rtt_ ti) rto (mdev_ ti) (rtt_avg_ ti) (rtt_cum_ ti) (sawtooth_ ti).

(** End of a period of the window: the average is stored and the sums start
    over. *)
Definition end_sawtooth (s : t) : t :=
  let ti := timing_ s in
  set_timing s (mkTiming (rtt_ ti) (rto_ ti) (mdev_ ti)
    (if (0 <? sawtooth_ ti)%Z then rtt_cum_ ti / sawtooth_ ti else 0)%Z 0 0).

(** An acknowledgement of new data. *)
Definition new_ack (now : Z) (s : t) (seqno : Z) : outcome t :=
  if negb (in_fast_recovery_ s) then
    s1 ← InflateWindow (set_dupacks (set_last_acked s seqno) 0);
    SendPackets now s1
  else if (recoverq_ s <=? seqno)%Z then
    let flightsize := u32 (highest_seqno_sent_ s - seqno) in
    let s1 := set_cwnd s (Z.min (ssthresh_ s) (u32 (flightsize + mss_ s))) in
    SendPackets now (set_recovery (set_dupacks (set_last_acked s1 seqno) 0) (recoverq_ s) false)
  else
    let new_data := u32 (seqno - last_acked_ s) in
    let s1 := set_last_acked s seqno in
    let s2 := set_cwnd s1 (if (new_data <? cwnd_ s1)%Z then cwnd_ s1 - new_data else 0)%Z in
    let s3 := set_cwnd s2 (u32 (cwnd_ s2 + mss_ s2)) in
    s4 ← RetransmitPacket now s3;
    SendPackets now (emit s4 (FastRetx (u64 (last_acked_ s4 + 1)))).

(** A duplicate acknowledgement. *)
Definition dup_ack (now : Z) (s : t) : outcome t :=
  if in_fast_recovery_ s then
    let cwnd := u32 (cwnd_ s + mss_ s) in
    SendPackets now (set_cwnd s (if (maxcwnd (config s) <? cwnd)%Z then maxcwnd (config s) else cwnd))
  else
    let s1 := set_dupacks s (u16 (dupacks_ s + 1)) in
    if negb (dupacks_ s1 =? 3)%Z then SendPackets now s1
    else if (last_acked_ s1 <? recoverq_ s1)%Z then Ok s1
    else
      let s2 := end_sawtooth (set_ssthresh s1 (Z.max (cwnd_ s1 / 2) (2 * mss_ s1))) in
      s3 ← RetransmitPacket now s2;
      let s4 := emit s3 (FastRetx (u64 (last_acked_ s3 + 1))) in
      let s5 := set_cwnd s4 (u32 (ssthresh_ s4 + 3 * mss_ s4)) in
      Ok (set_recovery s5 (highest_seqno_sent_ s5) true).

Definition ReceivePacket (now : Z) (s : t) (pkt : packet) : outcome t :=
  let time_ack_sent := time_sent pkt in
  if (time_ack_sent <? first_sent_time_ s)%Z then Ok s
  else
    let seqno := if (sequence pkt <? last_acked_ s)%Z then last_acked_ s else sequence pkt in
    m ← EventQueueTime.sub now time_ack_sent;
    let s1 := set_timing s (update_rto (estimate (timing_ s) (s64 m))) in
    if (last_acked_ s1 <? seqno)%Z then new_ack now s1 seqno else dup_ack now s1.

(** [Connection::HandlePacket]. *)
Definition HandlePacket (now : Z) (s : t) (pkt : packet) : outcome t :=
  ReceivePacket now (set_stats s (count_rx (stats_ s) pkt)) pkt.

(** *** Retransmission timeout *)

Definition RtxTimerHook (now : Z) (s : t) : outcome t :=
  if (highest_seqno_sent_ s =? 0)%Z then Ok s
  else if (highest_seqno_sent_real_ s <=? last_acked_ s)%Z then DataTransferred now s
  else if (now <=? u64 (last_sent_time_ s + rto_ (timing_ s)))%Z then Ok s
  else
    let s1 := if in_fast_recovery_ s then
                let flightsize := u32 (highest_seqno_sent_ s - last_acked_ s) in
                set_cwnd s (Z.min (ssthresh_ s) (u32 (flightsize + mss_ s)))
              else s in
    let s2 := end_sawtooth (set_ssthresh s1 (Z.max (cwnd_ s1 / 2) (2 * mss_ s1))) in
    let s3 := set_recovery (set_cwnd s2 (mss_ s2)) (highest_seqno_sent_ s2) false in
    let s4 := set_dupacks (set_highest s3 (u64 (last_acked_ s3 + mss_ s3))) 0 in
    s5 ← RetransmitPacket now s4;
    Ok (emit s5 (RetxTimeout (u64 (last_acked_ s5 + 1)))).

End TCPSource.

Module TCPRtxTimer.

Record t := mk { self : nat; scan_period_ : Z; tcp_sources_ : list nat }.

(** Returns the calls into the event queue. *)
Definition RegisterTCPSource (r : t) (tcp_source : nat) : t * list EventQueue.call :=
  let r' := mk (self r) (scan_period_ r) (tcp_sources_ r ++ [tcp_source]) in
  (r', if length (tcp_sources_ r') =? 1 then [EventQueue.CallEnqueueIn (self r) (scan_period_ r)] else []).

Definition HandleEvent (r : t) (now : Z) (sources : gmap nat TCPSource.t) :
    outcome (gmap nat TCPSource.t * list EventQueue.call) :=
  sources' ← mfold (λ m i,
    match m !! i with
    | Some s => s' ← TCPSource.RtxTimerHook now s; Ok (<[i := s']> m)
    | None => Fail Undefined
    end) (tcp_sources_ r) sources;
  Ok (sources', [EventQueue.CallEnqueueIn (self r) (scan_period_ r)]).

End TCPRtxTimer.

(** ** The sink reassembles segments of equal size *)
Section reassembly.
Context (size_ : Z) (Hsize : (0 < size_)%Z).

(** Segment [i] of a stream that is cut into segments of [size_] bytes. *)
Definition segment_seq (i : nat) : Z := (1 + size_ * Z.of_nat i)%Z.
Definition segment (time_ tag_ : Z) (i : nat) : packet := mkPacket size_ time_ (segment_seq i) tag_.

(** The segments before [m] and those of [L] have arrived. *)
Record reassembled (m : nat) (L : list nat) (s : TCPSink.t) : Prop := {
  re_ack : TCPSink.cumulative_ack_ s = (size_ * Z.of_nat m)%Z;
  re_received : TCPSink.received_ s = segment_seq <$> L;
  re_sorted : StronglySorted lt L;
  re_above : Forall (lt m) L
}.

Lemma segment_seq_inj i j : segment_seq i = segment_seq j <-> i = j.
Proof using Hsize. unfold segment_seq. split; [nia|by intros ->]. Qed.

Lemma segment_seq_lt i j : (segment_seq i < segment_seq j)%Z <-> i < j.
Proof using Hsize. unfold segment_seq. nia. Qed.

Lemma fill_hole_spec L i :
  StronglySorted lt L -> (exists j, j ∈ L /\ i <= j) ->
  exists L', TCPSink.fill_hole (segment_seq <$> L) (segment_seq i) = segment_seq <$> L' /\
    StronglySorted lt L' /\ (forall j, j ∈ L' <-> j = i \/ j ∈ L).
Proof using Hsize.
  induction L as [|x L IH]; intros Hs (j & Hj & Hij); [by apply not_elem_of_nil in Hj|].
  apply StronglySorted_inv in Hs as [Hs Hlt]. cbn [fmap list_fmap TCPSink.fill_hole].
  destruct (Z.eqb_spec (segment_seq i) (segment_seq x)) as [Heq|Hne].
  { apply segment_seq_inj in Heq as ->. exists (x :: L). split_and!; [done|by constructor|].
    intros k. set_solver. }
  assert (Hix : i <> x) by (intros ->; by apply Hne).
  destruct (Z.ltb_spec (segment_seq i) (segment_seq x)) as [Hlt'|Hge].
  - apply segment_seq_lt in Hlt'. exists (i :: x :: L). split_and!; [done| |set_solver].
    constructor; [by constructor|]. constructor; [done|].
    eapply Forall_impl; [exact Hlt|]. cbn; lia.
  - assert (Hxi : x < i).
    { destruct (decide (i < x)) as [H|H]; [apply segment_seq_lt in H; lia|lia]. }
    destruct IH as (L' & -> & Hs' & Hin); [done| |].
    { exists j. split; [|done]. apply elem_of_cons in Hj as [->|?]; [lia|done]. }
    exists (x :: L'). split_and!; [done| |set_solver]. constructor; [done|].
    apply Forall_forall. intros k Hk. apply Hin in Hk as [->|Hk]; [done|].
    by eapply Forall_forall in Hlt.
Qed.

Lemma store_spec L i :
  StronglySorted lt L ->
  exists L', TCPSink.store (segment_seq <$> L) (segment_seq i) = segment_seq <$> L' /\
    StronglySorted lt L' /\ (forall j, j ∈ L' <-> j = i \/ j ∈ L).
Proof using Hsize.
  intros Hs. unfold TCPSink.store. rewrite fmap_last. destruct (last L) as [b|] eqn:Hb.
  - cbn [fmap option_fmap option_map]. assert (Hbin : b ∈ L) by by apply last_Some_elem_of.
    destruct (Z.ltb_spec (segment_seq b) (segment_seq i)) as [Hlt|Hge].
    + apply segment_seq_lt in Hlt. exists (L ++ [i]). split_and!; [by rewrite fmap_app| |set_solver].
      apply StronglySorted_app. split_and!; [|done|repeat constructor].
      intros x y Hx Hy%list_elem_of_singleton. subst y.
      apply last_Some in Hb as [L0 ->]. apply StronglySorted_app in Hs as (Hlast & _ & _).
      apply elem_of_app in Hx as [Hx|Hx%list_elem_of_singleton]; [|subst; lia].
      specialize (Hlast x b Hx ltac:(set_solver)). lia.
    + apply fill_hole_spec; [done|]. exists b. split; [done|].
      destruct (decide (b < i)) as [H|H]; [apply segment_seq_lt in H; lia|lia].
  - apply last_None in Hb as ->. exists [i]. split_and!; [done|repeat constructor|set_solver].
Qed.
Context (n : nat) (Hn : (size_ * (Z.of_nat n + 2) < 2 ^ 64)%Z).

Lemma next_seq m : m <= S n -> u64 (size_ * Z.of_nat m + 1) = segment_seq m.
Proof using Hsize Hn. intros Hm. unfold u64, segment_seq. rewrite wrap_id; nia. Qed.

Lemma ack_stored_spec L : forall k,
  StronglySorted lt L -> Forall (le k) L -> Forall (ge n) L -> k <= S n ->
  exists k' L', TCPSink.ack_stored (segment_seq <$> L) (size_ * Z.of_nat k) size_ =
      (segment_seq <$> L', (size_ * Z.of_nat k')%Z) /\
    k <= k' <= S n /\ StronglySorted lt L' /\ Forall (lt k') L' /\
    (forall i, k <= i < k' \/ i ∈ L' <-> i ∈ L).
Proof using Hsize Hn.
  induction L as [|x L IH]; intros k Hs Hk Hmax Hkn.
  { exists k, []. split_and!; [done|lia|lia|constructor|constructor|]. intros i. rewrite elem_of_nil. lia. }
  apply Forall_cons in Hk as [Hx Hk]. apply Forall_cons in Hmax as [Hxn Hmax].
  apply StronglySorted_inv in Hs as [Hs Hlt].
  cbn [fmap list_fmap TCPSink.ack_stored]. rewrite next_seq by done.
  destruct (Z.eqb_spec (segment_seq x) (segment_seq k)) as [Heq|Hne].
  - apply segment_seq_inj in Heq as ->.
    replace (u64 (size_ * Z.of_nat k + size_)) with (size_ * Z.of_nat (S k))%Z
      by (unfold u64; rewrite wrap_id; nia).
    destruct (IH (S k) Hs) as (k' & L' & -> & Hk' & Hs' & Hl' & Hin); [|done|lia|].
    { eapply Forall_impl; [exact Hlt|]. intros; cbn; lia. }
    exists k', L'. split_and!; [done|lia|lia|done|done|]. intros i. rewrite elem_of_cons, <-Hin.
    split.
    + intros [?|?]; [|auto]. destruct (decide (i = k)); [auto|]. right; left; lia.
    + intros [->|[?|?]]; [left; lia..|auto].
  - assert (x <> k) by (intros ->; by apply Hne).
    exists k, (x :: L). split_and!; try done.
    + by constructor.
    + constructor; [lia|]. eapply Forall_impl; [exact Hlt|]. cbn; lia.
    + intros i. intuition lia.
Qed.


(** The parts of the state the reassembly does not use. *)
Lemma reassembled_see_tag m L s tag_ :
  reassembled m L s -> reassembled m L (TCPSink.see_tag s tag_).
Proof using. intros [H1 H2 H3 H4]. unfold TCPSink.see_tag. case_decide; by split. Qed.

Definition ack_of (m : nat) (time_ : Z) : output :=
  Sent (mkPacket TCPSink.kAckSize time_ (size_ * Z.of_nat m) kDefaultTag).

Lemma HandlePacket_segment m L s time_ tag_ i :
  reassembled m L s -> m <= S n -> Forall (ge n) L -> i <= n -> (i = 0 -> m = 0 /\ L = []) ->
  exists s' m' L', TCPSink.HandlePacket s (segment time_ tag_ i) = Ok s' /\
    reassembled m' L' s' /\ m' <= S n /\ Forall (ge n) L' /\
    (forall j, j < m' \/ j ∈ L' <-> j = i \/ j < m \/ j ∈ L) /\
    last (TCPSink.out_ s') = Some (ack_of m' time_).
Proof using Hsize Hn.
  intros Hre Hm HL Hi Hfirst. unfold TCPSink.HandlePacket, TCPSink.ReceivePacket.
  cbn [segment sequence size_bytes tag time_sent].
  set (s0 := TCPSink.mk _ _ _ _ _ _).
  assert (H0 : reassembled m L s0) by (destruct Hre; by split).
  set (s1 := if (segment_seq i =? 1)%Z then TCPSink.Reset s0 else s0).
  assert (H1 : reassembled m L s1).
  { unfold s1. destruct (Z.eqb_spec (segment_seq i) 1) as [He|_]; [|done].
    destruct Hfirst as [-> ->]; [unfold segment_seq in He; nia|].
    split; [cbn; lia|done|constructor..]. }
  apply (reassembled_see_tag _ _ _ tag_) in H1. set (s2 := TCPSink.see_tag s1 tag_) in *.
  destruct H1 as [Hack Hrec Hs Hab]. rewrite Hack, Hrec, next_seq by done.
  assert (Hsend : forall ack rec, TCPSink.SendAck (TCPSink.mk ack rec (TCPSink.last_seen_incoming_tag_ s2)
      (TCPSink.tag_change_count_ s2) (TCPSink.stats_ s2) (TCPSink.out_ s2)) time_ =
    Ok (TCPSink.mk ack rec (TCPSink.last_seen_incoming_tag_ s2) (TCPSink.tag_change_count_ s2)
      (count_tx (TCPSink.stats_ s2) (mkPacket TCPSink.kAckSize time_ ack kDefaultTag))
      (TCPSink.out_ s2 ++ [Sent (mkPacket TCPSink.kAckSize time_ ack kDefaultTag)]))) by done.
  destruct (Z.eqb_spec (segment_seq i) (segment_seq m)) as [He|Hne].
  - apply segment_seq_inj in He as ->.
    replace (u64 (segment_seq m + size_ - 1)) with (size_ * Z.of_nat (S m))%Z
      by (unfold u64, segment_seq; rewrite wrap_id; nia).
    destruct (ack_stored_spec L (S m) Hs) as (k' & L' & -> & Hk' & Hs' & Hl' & Hin); [|done|lia|].
    { eapply Forall_impl; [exact Hab|]. cbn; lia. }
    rewrite Hsend. eexists _, k', L'. split; [done|]. split_and!; [by split|lia| | |apply last_snoc].
    + apply Forall_forall. intros j Hj. eapply Forall_forall in HL; [exact HL|]. apply Hin. by right.
    + intros j. rewrite <-(Hin j). split.
      * intros [?|?]; [|auto]. destruct (decide (j = m)); [auto|]. destruct (decide (j < m)); [auto|].
        right; right; left; lia.
      * intros [->|[?|[?|?]]]; [left; lia..|auto].
  - assert (Him : i <> m) by (intros ->; by apply Hne).
    destruct (Z.ltb_spec (segment_seq i) (segment_seq m)) as [Hlt|Hge].
    + apply segment_seq_lt in Hlt. rewrite Hsend. eexists _, m, L. split; [done|].
      split_and!; [by split|done|done| |apply last_snoc]. intros j. intuition lia.
    + assert (Hmi : m < i).
      { destruct (decide (i < m)) as [H|H]; [apply segment_seq_lt in H; lia|lia]. }
      destruct (store_spec L i Hs) as (L' & -> & Hs' & Hin). rewrite Hsend.
      eexists _, m, L'. split; [done|]. split_and!; [|done| | |apply last_snoc].
      * split; [done..|]. apply Forall_forall. intros j [->|Hj]%Hin; [done|].
        by eapply Forall_forall in Hab.
      * apply Forall_forall. intros j [->|Hj]%Hin; [done|]. by eapply Forall_forall in HL.
      * intros j. rewrite Hin. intuition.
Qed.

(** A sequence of arrivals, each a segment with the time and the tag of its
    packet. *)
Definition arrivals (l : list (nat * Z * Z)) (s : TCPSink.t) : outcome TCPSink.t :=
  mfold (λ s '(i, time_, tag_), TCPSink.HandlePacket s (segment time_ tag_ i)) l s.

Lemma arrivals_spec l : forall m L s,
  reassembled m L s -> m <= S n -> Forall (ge n) L ->
  Forall (λ x, 0 < x.1.1 <= n) l ->
  exists s' m' L', arrivals l s = Ok s' /\ reassembled m' L' s' /\ m' <= S n /\ Forall (ge n) L' /\
    (forall j, j < m' \/ j ∈ L' <-> j ∈ l.*1.*1 \/ j < m \/ j ∈ L) /\
    (forall i time_ tag_, last l = Some (i, time_, tag_) -> last (TCPSink.out_ s') = Some (ack_of m' time_)).
Proof using Hsize Hn.
  assert (Hone : forall m1 m2 L1 L2 s, reassembled m1 L1 s -> reassembled m2 L2 s -> m1 = m2).
  { intros m1 m2 L1 L2 s [H1 _ _ _] [H2 _ _ _]. nia. }
  induction l as [|[[i ti] tg] l IH]; intros m L s Hre Hm HL Hl.
  { exists s, m, L. split_and!; try done. intros j. set_solver. }
  apply Forall_cons in Hl as [Hi Hl]. cbn in Hi.
  destruct (HandlePacket_segment m L s ti tg i Hre Hm HL) as (s1 & m1 & L1 & Hs1 & Hre1 & Hm1 & HL1 & Hin1 & Hlast1);
    [lia|lia|].
  destruct (IH m1 L1 s1 Hre1 Hm1 HL1 Hl) as (s2 & m2 & L2 & Hs2 & Hre2 & Hm2 & HL2 & Hin2 & Hlast2).
  exists s2, m2, L2. split_and!; try done.
  - unfold arrivals. cbn [mfold]. rewrite Hs1. exact Hs2.
  - intros j. rewrite Hin2, Hin1. set_solver.
  - intros i0 t0 tg0. destruct l as [|y l]; [|exact (Hlast2 i0 t0 tg0)].
    cbn [last]. intros [= <- <- <-]. injection Hs2 as <-. by rewrite (Hone m2 m1 L2 L1 s1).
Qed.
End reassembly.

(** ** Sending within the window *)

(** Packets that carry the bytes after [from] up to [upto], in order. *)
Fixpoint contiguous (from : Z) (ps : list packet) (upto : Z) : Prop :=
  match ps with
  | [] => from = upto
  | p :: ps' => sequence p = (from + 1)%Z /\ (0 < size_bytes p)%Z /\
      contiguous (from + size_bytes p) ps' upto
  end.

Lemma segments_contiguous_app from ps mid ps' upto :
  contiguous from ps mid -> contiguous mid ps' upto -> contiguous from (ps ++ ps') upto.
Proof.
  revert from. induction ps as [|p ps IH]; intros from; cbn [contiguous app]; [by intros ->|].
  intros (? & ? & ?) ?. split_and!; [done..|]. by apply IH.
Qed.

Lemma contiguous_le from ps upto : contiguous from ps upto -> (from + Z.of_nat (length ps) <= upto)%Z.
Proof.
  revert from. induction ps as [|p ps IH]; intros from; cbn [contiguous length]; [lia|].
  intros (? & ? & H%IH). lia.
Qed.

Import TCPSource.

(** The fields that sending does not change. *)
Record same_flow (s s' : t) : Prop := {
  sf_config : config s' = config s;
  sf_cwnd : cwnd_ s' = cwnd_ s;
  sf_acked : last_acked_ s' = last_acked_ s;
  sf_dupacks : dupacks_ s' = dupacks_ s;
  sf_ssthresh : ssthresh_ s' = ssthresh_ s;
  sf_timing : timing_ s' = timing_ s;
  sf_recoverq : recoverq_ s' = recoverq_ s;
  sf_recovery : in_fast_recovery_ s' = in_fast_recovery_ s;
  sf_drained : on_send_buffer_drained_ s' = on_send_buffer_drained_ s;
  sf_pending : pending_add_ s' = pending_add_ s
}.

#[global] Instance same_flow_trans : Transitive same_flow.
Proof. intros s1 s2 s3 [] []. split; congruence. Qed.

(** What [SendPackets] does with the bytes of the buffer. *)
Record sends (now : Z) (s s' : t) (ps : list packet) : Prop := {
  sends_same : same_flow s s';
  sends_out : out_ s' = out_ s ++ (Sent <$> ps);
  sends_contiguous : contiguous (highest_seqno_sent_ s) ps (highest_seqno_sent_ s');
  sends_window : (highest_seqno_sent_ s' <= Z.max (highest_seqno_sent_ s) (last_acked_ s + cwnd_ s))%Z;
  sends_buffer : (send_buffer_ s' + highest_seqno_sent_ s' = send_buffer_ s + highest_seqno_sent_ s)%Z;
  sends_nonneg : (0 <= send_buffer_ s')%Z;
  sends_real : (highest_seqno_sent_real_ s' - highest_seqno_sent_ s' =
                highest_seqno_sent_real_ s - highest_seqno_sent_ s)%Z;
  sends_packets : Forall (λ p, (size_bytes p <= mss_ s)%Z /\ time_sent p = now) ps;
  sends_first : first_sent_time_ s' =
    (if (highest_seqno_sent_ s =? 0)%Z && negb (bool_decide (ps = [])) then now else first_sent_time_ s);
  sends_end : send_buffer_ s' = 0%Z \/ (last_acked_ s' + cwnd_ s' < highest_seqno_sent_ s' + mss_ s')%Z
}.

(** Numbers that do not wrap around. *)
Record bounded_flow (s : t) : Prop := {
  bf_mss : (0 < mss_ s)%Z;
  bf_acked : (0 <= last_acked_ s)%Z;
  bf_cwnd : (0 <= cwnd_ s)%Z;
  bf_window : (last_acked_ s + cwnd_ s < 2 ^ 64)%Z;
  bf_highest : (0 <= highest_seqno_sent_ s)%Z;
  bf_buffer : (0 <= send_buffer_ s)%Z;
  bf_total : (highest_seqno_sent_ s + send_buffer_ s + mss_ s < 2 ^ 64)%Z;
  bf_real : (0 <= highest_seqno_sent_real_ s)%Z;
  bf_real_total : (highest_seqno_sent_real_ s + send_buffer_ s < 2 ^ 64)%Z
}.

(** One round of the loop. *)
Definition next_segment (now : Z) (s : t) : packet :=
  mkPacket (Z.min (mss_ s) (send_buffer_ s)) now (highest_seqno_sent_ s + 1) kDefaultTag.
Definition after_segment (now : Z) (s : t) : t :=
  let s1 := if (highest_seqno_sent_ s =? 0)%Z then set_first_sent_time s now else s in
  let to_tx := Z.min (mss_ s) (send_buffer_ s) in
  SendPacket (set_last_sent_time (set_highest_real (set_highest (set_send_buffer s1
    (send_buffer_ s - to_tx)) (highest_seqno_sent_ s + to_tx)) (highest_seqno_sent_real_ s + to_tx)) now)
    (next_segment now s).

Lemma send_loop_round fuel now s :
  bounded_flow s ->
  send_loop (S fuel) now s =
    if (last_acked_ s + cwnd_ s <? highest_seqno_sent_ s + mss_ s)%Z then Ok s
    else if (send_buffer_ s =? 0)%Z then Ok s
    else send_loop fuel now (after_segment now s).
Proof.
  intros [Hm Ha Hc Hw Hh Hbuf Ht Hr Hrt]. cbn [send_loop]. unfold u64.
  rewrite (wrap_id 64 (last_acked_ s + cwnd_ s)), (wrap_id 64 (highest_seqno_sent_ s + mss_ s)) by lia.
  destruct (last_acked_ s + cwnd_ s <? highest_seqno_sent_ s + mss_ s)%Z; [done|].
  destruct (Z.eqb_spec (send_buffer_ s) 0) as [|Hz]; [done|].
  assert (Hm1 : forall b, mss_ (if b : bool then set_first_sent_time s now else s) = mss_ s) by by intros [].
  assert (Hb1 : forall b, send_buffer_ (if b : bool then set_first_sent_time s now else s) = send_buffer_ s)
    by by intros [].
  assert (Hh1 : forall b, highest_seqno_sent_ (if b : bool then set_first_sent_time s now else s) =
    highest_seqno_sent_ s) by by intros [].
  assert (Hr1 : forall b, highest_seqno_sent_real_ (if b : bool then set_first_sent_time s now else s) =
    highest_seqno_sent_real_ s) by by intros [].
  rewrite Hm1, Hb1, Hh1. unfold new_packet. rewrite (proj2 (Z.ltb_lt _ _)) by lia.
  cbn [check mbind outcome_bind set_highest set_send_buffer highest_seqno_sent_ highest_seqno_sent_real_].
  rewrite Hh1, Hr1, !wrap_id by lia. done.
Qed.

Lemma after_segment_bounded now s :
  bounded_flow s -> send_buffer_ s <> 0%Z -> bounded_flow (after_segment now s).
Proof.
  intros [Hm Ha Hc Hw Hh Hbuf Ht Hr Hrt] Hz. unfold after_segment.
  destruct (highest_seqno_sent_ s =? 0)%Z; split; cbn; unfold mss_ in *; cbn; lia.
Qed.

Lemma sends_nil now s :
  (0 <= send_buffer_ s)%Z ->
  send_buffer_ s = 0%Z \/ (last_acked_ s + cwnd_ s < highest_seqno_sent_ s + mss_ s)%Z ->
  sends now s s [].
Proof.
  intros H0 Hend. split; [by split|by rewrite app_nil_r|done|lia|done|done|done|done| |done].
  by rewrite andb_false_r.
Qed.

Lemma sends_cons now s s' ps :
  bounded_flow s -> (highest_seqno_sent_ s + mss_ s <= last_acked_ s + cwnd_ s)%Z ->
  send_buffer_ s <> 0%Z -> sends now (after_segment now s) s' ps ->
  sends now s s' (next_segment now s :: ps).
Proof.
  intros [Hm Ha Hc Hw Hh Hbuf Ht Hr Hrt] Hwin Hz [Hsame Hout Hcont Hwd Hbf Hnn Hre Hps Hfi Hen].
  assert (Hsf : same_flow s (after_segment now s)).
  { unfold after_segment. destruct (highest_seqno_sent_ s =? 0)%Z; by split. }
  assert (Ho : out_ (after_segment now s) = out_ s ++ [Sent (next_segment now s)]).
  { unfold after_segment. by destruct (highest_seqno_sent_ s =? 0)%Z. }
  assert (Hh1 : highest_seqno_sent_ (after_segment now s) =
    (highest_seqno_sent_ s + Z.min (mss_ s) (send_buffer_ s))%Z).
  { unfold after_segment. by destruct (highest_seqno_sent_ s =? 0)%Z. }
  assert (Hb1 : send_buffer_ (after_segment now s) = (send_buffer_ s - Z.min (mss_ s) (send_buffer_ s))%Z).
  { unfold after_segment. by destruct (highest_seqno_sent_ s =? 0)%Z. }
  assert (Hr1 : highest_seqno_sent_real_ (after_segment now s) =
    (highest_seqno_sent_real_ s + Z.min (mss_ s) (send_buffer_ s))%Z).
  { unfold after_segment. by destruct (highest_seqno_sent_ s =? 0)%Z. }
  assert (Hf1 : first_sent_time_ (after_segment now s) =
    if (highest_seqno_sent_ s =? 0)%Z then now else first_sent_time_ s).
  { unfold after_segment. by destruct (highest_seqno_sent_ s =? 0)%Z. }
  assert (Hmss : mss_ (after_segment now s) = mss_ s).
  { unfold mss_. by rewrite (sf_config _ _ Hsf). }
  pose proof (sf_acked _ _ Hsf) as Hacc. pose proof (sf_cwnd _ _ Hsf) as Hcw.
  rewrite Hh1 in *. rewrite Hb1 in *. rewrite Hr1 in *. rewrite Hf1 in *. rewrite Hmss, ?Hacc, ?Hcw in *.
  split; [by etrans| | |lia|lia|done|lia| | |done].
  - by rewrite Hout, Ho, <-app_assoc.
  - cbn [contiguous next_segment sequence size_bytes]. split_and!; [done|lia|done].
  - constructor; [|done]. cbn. split; [lia|done].
  - rewrite Hfi. rewrite (proj2 (Z.eqb_neq _ _)) by lia. cbn [andb].
    by destruct (highest_seqno_sent_ s =? 0)%Z.
Qed.

Lemma send_loop_spec now fuel : forall s,
  bounded_flow s -> ((last_acked_ s + cwnd_ s - highest_seqno_sent_ s) / mss_ s < Z.of_nat fuel)%Z ->
  exists s' ps, send_loop (S fuel) now s = Ok s' /\ sends now s s' ps.
Proof.
  induction fuel as [|fuel IH]; intros s Hb Hf.
  all: rewrite send_loop_round by done.
  all: destruct (Z.ltb_spec (last_acked_ s + cwnd_ s) (highest_seqno_sent_ s + mss_ s)) as [Hlt|Hge];
    [exists s, []; split; [done|]; apply sends_nil; [apply Hb|auto]|].
  all: destruct (Z.eqb_spec (send_buffer_ s) 0) as [Hz|Hz];
    [exists s, []; split; [done|]; apply sends_nil; [apply Hb|auto]|].
  all: pose proof (bf_mss _ Hb) as Hm.
  - exfalso. assert (1 <= (last_acked_ s + cwnd_ s - highest_seqno_sent_ s) / mss_ s)%Z; [|lia].
    apply Z.div_le_lower_bound; lia.
  - pose proof (after_segment_bounded now s Hb Hz) as Hb'.
    destruct (decide (send_buffer_ s <= mss_ s)%Z) as [Hlast|Hmore].
    + exists (after_segment now s), [next_segment now s]. split; [|apply sends_cons; try done].
      * rewrite send_loop_round by done.
        assert (Hz' : send_buffer_ (after_segment now s) = 0%Z).
        { unfold after_segment. destruct (highest_seqno_sent_ s =? 0)%Z; cbn; lia. }
        rewrite Hz'. by destruct (_ <? _)%Z.
      * apply sends_nil; [apply Hb'|]. left.
        unfold after_segment. destruct (highest_seqno_sent_ s =? 0)%Z; cbn; lia.
    + destruct (IH (after_segment now s) Hb') as (s' & ps & -> & Hs).
      * assert ((last_acked_ (after_segment now s) + cwnd_ (after_segment now s) -
            highest_seqno_sent_ (after_segment now s) =
          last_acked_ s + cwnd_ s - highest_seqno_sent_ s + (-1) * mss_ s)%Z /\
          mss_ (after_segment now s) = mss_ s) as [-> ->].
        { unfold after_segment. destruct (highest_seqno_sent_ s =? 0)%Z; cbn; split; try done; lia. }
        rewrite Z.div_add by lia. lia.
      * exists s', (next_segment now s :: ps). split; [done|]. by apply sends_cons.
Qed.

(** ** The fields keep their widths, the timeout its range *)

Record wf (s : t) : Prop := {
  wf_mss : (0 < mss_ s < 2 ^ 16)%Z;
  wf_maxcwnd : (0 <= maxcwnd (config s) < 2 ^ 32)%Z;
  wf_cwnd : (0 <= cwnd_ s < 2 ^ 32)%Z;
  wf_ssthresh : (2 * mss_ s <= ssthresh_ s < 2 ^ 32)%Z;
  wf_acked : (0 <= last_acked_ s < 2 ^ 64)%Z;
  wf_highest : (0 <= highest_seqno_sent_ s < 2 ^ 64)%Z;
  wf_real : (0 <= highest_seqno_sent_real_ s < 2 ^ 64)%Z;
  wf_buffer : (0 <= send_buffer_ s < 2 ^ 64)%Z;
  wf_dupacks : (0 <= dupacks_ s < 2 ^ 16)%Z;
  wf_pending : (0 <= pending_add_ s < 2 ^ 64)%Z;
  wf_rto : (milliseconds 200 <= rto_ (timing_ s) <= seconds 5)%Z
}.

Lemma u64_range x : (0 <= u64 x < 2 ^ 64)%Z.
Proof. by apply wrap_bound. Qed.
Lemma u32_range x : (0 <= u32 x < 2 ^ 32)%Z.
Proof. by apply wrap_bound. Qed.
Lemma u16_range x : (0 <= u16 x < 2 ^ 16)%Z.
Proof. by apply wrap_bound. Qed.

Create HintDb tcp.
#[export] Hint Resolve u64_range u32_range u16_range : tcp.

(** Assignments that keep the invariant. *)
Lemma wf_set_last_sent_time s x : wf s -> wf (set_last_sent_time s x).
Proof. intros []. by split. Qed.
Lemma wf_set_first_sent_time s x : wf s -> wf (set_first_sent_time s x).
Proof. intros []. by split. Qed.
Lemma wf_set_original s x : wf s -> wf (set_original_first_sent_time s x).
Proof. intros []. by split. Qed.
Lemma wf_set_stats s x : wf s -> wf (set_stats s x).
Proof. intros []. by split. Qed.
Lemma wf_emit s x : wf s -> wf (emit s x).
Proof. intros []. by split. Qed.
Lemma wf_drained s x : wf s -> wf (OnSendBufferDrained s x).
Proof. intros []. by split. Qed.
Lemma wf_set_recovery s x b : wf s -> wf (set_recovery s x b).
Proof. intros []. by split. Qed.
Lemma wf_set_cwnd s x : wf s -> (0 <= x < 2 ^ 32)%Z -> wf (set_cwnd s x).
Proof. intros [] ?. by split. Qed.
Lemma wf_set_ssthresh s x : wf s -> (2 * mss_ s <= x < 2 ^ 32)%Z -> wf (set_ssthresh s x).
Proof. intros [] ?. by split. Qed.
Lemma wf_set_last_acked s x : wf s -> (0 <= x < 2 ^ 64)%Z -> wf (set_last_acked s x).
Proof. intros [] ?. by split. Qed.
Lemma wf_set_highest s x : wf s -> (0 <= x < 2 ^ 64)%Z -> wf (set_highest s x).
Proof. intros [] ?. by split. Qed.
Lemma wf_set_highest_real s x : wf s -> (0 <= x < 2 ^ 64)%Z -> wf (set_highest_real s x).
Proof. intros [] ?. by split. Qed.
Lemma wf_set_send_buffer s x : wf s -> (0 <= x < 2 ^ 64)%Z -> wf (set_send_buffer s x).
Proof. intros [] ?. by split. Qed.
Lemma wf_set_dupacks s x : wf s -> (0 <= x < 2 ^ 16)%Z -> wf (set_dupacks s x).
Proof. intros [] ?. by split. Qed.
Lemma wf_set_pending s x : wf s -> (0 <= x < 2 ^ 64)%Z -> wf (set_pending_add s x).
Proof. intros [] ?. by split. Qed.
Lemma wf_set_timing s x :
  wf s -> (milliseconds 200 <= rto_ x <= seconds 5)%Z -> wf (set_timing s x).
Proof. intros [] ?. by split. Qed.
#[export] Hint Resolve wf_set_last_sent_time wf_set_first_sent_time wf_set_original wf_set_stats
  wf_emit wf_drained wf_set_recovery wf_set_cwnd wf_set_ssthresh wf_set_last_acked wf_set_highest
  wf_set_highest_real wf_set_send_buffer wf_set_dupacks wf_set_pending wf_set_timing : tcp.

Lemma wf_Close s : wf s -> wf (Close s).
Proof.
  intros [H1 H2 _ _ _ _ _ _ _ H3 _]. split; try done; cbn; unfold mss_, umax in *; cbn; lia.
Qed.

Lemma wf_SendPacket s p : wf s -> wf (SendPacket s p).
Proof. unfold SendPacket. auto with tcp. Qed.
#[export] Hint Resolve wf_Close wf_SendPacket : tcp.

Lemma wf_RetransmitPacket now s s' : wf s -> RetransmitPacket now s = Ok s' -> wf s' /\ mss_ s' = mss_ s.
Proof.
  intros Hw H. apply bind_Ok in H as (p & _ & [= <-]). auto with tcp.
Qed.

Lemma wf_InflateWindow s s' : wf s -> InflateWindow s = Ok s' -> wf s'.
Proof.
  intros Hw. pose proof Hw as []. unfold InflateWindow.
  set (newly := if (mss_ s <? _)%Z then _ else _).
  destruct (Z.ltb_spec newly 0); [by intros [= <-]|].
  destruct (Z.ltb_spec (cwnd_ s) (ssthresh_ s)).
  { intros [= <-]. apply wf_set_cwnd; [done|].
    destruct (maxcwnd (config s) <? _)%Z; [done|apply u32_range]. }
  destruct (_ || _); [done|]. destruct (_ <=? _)%Z; [done|].
  case_decide; [intros [= <-]; auto with tcp|].
  match goal with |- context [(sawtooth_ ?ti =? ?n)%Z] => destruct (sawtooth_ ti =? n)%Z end; [done|]. intros [= <-]. apply wf_set_timing; [auto with tcp|]. done.
Qed.

Lemma wf_send_loop now fuel : forall s s', wf s -> send_loop fuel now s = Ok s' -> wf s'.
Proof.
  induction fuel as [|fuel IH]; intros s s' Hw; cbn [send_loop].
  { destruct (_ <? _)%Z; [by intros [= <-]|]. destruct (_ =? _)%Z; [by intros [= <-]|done]. }
  destruct (_ <? _)%Z; [by intros [= <-]|]. destruct (Z.eqb_spec (send_buffer_ s) 0); [by intros [= <-]|].
  set (s1 := if (highest_seqno_sent_ s =? 0)%Z then _ else _).
  assert (Hw1 : wf s1) by (unfold s1; destruct (_ =? _)%Z; auto with tcp).
  intros (p & _ & H)%bind_Ok. apply IH in H; [done|]. pose proof Hw1 as [].
  apply wf_SendPacket, wf_set_last_sent_time, wf_set_highest_real; [|auto with tcp].
  apply wf_set_highest; [|auto with tcp]. apply wf_set_send_buffer; [done|lia].
Qed.

Lemma wf_add_data (SP : t -> outcome t) s bytes s' :
  (forall s s', wf s -> SP s = Ok s' -> wf s') ->
  wf s -> (0 <= bytes < 2 ^ 64)%Z -> add_data SP s bytes = Ok s' -> wf s'.
Proof.
  intros HSP Hw Hb. unfold add_data.
  set (s1 := if (send_buffer_ s <? mss_ s)%Z then Close s else s).
  assert (Hw1 : wf s1) by (unfold s1; destruct (_ <? _)%Z; auto with tcp). clearbody s1.
  destruct (if (cwnd_ s1 =? 0)%Z then _ else _) as [s2 bytes2] eqn:Hs2.
  assert (Hw2 : wf s2 /\ (0 <= bytes2 < 2 ^ 64)%Z).
  { destruct (cwnd_ s1 =? 0)%Z; [|by injection Hs2 as <- <-].
    destruct (simulate_initial_handshake (config s1) && (pending_add_ s1 =? 0)%Z);
      injection Hs2 as <- <-; (split; [auto 6 with tcp|lia]). }
  destruct Hw2 as [Hw2 Hb2]. intros H. apply HSP in H; [done|].
  destruct (_ <? _)%Z; (apply wf_set_send_buffer; [done|]); [done|apply u64_range].
Qed.

Lemma wf_data_transferred (AD : t -> Z -> outcome t) now s s' :
  (forall s b s', wf s -> (0 <= b < 2 ^ 64)%Z -> AD s b = Ok s' -> wf s') ->
  wf s -> data_transferred AD now s = Ok s' -> wf s'.
Proof.
  intros HAD Hw. pose proof Hw as []. unfold data_transferred.
  destruct (_ && _).
  { intros (s2 & H & [= <-])%bind_Ok. apply wf_set_pending; [|done].
    apply HAD in H; auto with tcp. }
  destruct (negb _); [by intros [= <-]|].
  intros (s1 & H & [= <-])%bind_Ok. apply wf_drained, wf_emit.
  destruct (completion_times_callback_ s); [|by injection H as <-].
  apply bind_Ok in H as (x & _ & [= <-]). auto with tcp.
Qed.

Lemma wf_send_packets depth now : forall s s', wf s -> send_packets depth now s = Ok s' -> wf s'.
Proof.
  induction depth as [|depth IH]; intros s s' Hw; [done|]. cbn [send_packets].
  destruct (_ && _); [|by apply wf_send_loop].
  apply wf_data_transferred; [|done]. intros ???. by apply wf_add_data.
Qed.

Lemma wf_AddData now s bytes s' :
  wf s -> (0 <= bytes < 2 ^ 64)%Z -> AddData now s bytes = Ok s' -> wf s'.
Proof. apply wf_add_data. intros ??. apply wf_send_packets. Qed.

Lemma rto_in_range ti :
  (milliseconds 200 <= rto_ (update_rto ti) <= seconds 5)%Z.
Proof.
  unfold update_rto. cbn [rto_]. set (rto := u64 _).
  change (milliseconds 200) with 200000000000%Z. change (seconds 5) with 5000000000000%Z.
  change (seconds 2) with 2000000000000%Z. destruct (Z.ltb_spec rto 200000000000); [done|].
  destruct (Z.ltb_spec 5000000000000 rto); lia.
Qed.

Lemma wf_end_sawtooth s : wf s -> wf (end_sawtooth s).
Proof. intros Hw. apply wf_set_timing; [done|]. by destruct Hw. Qed.
#[export] Hint Resolve wf_end_sawtooth : tcp.

Lemma wf_loss_ssthresh s : wf s -> wf (set_ssthresh s (Z.max (cwnd_ s / 2) (2 * mss_ s))).
Proof.
  intros Hw. apply wf_set_ssthresh; [done|]. destruct Hw.
  pose proof (Z.div_le_upper_bound (cwnd_ s) 2 (2 ^ 31)). lia.
Qed.
#[export] Hint Resolve wf_loss_ssthresh : tcp.

Lemma wf_SendPackets now s s' : wf s -> SendPackets now s = Ok s' -> wf s'.
Proof. apply wf_send_packets. Qed.

Lemma wf_new_ack now s seqno s' :
  wf s -> (0 <= seqno < 2 ^ 64)%Z -> new_ack now s seqno = Ok s' -> wf s'.
Proof.
  intros Hw Hq. pose proof Hw as []. unfold new_ack. destruct (negb _).
  { intros (s1 & H1 & H2)%bind_Ok. eapply wf_SendPackets, H2. eapply wf_InflateWindow, H1.
    apply wf_set_dupacks; [auto with tcp|lia]. }
  destruct (recoverq_ s <=? seqno)%Z.
  { apply wf_SendPackets, wf_set_recovery, wf_set_dupacks; [|lia]. apply wf_set_last_acked; [|done].
    apply wf_set_cwnd; [done|]. pose proof (u32_range (u32 (highest_seqno_sent_ s - seqno) + mss_ s)). lia. }
  intros (s4 & H4 & H)%bind_Ok. eapply wf_SendPackets, H. apply wf_emit.
  eapply wf_RetransmitPacket, H4. apply wf_set_cwnd; [|apply u32_range]. apply wf_set_cwnd; [auto with tcp|].
  pose proof (u32_range (seqno - last_acked_ s)). cbn [set_last_acked cwnd_].
  destruct (Z.ltb_spec (u32 (seqno - last_acked_ s)) (cwnd_ s)); lia.
Qed.

Lemma wf_dup_ack now s s' : wf s -> dup_ack now s = Ok s' -> wf s'.
Proof.
  intros Hw. pose proof Hw as []. unfold dup_ack. destruct (in_fast_recovery_ s).
  { apply wf_SendPackets, wf_set_cwnd; [done|].
    destruct (maxcwnd (config s) <? _)%Z; [done|apply u32_range]. }
  set (s1 := set_dupacks s _). assert (Hw1 : wf s1) by (unfold s1; auto with tcp). clearbody s1.
  destruct (negb _); [by apply wf_SendPackets|]. destruct (_ <? _)%Z; [by intros [= <-]|].
  intros (s3 & H3 & [= <-])%bind_Ok. apply wf_set_recovery, wf_set_cwnd; [|apply u32_range].
  apply wf_emit. eapply wf_RetransmitPacket, H3. auto with tcp.
Qed.

Lemma wf_ReceivePacket now s pkt s' :
  wf s -> (0 <= sequence pkt < 2 ^ 64)%Z -> ReceivePacket now s pkt = Ok s' -> wf s'.
Proof.
  intros Hw Hq. pose proof Hw as []. unfold ReceivePacket. destruct (_ <? _)%Z; [by intros [= <-]|].
  intros (m & _ & H)%bind_Ok.
  set (s1 := set_timing s _) in H. assert (Hw1 : wf s1) by (apply wf_set_timing, rto_in_range; done).
  set (seqno := if (sequence pkt <? _)%Z then _ else _) in H.
  assert (Hs : (0 <= seqno < 2 ^ 64)%Z) by (unfold seqno; by destruct (_ <? _)%Z).
  destruct (last_acked_ s1 <? seqno)%Z; [by eapply wf_new_ack, H|by eapply wf_dup_ack, H].
Qed.

Lemma wf_RtxTimerHook now s s' : wf s -> RtxTimerHook now s = Ok s' -> wf s'.
Proof.
  intros Hw. unfold RtxTimerHook. destruct (_ =? _)%Z; [by intros [= <-]|].
  destruct (_ <=? _)%Z.
  { apply wf_data_transferred; [|done]. intros ???. apply wf_AddData. }
  destruct (_ <=? _)%Z; [by intros [= <-]|].
  set (s1 := if in_fast_recovery_ s then _ else s).
  assert (Hw1 : wf s1).
  { unfold s1. destruct (in_fast_recovery_ s); [|done]. apply wf_set_cwnd; [done|]. pose proof Hw as [].
    pose proof (u32_range (u32 (highest_seqno_sent_ s - last_acked_ s) + mss_ s)). lia. }
  clearbody s1. set (s2 := end_sawtooth _). assert (Hw2 : wf s2) by (unfold s2; auto with tcp).
  clearbody s2. pose proof Hw2 as []. intros (s5 & H & [= <-])%bind_Ok. apply wf_emit.
  eapply wf_RetransmitPacket, H. apply wf_set_dupacks; [|lia].
  apply wf_set_highest; [|apply u64_range]. apply wf_set_recovery, wf_set_cwnd; [done|lia].
Qed.

(** A source in use: created, then driven by its owner, the network and the
    timer. *)
Inductive source_reach (c : TCPSourceConfig) : t -> Prop :=
| source_new : source_reach c (construct c)
| source_callbacks s d k : source_reach c s ->
    source_reach c (set_completion_times_callback (OnSendBufferDrained s d) k)
| source_add now s bytes s' : source_reach c s -> (0 <= bytes < 2 ^ 64)%Z ->
    AddData now s bytes = Ok s' -> source_reach c s'
| source_close s : source_reach c s -> source_reach c (Close s)
| source_packet now s pkt s' : source_reach c s -> (0 <= sequence pkt < 2 ^ 64)%Z ->
    HandlePacket now s pkt = Ok s' -> source_reach c s'
| source_timer now s s' : source_reach c s -> RtxTimerHook now s = Ok s' -> source_reach c s'.

Definition good_config (c : TCPSourceConfig) : Prop :=
  (0 < mss c < 2 ^ 16)%Z /\ (0 <= maxcwnd c < 2 ^ 32)%Z.

Lemma source_reach_wf c s : good_config c -> source_reach c s -> wf s.
Proof.
  intros [Hm Hc]. induction 1 as [|s d k _ IH|now s b s' _ IH Hb H|s _ IH|now s p s' _ IH Hp H|now s s' _ IH H].
  - unfold construct. split; cbn; unfold mss_, umax; cbn; try lia; done.
  - destruct IH. by split.
  - by eapply wf_AddData.
  - by apply wf_Close.
  - eapply wf_ReceivePacket, H; [|done]. by apply wf_set_stats.
  - by eapply wf_RtxTimerHook.
Qed.

(** ** A transfer over a network that loses and reorders nothing *)

Definition new_packets (before after : list output) : list packet :=
  packets (drop (length before) after).

Record system := mkSystem {
  clock : Z;
  source : TCPSource.t;
  sink : TCPSink.t;
  data : list packet;
  acks : list packet
}.

(** A delivery: the network, which keeps the packets of a direction in order
    and loses none, hands over the next data packet or the next
    acknowledgement, after any time. *)
Inductive step : system -> system -> Prop :=
| step_data sys now p rest sink' :
    (clock sys <= now)%Z -> data sys = p :: rest -> TCPSink.HandlePacket (sink sys) p = Ok sink' ->
    step sys (mkSystem now (source sys) sink' rest
      (acks sys ++ new_packets (TCPSink.out_ (sink sys)) (TCPSink.out_ sink')))
| step_ack sys now p rest source' :
    (clock sys <= now)%Z -> acks sys = p :: rest -> HandlePacket now (source sys) p = Ok source' ->
    step sys (mkSystem now source' (sink sys)
      (data sys ++ new_packets (out_ (source sys)) (out_ source')) rest).

(** The retransmission timeout of the outstanding data has not passed. *)
Definition on_time (now : Z) (s : TCPSource.t) : Prop :=
  (highest_seqno_sent_real_ s <= last_acked_ s)%Z \/
  (now <= u64 (last_sent_time_ s + rto_ (timing_ s)))%Z.

(** [run sys0 k sys]: [k] deliveries, in any interleaving, lead from [sys0] to
    [sys]; between them the timer looks at the source any number of times, but
    never after the retransmission timeout has passed. *)
Inductive run (sys0 : system) : nat -> system -> Prop :=
| run_start : run sys0 0 sys0
| run_step k sys sys' : run sys0 k sys -> step sys sys' -> run sys0 (S k) sys'
| run_timer k sys now source' : run sys0 k sys -> (clock sys <= now)%Z -> on_time now (source sys) ->
    RtxTimerHook now (source sys) = Ok source' ->
    run sys0 k (mkSystem now source' (sink sys)
      (data sys ++ new_packets (out_ (source sys)) (out_ source')) (acks sys)).

Definition start (c : TCPSourceConfig) (now N : Z) : outcome system :=
  s ← AddData now (OnSendBufferDrained (construct c) true) N;
  Ok (mkSystem now s TCPSink.init (packets (out_ s)) []).

(** Acknowledgements that grow from [from] to [upto]. *)
Fixpoint ack_chain (from : Z) (l : list packet) (upto : Z) : Prop :=
  match l with
  | [] => from = upto
  | a :: l' => (from < sequence a)%Z /\ ack_chain (sequence a) l' upto
  end.

Lemma ack_chain_snoc from l mid a :
  ack_chain from l mid -> (mid < sequence a)%Z -> ack_chain from (l ++ [a]) (sequence a).
Proof.
  revert from. induction l as [|b l IH]; intros from; cbn [ack_chain app]; [by intros ->|].
  intros [? ?] ?. split; [done|]. by apply IH.
Qed.

Lemma ack_chain_le from l upto : ack_chain from l upto -> (from <= upto)%Z.
Proof. revert from. induction l as [|a l IH]; intros from; cbn [ack_chain]; [lia|]. intros [? ?%IH]. lia. Qed.

Lemma packets_Sent ps : packets (Sent <$> ps) = ps.
Proof. unfold packets. induction ps as [|p ps IH]; [done|]. cbn. f_equal. exact IH. Qed.

Lemma packets_app l1 l2 : packets (l1 ++ l2) = packets l1 ++ packets l2.
Proof. apply omap_app. Qed.

Lemma new_packets_app before l : new_packets before (before ++ l) = packets l.
Proof. unfold new_packets. by rewrite drop_app_length. Qed.

(** The sink takes the next segment and acknowledges it. *)
Lemma sink_in_order s p :
  TCPSink.received_ s = [] -> (0 <= TCPSink.cumulative_ack_ s)%Z ->
  sequence p = (TCPSink.cumulative_ack_ s + 1)%Z -> (0 < size_bytes p)%Z ->
  (TCPSink.cumulative_ack_ s + size_bytes p < 2 ^ 64)%Z ->
  exists s' a, TCPSink.HandlePacket s p = Ok s' /\ TCPSink.received_ s' = [] /\
    TCPSink.cumulative_ack_ s' = (TCPSink.cumulative_ack_ s + size_bytes p)%Z /\
    new_packets (TCPSink.out_ s) (TCPSink.out_ s') = [a] /\
    sequence a = TCPSink.cumulative_ack_ s' /\ time_sent a = time_sent p.
Proof.
  intros Hr H0 Hseq Hsz Hmax. unfold TCPSink.HandlePacket, TCPSink.ReceivePacket.
  set (s0 := TCPSink.mk _ _ _ _ _ _).
  set (s1 := if (sequence p =? 1)%Z then TCPSink.Reset s0 else s0).
  assert (H1 : TCPSink.received_ s1 = [] /\ TCPSink.cumulative_ack_ s1 = TCPSink.cumulative_ack_ s /\
    TCPSink.out_ s1 = TCPSink.out_ s).
  { unfold s1. destruct (Z.eqb_spec (sequence p) 1); [|done]. cbn. split_and!; [done|lia|done]. }
  clearbody s1. destruct H1 as (Hr1 & Ha1 & Ho1).
  set (s2 := TCPSink.see_tag s1 (tag p)).
  assert (H2 : TCPSink.received_ s2 = [] /\ TCPSink.cumulative_ack_ s2 = TCPSink.cumulative_ack_ s /\
    exists l, TCPSink.out_ s2 = TCPSink.out_ s ++ l /\ packets l = []).
  { unfold s2, TCPSink.see_tag. case_decide.
    - split_and!; [done..|]. exists []. by rewrite Ho1, app_nil_r.
    - cbn. split_and!; [done..|]. eexists. by rewrite Ho1. }
  clearbody s2. destruct H2 as (Hr2 & Ha2 & l & Ho2 & Hl). rewrite Hr2, Ha2, Hseq.
  unfold u64. rewrite !wrap_id by lia. rewrite Z.eqb_refl. cbn [TCPSink.ack_stored].
  unfold TCPSink.SendAck. cbn [TCPSink.cumulative_ack_ TCPSink.received_ TCPSink.out_ TCPSink.stats_
    TCPSink.last_seen_incoming_tag_ TCPSink.tag_change_count_].
  eexists _, (mkPacket TCPSink.kAckSize (time_sent p) _ kDefaultTag). split; [done|].
  cbn [TCPSink.cumulative_ack_ TCPSink.received_ TCPSink.out_ sequence time_sent].
  split_and!; [done|lia| |reflexivity|done].
  rewrite Ho2, <-app_assoc, new_packets_app, packets_app, Hl. done.
Qed.

Lemma SendPackets_sends now s :
  bounded_flow s -> (last_acked_ s < highest_seqno_sent_real_ s)%Z \/ send_buffer_ s <> 0%Z ->
  exists s' ps, SendPackets now s = Ok s' /\ sends now s s' ps.
Proof.
  intros Hb Hwork. unfold SendPackets. cbn [send_packets].
  assert ((highest_seqno_sent_real_ s <=? last_acked_ s)%Z && (send_buffer_ s =? 0)%Z = false) as ->.
  { apply andb_false_iff. rewrite Z.leb_gt, Z.eqb_neq. tauto. }
  destruct (send_loop_spec now (S (Z.to_nat ((last_acked_ s + cwnd_ s - highest_seqno_sent_ s) / mss_ s))) s Hb)
    as (s' & ps & H & Hs); [lia|]. eauto.
Qed.

(** In slow start the window only grows, up to its maximum. *)
Lemma InflateWindow_slow_start s :
  (0 < mss_ s)%Z -> (mss_ s <= maxcwnd (config s) < umax 32)%Z -> (mss_ s <= cwnd_ s < umax 32)%Z ->
  ssthresh_ s = umax 32 ->
  exists x, InflateWindow s = Ok (set_cwnd s x) /\ (mss_ s <= x < umax 32)%Z.
Proof.
  intros Hm Hmax Hc Hs. unfold InflateWindow. set (newly := if (mss_ s <? _)%Z then _ else _).
  destruct (Z.ltb_spec newly 0).
  { exists (cwnd_ s). split; [by destruct s|done]. }
  rewrite Hs, (proj2 (Z.ltb_lt _ _)) by lia. eexists. split; [done|].
  unfold u32. unfold umax in *. rewrite wrap_id by lia.
  destruct (Z.ltb_spec (maxcwnd (config s)) (cwnd_ s + Z.min (2 ^ 32 - 1 - cwnd_ s) newly)); lia.
Qed.

Section lossless.
Context (c : TCPSourceConfig) (N : Z).
Hypothesis Hmss : (0 < mss c < 2 ^ 16)%Z.
Hypothesis Hmaxcwnd : (mss c <= maxcwnd c < umax 32)%Z.
Hypothesis Hinitial : (0 < inital_cwnd_size c)%Z.
Hypothesis Hinitial_max : (inital_cwnd_size c * mss c < umax 32)%Z.
Hypothesis Hhandshake : simulate_initial_handshake c = false.
Hypothesis HN : (0 < N < 2 ^ 63)%Z.

(** A source that has seen no loss. *)
Record smooth (s : t) : Prop := {
  sm_config : config s = c;
  sm_recovery : in_fast_recovery_ s = false;
  sm_ssthresh : ssthresh_ s = umax 32;
  sm_cwnd : (mss c <= cwnd_ s < umax 32)%Z;
  sm_acked : (0 <= last_acked_ s <= highest_seqno_sent_ s)%Z;
  sm_buffer : (0 <= send_buffer_ s)%Z;
  sm_total : (highest_seqno_sent_ s + send_buffer_ s = N)%Z;
  sm_real : highest_seqno_sent_real_ s = highest_seqno_sent_ s
}.

Lemma smooth_bounded s : smooth s -> bounded_flow s.
Proof using Hmss HN.
  intros [H1 H2 H3 H4 H5 H6 H7 H8]. unfold umax in *.
  split; unfold mss_; rewrite ?H1, ?H8; lia.
Qed.

(** The data is on its way, or all of it has been acknowledged and the owner
    has been told. *)
Definition underway (s : t) : Prop :=
  ((last_acked_ s < highest_seqno_sent_ s)%Z /\ on_send_buffer_drained_ s = true) \/
  (last_acked_ s = N /\ send_buffer_ s = 0%Z /\ SendBufferDrained ∈ out_ s /\ on_send_buffer_drained_ s = false).

Lemma sends_smooth now s s' ps :
  smooth s -> sends now s s' ps -> smooth s' /\ contiguous (highest_seqno_sent_ s) ps (highest_seqno_sent_ s') /\
    (on_send_buffer_drained_ s = true -> (last_acked_ s < highest_seqno_sent_ s)%Z \/ send_buffer_ s <> 0%Z ->
     underway s').
Proof using Hmss.
  intros [H1 H2 H3 H4 H5 H6 H7 H8] [Hsame Hout Hcont Hwin Hbuf Hnn Hreal Hps Hfirst Hend].
  pose proof (contiguous_le _ _ _ Hcont). pose proof Hsame as [].
  split_and!; [split; rewrite ?sf_cwnd0; try congruence; lia|done|].
  - intros Hd Hwork. left. split; [|congruence]. unfold mss_ in Hend. rewrite sf_config0, H1 in Hend.
    destruct Hend as [Hz|Hlt]; [|lia]. rewrite Hz in Hbuf. destruct Hwork; lia.
Qed.

Lemma source_ack now s a :
  smooth s -> on_send_buffer_drained_ s = true -> (first_sent_time_ s <= time_sent a <= now)%Z ->
  (last_acked_ s < sequence a <= highest_seqno_sent_ s)%Z ->
  exists s' ps, HandlePacket now s a = Ok s' /\ smooth s' /\ last_acked_ s' = sequence a /\
    new_packets (out_ s) (out_ s') = ps /\
    contiguous (highest_seqno_sent_ s) ps (highest_seqno_sent_ s') /\
    Forall (λ p, time_sent p = now) ps /\ first_sent_time_ s' = first_sent_time_ s /\ underway s'.
Proof using Hmss Hmaxcwnd Hinitial Hinitial_max Hhandshake HN.
  intros Hs Hdr Ht Hq. pose proof Hs as [H1 H2 H3 H4 H5 H6 H7 H8].
  unfold HandlePacket, ReceivePacket. cbn [set_stats first_sent_time_ last_acked_].
  rewrite (proj2 (Z.ltb_ge _ _)), (proj2 (Z.ltb_ge (sequence a) _)) by lia.
  unfold EventQueueTime.sub. rewrite (proj2 (Z.leb_le _ _)) by lia. cbn [check mbind outcome_bind].
  set (s1 := set_timing _ _). change (last_acked_ s1) with (last_acked_ s).
  rewrite (proj2 (Z.ltb_lt _ _)) by lia. unfold new_ack.
  change (in_fast_recovery_ s1) with (in_fast_recovery_ s). rewrite H2. cbn [negb].
  set (s2 := set_dupacks _ 0).
  destruct (InflateWindow_slow_start s2) as (x & -> & Hx); unfold mss_ in *;
    try (change (config s2) with (config s)); try (change (cwnd_ s2) with (cwnd_ s)); rewrite ?H1; try done; [lia|].
  cbn [mbind outcome_bind]. change (config s2) with (config s) in Hx. rewrite H1 in Hx.
  set (s3 := set_cwnd s2 x).
  assert (Hs3 : smooth s3) by (split; try done; cbn; lia).
  assert (Hkeep : last_acked_ s3 = sequence a /\ highest_seqno_sent_ s3 = highest_seqno_sent_ s /\
    send_buffer_ s3 = send_buffer_ s /\ out_ s3 = out_ s /\ first_sent_time_ s3 = first_sent_time_ s /\
    on_send_buffer_drained_ s3 = true /\ config s3 = c /\ highest_seqno_sent_real_ s3 = highest_seqno_sent_real_ s)
    by by split_and!.
  clearbody s3. destruct Hkeep as (Ka & Kh & Kb & Ko & Kf & Kd & Kc & Kr).
  destruct (decide ((last_acked_ s3 < highest_seqno_sent_real_ s3)%Z \/ send_buffer_ s3 <> 0%Z)) as [Hw|Hw].
  - destruct (SendPackets_sends now s3 (smooth_bounded s3 Hs3) Hw) as (s' & ps & -> & Hsd).
    destruct (sends_smooth now s3 s' ps Hs3 Hsd) as (Hs' & Hc' & Hu). pose proof Hsd as [].
    exists s', ps. rewrite Kh in *. split_and!; try done.
    + by rewrite (sf_acked _ _ sends_same0).
    + by rewrite sends_out0, Ko, new_packets_app, packets_Sent.
    + eapply Forall_impl; [exact sends_packets0|]. by intros p [_ ?].
    + rewrite sends_first0, Kf. rewrite (proj2 (Z.eqb_neq _ _)) by lia. done.
    + apply Hu; [done|]. rewrite Kr, H8 in Hw. done.
  - assert (Hz : send_buffer_ s3 = 0%Z) by lia. assert (Hla : last_acked_ s3 = highest_seqno_sent_ s3) by lia.
    unfold SendPackets. cbn [send_packets]. rewrite Hz, (proj2 (Z.leb_le _ _)) by lia. cbn [andb Z.eqb].
    unfold data_transferred. rewrite Kc, Hhandshake, Kd. cbn [andb negb].
    set (m := if completion_times_callback_ s3 then _ else _).
    assert (Hm : exists l, m = Ok (fold_left emit l s3) /\ packets l = []).
    { unfold m. destruct (completion_times_callback_ s3); [|by exists []]. unfold EventQueueTime.sub.
      rewrite (proj2 (Z.leb_le _ _)) by lia. by eexists [_]. }
    destruct Hm as (l & -> & Hl). cbn [mbind outcome_bind]. eexists _, []. split; [done|].
    assert (Hfold : forall l s, let s' := fold_left emit l s in out_ s' = out_ s ++ l /\
      (smooth s -> smooth s') /\ last_acked_ s' = last_acked_ s /\
      highest_seqno_sent_ s' = highest_seqno_sent_ s /\ first_sent_time_ s' = first_sent_time_ s /\
      send_buffer_ s' = send_buffer_ s).
    { clear. induction l as [|o l IH]; intros s; cbn [fold_left]; [by rewrite app_nil_r|].
      destruct (IH (emit s o)) as (-> & Hsm & -> & -> & -> & ->). split_and!; try done.
      - cbn. by rewrite <-app_assoc.
      - intros []. apply Hsm. by split. }
    destruct (Hfold l s3) as (Fo & Fs & Fa & Fh & Ff & Fb). specialize (Fs Hs3).
    set (s4 := fold_left emit l s3) in *. clearbody s4. cbn [OnSendBufferDrained emit out_ last_acked_
      highest_seqno_sent_ first_sent_time_].
    split_and!; [destruct Fs; by split|congruence| |cbn; congruence|done|congruence|].
    + by rewrite Fo, Ko, <-app_assoc, new_packets_app, packets_app, Hl.
    + right. cbn. destruct Hs3. split_and!; [lia|congruence|set_solver|done].
Qed.

Record linv (sys : system) : Prop := {
  li_source : smooth (source sys);
  li_received : TCPSink.received_ (sink sys) = [];
  li_data : contiguous (TCPSink.cumulative_ack_ (sink sys)) (data sys) (highest_seqno_sent_ (source sys));
  li_acks : ack_chain (last_acked_ (source sys)) (acks sys) (TCPSink.cumulative_ack_ (sink sys));
  li_first : (first_sent_time_ (source sys) <= clock sys)%Z;
  li_times : Forall (λ p, (first_sent_time_ (source sys) <= time_sent p <= clock sys)%Z)
               (data sys ++ acks sys);
  li_underway : underway (source sys)
}.

Definition measure (sys : system) : Z :=
  (3 * send_buffer_ (source sys) + 2 * Z.of_nat (length (data sys)) + Z.of_nat (length (acks sys)))%Z.

Definition delivered (sys : system) : Prop :=
  last_acked_ (source sys) = N /\ send_buffer_ (source sys) = 0%Z /\
  TCPSink.cumulative_ack_ (sink sys) = N /\ SendBufferDrained ∈ out_ (source sys).

Lemma Forall_times_mono (f n n' : Z) l :
  (n <= n')%Z -> Forall (λ p, (f <= time_sent p <= n)%Z) l -> Forall (λ p, (f <= time_sent p <= n')%Z) l.
Proof using. intros Hn Hl. eapply Forall_impl; [exact Hl|]. cbn. lia. Qed.

(** The next data packet is taken by the sink. *)
Lemma linv_data sys now p rest :
  linv sys -> data sys = p :: rest -> (clock sys <= now)%Z ->
  exists sink', TCPSink.HandlePacket (sink sys) p = Ok sink' /\
    let sys' := mkSystem now (source sys) sink' rest
      (acks sys ++ new_packets (TCPSink.out_ (sink sys)) (TCPSink.out_ sink')) in
    linv sys' /\ (measure sys' < measure sys)%Z.
Proof using HN.
  intros [Hs Hr Hd Ha Hf Ht Hu] Heq Hnow. rewrite Heq in *. destruct Hd as (Hseq & Hsz & Hd).
  pose proof (contiguous_le _ _ _ Hd). pose proof (ack_chain_le _ _ _ Ha). pose proof Hs as [].
  destruct (sink_in_order (sink sys) p Hr) as (sink' & a & Hh & Hr' & Hc' & Hnew & Hsa & Hta); [lia..|].
  exists sink'. split; [done|]. rewrite Hnew. cbn [app] in Ht. apply Forall_cons in Ht as [Htp Ht].
  split.
  - split; cbn [source sink data acks clock]; try done.
    + by rewrite Hc'.
    + rewrite <-Hsa. eapply ack_chain_snoc; [exact Ha|]. lia.
    + lia.
    + apply Forall_app in Ht as [Ht1 Ht2]. rewrite app_assoc. apply Forall_app. split.
      * apply Forall_app. split; by eapply Forall_times_mono.
      * apply Forall_singleton. rewrite Hta. lia.
  - unfold measure. cbn [source data acks]. rewrite Heq, length_app. cbn [length]. lia.
Qed.

(** The next acknowledgement is taken by the source. *)
Lemma linv_ack sys now a rest :
  linv sys -> acks sys = a :: rest -> (clock sys <= now)%Z ->
  exists source', HandlePacket now (source sys) a = Ok source' /\
    let sys' := mkSystem now source' (sink sys)
      (data sys ++ new_packets (out_ (source sys)) (out_ source')) rest in
    linv sys' /\ (measure sys' < measure sys)%Z.
Proof using Hmss Hmaxcwnd Hinitial Hinitial_max Hhandshake HN.
  intros [Hs Hr Hd Ha Hf Ht Hu] Heq Hnow. rewrite Heq in *. destruct Ha as [Hla Ha].
  pose proof (contiguous_le _ _ _ Hd). pose proof (ack_chain_le _ _ _ Ha). pose proof Hs as [].
  apply Forall_app in Ht as [Ht1 Ht2]. apply Forall_cons in Ht2 as [Hta Ht2].
  assert (Hdr : on_send_buffer_drained_ (source sys) = true) by (destruct Hu as [[_ ?]|[? _]]; [done|lia]).
  destruct (source_ack now (source sys) a Hs Hdr) as (s' & ps & Hh & Hs' & Hla' & Hnew & Hc & Hps & Hf' & Hu');
    [lia..|].
  exists s'. split; [done|]. rewrite Hnew. pose proof Hs' as []. split.
  - split; cbn [source sink data acks clock]; try done.
    + by eapply segments_contiguous_app.
    + by rewrite Hla'.
    + lia.
    + rewrite Hf'. apply Forall_app. split; [apply Forall_app; split|].
      * by eapply Forall_times_mono.
      * eapply Forall_impl; [exact Hps|]. cbn. lia.
      * by eapply Forall_times_mono.
  - unfold measure. cbn [source data acks]. rewrite Heq, length_app. cbn [length].
    pose proof (contiguous_le _ _ _ Hc). lia.
Qed.

Lemma linv_step sys sys' : linv sys -> step sys sys' -> linv sys' /\ (measure sys' < measure sys)%Z.
Proof using Hmss Hmaxcwnd Hinitial Hinitial_max Hhandshake HN.
  intros Hi Hst. revert Hi.
  destruct Hst as [sys now p rest sink' Hnow Heq Hh|sys now p rest s' Hnow Heq Hh]; intros Hi.
  - destruct (linv_data _ now p rest Hi Heq Hnow) as (sink'' & Hh' & H). rewrite Hh in Hh'. injection Hh' as <-. exact H.
  - destruct (linv_ack _ now p rest Hi Heq Hnow) as (s'' & Hh' & H). rewrite Hh in Hh'. injection Hh' as <-. exact H.
Qed.

(** The timer changes nothing while no timeout has passed. *)
Lemma linv_timer sys now :
  linv sys -> on_time now (source sys) -> RtxTimerHook now (source sys) = Ok (source sys).
Proof using Hmss Hmaxcwnd Hinitial Hinitial_max Hhandshake HN.
  intros [Hs _ _ _ _ _ Hu] Ht. destruct Hs. unfold RtxTimerHook.
  destruct (Z.eqb_spec (highest_seqno_sent_ (source sys)) 0); [done|].
  destruct (Z.leb_spec (highest_seqno_sent_real_ (source sys)) (last_acked_ (source sys))) as [Hle|Hlt].
  - destruct Hu as [[? _]|(_ & _ & _ & Hd)]; [lia|].
    unfold DataTransferred, data_transferred. by rewrite sm_config0, Hhandshake, Hd.
  - destruct Ht as [Ht|Ht]; [lia|]. by rewrite (proj2 (Z.leb_le _ _) Ht).
Qed.

Lemma linv_later sys now :
  linv sys -> (clock sys <= now)%Z -> linv (mkSystem now (source sys) (sink sys) (data sys) (acks sys)).
Proof using.
  intros [] ?. split; cbn; try done; [lia|]. by eapply Forall_times_mono.
Qed.

Lemma linv_run sys0 k sys :
  linv sys0 -> run sys0 k sys -> linv sys /\ (measure sys + Z.of_nat k <= measure sys0)%Z.
Proof using Hmss Hmaxcwnd Hinitial Hinitial_max Hhandshake HN.
  intros Hi. induction 1 as [|k sys sys' _ [Hi' Hm] Hst|k sys now s' _ [Hi' Hm] Hnow Ht Hh].
  - split; [done|lia].
  - destruct (linv_step sys sys' Hi' Hst). split; [done|lia].
  - rewrite (linv_timer sys now Hi' Ht) in Hh. injection Hh as <-.
    pose proof (new_packets_app (out_ (source sys)) []) as Hn. rewrite app_nil_r in Hn. rewrite Hn, app_nil_r.
    split; [by apply linv_later|done].
Qed.

Lemma linv_progress sys : linv sys -> (exists sys', step sys sys') \/ delivered sys.
Proof using Hmss Hmaxcwnd Hinitial Hinitial_max Hhandshake HN.
  intros Hi. destruct (data sys) as [|p rest] eqn:Hd.
  - destruct (acks sys) as [|a rest] eqn:Ha.
    + right. destruct Hi as [Hs Hr Hdata Hacks _ _ Hu]. rewrite Hd in Hdata. rewrite Ha in Hacks.
      cbn in Hdata, Hacks. destruct Hs. destruct Hu as [[? _]|(? & ? & ? & _)]; [lia|].
      split_and!; try done. lia.
    + left. destruct (linv_ack sys (clock sys) a rest Hi Ha) as (s' & Hh & _); [lia|].
      eexists. by eapply step_ack.
  - left. destruct (linv_data sys (clock sys) p rest Hi Hd) as (s' & Hh & _); [lia|].
    eexists. by eapply step_data.
Qed.

Lemma start_linv now : exists sys, start c now N = Ok sys /\ linv sys /\ (measure sys <= 3 * N)%Z.
Proof using Hmss Hmaxcwnd Hinitial Hinitial_max Hhandshake HN.
  unfold start, AddData, add_data.
  set (s0 := OnSendBufferDrained (construct c) true).
  change (send_buffer_ s0) with 0%Z. change (mss_ s0) with (mss c).
  rewrite (proj2 (Z.ltb_lt 0 (mss c))) by lia. change (cwnd_ (Close s0)) with 0%Z. cbn [Z.eqb].
  change (config (Close s0)) with c. rewrite Hhandshake. cbn [andb].
  set (s1 := set_cwnd (Close s0) _). change (send_buffer_ s1) with 0%Z. rewrite Z.add_0_l.
  unfold u64 at 1. rewrite (proj2 (Z.ltb_ge _ _)) by (apply wrap_bound; lia).
  set (s2 := set_send_buffer s1 _).
  assert (Hcw : cwnd_ s1 = (inital_cwnd_size c * mss c)%Z).
  { change (cwnd_ s1) with (u32 (inital_cwnd_size c * mss c)). unfold u32, umax in *. apply wrap_id. nia. }
  assert (Hsb : send_buffer_ s2 = N).
  { change (send_buffer_ s2) with (u64 N). unfold u64. apply wrap_id. lia. }
  assert (Hs2 : smooth s2).
  { split; [done|done|done| |done|lia|by rewrite Hsb|done].
    change (cwnd_ s2) with (cwnd_ s1). rewrite Hcw. unfold umax in *. nia. }
  destruct (SendPackets_sends now s2 (smooth_bounded s2 Hs2)) as (s & ps & -> & Hsd); [right; lia|].
  cbn [mbind outcome_bind]. eexists. split; [done|].
  destruct (sends_smooth now s2 s ps Hs2 Hsd) as (Hs & Hc & Hu). pose proof Hsd as [].
  assert (Hout : packets (out_ s) = ps) by (rewrite sends_out0; apply packets_Sent).
  specialize (Hu eq_refl ltac:(right; lia)). rewrite Hout.
  assert (Hne : ps <> []).
  { intros ->. cbn in Hc. destruct Hu as [[Hu _]|(Hu & _ & _)]; [|].
    - rewrite <-Hc in Hu. change (highest_seqno_sent_ s2) with 0%Z in Hu. destruct Hs. lia.
    - destruct Hs. rewrite <-Hc in *. change (highest_seqno_sent_ s2) with 0%Z in *. lia. }
  assert (Hfirst : first_sent_time_ s = now).
  { rewrite sends_first0. change (highest_seqno_sent_ s2) with 0%Z. cbn [Z.eqb andb].
    by rewrite bool_decide_false. }
  split.
  - split; cbn [source sink data acks clock]; try done.
    + by rewrite (sf_acked _ _ sends_same0).
    + lia.
    + rewrite app_nil_r, Hfirst. eapply Forall_impl; [exact sends_packets0|]. cbn. intros p [_ ->]. lia.
  - unfold measure. cbn [source data acks length]. pose proof (contiguous_le _ _ _ Hc).
    change (highest_seqno_sent_ s2) with 0%Z in *. destruct Hs. lia.
Qed.
End lossless.

(** ** Properties *)

(** C6: over a network that neither loses nor reorders packets, and whose
    round trips are short enough for no retransmission timeout to pass, a
    transfer of [N] bytes without simulated handshake completes: whatever the
    interleaving of deliveries, at most [3 * N] deliveries happen, nothing
    fails on the way, the timer may look at the source at any time before its
    timeout and changes nothing, and when no packet is left in the network the
    source and the sink agree that all [N] bytes have arrived, the send buffer
    is empty and the owner of the connection has been told. *)
Theorem TCP_lossless_transfer_completes c t0 N :
  (0 < mss c < 2 ^ 16)%Z -> (mss c <= maxcwnd c < umax 32)%Z ->
  (0 < inital_cwnd_size c)%Z -> (inital_cwnd_size c * mss c < umax 32)%Z ->
  simulate_initial_handshake c = false -> (0 < N < 2 ^ 63)%Z ->
  exists sys0, start c t0 N = Ok sys0 /\
    forall k sys, run sys0 k sys ->
      (Z.of_nat k <= 3 * N)%Z /\ ((exists sys', step sys sys') \/ delivered N sys) /\
      (forall now, on_time now (source sys) -> RtxTimerHook now (source sys) = Ok (source sys)).
Proof.
  intros H1 H2 H3 H4 H5 H6. destruct (start_linv c N H1 H2 H3 H4 H5 H6 t0) as (sys0 & Hst & Hi & Hm).
  exists sys0. split; [done|]. intros k sys Hk.
  destruct (linv_run c N H1 H2 H3 H4 H5 H6 sys0 k sys Hi Hk) as [Hi' Hm'].
  assert (0 <= measure sys)%Z by (destruct Hi' as [[] _ _ _ _ _ _]; unfold measure; lia).
  split_and!; [lia|by eapply linv_progress|]. intros now. by eapply linv_timer.
Qed.

(** C14: the sink reassembles a stream cut into segments of equal size: after
    the first segment, and any further segments in any order and with
    duplicates, its cumulative acknowledgement covers exactly the segments
    before the first one that is missing, the list of stored packets holds
    the segments after it, in order, and the last acknowledgement it has sent
    carries that value. *)
Theorem TCPSink_reassembles size_ n l t0 tag0 :
  (0 < size_)%Z -> (size_ * (Z.of_nat n + 2) < 2 ^ 64)%Z ->
  Forall (λ x, 0 < x.1.1 <= n) l ->
  exists s m L, arrivals size_ ((0, t0, tag0) :: l) TCPSink.init = Ok s /\
    (forall i, i < m -> i ∈ 0 :: l.*1.*1) /\ m ∉ 0 :: l.*1.*1 /\
    TCPSink.cumulative_ack_ s = (size_ * Z.of_nat m)%Z /\
    TCPSink.received_ s = segment_seq size_ <$> L /\ StronglySorted lt L /\
    (forall i, i ∈ L <-> m < i /\ i ∈ l.*1.*1) /\
    (forall i time_ tag_, last ((0, t0, tag0) :: l) = Some (i, time_, tag_) ->
       last (TCPSink.out_ s) = Some (ack_of size_ m time_)).
Proof.
  intros Hsize Hn Hl.
  destruct (HandlePacket_segment size_ Hsize n Hn 0 [] TCPSink.init t0 tag0 0)
    as (s1 & m1 & L1 & Hs1 & Hre1 & Hm1 & HL1 & Hin1 & Hlast1); [split; [cbn; lia|done|constructor..]|lia|done|lia|done|].
  destruct (arrivals_spec size_ Hsize n Hn l m1 L1 s1 Hre1 Hm1 HL1 Hl)
    as (s & m & L & Hs & [Ra Rr Rs Rb] & _ & _ & Hin & Hlast).
  assert (Hin' : forall j, j < m \/ j ∈ L <-> j ∈ 0 :: l.*1.*1).
  { intros j. rewrite Hin, Hin1, elem_of_cons. set_solver by lia. }
  assert (Hml : forall i, i ∈ L -> m < i) by (intros i; by apply Forall_forall).
  exists s, m, L. split_and!; try done.
  - unfold arrivals in *. cbn [mfold]. rewrite Hs1. exact Hs.
  - intros i Hi. apply Hin'. by left.
  - rewrite <-Hin'. intros [?|H%Hml]; lia.
  - intros i. split; [intros Hi; split; [by apply Hml|]|intros [Hmi Hi]].
    + assert (Hc : i ∈ 0 :: l.*1.*1) by (apply Hin'; by right).
      apply elem_of_cons in Hc as [->|?]; [apply Hml in Hi; lia|done].
    + assert (Hc : i < m \/ i ∈ L) by (apply Hin'; set_solver). destruct Hc; [lia|done].
  - intros i ti tg. destruct l as [|y l]; [|exact (Hlast i ti tg)].
    cbn [last]. intros [= <- <- <-]. injection Hs as <-. rewrite Hlast1. do 2 f_equal.
    destruct Hre1 as [Ra1 _ _ _]. nia.
Qed.

(** Whatever its owner, the network and the timer do, the slow start threshold
    of a source never falls below two segments and its retransmission timeout
    stays between 200 milliseconds and 5 seconds. *)
Theorem TCPSource_timeout_in_range c s :
  good_config c -> source_reach c s ->
  (2 * mss_ s <= ssthresh_ s)%Z /\ (200 * 10 ^ 9 <= rto_ (timing_ s) <= 5 * 10 ^ 12)%Z.
Proof. intros Hc Hr. destruct (source_reach_wf c s Hc Hr). split; [lia|done]. Qed.

(** C15: while data is outstanding or buffered and no sum leaves 64 bits,
    [SendPackets] never sends beyond the congestion window and always finishes:
    it cuts the bytes of the send buffer into consecutive packets of at most one
    segment, with consecutive sequence numbers and each stamped with the time of
    sending, none of which ends after [last_acked_ + cwnd_], moves the bytes
    from the buffer to the sent range without losing one, and stops when the
    buffer is empty or no further full segment fits the window. *)
Theorem TCPSource_SendPackets_window now s :
  bounded_flow s -> (last_acked_ s < highest_seqno_sent_real_ s)%Z \/ send_buffer_ s <> 0%Z ->
  exists s' ps, SendPackets now s = Ok s' /\ out_ s' = out_ s ++ (Sent <$> ps) /\
    contiguous (highest_seqno_sent_ s) ps (highest_seqno_sent_ s') /\
    Forall (λ p, (0 < size_bytes p <= mss_ s)%Z /\ time_sent p = now) ps /\
    (highest_seqno_sent_ s' <= Z.max (highest_seqno_sent_ s) (last_acked_ s + cwnd_ s))%Z /\
    (send_buffer_ s' + highest_seqno_sent_ s' = send_buffer_ s + highest_seqno_sent_ s)%Z /\
    (send_buffer_ s' = 0%Z \/ (last_acked_ s + cwnd_ s < highest_seqno_sent_ s' + mss_ s)%Z).
Proof.
  intros Hb Hw. destruct (SendPackets_sends now s Hb Hw) as (s' & ps & Hs & Hsd). pose proof Hsd as [].
  exists s', ps. split_and!; try done.
  - clear -sends_contiguous0 sends_packets0. revert sends_contiguous0.
    generalize (highest_seqno_sent_ s). induction sends_packets0 as [|p ps [Hp Ht] _ IH]; intros from; [done|].
    intros (_ & ? & H). constructor; [by split; [lia|]|by eapply IH].
  - destruct sends_same0. unfold mss_ in *. rewrite sf_config0, sf_cwnd0, sf_acked0 in sends_end0. done.
Qed.

(** ** Witnesses *)

Definition default_config : TCPSourceConfig := mkConfig 1500 2000000 4 false.

Lemma TCP_lossless_transfer_completes_witness :
  exists sys0, start default_config 0 10000 = Ok sys0 /\
    forall k sys, run sys0 k sys ->
      (Z.of_nat k <= 3 * 10000)%Z /\ ((exists sys', step sys sys') \/ delivered 10000 sys) /\
      (forall now, on_time now (source sys) -> RtxTimerHook now (source sys) = Ok (source sys)).
Proof.
  apply (TCP_lossless_transfer_completes default_config 0 10000); try reflexivity;
    (split; [|reflexivity]); vm_compute; congruence.
Defined.

Lemma TCPSink_reassembles_witness :
  exists s m L, arrivals 1500 [(0, 10%Z, 0%Z); (2, 20%Z, 0%Z); (4, 30%Z, 0%Z); (1, 40%Z, 0%Z)] TCPSink.init = Ok s /\
    (forall i, i < m -> i ∈ [0; 2; 4; 1]) /\ m ∉ [0; 2; 4; 1] /\
    TCPSink.cumulative_ack_ s = (1500 * Z.of_nat m)%Z /\
    TCPSink.received_ s = segment_seq 1500 <$> L /\ StronglySorted lt L /\
    (forall i, i ∈ L <-> m < i /\ i ∈ [2; 4; 1]) /\
    (forall i time_ tag_, last [(0, 10%Z, 0%Z); (2, 20%Z, 0%Z); (4, 30%Z, 0%Z); (1, 40%Z, 0%Z)] = Some (i, time_, tag_) ->
       last (TCPSink.out_ s) = Some (ack_of 1500 m time_)).
Proof.
  apply (TCPSink_reassembles 1500 4 [(2, 20%Z, 0%Z); (4, 30%Z, 0%Z); (1, 40%Z, 0%Z)] 10 0).
  - reflexivity.
  - reflexivity.
  - repeat constructor; cbn; lia.
Defined.

(** A source with 4000 bytes to send and a window of four segments. *)
Definition sending_source : t := set_cwnd (set_send_buffer (construct default_config) 4000) 6000.

Lemma TCPSource_SendPackets_window_witness :
  exists s' ps, SendPackets 5 sending_source = Ok s' /\ out_ s' = out_ sending_source ++ (Sent <$> ps) /\
    contiguous (highest_seqno_sent_ sending_source) ps (highest_seqno_sent_ s') /\
    Forall (λ p, (0 < size_bytes p <= mss_ sending_source)%Z /\ time_sent p = 5%Z) ps /\
    (highest_seqno_sent_ s' <= Z.max (highest_seqno_sent_ sending_source)
       (last_acked_ sending_source + cwnd_ sending_source))%Z /\
    (send_buffer_ s' + highest_seqno_sent_ s' =
       send_buffer_ sending_source + highest_seqno_sent_ sending_source)%Z /\
    (send_buffer_ s' = 0%Z \/
       (last_acked_ sending_source + cwnd_ sending_source < highest_seqno_sent_ s' + mss_ sending_source)%Z).
Proof.
  apply (TCPSource_SendPackets_window 5 sending_source).
  - split; vm_compute; congruence.
  - right. vm_compute. congruence.
Defined.

(** ** What the code does besides *)

(** A second copy of the first segment resets the sink, which forgets the two
    segments it had acknowledged. *)
Lemma TCPSink_first_segment_again_resets :
  (s ← arrivals 1500 [(0, 1%Z, 0%Z); (1, 2%Z, 0%Z); (2, 3%Z, 0%Z)] TCPSink.init;
   Ok (TCPSink.cumulative_ack_ s)) = Ok 4500%Z /\
  (s ← arrivals 1500 [(0, 1%Z, 0%Z); (1, 2%Z, 0%Z); (2, 3%Z, 0%Z); (0, 4%Z, 0%Z)] TCPSink.init;
   Ok (TCPSink.cumulative_ack_ s)) = Ok 1500%Z.
Proof. split; vm_compute; reflexivity. Qed.

(** A stored last segment of 500 bytes is acknowledged with the size of the
    packet that fills the hole: 4500 bytes are acknowledged of 3500. *)
Lemma TCPSink_short_segment_overshoots :
  (s ← mfold TCPSink.HandlePacket
     [mkPacket 1500 1 1 0; mkPacket 500 2 3001 0; mkPacket 1500 3 1501 0] TCPSink.init;
   Ok (TCPSink.cumulative_ack_ s)) = Ok 4500%Z.
Proof. vm_compute. reflexivity. Qed.

(** Adding data twice restarts the sequence numbers: both packets carry the
    sequence number 1. *)
Lemma TCPSource_AddData_restarts :
  (s ← AddData 1 (construct default_config) 1000; s' ← AddData 1 s 1000;
   Ok (sequence <$> packets (out_ s'), highest_seqno_sent_real_ s')) = Ok ([1; 1], 1000)%Z.
Proof. vm_compute. reflexivity. Qed.
