(* ===== verification/NetAddr.v ===== *)
(** Model of addresses and address ranges ([src/src/net/net_common.h],
    [net_common.cc]): IPv4 addresses in network byte order, ranges, five-tuples,
    and the trie of ranges of [src/src/net/trie.h].  The machine is little
    endian, so that [htonl] and [ntohl] swap the bytes. *)

From S2P Require Import Prelude Trie.

Local Open Scope Z_scope.

(** [htonl] and [ntohl]. *)
Definition htonl (x : Z) : Z :=
  Z.lor (Z.shiftl (Z.land x 255) 24)
    (Z.lor (Z.shiftl (Z.land (Z.shiftr x 8) 255) 16)
       (Z.lor (Z.shiftl (Z.land (Z.shiftr x 16) 255) 8) (Z.land (Z.shiftr x 24) 255))).
Definition ntohl : Z -> Z := htonl.

Definition kMaxIPAddressMaskLen : Z := 32.

Definition MaskAddress (ip_address mask_len : Z) : outcome Z :=
  _ ← check (mask_len <=? kMaxIPAddressMaskLen);
  let mask := u64 (Z.shiftl (-1) (kMaxIPAddressMaskLen - mask_len)) in
  Ok (htonl (u32 (Z.land (ntohl ip_address) mask))).

Module IPRange.

Record t := mk { base_address_ : Z; mask_len_ : Z }.

#[global] Instance t_eq_dec : EqDecision t.
Proof. solve_decision. Defined.

Definition Init (address mask_len : Z) : outcome t :=
  base ← MaskAddress address mask_len; Ok (mk base mask_len).

(** [IPRange::IPRange]. *)
Definition construct : Z -> Z -> outcome t := Init.

Definition Contains (r other : t) : outcome bool :=
  if mask_len_ r =? 0 then Ok true
  else if mask_len_ other <? mask_len_ r then Ok false
  else
    r' ← construct (base_address_ other) (mask_len_ r);
    Ok (bool_decide (r' = r)).

(** The loop of [PrefixMatchLen] that starts at bit [i]. *)
Fixpoint match_from (n : nat) (i : Z) (address_one address_two : Z) : Z :=
  match n with
  | O => i
  | S n' =>
      if eqb (Z.testbit address_one (32 - i)) (Z.testbit address_two (32 - i))
      then match_from n' (i + 1) address_one address_two else i
  end.

Definition PrefixMatchLen (r other : t) : Z :=
  let max_len := Z.min (mask_len_ r) (mask_len_ other) in
  match_from (Z.to_nat max_len) 1 (ntohl (base_address_ r)) (ntohl (base_address_ other)) - 1.

Definition ltb (a b : t) : bool :=
  (ntohl (base_address_ a) <? ntohl (base_address_ b)) ||
  ((ntohl (base_address_ a) =? ntohl (base_address_ b)) && (mask_len_ a <? mask_len_ b)).

End IPRange.

Module FiveTuple.

Record t := mk { ip_src : Z; ip_dst : Z; ip_proto : Z; src_port : Z; dst_port : Z }.

#[global] Instance t_eq_dec : EqDecision t.
Proof. solve_decision. Defined.

(** The address is an unsigned 32-bit integer, so that is the arithmetic. *)
Definition GetHash (f : t) : Z :=
  u32 (37 * u32 (37 * u32 (37 * u32 (37 * (37 * 17 + ip_proto f) + ip_src f) + ip_dst f) + src_port f)
       + dst_port f).

Definition Reverse (f : t) : t := mk (ip_dst f) (ip_src f) (ip_proto f) (dst_port f) (src_port f).

End FiveTuple.

Module IPRangeTrie.
Section trie.
Context {T : Type}.

Definition ToBoolVector (r : IPRange.t) : list bool :=
  let range_net_order := htonl (IPRange.base_address_ r) in
  (λ i : nat, Z.testbit range_net_order (Z.of_nat i)) <$> seq 0 (Z.to_nat (IPRange.mask_len_ r)).

Definition Add (trie : Trie.TrieNode bool T) (r : IPRange.t) (value : T) : outcome (Trie.TrieNode bool T) :=
  Trie.Add trie (ToBoolVector r) value.

Definition ValuesWithPrefix (trie : Trie.TrieNode bool T) (r : IPRange.t) : outcome (list T) :=
  Trie.SequencesWithPrefix trie (ToBoolVector r).

End trie.
End IPRangeTrie.

(** ** Byte order *)

Lemma testbit_byte y i : 0 <= i ->
  Z.testbit (Z.land y 255) i = if decide (i < 8) then Z.testbit y i else false.
Proof.
  intros Hi. change 255 with (Z.ones 8). rewrite Z.land_spec, Z.testbit_ones by lia. case_decide.
  - rewrite (proj2 (Z.leb_le _ _)), (proj2 (Z.ltb_lt _ _)) by lia. apply andb_true_r.
  - rewrite (proj2 (Z.ltb_ge _ _)) by lia. by rewrite !andb_false_r.
Qed.

Lemma testbit_byte_at y k i : 0 <= i -> 0 <= k ->
  Z.testbit (Z.shiftl (Z.land y 255) k) i =
    if decide (k <= i < k + 8) then Z.testbit y (i - k) else false.
Proof.
  intros Hi Hk. rewrite Z.shiftl_spec by lia.
  destruct (decide (i < k)). { rewrite Z.testbit_neg_r by lia. by rewrite decide_False by lia. }
  rewrite testbit_byte by lia. repeat case_decide; try done; lia.
Qed.

Lemma testbit_htonl x i : 0 <= i ->
  Z.testbit (htonl x) i = if decide (i < 32) then Z.testbit x (8 * (3 - i / 8) + i mod 8) else false.
Proof.
  intros Hi. unfold htonl. rewrite !Z.lor_spec, !testbit_byte_at, testbit_byte by lia.
  pose proof (Z.div_mod i 8). pose proof (Z.mod_pos_bound i 8).
  repeat case_decide; try lia; rewrite ?Z.shiftr_spec by lia; cbn [orb]; rewrite ?orb_false_r;
    try done; f_equal; lia.
Qed.

(** Below [2^32] there are no higher bits. *)
Lemma u32_bits x : (forall i, 32 <= i -> Z.testbit x i = false) <-> 0 <= x < 2 ^ 32.
Proof.
  split.
  - intros Hb. assert (x = x mod 2 ^ 32) as ->; [|apply Z.mod_pos_bound; lia].
    rewrite <-Z.land_ones by lia. apply Z.bits_inj'. intros i Hi. rewrite Z.land_spec, Z.testbit_ones by lia.
    destruct (Z.ltb_spec i 32).
    + rewrite (proj2 (Z.leb_le _ _)) by lia. by rewrite andb_true_r.
    + rewrite Hb by lia. done.
  - intros Hx i Hi. rewrite <-(Z.mod_small x (2 ^ 32)) by lia. apply Z.mod_pow2_bits_high. lia.
Qed.

Lemma htonl_range x : 0 <= htonl x < 2 ^ 32.
Proof. apply u32_bits. intros i Hi. rewrite testbit_htonl by lia. by rewrite decide_False by lia. Qed.

Lemma htonl_involutive x : 0 <= x < 2 ^ 32 -> htonl (htonl x) = x.
Proof.
  intros Hx. apply Z.bits_inj'. intros i Hi. rewrite testbit_htonl by done. case_decide as H32.
  - pose proof (Z.div_mod i 8). pose proof (Z.mod_pos_bound i 8). set (j := 8 * (3 - i / 8) + i mod 8).
    assert (0 <= j < 32) by (unfold j; lia). rewrite testbit_htonl by lia. rewrite decide_True by lia.
    assert (j / 8 = 3 - i / 8) as ->.
    { symmetry. apply (Z.div_unique j 8 _ (i mod 8)); unfold j; lia. }
    assert (j mod 8 = i mod 8) as ->.
    { symmetry. apply (Z.mod_unique j 8 (3 - i / 8)); unfold j; lia. }
    f_equal. lia.
  - symmetry. apply u32_bits; [done|lia].
Qed.

(** ** Ranges as sets of addresses *)

(** The number of an address, with the first byte as the most significant. *)
Notation host := ntohl (only parsing).

Lemma mask_value h k : 0 <= h < 2 ^ 32 -> 0 <= k <= 32 ->
  Z.land h (u64 (Z.shiftl (-1) k)) = h / 2 ^ k * 2 ^ k.
Proof.
  intros Hh Hk. rewrite <-Z.shiftr_div_pow2, <-Z.shiftl_mul_pow2 by lia.
  apply Z.bits_inj'. intros i Hi. rewrite Z.land_spec, Z.shiftl_spec by done.
  destruct (decide (32 <= i)) as [Hge|Hlt].
  { rewrite (proj2 (u32_bits h) Hh i Hge). cbn [andb]. rewrite Z.shiftr_spec by lia. symmetry.
    replace (i - k + k) with i by lia. by apply u32_bits. }
  unfold u64, wrap. rewrite Z.mod_pow2_bits_low, Z.shiftl_spec by lia.
  destruct (decide (i < k)).
  - rewrite !(Z.testbit_neg_r _ (i - k)) by lia. apply andb_false_r.
  - rewrite Z.shiftr_spec, Z.bits_m1, andb_true_r by lia. f_equal. lia.
Qed.

Lemma MaskAddress_spec ip len :
  0 <= ip < 2 ^ 32 -> 0 <= len <= 32 ->
  exists b, MaskAddress ip len = Ok b /\ 0 <= b < 2 ^ 32 /\
    host b = host ip / 2 ^ (32 - len) * 2 ^ (32 - len).
Proof.
  intros Hip Hlen. unfold MaskAddress, kMaxIPAddressMaskLen. rewrite (proj2 (Z.leb_le _ _)) by lia.
  cbn [check mbind outcome_bind]. eexists. split; [done|]. split; [apply htonl_range|].
  pose proof (htonl_range ip) as Hr. unfold ntohl in *. rewrite mask_value by lia. unfold u32.
  assert (0 <= htonl ip / 2 ^ (32 - len) * 2 ^ (32 - len) < 2 ^ 32).
  { pose proof (Z.mul_div_le (htonl ip) (2 ^ (32 - len))).
    pose proof (Z.div_pos (htonl ip) (2 ^ (32 - len))).
    assert (0 < 2 ^ (32 - len)) by lia. nia. }
  rewrite wrap_id, htonl_involutive by lia. done.
Qed.

(** The addresses of a range. *)
Definition in_range (a : Z) (r : IPRange.t) : Prop :=
  host a / 2 ^ (32 - IPRange.mask_len_ r) = host (IPRange.base_address_ r) / 2 ^ (32 - IPRange.mask_len_ r).

#[global] Instance in_range_dec a r : Decision (in_range a r).
Proof. unfold in_range. apply _. Defined.

(** Ranges as the constructor makes them. *)
Record range_ok (r : IPRange.t) : Prop := {
  ro_len : 0 <= IPRange.mask_len_ r <= 32;
  ro_base : 0 <= IPRange.base_address_ r < 2 ^ 32;
  ro_masked : host (IPRange.base_address_ r) =
    host (IPRange.base_address_ r) / 2 ^ (32 - IPRange.mask_len_ r) * 2 ^ (32 - IPRange.mask_len_ r)
}.

Lemma construct_ok a len :
  0 <= a < 2 ^ 32 -> 0 <= len <= 32 ->
  exists r, IPRange.construct a len = Ok r /\ range_ok r /\ IPRange.mask_len_ r = len /\
    host (IPRange.base_address_ r) = host a / 2 ^ (32 - len) * 2 ^ (32 - len).
Proof.
  intros Ha Hl. destruct (MaskAddress_spec a len Ha Hl) as (b & Hb & Hr & Hh).
  unfold IPRange.construct, IPRange.Init. rewrite Hb. cbn [mbind outcome_bind]. eexists. split; [done|].
  split_and!; try done. split; cbn; try done. rewrite Hh. rewrite Z.div_mul; [done|].
  apply Z.pow_nonzero; lia.
Qed.

Lemma host_inj a b : 0 <= a < 2 ^ 32 -> 0 <= b < 2 ^ 32 -> host a = host b -> a = b.
Proof. intros Ha Hb H. unfold ntohl in H. rewrite <-(htonl_involutive a), H, htonl_involutive by done. done. Qed.

(** Ranges of the same length meet only if they are equal. *)
Lemma in_range_masked a r :
  range_ok r -> 0 <= a < 2 ^ 32 ->
  in_range a r <-> host a / 2 ^ (32 - IPRange.mask_len_ r) * 2 ^ (32 - IPRange.mask_len_ r) =
    host (IPRange.base_address_ r).
Proof.
  intros [Hl Hb Hm] Ha. unfold in_range. assert (0 < 2 ^ (32 - IPRange.mask_len_ r)) by lia.
  split; [intros ->; by rewrite <-Hm|]. intros H1. rewrite <-H1, Z.div_mul; lia.
Qed.

(** [other] has addresses on both sides of a bit it does not fix. *)
Lemma wider_range_leaves r other :
  range_ok r -> range_ok other -> IPRange.mask_len_ other < IPRange.mask_len_ r ->
  exists a, 0 <= a < 2 ^ 32 /\ in_range a other /\ ~ in_range a r.
Proof.
  intros Hr Ho Hlt. pose proof (ro_len _ Hr). pose proof (ro_len _ Ho).
  set (l := IPRange.mask_len_ other) in *. set (h := host (IPRange.base_address_ other)).
  assert (Hh : 0 <= h < 2 ^ 32) by apply htonl_range.
  assert (Hhm : h = h / 2 ^ (32 - l) * 2 ^ (32 - l)) by apply (ro_masked _ Ho).
  assert (Hp : 2 ^ (32 - l) = 2 * 2 ^ (31 - l)).
  { replace (32 - l) with (Z.succ (31 - l)) by lia. rewrite Z.pow_succ_r by lia. done. }
  assert (Hpos : 0 < 2 ^ (31 - l)) by lia.
  assert (Hle : h + 2 ^ (32 - l) <= 2 ^ 32).
  { replace (2 ^ 32) with (2 ^ l * 2 ^ (32 - l)) by (rewrite <-Z.pow_add_r by lia; f_equal; lia).
    assert (h / 2 ^ (32 - l) < 2 ^ l); [|nia]. apply Z.div_lt_upper_bound; [lia|].
    rewrite <-Z.pow_add_r by lia. replace (32 - l + l) with 32 by lia. lia. }
  assert (Hin : forall d, 0 <= d < 2 ^ (32 - l) -> 0 <= htonl (h + d) < 2 ^ 32 /\
    in_range (htonl (h + d)) other /\ host (htonl (h + d)) = h + d).
  { intros d Hd. split; [apply htonl_range|]. unfold in_range, ntohl. fold l. rewrite htonl_involutive by lia.
    fold h. change (htonl (IPRange.base_address_ other)) with h. split; [|done].
    rewrite Hhm at 1. rewrite Z.div_add_l by lia. rewrite (Z.div_small d) by lia. lia. }
  destruct (Hin 0) as (H1 & H2 & H3); [lia|]. destruct (Hin (2 ^ (31 - l))) as (H4 & H5 & H6); [lia|].
  rewrite Z.add_0_r in *.
  destruct (decide (in_range (htonl h) r)) as [Hx|Hx]; [|by exists (htonl h)].
  exists (htonl (h + 2 ^ (31 - l))). split_and!; [lia|lia|done|].
  unfold in_range in *. rewrite H3 in Hx. rewrite H6, <-Hx. set (k := 32 - IPRange.mask_len_ r) in *.
  assert (0 < 2 ^ k) by lia.
  assert (Hk : 2 ^ (31 - l) = 2 ^ (31 - l - k) * 2 ^ k) by (rewrite <-Z.pow_add_r by lia; f_equal; lia).
  rewrite Hk, Z.div_add by lia. assert (0 < 2 ^ (31 - l - k)) by lia. lia.
Qed.

Lemma Contains_subset r other :
  range_ok r -> range_ok other ->
  exists b, IPRange.Contains r other = Ok b /\
    (b = true <-> forall a, 0 <= a < 2 ^ 32 -> in_range a other -> in_range a r).
Proof.
  intros Hr Ho. pose proof (ro_len _ Hr). pose proof (ro_len _ Ho). unfold IPRange.Contains.
  destruct (Z.eqb_spec (IPRange.mask_len_ r) 0) as [Hz|Hz].
  { exists true. split; [done|]. split; [|done]. intros _ a Ha _. unfold in_range. rewrite Hz, Z.sub_0_r.
    pose proof (htonl_range a). pose proof (htonl_range (IPRange.base_address_ r)). unfold ntohl.
    by rewrite !Z.div_small. }
  destruct (Z.ltb_spec (IPRange.mask_len_ other) (IPRange.mask_len_ r)) as [Hlt|Hge].
  { exists false. split; [done|]. split; [done|]. intros Hall.
    destruct (wider_range_leaves r other Hr Ho Hlt) as (a & Ha & H1 & H2). exfalso. by apply H2, Hall. }
  destruct (construct_ok (IPRange.base_address_ other) (IPRange.mask_len_ r)) as (r' & -> & Hr' & Hl' & Hb');
    [apply Ho|lia|]. cbn [mbind outcome_bind]. eexists. split; [done|]. rewrite bool_decide_eq_true.
  assert (Heq : r' = r <-> in_range (IPRange.base_address_ other) r).
  { rewrite in_range_masked by (try apply Ho; done). rewrite <-Hb'. split; [by intros ->|].
    intros Hh. apply host_inj in Hh; [|apply Hr'|apply Hr]. destruct r', r. cbn in *. congruence. }
  rewrite Heq. unfold in_range. split.
  - intros H1 a Ha H2. assert (Hdiv : forall x, x / 2 ^ (32 - IPRange.mask_len_ r) =
      x / 2 ^ (32 - IPRange.mask_len_ other) / 2 ^ (IPRange.mask_len_ other - IPRange.mask_len_ r)).
    { intros x. rewrite Z.div_div, <-Z.pow_add_r by lia. do 2 f_equal. lia. }
    rewrite <-H1, !Hdiv, H2. done.
  - intros Hall. apply Hall; [apply Ho|done].
Qed.

(** ** The longest common prefix *)

Definition agree (h1 h2 k : Z) : Prop := h1 / 2 ^ (32 - k) = h2 / 2 ^ (32 - k).

Lemma agree_next h1 h2 k : 1 <= k <= 32 -> agree h1 h2 (k - 1) ->
  agree h1 h2 k <-> Z.testbit h1 (32 - k) = Z.testbit h2 (32 - k).
Proof.
  intros Hk. unfold agree. replace (32 - (k - 1)) with (32 - k + 1) by lia.
  rewrite Z.pow_add_r, <-!Z.div_div, Z.pow_1_r by lia.
  pose proof (Z.testbit_spec' h1 (32 - k) ltac:(lia)) as B1.
  pose proof (Z.testbit_spec' h2 (32 - k) ltac:(lia)) as B2.
  set (q1 := h1 / 2 ^ (32 - k)) in *. set (q2 := h2 / 2 ^ (32 - k)) in *.
  pose proof (Z.div_mod q1 2). pose proof (Z.div_mod q2 2). intros Hq.
  destruct (Z.testbit h1 (32 - k)), (Z.testbit h2 (32 - k)); cbn [Z.b2z] in *; split; try done; lia.
Qed.

Lemma match_from_spec h1 h2 n : forall i,
  1 <= i -> i + Z.of_nat n <= 33 -> agree h1 h2 (i - 1) ->
  let m := IPRange.match_from n i h1 h2 in
  i <= m <= i + Z.of_nat n /\ agree h1 h2 (m - 1) /\ (m < i + Z.of_nat n -> ~ agree h1 h2 m).
Proof.
  induction n as [|n IH]; intros i Hi Hn Ha; cbn [IPRange.match_from].
  { split_and!; [lia|lia|done|lia]. }
  destruct (Bool.eqb_spec (Z.testbit h1 (32 - i)) (Z.testbit h2 (32 - i))) as [He|He].
  - apply agree_next in He; [|lia|done]. destruct (IH (i + 1)) as (H1 & H2 & H3); [lia|lia| |].
    { by replace (i + 1 - 1) with i by lia. }
    split_and!; [lia|lia|done|]. intros ?. apply H3. lia.
  - split_and!; [lia|lia|done|]. intros _. rewrite agree_next by (done || lia). done.
Qed.

(** ** Properties *)

(** for ranges as the constructor builds them, [Contains] decides
    inclusion of the sets of addresses, and [PrefixMatchLen] is the length of
    the longest prefix, within both masks, on which the base addresses
    agree; so a range contains another one exactly if this length is its mask
    length. *)
Theorem IPRange_Contains_spec a1 len1 a2 len2 :
  0 <= a1 < 2 ^ 32 -> 0 <= len1 <= 32 -> 0 <= a2 < 2 ^ 32 -> 0 <= len2 <= 32 ->
  exists r1 r2 b, IPRange.construct a1 len1 = Ok r1 /\ IPRange.construct a2 len2 = Ok r2 /\
    IPRange.Contains r1 r2 = Ok b /\
    (b = true <-> forall a, 0 <= a < 2 ^ 32 -> in_range a r2 -> in_range a r1) /\
    let k := IPRange.PrefixMatchLen r1 r2 in
    0 <= k <= Z.min len1 len2 /\ agree (host (IPRange.base_address_ r1)) (host (IPRange.base_address_ r2)) k /\
    (k < Z.min len1 len2 ->
       ~ agree (host (IPRange.base_address_ r1)) (host (IPRange.base_address_ r2)) (k + 1)).
Proof.
  intros Ha1 Hl1 Ha2 Hl2. destruct (construct_ok a1 len1 Ha1 Hl1) as (r1 & -> & Hr1 & E1 & _).
  destruct (construct_ok a2 len2 Ha2 Hl2) as (r2 & -> & Hr2 & E2 & _).
  destruct (Contains_subset r1 r2 Hr1 Hr2) as (b & Hb & Hiff). exists r1, r2, b.
  split_and!; [done..|]. unfold IPRange.PrefixMatchLen. rewrite E1, E2.
  set (h1 := host (IPRange.base_address_ r1)). set (h2 := host (IPRange.base_address_ r2)).
  destruct (match_from_spec h1 h2 (Z.to_nat (Z.min len1 len2)) 1) as (H1 & H2 & H3); [lia|lia| |].
  { unfold agree. pose proof (htonl_range (IPRange.base_address_ r1)).
    pose proof (htonl_range (IPRange.base_address_ r2)). rewrite !Z.div_small; [done| |]; done. }
  split_and!; [lia|lia|done|]. intros Hk. replace (_ - 1 + 1) with (IPRange.match_from (Z.to_nat (Z.min len1 len2)) 1 h1 h2) by lia.
  apply H3. lia.
Qed.

(** 10.0.0.0/8 and 10.1.0.0/16. *)
Lemma IPRange_Contains_spec_witness :
  exists r1 r2 b, IPRange.construct 10 8 = Ok r1 /\ IPRange.construct 266 16 = Ok r2 /\
    IPRange.Contains r1 r2 = Ok b /\
    (b = true <-> forall a, 0 <= a < 2 ^ 32 -> in_range a r2 -> in_range a r1) /\
    let k := IPRange.PrefixMatchLen r1 r2 in
    0 <= k <= Z.min 8 16 /\ agree (host (IPRange.base_address_ r1)) (host (IPRange.base_address_ r2)) k /\
    (k < Z.min 8 16 ->
       ~ agree (host (IPRange.base_address_ r1)) (host (IPRange.base_address_ r2)) (k + 1)).
Proof. apply (IPRange_Contains_spec 10 8 266 16); lia. Defined.

Lemma IPRange_Contains_example :
  (r1 ← IPRange.construct 10 8; r2 ← IPRange.construct 266 16;
   b ← IPRange.Contains r1 r2; b' ← IPRange.Contains r2 r1;
   Ok (b, b', IPRange.PrefixMatchLen r1 r2)) = Ok (true, false, 8).
Proof. vm_compute. reflexivity. Qed.

(** The trie of ranges reads the low-order bits of the address: 10.0.0.0/8 and
    11.0.0.0/8 share all the bits of their sequences, so a lookup of the one
    returns the value of the other. *)
Lemma IPRangeTrie_confuses_ranges :
  (r1 ← IPRange.construct 10 8; r2 ← IPRange.construct 11 8;
   trie ← IPRangeTrie.Add Trie.empty_node r1 1;
   IPRangeTrie.ValuesWithPrefix trie r2) = Ok [1].
Proof. vm_compute. reflexivity. Qed.
