(* ===== verification/DisjointSets.v ===== *)
(** Model of [GetDisjointSets] ([src/src/net/net_common.h]): keys that share a
    value, directly or through other keys, are put into the same set.  The
    sets are proved to be the classes of that relation. *)

From S2P Require Import Prelude OrderedMap.

Section disjoint_sets.
Context `{Countable T, !KeyOrder T, Countable V, !KeyOrder V}.

Definition FindOrDie `{Countable K} {A} (m : gmap K A) (k : K) : outcome A :=
  match m !! k with Some v => Ok v | None => Fail CheckFailed end.

(** Depth-first search; [fuel] bounds the depth of the recursion. *)
Fixpoint RecursiveAddToDisjointSets (value_to_keys : gmap V (list T)) (key_to_values : gmap T (list V))
    (fuel : nat) (key : T) (out : gset T) : outcome (gset T) :=
  match fuel with
  | O => Fail OutOfFuel
  | S fuel' =>
      if bool_decide (key ∈ out) then Ok out
      else
        values ← FindOrDie key_to_values key;
        mfold (λ out value,
          keys_for_value ← FindOrDie value_to_keys value;
          mfold (λ out key_for_value,
            if bool_decide (key_for_value = key) then Ok out
            else RecursiveAddToDisjointSets value_to_keys key_to_values fuel' key_for_value out)
            keys_for_value out)
          values ({[key]} ∪ out)
  end.

(** [value_to_keys[value].emplace_back(key)]. *)
Definition add_key (key : T) (m : gmap V (list T)) (value : V) : gmap V (list T) :=
  <[value := default [] (m !! value) ++ [key]]> m.

Definition invert (key_to_values : gmap T (list V)) : outcome (gmap V (list T)) :=
  mfold (λ m '(key, values),
    _ ← check (negb (bool_decide (values = [])));
    Ok (fold_left (add_key key) values m)) (items key_to_values) ∅.

Definition GetDisjointSets (key_to_values : gmap T (list V)) : outcome (list (gset T)) :=
  value_to_keys ← invert key_to_values;
  mfold (λ out '(key, _),
    if existsb (λ output_set, bool_decide (key ∈ output_set)) out then Ok out
    else
      new_set ← RecursiveAddToDisjointSets value_to_keys key_to_values (S (size key_to_values)) key ∅;
      Ok (out ++ [new_set])) (items key_to_values) [].

(** ** The relation *)

Definition values_of (m : gmap T (list V)) (k : T) : list V := default [] (m !! k).
Definition shares (m : gmap T (list V)) (k1 k2 : T) : Prop :=
  exists v, v ∈ values_of m k1 /\ v ∈ values_of m k2.

Lemma shares_sym m k1 k2 : shares m k1 k2 -> shares m k2 k1.
Proof. intros (v & ? & ?). by exists v. Qed.

Lemma connected_sym m k1 k2 : rtc (shares m) k1 k2 -> rtc (shares m) k2 k1.
Proof.
  induction 1 as [|k1 k2 k3 Hs _ IH]; [done|]. eapply rtc_r; [exact IH|]. by apply shares_sym.
Qed.

Lemma values_of_dom m k v : v ∈ values_of m k -> k ∈ dom m.
Proof.
  unfold values_of. intros Hv. apply elem_of_dom. destruct (m !! k); [by eexists|].
  by apply not_elem_of_nil in Hv.
Qed.

(** ** Inverting the map *)

Definition keys_of (m : gmap V (list T)) (v : V) : list T := default [] (m !! v).

Lemma add_keys_spec key values : forall m v k,
  k ∈ keys_of (fold_left (add_key key) values m) v <-> k ∈ keys_of m v \/ (k = key /\ v ∈ values).
Proof.
  induction values as [|x values IH]; intros m v k; cbn [fold_left]; [set_solver|].
  rewrite IH. unfold keys_of, add_key. destruct (decide (x = v)) as [->|Hne].
  - rewrite lookup_insert_eq. cbn. set_solver.
  - rewrite lookup_insert_ne by done. set_solver.
Qed.

Lemma invert_spec m :
  Forall (λ kv, kv.2 <> []) (items m) ->
  exists inv, invert m = Ok inv /\
    forall v k, k ∈ keys_of inv v <-> v ∈ values_of m k.
Proof.
  intros Hne. unfold invert.
  destruct (mfold_inv (λ l inv, forall v k, k ∈ keys_of inv v <-> exists vs, (k, vs) ∈ l /\ v ∈ vs)
    (λ m '(key, values), _ ← check (negb (bool_decide (values = []))); Ok (fold_left (add_key key) values m))
    (items m) ∅) as (inv & -> & Hinv).
  - intros v k. unfold keys_of. rewrite lookup_empty. cbn. set_solver.
  - intros l [key values] inv [l' Hl] Hinv.
    assert (Hin : (key, values) ∈ items m) by (rewrite Hl; set_solver).
    eapply Forall_forall in Hne; [|exact Hin]. cbn in Hne. rewrite bool_decide_false by done.
    eexists. split; [done|]. intros v k. rewrite add_keys_spec, Hinv.
    setoid_rewrite elem_of_app. setoid_rewrite list_elem_of_singleton. split.
    + intros [(vs & ? & ?)|[-> ?]]; eauto.
    + intros (vs & [?|[= -> ->]] & ?); eauto.
  - exists inv. split; [done|]. intros v k. rewrite Hinv. unfold values_of. split.
    + intros (vs & Hk%elem_of_items & Hv). by rewrite Hk.
    + destruct (m !! k) as [vs|] eqn:Hk; cbn; [|by intros ?%not_elem_of_nil].
      intros Hv. exists vs. split; [by apply elem_of_items|done].
Qed.

(** ** The search *)
Section search.
Context (m : gmap T (list V)) (inv : gmap V (list T)).
Hypothesis Hinv : forall v k, k ∈ keys_of inv v <-> v ∈ values_of m k.

(** A search from [key] adds keys that are connected to it, and for every key
    it adds all the keys that share a value. *)
Definition searched (key : T) (out out' : gset T) : Prop :=
  out ⊆ out' /\ (forall k, k ∈ out' -> k ∈ out \/ rtc (shares m) key k) /\
  (forall k k', k ∈ out' -> k ∉ out -> shares m k k' -> k' ∈ out').

Lemma found_keys v k : v ∈ values_of m k -> exists l, FindOrDie inv v = Ok l /\ l = keys_of inv v.
Proof.
  intros Hv%Hinv. unfold FindOrDie, keys_of in *. destruct (inv !! v) as [l|]; [by exists l|].
  by apply not_elem_of_nil in Hv.
Qed.

Lemma RecursiveAdd_spec fuel : forall key out,
  key ∈ dom m -> size (dom m ∖ out) < fuel ->
  exists out', RecursiveAddToDisjointSets inv m fuel key out = Ok out' /\ key ∈ out' /\ searched key out out'.
Proof.
  induction fuel as [|fuel IH]; intros key out Hkey Hf; [lia|]. cbn [RecursiveAddToDisjointSets].
  case_bool_decide as Hin.
  { exists out. split_and!; [done..|]. split_and!; [done|by left|done]. }
  assert (Hdec : forall X, {[key]} ∪ out ⊆ X -> size (dom m ∖ X) < fuel).
  { intros X HX. assert (size (dom m ∖ X) < size (dom m ∖ out)); [|lia].
    apply subset_size. set_solver. }
  pose proof Hkey as [values Hvalues]%elem_of_dom.
  assert (FindOrDie m key = Ok values) as -> by (unfold FindOrDie; by rewrite Hvalues).
  cbn [mbind outcome_bind].
  assert (Hvals : values_of m key = values) by (unfold values_of; by rewrite Hvalues).
  pose (I (P : T -> Prop) out' := {[key]} ∪ out ⊆ out' /\
    (forall k, k ∈ out' -> k ∈ out \/ rtc (shares m) key k) /\
    (forall k k', k ∈ out' -> k ∉ {[key]} ∪ out -> shares m k k' -> k' ∈ out') /\
    (forall k, P k -> k ∈ out')).
  match goal with |- context [mfold ?f values ?b] =>
    destruct (mfold_inv (λ vs out', I (λ k, exists v, v ∈ vs /\ k ∈ keys_of inv v) out') f values b)
      as (out' & -> & H1 & H2 & H3 & H4) end.
  - split_and!; [done| |set_solver|set_solver].
    intros k [->%elem_of_singleton|]%elem_of_union; [by right|by left].
  - intros vs v out1 [vs' Hvs] (H1 & H2 & H3 & H4).
    assert (Hv : v ∈ values_of m key) by (rewrite Hvals, Hvs; set_solver).
    destruct (found_keys v key Hv) as (l & -> & ->). cbn [mbind outcome_bind].
    match goal with |- context [mfold ?f (keys_of inv v) out1] =>
      destruct (mfold_inv (λ ks out', out1 ⊆ out' /\ I (λ k, k ∈ ks) out') f (keys_of inv v) out1)
        as (out2 & -> & Hsub & G1 & G2 & G3 & G4) end.
    + split; [done|]. split_and!; [done..|]. set_solver.
    + intros ks k out2 [ks' Hks] (Hsub & G1 & G2 & G3 & G4).
      assert (Hk : v ∈ values_of m k) by (apply Hinv; rewrite Hks; set_solver).
      assert (Hsh : shares m key k) by by exists v.
      case_bool_decide as Heq.
      { subst k. exists out2. split; [done|]. split; [done|]. split_and!; [done..|].
        intros k [?| ->%list_elem_of_singleton]%elem_of_app; [by apply G4|set_solver]. }
      destruct (IH k out2) as (out3 & Hr & Hin3 & Hs1 & Hs2 & Hs3).
      { by eapply values_of_dom. } { apply Hdec. set_solver. }
      exists out3. split; [done|]. split; [set_solver|]. split_and!; [set_solver| | |].
      * intros x [Hx|Hx]%Hs2; [by apply G2|]. right. by eapply rtc_l.
      * intros x x' Hx Hx' Hxx'. destruct (decide (x ∈ out2)) as [Hx2|Hx2]; [|by eapply Hs3].
        apply Hs1. by eapply G3.
      * intros x [Hx| ->%list_elem_of_singleton]%elem_of_app; [|done]. by apply Hs1, G4.
    + exists out2. split; [done|]. split_and!; [done..|].
      intros k (v' & [Hv'| ->%list_elem_of_singleton]%elem_of_app & Hk); [|by apply G4].
      apply Hsub, H4. by exists v'.
  - exists out'. split; [done|]. split; [set_solver|]. split_and!; [set_solver|done|].
    intros k k' Hk Hk' Hs. destruct (decide (k = key)) as [->|Hne].
    + destruct Hs as (v & Hv1 & Hv2). apply H4. exists v. rewrite <-Hvals. split; [done|].
      by apply Hinv.
    + eapply H3; [done|set_solver|done].
Qed.

(** From an empty set: the class of the key. *)
Lemma RecursiveAdd_class key :
  key ∈ dom m ->
  exists out, RecursiveAddToDisjointSets inv m (S (size m)) key ∅ = Ok out /\
    forall k, k ∈ out <-> rtc (shares m) key k.
Proof.
  intros Hkey. destruct (RecursiveAdd_spec (S (size m)) key ∅ Hkey) as (out & -> & Hin & Hsub & Hr & Hcl).
  { rewrite <-size_dom. pose proof (subseteq_size (dom m ∖ ∅) (dom m) ltac:(set_solver)). lia. }
  exists out. split; [done|]. intros k. split.
  - intros [Hk|Hk]%Hr; [by apply not_elem_of_empty in Hk|done].
  - intros Hc. apply connected_sym in Hc. induction Hc as [|k1 k2 k3 Hs _ IH]; [done|].
    eapply Hcl; [by apply IH|apply not_elem_of_empty|]. by apply shares_sym.
Qed.
End search.

(** The sets found after the keys [l] have been visited: every key of [l] is
    in one, each is a class, and they are pairwise disjoint. *)
Definition classes_so_far (m : gmap T (list V)) (l : list (T * list V)) (out : list (gset T)) : Prop :=
  (forall k, k ∈ l.*1 -> exists s, s ∈ out /\ k ∈ s) /\
  (forall s, s ∈ out -> exists k0, k0 ∈ dom m /\ forall k, k ∈ s <-> rtc (shares m) k0 k) /\
  (forall i j s s', out !! i = Some s -> out !! j = Some s' -> i <> j -> s ## s').

Lemma classes_skip m l out key values s :
  classes_so_far m l out -> s ∈ out -> key ∈ s -> classes_so_far m (l ++ [(key, values)]) out.
Proof.
  intros (H1 & H2 & H3) Hs Hk. split_and!; [|done|done].
  intros k. rewrite fmap_app. intros [?| ->%list_elem_of_singleton]%elem_of_app; [by apply H1|eauto].
Qed.

Lemma classes_add m l out key values s :
  classes_so_far m l out -> key ∈ dom m ->
  (forall s', s' ∈ out -> key ∉ s') -> (forall k, k ∈ s <-> rtc (shares m) key k) ->
  classes_so_far m (l ++ [(key, values)]) (out ++ [s]).
Proof.
  intros (H1 & H2 & H3) Hkey Hfresh Hs.
  assert (Hnew : forall s', s' ∈ out -> s' ## s).
  { intros s' Hs' k Hk1 Hk2. destruct (H2 s' Hs') as (k0 & _ & Hc). apply Hc in Hk1. apply Hs in Hk2.
    apply (Hfresh s' Hs'), Hc. etrans; [exact Hk1|by apply connected_sym]. }
  split_and!.
  - intros k. rewrite fmap_app. intros [Hk| ->%list_elem_of_singleton]%elem_of_app.
    + destruct (H1 k Hk) as (s' & ? & ?). exists s'. set_solver.
    + exists s. split; [set_solver|]. by apply Hs.
  - intros s' [?| ->%list_elem_of_singleton]%elem_of_app; [by apply H2|]. by exists key.
  - intros i j s1 s2 Hi Hj Hij.
    apply lookup_app_Some in Hi as [Hi|[Hi Hi']]; apply lookup_app_Some in Hj as [Hj|[Hj Hj']].
    + by eapply H3.
    + apply list_lookup_singleton_Some in Hj' as [_ <-]. apply Hnew. by eapply list_elem_of_lookup_2.
    + apply list_lookup_singleton_Some in Hi' as [_ <-]. symmetry. apply Hnew. by eapply list_elem_of_lookup_2.
    + apply list_lookup_singleton_Some in Hi' as [? _]. apply list_lookup_singleton_Some in Hj' as [? _]. lia.
Qed.

Lemma connected_dom m k0 k : k0 ∈ dom m -> rtc (shares m) k0 k -> k ∈ dom m.
Proof.
  intros Hk0. induction 1 as [|k1 k2 k3 (v & _ & Hv) _ IH]; [done|].
  apply IH. by eapply values_of_dom.
Qed.

(** ** Properties *)

(** [GetDisjointSets] terminates and returns the classes of the relation
    "share a value, directly or through other keys": the sets cover exactly
    the keys, each set is the class of each of its elements, so that keys of
    different sets share no value, and no class is returned twice. *)
Theorem GetDisjointSets_classes m :
  Forall (λ kv, kv.2 <> []) (items m) ->
  exists out, GetDisjointSets m = Ok out /\
    (forall k, k ∈ dom m <-> exists s, s ∈ out /\ k ∈ s) /\
    (forall s k, s ∈ out -> k ∈ s -> forall k', k' ∈ s <-> rtc (shares m) k k') /\
    (forall i j s s', out !! i = Some s -> out !! j = Some s' -> i <> j -> s ## s').
Proof.
  intros Hne. unfold GetDisjointSets. destruct (invert_spec m Hne) as (inv & -> & Hinv).
  cbn [mbind outcome_bind].
  match goal with |- context [mfold ?f (items m) []] =>
    destruct (mfold_inv (classes_so_far m) f (items m) []) as (out & -> & H1 & H2 & H3) end.
  - split_and!; [set_solver|set_solver|]. intros i j s s' Hi. done.
  - intros l [key values] out [l' Hl] Hout.
    assert (Hkey : key ∈ dom m).
    { apply elem_of_dom. exists values. apply elem_of_items. rewrite Hl. set_solver. }
    destruct (existsb _ out) eqn:He.
    + apply existsb_exists in He as (s & Hs%list_elem_of_In & Hk%bool_decide_eq_true).
      exists out. split; [done|]. by eapply classes_skip.
    + destruct (RecursiveAdd_class m inv Hinv key Hkey) as (s & -> & Hs).
      exists (out ++ [s]). split; [done|]. apply classes_add; [done..| |done].
      intros s' Hs' Hk. apply not_true_iff_false in He. apply He, existsb_exists.
      exists s'. split; [by apply list_elem_of_In|]. by apply bool_decide_eq_true.
  - exists out. split; [done|].
    split_and!; [|  |done].
    + intros k. split.
      * intros [vs Hk]%elem_of_dom. apply H1. apply list_elem_of_fmap. exists (k, vs). split; [done|].
        by apply elem_of_items.
      * intros (s & Hs & Hk). destruct (H2 s Hs) as (k0 & Hk0 & Hc). eapply connected_dom; [exact Hk0|by apply Hc].
    + intros s k Hs Hk k'. destruct (H2 s Hs) as (k0 & Hk0 & Hc). apply Hc in Hk. rewrite Hc. split.
      * intros Hk'. etrans; [by apply connected_sym|done].
      * intros Hk'. by etrans.
Qed.
End disjoint_sets.

(** Links named by the nodes they join: 1 and 2 are joined through node 20. *)
Definition node_links : gmap nat (list nat) := <[1 := [10; 20]]> (<[2 := [20; 30]]> (<[3 := [40]]> ∅)).

Lemma GetDisjointSets_classes_witness :
  Forall (λ kv, kv.2 <> []) (items node_links) /\
  exists out, GetDisjointSets node_links = Ok out /\ length out = 2 /\
    (forall k, k ∈ dom node_links <-> exists s, s ∈ out /\ k ∈ s).
Proof.
  assert (Hne : Forall (λ kv, kv.2 <> []) (items node_links)).
  { replace (items node_links) with [(1, [10; 20]); (2, [20; 30]); (3, [40])] by (vm_compute; reflexivity).
    repeat constructor; discriminate. }
  split; [exact Hne|]. destruct (GetDisjointSets_classes node_links Hne) as (out & Hout & Hk & _).
  exists out. split; [exact Hout|]. split; [|exact Hk].
  assert (Hlen : (out ← GetDisjointSets node_links; Ok (length out)) = Ok 2) by (vm_compute; reflexivity).
  rewrite Hout in Hlen. injection Hlen as Hlen. exact Hlen.
Defined.
