(* ===== verification/Packet.v ===== *)
(** Model of the packets of the simulator ([src/src/htsim/packet.h],
    [packet.cc]) and of what several of its components share: the order of
    five-tuples ([src/src/net/net_common.cc]) and the flow counter
    ([src/src/htsim/flow_counter.h], [flow_counter.cc]). *)

From S2P Require Import Prelude OrderedMap Double EventQueue NetAddr.

(** ** Orders of composed keys: [std::tie] and [std::vector] compare
    lexicographically *)

Section key_orders.
Context `{KeyOrder A, KeyOrder B}.

#[global] Program Instance prod_key_order : KeyOrder (A * B) := {
  key_leb x y := if decide (x.1 = y.1) then key_leb x.2 y.2 else key_leb x.1 y.1
}.
Next Obligation.
  intros [a1 a2] [b1 b2]. cbn. destruct (decide (a1 = b1)) as [->|Hne].
  - rewrite decide_True by done. apply key_leb_total.
  - rewrite decide_False by done. apply key_leb_total.
Qed.
Next Obligation.
  intros [a1 a2] [b1 b2] [c1 c2]. cbn.
  destruct (decide (a1 = b1)) as [->|H1], (decide (b1 = c1)) as [->|H2]; try done.
  - apply key_leb_trans.
  - intros Hab _. by rewrite decide_False.
  - intros Hab Hbc. rewrite decide_False; [by eapply key_leb_trans|].
    intros ->. apply H1. by apply key_leb_antisym.
Qed.
Next Obligation.
  intros [a1 a2] [b1 b2]. cbn. destruct (decide (a1 = b1)) as [->|Hne].
  - rewrite decide_True by done. intros. f_equal. by apply key_leb_antisym.
  - rewrite decide_False by done. intros. destruct Hne. by apply key_leb_antisym.
Qed.

Fixpoint list_leb (x y : list A) : bool :=
  match x, y with
  | [], _ => true
  | _ :: _, [] => false
  | a :: x', b :: y' => if decide (a = b) then list_leb x' y' else key_leb a b
  end.

#[global] Program Instance list_key_order : KeyOrder (list A) := { key_leb := list_leb }.
Next Obligation.
  intros x. induction x as [|a x IH]; intros [|b y]; cbn; auto.
  destruct (decide (a = b)) as [->|Hne].
  - rewrite decide_True by done. apply IH.
  - rewrite decide_False by done. apply key_leb_total.
Qed.
Next Obligation.
  intros x. induction x as [|a x IH]; intros [|b y] [|c z]; cbn; auto; try done.
  destruct (decide (a = b)) as [->|H1], (decide (b = c)) as [->|H2]; try done.
  - apply IH.
  - intros Hab _. by rewrite decide_False.
  - intros Hab Hbc. rewrite decide_False; [by eapply key_leb_trans|].
    intros ->. apply H1. by apply key_leb_antisym.
Qed.
Next Obligation.
  intros x. induction x as [|a x IH]; intros [|b y]; cbn; auto; try done.
  destruct (decide (a = b)) as [->|Hne].
  - rewrite decide_True by done. intros. f_equal. by apply IH.
  - rewrite decide_False by done. intros. destruct Hne. by apply key_leb_antisym.
Qed.
End key_orders.

(** An order through an injective encoding. *)
Definition encoded_key_order `{EqDecision A, KeyOrder B} (f : A -> B) `{!Inj (=) (=) f} : KeyOrder A.
Proof.
  refine {| key_leb x y := key_leb (f x) (f y) |}.
  - intros a b. apply key_leb_total.
  - intros a b c. apply key_leb_trans.
  - intros a b Hab Hba. apply (inj f). by apply key_leb_antisym.
Defined.

(** The order of five-tuples: that of the tuple of the fields. *)
Definition five_tuple_fields (f : FiveTuple.t) : Z * (Z * (Z * (Z * Z))) :=
  (FiveTuple.ip_src f, (FiveTuple.ip_dst f, (FiveTuple.ip_proto f, (FiveTuple.src_port f, FiveTuple.dst_port f)))).

#[global] Instance five_tuple_fields_inj : Inj (=) (=) five_tuple_fields.
Proof. intros [] [] [=]. by subst. Qed.

#[global] Instance five_tuple_key_order : KeyOrder FiveTuple.t := encoded_key_order five_tuple_fields.

#[global] Instance five_tuple_countable : Countable FiveTuple.t.
Proof.
  refine (inj_countable' five_tuple_fields
    (λ '(s, (d, (p, (sp, dp)))), FiveTuple.mk s d p sp dp) _).
  by intros [].
Defined.

(** ** Packets *)
Module Packet.

Record t := mk {
  five_tuple : FiveTuple.t;
  size_bytes : Z;
  ip_id : Z;
  tag : Z;
  ttl : Z;
  time_sent : Z;
  preferential_drop : bool;
  payload_bytes : Z;
  queueing_time : Z;
  propagation_time : Z
}.

#[global] Instance t_eq_dec : EqDecision t.
Proof. solve_decision. Defined.

Definition kDefaultTag : Z := 0%Z.
Definition kDefaultTTL : Z := 100%Z.

(** The constructor of the base class. *)
Definition construct (f : FiveTuple.t) (size time : Z) : t :=
  mk f size 0 kDefaultTag kDefaultTTL time false size 0 0.

(** [UDPPacket::UDPPacket]. *)
Definition construct_udp (f : FiveTuple.t) (size time : Z) : outcome t :=
  _ ← check (0 <? size)%Z; Ok (construct f size time).

Definition set_tag (p : t) (v : Z) : t :=
  mk (five_tuple p) (size_bytes p) (ip_id p) v (ttl p) (time_sent p) (preferential_drop p)
     (payload_bytes p) (queueing_time p) (propagation_time p).
Definition set_ttl (p : t) (v : Z) : t :=
  mk (five_tuple p) (size_bytes p) (ip_id p) (tag p) v (time_sent p) (preferential_drop p)
     (payload_bytes p) (queueing_time p) (propagation_time p).
Definition set_preferential_drop (p : t) (v : bool) : t :=
  mk (five_tuple p) (size_bytes p) (ip_id p) (tag p) (ttl p) (time_sent p) v
     (payload_bytes p) (queueing_time p) (propagation_time p).

(** [--ttl_]. *)
Definition DecrementTTL (p : t) : t * bool :=
  if (ttl p =? 0)%Z then (p, false) else (set_ttl p (ttl p - 1)%Z, true).

Definition AddToQueueingTime (p : t) (time : Z) : t :=
  mk (five_tuple p) (size_bytes p) (ip_id p) (tag p) (ttl p) (time_sent p) (preferential_drop p)
     (payload_bytes p) (EventQueueTime.add (queueing_time p) time) (propagation_time p).
Definition AddToPropagationTime (p : t) (time : Z) : t :=
  mk (five_tuple p) (size_bytes p) (ip_id p) (tag p) (ttl p) (time_sent p) (preferential_drop p)
     (payload_bytes p) (queueing_time p) (EventQueueTime.add (propagation_time p) time).

(** [UDPPacket::Duplicate] builds a new packet and copies the fields. *)
Definition Duplicate (p : t) : outcome t :=
  new_pkt ← construct_udp (five_tuple p) (size_bytes p) (time_sent p);
  Ok (mk (five_tuple new_pkt) (size_bytes new_pkt) (ip_id p) (tag p) (ttl p) (time_sent new_pkt)
         (preferential_drop p) (payload_bytes p) (queueing_time p) (propagation_time p)).

Definition DuplicateWithDifferentSize (p : t) (new_size new_payload : Z) : outcome t :=
  new_ptr ← Duplicate p;
  Ok (mk (five_tuple new_ptr) new_size (ip_id new_ptr) (tag new_ptr) (ttl new_ptr) (time_sent new_ptr)
         (preferential_drop new_ptr) new_payload (queueing_time new_ptr) (propagation_time new_ptr)).

End Packet.

(** ** Counting flows; the event queue is represented by its current time *)
Module FlowCounter.

(** [flows_] holds the times of the first and of the last packet. *)
Record t := mk { period_start_ : Z; flows_ : gmap FiveTuple.t (Z * Z) }.

Definition construct (now : Z) : t := mk now ∅.

Definition NewPacket (c : t) (now : Z) (five_tuple : FiveTuple.t) : t :=
  let '(first, _) := default (now, now) (flows_ c !! five_tuple) in
  mk (period_start_ c) (<[five_tuple := (first, now)]> (flows_ c)).

Definition Clear (c : t) : t := mk (period_start_ c) ∅.

(** The loop over the flows. *)
Definition total_time (c : t) : outcome Z :=
  mfold (λ total '(_, (first, last)),
    delta ← EventQueueTime.sub last first;
    Ok (EventQueueTime.add total delta)) (items (flows_ c)) EventQueueTime.ZeroTime.

(** The result is a whole number, which the callers convert to [uint64_t]. *)
Definition EstimateCountConst (c : t) (now : Z) : outcome Z :=
  period_len ← EventQueueTime.sub now (period_start_ c);
  total ← total_time c;
  flow_count ← Double.to_u64 (Double.div (Double.of_Z (EventQueue.TimeToRawMillis total))
                                         (Double.of_Z (EventQueue.TimeToRawMillis period_len)));
  Ok (Z.max 1 flow_count).

Definition EstimateCount (c : t) (now : Z) : outcome (t * Z) :=
  count ← EstimateCountConst c now;
  Ok (Clear c, count).

End FlowCounter.

(** A counter that is asked in the same millisecond it was created divides by
    zero; the conversion of the quotient is undefined. *)
Example EstimateCount_same_millisecond :
  FlowCounter.EstimateCount (FlowCounter.construct 5) 5 = Fail Undefined.
Proof. reflexivity. Qed.

(** The period is not restarted when the flows are cleared. *)
Lemma EstimateCount_keeps_period c now c' count :
  FlowCounter.EstimateCount c now = Ok (c', count) ->
  FlowCounter.period_start_ c' = FlowCounter.period_start_ c /\ FlowCounter.flows_ c' = ∅.
Proof. unfold FlowCounter.EstimateCount. by intros (n & _ & [= <- _])%bind_Ok. Qed.

(** The last hop is allowed although the TTL becomes 0. *)
Example DecrementTTL_reaches_zero f :
  Packet.DecrementTTL (Packet.set_ttl (Packet.construct f 100 0) 1) =
    (Packet.set_ttl (Packet.construct f 100 0) 0, true).
Proof. reflexivity. Qed.
