(* ===== verification/Match.v ===== *)
(** Model of the matcher of a device ([src/src/htsim/match.h], [match.cc]):
    rules with weighted actions and their statistics, the seven-level tree of
    rules with a wildcard branch at every level, and the set of rules it is
    built from.  Rules are objects in a store that maps an address to a rule;
    the leaves of the tree and the map of rules hold addresses, and using the
    address of a rule that was destroyed is undefined.  The random generator
    of an action is a parameter, a function of its seed and of how many
    numbers were drawn before.  Printing and [FractionOfTraffic], which only
    printing uses, are not modelled. *)

From S2P Require Import Prelude OrderedMap Double EventQueue NetAddr Packet.

Definition kWildPacketTag : Z := 0%Z.
Definition kWildAccessLayerPort : Z := 0%Z.
Definition kWildDevicePortNumber : Z := 0%Z.
Definition kWildIPAddress : Z := 0%Z.
Definition kWildIPProto : Z := 0%Z.
Definition kNullPacketTag : Z := umax 32.

Module MatchRuleKey.

Record t := mk { tag_ : Z; input_port_ : Z; five_tuples_ : list FiveTuple.t }.

#[global] Instance t_eq_dec : EqDecision t.
Proof. solve_decision. Defined.

(** [operator<] compares these. *)
Definition fields (k : t) : Z * (Z * list FiveTuple.t) := (input_port_ k, (tag_ k, five_tuples_ k)).

#[global] Instance fields_inj : Inj (=) (=) fields.
Proof. intros [] [] [=]. by subst. Qed.

#[global] Instance t_countable : Countable t.
Proof. refine (inj_countable' fields (λ '(p, (g, l)), mk g p l) _). by intros []. Defined.

#[global] Instance t_key_order : KeyOrder t := encoded_key_order fields.

End MatchRuleKey.

Module ActionStats.

Record t := mk {
  output_port : Z;
  tag : Z;
  total_bytes_matched : Z;
  total_pkts_matched : Z;
  flow_count : Z
}.

Definition construct (output_port_ tag_ : Z) : t := mk output_port_ tag_ 0 0 (umax 64).

End ActionStats.

(** ** Actions *)
Module MatchRuleAction.
Import ActionStats.

Record t := mk {
  output_port_ : Z;
  tag_ : Z;
  weight_ : Z;
  stats_ : ActionStats.t;
  flow_counter_ : option FlowCounter.t;
  sample_prob_ : spec_float;
  draws_ : nat;
  preferential_drop_ : bool
}.

Definition construct (output_port_ tag_ weight_ : Z) : t :=
  mk output_port_ tag_ weight_ (ActionStats.construct output_port_ tag_) None (Double.of_Z 0) 0 false.

Definition set_stats (a : t) (s : ActionStats.t) : t :=
  mk (output_port_ a) (tag_ a) (weight_ a) s (flow_counter_ a) (sample_prob_ a) (draws_ a) (preferential_drop_ a).
Definition set_flow_counter (a : t) (c : option FlowCounter.t) (p : spec_float) : t :=
  mk (output_port_ a) (tag_ a) (weight_ a) (stats_ a) c p (draws_ a) (preferential_drop_ a).
Definition set_preferential_drop (a : t) (b : bool) : t :=
  mk (output_port_ a) (tag_ a) (weight_ a) (stats_ a) (flow_counter_ a) (sample_prob_ a) (draws_ a) b.

(** The seed of [generator_]. *)
Definition seed (a : t) : Z := u32 (output_port_ a + weight_ a).

Definition nonzero (f : spec_float) : bool := negb (SFeqb f (Double.of_Z 0)).

Definition EnableFlowCounter (a : t) (n : Z) (now : Z) : outcome t :=
  _ ← check (negb (n =? 0)%Z);
  Ok (set_flow_counter a (Some (FlowCounter.construct now)) (Double.div (Double.of_Z 1) (Double.of_Z n))).

(** The copy constructor. *)
Definition copy (other : t) (now : Z) : outcome t :=
  let a := set_preferential_drop (construct (output_port_ other) (tag_ other) (weight_ other))
             (preferential_drop_ other) in
  if nonzero (sample_prob_ other) then
    _ ← check (bool_decide (is_Some (flow_counter_ other)));
    n ← Double.to_u64 (Double.div (Double.of_Z 1) (sample_prob_ other));
    EnableFlowCounter a n now
  else Ok a.

(** The flow counter is behind a pointer: estimating clears its flows. *)
Definition Stats (a : t) (include_flow_count : bool) (now : Z) : outcome (t * ActionStats.t) :=
  match flow_counter_ a with
  | Some c =>
      if include_flow_count then
        '(c', count) ← FlowCounter.EstimateCount c now;
        let s := stats_ a in
        Ok (set_flow_counter a (Some c') (sample_prob_ a),
            ActionStats.mk (output_port s) (tag s) (total_bytes_matched s) (total_pkts_matched s) count)
      else Ok (a, stats_ a)
  | None => Ok (a, stats_ a)
  end.

Section draw.
Context (draw : Z -> nat -> spec_float).

(** What a packet does to the flow counter. *)
Definition sample (a : t) (pkt : Packet.t) (now : Z) : t :=
  match flow_counter_ a with
  | Some c =>
      if nonzero (sample_prob_ a) then
        let c' := if Double.leb (draw (seed a) (draws_ a)) (sample_prob_ a)
                  then FlowCounter.NewPacket c now (Packet.five_tuple pkt) else c in
        mk (output_port_ a) (tag_ a) (weight_ a) (stats_ a) (Some c') (sample_prob_ a)
           (S (draws_ a)) (preferential_drop_ a)
      else a
  | None => a
  end.

Definition UpdateStats (a : t) (pkt : Packet.t) (now : Z) : outcome t :=
  let s := stats_ a in
  let prev := total_bytes_matched s in
  let s' := ActionStats.mk (output_port s) (tag s)
              (u64 (total_bytes_matched s + Packet.size_bytes pkt))
              (u64 (total_pkts_matched s + 1)) (flow_count s) in
  _ ← check (prev <=? total_bytes_matched s')%Z;
  Ok (sample (set_stats a s') pkt now).
End draw.

Definition MergeStats (a : t) (stats : ActionStats.t) : outcome t :=
  let s := stats_ a in
  let s' := ActionStats.mk (output_port s) (tag s)
              (u64 (total_bytes_matched s + total_bytes_matched stats))
              (u64 (total_pkts_matched s + total_pkts_matched stats)) (flow_count s) in
  _ ← check (total_bytes_matched s <=? total_bytes_matched s')%Z;
  _ ← check (total_pkts_matched s <=? total_pkts_matched s')%Z;
  Ok (set_stats a s').

End MatchRuleAction.

(** ** Rules *)
Module MatchRule.
Import MatchRuleAction.

(** [parent_matcher_] is only compared with null. *)
Record t := mk {
  key_ : MatchRuleKey.t;
  total_weight_ : Z;
  actions_ : list MatchRuleAction.t;
  parent_matcher_ : bool
}.

Definition construct (key : MatchRuleKey.t) : t := mk key 0 [] false.

Definition set_actions (r : t) (l : list MatchRuleAction.t) : t :=
  mk (key_ r) (total_weight_ r) l (parent_matcher_ r).

Definition set_parent_matcher (r : t) : outcome t :=
  _ ← check (negb (parent_matcher_ r));
  Ok (mk (key_ r) (total_weight_ r) (actions_ r) true).

Definition AddAction (r : t) (action : MatchRuleAction.t) : outcome t :=
  _ ← mfold (λ _ current_action,
        if (output_port_ current_action =? output_port_ action)%Z
        then check (negb (tag_ current_action =? tag_ action)%Z) else Ok tt) (actions_ r) tt;
  let actions := actions_ r ++ [action] in
  Ok (mk (key_ r) (fold_left (λ w a, u32 (w + weight_ a)) actions 0%Z) actions (parent_matcher_ r)).

(** The loop that looks for the action of a hash value. *)
Fixpoint choose_loop (l : list MatchRuleAction.t) (hash : Z) (i : nat) : outcome nat :=
  match l with
  | [] => Fail CheckFailed
  | a :: l' => if (hash <? weight_ a)%Z then Ok i else choose_loop l' (hash - weight_ a)%Z (S i)
  end.

(** The private [ChooseOrNull]; an action is named by its position. *)
Definition ChooseIndexOrNull (r : t) (five_tuple : FiveTuple.t) : outcome (option nat) :=
  match actions_ r with
  | [_] => Ok (Some 0)
  | _ =>
      let hash := FiveTuple.GetHash five_tuple in
      if (total_weight_ r =? 0)%Z then Ok None
      else i ← choose_loop (actions_ r) (hash mod total_weight_ r)%Z 0; Ok (Some i)
  end.

Definition update_action (draw : Z -> nat -> spec_float) (r : t) (i : nat) (pkt : Packet.t) (now : Z) :
    outcome (t * MatchRuleAction.t) :=
  a ← vec_at (actions_ r) i;
  a' ← UpdateStats draw a pkt now;
  Ok (set_actions r (<[i := a']> (actions_ r)), a').

Definition ChooseOrNull (draw : Z -> nat -> spec_float) (r : t) (pkt : Packet.t) (now : Z) :
    outcome (t * option MatchRuleAction.t) :=
  i ← ChooseIndexOrNull r (Packet.five_tuple pkt);
  match i with
  | None => Ok (r, None)
  | Some i => '(r', a) ← update_action draw r i pkt now; Ok (r', Some a)
  end.

Definition ExplicitChooseOrDie (draw : Z -> nat -> spec_float) (r : t) (pkt : Packet.t) (i : nat) (now : Z) :
    outcome (t * MatchRuleAction.t) :=
  _ ← check (bool_decide (i < length (actions_ r)));
  update_action draw r i pkt now.

Definition Stats (r : t) (include_flow_count : bool) (now : Z) : outcome (t * list ActionStats.t) :=
  '(actions, out) ← mfold (λ '(actions, out) a,
      '(a', s) ← MatchRuleAction.Stats a include_flow_count now;
      Ok (actions ++ [a'], out ++ [s])) (actions_ r) ([], []);
  Ok (set_actions r actions, out).

(** One action of [MergeStats].  The other rule may be the same object; its
    actions differ in port or tag, so that an action then only meets itself. *)
Definition merge_action (others : list MatchRuleAction.t) (a : MatchRuleAction.t) : outcome MatchRuleAction.t :=
  mfold (λ a other,
    if ((tag_ a =? tag_ other) && (output_port_ a =? output_port_ other))%Z%bool
    then MatchRuleAction.MergeStats a (stats_ other) else Ok a) others a.

Definition MergeStats (r other_rule : t) : outcome t :=
  actions ← mfold (λ out a, a' ← merge_action (actions_ other_rule) a; Ok (out ++ [a'])) (actions_ r) [];
  Ok (set_actions r actions).

Definition Clone (r : t) (now : Z) : outcome t :=
  mfold (λ clone action, a ← copy action now; AddAction clone a) (actions_ r) (construct (key_ r)).

End MatchRule.

(** ** The tree *)

(** The value a level branches on, and its wildcard. *)
Definition GetKeyAndWildcard (Index : nat) (five_tuple : FiveTuple.t) (input_port input_tag : Z) :
    outcome (Z * Z) :=
  match Index with
  | 0 => Ok (input_port, kWildDevicePortNumber)
  | 1 => Ok (input_tag, kWildPacketTag)
  | 2 => Ok (FiveTuple.ip_dst five_tuple, kWildIPAddress)
  | 3 => Ok (FiveTuple.ip_src five_tuple, kWildIPAddress)
  | 4 => Ok (FiveTuple.ip_proto five_tuple, kWildIPProto)
  | 5 => Ok (FiveTuple.src_port five_tuple, kWildAccessLayerPort)
  | 6 => Ok (FiveTuple.dst_port five_tuple, kWildAccessLayerPort)
  | _ => Fail CheckFailed
  end.

(** The rules, by their addresses. *)
Notation store := (gmap nat MatchRule.t).

Definition deref (rules : store) (ptr : nat) : outcome MatchRule.t :=
  match rules !! ptr with Some r => Ok r | None => Fail Undefined end.

Module MatchNode.

Definition MaxIndex : nat := 7.

(** A node with [levels] levels below it, at [Index] = 7 - [levels]: the
    children and the wildcard child; the leaf holds a rule or null. *)
Fixpoint t (levels : nat) : Type :=
  match levels with
  | O => option nat
  | S levels' => (gmap Z (t levels') * option (t levels'))%type
  end.

Definition empty (levels : nat) : t levels :=
  match levels with O => None | S _ => (∅, None) end.

Fixpoint ClearRule (levels : nat) (rule : nat) : t levels -> t levels :=
  match levels with
  | O => λ rule_, if decide (rule_ = Some rule) then None else rule_
  | S levels' => λ '(children_, wildcard_child_),
      (ClearRule levels' rule <$> children_, ClearRule levels' rule <$> wildcard_child_)
  end.

Section tuple.
Context (five_tuple : FiveTuple.t) (input_port input_tag : Z).

Fixpoint MatchOrNull (levels : nat) : t levels -> outcome (option nat) :=
  match levels with
  | O => λ rule_, Ok rule_
  | S levels' => λ '(children_, wildcard_child_),
      '(key, wildcard) ← GetKeyAndWildcard (MaxIndex - S levels') five_tuple input_port input_tag;
      exact_match ← match children_ !! key with
                    | Some child => MatchOrNull levels' child
                    | None => Ok None
                    end;
      match exact_match with
      | Some rule => Ok (Some rule)
      | None =>
          match wildcard_child_ with
          | Some child => MatchOrNull levels' child
          | None => Ok None
          end
      end
  end.

Fixpoint InsertOrUpdate (levels : nat) (rule : nat) : t levels -> store -> outcome (t levels * store) :=
  match levels with
  | O => λ rule_ rules,
      rules' ← match rule_ with
               | Some old =>
                   r ← deref rules rule;
                   other ← deref rules old;
                   r' ← MatchRule.MergeStats r other;
                   Ok (<[rule := r']> rules)
               | None => Ok rules
               end;
      Ok (Some rule, rules')
  | S levels' => λ '(children_, wildcard_child_) rules,
      '(key, wildcard) ← GetKeyAndWildcard (MaxIndex - S levels') five_tuple input_port input_tag;
      if (key =? wildcard)%Z then
        '(child, rules') ← InsertOrUpdate levels' rule (default (empty levels') wildcard_child_) rules;
        Ok ((children_, Some child), rules')
      else
        '(child, rules') ← InsertOrUpdate levels' rule (default (empty levels') (children_ !! key)) rules;
        Ok ((<[key := child]> children_, wildcard_child_), rules')
  end.
End tuple.

End MatchNode.

(** ** The matcher *)
Module Matcher.

Record t := mk {
  root_ : MatchNode.t MatchNode.MaxIndex;
  all_rules_ : gmap MatchRuleKey.t nat;
  rules : store
}.

Definition construct : t := mk (MatchNode.empty MatchNode.MaxIndex) ∅ ∅.

Definition MatchOrNull (draw : Z -> nat -> spec_float) (m : t) (pkt : Packet.t) (input_port now : Z) :
    outcome (t * option MatchRuleAction.t) :=
  _ ← check (negb (input_port =? kWildDevicePortNumber)%Z);
  rule ← MatchNode.MatchOrNull (Packet.five_tuple pkt) input_port (Packet.tag pkt) MatchNode.MaxIndex (root_ m);
  match rule with
  | None => Ok (m, None)
  | Some ptr =>
      r ← deref (rules m) ptr;
      '(r', a) ← MatchRule.ChooseOrNull draw r pkt now;
      Ok (mk (root_ m) (all_rules_ m) (<[ptr := r']> (rules m)), a)
  end.

(** [ptr] is the address of the rule.  The rule that is replaced, and a rule
    without actions, are destroyed. *)
Definition AddRule (m : t) (ptr : nat) (rule : MatchRule.t) : outcome t :=
  let key := MatchRule.key_ rule in
  rule ← MatchRule.set_parent_matcher rule;
  let delete_rule := bool_decide (MatchRule.actions_ rule = []) in
  let rules0 := <[ptr := rule]> (rules m) in
  '(root, rules1) ←
    (if delete_rule then Ok (root_ m, rules0)
     else mfold (λ '(root, rules) five_tuple,
            MatchNode.InsertOrUpdate five_tuple (MatchRuleKey.input_port_ key) (MatchRuleKey.tag_ key)
              MatchNode.MaxIndex ptr root rules)
            (MatchRuleKey.five_tuples_ key) (root_ m, rules0));
  let to_clear := all_rules_ m !! key in
  let '(root, rules2) :=
    match to_clear with
    | Some old => (MatchNode.ClearRule MatchNode.MaxIndex old root, delete old rules1)
    | None => (root, rules1)
    end in
  if delete_rule then Ok (mk root (delete key (all_rules_ m)) (delete ptr rules2))
  else Ok (mk root (<[key := ptr]> (all_rules_ m)) rules2).

Definition NumRules (m : t) : nat := size (all_rules_ m).

(** [PopulateSSCPStats]: the statistics of the rules, in the order of the keys.
    [AddStats] dies when a key is already there, which the keys of a map are not. *)
Definition PopulateSSCPStats (m : t) (include_flow_counts : bool) (now : Z) :
    outcome (t * list (MatchRuleKey.t * list ActionStats.t)) :=
  '(rules', out) ← mfold (λ '(rules, out) '(key, ptr),
      r ← deref rules ptr;
      '(r', s) ← MatchRule.Stats r include_flow_counts now;
      Ok (<[ptr := r']> rules, out ++ [(key, s)])) (items (all_rules_ m)) (rules m, []);
  Ok (mk (root_ m) (all_rules_ m) rules', out).

End Matcher.

(** ** The tree as a map from patterns to rules *)

(** The values a five-tuple, port and tag give the levels. *)
Definition pattern (five_tuple : FiveTuple.t) (input_port input_tag : Z) : list Z :=
  [input_port; input_tag; FiveTuple.ip_dst five_tuple; FiveTuple.ip_src five_tuple;
   FiveTuple.ip_proto five_tuple; FiveTuple.src_port five_tuple; FiveTuple.dst_port five_tuple].

(** The part of a pattern that the levels of a node look at. *)
Definition tail_at (levels : nat) (p : list Z) : list Z := drop (MatchNode.MaxIndex - levels) p.

Lemma GetKeyAndWildcard_spec levels f port g :
  levels < 7 ->
  exists key, GetKeyAndWildcard (MatchNode.MaxIndex - S levels) f port g = Ok (key, 0%Z) /\
    tail_at (S levels) (pattern f port g) = key :: tail_at levels (pattern f port g).
Proof. intros Hl. do 7 (destruct levels as [|levels]; [by eexists|]). lia. Qed.

Fixpoint leaf_at (levels : nat) : MatchNode.t levels -> list Z -> option nat :=
  match levels with
  | O => λ rule_ p, match p with [] => rule_ | _ => None end
  | S levels' => λ '(children_, wildcard_child_) p,
      match p with
      | [] => None
      | k :: p' => (if (k =? 0)%Z then wildcard_child_ else children_ !! k) ≫= λ child, leaf_at levels' child p'
      end
  end.

Lemma leaf_at_cons levels (ch : gmap Z (MatchNode.t levels)) (w : option (MatchNode.t levels)) k p :
  leaf_at (S levels) (ch, w) (k :: p) =
    (if (k =? 0)%Z then w else ch !! k) ≫= λ child, leaf_at levels child p.
Proof. done. Qed.

Lemma node_inv levels (node : MatchNode.t (S levels)) :
  exists (ch : gmap Z (MatchNode.t levels)) (w : option (MatchNode.t levels)), node = (ch, w).
Proof. destruct node as [ch w]. by exists ch, w. Qed.

(** The wildcard is never the key of a child. *)
Fixpoint node_ok (levels : nat) : MatchNode.t levels -> Prop :=
  match levels with
  | O => λ _, True
  | S levels' => λ '(children_, wildcard_child_),
      children_ !! 0%Z = None /\ map_Forall (λ _, node_ok levels') children_ /\
      (forall child, wildcard_child_ = Some child -> node_ok levels' child)
  end.

Lemma node_ok_S levels (ch : gmap Z (MatchNode.t levels)) (w : option (MatchNode.t levels)) :
  node_ok (S levels) (ch, w) <->
    ch !! 0%Z = None /\ map_Forall (λ _, node_ok levels) ch /\ (forall child, w = Some child -> node_ok levels child).
Proof. done. Qed.

Fixpoint set_leaf (levels : nat) (rule : nat) : MatchNode.t levels -> list Z -> MatchNode.t levels :=
  match levels with
  | O => λ _ _, Some rule
  | S levels' => λ '(children_, wildcard_child_) p,
      match p with
      | [] => (children_, wildcard_child_)
      | k :: p' =>
          if (k =? 0)%Z then
            (children_, Some (set_leaf levels' rule (default (MatchNode.empty levels') wildcard_child_) p'))
          else
            (<[k := set_leaf levels' rule (default (MatchNode.empty levels') (children_ !! k)) p']> children_,
             wildcard_child_)
      end
  end.

Lemma leaf_at_empty levels p : leaf_at levels (MatchNode.empty levels) p = None.
Proof. destruct levels; cbn; [by destruct p|]. destruct p as [|k p]; [done|]. by destruct (k =? 0)%Z. Qed.

Lemma node_ok_empty levels : node_ok levels (MatchNode.empty levels).
Proof. destruct levels; cbn; [done|]. split_and!; [done|apply map_Forall_empty|done]. Qed.

Lemma node_ok_default levels (o : option (MatchNode.t levels)) :
  (forall child, o = Some child -> node_ok levels child) ->
  node_ok levels (default (MatchNode.empty levels) o).
Proof. intros Ho. destruct o as [child|]; cbn; [by apply Ho|apply node_ok_empty]. Qed.

Lemma leaf_at_default levels (o : option (MatchNode.t levels)) p :
  leaf_at levels (default (MatchNode.empty levels) o) p = o ≫= λ child, leaf_at levels child p.
Proof. destruct o; cbn; [done|apply leaf_at_empty]. Qed.

Lemma set_leaf_spec levels rule : forall node p q,
  length p = levels -> length q = levels ->
  leaf_at levels (set_leaf levels rule node p) q = if decide (q = p) then Some rule else leaf_at levels node q.
Proof.
  induction levels as [|levels IH]; intros node [|k p] [|k' q] Hp Hq; try done.
  injection Hp as Hp. injection Hq as Hq. destruct (node_inv _ node) as (ch & w & ->). cbn [set_leaf].
  destruct (Z.eqb_spec k 0) as [->|Hk]; cbn [leaf_at].
  - destruct (Z.eqb_spec k' 0) as [->|Hk'].
    + cbn. rewrite IH, leaf_at_default by done. do 2 case_decide; congruence.
    + rewrite (decide_False (P := k' :: q = _)) by congruence. done.
  - destruct (Z.eqb_spec k' 0) as [->|Hk'].
    + rewrite (decide_False (P := 0%Z :: q = _)) by congruence. done.
    + destruct (decide (k' = k)) as [->|Hne].
      * rewrite lookup_insert_eq. cbn. rewrite IH, leaf_at_default by done. do 2 case_decide; congruence.
      * rewrite lookup_insert_ne by done. rewrite (decide_False (P := k' :: q = _)) by congruence. done.
Qed.

Lemma set_leaf_ok levels rule : forall node p, node_ok levels node -> node_ok levels (set_leaf levels rule node p).
Proof.
  induction levels as [|levels IH]; intros node p; [done|]. destruct (node_inv _ node) as (ch & w & ->).
  intros (H0 & Hch & Hw). destruct p as [|k p]; [done|]. cbn [set_leaf].
  destruct (Z.eqb_spec k 0) as [->|Hk]; cbn [node_ok].
  - split_and!; [done|done|]. intros child [= <-]. by apply IH, node_ok_default.
  - split_and!; [by rewrite lookup_insert_ne| |done].
    apply map_Forall_insert_2; [|done]. apply IH, node_ok_default. intros child Hc. by eapply Hch.
Qed.

Lemma ClearRule_leaf levels rule : forall node p,
  leaf_at levels (MatchNode.ClearRule levels rule node) p =
    if decide (leaf_at levels node p = Some rule) then None else leaf_at levels node p.
Proof.
  induction levels as [|levels IH]; intros node p.
  { cbn. destruct p; [done|]. by case_decide. }
  destruct (node_inv _ node) as (ch & w & ->). cbn [MatchNode.ClearRule]. destruct p as [|k p]; [cbn; by case_decide|].
  rewrite !leaf_at_cons. destruct (k =? 0)%Z.
  - destruct w as [child|]; cbn; [apply IH|done].
  - rewrite lookup_fmap. destruct (ch !! k) as [child|]; cbn; [apply IH|done].
Qed.

Lemma ClearRule_ok levels rule : forall node, node_ok levels node -> node_ok levels (MatchNode.ClearRule levels rule node).
Proof.
  induction levels as [|levels IH]; intros node; [done|]. destruct (node_inv _ node) as (ch & w & ->).
  intros (H0 & Hch & Hw). cbn. split_and!.
  - rewrite lookup_fmap. apply fmap_None. exact H0.
  - intros k child. rewrite lookup_fmap. intros Hc. apply fmap_Some in Hc as (child' & Hc & ->).
    eapply IH, Hch, Hc.
  - intros child Hc. apply fmap_Some in Hc as (child' & Hc & ->). by apply IH, Hw.
Qed.

(** ** Matching: the most specific pattern first *)

(** The patterns that match a packet: at every level its value or the
    wildcard, the value first. *)
Fixpoint candidates (p : list Z) : list (list Z) :=
  match p with
  | [] => [[]]
  | k :: p' => (cons k <$> candidates p') ++ (cons 0%Z <$> candidates p')
  end.

Lemma head_omap_app {A B} (f : A -> option B) l1 l2 :
  head (omap f (l1 ++ l2)) = match head (omap f l1) with Some b => Some b | None => head (omap f l2) end.
Proof. induction l1 as [|a l1 IH]; [done|]. cbn. by destruct (f a). Qed.

Lemma omap_cons_bind (o : option (list Z -> option nat)) (f : list Z -> option nat) k l :
  (forall p, f (k :: p) = o ≫= λ g, g p) ->
  omap f (cons k <$> l) = match o with Some g => omap g l | None => [] end.
Proof.
  intros Hf. induction l as [|p l IH]; cbn; [by destruct o|].
  rewrite Hf, IH. destruct o as [g|]; cbn; [|done]. by destruct (g p).
Qed.

Section tuple.
Context (five_tuple : FiveTuple.t) (input_port input_tag : Z).
Notation pat := (pattern five_tuple input_port input_tag).

Lemma MatchOrNull_S levels (ch : gmap Z (MatchNode.t levels)) (w : option (MatchNode.t levels)) key :
  GetKeyAndWildcard (MatchNode.MaxIndex - S levels) five_tuple input_port input_tag = Ok (key, 0%Z) ->
  MatchNode.MatchOrNull five_tuple input_port input_tag (S levels) (ch, w) =
    (let matched (o : option (MatchNode.t levels)) :=
       match o with
       | Some child => MatchNode.MatchOrNull five_tuple input_port input_tag levels child
       | None => Ok None
       end in
     exact_match ← matched (ch !! key);
     match exact_match with Some rule => Ok (Some rule) | None => matched w end).
Proof. intros Hkey. cbn [MatchNode.MatchOrNull]. by rewrite Hkey. Qed.

Lemma MatchOrNull_tree levels : forall node,
  levels <= 7 -> node_ok levels node ->
  MatchNode.MatchOrNull five_tuple input_port input_tag levels node =
    Ok (head (omap (leaf_at levels node) (candidates (tail_at levels pat)))).
Proof.
  induction levels as [|levels IH]; intros node Hl Hok.
  { cbn. by destruct node. }
  destruct (GetKeyAndWildcard_spec levels five_tuple input_port input_tag) as (key & Hkey & ->); [lia|].
  destruct (node_inv _ node) as (ch & w & ->). destruct (proj1 (node_ok_S _ _ _) Hok) as (H0 & Hch & Hw).
  rewrite (MatchOrNull_S _ _ _ _ Hkey). cbn [candidates]. rewrite head_omap_app. cbv zeta.
  rewrite (omap_cons_bind (leaf_at levels <$> (if (key =? 0)%Z then w else ch !! key)))
    by (intros p; rewrite leaf_at_cons; by destruct (if (key =? 0)%Z then w else ch !! key)).
  rewrite (omap_cons_bind (leaf_at levels <$> w)) by (intros p; rewrite leaf_at_cons; by destruct w).
  assert (Hwm : match w with
                | Some child => MatchNode.MatchOrNull five_tuple input_port input_tag levels child
                | None => Ok None
                end = Ok (head (match leaf_at levels <$> w with
                                | Some g => omap g (candidates (tail_at levels pat))
                                | None => []
                                end))).
  { destruct w as [child|]; [|done]. apply IH; [lia|by apply Hw]. }
  destruct (Z.eqb_spec key 0) as [->|Hne].
  - rewrite H0. cbn [mbind outcome_bind]. rewrite Hwm. by destruct (head _).
  - destruct (ch !! key) as [child|] eqn:Hc.
    + rewrite IH; [|lia|by eapply Hch]. cbn [mbind outcome_bind fmap option_fmap option_map].
      destruct (head (omap (leaf_at levels child) _)); [done|]. exact Hwm.
    + exact Hwm.
Qed.

(** Inserting into the tree and merging the statistics are independent. *)
Definition merge_at (rule : nat) (old : option nat) (rules : store) : outcome store :=
  match old with
  | Some old =>
      r ← deref rules rule;
      other ← deref rules old;
      r' ← MatchRule.MergeStats r other;
      Ok (<[rule := r']> rules)
  | None => Ok rules
  end.

Lemma InsertOrUpdate_tree levels rule : forall node rules,
  levels <= 7 ->
  MatchNode.InsertOrUpdate five_tuple input_port input_tag levels rule node rules =
    (rules' ← merge_at rule (leaf_at levels node (tail_at levels pat)) rules;
     Ok (set_leaf levels rule node (tail_at levels pat), rules')).
Proof.
  induction levels as [|levels IH]; intros node rules Hl; [done|].
  destruct (GetKeyAndWildcard_spec levels five_tuple input_port input_tag) as (key & Hkey & ->); [lia|].
  destruct (node_inv _ node) as (ch & w & ->). cbn [MatchNode.InsertOrUpdate leaf_at set_leaf]. rewrite Hkey.
  cbn [mbind outcome_bind]. destruct (Z.eqb_spec key 0) as [->|Hne];
    (rewrite IH by lia; rewrite leaf_at_default; by destruct (merge_at _ _ _)).
Qed.
End tuple.

(** ** Results that can only fail on a [CHECK], and not when [F] holds *)

Definition succeeds_if {A} (F : Prop) (m : outcome A) (P : A -> Prop) : Prop :=
  match m with Ok a => P a | Fail CheckFailed => ~ F | Fail _ => False end.

Lemma succeeds_bind {A B} F (m : outcome A) (f : A -> outcome B) P Q :
  succeeds_if F m P -> (forall a, P a -> succeeds_if F (f a) Q) -> succeeds_if F (m ≫= f) Q.
Proof. destruct m as [a|[]]; cbn; auto. Qed.

Lemma succeeds_impl {A} F (m : outcome A) (P Q : A -> Prop) :
  succeeds_if F m P -> (forall a, P a -> Q a) -> succeeds_if F m Q.
Proof. destruct m as [a|[]]; cbn; auto. Qed.

Lemma succeeds_check F b (P : unit -> Prop) : (F -> b = true) -> P tt -> succeeds_if F (check b) P.
Proof. intros Hb HP. destruct b; cbn; [done|]. intros HF. by specialize (Hb HF). Qed.

Lemma succeeds_mfold {A S} F (I : list A -> S -> Prop) (f : S -> A -> outcome S) l s :
  I [] s ->
  (forall done_ a s, (done_ ++ [a]) `prefix_of` l -> I done_ s -> succeeds_if F (f s a) (I (done_ ++ [a]))) ->
  succeeds_if F (mfold f l s) (I l).
Proof.
  intros H0 Hstep.
  cut (forall l2 l1 s, l = l1 ++ l2 -> I l1 s -> succeeds_if F (mfold f l2 s) (I l)).
  { intros Hc. by apply (Hc l [] s). }
  clear s H0. induction l2 as [|a l2 IH]; intros l1 s -> HI; cbn [mfold].
  { by rewrite app_nil_r. }
  eapply succeeds_bind.
  - apply (Hstep l1); [|done]. exists l2. by rewrite <-app_assoc.
  - intros s' HI'. apply (IH (l1 ++ [a])); [|done]. by rewrite <-app_assoc.
Qed.

(** ** Rules keep their shape, and their counters a bound *)

Definition ends (a : MatchRuleAction.t) : Z * Z := (MatchRuleAction.output_port_ a, MatchRuleAction.tag_ a).
Definition ident (a : MatchRuleAction.t) : Z * Z * Z := (ends a, MatchRuleAction.weight_ a).

Definition stats_le (x : Z) (s : ActionStats.t) : Prop :=
  (0 <= ActionStats.total_bytes_matched s <= x)%Z /\ (0 <= ActionStats.total_pkts_matched s <= x)%Z.
Definition action_le (x : Z) (a : MatchRuleAction.t) : Prop := stats_le x (MatchRuleAction.stats_ a).
Definition rule_le (x : Z) (r : MatchRule.t) : Prop := Forall (action_le x) (MatchRule.actions_ r).

Definition shape (r : MatchRule.t) : MatchRuleKey.t * Z * list (Z * Z * Z) :=
  (MatchRule.key_ r, MatchRule.total_weight_ r, ident <$> MatchRule.actions_ r).

Definition sum_weights (l : list Z) : Z := foldr Z.add 0%Z l.

(** What [AddAction] establishes. *)
Definition shape_ok (s : MatchRuleKey.t * Z * list (Z * Z * Z)) : Prop :=
  NoDup s.2.*1 /\ Forall (λ w, 0 <= w < 2 ^ 32)%Z s.2.*2 /\ s.1.2 = u32 (sum_weights s.2.*2).
Definition rule_ok (r : MatchRule.t) : Prop := shape_ok (shape r).

Lemma MergeStats_action F x y a s :
  (F -> action_le x a) -> (F -> stats_le y s) -> (F -> (x + y <= umax 64)%Z) ->
  succeeds_if F (MatchRuleAction.MergeStats a s) (λ a', ident a' = ident a /\ (F -> action_le (x + y) a')).
Proof.
  intros Ha Hs Hb. unfold MatchRuleAction.MergeStats.
  assert (Hw : F -> forall u v, (0 <= u <= x)%Z -> (0 <= v <= y)%Z -> u64 (u + v) = (u + v)%Z).
  { intros HF u v ? ?. apply wrap_id. specialize (Hb HF). unfold umax in Hb. lia. }
  eapply succeeds_bind; [apply (succeeds_check _ _ (λ _, True)); [|done]|intros _ _].
  { intros HF. destruct (Ha HF), (Hs HF). cbn. rewrite Hw by done. lia. }
  eapply succeeds_bind; [apply (succeeds_check _ _ (λ _, True)); [|done]|intros _ _].
  { intros HF. destruct (Ha HF), (Hs HF). cbn. rewrite Hw by done. lia. }
  split; [done|]. intros HF. destruct (Ha HF), (Hs HF). split; cbn; rewrite Hw by done; lia.
Qed.

Lemma action_le_mono x y a : (x <= y)%Z -> action_le x a -> action_le y a.
Proof. intros Hxy [H1 H2]. split; lia. Qed.

Lemma merge_action_none others a :
  ends a ∉ ends <$> others -> MatchRule.merge_action others a = Ok a.
Proof.
  induction others as [|o others IH]; [done|]. intros [Hne Hin]%not_elem_of_cons.
  unfold MatchRule.merge_action. cbn [mfold].
  destruct (andb _ _) eqn:He.
  - apply andb_true_iff in He as [H1%Z.eqb_eq H2%Z.eqb_eq]. unfold ends in Hne. congruence.
  - by apply IH.
Qed.

Lemma merge_action_spec F x B others : forall a,
  NoDup (ends <$> others) -> (0 <= B)%Z ->
  (F -> action_le x a) -> (F -> Forall (action_le B) others) -> (F -> (x + B <= umax 64)%Z) ->
  succeeds_if F (MatchRule.merge_action others a) (λ a', ident a' = ident a /\ (F -> action_le (x + B) a')).
Proof.
  induction others as [|o others IH]; intros a Hnd HB Ha Ho Hx.
  { split; [done|]. intros HF. eapply action_le_mono; [|by apply Ha]. lia. }
  apply NoDup_cons in Hnd as [Hnin Hnd]. unfold MatchRule.merge_action. cbn [mfold].
  destruct (andb _ _) eqn:He; [|].
  - apply andb_true_iff in He as [H1%Z.eqb_eq H2%Z.eqb_eq].
    eapply succeeds_bind.
    { eapply (MergeStats_action F x B); [done| |done]. intros HF. specialize (Ho HF). by inversion Ho. }
    intros a' [Hid Ha']. assert (Hn : MatchRule.merge_action others a' = Ok a').
    { apply merge_action_none. replace (ends a') with (ends o); [done|].
      unfold ident in Hid. unfold ends in *. congruence. }
    unfold MatchRule.merge_action in Hn. rewrite Hn. done.
  - apply IH; try done. intros HF. specialize (Ho HF). by inversion Ho.
Qed.

Lemma ends_ident l : ends <$> l = (ident <$> l).*1.
Proof. by rewrite <-list_fmap_compose. Qed.

Lemma MergeStats_rule F x B r other :
  rule_ok other -> (0 <= B)%Z ->
  (F -> rule_le x r) -> (F -> rule_le B other) -> (F -> (x + B <= umax 64)%Z) ->
  succeeds_if F (MatchRule.MergeStats r other) (λ r', shape r' = shape r /\ (F -> rule_le (x + B) r')).
Proof.
  intros (Hnd & _) HB Hr Ho Hx. unfold MatchRule.MergeStats. eapply succeeds_bind.
  - apply (succeeds_mfold F (λ l out, ident <$> out = ident <$> l /\ (F -> Forall (action_le (x + B)) out))).
    + done.
    + intros l a out [l' Hl] [Hid Hle]. eapply succeeds_bind.
      * apply (merge_action_spec F x B); [by rewrite ends_ident|done| |done|done].
        intros HF. specialize (Hr HF). unfold rule_le in Hr. rewrite Hl, <-app_assoc in Hr.
        apply Forall_app in Hr as [_ Hr]. by inversion Hr.
      * intros a' [Hid' Ha']. split; [by rewrite !fmap_app, Hid; cbn; rewrite Hid'|].
        intros HF. apply Forall_app. auto.
  - intros actions [Hid Hle]. split; [|done]. unfold shape. cbn. by rewrite Hid.
Qed.

(** ** Choosing an action *)

Definition weights (r : MatchRule.t) : list Z := MatchRuleAction.weight_ <$> MatchRule.actions_ r.

Lemma weights_shape r : weights r = (shape r).2.*2.
Proof. unfold weights, shape. cbn. by rewrite <-list_fmap_compose. Qed.

(** The action that is found covers the hash value. *)
Lemma choose_loop_spec l : forall hash i,
  Forall (λ a, 0 <= MatchRuleAction.weight_ a)%Z l ->
  (0 <= hash < sum_weights (MatchRuleAction.weight_ <$> l))%Z ->
  exists j, j < length l /\ MatchRule.choose_loop l hash i = Ok (i + j) /\
    (sum_weights (take j (MatchRuleAction.weight_ <$> l)) <= hash
      < sum_weights (take (S j) (MatchRuleAction.weight_ <$> l)))%Z.
Proof.
  induction l as [|a l IH]; intros hash i Hpos Hh; cbn in Hh; [lia|].
  apply Forall_cons in Hpos as [Ha Hpos]. cbn [MatchRule.choose_loop].
  destruct (Z.ltb_spec hash (MatchRuleAction.weight_ a)).
  - exists 0. split; [cbn; lia|]. split; [by rewrite Nat.add_0_r|]. cbn. destruct l; cbn; lia.
  - destruct (IH (hash - MatchRuleAction.weight_ a)%Z (S i)) as (j & Hj & -> & Hs); [done| |].
    { unfold sum_weights in *. lia. }
    exists (S j). split; [cbn; lia|]. split; [f_equal; lia|]. cbn [fmap list_fmap take sum_weights foldr] in *.
    unfold sum_weights in *. cbn [foldr]. lia.
Qed.

Lemma sum_weights_nonneg l : Forall (λ w, 0 <= w)%Z l -> (0 <= sum_weights l)%Z.
Proof. induction 1; cbn; [lia|]. unfold sum_weights in *. lia. Qed.

Lemma rule_ok_weights r : rule_ok r -> Forall (λ w, 0 <= w)%Z (weights r).
Proof. intros (_ & Hw & _). rewrite weights_shape. eapply Forall_impl; [exact Hw|]. cbn. lia. Qed.

Lemma rule_ok_actions r : rule_ok r -> Forall (λ a, 0 <= MatchRuleAction.weight_ a)%Z (MatchRule.actions_ r).
Proof. intros Hw%rule_ok_weights. unfold weights in Hw. by rewrite Forall_fmap in Hw. Qed.

(** The choice of a rule never fails: the total, also when it has wrapped
    around, is at most the sum of the weights. *)
Lemma ChooseIndexOrNull_total r f :
  rule_ok r ->
  exists i, MatchRule.ChooseIndexOrNull r f = Ok i /\ (forall j, i = Some j -> j < length (MatchRule.actions_ r)).
Proof.
  intros Hok. pose proof (rule_ok_actions r Hok) as Hpos. pose proof (rule_ok_weights r Hok) as Hnn.
  destruct Hok as (_ & _ & Htot). cbn [fst snd shape] in Htot.
  assert (Hgen : exists i,
    (if (MatchRule.total_weight_ r =? 0)%Z then Ok None
     else i ← MatchRule.choose_loop (MatchRule.actions_ r)
                (FiveTuple.GetHash f mod MatchRule.total_weight_ r)%Z 0; Ok (Some i)) = Ok i /\
    (forall j, i = Some j -> j < length (MatchRule.actions_ r))).
  { destruct (Z.eqb_spec (MatchRule.total_weight_ r) 0) as [|Hne]; [by eexists|].
    assert (Hle : (0 < MatchRule.total_weight_ r <= sum_weights (weights r))%Z).
    { rewrite weights_shape in *. cbn [snd shape] in *. pose proof (sum_weights_nonneg _ Hnn).
      split; [|rewrite Htot; apply Z.mod_le; [done|lia]].
      pose proof (wrap_bound 32 (sum_weights (ident <$> MatchRule.actions_ r).*2)). unfold u32 in Htot. lia. }
    destruct (choose_loop_spec (MatchRule.actions_ r) (FiveTuple.GetHash f mod MatchRule.total_weight_ r) 0)
      as (j & Hj & -> & _); [done| |].
    { pose proof (Z.mod_pos_bound (FiveTuple.GetHash f) (MatchRule.total_weight_ r)).
      change (sum_weights _) with (sum_weights (weights r)). lia. }
    eexists. split; [done|]. by intros j' [= <-]. }
  unfold MatchRule.ChooseIndexOrNull. destruct (MatchRule.actions_ r) as [|a [|b l]]; [done| |done].
  eexists. split; [done|]. intros j [= <-]. cbn. lia.
Qed.

Lemma UpdateStats_ident F draw a pkt now x :
  (0 <= Packet.size_bytes pkt < 2 ^ 32)%Z ->
  (F -> action_le x a) -> (F -> (x + 2 ^ 32 <= umax 64)%Z) ->
  succeeds_if F (MatchRuleAction.UpdateStats draw a pkt now)
    (λ a', ident a' = ident a /\ MatchRuleAction.preferential_drop_ a' = MatchRuleAction.preferential_drop_ a).
Proof.
  intros Hp Ha Hx. unfold MatchRuleAction.UpdateStats. eapply succeeds_bind.
  - apply (succeeds_check _ _ (λ _, True)); [|done]. intros HF. destruct (Ha HF) as [Hb _]. specialize (Hx HF). cbn.
    unfold umax in Hx. apply Z.leb_le. unfold u64. rewrite wrap_id by lia. lia.
  - intros _ _. unfold MatchRuleAction.sample. cbn. destruct (MatchRuleAction.flow_counter_ a); [|done].
    by destruct (MatchRuleAction.nonzero _).
Qed.

Lemma ChooseOrNull_shape F draw r pkt now x :
  rule_ok r -> (0 <= Packet.size_bytes pkt < 2 ^ 32)%Z -> (F -> rule_le x r) -> (F -> (x + 2 ^ 32 <= umax 64)%Z) ->
  succeeds_if F (MatchRule.ChooseOrNull draw r pkt now) (λ '(r', _), shape r' = shape r).
Proof.
  intros Hok Hp Hr Hx. unfold MatchRule.ChooseOrNull.
  destruct (ChooseIndexOrNull_total r (Packet.five_tuple pkt) Hok) as (i & -> & Hi). cbn [mbind outcome_bind].
  destruct i as [j|]; [|done]. specialize (Hi j eq_refl). unfold MatchRule.update_action.
  destruct (lookup_lt_is_Some_2 _ _ Hi) as [a Ha]. unfold vec_at. rewrite Ha. cbn [mbind outcome_bind].
  eapply succeeds_bind; [|].
  - eapply succeeds_bind; [apply (UpdateStats_ident F draw a pkt now x); [done| |done]|].
    { intros HF. eapply Forall_lookup_1; [apply (Hr HF)|done]. }
    intros a' [Hid _].
    instantiate (1 := λ ra, shape ra.1 = shape r). cbn. unfold shape. cbn. f_equal.
    rewrite list_fmap_insert, Hid, list_insert_id; [done|]. by rewrite list_lookup_fmap, Ha.
  - intros [r' a'] Hs. done.
Qed.


Lemma Stats_action_ident a b now a' s : MatchRuleAction.Stats a b now = Ok (a', s) -> ident a' = ident a.
Proof.
  unfold MatchRuleAction.Stats. destruct (MatchRuleAction.flow_counter_ a) as [c|]; [|by intros [= <- _]].
  destruct b; [|by intros [= <- _]]. destruct (FlowCounter.EstimateCount c now) as [[c' n]|]; [|done].
  cbn. by intros [= <- _].
Qed.

Lemma Stats_shape r b now r' out : MatchRule.Stats r b now = Ok (r', out) -> shape r' = shape r.
Proof.
  unfold MatchRule.Stats. intros ([actions out'] & Hf & [= <- _])%bind_Ok.
  unfold shape. cbn. f_equal.
  cut (forall l acc out acc' out',
    mfold (λ '(actions, out) a, '(a', s) ← MatchRuleAction.Stats a b now; Ok (actions ++ [a'], out ++ [s]))
      l (acc, out) = Ok (acc', out') -> ident <$> acc' = (ident <$> acc) ++ (ident <$> l)).
  { intros Hc. apply (Hc _ _ _ _ _ Hf). }
  clear Hf. induction l as [|a l IH]; intros acc out0 acc' out0'; cbn [mfold].
  - intros [= <- _]. by rewrite app_nil_r.
  - intros ([acc1 out1] & ([a' s] & Ha%Stats_action_ident & [= <- _])%bind_Ok & ->%IH)%bind_Ok.
    rewrite fmap_app. cbn. by rewrite Ha, <-app_assoc.
Qed.

(** ** The invariant of the matcher *)

Definition patterns (key : MatchRuleKey.t) : list (list Z) :=
  (λ f, pattern f (MatchRuleKey.input_port_ key) (MatchRuleKey.tag_ key)) <$> MatchRuleKey.five_tuples_ key.

Definition leaf (m : Matcher.t) (p : list Z) : option nat := leaf_at MatchNode.MaxIndex (Matcher.root_ m) p.

Record wf (m : Matcher.t) : Prop := {
  wf_node : node_ok MatchNode.MaxIndex (Matcher.root_ m);
  wf_leaf p ptr : length p = 7 -> leaf m p = Some ptr ->
    exists key, Matcher.all_rules_ m !! key = Some ptr /\ p ∈ patterns key;
  wf_rule key ptr : Matcher.all_rules_ m !! key = Some ptr ->
    exists r, Matcher.rules m !! ptr = Some r /\ MatchRule.key_ r = key /\
      MatchRule.actions_ r <> [] /\ rule_ok r;
  wf_store ptr r : Matcher.rules m !! ptr = Some r -> Matcher.all_rules_ m !! MatchRule.key_ r = Some ptr
}.

Lemma wf_construct : wf Matcher.construct.
Proof.
  split; [apply node_ok_empty| | |].
  - intros p ptr _. unfold leaf. cbn [Matcher.root_ Matcher.construct]. by rewrite leaf_at_empty.
  - intros key ptr. cbn. by rewrite lookup_empty.
  - intros ptr r. cbn. by rewrite lookup_empty.
Qed.

Lemma shape_actions r r' : shape r' = shape r -> MatchRule.actions_ r <> [] -> MatchRule.actions_ r' <> [].
Proof.
  intros [= _ _ Hs] Hne Hnil. rewrite Hnil in Hs. cbn in Hs. symmetry in Hs. by apply fmap_nil_inv in Hs.
Qed.

(** Replacing a rule by one of the same shape. *)
Lemma wf_update m ptr r r' :
  wf m -> Matcher.rules m !! ptr = Some r -> shape r' = shape r ->
  wf (Matcher.mk (Matcher.root_ m) (Matcher.all_rules_ m) (<[ptr := r']> (Matcher.rules m))).
Proof.
  intros Hwf Hr Hs. split; cbn [Matcher.root_ Matcher.all_rules_ Matcher.rules]; [apply Hwf|apply Hwf| |].
  - intros key p Hp. destruct (wf_rule m Hwf key p Hp) as (r0 & Hr0 & Hk & Hne & Hok).
    destruct (decide (p = ptr)) as [->|Hne']; [|exists r0; rewrite lookup_insert_ne by done; done].
    assert (r0 = r) as -> by congruence. exists r'. rewrite lookup_insert_eq. split_and!; [done| |by eapply shape_actions|].
    + by injection Hs as ->.
    + unfold rule_ok. by rewrite Hs.
  - intros p r0. destruct (decide (p = ptr)) as [->|]; [|rewrite lookup_insert_ne by done; apply Hwf].
    rewrite lookup_insert_eq. intros [= <-]. injection Hs as -> _ _. by apply (wf_store m Hwf).
Qed.

Lemma length_pattern p key : p ∈ patterns key -> length p = 7.
Proof. intros (f & -> & _)%list_elem_of_fmap. done. Qed.

Lemma pattern_inj port g : Inj (=) (=) (λ f, pattern f port g).
Proof. intros [] [] [=]. by subst. Qed.

(** The insertion of all five-tuples of a rule. *)
Section insert_all.
Context (F : Prop) (B : Z) (m : Matcher.t) (ptr : nat) (rule : MatchRule.t).
Notation key := (MatchRule.key_ rule).
Notation pat f := (pattern f (MatchRuleKey.input_port_ key) (MatchRuleKey.tag_ key)).
Hypothesis Hwf : wf m.
Hypothesis Hfresh : Matcher.rules m !! ptr = None.
Hypothesis Hrule : rule_ok rule.
Hypothesis HB : (0 <= B)%Z.
Hypothesis HFnd : F -> NoDup (MatchRuleKey.five_tuples_ key).
Hypothesis HFstore : F -> forall p r, Matcher.rules m !! p = Some r -> rule_le B r.
Hypothesis HFrule : F -> rule_le B rule.
Hypothesis HFmax : F -> ((1 + Z.of_nat (length (MatchRuleKey.five_tuples_ key))) * B <= umax 64)%Z.

Definition inserted (l : list FiveTuple.t) (s : MatchNode.t MatchNode.MaxIndex * store) : Prop :=
  node_ok MatchNode.MaxIndex s.1 /\
  (forall p, length p = 7 -> leaf_at MatchNode.MaxIndex s.1 p =
     if decide (p ∈ ((λ f, pat f) <$> l)) then Some ptr else leaf m p) /\
  (exists r', s.2 = <[ptr := r']> (Matcher.rules m) /\ shape r' = shape rule /\
     (F -> rule_le ((1 + Z.of_nat (length l)) * B) r')).

(** The rule of a leaf, seen from the rule that is inserted. *)
Lemma inserted_deref l s f old :
  inserted l s -> (l ++ [f]) `prefix_of` MatchRuleKey.five_tuples_ key ->
  leaf_at MatchNode.MaxIndex s.1 (pat f) = Some old ->
  exists other, s.2 !! old = Some other /\ rule_ok other /\ (F -> rule_le B other).
Proof.
  intros (Hok & Hleaf & r' & Hrules & Hs & Hle) [l' Hl]. rewrite Hleaf by done.
  case_decide as Hin.
  - intros [= <-]. exists r'. rewrite Hrules, lookup_insert_eq. split_and!; [done| |].
    + unfold rule_ok. by rewrite Hs.
    + intros HF. exfalso. apply list_elem_of_fmap in Hin as (f' & Hf' & Hin).
      apply (pattern_inj (MatchRuleKey.input_port_ key) (MatchRuleKey.tag_ key)) in Hf' as <-.
      specialize (HFnd HF). rewrite Hl, <-app_assoc in HFnd. apply NoDup_app in HFnd as (_ & Hd & _).
      apply (Hd f); [done|set_solver].
  - intros Hold. destruct (wf_leaf m Hwf (pat f) old eq_refl Hold) as (k & Hk & _).
    destruct (wf_rule m Hwf k old Hk) as (other & Hother & _ & _ & Hook).
    exists other. rewrite Hrules, lookup_insert_ne by (intros ->; congruence).
    split_and!; [done|done|]. intros HF. by eapply HFstore.
Qed.

Lemma insert_step l s f :
  inserted l s -> (l ++ [f]) `prefix_of` MatchRuleKey.five_tuples_ key ->
  succeeds_if F
    (MatchNode.InsertOrUpdate f (MatchRuleKey.input_port_ key) (MatchRuleKey.tag_ key) MatchNode.MaxIndex ptr s.1 s.2)
    (inserted (l ++ [f])).
Proof.
  intros Hs Hpre. pose proof (inserted_deref l s f) as Hderef. rewrite InsertOrUpdate_tree by done.
  change (tail_at MatchNode.MaxIndex (pat f)) with (pat f).
  destruct Hs as (Hok & Hleaf & r' & Hrules & Hs & Hle).
  eapply (succeeds_bind _ _ _ (λ rules, exists r', rules = <[ptr := r']> (Matcher.rules m) /\ shape r' = shape rule /\
     (F -> rule_le ((1 + Z.of_nat (length (l ++ [f]))) * B) r'))).
  - rewrite length_app. cbn [length]. unfold merge_at. destruct (leaf_at _ s.1 (pat f)) as [old|] eqn:Hold.
    + destruct (Hderef old) as (other & Ho & Hook & Hole); [by split_and!; [..|exists r'] |done|done|].
      assert (Hd : forall p r, s.2 !! p = Some r -> deref s.2 p = Ok r) by (intros p r Hp; unfold deref; by rewrite Hp).
      rewrite (Hd ptr r') by (rewrite Hrules; apply lookup_insert_eq). rewrite (Hd old other Ho).
      cbn [mbind outcome_bind]. eapply succeeds_bind.
      * eapply (MergeStats_rule F ((1 + Z.of_nat (length l)) * B) B); [done..|]. intros HF. specialize (HFmax HF).
        destruct Hpre as [l' Hl]. rewrite Hl, !length_app in HFmax. cbn [length] in HFmax. nia.
      * intros r'' [Hs' Hle']. exists r''. rewrite Hrules, insert_insert_eq. split_and!; [done|congruence|].
        intros HF. replace ((1 + Z.of_nat (length l + 1)) * B)%Z with ((1 + Z.of_nat (length l)) * B + B)%Z by lia.
        auto.
    + exists r'. split_and!; [done|done|]. intros HF. eapply Forall_impl; [by apply Hle|].
      intros a. apply action_le_mono. nia.
  - intros rules Hr. split_and!; [by apply set_leaf_ok| |done].
    intros p Hp. cbn [fst]. rewrite set_leaf_spec, Hleaf, fmap_app by done.
    do 2 case_decide; try case_decide; subst; set_solver.
Qed.

Lemma insert_all :
  succeeds_if F
    (mfold (λ '(root, rules) five_tuple,
       MatchNode.InsertOrUpdate five_tuple (MatchRuleKey.input_port_ key) (MatchRuleKey.tag_ key)
         MatchNode.MaxIndex ptr root rules)
       (MatchRuleKey.five_tuples_ key) (Matcher.root_ m, <[ptr := rule]> (Matcher.rules m)))
    (inserted (MatchRuleKey.five_tuples_ key)).
Proof.
  apply succeeds_mfold.
  - split_and!; [apply Hwf| |].
    + intros p _. by rewrite decide_False by set_solver.
    + exists rule. split_and!; [done..|]. intros HF. rewrite Z.mul_1_l. auto.
  - intros l f [root rules] Hpre Hs. by apply (insert_step l (root, rules)).
Qed.
End insert_all.

Lemma succeeds_split {A} F (m : outcome A) P :
  succeeds_if False m P -> (F -> succeeds_if True m (λ _, True)) -> succeeds_if F m P.
Proof. destruct m as [a|[]]; cbn; [done| |done..]. intros _ Hf HF. by apply (Hf HF). Qed.

(** ** The operations refine a map from patterns to rules *)

(** The rule of every pattern after a rule with the given key was added. *)
Definition leaf_after (m : Matcher.t) (ptr : nat) (rule : MatchRule.t) (p : list Z) : option nat :=
  if decide (p ∈ patterns (MatchRule.key_ rule)) then
    if decide (MatchRule.actions_ rule = []) then
      if decide (leaf m p = Matcher.all_rules_ m !! MatchRule.key_ rule) then None else leaf m p
    else Some ptr
  else leaf m p.

(** Enough to keep the counters of the actions below [2 ^ 64]. *)
Definition counters_fit (m : Matcher.t) (rule : MatchRule.t) : Prop :=
  NoDup (MatchRuleKey.five_tuples_ (MatchRule.key_ rule)) /\
  exists B, (0 <= B)%Z /\ rule_le B rule /\ (forall p r, Matcher.rules m !! p = Some r -> rule_le B r) /\
    ((1 + Z.of_nat (length (MatchRuleKey.five_tuples_ (MatchRule.key_ rule)))) * B <= umax 64)%Z.

Definition added (m : Matcher.t) (ptr : nat) (rule : MatchRule.t) (m' : Matcher.t) : Prop :=
  wf m' /\ (forall p, length p = 7 -> leaf m' p = leaf_after m ptr rule p) /\
  Matcher.all_rules_ m' =
    if decide (MatchRule.actions_ rule = []) then delete (MatchRule.key_ rule) (Matcher.all_rules_ m)
    else <[MatchRule.key_ rule := ptr]> (Matcher.all_rules_ m).

(** Only the patterns of a key lead to its rule. *)
Lemma leaf_of_key m key ptr p :
  wf m -> Matcher.all_rules_ m !! key = Some ptr -> length p = 7 -> leaf m p = Some ptr -> p ∈ patterns key.
Proof.
  intros Hwf Hk Hp Hl. destruct (wf_leaf m Hwf p ptr Hp Hl) as (key' & Hk' & Hin).
  destruct (wf_rule m Hwf _ _ Hk) as (r & Hr & <- & _). destruct (wf_rule m Hwf _ _ Hk') as (r' & Hr' & <- & _).
  by assert (r' = r) as -> by congruence.
Qed.

(** The store after the old rule is destroyed. *)
Lemma ptr_of_key m key ptr r p :
  wf m -> Matcher.all_rules_ m !! key = Some ptr -> Matcher.rules m !! p = Some r -> p <> ptr -> MatchRule.key_ r <> key.
Proof. intros Hwf Hk Hr Hne <-. apply (wf_store m Hwf) in Hr. congruence. Qed.

Lemma delete_rule_spec m key :
  wf m ->
  let old := Matcher.all_rules_ m !! key in
  let m' := Matcher.mk (from_option (λ old, MatchNode.ClearRule MatchNode.MaxIndex old (Matcher.root_ m)) (Matcher.root_ m) old)
              (delete key (Matcher.all_rules_ m)) (from_option (λ old, delete old (Matcher.rules m)) (Matcher.rules m) old) in
  wf m' /\ forall p, length p = 7 ->
    leaf m' p = if decide (p ∈ patterns key) then if decide (leaf m p = old) then None else leaf m p else leaf m p.
Proof.
  intros Hwf old m'.
  assert (Hleaf : forall p, length p = 7 -> leaf m' p =
    if decide (p ∈ patterns key) then if decide (leaf m p = old) then None else leaf m p else leaf m p).
  { intros p Hp. unfold m', leaf. cbn [Matcher.root_]. destruct old as [o|] eqn:Ho; cbn [from_option].
    - rewrite ClearRule_leaf. fold (leaf m p). case_decide as Hl; case_decide as Hin; try done.
      by pose proof (leaf_of_key m key o p Hwf Ho Hp Hl).
    - fold (leaf m p). repeat case_decide; congruence. }
  split; [|exact Hleaf]. split.
  - unfold m'. cbn [Matcher.root_]. destruct old; cbn [from_option]; [apply ClearRule_ok|]; apply Hwf.
  - intros p ptr Hp. rewrite Hleaf by done. intros Hl.
    assert (Hl' : leaf m p = Some ptr) by (repeat case_decide; congruence).
    destruct (wf_leaf m Hwf p ptr Hp Hl') as (k & Hk & Hin). exists k. split; [|done]. unfold m'. cbn [Matcher.all_rules_].
    rewrite lookup_delete_ne; [done|]. intros <-. rewrite decide_True, decide_True in Hl by (unfold old; congruence). done.
  - intros k ptr. unfold m'. cbn [Matcher.all_rules_ Matcher.rules]. intros [Hne Hk]%lookup_delete_Some.
    destruct (wf_rule m Hwf k ptr Hk) as (r & Hr & Hkr & Hrest). exists r. split_and!; [|done|apply Hrest..].
    destruct old as [o|] eqn:Ho; cbn [from_option]; [|done]. rewrite lookup_delete_ne; [done|]. intros ->.
    destruct (wf_rule m Hwf key ptr Ho) as (r' & Hr' & Hkr' & _). congruence.
  - intros ptr r. unfold m'. cbn [Matcher.all_rules_ Matcher.rules]. intros Hr.
    destruct old as [o|] eqn:Ho; cbn [from_option] in Hr.
    + apply lookup_delete_Some in Hr as [Hne Hr]. rewrite lookup_delete_ne; [by apply (wf_store m Hwf)|].
      apply not_eq_sym. by eapply ptr_of_key.
    + pose proof (wf_store m Hwf ptr r Hr) as Hk. rewrite lookup_delete_ne; [done|]. intros Heq. unfold old in Ho. congruence.
Qed.

(** The state after the insertions, before the old rule is cleared. *)
Lemma replace_rule_spec m ptr rule root r' :
  wf m -> Matcher.rules m !! ptr = None -> rule_ok rule -> MatchRule.actions_ rule <> [] -> shape r' = shape rule ->
  node_ok MatchNode.MaxIndex root ->
  (forall p, length p = 7 -> leaf_at MatchNode.MaxIndex root p =
     if decide (p ∈ patterns (MatchRule.key_ rule)) then Some ptr else leaf m p) ->
  let old := Matcher.all_rules_ m !! MatchRule.key_ rule in
  added m ptr rule (Matcher.mk
    (from_option (λ old, MatchNode.ClearRule MatchNode.MaxIndex old root) root old)
    (<[MatchRule.key_ rule := ptr]> (Matcher.all_rules_ m))
    (from_option (λ old, delete old (<[ptr := r']> (Matcher.rules m))) (<[ptr := r']> (Matcher.rules m)) old)).
Proof.
  intros Hwf Hfresh Hok Hne Hs Hnode Hroot old.
  assert (Hold : forall o, old = Some o -> o <> ptr).
  { intros o Ho ->. destruct (wf_rule m Hwf _ _ Ho) as (r & Hr & _). congruence. }
  assert (Hkey : MatchRule.key_ r' = MatchRule.key_ rule) by (by injection Hs).
  match goal with |- added _ _ _ ?m' => set (m1 := m') end.
  assert (Hleaf : forall p, length p = 7 -> leaf m1 p = leaf_after m ptr rule p).
  { intros p Hp. unfold m1, leaf, leaf_after. cbn [Matcher.root_]. rewrite (decide_False (P := _ = [])) by done.
    destruct old as [o|] eqn:Ho; cbn [from_option]; [|by apply Hroot].
    rewrite ClearRule_leaf, Hroot by done. specialize (Hold o eq_refl).
    destruct (decide (p ∈ patterns _)) as [Hin|Hin]; [by rewrite decide_False by congruence|].
    rewrite decide_False; [done|]. intros Hl. by pose proof (leaf_of_key m _ o p Hwf Ho Hp Hl). }
  split; [|split; [exact Hleaf|by rewrite decide_False]]. split.
  - unfold m1. cbn [Matcher.root_]. destruct old; cbn [from_option]; [by apply ClearRule_ok|done].
  - intros p q Hp. rewrite Hleaf by done. unfold leaf_after. rewrite (decide_False (P := _ = [])) by done.
    unfold m1. cbn [Matcher.all_rules_]. case_decide as Hin; intros Hl.
    + injection Hl as <-. exists (MatchRule.key_ rule). by rewrite lookup_insert_eq.
    + destruct (wf_leaf m Hwf p q Hp Hl) as (k & Hk & Hin'). exists k. split; [|done].
      rewrite lookup_insert_ne; [done|]. by intros <-.
  - intros k q. unfold m1. cbn [Matcher.all_rules_ Matcher.rules]. intros [[<- <-]|[Hk Hq]]%lookup_insert_Some.
    + exists r'. split_and!; [|done|by eapply shape_actions|by unfold rule_ok; rewrite Hs].
      destruct old as [o|] eqn:Ho; cbn [from_option]; [rewrite lookup_delete_ne by (by apply Hold)|]; apply lookup_insert_eq.
    + destruct (wf_rule m Hwf k q Hq) as (r & Hr & Hkr & Hrest). exists r. split_and!; [|done|apply Hrest..].
      assert (Hi : <[ptr := r']> (Matcher.rules m) !! q = Some r) by (rewrite lookup_insert_ne; congruence).
      destruct old as [o|] eqn:Ho; cbn [from_option]; [|done]. rewrite lookup_delete_ne; [done|]. intros ->.
      destruct (wf_rule m Hwf _ _ Ho) as (r0 & Hr0 & Hk0 & _). congruence.
  - intros q r. unfold m1. cbn [Matcher.all_rules_ Matcher.rules]. intros Hr.
    assert (Hi : <[ptr := r']> (Matcher.rules m) !! q = Some r /\ Some q <> old).
    { destruct old as [o|]; cbn [from_option] in Hr; [|by split]. apply lookup_delete_Some in Hr as [? ?]. split; congruence. }
    destruct Hi as [[[<- <-]|[Hq Hr']]%lookup_insert_Some Hqo].
    + rewrite Hkey. apply lookup_insert_eq.
    + pose proof (wf_store m Hwf q r Hr') as Hk. rewrite lookup_insert_ne; [done|]. intros Heq. apply Hqo.
      unfold old. by rewrite Heq.
Qed.

Lemma AddRule_spec m ptr rule :
  wf m -> Matcher.rules m !! ptr = None -> MatchRule.parent_matcher_ rule = false -> rule_ok rule ->
  succeeds_if (counters_fit m rule) (Matcher.AddRule m ptr rule) (added m ptr rule).
Proof.
  intros Hwf Hfresh Hpar Hok. unfold Matcher.AddRule, MatchRule.set_parent_matcher. rewrite Hpar. cbn [negb check mbind outcome_bind].
  set (rule1 := MatchRule.mk _ _ _ true). destruct (decide (MatchRule.actions_ rule = [])) as [Hnil|Hne].
  - rewrite bool_decide_true by done. cbn [mbind outcome_bind].
    pose proof (delete_rule_spec m (MatchRule.key_ rule) Hwf) as [Hwf' Hleaf].
    assert (Hstore : forall o, delete ptr (from_option (λ old, delete old (<[ptr := rule1]> (Matcher.rules m)))
                                     (<[ptr := rule1]> (Matcher.rules m)) o)
                      = from_option (λ old, delete old (Matcher.rules m)) (Matcher.rules m) o).
    { intros [o|]; cbn [from_option]; [rewrite delete_delete|]; by rewrite delete_insert_id. }
    pose proof (Hstore (Matcher.all_rules_ m !! MatchRule.key_ rule)) as Hst. 
    destruct (Matcher.all_rules_ m !! MatchRule.key_ rule) as [o|] eqn:Ho; cbn [from_option] in *; cbv zeta in *;
      rewrite Hst; (split; [exact Hwf'|]; split; [|by rewrite decide_True]);
      intros p Hp; rewrite Hleaf by done; unfold leaf_after; by rewrite (decide_True (P := _ = [])), Ho by done.
  - rewrite bool_decide_false by done.
    assert (Hins : succeeds_if (counters_fit m rule)
      (mfold (λ '(root, rules) five_tuple,
       MatchNode.InsertOrUpdate five_tuple (MatchRuleKey.input_port_ (MatchRule.key_ rule)) (MatchRuleKey.tag_ (MatchRule.key_ rule))
         MatchNode.MaxIndex ptr root rules)
       (MatchRuleKey.five_tuples_ (MatchRule.key_ rule)) (Matcher.root_ m, <[ptr := rule1]> (Matcher.rules m)))
      (inserted False 0 m ptr rule1 (MatchRuleKey.five_tuples_ (MatchRule.key_ rule)))).
    { apply succeeds_split.
      - by apply (insert_all False 0 m ptr rule1).
      - intros (Hnd & B & HB & Hle & Hst & Hmax). eapply succeeds_impl; [by apply (insert_all True B m ptr rule1)|done]. }
    eapply succeeds_bind; [exact Hins|]. intros [root rules1] (Hnode & Hroot & r' & Hr' & Hs & _). cbn [snd] in Hr'. subst rules1.
    pose proof (replace_rule_spec m ptr rule root r' Hwf Hfresh Hok Hne Hs Hnode Hroot) as Hadd.
    destruct (Matcher.all_rules_ m !! MatchRule.key_ rule) as [o|]; exact Hadd.
Qed.

(** ** Reachable matchers *)

(** The states that a sequence of operations leads to, for rules with keys [K]. *)
Inductive reachable (K : list MatchRuleKey.t) : Matcher.t -> Prop :=
| reach_construct : reachable K Matcher.construct
| reach_add m ptr rule m' :
    reachable K m -> MatchRule.key_ rule ∈ K -> Matcher.rules m !! ptr = None ->
    MatchRule.parent_matcher_ rule = false -> rule_ok rule ->
    Matcher.AddRule m ptr rule = Ok m' -> reachable K m'
| reach_match draw m pkt port now m' a :
    reachable K m -> (0 <= Packet.size_bytes pkt < 2 ^ 32)%Z ->
    Matcher.MatchOrNull draw m pkt port now = Ok (m', a) -> reachable K m'
| reach_stats m b now m' out :
    reachable K m -> Matcher.PopulateSSCPStats m b now = Ok (m', out) -> reachable K m'.

Lemma MatchNode_leaf m f port g :
  wf m ->
  MatchNode.MatchOrNull f port g MatchNode.MaxIndex (Matcher.root_ m) =
    Ok (head (omap (leaf m) (candidates (pattern f port g)))).
Proof. intros Hwf. rewrite MatchOrNull_tree; [done|done|apply Hwf]. Qed.

Lemma candidates_length p q : q ∈ candidates p -> length q = length p.
Proof.
  revert q. induction p as [|k p IH]; intros q; cbn; [by intros ->%list_elem_of_singleton|].
  intros [(q' & -> & Hq)%list_elem_of_fmap|(q' & -> & Hq)%list_elem_of_fmap]%elem_of_app; cbn; auto.
Qed.

Lemma head_omap_Some {A B} (f : A -> option B) l b : head (omap f l) = Some b -> exists a, a ∈ l /\ f a = Some b.
Proof.
  induction l as [|a l IH]; [done|]. cbn. destruct (f a) as [b'|] eqn:Hf.
  - intros [= ->]. exists a. split; [set_solver|done].
  - intros (a' & ? & ?)%IH. exists a'. split; [set_solver|done].
Qed.

(** A match leaves the tree and the set of rules alone. *)
Lemma MatchOrNull_spec F draw m pkt port now x :
  wf m -> (0 <= Packet.size_bytes pkt < 2 ^ 32)%Z ->
  (F -> port <> 0%Z) -> (F -> forall p r, Matcher.rules m !! p = Some r -> rule_le x r) ->
  (F -> (x + 2 ^ 32 <= umax 64)%Z) ->
  succeeds_if F (Matcher.MatchOrNull draw m pkt port now)
    (λ '(m', _), wf m' /\ Matcher.root_ m' = Matcher.root_ m /\ Matcher.all_rules_ m' = Matcher.all_rules_ m).
Proof.
  intros Hwf Hp Hport Hle Hx. unfold Matcher.MatchOrNull.
  eapply succeeds_bind; [apply (succeeds_check _ _ (λ _, True)); [|done]|intros _ _].
  { intros HF. apply negb_true_iff, Z.eqb_neq. by apply Hport. }
  rewrite (MatchNode_leaf _ _ _ _ Hwf). cbn [mbind outcome_bind].
  destruct (head _) as [ptr|] eqn:Hh; [|done].
  apply head_omap_Some in Hh as (p & Hin & Hl).
  destruct (wf_leaf m Hwf p ptr) as (key & Hk & _); [by apply candidates_length in Hin|done|].
  destruct (wf_rule m Hwf key ptr Hk) as (r & Hr & _ & _ & Hok).
  unfold deref. rewrite Hr. cbn [mbind outcome_bind].
  eapply succeeds_bind; [apply (ChooseOrNull_shape F draw r pkt now x); [done|done| |done]|].
  { intros HF. by eapply Hle. }
  intros [r' a] Hs. split; [|done]. by eapply wf_update.
Qed.

Lemma succeeds_Ok {A} F (m : outcome A) P a : succeeds_if F m P -> m = Ok a -> P a.
Proof. by intros Hs ->. Qed.

Lemma MatchOrNull_Ok draw m pkt port now m' a :
  wf m -> (0 <= Packet.size_bytes pkt < 2 ^ 32)%Z -> Matcher.MatchOrNull draw m pkt port now = Ok (m', a) ->
  wf m' /\ Matcher.root_ m' = Matcher.root_ m /\ Matcher.all_rules_ m' = Matcher.all_rules_ m.
Proof.
  intros Hwf Hp Hm. by apply (succeeds_Ok _ _ _ _ (MatchOrNull_spec False draw m pkt port now 0 Hwf Hp
    ltac:(done) ltac:(done) ltac:(done)) Hm).
Qed.

Lemma PopulateSSCPStats_Ok m b now m' out :
  wf m -> Matcher.PopulateSSCPStats m b now = Ok (m', out) ->
  wf m' /\ Matcher.root_ m' = Matcher.root_ m /\ Matcher.all_rules_ m' = Matcher.all_rules_ m.
Proof.
  intros Hwf. unfold Matcher.PopulateSSCPStats. intros ([rules1 out1] & Hf & [= <- _])%bind_Ok.
  split; [|done].
  cut (forall (l : list (MatchRuleKey.t * nat)) (rules : store) out rules' out',
    wf (Matcher.mk (Matcher.root_ m) (Matcher.all_rules_ m) rules) ->
    mfold (λ '(rules, out) '(key, ptr),
      r ← deref rules ptr;
      '(r', s) ← MatchRule.Stats r b now;
      Ok (<[ptr := r']> rules, out ++ [(key, s)])) l (rules, out) = Ok (rules', out') ->
    wf (Matcher.mk (Matcher.root_ m) (Matcher.all_rules_ m) rules')).
  { intros Hc. eapply Hc; [|exact Hf]. by destruct m. }
  clear. induction l as [|[key ptr] l IH]; intros rules out rules' out' Hwf; cbn [mfold]; [by intros [= <- _]|].
  intros ([rules1 out1] & (r & Hr & ([r' s] & Hs%Stats_shape & [= <- _])%bind_Ok)%bind_Ok & Hl)%bind_Ok.
  eapply IH; [|exact Hl]. unfold deref in Hr. destruct (rules !! ptr) as [r0|] eqn:Hr0; [|done]. injection Hr as ->.
  exact (wf_update _ ptr r r' Hwf Hr0 Hs).
Qed.

(** What all reachable matchers satisfy, for keys without common patterns. *)
Definition separate (K : list MatchRuleKey.t) : Prop :=
  forall k1 k2 p, k1 ∈ K -> k2 ∈ K -> p ∈ patterns k1 -> p ∈ patterns k2 -> k1 = k2.

Definition complete (K : list MatchRuleKey.t) (m : Matcher.t) : Prop :=
  (forall key ptr, Matcher.all_rules_ m !! key = Some ptr -> key ∈ K) /\
  (separate K -> forall key ptr p, Matcher.all_rules_ m !! key = Some ptr -> p ∈ patterns key -> leaf m p = Some ptr).

Lemma added_complete K m ptr rule m' :
  complete K m -> MatchRule.key_ rule ∈ K -> added m ptr rule m' -> complete K m'.
Proof.
  intros [HK Hc] Hkey (Hwf' & Hleaf & Hall). split.
  - intros key q. rewrite Hall. case_decide.
    + intros [_ ?]%lookup_delete_Some. by eapply HK.
    + intros [[<- _]|[_ ?]]%lookup_insert_Some; [done|by eapply HK].
  - intros Hsep key q p Hq Hp. rewrite Hleaf by (by eapply length_pattern). unfold leaf_after.
    rewrite Hall in Hq. destruct (decide (MatchRule.actions_ rule = [])).
    + apply lookup_delete_Some in Hq as [Hne Hq]. rewrite decide_False; [by eapply Hc|].
      intros Hp'. apply Hne. eapply Hsep; [done| |done|done]. by eapply HK.
    + apply lookup_insert_Some in Hq as [[<- <-]|[Hne Hq]]; [by rewrite decide_True|].
      rewrite decide_False; [by eapply Hc|]. intros Hp'. apply Hne. eapply Hsep; [done| |done|done]. by eapply HK.
Qed.

Lemma reachable_inv K m : reachable K m -> wf m /\ complete K m.
Proof.
  induction 1 as [|m ptr rule m' _ [Hwf Hc] Hk Hf Hpar Hok Ha|draw m pkt port now m' a _ [Hwf Hc] Hp Hm
                 |m b now m' out _ [Hwf Hc] Hs].
  - split; [apply wf_construct|]. split; [|intros _]; intros key ptr; cbn; by rewrite lookup_empty.
  - pose proof (succeeds_Ok _ _ _ _ (AddRule_spec m ptr rule Hwf Hf Hpar Hok) Ha) as Hadd.
    split; [apply Hadd|by eapply added_complete].
  - destruct (MatchOrNull_Ok _ _ _ _ _ _ _ Hwf Hp Hm) as (Hwf' & Hr & Ha). split; [done|].
    unfold complete, leaf. by rewrite Hr, Ha.
  - destruct (PopulateSSCPStats_Ok _ _ _ _ _ Hwf Hs) as (Hwf' & Hr & Ha). split; [done|].
    unfold complete, leaf. by rewrite Hr, Ha.
Qed.

(** ** The reference: a scan of the rules instead of the tree *)

Definition rule_with_pattern (m : Matcher.t) (p : list Z) : option nat :=
  head (omap (λ '(key, ptr), if decide (p ∈ patterns key) then Some ptr else None) (items (Matcher.all_rules_ m))).

Definition reference_MatchOrNull (draw : Z -> nat -> spec_float) (m : Matcher.t) (pkt : Packet.t) (port now : Z) :
    outcome (Matcher.t * option MatchRuleAction.t) :=
  _ ← check (negb (port =? kWildDevicePortNumber)%Z);
  match head (omap (rule_with_pattern m) (candidates (pattern (Packet.five_tuple pkt) port (Packet.tag pkt)))) with
  | None => Ok (m, None)
  | Some ptr =>
      r ← deref (Matcher.rules m) ptr;
      '(r', a) ← MatchRule.ChooseOrNull draw r pkt now;
      Ok (Matcher.mk (Matcher.root_ m) (Matcher.all_rules_ m) (<[ptr := r']> (Matcher.rules m)), a)
  end.

Lemma head_omap_None {A B} (f : A -> option B) l : head (omap f l) = None -> forall a, a ∈ l -> f a = None.
Proof.
  induction l as [|a l IH]; cbn; [intros _ a' Ha'; by apply not_elem_of_nil in Ha'|].
  destruct (f a) eqn:Hf; [done|]. intros Hh a' [->|Ha']%elem_of_cons; [done|by apply IH].
Qed.

Lemma leaf_scan K m p :
  wf m -> complete K m -> separate K -> length p = 7 -> leaf m p = rule_with_pattern m p.
Proof.
  intros Hwf [HK Hc] Hsep Hp. specialize (Hc Hsep). unfold rule_with_pattern. symmetry.
  destruct (head _) as [ptr|] eqn:Hh.
  - apply head_omap_Some in Hh as ([key ptr'] & Hin%elem_of_items & Hd). case_decide; [|done]. injection Hd as <-.
    symmetry. by eapply Hc.
  - destruct (leaf m p) as [ptr|] eqn:Hl; [|done].
    destruct (wf_leaf m Hwf p ptr Hp Hl) as (key & Hk & Hin).
    pose proof (head_omap_None _ _ Hh (key, ptr)) as Hn. cbn beta iota in Hn. rewrite decide_True in Hn by done.
    exfalso. by specialize (Hn (proj2 (elem_of_items _ _ _) Hk)).
Qed.

(** ** Shares *)

Lemma sum_weights_take_mono l i j :
  Forall (λ w, 0 <= w)%Z l -> i <= j -> (sum_weights (take i l) <= sum_weights (take j l))%Z.
Proof.
  intros Hl. revert i j. induction Hl as [|w l Hw Hl IH]; intros i j Hij; [by rewrite !take_nil|].
  destruct i as [|i].
  - apply (sum_weights_nonneg (take j (w :: l))). by apply Forall_take, Forall_cons.
  - destruct j as [|j]; [lia|]. cbn [take sum_weights foldr]. specialize (IH i j ltac:(lia)).
    unfold sum_weights in *. cbn [foldr]. lia.
Qed.

Lemma sum_weights_take_S l i w : l !! i = Some w -> sum_weights (take (S i) l) = (sum_weights (take i l) + w)%Z.
Proof.
  revert i. induction l as [|x l IH]; intros i Hi; [done|]. destruct i as [|i].
  - injection Hi as ->. unfold sum_weights. destruct l; simpl; lia.
  - cbn [take sum_weights foldr]. specialize (IH i Hi). unfold sum_weights in *. cbn [foldr]. lia.
Qed.

(** ** Properties *)

(** C7: For rules whose keys have no pattern in common, matching with the tree
    is the same as a scan of the installed rules that looks for the patterns
    of the packet from the most specific to the least specific one (input
    port, tag, destination, source, protocol, ports, in this order; the value
    of the packet before the wildcard): the same rule and action, and the
    same statistics, after any sequence of rule updates, deletions, matches
    and statistics requests. *)
Theorem Matcher_matches_reference K draw m pkt port now :
  reachable K m -> separate K ->
  Matcher.MatchOrNull draw m pkt port now = reference_MatchOrNull draw m pkt port now.
Proof.
  intros [Hwf Hc]%reachable_inv Hsep. unfold Matcher.MatchOrNull, reference_MatchOrNull.
  destruct (check _); [|done]. cbn [mbind outcome_bind]. rewrite (MatchNode_leaf _ _ _ _ Hwf).
  cbn [mbind outcome_bind]. rewrite (list_omap_ext (leaf m) (rule_with_pattern m) _
    (candidates (pattern (Packet.five_tuple pkt) port (Packet.tag pkt)))); [done|].
  apply Forall_Forall2_diag, Forall_forall. intros p Hp. apply (leaf_scan K); [done..|].
  by apply candidates_length in Hp.
Qed.

(** C9: In every reachable matcher, whatever the keys, all pointers of the
    tree lead to rules that are installed and cover the pattern of the leaf.
    No operation uses a destroyed rule, and adding a rule and matching a
    packet succeed as long as the counters stay in 64 bits; adding changes
    exactly the patterns of its key, and afterwards they lead to the new
    rule, or not to the deleted one. *)
Theorem Matcher_no_dangling_rules K m :
  reachable K m ->
  (forall p ptr, length p = 7 -> leaf m p = Some ptr ->
     exists r, Matcher.rules m !! ptr = Some r /\ Matcher.all_rules_ m !! MatchRule.key_ r = Some ptr /\
       p ∈ patterns (MatchRule.key_ r)) /\
  (forall ptr rule, Matcher.rules m !! ptr = None -> MatchRule.parent_matcher_ rule = false -> rule_ok rule ->
     succeeds_if (counters_fit m rule) (Matcher.AddRule m ptr rule)
       (λ m', forall p, length p = 7 -> leaf m' p = leaf_after m ptr rule p)) /\
  (forall draw pkt port now x, (0 <= Packet.size_bytes pkt < 2 ^ 32)%Z ->
     succeeds_if (port <> 0%Z /\ (forall p r, Matcher.rules m !! p = Some r -> rule_le x r) /\ (x + 2 ^ 32 <= umax 64)%Z)
       (Matcher.MatchOrNull draw m pkt port now) (λ _, True)).
Proof.
  intros [Hwf Hc]%reachable_inv. split_and!.
  - intros p ptr Hp Hl. destruct (wf_leaf m Hwf p ptr Hp Hl) as (key & Hk & Hin).
    destruct (wf_rule m Hwf key ptr Hk) as (r & Hr & <- & _). eauto.
  - intros ptr rule Hf Hpar Hok. eapply succeeds_impl; [by apply AddRule_spec|]. by intros m' (_ & ? & _).
  - intros draw pkt port now x Hp. eapply succeeds_impl; [|done].
    by apply (MatchOrNull_spec _ draw m pkt port now x Hwf Hp); intros (? & ? & ?).
Qed.

(** A rule splits the flows among its actions by weight, and never fails
    to choose: when the weights do not overflow, an action is chosen exactly
    for the hash values that fall, modulo the total, into an interval as long
    as its weight; the intervals follow each other.  A rule with one action
    always chooses it, and one whose weights are all zero chooses none. *)
Theorem MatchRule_ChooseOrNull_split r f i a :
  rule_ok r -> (sum_weights (weights r) < 2 ^ 32)%Z -> MatchRule.actions_ r !! i = Some a ->
  let h := (FiveTuple.GetHash f mod sum_weights (weights r))%Z in
  let first := sum_weights (take i (weights r)) in
  MatchRule.ChooseIndexOrNull r f = Ok (Some i) <->
    length (MatchRule.actions_ r) = 1 \/
    (sum_weights (weights r) <> 0%Z /\ (first <= h < first + MatchRuleAction.weight_ a)%Z).
Proof.
  intros Hok Hsum Ha h first. pose proof (rule_ok_actions r Hok) as Hpos. pose proof (rule_ok_weights r Hok) as Hnn.
  pose proof (sum_weights_nonneg _ Hnn) as Hs0.
  assert (Htot : MatchRule.total_weight_ r = sum_weights (weights r)).
  { destruct Hok as (_ & _ & Ht). rewrite weights_shape in *. rewrite <-(wrap_id 32 (sum_weights _)) by lia. exact Ht. }
  assert (Hwi : weights r !! i = Some (MatchRuleAction.weight_ a)).
  { unfold weights. by rewrite list_lookup_fmap, Ha. }
  assert (Hlen : i < length (MatchRule.actions_ r)) by (by apply lookup_lt_Some in Ha).
  unfold MatchRule.ChooseIndexOrNull. rewrite Htot.
  destruct (decide (length (MatchRule.actions_ r) = 1)) as [H1|H1].
  { destruct (MatchRule.actions_ r) as [|b [|c l]]; try done. cbn in Hlen. assert (i = 0) as -> by lia. split; [by left|done]. }
  transitivity ((if (sum_weights (weights r) =? 0)%Z then Ok None
     else i ← MatchRule.choose_loop (MatchRule.actions_ r) h 0; Ok (Some i)) = Ok (Some i)).
  { destruct (MatchRule.actions_ r) as [|b [|c l]]; done. }
  destruct (Z.eqb_spec (sum_weights (weights r)) 0) as [H0|H0].
  { split; [done|]. intros [?|[? _]]; done. }
  assert (Hh : (0 <= h < sum_weights (weights r))%Z) by (apply Z.mod_pos_bound; lia).
  destruct (choose_loop_spec (MatchRule.actions_ r) h 0 Hpos Hh) as (j & Hj & -> & Hint). fold (weights r) in Hint.
  assert (Hi : sum_weights (take (S i) (weights r)) = (first + MatchRuleAction.weight_ a)%Z) by (by apply sum_weights_take_S).
  cbn [mbind outcome_bind Nat.add]. split.
  - intros [= ->]. right. split; [done|]. unfold first in *. lia.
  - intros [?|[_ Hf]]; [done|]. do 2 f_equal. unfold first in *.
    destruct (Nat.lt_trichotomy i j) as [Hij|[->|Hij]]; [|done|].
    + pose proof (sum_weights_take_mono (weights r) (S i) j Hnn Hij). lia.
    + pose proof (sum_weights_take_mono (weights r) (S j) i Hnn Hij). lia.
Qed.

(** ** Examples *)

Section examples.
Local Open Scope Z_scope.

Definition no_sampling (seed : Z) (n : nat) : spec_float := Double.of_Z 1.
Definition dst_tuple (dst : Z) : FiveTuple.t := FiveTuple.mk 0 dst 0 0 0.
Definition demo_key : MatchRuleKey.t := MatchRuleKey.mk 0 0 [dst_tuple 7; dst_tuple 8].
Definition other_key : MatchRuleKey.t := MatchRuleKey.mk 0 3 [dst_tuple 7].
Definition demo_actions : list MatchRuleAction.t :=
  [MatchRuleAction.construct 1 kNullPacketTag 2; MatchRuleAction.construct 2 kNullPacketTag 3].
Definition rule_with (key : MatchRuleKey.t) (l : list MatchRuleAction.t) : outcome MatchRule.t :=
  mfold MatchRule.AddAction l (MatchRule.construct key).
Definition demo_rule (key : MatchRuleKey.t) : MatchRule.t :=
  MatchRule.mk key 5 demo_actions false.
Definition demo_packet : Packet.t := Packet.construct (FiveTuple.mk 4 7 6 1000 80) 100 0.

Example demo_rule_built : rule_with demo_key demo_actions = Ok (demo_rule demo_key).
Proof. reflexivity. Qed.

Lemma demo_rule_ok key : rule_ok (demo_rule key).
Proof.
  split_and!; [| |reflexivity].
  - apply (bool_decide_unpack (NoDup (ident <$> demo_actions).*1)). vm_compute. exact I.
  - repeat constructor; cbn; lia.
Qed.

Definition or_else {A} (m : outcome A) (a : A) : A := match m with Ok b => b | Fail _ => a end.
Definition demo_matcher : Matcher.t :=
  or_else (m ← Matcher.AddRule Matcher.construct 0 (demo_rule demo_key);
           Matcher.AddRule m 1 (demo_rule other_key)) Matcher.construct.

Lemma demo_reachable : reachable [demo_key; other_key] demo_matcher.
Proof.
  eapply (reach_add _ (or_else (Matcher.AddRule Matcher.construct 0 (demo_rule demo_key)) Matcher.construct) 1
    (demo_rule other_key)).
  - eapply (reach_add _ Matcher.construct 0 (demo_rule demo_key)).
    + constructor.
    + set_solver.
    + reflexivity.
    + reflexivity.
    + apply demo_rule_ok.
    + vm_compute. reflexivity.
  - set_solver.
  - vm_compute. reflexivity.
  - reflexivity.
  - apply demo_rule_ok.
  - vm_compute. reflexivity.
Qed.

Lemma demo_separate : separate [demo_key; other_key].
Proof.
  intros k1 k2 p H1 H2 Hp1 Hp2. apply elem_of_cons in H1 as [->|H1%list_elem_of_singleton];
    apply elem_of_cons in H2 as [->|H2%list_elem_of_singleton]; subst; try done; cbn in *; set_solver.
Qed.

Lemma Matcher_matches_reference_witness :
  ('(_, a) ← reference_MatchOrNull no_sampling demo_matcher demo_packet 3 0;
   Ok (option_map MatchRuleAction.output_port_ a)) = Ok (Some 1) /\
  Matcher.MatchOrNull no_sampling demo_matcher demo_packet 3 0 = reference_MatchOrNull no_sampling demo_matcher demo_packet 3 0.
Proof.
  split; [vm_compute; reflexivity|].
  exact (Matcher_matches_reference _ no_sampling demo_matcher demo_packet 3 0 demo_reachable demo_separate).
Defined.

Lemma Matcher_no_dangling_rules_witness :
  leaf demo_matcher [3; 0; 7; 0; 0; 0; 0] = Some 1%nat /\
  exists r, Matcher.rules demo_matcher !! 1%nat = Some r /\
    Matcher.all_rules_ demo_matcher !! MatchRule.key_ r = Some 1%nat /\
    [3; 0; 7; 0; 0; 0; 0] ∈ patterns (MatchRule.key_ r).
Proof.
  assert (Hl : leaf demo_matcher [3; 0; 7; 0; 0; 0; 0] = Some 1%nat) by (vm_compute; reflexivity).
  split; [exact Hl|].
  exact (proj1 (Matcher_no_dangling_rules _ demo_matcher demo_reachable) [3; 0; 7; 0; 0; 0; 0] 1%nat eq_refl Hl).
Defined.

(** The hash of the packet is 0 modulo 5, which the first action covers. *)
Lemma MatchRule_ChooseOrNull_split_witness :
  FiveTuple.GetHash (FiveTuple.mk 4 7 6 1000 80) mod 5 = 0 /\
  (MatchRule.ChooseIndexOrNull (demo_rule demo_key) (FiveTuple.mk 4 7 6 1000 80) = Ok (Some 0%nat)).
Proof.
  split; [vm_compute; reflexivity|].
  apply (MatchRule_ChooseOrNull_split (demo_rule demo_key) (FiveTuple.mk 4 7 6 1000 80) 0
           (MatchRuleAction.construct 1 kNullPacketTag 2) (demo_rule_ok demo_key)).
  - vm_compute. reflexivity.
  - reflexivity.
  - right. vm_compute. split; [discriminate|]. split; [discriminate|reflexivity].
Defined.

(** A rule with two five-tuples is replaced while one packet has matched: the
    packet is counted once for every five-tuple. *)
Example AddRule_counts_per_tuple :
  ('(m, _) ← Matcher.MatchOrNull no_sampling demo_matcher demo_packet 9 0;
   m ← Matcher.AddRule m 2 (demo_rule demo_key);
   '(_, stats) ← Matcher.PopulateSSCPStats m false 0;
   Ok (List.map ActionStats.total_pkts_matched (List.concat (List.map snd stats)))) = Ok [2; 0; 0; 0].
Proof. vm_compute. reflexivity. Qed.

(** Deleting a rule that had taken over a pattern of another one: that rule is
    still installed, but packets with the pattern no longer match. *)
Example AddRule_deletes_taken_pattern :
  let taker := MatchRuleKey.mk 0 0 [dst_tuple 7] in
  (m ← Matcher.AddRule Matcher.construct 0 (demo_rule demo_key);
   m ← Matcher.AddRule m 1 (demo_rule taker);
   m ← Matcher.AddRule m 2 (MatchRule.construct taker);
   '(m, a) ← Matcher.MatchOrNull no_sampling m demo_packet 9 0;
   Ok (Matcher.NumRules m, bool_decide (demo_key ∈ dom (Matcher.all_rules_ m)), a)) = Ok (1%nat, true, None).
Proof. vm_compute. reflexivity. Qed.

(** A copy of an action that samples one in 93 packets samples one in 92. *)
Example copy_changes_sampling :
  (a ← MatchRuleAction.EnableFlowCounter (MatchRuleAction.construct 1 0 1) 93 0;
   b ← MatchRuleAction.copy a 0;
   Ok (MatchRuleAction.sample_prob_ b)) = Ok (Double.div (Double.of_Z 1) (Double.of_Z 92)).
Proof. vm_compute. reflexivity. Qed.

End examples.
