(* ===== verification/Queue.v ===== *)
(** Model of the links of the simulator ([src/src/htsim/queue.h],
    [queue.cc]): the pipe, which delays packets, and the queues, which drain
    at a rate and drop what does not fit.  An operation returns the calls it
    makes into the event queue; a packet that leaves is returned as well.  The
    random numbers of [RandomQueue] are a parameter, a function of how many
    were drawn before.  Of [time_waiting_], which collects statistics, the
    sequence of the values that were added is kept. *)

From S2P Require Import Prelude OrderedMap Double EventQueue NetAddr Packet.

Import EventQueue.

(** ** Pipe *)
Module Pipe.

Record PipeStats := mkStats { pkts_tx : Z; bytes_tx : Z; pkts_in_flight : Z; bytes_in_flight : Z }.

(** [id_] is the address of the consumer; [other_end_] tells whether the pipe
    is connected. *)
Record t := mk {
  id_ : nat;
  delay_ : Z;
  other_end_ : bool;
  queue_ : list (Z * Packet.t);
  stats_ : PipeStats
}.

Definition construct (id delay : _) : t := mk id delay false [] (mkStats 0 0 0 0).
Definition Connect (p : t) : t := mk (id_ p) (delay_ p) true (queue_ p) (stats_ p).

Definition HandleEvent (p : t) : outcome (t * list call * Packet.t) :=
  match queue_ p with
  | [] => Fail Undefined
  | (_, pkt) :: rest =>
      let s := stats_ p in
      let s' := mkStats (u64 (pkts_tx s + 1)) (u64 (bytes_tx s + Packet.size_bytes pkt))
                  (u64 (pkts_in_flight s - 1)) (u64 (bytes_in_flight s - Packet.size_bytes pkt)) in
      let calls := match rest with [] => [] | (next_event_time, _) :: _ => [CallEnqueueAt (id_ p) next_event_time] end in
      if other_end_ p then Ok (mk (id_ p) (delay_ p) true rest s', calls, pkt) else Fail Undefined
  end.

Definition HandlePacket (p : t) (now : Z) (pkt : Packet.t) : t * list call :=
  let calls := match queue_ p with [] => [CallEnqueueIn (id_ p) (delay_ p)] | _ => [] end in
  let size := Packet.size_bytes pkt in
  let pkt' := Packet.AddToPropagationTime pkt (delay_ p) in
  let s := stats_ p in
  (mk (id_ p) (delay_ p) (other_end_ p) (queue_ p ++ [(EventQueueTime.add now (delay_ p), pkt')])
     (mkStats (pkts_tx s) (bytes_tx s) (u64 (pkts_in_flight s + 1)) (u64 (bytes_in_flight s + size))), calls).

End Pipe.

(** ** Queues *)
Module Queue.

Record QueueStats := mkStats {
  queue_size_bytes : Z;
  queue_size_pkts : Z;
  pkts_seen : Z;
  pkts_dropped : Z;
  bytes_seen : Z;
  bytes_dropped : Z;
  tag_to_bytes_seen : gmap Z Z;
  tag_to_pkts_seen : gmap Z Z
}.

Definition no_stats : QueueStats := mkStats 0 0 0 0 0 0 ∅ ∅.

(** [map[key] += n]. *)
Definition count (m : gmap Z Z) (key n : Z) : gmap Z Z := <[key := u64 (default 0%Z (m !! key) + n)]> m.

End Queue.
Import Queue.

Module FIFOQueue.

Record t := mk {
  id_ : nat;
  other_end_ : bool;
  stats_ : QueueStats;
  bits_seen_in_last_period_ : Z;
  tags_in_stats_ : bool;
  max_size_bytes_ : Z;
  rate_ : Z;
  time_per_bit_ : Z;
  queue_ : list Packet.t;
  time_waiting_ : list Z
}.

Definition Connect (q : t) : t :=
  mk (id_ q) true (stats_ q) (bits_seen_in_last_period_ q) (tags_in_stats_ q) (max_size_bytes_ q)
     (rate_ q) (time_per_bit_ q) (queue_ q) (time_waiting_ q).
Definition set_tags_in_stats (q : t) (value : bool) : t :=
  mk (id_ q) (other_end_ q) (stats_ q) (bits_seen_in_last_period_ q) value (max_size_bytes_ q)
     (rate_ q) (time_per_bit_ q) (queue_ q) (time_waiting_ q).

(** The rate is in bits per second and a time in picoseconds. *)
Definition SetRate (q : t) (new_rate : Z) : outcome t :=
  _ ← check (0 <? new_rate)%Z;
  time_per_bit ← Double.to_u64 (Double.div (Double.of_Z (10 ^ 12)) (Double.of_Z new_rate));
  Ok (mk (id_ q) (other_end_ q) (stats_ q) (bits_seen_in_last_period_ q) (tags_in_stats_ q) (max_size_bytes_ q)
        new_rate time_per_bit (queue_ q) (time_waiting_ q)).

Definition construct (id : nat) (rate max_size_bytes : Z) : outcome t :=
  SetRate (mk id false no_stats 0 false max_size_bytes 0 0 [] []) rate.

(** [Queue::ApplyValue]. *)
Definition ApplyValue (q : t) (value : spec_float) : outcome t :=
  new_rate ← Double.to_u64 value;
  if (new_rate =? rate_ q)%Z then Ok q else SetRate q new_rate.

Definition ShouldDrop (q : t) (pkt_size_bytes : Z) : bool :=
  (max_size_bytes_ q <? u64 (queue_size_bytes (stats_ q) + pkt_size_bytes))%Z.

Definition PacketDrainTime (q : t) (pkt : Packet.t) : Z :=
  u64 (u64 (time_per_bit_ q * Packet.size_bytes pkt) * 8).

Definition drop_packet (q : t) (size : Z) : t :=
  let s := stats_ q in
  mk (id_ q) (other_end_ q)
     (mkStats (queue_size_bytes s) (queue_size_pkts s) (pkts_seen s) (u64 (pkts_dropped s + 1)) (bytes_seen s)
        (u64 (bytes_dropped s + size)) (tag_to_bytes_seen s) (tag_to_pkts_seen s))
     (bits_seen_in_last_period_ q) (tags_in_stats_ q) (max_size_bytes_ q) (rate_ q) (time_per_bit_ q)
     (queue_ q) (time_waiting_ q).

(** What [HandlePacket] does with a packet that is not dropped. *)
Definition accept_packet (q : t) (pkt : Packet.t) : t * list call :=
  let size := Packet.size_bytes pkt in
  let s := stats_ q in
  let to_wait := u64 (u64 (time_per_bit_ q * queue_size_bytes s) * 8) in
  let pkt' := Packet.AddToQueueingTime pkt to_wait in
  let q' := mk (id_ q) (other_end_ q)
     (mkStats (u64 (queue_size_bytes s + size)) (u64 (queue_size_pkts s + 1)) (u64 (pkts_seen s + 1)) (pkts_dropped s)
        (u64 (bytes_seen s + size)) (bytes_dropped s)
        (if tags_in_stats_ q then count (tag_to_bytes_seen s) (Packet.tag pkt) size else tag_to_bytes_seen s)
        (if tags_in_stats_ q then count (tag_to_pkts_seen s) (Packet.tag pkt) 1 else tag_to_pkts_seen s))
     (u64 (bits_seen_in_last_period_ q + size * 8)) (tags_in_stats_ q) (max_size_bytes_ q) (rate_ q)
     (time_per_bit_ q) (queue_ q ++ [pkt']) (time_waiting_ q ++ [to_wait]) in
  (q', match queue_ q with [] => [CallEnqueueIn (id_ q) (PacketDrainTime q pkt')] | _ => [] end).

(** [drop] is the answer of the virtual [ShouldDrop]. *)
Definition handle_packet (drop : bool) (q : t) (pkt : Packet.t) : t * list call :=
  if drop then (drop_packet q (Packet.size_bytes pkt), []) else accept_packet q pkt.

Definition HandlePacket (q : t) (pkt : Packet.t) : t * list call :=
  handle_packet (ShouldDrop q (Packet.size_bytes pkt)) q pkt.

Definition HandleEvent (q : t) : outcome (t * list call * Packet.t) :=
  match queue_ q with
  | [] => Fail Undefined
  | pkt :: rest =>
      let s := stats_ q in
      let q' := mk (id_ q) (other_end_ q)
        (mkStats (u64 (queue_size_bytes s - Packet.size_bytes pkt)) (u64 (queue_size_pkts s - 1)) (pkts_seen s)
           (pkts_dropped s) (bytes_seen s) (bytes_dropped s) (tag_to_bytes_seen s) (tag_to_pkts_seen s))
        (bits_seen_in_last_period_ q) (tags_in_stats_ q) (max_size_bytes_ q) (rate_ q) (time_per_bit_ q)
        rest (time_waiting_ q) in
      let calls := match rest with [] => [] | next :: _ => [CallEnqueueIn (id_ q) (PacketDrainTime q next)] end in
      if other_end_ q then Ok (q', calls, pkt) else Fail Undefined
  end.

End FIFOQueue.

(** ** A queue that drops at random above a threshold *)
Module RandomQueue.

Record t := mk { fifo : FIFOQueue.t; drop_threshold_bytes_ : Z; draws_ : nat }.

Definition construct (id : nat) (rate max_size_bytes drop_threshold_bytes : Z) : outcome t :=
  q ← FIFOQueue.construct id rate max_size_bytes;
  _ ← check (drop_threshold_bytes <? max_size_bytes)%Z;
  Ok (mk q drop_threshold_bytes 0).

Section draw.
(** [dis_(rnd_)]: numbers from 0 to 1. *)
Context (draw : nat -> spec_float).

Definition ShouldDrop (q : t) (pkt_size_bytes : Z) : t * bool :=
  let max := FIFOQueue.max_size_bytes_ (fifo q) in
  let crt := u64 (queue_size_bytes (FIFOQueue.stats_ (fifo q)) + pkt_size_bytes) in
  if (max <? crt)%Z then (q, true)
  else if (drop_threshold_bytes_ q <? crt)%Z then
    let drop_prob := Double.div (Double.of_Z (crt - drop_threshold_bytes_ q))
                                (Double.of_Z (max - drop_threshold_bytes_ q)) in
    (mk (fifo q) (drop_threshold_bytes_ q) (S (draws_ q)), Double.ltb (draw (draws_ q)) drop_prob)
  else (q, false).

Definition HandlePacket (q : t) (pkt : Packet.t) : t * list call :=
  let '(q', drop) := ShouldDrop q (Packet.size_bytes pkt) in
  let '(f, calls) := FIFOQueue.handle_packet drop (fifo q') pkt in
  (mk f (drop_threshold_bytes_ q') (draws_ q'), calls).
End draw.

Definition HandleEvent (q : t) : outcome (t * list call * Packet.t) :=
  '(f, calls, pkt) ← FIFOQueue.HandleEvent (fifo q);
  Ok (mk f (drop_threshold_bytes_ q) (draws_ q), calls, pkt).

End RandomQueue.

(** ** Runs: arrivals and timer events in the order of time *)

(** The timers that calls set. *)
Definition timer_of (now : Z) (x : call) : list Z :=
  match x with
  | CallEnqueueAt _ at_ => [at_]
  | CallEnqueueIn _ in_ => [EventQueueTime.add now in_]
  | _ => []
  end.

Record config (S : Type) := mkConfig {
  st : S;
  timers : list Z;
  now : Z;
  ins : list (Z * Packet.t);
  outs : list (Z * Packet.t)
}.
Arguments mkConfig {S}.
Arguments st {S}.
Arguments timers {S}.
Arguments now {S}.
Arguments ins {S}.
Arguments outs {S}.

Section runs.
Context {S : Type}.
(** [arrive now s pkt s' calls accepted]. *)
Context (arrive : Z -> S -> Packet.t -> S -> list call -> bool -> Prop).
Context (fire : S -> outcome (S * list call * Packet.t)).

(** An arrival happens at a time no timer precedes, and the earliest timer
    fires; what is accepted and what leaves is logged. *)
Inductive step : config S -> config S -> Prop :=
| step_arrive c t pkt s' calls accepted :
    (now c <= t)%Z -> Forall (λ x, t <= x)%Z (timers c) -> (0 <= Packet.size_bytes pkt < 2 ^ 32)%Z ->
    arrive t (st c) pkt s' calls accepted ->
    step c (mkConfig s' (timers c ++ concat (timer_of t <$> calls)) t
              (if accepted then ins c ++ [(t, pkt)] else ins c) (outs c))
| step_fire c l1 t l2 s' calls pkt :
    timers c = l1 ++ t :: l2 -> Forall (λ x, t <= x)%Z (l1 ++ l2) ->
    fire (st c) = Ok (s', calls, pkt) ->
    step c (mkConfig s' (l1 ++ l2 ++ concat (timer_of t <$> calls)) t (ins c) (outs c ++ [(t, pkt)])).

Definition start (s : S) : config S := mkConfig s [] 0 [] [].
Definition run (s : S) (c : config S) : Prop := rtc step (start s) c.

Lemma step_ins c c' : step c c' -> ins c `prefix_of` ins c'.
Proof. intros [? ? ? ? ? [] ? ? ? ?|]; cbn; [by eexists|done..]. Qed.

(** Invariants may assume what they need of the packets that arrive. *)
Lemma run_inv s (P : list (Z * Packet.t) -> Prop) (I : config S -> Prop) c :
  (forall l l', l `prefix_of` l' -> P l' -> P l) ->
  I (start s) -> (forall c c', I c -> P (ins c') -> step c c' -> I c') ->
  run s c -> P (ins c) -> I c.
Proof.
  intros HP H0 Hs. unfold run. revert c. apply (rtc_ind_r (λ c, P (ins c) -> I c)); [done|].
  intros c c' Hrun Hstep IH HPc. eapply Hs; [|exact HPc|exact Hstep]. apply IH. eapply HP; [by apply step_ins|done].
Qed.
End runs.

Definition total_size (l : list Packet.t) : Z := foldr (λ p n, Packet.size_bytes p + n)%Z 0%Z l.

Lemma total_size_app l1 l2 : total_size (l1 ++ l2) = (total_size l1 + total_size l2)%Z.
Proof. induction l1 as [|p l1 IH]; cbn [app total_size foldr] in *; unfold total_size in *; lia. Qed.

Lemma singleton_middle {A} (l1 l2 : list A) x y : [x] = l1 ++ y :: l2 -> l1 = [] /\ y = x /\ l2 = [].
Proof. destruct l1 as [|z [|z' l1]]; [by intros [= <- <-]|done..]. Qed.

(** ** The pipe is a delay line *)
Section pipe.
Context (id : nat) (delay : Z).
Hypothesis Hdelay : (0 <= delay)%Z.

Definition pipe_arrive (t : Z) (p : Pipe.t) (pkt : Packet.t) (p' : Pipe.t) (calls : list call) (accepted : bool) : Prop :=
  Pipe.HandlePacket p t pkt = (p', calls) /\ accepted = true.

Definition delayed (x : Z * Packet.t) : Z * Packet.t :=
  ((x.1 + delay)%Z, Packet.AddToPropagationTime x.2 delay).

Record pipe_inv (c : config Pipe.t) : Prop := {
  pipe_order : delayed <$> ins c = outs c ++ Pipe.queue_ (st c);
  pipe_timer : timers c = match Pipe.queue_ (st c) with [] => [] | x :: _ => [x.1] end;
  pipe_sorted : StronglySorted Z.le (ins c).*1 /\ Forall (λ x, 0 <= x.1 <= now c)%Z (ins c);
  pipe_fields : Pipe.id_ (st c) = id /\ Pipe.delay_ (st c) = delay /\ Pipe.other_end_ (st c) = true;
  pipe_flight : Pipe.pkts_in_flight (Pipe.stats_ (st c)) = u64 (Z.of_nat (length (Pipe.queue_ (st c)))) /\
                Pipe.bytes_in_flight (Pipe.stats_ (st c)) = u64 (total_size (Pipe.queue_ (st c)).*2);
  pipe_tx : Pipe.pkts_tx (Pipe.stats_ (st c)) = u64 (Z.of_nat (length (outs c))) /\
            Pipe.bytes_tx (Pipe.stats_ (st c)) = u64 (total_size (outs c).*2)
}.

Lemma sorted_snoc (l : list Z) t : StronglySorted Z.le l -> Forall (λ x, x <= t)%Z l -> StronglySorted Z.le (l ++ [t]).
Proof.
  induction 1 as [|x l Hs IH Hx]; intros Hl; [repeat constructor|]. apply Forall_cons in Hl as [? Hl].
  cbn. constructor; [by apply IH|]. apply Forall_app. by repeat constructor.
Qed.

Lemma pipe_arrive_inv c t pkt :
  pipe_inv c -> (0 <= now c <= t)%Z -> (t + delay < 2 ^ 64)%Z ->
  let '(p', calls) := Pipe.HandlePacket (st c) t pkt in
  pipe_inv (mkConfig p' (timers c ++ concat (timer_of t <$> calls)) t (ins c ++ [(t, pkt)]) (outs c)).
Proof.
  intros [Ho Ht [Hs Hn] (Hid & Hd & He) [Hf1 Hf2] Htx] Hnow Hfit. unfold Pipe.HandlePacket. cbv zeta.
  assert (Hadd : EventQueueTime.add t (Pipe.delay_ (st c)) = (t + delay)%Z).
  { unfold EventQueueTime.add, u64. rewrite Hd. apply wrap_id. lia. }
  split; cbn [st timers now ins outs Pipe.queue_ Pipe.stats_ Pipe.id_ Pipe.delay_ Pipe.other_end_
              Pipe.pkts_in_flight Pipe.bytes_in_flight Pipe.pkts_tx Pipe.bytes_tx].
  - rewrite fmap_app, Ho, <-app_assoc. cbn [fmap list_fmap]. by rewrite Hadd, Hd.
  - rewrite Ht. destruct (Pipe.queue_ (st c)) as [|x l]; [|done]. cbn. by rewrite Hadd.
  - rewrite fmap_app. cbn [fmap list_fmap fst]. split.
    + apply sorted_snoc; [done|]. apply Forall_fmap. eapply Forall_impl; [exact Hn|]. cbn. lia.
    + apply Forall_app. split; [|repeat constructor; cbn; lia]. eapply Forall_impl; [exact Hn|]. cbn. lia.
  - done.
  - rewrite Hf1, Hf2, !u64_add, length_app, fmap_app, total_size_app. cbn. split; f_equal; lia.
  - done.
Qed.

Lemma pipe_fire_inv c t s' calls pkt l1 l2 :
  pipe_inv c -> timers c = l1 ++ t :: l2 -> Pipe.HandleEvent (st c) = Ok (s', calls, pkt) ->
  Forall (λ x, now c <= x)%Z (timers c) ->
  pipe_inv (mkConfig s' (l1 ++ l2 ++ concat (timer_of t <$> calls)) t (ins c) (outs c ++ [(t, pkt)])).
Proof.
  intros [Ho Ht [Hs Hn] (Hid & Hd & He) [Hf1 Hf2] [Htx1 Htx2]] Htl Hfire Hnow. unfold Pipe.HandleEvent in Hfire.
  destruct (Pipe.queue_ (st c)) as [|[t' pkt'] rest] eqn:Hq; [done|]. rewrite He in Hfire. injection Hfire as <- <- ->.
  rewrite Htl in Ht, Hnow. symmetry in Ht. apply singleton_middle in Ht as (-> & -> & ->).
  apply Forall_cons in Hnow as [Hnow _]. cbn [fst] in Hnow.
  split; cbn [st timers now ins outs Pipe.queue_ Pipe.stats_ Pipe.id_ Pipe.delay_ Pipe.other_end_
              Pipe.pkts_in_flight Pipe.bytes_in_flight Pipe.pkts_tx Pipe.bytes_tx app].
  - by rewrite Ho, <-app_assoc.
  - destruct rest as [|[t2 p2] rest]; [done|]. done.
  - split; [done|]. eapply Forall_impl; [exact Hn|]. cbn. lia.
  - done.
  - cbn [length fmap list_fmap] in Hf1, Hf2. rewrite Hf1, Hf2, !u64_sub. split; f_equal; [lia|].
    cbn [fmap list_fmap total_size foldr snd]. unfold total_size. lia.
  - rewrite Htx1, Htx2, !u64_add, length_app, fmap_app, total_size_app. cbn. split; f_equal; lia.
Qed.

(** The first packet of the queue leaves before the next one. *)
Lemma pipe_next_later c x y l :
  pipe_inv c -> Pipe.queue_ (st c) = x :: y :: l -> (x.1 <= y.1)%Z.
Proof.
  intros [Ho _ [Hs _] _ _ _] Hq. rewrite Hq in Ho.
  assert (Hs' : StronglySorted Z.le ((delayed <$> ins c).*1)).
  { clear -Hs. induction (ins c) as [|z l IH]; [constructor|]. cbn in *. apply StronglySorted_inv in Hs as [Hs Hz].
    constructor; [by apply IH|]. rewrite Forall_fmap in Hz. apply Forall_fmap, Forall_fmap.
    eapply Forall_impl; [exact Hz|]. cbn. lia. }
  rewrite Ho, fmap_app in Hs'. apply StronglySorted_app_1_r in Hs'. apply StronglySorted_inv in Hs' as [_ Hx].
  by inversion Hx.
Qed.

Lemma pipe_run c :
  run pipe_arrive Pipe.HandleEvent (Pipe.Connect (Pipe.construct id delay)) c ->
  Forall (λ x, x.1 + delay < 2 ^ 64)%Z (ins c) ->
  pipe_inv c /\ (0 <= now c)%Z /\ Forall (λ x, now c <= x)%Z (timers c).
Proof.
  intros Hrun. apply (run_inv pipe_arrive Pipe.HandleEvent (Pipe.Connect (Pipe.construct id delay))
    (Forall (λ x, x.1 + delay < 2 ^ 64)%Z)
    (λ c, pipe_inv c /\ (0 <= now c)%Z /\ Forall (λ x, now c <= x)%Z (timers c))); [| | |done].
  - intros l l' [k ->]. intros H. by apply Forall_app in H as [H _].
  - split; [|done]. split; cbn; try done. repeat constructor.
  - clear c Hrun. intros c c' (Hinv & H0 & Hfut) Hfit Hstep.
    destruct Hstep as [c t pkt s' calls acc Ht Htl Hp [Ha ->]|c l1 t l2 s' calls pkt Hl Hle Hf].
    + cbn [ins] in Hfit. apply Forall_app in Hfit as [_ Hfit]. inversion Hfit as [|? ? Hfit' _]; subst. cbn in Hfit'.
      pose proof (pipe_arrive_inv c t pkt Hinv ltac:(lia) Hfit') as Hnew. rewrite Ha in Hnew.
      split; [exact Hnew|]. cbn [now timers]. split; [lia|]. apply Forall_app. split; [done|].
      unfold Pipe.HandlePacket in Ha. injection Ha as _ <-. destruct (Pipe.queue_ (st c)); [|constructor].
      cbn. constructor; [|constructor]. destruct Hinv as [_ _ _ (_ & -> & _) _ _].
      unfold EventQueueTime.add, u64. rewrite wrap_id; lia.
    + split; [by eapply pipe_fire_inv|]. cbn [now timers].
      pose proof Hinv as [_ Htm _ (_ & _ & He) _ _]. rewrite Hl in Hfut, Htm.
      unfold Pipe.HandleEvent in Hf. destruct (Pipe.queue_ (st c)) as [|[t' pkt'] rest] eqn:Hq; [done|].
      rewrite He in Hf. injection Hf as _ <- _. symmetry in Htm. apply singleton_middle in Htm as (-> & -> & ->).
      apply Forall_cons in Hfut as [Hfut _]. cbn [fst app] in *. split; [lia|].
      destruct rest as [|y rest]; [constructor|]. pose proof (pipe_next_later c _ y rest Hinv Hq) as Hlt. cbn in Hlt.
      destruct y as [ty py]. by repeat constructor.
Qed.
End pipe.

(** ** Properties of the pipe *)

(** C34: A pipe is a delay line: in every run, at any point, what has left is
    the sequence of the packets that entered, each exactly one delay after it
    entered and in the same order, and the rest is in flight; a timer is set
    for the time the next packet leaves, so that no packet is stuck, and the
    counters are those of the packets that left and that are in flight. *)
Theorem Pipe_is_delay_line id delay c :
  (0 <= delay)%Z -> run pipe_arrive Pipe.HandleEvent (Pipe.Connect (Pipe.construct id delay)) c ->
  Forall (λ x, x.1 + delay < 2 ^ 64)%Z (ins c) ->
  let queue := Pipe.queue_ (st c) in
  let stats := Pipe.stats_ (st c) in
  delayed delay <$> ins c = outs c ++ queue /\
  timers c = match queue with [] => [] | x :: _ => [x.1] end /\
  (queue <> [] -> exists c', step pipe_arrive Pipe.HandleEvent c c' /\ length (outs c') = S (length (outs c))) /\
  Pipe.pkts_in_flight stats = u64 (Z.of_nat (length queue)) /\ Pipe.bytes_in_flight stats = u64 (total_size queue.*2) /\
  Pipe.pkts_tx stats = u64 (Z.of_nat (length (outs c))) /\ Pipe.bytes_tx stats = u64 (total_size (outs c).*2).
Proof.
  intros Hd Hrun Hfit queue stats. destruct (pipe_run id delay Hd c Hrun Hfit) as ([Ho Ht _ (_ & _ & He) [] []] & _ & _).
  split_and!; try done. intros Hne. fold queue in Ht. subst queue. unfold stats in *.
  destruct (Pipe.HandleEvent (st c)) as [[[s' calls] pkt]|e] eqn:Hf.
  - destruct (Pipe.queue_ (st c)) as [|x l]; [done|]. eexists. split.
    + by eapply (step_fire _ _ c [] x.1 []).
    + cbn. rewrite length_app. cbn. lia.
  - unfold Pipe.HandleEvent in Hf. destruct (Pipe.queue_ (st c)) as [|[? ?] ?]; [done|]. by rewrite He in Hf.
Qed.

(** ** A queue is a server with bounded room *)

(** When the packets leave a server that works on one packet at a time, in the
    order of arrival, and is never idle while packets wait; [free] is the time
    the server becomes free. *)
Fixpoint departures (time_per_bit free : Z) (l : list (Z * Packet.t)) : list Z :=
  match l with
  | [] => []
  | (t, pkt) :: l' =>
      let d := (Z.max t free + time_per_bit * Packet.size_bytes pkt * 8)%Z in
      d :: departures time_per_bit d l'
  end.

Definition last_departure (time_per_bit free : Z) (l : list (Z * Packet.t)) : Z :=
  default free (last (departures time_per_bit free l)).

Lemma departures_app b free l1 l2 :
  departures b free (l1 ++ l2) = departures b free l1 ++ departures b (last_departure b free l1) l2.
Proof.
  revert free. induction l1 as [|[t p] l1 IH]; intros free; [done|]. cbn [app departures]. rewrite IH.
  do 2 f_equal. unfold last_departure. cbn [departures]. rewrite last_cons.
  by destruct (last (departures b _ l1)).
Qed.

Lemma length_departures b free l : length (departures b free l) = length l.
Proof. revert free. induction l as [|[t p] l IH]; intros free; cbn; auto. Qed.

(** The departure of a packet follows the one before it. *)
Lemma departures_lookup b free l n t pkt :
  l !! n = Some (t, pkt) ->
  departures b free l !! n =
    Some (Z.max t (last_departure b free (take n l)) + b * Packet.size_bytes pkt * 8)%Z.
Proof.
  intros Hn. rewrite <-(take_drop_middle l n (t, pkt) Hn) at 1.
  rewrite departures_app, lookup_app_r by (by rewrite length_departures, length_take_le by (apply lookup_lt_Some in Hn; lia)).
  rewrite length_departures, length_take_le by (apply lookup_lt_Some in Hn; lia). by rewrite Nat.sub_diag.
Qed.

Lemma last_departure_take_S b free l n d :
  departures b free l !! n = Some d -> last_departure b free (take (S n) l) = d.
Proof.
  intros Hd. assert (Hn : n < length l) by (apply lookup_lt_Some in Hd; by rewrite length_departures in Hd).
  unfold last_departure. rewrite last_lookup, length_departures, length_take_le by lia. cbn [pred Init.Nat.pred].
  rewrite <-(take_drop (S n) l), departures_app, lookup_app_l in Hd
    by (rewrite length_departures, length_take_le; lia).
  by rewrite Hd.
Qed.

Section fifo.
Context (id : nat) (rate max_size b : Z).
Hypothesis Hb : (0 <= b)%Z.
Hypothesis Hmax : (0 <= max_size /\ max_size + 2 ^ 32 <= 2 ^ 64)%Z.

(** Any queue that drops at least what does not fit. *)
Definition queue_arrive (t : Z) (q : FIFOQueue.t) (pkt : Packet.t) (q' : FIFOQueue.t) (calls : list call)
    (accepted : bool) : Prop :=
  (FIFOQueue.ShouldDrop q (Packet.size_bytes pkt) = true -> accepted = false) /\
  FIFOQueue.handle_packet (negb accepted) q pkt = (q', calls).

Definition waited (x : Z * Packet.t) (pkt : Packet.t) : Prop :=
  exists w, pkt = Packet.AddToQueueingTime x.2 w.

Record fifo_inv (c : config FIFOQueue.t) : Prop := {
  fifo_order : Forall2 waited (ins c) ((outs c).*2 ++ FIFOQueue.queue_ (st c));
  fifo_departed : (outs c).*1 = take (length (outs c)) (departures b 0 (ins c));
  fifo_timer : timers c = option_list (departures b 0 (ins c) !! length (outs c));
  fifo_now : (0 <= now c)%Z /\ Forall (λ x, x.1 <= now c)%Z (ins c) /\ Forall (λ x, now c <= x)%Z (timers c) /\
             (last_departure b 0 (take (length (outs c)) (ins c)) <= now c)%Z;
  fifo_fields : FIFOQueue.id_ (st c) = id /\ FIFOQueue.time_per_bit_ (st c) = b /\
                FIFOQueue.max_size_bytes_ (st c) = max_size /\ FIFOQueue.other_end_ (st c) = true;
  fifo_sizes : Forall (λ p, 0 <= Packet.size_bytes p)%Z (FIFOQueue.queue_ (st c)) /\
               (total_size (FIFOQueue.queue_ (st c)) <= max_size)%Z;
  fifo_stats : queue_size_bytes (FIFOQueue.stats_ (st c)) = total_size (FIFOQueue.queue_ (st c)) /\
               queue_size_pkts (FIFOQueue.stats_ (st c)) = u64 (Z.of_nat (length (FIFOQueue.queue_ (st c)))) /\
               pkts_seen (FIFOQueue.stats_ (st c)) = u64 (Z.of_nat (length (ins c))) /\
               bytes_seen (FIFOQueue.stats_ (st c)) = u64 (total_size (ins c).*2)
}.

Lemma total_size_nonneg l : Forall (λ p, 0 <= Packet.size_bytes p)%Z l -> (0 <= total_size l)%Z.
Proof. induction 1; cbn [total_size foldr]; [done|]. unfold total_size in *. lia. Qed.

Lemma drain_time q pkt x : (0 <= Packet.size_bytes pkt)%Z -> FIFOQueue.time_per_bit_ q = b -> (0 <= x)%Z ->
  (x + b * Packet.size_bytes pkt * 8 < 2 ^ 64)%Z ->
  EventQueueTime.add x (FIFOQueue.PacketDrainTime q pkt) = (x + b * Packet.size_bytes pkt * 8)%Z.
Proof.
  intros Hs Hq Hx Hlt. unfold EventQueueTime.add, FIFOQueue.PacketDrainTime. rewrite Hq. unfold u64.
  assert (0 <= b * Packet.size_bytes pkt)%Z by (by apply Z.mul_nonneg_nonneg).
  rewrite (wrap_id 64 (b * _)) by lia. rewrite (wrap_id 64 (b * _ * 8)) by lia. apply wrap_id. lia.
Qed.

Lemma waiting_length c : fifo_inv c -> length (ins c) = length (outs c) + length (FIFOQueue.queue_ (st c)).
Proof.
  intros [Ho _ _ _ _ _ _]. apply Forall2_length in Ho. by rewrite Ho, length_app, length_fmap.
Qed.

(** The packets that wait are those that arrived last. *)
Lemma waiting_lookup c k pkt :
  fifo_inv c -> FIFOQueue.queue_ (st c) !! k = Some pkt ->
  exists t pkt', ins c !! (length (outs c) + k) = Some (t, pkt') /\ Packet.size_bytes pkt = Packet.size_bytes pkt'.
Proof.
  intros [Ho _ _ _ _ _ _] Hk.
  assert (Hk' : ((outs c).*2 ++ FIFOQueue.queue_ (st c)) !! (length (outs c) + k) = Some pkt).
  { rewrite lookup_app_r by (rewrite length_fmap; lia). rewrite length_fmap.
    by replace (length (outs c) + k - length (outs c)) with k by lia. }
  eapply Forall2_lookup_r in Ho as ([t pkt'] & Hi & w & ->); [|exact Hk']. by exists t, pkt'.
Qed.

Lemma fifo_drop_inv c t size :
  fifo_inv c -> (now c <= t)%Z -> Forall (λ x, t <= x)%Z (timers c) ->
  fifo_inv (mkConfig (FIFOQueue.drop_packet (st c) size) (timers c ++ []) t (ins c) (outs c)).
Proof.
  intros [Ho Hd Ht (H0 & Hn & Hf & Hl) Hfld Hsz Hst] Hnow Htl. rewrite app_nil_r. split; cbn; try done.
  split_and!; [lia| |done|lia]. eapply Forall_impl; [exact Hn|]. cbn. lia.
Qed.

Lemma fifo_accept_inv c t pkt :
  fifo_inv c -> (now c <= t)%Z -> Forall (λ x, t <= x)%Z (timers c) -> (0 <= Packet.size_bytes pkt < 2 ^ 32)%Z ->
  FIFOQueue.ShouldDrop (st c) (Packet.size_bytes pkt) = false ->
  Forall (λ d, d < 2 ^ 64)%Z (departures b 0 (ins c ++ [(t, pkt)])) ->
  let '(q', calls) := FIFOQueue.accept_packet (st c) pkt in
  fifo_inv (mkConfig q' (timers c ++ concat (timer_of t <$> calls)) t (ins c ++ [(t, pkt)]) (outs c)).
Proof.
  intros Hinv Hnow Htl Hp Hdrop Hfit. pose proof (waiting_length c Hinv) as Hlen.
  pose proof Hinv as [Ho Hd Ht (H0 & Hn & Hf & Hl) (Hid & Hbit & Hms & He) [Hsz Htot] (Hs1 & Hs2 & Hs3 & Hs4)].
  pose proof (total_size_nonneg _ Hsz) as Hnn.
  assert (Hu : u64 (queue_size_bytes (FIFOQueue.stats_ (st c)) + Packet.size_bytes pkt)
             = (total_size (FIFOQueue.queue_ (st c)) + Packet.size_bytes pkt)%Z).
  { rewrite Hs1. apply wrap_id. lia. }
  unfold FIFOQueue.ShouldDrop in Hdrop. rewrite Hu, Hms in Hdrop. apply Z.ltb_ge in Hdrop.
  unfold FIFOQueue.accept_packet. cbv zeta. set (w := u64 (u64 (FIFOQueue.time_per_bit_ (st c) * _) * 8)).
  split; cbn [st timers now ins outs FIFOQueue.queue_ FIFOQueue.stats_ FIFOQueue.id_ FIFOQueue.time_per_bit_
              FIFOQueue.max_size_bytes_ FIFOQueue.other_end_ queue_size_bytes queue_size_pkts pkts_seen bytes_seen].
  - rewrite app_assoc. apply Forall2_app; [done|]. constructor; [|constructor]. by exists w.
  - rewrite departures_app, take_app_le; [done|]. rewrite length_departures. lia.
  - rewrite Ht, departures_app. destruct (FIFOQueue.queue_ (st c)) as [|x l] eqn:Hq.
    + cbn [length] in Hlen. rewrite Nat.add_0_r in Hlen.
      rewrite lookup_ge_None_2 by (rewrite length_departures; lia).
      rewrite lookup_app_r, length_departures, <-Hlen, Nat.sub_diag by (rewrite length_departures; lia).
      cbn [departures lookup list_lookup option_list app fmap list_fmap concat timer_of].
      rewrite <-Hlen, firstn_all in Hl. rewrite departures_app in Hfit. apply Forall_app in Hfit as [_ Hfit].
      apply Forall_cons in Hfit as [Hfit _]. rewrite Z.max_l in Hfit |- * by lia.
      by rewrite drain_time by (cbn; try done; lia).
    + cbn [concat fmap list_fmap]. rewrite app_nil_r. cbn [length] in Hlen.
      by rewrite lookup_app_l by (rewrite length_departures; lia).
  - split_and!; [lia| | |].
    + apply Forall_app. split; [|by repeat constructor]. eapply Forall_impl; [exact Hn|]. cbn. lia.
    + apply Forall_app. split; [done|]. destruct (FIFOQueue.queue_ (st c)) as [|x l] eqn:Hq; [|constructor].
      cbn [length] in Hlen. rewrite Nat.add_0_r in Hlen. rewrite <-Hlen, firstn_all in Hl.
      rewrite departures_app in Hfit. apply Forall_app in Hfit as [_ Hfit].
      apply Forall_cons in Hfit as [Hfit _]. rewrite Z.max_l in Hfit by lia.
      cbn [fmap list_fmap concat timer_of app]. constructor; [|constructor].
      rewrite drain_time by (cbn; try done; lia). cbn [Packet.size_bytes Packet.AddToQueueingTime]. nia.
    + rewrite take_app_le by lia. lia.
  - done.
  - split; [apply Forall_app; repeat constructor; [done|cbn; lia]|].
    rewrite total_size_app. cbn. lia.
  - rewrite Hu, Hs2, Hs3, Hs4, !u64_add, !length_app, fmap_app, !total_size_app. cbn.
    split_and!; [lia|f_equal; lia|f_equal; lia|f_equal; lia].
Qed.

Lemma fifo_fire_inv c t s' calls pkt l1 l2 :
  fifo_inv c -> timers c = l1 ++ t :: l2 -> FIFOQueue.HandleEvent (st c) = Ok (s', calls, pkt) ->
  Forall (λ d, d < 2 ^ 64)%Z (departures b 0 (ins c)) ->
  fifo_inv (mkConfig s' (l1 ++ l2 ++ concat (timer_of t <$> calls)) t (ins c) (outs c ++ [(t, pkt)])).
Proof.
  intros Hinv Htl Hfire Hfit.
  pose proof (waiting_lookup c) as Hwait.
  pose proof Hinv as [Ho Hd Ht (H0 & Hn & Hf & Hl) (Hid & Hbit & Hms & He) [Hsz Htot] (Hs1 & Hs2 & Hs3 & Hs4)].
  unfold FIFOQueue.HandleEvent in Hfire.
  destruct (FIFOQueue.queue_ (st c)) as [|p rest] eqn:Hq; [done|]. rewrite He in Hfire. injection Hfire as <- <- ->.
  rewrite Htl in Ht, Hf.
  destruct (departures b 0 (ins c) !! length (outs c)) as [d|] eqn:Hdep; [|by destruct l1].
  symmetry in Ht. apply singleton_middle in Ht as (-> & -> & ->).
  apply Forall_cons in Hf as [Hf _]. apply Forall_cons in Hsz as [Hp Hsz].
  cbn [total_size foldr] in Htot, Hs1. fold (total_size rest) in Htot, Hs1.
  pose proof (total_size_nonneg _ Hsz) as Hnn.
  assert (Hlast : last_departure b 0 (take (S (length (outs c))) (ins c)) = d) by (by apply last_departure_take_S).
  assert (Hnext : concat (timer_of d <$> match rest with
                    | [] => []
                    | next :: _ => [CallEnqueueIn (FIFOQueue.id_ (st c)) (FIFOQueue.PacketDrainTime (st c) next)]
                    end) = option_list (departures b 0 (ins c) !! (length (outs c) + 1)) /\
                  Forall (λ x, d <= x)%Z (option_list (departures b 0 (ins c) !! (length (outs c) + 1)))).
  { destruct rest as [|next rest'].
    - rewrite lookup_ge_None_2; [by split|]. rewrite length_departures, (waiting_length c Hinv), Hq. cbn. lia.
    - destruct (Hwait 1 next Hinv eq_refl) as (t' & pkt' & Hi & Hsize).
      rewrite (departures_lookup _ _ _ _ _ _ Hi). rewrite Nat.add_1_r, Hlast in *.
      assert (Ht' : (t' <= d)%Z).
      { eapply Forall_lookup_1 in Hn; [|exact Hi]. cbn in Hn. lia. }
      rewrite Z.max_r by done.
      assert (Hfit' : (d + b * Packet.size_bytes next * 8 < 2 ^ 64)%Z).
      { eapply Forall_lookup_1 in Hfit; [|apply (departures_lookup _ _ _ _ _ _ Hi)].
        rewrite Hlast, Z.max_r in Hfit by done. by rewrite Hsize. }
      apply Forall_cons in Hsz as [Hpn _]. cbn [fmap list_fmap concat timer_of app option_list].
      rewrite drain_time by (try done; lia). rewrite Hsize. split; [done|]. constructor; [|constructor].
      rewrite <-Hsize. nia. }
  destruct Hnext as [Hnext Hlater].
  split; cbn [st timers now ins outs FIFOQueue.queue_ FIFOQueue.stats_ FIFOQueue.id_ FIFOQueue.time_per_bit_
              FIFOQueue.max_size_bytes_ FIFOQueue.other_end_ queue_size_bytes queue_size_pkts pkts_seen bytes_seen app].
  - rewrite fmap_app, <-app_assoc. exact Ho.
  - rewrite fmap_app, length_app, Hd. cbn [fmap list_fmap fst length]. rewrite Nat.add_1_r.
    by rewrite (take_S_r _ _ _ Hdep).
  - by rewrite length_app, Hnext.
  - rewrite length_app, Hnext. cbn [length]. split_and!; [lia| |done|].
    + eapply Forall_impl; [exact Hn|]. cbn. lia.
    + rewrite Nat.add_1_r, Hlast. lia.
  - done.
  - split; [done|lia].
  - rewrite Hs1, Hs2, !u64_sub. cbn [length]. split_and!; [|f_equal; lia|done|done].
    replace (Packet.size_bytes pkt + total_size rest - Packet.size_bytes pkt)%Z with (total_size rest) by lia.
    apply wrap_id. lia.
Qed.

Lemma fifo_run q c :
  FIFOQueue.construct id rate max_size = Ok q -> FIFOQueue.time_per_bit_ q = b ->
  run queue_arrive FIFOQueue.HandleEvent (FIFOQueue.Connect q) c ->
  Forall (λ d, d < 2 ^ 64)%Z (departures b 0 (ins c)) -> fifo_inv c.
Proof.
  intros Hq Hbit Hrun. apply (run_inv queue_arrive FIFOQueue.HandleEvent (FIFOQueue.Connect q)
    (λ l, Forall (λ d, d < 2 ^ 64)%Z (departures b 0 l)) fifo_inv); [| | |done].
  - intros l l' [k ->]. rewrite departures_app. intros H. by apply Forall_app in H as [H _].
  - unfold FIFOQueue.construct, FIFOQueue.SetRate in Hq. apply bind_Ok in Hq as ([] & _ & Hq).
    apply bind_Ok in Hq as (tpb & _ & [= <-]). cbn in Hbit. subst tpb.
    split; cbn; try done. repeat constructor; lia.
  - clear c Hrun. intros c c' Hinv Hfit Hstep.
    destruct Hstep as [c t pkt s' calls acc Ht Htl Hp [Hdrop Ha]|c l1 t l2 s' calls pkt Hl Hle Hf].
    + destruct acc; cbn [negb FIFOQueue.handle_packet] in Ha.
      * pose proof (fifo_accept_inv c t pkt Hinv Ht Htl Hp) as Hacc. unfold FIFOQueue.handle_packet in Ha.
        rewrite Ha in Hacc. apply Hacc; [|done]. destruct (FIFOQueue.ShouldDrop _ _); [|done]. by specialize (Hdrop eq_refl).
      * injection Ha as <- <-. by apply fifo_drop_inv.
    + by eapply fifo_fire_inv.
Qed.
End fifo.

(** A [FIFOQueue] and a [RandomQueue] are such queues. *)
Lemma FIFOQueue_arrive t q pkt q' calls :
  FIFOQueue.HandlePacket q pkt = (q', calls) ->
  queue_arrive t q pkt q' calls (negb (FIFOQueue.ShouldDrop q (Packet.size_bytes pkt))).
Proof.
  intros Hh. split; [by intros ->|]. by rewrite negb_involutive.
Qed.

Lemma RandomQueue_arrive draw t q pkt q' calls :
  RandomQueue.HandlePacket draw q pkt = (q', calls) ->
  exists accepted, queue_arrive t (RandomQueue.fifo q) pkt (RandomQueue.fifo q') calls accepted.
Proof.
  unfold RandomQueue.HandlePacket. destruct (RandomQueue.ShouldDrop draw q _) as [q1 drop] eqn:Hd.
  destruct (FIFOQueue.handle_packet drop (RandomQueue.fifo q1) pkt) as [f calls'] eqn:Hh. intros [= <- <-].
  exists (negb drop). unfold RandomQueue.ShouldDrop in Hd. unfold queue_arrive, FIFOQueue.ShouldDrop.
  rewrite negb_involutive. cbn [RandomQueue.fifo].
  destruct (FIFOQueue.max_size_bytes_ (RandomQueue.fifo q) <? _)%Z.
  - injection Hd as <- <-. by split.
  - destruct (RandomQueue.drop_threshold_bytes_ q <? _)%Z; injection Hd as <- <-; by split.
Qed.

(** ** Properties of the queues *)

(** C8: A queue is a work-conserving first-in first-out server of its rate
    with bounded room, whatever else it drops (so [FIFOQueue] and
    [RandomQueue] both): in every run the packets it accepted leave in order,
    each at the time such a server finishes it (the later of its arrival and
    the previous departure, plus the time its bits take); those that have not
    left are in the queue, which never holds more than [max_size_bytes] and
    whose counters are exact; while packets wait, a timer is set for the next
    departure. *)
Theorem Queue_is_server id rate max_size q c :
  (0 <= max_size /\ max_size + 2 ^ 32 <= 2 ^ 64)%Z ->
  FIFOQueue.construct id rate max_size = Ok q ->
  run queue_arrive FIFOQueue.HandleEvent (FIFOQueue.Connect q) c ->
  let dep := departures (FIFOQueue.time_per_bit_ q) 0 (ins c) in
  let n := length (outs c) in
  let queue := FIFOQueue.queue_ (st c) in
  let stats := FIFOQueue.stats_ (st c) in
  Forall (λ d, d < 2 ^ 64)%Z dep ->
  (outs c).*1 = take n dep /\ Forall2 waited (ins c) ((outs c).*2 ++ queue) /\
  timers c = option_list (dep !! n) /\
  (queue <> [] -> exists c', step queue_arrive FIFOQueue.HandleEvent c c' /\ length (outs c') = S n) /\
  (total_size queue <= max_size)%Z /\ queue_size_bytes stats = total_size queue /\
  queue_size_pkts stats = u64 (Z.of_nat (length queue)) /\ pkts_seen stats = u64 (Z.of_nat (length (ins c))).
Proof.
  intros Hmax Hq Hrun dep n queue stats Hfit.
  assert (Hb : (0 <= FIFOQueue.time_per_bit_ q)%Z).
  { unfold FIFOQueue.construct, FIFOQueue.SetRate in Hq. apply bind_Ok in Hq as ([] & _ & Hq).
    apply bind_Ok in Hq as (tpb & Hd & [= <-]). cbn. unfold Double.to_u64 in Hd.
    destruct (Double.trunc _) as [y|]; [|done]. destruct (andb _ _) eqn:Hy; [|done]. injection Hd as <-. lia. }
  pose proof (fifo_run id rate max_size _ Hb Hmax q c Hq eq_refl Hrun Hfit) as Hinv.
  pose proof (waiting_length _ _ _ c Hinv) as Hlen.
  destruct Hinv as [Ho Hd Ht _ (_ & _ & _ & He) [_ Hsz] (Hs1 & Hs2 & Hs3 & _)].
  split_and!; try done. intros Hne. subst n queue. unfold dep, stats in *.
  destruct (lookup_lt_is_Some_2 (departures (FIFOQueue.time_per_bit_ q) 0 (ins c)) (length (outs c))) as [d Hdep].
  { rewrite length_departures, Hlen. destruct (FIFOQueue.queue_ (st c)); [done|]. cbn. lia. }
  rewrite Hdep in Ht. destruct (FIFOQueue.HandleEvent (st c)) as [[[s' calls] pkt]|e] eqn:Hf.
  - eexists. split; [by eapply (step_fire _ _ c [] d [])|]. cbn. rewrite length_app. cbn. lia.
  - unfold FIFOQueue.HandleEvent in Hf. destruct (FIFOQueue.queue_ (st c)); [done|]. by rewrite He in Hf.
Qed.

(** ** Examples *)
Section examples.
Local Open Scope Z_scope.

Definition demo_packet (size : Z) : Packet.t := Packet.construct (FiveTuple.mk 1 2 17 3 4) size 0.

(** Two packets enter a pipe of delay 10 at the times 5 and 7, one leaves. *)
Lemma demo_pipe_run :
  exists c, run pipe_arrive Pipe.HandleEvent (Pipe.Connect (Pipe.construct 0 10)) c /\
    ins c = [(5, demo_packet 100); (7, demo_packet 200)] /\ (outs c).*1 = [15].
Proof.
  eexists. split; [|split].
  - eapply rtc_l; [eapply (step_arrive _ _ _ 5 (demo_packet 100))|]; [cbn; lia|repeat constructor|cbn; lia|split; reflexivity|].
    eapply rtc_l; [eapply (step_arrive _ _ _ 7 (demo_packet 200))|];
      [cbn; lia|vm_compute; repeat constructor; discriminate|cbn; lia|split; reflexivity|].
    eapply rtc_l; [eapply (step_fire _ _ _ [] 15 [])|]; [vm_compute; reflexivity|constructor|vm_compute; reflexivity|].
    apply rtc_refl.
  - reflexivity.
  - reflexivity.
Qed.

Lemma Pipe_is_delay_line_witness :
  exists c, length (ins c) = 2%nat /\ delayed 10 <$> ins c = outs c ++ Pipe.queue_ (st c).
Proof.
  destruct demo_pipe_run as (c & Hrun & Hins & _). exists c. split; [by rewrite Hins|].
  refine (proj1 (Pipe_is_delay_line 0 10 c _ Hrun _)); [lia|]. rewrite Hins. repeat constructor; cbn; lia.
Defined.

(** A megabit per second: a bit takes a microsecond.  The second packet waits
    for the first, the third does not fit. *)
Lemma demo_queue_run :
  exists q c, FIFOQueue.construct 0 1000000 300 = Ok q /\ FIFOQueue.time_per_bit_ q = 1000000 /\
    run queue_arrive FIFOQueue.HandleEvent (FIFOQueue.Connect q) c /\
    ins c = [(5, demo_packet 100); (7, demo_packet 200)].
Proof.
  eexists _, _. split_and!; [vm_compute; reflexivity|reflexivity| |].
  - eapply rtc_l; [eapply (step_arrive _ _ _ 5 (demo_packet 100) _ _ true)|];
      [cbn; lia|repeat constructor|cbn; lia|split; [vm_compute; discriminate|reflexivity]|].
    eapply rtc_l; [eapply (step_arrive _ _ _ 7 (demo_packet 200) _ _ true)|];
      [cbn; lia|vm_compute; repeat constructor; discriminate|cbn; lia|split; [vm_compute; discriminate|reflexivity]|].
    eapply rtc_l; [eapply (step_arrive _ _ _ 8 (demo_packet 1) _ _ false)|];
      [cbn; lia|vm_compute; repeat constructor; discriminate|cbn; lia|split; [done|reflexivity]|].
    apply rtc_refl.
  - reflexivity.
Qed.

Lemma Queue_is_server_witness :
  departures 1000000 0 [(5, demo_packet 100); (7, demo_packet 200)] = [800000005; 2400000005] /\
  exists c : config FIFOQueue.t, length (ins c) = 2%nat /\ total_size (FIFOQueue.queue_ (st c)) <= 300.
Proof.
  split; [reflexivity|]. destruct demo_queue_run as (q & c & Hq & Hb & Hrun & Hins). exists c.
  split; [by rewrite Hins|].
  refine (proj1 (proj2 (proj2 (proj2 (proj2 (Queue_is_server 0 1000000 300 q c _ Hq Hrun _)))))); [lia|].
  rewrite Hb, Hins. repeat constructor.
Defined.
End examples.
