(* ===== verification/Device.v ===== *)
(** Model of the devices of the simulator ([src/src/htsim/network.h],
    [network.cc], with the messages of [packet.h], [match.h] and the UDP
    connections of [udp.h], [udp.cc]): ports, the handling of packets that
    arrive at a port, delivery to the connections of the device, control
    messages, and the numbering of ports and connections.  What leaves a
    device (packets, deliveries, replies, calls of observers) is returned as a
    list of outputs.  The connections themselves are modelled in the file on
    TCP; here a connection is its kind. *)

From S2P Require Import Prelude OrderedMap Double EventQueue NetAddr Packet Match.

Definition kProtoTCP : Z := 6%Z.
Definition kProtoUDP : Z := 17%Z.

(** ** Messages: packets of size 0 *)

Inductive body : Type :=
| NoBody
| SSCPAddOrUpdate (ptr : nat) (rule : MatchRule.t) (tx_id : Z)
| SSCPStatsRequest (include_flow_counts : bool).

Record message := mkMessage { packet : Packet.t; content : body }.

Definition kSSCPAddOrUpdateType : Z := 180%Z.
Definition kSSCPStatsRequestType : Z := 253%Z.
Definition kNoTxId : Z := 0%Z.

(** [Message::Message]. *)
Definition new_message (ip_src ip_dst message_type time : Z) (content : body) : message :=
  mkMessage (Packet.construct (FiveTuple.mk ip_src ip_dst message_type kWildAccessLayerPort kWildAccessLayerPort) 0 time)
    content.

Inductive connection : Type := UDPSource | UDPSink | TCPSource | TCPSink.

#[global] Instance connection_eq_dec : EqDecision connection.
Proof. solve_decision. Defined.

Inductive output : Type :=
| SentOut (port : Z) (pkt : Packet.t)
| Delivered (tuple : FiveTuple.t) (pkt : Packet.t)
| Observed (internal_external : bool) (pkt : Packet.t)
| SentAck (ip_src ip_dst time tx_id : Z)
| SentStats (ip_src ip_dst time : Z) (stats : list (MatchRuleKey.t * list ActionStats.t)).

(** ** Ports *)
Module Port.

(** [out_handler_] is the address of the handler. *)
Record t := mk { number_ : Z; out_handler_ : option nat; internal_ : bool }.

Definition construct (number : Z) : t := mk number None false.

Definition Connect (p : t) (out_handler : option nat) : outcome t :=
  if decide (out_handler = out_handler_ p) then Ok p
  else
    _ ← check (bool_decide (out_handler_ p = None));
    Ok (mk (number_ p) out_handler (internal_ p)).

Definition Reconnect (p : t) (out_handler : option nat) : outcome t :=
  _ ← check (bool_decide (out_handler_ p <> None));
  Ok (mk (number_ p) out_handler (internal_ p)).

Definition set_internal (p : t) (internal : bool) : t := mk (number_ p) (out_handler_ p) internal.

Definition SendPacketOut (p : t) (pkt : Packet.t) : outcome (list output) :=
  match out_handler_ p with Some _ => Ok [SentOut (number_ p) pkt] | None => Fail Undefined end.

End Port.

(** ** Devices *)
Module Device.

Record DeviceStats := mkStats {
  packets_seen : Z;
  packets_failed_to_match : Z;
  bytes_seen : Z;
  bytes_failed_to_match : Z;
  packets_for_localhost : Z;
  bytes_for_localhost : Z;
  route_updates_seen : Z
}.

Record t := mk {
  ip_address_ : Z;
  network_ : bool;
  port_number_to_port_ : gmap Z Port.t;
  replies_handler_ : bool;
  internal_external_observer_ : option nat;
  external_internal_observer_ : option nat;
  matcher_ : Matcher.t;
  stats_ : DeviceStats;
  connections_ : gmap FiveTuple.t connection;
  die_on_fail_to_match_ : bool
}.

Definition kLoopbackPortNum : Z := umax 32.

Definition construct (ip_address : Z) : t :=
  mk ip_address false ∅ false None None Matcher.construct (mkStats 0 0 0 0 0 0 0) ∅ false.

Definition set_ports (d : t) (ports : gmap Z Port.t) : t :=
  mk (ip_address_ d) (network_ d) ports (replies_handler_ d) (internal_external_observer_ d)
     (external_internal_observer_ d) (matcher_ d) (stats_ d) (connections_ d) (die_on_fail_to_match_ d).
Definition set_matcher (d : t) (m : Matcher.t) : t :=
  mk (ip_address_ d) (network_ d) (port_number_to_port_ d) (replies_handler_ d) (internal_external_observer_ d)
     (external_internal_observer_ d) m (stats_ d) (connections_ d) (die_on_fail_to_match_ d).
Definition set_stats (d : t) (s : DeviceStats) : t :=
  mk (ip_address_ d) (network_ d) (port_number_to_port_ d) (replies_handler_ d) (internal_external_observer_ d)
     (external_internal_observer_ d) (matcher_ d) s (connections_ d) (die_on_fail_to_match_ d).
Definition set_connections (d : t) (c : gmap FiveTuple.t connection) : t :=
  mk (ip_address_ d) (network_ d) (port_number_to_port_ d) (replies_handler_ d) (internal_external_observer_ d)
     (external_internal_observer_ d) (matcher_ d) (stats_ d) c (die_on_fail_to_match_ d).

Definition FindOrCreatePort (d : t) (port_num : Z) : t * Port.t :=
  match port_number_to_port_ d !! port_num with
  | Some port => (d, port)
  | None =>
      let port := Port.construct port_num in
      (set_ports d (<[port_num := port]> (port_number_to_port_ d)), port)
  end.

Definition GetLoopbackPort (d : t) : t * Port.t := FindOrCreatePort d kLoopbackPortNum.

(** The loop of [NextAvailablePort] from number [i] on. *)
Fixpoint next_port (fuel : nat) (d : t) (i : Z) : outcome (t * Port.t) :=
  match fuel with
  | O => Fail OutOfFuel
  | S fuel' =>
      if (i <? umax 32)%Z then
        match port_number_to_port_ d !! i with
        | Some _ => next_port fuel' d (i + 1)%Z
        | None => let port := Port.construct i in Ok (set_ports d (<[i := port]> (port_number_to_port_ d)), port)
        end
      else Fail CheckFailed
  end.

Definition NextAvailablePort (d : t) : outcome (t * Port.t) :=
  next_port (S (size (port_number_to_port_ d))) d 1.

(** [PickSrcPortOrDie]; the loop from port [i] on. *)
Fixpoint pick_port (fuel : nat) (d : t) (f : FiveTuple.t) (i : Z) : outcome FiveTuple.t :=
  match fuel with
  | O => Fail OutOfFuel
  | S fuel' =>
      if (i <? umax 16)%Z then
        let return_tuple := FiveTuple.mk (FiveTuple.ip_src f) (FiveTuple.ip_dst f) (FiveTuple.ip_proto f) i
                              (FiveTuple.dst_port f) in
        match connections_ d !! return_tuple with
        | None => Ok return_tuple
        | Some _ => pick_port fuel' d f (i + 1)%Z
        end
      else Fail CheckFailed
  end.

Definition PickSrcPortOrDie (d : t) (tuple_with_no_src_port : FiveTuple.t) : outcome FiveTuple.t :=
  pick_port (S (size (connections_ d))) d tuple_with_no_src_port 1.

Definition PrepareTuple (d : t) (dst_address dst_port : Z) (tcp : bool) : outcome FiveTuple.t :=
  PickSrcPortOrDie d (FiveTuple.mk (ip_address_ d) dst_address (if tcp then kProtoTCP else kProtoUDP)
                        kWildAccessLayerPort dst_port).

(** The registration with the retransmission timer is part of the network. *)
Definition AddTCPGenerator (d : t) (dst_address dst_port : Z) : outcome (t * FiveTuple.t) :=
  tuple ← PrepareTuple d dst_address dst_port true;
  let '(d, _) := GetLoopbackPort d in
  _ ← check (network_ d);
  Ok (set_connections d (<[tuple := TCPSource]> (connections_ d)), tuple).

Definition AddUDPGenerator (d : t) (dst_address dst_port : Z) : outcome (t * FiveTuple.t) :=
  tuple ← PrepareTuple d dst_address dst_port false;
  let '(d, _) := GetLoopbackPort d in
  Ok (set_connections d (<[tuple := UDPSource]> (connections_ d)), tuple).

(** [UDPSource::AddData]: a packet of the given size, which is cut to 32 bits. *)
Definition UDPSource_AddData (tuple : FiveTuple.t) (pkt_size now : Z) : outcome Packet.t :=
  Packet.construct_udp tuple (u32 pkt_size) now.

(** [Connection::HandlePacket] of a connection of the given kind; a UDP source
    does not receive. *)
Definition deliver (kind : connection) (tuple : FiveTuple.t) (pkt : Packet.t) : outcome (list output) :=
  match kind with UDPSource => Fail CheckFailed | _ => Ok [Delivered tuple pkt] end.

(** The branch of [HandlePacket] for messages; the type says which message the
    packet is cast to. *)
Definition handle_message (d : t) (now : Z) (msg : message) : outcome (t * list output) :=
  let pkt := packet msg in
  let type := FiveTuple.ip_proto (Packet.five_tuple pkt) in
  let src := FiveTuple.ip_src (Packet.five_tuple pkt) in
  if (type =? kSSCPAddOrUpdateType)%Z then
    match content msg with
    | SSCPAddOrUpdate ptr rule tx_id =>
        let s := stats_ d in
        let d := set_stats d (mkStats (packets_seen s) (packets_failed_to_match s) (bytes_seen s)
                   (bytes_failed_to_match s) (packets_for_localhost s) (bytes_for_localhost s)
                   (u64 (route_updates_seen s + 1))) in
        m ← Matcher.AddRule (matcher_ d) ptr rule;
        Ok (set_matcher d m,
            if (negb (tx_id =? kNoTxId)%Z && replies_handler_ d)%bool
            then [SentAck (ip_address_ d) src now tx_id] else [])
    | _ => Fail Undefined
    end
  else if (type =? kSSCPStatsRequestType)%Z then
    match content msg with
    | SSCPStatsRequest include_flow_counts =>
        '(m, stats) ← Matcher.PopulateSSCPStats (matcher_ d) include_flow_counts now;
        _ ← check (replies_handler_ d);
        Ok (set_matcher d m, [SentStats (ip_address_ d) src now stats])
    | _ => Fail Undefined
    end
  else Ok (d, []).

Definition HandlePacket (d : t) (now : Z) (msg : message) : outcome (t * list output) :=
  let pkt := packet msg in
  if (Packet.size_bytes pkt =? 0)%Z then handle_message d now msg
  else
    let incoming_tuple := Packet.five_tuple pkt in
    let outgoing_tuple := FiveTuple.Reverse incoming_tuple in
    match connections_ d !! outgoing_tuple with
    | Some kind => out ← deliver kind outgoing_tuple pkt; Ok (d, out)
    | None =>
        let '(d, _) := GetLoopbackPort d in
        let ip_proto := FiveTuple.ip_proto incoming_tuple in
        kind ← (if (ip_proto =? kProtoUDP)%Z then Ok UDPSink
                else if (ip_proto =? kProtoTCP)%Z then Ok TCPSink
                else Fail CheckFailed);
        out ← deliver kind outgoing_tuple pkt;
        Ok (set_connections d (<[outgoing_tuple := kind]> (connections_ d)), out)
    end.

Definition HandlePacketWithAction (d : t) (input_port : Port.t) (pkt : Packet.t) (action : MatchRuleAction.t) :
    outcome (list output) :=
  let pkt := if (MatchRuleAction.tag_ action =? kNullPacketTag)%Z then pkt
             else Packet.set_tag pkt (MatchRuleAction.tag_ action) in
  let pkt := if (negb (Packet.preferential_drop pkt) && MatchRuleAction.preferential_drop_ action)%bool
             then Packet.set_preferential_drop pkt true else pkt in
  let '(pkt, alive) := Packet.DecrementTTL pkt in
  _ ← check alive;
  match port_number_to_port_ d !! MatchRuleAction.output_port_ action with
  | None => Fail CheckFailed
  | Some output_port =>
      let observed :=
        if (Port.internal_ input_port && negb (Port.internal_ output_port) &&
            bool_decide (is_Some (internal_external_observer_ d)))%bool
        then [Observed true pkt]
        else if (negb (Port.internal_ input_port) && Port.internal_ output_port &&
                 bool_decide (is_Some (external_internal_observer_ d)))%bool
        then [Observed false pkt]
        else [] in
      out ← Port.SendPacketOut output_port pkt;
      Ok (observed ++ out)
  end.

(** [input_port] is one of the ports of the device. *)
Definition HandlePacketFromPort (draw : Z -> nat -> spec_float) (d : t) (now : Z) (input_port : Port.t)
    (msg : message) : outcome (t * list output) :=
  let pkt := packet msg in
  let pkt_size := Packet.size_bytes pkt in
  let s := stats_ d in
  let s := mkStats (u64 (packets_seen s + 1)) (packets_failed_to_match s) (u64 (bytes_seen s + pkt_size))
             (bytes_failed_to_match s) (packets_for_localhost s) (bytes_for_localhost s) (route_updates_seen s) in
  if (FiveTuple.ip_dst (Packet.five_tuple pkt) =? ip_address_ d)%Z then
    let s := mkStats (packets_seen s) (packets_failed_to_match s) (bytes_seen s) (bytes_failed_to_match s)
               (u64 (packets_for_localhost s + 1)) (u64 (bytes_for_localhost s + pkt_size)) (route_updates_seen s) in
    HandlePacket (set_stats d s) now msg
  else
    '(m, action) ← Matcher.MatchOrNull draw (matcher_ d) pkt (Port.number_ input_port) now;
    match action with
    | None =>
        let s := mkStats (packets_seen s) (u64 (packets_failed_to_match s + 1)) (bytes_seen s)
                   (u64 (bytes_failed_to_match s + pkt_size)) (packets_for_localhost s) (bytes_for_localhost s)
                   (route_updates_seen s) in
        _ ← check (negb (die_on_fail_to_match_ d));
        Ok (set_matcher (set_stats d s) m, [])
    | Some action =>
        let d := set_matcher (set_stats d s) m in
        out ← HandlePacketWithAction d input_port pkt action;
        Ok (d, out)
    end.

(** Observers are named by their addresses. *)
Definition AddInternalExternalObserver (d : t) (observer : option nat) : outcome t :=
  _ ← check (bool_decide (internal_external_observer_ d = None \/ internal_external_observer_ d = observer));
  _ ← check (bool_decide (observer <> None));
  Ok (mk (ip_address_ d) (network_ d) (port_number_to_port_ d) (replies_handler_ d) observer
        (external_internal_observer_ d) (matcher_ d) (stats_ d) (connections_ d) (die_on_fail_to_match_ d)).
Definition AddExternalInternalObserver (d : t) (observer : option nat) : outcome t :=
  _ ← check (bool_decide (external_internal_observer_ d = None \/ external_internal_observer_ d = observer));
  _ ← check (bool_decide (observer <> None));
  Ok (mk (ip_address_ d) (network_ d) (port_number_to_port_ d) (replies_handler_ d) (internal_external_observer_ d)
        observer (matcher_ d) (stats_ d) (connections_ d) (die_on_fail_to_match_ d)).
Definition set_network (d : t) : t :=
  mk (ip_address_ d) true (port_number_to_port_ d) (replies_handler_ d) (internal_external_observer_ d)
     (external_internal_observer_ d) (matcher_ d) (stats_ d) (connections_ d) (die_on_fail_to_match_ d).
Definition set_tx_replies_handler (d : t) (b : bool) : t :=
  mk (ip_address_ d) (network_ d) (port_number_to_port_ d) b (internal_external_observer_ d)
     (external_internal_observer_ d) (matcher_ d) (stats_ d) (connections_ d) (die_on_fail_to_match_ d).

End Device.

(** ** Networks: devices by name, links between their ports *)
Module Network.

Record t := mk { id_to_device_ : gmap string Device.t }.

Definition construct : t := mk ∅.

(** [emplace] keeps a device that is already there. *)
Definition AddDevice (n : t) (id : string) (device : Device.t) : t :=
  mk (match id_to_device_ n !! id with
      | Some _ => id_to_device_ n
      | None => <[id := Device.set_network device]> (id_to_device_ n)
      end).

Definition FindDeviceOrDie (n : t) (id : string) : outcome Device.t :=
  match id_to_device_ n !! id with Some d => Ok d | None => Fail CheckFailed end.

(** The port of a device, changed by [f]. *)
Definition update_port (n : t) (id : string) (port_num : Z) (f : Port.t -> outcome Port.t) : outcome t :=
  d ← FindDeviceOrDie n id;
  let '(d, port) := Device.FindOrCreatePort d port_num in
  port' ← f port;
  Ok (mk (<[id := Device.set_ports d (<[port_num := port']> (Device.port_number_to_port_ d))]> (id_to_device_ n))).

(** [queue] is the address of the queue; connecting the queue to the pipe and
    the pipe to the destination changes the queue and the pipe. *)
Definition AddLink (n : t) (queue : nat) (src_id dst_id : string) (src_port_num dst_port_num : Z) (internal : bool) :
    outcome t :=
  _ ← check (bool_decide (src_id <> dst_id));
  _ ← FindDeviceOrDie n src_id;
  _ ← FindDeviceOrDie n dst_id;
  n ← update_port n src_id src_port_num (λ p, Ok (Port.set_internal p internal));
  n ← update_port n dst_id dst_port_num (λ p, Ok (Port.set_internal p internal));
  update_port n src_id src_port_num (λ p, Port.Connect p (Some queue)).

End Network.

Import Device.

(** ** Numbers that are free *)

(** Distinct keys that are all in a map are at most its size. *)
Lemma used_keys `{Countable K} {A} (m : gmap K A) (g : Z -> K) `{!Inj (=) (=) g} i :
  (forall j, (1 <= j <= i)%Z -> g j ∈ dom m) -> (i <= Z.of_nat (size m))%Z.
Proof.
  intros Hall. destruct (decide (0 <= i)%Z) as [Hi|]; [|lia].
  assert (Hsub : list_to_set (g <$> seqZ 1 i) ⊆@{gset K} dom m).
  { intros k Hk. apply elem_of_list_to_set, list_elem_of_fmap in Hk as (j & -> & Hj%elem_of_seqZ). apply Hall. lia. }
  apply subseteq_size in Hsub. rewrite size_list_to_set, size_dom, length_fmap, length_seqZ in Hsub; [lia|].
  apply NoDup_fmap_2; [done|apply NoDup_seqZ].
Qed.

Lemma next_port_spec fuel : forall d i,
  (forall j, (1 <= j < i)%Z -> j ∈ dom (port_number_to_port_ d)) -> (1 <= i)%Z ->
  (Z.of_nat (size (port_number_to_port_ d)) < umax 32 - 1)%Z ->
  (Z.of_nat (size (port_number_to_port_ d)) + 1 < Z.of_nat fuel + i)%Z ->
  exists n, next_port fuel d i =
      Ok (set_ports d (<[n := Port.construct n]> (port_number_to_port_ d)), Port.construct n) /\
    (1 <= n < umax 32)%Z /\ port_number_to_port_ d !! n = None /\
    (forall j, (1 <= j < n)%Z -> j ∈ dom (port_number_to_port_ d)).
Proof.
  induction fuel as [|fuel IH]; intros d i Hused Hi Hsize Hf.
  { pose proof (used_keys (port_number_to_port_ d) (λ j, j) (i - 1)) as Hk.
    assert (i - 1 <= Z.of_nat (size (port_number_to_port_ d)))%Z; [|lia]. apply Hk. intros j Hj. apply Hused. lia. }
  cbn [next_port]. pose proof (used_keys (port_number_to_port_ d) (λ j, j) (i - 1)) as Hk.
  assert (Hle : (i - 1 <= Z.of_nat (size (port_number_to_port_ d)))%Z) by (apply Hk; intros j Hj; apply Hused; lia).
  rewrite (proj2 (Z.ltb_lt _ _)) by lia.
  destruct (port_number_to_port_ d !! i) as [port|] eqn:Hp; [|exists i; split_and!; [done|lia|lia|done|done]].
  apply IH; [|lia|done|lia]. intros j Hj. destruct (decide (j = i)) as [->|]; [by apply elem_of_dom_2 in Hp|].
  apply Hused. lia.
Qed.

Lemma src_port_inj f : Inj (=) (=) (λ i, FiveTuple.mk (FiveTuple.ip_src f) (FiveTuple.ip_dst f) (FiveTuple.ip_proto f) i
                                          (FiveTuple.dst_port f)).
Proof. by intros i j [=]. Qed.

Lemma pick_port_spec fuel d f : forall i,
  let tuple i := FiveTuple.mk (FiveTuple.ip_src f) (FiveTuple.ip_dst f) (FiveTuple.ip_proto f) i (FiveTuple.dst_port f) in
  (forall j, (1 <= j < i)%Z -> tuple j ∈ dom (connections_ d)) -> (1 <= i)%Z ->
  (Z.of_nat (size (connections_ d)) + 1 < Z.of_nat fuel + i)%Z ->
  match pick_port fuel d f i with
  | Ok r => exists n, (1 <= n < umax 16)%Z /\ r = tuple n /\ connections_ d !! r = None
  | Fail e => e = CheckFailed /\ forall j, (1 <= j < umax 16)%Z -> tuple j ∈ dom (connections_ d)
  end.
Proof.
  intros i tuple. revert i. induction fuel as [|fuel IH]; intros i Hused Hi Hf;
    pose proof (used_keys (connections_ d) tuple (Inj0 := src_port_inj f) (i - 1)) as Hk;
    (assert (Hle : (i - 1 <= Z.of_nat (size (connections_ d)))%Z) by (apply Hk; intros j Hj; apply Hused; lia)); [lia|].
  cbn [pick_port]. destruct (Z.ltb_spec i (umax 16)) as [Hlt|Hge].
  - fold (tuple i). destruct (connections_ d !! tuple i) as [k|] eqn:Hc; [|exists i; split_and!; [lia|lia|done|done]].
    apply IH; [|lia|lia]. intros j Hj. destruct (decide (j = i)) as [->|]; [by apply elem_of_dom_2 in Hc|].
    apply Hused. lia.
  - split; [done|]. intros j Hj. apply Hused. lia.
Qed.

(** ** What a device does to a packet *)

Definition sent (o : output) : option Packet.t := match o with SentOut _ pkt => Some pkt | _ => None end.

(** The packet after a hop: its TTL is one less, and the action may have
    tagged it or marked it for preferential drop. *)
Definition after_hop (pkt : Packet.t) (action : MatchRuleAction.t) : Packet.t :=
  let pkt := if (MatchRuleAction.tag_ action =? kNullPacketTag)%Z then pkt
             else Packet.set_tag pkt (MatchRuleAction.tag_ action) in
  let pkt := if (negb (Packet.preferential_drop pkt) && MatchRuleAction.preferential_drop_ action)%bool
             then Packet.set_preferential_drop pkt true else pkt in
  Packet.set_ttl pkt (Packet.ttl pkt - 1).

Lemma after_hop_fields pkt action :
  Packet.ttl (after_hop pkt action) = (Packet.ttl pkt - 1)%Z /\
  Packet.five_tuple (after_hop pkt action) = Packet.five_tuple pkt /\
  Packet.size_bytes (after_hop pkt action) = Packet.size_bytes pkt.
Proof.
  unfold after_hop. cbv zeta. destruct (_ =? _)%Z; (destruct (_ && _)%bool; done).
Qed.

Lemma HandlePacketWithAction_sends d input_port pkt action out :
  HandlePacketWithAction d input_port pkt action = Ok out ->
  omap sent out = [after_hop pkt action] /\ Packet.ttl pkt <> 0%Z.
Proof.
  unfold HandlePacketWithAction, after_hop. cbv zeta.
  set (p1 := if (MatchRuleAction.tag_ action =? kNullPacketTag)%Z then pkt else _).
  assert (Ht1 : Packet.ttl p1 = Packet.ttl pkt) by (subst p1; by destruct (_ =? _)%Z).
  set (p2 := if (negb (Packet.preferential_drop p1) && _)%bool then _ else p1).
  assert (Ht2 : Packet.ttl p2 = Packet.ttl pkt) by (subst p2; by destruct (_ && _)%bool). clearbody p2.
  unfold Packet.DecrementTTL. destruct (Z.eqb_spec (Packet.ttl p2) 0) as [|Hne]; [done|].
  cbn [check mbind outcome_bind]. destruct (_ !! _) as [output_port|]; [|done].
  intros (sent_out & Hs & [= <-])%bind_Ok. unfold Port.SendPacketOut in Hs.
  destruct (Port.out_handler_ output_port); [|done]. injection Hs as <-.
  split; [|congruence]. rewrite omap_app. destruct (_ && _ && _)%bool; [done|]. by destruct (_ && _ && _)%bool.
Qed.

Lemma deliver_sends kind tuple pkt out : deliver kind tuple pkt = Ok out -> omap sent out = [].
Proof. destruct kind; cbn; try done; by intros [= <-]. Qed.

(** What stays on the device is not sent out. *)
Lemma HandlePacket_sends d now msg d' out :
  HandlePacket d now msg = Ok (d', out) ->
  omap sent out = [] /\ packets_seen (stats_ d') = packets_seen (stats_ d) /\
  packets_for_localhost (stats_ d') = packets_for_localhost (stats_ d) /\
  packets_failed_to_match (stats_ d') = packets_failed_to_match (stats_ d).
Proof.
  unfold HandlePacket. destruct (_ =? 0)%Z.
  - unfold handle_message. destruct (_ =? kSSCPAddOrUpdateType)%Z.
    + destruct (content msg) as [|ptr rule tx_id|]; [done| |done].
      intros (m & _ & [= <- <-])%bind_Ok. split; [|done]. by destruct (_ && _)%bool.
    + destruct (_ =? kSSCPStatsRequestType)%Z; [|by intros [= <- <-]].
      destruct (content msg) as [| |b]; [done|done|].
      intros ([m stats] & _ & (? & _ & [= <- <-])%bind_Ok)%bind_Ok. done.
  - destruct (connections_ d !! _) as [kind|].
    + intros (o & Ho%deliver_sends & [= <- <-])%bind_Ok. done.
    + unfold GetLoopbackPort, FindOrCreatePort.
      destruct (port_number_to_port_ d !! kLoopbackPortNum);
        intros (kind & _ & (o & Ho%deliver_sends & [= <- <-])%bind_Ok)%bind_Ok; done.
Qed.

Lemma HandlePacketFromPort_accounts draw d now port msg d' out :
  (0 <= Packet.ttl (packet msg))%Z ->
  HandlePacketFromPort draw d now port msg = Ok (d', out) ->
  let s := stats_ d in
  let s' := stats_ d' in
  packets_seen s' = u64 (packets_seen s + 1) /\
  ((FiveTuple.ip_dst (Packet.five_tuple (packet msg)) = ip_address_ d /\ omap sent out = [] /\
    packets_for_localhost s' = u64 (packets_for_localhost s + 1) /\ packets_failed_to_match s' = packets_failed_to_match s)
   \/ (omap sent out = [] /\ out = [] /\
    packets_for_localhost s' = packets_for_localhost s /\ packets_failed_to_match s' = u64 (packets_failed_to_match s + 1))
   \/ (exists action, omap sent out = [after_hop (packet msg) action] /\ (0 < Packet.ttl (packet msg))%Z /\
    packets_for_localhost s' = packets_for_localhost s /\ packets_failed_to_match s' = packets_failed_to_match s)).
Proof.
  intros H0. unfold HandlePacketFromPort. cbv zeta. destruct (Z.eqb_spec (FiveTuple.ip_dst (Packet.five_tuple (packet msg))) (ip_address_ d)).
  - intros (Ho & -> & -> & ->)%HandlePacket_sends. split; [done|]. left. done.
  - intros ([m action] & _ & Hm)%bind_Ok. destruct action as [action|].
    + apply bind_Ok in Hm as (o & (Ho & Ht)%HandlePacketWithAction_sends & [= <- <-]).
      split; [done|]. do 2 right. exists action. split_and!; [done|lia|done|done].
    + apply bind_Ok in Hm as ([] & _ & [= <- <-]). split; [done|]. right. left. done.
Qed.

(** A device that handles packets one after the other. *)
Definition handle_all (draw : Z -> nat -> spec_float) (inputs : list (Z * Port.t * message)) (d : Device.t) :
    outcome (Device.t * list output) :=
  mfold (λ '(d, outs) '(now, port, msg),
    '(d', out) ← HandlePacketFromPort draw d now port msg; Ok (d', outs ++ out)) inputs (d, []).

Definition for_host (ip : Z) (m : message) : bool := (FiveTuple.ip_dst (Packet.five_tuple (packet m)) =? ip)%Z.
Definition route_update (m : message) : bool :=
  (Packet.size_bytes (packet m) =? 0)%Z && (FiveTuple.ip_proto (Packet.five_tuple (packet m)) =? kSSCPAddOrUpdateType)%Z.

Definition count (f : message -> bool) (l : list message) : Z := Z.of_nat (length (filter f l)).
Definition bytes (l : list Packet.t) : Z := foldr (λ p n, Packet.size_bytes p + n)%Z 0%Z l.
Definition bytes_if (f : message -> bool) (l : list message) : Z := bytes (packet <$> filter f l).

(** How the counters of the device with address [ip] change from [s] to [s']
    while it handles the packets [msgs] and sends out the packets [out].  The
    counters are 64 bits wide. *)
Record accounted (ip : Z) (s s' : DeviceStats) (msgs : list message) (out : list Packet.t) : Prop := {
  acc_seen : u64 (packets_seen s') = u64 (packets_seen s + count (λ _, true) msgs);
  acc_seen_bytes : u64 (bytes_seen s') = u64 (bytes_seen s + bytes_if (λ _, true) msgs);
  acc_local : u64 (packets_for_localhost s') = u64 (packets_for_localhost s + count (for_host ip) msgs);
  acc_local_bytes : u64 (bytes_for_localhost s') = u64 (bytes_for_localhost s + bytes_if (for_host ip) msgs);
  acc_updates : u64 (route_updates_seen s') =
    u64 (route_updates_seen s + count (λ m, for_host ip m && route_update m) msgs);
  acc_failed : u64 (packets_failed_to_match s') =
    u64 (packets_failed_to_match s + (count (λ m, negb (for_host ip m)) msgs - Z.of_nat (length out)));
  acc_failed_bytes : u64 (bytes_failed_to_match s') =
    u64 (bytes_failed_to_match s + (bytes_if (λ m, negb (for_host ip m)) msgs - bytes out));
  acc_forwarded : exists forwarded, forwarded `sublist_of` filter (λ m, negb (for_host ip m)) msgs /\
    Forall2 (λ m pkt, exists action, pkt = after_hop (packet m) action) forwarded out
}.

Lemma u64_chain a b c x y : u64 b = u64 (a + x) -> u64 c = u64 (b + y) -> u64 c = u64 (a + (x + y)).
Proof. intros Hb ->. rewrite <-u64_add, Hb, u64_add. f_equal. lia. Qed.

Lemma count_app f l1 l2 : count f (l1 ++ l2) = (count f l1 + count f l2)%Z.
Proof. unfold count. rewrite filter_app, length_app. lia. Qed.

Lemma bytes_app l1 l2 : bytes (l1 ++ l2) = (bytes l1 + bytes l2)%Z.
Proof. unfold bytes. induction l1 as [|p l1 IH]; cbn; [done|]. rewrite IH. lia. Qed.

Lemma bytes_if_app f l1 l2 : bytes_if f (l1 ++ l2) = (bytes_if f l1 + bytes_if f l2)%Z.
Proof. unfold bytes_if. by rewrite filter_app, fmap_app, bytes_app. Qed.

Lemma accounted_nil ip s : accounted ip s s [] [].
Proof. split; unfold count, bytes_if, bytes; cbn; try (f_equal; lia). exists []. by split. Qed.

Lemma accounted_app ip s1 s2 s3 l1 l2 o1 o2 :
  accounted ip s1 s2 l1 o1 -> accounted ip s2 s3 l2 o2 -> accounted ip s1 s3 (l1 ++ l2) (o1 ++ o2).
Proof.
  intros [A1 A2 A3 A4 A5 A6 A7 (f1 & Hs1 & Hf1)] [B1 B2 B3 B4 B5 B6 B7 (f2 & Hs2 & Hf2)].
  split; rewrite ?count_app, ?bytes_if_app, ?length_app, ?bytes_app; try by eapply u64_chain.
  - rewrite (u64_chain _ _ _ _ _ A6 B6). f_equal. lia.
  - rewrite (u64_chain _ _ _ _ _ A7 B7). f_equal. lia.
  - exists (f1 ++ f2). rewrite filter_app. split; [by apply sublist_app|by apply Forall2_app].
Qed.

(** What a packet for the device changes. *)
Lemma HandlePacket_stats d now msg d' out :
  HandlePacket d now msg = Ok (d', out) ->
  omap sent out = [] /\ ip_address_ d' = ip_address_ d /\
  stats_ d' = mkStats (packets_seen (stats_ d)) (packets_failed_to_match (stats_ d)) (bytes_seen (stats_ d))
    (bytes_failed_to_match (stats_ d)) (packets_for_localhost (stats_ d)) (bytes_for_localhost (stats_ d))
    (if route_update msg then u64 (route_updates_seen (stats_ d) + 1) else route_updates_seen (stats_ d)).
Proof.
  unfold HandlePacket, route_update. assert (Hs : forall s, s = mkStats (packets_seen s) (packets_failed_to_match s) (bytes_seen s)
    (bytes_failed_to_match s) (packets_for_localhost s) (bytes_for_localhost s) (route_updates_seen s)) by by intros [].
  destruct (_ =? 0)%Z; cbn [andb].
  - unfold handle_message. destruct (_ =? kSSCPAddOrUpdateType)%Z.
    + destruct (content msg) as [|ptr rule tx_id|]; [done| |done].
      intros (m & _ & [= <- <-])%bind_Ok. split; [by destruct (_ && _)%bool|done].
    + destruct (_ =? kSSCPStatsRequestType)%Z; [|by intros [= <- <-]].
      destruct (content msg) as [| |b]; [done|done|].
      intros ([m stats] & _ & (? & _ & [= <- <-])%bind_Ok)%bind_Ok. done.
  - destruct (connections_ d !! _) as [kind|].
    + intros (o & Ho%deliver_sends & [= <- <-])%bind_Ok. done.
    + unfold GetLoopbackPort, FindOrCreatePort.
      destruct (port_number_to_port_ d !! kLoopbackPortNum);
        intros (kind & _ & (o & Ho%deliver_sends & [= <- <-])%bind_Ok)%bind_Ok; done.
Qed.

Lemma filter_one (f : message -> bool) m : filter f [m] = if f m then [m] else [].
Proof. rewrite filter_cons, filter_nil. by destruct (f m). Qed.

Lemma count_one f m : count f [m] = if f m then 1%Z else 0%Z.
Proof. unfold count. rewrite filter_one. by destruct (f m). Qed.

Lemma bytes_if_one f m : bytes_if f [m] = if f m then Packet.size_bytes (packet m) else 0%Z.
Proof. unfold bytes_if, bytes. rewrite filter_one. destruct (f m); cbn; lia. Qed.

Lemma u64_u64 x : u64 (u64 x) = u64 x.
Proof. unfold u64. by rewrite wrap_idemp. Qed.

Lemma accounted_one draw d now port msg d' out :
  HandlePacketFromPort draw d now port msg = Ok (d', out) ->
  ip_address_ d' = ip_address_ d /\ accounted (ip_address_ d) (stats_ d) (stats_ d') [msg] (omap sent out).
Proof.
  unfold HandlePacketFromPort. cbv zeta. fold (for_host (ip_address_ d) msg).
  destruct (for_host (ip_address_ d) msg) eqn:Hh.
  - intros (-> & Hip & ->)%HandlePacket_stats. split; [done|].
    split; rewrite ?count_one, ?bytes_if_one, ?filter_one, ?Hh; unfold bytes; cbn; rewrite ?u64_u64; try (f_equal; lia).
    + destruct (route_update msg); rewrite ?u64_u64; f_equal; lia.
    + by exists [].
  - intros ([m action] & _ & Hm)%bind_Ok. destruct action as [action|].
    + apply bind_Ok in Hm as (o & (Ho & _)%HandlePacketWithAction_sends & [= <- <-]). split; [done|]. rewrite Ho.
      destruct (after_hop_fields (packet msg) action) as (_ & _ & Hsz).
      remember (after_hop (packet msg) action) as p eqn:Hp.
      split; rewrite ?count_one, ?bytes_if_one, ?filter_one, ?Hh; unfold bytes; cbn; rewrite ?u64_u64, ?Hsz; try (f_equal; lia).
      exists [msg]. split; [done|]. constructor; [by exists action|constructor].
    + apply bind_Ok in Hm as ([] & _ & [= <- <-]). split; [done|].
      split; rewrite ?count_one, ?bytes_if_one, ?filter_one, ?Hh; unfold bytes; cbn; rewrite ?u64_u64; try (f_equal; lia).
      exists []. by split; [apply sublist_nil_l|].
Qed.

Lemma accounted_all draw inputs : forall d outs d' outs',
  mfold (λ '(d, outs) '(now, port, msg),
    '(d', out) ← HandlePacketFromPort draw d now port msg; Ok (d', outs ++ out)) inputs (d, outs) = Ok (d', outs') ->
  exists out, outs' = outs ++ out /\ accounted (ip_address_ d) (stats_ d) (stats_ d') inputs.*2 (omap sent out).
Proof.
  induction inputs as [|[[now port] msg] inputs IH]; intros d outs d' outs'; cbn [mfold].
  { intros [= <- <-]. exists []. split; [by rewrite app_nil_r|apply accounted_nil]. }
  intros ([d1 outs1] & ([d2 out] & Hh & [= <- <-])%bind_Ok & Hrest)%bind_Ok.
  apply accounted_one in Hh as [Hip Hacc]. apply IH in Hrest as (out' & -> & Hacc'). rewrite Hip in Hacc'.
  exists (out ++ out'). rewrite app_assoc, omap_app. split; [done|]. by eapply (accounted_app _ _ _ _ [msg]).
Qed.

(** ** Journeys through the network *)

(** A packet that is sent on by [n] devices, one after the other, and passes
    queues and pipes in between. *)
Inductive travels : Packet.t -> nat -> Packet.t -> Prop :=
| travels_here pkt : travels pkt 0 pkt
| travels_queue pkt n pkt' time : travels pkt n pkt' -> travels pkt n (Packet.AddToQueueingTime pkt' time)
| travels_pipe pkt n pkt' time : travels pkt n pkt' -> travels pkt n (Packet.AddToPropagationTime pkt' time)
| travels_device pkt n pkt' draw d now port b d' out pkt'' :
    travels pkt n pkt' -> HandlePacketFromPort draw d now port (mkMessage pkt' b) = Ok (d', out) ->
    pkt'' ∈ omap sent out -> travels pkt (S n) pkt''.

(** ** Properties *)

(** C36: a device accounts for every packet: whatever its ports, rules,
    connections, observers and reply handler are, over any sequence of packets,
    route updates and statistics requests that it handles without dying, it
    counts each packet and its bytes as seen, those with its address as its own,
    the route updates among them as such, and each of the others either as
    failed to match or sends it out, once and in order, with one hop less to
    live; nothing else is sent out, and no other counter changes. *)
Theorem Device_accounts_for_packets draw inputs d d' outs :
  handle_all draw inputs d = Ok (d', outs) ->
  accounted (ip_address_ d) (stats_ d) (stats_ d') inputs.*2 (omap sent outs).
Proof. intros (out & -> & H)%accounted_all. exact H. Qed.

(** C35: A packet makes at most as many hops as its TTL says, along any path
    through any devices, queues and pipes, so that a packet caught in a
    forwarding loop does not circulate for ever; on its way its five-tuple and
    size do not change. *)
Theorem Device_hops_bounded pkt n pkt' :
  (0 <= Packet.ttl pkt)%Z -> travels pkt n pkt' ->
  (Z.of_nat n <= Packet.ttl pkt)%Z /\ Packet.ttl pkt' = (Packet.ttl pkt - Z.of_nat n)%Z /\
  Packet.five_tuple pkt' = Packet.five_tuple pkt /\ Packet.size_bytes pkt' = Packet.size_bytes pkt.
Proof.
  intros H0. induction 1 as [pkt|pkt n pkt' time _ IH|pkt n pkt' time _ IH|pkt n pkt' draw d now port b d' out pkt'' _ IH Hh Hin].
  - split_and!; [lia|lia|done|done].
  - by apply IH.
  - by apply IH.
  - destruct (IH H0) as (Hn & Ht & Hf & Hs).
    apply HandlePacketFromPort_accounts in Hh as [_ [(_ & Ho & _)|[(Ho & _)|(action & Ho & Hpos & _)]]]; cbn in *; [| | |lia].
    + by rewrite Ho in Hin; apply not_elem_of_nil in Hin.
    + by rewrite Ho in Hin; apply not_elem_of_nil in Hin.
    + rewrite Ho in Hin. apply list_elem_of_singleton in Hin as ->.
      destruct (after_hop_fields pkt' action) as (-> & -> & ->). split_and!; [lia|lia|done|done].
Qed.

(** [NextAvailablePort] creates the port with the smallest number from 1
    on that is free, and [PickSrcPortOrDie] returns a tuple that no connection
    has, or dies when all source ports are used: neither replaces a port or a
    connection, and both loops terminate. *)
Theorem Device_numbers_are_free d f :
  (Z.of_nat (size (port_number_to_port_ d)) < umax 32 - 1)%Z ->
  (exists n, NextAvailablePort d =
      Ok (set_ports d (<[n := Port.construct n]> (port_number_to_port_ d)), Port.construct n) /\
    (1 <= n < umax 32)%Z /\ port_number_to_port_ d !! n = None /\
    (forall j, (1 <= j < n)%Z -> j ∈ dom (port_number_to_port_ d))) /\
  match PickSrcPortOrDie d f with
  | Ok r => (exists n, (1 <= n < umax 16)%Z /\
               r = FiveTuple.mk (FiveTuple.ip_src f) (FiveTuple.ip_dst f) (FiveTuple.ip_proto f) n (FiveTuple.dst_port f)) /\
            connections_ d !! r = None
  | Fail e => e = CheckFailed /\ forall j, (1 <= j < umax 16)%Z ->
      FiveTuple.mk (FiveTuple.ip_src f) (FiveTuple.ip_dst f) (FiveTuple.ip_proto f) j (FiveTuple.dst_port f) ∈ dom (connections_ d)
  end.
Proof.
  intros Hsize. split.
  - apply next_port_spec; [intros j Hj; lia|lia|done|lia].
  - unfold PickSrcPortOrDie. pose proof (pick_port_spec (S (size (connections_ d))) d f 1 ltac:(intros j Hj; lia) ltac:(lia) ltac:(lia)) as Hp.
    cbv zeta in Hp. destruct (pick_port _ d f 1) as [r|e]; [|done]. destruct Hp as (n & Hn & -> & Hc). eauto.
Qed.

(** ** Examples *)
Section examples.
Local Open Scope Z_scope.

Definition demo_ports : gmap Z Port.t :=
  <[1 := Port.mk 1 (Some 7%nat) false]> (<[2 := Port.mk 2 (Some 8%nat) false]> ∅).
Definition demo_update : message :=
  new_message 9 100 kSSCPAddOrUpdateType 0 (SSCPAddOrUpdate 0 (demo_rule demo_key) 0).
Definition demo_request : message :=
  new_message 9 100 kSSCPStatsRequestType 0 (SSCPStatsRequest false).
Definition demo_inputs : list (Z * Port.t * message) :=
  [(0, Port.mk 1 (Some 7%nat) false, demo_update);
   (1, Port.mk 2 (Some 8%nat) false, mkMessage demo_packet NoBody);
   (2, Port.mk 2 (Some 8%nat) false, mkMessage (Packet.construct (FiveTuple.mk 4 5 6 1 1) 10 0) NoBody);
   (3, Port.mk 2 (Some 8%nat) false, mkMessage (Packet.construct (FiveTuple.mk 4 100 17 1 1) 10 0) NoBody);
   (4, Port.mk 1 (Some 7%nat) false, demo_request)].

(** A device with a reply handler. *)
Definition demo_device : Device.t := set_tx_replies_handler (set_ports (Device.construct 100) demo_ports) true.

Lemma Device_accounts_for_packets_witness :
  exists d' outs, handle_all no_sampling demo_inputs demo_device = Ok (d', outs) /\
    packets_for_localhost (stats_ d') = 3 /\ packets_failed_to_match (stats_ d') = 1 /\
    length (omap sent outs) = 1%nat /\
    accounted 100 (stats_ demo_device) (stats_ d') demo_inputs.*2 (omap sent outs).
Proof.
  destruct (handle_all no_sampling demo_inputs demo_device) as [[d' outs]|e] eqn:Hh.
  - exists d', outs. split; [reflexivity|].
    pose proof (Device_accounts_for_packets no_sampling demo_inputs demo_device d' outs Hh) as H.
    vm_compute in Hh. injection Hh as <- <-. split_and!; [reflexivity..|exact H].
  - vm_compute in Hh. discriminate Hh.
Defined.

Lemma Device_hops_bounded_witness :
  exists pkt', travels demo_packet 1 pkt' /\ Packet.ttl pkt' = 99.
Proof.
  assert (Ht : exists pkt', travels demo_packet 1 pkt').
  { eexists. eapply (travels_device _ _ demo_packet no_sampling
      (set_matcher (set_ports (Device.construct 100) demo_ports) demo_matcher) 0 (Port.mk 2 (Some 8%nat) false) NoBody).
    - apply travels_here.
    - vm_compute. reflexivity.
    - vm_compute. left. }
  destruct Ht as (pkt' & Ht). exists pkt'. split; [exact Ht|].
  refine (proj1 (proj2 (Device_hops_bounded demo_packet 1 pkt' _ Ht))). vm_compute. discriminate.
Defined.

Lemma Device_numbers_are_free_witness :
  exists n, port_number_to_port_ (set_ports (Device.construct 100) demo_ports) !! n = None /\ 1 <= n.
Proof.
  destruct (Device_numbers_are_free (set_ports (Device.construct 100) demo_ports) (dst_tuple 7)) as [(n & _ & Hn & Hf & _) _].
  - vm_compute. reflexivity.
  - exists n. split; [exact Hf|lia].
Defined.
End examples.
