(* ===== verification/PtrQueue.v ===== *)
(** Model of the blocking queue between threads ([src/src/ptr_queue.h]).  All
    methods hold the mutex except while they wait on the condition variable,
    so that a step of the model is what a thread does from taking the mutex,
    or from waking up, until it waits or returns.  [notify_all] wakes all
    threads that sleep; a thread may also wake up spuriously or by timeout. *)

From S2P Require Import Prelude.

Module PtrQueue.
Section queue.
Context {T : Type} (Size : nat).

(** An item that was taken out or invalidated leaves a null pointer. *)
Record t := mk {
  producer_ : nat;
  consumer_ : nat;
  num_items_ : nat;
  closed_ : bool;
  queue_ : list (option T)
}.

Definition kMask : nat := Size - 1.

Definition construct : t := mk 0 0 0 false (replicate Size None).

Definition size (q : t) : nat := num_items_ q.
Definition empty (q : t) : bool := size q =? 0.

(** What a call does until it returns a value of type [R] or waits. *)
Inductive progress (R : Type) : Type :=
| Returned (r : R)
| MustWait.

(** [queue_[producer_] = std::move(item)] and what follows. *)
Definition push (q : t) (item : T) : outcome t :=
  _ ← vec_at (queue_ q) (producer_ q);
  Ok (mk (Nat.land (producer_ q + 1) kMask) (consumer_ q) (S (num_items_ q)) (closed_ q)
        (<[producer_ q := Some item]> (queue_ q))).

(** [ProduceOrBlockWithTimeout] until it waits; [true] means produced. *)
Definition produce (q : t) (item : T) : outcome (t * progress bool) :=
  if closed_ q then Ok (q, Returned _ false)
  else if num_items_ q =? Size then Ok (q, MustWait _)
  else q' ← push q item; Ok (q', Returned _ true).

(** The same from waking up; the predicate is checked again. *)
Definition produce_woken (q : t) (item : T) : outcome (t * progress bool) :=
  if closed_ q || (num_items_ q <? Size) then
    if closed_ q then Ok (q, Returned _ false)
    else q' ← push q item; Ok (q', Returned _ true)
  else Ok (q, MustWait _).

(** The loop of [ConsumeOrBlockWithTimeout], also from waking up.  The loop
    skips pointers that are null. *)
Fixpoint consume (fuel : nat) (q : t) : outcome (t * progress (option T)) :=
  match num_items_ q with
  | O => if closed_ q then Ok (q, Returned _ None) else Ok (q, MustWait _)
  | S n =>
      match fuel with
      | O => Fail OutOfFuel
      | S fuel' =>
          return_ptr ← vec_at (queue_ q) (consumer_ q);
          let q' := mk (producer_ q) (Nat.land (consumer_ q + 1) kMask) n (closed_ q)
                      (<[consumer_ q := None]> (queue_ q)) in
          match return_ptr with
          | Some item => Ok (q', Returned _ (Some item))
          | None => consume fuel' q'
          end
      end
  end.

Definition ConsumeOrBlock (q : t) : outcome (t * progress (option T)) := consume (num_items_ q) q.

Definition Invalidate (callback : T -> bool) (q : t) : t :=
  mk (producer_ q) (consumer_ q) (num_items_ q) (closed_ q)
    ((λ slot, match slot with Some item => if callback item then None else Some item | None => None end) <$> queue_ q).

Definition Close (q : t) : t := mk (producer_ q) (consumer_ q) (num_items_ q) true (queue_ q).

(** [Drain]; the vector it returns has a null pointer for an invalid item. *)
Fixpoint drain (fuel : nat) (q : t) : outcome (t * list (option T)) :=
  match num_items_ q with
  | O => Ok (q, [])
  | S n =>
      match fuel with
      | O => Fail OutOfFuel
      | S fuel' =>
          item ← vec_at (queue_ q) (consumer_ q);
          '(q', out) ← drain fuel' (mk (producer_ q) (Nat.land (consumer_ q + 1) kMask) n (closed_ q)
                                     (<[consumer_ q := None]> (queue_ q)));
          Ok (q', item :: out)
      end
  end.

Definition Drain (q : t) : outcome (t * list (option T)) := drain (num_items_ q) q.

End queue.
End PtrQueue.

Import PtrQueue.
Arguments Returned {R}.
Arguments MustWait {R}.

(** ** The contents *)
Section contents.
Context {T : Type} (Size k : nat).
Hypothesis HSize : Size = 2 ^ k.

(** The slot that lies [i] after the first one. *)
Definition slot (q : t (T := T)) (i : nat) : nat := (consumer_ q + i) mod Size.

(** The pointers from the consumer to the producer. *)
Definition contents (q : t (T := T)) : list (option T) :=
  (λ i, default None (queue_ q !! slot q i)) <$> seq 0 (num_items_ q).

Record ring (q : t (T := T)) : Prop := {
  ring_length : length (queue_ q) = Size;
  ring_items : num_items_ q <= Size;
  ring_consumer : consumer_ q < Size;
  ring_producer : producer_ q = slot q (num_items_ q)
}.

Lemma Size_pos : 0 < Size.
Proof using HSize. rewrite HSize. pose proof (Nat.pow_nonzero 2 k). lia. Qed.

Lemma mask_mod_size x : Nat.land x (kMask Size) = x mod Size.
Proof using HSize.
  unfold kMask. rewrite HSize. rewrite <-Nat.land_ones. f_equal. rewrite Nat.ones_equiv. lia.
Qed.

Lemma ring_construct : ring (construct Size) /\ contents (construct Size) = [].
Proof using HSize.
  pose proof Size_pos. split; [|done]. split; cbn; [apply length_replicate|lia|lia|].
  unfold slot. cbn. by rewrite Nat.Div0.mod_0_l.
Qed.

Lemma slot_lt q i : slot q i < Size.
Proof using HSize. pose proof Size_pos. apply Nat.mod_upper_bound. lia. Qed.

(** Slots less than a round apart are different. *)
Lemma slot_inj q i j : i < Size -> j < Size -> slot q i = slot q j -> i = j.
Proof using HSize.
  intros Hi Hj. unfold slot. pose proof Size_pos. intros Heq.
  pose proof (Nat.div_mod_eq (consumer_ q + i) Size). pose proof (Nat.div_mod_eq (consumer_ q + j) Size).
  assert ((consumer_ q + i) / Size = (consumer_ q + j) / Size); nia.
Qed.

Lemma contents_ext q q' :
  num_items_ q' = num_items_ q -> (forall i, i < num_items_ q -> queue_ q' !! slot q' i = queue_ q !! slot q i) ->
  contents q' = contents q.
Proof.
  intros Hn Hs. unfold contents. rewrite Hn. apply list_fmap_ext. intros i j Hj%lookup_seq. rewrite Hs; [done|lia].
Qed.

Lemma push_spec q item :
  ring q -> num_items_ q < Size ->
  exists q', push Size q item = Ok q' /\ ring q' /\ closed_ q' = closed_ q /\
    contents q' = contents q ++ [Some item].
Proof using HSize.
  intros [Hl Hn Hc Hp] Hlt. unfold push. pose proof (slot_lt q (num_items_ q)) as Hs.
  destruct (vec_at_lt (queue_ q) (producer_ q)) as [x ->]; [lia|]. cbn [mbind outcome_bind].
  eexists. split; [done|]. split_and!; [|done|].
  - split; cbn; [by rewrite length_insert|lia|done|]. rewrite mask_mod_size, Hp. unfold slot. cbn.
    rewrite Nat.Div0.add_mod_idemp_l. f_equal. lia.
  - unfold contents. cbn [num_items_]. rewrite seq_S, fmap_app. cbn [fmap list_fmap Nat.add]. f_equal.
    + apply list_fmap_ext. intros i j [-> Hj]%lookup_seq. unfold slot at 1. cbn [consumer_ queue_]. fold (slot q i).
      rewrite list_lookup_insert_ne; [done|]. rewrite Hp. intros Heq%slot_inj; lia.
    + f_equal. unfold slot. cbn [consumer_ queue_]. fold (slot q (num_items_ q)). rewrite Hp.
      by rewrite list_lookup_insert_eq by lia.
Qed.

(** Taking the first pointer out. *)
Definition popped (q : t (T := T)) : t :=
  mk (producer_ q) (Nat.land (consumer_ q + 1) (kMask Size)) (pred (num_items_ q)) (closed_ q)
    (<[consumer_ q := None]> (queue_ q)).

Lemma take_first_spec q n :
  ring q -> num_items_ q = S n ->
  exists x, vec_at (queue_ q) (consumer_ q) = Ok x /\ ring (popped q) /\ contents q = x :: contents (popped q).
Proof using HSize.
  intros [Hl Hn Hc Hp] Hitems. pose proof Size_pos as H0.
  destruct (vec_at_lt (queue_ q) (consumer_ q)) as [x Hx]; [lia|]. exists x. split; [done|].
  assert (Hslot : forall i, slot (popped q) i = slot q (S i)).
  { intros i. unfold slot, popped. cbn [consumer_]. rewrite mask_mod_size, Nat.Div0.add_mod_idemp_l. f_equal. lia. }
  split.
  - split; [cbn; by rewrite length_insert|cbn; lia|cbn; rewrite mask_mod_size; apply Nat.mod_upper_bound; lia|].
    rewrite Hslot. cbn [popped producer_ num_items_]. rewrite Hp, Hitems. done.
  - unfold contents at 1. rewrite Hitems. cbn [seq fmap list_fmap]. f_equal.
    + unfold slot. rewrite Nat.add_0_r, Nat.mod_small by done. apply vec_at_Ok in Hx. by rewrite Hx.
    + rewrite <-fmap_S_seq, <-list_fmap_compose. unfold contents. cbn [popped num_items_]. rewrite Hitems. cbn [pred].
      apply list_fmap_ext. intros i j [-> Hj]%lookup_seq. cbn [compose]. rewrite Hslot. cbn [popped queue_ Nat.add].
      rewrite list_lookup_insert_ne; [done|]. intros Heq.
      assert (Hs0 : slot q 0 = slot q (S i)) by (unfold slot at 1; rewrite Nat.add_0_r, Nat.mod_small by done; done).
      apply slot_inj in Hs0; lia.
Qed.

(** Consuming takes out the first pointer that is not null, and what is before
    it; when there is none, everything. *)
Lemma consume_spec fuel : forall q,
  ring q -> num_items_ q <= fuel ->
  exists q' r, consume Size fuel q = Ok (q', r) /\ ring q' /\ closed_ q' = closed_ q /\
    ((exists item, r = Returned (Some item) /\ omap (λ x, x) (contents q) = item :: omap (λ x, x) (contents q') /\
        length (contents q') < length (contents q)) \/
     (omap (λ x, x) (contents q) = [] /\ contents q' = [] /\
        r = if closed_ q then Returned None else MustWait)).
Proof using HSize.
  induction fuel as [|fuel IH]; intros q Hr Hf.
  - assert (H0 : num_items_ q = 0) by lia. exists q. unfold contents. cbn [consume]. rewrite H0.
    exists (if closed_ q then Returned None else MustWait). split; [by destruct (closed_ q)|]. split; [done|].
    split; [done|]. right. done.
  - cbn [consume]. destruct (num_items_ q) as [|n] eqn:Hn.
    { exists q, (if closed_ q then Returned None else MustWait). unfold contents. rewrite Hn.
      split; [by destruct (closed_ q)|]. split; [done|]. split; [done|]. by right. }
    destruct (take_first_spec q n Hr Hn) as (x & -> & Hr' & Hcont). cbn [mbind outcome_bind].
    assert (Hpop : popped q = mk (producer_ q) (Nat.land (consumer_ q + 1) (kMask Size)) n (closed_ q)
                     (<[consumer_ q := None]> (queue_ q))) by (unfold popped; by rewrite Hn).
    rewrite <-Hpop. rewrite Hcont. destruct x as [item|].
    + exists (popped q), (Returned (Some item)). split; [done|]. split; [done|]. split; [done|]. left.
      exists item. split; [done|]. split; [done|]. cbn [length]. lia.
    + destruct (IH (popped q) Hr') as (q' & r & Hq & Hring & Hcl & Hcase).
      { rewrite Hpop. cbn. lia. }
      exists q', r. split; [done|]. split; [done|]. split; [done|].
      destruct Hcase as [(item & -> & Ho & Hlt)|(Ho & He & ->)]; [left; exists item|right]; split_and!; try done.
      cbn [length]. lia.
Qed.

Lemma Drain_spec fuel : forall q,
  ring q -> num_items_ q <= fuel ->
  exists q', drain Size fuel q = Ok (q', contents q) /\ ring q' /\ closed_ q' = closed_ q /\ contents q' = [].
Proof using HSize.
  induction fuel as [|fuel IH]; intros q Hr Hf.
  - assert (H0 : num_items_ q = 0) by lia. exists q. unfold contents. cbn [drain]. rewrite H0. done.
  - cbn [drain]. destruct (num_items_ q) as [|n] eqn:Hn.
    { exists q. unfold contents. by rewrite Hn. }
    destruct (take_first_spec q n Hr Hn) as (x & -> & Hr' & Hcont). cbn [mbind outcome_bind].
    assert (Hpop : popped q = mk (producer_ q) (Nat.land (consumer_ q + 1) (kMask Size)) n (closed_ q)
                     (<[consumer_ q := None]> (queue_ q))) by (unfold popped; by rewrite Hn).
    rewrite <-Hpop, Hcont. destruct (IH (popped q) Hr') as (q' & -> & Hring & Hcl & He); [rewrite Hpop; cbn; lia|].
    exists q'. done.
Qed.

Lemma invalidate_spec f q :
  ring q -> ring (Invalidate f q) /\
    contents (Invalidate f q) =
      (λ x : option T, match x with Some item => if f item then None else Some item | None => None end) <$> contents q.
Proof using HSize.
  intros [Hl Hn Hc Hp]. split.
  - split; cbn; [by rewrite length_fmap|done..].
  - unfold contents. rewrite <-list_fmap_compose. apply list_fmap_ext. intros i j Hj. cbn [compose Invalidate queue_].
    change (slot (Invalidate f q) j) with (slot q j). rewrite list_lookup_fmap.
    by destruct (queue_ q !! slot q j) as [[item|]|].
Qed.
End contents.

(** ** Threads *)
Section threads.
Context {T : Type} (Size k : nat).
Hypothesis HSize : Size = 2 ^ k.

(** A thread inside a call; [asleep] until it is notified. *)
Inductive thread : Type :=
| Producing (item : T) (asleep : bool)
| Consuming (asleep : bool).

(** [produced] are the items that went in, [taken] those that came out, in
    order. *)
Record world := mkWorld {
  q : t (T := T);
  threads : gmap nat thread;
  produced : list T;
  taken : list T
}.

(** [condition_.notify_all()]. *)
Definition notify_all (ths : gmap nat thread) : gmap nat thread :=
  (λ th, match th with Producing item _ => Producing item false | Consuming _ => Consuming false end) <$> ths.

Definition after_produce (w : world) (tid : nat) (item : T) (q' : t) (r : progress bool) : world :=
  match r with
  | Returned true => mkWorld q' (notify_all (delete tid (threads w))) (produced w ++ [item]) (taken w)
  | Returned false => mkWorld q' (delete tid (threads w)) (produced w) (taken w)
  | MustWait => mkWorld q' (<[tid := Producing item true]> (threads w)) (produced w) (taken w)
  end.

Definition after_consume (w : world) (tid : nat) (q' : t) (r : progress (option T)) : world :=
  match r with
  | Returned (Some item) => mkWorld q' (notify_all (delete tid (threads w))) (produced w) (taken w ++ [item])
  | Returned None => mkWorld q' (delete tid (threads w)) (produced w) (taken w)
  | MustWait => mkWorld q' (<[tid := Consuming true]> (threads w)) (produced w) (taken w)
  end.

(** The steps of all threads; [others] tells whether [Invalidate] and [Drain]
    are used. *)
Inductive step (others : bool) : world -> world -> Prop :=
| step_produce w tid item q' r :
    threads w !! tid = None -> produce Size (q w) item = Ok (q', r) ->
    step others w (after_produce w tid item q' r)
| step_produce_woken w tid item asleep q' r :
    threads w !! tid = Some (Producing item asleep) -> produce_woken Size (q w) item = Ok (q', r) ->
    step others w (after_produce w tid item q' r)
| step_produce_timeout w tid item asleep :
    threads w !! tid = Some (Producing item asleep) -> closed_ (q w) || (num_items_ (q w) <? Size) = false ->
    step others w (mkWorld (q w) (delete tid (threads w)) (produced w) (taken w))
| step_consume w tid q' r :
    threads w !! tid = None -> ConsumeOrBlock Size (q w) = Ok (q', r) ->
    step others w (after_consume w tid q' r)
| step_consume_woken w tid asleep q' r :
    threads w !! tid = Some (Consuming asleep) -> ConsumeOrBlock Size (q w) = Ok (q', r) ->
    step others w (after_consume w tid q' r)
| step_consume_timeout w tid asleep :
    threads w !! tid = Some (Consuming asleep) -> closed_ (q w) || (0 <? num_items_ (q w)) = false ->
    step others w (mkWorld (q w) (delete tid (threads w)) (produced w) (taken w))
| step_close w :
    step others w (mkWorld (Close (q w)) (notify_all (threads w)) (produced w) (taken w))
| step_invalidate w f :
    others = true -> step others w (mkWorld (Invalidate f (q w)) (threads w) (produced w) (taken w))
| step_drain w q' out :
    others = true -> Drain Size (q w) = Ok (q', out) ->
    step others w (mkWorld q' (threads w) (produced w) (taken w ++ omap (λ x, x) out)).

Definition start : world := mkWorld (construct Size) ∅ [] [].
Definition reachable (others : bool) (w : world) : Prop := rtc (step others) start w.

(** The items that can still be consumed. *)
Definition pending (q : t (T := T)) : list T := omap (λ x, x) (contents Size q).

Lemma length_contents (q : t (T := T)) : length (contents Size q) = num_items_ q.
Proof using Type. unfold contents. by rewrite length_fmap, length_seq. Qed.

Record queue_inv (others : bool) (w : world) : Prop := {
  inv_ring : ring Size (q w);
  inv_order : (taken w ++ pending (q w)) `sublist_of` produced w;
  inv_exact : others = false -> taken w ++ pending (q w) = produced w /\ Forall is_Some (contents Size (q w))
}.

Lemma produce_cases (q : t (T := T)) (item : T) :
  ring Size q ->
  exists q' r, produce_woken Size q item = Ok (q', r) /\
    ((closed_ q = true /\ q' = q /\ r = Returned false) \/
     (closed_ q = false /\ num_items_ q = Size /\ q' = q /\ r = MustWait) \/
     (closed_ q = false /\ num_items_ q < Size /\ push Size q item = Ok q' /\ r = Returned true)).
Proof using HSize.
  intros Hr. unfold produce_woken. destruct (closed_ q) eqn:Hc; cbn [orb]; [eauto 10|].
  destruct (Nat.ltb_spec (num_items_ q) Size) as [Hlt|Hge].
  - destruct (push_spec Size k HSize q item Hr Hlt) as (q' & Hq' & _). rewrite Hq'. eauto 10.
  - destruct Hr as [_ Hle _ _]. exists q, MustWait. split; [done|]. right. left. split_and!; [done|lia|done|done].
Qed.

(** A call and a wake-up do the same. *)
Lemma produce_is_woken (q : t (T := T)) (item : T) : ring Size q -> produce Size q item = produce_woken Size q item.
Proof using Type.
  clear HSize. intros [_ Hle _ _]. unfold produce, produce_woken. destruct (closed_ q); [done|]. cbn [orb].
  destruct (Nat.eqb_spec (num_items_ q) Size), (Nat.ltb_spec (num_items_ q) Size); (done || lia).
Qed.

Lemma produce_inv others w tid item q' r :
  queue_inv others w -> produce_woken Size (q w) item = Ok (q', r) -> queue_inv others (after_produce w tid item q' r).
Proof using HSize.
  intros [Hr Ho He] Hp. destruct (produce_cases (q w) item Hr) as (q1 & r1 & Hp' & Hcase). rewrite Hp in Hp'.
  injection Hp' as <- <-. destruct Hcase as [(_ & -> & ->)|[(_ & _ & -> & ->)|(_ & Hlt & Hpush & ->)]]; [done..|].
  destruct (push_spec Size k HSize (q w) item Hr Hlt) as (q2 & Hq2 & Hr2 & _ & Hcont). rewrite Hpush in Hq2.
  injection Hq2 as <-. cbn [after_produce]. unfold pending in *. split; cbn [q produced taken]; [done| |]; unfold pending; rewrite Hcont.
  - rewrite omap_app, app_assoc. cbn. by apply sublist_app.
  - intros Hof. destruct (He Hof) as [Heq Hall]. rewrite omap_app, app_assoc, Heq. split; [done|].
    apply Forall_app. split; [done|]. by repeat constructor.
Qed.

Lemma consume_inv others w tid q' r :
  queue_inv others w -> ConsumeOrBlock Size (q w) = Ok (q', r) -> queue_inv others (after_consume w tid q' r).
Proof using HSize.
  intros [Hr Ho He] Hc. unfold ConsumeOrBlock in Hc. unfold pending in *.
  destruct (consume_spec Size k HSize (num_items_ (q w)) (q w) Hr (Nat.le_refl _)) as (q1 & r1 & Hc' & Hr1 & _ & Hcase).
  rewrite Hc in Hc'. injection Hc' as <- <-.
  destruct Hcase as [(item & -> & Hom & Hlt)|(Hom & Hnil & ->)].
  - cbn [after_consume]. split; cbn [q produced taken]; unfold pending; [done| |].
    + rewrite <-app_assoc. cbn. by rewrite <-Hom.
    + intros Hof. destruct (He Hof) as [Heq Hall]. rewrite <-app_assoc. cbn. rewrite <-Hom. split; [done|].
      destruct (contents Size (q w)) as [|[y|] l] eqn:Hcont; [done| |by apply Forall_cons in Hall as [[y Hy] _]].
      assert (num_items_ (q w) = S (length l)) as Hn by (by rewrite <-length_contents, Hcont).
      destruct (take_first_spec Size k HSize (q w) _ Hr Hn) as (x & Hx & Hr' & Hpop). rewrite Hcont in Hpop. injection Hpop as <- ->.
      cbn [consume] in Hc. rewrite Hn in Hc. cbn [consume] in Hc. rewrite Hn, Hx in Hc. injection Hc as <-.
      apply Forall_cons in Hall as [_ Hall].
      replace (length _) with (pred (num_items_ (q w))) by (by rewrite Hn). exact Hall.
  - assert (Hres : queue_inv others (mkWorld q' (threads w) (produced w) (taken w))).
    { assert (Hp : omap (λ x, x) (contents Size q') = omap (λ x, x) (contents Size (q w))) by (by rewrite Hnil, Hom).
      split; cbn [q produced taken]; unfold pending; [done|by rewrite Hp|].
      intros Hof. rewrite Hp, Hnil. by destruct (He Hof) as [Heq _]. }
    destruct Hres as [? ? ?]. destruct (closed_ (q w)); by split.
Qed.

Lemma reachable_queue others w : reachable others w -> queue_inv others w.
Proof using HSize.
  unfold reachable. revert w. apply (rtc_ind_r (queue_inv others)).
  - destruct (ring_construct (T := T) Size k HSize) as [Hr Hc]. split; cbn [start q produced taken]; unfold pending; rewrite ?Hc; done.
  - intros w w' _ Hstep [Hr Ho He].
    destruct Hstep as [w tid item q' r _ Hp|w tid item b q' r _ Hp|w tid item b _ _|w tid q' r _ Hc|w tid b q' r _ Hc
                      |w tid b _ _|w|w f ->|w q' out -> Hd].
    + rewrite produce_is_woken in Hp by done. by eapply produce_inv.
    + by eapply produce_inv.
    + done.
    + by eapply consume_inv.
    + by eapply consume_inv.
    + done.
    + split; [|done|done]. destruct Hr as [? ? ? ?]. by split.
    + destruct (invalidate_spec Size k HSize f (q w) Hr) as [Hr' Hcont].
      split; cbn [q produced taken]; [done| |done]. unfold pending in *. rewrite Hcont.
      etrans; [|exact Ho]. apply sublist_app; [done|]. clear. induction (contents Size (q w)) as [|[x|] l IH]; [done| |done].
      cbn. destruct (f x); cbn; by constructor.
    + unfold Drain in Hd. destruct (Drain_spec Size k HSize (num_items_ (q w)) (q w) Hr (Nat.le_refl _)) as (q1 & Hd' & Hr1 & _ & Hnil).
      rewrite Hd in Hd'. injection Hd' as <- ->. split; cbn [q produced taken]; [done| |done].
      unfold pending in *. by rewrite Hnil, app_nil_r.
Qed.
End threads.

(** ** Wake-ups *)
Section wakeups.
Context {T : Type} (Size k : nat).
Hypothesis HSize : Size = 2 ^ k.

(** What a sleeping thread waits for has not happened. *)
Definition sleeps_rightly (q : t (T := T)) (th : thread (T := T)) : Prop :=
  match th with
  | Producing _ true => num_items_ q = Size /\ closed_ q = false
  | Consuming true => num_items_ q = 0 /\ closed_ q = false
  | _ => True
  end.

Definition all_sleep_rightly (w : world (T := T)) : Prop :=
  map_Forall (λ _ th, sleeps_rightly (q w) th) (threads w).

Lemma notified_sleep_rightly q ths : map_Forall (λ _ th, sleeps_rightly q th) (notify_all ths).
Proof.
  intros tid th. unfold notify_all. rewrite lookup_fmap. destruct (ths !! tid) as [[item b|b]|]; intros [= <-]; done.
Qed.

Lemma produce_sleep w tid item q' r :
  queue_inv Size false w -> all_sleep_rightly w -> produce_woken Size (q w) item = Ok (q', r) ->
  all_sleep_rightly (after_produce w tid item q' r).
Proof using HSize.
  intros [Hr _ _] Hs Hp. destruct (produce_cases Size k HSize (q w) item Hr) as (q1 & r1 & Hp' & Hcase). rewrite Hp in Hp'.
  injection Hp' as <- <-. destruct Hcase as [(_ & -> & ->)|[(Hc & Hn & -> & ->)|(_ & Hlt & Hpush & ->)]];
    cbn [after_produce]; unfold all_sleep_rightly; cbn [q threads].
  - by apply map_Forall_delete.
  - apply map_Forall_insert_2; [|done]. done.
  - apply notified_sleep_rightly.
Qed.

(** Without invalid pointers a consumer that has to wait has changed nothing. *)
Lemma consume_waits (w : world (T := T)) q' r :
  queue_inv Size false w -> ConsumeOrBlock Size (q w) = Ok (q', r) ->
  (exists item, r = Returned (Some item)) \/
  (num_items_ (q w) = 0 /\ q' = q w /\ r = if closed_ (q w) then Returned None else MustWait).
Proof using HSize.
  intros [Hr _ He] Hc. destruct (He eq_refl) as [_ Hall]. unfold ConsumeOrBlock in Hc.
  destruct (num_items_ (q w)) as [|n] eqn:Hn.
  { right. cbn in Hc. rewrite Hn in Hc. destruct (closed_ (q w)); by injection Hc as <- <-. }
  left. destruct (take_first_spec Size k HSize (q w) _ Hr Hn) as (x & Hx & _ & Hpop). rewrite Hpop in Hall.
  apply Forall_cons in Hall as [[item ->] _]. cbn [consume] in Hc. rewrite Hn, Hx in Hc. injection Hc as <- <-. eauto.
Qed.

Lemma consume_sleep w tid q' r :
  queue_inv Size false w -> all_sleep_rightly w -> ConsumeOrBlock Size (q w) = Ok (q', r) ->
  all_sleep_rightly (after_consume w tid q' r).
Proof using HSize.
  intros Hi Hs Hc. destruct (consume_waits w q' r Hi Hc) as [[item ->]|(Hn & -> & ->)]; cbn [after_consume].
  - apply notified_sleep_rightly.
  - destruct (closed_ (q w)) eqn:Hcl; cbn [after_consume]; unfold all_sleep_rightly; cbn [q threads].
    + by apply map_Forall_delete.
    + by apply map_Forall_insert_2.
Qed.

Lemma reachable_sleep w : reachable Size false w -> all_sleep_rightly w.
Proof using HSize.
  intros H. cut (queue_inv Size false w /\ all_sleep_rightly w); [tauto|]. revert w H. unfold reachable.
  apply (rtc_ind_r (λ w, queue_inv Size false w /\ all_sleep_rightly w)).
  - split; [apply (reachable_queue Size k HSize); apply rtc_refl|]. apply map_Forall_empty.
  - intros w w' Hreach Hstep [Hi Hs].
    split; [eapply (reachable_queue Size k HSize); eapply rtc_r; done|].
    destruct Hstep as [w tid item q' r _ Hp|w tid item b q' r _ Hp|w tid item b _ _|w tid q' r _ Hc|w tid b q' r _ Hc
                      |w tid b _ _|w|w f|w q' out]; try done.
    + rewrite produce_is_woken in Hp by apply Hi. by apply produce_sleep.
    + by apply produce_sleep.
    + unfold all_sleep_rightly. cbn [q threads]. by apply map_Forall_delete.
    + by apply consume_sleep.
    + by apply consume_sleep.
    + unfold all_sleep_rightly. cbn [q threads]. by apply map_Forall_delete.
    + apply notified_sleep_rightly.
Qed.
End wakeups.

(** C16: The blocking queue is a first-in first-out queue of bounded size
    between threads.  In every reachable world, under every interleaving of
    producers, consumers, time-outs, spurious wake-ups, [Close], [Invalidate]
    and [Drain], what was taken out followed by what can still be consumed is,
    in order, part of what was produced, and all of it as long as nothing is
    invalidated or drained; the queue holds at most [Size] items, and every
    operation of every thread is defined. *)
Theorem PtrQueue_is_fifo {T : Type} (Size k : nat) (others : bool) (w : world (T := T)) :
  Size = 2 ^ k -> reachable Size others w ->
  (taken w ++ pending Size (q w)) `sublist_of` produced w /\
  (others = false -> taken w ++ pending Size (q w) = produced w) /\
  size (q w) <= Size /\
  (forall item, exists q' r, produce Size (q w) item = Ok (q', r) /\ produce_woken Size (q w) item = Ok (q', r) /\
     (r = Returned true <-> closed_ (q w) = false /\ size (q w) < Size) /\
     (r = MustWait <-> closed_ (q w) = false /\ size (q w) = Size) /\
     (r = Returned true -> pending Size q' = pending Size (q w) ++ [item])) /\
  (exists q' r, ConsumeOrBlock Size (q w) = Ok (q', r) /\
     match pending Size (q w) with
     | item :: rest => r = Returned (Some item) /\ pending Size q' = rest
     | [] => empty q' = true /\ r = if closed_ (q w) then Returned None else MustWait
     end) /\
  (exists q' out, Drain Size (q w) = Ok (q', out) /\ omap id out = pending Size (q w) /\ empty q' = true).
Proof.
  intros HS Hreach. destruct (reachable_queue Size k HS others w Hreach) as [Hr Ho He]. split_and!.
  - done.
  - intros Hof. by apply He.
  - apply Hr.
  - intros item. rewrite (produce_is_woken Size (q w) item Hr).
    destruct (produce_cases Size k HS (q w) item Hr) as (q' & r & Hp & Hcase). exists q', r.
    destruct Hr as [Hl Hn Hc1 Hp1] eqn:Hre. clear Hre. split_and!; [done|done| | |]; unfold size.
    + destruct Hcase as [(-> & _ & ->)|[(-> & -> & _ & ->)|(-> & ? & _ & ->)]]; split; try done; intros [? ?]; (done || lia).
    + destruct Hcase as [(-> & _ & ->)|[(-> & -> & _ & ->)|(-> & ? & _ & ->)]]; split; try done; intros [? ?]; (done || lia).
    + destruct Hcase as [(_ & _ & ->)|[(_ & _ & _ & ->)|(_ & Hlt & Hpush & ->)]]; try done. intros _.
      destruct (push_spec Size k HS (q w) item Hr Hlt) as (q2 & Hq2 & _ & _ & Hcont). rewrite Hpush in Hq2.
      injection Hq2 as <-. unfold pending. by rewrite Hcont, omap_app.
  - destruct (consume_spec Size k HS _ (q w) Hr (Nat.le_refl _)) as (q' & r & Hc & _ & _ & Hcase). exists q', r.
    split; [done|]. unfold pending. destruct Hcase as [(item & -> & -> & _)|(-> & Hnil & ->)]; [done|]. split; [|done].
    unfold empty, size. by rewrite <-(length_contents Size), Hnil.
  - destruct (Drain_spec Size k HS _ (q w) Hr (Nat.le_refl _)) as (q' & Hd & _ & _ & Hnil). exists q', (contents Size (q w)).
    split_and!; [done|done|]. unfold empty, size. by rewrite <-(length_contents Size), Hnil.
Qed.

(** A producer blocks on a queue of one slot; a consumer takes the item and
    wakes it. *)
Definition two_produced : world (T := nat) :=
  mkWorld (mk 0 0 1 false [Some 7]) {[ 1 := Producing 8 true ]} [7] [].
Definition one_taken : world (T := nat) :=
  mkWorld (mk 0 0 0 false [None]) {[ 1 := Producing 8 false ]} [7] [7].

Lemma two_produced_reachable others : reachable 1 others two_produced.
Proof.
  eapply rtc_l; [eapply (step_produce 1 others (start 1) 0 7); reflexivity|].
  eapply rtc_l; [eapply (step_produce 1 others _ 1 8); reflexivity|].
  (replace two_produced with (after_produce (mkWorld (mk 0 0 1 false [Some 7]) ∅ [7] []) 1 8 (mk 0 0 1 false [Some 7]) MustWait) by (vm_compute; reflexivity); apply rtc_refl).
Qed.

(** The hypotheses of the claim on first-in first-out order hold after a
    producer filled a queue of one slot and another one went to sleep. *)
Lemma PtrQueue_is_fifo_witness :
  (taken two_produced ++ pending 1 (q two_produced)) `sublist_of` produced two_produced /\
  (false = false -> taken two_produced ++ pending 1 (q two_produced) = produced two_produced) /\ size (q two_produced) <= 1.
Proof.
  destruct (PtrQueue_is_fifo 1 0 false two_produced eq_refl (two_produced_reachable false)) as (H1 & H2 & H3 & _).
  exact (conj H1 (conj H2 H3)).
Defined.

(** C17: No wake-up is lost between producers, consumers and [Close]: in every
    reachable world a producer sleeps only while the queue is full and open
    and a consumer only while it is empty and open, so that they never sleep
    both; a thread that can go on is awake, and when it runs its call
    returns.  ([Invalidate] and [Drain] are excluded: they do not notify.) *)
Theorem PtrQueue_no_lost_wakeup {T : Type} (Size k : nat) (w : world (T := T)) :
  Size = 2 ^ k -> reachable Size false w ->
  (forall tid item, threads w !! tid = Some (Producing item true) -> size (q w) = Size /\ closed_ (q w) = false) /\
  (forall tid, threads w !! tid = Some (Consuming true) -> empty (q w) = true /\ closed_ (q w) = false) /\
  ~ (exists tid tid' item, threads w !! tid = Some (Producing item true) /\ threads w !! tid' = Some (Consuming true)) /\
  (forall tid item asleep, threads w !! tid = Some (Producing item asleep) ->
     closed_ (q w) || (size (q w) <? Size) = true ->
     asleep = false /\ exists q', produce_woken Size (q w) item = Ok (q', Returned (negb (closed_ (q w))))) /\
  (forall tid asleep, threads w !! tid = Some (Consuming asleep) ->
     closed_ (q w) || negb (empty (q w)) = true ->
     asleep = false /\ exists q' r, ConsumeOrBlock Size (q w) = Ok (q', Returned r) /\ (is_Some r <-> empty (q w) = false)).
Proof.
  intros HS Hreach. pose proof (Size_pos Size k HS) as H0. pose proof (reachable_queue Size k HS false w Hreach) as Hi.
  pose proof (reachable_sleep Size k HS w Hreach) as Hs. unfold size, empty, size.
  assert (HP : forall tid item, threads w !! tid = Some (Producing item true) -> num_items_ (q w) = Size /\ closed_ (q w) = false)
    by (intros tid item Ht; exact (Hs tid _ Ht)).
  assert (HC : forall tid, threads w !! tid = Some (Consuming true) -> num_items_ (q w) = 0 /\ closed_ (q w) = false)
    by (intros tid Ht; exact (Hs tid _ Ht)).
  split_and!; [done| | | |].
  - intros tid Ht. destruct (HC tid Ht) as [-> ->]. done.
  - intros (tid & tid' & item & [Hfull _]%HP & [Hempty _]%HC). lia.
  - intros tid item asleep Ht Hgo. split.
    + destruct asleep; [|done]. destruct (HP tid item Ht) as [Hn Hc]. rewrite Hc, Hn, Nat.ltb_irrefl in Hgo. done.
    + destruct (produce_cases Size k HS (q w) item (inv_ring _ _ _ Hi)) as (q' & r & Hp & Hcase).
      exists q'. rewrite Hp. destruct Hcase as [(-> & _ & ->)|[(Hc & Hn & _ & ->)|(-> & ? & _ & ->)]]; [done| |done].
      rewrite Hc, Hn, Nat.ltb_irrefl in Hgo. done.
  - intros tid asleep Ht Hgo. split.
    + destruct asleep; [|done]. destruct (HC tid Ht) as [Hn Hc]. rewrite Hc, Hn in Hgo. done.
    + destruct (consume_spec Size k HS _ (q w) (inv_ring _ _ _ Hi) (Nat.le_refl _)) as (q' & r & Hc & _).
      exists q'. destruct (consume_waits Size k HS w q' r Hi Hc) as [[item ->]|(Hn & _ & ->)].
      * exists (Some item). split; [done|]. split; [|by eexists]. intros _. apply Nat.eqb_neq. intros Hn.
        unfold ConsumeOrBlock in Hc. cbn in Hc. rewrite Hn in Hc. cbn in Hc. rewrite Hn in Hc. by destruct (closed_ (q w)).
      * rewrite Hn in Hgo |- *. destruct (closed_ (q w)); [|done]. exists None. split; [done|]. split; [by intros [? ?]|done].
Qed.

Lemma one_taken_reachable others : reachable 1 others one_taken.
Proof.
  eapply rtc_r; [apply two_produced_reachable|].
  replace one_taken with (after_consume two_produced 2 (mk 0 0 0 false [None]) (Returned (Some 7))) by (vm_compute; reflexivity).
  by apply step_consume.
Qed.

(** The producer that slept on the full queue is awake after a consumer took
    the item, and its call returns. *)
Lemma PtrQueue_no_lost_wakeup_witness :
  false = false /\ exists q', produce_woken 1 (q one_taken) 8 = Ok (q', Returned true).
Proof.
  exact (proj1 (proj2 (proj2 (proj2 (PtrQueue_no_lost_wakeup 1 0 one_taken eq_refl (one_taken_reachable false))))) 1 8 false eq_refl eq_refl).
Defined.

(** [Invalidate] and [Drain] do lose wake-ups.  A producer sleeps on a full
    queue, its only item is invalidated, a consumer skips the null pointer and
    goes to sleep on the queue that is now empty, without notifying anyone:
    both sleep. *)
Definition both_asleep : world (T := nat) :=
  mkWorld (mk 0 0 0 false [None]) {[ 1 := Producing 8 true; 2 := Consuming true ]} [7] [].

Theorem PtrQueue_invalidate_deadlock : reachable 1 true both_asleep.
Proof.
  eapply rtc_r; [eapply rtc_r; [apply two_produced_reachable|exact (step_invalidate 1 true two_produced (λ _, true) eq_refl)]|].
  replace both_asleep with
    (after_consume (mkWorld (Invalidate (λ _, true) (q two_produced)) (threads two_produced) [7] []) 2 (mk 0 0 0 false [None]) MustWait)
    by (vm_compute; reflexivity).
  by apply step_consume.
Qed.

(** After [Drain] a producer sleeps on an empty queue. *)
Definition drained : world (T := nat) :=
  mkWorld (mk 0 0 0 false [None]) {[ 1 := Producing 8 true ]} [7] [7].

Theorem PtrQueue_drain_leaves_asleep : reachable 1 true drained.
Proof.
  eapply rtc_r; [apply two_produced_reachable|].
  apply (step_drain 1 true two_produced (mk 0 0 0 false [None]) [Some 7] eq_refl). reflexivity.
Qed.
