(* ===== verification/IntervalTree.v ===== *)
(** Model of the interval tree ([src/src/interval_tree.h]), for end points of an
    integer type.  The consumer of a lookup is a function on a state of its
    own; the boolean it returns tells whether to go on. *)

From S2P Require Import Prelude Double PriorityQueue StdSort.

Module IntervalTree.

Record Interval (V : Type) := mkInterval { low : Z; high : Z; value : V }.
Arguments mkInterval {V} _%_Z _%_Z _.
Arguments low {V}.
Arguments high {V}.
Arguments value {V}.

Definition IndexedInterval (V : Type) : Type := (Interval V * Z)%type.

(** A null [less_], [more_] or [root_] is [Null]; the pointers of
    [max_sorted_] are represented by what they point to. *)
Inductive Node (V : Type) : Type :=
| Null
| mkNode (mid_value_ : Z) (min_sorted_ max_sorted_ : list (IndexedInterval V)) (less_ more_ : Node V).
Arguments Null {V}.
Arguments mkNode {V}.

Record TreeRoot (V : Type) := mkRoot {
  root_ : Node V;
  intervals_sorted_ : list (Z * IndexedInterval V)
}.
Arguments mkRoot {V}.
Arguments root_ {V}.
Arguments intervals_sorted_ {V}.

(** The type [T] of the end points: its limits, the result of an operation
    whose exact result is given, and the conversion of a [double].  A [double]
    that does not fit has no defined conversion; [undefined_cast] is what it
    gives. *)
Class Scalar := {
  tmin : Z;
  tmax : Z;
  arith : Z -> outcome Z;
  undefined_cast : spec_float -> Z
}.

(** [uint64_t] wraps around; an overflow of [int64_t] is undefined. *)
Definition uint64_scalar (cast : spec_float -> Z) : Scalar :=
  {| tmin := 0; tmax := umax 64; arith x := Ok (u64 x); undefined_cast := cast |}.
Definition int64_scalar (cast : spec_float -> Z) : Scalar :=
  {| tmin := - 2 ^ 63; tmax := 2 ^ 63 - 1;
     arith x := if ((- 2 ^ 63 <=? x) && (x <=? 2 ^ 63 - 1))%Z then Ok x else Fail Undefined;
     undefined_cast := cast |}.

Definition midpoint `{Sc : Scalar} (a b : Z) : outcome Z :=
  d ← arith (b - a); arith (a + Z.quot d 2).

Section build.
Context {V : Type} (sort : forall A, (A -> A -> bool) -> list A -> list A) `{Sc : Scalar}.

Definition cast (f : spec_float) : Z :=
  match Double.trunc f with
  | Some x => if ((tmin <=? x) && (x <=? tmax))%Z then x else undefined_cast f
  | None => undefined_cast f
  end.

Definition ContainingIntervalCount (intervals : list (IndexedInterval V)) (point : Z) : Z :=
  fold_left (λ count interval,
    if (low interval.1 <=? point)%Z && (point <=? high interval.1)%Z then u64 (count + 1) else count) intervals 0%Z.

(** One candidate: [best] is [best_interval_count] and [best_point]. *)
Definition try_point (intervals : list (IndexedInterval V)) (best : Z * Z) (test_point : Z) : Z * Z :=
  let count := ContainingIntervalCount intervals test_point in
  if (best.1 <? count)%Z then (count, test_point) else best.

(** A loop over candidates. *)
Definition try_points {A} (intervals : list (IndexedInterval V)) (f : A -> outcome Z) (xs : list A) (best : Z * Z) :
    outcome (Z * Z) :=
  mfold (λ best x, test_point ← f x; Ok (try_point intervals best test_point)) xs best.

(** [min_all + delta * (i / 99.0)]. *)
Definition percent_point (min_all delta : Z) (i : nat) : Z :=
  cast (Double.add (Double.of_Z min_all)
    (Double.mul (Double.of_Z delta) (Double.div (Double.of_Z (Z.of_nat i)) (Double.of_Z 99)))).

(** One round of the loop over all intervals: [min_all] and [max_all]. *)
Definition extend_ends (m : Z * Z) (interval : IndexedInterval V) : outcome (Z * Z) :=
  _ ← check (low interval.1 <=? high interval.1)%Z;
  Ok (Z.min m.1 (low interval.1), Z.max m.2 (high interval.1)).

(** What follows the loop over percentages. *)
Definition or_midpoint (intervals : list (IndexedInterval V)) (best : Z * Z) : outcome Z :=
  best ← if (best.1 =? 0)%Z then
           try_points intervals (λ interval : IndexedInterval V, midpoint (low interval.1) (high interval.1)) intervals best
         else Ok best;
  _ ← check (negb (best.1 =? 0)%Z);
  Ok best.2.

Definition PickPointForSplitting (intervals : list (IndexedInterval V)) : outcome Z :=
  m ← mfold extend_ends intervals (tmax, tmin);
  delta ← arith (m.2 - m.1);
  best ← try_points intervals (λ i, Ok (percent_point m.1 delta i)) (seq 0 100) (0%Z, 0%Z);
  or_midpoint intervals best.

Record parts := mkParts {
  less : list (IndexedInterval V);
  more : list (IndexedInterval V);
  intersecting : list (IndexedInterval V);
  point : Z
}.

Definition place (p : parts) (interval : IndexedInterval V) : parts :=
  if (high interval.1 <? point p)%Z then mkParts (less p ++ [interval]) (more p) (intersecting p) (point p)
  else if (point p <? low interval.1)%Z then mkParts (less p) (more p ++ [interval]) (intersecting p) (point p)
  else mkParts (less p) (more p) (intersecting p ++ [interval]) (point p).

Definition Split (intervals : list (IndexedInterval V)) : outcome parts :=
  point ← PickPointForSplitting intervals;
  Ok (fold_left place intervals (mkParts [] [] [] point)).

Definition low_less (lhs rhs : IndexedInterval V) : bool := (low lhs.1 <? low rhs.1)%Z.
Definition high_greater (lhs rhs : IndexedInterval V) : bool := (high rhs.1 <? high lhs.1)%Z.

(** The constructor of [Node]. *)
Definition construct_node (intervals : list (IndexedInterval V)) (mid_value : Z) (less more : Node V) : outcome (Node V) :=
  _ ← check (negb (length intervals =? 0));
  let min_sorted := sort _ low_less intervals in
  Ok (mkNode mid_value min_sorted (sort _ high_greater min_sorted) less more).

Fixpoint BuildTree (fuel : nat) (intervals : list (IndexedInterval V)) : outcome (Node V) :=
  match intervals with
  | [] => Ok Null
  | _ =>
      match fuel with
      | O => Fail OutOfFuel
      | S fuel' =>
          p ← Split intervals;
          l ← BuildTree fuel' (less p);
          m ← BuildTree fuel' (more p);
          construct_node (intersecting p) (point p) l m
      end
  end.

(** [emplace_back(intervals[i], i)]: the index is kept in 32 bits. *)
Definition AssignIndices (intervals : list (Interval V)) : list (IndexedInterval V) :=
  imap (λ i interval, (interval, u32 (Z.of_nat i))) intervals.

(** [Walk], for a consumer that appends to a vector. *)
Fixpoint Walk {S} (consumer : S -> IndexedInterval V -> S) (n : Node V) (s : S) : S :=
  match n with
  | Null => s
  | mkNode _ min_sorted _ l m => Walk consumer m (Walk consumer l (fold_left consumer min_sorted s))
  end.

Definition construct (intervals : list (Interval V)) : outcome (TreeRoot V) :=
  root ← BuildTree (length intervals) (AssignIndices intervals);
  match root with
  | Null => Ok (mkRoot Null [])
  | _ =>
      let ends := Walk (λ acc interval, acc ++ [(low interval.1, interval)] ++ [(high interval.1, interval)]) root [] in
      Ok (mkRoot root (sort _ (λ lhs rhs, (lhs.1 <? rhs.1)%Z) ends))
  end.
End build.

Section lookup.
Context {V S : Type}.

(** The loops of the lookups: until [stop], or until the consumer returns
    false, which the boolean tells. *)
Fixpoint scan (stop : IndexedInterval V -> bool) (consumer : S -> Interval V -> Z -> outcome (S * bool))
    (l : list (IndexedInterval V)) (s : S) : outcome (S * bool) :=
  match l with
  | [] => Ok (s, true)
  | interval :: l' =>
      if stop interval then Ok (s, true)
      else
        '(s', go_on) ← consumer s interval.1 interval.2;
        if (go_on : bool) then scan stop consumer l' s' else Ok (s', false)
  end.

Fixpoint Node_Lookup (point : Z) (consumer : S -> Interval V -> Z -> outcome (S * bool)) (n : Node V) (s : S) : outcome S :=
  match n with
  | Null => Ok s
  | mkNode mid_value min_sorted max_sorted less more =>
      if (point <? mid_value)%Z then
        '(s', go_on) ← scan (λ interval, (point <? low interval.1)%Z) consumer min_sorted s;
        if (go_on : bool) then Node_Lookup point consumer less s' else Ok s'
      else if (mid_value <? point)%Z then
        '(s', go_on) ← scan (λ interval, (high interval.1 <? point)%Z) consumer max_sorted s;
        if (go_on : bool) then Node_Lookup point consumer more s' else Ok s'
      else
        '(s', _) ← scan (λ _, false) consumer min_sorted s; Ok s'
  end.

Definition Lookup (r : TreeRoot V) (point : Z) (consumer : S -> Interval V -> Z -> outcome (S * bool)) (s : S) : outcome S :=
  Node_Lookup point consumer (root_ r) s.
End lookup.

Section range.
Context {V S : Type} `{Sc : Scalar}.

(** What both phases do with an interval: skip it when it was consumed. *)
Definition consume_once (consumer : S -> Interval V -> outcome (S * bool)) (st : S * list bool)
    (interval : Interval V) (interval_index : Z) : outcome (S * list bool * bool) :=
  let '(s, already_consumed) := st in
  seen ← vec_at already_consumed (Z.to_nat interval_index);
  if (seen : bool) then Ok (st, true)
  else
    '(s', go_on) ← consumer s interval;
    if (go_on : bool) then Ok ((s', <[Z.to_nat interval_index := true]> already_consumed), true)
    else Ok ((s', already_consumed), false).

(** The first phase: the end points from the lower bound up to [max_point]. *)
Fixpoint scan_ends (max_point : Z) (consumer : S -> Interval V -> outcome (S * bool))
    (l : list (Z * IndexedInterval V)) (st : S * list bool) : outcome (S * list bool * bool) :=
  match l with
  | [] => Ok (st, true)
  | (e, interval) :: l' =>
      if (max_point <? e)%Z then Ok (st, true)
      else
        '(st', go_on) ← consume_once consumer st interval.1 interval.2;
        if (go_on : bool) then scan_ends max_point consumer l' st' else Ok (st', false)
  end.

Definition Lookup_range (r : TreeRoot V) (min_point max_point : Z)
    (consumer : S -> Interval V -> outcome (S * bool)) (s : S) : outcome S :=
  match root_ r with
  | Null => Ok s
  | _ =>
      let num_intervals := length (intervals_sorted_ r) / 2 in
      let before (e : Z * IndexedInterval V) := (e.1 <? min_point)%Z in
      it ← lower_bound (length (intervals_sorted_ r)) before (intervals_sorted_ r) 0 (length (intervals_sorted_ r));
      '(st, go_on) ← scan_ends max_point consumer (drop it (intervals_sorted_ r)) (s, replicate num_intervals false);
      if (go_on : bool) then
        point ← midpoint min_point max_point;
        _ ← check (min_point <=? point)%Z;
        '(s', _) ← Lookup r point (consume_once consumer) st; Ok s'
      else Ok st.1
  end.
End range.
End IntervalTree.

Import IntervalTree.

(** What is needed of the type. *)
Class ScalarLaws `{Scalar} : Prop := {
  scalar_zero : (tmin <= 0 <= tmax)%Z;
  scalar_arith x : (tmin <= x <= tmax)%Z -> arith x = Ok x
}.

#[global] Instance uint64_laws cast : @ScalarLaws (uint64_scalar cast).
Proof.
  split; unfold tmin, tmax, arith, uint64_scalar, umax; [lia|]. intros x Hx. f_equal. unfold u64. apply wrap_id. lia.
Qed.

#[global] Instance int64_laws cast : @ScalarLaws (int64_scalar cast).
Proof.
  split; unfold tmin, tmax, arith, int64_scalar; [lia|]. intros x Hx.
  rewrite (proj2 (Z.leb_le (- 2 ^ 63) x)), (proj2 (Z.leb_le x (2 ^ 63 - 1))) by lia. done.
Qed.

(** ** Building *)
Section build_spec.
Context {V : Type} (sort : forall A, (A -> A -> bool) -> list A -> list A) `{!StdSort sort} {Sc : Scalar} {HSc : ScalarLaws}.

(** The end points of an interval fit the type, and are in order. *)
Definition is_interval (i : IndexedInterval V) : Prop := (tmin <= low i.1 /\ low i.1 <= high i.1 /\ high i.1 <= tmax)%Z.

(** The distance between any two end points fits the type. *)
Definition spread_fits (l : list (IndexedInterval V)) : Prop :=
  forall i j, i ∈ l -> j ∈ l -> (high j.1 - low i.1 <= tmax)%Z.

Definition contains (p : Z) (i : IndexedInterval V) : Prop := (low i.1 <= p <= high i.1)%Z.
#[global] Instance contains_dec p i : Decision (contains p i).
Proof. unfold contains. apply _. Defined.

Lemma containing_count (l : list (IndexedInterval V)) p n :
  (n + Z.of_nat (length l) < 2 ^ 64)%Z -> (0 <= n)%Z ->
  fold_left (λ count interval,
    if (low interval.1 <=? p)%Z && (p <=? high interval.1)%Z then u64 (count + 1) else count) l n =
  (n + Z.of_nat (length (filter (contains p) l)))%Z.
Proof.
  revert n. induction l as [|i l IH]; intros n Hn H0; cbn [fold_left length] in *; [cbn; lia|].
  rewrite filter_cons. destruct (Z.leb_spec (low i.1) p), (Z.leb_spec p (high i.1)); cbn [andb].
  2-4: rewrite decide_False by (unfold contains; lia); apply IH; lia.
  rewrite decide_True by done. unfold u64. rewrite wrap_id by lia. rewrite IH by lia. cbn [length]. lia.
Qed.

Lemma count_pos l p :
  (Z.of_nat (length l) < 2 ^ 64)%Z ->
  (0 < ContainingIntervalCount l p)%Z <-> exists i, i ∈ l /\ contains p i.
Proof.
  intros Hl. unfold ContainingIntervalCount. rewrite containing_count by lia. split.
  - intros Hp. destruct (filter (contains p) l) as [|i f] eqn:Hf; [cbn in Hp; lia|]. exists i.
    assert (Hi : i ∈ filter (contains p) l) by (rewrite Hf; left). apply list_elem_of_filter in Hi. tauto.
  - intros (i & Hi & Hc). destruct (filter (contains p) l) as [|j f] eqn:Hf; [|cbn; lia].
    assert (Hin : i ∈ filter (contains p) l) by (by apply list_elem_of_filter). rewrite Hf in Hin. by apply not_elem_of_nil in Hin.
Qed.

(** A best point so far: none, or one that is in an interval. *)
Definition best_ok (l : list (IndexedInterval V)) (best : Z * Z) : Prop :=
  (0 <= best.1)%Z /\ (best.1 <> 0%Z -> exists i, i ∈ l /\ contains best.2 i).

Lemma try_point_ok l best p :
  (Z.of_nat (length l) < 2 ^ 64)%Z -> best_ok l best ->
  best_ok l (try_point l best p) /\ (best.1 <= (try_point l best p).1)%Z /\
  ((exists i, i ∈ l /\ contains p i) -> (0 < (try_point l best p).1)%Z).
Proof.
  intros Hl [H0 Hb]. unfold try_point. pose proof (count_pos l p Hl) as Hc.
  destruct (Z.ltb_spec best.1 (ContainingIntervalCount l p)) as [Hlt|Hge]; cbn.
  - split_and!; [|lia|lia]. split; cbn; [lia|]. intros _. apply Hc. lia.
  - split_and!; [done|lia|]. intros Hex%Hc. lia.
Qed.

Lemma try_points_ok {A} l (f : A -> outcome Z) (ps : list A) best :
  (Z.of_nat (length l) < 2 ^ 64)%Z -> best_ok l best -> Forall (λ x, is_Ok (f x)) ps ->
  exists best', try_points l f ps best = Ok best' /\ best_ok l best' /\ (best.1 <= best'.1)%Z /\
    ((exists x p i, x ∈ ps /\ f x = Ok p /\ i ∈ l /\ contains p i) -> (0 < best'.1)%Z).
Proof.
  intros Hl. unfold try_points. revert best. induction ps as [|x ps IH]; intros best Hb Hps; cbn [mfold].
  - exists best. split_and!; [done|done|lia|]. intros (x & p & i & Hx & _). by apply not_elem_of_nil in Hx.
  - apply Forall_cons in Hps as [[p Hp] Hps]. rewrite Hp. cbn [mbind outcome_bind].
    destruct (try_point_ok l best p Hl Hb) as (Hb' & Hle & Hpos).
    destruct (IH _ Hb' Hps) as (best' & -> & Hok & Hle' & Hpos'). exists best'. split_and!; [done|done|lia|].
    intros (y & p' & i & [->|Hy]%elem_of_cons & Hp' & Hi & Hc); [|apply Hpos'; by exists y, p', i].
    rewrite Hp in Hp'. injection Hp' as <-. assert (0 < (try_point l best p).1)%Z by eauto. lia.
Qed.

Lemma midpoint_between a b :
  (tmin <= a)%Z -> (a <= b)%Z -> (b <= tmax)%Z -> (b - a <= tmax)%Z -> exists m, midpoint a b = Ok m /\ (a <= m <= b)%Z.
Proof using HSc.
  intros Ha Hab Hb Hd. pose proof scalar_zero as Hz. unfold midpoint. rewrite scalar_arith by lia. cbn [mbind outcome_bind].
  assert (0 <= Z.quot (b - a) 2 <= b - a)%Z by (rewrite Z.quot_div_nonneg by lia; split; [apply Z.div_pos; lia|apply Z.div_le_upper_bound; lia]).
  rewrite scalar_arith by lia. eexists. split; [done|]. lia.
Qed.

(** The smallest lower and the largest upper end. *)
Lemma ends_checked (l : list (IndexedInterval V)) m :
  Forall is_interval l ->
  exists m', mfold extend_ends l m = Ok m' /\ (m'.1 <= m.1 /\ m.2 <= m'.2)%Z /\
    Forall (λ i : IndexedInterval V, m'.1 <= low i.1 /\ high i.1 <= m'.2)%Z l /\
    (m'.1 = m.1 \/ exists i, i ∈ l /\ m'.1 = low i.1) /\ (m'.2 = m.2 \/ exists i, i ∈ l /\ m'.2 = high i.1).
Proof.
  revert m. induction l as [|i l IH]; intros [a b] Hl; [exists (a, b); cbn; split_and!; [done|lia|lia|constructor|by left|by left]|].
  apply Forall_cons in Hl as [(_ & Hi & _) Hl].
  cbn [mfold]. unfold extend_ends at 2. apply Z.leb_le in Hi. rewrite Hi. cbn [check mbind outcome_bind fst snd].
  destruct (IH (Z.min a (low i.1), Z.max b (high i.1)) Hl) as (m' & -> & Hm & Hall & H1 & H2). exists m'. cbn [fst snd] in *.
  split_and!; [done|lia|lia|constructor; [lia|done]| |].
  - destruct H1 as [->|(j & Hj & ->)]; [|right; exists j; split; [by right|done]].
    destruct (Z.min_spec a (low i.1)) as [[_ ->]|[_ ->]]; [by left|right; exists i; split; [left|done]].
  - destruct H2 as [->|(j & Hj & ->)]; [|right; exists j; split; [by right|done]].
    destruct (Z.max_spec b (high i.1)) as [[_ ->]|[_ ->]]; [right; exists i; split; [left|done]|by left].
Qed.

Lemma spread_ok l m :
  l <> [] -> Forall is_interval l -> spread_fits l -> mfold extend_ends l (tmax, tmin) = Ok m ->
  (tmin <= m.2 - m.1 <= tmax)%Z.
Proof using HSc.
  intros Hne Hl Hs Hm. destruct (ends_checked l (tmax, tmin) Hl) as (m' & Hm' & _ & Hall & H1 & H2).
  rewrite Hm in Hm'. injection Hm' as <-. destruct l as [|i l]; [done|].
  apply Forall_cons in Hall as [[Hi1 Hi2] _]. assert (Hl' := Hl). apply Forall_cons in Hl' as [(Ha & Hb & Hc) _].
  pose proof scalar_zero as Hz. split; [lia|]. cbn [fst snd] in H1, H2.
  assert (Hlo : exists j, j ∈ i :: l /\ m.1 = low j.1) by (destruct H1 as [Heq|?]; [exists i; split; [left|lia]|done]).
  assert (Hhi : exists j, j ∈ i :: l /\ m.2 = high j.1) by (destruct H2 as [Heq|?]; [exists i; split; [left|lia]|done]).
  destruct Hlo as (j & Hj & ->), Hhi as (j' & Hj' & ->). by apply Hs.
Qed.

(** The point that is picked lies in an interval. *)
Lemma or_midpoint_spec l b1 :
  l <> [] -> Forall is_interval l -> spread_fits l -> (Z.of_nat (length l) < 2 ^ 64)%Z -> best_ok l b1 ->
  exists p, or_midpoint l b1 = Ok p /\ exists i, i ∈ l /\ contains p i.
Proof using HSc.
  intros Hne Hl Hs Hlen Hb. unfold or_midpoint.
  assert (Hmid : forall i, i ∈ l -> exists m, midpoint (low i.1) (high i.1) = Ok m /\ contains m i).
  { intros i Hi. rewrite Forall_forall in Hl. destruct (Hl i Hi) as (? & ? & ?). apply midpoint_between; try lia. by apply Hs. }
  destruct (try_points_ok l (λ i : IndexedInterval V, midpoint (low i.1) (high i.1)) l b1 Hlen Hb) as (b2 & Hb2 & Hok & _ & Hpos).
  { apply Forall_forall. intros i Hi. destruct (Hmid i Hi) as (m & -> & _). by eexists. }
  destruct (Z.eqb_spec b1.1 0) as [Hz|Hnz].
  - rewrite Hb2. cbn [mbind outcome_bind]. assert (Hp : (0 < b2.1)%Z).
    { apply Hpos. destruct l as [|i l]; [done|]. destruct (Hmid i) as (m & Hm & Hc); [left|]. exists i, m, i.
      split_and!; [left|done|left|done]. }
    rewrite (proj2 (Z.eqb_neq b2.1 0)) by lia. cbn. exists b2.2. split; [done|]. apply Hok. lia.
  - cbn [mbind outcome_bind]. rewrite (proj2 (Z.eqb_neq b1.1 0)) by lia. cbn. exists b1.2. split; [done|]. by apply Hb.
Qed.

Lemma best_none l : best_ok l (0%Z, 0%Z).
Proof. by split. Qed.

Lemma PickPoint_spec l :
  l <> [] -> Forall is_interval l -> spread_fits l -> (Z.of_nat (length l) < 2 ^ 64)%Z ->
  exists p, PickPointForSplitting l = Ok p /\ exists i, i ∈ l /\ contains p i.
Proof using HSc.
  intros Hne Hl Hs Hlen. unfold PickPointForSplitting.
  destruct (ends_checked l (tmax, tmin) Hl) as (m & Hm & _). rewrite Hm, bind_Ok_l.
  rewrite scalar_arith by (by apply (spread_ok l m)). rewrite bind_Ok_l.
  destruct (try_points_ok l (λ i, Ok (percent_point m.1 (m.2 - m.1) i)) (seq 0 100) (0%Z, 0%Z) Hlen (best_none l)) as (b & -> & Hb & _).
  { apply Forall_forall. intros i _. by eexists. }
  rewrite bind_Ok_l. by apply or_midpoint_spec.
Qed.

(** A failed [CHECK] on an interval that is upside down. *)
Lemma ends_fail (l : list (IndexedInterval V)) m :
  ~ Forall (λ i : IndexedInterval V, low i.1 <= high i.1)%Z l ->
  mfold extend_ends l m = Fail CheckFailed.
Proof.
  revert m. induction l as [|i l IH]; intros [a b] Hl; [by destruct Hl|]. cbn [mfold]. unfold extend_ends at 2.
  destruct (Z.leb_spec (low i.1) (high i.1)) as [Hle|Hgt]; cbn [check mbind outcome_bind]; [|done].
  apply IH. intros Hall. apply Hl. by constructor.
Qed.

Lemma place_spec k : forall p0, Forall is_interval k ->
  let p := fold_left place k p0 in let pt := point p0 in
  point p = pt /\ less p = less p0 ++ filter (λ i, high i.1 < pt)%Z k /\
  more p = more p0 ++ filter (λ i, pt < low i.1)%Z k /\ intersecting p = intersecting p0 ++ filter (contains pt) k.
Proof.
  induction k as [|j k IH]; intros p0 Hk; cbn [fold_left]; [by rewrite !app_nil_r|].
  apply Forall_cons in Hk as [(? & ? & ?) Hk]. destruct (IH (place p0 j) Hk) as (-> & -> & -> & ->). clear IH.
  rewrite !filter_cons. unfold place.
  destruct (Z.ltb_spec (high j.1) (point p0)); [|destruct (Z.ltb_spec (point p0) (low j.1))];
    cbn [point less more intersecting].
  - rewrite decide_True, !decide_False by (unfold contains; lia). by rewrite <-app_assoc.
  - rewrite decide_False, decide_True, decide_False by (unfold contains; lia). by rewrite <-app_assoc.
  - do 2 rewrite decide_False by lia. rewrite decide_True by (unfold contains; lia). by rewrite <-app_assoc.
Qed.

Lemma Split_spec l :
  l <> [] -> Forall is_interval l -> spread_fits l -> (Z.of_nat (length l) < 2 ^ 64)%Z ->
  exists p, Split l = Ok p /\
    less p = filter (λ i, high i.1 < point p)%Z l /\ more p = filter (λ i, point p < low i.1)%Z l /\
    intersecting p = filter (contains (point p)) l /\ intersecting p <> [].
Proof using HSc.
  intros Hne Hl Hsp Hlen. destruct (PickPoint_spec l Hne Hl Hsp Hlen) as (pt & Hpick & i & Hi & Hc).
  unfold Split. rewrite Hpick. cbn [mbind outcome_bind]. eexists. split; [reflexivity|].
  destruct (place_spec l (mkParts [] [] [] pt) Hl) as (-> & -> & -> & ->). cbn [less more intersecting point app].
  split_and!; [done..|]. intros Hnil. assert (i ∈ filter (contains pt) l) as Hin by (by apply list_elem_of_filter).
  rewrite Hnil in Hin. by apply not_elem_of_nil in Hin.
Qed.

(** ** The invariant of the tree *)

(** [n] stores the intervals [l]. *)
Inductive stores : Node V -> list (IndexedInterval V) -> Prop :=
| stores_null : stores Null []
| stores_node mid mins maxs ln mn li mi ii l :
    l ≡ₚ ii ++ li ++ mi ->
    Forall (contains mid) ii -> Forall (λ i : IndexedInterval V, high i.1 < mid)%Z li ->
    Forall (λ i : IndexedInterval V, mid < low i.1)%Z mi -> Forall is_interval l ->
    mins ≡ₚ ii -> sorted_by low_less mins -> maxs ≡ₚ ii -> sorted_by high_greater maxs ->
    stores ln li -> stores mn mi ->
    stores (mkNode mid mins maxs ln mn) l.

Lemma filter_perm_split3 (p : Z) (l : list (IndexedInterval V)) :
  Forall is_interval l ->
  l ≡ₚ filter (contains p) l ++ filter (λ i, high i.1 < p)%Z l ++ filter (λ i, p < low i.1)%Z l.
Proof.
  induction l as [|i l IH]; [done|]. intros [(? & ? & ?) Hl]%Forall_cons. rewrite !filter_cons.
  destruct (Z.lt_ge_cases (high i.1) p); [|destruct (Z.lt_ge_cases p (low i.1))].
  - rewrite decide_False, decide_True, decide_False by (unfold contains; lia). rewrite (IH Hl) at 1.
    apply Permutation_middle.
  - do 2 rewrite decide_False by (unfold contains; lia). rewrite decide_True by lia. rewrite (IH Hl) at 1.
    rewrite !app_assoc. apply Permutation_middle.
  - rewrite decide_True by (unfold contains; lia). rewrite !decide_False by lia. cbn. by rewrite <-(IH Hl).
Qed.

Lemma BuildTree_spec fuel : forall l,
  length l <= fuel -> Forall is_interval l -> spread_fits l -> (Z.of_nat (length l) < 2 ^ 64)%Z ->
  exists n, BuildTree sort fuel l = Ok n /\ stores n l.
Proof using StdSort0 HSc.
  induction fuel as [|fuel IH]; intros l Hf Hl Hsp Hlen.
  - destruct l; [|cbn in Hf; lia]. exists Null. split; [done|constructor].
  - destruct l as [|i l]; [exists Null; split; [done|constructor]|]. cbn [BuildTree].
    destruct (Split_spec (i :: l) ltac:(done) Hl Hsp Hlen) as (p & -> & Hless & Hmore & Hint & Hne). cbn [mbind outcome_bind].
    pose proof (filter_perm_split3 (point p) (i :: l) Hl) as Hperm.
    rewrite <-Hless, <-Hmore, <-Hint in Hperm. pose proof (Permutation_length Hperm) as Hlen3. rewrite !length_app in Hlen3.
    assert (0 < length (intersecting p)) by (destruct (intersecting p); cbn; [done|lia]).
    assert (Hl3 := Hl). rewrite Hperm in Hl3. apply Forall_app in Hl3 as [Hli [Hll Hlm]%Forall_app].
    cbn [length] in Hlen3, Hf, Hlen.
    assert (Hsub : forall k, k ⊆ i :: l -> spread_fits k) by (intros k Hk a b Ha Hb; apply Hsp; by apply Hk).
    destruct (IH (less p)) as (ln & -> & Hsl); [lia|done|apply Hsub; rewrite Hless; intros x Hx; apply list_elem_of_filter in Hx; tauto|lia|]. cbn [mbind outcome_bind].
    destruct (IH (more p)) as (mn & -> & Hsm); [lia|done|apply Hsub; rewrite Hmore; intros x Hx; apply list_elem_of_filter in Hx; tauto|lia|]. cbn [mbind outcome_bind].
    unfold construct_node. replace (length (intersecting p) =? 0) with false by (symmetry; apply Nat.eqb_neq; lia). cbn.
    eexists. split; [reflexivity|]. eapply (stores_node _ _ _ _ _ (less p) (more p) (intersecting p)); try done.
    + rewrite Hint. apply Forall_forall. intros j Hj%list_elem_of_filter. tauto.
    + rewrite Hless. apply Forall_forall. intros j Hj%list_elem_of_filter. tauto.
    + rewrite Hmore. apply Forall_forall. intros j Hj%list_elem_of_filter. tauto.
    + apply sort_perm.
    + apply sort_sorted. apply (key_less_swo (λ i : IndexedInterval V, low i.1)).
    + by rewrite !sort_perm.
    + apply sort_sorted. apply (key_greater_swo (λ i : IndexedInterval V, high i.1)).
Qed.
End build_spec.

(** ** Scans *)
Section scans.
Context {V S : Type}.
Implicit Types (l : list (IndexedInterval V)) (consumer : S -> Interval V -> Z -> outcome (S * bool)).

(** Offering the intervals of [l] one after the other. *)
Definition visit_all consumer l (s : S) : outcome (S * bool) := scan (λ _, false) consumer l s.

Definition visit consumer l (s : S) : outcome S := '(s', _) ← visit_all consumer l s; Ok s'.

Lemma visit_all_app consumer l1 l2 s :
  visit_all consumer (l1 ++ l2) s =
  '(s', go_on) ← visit_all consumer l1 s; if (go_on : bool) then visit_all consumer l2 s' else Ok (s', false).
Proof.
  unfold visit_all. revert s. induction l1 as [|i l1 IH]; intros s; cbn [app scan]; [done|].
  destruct (consumer s i.1 i.2) as [[s' []]|]; cbn [mbind outcome_bind]; [apply IH|done..].
Qed.

Lemma visit_app consumer l1 l2 s :
  visit consumer (l1 ++ l2) s =
  '(s', go_on) ← visit_all consumer l1 s; if (go_on : bool) then visit consumer l2 s' else Ok s'.
Proof. unfold visit. rewrite visit_all_app. by destruct (visit_all consumer l1 s) as [[s' []]|]. Qed.

(** Sorted for the condition: once it stops it would not go on again. *)
Lemma scan_sorted stop consumer l s :
  StronglySorted (λ a b, stop a = true -> stop b = true) l ->
  scan stop consumer l s = visit_all consumer (filter (λ i, stop i = false) l) s.
Proof.
  intros Hs. revert s. induction Hs as [|i l Hs IH Hall]; intros s; [done|]. cbn [scan]. rewrite filter_cons.
  destruct (stop i) eqn:Hi.
  - rewrite decide_False by congruence. rewrite list_filter_none; [done|].
    eapply Forall_impl; [exact Hall|]. cbn. intros x Hx. by rewrite Hx.
  - rewrite decide_True by done. unfold visit_all. cbn [scan].
    destruct (consumer s i.1 i.2) as [[s' []]|]; cbn [mbind outcome_bind]; [apply IH|done..].
Qed.
End scans.

(** ** Point lookups *)

(** The intervals that [Node::Lookup] offers to the consumer. *)
Fixpoint hits {V} (point : Z) (n : Node V) : list (IndexedInterval V) :=
  match n with
  | Null => []
  | mkNode mid mins maxs less more =>
      if (point <? mid)%Z then filter (λ i, (point <? low i.1)%Z = false) mins ++ hits point less
      else if (mid <? point)%Z then filter (λ i, (high i.1 <? point)%Z = false) maxs ++ hits point more
      else mins
  end.

Lemma hits_lookup {V} `{Sc : Scalar} point (n : Node V) l :
  stores n l -> forall S (consumer : S -> Interval V -> Z -> outcome (S * bool)) s,
  Node_Lookup point consumer n s = visit consumer (hits point n) s.
Proof.
  induction 1 as [|mid mins maxs ln mn li mi ii l Hperm Hi Hless Hmore Hiv Hmp Hms Hxp Hxs _ IHl _ IHm]; intros S consumer s; [done|].
  cbn [Node_Lookup hits]. destruct (Z.ltb_spec point mid); [|destruct (Z.ltb_spec mid point)].
  - rewrite visit_app, scan_sorted; [|eapply sorted_by_impl; [|exact Hms]].
    + destruct (visit_all _ _ s) as [[s' []]|]; cbn [mbind outcome_bind]; [apply IHl|done..].
    + intros a b. unfold low_less. rewrite Z.ltb_ge, !Z.ltb_lt. lia.
  - rewrite visit_app, scan_sorted; [|eapply sorted_by_impl; [|exact Hxs]].
    + destruct (visit_all _ _ s) as [[s' []]|]; cbn [mbind outcome_bind]; [apply IHm|done..].
    + intros a b. unfold high_greater. rewrite Z.ltb_ge, !Z.ltb_lt. lia.
  - done.
Qed.

(** They are the intervals that contain the point. *)
Lemma hits_spec {V} `{Sc : Scalar} point (n : Node V) l : stores n l -> hits point n ≡ₚ filter (contains point) l.
Proof.
  induction 1 as [|mid mins maxs ln mn li mi ii l Hperm Hi Hless Hmore Hiv Hmp Hms Hxp Hxs _ IHl _ IHm]; [done|].
  assert (Hiv' := Hiv). rewrite Hperm in Hiv'. apply Forall_app in Hiv' as [Hi' [Hl' Hm']%Forall_app].
  rewrite Forall_forall in Hi, Hless, Hmore, Hi', Hl', Hm'.
  rewrite Hperm, !filter_app. cbn [hits]. destruct (Z.ltb_spec point mid) as [Hlt|Hge]; [|destruct (Z.ltb_spec mid point) as [Hgt|Hle]].
  - rewrite (list_filter_none _ mi), app_nil_r by (apply Forall_forall; intros x Hx Hc; specialize (Hmore x Hx); unfold contains in Hc; cbn in *; lia).
    rewrite IHl. apply Permutation_app_tail. rewrite Hmp. apply Permutation_refl'. apply list_filter_ext_in.
    apply Forall_forall. intros x Hx. specialize (Hi x Hx). unfold contains in *. rewrite Z.ltb_ge. lia.
  - rewrite (list_filter_none _ li) by (apply Forall_forall; intros x Hx Hc; specialize (Hless x Hx); unfold contains in Hc; cbn in *; lia).
    rewrite IHm. cbn [app]. apply Permutation_app_tail. rewrite Hxp. apply Permutation_refl'. apply list_filter_ext_in.
    apply Forall_forall. intros x Hx. specialize (Hi x Hx). unfold contains in *. rewrite Z.ltb_ge. lia.
  - assert (point = mid) as -> by lia.
    rewrite (list_filter_none _ mi) by (apply Forall_forall; intros x Hx Hc; specialize (Hmore x Hx); unfold contains in Hc; cbn in *; lia).
    rewrite (list_filter_none _ li) by (apply Forall_forall; intros x Hx Hc; specialize (Hless x Hx); unfold contains in Hc; cbn in *; lia).
    rewrite !app_nil_r, list_filter_all; [done|]. apply Forall_forall. intros x Hx. by apply Hi.
Qed.

(** ** Construction *)
Section construct_spec.
Context {V : Type} (sort : forall A, (A -> A -> bool) -> list A -> list A) `{!StdSort sort} {Sc : Scalar} {HSc : ScalarLaws}.

Lemma AssignIndices_elem (ivs : list (Interval V)) i :
  (Z.of_nat (length ivs) <= 2 ^ 32)%Z ->
  i ∈ AssignIndices ivs <-> (0 <= i.2)%Z /\ ivs !! Z.to_nat i.2 = Some i.1.
Proof.
  intros Hlen. unfold AssignIndices. rewrite list_elem_of_lookup. split.
  - intros [k Hk]. rewrite list_lookup_imap in Hk. destruct (ivs !! k) as [iv|] eqn:Hiv; [|done]. injection Hk as <-. cbn.
    pose proof (lookup_lt_Some _ _ _ Hiv). unfold u32. rewrite wrap_id by lia. rewrite Nat2Z.id. split; [lia|done].
  - intros [H0 Hiv]. pose proof (lookup_lt_Some _ _ _ Hiv). exists (Z.to_nat i.2). rewrite list_lookup_imap, Hiv. cbn.
    unfold u32. rewrite wrap_id by lia. rewrite Z2Nat.id by done. by destruct i.
Qed.

Lemma AssignIndices_fst (ivs : list (Interval V)) : (AssignIndices ivs).*1 = ivs.
Proof.
  apply list_eq. intros k. unfold AssignIndices. rewrite list_lookup_fmap, list_lookup_imap. by destruct (ivs !! k).
Qed.

Lemma AssignIndices_length (ivs : list (Interval V)) : length (AssignIndices ivs) = length ivs.
Proof. apply length_imap. Qed.

Lemma AssignIndices_inj (ivs : list (Interval V)) i j :
  (Z.of_nat (length ivs) <= 2 ^ 32)%Z -> i ∈ AssignIndices ivs -> j ∈ AssignIndices ivs -> i.2 = j.2 -> i = j.
Proof.
  intros Hlen [_ Hi]%AssignIndices_elem [_ Hj]%AssignIndices_elem Heq; [|done..]. rewrite Heq, Hj in Hi.
  injection Hi as Hi. by destruct i, j; cbn in *; subst.
Qed.

Lemma AssignIndices_NoDup (ivs : list (Interval V)) :
  (Z.of_nat (length ivs) <= 2 ^ 32)%Z -> NoDup (AssignIndices ivs).
Proof.
  intros Hlen. apply NoDup_alt. intros a b x Ha Hb. unfold AssignIndices in *. rewrite list_lookup_imap in Ha, Hb.
  destruct (ivs !! a) eqn:HA, (ivs !! b) eqn:HB; try done. injection Ha as <-. injection Hb as _ Heq.
  apply lookup_lt_Some in HA, HB. unfold u32 in Heq. rewrite !wrap_id in Heq by lia. lia.
Qed.

(** The two end points of an interval. *)
Definition ends_of (i : IndexedInterval V) : list (Z * IndexedInterval V) := [(low i.1, i); (high i.1, i)].

Lemma Walk_spec {A} (f : IndexedInterval V -> list A) n l acc :
  stores n l -> Walk (λ acc i, acc ++ f i) n acc ≡ₚ acc ++ (l ≫= f).
Proof.
  intros Hs. revert acc. induction Hs as [|mid mins maxs ln mn li mi ii l Hperm _ _ _ _ Hmp _ _ _ _ IHl _ IHm]; intros acc.
  { cbn. by rewrite app_nil_r. }
  cbn [Walk]. rewrite IHm, IHl, Hperm, !bind_app, <-Hmp, !app_assoc. do 2 apply Permutation_app_tail.
  clear. revert acc. induction mins as [|i mins IH]; intros acc; cbn [fold_left]; [cbn; by rewrite app_nil_r|].
  rewrite IH. cbn. by rewrite app_assoc.
Qed.

Record built (ivs : list (Interval V)) (r : TreeRoot V) : Prop := {
  built_stores : stores (root_ r) (AssignIndices ivs);
  built_ends : intervals_sorted_ r ≡ₚ AssignIndices ivs ≫= ends_of;
  built_sorted : StronglySorted (λ a b, a.1 <= b.1)%Z (intervals_sorted_ r)
}.

(** The end points fit the type and are in order, and the distance between any
    two of them fits the type as well. *)
Definition intervals_fit (ivs : list (Interval V)) : Prop :=
  Forall (λ iv, tmin <= low iv /\ low iv <= high iv /\ high iv <= tmax)%Z ivs /\
  forall a b, a ∈ ivs -> b ∈ ivs -> (high b - low a <= tmax)%Z.

Lemma construct_tree_spec ivs :
  intervals_fit ivs -> (Z.of_nat (length ivs) <= 2 ^ 32)%Z ->
  exists r, construct sort ivs = Ok r /\ built ivs r.
Proof using StdSort0 HSc.
  intros [Hiv Hsp] Hlen. unfold construct.
  destruct (BuildTree_spec sort (length ivs) (AssignIndices ivs)) as (n & -> & Hn).
  - by rewrite AssignIndices_length.
  - rewrite <-(AssignIndices_fst ivs), Forall_fmap in Hiv. exact Hiv.
  - intros i j Hi Hj. rewrite <-(AssignIndices_fst ivs) in Hsp. apply Hsp; by apply list_elem_of_fmap_2.
  - rewrite AssignIndices_length. lia.
  - cbn [mbind outcome_bind]. pose proof (Walk_spec ends_of n (AssignIndices ivs) [] Hn) as Hw. destruct n as [|mid mins maxs ln mn].
    + eexists. split; [done|]. split; cbn [root_ intervals_sorted_]; [done| |constructor]. by inversion Hn.
    + eexists. split; [done|]. split; cbn [root_ intervals_sorted_]; [done|rewrite sort_perm; exact Hw|].
      eapply sorted_by_impl; [|apply sort_sorted; apply (key_less_swo (λ e : Z * IndexedInterval V, e.1))].
      cbn. intros a b. rewrite Z.ltb_ge. lia.
Qed.
End construct_spec.

(** ** Range lookups *)
Section range_spec.
Context {V S : Type}.
Implicit Types (consumer : S -> Interval V -> outcome (S * bool)).

Lemma scan_ends_sorted max_point consumer (l : list (Z * IndexedInterval V)) st :
  StronglySorted (λ a b, a.1 <= b.1)%Z l ->
  scan_ends max_point consumer l st = visit_all (consume_once consumer) (filter (λ e, e.1 <= max_point)%Z l).*2 st.
Proof.
  intros Hs. revert st. induction Hs as [|[e i] l Hs IH Hall]; intros st; [done|]. cbn [scan_ends]. rewrite filter_cons. cbn [fst].
  destruct (Z.ltb_spec max_point e) as [Hlt|Hge].
  - rewrite decide_False by lia. rewrite list_filter_none; [done|].
    eapply Forall_impl; [exact Hall|]. cbn. lia.
  - rewrite decide_True by lia. unfold visit_all. cbn [fmap list_fmap scan snd].
    destruct (consume_once consumer st i.1 i.2) as [[st' []]|]; cbn [mbind outcome_bind]; [apply IH|done..].
Qed.

(** The first occurrences of the intervals that are not marked. *)
Fixpoint fresh (l : list (IndexedInterval V)) (flags : list bool) : list (IndexedInterval V) :=
  match l with
  | [] => []
  | i :: l' =>
      if flag_at flags (Z.to_nat i.2) then fresh l' flags
      else i :: fresh l' (<[Z.to_nat i.2 := true]> flags)
  end.

Lemma visit_once consumer l : forall s flags,
  Forall (λ i : IndexedInterval V, Z.to_nat i.2 < length flags) l ->
  ('(st, _) ← visit_all (consume_once consumer) l (s, flags); Ok st.1) =
  visit (λ s iv _, consumer s iv) (fresh l flags) s.
Proof.
  induction l as [|i l IH]; intros s flags Hl; [done|]. apply Forall_cons in Hl as [Hi Hl].
  unfold visit_all. cbn [scan fresh]. unfold consume_once at 2. unfold flag_at, vec_at.
  destruct (lookup_lt_is_Some_2 flags _ Hi) as [b Hb]. rewrite Hb. cbn [mbind outcome_bind default id]. destruct b.
  - cbn [mbind outcome_bind]. by apply IH.
  - unfold visit, visit_all. cbn [scan]. cbn [fst snd]. destruct (consumer s i.1) as [[s' []]|]; cbn [mbind outcome_bind]; [|done..].
    apply IH. by rewrite length_insert.
Qed.

Lemma fresh_spec l : forall flags,
  (forall i j, i ∈ l -> j ∈ l -> i.2 = j.2 -> i = j) ->
  Forall (λ i : IndexedInterval V, (0 <= i.2)%Z /\ Z.to_nat i.2 < length flags) l ->
  NoDup (fresh l flags) /\ forall i, i ∈ fresh l flags <-> i ∈ l /\ flag_at flags (Z.to_nat i.2) = false.
Proof.
  induction l as [|i l IH]; intros flags Hinj Hl; cbn [fresh].
  { split; [constructor|]. intros i. split; [intros []%not_elem_of_nil|intros [[]%not_elem_of_nil _]]. }
  apply Forall_cons in Hl as [[H0 Hi] Hl].
  assert (Hinj' : forall a b, a ∈ l -> b ∈ l -> a.2 = b.2 -> a = b) by (intros; apply Hinj; [by right..|done]).
  destruct (flag_at flags (Z.to_nat i.2)) eqn:Hf.
  - destruct (IH flags Hinj' Hl) as [Hnd Hel]. split; [done|]. intros j. rewrite Hel, elem_of_cons.
    split; [tauto|]. intros [[->|Hj] Hj2]; [congruence|done].
  - destruct (IH (<[Z.to_nat i.2 := true]> flags) Hinj') as [Hnd Hel].
    { eapply Forall_impl; [exact Hl|]. cbn. intros j. by rewrite length_insert. }
    split.
    + constructor; [|done]. rewrite Hel, flag_at_insert by done. intros [_ Hj]. by rewrite decide_True in Hj.
    + intros j. rewrite !elem_of_cons, Hel, flag_at_insert by done. split.
      * intros [->|[Hj Hj2]]; [by split; [left|]|]. split; [by right|]. case_decide; [done|exact Hj2].
      * intros [[->|Hj] Hj2]; [by left|]. destruct (decide (j.2 = i.2)) as [Heq|Hne]; [left; apply Hinj; [by right|by left|done]|].
        right. split; [done|]. rewrite decide_False; [done|]. rewrite Forall_forall in Hl. destruct (Hl j Hj). lia.
Qed.
End range_spec.

Definition overlaps {V} (a b : Z) (i : IndexedInterval V) : Prop := (low i.1 <= b /\ a <= high i.1)%Z.
#[global] Instance overlaps_dec {V} a b (i : IndexedInterval V) : Decision (overlaps a b i).
Proof. unfold overlaps. apply _. Defined.

Section range_lookup.
Context {V : Type} {Sc : Scalar} {HSc : ScalarLaws} (ivs : list (Interval V)) (r : TreeRoot V) (a b m : Z).
Hypothesis Hivs : intervals_fit ivs.
Hypothesis Hlen : (Z.of_nat (length ivs) <= 2 ^ 32)%Z.
Hypothesis Hbuilt : built ivs r.
Hypothesis Hab : (a <= m <= b)%Z.
Hypothesis Hmid : midpoint a b = Ok m.

(** What the two phases come across. *)
Definition encountered : list (IndexedInterval V) :=
  (filter (λ e, a <= e.1 <= b)%Z (intervals_sorted_ r)).*2 ++ hits m (root_ r).

Lemma ends_elem e i :
  (e, i) ∈ intervals_sorted_ r <-> i ∈ AssignIndices ivs /\ (e = low i.1 \/ e = high i.1).
Proof using Hbuilt.
  rewrite (built_ends _ _ Hbuilt), list_elem_of_bind. unfold ends_of. split.
  - intros (j & [[= -> ->]|[[= -> ->]|[]%not_elem_of_nil]%elem_of_cons]%elem_of_cons & Hj); auto.
  - intros [Hi Hor]. exists i. split; [|done]. destruct Hor as [-> | ->]; [left|right; left].
Qed.

Lemma length_ends : length (intervals_sorted_ r) / 2 = length ivs.
Proof using Hbuilt.
  assert (H : forall l : list (IndexedInterval V), length (l ≫= ends_of) = length l * 2).
  { induction l as [|i l IH]; [done|]. cbn in *. lia. }
  rewrite (Permutation_length (built_ends _ _ Hbuilt)), H, AssignIndices_length. by apply Nat.div_mul.
Qed.

(** They are the intervals that overlap the range, some of them several times. *)
Lemma encountered_elem i : i ∈ encountered <-> i ∈ filter (overlaps a b) (AssignIndices ivs).
Proof using Hbuilt Hab Hivs Hlen Hmid.
  unfold encountered. rewrite elem_of_app, (hits_spec _ _ _ (built_stores _ _ Hbuilt)), !list_elem_of_filter.
  rewrite list_elem_of_fmap. unfold overlaps, contains. split.
  - intros [([e j] & -> & [He Hin]%list_elem_of_filter)|[Hc Hin]]; cbn [fst snd] in *.
    + apply ends_elem in Hin as [Hin Hor]. split; [|done].
      assert (low j.1 <= high j.1)%Z by (apply (AssignIndices_elem ivs j Hlen) in Hin as [_ Hin];
        destruct Hivs as [Hf _]; rewrite Forall_lookup in Hf; destruct (Hf _ _ Hin); lia).
      destruct Hor as [-> | ->]; lia.
    + split; [lia|done].
  - intros [Ho Hin]. destruct (decide (a <= low i.1)%Z) as [Hlo|Hlo].
    { left. exists (low i.1, i). split; [done|]. apply list_elem_of_filter. cbn. split; [lia|]. apply ends_elem. auto. }
    destruct (decide (high i.1 <= b)%Z) as [Hhi|Hhi].
    { left. exists (high i.1, i). split; [done|]. apply list_elem_of_filter. cbn. split; [lia|]. apply ends_elem. auto. }
    right. split; [lia|done].
Qed.

(** The lookup offers each of them once. *)
Lemma Lookup_range_visits S (consumer : S -> Interval V -> outcome (S * bool)) s :
  Lookup_range r a b consumer s =
  visit (λ s iv _, consumer s iv) (fresh encountered (replicate (length ivs) false)) s.
Proof using Hbuilt Hab Hivs Hlen Hmid.
  rewrite <-visit_once.
  2: { apply Forall_forall. intros i Hi%encountered_elem. apply list_elem_of_filter in Hi as [_ Hi].
       apply (AssignIndices_elem ivs i Hlen) in Hi as [_ Hi%lookup_lt_Some]. by rewrite length_replicate. }
  unfold Lookup_range, Lookup, encountered. pose proof (built_sorted _ _ Hbuilt) as Hs.
  destruct (lower_bound_spec (λ e : Z * IndexedInterval V, (e.1 <? a)%Z) (intervals_sorted_ r) (length (intervals_sorted_ r)) 0
              (length (intervals_sorted_ r)) ltac:(lia) ltac:(lia)) as (it & Hit & _ & Htake & Hdrop).
  { intros i j x y Hij Hx Hy Hbef. cbn in *. apply Z.ltb_lt in Hbef. apply Z.ltb_lt.
    pose proof (sorted_lookup _ _ _ _ _ _ Hs Hij Hx Hy) as Hxy. cbn in Hxy. lia. }
  { lia. }
  { intros i x Hi Hx. apply lookup_lt_Some in Hx. lia. }
  assert (Hd : filter (λ e, a <= e.1 <= b)%Z (intervals_sorted_ r) = filter (λ e, e.1 <= b)%Z (drop it (intervals_sorted_ r))).
  { rewrite <-(take_drop it (intervals_sorted_ r)) at 1. rewrite filter_app, list_filter_none; cbn [app].
    - apply list_filter_ext_in. eapply Forall_impl; [exact Hdrop|]. cbn. intros e. rewrite Z.ltb_ge. lia.
    - eapply Forall_impl; [exact Htake|]. cbn. intros e. rewrite Z.ltb_lt. lia. }
  assert (Hsd : StronglySorted (λ x y : Z * IndexedInterval V, x.1 <= y.1)%Z (drop it (intervals_sorted_ r))).
  { rewrite <-(take_drop it (intervals_sorted_ r)) in Hs. by apply StronglySorted_app_1_r in Hs. }
  rewrite Hd, visit_all_app. rewrite Hit. cbn [mbind outcome_bind]. rewrite scan_ends_sorted, length_ends by done.
  pose proof (built_stores _ _ Hbuilt) as Hst. destruct (root_ r) as [|mid mins maxs ln mn] eqn:Hroot.
  - assert (Hnil : AssignIndices ivs = []) by (by inversion Hst).
    pose proof (built_ends _ _ Hbuilt) as He. rewrite Hnil in He. cbn in He. apply Permutation_nil_r in He. rewrite He, drop_nil. done.
  - destruct (visit_all (consume_once consumer) (filter _ _).*2 _) as [[st []]|]; cbn [mbind outcome_bind]; [|done..].
    rewrite Hmid, bind_Ok_l, (proj2 (Z.leb_le a m)) by lia. cbn [check mbind outcome_bind]. rewrite (hits_lookup _ _ _ Hst). unfold visit. by destruct (visit_all _ _ st) as [[[] ?]|].
Qed.

Lemma fresh_encountered :
  fresh encountered (replicate (length ivs) false) ≡ₚ filter (overlaps a b) (AssignIndices ivs).
Proof using Hbuilt Hab Hivs Hlen Hmid.
  destruct (fresh_spec encountered (replicate (length ivs) false)) as [Hnd Hel].
  - intros i j Hi%encountered_elem Hj%encountered_elem. apply list_elem_of_filter in Hi as [_ Hi], Hj as [_ Hj].
    by apply (AssignIndices_inj ivs).
  - apply Forall_forall. intros i Hi%encountered_elem. apply list_elem_of_filter in Hi as [_ Hi].
    apply (AssignIndices_elem ivs i Hlen) in Hi as [H0 Hi%lookup_lt_Some]. by rewrite length_replicate.
  - apply NoDup_Permutation; [done|by apply NoDup_filter, AssignIndices_NoDup|]. intros i.
    rewrite Hel, encountered_elem. split; [tauto|]. intros Hi. split; [done|]. unfold flag_at.
    by destruct (replicate _ _ !! _) as [[]|] eqn:Hr; [apply lookup_replicate in Hr as [? _]|..].
Qed.
End range_lookup.

(** A point lookup finds exactly the intervals that contain the point.
    The tree of any list of intervals whose end points are in order is built
    (in at most as many levels as there are intervals), whichever way
    [std::sort] orders equivalent elements and whatever a [double] that does
    not fit converts to; a lookup then offers the intervals that contain the
    point to its consumer, each of them once, until the consumer returns
    false. *)
Theorem IntervalTree_point_lookup {V : Type} sort `{!StdSort sort} `{Sc : Scalar} `{!@ScalarLaws Sc} (ivs : list (Interval V)) :
  intervals_fit ivs -> (Z.of_nat (length ivs) <= 2 ^ 32)%Z ->
  exists r, construct sort ivs = Ok r /\
    forall point, exists l, l ≡ₚ filter (contains point) (AssignIndices ivs) /\
      forall S (consumer : S -> Interval V -> Z -> outcome (S * bool)) s, Lookup r point consumer s = visit consumer l s.
Proof.
  intros Hivs Hlen. destruct (construct_tree_spec sort ivs Hivs Hlen) as (r & -> & Hb). exists r. split; [done|].
  intros point. exists (hits point (root_ r)). split; [apply hits_spec, Hb|]. intros S consumer s. eapply hits_lookup, Hb.
Qed.

Definition three_intervals : list (Interval nat) := [mkInterval 2 5 0; mkInterval 10 20 1; mkInterval 4 12 2].

(** [int64_t]; a conversion that is not defined gives zero. *)
Definition int64_zero : Scalar := int64_scalar (λ _, 0%Z).

Lemma three_intervals_ok : @intervals_fit nat int64_zero three_intervals.
Proof.
  split; [repeat constructor; unfold tmin, tmax, int64_zero, int64_scalar; cbn; lia|].
  intros a b Ha Hb. unfold three_intervals in Ha, Hb. rewrite !elem_of_cons, elem_of_nil in Ha, Hb.
  unfold tmax, int64_zero, int64_scalar. destruct Ha as [->|[->|[->|[]]]], Hb as [->|[->|[->|[]]]]; cbn; lia.
Qed.

Lemma IntervalTree_point_lookup_witness :
  exists r, construct merge_sort_by (Sc := int64_zero) three_intervals = Ok r /\
    forall point, exists l, l ≡ₚ filter (contains point) (AssignIndices three_intervals) /\
      forall S (consumer : S -> Interval nat -> Z -> outcome (S * bool)) s, Lookup r point consumer s = visit consumer l s.
Proof. apply (IntervalTree_point_lookup merge_sort_by (Sc := int64_zero) three_intervals three_intervals_ok). vm_compute. discriminate. Defined.

(** C33: A range lookup finds exactly the intervals that overlap the range:
    through its two phases, over the end points inside the range and over the
    intervals that contain the midpoint of the range, each interval that has a
    value in the range is offered to the consumer, and once, until the consumer
    stops.  There are at most 2^32 intervals; the ends of the intervals are in
    the scalar type and no two of them are further apart than its largest
    value, nor are the ends of the range. *)
Theorem IntervalTree_range_lookup {V : Type} sort `{!StdSort sort} `{Sc : Scalar} `{!@ScalarLaws Sc} (ivs : list (Interval V)) a b :
  intervals_fit ivs -> (Z.of_nat (length ivs) <= 2 ^ 32)%Z ->
  (tmin <= a /\ a <= b /\ b <= tmax /\ b - a <= tmax)%Z ->
  exists r l, construct sort ivs = Ok r /\
    l ≡ₚ filter (overlaps a b) (AssignIndices ivs) /\
    forall S (consumer : S -> Interval V -> outcome (S * bool)) s,
      Lookup_range r a b consumer s = visit (λ s iv _, consumer s iv) l s.
Proof.
  intros Hivs Hlen Hab. destruct (construct_tree_spec sort ivs Hivs Hlen) as (r & -> & Hb).
  destruct (midpoint_between a b) as (m & Hm & Ham); [lia..|].
  exists r, (fresh (encountered r a b m) (replicate (length ivs) false)). split_and!; [done| |].
  - by apply (fresh_encountered ivs r a b m).
  - intros S consumer s. by apply (Lookup_range_visits ivs r a b m).
Qed.

Lemma IntervalTree_range_lookup_witness :
  exists r l, construct merge_sort_by (Sc := int64_zero) three_intervals = Ok r /\
    l ≡ₚ filter (overlaps 5 9) (AssignIndices three_intervals) /\
    forall S (consumer : S -> Interval nat -> outcome (S * bool)) s,
      Lookup_range (Sc := int64_zero) r 5 9 consumer s = visit (λ s iv _, consumer s iv) l s.
Proof. apply (IntervalTree_range_lookup merge_sort_by (Sc := int64_zero) three_intervals 5 9 three_intervals_ok); [vm_compute; discriminate|unfold tmin, tmax, int64_zero, int64_scalar; lia]. Defined.

(** The lookup runs: it collects the values. *)
Definition collect (s : list nat) (iv : Interval nat) (_ : Z) : outcome (list nat * bool) := Ok (s ++ [value iv], true).

Example lookups_run :
  (r ← construct merge_sort_by (Sc := int64_zero) three_intervals; Lookup r 11 collect []) = Ok [2; 1] /\
  (r ← construct merge_sort_by (Sc := int64_zero) three_intervals; Lookup_range (Sc := int64_zero) r 5 9 (λ s iv, collect s iv 0) []) = Ok [0; 2].
Proof. split; vm_compute; reflexivity. Qed.

(** An interval whose end points are not in order stops the construction. *)
Theorem construct_checks {V : Type} sort `{Sc : Scalar} (ivs : list (Interval V)) :
  ~ Forall (λ iv, low iv <= high iv)%Z ivs -> construct sort ivs = Fail CheckFailed.
Proof.
  intros Hbad. unfold construct. destruct ivs as [|iv ivs]; [by destruct Hbad|]. cbn [length].
  set (l := AssignIndices (iv :: ivs)). assert (Hl : exists i l', l = i :: l') by (unfold l, AssignIndices; cbn; eauto).
  destruct Hl as (i & l' & Hl). rewrite Hl. cbn [BuildTree]. unfold Split, PickPointForSplitting. rewrite ends_fail; [done|].
  rewrite <-Hl. intros Hall. apply Hbad. rewrite <-(AssignIndices_fst (iv :: ivs)). apply Forall_fmap. exact Hall.
Qed.

(** With the largest value of the type as an end point the conversion of the
    last candidate point, 2^64, is undefined. *)
Theorem percent_point_overflows :
  Double.to_u64 (Double.add (Double.of_Z 0) (Double.mul (Double.of_Z (umax 64))
    (Double.div (Double.of_Z 99) (Double.of_Z 99)))) = Fail Undefined.
Proof. vm_compute. reflexivity. Qed.

(** Two intervals of [int64_t] that are far from each other make the distance
    between the extreme end points overflow. *)
Theorem construct_overflows cast :
  construct merge_sort_by (Sc := int64_scalar cast) [mkInterval (- 2 ^ 63) (- 2 ^ 63) 0; mkInterval (2 ^ 63 - 1) (2 ^ 63 - 1) 1] =
  Fail Undefined.
Proof. vm_compute. reflexivity. Qed.
