(* ===== verification/RangeSet.v ===== *)
(** Model of [RangeSet] ([src/src/num_col.h]): sets of indices as sorted ranges
    that do not touch.  [w] is the width of the index type [I], 16 bits in the
    chunks of a column and 64 bits elsewhere. *)

From S2P Require Import Prelude PriorityQueue StdSort.

(** A first index and a number of indices. *)
Definition Range : Type := (Z * Z)%type.

Module RangeSet.

(** [ranges_] of a set. *)
Definition t : Type := list Range.

Section ops.
Context (w : Z) (sort : forall A, (A -> A -> bool) -> list A -> list A).

(** [operator<] of pairs. *)
Definition range_less (a b : Range) : bool := (a.1 <? b.1)%Z || ((a.1 =? b.1)%Z && (a.2 <? b.2)%Z).

(** The first loop of [RemoveOverlap]: a range ends where the next starts. *)
Definition trim_range (range next_range : Range) : outcome Range :=
  let next_start_index := next_range.1 in
  let end_index := wrap w (range.1 + range.2) in
  if (next_start_index <? end_index)%Z then
    let delta := wrap w (end_index - next_start_index) in
    _ ← check (delta <=? range.2)%Z; Ok (range.1, wrap w (range.2 - delta))
  else Ok range.

Fixpoint trim (ranges : list Range) : outcome (list Range) :=
  match ranges with
  | range :: (next_range :: _) as rest =>
      range' ← trim_range range next_range; rest' ← trim rest; Ok (range' :: rest')
  | _ => Ok ranges
  end.

(** The inner loop that merges: [j] is [stretch_end_i], which has type [I]. *)
Fixpoint stretch (fuel : nat) (ranges : list Range) (j stretch_end : Z) : outcome (Z * Z) :=
  if (j <? Z.of_nat (length ranges))%Z then
    match fuel with
    | O => Fail OutOfFuel
    | S fuel' =>
        r_next ← (vec_at ranges (Z.to_nat j) : outcome Range);
        if (r_next.1 <? stretch_end)%Z then Fail CheckFailed
        else if (r_next.1 =? stretch_end)%Z then stretch fuel' ranges (wrap w (j + 1)) (wrap w (stretch_end + r_next.2))
        else Ok (j, stretch_end)
    end
  else Ok (j, stretch_end).

(** The outer loop; the inner one leaves [i] at [stretch_end_i]. *)
Fixpoint merge (fuel : nat) (ranges : list Range) (i : Z) : outcome (list Range) :=
  if (i <? Z.of_nat (length ranges))%Z then
    match fuel with
    | O => Fail OutOfFuel
    | S fuel' =>
        ri ← (vec_at ranges (Z.to_nat i) : outcome Range);
        '(stretch_end_i, stretch_end) ← stretch (length ranges) ranges (wrap w i) ri.1;
        let stretch_len := wrap w (stretch_end - ri.1) in
        out ← merge fuel' ranges stretch_end_i;
        Ok (if (stretch_len =? 0)%Z then out else (ri.1, stretch_len) :: out)
    end
  else Ok [].

Definition RemoveOverlap (ranges : list Range) : outcome (list Range) :=
  ranges' ← trim ranges; merge (length ranges') ranges' 0.

(** Both constructors. *)
Definition construct (ranges : list Range) (already_sorted : bool) : outcome (list Range) :=
  match ranges with
  | [] => Ok []
  | _ => RemoveOverlap (if already_sorted then ranges else sort _ range_less ranges)
  end.

Definition Union (range_sets : list (list Range)) : outcome (list Range) :=
  match range_sets with
  | [] => Fail CheckFailed
  | [range_set] => Ok range_set
  | _ => construct (concat range_sets) false
  end.

(** [(index, start_of_range, i, range_set)]; the sets are elements of a vector,
    so that their addresses are ordered as their positions. *)
Definition HeapElement : Type := (Z * bool * nat * nat)%type.

(** [std::greater<HeapElement>]. *)
Definition heap_greater (a b : HeapElement) : bool :=
  let '(ai, ab, ac, ap) := a in
  let '(bi, bb, bc, bp) := b in
  if (ai =? bi)%Z then
    if Bool.eqb ab bb then if ac =? bc then bp <? ap else bc <? ac
    else ab
  else (bi <? ai)%Z.

Record state := mkState {
  queue_ : list HeapElement;
  ranges : list Range;
  range_start : Z;
  running_count : nat
}.

(** One round of the loop of [Intersection]. *)
Definition intersect_step (range_sets : list (list Range)) (st : state) : outcome state :=
  '(smallest_element, q) ← VectorPriorityQueue.PopTop heap_greater (queue_ st);
  let '(current_index, start_of_range, current_i, p) := (smallest_element : HeapElement) in
  let count := length range_sets in
  range_set ← (vec_at range_sets p : outcome (list Range));
  let '(rs, start, running, i) :=
    if (start_of_range : bool) then
      let running := S (running_count st) in
      (ranges st, if running =? count then current_index else range_start st, running, current_i)
    else
      (if running_count st =? count then ranges st ++ [(range_start st, wrap w (current_index - range_start st))] else ranges st,
       range_start st, pred (running_count st), S current_i) in
  let start_of_range := negb start_of_range in
  if negb (length range_set =? i) then
    current_range ← (vec_at range_set i : outcome Range);
    let index := if start_of_range then current_range.1 else wrap w (current_range.1 + current_range.2) in
    Ok (mkState (VectorPriorityQueue.emplace heap_greater q (index, start_of_range, i, p)) rs start running)
  else Ok (mkState q rs start running).

Fixpoint intersect_loop (fuel : nat) (range_sets : list (list Range)) (st : state) : outcome state :=
  if VectorPriorityQueue.empty (queue_ st) then Ok st
  else
    match fuel with
    | O => Fail OutOfFuel
    | S fuel' => st' ← intersect_step range_sets st; intersect_loop fuel' range_sets st'
    end.

(** The first ranges of the sets; [junk] is the uninitialized [range_start]. *)
Fixpoint first_elements (p : nat) (range_sets : list (list Range)) (q : list HeapElement) : outcome (list HeapElement) :=
  match range_sets with
  | [] => Ok q
  | range_set :: rest =>
      match range_set with
      | [] => Fail CheckFailed
      | r :: _ => first_elements (S p) rest (VectorPriorityQueue.emplace heap_greater q (r.1, true, 0, p))
      end
  end.

Definition Intersection (junk : Z) (range_sets : list (list Range)) : outcome (list Range) :=
  q ← first_elements 0 range_sets [];
  st ← intersect_loop (2 * length (concat range_sets)) range_sets (mkState q [] junk 0);
  construct (ranges st) false.
End ops.

(** The other operations are used with 64 bits. *)
Definition Offset (offset : Z) (s : list Range) : list Range := (λ range, (u64 (range.1 + offset), range.2)) <$> s.

Definition ElementCount (s : list Range) : Z := fold_left (λ out range, u64 (out + range.2)) s 0%Z.

Definition ContainsIndex (s : list Range) (index : Z) : outcome bool :=
  it ← lower_bound (length s) (λ lhs : Range, (u64 (u64 (lhs.1 + lhs.2) - 1) <? index)%Z) s 0 (length s);
  match (s !! it : option Range) with
  | None => Ok false
  | Some range => Ok (range.1 <=? index)%Z
  end.

Definition MinIndex (s : list Range) : outcome Z := match head s with None => Fail CheckFailed | Some r => Ok r.1 end.
Definition MaxIndex (s : list Range) : outcome Z :=
  match last s with None => Fail CheckFailed | Some r => Ok (u64 (u64 (r.1 + r.2) - 1)) end.
End RangeSet.

Import RangeSet.

Example range_sets_run :
  construct 16 merge_sort_by [(5, 2); (0, 3); (3, 1); (9, 1)]%Z false = Ok [(0, 4); (5, 2); (9, 1)]%Z /\
  Union 64 merge_sort_by [[(0, 10)]; [(2, 3)]]%Z = Ok [(0, 5)]%Z /\
  Intersection 64 merge_sort_by 0 [[(0, 10); (20, 5)]; [(2, 3); (7, 15)]; [(1, 30)]]%Z = Ok [(2, 3); (7, 3); (20, 2)]%Z /\
  ContainsIndex [(2, 3); (7, 3); (20, 2)]%Z 21 = Ok true /\ ContainsIndex [(2, 3); (7, 3); (20, 2)]%Z 6 = Ok false.
Proof. vm_compute. split_and!; reflexivity. Qed.

(** ** What a list of ranges covers *)

Definition in_range (x : Z) (r : Range) : Prop := (r.1 <= x < r.1 + r.2)%Z.
Definition covers (l : list Range) (x : Z) : Prop := Exists (in_range x) l.

Lemma covers_cons r l x : covers (r :: l) x <-> in_range x r \/ covers l x.
Proof. apply Exists_cons. Qed.
Lemma covers_nil x : covers [] x <-> False.
Proof. apply Exists_nil. Qed.
Lemma covers_app l1 l2 x : covers (l1 ++ l2) x <-> covers l1 x \/ covers l2 x.
Proof. apply Exists_app. Qed.

Section spec.
Context (w : Z).

(** The range fits the index type. *)
Definition valid_range (r : Range) : Prop := (0 <= r.1 /\ 0 <= r.2 /\ r.1 + r.2 < 2 ^ w)%Z.

(** The invariant of the class: the ranges are not empty, sorted, and there
    is a gap between any two. *)
Definition canonical (s : list Range) : Prop :=
  Forall (λ r, valid_range r /\ 0 < r.2)%Z s /\ StronglySorted (λ a b : Range, a.1 + a.2 < b.1)%Z s.

Lemma canonical_nil : canonical [].
Proof. split; constructor. Qed.

Lemma canonical_cons r s :
  canonical (r :: s) <-> valid_range r /\ (0 < r.2)%Z /\ Forall (λ b : Range, r.1 + r.2 < b.1)%Z s /\ canonical s.
Proof.
  unfold canonical. rewrite Forall_cons. split.
  - intros [[[Hv Hp] Hall] Hs]. apply StronglySorted_inv in Hs as [Hs Hlt]. done.
  - intros (Hv & Hp & Hlt & Hall & Hs). split; [done|]. by constructor.
Qed.

(** A set is determined by what it covers: [operator==] decides equality of
    sets of indices. *)
Lemma covers_after s m x : Forall (λ b : Range, m < b.1)%Z s -> covers s x -> (m < x)%Z.
Proof.
  intros Hall Hc. apply Exists_exists in Hc as (r & Hr & Hx). rewrite Forall_forall in Hall. specialize (Hall r Hr).
  destruct Hx. cbn in Hall. lia.
Qed.

Lemma canonical_unique s1 : forall s2,
  canonical s1 -> canonical s2 -> (forall x, covers s1 x <-> covers s2 x) -> s1 = s2.
Proof.
  induction s1 as [|[a n] s1 IH]; intros [|[b m] s2] H1 H2 Heq; [done| | |].
  - apply canonical_cons in H2 as (_ & Hp & _). cbn in Hp. exfalso.
    apply (covers_nil b). apply Heq. left. split; cbn; lia.
  - apply canonical_cons in H1 as (_ & Hp & _). cbn in Hp. exfalso.
    apply (covers_nil a). apply Heq. left. split; cbn; lia.
  - apply canonical_cons in H1 as (_ & Hp1 & Hg1 & Hc1), H2 as (_ & Hp2 & Hg2 & Hc2). cbn in *.
    assert (Ha : covers ((b, m) :: s2) a) by (apply Heq; left; split; cbn; lia).
    assert (Hb : covers ((a, n) :: s1) b) by (apply Heq; left; split; cbn; lia).
    assert (a = b) as ->.
    { apply covers_cons in Ha as [[? ?]|Ha%(covers_after _ _ _ Hg2)], Hb as [[? ?]|Hb%(covers_after _ _ _ Hg1)]; cbn in *; lia. }
    assert (n = m) as ->.
    { destruct (Z.lt_trichotomy n m) as [Hlt|[?|Hgt]]; [|done|].
      - assert (Hx : covers ((b, n) :: s1) (b + n)) by (apply Heq; left; split; cbn; lia).
        apply covers_cons in Hx as [[? ?]|Hx%(covers_after _ _ _ Hg1)]; cbn in *; lia.
      - assert (Hx : covers ((b, m) :: s2) (b + m)) by (apply Heq; left; split; cbn; lia).
        apply covers_cons in Hx as [[? ?]|Hx%(covers_after _ _ _ Hg2)]; cbn in *; lia. }
    f_equal. apply IH; [done..|]. intros x. specialize (Heq x). rewrite !covers_cons in Heq. split; intros Hx.
    + pose proof (covers_after _ _ _ Hg1 Hx). destruct (proj1 Heq (or_intror Hx)) as [[? ?]|]; [cbn in *; lia|done].
    + pose proof (covers_after _ _ _ Hg2 Hx). destruct (proj2 Heq (or_intror Hx)) as [[? ?]|]; [cbn in *; lia|done].
Qed.

(** ** The first loop *)

(** The last of the ranges that start at or before [x]. *)
Definition owner (l : list Range) (x : Z) : option Range := last (filter (λ r : Range, r.1 <= x)%Z l).

Definition starts_sorted : list Range -> Prop := StronglySorted (λ a b : Range, a.1 <= b.1)%Z.
Definition apart : list Range -> Prop := StronglySorted (λ a b : Range, a.1 + a.2 <= b.1)%Z.

Lemma owner_cons r l x :
  owner (r :: l) x = match owner l x with Some r' => Some r' | None => if decide (r.1 <= x)%Z then Some r else None end.
Proof.
  unfold owner. rewrite filter_cons. case_decide; [|by destruct (last _)].
  rewrite last_cons. by destruct (last _).
Qed.

Lemma owner_None l x : owner l x = None <-> Forall (λ r : Range, x < r.1)%Z l.
Proof.
  unfold owner. rewrite last_None. split.
  - intros Hf. apply Forall_forall. intros r Hr. destruct (decide (r.1 <= x)%Z) as [Hle|]; [|lia]. exfalso.
    assert (Hin : r ∈ filter (λ r : Range, r.1 <= x)%Z l) by (by apply list_elem_of_filter). rewrite Hf in Hin.
    by apply not_elem_of_nil in Hin.
  - intros Hall. apply list_filter_none. eapply Forall_impl; [exact Hall|]. cbn. lia.
Qed.

Lemma trim_range_spec r next :
  (0 <= w)%Z -> valid_range r -> valid_range next -> (r.1 <= next.1)%Z ->
  exists c, trim_range w r next = Ok (r.1, c) /\ (0 <= c)%Z /\ (r.1 + c = Z.min (r.1 + r.2) next.1)%Z.
Proof.
  intros Hw (H1 & H2 & H3) (H4 & H5 & H6) Hle. unfold trim_range. rewrite (wrap_id w (r.1 + r.2)) by lia.
  destruct (Z.ltb_spec next.1 (r.1 + r.2)) as [Hlt|Hge].
  - rewrite (wrap_id w (r.1 + r.2 - next.1)) by lia. rewrite (proj2 (Z.leb_le _ _)) by lia. cbn [check mbind outcome_bind].
    rewrite wrap_id by lia. eexists. split; [done|]. lia.
  - exists r.2. split; [by destruct r|]. lia.
Qed.

Lemma trim_spec l :
  (0 <= w)%Z -> Forall valid_range l -> starts_sorted l ->
  exists l', trim w l = Ok l' /\ Forall valid_range l' /\ apart l' /\ l'.*1 = l.*1 /\
    forall x, covers l' x <-> exists r, owner l x = Some r /\ in_range x r.
Proof.
  intros Hw. induction l as [|r l IH]; intros Hv Hs.
  { exists []. split_and!; [done|constructor|constructor|done|]. intros x. rewrite covers_nil. split; [done|]. by intros (r & ? & _). }
  apply Forall_cons in Hv as [Hr Hv]. apply StronglySorted_inv in Hs as [Hs Hle].
  destruct l as [|next l].
  { exists [r]. split_and!; [done|by constructor|by constructor; constructor|done|]. intros x. rewrite covers_cons, covers_nil.
    rewrite owner_cons. cbn. unfold in_range. case_decide; split.
    - intros [?|[]]. eauto.
    - intros (r' & [= <-] & ?). by left.
    - intros [?|[]]. lia.
    - by intros (r' & ? & _). }
  destruct (IH Hv Hs) as (l' & Ht & Hv' & Hap & Hfst & Hcov). clear IH.
  change (trim w (r :: next :: l)) with (range' ← trim_range w r next; rest' ← trim w (next :: l); Ok (range' :: rest')).
  pose proof (proj1 (proj1 (Forall_cons _ _ _) Hle)) as Hn. cbn in Hn.
  pose proof (proj1 (proj1 (Forall_cons _ _ _) Hv)) as Hvn.
  destruct (trim_range_spec r next Hw Hr Hvn Hn) as (c & -> & H0 & Hc). rewrite Ht. cbn [mbind outcome_bind].
  exists ((r.1, c) :: l'). split_and!; [done| | |cbn; by rewrite Hfst|].
  - constructor; [|done]. destruct Hr as (? & ? & ?). unfold valid_range. cbn. lia.
  - constructor; [done|]. assert (Hall : Forall (λ y, r.1 + c <= y)%Z l'.*1); [|by rewrite Forall_fmap in Hall].
    rewrite Hfst. cbn. apply StronglySorted_inv in Hs as [_ Hn2]. constructor; [lia|]. rewrite Forall_fmap.
    eapply Forall_impl; [exact Hn2|]. cbn. lia.
  - intros x. rewrite covers_cons, Hcov, (owner_cons r). split.
    + intros [[Hx1 Hx2]|(r' & Ho & Hx)]; cbn in *.
      * assert (owner (next :: l) x = None) as ->.
        { apply owner_None. apply StronglySorted_inv in Hs as [_ Hn2]. constructor; [lia|].
          eapply Forall_impl; [exact Hn2|]. cbn. lia. }
        rewrite decide_True by lia. exists r. split; [done|]. unfold in_range. lia.
      * rewrite Ho. eauto.
    + intros (r' & Ho & Hx). destruct (owner (next :: l) x) as [r2|] eqn:Ho2; [right; by exists r2; simplify_eq|].
      left. apply owner_None in Ho2. apply Forall_cons in Ho2 as [Hx2 _]. case_decide; [|done]. injection Ho as <-.
      destruct Hx. unfold in_range. cbn. lia.
Qed.

(** ** The second loop *)

(** The ranges that continue a stretch that ends at [e], and the rest. *)
Fixpoint stretch_list (l : list Range) (e : Z) : Z * list Range :=
  match l with
  | r :: l' => if (r.1 =? e)%Z then stretch_list l' (e + r.2)%Z else (e, l)
  | [] => (e, [])
  end.

Lemma stretch_list_spec l e s :
  Forall valid_range l -> apart l -> Forall (λ r : Range, e <= r.1)%Z l -> (s <= e)%Z -> (e < 2 ^ w)%Z ->
  let '(e', rest) := stretch_list l e in
  (e <= e' < 2 ^ w)%Z /\ rest `suffix_of` l /\ Forall (λ r : Range, e' < r.1)%Z rest /\
  forall x, (s <= x < e')%Z \/ covers rest x <-> (s <= x < e)%Z \/ covers l x.
Proof.
  revert e. induction l as [|r l IH]; intros e Hv Ha He Hse Hew; cbn [stretch_list].
  { split_and!; [lia|lia|done|constructor|done]. }
  apply Forall_cons in Hv as [(Hr0 & Hr1 & Hr2) Hv]. apply StronglySorted_inv in Ha as [Ha Hr]. apply Forall_cons in He as [He1 He].
  destruct (Z.eqb_spec r.1 e) as [<-|Hne].
  - specialize (IH (r.1 + r.2)%Z Hv Ha Hr ltac:(lia) Hr2). destruct (stretch_list l (r.1 + r.2)) as [e' rest].
    destruct IH as (H1 & Hsuf & Hgt & Hcov). split_and!; [lia|lia|by apply suffix_cons_r|done|].
    intros x. rewrite Hcov, covers_cons. unfold in_range. split; [intros [?|?]|intros [?|[?|?]]]; try tauto; try (left; lia).
    destruct (decide (x < r.1)%Z); [left; lia|right; left; lia].
  - split_and!; [lia|lia|done| |done]. constructor; [lia|]. eapply Forall_impl; [exact Hr|]. cbn. lia.
Qed.

Lemma stretch_is_list l fuel : forall j e,
  (0 <= w)%Z -> Forall valid_range l -> apart l -> (Z.of_nat (length l) < 2 ^ w)%Z ->
  length l <= j + fuel -> j <= length l -> (0 <= e)%Z -> Forall (λ r : Range, e <= r.1)%Z (drop j l) ->
  exists j', stretch w fuel l (Z.of_nat j) e = Ok (Z.of_nat j', (stretch_list (drop j l) e).1) /\
    j <= j' <= length l /\ drop j' l = (stretch_list (drop j l) e).2.
Proof.
  induction fuel as [|fuel IH]; intros j e Hw Hv Ha Hlen Hf Hj H0 He.
  - cbn [stretch]. rewrite (proj2 (Z.ltb_ge _ _)) by lia. exists j.
    rewrite drop_ge by lia. cbn. split_and!; [done|lia|lia|done].
  - cbn [stretch]. destruct (Z.ltb_spec (Z.of_nat j) (Z.of_nat (length l))) as [Hlt|Hge].
    2: { exists j. rewrite drop_ge by lia. cbn. split_and!; [done|lia|lia|done]. }
    rewrite Nat2Z.id. destruct (vec_at_lt l j) as [r Hr]; [lia|]. rewrite Hr. cbn [mbind outcome_bind]. apply vec_at_Ok in Hr.
    rewrite (drop_S l r j) in He |- * by done. apply Forall_cons in He as [Her He]. cbn [stretch_list].
    rewrite (proj2 (Z.ltb_ge _ _)) by lia. pose proof Hv as Hvr. rewrite Forall_lookup in Hvr. destruct (Hvr _ _ Hr) as (Hr0 & Hr1 & Hr2).
    destruct (Z.eqb_spec r.1 e) as [<-|Hne].
    + rewrite (wrap_id w (Z.of_nat j + 1)), (wrap_id w (r.1 + r.2)) by lia.
      replace (Z.of_nat j + 1)%Z with (Z.of_nat (S j)) by lia.
      destruct (IH (S j) (r.1 + r.2)%Z) as (j' & -> & Hj' & Hd); try done; try lia.
      { pose proof Ha as Ha'. rewrite <-(take_drop j l) in Ha'. apply StronglySorted_app_1_r in Ha'.
        rewrite (drop_S l r j) in Ha' by done. by apply StronglySorted_inv in Ha' as [_ Ha']. }
      exists j'. split_and!; [done|lia|lia|done].
    + exists j. split_and!; [done|lia|lia|]. by rewrite (drop_S l r j).
Qed.

Lemma merge_spec l fuel : forall i,
  (0 <= w)%Z -> Forall valid_range l -> apart l -> (Z.of_nat (length l) < 2 ^ w)%Z ->
  length l <= i + fuel -> i <= length l ->
  exists out, merge w fuel l (Z.of_nat i) = Ok out /\ canonical out /\
    (forall x, covers out x <-> covers (drop i l) x) /\
    (forall m, Forall (λ r : Range, m < r.1)%Z (drop i l) -> Forall (λ r : Range, m < r.1)%Z out).
Proof.
  induction fuel as [|fuel IH]; intros i Hw Hv Ha Hlen Hf Hi.
  - cbn [merge]. rewrite (proj2 (Z.ltb_ge _ _)) by lia. exists []. rewrite drop_ge by lia. split_and!; [done|apply canonical_nil|done|done].
  - cbn [merge]. destruct (Z.ltb_spec (Z.of_nat i) (Z.of_nat (length l))) as [Hlt|Hge].
    2: { exists []. rewrite drop_ge by lia. split_and!; [done|apply canonical_nil|done|done]. }
    rewrite Nat2Z.id. destruct (vec_at_lt l i) as [r Hr]; [lia|]. rewrite Hr. cbn [mbind outcome_bind]. apply vec_at_Ok in Hr.
    assert (Hv' : Forall valid_range (drop i l)) by (by apply Forall_drop).
    assert (Ha' : apart (drop i l)) by (rewrite <-(take_drop i l) in Ha; by apply StronglySorted_app_1_r in Ha).
    assert (Hge : Forall (λ b : Range, r.1 <= b.1)%Z (drop i l)).
    { rewrite (drop_S l r i Hr) in Ha', Hv' |- *. apply StronglySorted_inv in Ha' as [_ Ha']. apply Forall_cons in Hv' as [(?&?&?) _].
      constructor; [lia|]. eapply Forall_impl; [exact Ha'|]. cbn. lia. }
    assert (Hr' : valid_range r) by (rewrite Forall_lookup in Hv; by eapply Hv). destruct Hr' as (Hr0 & Hr1 & Hr2).
    rewrite (wrap_id w (Z.of_nat i)) by lia.
    destruct (stretch_is_list l (length l) i r.1) as (j & -> & Hj & Hd); try done; try lia. cbn [mbind outcome_bind].
    pose proof (stretch_list_spec (drop i l) r.1 r.1 Hv' Ha' Hge ltac:(lia) ltac:(lia)) as Hst.
    assert (Hji : i < j).
    { destruct (decide (j = i)) as [->|]; [|lia]. exfalso.
      rewrite (drop_S l r i Hr) in Hd. cbn [stretch_list] in Hd. rewrite Z.eqb_refl in Hd.
      rewrite (drop_S l r i Hr) in Hst. cbn [stretch_list] in Hst. rewrite Z.eqb_refl in Hst.
      destruct (stretch_list (drop (S i) l) (r.1 + r.2)) as [e' rest]. cbn in Hd. subst rest.
      destruct Hst as (? & _ & Hall & _). apply Forall_cons in Hall as [Hall _]. lia. }
    destruct (stretch_list (drop i l) r.1) as [e' rest] eqn:Hsl. cbn [fst snd] in *. subst rest.
    destruct Hst as (He' & _ & Hgt & Hcov). destruct (IH j) as (out & -> & Hcan & Hout & Hlow); try done; try lia.
    cbn [mbind outcome_bind]. rewrite wrap_id by lia.
    assert (Hcov' : forall x, covers (drop i l) x <-> (r.1 <= x < e')%Z \/ covers out x).
    { intros x. rewrite Hout, Hcov. split; [tauto|]. intros [?|?]; [lia|done]. }
    assert (Hm : forall m, Forall (λ r : Range, m < r.1)%Z (drop i l) -> (m < r.1)%Z /\ Forall (λ r : Range, m < r.1)%Z out).
    { intros m Hm. rewrite (drop_S l r i Hr) in Hm. apply Forall_cons in Hm as [Hm _]. split; [done|]. apply Hlow.
      eapply Forall_impl; [exact Hgt|]. cbn. lia. }
    destruct (Z.eqb_spec (e' - r.1) 0) as [Hz|Hnz].
    + exists out. split_and!; [done|done| |by intros m Hm'; apply Hm]. intros x. rewrite Hcov'. split; [tauto|]. intros [?|?]; [lia|done].
    + exists ((r.1, e' - r.1)%Z :: out). split_and!; [done| | |].
      * apply canonical_cons. cbn. unfold valid_range. cbn. split_and!; [lia|lia|lia|lia| |done].
        apply Hlow. eapply Forall_impl; [exact Hgt|]. cbn. lia.
      * intros x. rewrite Hcov', covers_cons. unfold in_range. cbn.
        replace (r.1 + (e' - r.1))%Z with e' by lia. done.
      * intros m Hm'. destruct (Hm m Hm'). by constructor.
Qed.
End spec.

(** ** Construction *)

Lemma range_less_swo : StrictWeakOrder range_less.
Proof.
  split; unfold range_less.
  - intros a. by rewrite !Z.ltb_irrefl, andb_false_r.
  - intros a b c. rewrite !orb_false_iff, !andb_false_iff, !Z.ltb_ge, !Z.eqb_neq. lia.
  - intros a b. rewrite orb_true_iff, andb_true_iff, orb_false_iff, andb_false_iff, !Z.ltb_ge, !Z.ltb_lt, Z.eqb_eq, Z.eqb_neq. lia.
Qed.

(** No range ends after one that starts later. *)
Definition no_nesting (l : list Range) : Prop := forall a b, a ∈ l -> b ∈ l -> (a.1 < b.1 -> a.1 + a.2 <= b.1 + b.2)%Z.

Lemma range_sorted_starts l : sorted_by range_less l -> starts_sorted l.
Proof.
  apply sorted_by_impl. intros a b. unfold range_less. rewrite orb_false_iff, Z.ltb_ge. lia.
Qed.

Lemma sorted_by_elem {A} (cmp : A -> A -> bool) (R : A -> A -> Prop) l :
  (forall a b, a ∈ l -> b ∈ l -> cmp b a = false -> R a b) -> sorted_by cmp l -> StronglySorted R l.
Proof.
  intros HR. induction 1 as [|a l _ IH Hall]; constructor.
  - apply IH. intros x y Hx Hy. apply HR; by right.
  - apply Forall_forall. intros b Hb. rewrite Forall_forall in Hall. apply HR; [left|by right|by apply Hall].
Qed.

(** Without nesting the last range that starts before an index decides. *)
Lemma owner_covers l x :
  starts_sorted l -> StronglySorted (λ a b : Range, a.1 + a.2 <= b.1 + b.2)%Z l ->
  (exists r, owner l x = Some r /\ in_range x r) <-> covers l x.
Proof.
  intros Hs He. induction l as [|r l IH]; [rewrite covers_nil; split; [by intros (r & ? & _)|done]|].
  apply StronglySorted_inv in Hs as [Hs Hr], He as [He Hre]. rewrite owner_cons, covers_cons, <-(IH Hs He). clear IH.
  destruct (owner l x) as [r'|] eqn:Ho; split.
  - intros (r0 & [= ->] & Hx). eauto.
  - intros [[Hx1 Hx2]|Hx]; [|done]. exists r'. split; [done|].
    assert (Hin : r' ∈ filter (λ r : Range, r.1 <= x)%Z l) by (apply last_Some_elem_of; exact Ho).
    apply list_elem_of_filter in Hin as [Hle Hin]. rewrite Forall_forall in Hre. specialize (Hre r' Hin). cbn in Hre.
    unfold in_range. lia.
  - intros (r0 & H0 & Hx). case_decide; [|done]. injection H0 as ->. by left.
  - intros [Hx|(r0 & ? & _)]; [|done]. exists r. destruct Hx as [? ?]. rewrite decide_True by lia. done.
Qed.

Section construct_spec.
Context (w : Z) (sort : forall A, (A -> A -> bool) -> list A -> list A) `{!StdSort sort}.
Hypothesis Hw : (0 <= w)%Z.

Lemma RemoveOverlap_spec l :
  Forall (valid_range w) l -> starts_sorted l -> (Z.of_nat (length l) < 2 ^ w)%Z ->
  exists s, RemoveOverlap w l = Ok s /\ canonical w s /\
    forall x, covers s x <-> exists r, owner l x = Some r /\ in_range x r.
Proof using Hw.
  intros Hv Hs Hlen. unfold RemoveOverlap. destruct (trim_spec w l Hw Hv Hs) as (l' & -> & Hv' & Ha & Hfst & Hcov).
  cbn [mbind outcome_bind]. assert (Hl : length l' = length l) by (apply (f_equal length) in Hfst; by rewrite !length_fmap in Hfst).
  destruct (merge_spec w l' (length l') 0) as (s & Hm & Hcan & Hc & _); [done|done|done|lia|lia|lia|].
  exists s. split_and!; [exact Hm|done|]. intros x. by rewrite Hc, drop_0.
Qed.

Definition input_order (l : list Range) (already_sorted : bool) : list Range :=
  if already_sorted then l else sort _ range_less l.

Lemma construct_spec l already_sorted :
  Forall (valid_range w) l -> (already_sorted = true -> starts_sorted l) -> (Z.of_nat (length l) < 2 ^ w)%Z ->
  exists s, construct w sort l already_sorted = Ok s /\ canonical w s /\
    forall x, covers s x <-> exists r, owner (input_order l already_sorted) x = Some r /\ in_range x r.
Proof using Hw StdSort0.
  intros Hv Hs Hlen. unfold construct. destruct l as [|r l].
  { exists []. split_and!; [done|apply canonical_nil|]. intros x. rewrite covers_nil. split; [done|].
    intros (r & Ho & _). unfold input_order in Ho. destruct already_sorted; [done|].
    assert (Hn : sort _ range_less [] = []) by apply Permutation_nil_r, sort_perm. by rewrite Hn in Ho. }
  unfold input_order. destruct already_sorted.
  - apply RemoveOverlap_spec; [done|by apply Hs|done].
  - apply RemoveOverlap_spec.
    + by rewrite sort_perm.
    + apply range_sorted_starts, sort_sorted, range_less_swo.
    + by rewrite (Permutation_length (sort_perm _ _ _)).
Qed.

Lemma construct_covers l :
  Forall (valid_range w) l -> no_nesting l -> (Z.of_nat (length l) < 2 ^ w)%Z ->
  exists s, construct w sort l false = Ok s /\ canonical w s /\ forall x, covers s x <-> covers l x.
Proof using Hw StdSort0.
  intros Hv Hn Hlen. destruct (construct_spec l false Hv ltac:(done) Hlen) as (s & Hc & Hcan & Hcov).
  exists s. split_and!; [done|done|]. intros x. rewrite Hcov. cbn [input_order].
  pose proof (sort_sorted _ range_less l range_less_swo) as Hsort. pose proof (sort_perm _ range_less l) as Hperm.
  rewrite owner_covers.
  - unfold covers. by rewrite Hperm.
  - by apply range_sorted_starts.
  - eapply sorted_by_elem; [|exact Hsort]. intros a b Ha Hb. rewrite Hperm in Ha, Hb. unfold range_less.
    rewrite orb_false_iff, andb_false_iff, !Z.ltb_ge, Z.eqb_neq. intros [Hle Hor].
    destruct (decide (a.1 < b.1)%Z) as [Hlt|Hge]; [by apply Hn|lia].
Qed.

(** Ranges that are apart are not nested. *)
Lemma apart_no_nesting l : Forall (valid_range w) l -> apart l -> no_nesting l.
Proof.
  intros Hv Ha a b Hain Hbin Hlt. apply list_elem_of_lookup in Hain as [i Hi], Hbin as [j Hj].
  rewrite Forall_lookup in Hv. destruct (Hv _ _ Hi) as (? & ? & ?), (Hv _ _ Hj) as (? & ? & ?).
  destruct (Nat.lt_trichotomy i j) as [Hij|[->|Hij]].
  - pose proof (sorted_lookup _ _ _ _ _ _ Ha Hij Hi Hj) as H'. cbn in H'. lia.
  - simplify_eq. lia.
  - pose proof (sorted_lookup _ _ _ _ _ _ Ha Hij Hj Hi) as H'. cbn in H'. lia.
Qed.

(** The indices of a vector, in increasing order, as ranges of length one. *)
Lemma singles_apart (l : list Z) : StronglySorted Z.lt l -> apart ((λ i, (i, 1%Z)) <$> l).
Proof.
  induction 1 as [|i l _ IH Hall]; cbn; [constructor|]. constructor; [done|]. apply Forall_fmap.
  eapply Forall_impl; [exact Hall|]. cbn. lia.
Qed.
End construct_spec.

(** ** Lookups *)

Lemma ElementCount_spec s :
  canonical 64 s -> ElementCount s = fold_right (λ r n, r.2 + n)%Z 0%Z s.
Proof.
  intros Hc. unfold ElementCount. assert (Hgen : forall l n, canonical 64 l -> (0 <= n)%Z ->
    Forall (λ r : Range, n <= r.1)%Z l ->
    fold_left (λ out range, u64 (out + range.2)) l n = (n + fold_right (λ r n, r.2 + n)%Z 0%Z l)%Z); cycle 1.
  { rewrite (Hgen s 0%Z); [lia|done|lia|]. destruct Hc as [Hc _]. eapply Forall_impl; [exact Hc|]. unfold valid_range. cbn. lia. }
  clear. induction l as [|r l IH]; intros n Hc Hn Hall; cbn [fold_left fold_right]; [lia|].
  apply canonical_cons in Hc as ((H0 & H1 & H2) & Hp & Hlt & Hc). apply Forall_cons in Hall as [Hr _].
  unfold u64. rewrite wrap_id by lia. rewrite IH; [lia|done|lia|]. eapply Forall_impl; [exact Hlt|]. cbn. lia.
Qed.

Lemma ContainsIndex_covers s x :
  canonical 64 s -> exists b, ContainsIndex s x = Ok b /\ (b = true <-> covers s x).
Proof.
  intros Hc. unfold ContainsIndex. set (before := λ lhs : Range, (u64 (u64 (lhs.1 + lhs.2) - 1) <? x)%Z).
  assert (Hb : forall r, r ∈ s -> before r = (r.1 + r.2 - 1 <? x)%Z).
  { intros r Hr. destruct Hc as [Hc _]. rewrite Forall_forall in Hc. destruct (Hc r Hr) as ((? & ? & ?) & ?). unfold before, u64.
    rewrite (wrap_id 64 (r.1 + r.2)) by lia. by rewrite wrap_id by lia. }
  destruct (lower_bound_spec before s (length s) 0 (length s)) as (n & -> & Hn & Ht & Hd); [lia|lia| |lia| |].
  { intros i j a b Hij Ha Hb' Hbt. rewrite Hb in Hbt |- * by (by eapply list_elem_of_lookup_2). apply Z.ltb_lt in Hbt. apply Z.ltb_lt.
    destruct Hc as [Hall Hs]. pose proof (sorted_lookup _ _ _ _ _ _ Hs Hij Ha Hb') as Hlt. cbn in Hlt.
    rewrite Forall_lookup in Hall. destruct (Hall _ _ Hb') as ((? & ? & ?) & ?). lia. }
  { intros i a Hi Ha%lookup_lt_Some. lia. }
  cbn [mbind outcome_bind]. destruct (s !! n) as [r|] eqn:Hr.
  - exists (r.1 <=? x)%Z. split; [done|]. rewrite Z.leb_le. rewrite Forall_lookup in Ht, Hd. split.
    + intros Hle. apply Exists_exists. exists r. split; [by eapply list_elem_of_lookup_2|]. unfold in_range.
      assert (before r = false) as Hf by (apply (Hd 0); by rewrite lookup_drop, Nat.add_0_r).
      rewrite Hb in Hf by (by eapply list_elem_of_lookup_2). apply Z.ltb_ge in Hf. lia.
    + intros (a & [i Hi]%list_elem_of_lookup & Hx1 & Hx2)%Exists_exists.
      assert (Hba : before a = false) by (rewrite Hb by (by eapply list_elem_of_lookup_2); apply Z.ltb_ge; lia).
      destruct (Nat.lt_trichotomy i n) as [Hlt|[->|Hgt]].
      * rewrite (Ht i a) in Hba; [done|]. by apply lookup_take_Some.
      * simplify_eq. exact Hx1.
      * destruct Hc as [Hall Hs]. pose proof (sorted_lookup _ _ _ _ _ _ Hs Hgt Hr Hi) as Hlt. cbn in Hlt.
        rewrite Forall_lookup in Hall. destruct (Hall _ _ Hr) as ((? & ? & ?) & ?). lia.
  - exists false. split; [done|]. split; [done|]. intros (a & [i Hi]%list_elem_of_lookup & Hx1 & Hx2)%Exists_exists. exfalso.
    apply lookup_ge_None in Hr. pose proof (lookup_lt_Some _ _ _ Hi). rewrite Forall_lookup in Ht.
    assert (before a = true) as Hbt by (apply (Ht i); apply lookup_take_Some; split; [done|lia]).
    rewrite Hb in Hbt by (by eapply list_elem_of_lookup_2). apply Z.ltb_lt in Hbt. lia.
Qed.

(** ** Intersection *)

Lemma heap_greater_spec i b c p i' b' c' p' :
  heap_greater (i, b, c, p) (i', b', c', p') = false <->
  (i < i')%Z \/ (i = i' /\ (Nat.b2n b < Nat.b2n b' \/ (b = b' /\ (c < c' \/ (c = c' /\ p <= p'))))).
Proof.
  unfold heap_greater. destruct (Z.eqb_spec i i'); [|rewrite Z.ltb_ge; lia].
  destruct b, b'; cbn [Bool.eqb Nat.b2n]; try (split; (done || lia || (intros [?|[_ [?|[? _]]]]; (done || lia)))).
  all: destruct (Nat.eqb_spec c c'); rewrite Nat.ltb_ge; split; [intros|intros [?|[_ [?|[_ ?]]]]| |intros [?|[_ [?|[_ ?]]]]]; try lia.
  all: right; split; [done|]; right; split; [done|]; lia.
Qed.

Lemma heap_greater_swo : StrictWeakOrder heap_greater.
Proof.
  split.
  - intros [[[i b] c] p]. apply heap_greater_spec. right. split; [done|]. right. split; [done|]. lia.
  - intros [[[i b] c] p] [[[i2 b2] c2] p2] [[[i3 b3] c3] p3]. rewrite !heap_greater_spec.
    intros [?|(-> & [?|(-> & H1)])] [?|(-> & [?|(-> & H2)])]; try lia; right; (split; [done|]); try (left; lia).
    right. split; [done|]. lia.
  - intros [[[i b] c] p] [[[i2 b2] c2] p2] Ht. apply heap_greater_spec. apply dec_stable. intros Hn.
    assert (Hf : heap_greater (i, b, c, p) (i2, b2, c2, p2) = false); [|congruence]. apply heap_greater_spec.
    destruct (Z.lt_trichotomy i i2) as [?|[->|?]]; [lia| |lia]. right. split; [done|].
    destruct b, b2; cbn in *; try lia; right; (split; [done|]); lia.
Qed.
#[global] Existing Instance heap_greater_swo.

Lemma heap_greater_false i b c p i' b' c' p' : heap_greater (i, b, c, p) (i', b', c', p') = false -> (i <= i')%Z.
Proof. rewrite heap_greater_spec. lia. Qed.

(** The [n]-th end of a range of a set: an index, whether a range starts
    there, and the position of the range. *)
Definition next_event (S : list Range) (n : nat) : option (Z * bool * nat) :=
  match (S !! (n / 2) : option Range) with
  | None => None
  | Some r => Some (if Nat.even n then r.1 else (r.1 + r.2)%Z, Nat.even n, n / 2)
  end.

Lemma half_even n : n = 2 * (n / 2) + if Nat.even n then 0 else 1.
Proof.
  pose proof (Nat.div_mod_eq n 2) as H. rewrite H at 1. f_equal. rewrite <-Nat.bit0_mod, Nat.bit0_odd, <-Nat.negb_even.
  by destruct (Nat.even n).
Qed.

Lemma half_S n : S n / 2 = if Nat.even n then n / 2 else S (n / 2).
Proof.
  pose proof (half_even n) as H1. pose proof (half_even (S n)) as H2. rewrite Nat.even_succ, <-Nat.negb_even in H2.
  destruct (Nat.even n); cbn [negb] in H2; lia.
Qed.

Lemma next_event_Some S n i b c :
  next_event S n = Some (i, b, c) -> exists r : Range, S !! c = Some r /\ c = n / 2 /\ b = Nat.even n /\ i = if b then r.1 else (r.1 + r.2)%Z.
Proof. unfold next_event. destruct (S !! (n / 2)) as [r|] eqn:Hr; [|done]. intros [= <- <- <-]. eauto. Qed.

Lemma next_event_lt S n : n < 2 * length S -> is_Some (next_event S n).
Proof.
  intros Hn. unfold next_event. destruct (lookup_lt_is_Some_2 S (n / 2)) as [r ->]; [|by eexists].
  pose proof (half_even n). destruct (Nat.even n); lia.
Qed.

Lemma next_event_ge S n e : next_event S n = Some e -> n < 2 * length S.
Proof.
  destruct e as [[i b] c]. intros (r & Hr%lookup_lt_Some & -> & _)%next_event_Some. pose proof (half_even n).
  destruct (Nat.even n); lia.
Qed.

Section events.
Context (w : Z).

(** The events of a set come in increasing order. *)
Lemma next_event_S S n i b c i' b' c' :
  canonical w S -> next_event S n = Some (i, b, c) -> next_event S (Datatypes.S n) = Some (i', b', c') -> (i < i')%Z.
Proof.
  intros [Hall Hs] (r & Hr & Hc & Hb & ->)%next_event_Some (r' & Hr' & Hc' & Hb' & ->)%next_event_Some.
  rewrite Nat.even_succ, <-Nat.negb_even, <-Hb in Hb'. rewrite half_S, <-Hb, <-Hc in Hc'. subst b'.
  rewrite Forall_lookup in Hall. destruct b; cbn [negb].
  - subst c'. simplify_eq. destruct (Hall _ _ Hr) as [_ ?]. lia.
  - subst c'. pose proof (sorted_lookup _ _ _ _ _ _ Hs (Nat.lt_succ_diag_r c) Hr Hr') as Hlt. exact Hlt.
Qed.

Lemma next_event_mono S n m i b c i' b' c' :
  canonical w S -> n <= m -> next_event S n = Some (i, b, c) -> next_event S m = Some (i', b', c') -> (i <= i')%Z.
Proof.
  intros Hc Hle Hn. revert i' b' c'. induction Hle as [|m Hle IH]; intros i' b' c' Hm; [rewrite Hn in Hm; injection Hm; lia|].
  pose proof (next_event_ge _ _ _ Hm). destruct (next_event_lt S m ltac:(lia)) as [[[j d] e] Hj].
  specialize (IH _ _ _ Hj). pose proof (next_event_S _ _ _ _ _ _ _ _ Hc Hj Hm). lia.
Qed.

(** After an odd number of its events a set is inside a range. *)
Lemma inside_odd S n x :
  n <= 2 * length S ->
  (forall m i b c, m < n -> next_event S m = Some (i, b, c) -> (i <= x)%Z) ->
  (forall m i b c, n <= m -> next_event S m = Some (i, b, c) -> (x < i)%Z) ->
  covers S x <-> Nat.odd n = true.
Proof.
  intros Hn Hpast Hfut. split.
  - intros (r & [j Hj]%list_elem_of_lookup & Hx1 & Hx2)%Exists_exists.
    assert (H2j : next_event S (2 * j) = Some (r.1, true, j)).
    { unfold next_event. rewrite Nat.even_even. replace (2 * j / 2) with j by (rewrite Nat.mul_comm; by rewrite Nat.div_mul).
      by rewrite Hj. }
    assert (H2j1 : next_event S (2 * j + 1) = Some ((r.1 + r.2)%Z, false, j)).
    { unfold next_event. rewrite Nat.even_odd. replace ((2 * j + 1) / 2) with j; [by rewrite Hj|].
      apply (Nat.div_unique _ 2 _ 1); lia. }
    assert (2 * j < n) by (destruct (decide (n <= 2 * j)); [|lia]; specialize (Hfut (2 * j) _ _ _ ltac:(done) H2j); lia).
    assert (n <= 2 * j + 1) by (destruct (decide (2 * j + 1 < n)) as [Hlt|]; [|lia]; specialize (Hpast _ _ _ _ Hlt H2j1); lia).
    replace n with (2 * j + 1) by lia. apply Nat.odd_odd.
  - intros Hodd. pose proof (half_even n) as Hh. rewrite <-Nat.negb_odd, Hodd in Hh. cbn [negb] in Hh. set (k := n / 2) in *.
    destruct (lookup_lt_is_Some_2 S k) as [r Hr]; [lia|]. apply Exists_exists. exists r. split; [by eapply list_elem_of_lookup_2|].
    assert (He : next_event S n = Some ((r.1 + r.2)%Z, false, k)) by (unfold next_event; fold k; by rewrite Hr, <-Nat.negb_odd, Hodd).
    assert (He0 : next_event S (2 * k) = Some (r.1, true, k)).
    { unfold next_event. rewrite Nat.even_even. replace (2 * k / 2) with k by (rewrite Nat.mul_comm; by rewrite Nat.div_mul).
      by rewrite Hr. }
    split; [eapply (Hpast (2 * k)); [lia|exact He0]|eapply (Hfut n); [lia|exact He]].
Qed.
End events.

Lemma odd_count_all pos : length (filter (λ n, Nat.odd n = true) pos) = length pos <-> Forall (λ n, Nat.odd n = true) pos.
Proof.
  induction pos as [|n pos IH]; [by split|]. rewrite filter_cons, Forall_cons. case_decide as Hn; cbn [length].
  - rewrite <-IH. split; [intros [= ?]; done|]. intros [_ ->]. done.
  - pose proof (length_filter (λ n, Nat.odd n = true) pos). split; [lia|tauto].
Qed.

Lemma odd_count_insert pos p n :
  pos !! p = Some n ->
  length (filter (λ n, Nat.odd n = true) (<[p := S n]> pos)) + (if Nat.odd n then 1 else 0) =
  length (filter (λ n, Nat.odd n = true) pos) + (if Nat.odd n then 0 else 1).
Proof.
  revert p. induction pos as [|m pos IH]; intros [|p] Hp; try done; cbn [list_insert insert].
  - injection Hp as ->. rewrite !filter_cons. pose proof (Nat.odd_succ n) as Hs. rewrite <-Nat.negb_odd in Hs.
    destruct (Nat.odd n) eqn:Hn; cbn [negb] in Hs; [rewrite decide_False, decide_True|rewrite decide_True, decide_False];
      try congruence; cbn [length]; lia.
  - cbn in Hp. specialize (IH p Hp). rewrite !filter_cons. case_decide; cbn [length]; unfold insert in *; destruct (Nat.odd n); lia.
Qed.

Fixpoint remaining (sets : list (list Range)) (pos : list nat) : nat :=
  match sets, pos with
  | s :: sets', n :: pos' => (2 * length s - n) + remaining sets' pos'
  | _, _ => 0
  end.

Lemma remaining_insert sets pos p s n :
  sets !! p = Some s -> pos !! p = Some n -> n < 2 * length s -> S (remaining sets (<[p := S n]> pos)) = remaining sets pos.
Proof.
  revert pos p. induction sets as [|s' sets IH]; intros [|m pos] [|p] Hs Hn Hlt; try done.
  - injection Hs as ->. injection Hn as ->. cbn [list_insert insert remaining]. lia.
  - cbn in Hs, Hn. specialize (IH pos p Hs Hn Hlt). cbn [list_insert insert remaining] in *. unfold insert in *. lia.
Qed.

Lemma remaining_start sets : remaining sets (replicate (length sets) 0) = 2 * length (concat sets).
Proof. induction sets as [|s sets IH]; [done|]. cbn [length replicate remaining concat]. rewrite length_app. lia. Qed.

Section intersection.
Context (w : Z) (sets : list (list Range)).
Hypothesis Hw : (0 <= w)%Z.
Hypothesis Hcan : Forall (canonical w) sets.
Hypothesis Hne : sets <> [].

Definition in_all (x : Z) : Prop := Forall (λ s, covers s x) sets.

(** Up to where the ranges found so far are decided. *)
Definition decided (T : Z) (st : state) : Z := if running_count st =? length sets then range_start st else T.

(** [pos] counts the events of each set that were processed; [T] is the index
    of the last one. *)
Record merged (pos : list nat) (T : Z) (st : state) : Prop := {
  m_len : length pos = length sets;
  m_pos p s n : sets !! p = Some s -> pos !! p = Some n -> n <= 2 * length s;
  m_heap : VectorPriorityQueue.heap heap_greater (queue_ st);
  m_queue i b c p : (i, b, c, p) ∈ queue_ st ->
    exists s n, sets !! p = Some s /\ pos !! p = Some n /\ next_event s n = Some (i, b, c);
  m_queued p s n i b c : sets !! p = Some s -> pos !! p = Some n -> next_event s n = Some (i, b, c) -> (i, b, c, p) ∈ queue_ st;
  m_nodup : NoDup (queue_ st).*2;
  m_past p s n m i b c : sets !! p = Some s -> pos !! p = Some n -> m < n -> next_event s m = Some (i, b, c) -> (i <= T)%Z;
  m_future : Forall (λ e : HeapElement, T <= e.1.1.1)%Z (queue_ st);
  m_T : (0 <= T < 2 ^ w)%Z;
  m_count : running_count st = length (filter (λ n, Nat.odd n = true) pos);
  m_valid : Forall (valid_range w) (ranges st);
  m_apart : apart (ranges st);
  m_before : Forall (λ r : Range, r.1 + r.2 <= decided T st)%Z (ranges st);
  m_start : running_count st = length sets -> (0 <= range_start st <= T)%Z /\ forall x, (range_start st <= x < T)%Z -> in_all x;
  m_covers x : (x < decided T st)%Z -> covers (ranges st) x <-> in_all x;
  m_size : length (ranges st) <= 2 * length (concat sets) - remaining sets pos;
  m_remaining : remaining sets pos <= 2 * length (concat sets)
}.

Lemma set_canonical p s : sets !! p = Some s -> canonical w s.
Proof using Hcan. intros Hp. rewrite Forall_lookup in Hcan. by eapply Hcan. Qed.

(** Between two events nothing changes. *)
Lemma between pos T st T' x :
  merged pos T st -> Forall (λ e : HeapElement, T' <= e.1.1.1)%Z (queue_ st) -> (T <= x < T')%Z ->
  in_all x <-> running_count st = length sets.
Proof using Hcan.
  intros M Hq Hx. rewrite (m_count _ _ _ M), <-(m_len _ _ _ M), odd_count_all. unfold in_all. rewrite !Forall_lookup.
  assert (Hin : forall p s n, sets !! p = Some s -> pos !! p = Some n -> covers s x <-> Nat.odd n = true).
  { intros p s n Hs Hn. apply inside_odd.
    - by eapply m_pos.
    - intros m i b c Hm He. pose proof (m_past _ _ _ M p s n m i b c Hs Hn Hm He). lia.
    - intros m i b c Hm He. pose proof (next_event_ge _ _ _ He). destruct (next_event_lt s n ltac:(lia)) as [[[j d] e] Hj].
      pose proof (next_event_mono w s n m _ _ _ _ _ _ (set_canonical p s Hs) Hm Hj He).
      pose proof (m_queued _ _ _ M p s n j d e Hs Hn Hj) as Hin. rewrite Forall_forall in Hq. specialize (Hq _ Hin). cbn in Hq. lia. }
  split; intros H p.
  - intros n Hn. destruct (lookup_lt_is_Some_2 sets p) as [s Hs]; [rewrite <-(m_len _ _ _ M); by eapply lookup_lt_Some|].
    apply (Hin p s n Hs Hn), (H p s Hs).
  - intros s Hs. destruct (lookup_lt_is_Some_2 pos p) as [n Hn]; [rewrite (m_len _ _ _ M); by eapply lookup_lt_Some|].
    apply (Hin p s n Hs Hn), (H p n Hn).
Qed.

(** Up to the next event the ranges are decided, or a range is open. *)
Lemma covers_until pos T st T' x :
  merged pos T st -> Forall (λ e : HeapElement, T' <= e.1.1.1)%Z (queue_ st) -> running_count st <> length sets ->
  (x < T')%Z -> covers (ranges st) x <-> in_all x.
Proof using Hcan.
  intros M Hq Hr Hx. assert (Hd : decided T st = T) by (unfold decided; by rewrite (proj2 (Nat.eqb_neq _ _) Hr)).
  destruct (decide (x < T)%Z) as [Hlt|Hge]; [apply (m_covers _ _ _ M); by rewrite Hd|].
  rewrite (between pos T st T' x M Hq) by lia. split; [|done]. intros Hc. exfalso.
  apply Exists_exists in Hc as (r & Hin & H1 & H2). pose proof (m_before _ _ _ M) as Hb. rewrite Hd, Forall_forall in Hb.
  specialize (Hb r Hin). cbn in Hb. lia.
Qed.

(** The position [p] moves on to its next event. *)
Lemma queue_moves pos T st i b c p q s n q' :
  merged pos T st -> queue_ st ≡ₚ (i, b, c, p) :: q -> sets !! p = Some s -> pos !! p = Some n ->
  next_event s n = Some (i, b, c) ->
  (q' ≡ₚ match next_event s (S n) with Some e => (e, p) :: q | None => q end) ->
  VectorPriorityQueue.heap heap_greater q' ->
  Forall (λ e : HeapElement, i <= e.1.1.1)%Z (queue_ st) ->
  let pos' := <[p := S n]> pos in
  length pos' = length sets /\
  (forall p s n, sets !! p = Some s -> pos' !! p = Some n -> n <= 2 * length s) /\
  (forall i b c p, (i, b, c, p) ∈ q' -> exists s n, sets !! p = Some s /\ pos' !! p = Some n /\ next_event s n = Some (i, b, c)) /\
  (forall p s n i b c, sets !! p = Some s -> pos' !! p = Some n -> next_event s n = Some (i, b, c) -> (i, b, c, p) ∈ q') /\
  NoDup q'.*2 /\
  (forall p s n m i' b c, sets !! p = Some s -> pos' !! p = Some n -> m < n -> next_event s m = Some (i', b, c) -> (i' <= i)%Z) /\
  Forall (λ e : HeapElement, i <= e.1.1.1)%Z q' /\ (0 <= i < 2 ^ w)%Z /\ (T <= i)%Z.
Proof using Hcan Hw.
  intros M Hq Hs Hn Hev Hq' Hheap Hmin pos'.
  assert (Hlt : n < 2 * length s) by (by eapply next_event_ge).
  assert (Hp : p < length pos) by (by eapply lookup_lt_Some).
  assert (Hlook : forall p', pos' !! p' = if decide (p' = p) then Some (S n) else pos !! p').
  { intros p'. unfold pos'. case_decide as Hd; [subst; by rewrite list_lookup_insert_eq|by rewrite list_lookup_insert_ne]. }
  pose proof (m_nodup _ _ _ M) as Hnd. rewrite Hq in Hnd. cbn [fmap list_fmap] in Hnd. apply NoDup_cons in Hnd as [Hnotin Hnd].
  assert (Hother : forall e, e ∈ q -> e.2 <> p).
  { intros e He Heq. apply Hnotin. apply list_elem_of_fmap. by exists e. }
  split_and!.
  - unfold pos'. rewrite length_insert. apply (m_len _ _ _ M).
  - intros p' s' n' Hs'. rewrite Hlook. case_decide; [|by apply (m_pos _ _ _ M)]. intros [= <-]. simplify_eq. lia.
  - intros i' b' c' p' Hin. rewrite Hq' in Hin. rewrite Hlook.
    assert (Hcase : (i', b', c', p') ∈ q \/ (p' = p /\ next_event s (S n) = Some (i', b', c'))).
    { destruct (next_event s (S n)) as [e|]; [|by left]. apply elem_of_cons in Hin as [[= <- ->]|Hin]; [by right|by left]. }
    destruct Hcase as [Hin'|[-> He]].
    + rewrite decide_False by (by apply (Hother _ Hin')). apply (m_queue _ _ _ M). rewrite Hq. by right.
    + rewrite decide_True by done. eauto.
  - intros p' s' n' i' b' c' Hs'. rewrite Hlook, Hq'. case_decide as Hd.
    + intros [= <-]. simplify_eq. intros ->. left.
    + intros Hn' He. pose proof (m_queued _ _ _ M _ _ _ _ _ _ Hs' Hn' He) as Hin. rewrite Hq in Hin.
      apply elem_of_cons in Hin as [[= -> -> -> ->]|Hin]; [done|]. destruct (next_event s (S n)); [by right|done].
  - rewrite Hq'. destruct (next_event s (S n)); [|done]. cbn [fmap list_fmap]. by constructor.
  - intros p' s' n' m i' b' c' Hs'. rewrite Hlook. case_decide as Hd; [|intros Hn' Hm He].
    + intros [= <-] Hm He. simplify_eq. eapply (next_event_mono w _ m n); [by eapply set_canonical|lia|exact He|exact Hev].
    + pose proof (m_past _ _ _ M _ _ _ _ _ _ _ Hs' Hn' Hm He). pose proof (m_future _ _ _ M) as Hf. rewrite Hq in Hf.
      apply Forall_cons in Hf as [Hf _]. cbn in Hf. lia.
  - rewrite Hq'. rewrite Hq in Hmin. apply Forall_cons in Hmin as [_ Hmin]. destruct (next_event s (S n)) as [[[i' b'] c']|] eqn:He; [|done].
    constructor; [|done]. cbn. pose proof (next_event_S w _ _ _ _ _ _ _ _ (set_canonical p s Hs) Hev He). lia.
  - apply next_event_Some in Hev as (r & Hr & _ & _ & ->). destruct (set_canonical p s Hs) as [Hall _].
    rewrite Forall_lookup in Hall. destruct (Hall _ _ Hr) as ((? & ? & ?) & ?). destruct b; lia.
  - apply next_event_Some in Hev as (r & Hr & _ & _ & ->). destruct (set_canonical p s Hs) as [Hall _].
    rewrite Forall_lookup in Hall. destruct (Hall _ _ Hr) as ((? & ? & ?) & ?). destruct b; lia.
  - pose proof (m_future _ _ _ M) as Hf. rewrite Hq in Hf. by apply Forall_cons in Hf as [Hf _].
Qed.

(** What a step does to the ranges: it counts the event and closes a range
    when the first set of all leaves its range. *)
Definition after_event (st : state) (i : Z) (b : bool) : list Range * Z * nat :=
  if b then (ranges st, if S (running_count st) =? length sets then i else range_start st, S (running_count st))
  else (if running_count st =? length sets then ranges st ++ [(range_start st, i - range_start st)%Z] else ranges st,
        range_start st, pred (running_count st)).

Lemma running_le pos T st : merged pos T st -> running_count st <= length sets.
Proof. intros M. rewrite (m_count _ _ _ M), <-(m_len _ _ _ M). apply length_filter. Qed.

Lemma ranges_move pos T st i b c p s n q' rs start running :
  merged pos T st -> sets !! p = Some s -> pos !! p = Some n -> next_event s n = Some (i, b, c) ->
  Forall (λ e : HeapElement, i <= e.1.1.1)%Z (queue_ st) -> (0 <= i < 2 ^ w)%Z -> (T <= i)%Z ->
  after_event st i b = (rs, start, running) ->
  let st' := mkState q' rs start running in
  running = length (filter (λ n, Nat.odd n = true) (<[p := S n]> pos)) /\
  Forall (valid_range w) rs /\ apart rs /\ Forall (λ r : Range, r.1 + r.2 <= decided i st')%Z rs /\
  (running = length sets -> (0 <= start <= i)%Z /\ forall x, (start <= x < i)%Z -> in_all x) /\
  (forall x, (x < decided i st')%Z -> covers rs x <-> in_all x) /\ length rs <= S (length (ranges st)).
Proof using Hcan Hw.
  intros M Hs Hn Hev Hq Hi HTi Haft st'.
  pose proof (odd_count_insert pos p n Hn) as Hcnt. rewrite <-(m_count _ _ _ M) in Hcnt. pose proof (running_le _ _ _ M) as Hle.
  assert (Hodd : Nat.odd n = negb b).
  { apply next_event_Some in Hev as (r & _ & _ & -> & _). by rewrite Nat.negb_even. }
  assert (Hsets : 0 < length sets) by (apply lookup_lt_Some in Hs; lia).
  pose proof (m_before _ _ _ M) as Hbef. rewrite Hodd in Hcnt. unfold after_event in Haft. destruct b; cbn [negb] in Hcnt.
  - apply pair_equal_spec in Haft as [[<- <-]%pair_equal_spec <-].
    assert (Hno : running_count st <> length sets).
    { intros Hr. rewrite (m_count _ _ _ M), <-(m_len _ _ _ M) in Hr. apply odd_count_all in Hr. rewrite Forall_lookup in Hr.
      specialize (Hr _ _ Hn). rewrite Hodd in Hr. done. }
    assert (Hd : decided i st' = i).
    { unfold decided, st'. cbn [running_count range_start]. by destruct (S (running_count st) =? length sets). }
    assert (HdT : decided T st = T) by (unfold decided; by rewrite (proj2 (Nat.eqb_neq _ _) Hno)).
    rewrite Hd. rewrite HdT in Hbef. split_and!; [lia|apply M|apply M| | | |lia].
    + eapply Forall_impl; [exact Hbef|]. cbn. lia.
    + intros Hr. rewrite (proj2 (Nat.eqb_eq _ _) Hr). split; [lia|]. intros x Hx. lia.
    + intros x Hx. by eapply covers_until.
  - assert (Hnr : pred (running_count st) <> length sets) by lia.
    assert (Hd : decided i st' = i).
    { unfold decided, st'. cbn [running_count range_start]. destruct (running_count st =? length sets) eqn:?; apply pair_equal_spec in Haft as [[<- <-]%pair_equal_spec <-]; by rewrite (proj2 (Nat.eqb_neq _ _) Hnr). }
    rewrite Hd. destruct (Nat.eqb_spec (running_count st) (length sets)) as [Hr|Hr]; apply pair_equal_spec in Haft as [[<- <-]%pair_equal_spec <-].
    + destruct (m_start _ _ _ M Hr) as [Hst Hin].
      assert (HdT : decided T st = range_start st) by (unfold decided; by rewrite (proj2 (Nat.eqb_eq _ _) Hr)). rewrite HdT in Hbef.
      split_and!; [lia| | | |lia| |rewrite length_app; cbn; lia].
      * apply Forall_app. split; [apply M|]. constructor; [|done]. unfold valid_range. cbn. lia.
      * apply StronglySorted_snoc; [apply M|]. cbn. eapply Forall_impl; [exact Hbef|]. cbn. lia.
      * apply Forall_app. split; [eapply Forall_impl; [exact Hbef|]; cbn; lia|]. constructor; [cbn; lia|done].
      * intros x Hx. rewrite covers_app, covers_cons, covers_nil. unfold in_range. cbn.
        destruct (decide (x < range_start st)%Z) as [Hlt|Hge].
        { rewrite (m_covers _ _ _ M x) by (rewrite HdT; lia). split; [intros [?|[?|[]]]; [done|lia]|by left]. }
        split; [|intros _; right; left; lia]. intros _.
        destruct (decide (x < T)%Z); [apply Hin; lia|]. eapply between; [exact M|exact Hq|lia|done].
    + assert (HdT : decided T st = T) by (unfold decided; by rewrite (proj2 (Nat.eqb_neq _ _) Hr)). rewrite HdT in Hbef.
      split_and!; [lia|apply M|apply M| |lia| |lia].
      * eapply Forall_impl; [exact Hbef|]. cbn. lia.
      * intros x Hx. by eapply covers_until.
Qed.

Lemma intersect_step_spec pos T st :
  merged pos T st -> queue_ st <> [] ->
  exists st' pos' T', intersect_step w sets st = Ok st' /\ merged pos' T' st' /\ S (remaining sets pos') = remaining sets pos.
Proof using Hcan Hw.
  intros M Hnil. unfold intersect_step.
  pose proof (VectorPriorityQueue.PopTop_spec heap_greater (queue_ st) (m_heap _ _ _ M)) as Hpop.
  pose proof (m_queue _ _ _ M) as Hmq. pose proof (VectorPriorityQueue.heap_top_max heap_greater (queue_ st)) as Hmax.
  destruct (queue_ st) as [|[[[i b] c] p] rest] eqn:Hqs; [done|]. destruct Hpop as (q & -> & Hhq & Hperm). cbn [mbind outcome_bind].
  specialize (Hmax (i, b, c, p)). rewrite <-Hqs in Hmax.
  assert (Hmin : Forall (λ e : HeapElement, i <= e.1.1.1)%Z (queue_ st)).
  { eapply Forall_impl; [apply Hmax; [apply M|by rewrite Hqs]|]. intros [[[i' b'] c'] p']. apply heap_greater_false. }
  destruct (Hmq i b c p) as (s & n & Hs & Hn & Hev); [left|].
  assert (Hqp : queue_ st ≡ₚ (i, b, c, p) :: q) by (by rewrite Hqs, Hperm).
  destruct (next_event_Some _ _ _ _ _ Hev) as (r & Hr & Hc & Hb & Hi).
  destruct (set_canonical p s Hs) as [Hall _].
  pose proof (next_event_ge _ _ _ Hev) as Hlt.
  rewrite (proj2 (vec_at_Ok sets p s)) by done. cbn [mbind outcome_bind].
  set (next := if b then c else S c). assert (Hnext : S n / 2 = next) by (unfold next; by rewrite half_S, <-Hb, Hc).
  assert (Hbn : Nat.even (S n) = negb b) by (by rewrite Nat.even_succ, <-Nat.negb_even, Hb).
  (* the queue after the step *)
  set (q' := match next_event s (S n) with Some e => VectorPriorityQueue.emplace heap_greater q (e, p) | None => q end).
  assert (Hq' : q' ≡ₚ match next_event s (S n) with Some e => (e, p) :: q | None => q end /\ VectorPriorityQueue.heap heap_greater q').
  { unfold q'. destruct (next_event s (S n)); [|done]. destruct (VectorPriorityQueue.emplace_spec heap_greater q (p0, p) Hhq). done. }
  destruct Hq' as [Hq' Hhq'].
  destruct (queue_moves pos T st i b c p q s n q' M Hqp Hs Hn Hev Hq' Hhq' Hmin) as (H1 & H2 & H3 & H4 & H5 & H6 & H7 & H8 & H9).
  destruct (after_event st i b) as [[rs start] running] eqn:Haft.
  destruct (ranges_move pos T st i b c p s n q' rs start running M Hs Hn Hev Hmin H8 H9 Haft) as (G1 & G2 & G3 & G4 & G5 & G6 & G7).
  exists (mkState q' rs start running), (<[p := S n]> pos), i.
  pose proof (remaining_insert sets pos p s n Hs Hn Hlt) as Hrem.
  split_and!; [| |done].
  - assert (Hwr : running_count st = length sets -> wrap w (i - range_start st) = (i - range_start st)%Z).
    { intros Hr'. destruct (m_start _ _ _ M Hr') as [? _]. apply wrap_id. lia. }
    assert (Hstate : forall (b0 : bool), b = b0 -> (if b0 then
         (ranges st, if S (running_count st) =? length sets then i else range_start st, S (running_count st), c)
       else (if running_count st =? length sets then ranges st ++ [(range_start st, wrap w (i - range_start st))] else ranges st,
         range_start st, pred (running_count st), S c)) = (rs, start, running, next)).
    { intros b0 <-. unfold after_event in Haft. unfold next. destruct b; [by apply pair_equal_spec in Haft as [[<- <-]%pair_equal_spec <-]|].
      destruct (Nat.eqb_spec (running_count st) (length sets)) as [Hr'|]; [rewrite Hwr by done|]; by apply pair_equal_spec in Haft as [[<- <-]%pair_equal_spec <-]. }
    rewrite (Hstate b eq_refl). clear Hstate.
    unfold q', next_event. rewrite Hnext, Hbn. destruct (Nat.eqb_spec (length s) next) as [Heq|Hneq]; cbn [negb].
    + rewrite lookup_ge_None_2 by lia. done.
    + assert (Hnl : next < length s) by (unfold next in *; apply lookup_lt_Some in Hr; destruct b; lia).
      destruct (lookup_lt_is_Some_2 s next Hnl) as [r' Hr']. rewrite (proj2 (vec_at_Ok s next r') Hr'), Hr'. cbn [mbind outcome_bind].
      rewrite Forall_lookup in Hall. destruct (Hall _ _ Hr') as ((? & ? & ?) & ?). rewrite wrap_id by lia. done.
  - split; try done.
    + pose proof (m_size _ _ _ M). pose proof (m_remaining _ _ _ M). cbn. lia.
    + pose proof (m_remaining _ _ _ M). lia.
Qed.
End intersection.

Lemma intersect_loop_spec w sets fuel : forall pos T st,
  (0 <= w)%Z -> Forall (canonical w) sets -> merged w sets pos T st -> remaining sets pos <= fuel ->
  exists st' pos' T', intersect_loop w fuel sets st = Ok st' /\ merged w sets pos' T' st' /\ queue_ st' = [].
Proof.
  induction fuel as [|fuel IH]; intros pos T st Hw Hcan M Hf.
  - cbn [intersect_loop]. destruct (queue_ st) as [|e q] eqn:Hq; [cbn; eauto 6|]. exfalso.
    destruct (intersect_step_spec w sets Hw Hcan pos T st M) as (_ & pos' & _ & _ & _ & Hrem); [by rewrite Hq|]. lia.
  - cbn [intersect_loop]. destruct (queue_ st) as [|e q] eqn:Hq; [cbn; eauto 6|]. cbn [VectorPriorityQueue.empty].
    destruct (intersect_step_spec w sets Hw Hcan pos T st M) as (st' & pos' & T' & -> & M' & Hrem); [by rewrite Hq|].
    cbn [mbind outcome_bind]. apply (IH pos' T'); [done..|lia].
Qed.

Definition first_index (s : list Range) : Z := match s with r :: _ => r.1 | [] => 0%Z end.

Lemma first_elements_spec sets : forall p q,
  VectorPriorityQueue.heap heap_greater q -> Forall (λ s, s <> []) sets ->
  exists q', first_elements p sets q = Ok q' /\ VectorPriorityQueue.heap heap_greater q' /\
    q' ≡ₚ imap (λ k s, (first_index s, true, 0, p + k)) sets ++ q.
Proof.
  induction sets as [|s sets IH]; intros p q Hq Hne; cbn [first_elements]; [by exists q|].
  apply Forall_cons in Hne as [Hs Hne]. destruct s as [|r s]; [done|].
  destruct (VectorPriorityQueue.emplace_spec heap_greater q (r.1, true, 0, p) Hq) as [Hh Hp].
  destruct (IH (S p) _ Hh Hne) as (q' & -> & Hh' & Hp'). exists q'. split_and!; [done|done|].
  rewrite Hp', Hp. cbn [imap]. rewrite <-Permutation_middle. cbn [app first_index]. rewrite Nat.add_0_r. apply Permutation_skip.
  apply Permutation_app_tail. apply Permutation_refl'. apply imap_ext. intros k x _. cbn. f_equal. lia.
Qed.

Lemma merged_start w sets junk q :
  (0 <= w)%Z -> Forall (canonical w) sets -> sets <> [] -> Forall (λ s, s <> []) sets ->
  VectorPriorityQueue.heap heap_greater q -> q ≡ₚ imap (λ k s, (first_index s, true, 0, k)) sets ->
  merged w sets (replicate (length sets) 0) 0 (mkState q [] junk 0).
Proof.
  intros Hw Hcan Hsets Hne Hh Hq.
  assert (Hlook : forall p n, replicate (length sets) 0 !! p = Some n -> n = 0) by (intros p n [-> _]%lookup_replicate; done).
  assert (Hel : forall e, e ∈ q <-> exists p s, sets !! p = Some s /\ e = (first_index s, true, 0, p)).
  { intros e. rewrite Hq, list_elem_of_lookup. setoid_rewrite list_lookup_imap. split.
    - intros [p Hp]. destruct (sets !! p) as [s|] eqn:Hs; [|done]. injection Hp as <-. eauto.
    - intros (p & s & Hs & ->). exists p. by rewrite Hs. }
  assert (Hev : forall p s, sets !! p = Some s -> next_event s 0 = Some (first_index s, true, 0)).
  { intros p s Hs. rewrite Forall_lookup in Hne. specialize (Hne p s Hs). by destruct s. }
  assert (H0 : 0 <> length sets) by (by destruct sets).
  assert (Hpos : forall p s, sets !! p = Some s -> (0 <= first_index s)%Z).
  { intros p s Hs. rewrite Forall_lookup in Hcan, Hne. specialize (Hne p s Hs). destruct (Hcan p s Hs) as [Hall _].
    destruct s as [|r s]; [done|]. apply Forall_cons in Hall as [[(? & ? & ?) ?] _]. cbn. lia. }
  assert (Hdec : decided sets 0 (mkState q [] junk 0) = 0%Z).
  { unfold decided. cbn [running_count range_start]. by rewrite (proj2 (Nat.eqb_neq _ _) H0). }
  split; cbn [queue_ ranges running_count range_start]; rewrite ?Hdec.
  - apply length_replicate.
  - intros p s n _ ->%Hlook. lia.
  - done.
  - intros i b c p (p' & s & Hs & [= -> -> -> ->])%Hel. exists s, 0. split_and!; [done| |by eapply Hev].
    apply lookup_replicate. split; [done|]. by eapply lookup_lt_Some.
  - intros p s n i b c Hs ->%Hlook He. rewrite (Hev p s Hs) in He. injection He as <- <- <-. apply Hel. eauto.
  - rewrite Hq, fmap_imap. apply NoDup_alt. intros a b x. rewrite !list_lookup_imap.
    destruct (sets !! a), (sets !! b); cbn; try done. by intros [= <-] [= <-].
  - intros p s n m i b c _ ->%Hlook Hm. lia.
  - apply Forall_forall. intros e (p & s & Hs & ->)%Hel. cbn. by eapply Hpos.
  - split; [lia|]. apply Z.pow_pos_nonneg; lia.
  - rewrite list_filter_none; [done|]. apply Forall_replicate. done.
  - constructor.
  - constructor.
  - constructor.
  - done.
  - intros x Hx. rewrite covers_nil. split; [done|]. intros Hall. exfalso. unfold in_all in Hall.
    destruct sets as [|s sets']; [done|]. apply Forall_cons in Hall as [Hc _]. apply Exists_exists in Hc as (r & Hr & Hx1 & _).
    apply Forall_cons in Hcan as [[Hc _] _]. rewrite Forall_forall in Hc. destruct (Hc r Hr) as ((? & _) & _). lia.
  - cbn. lia.
  - rewrite remaining_start. lia.
Qed.

(** When all events are processed every index is decided. *)
Lemma merged_end w sets pos T st :
  sets <> [] -> merged w sets pos T st -> queue_ st = [] -> forall x, covers (ranges st) x <-> in_all sets x.
Proof.
  intros Hne M Hq. assert (Hend : forall p s n, sets !! p = Some s -> pos !! p = Some n -> n = 2 * length s).
  { intros p s n Hs Hn. pose proof (m_pos _ _ _ _ _ M p s n Hs Hn). destruct (decide (n = 2 * length s)); [done|]. exfalso.
    destruct (next_event_lt s n ltac:(lia)) as [[[i b] c] He]. pose proof (m_queued _ _ _ _ _ M p s n i b c Hs Hn He) as Hin.
    rewrite Hq in Hin. by apply not_elem_of_nil in Hin. }
  destruct sets as [|s0 sets0] eqn:Hsets; [done|]. rewrite <-Hsets in *.
  destruct (lookup_lt_is_Some_2 pos 0) as [n0 Hn0]; [rewrite (m_len _ _ _ _ _ M), Hsets; cbn; lia|].
  assert (Hs0 : sets !! 0 = Some s0) by (by rewrite Hsets). pose proof (Hend 0 s0 n0 Hs0 Hn0) as Hn0'.
  assert (Hr : running_count st <> length sets).
  { rewrite (m_count _ _ _ _ _ M), <-(m_len _ _ _ _ _ M), odd_count_all, Forall_lookup. intros Hall. specialize (Hall 0 n0 Hn0).
    rewrite Hn0', Nat.odd_even in Hall. done. }
  assert (Hd : decided sets T st = T) by (unfold decided; by rewrite (proj2 (Nat.eqb_neq _ _) Hr)).
  intros x. destruct (decide (x < T)%Z) as [Hlt|Hge]; [apply (m_covers _ _ _ _ _ M); by rewrite Hd|]. split; intros Hx; exfalso.
  - apply Exists_exists in Hx as (r & Hin & H1 & H2). pose proof (m_before _ _ _ _ _ M) as Hb. rewrite Hd, Forall_forall in Hb.
    specialize (Hb r Hin). cbn in Hb. lia.
  - unfold in_all in Hx. rewrite Forall_lookup in Hx. specialize (Hx 0 s0 Hs0).
    apply (inside_odd s0 n0 x) in Hx; [rewrite Hn0', Nat.odd_even in Hx; done|lia| |].
    + intros m i b c Hm He. pose proof (m_past _ _ _ _ _ M 0 s0 n0 m i b c Hs0 Hn0 Hm He). lia.
    + intros m i b c Hm He%next_event_ge. lia.
Qed.

(** C31: The intersection of sets of ranges is the set of the indices that are
    in all of them: the merge of the ends of the ranges through the heap
    terminates, none of its accesses is out of range, and its result is in
    canonical form (sorted ranges with gaps between them). *)
Theorem RangeSet_Intersection_spec w sort `{!StdSort sort} junk sets :
  (0 <= w)%Z -> Forall (canonical w) sets -> sets <> [] -> Forall (λ s, s <> []) sets ->
  (2 * Z.of_nat (length (concat sets)) < 2 ^ w)%Z ->
  exists s, Intersection w sort junk sets = Ok s /\ canonical w s /\
    forall x, covers s x <-> Forall (λ s', covers s' x) sets.
Proof.
  intros Hw Hcan Hsets Hne Hsize. unfold Intersection.
  destruct (first_elements_spec sets 0 []) as (q & -> & Hh & Hq); [by intros j Hj a b Ha|done|]. cbn [mbind outcome_bind].
  rewrite app_nil_r in Hq. pose proof (merged_start w sets junk q Hw Hcan Hsets Hne Hh Hq) as M0.
  destruct (intersect_loop_spec w sets (2 * length (concat sets)) _ _ _ Hw Hcan M0) as (st & pos & T & -> & M & Hnil);
    [by rewrite remaining_start|]. cbn [mbind outcome_bind].
  destruct (construct_covers w sort Hw (ranges st)) as (s & Hs & Hc & Hcov).
  - apply M.
  - eapply apart_no_nesting; [done|apply M..].
  - pose proof (m_size _ _ _ _ _ M). lia.
  - exists s. split_and!; [exact Hs|done|]. intros x. rewrite Hcov. by apply (merged_end w sets pos T st).
Qed.

Lemma RangeSet_Intersection_spec_witness :
  let sets := [[(0, 10); (20, 5)]; [(2, 3); (7, 15)]; [(1, 30)]]%Z in
  exists s, Intersection 64 merge_sort_by 0 sets = Ok s /\ canonical 64 s /\
    forall x, covers s x <-> Forall (λ s', covers s' x) sets.
Proof.
  intros sets. apply (RangeSet_Intersection_spec 64 merge_sort_by 0 sets); [lia| |done| |vm_compute; reflexivity].
  - repeat (constructor || (unfold valid_range; cbn; lia)).
  - by repeat constructor.
Defined.

(** A set built from ranges is in canonical form and decides membership.
    An index is in it exactly when the last range, in the order of the first
    index and then the length, that starts at or before the index contains it;
    so the set is the union of the ranges as long as no range ends after one
    that starts later.  Two sets with the same indices are equal, and
    [ContainsIndex] finds by binary search whether an index is in the set. *)
Theorem RangeSet_construct_spec sort `{!StdSort sort} l :
  Forall (valid_range 64) l -> (Z.of_nat (length l) < 2 ^ 64)%Z ->
  exists s, construct 64 sort l false = Ok s /\ canonical 64 s /\
    (forall x, covers s x <-> exists r, owner (sort _ range_less l) x = Some r /\ in_range x r) /\
    (no_nesting l -> forall x, covers s x <-> covers l x) /\
    (forall s', canonical 64 s' -> (forall x, covers s x <-> covers s' x) -> s = s') /\
    (forall x, exists b, ContainsIndex s x = Ok b /\ (b = true <-> covers s x)).
Proof.
  intros Hv Hlen. destruct (construct_spec 64 sort ltac:(lia) l false Hv ltac:(done) Hlen) as (s & Hs & Hc & Hcov).
  exists s. split_and!; [done|done|done| | |].
  - intros Hn. destruct (construct_covers 64 sort ltac:(lia) l Hv Hn Hlen) as (s' & Hs' & _ & Hcov'). rewrite Hs in Hs'.
    by injection Hs' as <-.
  - intros s' Hc'. by apply (canonical_unique 64).
  - intros x. by apply ContainsIndex_covers.
Qed.

Lemma RangeSet_construct_spec_witness :
  let l := [(5, 2); (0, 3); (3, 1); (9, 1)]%Z in
  exists s, construct 64 merge_sort_by l false = Ok s /\ canonical 64 s /\
    (forall x, covers s x <-> exists r, owner (merge_sort_by _ range_less l) x = Some r /\ in_range x r) /\
    (no_nesting l -> forall x, covers s x <-> covers l x) /\
    (forall s', canonical 64 s' -> (forall x, covers s x <-> covers s' x) -> s = s') /\
    (forall x, exists b, ContainsIndex s x = Ok b /\ (b = true <-> covers s x)).
Proof.
  intros l. apply (RangeSet_construct_spec merge_sort_by l); [|vm_compute; reflexivity].
  repeat (constructor || (unfold valid_range; cbn; lia)).
Defined.

(** A range inside another one cuts the end of the outer one off: the union
    of the set of 0 to 9 and the set of 2 to 4 does not contain 7. *)
Theorem Union_loses_indices :
  Union 64 merge_sort_by [[(0, 10)]; [(2, 3)]]%Z = Ok [(0, 5)]%Z /\ covers [(0, 10)]%Z 7 /\ ~ covers [(0, 5)]%Z 7.
Proof.
  split; [vm_compute; reflexivity|]. rewrite !covers_cons, !covers_nil. unfold in_range. cbn. lia.
Qed.

(** An empty set stops the intersection instead of making it empty. *)
Theorem Intersection_dies_on_empty w sort junk sets :
  Exists (λ s, s = []) sets -> Intersection w sort junk sets = Fail CheckFailed.
Proof.
  intros He. unfold Intersection. assert (Hf : forall p q, first_elements p sets q = Fail CheckFailed); [|by rewrite Hf].
  induction sets as [|s sets IH]; [by apply Exists_nil in He|]. intros p q. cbn [first_elements].
  apply Exists_cons in He as [->|He]; [done|]. destruct s; [done|]. by apply IH.
Qed.
