(* ===== verification/PackedVector.v ===== *)
(** Model of [ImmutablePackedIntVector] ([src/src/num_col.h],
    [src/src/num_col.cc]): [int64_t] values as offsets from their minimum in as
    few bytes as the largest offset needs, after a zig-zag encoding when some
    are negative. *)

From S2P Require Import Prelude.

Local Open Scope Z_scope.

(** Two's complement: the conversion to [int64_t]. *)
Definition i64 (x : Z) : Z := let y := u64 x in if y <? 2 ^ 63 then y else y - 2 ^ 64.

Definition is_i64 (x : Z) : Prop := - 2 ^ 63 <= x < 2 ^ 63.

Lemma i64_id x : is_i64 x -> i64 x = x.
Proof.
  unfold i64, u64, wrap, is_i64. intros Hx. destruct (Z.ltb_spec x 0) as [Hneg|Hpos].
  - replace (x mod 2 ^ 64) with (x + 2 ^ 64) by (apply (Z.mod_unique x (2 ^ 64) (-1)); lia).
    rewrite (proj2 (Z.ltb_ge _ _)); lia.
  - rewrite Z.mod_small by lia. rewrite (proj2 (Z.ltb_lt _ _)); lia.
Qed.

Lemma u64_eq x y : (exists k, x = y + k * 2 ^ 64) -> u64 x = u64 y.
Proof. intros [k ->]. unfold u64, wrap. by rewrite Z.mod_add. Qed.

Lemma i64_u64 x : i64 (u64 x) = i64 x.
Proof. unfold i64, u64. by rewrite wrap_idemp. Qed.

Lemma u64_i64 x : u64 (i64 x) = u64 x.
Proof.
  unfold i64. cbn zeta. destruct (u64 x <? 2 ^ 63).
  - unfold u64. by rewrite wrap_idemp.
  - transitivity (u64 (u64 x)); [apply u64_eq; exists (-1); lia|]. unfold u64. by rewrite wrap_idemp.
Qed.

(** [memcpy] of the [n] low bytes of an integer, and back (little endian). *)
Fixpoint le_bytes (n : nat) (v : Z) : list Z :=
  match n with
  | O => []
  | S n' => v mod 256 :: le_bytes n' (v / 256)
  end.

Fixpoint le_value (l : list Z) : Z :=
  match l with
  | [] => 0
  | b :: l' => b + 256 * le_value l'
  end.

Module PackedVector.

Record t := mk {
  base_ : Z;
  bytes_per_num_ : nat;
  zig_zagged_ : bool;
  data_ : list Z;
  min_ : Z;
  max_ : Z
}.

(** [HasNegativeValues] of [src/src/common.h]. *)
Fixpoint HasNegativeValues (values : list Z) : bool :=
  match values with
  | [] => false
  | v :: rest => if v <? 0 then true else HasNegativeValues rest
  end.

(** [(v << 1) ^ (v >> 63)]. *)
Definition zig_zag (v : Z) : Z := Z.lxor (i64 (Z.shiftl v 1)) (Z.shiftr v 63).
Definition ZigZagEncode (values : list Z) : list Z := zig_zag <$> values.

(** [(v >> 1) ^ (-(v & 1))] on [uint64_t]. *)
Definition ZigZagDecode (v : Z) : Z := i64 (Z.lxor (Z.shiftr v 1) (u64 (- Z.land v 1))).

(** [*std::min_element], [*std::max_element] of a vector that is not empty. *)
Definition min_element (values : list Z) : Z :=
  match values with [] => 0 | v :: rest => fold_left (λ m x, if x <? m then x else m) rest v end.
Definition max_element (values : list Z) : Z :=
  match values with [] => 0 | v :: rest => fold_left (λ m x, if m <? x then x else m) rest v end.

(** [v -= base_]: the subtraction is one of [uint64_t]. *)
Definition Rebase (base : Z) (values : list Z) : list Z := (λ v, i64 (u64 (v - base))) <$> values.

(** [for (bytes_per_num_ = 1; bytes_per_num_ < 8; ++bytes_per_num_)]. *)
Fixpoint bytes_needed (fuel b : nat) (max : Z) : nat :=
  match fuel with
  | O => b
  | S fuel' => if max <? Z.shiftl 1 (Z.of_nat (b * 8)) then b else bytes_needed fuel' (S b) max
  end.

(** The constructor and [Init]; without values the extremes are not set. *)
Definition construct (junk_min junk_max : Z) (values : list Z) : t :=
  match values with
  | [] => mk 0 1 false [] junk_min junk_max
  | _ =>
      let max_ := max_element values in
      let min_ := min_element values in
      let zig_zagged := HasNegativeValues values in
      let values := if zig_zagged then ZigZagEncode values else values in
      let base := u64 (min_element values) in
      let values := Rebase base values in
      let max := u64 (max_element values) in
      let bytes_per_num := bytes_needed 7 1 max in
      mk base bytes_per_num zig_zagged (concat ((λ v, le_bytes bytes_per_num (u64 v)) <$> values)) min_ max_
  end.

Definition size (v : t) : nat := (length (data_ v) / bytes_per_num_ v)%nat.

(** The masks: [kOneByteMask] to [kSevenByteMask]. *)
Definition mask (bytes : nat) : Z := Z.shiftl 1 (Z.of_nat (bytes * 8)) - 1.

(** [bytes_per_num_ * index], a product of [uint64_t]. *)
Definition byte_index (v : t) (index : nat) : nat :=
  Z.to_nat (u64 (Z.of_nat (bytes_per_num_ v) * Z.of_nat index)).

Definition RawValueAtIndex (v : t) (index : nat) : outcome Z :=
  let byte_index := byte_index v index in
  _ ← check (byte_index <? length (data_ v))%nat;
  let copied := le_value (take (bytes_per_num_ v) (drop byte_index (data_ v))) in
  if (8 <? length (data_ v) - byte_index)%nat then
    let word := le_value (take 8 (drop byte_index (data_ v))) in
    match bytes_per_num_ v with
    | 1%nat | 2%nat | 3%nat | 4%nat | 5%nat | 6%nat | 7%nat => Ok (Z.land word (mask (bytes_per_num_ v)))
    | 8%nat => Ok word
    | _ => Ok copied
    end
  else Ok copied.

Definition at_ (v : t) (index : nat) : outcome Z :=
  raw ← RawValueAtIndex v index;
  let v' := u64 (base_ v + raw) in
  Ok (if zig_zagged_ v then ZigZagDecode v' else i64 v').

Definition min_value (v : t) : Z := min_ v.
Definition max_value (v : t) : Z := max_ v.

(** [sizeof(this)] is the size of a pointer. *)
Definition ByteEstimate (v : t) : Z := 8 + Z.of_nat (length (data_ v)).
End PackedVector.

Import PackedVector.

(** ** Bytes *)

Lemma length_le_bytes n v : length (le_bytes n v) = n.
Proof. revert v. induction n as [|n IH]; intros v; cbn; [done|]. by rewrite IH. Qed.

Lemma le_bytes_byte n v : Forall (λ b, 0 <= b < 256) (le_bytes n v).
Proof. revert v. induction n as [|n IH]; intros v; cbn; constructor; [apply Z.mod_pos_bound; lia|apply IH]. Qed.

Lemma le_value_bound l : Forall (λ b, 0 <= b < 256) l -> 0 <= le_value l < 2 ^ (8 * Z.of_nat (length l)).
Proof.
  induction 1 as [|b l Hb _ IH]; [cbn; lia|]. cbn [le_value length].
  replace (8 * Z.of_nat (S (length l))) with (8 + 8 * Z.of_nat (length l)) by lia. rewrite Z.pow_add_r by lia. lia.
Qed.

Lemma le_value_bytes n v : 0 <= v < 2 ^ (8 * Z.of_nat n) -> le_value (le_bytes n v) = v.
Proof.
  revert v. induction n as [|n IH]; intros v Hv; cbn [le_bytes le_value]; [cbn in Hv; lia|].
  replace (8 * Z.of_nat (S n)) with (8 + 8 * Z.of_nat n) in Hv by lia. rewrite Z.pow_add_r in Hv by lia.
  rewrite IH.
  - pose proof (Z.div_mod v 256). lia.
  - split; [apply Z.div_pos; lia|]. apply Z.div_lt_upper_bound; lia.
Qed.

Lemma le_value_app a b : le_value (a ++ b) = le_value a + 2 ^ (8 * Z.of_nat (length a)) * le_value b.
Proof.
  induction a as [|x a IH]; [cbn; lia|]. cbn [app le_value length]. rewrite IH.
  replace (8 * Z.of_nat (S (length a))) with (8 + 8 * Z.of_nat (length a)) by lia. rewrite Z.pow_add_r by lia. lia.
Qed.

Lemma byte_mask_mod x b : Z.land x (mask b) = x mod 2 ^ (8 * Z.of_nat b).
Proof.
  unfold mask. rewrite Z.shiftl_1_l. replace (Z.of_nat (b * 8)) with (8 * Z.of_nat b) by lia.
  rewrite <-Z.land_ones by lia. f_equal. rewrite Z.ones_equiv. lia.
Qed.

(** The first bytes of a word, by masking. *)
Lemma masked_prefix b l :
  (b <= 8)%nat -> (b <= length l)%nat -> Forall (λ b, 0 <= b < 256) l ->
  Z.land (le_value (take 8 l)) (mask b) = le_value (take b l).
Proof.
  intros Hb Hl Hall. rewrite byte_mask_mod.
  assert (Hsplit : take 8 l = take b l ++ take (8 - b) (drop b l)).
  { rewrite <-(take_drop b l) at 1. rewrite take_app_ge; rewrite length_take; [|lia]. do 2 f_equal. lia. }
  rewrite Hsplit, le_value_app, length_take, Nat.min_l by done.
  rewrite (Z.mul_comm (2 ^ _)), Z.mod_add by (apply Z.pow_nonzero; lia).
  apply Z.mod_small. pose proof (le_value_bound (take b l) (Forall_take _ _ _ Hall)) as Hbd.
  by rewrite length_take, Nat.min_l in Hbd by done.
Qed.

(** One of several blocks of the same length. *)
Lemma drop_blocks {A B} (f : A -> list B) b (l : list A) i x :
  (forall x, length (f x) = b) -> l !! i = Some x -> take b (drop (b * i) (concat (f <$> l))) = f x.
Proof.
  intros Hf. revert i. induction l as [|y l IH]; intros [|i] Hx; try done; cbn [fmap list_fmap concat].
  - injection Hx as ->. rewrite Nat.mul_0_r, drop_0. rewrite <-(Hf x). apply take_app_length.
  - cbn in Hx. replace (b * S i)%nat with (length (f y) + b * i)%nat by (rewrite Hf; lia). rewrite drop_app_add. by apply IH.
Qed.

Lemma length_blocks {A B} (f : A -> list B) b (l : list A) :
  (forall x, length (f x) = b) -> length (concat (f <$> l)) = (b * length l)%nat.
Proof. intros Hf. induction l as [|y l IH]; cbn; [lia|]. rewrite length_app, Hf. cbn in IH. rewrite IH. lia. Qed.

(** ** Zig-zag encoding *)

Lemma zig_zag_spec v : - 2 ^ 62 <= v < 2 ^ 62 -> zig_zag v = if v <? 0 then - 2 * v - 1 else 2 * v.
Proof.
  intros Hv. unfold zig_zag. rewrite Z.shiftl_mul_pow2, Z.shiftr_div_pow2 by lia.
  rewrite i64_id by (unfold is_i64; lia). destruct (Z.ltb_spec v 0).
  - replace (v / 2 ^ 63) with (-1) by (apply (Z.div_unique v (2 ^ 63) (-1) (v + 2 ^ 63)); lia).
    rewrite Z.lxor_m1_r. unfold Z.lnot. lia.
  - rewrite (Z.div_small v) by lia. rewrite Z.lxor_0_r. lia.
Qed.

Lemma lxor_ones64 a : 0 <= a < 2 ^ 64 -> Z.lxor a (2 ^ 64 - 1) = 2 ^ 64 - 1 - a.
Proof.
  intros Ha. change (2 ^ 64 - 1) with (Z.ones 64). rewrite Z.sub_nocarry_ldiff.
  - apply Z.bits_inj'. intros n Hn. rewrite Z.lxor_spec, Z.ldiff_spec.
    destruct (Z.ltb_spec n 64).
    + rewrite Z.ones_spec_low by lia. by destruct (Z.testbit a n).
    + rewrite Z.ones_spec_high by lia. rewrite <-(Z.mod_small a (2 ^ 64)) by lia. by rewrite Z.mod_pow2_bits_high by lia.
  - rewrite Z.ldiff_ones_r by lia. rewrite Z.shiftr_div_pow2, Z.div_small by lia. apply Z.shiftl_0_l.
Qed.

Lemma zig_zag_roundtrip v : - 2 ^ 62 <= v < 2 ^ 62 -> ZigZagDecode (zig_zag v) = v.
Proof.
  intros Hv. rewrite zig_zag_spec by done. unfold ZigZagDecode. rewrite Z.shiftr_div_pow2, (Z.land_ones _ 1) by lia.
  destruct (Z.ltb_spec v 0).
  - replace ((-2 * v - 1) mod 2 ^ 1) with 1 by (apply (Z.mod_unique _ _ (- v - 1)); lia).
    replace ((-2 * v - 1) / 2 ^ 1) with (- v - 1) by (apply (Z.div_unique _ _ _ 1); lia).
    change (u64 (-1)) with (2 ^ 64 - 1). rewrite lxor_ones64 by lia. rewrite <-i64_u64.
    rewrite (u64_eq _ v); [|exists 1; lia]. rewrite i64_u64. apply i64_id. unfold is_i64. lia.
  - replace ((2 * v) mod 2 ^ 1) with 0 by (apply (Z.mod_unique _ _ v); lia).
    replace ((2 * v) / 2 ^ 1) with v by (apply (Z.div_unique _ _ _ 0); lia).
    change (u64 (- 0)) with 0. rewrite Z.lxor_0_r. apply i64_id. unfold is_i64. lia.
Qed.

(** ** Extremes *)

Lemma min_element_spec l :
  l <> [] -> min_element l ∈ l /\ Forall (λ x, min_element l <= x) l.
Proof.
  destruct l as [|v l]; [done|]. intros _. cbn [min_element].
  assert (H : forall l v, fold_left (λ m x, if x <? m then x else m) l v ∈ v :: l /\
                Forall (λ x, fold_left (λ m x, if x <? m then x else m) l v <= x) (v :: l)); [|apply H].
  clear. induction l as [|x l IH]; intros v; cbn [fold_left]; [split; [left|repeat constructor; lia]|].
  destruct (IH (if x <? v then x else v)) as [Hin Hall]. apply Forall_cons in Hall as [Hv Hall].
  set (m := fold_left _ l _) in *. destruct (Z.ltb_spec x v); split.
  - apply elem_of_cons in Hin as [->|Hin]; [right; left|right; by right].
  - repeat constructor; [lia|lia|done].
  - apply elem_of_cons in Hin as [->|Hin]; [left|right; by right].
  - repeat constructor; [lia|lia|done].
Qed.

Lemma max_element_spec l :
  l <> [] -> max_element l ∈ l /\ Forall (λ x, x <= max_element l) l.
Proof.
  destruct l as [|v l]; [done|]. intros _. cbn [max_element].
  assert (H : forall l v, fold_left (λ m x, if m <? x then x else m) l v ∈ v :: l /\
                Forall (λ x, x <= fold_left (λ m x, if m <? x then x else m) l v) (v :: l)); [|apply H].
  clear. induction l as [|x l IH]; intros v; cbn [fold_left]; [split; [left|repeat constructor; lia]|].
  destruct (IH (if v <? x then x else v)) as [Hin Hall]. apply Forall_cons in Hall as [Hv Hall].
  set (m := fold_left _ l _) in *. destruct (Z.ltb_spec v x); split.
  - apply elem_of_cons in Hin as [->|Hin]; [right; left|right; by right].
  - repeat constructor; [lia|lia|done].
  - apply elem_of_cons in Hin as [->|Hin]; [left|right; by right].
  - repeat constructor; [lia|lia|done].
Qed.

Lemma HasNegativeValues_spec l : HasNegativeValues l = false <-> Forall (λ v, 0 <= v) l.
Proof.
  induction l as [|v l IH]; cbn; [by split|]. rewrite Forall_cons, <-IH. destruct (Z.ltb_spec v 0); split; (lia || tauto || done).
Qed.

Lemma bytes_needed_spec fuel b max :
  0 <= max < 2 ^ (8 * Z.of_nat (b + fuel)) ->
  (b <= bytes_needed fuel b max <= b + fuel)%nat /\ max < 2 ^ (8 * Z.of_nat (bytes_needed fuel b max)).
Proof.
  revert b. induction fuel as [|fuel IH]; intros b Hm; cbn [bytes_needed]; [rewrite Nat.add_0_r in Hm; lia|].
  rewrite Z.shiftl_1_l. replace (Z.of_nat (b * 8)) with (8 * Z.of_nat b) by lia.
  destruct (Z.ltb_spec max (2 ^ (8 * Z.of_nat b))); [lia|].
  destruct (IH (S b)) as [? ?]; [by replace (S b + fuel)%nat with (b + S fuel)%nat by lia|]. lia.
Qed.

(** ** Reading *)

(** The values that are packed: not negative, and all of them in half of the
    range of the type. *)
Definition packable (values : list Z) : Prop :=
  Forall (λ v, 0 <= v < 2 ^ 63) values \/ Forall (λ v, - 2 ^ 62 <= v < 2 ^ 62) values.

Definition encoded (values : list Z) : list Z := if HasNegativeValues values then ZigZagEncode values else values.

Lemma encoded_range values : packable values -> Forall (λ v, 0 <= v < 2 ^ 63) (encoded values).
Proof.
  intros Hp. unfold encoded. destruct (HasNegativeValues values) eqn:Hn.
  - destruct Hp as [Hp|Hp].
    + assert (Hf : HasNegativeValues values = false); [|congruence]. apply HasNegativeValues_spec.
      eapply Forall_impl; [exact Hp|]. cbn. lia.
    + unfold ZigZagEncode. apply Forall_fmap. eapply Forall_impl; [exact Hp|]. cbn. intros v Hv. rewrite zig_zag_spec by done.
      destruct (Z.ltb_spec v 0); lia.
  - apply HasNegativeValues_spec in Hn. destruct Hp as [Hp|Hp]; [done|].
    rewrite Forall_forall in Hp, Hn |- *. intros v Hv. specialize (Hp v Hv). specialize (Hn v Hv). cbn in *. lia.
Qed.

(** No wrap-around below index 2^61. *)
Lemma byte_index_small v i :
  (bytes_per_num_ v <= 8)%nat -> Z.of_nat i < 2 ^ 61 -> byte_index v i = (bytes_per_num_ v * i)%nat.
Proof.
  intros Hb Hi. unfold byte_index, u64. rewrite wrap_id by nia. lia.
Qed.

Lemma raw_spec v values i x : Z.of_nat i < 2 ^ 61 ->
  (1 <= bytes_per_num_ v <= 8)%nat -> data_ v = concat ((λ x, le_bytes (bytes_per_num_ v) (u64 x)) <$> values) ->
  values !! i = Some x -> 0 <= u64 x < 2 ^ (8 * Z.of_nat (bytes_per_num_ v)) -> RawValueAtIndex v i = Ok (u64 x).
Proof.
  intros H61 Hb Hd Hi Hx. unfold RawValueAtIndex. rewrite byte_index_small by lia. cbn zeta. set (b := bytes_per_num_ v) in *.
  pose proof (length_blocks (λ x, le_bytes b (u64 x)) b values (λ x, length_le_bytes b (u64 x))) as Hlen. rewrite <-Hd in Hlen.
  pose proof (drop_blocks (λ x, le_bytes b (u64 x)) b values i x (λ x, length_le_bytes b (u64 x)) Hi) as Htake. rewrite <-Hd in Htake.
  pose proof (lookup_lt_Some _ _ _ Hi) as Hlt. rewrite (proj2 (Nat.ltb_lt (b * i) (length (data_ v)))) by nia. cbn [check mbind outcome_bind].
  rewrite Htake, (le_value_bytes b (u64 x)) by done.
  destruct (Nat.ltb_spec 8 (length (data_ v) - b * i)) as [Hlong|_]; [|done].
  assert (Hm : Z.land (le_value (take 8 (drop (b * i) (data_ v)))) (mask b) = u64 x).
  { rewrite masked_prefix; [by rewrite Htake, le_value_bytes|lia|rewrite length_drop; nia|].
    apply Forall_drop. rewrite Hd. apply Forall_concat, Forall_fmap, Forall_true. intros y. apply le_bytes_byte. }
  assert (H8 : b = 8%nat -> le_value (take 8 (drop (b * i) (data_ v))) = u64 x).
  { intros Hb8. rewrite Hb8 in Htake, Hx. rewrite Hb8 at 1. by rewrite Htake, (le_value_bytes 8 (u64 x)). }
  assert (Hcases : (b = 8 \/ exists c, b = S c /\ c < 7)%nat) by (destruct b as [|c]; [lia|]; destruct (decide (c < 7)%nat); [right; by exists c|left; lia]).
  clearbody b. destruct Hcases as [->|(c & -> & Hc)]; [by rewrite H8|].
  do 7 (destruct c as [|c]; [by rewrite Hm|]). lia.
Qed.

Lemma packed_vector_spec a b values i :
  values <> [] -> packable values -> Z.of_nat i < 2 ^ 61 ->
  let v := construct a b values in
  at_ v i = match values !! i with Some x => Ok x | None => Fail CheckFailed end /\
  size v = length values /\ (1 <= bytes_per_num_ v <= 8)%nat /\
  Forall (λ x, min_value v <= x <= max_value v) values /\ min_value v ∈ values /\ max_value v ∈ values.
Proof.
  intros Hne Hp H61 v. pose proof (encoded_range values Hp) as He.
  assert (Henc : encoded values <> []) by (unfold encoded, ZigZagEncode; destruct values, HasNegativeValues; done).
  destruct (min_element_spec (encoded values) Henc) as [Hmin1 Hmin2].
  set (m := min_element (encoded values)) in *.
  assert (Hm : 0 <= m < 2 ^ 63) by (rewrite Forall_forall in He; by apply He).
  assert (Hum : u64 m = m) by (unfold u64; apply wrap_id; lia).
  assert (Hoff : Forall (λ x, i64 (u64 (x - u64 m)) = x - m /\ 0 <= x - m < 2 ^ 63) (encoded values)).
  { rewrite Forall_forall in He, Hmin2 |- *. intros x Hx. specialize (He x Hx). specialize (Hmin2 x Hx). cbn in He, Hmin2.
    rewrite Hum, i64_u64. split; [apply i64_id; unfold is_i64; lia|lia]. }
  set (offs := Rebase (u64 m) (encoded values)).
  assert (Hoffs : offs = (λ x, x - m) <$> encoded values).
  { unfold offs, Rebase. apply list_fmap_ext. intros j x Hx. rewrite Forall_lookup in Hoff. by apply (Hoff j x). }
  assert (Hone : offs <> []) by (rewrite Hoffs; by destruct (encoded values)).
  destruct (max_element_spec offs Hone) as [Hmax1 Hmax2]. set (mx := max_element offs) in *.
  assert (Hmx : 0 <= mx < 2 ^ 63).
  { rewrite Hoffs in Hmax1. apply list_elem_of_fmap in Hmax1 as (x & -> & Hx). rewrite Forall_forall in Hoff. by apply Hoff. }
  assert (Hv : v = mk (u64 m) (bytes_needed 7 1 (u64 mx)) (HasNegativeValues values)
                 (concat ((λ x, le_bytes (bytes_needed 7 1 (u64 mx)) (u64 x)) <$> offs)) (min_element values) (max_element values))
    by (unfold v, construct; destruct values; [done|reflexivity]).
  assert (Humx : u64 mx = mx) by (unfold u64; apply wrap_id; lia). rewrite Humx in Hv.
  destruct (bytes_needed_spec 7 1 mx) as [Hb1 Hb2]; [cbn; lia|]. set (bs := bytes_needed 7 1 mx) in *.
  assert (Hlo : length offs = length values).
  { rewrite Hoffs, length_fmap. unfold encoded, ZigZagEncode. destruct (HasNegativeValues values); [apply length_fmap|done]. }
  assert (Hld : length (data_ v) = (bs * length values)%nat).
  { rewrite Hv. cbn [data_]. rewrite (length_blocks _ bs) by (intros; apply length_le_bytes). by rewrite Hlo. }
  destruct (min_element_spec values Hne) as [Hmi Hma], (max_element_spec values Hne) as [Hmi' Hma'].
  split_and!.
  - destruct (values !! i) as [x|] eqn:Hx.
    + set (e := if HasNegativeValues values then zig_zag x else x).
      assert (Hei : encoded values !! i = Some e).
      { unfold encoded, ZigZagEncode, e. destruct (HasNegativeValues values); [by rewrite list_lookup_fmap, Hx|done]. }
      assert (Hoi : offs !! i = Some (e - m)) by (by rewrite Hoffs, list_lookup_fmap, Hei).
      rewrite Forall_lookup in Hoff. destruct (Hoff i e Hei) as [_ Hem].
      assert (Hue : u64 (e - m) = e - m) by (unfold u64; apply wrap_id; lia).
      unfold at_. rewrite (raw_spec v offs i (e - m)); [|done|by rewrite Hv|by rewrite Hv|done|].
      2: { rewrite Hv, Hue. cbn [bytes_per_num_]. split; [lia|]. rewrite Forall_lookup in Hmax2. specialize (Hmax2 i _ Hoi). cbn in Hmax2. lia. }
      cbn [mbind outcome_bind]. rewrite Hv, Hue. cbn [base_ zig_zagged_]. rewrite Hum. replace (m + (e - m)) with e by lia.
      assert (Hee : 0 <= e < 2 ^ 63) by (rewrite Forall_lookup in He; by eapply He).
      replace (u64 e) with e by (symmetry; unfold u64; apply wrap_id; lia). f_equal. unfold e. destruct (HasNegativeValues values) eqn:Hneg.
      * apply zig_zag_roundtrip. destruct Hp as [Hp|Hp]; rewrite Forall_lookup in Hp; [|by eapply Hp]. exfalso.
        assert (Hf : HasNegativeValues values = false); [|congruence]. apply HasNegativeValues_spec, Forall_lookup.
        intros j y Hy. destruct (Hp j y Hy). lia.
      * apply i64_id. unfold is_i64. unfold e in Hee. lia.
    + unfold at_, RawValueAtIndex. rewrite byte_index_small; [|rewrite Hv; cbn [bytes_per_num_]; lia|done].
      rewrite Hld. apply lookup_ge_None in Hx. rewrite Hv. cbn [bytes_per_num_].
      rewrite (proj2 (Nat.ltb_ge (bs * i) (bs * length values))) by nia. done.
  - unfold size. rewrite Hld, Hv. cbn [bytes_per_num_]. rewrite Nat.mul_comm. apply Nat.div_mul. lia.
  - rewrite Hv. cbn [bytes_per_num_]. lia.
  - rewrite Hv. cbn [bytes_per_num_]. lia.
  - rewrite Hv. unfold min_value, max_value. cbn [min_ max_]. rewrite Forall_forall in Hma, Hma' |- *. intros x Hx. split; [by apply Hma|by apply Hma'].
  - by rewrite Hv.
  - by rewrite Hv.
Qed.

(** C32: a packed vector gives back the values it was built from: for [int64_t]
    values that are not negative, or all between -2^62 and 2^62, [at] returns
    each of them, dies at every index below 2^61 outside of the vector (from
    there on the byte index can wrap around, see [PackedVector_index_wraps]),
    [size] is their number and the extremes are theirs, whichever number of
    bytes, base and encoding the constructor chose. *)
Theorem PackedVector_roundtrip a b values i :
  values <> [] -> packable values -> Z.of_nat i < 2 ^ 61 ->
  let v := construct a b values in
  at_ v i = match values !! i with Some x => Ok x | None => Fail CheckFailed end /\
  size v = length values /\ (1 <= bytes_per_num_ v <= 8)%nat /\
  Forall (λ x, min_value v <= x <= max_value v) values /\ min_value v ∈ values /\ max_value v ∈ values.
Proof. apply packed_vector_spec. Qed.

(** With eight bytes for a value the byte index wraps around at index 2^61, and
    [at] returns an element instead of dying. *)
Theorem PackedVector_index_wraps v i j :
  bytes_per_num_ v = 8%nat -> Z.of_nat j = Z.of_nat i + 2 ^ 61 -> at_ v j = at_ v i.
Proof.
  intros Hb Hj. unfold at_, RawValueAtIndex. replace (byte_index v j) with (byte_index v i); [done|].
  unfold byte_index. rewrite Hb, Hj. f_equal. symmetry. apply u64_eq. exists 1. lia.
Qed.

(** The memory a packed vector takes. *)
Lemma bytes_needed_le fuel b max : (bytes_needed fuel b max <= b + fuel)%nat.
Proof. revert b. induction fuel as [|fuel IH]; intros b; cbn [bytes_needed]; [lia|]. destruct (_ <? _)%Z; [lia|]. specialize (IH (S b)). lia. Qed.

Lemma packed_bytes a b values : (ByteEstimate (construct a b values) <= 8 + 8 * Z.of_nat (length values))%Z.
Proof.
  unfold ByteEstimate, construct. destruct values as [|v values]; [cbn; lia|]. cbn [data_].
  match goal with |- context [concat ((λ x, le_bytes ?n (u64 x)) <$> ?l)] =>
    rewrite (length_blocks (λ x, le_bytes n (u64 x)) n l) by (intros; apply length_le_bytes);
    pose proof (bytes_needed_le 7 1 (u64 (max_element l))); assert (length l = length (v :: values)) end.
  { unfold Rebase, ZigZagEncode. rewrite length_fmap. destruct (HasNegativeValues (v :: values)); [apply length_fmap|done]. }
  nia.
Qed.

Lemma PackedVector_roundtrip_witness :
  let v := construct 0 0 [5; -3; 1000; 2 ^ 40] in
  at_ v 1 = Ok (-3) /\ size v = 4%nat /\ (1 <= bytes_per_num_ v <= 8)%nat /\
  Forall (λ x, min_value v <= x <= max_value v) [5; -3; 1000; 2 ^ 40] /\
  min_value v ∈ [5; -3; 1000; 2 ^ 40] /\ max_value v ∈ [5; -3; 1000; 2 ^ 40].
Proof.
  apply (PackedVector_roundtrip 0 0 [5; -3; 1000; 2 ^ 40] 1); [done| |lia]. right. repeat constructor; lia.
Defined.

(** With a negative value and one from 2^62 on the zig-zag encoding overflows
    and the offsets need the sign bit, but the number of bytes is that of the
    largest offset as a signed number: the values are cut to one byte. *)
Theorem PackedVector_corrupts :
  let v := construct 0 0 [-1; 2 ^ 62; 3] in
  bytes_per_num_ v = 1%nat /\ at_ v 0 = Ok (- (2 ^ 62) - 1) /\ at_ v 1 = Ok (2 ^ 62) /\ at_ v 2 = Ok (2 ^ 62 + 3).
Proof. vm_compute. split_and!; reflexivity. Qed.
