(* ===== verification/SortedRuns.v ===== *)
(** Model of [SortedSubsequence] ([src/src/num_col.h]): the maximal runs of a
    column of numbers, and binary search in a run.  The column is anything with
    a size and elements, which the class [Container] states. *)

From S2P Require Import Prelude RangeSet.

(** [Container::size] and [Container::at]. *)
Class Container (C : Type) := {
  c_size : C -> nat;
  c_at : C -> nat -> outcome Z
}.

(** A container holds a sequence of values. *)
Definition holds `{Container C} (c : C) (values : list Z) : Prop :=
  c_size c = length values /\ forall i x, values !! i = Some x -> c_at c i = Ok x.

Module SortedSubsequence.

Record t := mk { range_ : Range; increasing_ : bool }.

Section ops.
Context {C : Type} `{HC : Container C} (w : Z).

(** The constructor. *)
Definition construct (range : Range) (increasing : bool) : outcome t :=
  _ ← check (negb (range.2 =? 0)%Z); Ok (mk range increasing).

(** The variables of the loop of [Get]. *)
Record state := mkState {
  current_range : Range;
  is_increasing : bool;
  is_increasing_set : bool;
  subsequences : list t
}.

Definition get_step (c : C) (st : state) (i : nat) : outcome state :=
  this_value ← c_at c i;
  next_value ← c_at c (i + 1);
  let '(first, second) := current_range st in
  if negb (is_increasing_set st) then
    Ok (mkState (first, wrap w (second + 1)) (this_value <=? next_value)%Z true (subsequences st))
  else if (is_increasing st && (this_value <=? next_value)%Z) || (negb (is_increasing st) && (next_value <=? this_value)%Z) then
    Ok (mkState (first, wrap w (second + 1)) (is_increasing st) true (subsequences st))
  else
    s ← construct (current_range st) (is_increasing st);
    Ok (mkState (wrap w (Z.of_nat (i + 1)), 1%Z) (is_increasing st) false (subsequences st ++ [s])).

Definition Get (c : C) : outcome (list t) :=
  if c_size c =? 0 then Ok []
  else
    st ← mfold (get_step c) (seq 0 (c_size c - 1)) (mkState (0, 1)%Z true false []);
    s ← construct (current_range st) (is_increasing st);
    Ok (subsequences st ++ [s]).

(** [range_.first + range_.second - 1]. *)
Definition last_index (s : t) : Z := wrap w ((range_ s).1 + (range_ s).2 - 1).

Definition MinValue (s : t) (c : C) : outcome Z :=
  c_at c (Z.to_nat (if increasing_ s then (range_ s).1 else last_index s)).
Definition MaxValue (s : t) (c : C) : outcome Z :=
  c_at c (Z.to_nat (if increasing_ s then last_index s else (range_ s).1)).

(** The loop of [Bound]. *)
Fixpoint bound_loop (fuel : nat) (s : t) (c : C) (value : Z) (lower : bool) (count threshold : Z) : outcome Z :=
  if (count =? 0)%Z then Ok threshold
  else
    match fuel with
    | O => Fail OutOfFuel
    | S fuel' =>
        let step := (count / 2)%Z in
        let it := wrap w (if increasing_ s then threshold + step else threshold - step)%Z in
        x ← c_at c (Z.to_nat it);
        if (if lower then (x <? value)%Z else negb (value <? x)%Z) then
          bound_loop fuel' s c value lower (wrap w (count - (step + 1))) (wrap w (if increasing_ s then it + 1 else it - 1)%Z)
        else bound_loop fuel' s c value lower (wrap w step) threshold
    end.

Definition Bound (s : t) (c : C) (value : Z) (lower : bool) : outcome Z :=
  bound_loop (Z.to_nat (range_ s).2) s c value lower (range_ s).2
    (if increasing_ s then (range_ s).1 else last_index s).

Definition IndicesOfValuesInRange (s : t) (c : C) (from to : Z) : outcome Range :=
  _ ← check (from <=? to)%Z;
  lower_from ← Bound s c from true;
  lower_to ← Bound s c to false;
  Ok (if increasing_ s then (lower_from, wrap w (lower_to - lower_from))
      else (wrap w (lower_to + 1), wrap w (lower_from - lower_to))).
End ops.
End SortedSubsequence.

Import SortedSubsequence.

(** A vector is a container. *)
#[global] Instance vector_container : Container (list Z) := {
  c_size := length;
  c_at := vec_at
}.

Lemma vector_holds (l : list Z) : holds l l.
Proof. split; [done|]. intros i x Hx. by apply vec_at_Ok. Qed.

Example subsequences_run :
  Get 16 [1; 2; 2; 5; 4; 1; 7; 8; 3]%Z = Ok [mk (0, 4)%Z true; mk (4, 2)%Z false; mk (6, 2)%Z true; mk (8, 1)%Z true] /\
  IndicesOfValuesInRange 16 (mk (0, 4)%Z true) [1; 2; 2; 5; 4; 1; 7; 8; 3]%Z 2 4 = Ok (1, 2)%Z /\
  IndicesOfValuesInRange 16 (mk (0, 3)%Z false) [9; 7; 5; 8]%Z 6 20 = Ok (0, 2)%Z.
Proof. vm_compute. split_and!; reflexivity. Qed.

(** ** Binary search *)

Lemma wrap_add_l w x y : (0 <= w)%Z -> wrap w (wrap w x + y) = wrap w (x + y)%Z.
Proof. intros Hw. unfold wrap. apply Z.add_mod_idemp_l. apply Z.pow_nonzero; lia. Qed.

Lemma wrap_sub_l w x y : (0 <= w)%Z -> wrap w (wrap w x - y) = wrap w (x - y)%Z.
Proof. intros Hw. rewrite <-!Z.add_opp_r. by apply wrap_add_l. Qed.

Lemma wrap_sub_r w x y : (0 <= w)%Z -> wrap w (x - wrap w y) = wrap w (x - y)%Z.
Proof. intros Hw. unfold wrap. apply Zminus_mod_idemp_r. Qed.

Section search.
Context {C : Type} `{HC : Container C} (w : Z) (c : C) (values : list Z).
Hypothesis Hw : (0 <= w)%Z.
Hypothesis Hheld : holds c values.
Hypothesis Hlen : (Z.of_nat (length values) < 2 ^ w)%Z.

Definition val (x : Z) : Z := default 0%Z (values !! Z.to_nat x).

Definition in_order (increasing : bool) (x y : Z) : Prop := if increasing then (x <= y)%Z else (y <= x)%Z.

(** A run: not empty, inside of the column, and in its order. *)
Record run_ok (s : SortedSubsequence.t) : Prop := {
  run_first : (0 <= (range_ s).1)%Z;
  run_size : (0 < (range_ s).2)%Z;
  run_end : ((range_ s).1 + (range_ s).2 <= Z.of_nat (length values))%Z;
  run_order i j : ((range_ s).1 <= i <= j)%Z -> (j < (range_ s).1 + (range_ s).2)%Z -> in_order (increasing_ s) (val i) (val j)
}.

Lemma at_val x : (0 <= x < Z.of_nat (length values))%Z -> c_at c (Z.to_nat x) = Ok (val x).
Proof using Hheld.
  clear Hw Hlen. intros Hx. destruct (lookup_lt_is_Some_2 values (Z.to_nat x)) as [y Hy]; [lia|]. unfold val. rewrite Hy. by apply Hheld.
Qed.

(** The elements of a run from the smallest to the largest. *)
Definition nth_index (s : SortedSubsequence.t) (k : Z) : Z :=
  if increasing_ s then ((range_ s).1 + k)%Z else ((range_ s).1 + (range_ s).2 - 1 - k)%Z.

Lemma nth_mono s j k :
  run_ok s -> (0 <= j <= k)%Z -> (k < (range_ s).2)%Z -> (val (nth_index s j) <= val (nth_index s k))%Z.
Proof using Type.
  clear Hw Hlen Hheld. intros Hs Hjk Hk. pose proof (run_order s Hs) as Ho. unfold nth_index, in_order in *. destruct (increasing_ s); apply Ho; lia.
Qed.

(** What [Bound] looks for. *)
Definition below (lower : bool) (value x : Z) : bool := if lower then (x <? value)%Z else negb (value <? x)%Z.

Lemma below_spec lower value x : below lower value x = true <-> if lower then (x < value)%Z else (x <= value)%Z.
Proof using Type. unfold below. destruct lower; [apply Z.ltb_lt|rewrite negb_true_iff; apply Z.ltb_ge]. Qed.

Lemma bound_loop_spec s value lower fuel : forall k count,
  run_ok s -> (0 <= k)%Z -> (0 <= count)%Z -> (k + count <= (range_ s).2)%Z -> (count <= Z.of_nat fuel)%Z ->
  (forall j, (0 <= j < k)%Z -> below lower value (val (nth_index s j)) = true) ->
  (forall j, (k + count <= j < (range_ s).2)%Z -> below lower value (val (nth_index s j)) = false) ->
  exists k', bound_loop w fuel s c value lower count (wrap w (nth_index s k)) = Ok (wrap w (nth_index s k')) /\
    (0 <= k' <= (range_ s).2)%Z /\
    forall j, (0 <= j < (range_ s).2)%Z -> below lower value (val (nth_index s j)) = true <-> (j < k')%Z.
Proof using Hw Hheld Hlen.
  induction fuel as [|fuel IH]; intros k count Hs Hk Hc Hle Hf Hlo Hhi.
  - assert (count = 0%Z) as -> by lia. cbn [bound_loop]. exists k. split_and!; [done|lia|lia|].
    intros j Hj. destruct (decide (j < k)%Z) as [Hlt|Hge]; [rewrite Hlo by lia; done|]. rewrite Hhi by lia. split; [done|lia].
  - cbn [bound_loop]. destruct (Z.eqb_spec count 0) as [->|Hnz].
    { exists k. split_and!; [done|lia|lia|].
      intros j Hj. destruct (decide (j < k)%Z) as [Hlt|Hge]; [rewrite Hlo by lia; done|]. rewrite Hhi by lia. split; [done|lia]. }
    pose proof (run_first s Hs) as H1. pose proof (run_end s Hs) as H2.
    assert (Hstep : (0 <= count / 2 < count)%Z) by (split; [apply Z.div_pos; lia|apply Z.div_lt; lia]). set (step := (count / 2)%Z) in *.
    assert (Hit : wrap w (if increasing_ s then (wrap w (nth_index s k) + step)%Z else (wrap w (nth_index s k) - step)%Z) = nth_index s (k + step)).
    { unfold nth_index. destruct (increasing_ s); [rewrite wrap_add_l by done|rewrite wrap_sub_l by done]; rewrite wrap_id; lia. }
    rewrite Hit. assert (Hin : (0 <= nth_index s (k + step) < Z.of_nat (length values))%Z).
    { unfold nth_index. destruct (increasing_ s); lia. }
    rewrite (at_val _ Hin). cbn [mbind outcome_bind]. fold (below lower value (val (nth_index s (k + step)))).
    destruct (below lower value (val (nth_index s (k + step)))) eqn:Hb.
    + rewrite (wrap_id w (count - (step + 1))) by lia.
      replace (wrap w (if increasing_ s then (nth_index s (k + step) + 1)%Z else (nth_index s (k + step) - 1)%Z))
        with (wrap w (nth_index s (k + step + 1))) by (unfold nth_index; destruct (increasing_ s); f_equal; lia).
      apply IH; try done; try lia.
      * intros j Hj. destruct (decide (j = k + step)%Z) as [->|]; [done|].
        rewrite below_spec in Hb |- *. pose proof (nth_mono s j (k + step) Hs). destruct lower; lia.
      * intros j Hj. apply Hhi. lia.
    + rewrite (wrap_id w step) by lia. apply IH; try done; try lia. intros j Hj.
      destruct (decide (j = k + step)%Z) as [->|]; [done|]. apply not_true_is_false. intros Ht. apply not_true_iff_false in Hb.
      apply Hb. rewrite below_spec in Ht |- *. pose proof (nth_mono s (k + step) j Hs). destruct lower; lia.
Qed.

Lemma Bound_spec s value lower :
  run_ok s ->
  exists k, Bound w s c value lower = Ok (wrap w (nth_index s k)) /\ (0 <= k <= (range_ s).2)%Z /\
    forall j, (0 <= j < (range_ s).2)%Z -> below lower value (val (nth_index s j)) = true <-> (j < k)%Z.
Proof using Hw Hheld Hlen.
  intros Hs. pose proof (run_first s Hs). pose proof (run_end s Hs). pose proof (run_size s Hs).
  destruct (bound_loop_spec s value lower (Z.to_nat (range_ s).2) 0 (range_ s).2 Hs) as (k & Hk & Hk2); try lia.
  exists k. split; [|done]. unfold Bound, last_index. rewrite <-Hk. f_equal. unfold nth_index.
  destruct (increasing_ s); [|f_equal; lia]. rewrite wrap_id; lia.
Qed.

(** The part of a run whose values lie in an interval. *)
Lemma IndicesOfValuesInRange_spec s from to :
  run_ok s -> (from <= to)%Z ->
  exists r, IndicesOfValuesInRange w s c from to = Ok r /\ (0 <= r.2)%Z /\ valid_range w r /\
    forall x, in_range x r <-> in_range x (range_ s) /\ (from <= val x <= to)%Z.
Proof using Hw Hheld Hlen.
  intros Hs Hft. pose proof (run_first s Hs) as H1. pose proof (run_end s Hs) as H2.
  unfold IndicesOfValuesInRange. rewrite (proj2 (Z.leb_le _ _) Hft). cbn [check mbind outcome_bind].
  destruct (Bound_spec s from true Hs) as (k1 & -> & Hk1 & Hb1), (Bound_spec s to false Hs) as (k2 & -> & Hk2 & Hb2).
  cbn [mbind outcome_bind].
  assert (Hk : (k1 <= k2)%Z).
  { destruct (decide (k1 <= k2)%Z); [done|]. exfalso. assert (Hj : (0 <= k2 < (range_ s).2)%Z) by lia.
    specialize (Hb1 k2 Hj). specialize (Hb2 k2 Hj). rewrite below_spec in Hb1, Hb2. lia. }
  assert (Hiff : forall j, (0 <= j < (range_ s).2)%Z -> (from <= val (nth_index s j) <= to)%Z <-> (k1 <= j < k2)%Z).
  { intros j Hj. specialize (Hb1 j Hj). specialize (Hb2 j Hj). rewrite below_spec in Hb1, Hb2. lia. }
  eexists. split; [done|]. unfold valid_range, in_range. unfold nth_index in *. destruct (increasing_ s).
  - cbn [fst snd]. rewrite wrap_sub_l, wrap_sub_r by done. rewrite (wrap_id w ((range_ s).1 + k1)) by lia.
    replace ((range_ s).1 + k2 - ((range_ s).1 + k1))%Z with (k2 - k1)%Z by lia. rewrite wrap_id by lia.
    split_and!; [lia|lia|lia|lia|]. intros x. specialize (Hiff (x - (range_ s).1)%Z).
    replace ((range_ s).1 + (x - (range_ s).1))%Z with x in Hiff by lia. lia.
  - cbn [fst snd]. rewrite wrap_add_l, wrap_sub_l, wrap_sub_r by done.
    replace ((range_ s).1 + (range_ s).2 - 1 - k2 + 1)%Z with ((range_ s).1 + (range_ s).2 - k2)%Z by lia.
    replace ((range_ s).1 + (range_ s).2 - 1 - k1 - ((range_ s).1 + (range_ s).2 - 1 - k2))%Z with (k2 - k1)%Z by lia.
    rewrite !wrap_id by lia. split_and!; [lia|lia|lia|lia|]. intros x. specialize (Hiff ((range_ s).1 + (range_ s).2 - 1 - x)%Z).
    replace ((range_ s).1 + (range_ s).2 - 1 - ((range_ s).1 + (range_ s).2 - 1 - x))%Z with x in Hiff by lia. lia.
Qed.
End search.

(** ** The runs of a column *)

#[global] Instance in_range_dec x r : Decision (in_range x r).
Proof. unfold in_range. apply _. Defined.

#[global] Instance covers_dec l x : Decision (covers l x).
Proof. unfold covers. apply _. Defined.

(** How many of the ranges contain an index. *)
Definition mult (x : Z) (l : list Range) : nat := length (filter (in_range x) l).

Lemma mult_app x l1 l2 : mult x (l1 ++ l2) = mult x l1 + mult x l2.
Proof. unfold mult. by rewrite filter_app, length_app. Qed.

Lemma mult_cons x r l : mult x (r :: l) = (if decide (in_range x r) then 1 else 0) + mult x l.
Proof. unfold mult. rewrite filter_cons. by case_decide. Qed.

#[global] Instance mult_proper : Proper ((=) ==> (≡ₚ) ==> (=)) mult.
Proof. intros x ? <- l1 l2 Hl. unfold mult. by rewrite Hl. Qed.

Lemma mult_none x l : Forall (λ r, ~ in_range x r) l -> mult x l = 0.
Proof. intros Hl. unfold mult. by rewrite list_filter_none. Qed.

(** Runs one after the other from index [a] to index [b]. *)
Fixpoint chain (a : Z) (l : list SortedSubsequence.t) (b : Z) : Prop :=
  match l with
  | [] => a = b
  | s :: l' => (range_ s).1 = a /\ (0 < (range_ s).2)%Z /\ chain (a + (range_ s).2) l' b
  end.

Lemma chain_app a l1 l2 b : chain a (l1 ++ l2) b <-> exists m, chain a l1 m /\ chain m l2 b.
Proof.
  revert a. induction l1 as [|s l1 IH]; intros a; cbn [app chain].
  - split; [eauto|]. by intros (m & -> & ?).
  - rewrite IH. split; [intros (? & ? & m & ? & ?); eauto 6|]. intros (m & (? & ? & ?) & ?). eauto 6.
Qed.

Lemma chain_le a l b : chain a l b -> (a <= b)%Z.
Proof. revert a. induction l as [|s l IH]; intros a; cbn; [lia|]. intros (_ & ? & Hc%IH). lia. Qed.

(** Each index is in one run. *)
Lemma chain_mult a l b x : chain a l b -> mult x (range_ <$> l) = if decide (a <= x < b)%Z then 1 else 0.
Proof.
  revert a. induction l as [|s l IH]; intros a; cbn [chain fmap list_fmap].
  - intros ->. rewrite decide_False by lia. done.
  - intros (Hf & Hp & Hc). pose proof (chain_le _ _ _ Hc). rewrite mult_cons, (IH _ Hc). unfold in_range.
    repeat case_decide; lia.
Qed.

Section get.
Context {C : Type} `{HC : Container C} (w : Z) (c : C) (values : list Z).
Hypothesis Hw : (0 <= w)%Z.
Hypothesis Hheld : holds c values.
Hypothesis Hlen : (Z.of_nat (length values) < 2 ^ w)%Z.

Lemma run_single f b : (0 <= f < Z.of_nat (length values))%Z -> run_ok values (mk (f, 1)%Z b).
Proof using Type.
  clear Hw Hlen Hheld. intros Hf. split; cbn; [lia..|]. intros i j Hi Hj. replace j with i by lia. unfold in_order. destruct b; lia.
Qed.

(** A run grows by one element that is in its order. *)
Lemma run_extend f k b :
  run_ok values (mk (f, k) b) -> (f + k < Z.of_nat (length values))%Z ->
  in_order b (val values (f + k - 1)) (val values (f + k)) -> run_ok values (mk (f, k + 1)%Z b).
Proof using Type.
  clear Hw Hlen Hheld. intros [H1 H2 H3 H4] Hlt Ho. split; cbn in *; [lia..|]. intros i j Hi Hj.
  destruct (decide (j = f + k)%Z) as [->|Hne]; [|apply H4; lia]. destruct (decide (i = f + k)%Z) as [->|Hni]; [unfold in_order; destruct b; lia|].
  pose proof (H4 i (f + k - 1)%Z ltac:(lia) ltac:(lia)) as Hi2. unfold in_order in *. destruct b; lia.
Qed.

Record get_inv (m : nat) (st : SortedSubsequence.state) : Prop := {
  g_end : ((current_range st).1 + (current_range st).2 = Z.of_nat m + 1)%Z;
  g_run : run_ok values (mk (current_range st) (is_increasing st));
  g_single : is_increasing_set st = false -> (current_range st).2 = 1%Z;
  g_chain : chain 0 (subsequences st) (current_range st).1;
  g_runs : Forall (run_ok values) (subsequences st)
}.

Lemma get_step_spec m st :
  m + 1 < length values -> get_inv m st -> exists st', get_step w c st m = Ok st' /\ get_inv (S m) st'.
Proof using Hw Hheld Hlen.
  intros Hm [Hend Hrun Hsingle Hch Hruns]. unfold get_step.
  pose proof (at_val c values Hheld (Z.of_nat m) ltac:(lia)) as Ha1. pose proof (at_val c values Hheld (Z.of_nat (m + 1)) ltac:(lia)) as Ha2.
  rewrite Nat2Z.id in Ha1, Ha2. rewrite Ha1, Ha2. cbn [mbind outcome_bind]. clear Ha1 Ha2.
  destruct st as [[f k] inc set subs]. cbn [current_range is_increasing is_increasing_set subsequences fst snd] in *.
  pose proof (run_first _ _ Hrun) as Hf. pose proof (run_size _ _ Hrun) as Hk. cbn in Hf, Hk.
  assert (Hwk : wrap w (k + 1) = (k + 1)%Z) by (apply wrap_id; lia).
  assert (Hm1 : Z.of_nat m = (f + k - 1)%Z) by lia. assert (Hm2 : Z.of_nat (m + 1) = (f + k)%Z) by lia.
  assert (Hgrow : forall b', run_ok values (mk (f, k) b') -> in_order b' (val values (Z.of_nat m)) (val values (Z.of_nat (m + 1))) ->
            get_inv (S m) (mkState (f, k + 1)%Z b' true subs)).
  { intros b' Hr Ho. rewrite Hm1, Hm2 in Ho. split; cbn; [lia| |done|done|done]. apply run_extend; [done|lia|done]. }
  destruct set; cbn [negb].
  - destruct ((inc && (val values (Z.of_nat m) <=? val values (Z.of_nat (m + 1)))%Z) ||
              (negb inc && (val values (Z.of_nat (m + 1)) <=? val values (Z.of_nat m))%Z)) eqn:Hext.
    + rewrite Hwk. eexists. split; [done|]. apply Hgrow; [done|]. unfold in_order.
      destruct inc; cbn in Hext; rewrite ?orb_false_r in Hext; by apply Z.leb_le in Hext.
    + unfold construct. cbn [snd]. rewrite (proj2 (Z.eqb_neq k 0)) by lia. cbn [negb check mbind outcome_bind].
      eexists. split; [done|]. rewrite wrap_id by lia. split; cbn [current_range is_increasing is_increasing_set subsequences fst snd].
      * lia.
      * apply run_single. lia.
      * done.
      * apply chain_app. exists f. split; [done|]. cbn. lia.
      * apply Forall_app. split; [done|]. by constructor.
  - rewrite Hwk. eexists. split; [done|]. rewrite (Hsingle eq_refl) in *. apply Hgrow.
    + apply run_single. lia.
    + unfold in_order. destruct (Z.leb_spec (val values (Z.of_nat m)) (val values (Z.of_nat (m + 1)))); lia.
Qed.

(** The runs partition the column. *)
Lemma Get_spec :
  exists subs, Get w c = Ok subs /\ chain 0 subs (Z.of_nat (length values)) /\ Forall (run_ok values) subs.
Proof using Hw Hheld Hlen.
  unfold Get. destruct Hheld as [Hsize _]. rewrite Hsize. destruct (Nat.eqb_spec (length values) 0) as [Hz|Hnz].
  { exists []. rewrite Hz. split_and!; [done|done|constructor]. }
  destruct (mfold_seq_inv get_inv (get_step w c) (length values - 1) (mkState (0, 1)%Z true false [])) as (st & -> & Hi).
  - split; cbn; [lia|apply run_single; lia|done|done|constructor].
  - intros k st Hk Hst. apply get_step_spec; [lia|done].
  - cbn [mbind outcome_bind]. destruct Hi as [Hend Hrun _ Hch Hruns]. unfold construct.
    pose proof (run_size _ _ Hrun) as Hk. cbn in Hk. rewrite (proj2 (Z.eqb_neq (current_range st).2 0)) by lia.
    cbn [negb check mbind outcome_bind]. eexists. split; [done|]. split.
    + apply chain_app. exists (current_range st).1. split; [done|]. cbn. lia.
    + apply Forall_app. split; [done|]. by constructor.
Qed.
End get.
