(* ===== verification/ColumnIndex.v ===== *)
(** Model of the two indices of a column ([src/src/num_col.h]): [BasicIndex],
    the ranges of indices of each value in the order of the values, and
    [SortedIntervalIndex], an interval tree over the sorted runs of the column.
    Both answer the same queries: the indices of the values in an interval. *)

From S2P Require Import Prelude OrderedMap Double PriorityQueue StdSort RangeSet SortedRuns IntervalTree.

Import IntervalTree.IntervalTree.

(** A consumer of ranges works on a state of its own and tells whether to go
    on; [offer] hands it a list of ranges. *)
Fixpoint offer {S} (consumer : S -> Range -> outcome (S * bool)) (l : list Range) (s : S) : outcome S :=
  match l with
  | [] => Ok s
  | r :: l' => '(s', go_on) ← consumer s r; if (go_on : bool) then offer consumer l' s' else Ok s'
  end.

(** [std::map<T, std::vector<I>>]: [index[value].emplace_back(i)]. *)
Definition add_index (m : gmap Z (list Z)) (value i : Z) : gmap Z (list Z) :=
  <[value := default [] (m !! value) ++ [i]]> m.

Module BasicIndex.

Record t := mk { values_ : list Z; ranges_ : list Range }.

Section ops.
Context {C : Type} `{HC : Container C} (w : Z) (sort : forall A, (A -> A -> bool) -> list A -> list A).

(** One entry of the map. *)
Definition add_value (b : t) (value_and_indices : Z * list Z) : outcome t :=
  let '(value, indices) := value_and_indices in
  range_set ← RangeSet.construct w sort ((λ index, (index, 1%Z)) <$> indices) false;
  Ok (mk (values_ b ++ replicate (length range_set) value) (ranges_ b ++ range_set)).

Definition construct (c : C) : outcome t :=
  _ ← check (Z.of_nat (c_size c) <=? 2 ^ w - 1)%Z;
  ranges ← mfold (λ m i, value ← c_at c i; Ok (add_index m value (Z.of_nat i))) (seq 0 (c_size c)) ∅;
  mfold add_value (items ranges) (mk [] []).
End ops.

(** The loop from position [it]. *)
Fixpoint consume_from {S} (fuel : nat) (b : t) (to : Z) (consumer : S -> Range -> outcome (S * bool)) (it : nat) (s : S) : outcome S :=
  match values_ b !! it with
  | None => Ok s
  | Some v =>
      match fuel with
      | O => Fail OutOfFuel
      | Datatypes.S fuel' =>
          if (to <? v)%Z then Ok s
          else
            range ← vec_at (ranges_ b) it;
            '(s', go_on) ← consumer s range;
            if (go_on : bool) then consume_from fuel' b to consumer (Datatypes.S it) s' else Ok s'
      end
  end.

Definition ConsumeRanges {S} (b : t) (from to : Z) (consumer : S -> Range -> outcome (S * bool)) (s : S) : outcome S :=
  it ← lower_bound (length (values_ b)) (λ v, (v <? from)%Z) (values_ b) 0 (length (values_ b));
  consume_from (length (values_ b)) b to consumer it s.
End BasicIndex.

Module SortedIntervalIndex.

Record t (C : Type) := mk { container_ : C; root_ : TreeRoot SortedSubsequence.t }.
Arguments mk {C}.
Arguments container_ {C}.
Arguments root_ {C}.

Section ops.
Context {C : Type} `{HC : Container C} `{Sc : Scalar} (w : Z) (sort : forall A, (A -> A -> bool) -> list A -> list A).

Definition add_interval (c : C) (out : list (Interval SortedSubsequence.t)) (subsequence : SortedSubsequence.t) :
    outcome (list (Interval SortedSubsequence.t)) :=
  min ← SortedSubsequence.MinValue w subsequence c;
  max ← SortedSubsequence.MaxValue w subsequence c;
  Ok (out ++ [mkInterval min max subsequence]).

Definition GetIntervals (subsequences : list SortedSubsequence.t) (c : C) : outcome (list (Interval SortedSubsequence.t)) :=
  mfold (add_interval c) subsequences [].

Definition construct (c : C) : outcome (t C) :=
  subsequences ← SortedSubsequence.Get w c;
  intervals ← GetIntervals subsequences c;
  root ← IntervalTree.construct sort intervals;
  Ok (mk c root).

(** The consumer that is passed to the tree. *)
Definition consume_interval {S} (c : C) (from to : Z) (consumer : S -> Range -> outcome (S * bool)) (s : S)
    (interval : Interval SortedSubsequence.t) : outcome (S * bool) :=
  range ← SortedSubsequence.IndicesOfValuesInRange w (value interval) c from to;
  if negb (range.2 =? 0)%Z then consumer s range else Ok (s, true).

Definition ConsumeRanges {S} (x : t C) (from to : Z) (consumer : S -> Range -> outcome (S * bool)) (s : S) : outcome S :=
  Lookup_range (root_ x) from to (consume_interval (container_ x) from to consumer) s.
End ops.
End SortedIntervalIndex.

(** ** The specification of a query *)

(** The ranges are not empty; each index of a value in the interval is in one
    of them, and no other index is. *)
Definition answers (values : list Z) (from to : Z) (l : list Range) : Prop :=
  Forall (λ r : Range, 0 < r.2)%Z l /\
  forall x, mult x l = if decide ((0 <= x < Z.of_nat (length values)) /\ (from <= val values x <= to))%Z then 1 else 0.

Definition collect_ranges (acc : list Range) (r : Range) : outcome (list Range * bool) := Ok (acc ++ [r], true).

Example indices_run :
  (b ← BasicIndex.construct 16 merge_sort_by [5; 1; 1; 7; 5; 5]%Z; BasicIndex.ConsumeRanges b 2 6 collect_ranges []) = Ok [(0, 1); (4, 2)]%Z /\
  (x ← SortedIntervalIndex.construct (Sc := int64_zero) 16 merge_sort_by [5; 1; 1; 7; 5; 5]%Z;
   SortedIntervalIndex.ConsumeRanges (Sc := int64_zero) 16 x 2 6 collect_ranges []) = Ok [(0, 1); (4, 2)]%Z.
Proof. split; vm_compute; reflexivity. Qed.

(** ** The map from values to indices *)

(** The indices of a value, in increasing order. *)
Definition positions (values : list Z) (v : Z) : list Z :=
  Z.of_nat <$> filter (λ i, values !! i = Some v) (seq 0 (length values)).

Definition indexed_by (values : list Z) (m : gmap Z (list Z)) : Prop :=
  forall v, m !! v = if decide (v ∈ values) then Some (positions values v) else None.

Lemma positions_snoc values x v :
  positions (values ++ [x]) v = positions values v ++ if decide (x = v) then [Z.of_nat (length values)] else [].
Proof.
  unfold positions. rewrite length_app, seq_app, filter_app, fmap_app. cbn [length Nat.add seq]. f_equal.
  - f_equal. apply list_filter_ext_in, Forall_forall. intros i Hi%elem_of_seq. rewrite lookup_app_l by lia. done.
  - rewrite filter_cons, filter_nil, list_lookup_middle by done. case_decide as H1; case_decide as H2; try done; congruence.
Qed.

Lemma indexed_by_empty : indexed_by [] ∅.
Proof. intros v. rewrite decide_False; [done|]. apply not_elem_of_nil. Qed.

Lemma positions_absent values v : v ∉ values -> positions values v = [].
Proof.
  intros Hv. unfold positions. rewrite list_filter_none; [done|]. apply Forall_forall. intros i _ Hi. apply Hv.
  by eapply list_elem_of_lookup_2.
Qed.

Lemma indexed_by_add values m x :
  indexed_by values m -> indexed_by (values ++ [x]) (add_index m x (Z.of_nat (length values))).
Proof.
  intros Hm v. unfold add_index. rewrite positions_snoc. destruct (decide (x = v)) as [->|Hne].
  - rewrite lookup_insert_eq, Hm. destruct (decide (v ∈ values ++ [v])) as [_|Hno]; [|destruct Hno; apply elem_of_app; right; left].
    case_decide as Hv; cbn [default]; [done|]. by rewrite positions_absent.
  - rewrite lookup_insert_ne, Hm by done. rewrite app_nil_r. case_decide as H1; case_decide as H2; try done.
    + exfalso. apply H2, elem_of_app. by left.
    + exfalso. apply elem_of_app in H2 as [H2|H2%list_elem_of_singleton]; congruence.
Qed.

Lemma elem_of_positions values v x :
  x ∈ positions values v <-> (0 <= x < Z.of_nat (length values))%Z /\ val values x = v.
Proof.
  unfold positions, val. rewrite list_elem_of_fmap. setoid_rewrite list_elem_of_filter. setoid_rewrite elem_of_seq. split.
  - intros (i & -> & Hi & Hlt). rewrite Nat2Z.id, Hi. split; [lia|done].
  - intros [Hx Hv]. exists (Z.to_nat x). destruct (lookup_lt_is_Some_2 values (Z.to_nat x)) as [y Hy]; [lia|].
    rewrite Hy in Hv |- *. cbn in Hv. subst y. split_and!; [lia|done|lia|lia].
Qed.

Lemma positions_sorted values v : StronglySorted Z.lt (positions values v).
Proof.
  unfold positions. pose proof (filter_seq_sorted (λ i, values !! i = Some v) 0 (length values)) as Hs.
  induction Hs as [|i l _ IH Hall]; cbn; constructor; [done|]. apply Forall_fmap. eapply Forall_impl; [exact Hall|]. cbn. lia.
Qed.

Lemma val_elem values x : (0 <= x < Z.of_nat (length values))%Z -> val values x ∈ values.
Proof.
  intros Hx. unfold val. destruct (lookup_lt_is_Some_2 values (Z.to_nat x)) as [y Hy]; [lia|]. rewrite Hy. by eapply list_elem_of_lookup_2.
Qed.

(** The entries that contain an index: one, the entry of its value. *)
Lemma entries_count values m from to x :
  indexed_by values m ->
  length (filter (λ it : Z * list Z, (from <= it.1 <= to)%Z /\ x ∈ it.2) (items m)) =
  if decide ((0 <= x < Z.of_nat (length values)) /\ (from <= val values x <= to))%Z then 1 else 0.
Proof.
  intros Hm. assert (Hin : forall it, it ∈ filter (λ it : Z * list Z, (from <= it.1 <= to)%Z /\ x ∈ it.2) (items m) <->
    it = (val values x, positions values (val values x)) /\ (0 <= x < Z.of_nat (length values))%Z /\ (from <= val values x <= to)%Z).
  { intros [v l]. rewrite list_elem_of_filter, elem_of_items, Hm. cbn [fst snd]. case_decide as Hv; split.
    - intros [[Hft Hx] [= <-]]. apply elem_of_positions in Hx as [Hx <-]. done.
    - intros ([= -> ->] & Hx & Hft). split; [|done]. split; [done|]. by apply elem_of_positions.
    - by intros [_ ?].
    - intros ([= -> ->] & Hx & Hft). exfalso. by apply Hv, val_elem. }
  assert (Hnd : NoDup (filter (λ it : Z * list Z, (from <= it.1 <= to)%Z /\ x ∈ it.2) (items m))).
  { apply NoDup_filter. eapply NoDup_fmap_1. apply NoDup_items_keys. }
  case_decide as Hc.
  - replace 1 with (length [(val values x, positions values (val values x))]) by done. apply Permutation_length.
    apply NoDup_Permutation; [done|apply NoDup_singleton|]. intros it. rewrite Hin, list_elem_of_singleton. tauto.
  - destruct (filter _ (items m)) as [|it l] eqn:Hf; [done|]. exfalso. apply Hc. apply (Hin it). left.
Qed.

(** ** BasicIndex *)

Lemma canonical_mult w s x : canonical w s -> mult x s = if decide (covers s x) then 1 else 0.
Proof.
  induction s as [|r s IH]; intros Hc; [rewrite decide_False by (intros Hx; by apply covers_nil in Hx); done|].
  apply canonical_cons in Hc as (_ & Hp & Hlt & Hc). rewrite mult_cons, (IH Hc).
  assert (Hno : in_range x r -> ~ covers s x).
  { intros [_ Hx] Hs. pose proof (covers_after _ _ _ Hlt Hs). lia. }
  repeat case_decide; rewrite covers_cons in *; tauto.
Qed.

Section basic.
Context (w : Z) (sort : forall A, (A -> A -> bool) -> list A -> list A) `{!StdSort sort}.
Hypothesis Hw : (0 <= w)%Z.

(** Indices that fit the type, in increasing order. *)
Definition index_list (l : list Z) : Prop :=
  StronglySorted Z.lt l /\ Forall (λ i, 0 <= i /\ i + 1 < 2 ^ w)%Z l /\ (Z.of_nat (length l) < 2 ^ w)%Z.

Lemma ranges_of_indices l :
  index_list l ->
  exists s, RangeSet.construct w sort ((λ index, (index, 1%Z)) <$> l) false = Ok s /\
    Forall (λ r : Range, 0 < r.2)%Z s /\ forall x, mult x s = if decide (x ∈ l) then 1 else 0.
Proof using Hw StdSort0.
  intros (Hs & Hv & Hlen).
  assert (Hvr : Forall (valid_range w) ((λ index, (index, 1%Z)) <$> l)).
  { apply Forall_fmap. eapply Forall_impl; [exact Hv|]. unfold valid_range. cbn. lia. }
  destruct (construct_covers w sort Hw ((λ index, (index, 1%Z)) <$> l)) as (s & Hc & Hcan & Hcov); [done| |by rewrite length_fmap|].
  { eapply apart_no_nesting; [exact Hw|exact Hvr|]. by apply singles_apart. }
  exists s. split; [done|]. split; [destruct Hcan as [Hcan _]; eapply Forall_impl; [exact Hcan|]; cbn; tauto|]. intros x. rewrite (canonical_mult w s x Hcan).
  assert (Hiff : covers s x <-> x ∈ l).
  { rewrite Hcov. unfold covers. rewrite Exists_fmap, Exists_exists. unfold in_range. cbn. split.
    - intros (i & Hi & Hx). by replace x with i by lia.
    - intros Hx. exists x. split; [done|lia]. }
  case_decide as H1; case_decide as H2; tauto.
Qed.

(** The index as a list of pairs of a value and a range. *)
Definition of_entries (E : list (Z * Range)) : BasicIndex.t := BasicIndex.mk E.*1 E.*2.

Lemma add_values_spec its : forall E0,
  Forall (λ it, index_list it.2) its -> StronglySorted Z.lt its.*1 ->
  exists E, mfold (BasicIndex.add_value w sort) its (of_entries E0) = Ok (of_entries (E0 ++ E)) /\
    StronglySorted Z.le E.*1 /\ (forall v, v ∈ E.*1 -> v ∈ its.*1) /\ Forall (λ e : Z * Range, 0 < e.2.2)%Z E /\
    forall from to x, mult x (filter (λ e : Z * Range, from <= e.1 <= to)%Z E).*2 =
      length (filter (λ it : Z * list Z, (from <= it.1 <= to)%Z /\ x ∈ it.2) its).
Proof using Hw StdSort0.
  induction its as [|[v l] its IH]; intros E0 Hits Hs.
  { exists []. rewrite app_nil_r. split_and!; [done|constructor|done|constructor|done]. }
  apply Forall_cons in Hits as [Hl Hits]. cbn [fmap list_fmap fst snd] in Hs, Hl. apply StronglySorted_inv in Hs as [Hs Hv].
  cbn [mfold BasicIndex.add_value]. destruct (ranges_of_indices l Hl) as (s & Hset & Hpos & Hmult). rewrite Hset. cbn [mbind outcome_bind].
  set (E1 := (λ r, (v, r)) <$> s).
  assert (H1 : BasicIndex.mk (BasicIndex.values_ (of_entries E0) ++ replicate (length s) v) (BasicIndex.ranges_ (of_entries E0) ++ s) = of_entries (E0 ++ E1)).
  { unfold of_entries, E1. cbn [BasicIndex.values_ BasicIndex.ranges_]. rewrite !fmap_app, <-!list_fmap_compose. f_equal.
    - f_equal. clear. induction s as [|r s IH]; [done|]. cbn. by rewrite IH.
    - f_equal. unfold compose. cbn. by rewrite list_fmap_id. }
  rewrite H1. destruct (IH (E0 ++ E1) Hits Hs) as (E & -> & HsE & HinE & HpE & HmE). exists (E1 ++ E). rewrite app_assoc.
  assert (HE1 : forall y, y ∈ E1.*1 -> y = v).
  { intros y. unfold E1. rewrite <-list_fmap_compose. intros (r & -> & _)%list_elem_of_fmap. done. }
  rewrite Forall_forall in Hv. split_and!; [done| | | |].
  - rewrite fmap_app. assert (Hsort : forall k, StronglySorted Z.le (replicate k v ++ E.*1)).
    { induction k as [|k IHk]; [done|]. cbn. constructor; [done|]. apply Forall_app. split; [by apply Forall_replicate|].
      apply Forall_forall. intros z Hz. specialize (Hv z (HinE z Hz)). lia. }
    replace E1.*1 with (replicate (length s) v); [apply Hsort|]. unfold E1. rewrite <-list_fmap_compose. clear.
    induction s as [|r s IH]; [done|]. cbn. by rewrite IH.
  - intros y. rewrite fmap_app, elem_of_app. intros [Hy|Hy]; [rewrite (HE1 y Hy); left|right; by apply HinE].
  - apply Forall_app. split; [|done]. unfold E1. apply Forall_fmap. exact Hpos.
  - intros from to x. rewrite filter_app, fmap_app, mult_app, HmE, filter_cons. cbn [fst snd].
    assert (HmE1 : mult x (filter (λ e : Z * Range, from <= e.1 <= to)%Z E1).*2 = if decide ((from <= v <= to)%Z /\ x ∈ l) then 1 else 0).
    { destruct (decide (from <= v <= to)%Z) as [Hft|Hft].
      - rewrite list_filter_all; [|apply Forall_fmap, Forall_true; intros; done]. unfold E1. rewrite <-list_fmap_compose.
        unfold compose. cbn. rewrite list_fmap_id, Hmult. repeat case_decide; tauto.
      - rewrite list_filter_none; [|apply Forall_fmap, Forall_true; intros; done]. rewrite decide_False by tauto. done. }
    rewrite HmE1. by repeat case_decide.
Qed.

Lemma entries_holds {C} `{HC : Container C} (c : C) values :
  holds c values ->
  exists m, mfold (λ m i, value ← c_at c i; Ok (add_index m value (Z.of_nat i))) (seq 0 (c_size c)) ∅ = Ok m /\ indexed_by values m.
Proof using Type.
  intros [Hsize Hat]. rewrite Hsize.
  destruct (mfold_seq_inv (λ n m, indexed_by (take n values) m) (λ m i, value ← c_at c i; Ok (add_index m value (Z.of_nat i))) (length values) ∅)
    as (m & Hm & Hi).
  - apply indexed_by_empty.
  - intros i m Hi Hm. destruct (lookup_lt_is_Some_2 values i Hi) as [x Hx]. rewrite (Hat i x Hx). cbn [mbind outcome_bind].
    eexists. split; [done|]. change (1 + i) with (S i). rewrite (take_S_r values i x Hx).
    pose proof (indexed_by_add (take i values) m x Hm) as Hadd. by rewrite length_take_le in Hadd by lia.
  - exists m. split; [done|]. by rewrite firstn_all in Hi.
Qed.

Lemma BasicIndex_construct_spec {C} `{HC : Container C} (c : C) values :
  holds c values -> (Z.of_nat (length values) < 2 ^ w)%Z ->
  exists E, BasicIndex.construct w sort c = Ok (of_entries E) /\ StronglySorted Z.le E.*1 /\
    forall from to, answers values from to (filter (λ e : Z * Range, from <= e.1 <= to)%Z E).*2.
Proof using Hw StdSort0.
  intros Hh Hlen. unfold BasicIndex.construct. pose proof (entries_holds c values Hh) as (m & Hm & Hi).
  destruct Hh as [Hsize _]. rewrite Hsize in Hm |- *. rewrite (proj2 (Z.leb_le _ _)) by lia. cbn [check mbind outcome_bind].
  rewrite Hm. cbn [mbind outcome_bind].
  destruct (add_values_spec (items m) []) as (E & HE & Hs & _ & Hpos & Hmult).
  - apply Forall_forall. intros [v l] Hin%elem_of_items. cbn. rewrite Hi in Hin. case_decide; [|done]. injection Hin as <-.
    split_and!; [apply positions_sorted| |].
    + apply Forall_forall. intros x [Hx _]%elem_of_positions. lia.
    + unfold positions. rewrite length_fmap. pose proof (length_filter (λ i, values !! i = Some v) (seq 0 (length values))) as Hf.
      rewrite length_seq in Hf. lia.
  - pose proof (items_sorted m) as Hs. clear -Hs. induction Hs as [|k l _ IH Hall]; constructor; [done|].
    eapply Forall_impl; [exact Hall|]. cbn. intros k' [Hle Hne]. apply Z.leb_le in Hle. lia.
  - exists E. split_and!; [exact HE|done|]. intros from to. split; [|intros x; rewrite Hmult; by apply entries_count].
    apply Forall_fmap. rewrite Forall_forall in Hpos |- *. intros e [_ He]%list_elem_of_filter. by apply Hpos.
Qed.
End basic.

(** The loop offers the entries up to the bound. *)
Lemma consume_from_spec {S} (consumer : S -> Range -> outcome (S * bool)) E to : StronglySorted Z.le E.*1 -> forall fuel it s,
  length E <= it + fuel ->
  BasicIndex.consume_from fuel (of_entries E) to consumer it s =
  offer consumer (filter (λ e : Z * Range, e.1 <= to)%Z (drop it E)).*2 s.
Proof.
  intros Hs. induction fuel as [|fuel IH]; intros it s Hf; cbn [BasicIndex.consume_from]; unfold of_entries; cbn [BasicIndex.values_ BasicIndex.ranges_];
    rewrite list_lookup_fmap; destruct (E !! it) as [[v r]|] eqn:He; cbn [fmap option_fmap option_map fst].
  - apply lookup_lt_Some in He. lia.
  - rewrite drop_ge by (by apply lookup_ge_None). done.
  - rewrite (drop_S E (v, r) it He), filter_cons. cbn [fst]. destruct (Z.ltb_spec to v) as [Hlt|Hge].
    + rewrite decide_False by lia. rewrite list_filter_none; [done|]. apply Forall_lookup. intros k e Hk. rewrite lookup_drop in Hk.
      assert (v <= e.1)%Z; [|lia]. eapply (sorted_lookup Z.le E.*1 it (Datatypes.S it + k)); [done|lia| |]; rewrite list_lookup_fmap; [by rewrite He|by rewrite Hk].
    + rewrite decide_True by lia. cbn [fmap list_fmap offer snd]. unfold vec_at. rewrite list_lookup_fmap, He. cbn [fmap option_fmap option_map snd mbind outcome_bind].
      destruct (consumer s r) as [[s' []]|]; cbn [mbind outcome_bind]; [|done..]. apply IH. lia.
  - rewrite drop_ge by (by apply lookup_ge_None). done.
Qed.

Lemma BasicIndex_ConsumeRanges_spec {S} (consumer : S -> Range -> outcome (S * bool)) E from to s :
  StronglySorted Z.le E.*1 ->
  BasicIndex.ConsumeRanges (of_entries E) from to consumer s = offer consumer (filter (λ e : Z * Range, from <= e.1 <= to)%Z E).*2 s.
Proof.
  intros Hs. unfold BasicIndex.ConsumeRanges. cbn [of_entries BasicIndex.values_].
  destruct (lower_bound_spec (λ v, (v <? from)%Z) E.*1 (length E.*1) 0 (length E.*1)) as (n & -> & Hn & Ht & Hd); [lia|lia| |lia| |].
  - intros i j x y Hij Hx Hy Hb. apply Z.ltb_lt in Hb. apply Z.ltb_lt. pose proof (sorted_lookup Z.le _ _ _ _ _ Hs Hij Hx Hy). lia.
  - intros i x Hi Hx%lookup_lt_Some. lia.
  - cbn [mbind outcome_bind]. change (BasicIndex.mk E.*1 E.*2) with (of_entries E).
    rewrite consume_from_spec by (rewrite ?length_fmap; done || lia). f_equal. f_equal.
    rewrite <-fmap_take, Forall_fmap in Ht. rewrite <-fmap_drop, Forall_fmap in Hd.
    rewrite <-(take_drop n E) at 2. rewrite filter_app, (list_filter_none _ (take n E)); cbn [app].
    + apply list_filter_ext_in. eapply Forall_impl; [exact Hd|]. intros e He. cbn in He. apply Z.ltb_ge in He. lia.
    + eapply Forall_impl; [exact Ht|]. intros e He. cbn in He. apply Z.ltb_lt in He. lia.
Qed.

(** ** SortedIntervalIndex *)

Lemma mult_fmap_ext {A} (f g : A -> Range) x l :
  Forall (λ i, in_range x (f i) <-> in_range x (g i)) l -> mult x (f <$> l) = mult x (g <$> l).
Proof. induction 1 as [|i l Hi _ IH]; [done|]. cbn [fmap list_fmap]. rewrite !mult_cons. repeat case_decide; (lia || tauto). Qed.

Lemma mult_filter_fmap {A} (f : A -> Range) (P : A -> Prop) `{forall a, Decision (P a)} x l :
  Forall (λ i, in_range x (f i) -> P i) l -> mult x (f <$> filter P l) = mult x (f <$> l).
Proof.
  induction 1 as [|i l Hi _ IH]; [done|]. rewrite filter_cons. case_decide; cbn [fmap list_fmap]; rewrite !mult_cons; [lia|].
  rewrite (decide_False (P := in_range x (f i))) by tauto. lia.
Qed.

Lemma mult_nonempty x l : mult x (filter (λ r : Range, r.2 <> 0%Z) l) = mult x l.
Proof.
  induction l as [|r l IH]; [done|]. rewrite filter_cons, mult_cons. case_decide as Hr; [by rewrite mult_cons, IH|].
  rewrite IH, decide_False; [done|]. unfold in_range. lia.
Qed.

Section intervals.
Context {C : Type} `{HC : Container C} (w : Z) (c : C) (values : list Z).
Context (sort : forall A, (A -> A -> bool) -> list A -> list A) `{!StdSort sort} (cast : spec_float -> Z).
Hypothesis Hw : (0 <= w)%Z.
Hypothesis Hheld : holds c values.
Hypothesis Hlen : (Z.of_nat (length values) < 2 ^ w)%Z.

Local Instance scalar : Scalar := int64_scalar cast.

Definition interval_of (s : SortedSubsequence.t) : Interval SortedSubsequence.t :=
  mkInterval (val values (nth_index s 0)) (val values (nth_index s ((SortedSubsequence.range_ s).2 - 1))) s.

Lemma GetIntervals_spec subs :
  Forall (run_ok values) subs -> SortedIntervalIndex.GetIntervals w subs c = Ok (interval_of <$> subs).
Proof using Hw Hheld Hlen.
  intros Hs. unfold SortedIntervalIndex.GetIntervals.
  assert (Hgen : forall acc, mfold (SortedIntervalIndex.add_interval w c) subs acc = Ok (acc ++ (interval_of <$> subs))); [|apply Hgen].
  induction Hs as [|s subs Hs _ IH]; intros acc; [by rewrite app_nil_r|]. cbn [mfold]. unfold SortedIntervalIndex.add_interval at 2.
  destruct Hs as [H1 H2 H3 _]. unfold SortedSubsequence.MinValue, SortedSubsequence.MaxValue, SortedSubsequence.last_index.
  rewrite (wrap_id w) by lia.
  assert (Hat1 : c_at c (Z.to_nat (SortedSubsequence.range_ s).1) = Ok (val values (SortedSubsequence.range_ s).1)) by (apply at_val; [done|lia]).
  assert (Hat2 : c_at c (Z.to_nat ((SortedSubsequence.range_ s).1 + (SortedSubsequence.range_ s).2 - 1)) =
            Ok (val values ((SortedSubsequence.range_ s).1 + (SortedSubsequence.range_ s).2 - 1))) by (apply at_val; [done|lia]).
  set (f := (SortedSubsequence.range_ s).1) in *. set (n := (SortedSubsequence.range_ s).2) in *.
  assert (Hiv : interval_of s = if SortedSubsequence.increasing_ s then mkInterval (val values f) (val values (f + n - 1)) s
                  else mkInterval (val values (f + n - 1)) (val values f) s).
  { unfold interval_of, nth_index. fold f n. destruct (SortedSubsequence.increasing_ s).
    - replace (f + 0)%Z with f by lia. by replace (f + (n - 1))%Z with (f + n - 1)%Z by lia.
    - replace (f + n - 1 - 0)%Z with (f + n - 1)%Z by lia. by replace (f + n - 1 - (n - 1))%Z with f by lia. }
  cbn [fmap list_fmap]. rewrite Hiv.
  destruct (SortedSubsequence.increasing_ s); rewrite Hat1, Hat2; cbn [mbind outcome_bind]; by rewrite IH, <-app_assoc.
Qed.

Definition run_range (from to : Z) (i : IndexedInterval SortedSubsequence.t) : Range :=
  match SortedSubsequence.IndicesOfValuesInRange w (value i.1) c from to with Ok r => r | Fail _ => (0, 0)%Z end.

Lemma visit_offer {S} (consumer : S -> Range -> outcome (S * bool)) from to l s :
  Forall (λ i : IndexedInterval SortedSubsequence.t, run_ok values (value i.1)) l -> (from <= to)%Z ->
  visit (λ s iv _, SortedIntervalIndex.consume_interval w c from to consumer s iv) l s =
  offer consumer (filter (λ r : Range, r.2 <> 0%Z) (run_range from to <$> l)) s.
Proof using Hw Hheld Hlen.
  intros Hl Hft. unfold visit, visit_all. revert s. induction Hl as [|i l Hi _ IH]; intros s; [done|]. cbn [scan fmap list_fmap].
  rewrite filter_cons. unfold SortedIntervalIndex.consume_interval at 2.
  destruct (IndicesOfValuesInRange_spec w c values Hw Hheld Hlen (value i.1) from to Hi Hft) as (r & Hr & _).
  assert (Hrr : run_range from to i = r) by (unfold run_range; by rewrite Hr). rewrite Hr, Hrr. cbn [mbind outcome_bind].
  destruct (Z.eqb_spec r.2 0) as [Hz|Hnz]; cbn [negb mbind outcome_bind].
  - rewrite decide_False by tauto. apply IH.
  - rewrite decide_True by done. cbn [offer]. destruct (consumer s r) as [[s' []]|]; cbn [mbind outcome_bind]; [apply IH|done..].
Qed.

(** The values of a run lie between those of its ends. *)
Lemma run_between s x :
  run_ok values s -> in_range x (SortedSubsequence.range_ s) -> (low (interval_of s) <= val values x <= high (interval_of s))%Z.
Proof.
  intros Hs [Hx1 Hx2]. pose proof (run_size _ _ Hs). cbn.
  set (k := if SortedSubsequence.increasing_ s then (x - (SortedSubsequence.range_ s).1)%Z
            else ((SortedSubsequence.range_ s).1 + (SortedSubsequence.range_ s).2 - 1 - x)%Z).
  assert (Hk : nth_index s k = x) by (unfold nth_index, k; destruct (SortedSubsequence.increasing_ s); lia).
  assert (0 <= k < (SortedSubsequence.range_ s).2)%Z by (unfold k; destruct (SortedSubsequence.increasing_ s); lia).
  pose proof (nth_mono values s 0 k Hs ltac:(lia) ltac:(lia)) as H1.
  pose proof (nth_mono values s k ((SortedSubsequence.range_ s).2 - 1) Hs ltac:(lia) ltac:(lia)) as H2. rewrite Hk in H1, H2. lia.
Qed.

Lemma runs_length a subs b : chain a subs b -> (Z.of_nat (length subs) <= b - a)%Z.
Proof.
  clear. revert a. induction subs as [|s subs IH]; intros a; cbn; [lia|]. intros (_ & ? & Hc%IH). lia.
Qed.

(** The values leave room for the arithmetic of the interval tree. *)
Definition moderate (l : list Z) : Prop := Forall (λ v, - 2 ^ 62 <= v < 2 ^ 62)%Z l.

Lemma moderate_val x : moderate values -> (0 <= x < Z.of_nat (length values))%Z -> (- 2 ^ 62 <= val values x < 2 ^ 62)%Z.
Proof. intros Hm Hx. unfold moderate in Hm. rewrite Forall_forall in Hm. by apply Hm, val_elem. Qed.

Lemma runs_fit subs : moderate values -> Forall (run_ok values) subs -> intervals_fit (interval_of <$> subs).
Proof.
  intros Hm Hs.
  assert (Hb : forall s, s ∈ subs -> (- 2 ^ 62 <= low (interval_of s) /\ low (interval_of s) <= high (interval_of s) /\ high (interval_of s) < 2 ^ 62)%Z).
  { intros s Hin. rewrite Forall_forall in Hs. pose proof (Hs s Hin) as Hr. destruct (Hr) as [H1 H2 H3 _]. unfold interval_of. cbn.
    pose proof (nth_mono values s 0 ((SortedSubsequence.range_ s).2 - 1) Hr ltac:(lia) ltac:(lia)).
    pose proof (moderate_val (nth_index s 0) Hm). pose proof (moderate_val (nth_index s ((SortedSubsequence.range_ s).2 - 1)) Hm).
    unfold nth_index in *. destruct (SortedSubsequence.increasing_ s); lia. }
  split.
  - apply Forall_fmap, Forall_forall. intros s Hin. destruct (Hb s Hin) as (? & ? & ?). unfold compose, tmin, tmax, scalar, int64_scalar. lia.
  - intros a b (s & -> & Hs1)%list_elem_of_fmap (s' & -> & Hs2)%list_elem_of_fmap. destruct (Hb s Hs1), (Hb s' Hs2). unfold tmax, scalar, int64_scalar. lia.
Qed.

Lemma SortedIntervalIndex_spec :
  moderate values -> (Z.of_nat (length values) <= 2 ^ 32)%Z ->
  exists x, SortedIntervalIndex.construct w sort c = Ok x /\
    forall from to, (- 2 ^ 63 <= from)%Z -> (from <= to)%Z -> (to < 2 ^ 63)%Z -> (to - from < 2 ^ 63)%Z ->
      exists R, answers values from to R /\
        forall S (consumer : S -> Range -> outcome (S * bool)) s, SortedIntervalIndex.ConsumeRanges w x from to consumer s = offer consumer R s.
Proof using Hw Hheld Hlen StdSort0.
  intros Hm Hn32. unfold SortedIntervalIndex.construct.
  destruct (Get_spec w c values Hw Hheld Hlen) as (subs & -> & Hch & Hruns). cbn [mbind outcome_bind].
  rewrite (GetIntervals_spec subs Hruns). cbn [mbind outcome_bind].
  pose proof (runs_length _ _ _ Hch) as Hnum.
  pose proof (runs_fit subs Hm Hruns) as Hfit.
  destruct (construct_tree_spec sort (interval_of <$> subs) Hfit) as (root & -> & Hbuilt); [rewrite length_fmap; lia|].
  cbn [mbind outcome_bind]. eexists. split; [done|]. intros from to H1 H2 H3 H4.
  destruct (midpoint_between from to) as (m & Hmid & Hm2); [unfold tmin, tmax, scalar, int64_scalar; lia..|].
  assert (Hl32 : (Z.of_nat (length (interval_of <$> subs)) <= 2 ^ 32)%Z) by (rewrite length_fmap; lia).
  set (l := fresh (encountered root from to m) (replicate (length (interval_of <$> subs)) false)).
  assert (Hperm : l ≡ₚ filter (overlaps from to) (AssignIndices (interval_of <$> subs))) by (by apply fresh_encountered).
  assert (Hrun : Forall (λ i : IndexedInterval SortedSubsequence.t, run_ok values (value i.1) /\ i.1 = interval_of (value i.1))
                   (AssignIndices (interval_of <$> subs))).
  { apply Forall_forall. intros i Hi. assert (Hi1 : i.1 ∈ (AssignIndices (interval_of <$> subs)).*1) by (by apply list_elem_of_fmap_2).
    rewrite AssignIndices_fst in Hi1. apply list_elem_of_fmap in Hi1 as (s & -> & Hs). cbn. rewrite Forall_forall in Hruns. auto. }
  assert (Hrl : Forall (λ i : IndexedInterval SortedSubsequence.t, run_ok values (value i.1)) l).
  { rewrite Hperm. rewrite Forall_forall in Hrun |- *. intros i [_ Hi]%list_elem_of_filter. by apply Hrun. }
  exists (filter (λ r : Range, r.2 <> 0%Z) (run_range from to <$> l)). split; [split|].
  - apply Forall_forall. intros r [Hnz (i & -> & Hi)%list_elem_of_fmap]%list_elem_of_filter. rewrite Forall_forall in Hrl.
    destruct (IndicesOfValuesInRange_spec w c values Hw Hheld Hlen (value i.1) from to (Hrl i Hi) H2) as (r & Hr & Hr0 & _).
    unfold run_range in *. rewrite Hr in *. lia.
  - intros x. rewrite mult_nonempty.
    assert (Hin : forall i, i ∈ AssignIndices (interval_of <$> subs) -> in_range x (run_range from to i) <->
              in_range x (SortedSubsequence.range_ (value i.1)) /\ (from <= val values x <= to)%Z).
    { intros i Hi. rewrite Forall_forall in Hrun. destruct (Hrun i Hi) as [Hr _].
      destruct (IndicesOfValuesInRange_spec w c values Hw Hheld Hlen (value i.1) from to Hr H2) as (r & Hr' & _ & _ & Hiff).
      unfold run_range. rewrite Hr'. apply Hiff. }
    transitivity (mult x (run_range from to <$> AssignIndices (interval_of <$> subs))).
    { rewrite Hperm. apply mult_filter_fmap, Forall_forall. intros i Hi Hx. apply (Hin i Hi) in Hx as [Hx Hv].
      rewrite Forall_forall in Hrun. destruct (Hrun i Hi) as [Hr Heq]. pose proof (run_between _ x Hr Hx) as Hb. rewrite <-Heq in Hb.
      unfold overlaps. lia. }
    pose proof (chain_mult _ _ _ x Hch) as Hmc.
    destruct (decide (from <= val values x <= to)%Z) as [Hv|Hv].
    + rewrite (mult_fmap_ext _ (λ i : IndexedInterval SortedSubsequence.t, SortedSubsequence.range_ (value i.1))).
      * replace ((λ i : IndexedInterval SortedSubsequence.t, SortedSubsequence.range_ (value i.1)) <$> AssignIndices (interval_of <$> subs))
          with (SortedSubsequence.range_ <$> subs); cycle 1.
        { apply list_eq. intros k. rewrite !list_lookup_fmap. unfold AssignIndices. rewrite list_lookup_imap, list_lookup_fmap.
          by destruct (subs !! k). }
        rewrite Hmc. repeat case_decide; (done || tauto).
      * apply Forall_forall. intros i Hi. rewrite (Hin i Hi). tauto.
    + rewrite mult_none; [by rewrite decide_False by tauto|]. apply Forall_fmap, Forall_forall. intros i Hi Hx. cbn in Hx. apply (Hin i Hi) in Hx. tauto.
  - intros S consumer s. unfold SortedIntervalIndex.ConsumeRanges. cbn [SortedIntervalIndex.root_ SortedIntervalIndex.container_].
    rewrite (Lookup_range_visits (interval_of <$> subs) root from to m) by done. fold l. by apply visit_offer.
Qed.
End intervals.

(** The ranges of an answer lie in the column. *)
Lemma mult_pos x r l : r ∈ l -> in_range x r -> 1 <= mult x l.
Proof.
  intros Hr Hx. unfold mult. assert (Hin : r ∈ filter (in_range x) l) by (by apply list_elem_of_filter).
  destruct (filter (in_range x) l); [by apply not_elem_of_nil in Hin|]. cbn. lia.
Qed.

Lemma answers_bounds values from to l :
  answers values from to l -> Forall (λ r : Range, 0 <= r.1 /\ r.1 + r.2 <= Z.of_nat (length values))%Z l.
Proof.
  intros [Hpos Hm]. rewrite Forall_forall in Hpos |- *. intros r Hr. specialize (Hpos r Hr). cbn in Hpos.
  assert (Hb : forall x, in_range x r -> (0 <= x < Z.of_nat (length values))%Z).
  { intros x Hx. pose proof (mult_pos x r l Hr Hx) as H1. rewrite Hm in H1. case_decide; [tauto|lia]. }
  pose proof (Hb r.1 ltac:(unfold in_range; lia)). pose proof (Hb (r.1 + r.2 - 1)%Z ltac:(unfold in_range; lia)). lia.
Qed.

(** C30: The two indices of a column answer queries alike: for every container
    that holds a column of fewer than 2^16 values, none of them beyond 2^62 in
    magnitude, both are built, and for every interval of values that is
    narrower than 2^63 each offers ranges that contain each index of a value in
    the interval once and no other index, until its consumer returns false.
    ([query_overflows] shows a wider interval.) *)
Theorem ColumnIndex_answers {C} `{HC : Container C} (c : C) values sort `{!StdSort sort} cast :
  holds c values -> (Z.of_nat (length values) < 2 ^ 16)%Z -> moderate values ->
  exists b x, BasicIndex.construct 16 sort c = Ok b /\
    SortedIntervalIndex.construct (Sc := int64_scalar cast) 16 sort c = Ok x /\
    forall from to, (- 2 ^ 63 <= from /\ from <= to /\ to < 2 ^ 63 /\ to - from < 2 ^ 63)%Z ->
      exists R1 R2, answers values from to R1 /\ answers values from to R2 /\
        forall S (consumer : S -> Range -> outcome (S * bool)) s,
          BasicIndex.ConsumeRanges b from to consumer s = offer consumer R1 s /\
          SortedIntervalIndex.ConsumeRanges (Sc := int64_scalar cast) 16 x from to consumer s = offer consumer R2 s.
Proof.
  intros Hh Hlen Hm. destruct (BasicIndex_construct_spec 16 sort ltac:(lia) c values Hh Hlen) as (E & HE & Hs & Hans).
  destruct (SortedIntervalIndex_spec 16 c values sort cast ltac:(lia) Hh Hlen Hm ltac:(lia)) as (x & Hx & Hcons).
  exists (of_entries E), x. split_and!; [done|done|]. intros from to (H1 & H2 & H3 & H4).
  destruct (Hcons from to H1 H2 H3 H4) as (R & HR & Hoff). exists (filter (λ e : Z * Range, from <= e.1 <= to)%Z E).*2, R.
  split_and!; [apply Hans|done|]. intros S consumer s. split; [by apply BasicIndex_ConsumeRanges_spec|apply Hoff].
Qed.

Lemma ColumnIndex_answers_witness :
  let values := [5; 1; 1; 7; 5; -5]%Z in
  exists b x, BasicIndex.construct 16 merge_sort_by values = Ok b /\
    SortedIntervalIndex.construct (Sc := int64_zero) 16 merge_sort_by values = Ok x /\
    forall from to, (- 2 ^ 63 <= from /\ from <= to /\ to < 2 ^ 63 /\ to - from < 2 ^ 63)%Z ->
      exists R1 R2, answers values from to R1 /\ answers values from to R2 /\
        forall S (consumer : S -> Range -> outcome (S * bool)) s,
          BasicIndex.ConsumeRanges b from to consumer s = offer consumer R1 s /\
          SortedIntervalIndex.ConsumeRanges (Sc := int64_zero) 16 x from to consumer s = offer consumer R2 s.
Proof.
  intros values. apply (ColumnIndex_answers values values merge_sort_by (λ _, 0%Z)).
  - apply vector_holds.
  - vm_compute. reflexivity.
  - repeat constructor; lia.
Defined.

(** An interval of values as wide as the type overflows in the lookup of the
    tree. *)
Theorem query_overflows cast :
  (x ← SortedIntervalIndex.construct (Sc := int64_scalar cast) 16 merge_sort_by [5; 1; 7]%Z;
   SortedIntervalIndex.ConsumeRanges (Sc := int64_scalar cast) 16 x (- 2 ^ 63) 6 collect_ranges []) = Fail Undefined.
Proof. vm_compute. reflexivity. Qed.
