(* ===== verification/ColumnStorage.v ===== *)
(** Model of the column of integers ([src/src/num_col.h]): [Storage], which
    collects values and stores full blocks of them as chunks, and
    [IntegerStorageChunk], which keeps the values packed or run-length encoded
    and builds an index when it is first asked for one.  [Storage] is proved
    against the class [Chunk]; the chunk of integers is its instance.

    Which representation a chunk keeps depends on estimates of memory, which
    depend on the capacities that vectors have grown to; the estimates are
    parameters, and so are the contents of uninitialized members. *)

From S2P Require Import Prelude OrderedMap Double PriorityQueue StdSort RangeSet SortedRuns PackedVector Packer IntervalTree ColumnIndex.

Import IntervalTree.IntervalTree.

Local Open Scope nat_scope.

(** ** Containers *)

#[global] Instance packed_container : Container PackedVector.t := {
  c_size := PackedVector.size;
  c_at := PackedVector.at_
}.

(** [RLEField<int64_t>]: the arithmetic is that of 64-bit words, the minimum
    that of signed numbers. *)
Definition rle_i64 : RLEField.RleType RLEField.word64 := {|
  RLEField.rle_sub := RLEField.rle_sub (RleType := RLEField.rle_u64);
  RLEField.rle_at := RLEField.rle_at (RleType := RLEField.rle_u64);
  RLEField.rle_at_iter := RLEField.rle_at_iter (RleType := RLEField.rle_u64);
  RLEField.rle_min x y := if (i64 (`y) <? i64 (`x))%Z then y else x
|}.

Definition rle_field : Type := RLEField.t RLEField.word64.

#[global] Instance rle_container : Container rle_field := {
  c_size := RLEField.size;
  c_at f i := x ← RLEField.at_ (H := rle_i64) f i; Ok (i64 (`x))
}.

Definition rle_of (junk_min junk_max : Z) (values : list Z) : rle_field :=
  RLEField.of_vector (H := rle_i64) (RLEField.of_Z 0) (RLEField.of_Z junk_min) (RLEField.of_Z junk_max) (RLEField.of_Z <$> values).

Definition rle_min_value (f : rle_field) : outcome Z := x ← RLEField.min_value f; Ok (i64 (`x)).
Definition rle_max_value (f : rle_field) : outcome Z := x ← RLEField.max_value f; Ok (i64 (`x)).

(** ** IntegerStorageChunk *)
Module IntegerStorageChunk.

(** What is not determined by the program. *)
Record environment := mkEnv {
  rle_bytes : rle_field -> Z;
  basic_bytes : BasicIndex.t -> Z;
  tree_bytes : TreeRoot SortedSubsequence.t -> Z;
  junk_min : Z;
  junk_max : Z;
  undefined_conversion : spec_float -> Z
}.

Record t := mk {
  packed_int_vector_ : option PackedVector.t;
  rle_ : option rle_field;
  basic_index_ : option BasicIndex.t;
  packed_index_ : option (SortedIntervalIndex.t PackedVector.t);
  rle_index_ : option (SortedIntervalIndex.t rle_field);
  indexed_ : bool
}.

Section ops.
Context (env : environment) (sort : forall A, (A -> A -> bool) -> list A -> list A).
Local Instance scalar : Scalar := int64_scalar (undefined_conversion env).

Definition construct (values : list Z) : t :=
  let packed := PackedVector.construct (junk_min env) (junk_max env) values in
  let rle := rle_of (junk_min env) (junk_max env) values in
  if (rle_bytes env rle <? PackedVector.ByteEstimate packed)%Z then mk None (Some rle) None None None false
  else mk (Some packed) None None None None false.

Definition at_ (c : t) (index : nat) : outcome Z :=
  match packed_int_vector_ c, rle_ c with
  | Some v, _ => PackedVector.at_ v index
  | None, Some r => c_at r index
  | None, None => Fail CheckFailed
  end.

Definition size (c : t) : outcome Z :=
  match packed_int_vector_ c, rle_ c with
  | Some v, _ => Ok (u16 (Z.of_nat (PackedVector.size v)))
  | None, Some r => Ok (u16 (Z.of_nat (RLEField.size r)))
  | None, None => Fail CheckFailed
  end.

Definition MinValue (c : t) : outcome Z :=
  match packed_int_vector_ c, rle_ c with
  | Some v, _ => Ok (PackedVector.min_value v)
  | None, Some r => rle_min_value r
  | None, None => Fail CheckFailed
  end.

Definition MaxValue (c : t) : outcome Z :=
  match packed_int_vector_ c, rle_ c with
  | Some v, _ => Ok (PackedVector.max_value v)
  | None, Some r => rle_max_value r
  | None, None => Fail CheckFailed
  end.

(** Both indices are built and the smaller one is kept. *)
Definition Index (c : t) : outcome t :=
  if indexed_ c then Ok c
  else
    match packed_int_vector_ c, rle_ c with
    | Some v, r =>
        basic ← BasicIndex.construct 16 sort v;
        packed ← SortedIntervalIndex.construct 16 sort v;
        Ok (if (tree_bytes env (SortedIntervalIndex.root_ packed) <? basic_bytes env basic)%Z
            then mk (Some v) r None (Some packed) (rle_index_ c) true
            else mk (Some v) r (Some basic) None (rle_index_ c) true)
    | None, Some r =>
        basic ← BasicIndex.construct 16 sort r;
        rle ← SortedIntervalIndex.construct 64 sort r;
        Ok (if (tree_bytes env (SortedIntervalIndex.root_ rle) <? basic_bytes env basic)%Z
            then mk None (Some r) None (packed_index_ c) (Some rle) true
            else mk None (Some r) (Some basic) (packed_index_ c) None true)
    | None, None => Fail Undefined
    end.

(** A range of 64-bit indices is converted to one of 16-bit indices. *)
Definition narrow {S} (consumer : S -> Range -> outcome (S * bool)) (s : S) (r : Range) : outcome (S * bool) :=
  consumer s (u16 r.1, u16 r.2).

Definition ConsumeRanges {S} (c : t) (from to : Z) (consumer : S -> Range -> outcome (S * bool)) (s : S) : outcome (t * S) :=
  _ ← check (from <=? to)%Z;
  min ← MinValue c;
  max ← MaxValue c;
  if ((to <? min) || (max <? from))%Z then Ok (c, s)
  else if ((max <=? to) && (from <=? min))%Z then
    n ← size c; '(s', _) ← consumer s (0%Z, n); Ok (c, s')
  else
    c' ← Index c;
    match basic_index_ c', packed_index_ c', rle_index_ c' with
    | Some b, _, _ => s' ← BasicIndex.ConsumeRanges b from to consumer s; Ok (c', s')
    | None, Some p, _ => s' ← SortedIntervalIndex.ConsumeRanges 16 p from to consumer s; Ok (c', s')
    | None, None, Some r => s' ← SortedIntervalIndex.ConsumeRanges 64 r from to (narrow consumer) s; Ok (c', s')
    | None, None, None => Fail CheckFailed
    end.
End ops.
End IntegerStorageChunk.

(** ** Storage *)

(** What [Storage] uses of the type of its chunks. *)
Class Chunk (Ch : Type) := {
  ck_construct : list Z -> Ch;
  ck_at : Ch -> nat -> outcome Z;
  ck_ConsumeRanges : forall S, Ch -> Z -> Z -> (S -> Range -> outcome (S * bool)) -> S -> outcome (Ch * S)
}.

Module Storage.
Section ops.
Context {Ch : Type} `{HCh : Chunk Ch} (kChunkSize : nat).

Record t := mk {
  latest_ : list Z;
  latest_index_ : gmap Z (list Z);
  chunks_ : list Ch
}.

Definition init : t := mk [] ∅ [].

Definition at_ (st : t) (index : nat) : outcome Z :=
  let base := index / kChunkSize in
  let offset := index mod kChunkSize in
  if base =? length (chunks_ st) then vec_at (latest_ st) offset
  else c ← vec_at (chunks_ st) base; ck_at c (Z.to_nat (u16 (Z.of_nat offset))).

Definition range_indices (r : Range) : list nat := (λ i, Z.to_nat (r.1 + Z.of_nat i)) <$> seq 0 (Z.to_nat r.2).

Definition ValuesAtRanges (st : t) (ranges : list Range) : outcome (list Z) :=
  mfold (λ out i, v ← at_ st i; Ok (out ++ [v])) (ranges ≫= range_indices) [].

Definition Add (st : t) (value : Z) : t :=
  let index := u16 (Z.of_nat (length (latest_ st))) in
  let latest := latest_ st ++ [value] in
  let latest_index := add_index (latest_index_ st) value index in
  if length latest =? kChunkSize then mk [] ∅ (chunks_ st ++ [ck_construct latest])
  else mk latest latest_index (chunks_ st).

Definition size (st : t) : nat := length (latest_ st) + kChunkSize * length (chunks_ st).

(** [latest_index_.lower_bound(from)]. *)
Fixpoint lower_bound_items (from : Z) (its : list (Z * list Z)) : list (Z * list Z) :=
  match its with
  | [] => []
  | it :: rest => if (it.1 <? from)%Z then lower_bound_items from rest else its
  end.

(** What the consumer returns is ignored. *)
Definition consume_index {S} (base : Z) (consumer : S -> Range -> outcome (S * bool)) (s : S) (index : Z) : outcome S :=
  '(s', _) ← consumer s (u64 (index + base), 1%Z); Ok s'.

Fixpoint consume_latest {S} (to base : Z) (consumer : S -> Range -> outcome (S * bool)) (its : list (Z * list Z)) (s : S) : outcome S :=
  match its with
  | [] => Ok s
  | it :: rest =>
      if (to <? it.1)%Z then Ok s
      else s' ← mfold (consume_index base consumer) it.2 s; consume_latest to base consumer rest s'
  end.

Definition ConsumeRangesFromLatest {S} (st : t) (from to : Z) (consumer : S -> Range -> outcome (S * bool)) (s : S) : outcome S :=
  consume_latest to (Z.of_nat kChunkSize * Z.of_nat (length (chunks_ st))) consumer
    (lower_bound_items from (items (latest_index_ st))) s.

(** The consumer for the chunk at position [i]. *)
Definition shifted {S} (i : nat) (consumer : S -> Range -> outcome (S * bool)) (s : S) (r : Range) : outcome (S * bool) :=
  consumer s (u64 (r.1 + Z.of_nat i * Z.of_nat kChunkSize), r.2).

Fixpoint consume_chunks {S} (from to : Z) (consumer : S -> Range -> outcome (S * bool)) (i : nat) (cs : list Ch) (s : S) : outcome (list Ch * S) :=
  match cs with
  | [] => Ok ([], s)
  | c :: rest =>
      '(c', s') ← ck_ConsumeRanges S c from to (shifted i consumer) s;
      '(rest', s'') ← consume_chunks from to consumer (Datatypes.S i) rest s';
      Ok (c' :: rest', s'')
  end.

Definition ConsumeRanges {S} (st : t) (from to : Z) (consumer : S -> Range -> outcome (S * bool)) (s : S) : outcome (t * S) :=
  s' ← ConsumeRangesFromLatest st from to consumer s;
  '(cs, s'') ← consume_chunks from to consumer 0 (chunks_ st) s';
  Ok (mk (latest_ st) (latest_index_ st) cs, s'').
End ops.

(** The chunks of the program. *)
Definition kChunkSize : Z := (2 ^ 16 - 1)%Z.
End Storage.

#[global] Instance integer_chunk (env : IntegerStorageChunk.environment) sort : Chunk IntegerStorageChunk.t := {
  ck_construct := IntegerStorageChunk.construct env;
  ck_at := IntegerStorageChunk.at_;
  ck_ConsumeRanges S := IntegerStorageChunk.ConsumeRanges env sort
}.

(** ** Chunks *)

(** The intervals of values that can be asked for. *)
Definition query_ok (from to : Z) : Prop := (- 2 ^ 63 <= from /\ from <= to /\ to < 2 ^ 63 /\ to - from < 2 ^ 63)%Z.

Definition bounded (min max : Z) (values : list Z) : Prop := Forall (λ v, min <= v <= max)%Z values.

(** What a chunk promises for the blocks of values that satisfy [good]. *)
Class ChunkLaws (Ch : Type) `{Chunk Ch} (good : list Z -> Prop) := {
  ck_ok : list Z -> Ch -> Prop;
  ck_construct_ok values : good values -> ck_ok values (ck_construct values);
  ck_at_ok values c i x : ck_ok values c -> values !! i = Some x -> ck_at c i = Ok x;
  ck_consume_ok values c from to :
    ck_ok values c -> query_ok from to ->
    exists c' R, ck_ok values c' /\ answers values from to R /\
      forall S (consumer : S -> Range -> outcome (S * bool)) s,
        ck_ConsumeRanges S c from to consumer s = (s' ← offer consumer R s; Ok (c', s'))
}.

Lemma rle_i64_laws : RLEField.RleLaws RLEField.word64 (H := rle_i64).
Proof. destruct RLEField.rle_u64_laws as [H1 H2 H3]. by split. Qed.

Lemma i64_of_Z v : is_i64 v -> i64 (proj1_sig (RLEField.of_Z v)) = v.
Proof. intros Hv. change (proj1_sig (RLEField.of_Z v)) with (u64 v). rewrite i64_u64. by apply i64_id. Qed.

Lemma rle_holds a b values : Forall is_i64 values -> holds (rle_of a b values) values.
Proof.
  intros Hv. pose proof (@RLEField.rep_of_vector _ rle_i64 (RLEField.of_Z 0) rle_i64_laws (RLEField.of_Z a) (RLEField.of_Z b) (RLEField.of_Z <$> values)) as Hr.
  split.
  - destruct Hr as (_ & Ht & _). change (RLEField.total_num_elements_ (rle_of a b values) = length values).
    etrans; [exact Ht|apply length_fmap].
  - intros i x Hx. pose proof (@RLEField.at_spec _ rle_i64 rle_i64_laws _ _ i Hr) as Hat. unfold c_at, rle_container.
    unfold rle_of. rewrite Hat, list_lookup_fmap, Hx. cbn [fmap option_fmap option_map mbind outcome_bind]. f_equal. apply i64_of_Z.
    rewrite Forall_lookup in Hv. by eapply Hv.
Qed.

Section integer_chunk.
Context (env : IntegerStorageChunk.environment) (sort : forall A, (A -> A -> bool) -> list A -> list A) `{!StdSort sort}.
Import IntegerStorageChunk.

(** A query of an index. *)
Definition index_answers (values : list Z) (query : forall S, Z -> Z -> (S -> Range -> outcome (S * bool)) -> S -> outcome S) : Prop :=
  forall from to, query_ok from to -> exists R, answers values from to R /\
    forall S (consumer : S -> Range -> outcome (S * bool)) s, query S from to consumer s = offer consumer R s.

Record chunk_ok (values : list Z) (c : IntegerStorageChunk.t) : Prop := {
  ok_values : values <> [] /\ (Z.of_nat (length values) < 2 ^ 16)%Z /\ moderate values;
  ok_data :
    (exists v, packed_int_vector_ c = Some v /\ rle_ c = None /\ holds v values /\
       bounded (PackedVector.min_value v) (PackedVector.max_value v) values) \/
    (exists r mn mx, packed_int_vector_ c = None /\ rle_ c = Some r /\ holds r values /\
       rle_min_value r = Ok mn /\ rle_max_value r = Ok mx /\ bounded mn mx values);
  ok_index :
    if indexed_ c then
      (exists b, basic_index_ c = Some b /\ index_answers values (λ S, BasicIndex.ConsumeRanges b)) \/
      (exists p, basic_index_ c = None /\ packed_index_ c = Some p /\
         index_answers values (λ S, SortedIntervalIndex.ConsumeRanges (Sc := IntegerStorageChunk.scalar env) 16 p)) \/
      (exists r, basic_index_ c = None /\ packed_index_ c = None /\ rle_index_ c = Some r /\
         index_answers values (λ S, SortedIntervalIndex.ConsumeRanges (Sc := IntegerStorageChunk.scalar env) 64 r))
    else basic_index_ c = None /\ packed_index_ c = None /\ rle_index_ c = None
}.

(** The estimates make the chunk keep the values packed, not run-length
    encoded.  (The extremes that the run-length encoding reports are not those
    of the values, see [rle_chunk_loses_values].) *)
Definition kept_packed (values : list Z) : Prop :=
  (PackedVector.ByteEstimate (PackedVector.construct (junk_min env) (junk_max env) values) <=
     rle_bytes env (rle_of (junk_min env) (junk_max env) values))%Z.

Definition good_block (values : list Z) : Prop :=
  values <> [] /\ (Z.of_nat (length values) < 2 ^ 16)%Z /\ moderate values /\ kept_packed values.

Lemma moderate_i64 values : moderate values -> Forall is_i64 values.
Proof. intros Hm. eapply Forall_impl; [exact Hm|]. unfold is_i64. cbn. lia. Qed.

Lemma packed_holds a b values : values <> [] -> (Z.of_nat (length values) < 2 ^ 16)%Z -> moderate values ->
  holds (PackedVector.construct a b values) values /\
  bounded (PackedVector.min_value (PackedVector.construct a b values)) (PackedVector.max_value (PackedVector.construct a b values)) values.
Proof.
  intros Hne Hlen Hm. assert (Hp : packable values) by (by right). split; [split|].
  - destruct (packed_vector_spec a b values 0 Hne Hp) as (_ & Hs & _); [lia|]. exact Hs.
  - intros i x Hx. pose proof (lookup_lt_Some _ _ _ Hx).
    destruct (packed_vector_spec a b values i Hne Hp) as (Hat & _); [lia|]. rewrite Hx in Hat. exact Hat.
  - destruct (packed_vector_spec a b values 0 Hne Hp) as (_ & _ & _ & Hb & _); [lia|]. exact Hb.
Qed.

Lemma construct_chunk_ok values : good_block values -> chunk_ok values (construct env values).
Proof.
  intros (Hne & Hlen & Hm & Hpacked). unfold construct. rewrite (proj2 (Z.ltb_ge _ _)) by exact Hpacked.
  split; cbn; [done| |done]. left. eexists. split_and!; [done|done|by apply packed_holds..].
Qed.

Lemma chunk_at_ok values c i x : chunk_ok values c -> values !! i = Some x -> at_ c i = Ok x.
Proof.
  intros [_ Hd _] Hx. unfold at_. destruct Hd as [(v & -> & _ & [_ Hh] & _)|(r & mn & mx & -> & -> & [_ Hh] & _)]; by apply Hh.
Qed.

Lemma basic_answers {C} `{HC : Container C} (c : C) values :
  holds c values -> (Z.of_nat (length values) < 2 ^ 16)%Z ->
  exists b, BasicIndex.construct 16 sort c = Ok b /\ index_answers values (λ S, BasicIndex.ConsumeRanges b).
Proof using StdSort0.
  intros Hh Hlen. destruct (BasicIndex_construct_spec 16 sort ltac:(lia) c values Hh Hlen) as (E & HE & Hs & Hans).
  exists (of_entries E). split; [done|]. intros from to _. eexists. split; [apply Hans|]. intros S consumer s. by apply BasicIndex_ConsumeRanges_spec.
Qed.

Lemma intervals_answer {C} `{HC : Container C} w (c : C) values :
  (32 <= w \/ w = 16)%Z -> holds c values -> (Z.of_nat (length values) < 2 ^ 16)%Z -> moderate values ->
  exists x, SortedIntervalIndex.construct (Sc := IntegerStorageChunk.scalar env) w sort c = Ok x /\
    index_answers values (λ S, SortedIntervalIndex.ConsumeRanges (Sc := IntegerStorageChunk.scalar env) w x).
Proof using StdSort0.
  intros Hw Hh Hlen Hm. assert (Hlw : (Z.of_nat (length values) < 2 ^ w)%Z).
  { assert (2 ^ 16 <= 2 ^ w)%Z by (apply Z.pow_le_mono_r; lia). lia. }
  destruct (SortedIntervalIndex_spec w c values sort (undefined_conversion env) ltac:(lia) Hh Hlw Hm ltac:(lia)) as (x & Hx & Hcons).
  exists x. split; [done|]. intros from to (H1 & H2 & H3 & H4). destruct (Hcons from to H1 H2 H3 H4) as (R & HR & Hoff). eauto.
Qed.

Lemma Index_ok values c : chunk_ok values c -> exists c', Index env sort c = Ok c' /\ chunk_ok values c' /\ indexed_ c' = true.
Proof using StdSort0.
  intros [Hv Hd Hi]. destruct Hv as (Hne & Hlen & Hm). unfold Index. destruct (indexed_ c) eqn:Hix.
  { exists c. split_and!; [done| |done]. split; [done|done|]. by rewrite Hix. }
  destruct Hi as (Hb & Hp & Hr). destruct Hd as [(v & Hv & Hrl & Hh & Hbd)|(r & mn & mx & Hv & Hrl & Hh & Hbd)]; rewrite Hv, Hrl.
  - destruct (basic_answers v values Hh Hlen) as (b & -> & Hba). cbn [mbind outcome_bind].
    destruct (intervals_answer 16 v values ltac:(lia) Hh Hlen Hm) as (x & -> & Hxa). cbn [mbind outcome_bind].
    eexists. split; [done|]. destruct (_ <? _)%Z; (split; [|done]); split; cbn; try done.
    + left. eauto 6.
    + right. left. eauto.
    + left. eauto 6.
    + left. eauto.
  - destruct (basic_answers r values Hh Hlen) as (b & -> & Hba). cbn [mbind outcome_bind].
    destruct (intervals_answer 64 r values ltac:(lia) Hh Hlen Hm) as (x & -> & Hxa). cbn [mbind outcome_bind].
    eexists. split; [done|]. destruct (_ <? _)%Z; (split; [|done]); split; cbn; try done.
    + right. exists r, mn, mx. tauto.
    + right. right. exists x. tauto.
    + right. exists r, mn, mx. tauto.
    + left. eauto.
Qed.

(** The narrow indices of a chunk are the same indices. *)
Lemma offer_narrow {S} (consumer : S -> Range -> outcome (S * bool)) R s :
  Forall (λ r : Range, 0 <= r.1 /\ 0 <= r.2 /\ r.1 + r.2 < 2 ^ 16)%Z R -> offer (narrow consumer) R s = offer consumer R s.
Proof.
  intros HR. revert s. induction HR as [|r R Hr _ IH]; intros s; [done|]. cbn [offer].
  change (narrow consumer s r) with (consumer s (u16 r.1, u16 r.2)). unfold u16. rewrite !wrap_id by lia. rewrite <-surjective_pairing. destruct (consumer s r) as [[s' []]|]; cbn [mbind outcome_bind]; [apply IH|done..].
Qed.

Lemma offer_one {S} (consumer : S -> Range -> outcome (S * bool)) r s :
  offer consumer [r] s = ('(s', _) ← consumer s r; Ok s').
Proof. cbn. by destruct (consumer s r) as [[s' []]|]. Qed.

(** All indices, or none. *)
Lemma answers_all values from to :
  values <> [] -> Forall (λ v, from <= v <= to)%Z values -> answers values from to [(0, Z.of_nat (length values))%Z].
Proof.
  intros Hne Hall. split; [constructor; [destruct values; cbn; [done|lia]|done]|]. intros x. rewrite mult_cons. unfold in_range. cbn [fst snd].
  rewrite Forall_forall in Hall. pose proof (λ Hx, Hall _ (val_elem values x Hx)) as Hv.
  repeat case_decide; cbn; try lia; exfalso; naive_solver lia.
Qed.

Lemma answers_none values from to :
  Forall (λ v, ~ (from <= v <= to))%Z values -> answers values from to [].
Proof.
  intros Hall. split; [done|]. intros x. rewrite Forall_forall in Hall. pose proof (λ Hx, Hall _ (val_elem values x Hx)) as Hv.
  cbn. case_decide as Hc; [|done]. destruct Hc as [Hx Hc]. by destruct (Hv Hx).
Qed.

Lemma chunk_extremes values c :
  chunk_ok values c -> exists mn mx, MinValue c = Ok mn /\ MaxValue c = Ok mx /\ bounded mn mx values /\ size c = Ok (Z.of_nat (length values)).
Proof.
  intros [(_ & Hlen & _) Hd _]. unfold MinValue, MaxValue, size, u16.
  destruct Hd as [(v & -> & _ & [Hs _] & Hb)|(r & mn & mx & -> & -> & [Hs _] & H1 & H2 & Hb)].
  - eexists _, _. split_and!; [done|done|done|]. cbn in Hs. rewrite Hs, wrap_id by lia. done.
  - exists mn, mx. split_and!; [done|done|done|]. cbn in Hs. rewrite Hs, wrap_id by lia. done.
Qed.

Lemma chunk_consume_ok values c from to :
  chunk_ok values c -> query_ok from to ->
  exists c' R, chunk_ok values c' /\ answers values from to R /\
    forall S (consumer : S -> Range -> outcome (S * bool)) s,
      ConsumeRanges env sort c from to consumer s = (s' ← offer consumer R s; Ok (c', s')).
Proof using StdSort0.
  intros Hc Hq. destruct (chunk_extremes values c Hc) as (mn & mx & Hmin & Hmax & Hb & Hsize).
  destruct (ok_values _ _ Hc) as (Hne & Hlen & Hm). unfold bounded in Hb.
  assert (Hft : (from <=? to)%Z = true) by (apply Z.leb_le; unfold query_ok in Hq; lia). unfold ConsumeRanges. rewrite Hft, Hmin, Hmax, Hsize.
  cbn [check mbind outcome_bind].
  destruct ((to <? mn) || (mx <? from))%Z eqn:Hout.
  { exists c, []. split_and!; [done| |done]. apply answers_none. eapply Forall_impl; [exact Hb|]. cbn. intros v Hv.
    apply orb_true_iff in Hout. rewrite !Z.ltb_lt in Hout. lia. }
  destruct ((mx <=? to) && (from <=? mn))%Z eqn:Hin.
  { exists c, [(0, Z.of_nat (length values))%Z]. split_and!; [done| |].
    - apply answers_all; [done|]. eapply Forall_impl; [exact Hb|]. cbn. intros v Hv. apply andb_true_iff in Hin. rewrite !Z.leb_le in Hin. lia.
    - intros S consumer s. rewrite offer_one. by destruct (consumer s _) as [[s' b]|]. }
  destruct (Index_ok values c Hc) as (c' & HI & Hc' & Hix). rewrite HI. cbn [mbind outcome_bind].
  pose proof (ok_index _ _ Hc') as Hidx. rewrite Hix in Hidx. exists c'.
  destruct Hidx as [(b & -> & Ha)|[(p & -> & -> & Ha)|(r & -> & -> & -> & Ha)]]; destruct (Ha from to Hq) as (R & HR & Hoff); exists R; (split; [done|]);
    (split; [done|]); intros S consumer s; rewrite Hoff; [done..|].
  rewrite offer_narrow; [done|]. pose proof (answers_bounds _ _ _ _ HR) as Hbd. destruct HR as [Hpos _].
  rewrite Forall_forall in Hbd, Hpos |- *. intros r' Hr'. specialize (Hbd r' Hr'). specialize (Hpos r' Hr'). cbn in *. lia.
Qed.

#[global] Instance integer_chunk_laws : ChunkLaws IntegerStorageChunk.t (H := integer_chunk env sort) good_block.
Proof using StdSort0.
  refine {| ck_ok := chunk_ok |}.
  - apply construct_chunk_ok.
  - apply chunk_at_ok.
  - apply chunk_consume_ok.
Defined.
End integer_chunk.

(** ** Storage *)

Definition shift (d : Z) (r : Range) : Range := (r.1 + d, r.2)%Z.

Lemma mult_shift d x l : mult x (shift d <$> l) = mult (x - d) l.
Proof.
  induction l as [|r l IH]; [done|]. cbn [fmap list_fmap]. rewrite !mult_cons, IH. unfold in_range, shift. cbn [fst snd].
  repeat case_decide; lia.
Qed.

Lemma answers_perm values from to l1 l2 : l1 ≡ₚ l2 -> answers values from to l1 -> answers values from to l2.
Proof. intros Hp [H1 H2]. split; [by rewrite <-Hp|]. intros x. rewrite <-Hp. apply H2. Qed.

Lemma val_app v1 v2 x :
  (0 <= x)%Z -> val (v1 ++ v2) x = if decide (x < Z.of_nat (length v1))%Z then val v1 x else val v2 (x - Z.of_nat (length v1)).
Proof.
  intros Hx. unfold val. case_decide; [by rewrite lookup_app_l by lia|]. rewrite lookup_app_r by lia. do 2 f_equal. lia.
Qed.

(** The answers of two columns, one after the other. *)
Lemma answers_app v1 v2 from to l1 l2 :
  answers v1 from to l1 -> answers v2 from to l2 -> answers (v1 ++ v2) from to (l1 ++ (shift (Z.of_nat (length v1)) <$> l2)).
Proof.
  intros [Hp1 H1] [Hp2 H2]. split.
  { apply Forall_app. split; [done|]. by apply Forall_fmap. }
  intros x. rewrite mult_app, mult_shift, H1, H2, length_app. destruct (decide (0 <= x)%Z) as [Hx|Hx].
  - rewrite val_app by done. destruct (decide (x < Z.of_nat (length v1))%Z); repeat case_decide; try lia; exfalso; lia.
  - repeat case_decide; lia.
Qed.

Lemma answers_empty from to : answers [] from to [].
Proof. split; [done|]. intros x. cbn. rewrite decide_False; [done|]. lia. Qed.

(** A consumer that always goes on. *)
Definition always {S} (f : S -> Range -> S) (s : S) (r : Range) : outcome (S * bool) := Ok (f s r, true).

Lemma offer_always {S} (f : S -> Range -> S) l s : offer (always f) l s = Ok (fold_left f l s).
Proof. revert s. induction l as [|r l IH]; intros s; [done|]. cbn. apply IH. Qed.

Section storage.
Context {Ch : Type} `{HCh : Chunk Ch} (good : list Z -> Prop) {HL : ChunkLaws Ch good} (k : nat).
Hypothesis Hk : 0 < k.
Hypothesis Hk16 : (Z.of_nat k < 2 ^ 16)%Z.
Import Storage.

(** The values that were added: those of the full blocks and the latest ones. *)
Record storage_ok (values : list Z) (st : Storage.t (Ch := Ch)) : Prop := {
  so_blocks : exists blocks, Forall2 ck_ok blocks (chunks_ st) /\ Forall (λ b, length b = k) blocks /\ values = concat blocks ++ latest_ st;
  so_latest : length (latest_ st) < k;
  so_index : indexed_by (latest_ st) (latest_index_ st);
  so_size : (Z.of_nat (length values) < 2 ^ 64)%Z
}.

Lemma init_ok : storage_ok [] init.
Proof. split; [exists []; split_and!; [constructor|constructor|done]|cbn; lia|apply indexed_by_empty|cbn; lia]. Qed.

Lemma Add_ok values st v :
  storage_ok values st -> (Z.of_nat (S (length values)) < 2 ^ 64)%Z ->
  (length (latest_ st ++ [v]) = k -> good (latest_ st ++ [v])) -> storage_ok (values ++ [v]) (Add k st v).
Proof using Hk16 Hk.
  intros [(blocks & Hb & Hlb & ->) Hlat Hix Hsz] Hlen Hgood. unfold Add, u16. rewrite wrap_id by lia.
  destruct (Nat.eqb_spec (length (latest_ st ++ [v])) k) as [Hfull|Hpart]; split; cbn [latest_ latest_index_ chunks_].
  - exists (blocks ++ [latest_ st ++ [v]]). split_and!.
    + apply Forall2_app; [done|]. constructor; [|constructor]. by apply ck_construct_ok, Hgood.
    + apply Forall_app. split; [done|]. by constructor.
    + rewrite concat_app. cbn. by rewrite !app_nil_r, app_assoc.
  - cbn. lia.
  - apply indexed_by_empty.
  - rewrite length_app. cbn. lia.
  - exists blocks. by rewrite app_assoc.
  - rewrite length_app in *. cbn in *. lia.
  - by apply indexed_by_add.
  - rewrite length_app. cbn. lia.
Qed.

Lemma concat_length blocks : Forall (λ b : list Z, length b = k) blocks -> length (concat blocks) = length blocks * k.
Proof using Type. clear. induction 1 as [|b l Hb _ IH]; [done|]. cbn. rewrite length_app. lia. Qed.

Lemma concat_lookup blocks i : Forall (λ b : list Z, length b = k) blocks -> i < length blocks * k ->
  concat blocks !! i = blocks !! (i / k) ≫= (λ b, b !! (i mod k)).
Proof using Hk.
  clear Hk16. intros Hall. revert i. induction Hall as [|b l Hb _ IH]; intros i Hi; [cbn in Hi; lia|]. cbn [concat].
  destruct (decide (i < k)) as [Hlt|Hge].
  - rewrite lookup_app_l by lia. rewrite Nat.div_small, Nat.mod_small by done. done.
  - rewrite lookup_app_r by lia. rewrite Hb, IH by (cbn in Hi; lia).
    replace (i / k) with (S ((i - k) / k)); cycle 1.
    { replace i with (i - k + 1 * k) at 2 by lia. rewrite Nat.div_add by lia. lia. }
    replace (i mod k) with ((i - k) mod k); [done|]. replace i with (i - k + 1 * k) at 2 by lia. by rewrite Nat.Div0.mod_add.
Qed.

Lemma at_ok values st i x : storage_ok values st -> values !! i = Some x -> at_ k st i = Ok x.
Proof using Hk Hk16.
  intros [(blocks & Hb & Hlb & ->) Hlat _ _] Hx. unfold at_. pose proof (Forall2_length _ _ _ Hb) as Hlen.
  pose proof (concat_length blocks Hlb) as Hcl. pose proof (Nat.mod_upper_bound i k ltac:(lia)) as Hmod.
  pose proof (Nat.div_mod_eq i k) as Hdm.
  destruct (decide (i < length blocks * k)) as [Hlt|Hge].
  - assert (Hdiv : i / k < length blocks) by (apply Nat.Div0.div_lt_upper_bound; lia).
    rewrite (proj2 (Nat.eqb_neq _ _)) by lia. rewrite lookup_app_l, concat_lookup in Hx by (done || lia).
    destruct (blocks !! (i / k)) as [b|] eqn:Hbk; [|done]. cbn in Hx.
    destruct (Forall2_lookup_l _ _ _ _ _ Hb Hbk) as (c & Hc & Hok). rewrite (proj2 (vec_at_Ok _ _ c) Hc). cbn [mbind outcome_bind].
    unfold u16. rewrite wrap_id by lia. rewrite Nat2Z.id. by eapply ck_at_ok.
  - assert (Hi : i < length (concat blocks) + length (latest_ st)) by (rewrite <-length_app; by eapply lookup_lt_Some).
    rewrite lookup_app_r in Hx by lia. rewrite Hcl in Hx, Hi.
    assert (Hdiv : i / k = length blocks) by (symmetry; apply (Nat.div_unique i k _ (i - length blocks * k)); lia).
    rewrite Hdiv in Hdm |- *. rewrite Hlen, Nat.eqb_refl. apply vec_at_Ok. rewrite <-Hx. f_equal. lia.
Qed.

(** The latest values. *)
Lemma latest_spec (m : gmap Z (list Z)) latest from to base :
  indexed_by latest m -> (0 <= base)%Z -> (Z.of_nat (length latest) + base < 2 ^ 64)%Z ->
  exists R, answers latest from to R /\
    forall S (f : S -> Range -> S) s,
      consume_latest to base (always f) (lower_bound_items from (items m)) s = Ok (fold_left f (shift base <$> R) s).
Proof using Type.
  clear Hk Hk16. intros Hm Hb0 Hb.
  set (sel := filter (λ it : Z * list Z, from <= it.1 <= to)%Z (items m)).
  assert (Hits : forall it, it ∈ items m -> it.2 = positions latest it.1).
  { intros [v l] Hin%elem_of_items. rewrite Hm in Hin. case_decide; [|done]. by injection Hin as <-. }
  exists (sel ≫= λ it, (λ i, (i, 1%Z)) <$> it.2). split; [split|].
  - apply Forall_forall. intros r (it & Hr & _)%list_elem_of_bind. apply list_elem_of_fmap in Hr as (i & -> & _). cbn. lia.
  - intros x. rewrite <-(entries_count latest m from to x Hm).
    assert (Hone : forall it, it ∈ items m -> mult x ((λ i, (i, 1%Z)) <$> it.2) = if decide (x ∈ it.2) then 1 else 0).
    { intros it Hit. rewrite (Hits it Hit). pose proof (positions_sorted latest it.1) as Hs. generalize dependent (positions latest it.1). clear.
      induction 1 as [|i l Hs IH Hall]; [rewrite decide_False; [done|apply not_elem_of_nil]|]. cbn [fmap list_fmap]. rewrite mult_cons, IH.
      rewrite Forall_forall in Hall. unfold in_range. cbn [fst snd].
      assert (Hno : x = i -> x ∉ l) by (intros -> Hin; specialize (Hall i Hin); lia).
      destruct (decide (x = i)) as [->|Hne].
      - rewrite (decide_True (P := (i <= i < i + 1)%Z)) by lia. rewrite (decide_False (P := i ∈ l)) by auto.
        rewrite (decide_True (P := i ∈ i :: l)) by left. done.
      - rewrite (decide_False (P := (i <= x < i + 1)%Z)) by lia. repeat case_decide; rewrite elem_of_cons in *; tauto. }
    unfold sel. clear sel Hits. induction (items m) as [|it its IH]; [done|]. rewrite !filter_cons.
    assert (Htl : forall it', it' ∈ its -> mult x ((λ i, (i, 1%Z)) <$> it'.2) = if decide (x ∈ it'.2) then 1 else 0) by (intros it' Hit'; apply Hone; by right).
    specialize (IH Htl). destruct (decide (from <= it.1 <= to)%Z) as [Hft|Hft].
    + cbn [mbind list_bind]. rewrite mult_app, (Hone it) by left.
      destruct (decide (x ∈ it.2)) as [Hx|Hx].
      * rewrite (decide_True (P := (from <= it.1 <= to)%Z /\ x ∈ it.2)) by done. cbn [length Nat.add]. f_equal. exact IH.
      * rewrite (decide_False (P := (from <= it.1 <= to)%Z /\ x ∈ it.2)) by tauto. exact IH.
    + rewrite decide_False by tauto. exact IH.
  - intros S f s. pose proof (items_sorted m) as Hsort. unfold sel. clear sel.
    assert (Hpos : forall it i, it ∈ items m -> i ∈ it.2 -> (0 <= i < Z.of_nat (length latest))%Z).
    { intros it i Hit Hi. rewrite (Hits it Hit) in Hi. by apply elem_of_positions in Hi as [? _]. } clear Hits Hm.
    assert (Hinner : forall l s, (forall i, i ∈ l -> (0 <= i < Z.of_nat (length latest))%Z) ->
              mfold (consume_index base (always f)) l s = Ok (fold_left f (shift base <$> ((λ i, (i, 1%Z)) <$> l)) s)).
    { clear -Hb0 Hb. induction l as [|i l IH]; intros s Hl; [done|]. cbn [mfold fmap list_fmap fold_left]. unfold consume_index at 2, always at 2, shift at 2.
      cbn [mbind outcome_bind fst snd]. unfold u64. rewrite wrap_id by (specialize (Hl i ltac:(left)); lia). apply IH. intros j Hj. apply Hl. by right. }
    revert s. induction (items m) as [|it its IH]; intros s; [done|]. cbn [fmap list_fmap] in Hsort. apply StronglySorted_inv in Hsort as [Hsort Hlt].
    rewrite Forall_forall in Hlt.
    assert (Hlt' : forall it', it' ∈ its -> (it.1 < it'.1)%Z).
    { intros it' Hit'. destruct (Hlt it'.1) as [Hle Hne]; [by apply list_elem_of_fmap_2|]. apply Z.leb_le in Hle. lia. }
    assert (Hpos' : forall it' i, it' ∈ its -> i ∈ it'.2 -> (0 <= i < Z.of_nat (length latest))%Z) by (intros it' i Hit'; apply Hpos; by right).
    specialize (IH Hsort Hpos'). cbn [lower_bound_items]. rewrite filter_cons. destruct (Z.ltb_spec it.1 from) as [Hlow|Hhigh].
    + rewrite decide_False by lia. apply IH.
    + cbn [consume_latest]. destruct (Z.ltb_spec to it.1) as [Hout|Hin].
      * rewrite decide_False by lia. rewrite list_filter_none; [done|]. apply Forall_forall. intros it' Hit'. specialize (Hlt' it' Hit'). lia.
      * rewrite decide_True by lia. cbn [mbind list_bind]. rewrite fmap_app, fold_left_app.
        rewrite Hinner by (intros i Hi; apply (Hpos it); [left|done]). rewrite bind_Ok_l. rewrite <-IH. f_equal.
        destruct its as [|it' its']; [done|]. cbn. specialize (Hlt' it' ltac:(left)). by rewrite (proj2 (Z.ltb_ge _ _)) by lia.
Qed.

Lemma offer_shifted {S} (f : S -> Range -> S) i R s :
  Forall (λ r : Range, 0 <= r.1 /\ r.1 + Z.of_nat i * Z.of_nat k < 2 ^ 64)%Z R ->
  offer (shifted k i (always f)) R s = Ok (fold_left f (shift (Z.of_nat i * Z.of_nat k) <$> R) s).
Proof using Type.
  clear Hk Hk16. intros HR. revert s. induction HR as [|r R Hr _ IH]; intros s; [done|]. cbn [offer fmap list_fmap fold_left].
  unfold shifted at 2, always at 2, shift at 2. unfold u64. rewrite wrap_id by lia. cbn [mbind outcome_bind]. apply IH.
Qed.

Lemma consume_chunks_spec from to : query_ok from to -> forall blocks cs i,
  Forall2 ck_ok blocks cs -> Forall (λ b, length b = k) blocks -> (Z.of_nat ((i + length cs) * k) < 2 ^ 64)%Z ->
  exists cs' R, Forall2 ck_ok blocks cs' /\ answers (concat blocks) from to R /\
    forall S (f : S -> Range -> S) s,
      consume_chunks k from to (always f) i cs s = Ok (cs', fold_left f (shift (Z.of_nat i * Z.of_nat k) <$> R) s).
Proof using Hk Hk16.
  intros Hq blocks cs i Hb. revert i. induction Hb as [|b c blocks cs Hok _ IH]; intros i Hlb Hsz.
  { exists [], []. split_and!; [constructor|apply answers_empty|done]. }
  apply Forall_cons in Hlb as [Hlb Hlbs]. cbn [length] in Hsz.
  destruct (ck_consume_ok b c from to Hok Hq) as (c' & R & Hok' & HR & Hcons).
  destruct (IH (S i) Hlbs) as (cs' & R' & Hcs' & HR' & Hrest); [replace (S i + length cs) with (i + S (length cs)) by lia; done|].
  exists (c' :: cs'), (R ++ (shift (Z.of_nat (length b)) <$> R')). split_and!; [by constructor|cbn; by apply answers_app|].
  intros S0 f s. cbn [consume_chunks]. rewrite Hcons, offer_shifted; cycle 1.
  { pose proof (answers_bounds _ _ _ _ HR) as Hbd. destruct HR as [Hpos _]. rewrite Forall_forall in Hbd, Hpos |- *. intros r Hr.
    specialize (Hbd r Hr). specialize (Hpos r Hr). cbn in *. nia. }
  rewrite !bind_Ok_l, Hrest, bind_Ok_l. do 2 f_equal. rewrite fmap_app, fold_left_app. f_equal.
  rewrite <-list_fmap_compose. apply list_fmap_ext. intros j r _. unfold compose, shift. cbn. f_equal. nia.
Qed.

Lemma ConsumeRanges_ok values st from to :
  storage_ok values st -> query_ok from to ->
  exists st' R, storage_ok values st' /\ answers values from to R /\
    forall S (f : S -> Range -> S) s, ConsumeRanges k st from to (always f) s = Ok (st', fold_left f R s).
Proof using Hk Hk16.
  intros [(blocks & Hb & Hlb & ->) Hlat Hix Hsz] Hq. pose proof (Forall2_length _ _ _ Hb) as Hlen.
  pose proof (concat_length blocks Hlb) as Hcl. rewrite length_app, Hcl in Hsz.
  destruct (consume_chunks_spec from to Hq blocks (chunks_ st) 0 Hb Hlb) as (cs' & R & Hcs & HR & Hcons); [cbn; lia|].
  destruct (latest_spec (latest_index_ st) (latest_ st) from to (Z.of_nat k * Z.of_nat (length (chunks_ st))) Hix) as (R' & HR' & Hlatest); [lia|nia|].
  set (base := (Z.of_nat k * Z.of_nat (length (chunks_ st)))%Z) in *.
  exists (mk (latest_ st) (latest_index_ st) cs'), ((shift base <$> R') ++ R). split_and!.
  - split; [exists blocks; by split_and!|done|done|]. rewrite length_app, Hcl. lia.
  - eapply answers_perm; [|apply (answers_app _ _ from to R R' HR HR')]. rewrite Permutation_app_comm.
    replace base with (Z.of_nat (length (concat blocks))); [done|]. unfold base. rewrite Hcl. nia.
  - intros S f s. unfold ConsumeRanges, ConsumeRangesFromLatest. fold base. rewrite Hlatest, bind_Ok_l, Hcons, bind_Ok_l.
    do 2 f_equal. rewrite fold_left_app. f_equal. clear. induction R as [|r R IH]; [done|]. cbn [fmap list_fmap]. rewrite IH.
    f_equal. destruct r. unfold shift. cbn. f_equal. lia.
Qed.
End storage.

(** ** The column *)

Inductive operation := AddValue (v : Z) | Query (from to : Z).

Section column.
Context (env : IntegerStorageChunk.environment) (sort : forall A, (A -> A -> bool) -> list A -> list A) (k : nat).
Local Instance chunks : Chunk IntegerStorageChunk.t := integer_chunk env sort.

(** Adding values and asking for the ranges of the values in an interval; the
    results of the queries, in order. *)
Fixpoint run (st : Storage.t) (ops : list operation) : outcome (Storage.t * list (list Range)) :=
  match ops with
  | [] => Ok (st, [])
  | AddValue v :: rest => run (Storage.Add k st v) rest
  | Query from to :: rest =>
      '(st', R) ← Storage.ConsumeRanges k st from to (always (λ acc r, acc ++ [r])) [];
      '(st'', out) ← run st' rest;
      Ok (st'', R :: out)
  end.

(** The values that are added, and those at the time of each query. *)
Fixpoint added (ops : list operation) : list Z :=
  match ops with
  | [] => []
  | AddValue v :: rest => v :: added rest
  | Query _ _ :: rest => added rest
  end.

Fixpoint queries (values : list Z) (ops : list operation) : list (list Z * Z * Z) :=
  match ops with
  | [] => []
  | AddValue v :: rest => queries (values ++ [v]) rest
  | Query from to :: rest => (values, from, to) :: queries values rest
  end.

Definition allowed (op : operation) : Prop :=
  match op with AddValue v => (- 2 ^ 62 <= v < 2 ^ 62)%Z | Query from to => query_ok from to end.
End column.

Lemma fold_left_snoc {A} (l acc : list A) : fold_left (λ acc r, acc ++ [r]) l acc = acc ++ l.
Proof. revert acc. induction l as [|x l IH]; intros acc; cbn; [by rewrite app_nil_r|]. by rewrite IH, <-app_assoc. Qed.

(** Every full block of [k] values is kept packed. *)
Definition packed_blocks (env : IntegerStorageChunk.environment) (k : nat) (values : list Z) : Prop :=
  forall j, k * S j <= length values -> kept_packed env (take k (drop (k * j) values)).

(** The block that a new value fills. *)
Lemma filled_block (k : nat) (blocks : list (list Z)) latest v rest :
  Forall (λ b, length b = k) blocks -> length (latest ++ [v]) = k ->
  latest ++ [v] = take k (drop (k * length blocks) ((concat blocks ++ latest) ++ v :: rest)) /\
  k * S (length blocks) <= length ((concat blocks ++ latest) ++ v :: rest).
Proof.
  intros Hb Hk. pose proof (concat_length k blocks Hb) as Hc.
  replace ((concat blocks ++ latest) ++ v :: rest) with (concat blocks ++ (latest ++ [v]) ++ rest) by (by rewrite <-!app_assoc).
  split; [|rewrite !length_app in *; lia].
  rewrite drop_app_length' by lia. rewrite take_app_length' by done. done.
Qed.

Lemma run_ok_spec env sort `{!StdSort sort} k ops : 0 < k -> (Z.of_nat k < 2 ^ 16)%Z ->
  Forall allowed ops -> forall values st, packed_blocks env k (values ++ added ops) ->
  storage_ok (good_block env) k values st (HL := integer_chunk_laws env sort) -> moderate values ->
  (Z.of_nat (length values + length (added ops)) < 2 ^ 64)%Z ->
  exists st' out, run env sort k st ops = Ok (st', out) /\
    storage_ok (good_block env) k (values ++ added ops) st' (HL := integer_chunk_laws env sort) /\
    Forall2 (λ q R, answers q.1.1 q.1.2 q.2 R) (queries values ops) out.
Proof.
  intros Hk Hk16 Hops. induction Hops as [|op ops Hop _ IH]; intros values st Hgood Hst Hm Hlen.
  { exists st, []. cbn. rewrite app_nil_r. split_and!; [done|done|constructor]. }
  destruct op as [v|from to]; cbn [run added queries allowed length] in *.
  - destruct (IH (values ++ [v]) (Storage.Add (HCh := integer_chunk env sort) k st v)) as (st' & out & Hrun & Hst' & Hq).
    + by rewrite <-app_assoc.
    + apply Add_ok; [done..|lia|]. intros Hfull.
      destruct Hst as [(blocks & _ & Hlb & ->) _ _ _]. destruct (filled_block k blocks _ v (added ops) Hlb Hfull) as [Heq Hle].
      split_and!; [intros [_ ?]%app_nil; done|lia| |rewrite Heq; by apply Hgood].
      unfold moderate in *. apply Forall_app in Hm as [_ Hm]. apply Forall_app. split; [done|]. by constructor.
    + unfold moderate. apply Forall_app. split; [done|]. by constructor.
    + rewrite length_app. cbn. lia.
    + exists st', out. split_and!; [done| |done]. by rewrite <-app_assoc in Hst'.
  - destruct (ConsumeRanges_ok (good_block env) (HL := integer_chunk_laws env sort) k Hk Hk16 values st from to Hst Hop) as (st1 & R & Hst1 & HR & Hcons).
    rewrite Hcons, bind_Ok_l, fold_left_snoc. cbn [app].
    destruct (IH values st1 Hgood Hst1 Hm Hlen) as (st' & out & -> & Hst' & Hq). rewrite bind_Ok_l. exists st', (R :: out).
    split_and!; [done|done|]. by constructor.
Qed.

Lemma storage_ok_size `{HL : ChunkLaws Ch good} k values st : storage_ok good k values st -> Storage.size k st = length values.
Proof.
  intros [(blocks & Hb & Hlb & ->) _ _ _]. unfold Storage.size. rewrite length_app, (concat_length k blocks Hlb), <-(Forall2_length _ _ _ Hb). lia.
Qed.

(** C29: a column of integers answers queries: after any sequence of additions
    and queries, each query offered ranges that contain each index of a value
    in its interval once, among the values added until then, and no other
    index; [at] returns the values that were added, by position, and [size] is
    their number.  This covers the whole stack: the latest values, the chunks,
    the packed representation, the two indices and the interval tree.  The
    values lie between -2^62 and 2^62, an interval is less than 2^63 wide, and
    every full block is kept packed: its packed form is not estimated larger
    than the run-length encoded one. *)
Theorem Storage_answers_queries env sort `{!StdSort sort} k ops :
  0 < k -> (Z.of_nat k < 2 ^ 16)%Z ->
  packed_blocks env k (added ops) -> Forall allowed ops -> (Z.of_nat (length (added ops)) < 2 ^ 64)%Z ->
  exists st out, run env sort k Storage.init ops = Ok (st, out) /\
    Forall2 (λ q R, answers q.1.1 q.1.2 q.2 R) (queries [] ops) out /\
    Storage.size k st = length (added ops) /\
    forall i x, added ops !! i = Some x -> Storage.at_ k st i (HCh := integer_chunk env sort) = Ok x.
Proof.
  intros Hk Hk16 Hgood Hops Hlen.
  destruct (run_ok_spec env sort k ops Hk Hk16 Hops [] Storage.init) as (st & out & Hrun & Hst & Hq); [done|by apply init_ok|constructor|done|].
  exists st, out. split_and!; [done|done|by eapply storage_ok_size|]. intros i x Hx. by eapply (at_ok (good_block env)).
Qed.

(** Chunks of three values, which are always kept packed. *)
Definition packed_env : IntegerStorageChunk.environment :=
  IntegerStorageChunk.mkEnv (λ r, 8 + 8 * Z.of_nat (RLEField.size r))%Z (λ _, 0%Z) (λ _, 0%Z) 0 0 (λ _, 0%Z).

Lemma packed_env_keeps block : moderate block -> kept_packed packed_env block.
Proof.
  intros Hm. unfold kept_packed. cbn. pose proof (packed_bytes 0 0 block).
  destruct (rle_holds 0 0 block (moderate_i64 block Hm)) as [Hs _]. cbn in Hs. rewrite Hs. lia.
Qed.

Definition example_ops : list operation :=
  [AddValue 5; AddValue 7; Query 0 6; AddValue (-2); AddValue 5; Query 5 9; AddValue 4; AddValue 3; AddValue 9; Query 4 5]%Z.

Lemma Storage_answers_queries_witness :
  exists st out, run packed_env merge_sort_by 3 Storage.init example_ops = Ok (st, out) /\
    Forall2 (λ q R, answers q.1.1 q.1.2 q.2 R) (queries [] example_ops) out /\
    Storage.size 3 st = 7 /\
    forall i x, added example_ops !! i = Some x -> Storage.at_ 3 st i (HCh := integer_chunk packed_env merge_sort_by) = Ok x.
Proof.
  apply (Storage_answers_queries packed_env merge_sort_by 3 example_ops); [lia|lia| |repeat constructor; cbn; unfold query_ok; lia|cbn; lia].
  intros j _. apply packed_env_keeps. apply Forall_take, Forall_drop. repeat constructor; lia.
Defined.

Example column_run :
  (λ x, x.2) <$> run packed_env merge_sort_by 3 Storage.init example_ops =
  Ok [[(0, 1)]; [(3, 1); (0, 1); (1, 1)]; [(0, 1); (4, 1); (3, 1)]]%Z.
Proof. vm_compute. reflexivity. Qed.

(** A block of the values 5, 6, 7 that is stored run-length encoded reports the
    extremes that its memory held before; asked for the values from 6 to 7 it
    offers nothing. *)
Definition rle_env : IntegerStorageChunk.environment :=
  IntegerStorageChunk.mkEnv (λ _, 0%Z) (λ _, 0%Z) (λ _, 0%Z) 0 0 (λ _, 0%Z).

Theorem rle_chunk_loses_values :
  (λ x, x.2) <$> run rle_env merge_sort_by 3 Storage.init [AddValue 5; AddValue 6; AddValue 7; Query 6 7]%Z = Ok [[]].
Proof. vm_compute. reflexivity. Qed.

(** A consumer that returns false is called again, for every value of the
    latest block and for the next chunks. *)
Theorem consumer_not_stopped :
  let st := fold_left (Storage.Add (HCh := integer_chunk packed_env merge_sort_by) 3) [5; 6; 7; 8; 9]%Z Storage.init in
  (λ x, x.2) <$> Storage.ConsumeRanges (HCh := integer_chunk packed_env merge_sort_by) 3 st 5 9 (λ acc r, Ok (acc ++ [r], false)) [] =
  Ok [(3, 1); (4, 1); (0, 3)]%Z.
Proof. vm_compute. reflexivity. Qed.
