(* ===== verification/BoolColumn.v ===== *)
(** Model of the chunks of a column of booleans ([BoolStorageChunk] of
    [src/src/num_col.h]), and of the types that chunks report. *)

From S2P Require Import Prelude StdSort RangeSet SortedRuns Packer ColumnIndex ColumnStorage.

Local Open Scope nat_scope.

Inductive StorageType := INT_PACKED | RLE | BIT_VECTOR | DOUBLE_VECTOR.
Inductive IndexType := UNINDEXED | BASIC | SORTED_INTERVAL | BIT_RANGES.

(** Of a chunk of integers. *)
Definition integer_GetIndexType (c : IntegerStorageChunk.t) : IndexType :=
  match IntegerStorageChunk.basic_index_ c, IntegerStorageChunk.rle_index_ c, IntegerStorageChunk.packed_index_ c with
  | Some _, _, _ => BASIC
  | None, None, None => UNINDEXED
  | None, _, _ => SORTED_INTERVAL
  end.

Definition integer_GetStorageType (c : IntegerStorageChunk.t) : outcome StorageType :=
  match IntegerStorageChunk.packed_int_vector_ c, IntegerStorageChunk.rle_ c with
  | Some _, _ => Ok INT_PACKED
  | None, Some _ => Ok RLE
  | None, None => Fail CheckFailed
  end.

Module BoolStorageChunk.

Definition bool_field : Type := RLEField.t bool.

Record t := mk {
  bool_vector_ : option (list bool);
  rle_ : option bool_field;
  true_ranges_ : list Range;
  false_ranges_ : list Range;
  indexed_ : bool
}.

Section ops.
(** The estimates of memory, which depend on capacities. *)
Context (vector_bytes : list bool -> Z) (rle_bytes : bool_field -> Z).
Context (sort : forall A, (A -> A -> bool) -> list A -> list A).

(** [junk] is what the extremes of the encoding hold, which are not set. *)
Definition construct (junk : bool) (values : list bool) : t :=
  let rle := RLEField.of_vector false junk junk values in
  if (rle_bytes rle <? vector_bytes values)%Z then mk None (Some rle) [] [] false
  else mk (Some values) None [] [] false.

Definition at_ (c : t) (index : nat) : outcome bool :=
  match bool_vector_ c, rle_ c with
  | Some v, _ => vec_at v index
  | None, Some r => RLEField.at_ r index
  | None, None => Fail CheckFailed
  end.

Definition size (c : t) : outcome Z :=
  match bool_vector_ c, rle_ c with
  | Some v, _ => Ok (u16 (Z.of_nat (length v)))
  | None, Some r => Ok (u16 (Z.of_nat (RLEField.size r)))
  | None, None => Fail CheckFailed
  end.

Definition GetIndexType (c : t) : IndexType := if indexed_ c then BIT_RANGES else UNINDEXED.

Definition GetStorageType (c : t) : outcome StorageType :=
  match bool_vector_ c, rle_ c with
  | Some _, _ => Ok BIT_VECTOR
  | None, Some _ => Ok RLE
  | None, None => Fail CheckFailed
  end.

(** One round of the loop of [Index]. *)
Definition classify (c : t) (acc : list Range * list Range) (i : nat) : outcome (list Range * list Range) :=
  b ← at_ c (Z.to_nat (u16 (Z.of_nat i)));
  let r := (u16 (Z.of_nat i), 1%Z) in
  Ok (if (b : bool) then (acc.1 ++ [r], acc.2) else (acc.1, acc.2 ++ [r])).

Definition Index (c : t) : outcome t :=
  if indexed_ c then Ok c
  else
    num_elements ← size c;
    '(true_indices, false_indices) ← mfold (classify c) (seq 0 (Z.to_nat num_elements)) ([], []);
    true_ranges ← RangeSet.construct 16 sort true_indices false;
    false_ranges ← RangeSet.construct 16 sort false_indices false;
    Ok (mk (bool_vector_ c) (rle_ c) true_ranges false_ranges true).

(** What the consumer returns is ignored. *)
Definition consume_all {S} (consumer : S -> Range -> outcome (S * bool)) (l : list Range) (s : S) : outcome S :=
  mfold (λ s r, '(s', _) ← consumer s r; Ok s') l s.

Definition ConsumeRanges {S} (c : t) (from to : bool) (consumer : S -> Range -> outcome (S * bool)) (s : S) : outcome (t * S) :=
  _ ← check (implb from to);
  c' ← Index c;
  s1 ← if negb from then consume_all consumer (false_ranges_ c') s else Ok s;
  s2 ← if to then consume_all consumer (true_ranges_ c') s1 else Ok s1;
  Ok (c', s2).
End ops.
End BoolStorageChunk.

Import BoolStorageChunk.

(** ** A chunk that is kept as a bit vector *)
Section bits.
Context (sort : forall A, (A -> A -> bool) -> list A -> list A) `{!StdSort sort} (values : list bool).
Hypothesis Hlen : (Z.of_nat (length values) < 2 ^ 16)%Z.

(** The indices of a boolean. *)
Definition bit_positions (b : bool) : list Z := positions (Z.b2z <$> values) (Z.b2z b).

Definition bits_indexed (c : BoolStorageChunk.t) : Prop :=
  bool_vector_ c = Some values /\
  (indexed_ c = true ->
   Forall (λ r : Range, 0 < r.2)%Z (true_ranges_ c ++ false_ranges_ c) /\
   forall x, mult x (true_ranges_ c) = (if decide (x ∈ bit_positions true) then 1 else 0) /\
     mult x (false_ranges_ c) = if decide (x ∈ bit_positions false) then 1 else 0).

Lemma classify_all c :
  bool_vector_ c = Some values ->
  mfold (classify c) (seq 0 (length values)) ([], []) =
  Ok ((λ i, (i, 1%Z)) <$> bit_positions true, (λ i, (i, 1%Z)) <$> bit_positions false).
Proof using Hlen.
  intros Hv. unfold bit_positions.
  destruct (mfold_seq_inv (λ n acc, acc = ((λ i, (i, 1%Z)) <$> positions (Z.b2z <$> take n values) 1, (λ i, (i, 1%Z)) <$> positions (Z.b2z <$> take n values) 0))
              (classify c) (length values) ([], [])) as (acc & Hacc & ->).
  - done.
  - intros i acc Hi ->. destruct (lookup_lt_is_Some_2 values i Hi) as [b Hb]. unfold classify, at_, u16. rewrite wrap_id by lia.
    rewrite Nat2Z.id, Hv, (proj2 (vec_at_Ok values i b) Hb), bind_Ok_l. eexists. split; [done|].
    change (1 + i) with (S i). rewrite (take_S_r values i b Hb), fmap_app. cbn [fmap list_fmap]. rewrite !positions_snoc, length_fmap, length_take_le by lia.
    destruct b; cbn [Z.b2z]; [rewrite (decide_True (P := 1%Z = 1%Z)), (decide_False (P := 1%Z = 0%Z)) by done
      |rewrite (decide_False (P := 0%Z = 1%Z)), (decide_True (P := 0%Z = 0%Z)) by done]; rewrite !fmap_app; cbn; by rewrite !app_nil_r.
  - etrans; [exact Hacc|]. by rewrite firstn_all.
Qed.

Lemma bit_positions_index b : index_list 16 (bit_positions b).
Proof using Hlen.
  split_and!; [apply positions_sorted| |].
  - apply Forall_forall. intros x [Hx _]%elem_of_positions. rewrite length_fmap in Hx. lia.
  - unfold bit_positions, positions. rewrite !length_fmap.
    pose proof (length_filter (λ i, (Z.b2z <$> values) !! i = Some (Z.b2z b)) (seq 0 (length values))) as Hf. rewrite length_seq in Hf. lia.
Qed.

Lemma Index_bits c : bits_indexed c -> exists c', Index sort c = Ok c' /\ bits_indexed c' /\ indexed_ c' = true.
Proof using Hlen StdSort0.
  intros [Hv Hi]. unfold Index. destruct (indexed_ c) eqn:Hix; [exists c; split_and!; [done|by split; rewrite ?Hix|done]|].
  unfold size, u16. rewrite Hv, wrap_id by lia. rewrite bind_Ok_l, Nat2Z.id, (classify_all c Hv), bind_Ok_l.
  destruct (ranges_of_indices 16 sort ltac:(lia) _ (bit_positions_index true)) as (t1 & -> & Hp1 & Hm1). rewrite bind_Ok_l.
  destruct (ranges_of_indices 16 sort ltac:(lia) _ (bit_positions_index false)) as (t2 & -> & Hp2 & Hm2). rewrite bind_Ok_l.
  eexists. split_and!; [done| |done]. split; [done|]. intros _. split; [by apply Forall_app|].
  intros x. split; [apply Hm1|apply Hm2].
Qed.

Lemma consume_all_always {S} (f : S -> Range -> S) l s : consume_all (always f) l s = Ok (fold_left f l s).
Proof using Type. clear. unfold consume_all. revert s. induction l as [|r l IH]; intros s; [done|]. cbn. apply IH. Qed.

(** The chunk answers queries, and indexes itself when it is first asked. *)
Theorem BoolStorageChunk_answers c from to :
  bits_indexed c -> implb from to = true ->
  exists c' R, bits_indexed c' /\ answers (Z.b2z <$> values) (Z.b2z from) (Z.b2z to) R /\
    forall S (f : S -> Range -> S) s, ConsumeRanges sort c from to (always f) s = Ok (c', fold_left f R s).
Proof using Hlen StdSort0.
  intros Hc Hft. destruct (Index_bits c Hc) as (c' & HI & Hc' & Hix). destruct (proj2 Hc' Hix) as [Hpos Hmult].
  apply Forall_app in Hpos as [Hp1 Hp2].
  exists c', ((if negb from then false_ranges_ c' else []) ++ (if to then true_ranges_ c' else [])). split_and!; [done| |].
  - split; [destruct from, to; cbn; rewrite ?app_nil_r; try done; by apply Forall_app|]. intros x. rewrite mult_app.
    destruct (Hmult x) as [Ht Hf]. unfold bit_positions in Ht, Hf.
    assert (Hval : (0 <= x < Z.of_nat (length (Z.b2z <$> values)))%Z -> val (Z.b2z <$> values) x = 0%Z \/ val (Z.b2z <$> values) x = 1%Z).
    { intros Hx. pose proof (val_elem _ x Hx) as Hin. apply list_elem_of_fmap in Hin as (b & -> & _). destruct b; auto. }
    pose proof (elem_of_positions (Z.b2z <$> values) 1 x) as E1. pose proof (elem_of_positions (Z.b2z <$> values) 0 x) as E0.
    destruct from, to; cbn [negb implb Z.b2z] in *; rewrite ?Ht, ?Hf; cbn [mult filter list_filter length Nat.add]; try done;
      repeat case_decide; try done; exfalso; intuition lia.
  - intros S f s. unfold ConsumeRanges. rewrite Hft. cbn [check]. rewrite bind_Ok_l, HI, bind_Ok_l.
    destruct from, to; cbn [negb]; repeat first [rewrite consume_all_always|rewrite bind_Ok_l]; rewrite ?app_nil_r, ?fold_left_app; done.
Qed.
End bits.

Lemma construct_bits vector_bytes rle_bytes junk values :
  (rle_bytes (RLEField.of_vector false junk junk values) <? vector_bytes values)%Z = false ->
  bits_indexed values (construct vector_bytes rle_bytes junk values).
Proof. intros Hb. unfold construct. rewrite Hb. by split. Qed.

Lemma BoolStorageChunk_answers_witness :
  exists c' R, bits_indexed [true; false; true] c' /\ answers [1; 0; 1]%Z 1 1 R /\
    forall S (f : S -> Range -> S) s,
      ConsumeRanges merge_sort_by (construct (λ _, 0%Z) (λ _, 0%Z) false [true; false; true]) true true (always f) s = Ok (c', fold_left f R s).
Proof.
  apply (BoolStorageChunk_answers merge_sort_by [true; false; true] eq_refl (construct (λ _, 0%Z) (λ _, 0%Z) false [true; false; true]) true true); [|reflexivity]. by apply construct_bits.
Defined.

(** A chunk of booleans that is stored run-length encoded loses values: of
    true, false it keeps true, true. *)
Theorem bool_chunk_corrupts :
  let c := construct (λ _, 1%Z) (λ _, 0%Z) false [true; false] in
  GetStorageType c = Ok RLE /\ at_ c 1 = Ok true.
Proof. vm_compute. done. Qed.
