(* ===== verification/Rational.v ===== *)
(** Sums of rationals, which stand for the finite values of [double] in the
    model of the linear programs: the lemmas are up to [Qeq]. *)

From Stdlib Require Export QArith Qminmax Lqa.
From S2P Require Import Prelude.

#[global] Open Scope nat_scope.

(** The sum of a list. *)
Fixpoint sumQ (l : list Q) : Q := match l with [] => 0%Q | x :: l' => (x + sumQ l')%Q end.

(** The sum of [f] over a list. *)
Definition sum_of {A} (f : A -> Q) (l : list A) : Q := sumQ (f <$> l).

Section sums.
Context {A : Type}.
Implicit Types (f g : A -> Q) (l : list A).
Local Open Scope Q_scope.

Lemma sum_of_nil f : sum_of f [] = 0.
Proof. done. Qed.

Lemma sum_of_cons f a l : sum_of f (a :: l) = f a + sum_of f l.
Proof. done. Qed.

Lemma sum_of_app f l1 l2 : sum_of f (l1 ++ l2) == sum_of f l1 + sum_of f l2.
Proof.
  induction l1 as [|a l1 IH]; [cbn [app]; rewrite sum_of_nil; lra|]. cbn [app]. rewrite !sum_of_cons, IH. lra.
Qed.

Lemma sum_of_ext f g l : (forall a, a ∈ l -> f a == g a) -> sum_of f l == sum_of g l.
Proof.
  induction l as [|a l IH]; intros H; [done|]. rewrite !sum_of_cons, H, IH by set_solver. done.
Qed.

Lemma sum_of_plus f g l : sum_of (λ a, f a + g a) l == sum_of f l + sum_of g l.
Proof. induction l as [|a l IH]; [rewrite !sum_of_nil; lra|]. rewrite !sum_of_cons, IH. lra. Qed.

Lemma sum_of_scale c f l : sum_of (λ a, c * f a) l == c * sum_of f l.
Proof. induction l as [|a l IH]; [rewrite !sum_of_nil; lra|]. rewrite !sum_of_cons, IH. lra. Qed.

Lemma sum_of_minus f g l : sum_of (λ a, f a - g a) l == sum_of f l - sum_of g l.
Proof. induction l as [|a l IH]; [rewrite !sum_of_nil; lra|]. rewrite !sum_of_cons, IH. lra. Qed.

Lemma sum_of_zero f l : (forall a, a ∈ l -> f a == 0) -> sum_of f l == 0.
Proof. induction l as [|a l IH]; intros H; [done|]. rewrite sum_of_cons, H, IH by set_solver. lra. Qed.

Lemma sum_of_le f g l : (forall a, a ∈ l -> f a <= g a) -> sum_of f l <= sum_of g l.
Proof.
  induction l as [|a l IH]; intros H; [done|]. rewrite !sum_of_cons.
  assert (f a <= g a) by (apply H; set_solver). assert (sum_of f l <= sum_of g l) by (apply IH; set_solver). lra.
Qed.

Lemma sum_of_nonneg f l : (forall a, a ∈ l -> 0 <= f a) -> 0 <= sum_of f l.
Proof.
  induction l as [|a l IH]; intros H; [done|]. rewrite !sum_of_cons.
  assert (0 <= f a) by (apply H; set_solver). assert (0 <= sum_of f l) by (apply IH; set_solver). lra.
Qed.

(** One summand of a sum of non-negative ones. *)
Lemma sum_of_elem_le f l a : (forall b, b ∈ l -> 0 <= f b) -> a ∈ l -> f a <= sum_of f l.
Proof.
  induction l as [|b l IH]; intros H Ha; [set_solver|]. rewrite sum_of_cons.
  assert (0 <= f b) by (apply H; set_solver).
  assert (0 <= sum_of f l) by (apply sum_of_nonneg; set_solver).
  apply elem_of_cons in Ha as [->|Ha]; [lra|]. assert (f a <= sum_of f l) by (apply IH; set_solver). lra.
Qed.

Lemma sum_of_all_zero f l : (forall b, b ∈ l -> 0 <= f b) -> sum_of f l <= 0 -> forall a, a ∈ l -> f a == 0.
Proof.
  intros H Hs a Ha. pose proof (sum_of_elem_le f l a H Ha). pose proof (H a Ha). lra.
Qed.

(** A sum over the elements with a property. *)
Lemma sum_of_filter (P : A -> Prop) `{forall a, Decision (P a)} f l :
  sum_of f (filter P l) == sum_of (λ a, if decide (P a) then f a else 0) l.
Proof.
  induction l as [|a l IH]; [done|]. rewrite filter_cons, sum_of_cons. case_decide; rewrite ?sum_of_cons, IH; lra.
Qed.

Lemma sum_of_fmap {B} (h : B -> A) f (l : list B) : sum_of f (h <$> l) = sum_of (λ b, f (h b)) l.
Proof. unfold sum_of. by rewrite <-list_fmap_compose. Qed.

(** The summand of one element of a list without duplicates. *)
Lemma sum_of_single `{EqDecision A} f l a :
  NoDup l -> a ∈ l -> (forall b, b ∈ l -> b <> a -> f b == 0) -> sum_of f l == f a.
Proof.
  induction 1 as [|b l Hb Hnd IH]; intros Ha Hz; [set_solver|]. rewrite sum_of_cons.
  apply elem_of_cons in Ha as [->|Ha].
  - rewrite (sum_of_zero f l); [lra|]. intros c Hc. apply Hz; set_solver.
  - rewrite IH by set_solver. rewrite (Hz b) by set_solver. lra.
Qed.
End sums.

#[global] Instance sum_of_proper {A} (f : A -> Q) : Proper ((≡ₚ) ==> Qeq) (sum_of f).
Proof.
  intros l1 l2 Hp. induction Hp; [done| | |]; rewrite ?sum_of_cons.
  - by rewrite IHHp.
  - rewrite ?sum_of_cons. lra.
  - by etrans.
Qed.

Lemma sum_of_bind {A B} (h : B -> list A) (f : A -> Q) (l : list B) : (sum_of f (l ≫= h) == sum_of (λ b, sum_of f (h b)) l)%Q.
Proof. induction l as [|b l IH]; [done|]. cbn [mbind list_bind]. by rewrite sum_of_app, sum_of_cons, IH. Qed.

(** A sum over some of the elements of a list. *)
Lemma sum_of_sub {A} `{EqDecision A} (f : A -> Q) (l1 l2 : list A) :
  NoDup l1 -> NoDup l2 -> l1 ⊆ l2 -> (sum_of f l1 == sum_of (λ a, if decide (a ∈ l1) then f a else 0) l2)%Q.
Proof.
  intros H1 H2 Hsub. rewrite <-sum_of_filter. apply sum_of_proper, NoDup_Permutation; [done|by apply NoDup_filter|].
  intros a. rewrite list_elem_of_filter. set_solver.
Qed.

Lemma sum_of_swap {A B} (f : A -> B -> Q) (l1 : list A) (l2 : list B) :
  (sum_of (λ a, sum_of (f a) l2) l1 == sum_of (λ b, sum_of (λ a, f a b) l1) l2)%Q.
Proof.
  induction l1 as [|a l1 IH].
  - rewrite sum_of_nil. symmetry. by apply sum_of_zero.
  - rewrite sum_of_cons, IH, <-sum_of_plus. done.
Qed.
