(* ===== verification/LinearProgram.v ===== *)
(** Model of the linear programs of [src/src/lp/lp.h] and [src/src/lp/lp.cc]:
    the problem that clients build through the methods of [Problem], its
    meaning, and the handle of the CPLEX build that stores it.  Finite values
    of [double] are rationals; the optimizer itself is a library and a
    parameter. *)

From S2P Require Import Prelude Rational.

(** A bound of a range, which may be [Problem::kInifinity] or
    [Problem::kNegativeInifinity]. *)
Inductive bound := NegInf | Fin (q : Q) | PosInf.

(** [a == b] on doubles. *)
Definition bound_eqb (a b : bound) : bool :=
  match a, b with
  | NegInf, NegInf | PosInf, PosInf => true
  | Fin x, Fin y => Qeq_bool x y
  | _, _ => false
  end.

Definition at_least (b : bound) (v : Q) : Prop :=
  match b with NegInf => True | Fin q => (q <= v)%Q | PosInf => False end.
Definition at_most (b : bound) (v : Q) : Prop :=
  match b with NegInf => False | Fin q => (v <= q)%Q | PosInf => True end.
Definition within (r : bound * bound) (v : Q) : Prop := at_least r.1 v /\ at_most r.2 v.

#[global] Instance within_proper r : Proper (Qeq ==> iff) (within r).
Proof.
  intros v v' Hv. unfold within, at_least, at_most. destruct r as [[] []]; cbn; rewrite ?Hv; done.
Qed.

Inductive SolutionType := OPTIMAL | FEASIBLE | INFEASIBLE_OR_UNBOUNDED.
Inductive Direction := MINIMIZE | MAXIMIZE.

Record ProblemMatrixElement := mkElement { constraint : nat; variable : nat; value : Q }.

(** ** Solution *)
Module Solution.
Record t := mk { solution_type_ : SolutionType; objective_value_ : Q; variables_ : list Q; timed_out_ : bool }.

(** The solution that [Solve] starts from. *)
Definition init : t := mk INFEASIBLE_OR_UNBOUNDED 0 [] false.

Definition ObjectiveValue : t -> Q := objective_value_.
Definition VariableValue (s : t) (v : nat) : outcome Q := vec_at (variables_ s) v.
Definition type : t -> SolutionType := solution_type_.
Definition timed_out : t -> bool := timed_out_.

(** The values as a function of the variable. *)
Definition assignment (s : t) (v : nat) : Q := default 0%Q (variables_ s !! v).

(** [solution->type() == OPTIMAL || solution->type() == FEASIBLE]. *)
Definition found (s : t) : bool := match type s with OPTIMAL | FEASIBLE => true | INFEASIBLE_OR_UNBOUNDED => false end.
End Solution.

(** ** The problem as clients see it *)
Module Problem.

(** A variable: its range, or 0 and 1 when it is binary. *)
Record var := mkVar { var_range : bound * bound; binary : bool }.

(** The range of a constraint is [None] until it is set: what an unset range
    means depends on the optimizer. *)
Record t := mk {
  direction : Direction;
  vars : list var;
  rows : list (option (bound * bound));
  elements : list ProblemMatrixElement;
  objective : list Q;
  offset : Q
}.

Definition init (d : Direction) : t := mk d [] [] [] [] 0.

Definition AddVariable (p : t) (is_binary : bool) : t * nat :=
  (mk (direction p) (vars p ++ [mkVar (Fin 0, if is_binary then Fin 1 else Fin 0) is_binary]) (rows p) (elements p)
      (objective p ++ [0%Q]) (offset p), length (vars p)).

Definition AddConstraint (p : t) : t * nat :=
  (mk (direction p) (vars p) (rows p ++ [None]) (elements p) (objective p) (offset p), length (rows p)).

Definition SetVariableRange (p : t) (v : nat) (min max : bound) : outcome t :=
  x ← (vec_at (vars p) v : outcome var);
  _ ← check (negb (binary x));
  Ok (mk (direction p) (<[v := mkVar (min, max) false]> (vars p)) (rows p) (elements p) (objective p) (offset p)).

Definition SetConstraintRange (p : t) (c : nat) (min max : bound) : outcome t :=
  _ ← (vec_at (rows p) c : outcome (option (bound * bound)));
  Ok (mk (direction p) (vars p) (<[c := Some (min, max)]> (rows p)) (elements p) (objective p) (offset p)).

Definition SetMatrix (p : t) (es : list ProblemMatrixElement) : t :=
  mk (direction p) (vars p) (rows p) es (objective p) (offset p).

Definition SetObjectiveCoefficient (p : t) (v : nat) (q : Q) : outcome t :=
  _ ← (vec_at (objective p) v : outcome Q);
  Ok (mk (direction p) (vars p) (rows p) (elements p) (<[v := q]> (objective p)) (offset p)).

Definition SetObjectiveOffset (p : t) (q : Q) : t :=
  mk (direction p) (vars p) (rows p) (elements p) (objective p) q.

End Problem.

(** ** The meaning of a problem *)

(** The value of a row of the matrix. *)
Definition row_value (es : list ProblemMatrixElement) (c : nat) (x : nat -> Q) : Q :=
  sum_of (λ e, if decide (constraint e = c) then (value e * x (variable e))%Q else 0%Q) es.

Definition var_ok (x : Problem.var) (v : Q) : Prop :=
  within (Problem.var_range x) v /\ (Problem.binary x = true -> (v == 0)%Q \/ (v == 1)%Q).

Definition feasible (p : Problem.t) (x : nat -> Q) : Prop :=
  (forall v var, Problem.vars p !! v = Some var -> var_ok var (x v)) /\
  (forall c r, Problem.rows p !! c = Some (Some r) -> within r (row_value (Problem.elements p) c x)).

Definition linear_objective (cs : list Q) (x : nat -> Q) : Q :=
  sum_of (λ v, (default 0 (cs !! v) * x v)%Q) (seq 0 (length cs)).

Definition objective_value (p : Problem.t) (x : nat -> Q) : Q :=
  (linear_objective (Problem.objective p) x + Problem.offset p)%Q.

(** [a] is at least as good as [b]. *)
Definition as_good (d : Direction) (a b : Q) : Prop :=
  match d with MINIMIZE => (a <= b)%Q | MAXIMIZE => (b <= a)%Q end.

(** The objective takes values beyond every bound. *)
Definition unbounded (p : Problem.t) : Prop :=
  forall b, exists x, feasible p x /\ as_good (Problem.direction p) (objective_value p x) b.

(** What the documentation of [Solve] promises of a solution. *)
Definition solves (p : Problem.t) (s : Solution.t) : Prop :=
  let x := Solution.assignment s in
  match Solution.type s with
  | INFEASIBLE_OR_UNBOUNDED => (forall y, ~ feasible p y) \/ unbounded p
  | ty =>
      length (Solution.variables_ s) = length (Problem.vars p) /\ feasible p x /\
      (Solution.ObjectiveValue s == objective_value p x)%Q /\
      (ty = OPTIMAL -> forall y, feasible p y -> as_good (Problem.direction p) (objective_value p x) (objective_value p y))
  end.

(** ** The CPLEX build *)
Module Cplex.

Inductive sense_t := SenseE | SenseL | SenseG | SenseR.

Record CPLEXHandle := mk {
  variable_lb : list Q;
  variable_ub : list Q;
  obj_coefficients : list Q;
  binary_variables : gset nat;
  rhs : list bound;
  rangeval : list bound;
  sense : list sense_t;
  matrix_elements : list ProblemMatrixElement;
  obj_offset : Q;
  direction : Direction
}.

Section ops.
(** The bound that CPLEX takes for infinite. *)
Context (CPX_INFBOUND : Q).

Definition lower_of (min : bound) : outcome Q :=
  match min with NegInf => Ok (- CPX_INFBOUND)%Q | Fin q => Ok q | PosInf => Fail Undefined end.
Definition upper_of (max : bound) : outcome Q :=
  match max with PosInf => Ok CPX_INFBOUND | Fin q => Ok q | NegInf => Fail Undefined end.

(** A lower bound of infinity and an upper bound of minus infinity are handed
    to CPLEX as they are; what it makes of them is not documented. *)
Definition HandleInifinities (min max : bound) : outcome (Q * Q) := l ← lower_of min; u ← upper_of max; Ok (l, u).

Definition init (d : Direction) : CPLEXHandle := mk [] [] [] ∅ [] [] [] [] 0 d.

Definition AddConstraint (h : CPLEXHandle) : CPLEXHandle * nat :=
  (mk (variable_lb h) (variable_ub h) (obj_coefficients h) (binary_variables h) (rhs h ++ [Fin 0]) (rangeval h ++ [Fin 0])
      (sense h ++ [SenseE]) (matrix_elements h) (obj_offset h) (direction h), length (rhs h)).

Definition AddVariable (h : CPLEXHandle) (binary : bool) : CPLEXHandle * nat :=
  let return_index := length (variable_lb h) in
  (mk (variable_lb h ++ [0%Q]) (variable_ub h ++ [if binary then 1%Q else 0%Q]) (obj_coefficients h ++ [0%Q])
      (if binary then binary_variables h ∪ {[return_index]} else binary_variables h)
      (rhs h) (rangeval h) (sense h) (matrix_elements h) (obj_offset h) (direction h), return_index).

Definition SetMatrix (h : CPLEXHandle) (es : list ProblemMatrixElement) : CPLEXHandle :=
  mk (variable_lb h) (variable_ub h) (obj_coefficients h) (binary_variables h) (rhs h) (rangeval h) (sense h) es (obj_offset h) (direction h).

(** [max - min], where one of them may be infinite on the wrong side. *)
Definition range_length (min max : bound) : bound :=
  match min, max with Fin a, Fin b => Fin (b - a) | _, _ => NegInf end.

(** The new row: right hand side, range value and sense. *)
Definition row_of_range (min max : bound) : bound * bound * sense_t :=
  if bound_eqb min NegInf && bound_eqb max NegInf then (Fin (- CPX_INFBOUND), Fin (2 * CPX_INFBOUND), SenseR)
  else if bound_eqb min max then (min, Fin 0, SenseE)
  else if bound_eqb min NegInf then (max, Fin 0, SenseL)
  else if bound_eqb max PosInf then (min, Fin 0, SenseG)
  else (min, range_length min max, SenseR).

Definition SetConstraintRange (h : CPLEXHandle) (c : nat) (min max : bound) : outcome CPLEXHandle :=
  _ ← (vec_at (rhs h) c : outcome bound);
  let '(r, v, s) := row_of_range min max in
  Ok (mk (variable_lb h) (variable_ub h) (obj_coefficients h) (binary_variables h) (<[c := r]> (rhs h)) (<[c := v]> (rangeval h))
         (<[c := s]> (sense h)) (matrix_elements h) (obj_offset h) (direction h)).

Definition SetVariableRange (h : CPLEXHandle) (v : nat) (min max : bound) : outcome CPLEXHandle :=
  _ ← check (bool_decide (v ∉ binary_variables h));
  '(new_min, new_max) ← HandleInifinities min max;
  _ ← (vec_at (variable_lb h) v : outcome Q);
  Ok (mk (<[v := new_min]> (variable_lb h)) (<[v := new_max]> (variable_ub h)) (obj_coefficients h) (binary_variables h)
         (rhs h) (rangeval h) (sense h) (matrix_elements h) (obj_offset h) (direction h)).

Definition SetObjectiveCoefficient (h : CPLEXHandle) (v : nat) (q : Q) : outcome CPLEXHandle :=
  _ ← (vec_at (obj_coefficients h) v : outcome Q);
  Ok (mk (variable_lb h) (variable_ub h) (<[v := q]> (obj_coefficients h)) (binary_variables h) (rhs h) (rangeval h) (sense h)
         (matrix_elements h) (obj_offset h) (direction h)).

Definition SetObjectiveOffset (h : CPLEXHandle) (q : Q) : CPLEXHandle :=
  mk (variable_lb h) (variable_ub h) (obj_coefficients h) (binary_variables h) (rhs h) (rangeval h) (sense h) (matrix_elements h) q (direction h).
End ops.

(** *** Solving *)

(** The statuses that [Solve] tells apart. *)
Inductive solstat_t := STAT_OPTIMAL | MIP_OPTIMAL | MIP_OPTIMAL_TOL | STAT_FEASIBLE | MIP_FEASIBLE | STAT_OTHER.

(** What the library makes of the arrays: it may fail to open, to take the
    problem, to optimize or to return a solution ([None]).  The flag says
    that optimizing took longer than the time limit. *)
Record answer := mkAnswer { late : bool; status : option (solstat_t * Q * list Q) }.

Definition Solve (cplex : CPLEXHandle -> option answer) (h : CPLEXHandle) : Solution.t :=
  match cplex h with
  | None => Solution.init
  | Some a =>
      match status a with
      | None => Solution.mk INFEASIBLE_OR_UNBOUNDED 0 [] (late a)
      | Some (solstat, obj_value, x) =>
          match solstat with
          | STAT_OPTIMAL | MIP_OPTIMAL | MIP_OPTIMAL_TOL => Solution.mk OPTIMAL (obj_value + obj_offset h) x (late a)
          | STAT_FEASIBLE | MIP_FEASIBLE => Solution.mk FEASIBLE (obj_value + obj_offset h) x (late a)
          | STAT_OTHER => Solution.mk INFEASIBLE_OR_UNBOUNDED 0 [] (late a)
          end
      end
  end.
End Cplex.

(** [GetBoundType] of the GLPK build, and what the types of GLPK mean. *)
Module Glpk.
Inductive bound_type := GLP_FR | GLP_LO | GLP_UP | GLP_DB | GLP_FX.

Definition GetBoundType (min max : bound) : bound_type :=
  if bound_eqb min NegInf && bound_eqb max PosInf then GLP_FR
  else if bound_eqb min max then GLP_FX
  else if bound_eqb min NegInf then GLP_UP
  else if bound_eqb max PosInf then GLP_LO
  else GLP_DB.

Definition means (ty : bound_type) (min max : bound) (v : Q) : Prop :=
  match ty with
  | GLP_FR => True
  | GLP_LO => at_least min v
  | GLP_UP => at_most max v
  | GLP_DB => at_least min v /\ at_most max v
  | GLP_FX => at_least min v /\ at_most min v
  end.
End Glpk.

(** ** The interface *)

(** The methods of [Problem]; the two builds and the model of what clients see
    are instances. *)
Class ProblemOps (P : Type) := {
  op_AddVariable : P -> bool -> P * nat;
  op_AddConstraint : P -> P * nat;
  op_SetVariableRange : P -> nat -> bound -> bound -> outcome P;
  op_SetConstraintRange : P -> nat -> bound -> bound -> outcome P;
  op_SetMatrix : P -> list ProblemMatrixElement -> P;
  op_SetObjectiveCoefficient : P -> nat -> Q -> outcome P;
  op_SetObjectiveOffset : P -> Q -> P
}.

#[global] Instance problem_ops : ProblemOps Problem.t := {
  op_AddVariable := Problem.AddVariable;
  op_AddConstraint := Problem.AddConstraint;
  op_SetVariableRange := Problem.SetVariableRange;
  op_SetConstraintRange := Problem.SetConstraintRange;
  op_SetMatrix := Problem.SetMatrix;
  op_SetObjectiveCoefficient := Problem.SetObjectiveCoefficient;
  op_SetObjectiveOffset := Problem.SetObjectiveOffset
}.

Definition cplex_ops (inf : Q) : ProblemOps Cplex.CPLEXHandle := {|
  op_AddVariable := Cplex.AddVariable;
  op_AddConstraint := Cplex.AddConstraint;
  op_SetVariableRange := Cplex.SetVariableRange inf;
  op_SetConstraintRange := Cplex.SetConstraintRange inf;
  op_SetMatrix := Cplex.SetMatrix;
  op_SetObjectiveCoefficient := Cplex.SetObjectiveCoefficient;
  op_SetObjectiveOffset := Cplex.SetObjectiveOffset
|}.

(** A call of a client. *)
Inductive call :=
| AddVariable (binary : bool)
| AddConstraint
| SetVariableRange (v : nat) (min max : bound)
| SetConstraintRange (c : nat) (min max : bound)
| SetMatrix (es : list ProblemMatrixElement)
| SetObjectiveCoefficient (v : nat) (q : Q)
| SetObjectiveOffset (q : Q).

Definition do_call `{ProblemOps P} (p : P) (c : call) : outcome P :=
  match c with
  | AddVariable b => Ok (op_AddVariable p b).1
  | AddConstraint => Ok (op_AddConstraint p).1
  | SetVariableRange v min max => op_SetVariableRange p v min max
  | SetConstraintRange c min max => op_SetConstraintRange p c min max
  | SetMatrix es => Ok (op_SetMatrix p es)
  | SetObjectiveCoefficient v q => op_SetObjectiveCoefficient p v q
  | SetObjectiveOffset q => Ok (op_SetObjectiveOffset p q)
  end.

Definition do_calls `{ProblemOps P} (cs : list call) (p : P) : outcome P := mfold do_call cs p.

(** ** The handle means the problem *)

Section cplex.
Context (inf : Q) (inf_pos : (1 < inf)%Q).
Local Open Scope Q_scope.

(** What CPLEX documents of the arrays, for a solution that may miss a bound
    by a tolerance [tol]: bounds of at least [inf] are infinite, and an integer
    variable is integral up to the tolerance. *)
Definition cplex_var_ok (tol lb ub v : Q) : Prop := (lb <= - inf \/ lb - tol <= v) /\ (inf <= ub \/ v <= ub + tol).

(** The right hand side of a row and its range value are finite: otherwise
    nothing is documented. *)
Definition documented_row (row : bound * bound * Cplex.sense_t) : Prop :=
  match row with (Fin a, Fin l, _) => True | _ => False end.

Definition cplex_row_ok (tol : Q) (row : bound * bound * Cplex.sense_t) (v : Q) : Prop :=
  match row with
  | (Fin a, _, Cplex.SenseE) => a - tol <= v <= a + tol
  | (Fin a, _, Cplex.SenseL) => v <= a + tol
  | (Fin a, _, Cplex.SenseG) => a - tol <= v
  | (Fin a, Fin l, Cplex.SenseR) => if Qle_bool 0 l then a - tol <= v <= a + l + tol else a + l - tol <= v <= a + tol
  | _ => False
  end.

Definition cplex_feasible (tol : Q) (h : Cplex.CPLEXHandle) (x : nat -> Q) : Prop :=
  (forall v lb ub, Cplex.variable_lb h !! v = Some lb -> Cplex.variable_ub h !! v = Some ub ->
     cplex_var_ok tol lb ub (x v) /\ (v ∈ Cplex.binary_variables h -> - tol <= x v <= tol \/ 1 - tol <= x v <= 1 + tol)) /\
  (forall c r len s, Cplex.rhs h !! c = Some r -> Cplex.rangeval h !! c = Some len -> Cplex.sense h !! c = Some s ->
     cplex_row_ok tol (r, len, s) (row_value (Cplex.matrix_elements h) c x)).

(** A place of the matrix, which [CPXchgcoeflist] must not be given twice. *)
Definition place (e : ProblemMatrixElement) : nat * nat := (constraint e, variable e).

(** Arrays whose meaning is documented. *)
Definition documented_handle (h : Cplex.CPLEXHandle) : Prop :=
  (forall c r len s, Cplex.rhs h !! c = Some r -> Cplex.rangeval h !! c = Some len -> Cplex.sense h !! c = Some s ->
     documented_row (r, len, s)) /\
  NoDup (place <$> Cplex.matrix_elements h) /\
  Forall (λ e, constraint e < length (Cplex.rhs h) /\ variable e < length (Cplex.variable_lb h))%nat (Cplex.matrix_elements h).

(** A range with a lower and an upper end that CPLEX takes for what they are. *)
Definition sane_range (r : bound * bound) : Prop :=
  match r with
  | (PosInf, _) | (_, NegInf) => False
  | (Fin a, Fin b) => a <= b
  | _ => True
  end.
Definition moderate_bound (b : bound) : Prop := match b with Fin q => - inf < q < inf | _ => True end.

(** A range of a constraint has an end: [SetConstraintRange] makes a row with an
    infinite right hand side of a range without ends. *)
Definition bounded_range (r : bound * bound) : Prop := r <> (NegInf, PosInf).

Definition sane_call (c : call) : Prop :=
  match c with
  | SetVariableRange _ min max => sane_range (min, max) /\ moderate_bound min /\ moderate_bound max
  | SetConstraintRange _ min max => sane_range (min, max) /\ bounded_range (min, max)
  | SetMatrix es => NoDup (place <$> es)
  | _ => True
  end.

(** The problem with its ranges widened by a tolerance. *)
Definition widened (tol : Q) (r : bound * bound) : bound * bound :=
  (match r.1 with Fin a => Fin (a - tol) | b => b end, match r.2 with Fin a => Fin (a + tol) | b => b end).

Definition nearly_feasible (tol : Q) (p : Problem.t) (x : nat -> Q) : Prop :=
  (forall v var, Problem.vars p !! v = Some var -> within (widened tol (Problem.var_range var)) (x v) /\
     (Problem.binary var = true -> - tol <= x v <= tol \/ 1 - tol <= x v <= 1 + tol)) /\
  (forall c r, Problem.rows p !! c = Some (Some r) -> within (widened tol r) (row_value (Problem.elements p) c x)).

Lemma widened_0 r v : within (widened 0 r) v <-> within r v.
Proof using Type. unfold within, widened. destruct r as [[] []]; cbn; lra. Qed.

(** Without a tolerance these are the feasible assignments. *)
Lemma nearly_feasible_0 p x : nearly_feasible 0 p x <-> feasible p x.
Proof using Type.
  unfold nearly_feasible, feasible, var_ok. f_equiv; [|by setoid_rewrite widened_0].
  setoid_rewrite widened_0. split; intros H v var Hv; destruct (H v var Hv) as [H1 H2]; (split; [done|]); intros Hb; destruct (H2 Hb); lra.
Qed.

Lemma bound_eqb_spec a b v : bound_eqb a b = true -> (at_least a v <-> at_least b v) /\ (at_most a v <-> at_most b v).
Proof using Type.
  destruct a, b; cbn; try done. intros H%Qeq_bool_iff. by rewrite H.
Qed.

(** Every branch of [SetConstraintRange] means the range. *)
Lemma row_of_range_means tol min max v :
  sane_range (min, max) -> bounded_range (min, max) ->
  documented_row (Cplex.row_of_range inf min max) /\
  (cplex_row_ok tol (Cplex.row_of_range inf min max) v <-> within (widened tol (min, max)) v).
Proof using Type.
  intros Hs Hb. unfold Cplex.row_of_range, within, widened, bounded_range in *. cbn [fst snd].
  destruct min as [|a|], max as [|b|]; try done; cbn [bound_eqb andb documented_row cplex_row_ok at_least at_most Cplex.range_length].
  - split; [done|tauto].
  - destruct (Qeq_bool a b) eqn:Hab; cbn [documented_row cplex_row_ok].
    + apply Qeq_bool_iff in Hab. split; [done|]. rewrite Hab. tauto.
    + split; [done|]. cbn in Hs. rewrite (proj2 (Qle_bool_iff 0 (b - a))) by lra. lra.
  - split; [done|tauto].
Qed.

Lemma glpk_means min max v : sane_range (min, max) -> Glpk.means (Glpk.GetBoundType min max) min max v <-> within (min, max) v.
Proof using Type.
  intros Hs. unfold Glpk.GetBoundType, within. cbn [fst snd].
  destruct (bound_eqb min NegInf && bound_eqb max PosInf) eqn:H1.
  { apply andb_true_iff in H1 as [H H']. by destruct min, max. }
  destruct (bound_eqb min max) eqn:H2.
  { cbn [Glpk.means]. pose proof (bound_eqb_spec min max v H2). tauto. }
  destruct (bound_eqb min NegInf) eqn:H3; [destruct min; try done; cbn; tauto|].
  destruct (bound_eqb max PosInf) eqn:H4; [destruct max; try done; cbn; tauto|]. done.
Qed.

(** The bounds of a variable as they are stored. *)
Definition stored_bounds (r : bound * bound) (lb ub : Q) : Prop :=
  Cplex.HandleInifinities inf r.1 r.2 = Ok (lb, ub) /\ moderate_bound r.1 /\ moderate_bound r.2.

Lemma stored_bounds_means tol r lb ub v : stored_bounds r lb ub -> cplex_var_ok tol lb ub v <-> within (widened tol r) v.
Proof using inf_pos.
  destruct r as [lo hi]. unfold stored_bounds, Cplex.HandleInifinities, cplex_var_ok, within, widened. cbn [fst snd].
  intros (H & Hl & Hu). destruct lo, hi; cbn in *; simplify_eq; lra.
Qed.

Record stores (h : Cplex.CPLEXHandle) (p : Problem.t) : Prop := {
  st_ub : length (Cplex.variable_ub h) = length (Cplex.variable_lb h);
  st_vars : length (Cplex.variable_lb h) = length (Problem.vars p);
  st_bounds : forall v x lb ub, Problem.vars p !! v = Some x ->
    Cplex.variable_lb h !! v = Some lb -> Cplex.variable_ub h !! v = Some ub -> stored_bounds (Problem.var_range x) lb ub;
  st_binary : forall v, v ∈ Cplex.binary_variables h <-> exists x, Problem.vars p !! v = Some x /\ Problem.binary x = true;
  st_rhs : length (Cplex.rhs h) = length (Problem.rows p);
  st_rangeval : length (Cplex.rangeval h) = length (Problem.rows p);
  st_sense : length (Cplex.sense h) = length (Problem.rows p);
  st_rows : forall c min max, Problem.rows p !! c = Some (Some (min, max)) ->
    sane_range (min, max) /\ bounded_range (min, max) /\ exists r len s, Cplex.rhs h !! c = Some r /\ Cplex.rangeval h !! c = Some len /\
      Cplex.sense h !! c = Some s /\ Cplex.row_of_range inf min max = (r, len, s);
  st_elements : Cplex.matrix_elements h = Problem.elements p;
  st_places : NoDup (place <$> Problem.elements p);
  st_objective : Cplex.obj_coefficients h = Problem.objective p;
  st_offset : Cplex.obj_offset h = Problem.offset p;
  st_direction : Cplex.direction h = Problem.direction p
}.

Lemma stores_init d : stores (Cplex.init d) (Problem.init d).
Proof using inf_pos.
  split; try done; [|constructor]. intros v. split; [set_solver|]. by intros (x & Hx & _).
Qed.

Lemma lookup_snoc_cases {A} (l : list A) (a b : A) i :
  (l ++ [a]) !! i = Some b -> ((i < length l)%nat /\ l !! i = Some b) \/ (i = length l /\ b = a).
Proof using Type.
  clear. intros H. destruct (decide (i < length l)%nat) as [Hi|Hi].
  - left. by rewrite lookup_app_l in H.
  - right. rewrite lookup_app_r in H by lia. destruct (i - length l)%nat as [|k] eqn:Hk; [|done].
    cbn in H. simplify_eq. split; [lia|done].
Qed.

Lemma lookup_snoc_eq {A} (l : list A) (a : A) i : i = length l -> (l ++ [a]) !! i = Some a.
Proof using Type. clear. intros ->. rewrite lookup_app_r, Nat.sub_diag by lia. done. Qed.

Lemma stores_AddVariable h p b : stores h p -> stores (Cplex.AddVariable h b).1 (Problem.AddVariable p b).1.
Proof using inf_pos.
  intros S. destruct S. split; cbn; rewrite ?length_app; cbn; try congruence; try lia; try done.
  - intros v x lb ub [[Hv Hx]|[Hv ->]]%lookup_snoc_cases.
    + rewrite !lookup_app_l by lia. apply (st_bounds0 v x lb ub Hx).
    + rewrite !lookup_snoc_eq by lia. intros; simplify_eq. unfold stored_bounds. destruct b; cbn; repeat split; lra.
  - intros v. destruct b; [rewrite elem_of_union, elem_of_singleton|]; rewrite st_binary0; split.
    + intros [(x & Hx & Hb)| ->].
      * exists x. split; [|done]. by apply lookup_app_l_Some.
      * eexists. rewrite lookup_snoc_eq by lia. done.
    + intros (x & [[Hv Hx]|[Hv ->]]%lookup_snoc_cases & Hb); [left; eauto|right; lia].
    + intros (x & Hx & Hb). exists x. split; [|done]. by apply lookup_app_l_Some.
    + intros (x & [[Hv Hx]|[Hv ->]]%lookup_snoc_cases & Hb); [eauto|done].
Qed.

Lemma stores_AddConstraint h p : stores h p -> stores (Cplex.AddConstraint h).1 (Problem.AddConstraint p).1.
Proof using inf_pos.
  intros S. destruct S. split; cbn; rewrite ?length_app; cbn; try congruence; try done.
  intros c min max [[Hc Hr]|[_ Hr]]%lookup_snoc_cases; [|done].
  destruct (st_rows0 c min max Hr) as (Hs & Hb & r & len & s & H1 & H2 & H3 & H4). split_and!; [done..|].
  exists r, len, s. split_and!; [by apply lookup_app_l_Some..|done].
Qed.

Lemma stores_SetVariableRange h p v min max p' :
  stores h p -> sane_call (SetVariableRange v min max) -> Problem.SetVariableRange p v min max = Ok p' ->
  exists h', Cplex.SetVariableRange inf h v min max = Ok h' /\ stores h' p'.
Proof using inf_pos.
  intros S (Hs & Hmin & Hmax) H. unfold Problem.SetVariableRange in H. inv_ok. rename x into var.
  match goal with H : negb _ = true |- _ => apply negb_true_iff in H; rename H into Hb end.
  match goal with H : Problem.vars p !! v = _ |- _ => rename H into Hv end. destruct S.
  assert (Hlt : (v < length (Problem.vars p))%nat) by (by eapply lookup_lt_Some).
  destruct (lookup_lt_is_Some_2 (Cplex.variable_lb h) v) as [lb0 Hlb0]; [lia|].
  assert (HH : exists lb ub, Cplex.HandleInifinities inf min max = Ok (lb, ub)).
  { unfold Cplex.HandleInifinities. destruct min, max; cbn in *; try done; eauto. }
  destruct HH as (lb & ub & HH).
  unfold Cplex.SetVariableRange. rewrite bool_decide_true by (rewrite st_binary0; intros (? & ? & ?); simplify_eq; congruence).
  cbn [check]. rewrite bind_Ok_l, HH, bind_Ok_l. rewrite (proj2 (vec_at_Ok _ _ _) Hlb0), bind_Ok_l.
  eexists. split; [done|]. split; cbn; rewrite ?length_insert; try done.
  - intros v' x lb' ub'. destruct (decide (v = v')) as [<-|Hne].
    + rewrite !list_lookup_insert_eq by lia. intros; simplify_eq. by split.
    + rewrite !list_lookup_insert_ne by done. apply st_bounds0.
  - intros v'. rewrite st_binary0. destruct (decide (v = v')) as [<-|Hne].
    + rewrite list_lookup_insert_eq by lia. split; intros (x & Hx & Hxb); simplify_eq; try done. congruence.
    + by rewrite list_lookup_insert_ne.
Qed.

Lemma stores_SetConstraintRange h p c min max p' :
  stores h p -> sane_call (SetConstraintRange c min max) -> Problem.SetConstraintRange p c min max = Ok p' ->
  exists h', Cplex.SetConstraintRange inf h c min max = Ok h' /\ stores h' p'.
Proof using inf_pos.
  intros S [Hs Hb] H. unfold Problem.SetConstraintRange in H. inv_ok.
  match goal with H : Problem.rows p !! c = _ |- _ => rename H into Hc end. destruct S.
  assert (Hlt : (c < length (Problem.rows p))%nat) by (by eapply lookup_lt_Some).
  destruct (lookup_lt_is_Some_2 (Cplex.rhs h) c) as [r0 Hr0]; [lia|].
  unfold Cplex.SetConstraintRange. rewrite (proj2 (vec_at_Ok _ _ _) Hr0), bind_Ok_l.
  destruct (Cplex.row_of_range inf min max) as [[r len] s] eqn:Hrow.
  eexists. split; [done|]. split; cbn; rewrite ?length_insert; try done.
  intros c' lo hi. destruct (decide (c = c')) as [<-|Hne].
  - rewrite !list_lookup_insert_eq by lia. intros; simplify_eq. split_and!; [done..|]. eauto 10.
  - rewrite !list_lookup_insert_ne by done. apply st_rows0.
Qed.

Lemma stores_do_call h p c p' :
  stores h p -> sane_call c -> do_call p c = Ok p' -> exists h', do_call (H := cplex_ops inf) h c = Ok h' /\ stores h' p'.
Proof using inf_pos.
  intros S Hs H. destruct c; cbn in H |- *; try (simplify_eq).
  - eexists. split; [done|]. by apply stores_AddVariable.
  - eexists. split; [done|]. by apply stores_AddConstraint.
  - by eapply stores_SetVariableRange.
  - by eapply stores_SetConstraintRange.
  - eexists. split; [done|]. destruct S. by split.
  - unfold Problem.SetObjectiveCoefficient in H. inv_ok. destruct S. unfold Cplex.SetObjectiveCoefficient.
    match goal with H : Problem.objective p !! _ = _ |- _ => rewrite st_objective0, (proj2 (vec_at_Ok _ _ _) H) end.
    rewrite bind_Ok_l. eexists. split; [done|]. split; cbn; try done.
  - eexists. split; [done|]. destruct S. by split.
Qed.

Lemma stores_do_calls cs h p p' :
  stores h p -> Forall sane_call cs -> do_calls cs p = Ok p' -> exists h', do_calls (H := cplex_ops inf) cs h = Ok h' /\ stores h' p'.
Proof using inf_pos.
  unfold do_calls. revert h p. induction cs as [|c cs IH]; intros h p S Hs H; cbn in H |- *.
  { simplify_eq. eauto. }
  apply Forall_cons in Hs as [Hc Hs]. apply bind_Ok in H as (p1 & Hp1 & H).
  destruct (stores_do_call h p c p1 S Hc Hp1) as (h1 & Hh1 & S1). rewrite Hh1. cbn. by eapply IH.
Qed.

Lemma stores_feasible tol h p x :
  stores h p -> Forall is_Some (Problem.rows p) -> cplex_feasible tol h x <-> nearly_feasible tol p x.
Proof using inf_pos.
  intros S Hrows. destruct S. unfold cplex_feasible, nearly_feasible. rewrite st_elements0. f_equiv.
  - split.
    + intros H v var Hv. assert (v < length (Problem.vars p))%nat by (by eapply lookup_lt_Some).
      destruct (lookup_lt_is_Some_2 (Cplex.variable_lb h) v) as [lb Hlb]; [lia|].
      destruct (lookup_lt_is_Some_2 (Cplex.variable_ub h) v) as [ub Hub]; [lia|].
      destruct (H v lb ub Hlb Hub) as [Hok Hbin]. split.
      * by apply (stored_bounds_means _ _ lb ub); [apply (st_bounds0 v)|].
      * intros Hb. apply Hbin, st_binary0. eauto.
    + intros H v lb ub Hlb Hub. assert (v < length (Cplex.variable_lb h))%nat by (by eapply lookup_lt_Some).
      destruct (lookup_lt_is_Some_2 (Problem.vars p) v) as [var Hv]; [lia|]. destruct (H v var Hv) as [Hok Hbin]. split.
      * apply (stored_bounds_means _ (Problem.var_range var)); [by apply (st_bounds0 v)|done].
      * intros (y & Hy & Hb)%st_binary0. simplify_eq. by apply Hbin.
  - split.
    + intros H c [lo hi] Hc. destruct (st_rows0 c lo hi Hc) as (Hs & Hb & r & len & s & H1 & H2 & H3 & H4).
      apply row_of_range_means; [done..|]. rewrite H4. by apply H.
    + intros H c r len s H1 H2 H3. assert (c < length (Cplex.rhs h))%nat by (by eapply lookup_lt_Some).
      destruct (lookup_lt_is_Some_2 (Problem.rows p) c) as [o Ho]; [lia|].
      destruct (proj1 (Forall_lookup _ _) Hrows c o Ho) as [[lo hi] ->].
      destruct (st_rows0 c lo hi Ho) as (Hs & Hb & r' & len' & s' & H1' & H2' & H3' & H4). simplify_eq.
      rewrite <-H4. apply row_of_range_means; [done..|]. by apply H.
Qed.

(** The elements of the matrix are in rows and columns of the problem. *)
Definition elements_inside (p : Problem.t) : Prop :=
  Forall (λ e, constraint e < length (Problem.rows p) /\ variable e < length (Problem.vars p))%nat (Problem.elements p).

Lemma stores_documented h p :
  stores h p -> Forall is_Some (Problem.rows p) -> elements_inside p -> documented_handle h.
Proof using inf_pos.
  intros S Hrows Hin. destruct S. split_and!.
  - intros c r len s H1 H2 H3. assert (c < length (Cplex.rhs h))%nat by (by eapply lookup_lt_Some).
    destruct (lookup_lt_is_Some_2 (Problem.rows p) c) as [o Ho]; [lia|].
    destruct (proj1 (Forall_lookup _ _) Hrows c o Ho) as [[lo hi] ->].
    destruct (st_rows0 c lo hi Ho) as (Hs & Hb & r' & len' & s' & H1' & H2' & H3' & H4). simplify_eq.
    rewrite <-H4. by apply (row_of_range_means 0 lo hi 0).
  - by rewrite st_elements0.
  - by rewrite st_elements0, st_rhs0, st_vars0.
Qed.

Definition cplex_objective (h : Cplex.CPLEXHandle) (x : nat -> Q) : Q := linear_objective (Cplex.obj_coefficients h) x.

(** [a] is at least as good as [b], up to [gap]. *)
Definition nearly_as_good (d : Direction) (gap a b : Q) : Prop :=
  match d with MINIMIZE => a <= b + gap | MAXIMIZE => b - gap <= a end.

(** What CPLEX documents of its answers, with the feasibility tolerance [tol]
    and the gap [gap] that a mixed integer program may stop at: a solution is
    feasible up to the tolerance, an optimal one is as good as every feasible
    one, with [CPXMIP_OPTIMAL_TOL] up to the gap, and that status belongs to
    programs with integer variables.  Failures, a missing solution and the
    other statuses promise nothing. *)
Definition documented_answer (tol gap : Q) (h : Cplex.CPLEXHandle) (stat : Cplex.solstat_t) (obj : Q) (xs : list Q) : Prop :=
  let x v := default 0 (xs !! v) in
  let found := length xs = length (Cplex.variable_lb h) /\ cplex_feasible tol h x /\ obj == cplex_objective h x in
  let best g := forall y, cplex_feasible 0 h y -> nearly_as_good (Cplex.direction h) g (cplex_objective h x) (cplex_objective h y) in
  match stat with
  | Cplex.STAT_OPTIMAL | Cplex.MIP_OPTIMAL => found /\ best 0
  | Cplex.MIP_OPTIMAL_TOL => found /\ best gap /\ Cplex.binary_variables h <> ∅
  | Cplex.STAT_FEASIBLE | Cplex.MIP_FEASIBLE => found
  | Cplex.STAT_OTHER => True
  end.

Definition answers_as_documented (tol gap : Q) (cplex : Cplex.CPLEXHandle -> option Cplex.answer) (h : Cplex.CPLEXHandle) : Prop :=
  forall late stat obj xs, cplex h = Some (Cplex.mkAnswer late (Some (stat, obj, xs))) -> documented_answer tol gap h stat obj xs.

Definition has_binary (p : Problem.t) : bool := existsb Problem.binary (Problem.vars p).

(** A solution of the problem, up to the tolerances. *)
Definition nearly_solves (tol gap : Q) (p : Problem.t) (s : Solution.t) : Prop :=
  let x := Solution.assignment s in
  length (Solution.variables_ s) = length (Problem.vars p) /\ nearly_feasible tol p x /\
  Solution.ObjectiveValue s == objective_value p x /\
  (Solution.type s = OPTIMAL -> forall y, feasible p y ->
     nearly_as_good (Problem.direction p) (if has_binary p then gap else 0) (objective_value p x) (objective_value p y)).

(** Without tolerances it is what the documentation of [Solve] promises. *)
Lemma nearly_solves_exact p s : Solution.found s = true -> nearly_solves 0 0 p s -> solves p s.
Proof using Type.
  clear. intros Hf (Hl & Hfe%nearly_feasible_0 & Ho & Hbest). unfold solves, Solution.found in *.
  destruct (Solution.type s) eqn:Ht; [| |done]; (split_and!; [done..|]); [|done].
  intros _ y Hy. specialize (Hbest eq_refl y Hy). destruct (has_binary p), (Problem.direction p); cbn in *; lra.
Qed.

Lemma nearly_as_good_shift d g a b c : nearly_as_good d g a b -> nearly_as_good d g (a + c) (b + c).
Proof using Type. clear. destruct d; cbn; lra. Qed.

Lemma stores_binary h p : stores h p -> Cplex.binary_variables h <> ∅ -> has_binary p = true.
Proof using Type.
  intros S Hne. apply set_choose_L in Hne as [v Hv]. apply (st_binary _ _ S) in Hv as (x & Hx & Hb).
  apply existsb_exists. exists x. split; [|done]. apply list_elem_of_In. by eapply list_elem_of_lookup_2.
Qed.

(** The solutions that [Solve] makes of answers. *)
Lemma Solve_solution tol gap cplex h p late stat obj xs :
  stores h p -> Forall is_Some (Problem.rows p) -> 0 <= gap ->
  cplex h = Some (Cplex.mkAnswer late (Some (stat, obj, xs))) -> stat <> Cplex.STAT_OTHER ->
  documented_answer tol gap h stat obj xs -> nearly_solves tol gap p (Cplex.Solve cplex h).
Proof using inf_pos.
  intros S Hrows Hgap Ha Hst Hans. pose proof (λ t x, stores_feasible t h p x S Hrows) as Hf.
  pose proof (stores_binary h p S) as Hbin. destruct S.
  assert (Hobj : forall x, objective_value p x = cplex_objective h x + Cplex.obj_offset h).
  { intros x. unfold objective_value, cplex_objective. by rewrite st_objective0, st_offset0. }
  unfold documented_answer in Hans. set (x := λ v, default 0 (xs !! v)) in Hans.
  assert (Hfound : length xs = length (Cplex.variable_lb h) /\ cplex_feasible tol h x /\ obj == cplex_objective h x)
    by (destruct stat; naive_solver).
  destruct Hfound as (Hlen & Hfeas & Hval).
  assert (Hs : Cplex.Solve cplex h = Solution.mk (match stat with Cplex.STAT_FEASIBLE | Cplex.MIP_FEASIBLE => FEASIBLE | _ => OPTIMAL end)
            (obj + Cplex.obj_offset h) xs late) by (unfold Cplex.Solve; rewrite Ha; by destruct stat).
  rewrite Hs. split_and!; cbn [Solution.variables_ Solution.ObjectiveValue Solution.objective_value_ Solution.type Solution.solution_type_].
  - by rewrite Hlen.
  - by apply Hf.
  - rewrite Hobj. apply Qplus_comp; [exact Hval|done].
  - intros Hopt y Hy%nearly_feasible_0%Hf.
    change (Solution.assignment (Solution.mk _ _ xs late)) with x. rewrite !Hobj, <-st_direction0.
    apply nearly_as_good_shift. destruct stat; try done; destruct Hans as [_ Hbest];
      [specialize (Hbest y Hy)|specialize (Hbest y Hy)|destruct Hbest as [Hbest Hne]; specialize (Hbest y Hy); by rewrite (Hbin Hne)];
      destruct (has_binary p), (Cplex.direction h); cbn in *; lra.
Qed.

(** C28: the CPLEX build implements the problem: after any sequence of calls
    with sane ranges (an upper end that is not below the lower one, variable
    bounds below [CPX_INFBOUND], constraints with at least one finite end) and
    matrices without repeated or misplaced elements that sets the range of
    every constraint, the arrays are within what CPLEX documents and describe
    exactly the feasible assignments of the client's problem, also up to a
    tolerance.  When CPLEX reports an optimal or a feasible solution and it is
    as documented, [Solve] returns a solution of that type for the client's
    problem: feasible up to CPLEX's tolerance, with the objective of the
    problem, and when optimal as good as every feasible assignment (up to the
    gap if there are binary variables).  Otherwise it returns
    [INFEASIBLE_OR_UNBOUNDED]. *)
Theorem Cplex_implements_Problem d cs p cplex tol gap :
  do_calls cs (Problem.init d) = Ok p -> Forall sane_call cs -> Forall is_Some (Problem.rows p) -> elements_inside p ->
  0 <= gap ->
  (forall h, do_calls (H := cplex_ops inf) cs (Cplex.init d) = Ok h -> documented_handle h ->
     answers_as_documented tol gap cplex h) ->
  exists h, do_calls (H := cplex_ops inf) cs (Cplex.init d) = Ok h /\ documented_handle h /\
    (forall t x, cplex_feasible t h x <-> nearly_feasible t p x) /\
    let s := Cplex.Solve cplex h in
    match cplex h with
    | Some (Cplex.mkAnswer _ (Some (stat, _, _))) =>
        match stat with
        | Cplex.STAT_OPTIMAL | Cplex.MIP_OPTIMAL | Cplex.MIP_OPTIMAL_TOL => Solution.type s = OPTIMAL /\ nearly_solves tol gap p s
        | Cplex.STAT_FEASIBLE | Cplex.MIP_FEASIBLE => Solution.type s = FEASIBLE /\ nearly_solves tol gap p s
        | Cplex.STAT_OTHER => Solution.type s = INFEASIBLE_OR_UNBOUNDED
        end
    | _ => Solution.type s = INFEASIBLE_OR_UNBOUNDED
    end.
Proof using inf_pos.
  intros Hp Hs Hrows Hin Hgap Hcplex.
  destruct (stores_do_calls cs (Cplex.init d) (Problem.init d) p (stores_init d) Hs Hp) as (h & Hh & S).
  pose proof (stores_documented h p S Hrows Hin) as Hdoc. exists h. split_and!; [done..|by intros t x; apply stores_feasible|].
  specialize (Hcplex h Hh Hdoc). cbn zeta. destruct (cplex h) as [[late [[[stat obj] xs]|]]|] eqn:Ha.
  - specialize (Hcplex late stat obj xs Ha).
    pose proof (Solve_solution tol gap cplex h p late stat obj xs S Hrows Hgap Ha) as Hsol.
    destruct stat; try (split; [unfold Cplex.Solve; by rewrite Ha|by apply Hsol]). unfold Cplex.Solve. by rewrite Ha.
  - unfold Cplex.Solve. by rewrite Ha.
  - unfold Cplex.Solve. by rewrite Ha.
Qed.
End cplex.

(** ** An example *)

(** One variable that is not negative, one constraint from 2 to 5. *)
Definition example_calls : list call :=
  [AddVariable false; SetVariableRange 0 (Fin 0) PosInf; AddConstraint; SetConstraintRange 0 (Fin 2) (Fin 5);
   SetMatrix [mkElement 0 0 1]; SetObjectiveCoefficient 0 1].
Definition example_problem : Problem.t :=
  Problem.mk MINIMIZE [Problem.mkVar (Fin 0, PosInf) false] [Some (Fin 2, Fin 5)] [mkElement 0 0 1] [1%Q] 0.
Definition example_answer (h : Cplex.CPLEXHandle) : option Cplex.answer :=
  Some (Cplex.mkAnswer false (Some (Cplex.STAT_OPTIMAL, 2%Q, [2%Q]))).

Lemma Cplex_implements_Problem_witness :
  exists h, do_calls (H := cplex_ops 100) example_calls (Cplex.init MINIMIZE) = Ok h /\ documented_handle h /\
    (forall t x, cplex_feasible 100 t h x <-> nearly_feasible t example_problem x) /\
    Solution.type (Cplex.Solve example_answer h) = OPTIMAL /\ nearly_solves 0 0 example_problem (Cplex.Solve example_answer h).
Proof.
  apply (Cplex_implements_Problem 100 ltac:(lra) MINIMIZE example_calls example_problem example_answer 0 0).
  - reflexivity.
  - repeat constructor; cbn; try lra; try discriminate. set_solver.
  - repeat constructor. eauto.
  - repeat constructor.
  - lra.
  - intros h Hh _ late stat obj xs Ha. injection Ha as <- <- <- <-. vm_compute in Hh. injection Hh as <-.
    assert (Hv : forall y, (row_value [mkElement 0 0 1] 0 y == y 0%nat)%Q) by (intros y; unfold row_value; rewrite sum_of_cons, sum_of_nil; cbn [constraint variable value decide]; rewrite decide_True by done; lra).
    assert (Ho : forall y, (linear_objective [1%Q] y == y 0%nat)%Q) by (intros y; unfold linear_objective; cbn [length seq]; rewrite sum_of_cons, sum_of_nil; change (default 0%Q ([1%Q] !! 0)) with 1%Q; lra).
    unfold documented_answer, cplex_feasible, cplex_objective. cbn [Cplex.variable_lb Cplex.variable_ub Cplex.rhs Cplex.rangeval Cplex.sense
      Cplex.matrix_elements Cplex.obj_coefficients Cplex.direction Cplex.binary_variables nearly_as_good].
    split; [split; [done|split]|].
    + split.
      * intros [|v] lb ub Hlb Hub; simplify_eq/=. split; [split; [right|left]; apply Qle_bool_iff; reflexivity|intros []%(not_elem_of_empty (C := gset nat))].
      * intros [|c] r len s H1 H2 H3; simplify_eq/=. rewrite Hv. cbn. lra.
    + rewrite Ho. cbn. lra.
    + intros y [_ Hy]. specialize (Hy 0 _ _ _ eq_refl eq_refl eq_refl). rewrite !Ho. specialize (Hv y). cbn -[Qle row_value Qminus Qplus] in Hy |- *.
      change (2 - 0 <= row_value [mkElement 0 0 1] 0 y <= 2 + 3 + 0)%Q in Hy. lra.
Defined.

(** A constraint without bounds, for which the test is meant, becomes a row with
    an infinite right hand side, which CPLEX does not document. *)
Theorem free_row_undocumented inf : ~ documented_row (Cplex.row_of_range inf NegInf PosInf).
Proof. intros H. exact H. Qed.

(** The test for a constraint without bounds compares the upper bound with the
    wrong infinity: a range that nothing is in becomes a row that accepts
    everything CPLEX takes for finite. *)
Theorem no_range_accepts_all inf v :
  (- inf <= v <= inf)%Q -> (0 <= inf)%Q ->
  cplex_row_ok 0 (Cplex.row_of_range inf NegInf NegInf) v /\ ~ within (NegInf, NegInf) v.
Proof.
  intros Hv Hi. split; [|by intros []]. cbn [Cplex.row_of_range bound_eqb andb cplex_row_ok].
  rewrite (proj2 (Qle_bool_iff 0 (2 * inf))) by lra. lra.
Qed.
