(* ===== verification/FlowProblem.v ===== *)
(** Model of the flow problems of [src/src/lp/mc_flow.h] and
    [src/src/lp/mc_flow.cc]: how demands on a network become a linear program.
    [GraphLinkMap] and [GraphNodeMap], the perfect-hash maps of [PerfectHash],
    are finite maps that are visited in the order of the indices ([items]).
    The three classes of problems build their programs in the same way from
    their commodities, which are destinations, sources, or pairs of both; the
    shared steps are written once, for any type of commodity. *)

From S2P Require Import Prelude OrderedMap PerfectHash Graph Rational LinearProgram.

(** The order of [std::pair]. *)
Section pairs.
Context `{KeyOrder A, KeyOrder B}.

Definition pair_leb (x y : A * B) : bool := if decide (x.1 = y.1) then key_leb x.2 y.2 else key_leb x.1 y.1.

Lemma pair_leb_total x y : pair_leb x y = true \/ pair_leb y x = true.
Proof.
  unfold pair_leb. destruct (decide (x.1 = y.1)), (decide (y.1 = x.1)); try congruence; apply key_leb_total.
Qed.

Lemma pair_leb_trans x y z : pair_leb x y = true -> pair_leb y z = true -> pair_leb x z = true.
Proof.
  destruct x as [a b], y as [a' b'], z as [a'' b'']. unfold pair_leb. cbn.
  destruct (decide (a = a')) as [->|H1], (decide (a' = a'')) as [->|H2]; cbn.
  - rewrite ?decide_True by done. apply key_leb_trans.
  - rewrite ?decide_False by done. done.
  - rewrite ?decide_False by done. done.
  - destruct (decide (a = a'')) as [->|H3]; [|apply key_leb_trans].
    intros Ha Hb. exfalso. apply H1. by apply key_leb_antisym.
Qed.

Lemma pair_leb_antisym x y : pair_leb x y = true -> pair_leb y x = true -> x = y.
Proof.
  destruct x as [a b], y as [a' b']. unfold pair_leb. cbn. destruct (decide (a = a')) as [->|Hne].
  - rewrite decide_True by done. intros. f_equal. by apply key_leb_antisym.
  - rewrite decide_False by done. intros. exfalso. apply Hne. by apply key_leb_antisym.
Qed.

#[global] Instance pair_key_order : KeyOrder (A * B) := {
  key_leb := pair_leb;
  key_leb_total := pair_leb_total;
  key_leb_trans := pair_leb_trans;
  key_leb_antisym := pair_leb_antisym
}.
End pairs.

(** [map.GetValueOrDie(k)] and [FindOrDie]. *)
Definition value_or_die `{Countable K} {V} (m : gmap K V) (k : K) : outcome V :=
  match m !! k with Some v => Ok v | None => Fail CheckFailed end.

(** ** FlowProblem *)
Module FlowProblem.

(** Links out of a node and links into it. *)
Notation AdjacencyMap := (gmap nat (list nat * list nat)) (only parsing).

Record t := mk {
  graph_ : GraphStorage.t;
  link_capacities_ : gmap nat Q;
  adjacency_map_ : AdjacencyMap
}.

Definition adjacent (adj : AdjacencyMap) (node : nat) : list nat * list nat := default ([], []) (adj !! node).

Definition add_link (g : GraphStorage.t) (adj : AdjacencyMap) (link_index : nat) : outcome AdjacencyMap :=
  link ← GraphStorage.GetLink g link_index;
  let out := src link in
  let in_ := dst link in
  let adj1 := <[out := ((adjacent adj out).1 ++ [link_index], (adjacent adj out).2)]> adj in
  Ok (<[in_ := ((adjacent adj1 in_).1, (adjacent adj1 in_).2 ++ [link_index])]> adj1).

Definition construct (link_capacities : gmap nat Q) (g : GraphStorage.t) : outcome t :=
  adj ← mfold (add_link g) (items link_capacities).*1 ∅;
  Ok (mk g link_capacities adj).
End FlowProblem.

(** ** Building a program *)

Record building := mkBuilding { problem : Problem.t; problem_matrix : list ProblemMatrixElement }.

Definition emplace (b : building) (e : ProblemMatrixElement) : building :=
  mkBuilding (problem b) (problem_matrix b ++ [e]).

(** [AddConstraint] and [SetConstraintRange]. *)
Definition new_constraint (b : building) (min max : bound) : outcome (building * nat) :=
  let '(p, c) := Problem.AddConstraint (problem b) in
  p' ← Problem.SetConstraintRange p c min max; Ok (mkBuilding p' (problem_matrix b), c).

(** [AddVariable] and [SetVariableRange]. *)
Definition new_variable (b : building) : outcome (building * nat) :=
  let '(p, v) := Problem.AddVariable (problem b) false in
  p' ← Problem.SetVariableRange p v (Fin 0) PosInf; Ok (mkBuilding p' (problem_matrix b), v).

Section commodities.
Context {K : Type} `{Countable K}.

(** For each link the variable of each commodity. *)
Notation VarMap := (gmap nat (gmap K nat)) (only parsing).

Definition set_var (m : VarMap) (link : nat) (k : K) (v : nat) : VarMap := <[link := <[k := v]> (default ∅ (m !! link))]> m.

(** The variables of the commodities over one link. *)
Definition add_variable (link : nat) (link_constraint : option nat) (acc : building * VarMap) (k : K) : outcome (building * VarMap) :=
  '(b, var) ← new_variable acc.1;
  let b' := match link_constraint with Some c => emplace b (mkElement c var 1) | None => b end in
  Ok (b', set_var acc.2 link k var).

Definition add_link_variables (keys : list K) (add_link_constraints : bool) (acc : building * VarMap) (link_and_capacity : nat * Q)
  : outcome (building * VarMap) :=
  '(b, c) ← if add_link_constraints
            then '(b, c) ← new_constraint acc.1 (Fin 0) (Fin link_and_capacity.2); Ok (b, Some c)
            else Ok (acc.1, None);
  mfold (add_variable link_and_capacity.1 c) keys (b, acc.2).

Definition GetLinkToVariableMap (capacities : list (nat * Q)) (keys : list K) (add_link_constraints : bool) (b : building)
  : outcome (building * VarMap) :=
  mfold (add_link_variables keys add_link_constraints) capacities (b, ∅).

Definition GetVar (m : VarMap) (edge : nat) (k : K) : outcome nat := vars ← value_or_die m edge; value_or_die vars k.

(** The coefficients of some links in a row. *)
Definition add_elements (m : VarMap) (k : K) (c : nat) (coefficient : Q) (edges : list nat) (b : building) : outcome building :=
  mfold (λ b edge, var ← GetVar m edge k; Ok (emplace b (mkElement c var coefficient))) edges b.

(** The rows of a node for a commodity with the demand [source] at the node. *)
Definition conserve_node (m : VarMap) (k : K) (source : option Q) (is_sink : bool) (edges_out edges_in : list nat) (b : building)
  : outcome building :=
  '(b, flow_conservation_constraint) ← new_constraint b (Fin 0) (Fin 0);
  match source with
  | Some flow_from_source =>
      '(b, source_load_constraint) ← new_constraint b (Fin flow_from_source) PosInf;
      b ← add_elements m k source_load_constraint 1 edges_out b;
      add_elements m k source_load_constraint (-(1)) edges_in b
  | None =>
      if is_sink then add_elements m k flow_conservation_constraint 1 edges_out b
      else
        b ← add_elements m k flow_conservation_constraint (-(1)) edges_out b;
        add_elements m k flow_conservation_constraint 1 edges_in b
  end.

(** The rows of a commodity with sources and a sink. *)
Definition conserve (adj : FlowProblem.AdjacencyMap) (m : VarMap) (source : K -> nat -> option Q) (sink : K -> nat) (b : building) (k : K)
  : outcome building :=
  mfold (λ b node_and_adj_lists,
      let node := node_and_adj_lists.1 in
      conserve_node m k (source k node) (node =? sink k) node_and_adj_lists.2.1 node_and_adj_lists.2.2 b)
    (items adj) b.
End commodities.

Notation VarMap K := (gmap nat (gmap K nat)) (only parsing).

(** ** SingleCommodityFlowProblem *)
Module SingleCommodityFlowProblem.
Import FlowProblem.

(** A source and its load. *)
Definition SrcAndLoad : Type := (nat * Q)%type.

Record t := mk { base : FlowProblem.t; demands_ : gmap nat (list SrcAndLoad) }.

Definition construct (link_capacities : gmap nat Q) (g : GraphStorage.t) : outcome t :=
  b ← FlowProblem.construct link_capacities g; Ok (mk b ∅).

Definition AddDemand (p : t) (source sink : nat) (demand : Q) : outcome t :=
  let src_and_loads := default [] (demands_ p !! sink) in
  _ ← check (forallb (λ s : SrcAndLoad, negb (s.1 =? source)) src_and_loads);
  Ok (mk (base p) (<[sink := src_and_loads ++ [(source, demand)]]> (demands_ p))).

Definition AddDemand_named (p : t) (source sink : string) (demand : Q) : outcome t :=
  s ← GraphStorage.NodeFromStringOrDie (graph_ (base p)) source;
  d ← GraphStorage.NodeFromStringOrDie (graph_ (base p)) sink;
  AddDemand p s d demand.

Fixpoint IsSource (commodities : list SrcAndLoad) (index : nat) : option Q :=
  match commodities with
  | [] => None
  | src_and_load :: rest => if src_and_load.1 =? index then Some src_and_load.2 else IsSource rest index
  end.

Definition link_variables (p : t) (add_link_constraints : bool) (b : building) : outcome (building * VarMap nat) :=
  GetLinkToVariableMap (items (link_capacities_ (base p))) (items (demands_ p)).*1 add_link_constraints b.

Definition source (p : t) (dst node : nat) : option Q := IsSource (default [] (demands_ p !! dst)) node.

Definition AddFlowConservationConstraints (p : t) (link_to_variables : VarMap nat) (b : building) : outcome building :=
  mfold (conserve (adjacency_map_ (base p)) link_to_variables (source p) (λ dst, dst)) (items (demands_ p)).*1 b.

(** The program that [IsFeasible], [GetMaxFlow] and [MinMaxProblem::Solve]
    start from. *)
Definition start (p : t) (d : Direction) (add_link_constraints : bool) : outcome (building * VarMap nat) :=
  '(b, m) ← link_variables p add_link_constraints (mkBuilding (Problem.init d) []);
  b' ← AddFlowConservationConstraints p m b; Ok (b', m).

(** [problem.SetMatrix(problem_matrix)]. *)
Definition finish (b : building) : Problem.t := Problem.SetMatrix (problem b) (problem_matrix b).

Definition IsFeasible (solve : Problem.t -> Solution.t) (p : t) : outcome bool :=
  '(b, _) ← start p MAXIMIZE true; Ok (Solution.found (solve (finish b))).
End SingleCommodityFlowProblem.

(** ** What the programs mean *)

Definition vars_sat (vars : list Problem.var) (x : nat -> Q) : Prop := forall v var, vars !! v = Some var -> var_ok var (x v).
Definition rows_sat (rows : list (option (bound * bound))) (es : list ProblemMatrixElement) (x : nat -> Q) : Prop :=
  forall c r, rows !! c = Some (Some r) -> within r (row_value es c x).
Definition sat (b : building) (x : nat -> Q) : Prop :=
  vars_sat (Problem.vars (problem b)) x /\ rows_sat (Problem.rows (problem b)) (problem_matrix b) x.

(** The entries of the matrix are in rows that exist. *)
Definition matrix_ok (b : building) : Prop :=
  Forall (λ e, constraint e < length (Problem.rows (problem b))) (problem_matrix b).

Definition nonneg_var : Problem.var := Problem.mkVar (Fin 0, PosInf) false.

(** [b] with new variables, rows and entries. *)
Definition extend (b : building) (n : nat) (rs : list (bound * bound)) (es : list ProblemMatrixElement) : building :=
  let p := problem b in
  mkBuilding (Problem.mk (Problem.direction p) (Problem.vars p ++ replicate n nonneg_var) (Problem.rows p ++ (Some <$> rs))
                (Problem.elements p) (Problem.objective p ++ replicate n 0%Q) (Problem.offset p))
    (problem_matrix b ++ es).

Notation num_rows b := (length (Problem.rows (problem b))).
Notation num_vars b := (length (Problem.vars (problem b))).

Lemma extend_nil b : extend b 0 [] [] = b.
Proof. destruct b as [[] ?]. unfold extend. cbn. by rewrite !app_nil_r. Qed.

Lemma extend_extend b n rs es n' rs' es' :
  extend (extend b n rs es) n' rs' es' = extend b (n + n') (rs ++ rs') (es ++ es').
Proof. unfold extend. cbn. by rewrite !replicate_add, !fmap_app, <-!app_assoc. Qed.

Lemma num_rows_extend b n rs es : num_rows (extend b n rs es) = num_rows b + length rs.
Proof. cbn. by rewrite length_app, length_fmap. Qed.
Lemma num_vars_extend b n rs es : num_vars (extend b n rs es) = num_vars b + n.
Proof. cbn. by rewrite length_app, length_replicate. Qed.

Lemma new_constraint_extend b min max : new_constraint b min max = Ok (extend b 0 [(min, max)] [], num_rows b).
Proof.
  destruct b as [[d vs rs es o off] m]. unfold new_constraint, Problem.SetConstraintRange, vec_at, extend. cbn.
  rewrite lookup_app_r, Nat.sub_diag by lia. cbn. rewrite insert_app_r_alt, Nat.sub_diag by lia. cbn. by rewrite !app_nil_r.
Qed.

Lemma new_variable_extend b : new_variable b = Ok (extend b 1 [] [], num_vars b).
Proof.
  destruct b as [[d vs rs es o off] m]. unfold new_variable, Problem.SetVariableRange, vec_at, extend. cbn.
  rewrite lookup_app_r, Nat.sub_diag by lia. cbn. rewrite insert_app_r_alt, Nat.sub_diag by lia. cbn. by rewrite !app_nil_r.
Qed.

Lemma emplace_extend b e : emplace b e = extend b 0 [] [e].
Proof. destruct b as [[] ?]. unfold extend, emplace. cbn. by rewrite !app_nil_r. Qed.

Lemma row_value_app es es' c x : (row_value (es ++ es') c x == row_value es c x + row_value es' c x)%Q.
Proof. apply sum_of_app. Qed.

Lemma row_value_other es c x : Forall (λ e, constraint e <> c) es -> (row_value es c x == 0)%Q.
Proof.
  intros Hall. apply sum_of_zero. intros e He. rewrite decide_False; [done|]. by eapply (proj1 (Forall_forall _ _) Hall).
Qed.

(** An extension means what it adds. *)
Lemma sat_extend b n rs es x :
  matrix_ok b -> Forall (λ e, num_rows b <= constraint e < num_rows b + length rs) es ->
  matrix_ok (extend b n rs es) /\
  (sat (extend b n rs es) x <->
   sat b x /\ (forall i, i < n -> (0 <= x (num_vars b + i)%nat)%Q) /\
   forall i r, rs !! i = Some r -> within r (row_value es (num_rows b + i) x)).
Proof.
  intros Hok Hes. split.
  { unfold matrix_ok. rewrite num_rows_extend. apply Forall_app. split; [|eapply Forall_impl; [done|]; cbn; lia].
    eapply Forall_impl; [done|]. cbn. lia. }
  assert (Hold : forall c, c < num_rows b -> (row_value (problem_matrix b ++ es) c x == row_value (problem_matrix b) c x)%Q).
  { intros c Hc. rewrite row_value_app, (row_value_other es); [lra|]. eapply Forall_impl; [done|]. cbn. lia. }
  assert (Hnew : forall i, (row_value (problem_matrix b ++ es) (num_rows b + i) x == row_value es (num_rows b + i) x)%Q).
  { intros i. rewrite row_value_app, (row_value_other (problem_matrix b)); [lra|]. eapply Forall_impl; [exact Hok|]. cbn. lia. }
  unfold sat. cbn. split.
  - intros [Hv Hr]. split_and!.
    + intros v var Hvar. apply Hv. by apply lookup_app_l_Some.
    + intros c r Hc. rewrite <-(Hold c) by (by eapply lookup_lt_Some). apply Hr. by apply lookup_app_l_Some.
    + intros i Hi. destruct (Hv (num_vars b + i) nonneg_var) as [[Hx _] _]; [|exact Hx].
      rewrite lookup_app_r, Nat.add_comm, Nat.add_sub by lia. apply lookup_replicate. done.
    + intros i r Hi. rewrite <-Hnew. apply Hr. rewrite lookup_app_r, Nat.add_comm, Nat.add_sub by lia.
      by rewrite list_lookup_fmap, Hi.
  - intros ([Hv Hr] & Hx & Hrs). split.
    + intros v var. destruct (decide (v < num_vars b)) as [Hlt|Hge].
      * rewrite lookup_app_l by done. apply Hv.
      * rewrite lookup_app_r by lia. intros [-> Hlt]%lookup_replicate. split; [|done]. split; [|done].
        cbn. specialize (Hx _ Hlt). by replace (num_vars b + (v - num_vars b)) with v in Hx by lia.
    + intros c r. destruct (decide (c < num_rows b)) as [Hlt|Hge].
      * rewrite lookup_app_l by done. intros Hc. rewrite Hold by done. by apply Hr.
      * rewrite lookup_app_r, list_lookup_fmap by lia. destruct (rs !! (c - num_rows b)) as [r'|] eqn:Hr'; [|done].
        intros [= ->]. specialize (Hrs _ _ Hr'). replace (num_rows b + (c - num_rows b)) with c in Hrs by lia.
        specialize (Hnew (c - num_rows b)). replace (num_rows b + (c - num_rows b)) with c in Hnew by lia.
        by rewrite Hnew.
Qed.

(** The value of entries that are all in one row. *)
Lemma row_value_same {A} (l : list A) (var : A -> nat) c q x :
  (row_value ((λ e, mkElement c (var e) q) <$> l) c x == q * sum_of (λ e, x (var e)) l)%Q.
Proof.
  unfold row_value. rewrite sum_of_fmap, <-sum_of_scale. apply sum_of_ext. intros a _. cbn. by rewrite decide_True.
Qed.

(** What the rows of a node say of the flow out of it and into it. *)
Definition node_ok (source : option Q) (is_sink : bool) (out in_ : Q) : Prop :=
  match source with
  | Some load => (load <= out - in_)%Q
  | None => if is_sink then (out == 0)%Q else (out == in_)%Q
  end.

#[global] Instance node_ok_proper s i : Proper (Qeq ==> Qeq ==> iff) (node_ok s i).
Proof. intros a a' Ha b b' Hb. unfold node_ok. destruct s, i; by rewrite ?Ha, ?Hb. Qed.

Section encoding.
Context {K : Type} `{Countable K}.
Implicit Types m : VarMap K.

(** The variable of a commodity over a link. *)
Definition var_of m (l : nat) (k : K) : nat := match GetVar m l k with Ok v => v | Fail _ => 0 end.

(** [b'] is [b] with rows and entries that add the condition [P]. *)
Definition adds (b b' : building) (P : (nat -> Q) -> Prop) : Prop :=
  exists rs es, b' = extend b 0 rs es /\ matrix_ok b' /\ forall x, sat b' x <-> sat b x /\ P x.

Lemma adds_refl b : matrix_ok b -> adds b b (λ _, True).
Proof using Type. exists [], []. rewrite extend_nil. split_and!; [done..|]. tauto. Qed.

Lemma adds_trans b b' b'' P P' : adds b b' P -> adds b' b'' P' -> adds b b'' (λ x, P x /\ P' x).
Proof using Type.
  intros (rs & es & -> & Hok & HP) (rs' & es' & -> & Hok' & HP'). rewrite extend_extend in *.
  exists (rs ++ rs'), (es ++ es'). split_and!; [done..|]. intros x. rewrite HP', HP. tauto.
Qed.

Lemma adds_iff b b' P P' : (forall x, P x <-> P' x) -> adds b b' P -> adds b b' P'.
Proof using Type. intros HP (rs & es & -> & Hok & Hs). exists rs, es. split_and!; [done..|]. intros x. by rewrite Hs, HP. Qed.

(** A loop whose rounds add conditions. *)
Lemma adds_mfold {A} (f : building -> A -> outcome building) (P : A -> (nat -> Q) -> Prop) l b :
  matrix_ok b ->
  (forall a b', a ∈ l -> matrix_ok b' -> num_vars b' = num_vars b -> exists b'', f b' a = Ok b'' /\ adds b' b'' (P a)) ->
  exists b', mfold f l b = Ok b' /\ adds b b' (λ x, forall a, a ∈ l -> P a x).
Proof using Type.
  clear. intros Hok Hstep.
  destruct (mfold_inv (λ done_ b', adds b b' (λ x, forall a, a ∈ done_ -> P a x)) f l b) as (b' & Hb' & Hadds).
  - eapply adds_iff; [|by apply adds_refl]. set_solver.
  - intros done_ a b' Hpre Hb'. destruct Hb' as (rs & es & Heq & Hok' & Hs).
    destruct (Hstep a b') as (b'' & Hf & Hadd).
    { destruct Hpre as [rest ->]. set_solver. }
    { done. }
    { rewrite Heq, num_vars_extend. lia. }
    assert (Hb' : adds b b' (λ x, forall a, a ∈ done_ -> P a x)) by (exists rs, es; by split_and!).
    exists b''. split; [done|]. eapply adds_iff; [|exact (adds_trans _ _ _ _ _ Hb' Hadd)].
    intros x. cbn. setoid_rewrite elem_of_app. setoid_rewrite list_elem_of_singleton. naive_solver.
  - eauto.
Qed.

(** The entries of a commodity over links in a row. *)
Definition entries m (k : K) (c : nat) (q : Q) (l : list nat) : list ProblemMatrixElement := (λ e, mkElement c (var_of m e k) q) <$> l.

Lemma add_elements_extend m k c q edges b :
  (forall e, e ∈ edges -> is_Ok (GetVar m e k)) ->
  add_elements m k c q edges b = Ok (extend b 0 [] (entries m k c q edges)).
Proof using Type.
  unfold add_elements. revert b. induction edges as [|e edges IH]; intros b Hk; cbn [mfold].
  - by rewrite extend_nil.
  - destruct (Hk e) as [v Hv]; [set_solver|]. rewrite Hv, !bind_Ok_l, IH by set_solver.
    rewrite emplace_extend, extend_extend. unfold entries, var_of. cbn [fmap list_fmap]. by rewrite Hv.
Qed.

Definition flow_over m (k : K) (x : nat -> Q) (edges : list nat) : Q := sum_of (λ e, x (var_of m e k)) edges.

(** New rows whose entries are all in them. *)
Lemma adds_extend b rs es P :
  matrix_ok b -> Forall (λ e, num_rows b <= constraint e < num_rows b + length rs) es ->
  (forall x, (forall i r, rs !! i = Some r -> within r (row_value es (num_rows b + i) x)) <-> P x) ->
  adds b (extend b 0 rs es) P.
Proof using Type.
  clear. intros Hok Hes HP. exists rs, es. split_and!; [done|by apply (sat_extend b 0 rs es (λ _, 0%Q))|]. intros x.
  destruct (sat_extend b 0 rs es x Hok Hes) as [_ ->]. rewrite HP. split; [tauto|]. intros []. split_and!; [done|lia|done].
Qed.

Lemma entries_value m k c c' q l x :
  (row_value (entries m k c q l) c' x == if decide (c = c') then q * flow_over m k x l else 0)%Q.
Proof using Type.
  case_decide as Hc; [subst; apply row_value_same|]. apply row_value_other, Forall_fmap, Forall_true. done.
Qed.

Lemma entries_rows m k c q l lo hi : lo <= c < hi -> Forall (λ e, lo <= constraint e < hi) (entries m k c q l).
Proof using Type. intros Hc. by apply Forall_fmap, Forall_true. Qed.

Lemma conserve_node_adds m k source is_sink eo ei b :
  matrix_ok b -> (forall e, e ∈ eo ++ ei -> is_Ok (GetVar m e k)) ->
  exists b', conserve_node m k source is_sink eo ei b = Ok b' /\
    adds b b' (λ x, node_ok source is_sink (flow_over m k x eo) (flow_over m k x ei)).
Proof using Type.
  intros Hok Hk. unfold conserve_node. rewrite new_constraint_extend, bind_Ok_l.
  destruct source as [load|]; [|destruct is_sink].
  - rewrite new_constraint_extend, bind_Ok_l. rewrite !add_elements_extend, bind_Ok_l by set_solver.
    rewrite add_elements_extend, !extend_extend, num_rows_extend by set_solver. cbn [app Nat.add length].
    eexists. split; [done|]. apply adds_extend; [done|apply Forall_app; split; apply entries_rows; cbn; lia|]. intros x.
    assert (Hv : forall c, (row_value (entries m k (num_rows b + 1)%nat 1 eo ++ entries m k (num_rows b + 1)%nat (-(1)) ei) c x ==
      if decide ((num_rows b + 1)%nat = c) then flow_over m k x eo - flow_over m k x ei else 0)%Q).
    { intros c. rewrite row_value_app, !entries_value. case_decide; lra. }
    split.
    + intros Hr. specialize (Hr 1 _ eq_refl). rewrite Hv, decide_True in Hr by done. exact (proj1 Hr).
    + intros Hn [|[|i]] r Hi; simplify_eq/=; rewrite Hv; [rewrite decide_False by lia|rewrite decide_True by done]; split; cbn in *; done || lra.
  - rewrite add_elements_extend, !extend_extend by set_solver. cbn [app Nat.add].
    eexists. split; [done|]. apply adds_extend; [done|apply entries_rows; cbn; lia|]. intros x. split.
    + intros Hr. specialize (Hr 0 _ eq_refl). rewrite entries_value, decide_True in Hr by lia. destruct Hr. cbn in *. lra.
    + intros Hn [|i] r Hi; simplify_eq/=. rewrite entries_value, decide_True by lia. split; cbn; lra.
  - rewrite !add_elements_extend, bind_Ok_l by set_solver. rewrite add_elements_extend, !extend_extend by set_solver. cbn [app Nat.add].
    eexists. split; [done|]. apply adds_extend; [done|apply Forall_app; split; apply entries_rows; cbn; lia|]. intros x. split.
    + intros Hr. specialize (Hr 0 _ eq_refl). rewrite row_value_app, !entries_value, !decide_True in Hr by lia. destruct Hr. cbn in *. lra.
    + intros Hn [|i] r Hi; simplify_eq/=. rewrite row_value_app, !entries_value, !decide_True by lia. split; cbn; lra.
Qed.

(** All commodities at all nodes. *)
Definition conserved (adj : FlowProblem.AdjacencyMap) m (source : K -> nat -> option Q) (sink : K -> nat) (k : K) (x : nat -> Q) : Prop :=
  forall node eo ei, adj !! node = Some (eo, ei) ->
    node_ok (source k node) (node =? sink k) (flow_over m k x eo) (flow_over m k x ei).

Lemma conserve_adds adj m source sink k b :
  matrix_ok b -> (forall node eo ei e, adj !! node = Some (eo, ei) -> e ∈ eo ++ ei -> is_Ok (GetVar m e k)) ->
  exists b', conserve adj m source sink b k = Ok b' /\ adds b b' (conserved adj m source sink k).
Proof using Type.
  intros Hok Hk. unfold conserve.
  destruct (adds_mfold (λ b (a : nat * (list nat * list nat)), conserve_node m k (source k a.1) (a.1 =? sink k) a.2.1 a.2.2 b)
    (λ a x, node_ok (source k a.1) (a.1 =? sink k) (flow_over m k x a.2.1) (flow_over m k x a.2.2)) (items adj) b Hok)
    as (b' & Hb' & Hadds).
  - intros [node [eo ei]] b' Hn%elem_of_items Hok' _. cbn. apply conserve_node_adds; [done|]. intros e He. by eapply Hk.
  - exists b'. split; [done|]. eapply adds_iff; [|exact Hadds]. intros x. cbn. unfold conserved. split.
    + intros Hall node eo ei Hn%elem_of_items. by specialize (Hall _ Hn).
    + intros Hall [node [eo ei]] Hn%elem_of_items. by apply Hall.
Qed.
End encoding.

(** ** Flows *)

(** The end points of a link. *)
Definition src_of (g : GraphStorage.t) (l : nat) : option nat := src <$> PerfectHashStore.items_ (GraphStorage.link_store_ g) !! l.
Definition dst_of (g : GraphStorage.t) (l : nat) : option nat := dst <$> PerfectHashStore.items_ (GraphStorage.link_store_ g) !! l.

Definition links_out (g : GraphStorage.t) (ls : list nat) (n : nat) : list nat := filter (λ l, src_of g l = Some n) ls.
Definition links_in (g : GraphStorage.t) (ls : list nat) (n : nat) : list nat := filter (λ l, dst_of g l = Some n) ls.

Record adjacency_ok (g : GraphStorage.t) (ls : list nat) (adj : FlowProblem.AdjacencyMap) : Prop := {
  ao_lists : forall n, FlowProblem.adjacent adj n = (links_out g ls n, links_in g ls n);
  ao_some : forall n, is_Some (adj !! n) <-> exists l, l ∈ ls /\ (src_of g l = Some n \/ dst_of g l = Some n)
}.

Lemma adjacent_insert adj a v n : FlowProblem.adjacent (<[a := v]> adj) n = if decide (a = n) then v else FlowProblem.adjacent adj n.
Proof. unfold FlowProblem.adjacent. case_decide; subst; [by rewrite lookup_insert_eq|by rewrite lookup_insert_ne]. Qed.

Lemma add_link_ok g ls adj l link :
  PerfectHashStore.items_ (GraphStorage.link_store_ g) !! l = Some link -> adjacency_ok g ls adj ->
  exists adj', FlowProblem.add_link g adj l = Ok adj' /\ adjacency_ok g (ls ++ [l]) adj'.
Proof.
  intros Hl [Hlists Hsome]. unfold FlowProblem.add_link, GraphStorage.GetLink.
  rewrite (proj2 (PerfectHashStore.GetItemOrDie_Ok _ _ _) Hl), bind_Ok_l. eexists. split; [done|].
  assert (Hs : src_of g l = Some (src link)) by (unfold src_of; by rewrite Hl).
  assert (Hd : dst_of g l = Some (dst link)) by (unfold dst_of; by rewrite Hl).
  split.
  - intros n. unfold links_out, links_in. rewrite !filter_app, !filter_cons, !filter_nil, Hs, Hd, !adjacent_insert, !Hlists.
    unfold links_out, links_in. destruct (decide (dst link = n)), (decide (src link = n)), (decide (Some (src link) = Some n)),
      (decide (Some (dst link) = Some n)), (decide (src link = dst link)); try congruence; simplify_eq; cbn; rewrite ?app_nil_r; try done;
      by match goal with E : src link = dst link |- _ => rewrite E end.
  - intros n. setoid_rewrite elem_of_app. setoid_rewrite list_elem_of_singleton.
    destruct (decide (dst link = n)) as [<-|Hdn]; [rewrite lookup_insert_eq; naive_solver|rewrite lookup_insert_ne by done].
    destruct (decide (src link = n)) as [<-|Hsn]; [rewrite lookup_insert_eq; naive_solver|rewrite lookup_insert_ne by done].
    rewrite Hsome. naive_solver congruence.
Qed.

(** The adjacency map of the links of a problem. *)
Lemma construct_adjacency caps g fp :
  FlowProblem.construct caps g = Ok fp ->
  FlowProblem.graph_ fp = g /\ FlowProblem.link_capacities_ fp = caps /\ adjacency_ok g (items caps).*1 (FlowProblem.adjacency_map_ fp) /\
  Forall (λ l, is_Some (PerfectHashStore.items_ (GraphStorage.link_store_ g) !! l)) (items caps).*1.
Proof.
  intros H. unfold FlowProblem.construct in H. apply bind_Ok in H as (adj & Hadj & H). simplify_eq/=. split_and!; [done..| |].
  all: assert (Hall : Forall (λ l, is_Some (PerfectHashStore.items_ (GraphStorage.link_store_ g) !! l)) (items caps).*1).
  1,3: generalize dependent (∅ : FlowProblem.AdjacencyMap); induction (items caps).*1 as [|l ls IH]; intros adj0 Hadj; [done|];
    cbn in Hadj; apply bind_Ok in Hadj as (adj1 & H1 & Hadj); constructor; [|by eapply IH];
    unfold FlowProblem.add_link in H1; apply bind_Ok in H1 as (link & H1 & _); apply PerfectHashStore.GetItemOrDie_Ok in H1; eauto.
  2: exact Hall.
  destruct (mfold_inv (λ ls adj, adjacency_ok g ls adj) (FlowProblem.add_link g) (items caps).*1 ∅) as (adj' & Hadj' & Hok).
  - split; [done|]. intros n. split; [|set_solver]. intros [? Hn]. by rewrite lookup_empty in Hn.
  - intros ls l adj0 Hpre Hok. assert (Hl : l ∈ (items caps).*1) by (destruct Hpre as [r ->]; set_solver).
    destruct (proj1 (Forall_forall _ _) Hall l Hl) as [link Hlink]. by eapply add_link_ok.
  - congruence.
Qed.

Section flows.
Context {K : Type} `{Countable K}.
Context (L : list (nat * Q)) (keys : list K) (constrained : bool).
Hypothesis Hkeys : NoDup keys.
Hypothesis HL : NoDup L.*1.
Implicit Types m : VarMap K.

Notation width := (length keys).

Lemma GetVar_set_var m l k v l' k' :
  GetVar (set_var m l k v) l' k' = if decide (l = l' /\ k = k') then Ok v else GetVar m l' k'.
Proof using Type.
  unfold GetVar, set_var, value_or_die. destruct (decide (l = l')) as [<-|].
  - rewrite lookup_insert_eq, bind_Ok_l. destruct (decide (k = k')) as [<-|].
    + by rewrite lookup_insert_eq, decide_True.
    + rewrite lookup_insert_ne, decide_False by naive_solver. destruct (m !! l); cbn; [done|by rewrite lookup_empty].
  - rewrite lookup_insert_ne, decide_False by naive_solver. done.
Qed.

(** The variables of one link. *)
Lemma add_variables l c b m :
  exists m', mfold (add_variable l c) keys (b, m) =
    Ok (extend b width [] (match c with Some c => (λ j, mkElement c (num_vars b + j) 1) <$> seq 0 width | None => [] end), m') /\
  (forall j k, keys !! j = Some k -> GetVar m' l k = Ok (num_vars b + j)) /\
  (forall l' k, l' <> l -> GetVar m' l' k = GetVar m l' k).
Proof using Hkeys.
  clear HL L. destruct (mfold_inv (λ ks (acc : building * VarMap K),
      acc.1 = extend b (length ks) [] (match c with Some c => (λ j, mkElement c (num_vars b + j) 1) <$> seq 0 (length ks) | None => [] end) /\
      (forall j k, ks !! j = Some k -> GetVar acc.2 l k = Ok (num_vars b + j)) /\
      (forall l' k, l' <> l -> GetVar acc.2 l' k = GetVar m l' k)) (add_variable l c) keys (b, m)) as ([b' m'] & Hm & Hb' & Hj & Ho).
  - cbn. split_and!; [destruct c; by rewrite extend_nil|done|done].
  - intros ks k [b' m'] Hpre (Hb' & Hj & Ho). cbn [fst snd] in *. unfold add_variable. cbn [fst snd]. rewrite new_variable_extend, bind_Ok_l.
    eexists. split; [done|]. cbn [fst snd]. rewrite length_app. cbn [length]. split_and!.
    + subst b'. rewrite num_vars_extend. destruct c as [c|]; rewrite ?emplace_extend, !extend_extend; f_equal; try lia; try done.
      by rewrite seq_app, fmap_app.
    + intros j k' Hk'. rewrite GetVar_set_var. subst b'. rewrite num_vars_extend.
      apply lookup_snoc_Some in Hk' as [[Hlt Hk']|[-> <-]]; [|by rewrite decide_True].
      rewrite decide_False; [by apply Hj|]. intros [_ <-]. destruct Hpre as [r ->]. apply NoDup_app in Hkeys as (Hnd & _).
      apply NoDup_app in Hnd as (_ & Hnd & _). apply (Hnd k); [by eapply list_elem_of_lookup_2|set_solver].
    + intros l' k' Hl'. rewrite GetVar_set_var, decide_False by naive_solver. by apply Ho.
  - cbn [fst snd] in *. subst b'. eauto.
Qed.

(** One link. *)
Lemma add_link_variables_ok l cap b m :
  matrix_ok b ->
  exists b' m', (exists rs es, b' = extend b width rs es) /\ matrix_ok b' /\
    add_link_variables keys constrained (b, m) (l, cap) = Ok (b', m') /\
    (forall j k, keys !! j = Some k -> GetVar m' l k = Ok (num_vars b + j)) /\
    (forall l' k, l' <> l -> GetVar m' l' k = GetVar m l' k) /\
    forall x, sat b' x <-> sat b x /\ (forall i, i < width -> (0 <= x (num_vars b + i)%nat)%Q) /\
      (constrained = true -> within (Fin 0, Fin cap) (sum_of (λ j, x (num_vars b + j)%nat) (seq 0 width))).
Proof using Hkeys.
  clear HL L. intros Hmat. unfold add_link_variables. cbn [fst snd].
  destruct constrained.
  - rewrite new_constraint_extend, !bind_Ok_l.
    destruct (add_variables l (Some (num_rows b)) (extend b 0 [(Fin 0, Fin cap)] []) m) as (m' & Hm & Hj & Ho).
    rewrite extend_extend, num_vars_extend, Nat.add_0_r in Hm. setoid_rewrite num_vars_extend in Hj. rewrite Nat.add_0_r in Hj.
    eexists _, m'. split_and!; [eauto| |exact Hm|exact Hj|exact Ho|].
    + eapply (sat_extend _ _ _ _ (λ _, 0%Q)); [done|]. apply Forall_fmap, Forall_true. cbn. lia.
    + intros x. cbn [app Nat.add]. edestruct (sat_extend b width [(Fin 0, Fin cap)]
        ((λ j, mkElement (num_rows b) (num_vars b + j) 1) <$> seq 0 width) x) as [_ ->]; [done|apply Forall_fmap, Forall_true; cbn; lia|].
      apply and_iff_compat_l, and_iff_compat_l.
      assert (Hv : (row_value ((λ j, mkElement (num_rows b) (num_vars b + j) 1) <$> seq 0 width) (num_rows b) x ==
                    sum_of (λ j, x (num_vars b + j)%nat) (seq 0 width))%Q) by (rewrite (row_value_same _ (λ j, (num_vars b + j)%nat)); lra).
      split; [intros Hr _; specialize (Hr 0 _ eq_refl); by rewrite Nat.add_0_r, Hv in Hr|].
      intros Hr [|i] r Hi; simplify_eq/=. rewrite Nat.add_0_r, Hv. by apply Hr.
  - rewrite !bind_Ok_l. destruct (add_variables l None b m) as (m' & Hm & Hj & Ho).
    eexists _, m'. split_and!; [eauto| |exact Hm|exact Hj|exact Ho|].
    + by eapply (sat_extend _ _ _ _ (λ _, 0%Q)).
    + intros x. edestruct (sat_extend b width [] [] x) as [_ ->]; [done|constructor|]. naive_solver.
Qed.

(** What [GetLinkToVariableMap] has built for the links [ls]. *)
Record variables_ok (ls : list (nat * Q)) (b0 b : building) m : Prop := {
  vo_extend : exists rs es, b = extend b0 (length ls * width) rs es;
  vo_matrix : matrix_ok b;
  vo_vars : forall i lc j k, ls !! i = Some lc -> keys !! j = Some k -> GetVar m lc.1 k = Ok (i * width + j);
  vo_sat : forall x, sat b x <->
    (forall v, v < length ls * width -> (0 <= x v)%Q) /\
    (constrained = true -> forall i lc, ls !! i = Some lc -> within (Fin 0, Fin lc.2) (sum_of (λ j, x (i * width + j)) (seq 0 width)))
}.

Lemma sat_init d x : sat (mkBuilding (Problem.init d) []) x.
Proof using Type. by split; intros ? ? ?. Qed.

Lemma GetLinkToVariableMap_ok d :
  exists b m, GetLinkToVariableMap L keys constrained (mkBuilding (Problem.init d) []) = Ok (b, m) /\
    variables_ok L (mkBuilding (Problem.init d) []) b m.
Proof using Hkeys HL.
  set (b0 := mkBuilding (Problem.init d) []). unfold GetLinkToVariableMap.
  destruct (mfold_inv (λ ls (acc : building * VarMap K), variables_ok ls b0 acc.1 acc.2)
              (add_link_variables keys constrained) L (b0, ∅)) as ([b m] & Hf & Hok); [| |by exists b, m].
  { split; cbn.
    - exists [], []. by rewrite extend_nil.
    - constructor.
    - by intros i lc j k Hi.
    - intros x. split; [|intros; apply sat_init]. intros _. split; [lia|]. by intros _ i lc Hi. }
  intros ls [l cap] [b m] Hpre Hok. cbn [fst snd] in *.
  assert (Hl : forall i lc, ls !! i = Some lc -> lc.1 <> l).
  { intros i lc Hi Heq. destruct Hpre as [r ->]. rewrite !fmap_app in HL. apply NoDup_app in HL as (Hnd & _).
    apply NoDup_app in Hnd as (_ & Hnd & _). apply (Hnd lc.1); [|cbn; set_solver].
    apply list_elem_of_fmap. exists lc. split; [done|]. by eapply list_elem_of_lookup_2. }
  destruct Hok as [(rs & es & Hext) Hmat Hvars Hsat].
  assert (Hnv : num_vars b = length ls * width) by (rewrite Hext, num_vars_extend; cbn; lia).
  destruct (add_link_variables_ok l cap b m Hmat) as (b' & m' & (rs' & es' & Hb') & Hmat' & -> & Hj & Ho & Hsat').
  exists (b', m'). split; [done|]. cbn [fst snd]. rewrite Hnv in *. split.
  - subst b' b. rewrite extend_extend. rewrite length_app. cbn [length]. exists (rs ++ rs'), (es ++ es'). f_equal. lia.
  - done.
  - intros i lc j k Hi Hk. apply lookup_snoc_Some in Hi as [[Hlt Hi]|[-> <-]].
    + rewrite Ho by (by eapply Hl). by eapply Hvars.
    + cbn. by apply Hj.
  - intros x. rewrite Hsat', Hsat, length_app. cbn [length]. split.
    + intros ([Hx Hc] & Hx' & Hc'). split.
      * intros v Hv. destruct (decide (v < length ls * width)); [by apply Hx|].
        replace v with (length ls * width + (v - length ls * width)) by lia. apply Hx'. lia.
      * intros Hcon i lc Hi. apply lookup_snoc_Some in Hi as [[Hlt Hi]|[-> <-]]; [by apply Hc|by apply Hc'].
    + intros [Hx Hc]. split_and!.
      * intros v Hv. apply Hx. lia.
      * intros Hcon i lc Hi. apply Hc; [done|]. by apply lookup_app_l_Some.
      * intros i Hi. apply Hx. lia.
      * intros Hcon. apply (Hc Hcon (length ls) (l, cap)). by rewrite lookup_app_r, Nat.sub_diag by lia.
Qed.
End flows.

(** A property that the rounds of a loop keep. *)
Lemma mfold_keeps {A S} (I : S -> Prop) (f : S -> A -> outcome S) l s s' :
  (forall s a s', a ∈ l -> I s -> f s a = Ok s' -> I s') -> I s -> mfold f l s = Ok s' -> I s'.
Proof.
  revert s. induction l as [|a l IH]; intros s Hstep Hs H; cbn in H; [by simplify_eq|].
  apply bind_Ok in H as (s1 & H1 & H). apply (IH s1); [|by eapply Hstep; [left|..]|done]. intros s2 b s3 Hb. apply Hstep. by right.
Qed.

(** Variables are for the given links and commodities only. *)
Lemma GetLinkToVariableMap_only {K} `{Countable K} L (keys : list K) constrained b b' (m : VarMap K) :
  GetLinkToVariableMap L keys constrained b = Ok (b', m) ->
  forall l vs, m !! l = Some vs -> l ∈ L.*1 /\ forall k, is_Some (vs !! k) -> k ∈ keys.
Proof.
  intros Hm. change (forall l vs, (b', m).2 !! l = Some vs -> l ∈ L.*1 /\ forall k, is_Some (vs !! k) -> k ∈ keys).
  revert Hm. unfold GetLinkToVariableMap. apply (mfold_keeps (λ acc : building * VarMap K, forall l vs, acc.2 !! l = Some vs -> l ∈ L.*1 /\ forall k, is_Some (vs !! k) -> k ∈ keys)); [|intros l vs Hl; cbn in Hl; by rewrite lookup_empty in Hl].
  intros [b0 m0] [l c] [b1 m1] Hlc Hm0 Hadd. unfold add_link_variables in Hadd. apply bind_Ok in Hadd as ([b2 oc] & _ & Hadd). cbn [fst snd] in *.
  revert Hadd. apply (mfold_keeps (λ acc : building * VarMap K, forall l vs, acc.2 !! l = Some vs -> l ∈ L.*1 /\ forall k, is_Some (vs !! k) -> k ∈ keys)); [|done].
  intros [b3 m3] k [b4 m4] Hk Hm3 Hv. unfold add_variable in Hv. cbn [fst snd] in *. apply bind_Ok in Hv as ([b5 v] & _ & Hv). simplify_eq/=.
  intros l' vs. unfold set_var. destruct (decide (l = l')) as [<-|Hne]; [rewrite lookup_insert_eq|rewrite lookup_insert_ne by done; apply Hm3].
  intros [= <-]. split; [apply list_elem_of_fmap; by exists (l, c)|]. intros k'. destruct (decide (k = k')) as [<-|Hk']; [done|].
  rewrite lookup_insert_ne by done. destruct (m3 !! l) as [vs3|] eqn:Hl3; cbn; [by apply (Hm3 l vs3)|]. rewrite lookup_empty. by intros [? ?].
Qed.

(** A sum over the positions of a list. *)
Lemma sum_of_seq {A} (f : A -> Q) (h : nat -> Q) (l : list A) n :
  (forall j a, l !! j = Some a -> (f a == h (n + j)%nat)%Q) -> (sum_of f l == sum_of h (seq n (length l)))%Q.
Proof.
  revert n. induction l as [|a l IH]; intros n Hf; [done|]. cbn [length seq]. rewrite !sum_of_cons.
  rewrite (Hf 0 a eq_refl), Nat.add_0_r. rewrite (IH (S n)); [done|]. intros j b Hb.
  rewrite (Hf (S j) b Hb). by rewrite Nat.add_succ_r.
Qed.

(** ** Networks with commodities *)
Section network.
Context {K : Type} `{Countable K}.
Context (g : GraphStorage.t) (L : list (nat * Q)) (keys : list K) (source : K -> nat -> option Q) (sink : K -> nat).
Context (adj : FlowProblem.AdjacencyMap) (constrained : bool).

(** How much of a commodity leaves a node, and how much comes in. *)
Definition outflow (f : nat -> K -> Q) (k : K) (n : nat) : Q := sum_of (λ l, f l k) (links_out g L.*1 n).
Definition inflow (f : nat -> K -> Q) (k : K) (n : nat) : Q := sum_of (λ l, f l k) (links_in g L.*1 n).

(** A flow of every commodity: nothing flows backwards, the links carry it, and
    every source sends at least its demand, nothing leaves a sink and nothing
    is lost on the way. *)
Record is_flow (f : nat -> K -> Q) : Prop := {
  fl_nonneg : forall l k, l ∈ L.*1 -> k ∈ keys -> (0 <= f l k)%Q;
  fl_capacity : constrained = true -> forall l cap, (l, cap) ∈ L -> (sum_of (f l) keys <= cap)%Q;
  fl_nodes : forall k n, k ∈ keys -> node_ok (source k n) (n =? sink k) (outflow f k n) (inflow f k n)
}.

Definition flow_of (m : VarMap K) (x : nat -> Q) (l : nat) (k : K) : Q := x (var_of m l k).

Definition build (d : Direction) : outcome (building * VarMap K) :=
  '(b, m) ← GetLinkToVariableMap L keys constrained (mkBuilding (Problem.init d) []);
  b' ← mfold (conserve adj m source sink) keys b; Ok (b', m).

Record encodes (d : Direction) (b : building) (m : VarMap K) : Prop := {
  en_extend : exists rs es, b = extend (mkBuilding (Problem.init d) []) (length L * length keys) rs es;
  en_matrix : matrix_ok b;
  en_vars : forall i lc j k, L !! i = Some lc -> keys !! j = Some k -> GetVar m lc.1 k = Ok (i * length keys + j);
  en_sat : forall x, sat b x <-> is_flow (flow_of m x)
}.

Hypothesis Hkeys : NoDup keys.
Hypothesis HL : NoDup L.*1.
Hypothesis Hadj : adjacency_ok g L.*1 adj.
(** A node that demands something has a link. *)
Hypothesis Hlinked : forall k n load, k ∈ keys -> source k n = Some load -> adj !! n = None -> (load <= 0)%Q.

Lemma var_index i j : i < length L -> j < length keys -> i * length keys + j < length L * length keys.
Proof using Type. nia. Qed.

Lemma index_var v : v < length L * length keys -> v / length keys < length L /\ v mod length keys < length keys.
Proof using Type.
  intros Hv. destruct (decide (length keys = 0)) as [Hz|Hz]; [lia|]. split; [|by apply Nat.mod_upper_bound].
  apply Nat.Div0.div_lt_upper_bound. lia.
Qed.

Lemma var_of_index m i lc j k :
  (forall i lc j k, L !! i = Some lc -> keys !! j = Some k -> GetVar m lc.1 k = Ok (i * length keys + j)) ->
  L !! i = Some lc -> keys !! j = Some k -> var_of m lc.1 k = i * length keys + j.
Proof using Type. intros Hv Hi Hj. unfold var_of. by rewrite (Hv i lc j k). Qed.

Lemma nonneg_iff m (x : nat -> Q) :
  (forall i lc j k, L !! i = Some lc -> keys !! j = Some k -> GetVar m lc.1 k = Ok (i * length keys + j)) ->
  (forall v, v < length L * length keys -> (0 <= x v)%Q) <-> (forall l k, l ∈ L.*1 -> k ∈ keys -> (0 <= flow_of m x l k)%Q).
Proof using Type.
  intros Hv. unfold flow_of. split.
  - intros Hx l k Hl Hk. apply list_elem_of_fmap in Hl as (lc & -> & Hl). apply list_elem_of_lookup in Hl as [i Hi], Hk as [j Hj].
    rewrite (var_of_index m i lc j k) by done. apply Hx, var_index; by eapply lookup_lt_Some.
  - intros Hx v Hlt. destruct (index_var v Hlt) as [Hi Hj]. destruct (lookup_lt_is_Some_2 _ _ Hi) as [lc Hlc].
    destruct (lookup_lt_is_Some_2 _ _ Hj) as [k Hk].
    specialize (Hx lc.1 k). rewrite (var_of_index m _ lc _ k Hv Hlc Hk) in Hx.
    rewrite Nat.mul_comm, <-Nat.div_mod_eq in Hx. apply Hx; [|by eapply list_elem_of_lookup_2].
    apply list_elem_of_fmap. exists lc. split; [done|]. by eapply list_elem_of_lookup_2.
Qed.

Lemma nodes_iff m x :
  (forall k, k ∈ keys -> conserved adj m source sink k x) <->
  (forall k n, k ∈ keys -> node_ok (source k n) (n =? sink k) (outflow (flow_of m x) k n) (inflow (flow_of m x) k n)).
Proof using Hadj Hlinked.
  destruct Hadj as [Hlists Hsome]. unfold conserved, outflow, inflow, flow_of. fold (flow_over (K := K)). split.
  - intros Hc k n Hk. specialize (Hlists n). unfold FlowProblem.adjacent in Hlists.
    destruct (adj !! n) as [[eo ei]|] eqn:Hn; cbn in Hlists; injection Hlists as <- <-; [by apply Hc|].
    unfold node_ok. rewrite !sum_of_nil. destruct (source k n) as [load|] eqn:Hs; [|by destruct (n =? sink k)].
    specialize (Hlinked k n load Hk Hs Hn). lra.
  - intros Hn k Hk n eo ei Ha. specialize (Hlists n). unfold FlowProblem.adjacent in Hlists. rewrite Ha in Hlists. cbn in Hlists.
    injection Hlists as -> ->. by apply Hn.
Qed.

(** The program encodes the flows. *)
Lemma build_encodes d : exists b m, build d = Ok (b, m) /\ encodes d b m.
Proof using All.
  unfold build. destruct (GetLinkToVariableMap_ok L keys constrained Hkeys HL d) as (b & m & -> & [Hext Hmat Hvars Hsat]).
  rewrite bind_Ok_l.
  destruct (adds_mfold (conserve adj m source sink) (λ k x, conserved adj m source sink k x) keys b Hmat) as (b' & -> & rs & es & Hb' & Hmat' & Hsat').
  { intros k b1 Hk Hok _. apply conserve_adds; [done|]. intros n eo ei e Hn He.
    apply list_elem_of_lookup in Hk as [j Hj]. destruct Hadj as [Hlists _]. specialize (Hlists n).
    unfold FlowProblem.adjacent in Hlists. rewrite Hn in Hlists. cbn in Hlists. injection Hlists as -> ->.
    assert (He' : e ∈ L.*1) by (unfold links_out, links_in in He; apply elem_of_app in He as [He|He]; apply list_elem_of_filter in He; tauto).
    apply list_elem_of_fmap in He' as (lc & -> & Hl). apply list_elem_of_lookup in Hl as [i Hi]. eexists. by eapply Hvars. }
  rewrite bind_Ok_l. exists b', m. split; [done|]. split; [|done..|].
  - destruct Hext as (rs0 & es0 & ->). subst b'. rewrite extend_extend, Nat.add_0_r. eauto.
  - intros x. rewrite Hsat', Hsat, nodes_iff, (nonneg_iff m x Hvars).
    assert (Hcap : (forall l k, l ∈ L.*1 -> k ∈ keys -> (0 <= flow_of m x l k)%Q) ->
      (forall i lc, L !! i = Some lc -> within (Fin 0, Fin lc.2) (sum_of (λ j, x (i * length keys + j)) (seq 0 (length keys)))) <->
      forall l cap, (l, cap) ∈ L -> (sum_of (flow_of m x l) keys <= cap)%Q).
    { intros Hnn. assert (Hsum : forall i lc, L !! i = Some lc ->
        (sum_of (flow_of m x lc.1) keys == sum_of (λ j, x (i * length keys + j)%nat) (seq 0 (length keys)))%Q).
      { intros i lc Hi. apply sum_of_seq. intros j k Hj. unfold flow_of. by rewrite (var_of_index m i lc j k). }
      split.
      - intros Hw l cap Hl. apply list_elem_of_lookup in Hl as [i Hi]. destruct (Hw i _ Hi) as [_ Hu]. cbn in Hu.
        by rewrite (Hsum i (l, cap) Hi).
      - intros Hc i [l cap] Hi. specialize (Hsum i _ Hi). cbn in Hsum. rewrite <-Hsum. split; cbn.
        + apply sum_of_nonneg. intros k Hk. apply Hnn; [|done]. apply list_elem_of_fmap. exists (l, cap). split; [done|].
          by eapply list_elem_of_lookup_2.
        + apply Hc. by eapply list_elem_of_lookup_2. }
    split.
    + intros [[Hnn Hc] Hn]. split; [done| |done]. intros Hcon. apply Hcap; auto.
    + intros [Hnn Hc Hn]. split_and!; [done| |done]. intros Hcon. apply Hcap; auto.
Qed.

Lemma build_only d b m : build d = Ok (b, m) -> forall l vs, m !! l = Some vs -> l ∈ L.*1 /\ forall k, is_Some (vs !! k) -> k ∈ keys.
Proof using Type.
  unfold build. intros Hb. apply bind_Ok in Hb as ([b1 m1] & H1 & Hb). apply bind_Ok in Hb as (b2 & _ & Hb). simplify_eq.
  by eapply GetLinkToVariableMap_only.
Qed.

(** Every flow is the flow of an assignment. *)
Lemma realize d b m (f : nat -> K -> Q) :
  encodes d b m -> exists x, forall l k, l ∈ L.*1 -> k ∈ keys -> flow_of m x l k = f l k.
Proof using Type.
  intros [_ _ Hvars _].
  exists (λ v, match L !! (v / length keys), keys !! (v mod length keys) with Some lc, Some k => f lc.1 k | _, _ => 0%Q end).
  intros l k Hl Hk. apply list_elem_of_fmap in Hl as (lc & -> & Hl). apply list_elem_of_lookup in Hl as [i Hi], Hk as [j Hj].
  unfold flow_of. rewrite (var_of_index m i lc j k) by done. assert (Hlt : j < length keys) by (by eapply lookup_lt_Some).
  rewrite (Nat.add_comm _ j), Nat.div_add, Nat.Div0.mod_add, Nat.div_small, Nat.mod_small by lia. cbn. by rewrite Hi, Hj.
Qed.

Lemma is_flow_ext (f f' : nat -> K -> Q) :
  (forall l k, l ∈ L.*1 -> k ∈ keys -> (f l k == f' l k)%Q) -> is_flow f -> is_flow f'.
Proof using Type.
  intros Hf [Hnn Hc Hn].
  assert (Hsub : forall k ls, k ∈ keys -> ls ⊆ L.*1 -> (sum_of (λ l, f l k) ls == sum_of (λ l, f' l k) ls)%Q).
  { intros k ls Hk Hls. apply sum_of_ext. intros l Hl. apply Hf; [by apply Hls|done]. }
  split.
  - intros l k Hl Hk. rewrite <-Hf by done. by apply Hnn.
  - intros Hcon l cap Hl. rewrite <-(sum_of_ext (f l)); [by apply Hc|]. intros k Hk. apply Hf; [|done].
    apply list_elem_of_fmap. by exists (l, cap).
  - intros k n Hk. unfold outflow, inflow. rewrite <-!Hsub; [by apply Hn|done| |done|]; unfold links_in, links_out;
      intros l Hl; apply list_elem_of_filter in Hl; tauto.
Qed.
End network.

(** ** Demands *)
Import SingleCommodityFlowProblem.

Definition demand : Type := (nat * nat * Q)%type.
Definition add_demands (ds : list demand) (p : t) : outcome t := mfold (λ p (d : demand), AddDemand p d.1.1 d.1.2 d.2) ds p.

(** The problem holds exactly the demands [ds], at most one per pair. *)
Record holds_demands (ds : list demand) (p : t) : Prop := {
  hd_source : forall s d v, source p d s = Some v <-> (s, d, v) ∈ ds;
  hd_dst : forall d, is_Some (demands_ p !! d) <-> exists s v, (s, d, v) ∈ ds;
  hd_distinct : NoDup ds.*1
}.

Lemma IsSource_Some ls n v : NoDup ls.*1 -> IsSource ls n = Some v <-> (n, v) ∈ ls.
Proof.
  induction ls as [|[s w] ls IH]; intros Hnd; [set_solver|]. cbn in *. apply NoDup_cons in Hnd as [Hs Hnd].
  destruct (Nat.eqb_spec s n) as [->|Hne].
  - rewrite elem_of_cons. split; [intros [= ->]; by left|]. intros [[= ->]|Hin]; [done|]. exfalso. apply Hs.
    apply list_elem_of_fmap. by exists (n, v).
  - rewrite IH, elem_of_cons by done. naive_solver.
Qed.

(** The sources of a destination are distinct. *)
Definition distinct_sources (p : t) : Prop := forall d ls, demands_ p !! d = Some ls -> NoDup ls.*1.

Lemma AddDemand_Ok p s d v p' :
  AddDemand p s d v = Ok p' -> distinct_sources p ->
  base p' = base p /\ distinct_sources p' /\
  forall d', demands_ p' !! d' = if decide (d = d') then Some (default [] (demands_ p !! d) ++ [(s, v)]) else demands_ p !! d'.
Proof.
  intros H Hd. unfold AddDemand in H. apply bind_Ok in H as ([] & Hc & H). apply check_Ok in Hc. simplify_eq/=. split; [done|].
  assert (Hl : forall d', <[d := default [] (demands_ p !! d) ++ [(s, v)]]> (demands_ p) !! d' =
    if decide (d = d') then Some (default [] (demands_ p !! d) ++ [(s, v)]) else demands_ p !! d').
  { intros d'. case_decide; subst; [by rewrite lookup_insert_eq|by rewrite lookup_insert_ne]. }
  split; [|exact Hl]. intros d' ls. cbn. rewrite Hl. case_decide as Hdd; [|apply Hd]. intros [= <-]. rewrite fmap_app. cbn.
  apply NoDup_app. split_and!; [| |apply NoDup_singleton].
  - destruct (demands_ p !! d) eqn:Hp; cbn; [by eapply Hd|constructor].
  - intros s' Hs' ->%list_elem_of_singleton. apply list_elem_of_fmap in Hs' as ([s1 w] & -> & Hin).
    rewrite forallb_forall in Hc. specialize (Hc _ (proj1 (list_elem_of_In _ _) Hin)). cbn in Hc.
    by apply negb_true_iff, Nat.eqb_neq in Hc.
Qed.

Lemma add_demands_holds caps g p0 ds p :
  construct caps g = Ok p0 -> add_demands ds p0 = Ok p ->
  FlowProblem.construct caps g = Ok (base p) /\ holds_demands ds p.
Proof.
  intros H0 H. unfold construct in H0. apply bind_Ok in H0 as (fp & Hfp & H0). injection H0 as <-.
  assert (Hgen : forall ds1 ds2 q, add_demands ds2 q = Ok p -> base q = fp -> distinct_sources q ->
    (forall s d v, (s, v) ∈ default [] (demands_ q !! d) <-> (s, d, v) ∈ ds1) ->
    (forall d, is_Some (demands_ q !! d) <-> exists s v, (s, d, v) ∈ ds1) -> NoDup ds1.*1 ->
    base p = fp /\ holds_demands (ds1 ++ ds2) p).
  { intros ds1 ds2. revert ds1. induction ds2 as [|[[s d] v] ds2 IH]; intros ds1 q Hq Hb Hd Hin Hdst Hnd.
    - cbn in Hq. injection Hq as <-. rewrite app_nil_r. split; [done|]. split; [|done..].
      intros s d v. unfold source. rewrite <-Hin. apply IsSource_Some.
      destruct (demands_ q !! d) eqn:Hqd; cbn; [by eapply Hd|constructor].
    - cbn in Hq. apply bind_Ok in Hq as (q1 & Hq1 & Hq). destruct (AddDemand_Ok q s d v q1 Hq1 Hd) as (Hb1 & Hd1 & Hl1).
      rewrite (cons_middle (s, d, v)), app_assoc. apply (IH (ds1 ++ [(s, d, v)]) q1); [done|congruence|done| | |].
      + intros s' d' v'. rewrite Hl1, elem_of_app, list_elem_of_singleton, <-Hin. case_decide; cbn; [|naive_solver].
        subst. rewrite elem_of_app, list_elem_of_singleton. naive_solver.
      + intros d'. rewrite Hl1. setoid_rewrite elem_of_app. setoid_rewrite list_elem_of_singleton.
        case_decide; [naive_solver|]. rewrite Hdst. naive_solver.
      + rewrite fmap_app. apply NoDup_app. split_and!; [done| |apply NoDup_singleton]. cbn.
        intros [s' d'] Hin' [= -> ->]%list_elem_of_singleton. apply list_elem_of_fmap in Hin' as ([[s1 d1] w] & [= <- <-] & Hw%Hin).
        specialize (Hd1 d). rewrite Hl1, decide_True in Hd1 by done. specialize (Hd1 _ eq_refl). rewrite fmap_app in Hd1.
        apply NoDup_app in Hd1 as (_ & Hd1 & _). apply (Hd1 s); [|cbn; set_solver]. apply list_elem_of_fmap. by exists (s, w). }
  destruct (Hgen [] ds (mk fp ∅) H) as [-> Hh]; [done|by intros ? ? ?|set_solver|cbn|constructor|done].
  intros d. split; [|set_solver]. intros [? Hx]. by rewrite lookup_empty in Hx.
Qed.

(** Destinations that have demands, in order. *)
Definition destinations (p : t) : list nat := (items (demands_ p)).*1.

Lemma elem_of_destinations ds p d : holds_demands ds p -> d ∈ destinations p <-> exists s v, (s, d, v) ∈ ds.
Proof.
  intros [_ Hd]. rewrite <-Hd. unfold destinations. rewrite list_elem_of_fmap. split.
  - intros ([d' ls] & -> & Hin%elem_of_items). eauto.
  - intros [ls Hls]. exists (d, ls). split; [done|]. by apply elem_of_items.
Qed.

(** A way of routing demands over the links of a network: an amount for every
    link and destination.  The links carry it, every source sends at least
    what it demands, sinks send nothing back and nothing is lost on the way. *)
Record routes (caps : gmap nat Q) (g : GraphStorage.t) (limited : bool) (ds : list demand) (f : nat -> nat -> Q) : Prop := {
  ro_nonneg : forall l d s v, is_Some (caps !! l) -> (s, d, v) ∈ ds -> (0 <= f l d)%Q;
  ro_capacity : limited = true -> forall l cap, caps !! l = Some cap -> (sum_of (f l) (remove_dups ds.*1.*2) <= cap)%Q;
  ro_source : forall s d v, (s, d, v) ∈ ds -> (v <= outflow g (items caps) f d s - inflow g (items caps) f d s)%Q;
  ro_sink : forall s d v, (s, d, v) ∈ ds -> (forall w, (d, d, w) ∉ ds) -> (outflow g (items caps) f d d == 0)%Q;
  ro_transit : forall s d v n, (s, d, v) ∈ ds -> n <> d -> (forall w, (n, d, w) ∉ ds) ->
    (outflow g (items caps) f d n == inflow g (items caps) f d n)%Q
}.

(** Every node that demands something has a link. *)
Definition sources_linked (caps : gmap nat Q) (g : GraphStorage.t) (ds : list demand) : Prop :=
  forall s d v, (s, d, v) ∈ ds -> (0 < v)%Q -> exists l, is_Some (caps !! l) /\ (src_of g l = Some s \/ dst_of g l = Some s).

Lemma elem_of_links (caps : gmap nat Q) l : l ∈ (items caps).*1 <-> is_Some (caps !! l).
Proof.
  rewrite list_elem_of_fmap. split.
  - intros ([l' c] & -> & Hin%elem_of_items). eauto.
  - intros [c Hc]. exists (l, c). split; [done|]. by apply elem_of_items.
Qed.

Lemma routes_is_flow caps g limited ds p f :
  holds_demands ds p ->
  routes caps g limited ds f <-> is_flow g (items caps) (destinations p) (source p) (λ d, d) limited f.
Proof.
  intros Hh. assert (Hdst : forall d, d ∈ destinations p <-> exists s v, (s, d, v) ∈ ds) by (intros; by apply elem_of_destinations).
  assert (Hperm : remove_dups ds.*1.*2 ≡ₚ destinations p).
  { apply NoDup_Permutation; [apply NoDup_remove_dups|apply NoDup_items_keys|]. intros d.
    rewrite elem_of_remove_dups, Hdst, !list_elem_of_fmap. split.
    - intros ([s d'] & -> & Hin). apply list_elem_of_fmap in Hin as ([[s1 d1] v] & [= -> ->] & Hin). eauto.
    - intros (s & v & Hin). exists (s, d). split; [done|]. apply list_elem_of_fmap. by exists (s, d, v). }
  assert (Hnone : forall d n, source p d n = None <-> forall w, (n, d, w) ∉ ds).
  { intros d n. split.
    - intros Hn w Hin%(hd_source _ _ Hh). congruence.
    - intros Hn. destruct (source p d n) as [w|] eqn:Hs; [|done]. by apply (hd_source _ _ Hh), Hn in Hs. }
  split.
  - intros [Hnn Hc Hs Hk Ht]. split.
    + intros l d Hl%elem_of_links (s & v & Hin)%Hdst. by eapply Hnn.
    + intros Hlim l cap Hl%elem_of_items. rewrite <-Hperm. by apply Hc.
    + intros d n (s & v & Hin)%Hdst. unfold node_ok. destruct (source p d n) as [w|] eqn:Hsn.
      * apply Hs. by apply (hd_source _ _ Hh).
      * assert (Hno := proj1 (Hnone d n) Hsn). destruct (Nat.eqb_spec n d) as [->|Hne]; [by eapply Hk|by eapply Ht].
  - intros [Hnn Hc Hn]. split.
    + intros l d s v Hl%elem_of_links Hin. apply Hnn; [done|]. apply Hdst. eauto.
    + intros Hlim l cap Hl%elem_of_items. rewrite Hperm. by apply Hc.
    + intros s d v Hin. assert (Hd : d ∈ destinations p) by (apply Hdst; eauto). specialize (Hn d s Hd).
      by rewrite (proj2 (hd_source _ _ Hh s d v) Hin) in Hn.
    + intros s d v Hin Hno. assert (Hd : d ∈ destinations p) by (apply Hdst; eauto). specialize (Hn d d Hd).
      by rewrite (proj2 (Hnone d d) Hno), Nat.eqb_refl in Hn.
    + intros s d v n Hin Hne Hno. assert (Hd : d ∈ destinations p) by (apply Hdst; eauto). specialize (Hn d n Hd).
      rewrite (proj2 (Hnone d n) Hno) in Hn. by destruct (Nat.eqb_spec n d).
Qed.

(** The program of a problem encodes the ways of routing its demands. *)
Lemma start_encodes caps g p0 ds p d limited :
  construct caps g = Ok p0 -> add_demands ds p0 = Ok p -> sources_linked caps g ds ->
  exists b m, start p d limited = Ok (b, m) /\
    encodes g (items caps) (destinations p) (source p) (λ d, d) limited d b m /\
    (forall x, sat b x <-> routes caps g limited ds (flow_of m x)).
Proof.
  intros H0 H Hl. destruct (add_demands_holds caps g p0 ds p H0 H) as [Hc Hh].
  destruct (construct_adjacency caps g (base p) Hc) as (Hg & Hcaps & Hadj & _).
  destruct (build_encodes g (items caps) (destinations p) (source p) (λ d, d) (FlowProblem.adjacency_map_ (base p)) limited) with (d := d)
    as (b & m & Hb & Hen).
  - apply NoDup_items_keys.
  - apply NoDup_items_keys.
  - done.
  - intros k n load Hk Hs Hn. destruct (Qlt_le_dec 0 load) as [Hpos|]; [|done].
    destruct (Hl n k load) as (l & Hl1 & Hl2); [by apply (hd_source _ _ Hh)|done|].
    assert (is_Some (FlowProblem.adjacency_map_ (base p) !! n)) as [? ?]; [|congruence].
    apply (ao_some _ _ _ Hadj). exists l. by rewrite elem_of_links.
  - exists b, m. split_and!; [|done|].
    + rewrite <-Hb. unfold start, build, link_variables, AddFlowConservationConstraints. by rewrite Hcaps.
    + intros x. rewrite (en_sat _ _ _ _ _ _ _ _ _ Hen x). symmetry. by apply routes_is_flow.
Qed.

(** ** Nodes without links

    Rows are added for the nodes of the adjacency map only: a demand of a node
    that no link with a capacity leaves or enters is in no row. *)

Definition linked_node (caps : gmap nat Q) (g : GraphStorage.t) (n : nat) : Prop :=
  exists l, l ∈ (items caps).*1 /\ (src_of g l = Some n \/ dst_of g l = Some n).

#[global] Instance linked_node_dec caps g n : Decision (linked_node caps g n).
Proof.
  refine (cast_if (decide (Exists (λ l, src_of g l = Some n \/ dst_of g l = Some n) (items caps).*1)));
    unfold linked_node; rewrite Exists_exists in *; done.
Defined.

(** What the program asks of a source. *)
Definition asked_load (caps : gmap nat Q) (g : GraphStorage.t) (s : SrcAndLoad) : SrcAndLoad :=
  if decide (linked_node caps g s.1) then s else (s.1, 0%Q).

Definition asked_demand (caps : gmap nat Q) (g : GraphStorage.t) (d : demand) : demand :=
  if decide (linked_node caps g d.1.1) then d else (d.1, 0%Q).

(** The demands, where those of nodes without links ask for nothing. *)
Definition asked_demands (caps : gmap nat Q) (g : GraphStorage.t) (ds : list demand) : list demand :=
  asked_demand caps g <$> ds.

Definition asked (caps : gmap nat Q) (g : GraphStorage.t) (p : t) : t :=
  mk (base p) ((λ ls : list SrcAndLoad, asked_load caps g <$> ls) <$> demands_ p).

Lemma asked_demands_linked caps g ds : sources_linked caps g (asked_demands caps g ds).
Proof.
  intros s d v ([[s' d'] v'] & Heq & _)%list_elem_of_fmap Hv. unfold asked_demand in Heq. cbn in Heq.
  case_decide as Hl; simplify_eq; [|lra]. destruct Hl as (l & Hin & Hl). exists l. by rewrite <-elem_of_links.
Qed.

(** Demands of linked sources are asked for as they are. *)
Lemma asked_demands_id caps g ds :
  (forall s d v, (s, d, v) ∈ ds -> linked_node caps g s) -> asked_demands caps g ds = ds.
Proof.
  intros Hl. unfold asked_demands. rewrite <-(list_fmap_id ds) at 2. apply list_fmap_ext. intros i [[s d] v] Hi.
  unfold asked_demand. rewrite decide_True; [done|]. eapply Hl, list_elem_of_lookup_2, Hi.
Qed.

Lemma asked_load_fst caps g l : (asked_load caps g <$> l).*1 = l.*1.
Proof. rewrite <-list_fmap_compose. apply list_fmap_ext. intros i x _. unfold compose, asked_load. by case_decide. Qed.

Lemma AddDemand_asked caps g p s d v p' :
  AddDemand p s d v = Ok p' ->
  AddDemand (asked caps g p) s d (asked_load caps g (s, v)).2 = Ok (asked caps g p').
Proof.
  unfold AddDemand. intros (? & Hc & [= <-])%bind_Ok. apply check_Ok in Hc.
  match goal with |- context [forallb _ ?l] => assert (Hd : l = asked_load caps g <$> default [] (demands_ p !! d)) end.
  { unfold asked. cbn [demands_]. rewrite lookup_fmap. by destruct (demands_ p !! d). }
  rewrite Hd.
  assert (Hf : forallb (λ s0 : SrcAndLoad, negb (s0.1 =? s)) (asked_load caps g <$> default [] (demands_ p !! d)) = true).
  { apply forallb_forall. intros z Hz%list_elem_of_In. apply list_elem_of_fmap in Hz as (y & -> & Hy).
    rewrite forallb_forall in Hc. specialize (Hc y (proj1 (list_elem_of_In _ _) Hy)). unfold asked_load. by case_decide. }
  rewrite Hf. cbn [check]. rewrite bind_Ok_l. f_equal. unfold asked. cbn [base demands_]. rewrite fmap_insert, fmap_app. cbn [fmap list_fmap].
  do 4 f_equal. unfold asked_load. cbn [fst]. by case_decide.
Qed.

Lemma add_demands_asked caps g ds p p' :
  add_demands ds p = Ok p' -> add_demands (asked_demands caps g ds) (asked caps g p) = Ok (asked caps g p').
Proof.
  unfold add_demands, asked_demands. revert p. induction ds as [|[[s d] v] ds IH]; intros p; cbn [mfold fmap list_fmap].
  { by intros [= <-]. }
  intros (p1 & H1 & H)%bind_Ok. cbn [fst snd] in H1. apply (AddDemand_asked caps g) in H1.
  assert (Ha : asked_demand caps g (s, d, v) = (s, d, (asked_load caps g (s, v)).2)) by (unfold asked_demand, asked_load; cbn; by case_decide).
  rewrite Ha. cbn [fst snd]. rewrite H1, bind_Ok_l. by apply IH.
Qed.

Lemma asked_init caps g p0 : construct caps g = Ok p0 -> asked caps g p0 = p0.
Proof. unfold construct. intros (b & _ & [= <-])%bind_Ok. unfold asked. cbn. by rewrite fmap_empty. Qed.

Lemma destinations_asked caps g p : destinations (asked caps g p) = destinations p.
Proof.
  apply sorted_keys_unique; [apply items_sorted..|]. intros k. unfold destinations. rewrite !list_elem_of_fmap. split.
  - intros ([k' ls] & -> & Hin%elem_of_items). cbn in Hin. rewrite lookup_fmap in Hin.
    destruct (demands_ p !! k') as [l|] eqn:Hk; [|done]. exists (k', l). split; [done|]. by apply elem_of_items.
  - intros ([k' ls] & -> & Hin%elem_of_items). exists (k', asked_load caps g <$> ls). split; [done|].
    apply elem_of_items. cbn. by rewrite lookup_fmap, Hin.
Qed.

Lemma source_asked caps g p d n : linked_node caps g n -> source (asked caps g p) d n = source p d n.
Proof.
  intros Hn. unfold source. cbn. rewrite lookup_fmap. destruct (demands_ p !! d) as [ls|]; cbn; [|done].
  induction ls as [|[s v] ls IH]; cbn; [done|]. unfold asked_load at 1 2 3. cbn.
  case_decide as Hs; cbn; destruct (Nat.eqb_spec s n); try done. by subst.
Qed.

Lemma mfold_ext {A S} (f f' : S -> A -> outcome S) l s : (forall s a, a ∈ l -> f s a = f' s a) -> mfold f l s = mfold f' l s.
Proof.
  revert s. induction l as [|a l IH]; intros s Hf; [done|]. cbn [mfold]. rewrite (Hf s a) by (by left). destruct (f' s a) as [s'|e]; [|done].
  rewrite !bind_Ok_l. apply IH. intros s1 b Hb. apply Hf. by right.
Qed.

(** The nodes of the adjacency map are those with links. *)
Lemma adjacency_linked caps g p0 ds p n a :
  construct caps g = Ok p0 -> add_demands ds p0 = Ok p ->
  (n, a) ∈ items (FlowProblem.adjacency_map_ (base p)) -> linked_node caps g n.
Proof.
  intros H0 H Hin%elem_of_items. destruct (add_demands_holds caps g p0 ds p H0 H) as [Hc _].
  destruct (construct_adjacency caps g (base p) Hc) as (_ & _ & Hadj & _). apply (ao_some _ _ _ Hadj). eauto.
Qed.

(** The program is that of the demands that are asked for. *)
Lemma start_asked caps g p0 ds p d limited :
  construct caps g = Ok p0 -> add_demands ds p0 = Ok p -> start (asked caps g p) d limited = start p d limited.
Proof.
  intros H0 H. unfold start, link_variables, AddFlowConservationConstraints.
  change (items (demands_ (asked caps g p))).*1 with (destinations (asked caps g p)).
  change (items (demands_ p)).*1 with (destinations p). rewrite destinations_asked. cbn [base asked].
  destruct (GetLinkToVariableMap _ _ _ _) as [[b m]|]; cbn [mbind outcome_bind]; [|done].
  rewrite (mfold_ext _ (conserve (FlowProblem.adjacency_map_ (base p)) m (source p) (λ dst, dst))); [done|].
  intros b1 k _. unfold conserve. apply mfold_ext. intros b2 [n a] Hn. cbn [fst].
  rewrite source_asked; [done|]. by eapply adjacency_linked.
Qed.

Lemma add_demands_asked_problem caps g p0 ds p :
  construct caps g = Ok p0 -> add_demands ds p0 = Ok p -> add_demands (asked_demands caps g ds) p0 = Ok (asked caps g p).
Proof. intros H0 H. rewrite <-(asked_init caps g p0 H0). by apply add_demands_asked. Qed.
