(* ===== verification/FlowOptima.v ===== *)
(** What the programs of [src/src/lp/mc_flow.cc] compute: feasibility, the
    maximum flow and the smallest maximum utilization.  The optimizer is a
    parameter; the theorems assume that it solves the program at hand. *)

From S2P Require Import Prelude OrderedMap PerfectHash Graph Rational LinearProgram FlowProblem.

Import SingleCommodityFlowProblem.

(** ** Objectives *)

Lemma linear_objective_zero n x : (linear_objective (replicate n 0%Q) x == 0)%Q.
Proof.
  apply sum_of_zero. intros v _. destruct (replicate n 0%Q !! v) as [q|] eqn:Hq; cbn; [|lra].
  apply lookup_replicate in Hq as [-> _]. lra.
Qed.

Lemma linear_objective_insert cs v q x :
  v < length cs -> (linear_objective (<[v := q]> cs) x == linear_objective cs x + (q - default 0 (cs !! v)) * x v)%Q.
Proof.
  intros Hv. unfold linear_objective. rewrite length_insert.
  assert (Hsum : (sum_of (λ u, default 0 (<[v := q]> cs !! u) * x u - default 0 (cs !! u) * x u) (seq 0 (length cs)) ==
                  (q - default 0 (cs !! v)) * x v)%Q).
  { rewrite (sum_of_single _ _ v); [|apply NoDup_seq|apply elem_of_seq; lia|].
    - rewrite list_lookup_insert_eq by done. cbn. lra.
    - intros u _ Hu. rewrite list_lookup_insert_ne by done. lra. }
  rewrite sum_of_minus in Hsum. lra.
Qed.

(** The linear function that a map from variables to coefficients stands for. *)
Definition map_objective (m : gmap nat Q) (x : nat -> Q) : Q := sum_of (λ vq : nat * Q, (vq.2 * x vq.1)%Q) (map_to_list m).

Lemma map_objective_insert m v q x :
  (map_objective (<[v := q]> m) x == map_objective m x + (q - default 0 (m !! v)) * x v)%Q.
Proof.
  unfold map_objective. destruct (m !! v) as [q0|] eqn:Hv.
  - rewrite <-(insert_delete_eq m v q), (map_to_list_insert (delete v m)) by apply lookup_delete_eq.
    rewrite <-(map_to_list_delete m v q0 Hv). rewrite !sum_of_cons. cbn. lra.
  - rewrite map_to_list_insert by done. rewrite sum_of_cons. cbn. lra.
Qed.

(** ** Feasibility *)

(** The optimizer solves the program of a problem. *)
Definition solves_start (solve : Problem.t -> Solution.t) (p : t) (d : Direction) (limited : bool) : Prop :=
  forall b m, start p d limited = Ok (b, m) -> solves (finish b) (solve (finish b)).

Lemma feasible_finish b x : feasible (finish b) x <-> sat b x.
Proof. done. Qed.

Lemma IsFeasible_decides solve caps g p0 ds p :
  construct caps g = Ok p0 -> add_demands ds p0 = Ok p -> sources_linked caps g ds -> solves_start solve p MAXIMIZE true ->
  exists r, IsFeasible solve p = Ok r /\ (r = true <-> exists f, routes caps g true ds f).
Proof.
  intros H0 H Hl Hsolve. destruct (start_encodes caps g p0 ds p MAXIMIZE true H0 H Hl) as (b & m & Hs & Hen & Hsat).
  unfold IsFeasible. rewrite Hs, bind_Ok_l. eexists. split; [done|].
  specialize (Hsolve b m Hs). unfold solves in Hsolve. unfold Solution.found.
  destruct (add_demands_holds caps g p0 ds p H0 H) as [_ Hh].
  destruct (Solution.type (solve (finish b))).
  1,2: destruct Hsolve as (_ & Hf & _); split; [|done]; intros _; eexists; by apply Hsat, feasible_finish.
  split; [done|]. intros [f Hf]. exfalso. destruct (realize g _ _ _ _ _ _ _ _ f Hen) as [x Hx].
  assert (Hr : sat b x).
  { apply Hsat. rewrite (routes_is_flow _ _ _ _ p) in Hf |- * by done. eapply is_flow_ext; [|exact Hf].
    intros l k Hlk Hk. by rewrite Hx. }
  destruct Hsolve as [Hno|Hunb]; [by apply (Hno x)|].
  destruct (Hunb 1%Q) as (y & _ & Hy). destruct (en_extend _ _ _ _ _ _ _ _ _ Hen) as (rs & es & ->).
  pose proof (linear_objective_zero (length (items caps) * length (destinations p)) y) as Hz.
  change (1 <= linear_objective (replicate (length (items caps) * length (destinations p)) 0%Q) y + 0)%Q in Hy. lra.
Qed.

(** C26: [IsFeasible] returns true exactly when the demands that the program
    asks for can be routed: when there is a flow that the links carry, in which
    every source sends at least its demand, sinks send nothing and nothing is
    lost on the way.  The program asks for the demands of the nodes that a link
    with a capacity leaves or enters; a demand of another node counts as zero
    ([asked_demands]).  The optimizer solves the program as documented. *)
Theorem IsFeasible_iff_routable solve caps g p0 ds p :
  construct caps g = Ok p0 -> add_demands ds p0 = Ok p -> solves_start solve p MAXIMIZE true ->
  exists r, IsFeasible solve p = Ok r /\ (r = true <-> exists f, routes caps g true (asked_demands caps g ds) f).
Proof.
  intros H0 H Hsolve. pose proof (start_asked caps g p0 ds p MAXIMIZE true H0 H) as Hst.
  destruct (IsFeasible_decides solve caps g p0 (asked_demands caps g ds) (asked caps g p)) as (r & Hr & Hiff).
  - done.
  - by apply add_demands_asked_problem.
  - apply asked_demands_linked.
  - intros b m. rewrite Hst. apply Hsolve.
  - exists r. split; [|done]. revert Hr. unfold IsFeasible. by rewrite Hst.
Qed.

(** ** Maximum flow *)
Module MaxFlow.

(** [totals[var] += coefficient] for the variables of some links. *)
Definition add_totals (m : VarMap nat) (dst_index : nat) (coefficient : Q) (edges : list nat) (totals : gmap nat Q) : outcome (gmap nat Q) :=
  mfold (λ totals edge, var ← GetVar m edge dst_index;
           Ok (<[var := (default 0 (totals !! var) + coefficient)%Q]> totals)) edges totals.

(** The net flow out of the sources of a destination. *)
Definition totals_of (p : t) (m : VarMap nat) (dst_index : nat) : outcome (gmap nat Q) :=
  mfold (λ totals (node_and_adj_lists : nat * (list nat * list nat)),
      match source p dst_index node_and_adj_lists.1 with
      | Some _ =>
          totals ← add_totals m dst_index 1 node_and_adj_lists.2.1 totals;
          add_totals m dst_index (-(1)) node_and_adj_lists.2.2 totals
      | None => Ok totals
      end) (items (FlowProblem.adjacency_map_ (base p))) ∅.

Definition set_objective (q : Problem.t) (totals : gmap nat Q) : outcome Problem.t :=
  mfold (λ q (var_and_total : nat * Q), Problem.SetObjectiveCoefficient q var_and_total.1 var_and_total.2) (items totals) q.

Definition objective (p : t) (m : VarMap nat) (q : Problem.t) : outcome Problem.t :=
  mfold (λ q dst_index, totals ← totals_of p m dst_index; set_objective q totals) (destinations p) q.

(** [GetMaxFlow] up to the recovery of paths: the program, and the variables. *)
Definition program (p : t) : outcome (Problem.t * VarMap nat) :=
  '(b, m) ← start p MAXIMIZE true;
  q ← objective p m (problem b);
  Ok (Problem.SetMatrix q (problem_matrix b), m).

(** [*max_flow], when true is returned. *)
Definition GetMaxFlow (solve : Problem.t -> Solution.t) (p : t) : outcome (option Q) :=
  '(q, _) ← program p;
  let solution := solve q in
  if Solution.found solution then Ok (Some (Solution.ObjectiveValue solution)) else Ok None.
End MaxFlow.

(** What leaves the sources of the demands. *)
Definition total_flow (caps : gmap nat Q) (g : GraphStorage.t) (ds : list demand) (f : nat -> nat -> Q) : Q :=
  sum_of (λ d : demand, (outflow g (items caps) f d.1.2 d.1.1 - inflow g (items caps) f d.1.2 d.1.1)%Q) ds.

Section max_flow.
Context (caps : gmap nat Q) (g : GraphStorage.t) (p0 p : t) (ds : list demand).
Hypothesis Hp0 : construct caps g = Ok p0.
Hypothesis Hp : add_demands ds p0 = Ok p.

Notation width := (length (destinations p)).
Notation adj := (FlowProblem.adjacency_map_ (base p)).

(** The variables of the links for a destination. *)
Definition is_var_of (j v : nat) : Prop := exists i, i < length (items caps) /\ v = i * width + j.

Section with_vars.
Context (m : VarMap nat).
Hypothesis Hvars : forall i lc j k, items caps !! i = Some lc -> destinations p !! j = Some k -> GetVar m lc.1 k = Ok (i * width + j).

Lemma link_var l j d :
  l ∈ (items caps).*1 -> destinations p !! j = Some d -> exists v, GetVar m l d = Ok v /\ var_of m l d = v /\ is_var_of j v.
Proof using All.
  intros Hl Hj. apply list_elem_of_fmap in Hl as (lc & -> & Hl). apply list_elem_of_lookup in Hl as [i Hi].
  exists (i * width + j). unfold var_of. rewrite (Hvars i lc j d Hi Hj). split_and!; [done..|]. exists i. split; [by eapply lookup_lt_Some|done].
Qed.

(** Totals for a destination: which function they are, and of which variables. *)
Definition totals_ok (j : nat) (totals : gmap nat Q) (h : (nat -> Q) -> Q) : Prop :=
  (forall v, is_Some (totals !! v) -> is_var_of j v) /\ forall x, (map_objective totals x == h x)%Q.

Lemma add_totals_ok j d q edges totals h :
  destinations p !! j = Some d -> edges ⊆ (items caps).*1 -> totals_ok j totals h ->
  exists totals', MaxFlow.add_totals m d q edges totals = Ok totals' /\
    totals_ok j totals' (λ x, h x + q * flow_over m d x edges)%Q.
Proof using All.
  intros Hj. unfold MaxFlow.add_totals. revert totals h. induction edges as [|e edges IH]; intros totals h Hsub [Hdom Hval]; cbn [mfold].
  { exists totals. split; [done|]. split; [done|]. intros x. rewrite Hval. unfold flow_over. rewrite sum_of_nil. lra. }
  destruct (link_var e j d) as (v & Hv & Hvo & Hi); [set_solver|done|]. rewrite Hv, !bind_Ok_l.
  destruct (IH (<[v := (default 0 (totals !! v) + q)%Q]> totals) (λ x, h x + q * x v)%Q) as (t' & Ht' & Hd' & Hv'); [set_solver| |].
  - split.
    + intros u [q' Hu]. destruct (decide (v = u)) as [<-|Hne]; [done|]. rewrite lookup_insert_ne in Hu by done. apply Hdom. eauto.
    + intros x. rewrite map_objective_insert, Hval. lra.
  - exists t'. split; [exact Ht'|]. split; [done|]. intros x. rewrite Hv'. unfold flow_over. rewrite sum_of_cons, Hvo. lra.
Qed.

(** The sources of a destination among nodes. *)
Definition source_nodes (d : nat) (nodes : list nat) : list nat := filter (λ n, is_Some (source p d n)) nodes.
Definition net_flow (x : nat -> Q) (d n : nat) : Q :=
  (outflow g (items caps) (flow_of m x) d n - inflow g (items caps) (flow_of m x) d n)%Q.

Lemma totals_of_ok j d :
  destinations p !! j = Some d -> adjacency_ok g (items caps).*1 adj ->
  exists totals, MaxFlow.totals_of p m d = Ok totals /\
    totals_ok j totals (λ x, sum_of (net_flow x d) (source_nodes d (items adj).*1)).
Proof using All.
  intros Hj Hadj. unfold MaxFlow.totals_of.
  destruct (mfold_inv (λ done_ totals, totals_ok j totals (λ x, sum_of (net_flow x d) (source_nodes d done_.*1)))
    (λ totals (a : nat * (list nat * list nat)),
      match source p d a.1 with
      | Some _ => totals ← MaxFlow.add_totals m d 1 a.2.1 totals; MaxFlow.add_totals m d (-(1)) a.2.2 totals
      | None => Ok totals
      end) (items adj) ∅) as (totals & Ht & Hok); [| |by eauto].
  { split; [intros v [? Hv]; by rewrite lookup_empty in Hv|]. intros x. unfold map_objective. by rewrite map_to_list_empty. }
  intros done_ [n [eo ei]] totals Hpre Htot. cbn [fst snd].
  assert (Hn : adj !! n = Some (eo, ei)) by (apply elem_of_items; destruct Hpre as [r ->]; set_solver).
  pose proof (ao_lists _ _ _ Hadj n) as Hlists. unfold FlowProblem.adjacent in Hlists. rewrite Hn in Hlists. cbn in Hlists.
  injection Hlists as -> ->. rewrite fmap_app. cbn [fmap list_fmap fst]. unfold source_nodes in *.
  destruct (source p d n) as [load|] eqn:Hs.
  - assert (Hout : links_out g (items caps).*1 n ⊆ (items caps).*1) by (intros l Hl; apply list_elem_of_filter in Hl; tauto).
    assert (Hin : links_in g (items caps).*1 n ⊆ (items caps).*1) by (intros l Hl; apply list_elem_of_filter in Hl; tauto).
    destruct (add_totals_ok j d 1 _ totals _ Hj Hout Htot) as (t1 & -> & H1). rewrite bind_Ok_l.
    destruct (add_totals_ok j d (-(1)) _ t1 _ Hj Hin H1) as (t2 & -> & Hd2 & H2).
    exists t2. split; [done|]. split; [done|]. intros x. rewrite H2, filter_app, filter_cons_True, filter_nil, sum_of_app, sum_of_cons, sum_of_nil by eauto.
    unfold net_flow, outflow, inflow, flow_over, flow_of. lra.
  - exists totals. split; [done|]. destruct Htot as [Hd1 H1]. split; [done|]. intros x.
    rewrite H1, filter_app, filter_cons_False, filter_nil, app_nil_r by (rewrite Hs; by intros [? ?]). done.
Qed.

Lemma SetObjectiveCoefficient_Ok q v c c0 :
  Problem.objective q !! v = Some c0 ->
  Problem.SetObjectiveCoefficient q v c =
  Ok (Problem.mk (Problem.direction q) (Problem.vars q) (Problem.rows q) (Problem.elements q) (<[v := c]> (Problem.objective q)) (Problem.offset q)).
Proof using All. intros Hv. unfold Problem.SetObjectiveCoefficient. by rewrite (proj2 (vec_at_Ok _ _ _) Hv). Qed.

(** Coefficients of variables that have none yet. *)
Lemma set_objective_ok totals q :
  (forall v, is_Some (totals !! v) -> Problem.objective q !! v = Some 0%Q) ->
  exists q', MaxFlow.set_objective q totals = Ok q' /\
    (exists cs, q' = Problem.mk (Problem.direction q) (Problem.vars q) (Problem.rows q) (Problem.elements q) cs (Problem.offset q) /\
       length cs = length (Problem.objective q) /\
       (forall v, totals !! v = None -> cs !! v = Problem.objective q !! v) /\
       forall x, (linear_objective cs x == linear_objective (Problem.objective q) x + map_objective totals x)%Q).
Proof using All.
  intros Hz. unfold MaxFlow.set_objective.
  assert (Hgen : forall l cs, NoDup l.*1 -> (forall v t, (v, t) ∈ l -> cs !! v = Some 0%Q) ->
    exists cs', mfold (λ q (vt : nat * Q), Problem.SetObjectiveCoefficient q vt.1 vt.2) l
        (Problem.mk (Problem.direction q) (Problem.vars q) (Problem.rows q) (Problem.elements q) cs (Problem.offset q)) =
      Ok (Problem.mk (Problem.direction q) (Problem.vars q) (Problem.rows q) (Problem.elements q) cs' (Problem.offset q)) /\
      length cs' = length cs /\ (forall v, v ∉ l.*1 -> cs' !! v = cs !! v) /\
      forall x, (linear_objective cs' x == linear_objective cs x + sum_of (λ vt : nat * Q, (vt.2 * x vt.1)%Q) l)%Q).
  { induction l as [|[v c] l IH]; intros cs Hnd Hcs; cbn [mfold].
    - exists cs. split_and!; [done..|]. intros x. rewrite sum_of_nil. lra.
    - apply NoDup_cons in Hnd as [Hv Hnd]. assert (Hcv : cs !! v = Some 0%Q) by (apply (Hcs v c); set_solver).
      assert (Hlt : v < length cs) by (by eapply lookup_lt_Some).
      erewrite SetObjectiveCoefficient_Ok, bind_Ok_l by exact Hcv. cbn [fst snd].
      destruct (IH (<[v := c]> cs) Hnd) as (cs' & Hm & Hlen & Hother & Hlin).
      { intros u c' Hu. rewrite list_lookup_insert_ne; [by apply (Hcs u c'); set_solver|]. intros <-. apply Hv.
        apply list_elem_of_fmap. by exists (v, c'). }
      exists cs'. split_and!; [exact Hm|by rewrite Hlen, length_insert| |].
      + intros u Hu. rewrite Hother by set_solver. apply list_lookup_insert_ne. set_solver.
      + intros x. rewrite Hlin, linear_objective_insert, sum_of_cons, Hcv by done. cbn [from_option Datatypes.id fst snd]. lra. }
  destruct (Hgen (items totals) (Problem.objective q) (NoDup_items_keys totals)) as (cs & Hm & Hlen & Hother & Hlin).
  { intros v c Hv%elem_of_items. apply Hz. eauto. }
  assert (Hq : Problem.mk (Problem.direction q) (Problem.vars q) (Problem.rows q) (Problem.elements q) (Problem.objective q) (Problem.offset q) = q) by (by destruct q).
  rewrite Hq in Hm. eexists. split; [exact Hm|]. exists cs. split_and!; [done..| |].
  - intros v Hv. apply Hother. rewrite list_elem_of_fmap. intros ([u c] & -> & Hu%elem_of_items). cbn in Hv. congruence.
  - intros x. rewrite Hlin. unfold map_objective. by rewrite items_Permutation.
Qed.

Lemma prefix_lookup {A} (l1 l : list A) a : (l1 ++ [a]) `prefix_of` l -> l !! length l1 = Some a.
Proof using Type. clear. intros [r ->]. rewrite <-app_assoc, lookup_app_r, Nat.sub_diag by lia. done. Qed.

Lemma objective_ok q :
  Problem.objective q = replicate (length (items caps) * width) 0%Q -> adjacency_ok g (items caps).*1 adj ->
  exists cs, MaxFlow.objective p m q =
      Ok (Problem.mk (Problem.direction q) (Problem.vars q) (Problem.rows q) (Problem.elements q) cs (Problem.offset q)) /\
    forall x, (linear_objective cs x == sum_of (λ d, sum_of (net_flow x d) (source_nodes d (items adj).*1)) (destinations p))%Q.
Proof using All.
  intros Hq Hadj. unfold MaxFlow.objective.
  destruct (mfold_inv (λ done_ q', exists cs,
      q' = Problem.mk (Problem.direction q) (Problem.vars q) (Problem.rows q) (Problem.elements q) cs (Problem.offset q) /\
      (forall x, (linear_objective cs x == sum_of (λ d, sum_of (net_flow x d) (source_nodes d (items adj).*1)) done_)%Q) /\
      (forall j v, length done_ <= j < width -> is_var_of j v -> cs !! v = Some 0%Q))
    (λ q d, totals ← MaxFlow.totals_of p m d; MaxFlow.set_objective q totals) (destinations p) q)
    as (q' & Hm & cs & -> & Hlin & _); [| |by exists cs].
  - exists (Problem.objective q). split_and!; [by destruct q| |].
    + intros x. rewrite Hq. apply linear_objective_zero.
    + intros j v [_ Hj] (i & Hi & ->). rewrite Hq. apply lookup_replicate. split; [done|]. nia.
  - intros done_ d q1 Hpre (cs & -> & Hlin & Hzero). pose proof (prefix_lookup _ _ _ Hpre) as Hd.
    assert (Hlt : length done_ < width) by (by eapply lookup_lt_Some).
    destruct (totals_of_ok (length done_) d Hd Hadj) as (totals & -> & Hdom & Hval). rewrite bind_Ok_l.
    edestruct (set_objective_ok totals) as (q' & Hq' & cs' & Heq & Hlen & Hother & Hlin'); [|exists q'; split; [exact Hq'|]].
    { intros v Hv. cbn. apply (Hzero (length done_)); [lia|by apply Hdom]. }
    cbn in Heq. exists cs'. split_and!; [exact Heq| |].
    + intros x. rewrite Hlin'. cbn [Problem.objective]. rewrite Hlin, Hval, sum_of_app, sum_of_cons, sum_of_nil. lra.
    + intros j v Hj Hv. rewrite length_app in Hj. cbn in Hj. rewrite Hother; [cbn; apply (Hzero j); [lia|done]|].
      destruct (totals !! v) as [t|] eqn:Ht; [|done]. exfalso.
      destruct (Hdom v ltac:(eauto)) as (i & Hi & ->), Hv as (i' & Hi' & Hv).
      destruct (Nat.lt_trichotomy i i') as [Hlt'|[->|Hlt']]; [|lia|];
        [assert (i * width + width <= i' * width) by nia; lia|assert (i' * width + width <= i * width) by nia; lia].
Qed.
End with_vars.

(** The objective is the total flow. *)
Lemma net_flow_total m x :
  (sum_of (λ d, sum_of (net_flow m x d) (source_nodes d (items adj).*1)) (destinations p) == total_flow caps g ds (flow_of m x))%Q.
Proof using All.
  destruct (add_demands_holds caps g p0 ds p Hp0 Hp) as [Hc Hh].
  destruct (construct_adjacency caps g (base p) Hc) as (_ & _ & Hadj & _).
  set (h := λ sd : nat * nat, net_flow m x sd.2 sd.1).
  assert (Ht : (total_flow caps g ds (flow_of m x) == sum_of h ds.*1)%Q) by (by rewrite sum_of_fmap).
  assert (Hl : (sum_of (λ d, sum_of (net_flow m x d) (source_nodes d (items adj).*1)) (destinations p) ==
                sum_of h (destinations p ≫= λ d, (λ n, (n, d)) <$> source_nodes d (items adj).*1))%Q).
  { rewrite sum_of_bind. apply sum_of_ext. intros d _. by rewrite sum_of_fmap. }
  rewrite Hl, Ht.
  assert (Hz : (sum_of h ds.*1 == sum_of h (filter (λ sd : nat * nat, sd.1 ∈ (items adj).*1) ds.*1))%Q).
  { rewrite sum_of_filter. apply sum_of_ext. intros [s d] _. case_decide as Hs; [done|]. cbn in Hs.
    assert (Hn : adj !! s = None) by (apply eq_None_not_Some; intros [a Ha]; apply Hs; apply list_elem_of_fmap; exists (s, a); split; [done|by apply elem_of_items]).
    pose proof (ao_lists _ _ _ Hadj s) as Hlists. unfold FlowProblem.adjacent in Hlists. rewrite Hn in Hlists. cbn in Hlists.
    unfold h, net_flow, outflow, inflow. cbn. injection Hlists as <- <-. rewrite !sum_of_nil. lra. }
  rewrite Hz. apply sum_of_proper. apply NoDup_Permutation.
  - apply NoDup_bind; [|intros d _; apply NoDup_fmap; [intros ?? [= ->]; done|apply NoDup_filter, NoDup_items_keys]|apply NoDup_items_keys].
    intros d1 d2 [s d] _ _ H1 H2. apply list_elem_of_fmap in H1 as (n1 & [= _ ->] & _), H2 as (n2 & [= _ ->] & _). done.
  - apply NoDup_filter, (hd_distinct _ _ Hh).
  - intros [s d]. rewrite list_elem_of_bind, list_elem_of_filter. setoid_rewrite (elem_of_destinations ds p _ Hh). split.
    + intros (d' & Hin & Hd'). apply list_elem_of_fmap in Hin as (n & [= -> ->] & Hn). apply list_elem_of_filter in Hn as [[v Hv] Hn].
      split; [done|]. apply (hd_source _ _ Hh) in Hv. apply list_elem_of_fmap. by exists (n, d', v).
    + intros [Hs Hin']. apply list_elem_of_fmap in Hin' as ([[s1 d1] v] & [= -> ->] & Hin). exists d1. split; [|eauto]. apply list_elem_of_fmap. exists s1. split; [done|].
      apply list_elem_of_filter. split; [|done]. exists v. by apply (hd_source _ _ Hh).
Qed.

(** The program of [GetMaxFlow] maximizes the total flow of routings. *)
Lemma program_ok :
  sources_linked caps g ds ->
  exists q m d, MaxFlow.program p = Ok (q, m) /\ Problem.direction q = MAXIMIZE /\
    (exists b, encodes g (items caps) (destinations p) (source p) (λ d, d) true d b m) /\
    (forall x, feasible q x <-> routes caps g true ds (flow_of m x)) /\
    (forall x, (objective_value q x == total_flow caps g ds (flow_of m x))%Q).
Proof using All.
  intros Hl. destruct (start_encodes caps g p0 ds p MAXIMIZE true Hp0 Hp Hl) as (b & m & Hs & Hen & Hsat).
  destruct (add_demands_holds caps g p0 ds p Hp0 Hp) as [Hc _]. destruct (construct_adjacency caps g (base p) Hc) as (_ & _ & Hadj & _).
  destruct (en_extend _ _ _ _ _ _ _ _ _ Hen) as (rs & es & Hb).
  destruct (objective_ok m (en_vars _ _ _ _ _ _ _ _ _ Hen) (problem b)) as (cs & Hobj & Hlin); [by rewrite Hb|done|].
  unfold MaxFlow.program. rewrite Hs, bind_Ok_l, Hobj, bind_Ok_l. eexists _, m, MAXIMIZE. split_and!; [done|by rewrite Hb|by exists b|exact Hsat|].
  intros x. unfold objective_value. cbn [Problem.SetMatrix Problem.objective Problem.offset]. rewrite Hlin, net_flow_total.
  rewrite Hb. cbn [extend problem Problem.offset Problem.init]. lra.
Qed.

Lemma sum_of_sublist_le {A} (P : A -> Prop) `{forall a, Decision (P a)} (f : A -> Q) l :
  (forall a, a ∈ l -> (0 <= f a)%Q) -> (sum_of f (filter P l) <= sum_of f l)%Q.
Proof using Type. clear. intros Hf. rewrite sum_of_filter. apply sum_of_le. intros a Ha. case_decide; [lra|by apply Hf]. Qed.

(** Capacities bound the total flow. *)
Lemma total_flow_bounded f :
  routes caps g true ds f -> (total_flow caps g ds f <= sum_of (λ _ : demand, sum_of snd (items caps)) ds)%Q.
Proof using All.
  intros Hf. destruct (add_demands_holds caps g p0 ds p Hp0 Hp) as [_ Hh]. unfold total_flow. apply sum_of_le. intros [[s d] v] Hin. cbn.
  assert (Hnn : forall l, l ∈ (items caps).*1 -> (0 <= f l d)%Q) by (intros l Hl%elem_of_links; by eapply (ro_nonneg _ _ _ _ _ Hf)).
  assert (Ho : (outflow g (items caps) f d s <= sum_of (λ l, f l d) (items caps).*1)%Q) by (by apply sum_of_sublist_le).
  assert (Hi : (0 <= inflow g (items caps) f d s)%Q).
  { apply sum_of_nonneg. intros l [_ Hl]%list_elem_of_filter. by apply Hnn. }
  assert (Hc : (sum_of (λ l, f l d) (items caps).*1 <= sum_of snd (items caps))%Q).
  { rewrite sum_of_fmap. apply sum_of_le. intros [l cap] Hl%elem_of_items. cbn.
    pose proof (ro_capacity _ _ _ _ _ Hf eq_refl l cap Hl) as Hcap.
    assert (Hle : (f l d <= sum_of (f l) (remove_dups ds.*1.*2))%Q); [|lra]. apply sum_of_elem_le.
    - intros d' Hd'. rewrite elem_of_remove_dups in Hd'. apply list_elem_of_fmap in Hd' as ([s' d1] & -> & Hd').
      apply list_elem_of_fmap in Hd' as ([[s2 d2] v'] & [= -> ->] & Hd'). cbn. eapply (ro_nonneg _ _ _ _ _ Hf); eauto.
    - rewrite elem_of_remove_dups. apply list_elem_of_fmap. exists (s, d). split; [done|]. apply list_elem_of_fmap. by exists (s, d, v). }
  lra.
Qed.
End max_flow.

(** The maximum when every source has a link. *)
Lemma GetMaxFlow_linked solve caps g p0 ds p :
  construct caps g = Ok p0 -> add_demands ds p0 = Ok p -> sources_linked caps g ds ->
  (forall q m, MaxFlow.program p = Ok (q, m) -> solves q (solve q)) ->
  exists q m r, MaxFlow.program p = Ok (q, m) /\ MaxFlow.GetMaxFlow solve p = Ok r /\
    match r with
    | None => forall f, ~ routes caps g true ds f
    | Some v =>
        (exists f, routes caps g true ds f /\ (v == total_flow caps g ds f)%Q) /\
        (Solution.type (solve q) = OPTIMAL -> forall f, routes caps g true ds f -> (total_flow caps g ds f <= v)%Q)
    end.
Proof.
  intros H0 H Hl Hsolve. destruct (program_ok caps g p0 p ds H0 H Hl) as (q & m & d & Hq & Hdir & [b Hen] & Hfeas & Hobj).
  destruct (add_demands_holds caps g p0 ds p H0 H) as [_ Hh].
  assert (Hreal : forall f, routes caps g true ds f -> exists x, feasible q x /\ (objective_value q x == total_flow caps g ds f)%Q).
  { intros f Hf. destruct (realize g _ _ _ _ _ _ _ _ f Hen) as [x Hx]. exists x. split.
    - apply Hfeas. rewrite (routes_is_flow _ _ _ _ p) in Hf |- * by done. eapply is_flow_ext; [|exact Hf]. intros l k Hlk Hk. by rewrite Hx.
    - rewrite Hobj. apply sum_of_ext. intros [[s k] v] Hin. cbn. unfold outflow, inflow.
      assert (Hk : k ∈ destinations p) by (apply (elem_of_destinations ds p k Hh); eauto).
      apply Qminus_comp; apply sum_of_ext; intros l [_ Hlk]%list_elem_of_filter; by rewrite Hx. }
  specialize (Hsolve q m Hq). unfold MaxFlow.GetMaxFlow, Solution.found. rewrite Hq, bind_Ok_l. unfold solves in Hsolve. rewrite Hdir in Hsolve.
  exists q, m. destruct (Solution.type (solve q)) eqn:Hty; eexists; (split_and!; [done..|]).
  - destruct Hsolve as (_ & Hf & Hval & Hbest). split; [eexists; split; [by apply Hfeas|by rewrite Hval]|].
    intros _ f Hr. destruct (Hreal f Hr) as (x & Hx & <-). rewrite Hval. by apply Hbest.
  - destruct Hsolve as (_ & Hf & Hval & _). split; [eexists; split; [by apply Hfeas|by rewrite Hval]|done].
  - intros f Hr. destruct (Hreal f Hr) as (x & Hx & _). destruct Hsolve as [Hno|Hunb]; [by apply (Hno x)|].
    destruct (Hunb (sum_of (λ _ : demand, sum_of snd (items caps)) ds + 1)%Q) as (y & Hy & Hgood). rewrite Hdir in Hgood. cbn [as_good] in Hgood. specialize (Hobj y).
    pose proof (total_flow_bounded caps g p0 p ds H0 H _ (proj1 (Hfeas y) Hy)). lra.
Qed.

(** The program of [GetMaxFlow] is that of the demands that are asked for. *)
Lemma program_asked caps g p0 ds p :
  construct caps g = Ok p0 -> add_demands ds p0 = Ok p -> MaxFlow.program (asked caps g p) = MaxFlow.program p.
Proof.
  intros H0 H. unfold MaxFlow.program. rewrite (start_asked caps g p0 ds p MAXIMIZE true H0 H).
  destruct (start p MAXIMIZE true) as [[b m]|]; cbn [mbind outcome_bind]; [|done].
  unfold MaxFlow.objective. rewrite destinations_asked.
  rewrite (mfold_ext _ (λ q dst_index, totals ← MaxFlow.totals_of p m dst_index; MaxFlow.set_objective q totals)); [done|].
  intros q k _. unfold MaxFlow.totals_of. cbn [asked base]. erewrite mfold_ext; [reflexivity|].
  intros totals [n a] Hn. cbn [fst snd]. rewrite source_asked; [reflexivity|]. by eapply adjacency_linked.
Qed.

Lemma total_flow_asked caps g ds f : (total_flow caps g (asked_demands caps g ds) f == total_flow caps g ds f)%Q.
Proof.
  unfold total_flow, asked_demands. rewrite sum_of_fmap. apply sum_of_ext. intros [[s d] v] _.
  unfold asked_demand. by case_decide.
Qed.

(** C23: [GetMaxFlow] computes the maximum flow: it fails exactly when the
    demands that the program asks for cannot be routed (a demand of a node that
    no link with a capacity leaves or enters counts as zero), the value that it
    returns is the total flow out of the sources of a way of routing them, and
    no way has a larger total when the optimizer reports an optimum.  The
    optimizer solves the program as documented. *)
Theorem GetMaxFlow_is_maximum solve caps g p0 ds p :
  construct caps g = Ok p0 -> add_demands ds p0 = Ok p ->
  (forall q m, MaxFlow.program p = Ok (q, m) -> solves q (solve q)) ->
  exists q m r, MaxFlow.program p = Ok (q, m) /\ MaxFlow.GetMaxFlow solve p = Ok r /\
    match r with
    | None => forall f, ~ routes caps g true (asked_demands caps g ds) f
    | Some v =>
        (exists f, routes caps g true (asked_demands caps g ds) f /\ (v == total_flow caps g ds f)%Q) /\
        (Solution.type (solve q) = OPTIMAL ->
         forall f, routes caps g true (asked_demands caps g ds) f -> (total_flow caps g ds f <= v)%Q)
    end.
Proof.
  intros H0 H Hsolve. pose proof (program_asked caps g p0 ds p H0 H) as Hpr.
  destruct (GetMaxFlow_linked solve caps g p0 (asked_demands caps g ds) (asked caps g p)) as (q & m & r & Hq & Hr & Hres).
  - done.
  - by apply add_demands_asked_problem.
  - apply asked_demands_linked.
  - intros q m. rewrite Hpr. apply Hsolve.
  - unfold MaxFlow.GetMaxFlow in Hr. rewrite Hpr in Hq, Hr. exists q, m, r. split_and!; [done|exact Hr|].
    destruct r as [v|]; [|done]. destruct Hres as [(f & Hf & Hv) Hbest]. split.
    + exists f. split; [done|]. by rewrite Hv, total_flow_asked.
    + intros Ho f' Hf'. rewrite <-total_flow_asked. by apply Hbest.
Qed.

(** ** An example: one link of capacity 5 and a demand of 3 over it *)

Definition one_link_builder : list GraphLinkBase := [mkGraphLinkBase "A" "B" 1%Z 1%Z 5000000%Z 10%Z].
Definition one_link : GraphStorage.t :=
  match GraphStorage.construct (GraphBuilder.mk false one_link_builder) [] with Ok g => g | Fail _ => GraphStorage.init [] end.
Definition one_capacity : gmap nat Q := {[0 := 5%Q]}.
Definition one_demand : list demand := [(0, 1, 3%Q)].
Definition one_problem : t :=
  match construct one_capacity one_link with
  | Ok p => match add_demands one_demand p with Ok p' => p' | Fail _ => p end
  | Fail _ => mk (FlowProblem.mk one_link ∅ ∅) ∅
  end.

Definition one_solution (v : Q) (q : Problem.t) : Solution.t := Solution.mk OPTIMAL (linear_objective (Problem.objective q) (λ _, v)) [v] false.

Lemma one_linked : sources_linked one_capacity one_link one_demand.
Proof.
  intros s d v Hin _. apply list_elem_of_singleton in Hin as [= -> -> ->]. exists 0. split; [by eexists|by left].
Qed.

(** The rows of the program of the example, for a link of capacity
    [cap] and a demand of [load]. *)
Definition one_rows (cap load : Q) (q : Problem.t) : Prop :=
  Problem.vars q = [nonneg_var] /\
  Problem.rows q = [Some (Fin 0, Fin cap); Some (Fin 0, Fin 0); Some (Fin load, PosInf); Some (Fin 0, Fin 0)] /\
  Problem.elements q = [mkElement 0 0 1; mkElement 2 0 1] /\ Problem.offset q = 0%Q.

Lemma one_feasible cap load q x : one_rows cap load q -> feasible q x <-> (0 <= x 0%nat)%Q /\ (load <= x 0%nat <= cap)%Q.
Proof.
  intros (Hv & Hr & He & _). unfold feasible. rewrite Hv, Hr, He.
  assert (Hrow : forall c, (row_value [mkElement 0 0 1; mkElement 2 0 1] c x ==
                            (if decide (0%nat = c) then x 0%nat else 0) + (if decide (2%nat = c) then x 0%nat else 0))%Q).
  { intros c. unfold row_value. rewrite !sum_of_cons, sum_of_nil. cbn [constraint variable value]. repeat case_decide; lra. }
  split.
  - intros [_ Hrows]. pose proof (Hrows 0 _ eq_refl) as H0. pose proof (Hrows 2 _ eq_refl) as H2. rewrite Hrow, decide_True, decide_False in H0 by done.
    rewrite Hrow, decide_False, decide_True in H2 by done. destruct H0 as [H0' H0], H2 as [H2 _]. cbn in H0', H0, H2. lra.
  - intros [Hpos Hx]. split.
    + intros [|v] var Hvar; simplify_eq/=. repeat split; cbn; [lra|done].
    + intros [|[|[|[|c]]]] r Hc; simplify_eq/=; rewrite Hrow;
        rewrite ?(decide_True (P := 0 = 0)), ?(decide_True (P := 2 = 2)) by done;
        rewrite ?decide_False by done; split; cbn; lra || done.
Qed.

Lemma one_solves_best cap load v q cs :
  one_rows cap load q -> Problem.objective q = [cs] -> (0 <= v)%Q /\ (load <= v <= cap)%Q -> 
  (forall y, (load <= y <= cap)%Q -> as_good (Problem.direction q) (cs * v) (cs * y)) -> solves q (one_solution v q).
Proof.
  intros Hq Hcs Hv Hbest.
  assert (Ho : forall x, (objective_value q x == cs * x 0%nat)%Q).
  { intros x. destruct Hq as (_ & _ & _ & Hoff). unfold objective_value, linear_objective. rewrite Hcs, Hoff. cbn [length seq].
    rewrite sum_of_cons, sum_of_nil. change (default 0%Q ([cs] !! 0)) with cs. lra. }
  unfold solves, one_solution. cbn [Solution.type Solution.solution_type_]. split_and!.
  - destruct Hq as (-> & _). done.
  - apply (one_feasible cap load); [done|]. exact Hv.
  - rewrite Ho. cbn [Solution.ObjectiveValue Solution.objective_value_]. unfold linear_objective. rewrite Hcs. cbn [length seq].
    rewrite sum_of_cons, sum_of_nil. change (default 0%Q ([cs] !! 0)) with cs. change (Solution.assignment _ 0) with v. lra.
  - intros _ y Hy. apply (one_feasible cap load) in Hy as [_ Hy]; [|done]. specialize (Hbest _ Hy).
    pose proof (Ho (Solution.assignment (Solution.mk OPTIMAL (linear_objective (Problem.objective q) (λ _, v)) [v] false))) as Hv'.
    change (Solution.assignment _ 0) with v in Hv'. pose proof (Ho y). destruct (Problem.direction q); cbn [as_good] in *; lra.
Qed.

Lemma one_solves cap load v q cs :
  one_rows cap load q -> Problem.objective q = [cs] -> (0 <= v)%Q /\ (load <= v <= cap)%Q -> (cs * (cap - v) == 0)%Q -> (0 <= cs)%Q ->
  Problem.direction q = MAXIMIZE -> solves q (one_solution v q).
Proof.
  intros Hq Hcs Hv Hbest Hpos Hdir. apply (one_solves_best cap load v q cs); [done..|]. rewrite Hdir. cbn [as_good]. intros y Hy. nra.
Qed.

Lemma IsFeasible_iff_routable_witness :
  exists r, IsFeasible (one_solution 3) one_problem = Ok r /\ (r = true <-> exists f, routes one_capacity one_link true (asked_demands one_capacity one_link one_demand) f).
Proof.
  eapply (IsFeasible_iff_routable (one_solution 3) one_capacity one_link _ one_demand one_problem).
  - vm_compute. reflexivity.
  - vm_compute. reflexivity.
  - intros b m Hb. vm_compute in Hb. injection Hb as <- <-. apply (one_solves 5 3 3 _ 0); [by repeat split|done|lra|lra|lra|done].
Defined.

Lemma GetMaxFlow_is_maximum_witness :
  exists q m r, MaxFlow.program one_problem = Ok (q, m) /\ MaxFlow.GetMaxFlow (one_solution 5) one_problem = Ok r /\
    match r with
    | None => forall f, ~ routes one_capacity one_link true (asked_demands one_capacity one_link one_demand) f
    | Some v =>
        (exists f, routes one_capacity one_link true (asked_demands one_capacity one_link one_demand) f /\ (v == total_flow one_capacity one_link one_demand f)%Q) /\
        (Solution.type (one_solution 5 q) = OPTIMAL ->
         forall f, routes one_capacity one_link true (asked_demands one_capacity one_link one_demand) f -> (total_flow one_capacity one_link one_demand f <= v)%Q)
    end.
Proof.
  eapply (GetMaxFlow_is_maximum (one_solution 5) one_capacity one_link _ one_demand one_problem).
  - vm_compute. reflexivity.
  - vm_compute. reflexivity.
  - intros q m Hq. vm_compute in Hq. injection Hq as <- <-. apply (one_solves 5 3 5 _ 1); [by repeat split|done|lra|lra|lra|done].
Defined.

(** Without capacities no link is left and the demand has no row: the demand
    is called feasible although nothing can be routed. *)
Theorem isolated_source_feasible solve :
  let p := match construct ∅ one_link ≫= add_demands one_demand with Ok p => p | Fail _ => one_problem end in
  solves_start solve p MAXIMIZE true -> IsFeasible solve p = Ok true /\ forall f, ~ routes ∅ one_link true one_demand f.
Proof.
  intros p Hsolve. assert (Hs : start p MAXIMIZE true = Ok (mkBuilding (Problem.init MAXIMIZE) [], ∅)) by (vm_compute; reflexivity).
  split.
  - unfold IsFeasible. rewrite Hs, bind_Ok_l. specialize (Hsolve _ _ Hs). unfold solves in Hsolve. unfold Solution.found.
    destruct (Solution.type (solve (finish _))); [done..|]. exfalso.
    destruct Hsolve as [Hno|Hunb]; [apply (Hno (λ _, 0%Q)); by split|].
    destruct (Hunb 1%Q) as (y & _ & Hy). cbn in Hy. unfold objective_value, linear_objective in Hy. cbn in Hy. lra.
  - intros f Hf. pose proof (ro_source _ _ _ _ _ Hf 0 1 3%Q) as Hs1. unfold outflow, inflow in Hs1. rewrite items_empty in Hs1.
    cbn in Hs1. assert (3 <= 0)%Q; [|lra]. apply Hs1. set_solver.
Qed.

Lemma one_links : (items one_capacity).*1 = [0].
Proof. vm_compute. reflexivity. Qed.

Lemma one_delays ls : NoDup ls -> ls ⊆ (items one_capacity).*1 -> is_Ok (TotalDelayOfLinks ls one_link).
Proof.
  rewrite one_links. intros Hnd Hsub. assert (Hall : forall a, a ∈ ls -> a = 0) by (intros a Ha; by apply Hsub, list_elem_of_singleton in Ha).
  destruct ls as [|a [|b ls]].
  - eexists. vm_compute. reflexivity.
  - rewrite (Hall a) by (by left). eexists. vm_compute. reflexivity.
  - exfalso. apply NoDup_cons in Hnd as [Hn _]. apply Hn. rewrite (Hall a), (Hall b) by (by (left || (right; left))). by left.
Qed.
