(* ===== verification/DemandScaling.v ===== *)
(** Model of the searches of [src/src/lp/mc_flow.cc] for the largest demands
    that a network carries: [MaxDemandScaleFactor] and [MaxDemandIncrement].
    Arithmetic on doubles rounds: [rnd] is the rounding of a result, of which
    the theorems use that it is exact on numbers that a double represents and
    that it is monotone. *)

From S2P Require Import Prelude OrderedMap PerfectHash Graph Rational LinearProgram FlowProblem FlowOptima Double.

Import SingleCommodityFlowProblem.

(** What IEEE 754 says of the rounding of a result of moderate size. *)
Class Rounding (rnd : Q -> Q) := {
  rnd_exact q m k : (Z.abs m <= 2 ^ 53)%Z -> k <= 60 -> (q == m # Pos.of_nat (2 ^ k))%Q -> (rnd q == q)%Q;
  rnd_mono q q' : (q <= q')%Q -> (rnd q <= rnd q')%Q
}.

Module Scaling.
Section ops.
Context (rnd : Q -> Q) (solve : Problem.t -> Solution.t).

(** The private constructor: every load times a factor plus an increment. *)
Definition scale_load (scale_factor increment load : Q) : Q := rnd (rnd (load * scale_factor) + increment).
Definition scaled (p : t) (scale_factor increment : Q) : t :=
  mk (base p) (fmap (λ loads : list SrcAndLoad, (λ load, (load.1, scale_load scale_factor increment load.2)) <$> loads) (demands_ p)).

Definition kMaxScaleFactor : Q := 1000000.
(** The double next to 0.001. *)
Definition kStopThreshold : Q := 4611686018427388 # 4611686018427387904.

(** The loops of both searches; [test] is the problem that a guess leads to. *)
Fixpoint search (test : Q -> t) (fuel : nat) (min_bound max_bound curr_estimate : Q) : outcome Q :=
  _ ← check (Qle_bool min_bound max_bound);
  let delta := rnd (max_bound - min_bound) in
  if Qle_bool delta kStopThreshold then Ok curr_estimate
  else
    match fuel with
    | O => Fail OutOfFuel
    | S fuel' =>
        let guess := rnd (min_bound + rnd (rnd (max_bound - min_bound) / 2)) in
        is_feasible ← IsFeasible solve (test guess);
        if (is_feasible : bool) then search test fuel' guess max_bound guess
        else search test fuel' min_bound guess curr_estimate
    end.

Definition all_zero (p : t) : bool :=
  forallb (λ dl : nat * list SrcAndLoad, forallb (λ s, Qeq_bool s.2 0) dl.2) (items (demands_ p)).

Definition MaxDemandScaleFactor (fuel : nat) (p : t) : outcome Q :=
  feasible ← IsFeasible solve p;
  if negb feasible then Ok 0%Q
  else if all_zero p then Ok 0%Q
  else
    curr_estimate ← search (λ guess, scaled p guess 0) fuel 1 kMaxScaleFactor kMaxScaleFactor;
    Ok (if Qeq_bool curr_estimate kMaxScaleFactor then 1%Q else curr_estimate).

(** [std::max]. *)
Definition max_capacity (p : t) : Q :=
  fold_left (λ (acc : Q) (lc : nat * Q), if Qle_bool lc.2 acc then acc else lc.2) (items (FlowProblem.link_capacities_ (base p))) 0%Q.

Definition MaxDemandIncrement (fuel : nat) (p : t) : outcome Q :=
  feasible ← IsFeasible solve p;
  if negb feasible || (length (items (demands_ p)) =? 0) then Ok 0%Q
  else search (λ guess, scaled p 1 guess) fuel 1 (max_capacity p) (max_capacity p).
End ops.
End Scaling.

Import Scaling.

(** ** Scaled demands *)

Definition scale_demands (rnd : Q -> Q) (s inc : Q) (ds : list demand) : list demand :=
  (λ d : demand, (d.1, scale_load rnd s inc d.2)) <$> ds.

Lemma scaled_AddDemand rnd s inc p src_ dst_ v p' :
  AddDemand p src_ dst_ v = Ok p' -> AddDemand (scaled rnd p s inc) src_ dst_ (scale_load rnd s inc v) = Ok (scaled rnd p' s inc).
Proof.
  unfold AddDemand. intros H. apply bind_Ok in H as ([] & Hc & H). apply check_Ok in Hc. injection H as <-.
  set (h := λ ls : list SrcAndLoad, (λ load : SrcAndLoad, (load.1, scale_load rnd s inc load.2)) <$> ls).
  assert (Hd : default [] (demands_ (scaled rnd p s inc) !! dst_) = h (default [] (demands_ p !! dst_))).
  { cbn. rewrite lookup_fmap. by destruct (demands_ p !! dst_). }
  assert (Hf : forall ls, forallb (λ x : SrcAndLoad, negb (x.1 =? src_)) (h ls) = forallb (λ x : SrcAndLoad, negb (x.1 =? src_)) ls).
  { intros ls. induction ls as [|a ls IH]; [done|]. cbn. by rewrite <-IH. }
  rewrite Hd, Hf. unfold SrcAndLoad in *. rewrite Hc. cbn [check]. rewrite bind_Ok_l. unfold scaled. cbn [base demands_]. do 2 f_equal. rewrite fmap_insert. f_equal.
  unfold h. by rewrite fmap_app.
Qed.

Lemma scaled_add_demands rnd s inc caps g p0 ds p :
  construct caps g = Ok p0 -> add_demands ds p0 = Ok p -> add_demands (scale_demands rnd s inc ds) p0 = Ok (scaled rnd p s inc).
Proof.
  intros H0 H. assert (Hp0 : scaled rnd p0 s inc = p0).
  { unfold construct in H0. apply bind_Ok in H0 as (b & _ & [= <-]). unfold scaled. cbn. by rewrite fmap_empty. }
  rewrite <-Hp0. clear Hp0 H0. unfold add_demands in *. revert p0 H. induction ds as [|[[a b] v] ds IH]; intros p0 H; cbn in *.
  { by simplify_eq. }
  apply bind_Ok in H as (p1 & H1 & H). rewrite (scaled_AddDemand _ _ _ _ _ _ _ _ H1). cbn. by apply IH.
Qed.

Definition routable (caps : gmap nat Q) (g : GraphStorage.t) (ds : list demand) : Prop := exists f, routes caps g true ds f.

(** Smaller demands are routable when larger ones are. *)
Lemma routable_le caps g (ds ds' : list demand) :
  Forall2 (λ d d' : demand, d.1 = d'.1 /\ (d.2 <= d'.2)%Q) ds ds' -> routable caps g ds' -> routable caps g ds.
Proof.
  intros Hle [f [Hnn Hc Hs Hk Ht]]. exists f.
  assert (Hpairs : ds.*1 = ds'.*1) by (clear -Hle; induction Hle as [|[? ?] [? ?] ? ? [? ?]]; simplify_eq/=; congruence).
  assert (Hin : forall s d v, (s, d, v) ∈ ds -> exists v', (s, d, v') ∈ ds' /\ (v <= v')%Q).
  { intros s d v Hin. apply list_elem_of_lookup in Hin as [i Hi]. destruct (Forall2_lookup_l _ _ _ _ _ Hle Hi) as ([[s' d'] v'] & Hi' & [= <- <-] & Hv).
    exists v'. split; [by eapply list_elem_of_lookup_2|done]. }
  assert (Hin' : forall s d v', (s, d, v') ∈ ds' -> exists v, (s, d, v) ∈ ds).
  { intros s d v' Hin'. assert (Hsd : (s, d) ∈ ds.*1) by (rewrite Hpairs; apply list_elem_of_fmap; by exists (s, d, v')).
    apply list_elem_of_fmap in Hsd as ([[s1 d1] v1] & [= -> ->] & Hx). eauto. }
  split.
  - intros l d s v Hl Hd. destruct (Hin s d v Hd) as (v' & Hd' & _). by eapply Hnn.
  - intros _ l cap Hl. rewrite Hpairs. by apply Hc.
  - intros s d v Hd. destruct (Hin s d v Hd) as (v' & Hd' & Hv). specialize (Hs s d v' Hd'). lra.
  - intros s d v Hd Hno. destruct (Hin s d v Hd) as (v' & Hd' & _). eapply Hk; [done|]. intros w Hw.
    destruct (Hin' d d w Hw) as [v1 Hv1]. by apply (Hno v1).
  - intros s d v n Hd Hn Hno. destruct (Hin s d v Hd) as (v' & Hd' & _). eapply Ht; [done|done|]. intros w Hw.
    destruct (Hin' n d w Hw) as [v1 Hv1]. by apply (Hno v1).
Qed.

(** ** The search *)

Section search.
Context (rnd : Q -> Q) `{!Rounding rnd} (solve : Problem.t -> Solution.t).
Local Open Scope Q_scope.

#[local] Instance rnd_proper : Proper (Qeq ==> Qeq) rnd.
Proof using Rounding0. intros q q' Hq. apply Qle_antisym; apply rnd_mono; lra. Qed.

Definition pow2 (k : nat) : Z := (2 ^ Z.of_nat k)%Z.

Lemma pow2_S k : pow2 (S k) = (2 * pow2 k)%Z.
Proof using Type. unfold pow2. rewrite Nat2Z.inj_succ, Z.pow_succ_r by lia. done. Qed.
Lemma pow2_pos k : (0 < pow2 k)%Z.
Proof using Type. unfold pow2. lia. Qed.

(** A number on the grid of step 2^-k. *)
Definition on_grid (q : Q) (m : Z) (k : nat) : Prop := q * inject_Z (pow2 k) == inject_Z m.

Lemma on_grid_exact q m k : on_grid q m k -> (Z.abs m <= 2 ^ 53)%Z -> (k <= 60)%nat -> rnd q == q.
Proof using Rounding0.
  intros Hq Hm Hk. apply (rnd_exact q m k Hm Hk).
  assert (Hp : Z.pos (Pos.of_nat (2 ^ k)) = pow2 k).
  { rewrite <-positive_nat_Z, Nat2Pos.id by (apply Nat.pow_nonzero; lia). unfold pow2. by rewrite Nat2Z.inj_pow. }
  unfold on_grid, Qeq in *. cbn in *. rewrite Hp. pose proof (pow2_pos k). lia.
Qed.

Lemma on_grid_sub q q' m m' k : on_grid q m k -> on_grid q' m' k -> on_grid (q - q') (m - m') k.
Proof using Type. unfold on_grid. intros H1 H2. unfold Z.sub. rewrite inject_Z_plus, inject_Z_opp, <-H1, <-H2. ring. Qed.
Lemma on_grid_add q q' m m' k : on_grid q m k -> on_grid q' m' k -> on_grid (q + q') (m + m') k.
Proof using Type. unfold on_grid. intros H1 H2. rewrite inject_Z_plus, <-H1, <-H2. ring. Qed.
Lemma on_grid_half q m k : on_grid q m k -> on_grid (q / 2) m (S k).
Proof using Type. unfold on_grid. intros H1. rewrite pow2_S, inject_Z_mult, <-H1. field. Qed.
Lemma on_grid_finer q m k : on_grid q m k -> on_grid q (2 * m) (S k).
Proof using Type. unfold on_grid. intros H1. rewrite pow2_S, !inject_Z_mult, <-H1. ring. Qed.
Lemma on_grid_eq q q' m k : q == q' -> on_grid q m k -> on_grid q' m k.
Proof using Type. unfold on_grid. intros <-. done. Qed.

Lemma on_grid_le q q' m m' k : on_grid q m k -> on_grid q' m' k -> (m <= m')%Z -> q <= q'.
Proof using Type.
  unfold on_grid. intros H1 H2 Hm. assert (Hp : 0 < inject_Z (pow2 k)) by (unfold Qlt; cbn; pose proof (pow2_pos k); lia).
  apply (Qmult_le_r _ _ _ Hp). rewrite H1, H2. by rewrite <-Zle_Qle.
Qed.
Lemma on_grid_lt q q' m m' k : on_grid q m k -> on_grid q' m' k -> (m < m')%Z -> q < q'.
Proof using Type.
  unfold on_grid. intros H1 H2 Hm. assert (Hp : 0 < inject_Z (pow2 k)) by (unfold Qlt; cbn; pose proof (pow2_pos k); lia).
  apply (Qmult_lt_r _ _ _ Hp). rewrite H1, H2. by rewrite <-Zlt_Qlt.
Qed.

Lemma stop_at_30 q : on_grid q 999999 30 -> q <= kStopThreshold.
Proof using Type. unfold on_grid, kStopThreshold, pow2, Qle, Qeq. cbn. lia. Qed.

(** The interval halves until it is shorter than the threshold: thirty rounds
    from an interval of length 999999. *)
Lemma search_finds (test : Q -> t) (P : Q -> Prop) fuel k a min_bound max_bound est :
  (forall q, exists r, IsFeasible solve (test q) = Ok r /\ (r = true <-> P q)) ->
  (k <= 30)%nat -> (30 - k <= fuel)%nat -> (0 <= a)%Z -> (a + 999999 <= 2 ^ 20 * pow2 k)%Z ->
  on_grid min_bound a k -> on_grid max_bound (a + 999999) k ->
  exists est' lo hi, search rnd solve test fuel min_bound max_bound est = Ok est' /\
    min_bound <= lo /\ lo < max_bound /\ hi <= max_bound /\ hi - lo <= kStopThreshold /\
    (P lo /\ est' = lo \/ lo = min_bound /\ est' = est) /\ (~ P hi \/ hi = max_bound).
Proof using Rounding0.
  intros Htest. revert k a min_bound max_bound est. induction fuel as [|fuel IH]; intros k a lo0 hi0 est Hk Hfuel Ha Hmax Hlo Hhi.
  all: assert (Hlt : lo0 < hi0) by (eapply on_grid_lt; [exact Hlo|exact Hhi|lia]).
  all: assert (Hp20 : (pow2 k <= 2 ^ 30)%Z) by (unfold pow2; apply Z.pow_le_mono_r; lia).
  all: assert (Hdelta : on_grid (hi0 - lo0) 999999 k) by (replace 999999%Z with (a + 999999 - a)%Z by lia; by apply on_grid_sub).
  all: assert (Hrd : rnd (hi0 - lo0) == hi0 - lo0) by (by eapply on_grid_exact; [exact Hdelta|lia|lia]).
  all: cbn [search]; rewrite (proj2 (Qle_bool_iff lo0 hi0)) by lra; cbn [check]; rewrite bind_Ok_l.
  all: destruct (Qle_bool (rnd (hi0 - lo0)) kStopThreshold) eqn:Hstop;
    [apply Qle_bool_iff in Hstop; exists est, lo0, hi0; split; [done|]; repeat split; [lra|lra|lra|lra|by right|by right]|].
  all: assert (Hk' : (k < 30)%nat) by (destruct (decide (k = 30%nat)) as [->|]; [|lia]; exfalso; pose proof (stop_at_30 _ Hdelta) as Hs;
    rewrite <-Hrd in Hs; apply Qle_bool_iff in Hs; congruence).
  - lia.
  - set (half := rnd (rnd (hi0 - lo0) / 2)). assert (Hhalf : on_grid half 999999 (S k)).
    { assert (Hh : on_grid (rnd (hi0 - lo0) / 2) 999999 (S k)) by (apply on_grid_half; eapply on_grid_eq; [symmetry; exact Hrd|done]).
      eapply on_grid_eq; [symmetry; eapply on_grid_exact; [exact Hh|lia|lia]|exact Hh]. }
    set (guess := rnd (lo0 + half)). assert (Hguess : on_grid guess (2 * a + 999999) (S k)).
    { assert (Hg : on_grid (lo0 + half) (2 * a + 999999) (S k)) by (apply on_grid_add; [by apply on_grid_finer|done]).
      eapply on_grid_eq; [symmetry; eapply on_grid_exact; [exact Hg| |lia]|exact Hg]. lia. }
    assert (Hlo' := on_grid_finer _ _ _ Hlo). assert (Hhi' := on_grid_finer _ _ _ Hhi).
    assert (lo0 < guess) by (eapply on_grid_lt; [exact Hlo'|exact Hguess|lia]).
    assert (guess < hi0) by (eapply on_grid_lt; [exact Hguess|exact Hhi'|lia]).
    destruct (Htest guess) as (r & -> & Hr). rewrite bind_Ok_l. destruct r.
    + destruct (IH (S k) (2 * a + 999999)%Z guess hi0 guess) as (e & lo & hi & -> & H1 & H2 & H3 & H4 & H5 & H6);
        [lia|lia|lia|rewrite pow2_S; lia|done|eapply on_grid_eq; [reflexivity|by replace (2 * a + 999999 + 999999)%Z with (2 * (a + 999999))%Z by lia]|].
      exists e, lo, hi. split; [done|]. split_and!; [lra|lra|lra|lra| |done]. left. destruct H5 as [?|[-> ->]]; [done|]. split; [by apply Hr|done].
    + destruct (IH (S k) (2 * a)%Z lo0 guess est) as (e & lo & hi & -> & H1 & H2 & H3 & H4 & H5 & H6);
        [lia|lia|lia|rewrite pow2_S; lia|done|done|].
      exists e, lo, hi. split; [done|]. split_and!; [lra|lra|lra|lra|done|]. left. destruct H6 as [?| ->]; [done|]. intros Hp%Hr. done.
Qed.
End search.

(** ** The largest factor *)

Section scaling.
Context (rnd : Q -> Q) `{!Rounding rnd} (solve : Problem.t -> Solution.t).
Context (caps : gmap nat Q) (g : GraphStorage.t) (p0 p : t) (ds : list demand).
Hypothesis Hp0 : construct caps g = Ok p0.
Hypothesis Hp : add_demands ds p0 = Ok p.
(** Every source has a link. *)
Hypothesis Hlinked : forall s d v, (s, d, v) ∈ ds -> exists l, is_Some (caps !! l) /\ (src_of g l = Some s \/ dst_of g l = Some s).
(** The optimizer solves the programs of the scaled problems. *)
Hypothesis Hsolve : solves_start solve p MAXIMIZE true /\ forall s inc, solves_start solve (scaled rnd p s inc) MAXIMIZE true.
Local Open Scope Q_scope.

#[local] Existing Instance rnd_proper.

Lemma scaled_feasible s inc :
  exists r, IsFeasible solve (scaled rnd p s inc) = Ok r /\ (r = true <-> routable caps g (scale_demands rnd s inc ds)).
Proof using Hp0 Hp Hlinked Hsolve.
  eapply IsFeasible_decides; [exact Hp0|by eapply scaled_add_demands| |apply Hsolve].
  intros a b v Hin _. apply list_elem_of_fmap in Hin as ([[a' b'] v'] & [= -> ->] & Hin). by eapply Hlinked.
Qed.

Lemma plain_feasible : exists r, IsFeasible solve p = Ok r /\ (r = true <-> routable caps g ds).
Proof using Hp0 Hp Hlinked Hsolve. eapply IsFeasible_decides; [exact Hp0|exact Hp| |apply Hsolve]. intros a b v Hin _. by eapply Hlinked. Qed.

(** Loads are doubles. *)
Definition loads_ok : Prop := forall s d v, (s, d, v) ∈ ds -> 0 <= v /\ rnd v == v.

Lemma scale_load_one v : rnd v == v -> scale_load rnd 1 0 v == v.
Proof using Rounding0.
  intros Hv. unfold scale_load. assert (H1 : rnd (v * 1) == v) by (transitivity (rnd v); [apply (rnd_proper rnd); lra|done]).
  transitivity (rnd v); [apply (rnd_proper rnd); lra|done].
Qed.

Lemma routable_scale_one : loads_ok -> routable caps g ds -> routable caps g (scale_demands rnd 1 0 ds).
Proof using Rounding0.
  intros Hok. apply routable_le. unfold scale_demands. apply Forall2_fmap_l, Forall_Forall2_diag, Forall_forall.
  intros [[s d] v] Hin. cbn. split; [done|]. destruct (Hok s d v Hin) as [_ Hv]. rewrite (scale_load_one v Hv). lra.
Qed.

Lemma routable_scale_le s s' : loads_ok -> s <= s' -> routable caps g (scale_demands rnd s' 0 ds) -> routable caps g (scale_demands rnd s 0 ds).
Proof using Rounding0.
  intros Hok Hs. apply routable_le. unfold scale_demands. apply Forall2_fmap, Forall_Forall2_diag, Forall_forall.
  intros [[a b] v] Hin. cbn. split; [done|]. destruct (Hok a b v Hin) as [Hv _]. unfold scale_load.
  apply rnd_mono. assert (rnd (v * s) <= rnd (v * s')) by (apply rnd_mono; nra). lra.
Qed.

Lemma all_zero_spec : all_zero p = true <-> forall s d v, (s, d, v) ∈ ds -> v == 0.
Proof using Hp0 Hp.
  destruct (add_demands_holds caps g p0 ds p Hp0 Hp) as [_ Hh]. unfold all_zero. rewrite forallb_forall.
  assert (Hd : distinct_sources p).
  { clear -Hp0 Hp. unfold construct in Hp0. apply bind_Ok in Hp0 as (b & _ & [= <-]). unfold add_demands in Hp.
    assert (Hgen : forall q, distinct_sources q -> mfold (λ p (d : demand), AddDemand p d.1.1 d.1.2 d.2) ds q = Ok p -> distinct_sources p).
    { clear Hp. induction ds as [|d ds' IH]; intros q Hq H; cbn in H; [by simplify_eq|].
      apply bind_Ok in H as (q1 & H1 & H). apply (IH q1); [|done]. by eapply AddDemand_Ok. }
    eapply Hgen; [|exact Hp]. by intros d ls ?. }
  split.
  - intros Hall s d v Hin. pose proof Hin as Hs. apply (hd_source _ _ Hh) in Hs. unfold source in Hs.
    destruct (demands_ p !! d) as [ls|] eqn:Hls; [|done]. cbn in Hs. apply IsSource_Some in Hs; [|by eapply Hd].
    specialize (Hall (d, ls)). rewrite <-list_elem_of_In, elem_of_items in Hall. specialize (Hall Hls). cbn in Hall.
    rewrite forallb_forall in Hall. specialize (Hall (s, v)). rewrite <-list_elem_of_In in Hall. by apply Qeq_bool_iff, Hall.
  - intros Hz [d ls]. rewrite <-list_elem_of_In, elem_of_items. intros Hls. cbn. apply forallb_forall. intros [s v].
    rewrite <-list_elem_of_In. intros Hin. apply Qeq_bool_iff. apply (Hz s d v), (hd_source _ _ Hh). unfold source. rewrite Hls. cbn.
    apply IsSource_Some; [by eapply Hd|done].
Qed.
End scaling.

(** C27: [MaxDemandScaleFactor], for demands whose sources have links and an
    optimizer that solves its programs, returns after at most thirty rounds.
    The result is 0 when the demands cannot be routed as they are, even if a
    factor below one would make them fit, or when they are all zero.  Otherwise
    it is a factor from one to a million by which the demands can be scaled and
    routed, while no factor that is larger by the threshold of 0.001 or more
    can, unless the search has come within the threshold of a million. *)
Theorem MaxDemandScaleFactor_is_largest rnd `{!Rounding rnd} solve caps g p0 ds p :
  construct caps g = Ok p0 -> add_demands ds p0 = Ok p ->
  (forall s d v, (s, d, v) ∈ ds -> exists l, is_Some (caps !! l) /\ (src_of g l = Some s \/ dst_of g l = Some s)) ->
  solves_start solve p MAXIMIZE true /\ (forall s inc, solves_start solve (scaled rnd p s inc) MAXIMIZE true) ->
  loads_ok rnd ds ->
  exists r, MaxDemandScaleFactor rnd solve 30 p = Ok r /\
    (~ routable caps g ds \/ (forall s d v, (s, d, v) ∈ ds -> (v == 0)%Q) -> r = 0%Q) /\
    (routable caps g ds -> ~ (forall s d v, (s, d, v) ∈ ds -> (v == 0)%Q) ->
     (1 <= r < 1000000)%Q /\ routable caps g (scale_demands rnd r 0 ds) /\
     forall s, (r + kStopThreshold <= s)%Q -> (r + kStopThreshold < 1000000)%Q -> ~ routable caps g (scale_demands rnd s 0 ds)).
Proof.
  intros H0 H Hl Hs Hok. destruct (plain_feasible rnd solve caps g p0 p ds H0 H Hl Hs) as (r0 & Hr0 & Hr0').
  unfold MaxDemandScaleFactor. rewrite Hr0, bind_Ok_l. pose proof (all_zero_spec caps g p0 p ds H0 H) as Hz.
  destruct r0; cbn [negb]; [|exists 0%Q; split_and!; [done..|]; intros Hrt; by apply Hr0' in Hrt].
  destruct (all_zero p); [exists 0%Q; split_and!; [done..|]; intros _ Hnz; exfalso; by apply Hnz, Hz|].
  destruct (search_finds rnd solve (λ guess, scaled rnd p guess 0) (λ q, routable caps g (scale_demands rnd q 0 ds)) 30 0 1 1 kMaxScaleFactor kMaxScaleFactor)
    as (est & lo & hi & -> & H1 & H2 & H3 & H4 & H5 & H6); [intros q; by apply (scaled_feasible rnd solve caps g p0 p ds)|lia|lia|lia|vm_compute; discriminate|done|done|].
  rewrite bind_Ok_l. assert (Hrt : routable caps g ds) by (by apply Hr0').
  assert (Hlo : routable caps g (scale_demands rnd lo 0 ds)).
  { destruct H5 as [[? _]|[-> _]]; [done|]. by apply routable_scale_one. }
  assert (Hest : (if Qeq_bool est kMaxScaleFactor then 1%Q else est) = lo).
  { destruct H5 as [[_ ->]|[-> ->]]; [|done]. destruct (Qeq_bool lo kMaxScaleFactor) eqn:Heq; [|done].
    apply Qeq_bool_iff in Heq. lra. }
  exists lo. rewrite Hest. unfold kMaxScaleFactor in *. split_and!; [done| |].
  - intros [Hno|Hall]; [done|]. exfalso. assert (Hf : false = true) by (by apply Hz). done.
  - intros _ _. split_and!; [lra..|done|]. intros s Hs1 Hs2 Hrs. destruct H6 as [Hno| ->]; [|lra].
    apply Hno. eapply (routable_scale_le rnd caps g ds hi s); [done|lra|done].
Qed.

(** ** Examples over one link *)

(** Exact arithmetic is a rounding. *)
#[global] Instance Qred_rounding : Rounding Qred.
Proof. split; intros; [apply Qred_correct|by rewrite !Qred_correct]. Qed.

(** A problem with one link of capacity [cap] and a demand of [load] over it. *)
Definition link_problem (cap load : Q) : t :=
  mk (FlowProblem.mk one_link {[0 := cap]} {[0 := ([0], []); 1 := ([], [0])]}) {[1 := [(0, load)]]}.

(** An optimizer for its programs. *)
Definition link_solver (q : Problem.t) : Solution.t :=
  match Problem.rows q with
  | Some (_, Fin cap) :: _ :: Some (Fin load, _) :: _ =>
      let v := if Qle_bool load 0 then 0%Q else load in
      if Qle_bool v cap then one_solution v q else Solution.init
  | _ => Solution.init
  end.

Lemma link_start cap load :
  exists b m, start (link_problem cap load) MAXIMIZE true = Ok (b, m) /\
    one_rows cap load (finish b) /\ Problem.objective (finish b) = [0%Q] /\ Problem.direction (finish b) = MAXIMIZE.
Proof.
  eexists _, _. split; [vm_compute; reflexivity|]. by repeat split.
Qed.

Lemma link_solves cap load : solves_start link_solver (link_problem cap load) MAXIMIZE true.
Proof.
  destruct (link_start cap load) as (b0 & m0 & Hs & Hrows & Hobj & Hdir). intros b m Hb. rewrite Hs in Hb. injection Hb as <- <-.
  unfold link_solver. pose proof Hrows as (_ & -> & _).
  assert (Hv : forall v, v = (if Qle_bool load 0 then 0%Q else load) -> (0 <= v)%Q /\ (load <= v)%Q /\ ((v == 0)%Q \/ (v == load)%Q)).
  { intros v ->. destruct (Qle_bool load 0) eqn:Hl.
    - apply Qle_bool_iff in Hl. split_and!; [lra|lra|by left].
    - assert (~ load <= 0)%Q by (rewrite <-Qle_bool_iff, Hl; done). split_and!; [lra|lra|by right]. }
  destruct (Hv _ eq_refl) as (Hv0 & Hvl & Hvc). set (v := if Qle_bool load 0 then 0%Q else load) in *. cbn zeta.
  destruct (Qle_bool v cap) eqn:Hc.
  - apply Qle_bool_iff in Hc. apply (one_solves cap load v _ 0); [done..|lra|lra|lra|done].
  - left. intros y Hy. apply (one_feasible cap load) in Hy as [Hy0 Hy]; [|done].
    assert (~ v <= cap)%Q by (rewrite <-Qle_bool_iff, Hc; done). lra.
Qed.

Lemma link_construct cap load : construct {[0 := cap]} one_link ≫= add_demands [(0, 1, load)] = Ok (link_problem cap load).
Proof. vm_compute. reflexivity. Qed.

Lemma link_scaled cap load s inc : scaled Qred (link_problem cap load) s inc = link_problem cap (scale_load Qred s inc load).
Proof. unfold scaled, link_problem. cbn [base demands_]. by rewrite map_fmap_singleton. Qed.

Lemma MaxDemandScaleFactor_is_largest_witness :
  exists r, MaxDemandScaleFactor Qred link_solver 30 (link_problem 5 3) = Ok r /\
    (~ routable {[0 := 5%Q]} one_link one_demand \/ (forall s d v, (s, d, v) ∈ one_demand -> (v == 0)%Q) -> r = 0%Q) /\
    (routable {[0 := 5%Q]} one_link one_demand -> ~ (forall s d v, (s, d, v) ∈ one_demand -> (v == 0)%Q) ->
     (1 <= r < 1000000)%Q /\ routable {[0 := 5%Q]} one_link (scale_demands Qred r 0 one_demand) /\
     forall s, (r + kStopThreshold <= s)%Q -> (r + kStopThreshold < 1000000)%Q ->
       ~ routable {[0 := 5%Q]} one_link (scale_demands Qred s 0 one_demand)).
Proof.
  eapply (MaxDemandScaleFactor_is_largest Qred link_solver {[0 := 5%Q]} one_link _ one_demand (link_problem 5 3)).
  - vm_compute. reflexivity.
  - vm_compute. reflexivity.
  - intros s d v Hin. apply list_elem_of_singleton in Hin as [= -> -> ->]. exists 0. split; [by eexists|by left].
  - split; [apply link_solves|]. intros s inc. rewrite link_scaled. apply link_solves.
  - intros s d v Hin. apply list_elem_of_singleton in Hin as [= -> -> ->]. split; [lra|reflexivity].
Defined.

(** The factor that is found for a demand of 3 over a capacity of 5. *)
Example scale_factor_example : MaxDemandScaleFactor Qred link_solver 30 (link_problem 5 3) = Ok (1788741109 # 1073741824).
Proof. vm_compute. reflexivity. Qed.

(** *** What [MaxDemandIncrement] gets wrong *)

(** Capacities below one stop the program. *)
Theorem MaxDemandIncrement_dies : MaxDemandIncrement Qred link_solver 60 (link_problem (1 # 2) (1 # 4)) = Fail CheckFailed.
Proof. vm_compute. reflexivity. Qed.

(** When no increment of at least one is feasible, the largest capacity is
    returned, which is not feasible either. *)
Theorem MaxDemandIncrement_overestimates :
  MaxDemandIncrement Qred link_solver 60 (link_problem 5 (9 # 2)) = Ok 5%Q /\
  IsFeasible link_solver (scaled Qred (link_problem 5 (9 # 2)) 1 5) = Ok false.
Proof. split; vm_compute; reflexivity. Qed.

(** Between neighbouring doubles from 2^44 on the guess is one of the bounds
    and the interval stays longer than the threshold: the search does not end. *)
Theorem search_stuck :
  let min_bound := Double.of_Z (2 ^ 44) in
  let max_bound := Double.add min_bound (Double.div (Double.of_Z 1) (Double.of_Z 256)) in
  let delta := Double.sub max_bound min_bound in
  Double.add min_bound (Double.div delta (Double.of_Z 2)) = min_bound /\
  Double.ltb (Double.div (Double.of_Z 1) (Double.of_Z 1000)) delta = true.
Proof. split; vm_compute; reflexivity. Qed.
