(* ===== verification/FlowPaths.v ===== *)
(** Model of the recovery of paths from the solution of a flow problem
    ([src/src/lp/mc_flow.cc]): [RecoverPathsRecursive] walks over links that
    carry flow and takes from them, and the classes of problems call it for
    each of their commodities. *)

From Stdlib Require Import Qabs.
From S2P Require Import Prelude OrderedMap PerfectHash Graph Rational LinearProgram FlowProblem FlowOptima DemandScaling.

Record FlowAndPath := mkFlowAndPath { flow : Q; path : Walk.t }.

(** [std::numeric_limits<double>::max()]. *)
Definition double_max : Q := inject_Z (2 ^ 1024 - 2 ^ 971).

Module Recover.

(** What the recursive calls share. *)
Record state := mk {
  flow_over_links : gmap nat Q;
  links_so_far : list nat;
  nodes_so_far_set : gset nat;
  out : list FlowAndPath
}.

Section ops.
Context (rnd : Q -> Q) (adj : FlowProblem.AdjacencyMap) (g : GraphStorage.t) (sink : nat) (demand : Q).

(** [remaining -= overall_flow] for the links of the path. *)
Definition take_flow (overall_flow : Q) (m : gmap nat Q) (links : list nat) : outcome (gmap nat Q) :=
  mfold (λ m link, remaining ← value_or_die m link; Ok (<[link := rnd (remaining - overall_flow)]> m)) links m.

(** At the sink the path is complete. *)
Definition at_sink (overall_flow : Q) (st : state) : outcome (Q * state) :=
  _ ← check (negb (Qeq_bool overall_flow double_max));
  _ ← (if Qle_bool demand 0 then Ok tt else check (Qle_bool overall_flow demand));
  m ← take_flow overall_flow (flow_over_links st) (links_so_far st);
  new_path ← Walk.of_links (links_so_far st) g;
  Ok (0%Q, mk m (links_so_far st) (nodes_so_far_set st) (out st ++ [mkFlowAndPath overall_flow new_path])).

(** One round of the loop over the links out of a node. *)
Definition visit_edge (recurse : nat -> Q -> state -> outcome (Q * state)) (acc : Q * state) (edge_out : nat) : outcome (Q * state) :=
  let '(overall_flow, st) := acc in
  match flow_over_links st !! edge_out with
  | None => Ok acc
  | Some remaining =>
      edge ← GraphStorage.GetLink g edge_out;
      let to_take := if Qle_bool remaining overall_flow then remaining else overall_flow in
      if Qle_bool to_take 0 then Ok acc
      else
        let links := links_so_far st ++ [edge_out] in
        let neighbor := dst edge in
        if decide (neighbor ∈ nodes_so_far_set st) then Ok (overall_flow, mk (flow_over_links st) links (nodes_so_far_set st) (out st))
        else
          '(remainder, st') ← recurse neighbor to_take (mk (flow_over_links st) links (nodes_so_far_set st ∪ {[neighbor]}) (out st));
          Ok (rnd (overall_flow - rnd (to_take - remainder)),
              mk (flow_over_links st') (removelast (links_so_far st')) (nodes_so_far_set st' ∖ {[neighbor]}) (out st'))
  end.

Fixpoint RecoverPathsRecursive (fuel : nat) (at_node : nat) (overall_flow : Q) (st : state) : outcome (Q * state) :=
  if at_node =? sink then at_sink overall_flow st
  else
    match fuel with
    | O => Fail OutOfFuel
    | S fuel' =>
        adj_lists ← value_or_die adj at_node;
        mfold (visit_edge (RecoverPathsRecursive fuel')) adj_lists.1 (overall_flow, st)
    end.
End ops.
End Recover.

(** ** The steps that the classes of problems share *)

(** The flow of one commodity over the links. *)
Definition link_flows `{Countable K} (m : VarMap K) (solution : Solution.t) (k : K) : outcome (gmap nat Q) :=
  mfold (λ link_to_flow (link_and_variables : nat * gmap K nat),
      var ← value_or_die link_and_variables.2 k;
      flow ← Solution.VariableValue solution var;
      Ok (if Qle_bool flow 0 then link_to_flow else <[link_and_variables.1 := flow]> link_to_flow)) (items m) ∅.

(** [std::abs(total_flow - starting_flow) / total_flow < 0.01]; a quotient by
    zero is not less than anything. *)
Definition close_to (rnd : Q -> Q) (total_flow starting_flow : Q) : bool :=
  if Qeq_bool total_flow 0 then false
  else negb (Qle_bool (5764607523034235 # 576460752303423488) (rnd (Qabs (rnd (total_flow - starting_flow)%Q) / total_flow)%Q)).

Definition total_of (rnd : Q -> Q) (paths : list FlowAndPath) : Q := fold_left (λ total path, rnd (total + flow path)%Q) paths 0%Q.

(** A delay in milliseconds as a double. *)
Definition link_cost (rnd : Q -> Q) (link : GraphLink) : Q := rnd (inject_Z (delay (Graph.base link)) / 1000)%Q.

(** ** SingleCommoditySingleSinkFlowProblem *)
Module SingleCommoditySingleSinkFlowProblem.
Import FlowProblem.

Record t := mk { base : FlowProblem.t; sink_ : nat; demands_ : gmap nat Q }.

Definition construct (link_capacities : gmap nat Q) (sink : nat) (g : GraphStorage.t) : outcome t :=
  b ← FlowProblem.construct link_capacities g; Ok (mk b sink ∅).

Definition AddDemand (p : t) (source : nat) (demand : Q) : outcome t :=
  _ ← check (bool_decide (demands_ p !! source = None));
  Ok (mk (base p) (sink_ p) (<[source := demand]> (demands_ p))).

Definition AddDemand_named (p : t) (source : string) (demand : Q) : outcome t :=
  s ← GraphStorage.NodeFromStringOrDie (graph_ (base p)) source; AddDemand p s demand.

Definition sources (p : t) : list nat := (items (demands_ p)).*1.
(** The commodity of a source has its demand at the source only. *)
Definition source (p : t) (src_index node : nat) : option Q := if node =? src_index then demands_ p !! src_index else None.

Definition link_variables (p : t) (b : building) : outcome (building * VarMap nat) :=
  GetLinkToVariableMap (items (link_capacities_ (base p))) (sources p) true b.

Definition AddFlowConservationConstraints (p : t) (link_to_variables : VarMap nat) (b : building) : outcome building :=
  mfold (conserve (adjacency_map_ (base p)) link_to_variables (source p) (λ _, sink_ p)) (sources p) b.

Definition set_costs (rnd : Q -> Q) (p : t) (m : VarMap nat) (q : Problem.t) : outcome Problem.t :=
  mfold (λ q (link_and_sources : nat * gmap nat nat),
      link ← GraphStorage.GetLink (graph_ (base p)) link_and_sources.1;
      mfold (λ q (source_and_var : nat * nat), Problem.SetObjectiveCoefficient q source_and_var.2 (link_cost rnd link))
        (items link_and_sources.2) q) (items m) q.

(** The paths of one source. *)
Definition paths_of (rnd : Q -> Q) (fuel : nat) (p : t) (m : VarMap nat) (solution : Solution.t) (src_index : nat) (demand : Q)
  : outcome (list FlowAndPath) :=
  link_to_flow ← link_flows m solution src_index;
  let commodity_has_volume := negb (Qle_bool demand 0) in
  let starting_flow := if commodity_has_volume then demand else double_max in
  '(_, st) ← Recover.RecoverPathsRecursive rnd (adjacency_map_ (base p)) (graph_ (base p)) (sink_ p) demand fuel src_index starting_flow
               (Recover.mk link_to_flow [] ∅ []);
  if commodity_has_volume then
    _ ← check (close_to rnd (total_of rnd (Recover.out st)) starting_flow); Ok (Recover.out st)
  else Ok (Recover.out st).

Definition RecoverPaths (rnd : Q -> Q) (fuel : nat) (p : t) (m : VarMap nat) (solution : Solution.t) : outcome (gmap nat (list FlowAndPath)) :=
  mfold (λ result (src_index_and_demand : nat * Q),
      paths ← paths_of rnd fuel p m solution src_index_and_demand.1 src_index_and_demand.2;
      Ok (<[src_index_and_demand.1 := paths]> result)) (items (demands_ p)) ∅.

(** The program of [GetShortestPaths] and its variables. *)
Definition program (rnd : Q -> Q) (p : t) : outcome (Problem.t * VarMap nat) :=
  '(b, m) ← link_variables p (mkBuilding (Problem.init MINIMIZE) []);
  b ← AddFlowConservationConstraints p m b;
  q ← set_costs rnd p m (problem b);
  Ok (Problem.SetMatrix q (problem_matrix b), m).

Definition GetShortestPaths (rnd : Q -> Q) (solve : Problem.t -> Solution.t) (fuel : nat) (p : t) : outcome (gmap nat (list FlowAndPath)) :=
  '(q, m) ← program rnd p;
  let solution := solve q in
  if Solution.found solution then RecoverPaths rnd fuel p m solution else Ok ∅.
End SingleCommoditySingleSinkFlowProblem.

(** ** Decomposition of a flow into paths *)

Section decomposition.
Context (rnd : Q -> Q) `{!Rounding rnd} (k : nat) (Hk : k <= 60).
Context (g : GraphStorage.t) (links : list nat) (adj : FlowProblem.AdjacencyMap).
Hypothesis Hnd : NoDup links.
Hypothesis Hadj : adjacency_ok g links adj.
Hypothesis Hexist : Forall (λ l, is_Some (PerfectHashStore.items_ (GraphStorage.link_store_ g) !! l)) links.
Context (source sink : nat) (demand : Q).
Hypothesis Hdemand : (0 < demand)%Q.

#[local] Existing Instance rnd_proper.

(** An amount that is not negative and a multiple of 2^-k that a double holds. *)
Definition whole (q : Q) : Prop := exists m, on_grid q m k /\ (0 <= m <= 2 ^ 53)%Z.

Lemma whole_nonneg q : whole q -> (0 <= q)%Q.
Proof using Type.
  intros (m & Hq & Hm). clear Hk. eapply (on_grid_le 0 q 0 m k); [|exact Hq|lia]. unfold on_grid. ring.
Qed.
Lemma whole_sub q q' : whole q -> whole q' -> (q' <= q)%Q -> whole (q - q') /\ (rnd (q - q') == q - q')%Q.
Proof using All.
  intros (m & Hq & Hm) (m' & Hq' & Hm') Hle. assert (Hmm : (m' <= m)%Z).
  { apply Z.nlt_ge. intros Hlt. pose proof (on_grid_lt _ _ _ _ _ Hq Hq' Hlt). lra. }
  pose proof (on_grid_sub _ _ _ _ _ Hq Hq') as Hs. split.
  - exists (m - m')%Z. split; [done|lia].
  - apply (on_grid_exact rnd _ (m - m') k); [exact Hs|lia|done].
Qed.
Lemma whole_eq q q' : (q == q')%Q -> whole q -> whole q'.
Proof using All. intros Hq (m & Hm & Hb). exists m. split; [by eapply on_grid_eq|done]. Qed.

(** The amount left on a link. *)
Definition left (m : gmap nat Q) (l : nat) : Q := default 0%Q (m !! l).

(** A link counts for the node it leaves and against the node it enters. *)
Definition sign (n l : nat) : Q :=
  ((if decide (src_of g l = Some n) then 1 else 0) - (if decide (dst_of g l = Some n) then 1 else 0))%Q.
Definition net (m : gmap nat Q) (n : nat) : Q := sum_of (λ l, (sign n l * left m l)%Q) links.

(** A walk over links from a node to another. *)
Fixpoint is_walk (a : nat) (ls : list nat) (b : nat) : Prop :=
  match ls with
  | [] => a = b
  | l :: ls' => l ∈ links /\ src_of g l = Some a /\ exists c, dst_of g l = Some c /\ is_walk c ls' b
  end.

Lemma is_walk_app a ls1 ls2 c : is_walk a (ls1 ++ ls2) c <-> exists b, is_walk a ls1 b /\ is_walk b ls2 c.
Proof using All.
  revert a. induction ls1 as [|l ls1 IH]; intros a; cbn; [naive_solver|]. setoid_rewrite IH. naive_solver.
Qed.

Lemma is_walk_links a ls b : is_walk a ls b -> ls ⊆ links.
Proof using Type. clear. revert a. induction ls as [|l ls IH]; intros a; cbn; [set_solver|]. intros (Hl & _ & c & _ & Hw). specialize (IH c Hw). set_solver. Qed.

(** The links of a walk count at its ends only. *)
Lemma walk_sign a ls b n :
  is_walk a ls b -> (sum_of (sign n) ls == (if decide (a = n) then 1 else 0) - (if decide (b = n) then 1 else 0))%Q.
Proof using All.
  revert a. induction ls as [|l ls IH]; intros a; cbn [is_walk].
  - intros ->. rewrite sum_of_nil. lra.
  - intros (_ & Hs & c & Hd & Hw). rewrite sum_of_cons, (IH c Hw). unfold sign. rewrite Hs, Hd.
    destruct (decide (a = n)), (decide (Some a = Some n)), (decide (c = n)), (decide (Some c = Some n)); try congruence; lra.
Qed.

(** Taking an amount from the links of a path. *)
Definition taken (m m' : gmap nat Q) (ls : list nat) (q : Q) : Prop :=
  dom m' = dom m /\ forall l, (left m' l == left m l - if decide (l ∈ ls) then q else 0)%Q.

Lemma net_taken m m' a ls b q n :
  taken m m' ls q -> is_walk a ls b -> NoDup ls ->
  (net m' n == net m n - q * ((if decide (a = n) then 1 else 0) - (if decide (b = n) then 1 else 0)))%Q.
Proof using All.
  intros [_ Ht] Hw Hls. rewrite <-(walk_sign a ls b n Hw). unfold net.
  assert (Hsum : (sum_of (sign n) ls == sum_of (λ l, sign n l * if decide (l ∈ ls) then 1 else 0) links)%Q).
  { rewrite (sum_of_sub (sign n) ls links Hls Hnd (is_walk_links _ _ _ Hw)). apply sum_of_ext. intros l _. case_decide; lra. }
  rewrite Hsum, <-sum_of_scale, <-sum_of_minus. apply sum_of_ext. intros l _. rewrite Ht. case_decide; lra.
Qed.

(** What is left is a flow from the source: it is conserved elsewhere. *)
Record flow_left (m : gmap nat Q) : Prop := {
  fw_whole : forall l q, m !! l = Some q -> l ∈ links /\ whole q;
  fw_conserved : forall n, n <> source -> n <> sink -> (net m n == 0)%Q
}.

Lemma left_whole m l : flow_left m -> whole (left m l).
Proof using All.
  intros Hm. unfold left. destruct (m !! l) as [q|] eqn:Hq; cbn; [by eapply fw_whole|]. exists 0%Z. split; [unfold on_grid; ring|lia].
Qed.

(** [take_flow] takes the amount from every link of the path. *)
Lemma take_flow_ok q m ls :
  flow_left m -> whole q -> NoDup ls -> (forall l, l ∈ ls -> (q <= left m l)%Q) -> (0 < q)%Q ->
  exists m', Recover.take_flow rnd q m ls = Ok m' /\ taken m m' ls q /\ (forall l q', m' !! l = Some q' -> l ∈ links /\ whole q').
Proof using All.
  intros Hm Hq. unfold Recover.take_flow. pose proof (fw_whole _ Hm) as Hw. clear Hm. revert m Hw.
  induction ls as [|l ls IH]; intros m Hw Hls Hle Hpos; cbn [mfold].
  { exists m. split_and!; [done| |done]. split; [done|]. intros l. rewrite decide_False by apply not_elem_of_nil. lra. }
  apply NoDup_cons in Hls as [Hl Hls]. assert (Hql : (q <= left m l)%Q) by (apply Hle; by left).
  destruct (m !! l) as [r|] eqn:Hr; [|unfold left in Hql; rewrite Hr in Hql; cbn in Hql; lra].
  assert (Hlr : left m l = r) by (unfold left; by rewrite Hr). rewrite Hlr in Hql.
  assert (Hvd : value_or_die m l = Ok r) by (unfold value_or_die; by rewrite Hr). rewrite Hvd, !bind_Ok_l. destruct (Hw l r Hr) as [Hlin Hrw]. destruct (whole_sub r q Hrw Hq Hql) as [Hsw Hse].
  assert (Hleft : forall l', left (<[l := rnd (r - q)]> m) l' = if decide (l = l') then rnd (r - q) else left m l').
  { intros l'. unfold left. case_decide; subst; [by rewrite lookup_insert_eq|by rewrite lookup_insert_ne]. }
  destruct (IH (<[l := rnd (r - q)]> m)) as (m' & Hm' & [Hdom Ht] & Hw'); [|exact Hls| |done|].
  - intros l' q' Hl'. destruct (decide (l = l')) as [<-|Hne]; [|rewrite lookup_insert_ne in Hl' by done; by eapply Hw].
    rewrite lookup_insert_eq in Hl'. injection Hl' as <-. split; [done|]. eapply whole_eq; [symmetry; exact Hse|done].
  - intros l' Hl'. rewrite Hleft, decide_False by (intros ->; done). apply Hle. by right.
  - exists m'. split_and!; [exact Hm'| |done]. split.
    + rewrite Hdom, dom_insert_L. apply elem_of_dom_2 in Hr. apply subseteq_union_1_L, singleton_subseteq_l, Hr.
    + intros l'. rewrite Ht, Hleft. destruct (decide (l = l')) as [<-|Hne].
      * rewrite (decide_False (P := l ∈ ls)), (decide_True (P := l ∈ l :: ls)), Hse, Hlr by (done || by left). lra.
      * destruct (decide (l' ∈ ls)); [rewrite decide_True by (by right)|rewrite decide_False by (rewrite elem_of_cons; naive_solver)]; lra.
Qed.

(** Flow goes downhill only: there are no cycles of links with flow. *)
Context (rank : nat -> nat).
Definition downhill (m : gmap nat Q) : Prop :=
  forall l, (0 < left m l)%Q -> exists a b, src_of g l = Some a /\ dst_of g l = Some b /\ rank b < rank a.

(** The amount that paths take from a link. *)
Definition load (l : nat) (ps : list FlowAndPath) : Q :=
  sum_of (λ p, if decide (l ∈ Walk.links_ (path p)) then flow p else 0%Q) ps.

(** [q] has been sent from the node [at_node], which the links [P] lead to, to
    the sink: new paths, and what is left after them. *)
Record delivers (at_node : nat) (P : list nat) (st st' : Recover.state) (q : Q) : Prop := {
  dl_links : Recover.links_so_far st' = P;
  dl_nodes : Recover.nodes_so_far_set st' = Recover.nodes_so_far_set st;
  dl_paths : exists ps, Recover.out st' = Recover.out st ++ ps /\ (q == sum_of flow ps)%Q /\
    (forall p, p ∈ ps -> (0 < flow p)%Q /\ whole (flow p) /\ exists ls, Walk.links_ (path p) = P ++ ls /\ is_walk at_node ls sink /\ NoDup (P ++ ls)) /\
    (forall l, (left (Recover.flow_over_links st') l == left (Recover.flow_over_links st) l - load l ps)%Q);
  dl_net : forall n, (net (Recover.flow_over_links st') n ==
    net (Recover.flow_over_links st) n - q * ((if decide (source = n) then 1 else 0) - (if decide (sink = n) then 1 else 0)))%Q;
  dl_whole : forall l q', Recover.flow_over_links st' !! l = Some q' -> l ∈ links /\ whole q'
}.

Lemma load_nonneg l ps : (forall p, p ∈ ps -> (0 < flow p)%Q) -> (0 <= load l ps)%Q.
Proof using Type. clear. intros H. apply sum_of_nonneg. intros p Hp. case_decide; [|lra]. specialize (H p Hp). lra. Qed.

Lemma delivers_le at_node P st st' q l :
  delivers at_node P st st' q -> (left (Recover.flow_over_links st') l <= left (Recover.flow_over_links st) l)%Q.
Proof using All. intros []. destruct dl_paths0 as (ps & _ & _ & Hp & Hl). rewrite Hl. pose proof (load_nonneg l ps (λ p Hin, proj1 (Hp p Hin))). lra. Qed.

(** The links that lead to the node carry all of it. *)
Lemma delivers_prefix at_node P st st' q l :
  delivers at_node P st st' q -> l ∈ P -> (left (Recover.flow_over_links st') l == left (Recover.flow_over_links st) l - q)%Q.
Proof using All.
  intros [] Hin. destruct dl_paths0 as (ps & _ & Hq & Hp & Hl). rewrite Hl, Hq. apply Qminus_comp; [done|]. apply sum_of_ext.
  intros p Hpin. destruct (Hp p Hpin) as (_ & _ & ls & -> & _). rewrite decide_True; [done|]. apply elem_of_app. by left.
Qed.

Lemma delivers_flow_left at_node P st st' q :
  delivers at_node P st st' q -> flow_left (Recover.flow_over_links st) -> flow_left (Recover.flow_over_links st').
Proof using All.
  intros [] [Hw Hc]. split; [done|]. intros n Hn1 Hn2. rewrite dl_net0, Hc, decide_False, decide_False by congruence. lra.
Qed.

Lemma delivers_downhill at_node P st st' q :
  delivers at_node P st st' q -> downhill (Recover.flow_over_links st) -> downhill (Recover.flow_over_links st').
Proof using All. intros Hd Hr l Hl. apply Hr. pose proof (delivers_le _ _ _ _ _ l Hd). lra. Qed.

Lemma delivers_refl at_node st :
  flow_left (Recover.flow_over_links st) -> delivers at_node (Recover.links_so_far st) st st 0.
Proof using All.
  intros [Hw _]. split; [done|done| | |done].
  - exists []. split_and!; [by rewrite app_nil_r|done|intros p Hp; by apply elem_of_nil in Hp|]. intros l. unfold load. rewrite sum_of_nil. lra.
  - intros n. lra.
Qed.

Lemma delivers_trans at_node P st st1 st2 q1 q2 q :
  delivers at_node P st st1 q1 -> delivers at_node P st1 st2 q2 -> (q == q1 + q2)%Q -> delivers at_node P st st2 q.
Proof using All.
  intros [] [] Hq. split; [done|congruence| | |done].
  - destruct dl_paths0 as (ps & Ho & Hs & Hp & Hl), dl_paths1 as (ps' & Ho' & Hs' & Hp' & Hl'). exists (ps ++ ps'). split_and!.
    + by rewrite Ho', Ho, app_assoc.
    + rewrite sum_of_app. lra.
    + intros p [?|?]%elem_of_app; auto.
    + intros l. rewrite Hl', Hl. unfold load. rewrite sum_of_app. lra.
  - intros n. rewrite dl_net1, dl_net0, Hq. lra.
Qed.

(** Walks downhill. *)
Lemma walk_downhill m a ls b :
  downhill m -> is_walk a ls b -> (forall l, l ∈ ls -> (0 < left m l)%Q) ->
  rank b <= rank a /\ (ls <> [] -> rank b < rank a) /\ forall l c, l ∈ ls -> src_of g l = Some c -> rank b < rank c.
Proof using All.
  intros Hd. revert a. induction ls as [|l ls IH]; intros a; cbn [is_walk].
  - intros -> _. split_and!; [done|done|]. intros l c Hl. by apply elem_of_nil in Hl.
  - intros (_ & Hs & c & Hdst & Hw) Hpos. destruct (Hd l) as (a' & c' & Hs' & Hd' & Hlt); [apply Hpos; by left|].
    destruct (IH c Hw) as (H1 & _ & H3); [intros l' Hl'; apply Hpos; by right|]. simplify_eq. split_and!; [lia|lia|].
    intros l' c0 [->|Hl']%elem_of_cons Hc0; [simplify_eq; lia|by eapply H3].
Qed.

(** When nothing is left on the links out of a node, its net flow is negative
    by what comes in. *)
Lemma net_exhausted m n l :
  flow_left m -> (forall e, e ∈ links_out g links n -> (left m e == 0)%Q) -> l ∈ links -> dst_of g l = Some n -> (net m n <= - left m l)%Q.
Proof using All.
  intros Hm Hout Hl Hd. unfold net.
  assert (Hval : forall e, e ∈ links -> (sign n e * left m e == - if decide (dst_of g e = Some n) then left m e else 0)%Q).
  { intros e He. unfold sign. destruct (decide (src_of g e = Some n)) as [Hs|Hs].
    - assert (Hz : (left m e == 0)%Q) by (apply Hout, list_elem_of_filter; done). case_decide; rewrite Hz; lra.
    - case_decide; lra. }
  rewrite (sum_of_ext _ (λ e, -1 * if decide (dst_of g e = Some n) then left m e else 0)%Q), sum_of_scale; [|intros e He; rewrite (Hval e He); lra].
  assert (Hle : (left m l <= sum_of (λ e, if decide (dst_of g e = Some n) then left m e else 0) links)%Q); [|lra].
  pose proof (sum_of_elem_le (λ e, if decide (dst_of g e = Some n) then left m e else 0)%Q links l) as He. cbn in He.
  rewrite decide_True in He by done. apply He; [|done]. intros b _. case_decide; [|lra]. by apply whole_nonneg, left_whole.
Qed.
Lemma net_exhausted_le m n :
  flow_left m -> (forall e, e ∈ links_out g links n -> (left m e == 0)%Q) -> (net m n <= 0)%Q.
Proof using All.
  intros Hm Hout. unfold net. apply (Qle_trans _ (sum_of (λ _ : nat, 0%Q) links)); [|rewrite sum_of_zero; [lra|done]]. apply sum_of_le. intros e He. unfold sign.
  pose proof (whole_nonneg _ (left_whole m e Hm)). destruct (decide (src_of g e = Some n)) as [Hs|Hs].
  - assert (Hz : (left m e == 0)%Q) by (apply Hout, list_elem_of_filter; done). rewrite Hz. lra.
  - case_decide; lra.
Qed.

(** The delays of the links of a path add up to a delay. *)
Hypothesis Hdelays : forall ls, NoDup ls -> ls ⊆ links -> is_Ok (TotalDelayOfLinks ls g).

Notation recover := (Recover.RecoverPathsRecursive rnd adj g sink demand).
Notation flows := Recover.flow_over_links.

(** A call for the amount [w] at a node that the links of the state lead to. *)
Record ready (at_node : nat) (w : Q) (st : Recover.state) : Prop := {
  rd_flow : flow_left (flows st);
  rd_down : downhill (flows st);
  rd_whole : whole w;
  rd_pos : (0 < w <= demand)%Q;
  rd_walk : is_walk source (Recover.links_so_far st) at_node;
  rd_nodup : NoDup (Recover.links_so_far st);
  rd_carry : forall l, l ∈ Recover.links_so_far st -> (w <= left (flows st) l)%Q;
  rd_nodes : forall n, n ∈ Recover.nodes_so_far_set st -> rank at_node <= rank n;
  rd_supply : Recover.links_so_far st = [] -> (w <= net (flows st) source)%Q
}.

Lemma whole_not_max q : whole q -> Qeq_bool q double_max = false.
Proof using All.
  intros (m & Hm & Hb). apply not_true_iff_false. rewrite Qeq_bool_iff. intros Heq.
  assert (Hle : (q <= inject_Z (2 ^ 53))%Q).
  { eapply (on_grid_le q _ m (2 ^ 53 * pow2 k) k); [exact Hm|unfold on_grid; by rewrite inject_Z_mult|]. pose proof (pow2_pos k). nia. }
  rewrite Heq in Hle. unfold double_max in Hle. rewrite <-Zle_Qle in Hle. apply Z.leb_le in Hle. vm_compute in Hle. done.
Qed.

(** At the sink. *)
Lemma at_sink_ok w st :
  ready sink w st -> source <> sink ->
  exists st', Recover.at_sink rnd g demand w st = Ok (0%Q, st') /\ delivers sink (Recover.links_so_far st) st st' w.
Proof using All.
  intros [Hf Hd Hw [Hpos Hle] Hwalk Hls Hcarry _ _] Hne. unfold Recover.at_sink. rewrite (whole_not_max w Hw). cbn [negb check]. rewrite bind_Ok_l.
  assert (Hc : (if Qle_bool demand 0 then Ok tt else check (Qle_bool w demand)) = Ok tt).
  { destruct (Qle_bool demand 0); [done|]. by rewrite (proj2 (Qle_bool_iff _ _) Hle). }
  rewrite Hc, bind_Ok_l. destruct (take_flow_ok w (flows st) (Recover.links_so_far st) Hf Hw Hls Hcarry Hpos) as (m' & -> & Ht & Hw').
  rewrite bind_Ok_l. destruct (Hdelays (Recover.links_so_far st) Hls (is_walk_links _ _ _ Hwalk)) as [d Hdel].
  unfold Walk.of_links. rewrite Hdel, !bind_Ok_l. eexists. split; [done|]. split; cbn; [done|done| | |done].
  - eexists. split; [done|]. split_and!.
    + rewrite sum_of_cons, sum_of_nil. cbn. lra.
    + intros p Hp. apply list_elem_of_singleton in Hp as ->. cbn. split_and!; [done..|]. exists []. rewrite app_nil_r. done.
    + intros l. destruct Ht as [_ Ht]. rewrite Ht. unfold load. rewrite sum_of_cons, sum_of_nil. cbn. case_decide; lra.
  - intros n. apply (net_taken _ _ source (Recover.links_so_far st) sink); done.
Qed.

(** The state of the loop over the links out of a node. *)
Record looping (at_node : nat) (w : Q) (st : Recover.state) (seen : list nat) (acc : Q * Recover.state) : Prop := {
  lp_sent : delivers at_node (Recover.links_so_far st) st acc.2 (w - acc.1);
  lp_whole : whole acc.1;
  lp_le : (acc.1 <= w)%Q;
  lp_seen : forall e, e ∈ seen -> (acc.1 == 0)%Q \/ (left (flows acc.2) e == 0)%Q
}.

(** What the recursive calls promise. *)
Definition recurses (f : nat -> Q -> Recover.state -> outcome (Q * Recover.state)) (at_node : nat) : Prop :=
  forall nb w st, rank nb < rank at_node -> ready nb w st ->
    exists r st', f nb w st = Ok (r, st') /\ (r == 0)%Q /\ delivers nb (Recover.links_so_far st) st st' w.

(** A path of a neighbour is a path of the node. *)
Lemma delivers_step at_node e nb st st' q fs :
  let st1 := Recover.mk (flows st) (Recover.links_so_far st ++ [e]) (Recover.nodes_so_far_set st ∪ {[nb]}) (Recover.out st) in
  nb ∉ Recover.nodes_so_far_set st -> e ∈ links -> src_of g e = Some at_node -> dst_of g e = Some nb ->
  delivers nb (Recover.links_so_far st ++ [e]) st1 st' q -> fs = flows st' ->
  delivers at_node (Recover.links_so_far st) st
    (Recover.mk fs (removelast (Recover.links_so_far st')) (Recover.nodes_so_far_set st' ∖ {[nb]}) (Recover.out st')) q.
Proof using All.
  intros st1 Hnb He Hs Hd [] ->. split; cbn in *; [| | |done|done].
  - rewrite dl_links0. apply removelast_last.
  - rewrite dl_nodes0. apply leibniz_equiv. intros n. rewrite elem_of_difference, elem_of_union, elem_of_singleton. naive_solver.
  - destruct dl_paths0 as (ps & Ho & Hq & Hp & Hl). exists ps. split_and!; [done..| |done]. intros p Hin.
    destruct (Hp p Hin) as (Hpos & Hpw & ls & Hls & Hw & Hnd'). split_and!; [done..|]. exists (e :: ls). rewrite <-app_assoc in Hls, Hnd'. cbn in Hls, Hnd'.
    split_and!; [done| |done]. cbn. eauto.
Qed.

Lemma visit_edge_ok f at_node w st seen e acc :
  ready at_node w st -> recurses f at_node -> e ∈ links_out g links at_node ->
  looping at_node w st seen acc -> exists acc', Recover.visit_edge rnd g f acc e = Ok acc' /\ looping at_node w st (seen ++ [e]) acc'.
Proof using All.
  intros Hready Hrec He Hloop. destruct acc as [o st1]. destruct Hloop as [Hsent Ho Hle Hseen]. cbn [fst snd] in *.
  destruct Hready as [Hf Hd Hw [Hpos Hdem] Hwalk Hls Hcarry Hnodes Hsupply]. apply list_elem_of_filter in He as [Hes He].
  assert (Hf1 : flow_left (flows st1)) by (by eapply delivers_flow_left).
  assert (Hd1 : downhill (flows st1)) by (by eapply delivers_downhill).
  assert (Hsame : (o == 0)%Q \/ (left (flows st1) e == 0)%Q -> looping at_node w st (seen ++ [e]) (o, st1)).
  { intros He0. split; cbn; [done..|]. intros e' [?| ->%list_elem_of_singleton]%elem_of_app; auto. }
  unfold Recover.visit_edge. destruct (flows st1 !! e) as [r|] eqn:Hr; [|exists (o, st1); split; [done|]; apply Hsame; right; unfold left; by rewrite Hr].
  assert (Hlr : left (flows st1) e = r) by (unfold left; by rewrite Hr). destruct (fw_whole _ Hf1 e r Hr) as [_ Hrw].
  destruct (proj1 (Forall_forall _ _) Hexist e He) as [edge Hedge]. unfold GraphStorage.GetLink.
  rewrite (proj2 (PerfectHashStore.GetItemOrDie_Ok _ _ _) Hedge), bind_Ok_l.
  set (t := if Qle_bool r o then r else o). pose proof (whole_nonneg _ Ho) as Ho0. pose proof (whole_nonneg _ Hrw) as Hr0.
  assert (Ht : whole t /\ (t <= r)%Q /\ (t <= o)%Q /\ ((t == r)%Q \/ (t == o)%Q)).
  { unfold t. destruct (Qle_bool r o) eqn:Hro; [apply Qle_bool_iff in Hro; split_and!; [done|lra|lra|by left]|].
    assert (~ r <= o)%Q by (rewrite <-Qle_bool_iff, Hro; done). split_and!; [done|lra|lra|by right]. }
  destruct Ht as (Htw & Htr & Hto & Htt). destruct (Qle_bool t 0) eqn:Ht0.
  { apply Qle_bool_iff in Ht0. exists (o, st1). split; [done|]. apply Hsame. rewrite Hlr. destruct Htt; [right|left]; lra. }
  assert (Htpos : (0 < t)%Q) by (apply Qnot_le_lt; rewrite <-Qle_bool_iff, Ht0; done).
  assert (Hdst : dst_of g e = Some (dst edge)) by (unfold dst_of; by rewrite Hedge).
  destruct (Hd1 e) as (a' & b' & Ha' & Hb' & Hrank); [rewrite Hlr; lra|]. rewrite Hes in Ha'. rewrite Hdst in Hb'. injection Ha' as <-. injection Hb' as <-.
  pose proof (dl_links _ _ _ _ _ Hsent) as Hlinks1. pose proof (dl_nodes _ _ _ _ _ Hsent) as Hnodes1.
  assert (Hnew : dst edge ∉ Recover.nodes_so_far_set st1).
  { rewrite Hnodes1. intros Hin%Hnodes. lia. }
  rewrite decide_False by done.
  assert (Hcarry1 : forall l, l ∈ Recover.links_so_far st -> (o <= left (flows st1) l)%Q).
  { intros l Hl. rewrite (delivers_prefix _ _ _ _ _ l Hsent Hl). specialize (Hcarry l Hl). lra. }
  destruct (walk_downhill (flows st) source (Recover.links_so_far st) at_node Hd Hwalk) as (Hrk & _ & Hrk3).
  { intros l Hl. specialize (Hcarry l Hl). lra. }
  destruct (Hrec (dst edge) t (Recover.mk (flows st1) (Recover.links_so_far st1 ++ [e]) (Recover.nodes_so_far_set st1 ∪ {[dst edge]}) (Recover.out st1)) Hrank)
    as (rem & st2 & -> & Hrem & Hdel).
  { split; cbn; [done|done|done|lra| | | | |by destruct (Recover.links_so_far st1)].
    - rewrite Hlinks1. apply is_walk_app. exists at_node. split; [done|]. cbn. eauto.
    - rewrite Hlinks1. apply NoDup_app. split_and!; [done| |apply NoDup_singleton]. intros l Hl ->%list_elem_of_singleton.
      specialize (Hrk3 e at_node Hl Hes). lia.
    - rewrite Hlinks1. intros l [Hl| ->%list_elem_of_singleton]%elem_of_app; [specialize (Hcarry1 l Hl); lra|rewrite Hlr; lra].
    - intros n [Hn| ->%elem_of_singleton]%elem_of_union; [|done]. rewrite Hnodes1 in Hn. apply Hnodes in Hn. lia. }
  rewrite bind_Ok_l. cbn [Recover.links_so_far] in Hdel.
  assert (Hstep : delivers at_node (Recover.links_so_far st1) st1
    (Recover.mk (flows st2) (removelast (Recover.links_so_far st2)) (Recover.nodes_so_far_set st2 ∖ {[dst edge]}) (Recover.out st2)) t)
    by (by eapply delivers_step).
  assert (Hrem0 : (rnd (t - rem) == t)%Q).
  { destruct (whole_sub t 0 Htw) as [_ H0]; [exists 0%Z; split; [unfold on_grid; ring|lia]|lra|]. transitivity (rnd (t - 0)); [|rewrite H0; lra].
    apply (rnd_proper rnd). lra. }
  destruct (whole_sub o t Ho Htw Hto) as [How Hoe].
  assert (Ho' : (rnd (o - rnd (t - rem)) == o - t)%Q) by (transitivity (rnd (o - t)); [apply (rnd_proper rnd); lra|done]).
  eexists. split; [done|]. split; cbn [fst snd].
  - rewrite Hlinks1 in Hstep. eapply delivers_trans; [exact Hsent|exact Hstep|]. lra.
  - eapply whole_eq; [symmetry; exact Ho'|done].
  - lra.
  - intros e' [Hin| ->%list_elem_of_singleton]%elem_of_app.
    + destruct (Hseen e' Hin) as [|Hz]; [lra|]. right. cbn. pose proof (delivers_le _ _ _ _ _ e' Hstep) as Hle'. cbn in Hle'.
      pose proof (whole_nonneg _ (left_whole (flows st2) e' (delivers_flow_left _ _ _ _ _ Hstep Hf1))). lra.
    + pose proof (delivers_prefix _ _ _ _ _ e Hdel) as Hpre. cbn in Hpre. rewrite Hlr in Hpre.
      assert (Hein : e ∈ Recover.links_so_far st1 ++ [e]) by (apply elem_of_app; right; by apply list_elem_of_singleton). specialize (Hpre Hein). cbn.
      destruct Htt; [right|left]; lra.
Qed.

(** At the end of the loop everything has been sent. *)
Lemma loop_done at_node w st acc :
  ready at_node w st -> at_node <> sink -> looping at_node w st (links_out g links at_node) acc -> (acc.1 == 0)%Q.
Proof using All.
  intros Hready Hne [Hsent Ho Hle Hseen]. destruct Hready as [Hf Hd Hw [Hpos _] Hwalk Hls Hcarry Hnodes Hsupply].
  pose proof (whole_nonneg _ Ho) as Ho0. apply Qle_antisym; [|done]. apply Qnot_lt_le. intros Hlt.
  assert (Hf1 : flow_left (flows acc.2)) by (by eapply delivers_flow_left).
  assert (Hout : forall e, e ∈ links_out g links at_node -> (left (flows acc.2) e == 0)%Q).
  { intros e He. destruct (Hseen e He); [lra|done]. }
  destruct (decide (Recover.links_so_far st = [])) as [Hnil|Hnnil].
  - assert (source = at_node) as <- by (by rewrite Hnil in Hwalk). specialize (Hsupply Hnil).
    pose proof (dl_net _ _ _ _ _ Hsent source) as Hnet. rewrite decide_True, decide_False in Hnet by congruence.
    pose proof (net_exhausted_le _ _ Hf1 Hout). lra.
  - destruct (exists_last Hnnil) as (P & l & HP). rewrite HP in Hwalk. pose proof Hwalk as Hwalk'. apply is_walk_app in Hwalk as (b & HwP & Hl & Hsrc & c & Hdst & Hc).
    cbn in Hc. subst c. assert (Hlin : l ∈ Recover.links_so_far st) by (rewrite HP; apply elem_of_app; right; by apply list_elem_of_singleton).
    pose proof (net_exhausted _ _ l Hf1 Hout Hl Hdst) as Hn. rewrite (delivers_prefix _ _ _ _ _ l Hsent Hlin) in Hn. pose proof (Hcarry l Hlin) as Hcl.
    assert (Hns : at_node <> source).
    { intros ->. destruct (walk_downhill (flows st) source (Recover.links_so_far st) source Hd) as (_ & Hlt' & _).
      - by rewrite HP.
      - intros l' Hl'. specialize (Hcarry l' Hl'). lra.
      - specialize (Hlt' Hnnil). lia. }
    rewrite (fw_conserved _ Hf1 at_node Hns Hne) in Hn. lra.
Qed.

(** Every call sends all it is asked for. *)
Lemma recover_ok fuel at_node w st :
  ready at_node w st -> source <> sink -> rank at_node < fuel ->
  exists r st', recover fuel at_node w st = Ok (r, st') /\ (r == 0)%Q /\ delivers at_node (Recover.links_so_far st) st st' w.
Proof using All.
  revert at_node w st. induction fuel as [|fuel IH]; intros at_node w st Hready Hne Hfuel; [lia|]. cbn [Recover.RecoverPathsRecursive].
  destruct (Nat.eqb_spec at_node sink) as [->|Hns].
  { destruct (at_sink_ok w st Hready Hne) as (st' & Hst' & Hdel). by exists 0%Q, st'. }
  assert (Hsome : is_Some (adj !! at_node)).
  { apply dec_stable. intros Hno. rewrite (ao_some _ _ _ Hadj) in Hno. destruct Hready as [Hf Hd Hw [Hpos _] Hwalk Hls Hcarry Hnodes Hsupply].
    destruct (decide (Recover.links_so_far st = [])) as [Hnil|Hnnil].
    - assert (source = at_node) as <- by (by rewrite Hnil in Hwalk). specialize (Hsupply Hnil).
      assert (Hz : (net (flows st) source == 0)%Q); [|lra]. apply sum_of_zero. intros l Hl. unfold sign.
      rewrite !decide_False by (intros ?; apply Hno; eauto). lra.
    - destruct (exists_last Hnnil) as (P & l & HP). rewrite HP in Hwalk. apply is_walk_app in Hwalk as (b & HwP & Hl & _ & c & Hdst & Hc).
      cbn in Hc. subst c. apply Hno. eauto. }
  destruct Hsome as [[eo ei] Ha]. unfold value_or_die. rewrite Ha, bind_Ok_l. cbn [fst].
  pose proof (ao_lists _ _ _ Hadj at_node) as Hl. unfold FlowProblem.adjacent in Hl. rewrite Ha in Hl. cbn in Hl. injection Hl as -> _.
  destruct (mfold_inv (looping at_node w st) (Recover.visit_edge rnd g (recover fuel)) (links_out g links at_node) (w, st)) as ([o st'] & -> & Hloop).
  - split; cbn [fst snd].
    + pose proof (delivers_refl at_node st (rd_flow _ _ _ Hready)) as Hr. eapply delivers_trans; [exact Hr|exact Hr|lra].
    + apply (rd_whole _ _ _ Hready).
    + lra.
    + intros e He. by apply elem_of_nil in He.
  - intros seen e acc Hpre Hloop. apply (visit_edge_ok _ _ _ _ _ _ _ Hready); [|destruct Hpre as [rest ->]; apply elem_of_app; left; apply elem_of_app; right; by apply list_elem_of_singleton|done].
    intros nb w' st1 Hlt Hr. apply IH; [done|done|lia].
  - pose proof (loop_done _ _ _ _ Hready Hns Hloop) as Hz. cbn in Hz. exists o, st'. split_and!; [done|done|].
    destruct Hloop as [Hsent _ _ _]. cbn in Hsent. eapply delivers_trans; [apply delivers_refl, (rd_flow _ _ _ Hready)|exact Hsent|]. lra.
Qed.
End decomposition.

(** ** Properties *)

(** A flow from [source] to [sink], as amounts on the links with capacities,
    that can be split into paths: the amounts are multiples of 2^-k that doubles
    hold, the flow is conserved at every other node, the source sends at least
    [demand] more than it receives, and the links with flow go down in [rank],
    so that there is no cycle among them. *)
Record splittable (k : nat) (caps : gmap nat Q) (g : GraphStorage.t) (source sink : nat) (demand : Q) (rank : nat -> nat)
    (fs : gmap nat Q) : Prop := {
  spl_amounts : forall l q, fs !! l = Some q -> is_Some (caps !! l) /\ whole k q;
  spl_conserved : forall n, n <> source -> n <> sink ->
    (sum_of (left fs) (links_out g (items caps).*1 n) == sum_of (left fs) (links_in g (items caps).*1 n))%Q;
  spl_supply : (demand <= sum_of (left fs) (links_out g (items caps).*1 source) - sum_of (left fs) (links_in g (items caps).*1 source))%Q;
  spl_acyclic : downhill g rank fs
}.

Lemma net_out_in g links fs n :
  (net g links fs n == sum_of (left fs) (links_out g links n) - sum_of (left fs) (links_in g links n))%Q.
Proof.
  unfold net, links_out, links_in. rewrite !sum_of_filter, <-sum_of_minus. apply sum_of_ext. intros l _.
  unfold sign. repeat case_decide; lra.
Qed.

(** C22: [RecoverPathsRecursive] splits a flow into paths.  The flow goes from a
    source to another node, the sink, has no cycles, and its amounts and the
    positive demand are multiples of a power of two that doubles hold; the
    delays of the links can be added up.  Started at the source with the
    demand, the function ends within a depth of the levels of the flow and
    returns paths that are walks from the source to the sink over links with
    capacities, none of which has a repeated link, and that together carry
    exactly the demand; what the paths take from a link and what is left on it
    add up to the flow over the link, so that no link carries more than its
    flow. *)
Theorem RecoverPathsRecursive_splits_flow rnd `{!Rounding rnd} k caps g fp source sink demand rank fs fuel :
  k <= 60 -> FlowProblem.construct caps g = Ok fp ->
  (forall ls, NoDup ls -> ls ⊆ (items caps).*1 -> is_Ok (TotalDelayOfLinks ls g)) ->
  source <> sink -> (0 < demand)%Q -> whole k demand -> splittable k caps g source sink demand rank fs -> rank source < fuel ->
  exists r st, Recover.RecoverPathsRecursive rnd (FlowProblem.adjacency_map_ fp) g sink demand fuel source demand (Recover.mk fs [] ∅ []) = Ok (r, st) /\
    (r == 0)%Q /\ (sum_of flow (Recover.out st) == demand)%Q /\
    (forall p, p ∈ Recover.out st -> (0 < flow p)%Q /\ is_walk g (items caps).*1 source (Walk.links_ (path p)) sink /\ NoDup (Walk.links_ (path p))) /\
    (forall l, (load l (Recover.out st) + left (Recover.flow_over_links st) l == left fs l)%Q /\ (0 <= left (Recover.flow_over_links st) l)%Q).
Proof.
  intros Hk Hfp Hdel Hne Hpos Hdw [Ha Hc Hs Hd] Hfuel.
  destruct (construct_adjacency caps g fp Hfp) as (_ & _ & Hadj & Hexist).
  destruct (recover_ok rnd k Hk g (items caps).*1 (FlowProblem.adjacency_map_ fp) (NoDup_items_keys caps) Hadj Hexist source sink demand Hpos rank
    Hdel fuel source demand (Recover.mk fs [] ∅ [])) as (r & st & Hst & Hr & [_ _ (ps & Hout & Hsum & Hps & Hload) _ Hw]); [|done|done|].
  - split; cbn [Recover.flow_over_links Recover.links_so_far Recover.nodes_so_far_set]; try done.
    + split.
      * intros l q Hq. rewrite elem_of_links. by apply Ha.
      * intros n H1 H2. rewrite net_out_in, (Hc n H1 H2). lra.
    + lra.
    + constructor.
    + intros l Hl. by apply elem_of_nil in Hl.
    + intros _. by rewrite net_out_in.
  - cbn in Hout, Hload. exists r, st. rewrite Hout. split_and!; [done|done|lra| |].
    + intros p Hp. destruct (Hps p Hp) as (Hf & _ & ls & Hls & Hwalk & Hnd). cbn in Hls, Hnd. by rewrite Hls.
    + intros l. split; [specialize (Hload l); lra|]. unfold left.
      destruct (Recover.flow_over_links st !! l) as [q|] eqn:Hq; cbn; [|done]. eapply (whole_nonneg k), (Hw l q Hq).
Qed.

(** *** An example: 1 and 2 over the two sides of a diamond *)

Definition diamond_links : list GraphLinkBase :=
  [mkGraphLinkBase "A" "B" 1%Z 1%Z 100%Z 1%Z; mkGraphLinkBase "A" "C" 2%Z 1%Z 100%Z 1%Z;
   mkGraphLinkBase "B" "D" 2%Z 1%Z 100%Z 1%Z; mkGraphLinkBase "C" "D" 2%Z 2%Z 100%Z 1%Z].
Definition diamond : GraphStorage.t :=
  match GraphStorage.construct (GraphBuilder.mk false diamond_links) [] with Ok g => g | Fail _ => GraphStorage.init [] end.
Definition diamond_caps : gmap nat Q := {[0 := 5%Q; 1 := 5%Q; 2 := 5%Q; 3 := 5%Q]}.
Definition diamond_flow : gmap nat Q := {[0 := 1%Q; 1 := 2%Q; 2 := 1%Q; 3 := 2%Q]}.

Lemma diamond_links_keys : (items diamond_caps).*1 = [0; 1; 2; 3].
Proof. vm_compute. reflexivity. Qed.

(** Delays that add up. *)
Lemma total_delay_bounded g ls D :
  (forall l, l ∈ ls -> exists link, GraphStorage.GetLink g l = Ok link /\ (0 <= delay (Graph.base link) <= D)%Z) ->
  (D * Z.of_nat (length ls) < 2 ^ 63)%Z -> is_Ok (TotalDelayOfLinks ls g).
Proof.
  unfold TotalDelayOfLinks. intros Hls HD.
  assert (Hgen : forall t, (0 <= t)%Z -> (t + D * Z.of_nat (length ls) < 2 ^ 63)%Z ->
    is_Ok (mfold (λ total i, link ← GraphStorage.GetLink g i; delay_add total (delay (Graph.base link))) ls t)); [|apply Hgen; lia].
  clear HD. induction ls as [|l ls IH]; intros t Ht Hb; cbn [mfold]; [by eexists|].
  destruct (Hls l) as (link & Hlink & Hd); [by left|]. rewrite Hlink, bind_Ok_l. cbn [length] in Hb.
  assert (0 <= D * Z.of_nat (length ls))%Z by (apply Z.mul_nonneg_nonneg; lia). rewrite Nat2Z.inj_succ, Z.mul_succ_r in Hb.
  rewrite delay_add_Ok by (unfold Delay_max, int64_max; lia). rewrite bind_Ok_l. apply IH; [intros l' Hl'; apply Hls; by right|lia|lia].
Qed.

Lemma diamond_delays l : l ∈ [0; 1; 2; 3] -> exists link, GraphStorage.GetLink diamond l = Ok link /\ (0 <= delay (Graph.base link) <= 2)%Z.
Proof.
  assert (Hall : forallb (λ l, match GraphStorage.GetLink diamond l with Ok link => (0 <=? delay (Graph.base link))%Z && (delay (Graph.base link) <=? 2)%Z
                               | Fail _ => false end) [0; 1; 2; 3] = true) by (vm_compute; reflexivity).
  rewrite forallb_forall in Hall. intros Hl%list_elem_of_In%Hall.
  destruct (GraphStorage.GetLink diamond l) as [link|]; [|done]. exists link. apply andb_true_iff in Hl as [?%Z.leb_le ?%Z.leb_le]. done.
Qed.

Lemma diamond_far n : links_out diamond [0; 1; 2; 3] (S (S (S (S n)))) = [] /\ links_in diamond [0; 1; 2; 3] (S (S (S (S n)))) = [].
Proof.
  split; apply elem_of_nil_inv; intros l; unfold links_out, links_in; rewrite list_elem_of_filter; intros [Heq Hl];
    repeat (apply elem_of_cons in Hl as [->|Hl]; [vm_compute in Heq; discriminate|]); by apply elem_of_nil in Hl.
Qed.

Lemma RecoverPathsRecursive_splits_flow_witness :
  match FlowProblem.construct diamond_caps diamond with
  | Ok fp => exists r st,
      Recover.RecoverPathsRecursive Qred (FlowProblem.adjacency_map_ fp) diamond 3 3 4 0 3 (Recover.mk diamond_flow [] ∅ []) = Ok (r, st) /\
      (sum_of flow (Recover.out st) == 3)%Q /\ (λ p, Walk.links_ (path p)) <$> Recover.out st = [[0; 2]; [1; 3]]
  | Fail _ => False
  end.
Proof.
  destruct (FlowProblem.construct diamond_caps diamond) as [fp|] eqn:Hfp; [|vm_compute in Hfp; discriminate].
  assert (Hwhole : forall z, (0 <= z <= 2 ^ 53)%Z -> whole 0 (inject_Z z)).
  { intros z Hz. exists z. split; [unfold on_grid; change (inject_Z (pow2 0)) with 1%Q; ring|change (pow2 0) with 1%Z; lia]. }
  destruct (RecoverPathsRecursive_splits_flow Qred 0 diamond_caps diamond fp 0 3 3 (λ n, 3 - n) diamond_flow 4) as (r & st & Hst & Hr & Hsum & _).
  - lia.
  - exact Hfp.
  - intros ls Hnd Hsub. rewrite diamond_links_keys in Hsub. apply (total_delay_bounded _ _ 2).
    + intros l Hl%Hsub. by apply diamond_delays.
    + assert (Hlen : length ls <= length [0; 1; 2; 3]) by (apply submseteq_length, NoDup_submseteq; done). cbn in Hlen. lia.
  - done.
  - done.
  - apply (Hwhole 3%Z). lia.
  - split.
    + intros l q Hl. unfold diamond_flow in Hl.
      repeat (apply lookup_insert_Some in Hl as [[<- <-]|[_ Hl]]; [split; [vm_compute; eauto|apply Hwhole; lia]|]).
      apply lookup_singleton_Some in Hl as [<- <-]. split; [vm_compute; eauto|]. apply (Hwhole 2%Z). lia.
    + intros n H1 H2. rewrite diamond_links_keys. destruct n as [|[|[|[|n]]]]; [by destruct H1|vm_compute; reflexivity|vm_compute; reflexivity|by destruct H2|].
      assert (Hnone : links_out diamond [0; 1; 2; 3] (S (S (S (S n)))) = [] /\ links_in diamond [0; 1; 2; 3] (S (S (S (S n)))) = []) by apply diamond_far.
      by destruct Hnone as [-> ->].
    + rewrite diamond_links_keys. vm_compute. discriminate.
    + intros l Hl. destruct l as [|[|[|[|l]]]]; [exists 0, 1|exists 0, 2|exists 1, 3|exists 2, 3|];
        [split_and!; [vm_compute; reflexivity|vm_compute; reflexivity|cbn; lia]..|].
      exfalso. unfold left, diamond_flow in Hl. rewrite !lookup_insert_ne, lookup_singleton_ne in Hl by lia. cbn in Hl. lra.
  - cbn. lia.
  - exists r, st. split_and!; [exact Hst|exact Hsum|].
    vm_compute in Hfp. injection Hfp as <-. vm_compute in Hst. injection Hst as <- <-. reflexivity.
Defined.
