(* ===== verification/FlowRecovery.v ===== *)
(** What the classes of flow problems of [src/src/lp/mc_flow.cc] that minimize a
    cost have in common, for any type of commodity: the objective is the total
    cost of the flow, and the paths that are recovered from a solution carry
    the demands.  [MinDelay] and [MultiCommodity] are the two uses. *)

From Stdlib Require Import Qabs.
From S2P Require Import Prelude OrderedMap PerfectHash Graph Rational LinearProgram FlowProblem FlowOptima DemandScaling FlowPaths.

(** Variables in rows of [w] are all the variables. *)
Lemma sum_of_rows (h : nat -> Q) w n :
  (sum_of h (seq 0 (n * w)) == sum_of (λ i, sum_of (λ j, h (i * w + j)%nat) (seq 0 w)) (seq 0 n))%Q.
Proof.
  induction n as [|n IH]; [done|]. rewrite Nat.mul_succ_l, seq_app, sum_of_app, IH, seq_S, sum_of_app, sum_of_cons, sum_of_nil. cbn [Nat.add].
  assert (Hs : seq (n * w) w = (λ j, n * w + j) <$> seq 0 w) by (by rewrite fmap_add_seq, Nat.add_0_r).
  rewrite Hs, sum_of_fmap. lra.
Qed.

(** ** The objective *)

Definition with_objective (q : Problem.t) (cs : list Q) : Problem.t :=
  Problem.mk (Problem.direction q) (Problem.vars q) (Problem.rows q) (Problem.elements q) cs (Problem.offset q).

Lemma with_objective_same q : with_objective q (Problem.objective q) = q.
Proof. by destruct q. Qed.

Section costs.
Context {K : Type} `{Countable K, !KeyOrder K}.
Context (L : list (nat * Q)) (keys : list K) (cost : nat -> K -> Q).

(** The total cost of a flow. *)
Definition flow_cost (f : nat -> K -> Q) : Q := sum_of (λ l, sum_of (λ k, (cost l k * f l k)%Q) keys) L.*1.

Context (m : VarMap K).
Hypothesis Hvars : forall i lc j k, L !! i = Some lc -> keys !! j = Some k -> GetVar m lc.1 k = Ok (i * length keys + j).
Hypothesis Honly : forall l vs, m !! l = Some vs -> l ∈ L.*1 /\ forall k, is_Some (vs !! k) -> k ∈ keys.

Definition var_cost (v : nat) : Q :=
  match L !! (v / length keys), keys !! (v mod length keys) with Some lc, Some k => cost lc.1 k | _, _ => 0%Q end.

Lemma var_cost_index i lc j k : L !! i = Some lc -> keys !! j = Some k -> var_cost (i * length keys + j) = cost lc.1 k.
Proof using Type.
  intros Hi Hj. assert (Hlt : j < length keys) by (by eapply lookup_lt_Some). unfold var_cost.
  rewrite (Nat.add_comm _ j), Nat.div_add, Nat.Div0.mod_add, Nat.div_small, Nat.mod_small by lia. cbn. by rewrite Hi, Hj.
Qed.

Lemma var_entry l vs k v : m !! l = Some vs -> vs !! k = Some v -> v < length L * length keys /\ var_cost v = cost l k.
Proof using All.
  intros Hl Hs. destruct (Honly l vs Hl) as [Hin Hk']. specialize (Hk' k ltac:(eauto)). apply list_elem_of_fmap in Hin as (lc & -> & Hin).
  apply list_elem_of_lookup in Hin as [i Hi], Hk' as [j Hj]. specialize (Hvars i lc j k Hi Hj).
  unfold GetVar, value_or_die in Hvars. rewrite Hl, bind_Ok_l, Hs in Hvars. injection Hvars as ->.
  split; [|by apply var_cost_index]. apply var_index; by eapply lookup_lt_Some.
Qed.

Lemma set_link_costs_ok q cs l vs :
  m !! l = Some vs -> length cs = length L * length keys ->
  exists cs', mfold (λ q (key_and_var : K * nat), Problem.SetObjectiveCoefficient q key_and_var.2 (cost l key_and_var.1)) (items vs)
      (with_objective q cs) = Ok (with_objective q cs') /\
    length cs' = length cs /\ (forall v, cs !! v = Some (var_cost v) -> cs' !! v = Some (var_cost v)) /\
    (forall k v, vs !! k = Some v -> cs' !! v = Some (var_cost v)).
Proof using All.
  intros Hl Hlen.
  destruct (mfold_inv (λ done_ q', exists cs', q' = with_objective q cs' /\
      length cs' = length cs /\ (forall v, cs !! v = Some (var_cost v) -> cs' !! v = Some (var_cost v)) /\
      (forall k v, (k, v) ∈ done_ -> cs' !! v = Some (var_cost v)))
    (λ q (key_and_var : K * nat), Problem.SetObjectiveCoefficient q key_and_var.2 (cost l key_and_var.1)) (items vs) (with_objective q cs))
    as (q' & Hm & cs' & -> & Hlen' & Hold & Hnew).
  - exists cs. split_and!; [done..|]. intros k v Hin. by apply elem_of_nil in Hin.
  - intros done_ [k v] q1 [r Hpre] (cs1 & -> & Hlen1 & Hold & Hnew). cbn [fst snd].
    assert (Hsv : vs !! k = Some v) by (apply elem_of_items; rewrite Hpre; set_solver).
    destruct (var_entry l vs k v Hl Hsv) as [Hlt Hcost]. destruct (lookup_lt_is_Some_2 cs1 v) as [c Hc]; [lia|].
    unfold Problem.SetObjectiveCoefficient. cbn [with_objective Problem.objective]. rewrite (proj2 (vec_at_Ok _ _ _) Hc), bind_Ok_l.
    assert (Hins : forall u, cs1 !! u = Some (var_cost u) \/ u = v -> <[v := cost l k]> cs1 !! u = Some (var_cost u)).
    { intros u Hu. destruct (decide (u = v)) as [->|Hne]; [rewrite list_lookup_insert_eq by lia; by rewrite Hcost|].
      rewrite list_lookup_insert_ne by done. destruct Hu; [done|congruence]. }
    eexists. split; [done|]. eexists. split; [done|]. split_and!; [by rewrite length_insert|by auto|].
    intros k' v' [Hin|[= -> ->]%list_elem_of_singleton]%elem_of_app; apply Hins; [left; by eapply Hnew|by right].
  - exists cs'. split_and!; [exact Hm|done..|]. intros k v Hv. eapply (Hnew k). by apply elem_of_items.
Qed.

(** A loop over the links whose rounds set the costs of the variables of a
    link makes the total cost the objective. *)
Lemma set_costs_ok (step : Problem.t -> nat * gmap K nat -> outcome Problem.t) q :
  (forall q l vs, m !! l = Some vs ->
     step q (l, vs) = mfold (λ q (key_and_var : K * nat), Problem.SetObjectiveCoefficient q key_and_var.2 (cost l key_and_var.1)) (items vs) q) ->
  length (Problem.objective q) = length L * length keys ->
  exists cs, mfold step (items m) q = Ok (with_objective q cs) /\ forall x, (linear_objective cs x == flow_cost (flow_of m x))%Q.
Proof using All.
  intros Hstep Hlen.
  destruct (mfold_inv (λ done_ q', exists cs, q' = with_objective q cs /\ length cs = length L * length keys /\
      forall e vs k v, (e, vs) ∈ done_ -> vs !! k = Some v -> cs !! v = Some (var_cost v)) step (items m) q) as (q' & Hm & cs & -> & Hlen' & Hset).
  - exists (Problem.objective q). split; [by rewrite with_objective_same|]. split; [done|]. intros e vs k v Hin. by apply elem_of_nil in Hin.
  - intros done_ [l vs] q1 [r Hpre] (cs & -> & Hlen1 & Hset).
    assert (Hl : m !! l = Some vs) by (apply elem_of_items; rewrite Hpre; set_solver).
    rewrite (Hstep _ _ _ Hl). destruct (set_link_costs_ok q cs l vs Hl Hlen1) as (cs' & -> & Hlen2 & Hold & Hnew). eexists. split; [done|].
    exists cs'. split; [done|]. split; [lia|]. intros e vs' k v [Hin'|[= -> ->]%list_elem_of_singleton]%elem_of_app Hv; [|by eapply Hnew].
    apply Hold. by eapply Hset.
  - exists cs. split; [exact Hm|]. intros x.
    assert (Hcs : forall i lc j k, L !! i = Some lc -> keys !! j = Some k -> cs !! (i * length keys + j) = Some (cost lc.1 k)).
    { intros i lc j k Hi Hj. pose proof (Hvars i lc j k Hi Hj) as Hv0. unfold GetVar, value_or_die in Hv0.
      destruct (m !! lc.1) as [vs|] eqn:Hl; [|done]. rewrite bind_Ok_l in Hv0. destruct (vs !! k) as [v|] eqn:Hv; [|done]. injection Hv0 as ->.
      rewrite <-(var_cost_index i lc j k Hi Hj). eapply (Hset lc.1 vs k); [by apply elem_of_items|done]. }
    unfold linear_objective. rewrite Hlen', sum_of_rows. symmetry. unfold flow_cost. rewrite sum_of_fmap. apply sum_of_seq. intros i lc Hi.
    apply sum_of_seq. intros j k Hj. cbn [Nat.add]. rewrite (Hcs i lc j k Hi Hj). cbn [default from_option Datatypes.id].
    unfold flow_of. by rewrite (var_of_index L keys m i lc j k Hvars Hi Hj).
Qed.
End costs.

(** ** Commodities from one node to another *)
Section recovery.
Context {K : Type} `{Countable K, !KeyOrder K}.
Context (caps : gmap nat Q) (g : GraphStorage.t) (adj : FlowProblem.AdjacencyMap).
Context (keys : list K) (source : K -> nat -> option Q) (from to : K -> nat) (amount : K -> Q) (cost : nat -> K -> Q).

Notation links := (items caps).*1.
Notation width := (length keys).

(** The flows of the problem. *)
Definition carries_all (f : nat -> K -> Q) : Prop := is_flow g (items caps) keys source to true f.

(** What the program of the problem means. *)
Record cost_program (q : Problem.t) (m : VarMap K) : Prop := {
  cp_direction : Problem.direction q = MINIMIZE;
  cp_encodes : exists b, encodes g (items caps) keys source to true MINIMIZE b m;
  cp_only : forall l vs, m !! l = Some vs -> l ∈ links /\ forall k, is_Some (vs !! k) -> k ∈ keys;
  cp_vars : length (Problem.vars q) = length (items caps) * width;
  cp_feasible : forall x, feasible q x <-> carries_all (flow_of m x);
  cp_objective : forall x, (objective_value q x == flow_cost (items caps) keys cost (flow_of m x))%Q
}.

Hypothesis Hkeys : NoDup keys.
Hypothesis Hadj : adjacency_ok g links adj.
Hypothesis Hexist : Forall (λ l, is_Some (PerfectHashStore.items_ (GraphStorage.link_store_ g) !! l)) links.
Hypothesis Hsource : forall k n, k ∈ keys -> source k n = if n =? from k then Some (amount k) else None.
(** Every source has a link. *)
Hypothesis Hlinked : forall k, k ∈ keys -> exists l, is_Some (caps !! l) /\ (src_of g l = Some (from k) \/ dst_of g l = Some (from k)).

Lemma cost_program_ok (step : Problem.t -> nat * gmap K nat -> outcome Problem.t) :
  (forall q l vs, l ∈ links -> (forall k, is_Some (vs !! k) -> k ∈ keys) ->
     step q (l, vs) = mfold (λ q (key_and_var : K * nat), Problem.SetObjectiveCoefficient q key_and_var.2 (cost l key_and_var.1)) (items vs) q) ->
  exists b m q, build (items caps) keys source to adj true MINIMIZE = Ok (b, m) /\
    mfold step (items m) (problem b) = Ok q /\ cost_program (Problem.SetMatrix q (problem_matrix b)) m.
Proof using All.
  intros Hstep. destruct (build_encodes g (items caps) keys source to adj true Hkeys) with (d := MINIMIZE) as (b & m & Hb & Hen);
    [apply NoDup_items_keys|done| |].
  { intros k n load Hk Hn Hno. rewrite (Hsource k n Hk) in Hn. destruct (Nat.eqb_spec n (from k)) as [->|]; [|done].
    destruct (Hlinked k Hk) as (l & Hl & Hend). exfalso. assert (Hsome : is_Some (adj !! from k)).
    { apply (ao_some _ _ _ Hadj). exists l. split; [by apply elem_of_links|done]. }
    rewrite Hno in Hsome. by destruct Hsome. }
  pose proof (build_only _ _ _ _ _ _ _ _ _ Hb) as Honly. destruct (en_extend _ _ _ _ _ _ _ _ _ Hen) as (rs & es & Hext).
  destruct (set_costs_ok (items caps) keys cost m (en_vars _ _ _ _ _ _ _ _ _ Hen) Honly step (problem b)) as (cs & Hcs & Hlin).
  { intros q l vs Hl. destruct (Honly l vs Hl). by apply Hstep. }
  { rewrite Hext. cbn. by rewrite length_replicate. }
  exists b, m, (with_objective (problem b) cs). split_and!; [done..|]. split.
  - by rewrite Hext.
  - by exists b.
  - done.
  - rewrite Hext. cbn. by rewrite length_replicate.
  - exact (en_sat _ _ _ _ _ _ _ _ _ Hen).
  - intros x. unfold objective_value. cbn [with_objective Problem.SetMatrix Problem.objective Problem.offset]. rewrite Hlin, Hext.
    cbn [extend problem Problem.offset Problem.init]. lra.
Qed.

(** Flows are feasible assignments of the same cost. *)
Lemma realize_flow q m f :
  cost_program q m -> carries_all f -> exists x, feasible q x /\ (objective_value q x == flow_cost (items caps) keys cost f)%Q.
Proof using All.
  intros Hq Hf. destruct (cp_encodes _ _ Hq) as [b Hen]. destruct (realize g _ _ _ _ _ _ _ _ f Hen) as [x Hx]. exists x. split.
  - apply (cp_feasible _ _ Hq). eapply is_flow_ext; [|exact Hf]. intros l s Hl Hs. by rewrite Hx.
  - rewrite (cp_objective _ _ Hq). apply sum_of_ext. intros l Hl. apply sum_of_ext. intros s Hs. by rewrite Hx.
Qed.

Hypothesis Hcost : forall l k, l ∈ links -> k ∈ keys -> (0 <= cost l k)%Q.

Lemma flow_cost_nonneg f : carries_all f -> (0 <= flow_cost (items caps) keys cost f)%Q.
Proof using All.
  intros Hf. apply sum_of_nonneg. intros l Hl. apply sum_of_nonneg. intros s Hs.
  apply Qmult_le_0_compat; [by apply Hcost|by apply (fl_nonneg _ _ _ _ _ _ _ Hf)].
Qed.

(** What a solution of the program says about flows. *)
Lemma solution_flow q m s :
  cost_program q m -> solves q s ->
  if Solution.found s then
    length (Solution.variables_ s) = length (Problem.vars q) /\ carries_all (flow_of m (Solution.assignment s)) /\
    (Solution.ObjectiveValue s == flow_cost (items caps) keys cost (flow_of m (Solution.assignment s)))%Q /\
    (Solution.type s = OPTIMAL -> forall f, carries_all f ->
       (flow_cost (items caps) keys cost (flow_of m (Solution.assignment s)) <= flow_cost (items caps) keys cost f)%Q)
  else forall f, ~ carries_all f.
Proof using All.
  intros Hq Hsol. unfold Solution.found, solves in *. rewrite (cp_direction _ _ Hq) in Hsol.
  destruct (Solution.type s).
  1, 2: destruct Hsol as (Hlen & Hfe & Hval & Hbest); split_and!; [done|by apply (cp_feasible _ _ Hq)|by rewrite Hval, (cp_objective _ _ Hq)|]; try done.
  - intros _ f Hf. destruct (realize_flow q m f Hq Hf) as (y & Hy & Hc). specialize (Hbest eq_refl y Hy). cbn [as_good] in Hbest.
    rewrite (cp_objective _ _ Hq) in Hbest. lra.
  - intros f Hcar. destruct (realize_flow q m f Hq Hcar) as (x & Hx & _). destruct Hsol as [Hno|Hunb]; [by apply (Hno x)|].
    destruct (Hunb (-(1))%Q) as (y & Hy & Hgood). rewrite (cp_direction _ _ Hq) in Hgood. cbn [as_good] in Hgood.
    rewrite (cp_objective _ _ Hq) in Hgood. pose proof (flow_cost_nonneg _ (proj1 (cp_feasible _ _ Hq y) Hy)). lra.
Qed.

(** ** Paths *)

Context (rnd : Q -> Q) `{!Rounding rnd} (j : nat) (Hj : j <= 60).
#[local] Existing Instance rnd_proper.
Notation whole := (whole j).

(** Paths of a commodity that carry its amount together. *)
Definition carries (k : K) (ps : list FlowAndPath) : Prop :=
  (sum_of flow ps == amount k)%Q /\
  forall fp, fp ∈ ps -> (0 < flow fp)%Q /\ is_walk g links (from k) (Walk.links_ (path fp)) (to k) /\ NoDup (Walk.links_ (path fp)).

(** Sums of amounts of paths are exact. *)
Lemma total_exact ps acc d :
  whole acc -> (forall fp, fp ∈ ps -> whole (flow fp)) -> whole d -> (acc + sum_of flow ps == d)%Q ->
  (fold_left (λ total path, rnd (total + flow path)%Q) ps acc == d)%Q.
Proof using All.
  revert acc. induction ps as [|fp ps IH]; intros acc Hacc Hps Hd Hsum; cbn [fold_left].
  { rewrite sum_of_nil in Hsum. lra. }
  rewrite sum_of_cons in Hsum. assert (Hfp : whole (flow fp)) by (apply Hps; by left).
  assert (Hrest : (0 <= sum_of flow ps)%Q).
  { apply sum_of_nonneg. intros fp' Hin. eapply (whole_nonneg j), Hps. by right. }
  destruct Hacc as (ma & Hma & Ha), Hfp as (mf & Hmf & Hf), Hd as (md & Hmd & Hd'). pose proof (on_grid_add _ _ _ _ _ Hma Hmf) as Hadd.
  assert (Hle : (ma + mf <= md)%Z).
  { apply Z.nlt_ge. intros Hlt. pose proof (on_grid_lt _ _ _ _ _ Hmd Hadd Hlt). lra. }
  assert (Hex : (rnd (acc + flow fp) == acc + flow fp)%Q) by (apply (on_grid_exact rnd _ (ma + mf) j Hadd); [lia|done]).
  apply IH.
  - exists (ma + mf)%Z. split; [|lia]. eapply on_grid_eq; [symmetry; exact Hex|done].
  - intros fp' Hin. apply Hps. by right.
  - by exists md.
  - lra.
Qed.

Lemma close_to_exact total d : (total == d)%Q -> (0 < d)%Q -> close_to rnd total d = true.
Proof using All.
  intros Ht Hd. unfold close_to. assert (Hz : Qeq_bool total 0 = false).
  { apply not_true_iff_false. rewrite Qeq_bool_iff. lra. }
  rewrite Hz. assert (H0 : forall y, (y == 0)%Q -> (rnd y == 0)%Q).
  { intros y Hy. rewrite (on_grid_exact rnd y 0 0); [done| |lia|lia]. unfold on_grid. rewrite Hy. ring. }
  apply negb_true_iff, not_true_iff_false. rewrite Qle_bool_iff. intros Hle.
  assert (Habs : (Qabs (rnd (total - d)) / total == 0)%Q).
  { rewrite (H0 (total - d)%Q) by lra. change (Qabs 0) with 0%Q. apply Qmult_0_l. }
  rewrite (H0 _ Habs) in Hle. done.
Qed.

Hypothesis Hdelays : forall ls, NoDup ls -> ls ⊆ links -> is_Ok (TotalDelayOfLinks ls g).
(** Demands are amounts that doubles hold. *)
Hypothesis Hamounts : forall k, k ∈ keys -> (0 < amount k)%Q /\ whole (amount k) /\ from k <> to k.

Lemma net_flow_of fs (f : nat -> K -> Q) k n :
  (forall l, l ∈ links -> (left fs l == f l k)%Q) ->
  (net g links fs n == outflow g (items caps) f k n - inflow g (items caps) f k n)%Q.
Proof using Type.
  intros Hf. unfold net, outflow, inflow, links_out, links_in. rewrite !sum_of_filter, <-sum_of_minus. apply sum_of_ext. intros l Hl.
  rewrite (Hf l Hl). unfold sign. repeat case_decide; lra.
Qed.

(** A flow whose amounts doubles hold and in which every commodity goes
    downhill. *)
Record good_flows (rank : K -> nat -> nat) (f : nat -> K -> Q) : Prop := {
  gf_whole : forall l k, l ∈ links -> k ∈ keys -> whole (f l k);
  gf_downhill : forall l k, l ∈ links -> k ∈ keys -> (0 < f l k)%Q ->
    exists a b, src_of g l = Some a /\ dst_of g l = Some b /\ rank k b < rank k a
}.

Section solution.
Context (q : Problem.t) (m : VarMap K) (solution : Solution.t) (rank : K -> nat -> nat) (fuel : nat).
Hypothesis Hq : cost_program q m.
Hypothesis Hlen : length (Solution.variables_ solution) = length (Problem.vars q).

Notation f := (flow_of m (Solution.assignment solution)).

Lemma link_value l k :
  l ∈ links -> k ∈ keys -> exists vs v, m !! l = Some vs /\ vs !! k = Some v /\ Solution.VariableValue solution v = Ok (f l k).
Proof using All.
  intros Hl Hk. destruct (cp_encodes _ _ Hq) as [b Hen]. apply list_elem_of_fmap in Hl as (lc & -> & Hl).
  apply list_elem_of_lookup in Hl as [i Hi], Hk as [jk Hjk]. pose proof (en_vars _ _ _ _ _ _ _ _ _ Hen i lc jk k Hi Hjk) as Hv.
  pose proof (var_of_index _ _ m i lc jk k (en_vars _ _ _ _ _ _ _ _ _ Hen) Hi Hjk) as Hvo. unfold GetVar, value_or_die in Hv.
  destruct (m !! lc.1) as [vs|] eqn:Hl; [|done]. rewrite bind_Ok_l in Hv. destruct (vs !! k) as [v|] eqn:Hvs; [|done]. injection Hv as ->.
  exists vs, (i * width + jk). split_and!; [done..|]. unfold flow_of. rewrite Hvo. unfold Solution.VariableValue, Solution.assignment.
  assert (Hlt : i * width + jk < length (Solution.variables_ solution)).
  { rewrite Hlen, (cp_vars _ _ Hq). apply var_index; by eapply lookup_lt_Some. }
  destruct (lookup_lt_is_Some_2 _ _ Hlt) as [y Hy]. rewrite Hy. by apply vec_at_Ok.
Qed.

(** The flow of a commodity over the links. *)
Lemma link_flows_ok k :
  k ∈ keys ->
  exists fs, link_flows m solution k = Ok fs /\
    (forall l y, fs !! l = Some y -> l ∈ links /\ y = f l k /\ (0 < y)%Q) /\
    (forall l, l ∈ links -> fs !! l = None -> (f l k <= 0)%Q).
Proof using All.
  intros Hk. unfold link_flows.
  destruct (mfold_inv (λ done_ (fs : gmap nat Q), (forall l y, fs !! l = Some y -> l ∈ links /\ y = f l k /\ (0 < y)%Q) /\
      (forall l, l ∈ done_.*1 -> fs !! l = None -> (f l k <= 0)%Q))
    (λ (link_to_flow : gmap nat Q) (link_and_variables : nat * gmap K nat),
      var ← value_or_die link_and_variables.2 k;
      flow ← Solution.VariableValue solution var;
      Ok (if Qle_bool flow 0 then link_to_flow else <[link_and_variables.1 := flow]> link_to_flow)) (items m) (∅ : gmap nat Q)) as (fs & Hm & Hsome & Hnone).
  - split; [intros l y Hl; by rewrite lookup_empty in Hl|]. intros l Hl. by apply elem_of_nil in Hl.
  - intros done_ [l vs] fs [r Hpre] [Hsome Hnone]. cbn [fst snd]. assert (Hl : m !! l = Some vs) by (apply elem_of_items; rewrite Hpre; set_solver).
    destruct (cp_only _ _ Hq l vs Hl) as [Hin _]. destruct (link_value l k Hin Hk) as (vs' & v & Hl' & Hv & Hval). rewrite Hl in Hl'. injection Hl' as <-.
    unfold value_or_die. rewrite Hv, bind_Ok_l, Hval, bind_Ok_l. rewrite fmap_app. cbn [fmap list_fmap fst].
    destruct (Qle_bool (f l k) 0) eqn:Hle; eexists; (split; [done|]).
    + apply Qle_bool_iff in Hle. split; [done|]. intros l' [Hl'| ->%list_elem_of_singleton]%elem_of_app; [by apply Hnone|done].
    + assert (Hpos : (0 < f l k)%Q) by (apply Qnot_le_lt; rewrite <-Qle_bool_iff, Hle; done). split.
      * intros l' y. destruct (decide (l = l')) as [<-|Hne]; [rewrite lookup_insert_eq; by intros [= <-]|rewrite lookup_insert_ne by done; apply Hsome].
      * intros l'. destruct (decide (l = l')) as [<-|Hne]; [by rewrite lookup_insert_eq|]. rewrite lookup_insert_ne by done.
        intros [Hl'| ->%list_elem_of_singleton]%elem_of_app; [by apply Hnone|done].
  - exists fs. split_and!; [exact Hm|done|]. intros l Hl. apply Hnone. destruct (link_value l k Hl Hk) as (vs & _ & Hvs & _).
    apply list_elem_of_fmap. exists (l, vs). split; [done|]. by apply elem_of_items.
Qed.

Hypothesis Hflow : carries_all f.
Hypothesis Hgood : good_flows rank f.
Hypothesis Hfuel : forall k, k ∈ keys -> rank k (from k) < fuel.

(** What a commodity starts from. *)
Lemma ready_at_source k fs :
  k ∈ keys ->
  (forall l y, fs !! l = Some y -> l ∈ links /\ y = f l k /\ (0 < y)%Q) -> (forall l, l ∈ links -> fs !! l = None -> (f l k <= 0)%Q) ->
  (forall l, l ∈ links -> (left fs l == f l k)%Q) /\
  ready j g links (from k) (to k) (amount k) (rank k) (from k) (amount k) (Recover.mk fs [] ∅ []).
Proof using All.
  intros Hk Hsome Hnone. destruct (Hamounts k Hk) as (Hpos & Hdw & Hne).
  assert (Hleft : forall l, l ∈ links -> (left fs l == f l k)%Q).
  { intros l Hl. unfold left. destruct (fs !! l) as [y|] eqn:Hy; cbn; [by destruct (Hsome l y Hy) as (_ & -> & _)|].
    pose proof (Hnone l Hl Hy). pose proof (fl_nonneg _ _ _ _ _ _ _ Hflow l k Hl Hk). lra. }
  assert (Hnode : forall n, node_ok (if n =? from k then Some (amount k) else None) (n =? to k) (outflow g (items caps) f k n) (inflow g (items caps) f k n)).
  { intros n. rewrite <-(Hsource k n Hk). by apply (fl_nodes _ _ _ _ _ _ _ Hflow). }
  split; [done|]. split; cbn [Recover.flow_over_links Recover.links_so_far Recover.nodes_so_far_set].
  - split.
    + intros l y Hy. destruct (Hsome l y Hy) as (Hl & -> & _). split; [done|]. by apply (gf_whole _ _ Hgood).
    + intros n Hns Hnt. rewrite (net_flow_of fs f k n Hleft). specialize (Hnode n).
      rewrite (proj2 (Nat.eqb_neq _ _) Hns), (proj2 (Nat.eqb_neq _ _) Hnt) in Hnode. unfold node_ok in Hnode. lra.
  - intros l Hl. unfold left in Hl. destruct (fs !! l) as [y|] eqn:Hy; cbn in Hl; [|lra]. destruct (Hsome l y Hy) as (Hin & -> & _).
    by apply (gf_downhill _ _ Hgood).
  - done.
  - lra.
  - done.
  - constructor.
  - intros l Hl. by apply elem_of_nil in Hl.
  - intros n Hn. by apply elem_of_empty in Hn.
  - intros _. rewrite (net_flow_of fs f k (from k) Hleft). specialize (Hnode (from k)). by rewrite Nat.eqb_refl in Hnode.
Qed.

(** The paths that are recovered for a commodity. *)
Lemma recovered k :
  k ∈ keys ->
  exists fs r st, link_flows m solution k = Ok fs /\
    Recover.RecoverPathsRecursive rnd adj g (to k) (amount k) fuel (from k) (amount k) (Recover.mk fs [] ∅ []) = Ok (r, st) /\
    close_to rnd (total_of rnd (Recover.out st)) (amount k) = true /\
    carries k (Recover.out st) /\ forall l, l ∈ links -> (load l (Recover.out st) <= f l k)%Q.
Proof using All.
  intros Hk. destruct (Hamounts k Hk) as (Hpos & Hdw & Hne). destruct (link_flows_ok k Hk) as (fs & Hfs & Hsome & Hnone).
  destruct (ready_at_source k fs Hk Hsome Hnone) as [Hleft Hready].
  destruct (recover_ok rnd j Hj g links adj (NoDup_items_keys caps) Hadj Hexist (from k) (to k) (amount k) Hpos (rank k) Hdelays fuel (from k) (amount k) _ Hready Hne (Hfuel k Hk))
    as (r & st & Hst & Hr & Hdel).
  exists fs, r, st. destruct (dl_paths _ _ _ _ _ _ _ _ _ _ Hdel) as (ps & Hout & Hsum & Hps & Hload). cbn in Hout.
  rewrite Hout. split_and!; [done|done| | |].
  - apply close_to_exact; [|done]. apply total_exact; [|intros fp Hfp; by apply (Hps fp Hfp)|done|lra]. exists 0%Z. split; [unfold on_grid; ring|lia].
  - split; [lra|]. intros fp Hfp. destruct (Hps fp Hfp) as (Hfpos & _ & ls & Hls & Hw & Hnd). cbn in Hls, Hnd. rewrite Hls. done.
  - intros l Hl. specialize (Hload l). cbn in Hload. rewrite (Hleft l Hl) in Hload.
    assert (Hnn : (0 <= left (Recover.flow_over_links st) l)%Q); [|lra]. unfold left.
    destruct (Recover.flow_over_links st !! l) as [y|] eqn:Hy; cbn; [|done]. eapply (whole_nonneg j), (dl_whole _ _ _ _ _ _ _ _ _ _ Hdel l y Hy).
Qed.
End solution.

(** ** All the paths *)

Definition paths_for (r : gmap K (list FlowAndPath)) (k : K) : list FlowAndPath := default [] (r !! k).

(** Paths for all commodities that are taken from a flow. *)
Definition taken_from (f : nat -> K -> Q) (r : gmap K (list FlowAndPath)) : Prop :=
  forall k, k ∈ keys -> carries k (paths_for r k) /\ forall l, l ∈ links -> (load l (paths_for r k) <= f l k)%Q.

(** A loop over the commodities whose rounds find paths. *)
Lemma recover_all {A} (f : nat -> K -> Q) (step : A -> outcome (list FlowAndPath)) (key : A -> K) (l : list A) :
  NoDup (key <$> l) -> (forall k, k ∈ keys -> k ∈ key <$> l) ->
  (forall a, a ∈ l -> exists ps, step a = Ok ps /\ carries (key a) ps /\ forall e, e ∈ links -> (load e ps <= f e (key a))%Q) ->
  exists r, mfold (λ result a, paths ← step a; Ok (<[key a := paths]> result)) l (∅ : gmap K (list FlowAndPath)) = Ok r /\ taken_from f r.
Proof using All.
  intros Hnd Hall Hstep.
  destruct (mfold_inv (λ done_ r, forall k, k ∈ key <$> done_ -> carries k (paths_for r k) /\ forall e, e ∈ links -> (load e (paths_for r k) <= f e k)%Q)
    (λ result a, paths ← step a; Ok (<[key a := paths]> result)) l (∅ : gmap K (list FlowAndPath))) as (r & Hm & Hr).
  - intros k Hin. by apply elem_of_nil in Hin.
  - intros done_ a r [rest Hpre] Hr. destruct (Hstep a) as (ps & -> & Hps); [rewrite Hpre; set_solver|]. rewrite bind_Ok_l. eexists. split; [done|].
    intros k. rewrite fmap_app, elem_of_app. unfold paths_for. destruct (decide (key a = k)) as [<-|Hne]; [rewrite lookup_insert_eq; intros _; exact Hps|].
    rewrite lookup_insert_ne by done. intros [Hk| ->%list_elem_of_singleton]; [by apply Hr|done].
  - exists r. split; [exact Hm|]. intros k Hk. by apply Hr, Hall.
Qed.

(** Paths fit the capacities. *)
Lemma taken_fits f r l cap :
  carries_all f -> taken_from f r -> caps !! l = Some cap -> (sum_of (λ k, load l (paths_for r k)) keys <= cap)%Q.
Proof using All.
  intros Hf Hr Hcap. pose proof (fl_capacity _ _ _ _ _ _ _ Hf eq_refl l cap (proj2 (elem_of_items _ _ _) Hcap)) as Hc.
  eapply Qle_trans; [|exact Hc]. apply sum_of_le. intros k Hk. apply (Hr k Hk), elem_of_links. eauto.
Qed.

(** The total cost of paths. *)
Definition paths_cost (r : gmap K (list FlowAndPath)) : Q :=
  sum_of (λ k, sum_of (λ fp, (flow fp * sum_of (λ l, cost l k) (Walk.links_ (path fp)))%Q) (paths_for r k)) keys.

(** Paths cost no more than the flow that they are taken from. *)
Lemma paths_cost_le f r : taken_from f r -> (paths_cost r <= flow_cost (items caps) keys cost f)%Q.
Proof using All.
  intros Hr. unfold paths_cost, flow_cost. rewrite sum_of_swap. apply sum_of_le. intros k Hk. destruct (Hr k Hk) as [[_ Hps] Hload].
  apply (Qle_trans _ (sum_of (λ l, cost l k * load l (paths_for r k))%Q links)).
  - apply Qle_lteq. right. transitivity (sum_of (λ fp, sum_of (λ l, (cost l k * if decide (l ∈ Walk.links_ (path fp)) then flow fp else 0)%Q) links) (paths_for r k)).
    + apply sum_of_ext. intros fp Hfp. destruct (Hps fp Hfp) as (_ & Hw & Hnd).
      rewrite (sum_of_sub (λ l, cost l k) (Walk.links_ (path fp)) links Hnd (NoDup_items_keys caps)).
      * rewrite <-sum_of_scale. apply sum_of_ext. intros l _. case_decide; lra.
      * by eapply (is_walk_links g links).
    + rewrite sum_of_swap. apply sum_of_ext. intros l _. by rewrite sum_of_scale.
  - apply sum_of_le. intros l Hl. specialize (Hload l Hl). pose proof (Hcost l k Hl Hk). nra.
Qed.

(** The paths that a problem recovers with a loop over its commodities: each
    round [step] makes the calls of [recovered] and checks the total. *)
Lemma recovered_paths {A} q m s rank fuel (step : A -> outcome (list FlowAndPath)) (key : A -> K) (l : list A) :
  cost_program q m -> solves q s ->
  (Solution.found s = true -> good_flows rank (flow_of m (Solution.assignment s))) ->
  (forall k, k ∈ keys -> rank k (from k) < fuel) ->
  NoDup (key <$> l) -> (forall k, k ∈ key <$> l <-> k ∈ keys) ->
  (forall a fs r st, a ∈ l -> link_flows m s (key a) = Ok fs ->
     Recover.RecoverPathsRecursive rnd adj g (to (key a)) (amount (key a)) fuel (from (key a)) (amount (key a)) (Recover.mk fs [] ∅ []) = Ok (r, st) ->
     close_to rnd (total_of rnd (Recover.out st)) (amount (key a)) = true -> step a = Ok (Recover.out st)) ->
  if Solution.found s then
    exists r, mfold (λ result a, paths ← step a; Ok (<[key a := paths]> result)) l (∅ : gmap K (list FlowAndPath)) = Ok r /\
      (forall k, k ∈ keys -> carries k (paths_for r k)) /\
      (forall l cap, caps !! l = Some cap -> (sum_of (λ k, load l (paths_for r k)) keys <= cap)%Q) /\
      (paths_cost r <= Solution.ObjectiveValue s)%Q /\
      (Solution.type s = OPTIMAL -> forall f, carries_all f -> (Solution.ObjectiveValue s <= flow_cost (items caps) keys cost f)%Q)
  else forall f, ~ carries_all f.
Proof using All.
  intros Hq Hsol Hgood Hfuel Hnd Hall Hstep. pose proof (solution_flow q m s Hq Hsol) as Hs. destruct (Solution.found s); [|done].
  destruct Hs as (Hlen & Hfl & Hval & Hbest).
  destruct (recover_all (flow_of m (Solution.assignment s)) step key l Hnd) as (r & Hr & Htaken).
  { intros k Hk. by apply Hall. }
  { intros a Ha. assert (Hk : key a ∈ keys) by (apply Hall, list_elem_of_fmap; eauto).
    destruct (recovered q m s rank fuel Hq Hlen Hfl (Hgood eq_refl) Hfuel (key a) Hk) as (fs & rem & st & Hfs & Hrec & Hclose & Hps).
    exists (Recover.out st). split; [by eapply Hstep|done]. }
  exists r. split_and!; [done| | | |].
  - intros k Hk. by apply Htaken.
  - intros e cap Hcap. by eapply taken_fits.
  - rewrite Hval. by apply paths_cost_le.
  - intros Hopt f Hf. rewrite Hval. by apply Hbest.
Qed.
End recovery.
