(* ===== verification/MinDelay.v ===== *)
(** The theorems about [SingleCommoditySingleSinkFlowProblem::GetShortestPaths]
    ([src/src/lp/mc_flow.cc]): the program that it builds has the flows of
    the network as its solutions and the total delay as its objective, and the
    paths that it recovers carry the demands. *)

From S2P Require Import Prelude OrderedMap PerfectHash Graph Rational LinearProgram FlowProblem FlowOptima DemandScaling FlowPaths FlowRecovery.

Import SingleCommoditySingleSinkFlowProblem.

(** A problem over a network with capacities: the sources have links, the
    demands are amounts that doubles hold, and delays are not negative and add
    up to delays. *)
Record network_problem (k : nat) (caps : gmap nat Q) (g : GraphStorage.t) (p : t) : Prop := {
  np_base : FlowProblem.construct caps g = Ok (base p);
  np_linked : forall s d, demands_ p !! s = Some d -> exists l, is_Some (caps !! l) /\ (src_of g l = Some s \/ dst_of g l = Some s);
  np_demands : forall s d, demands_ p !! s = Some d -> (0 < d)%Q /\ whole k d /\ s <> sink_ p;
  np_delays : forall ls, NoDup ls -> ls ⊆ (items caps).*1 -> is_Ok (TotalDelayOfLinks ls g);
  np_delay : forall l link, l ∈ (items caps).*1 -> PerfectHashStore.items_ (GraphStorage.link_store_ g) !! l = Some link -> (0 <= delay (Graph.base link))%Z
}.

(** The commodities of the problem: one for each source. *)
Definition demand_of (p : t) (s : nat) : Q := default 0%Q (demands_ p !! s).
Definition delay_of (rnd : Q -> Q) (g : GraphStorage.t) (l s : nat) : Q :=
  match PerfectHashStore.items_ (GraphStorage.link_store_ g) !! l with Some link => link_cost rnd link | None => 0%Q end.

(** The flows that carry the demands, and paths that do. *)
Notation flows_of caps g p := (carries_all caps g (sources p) (source p) (λ _, sink_ p)).
Notation paths_carry caps g p := (carries caps g (λ s, s) (λ _, sink_ p) (demand_of p)).

Lemma elem_of_sources p s : s ∈ sources p <-> is_Some (demands_ p !! s).
Proof.
  unfold sources. rewrite list_elem_of_fmap. split.
  - intros ([s' d] & -> & Hin%elem_of_items). eauto.
  - intros [d Hd]. exists (s, d). split; [done|]. by apply elem_of_items.
Qed.

Section min_delay.
Context (rnd : Q -> Q) `{!Rounding rnd} (k : nat) (Hk : k <= 60) (caps : gmap nat Q) (g : GraphStorage.t) (p : t).
Hypothesis Hp : network_problem k caps g p.

Lemma source_of s n : s ∈ sources p -> source p s n = if n =? s then Some (demand_of p s) else None.
Proof using Type. intros [d Hd]%elem_of_sources. unfold source, demand_of. rewrite Hd. by destruct (n =? s). Qed.

Lemma source_linked s : s ∈ sources p -> exists l, is_Some (caps !! l) /\ (src_of g l = Some s \/ dst_of g l = Some s).
Proof using Hp. intros [d Hd]%elem_of_sources. by eapply np_linked. Qed.

Lemma source_amount s : s ∈ sources p -> (0 < demand_of p s)%Q /\ whole k (demand_of p s) /\ s <> sink_ p.
Proof using Hp. intros [d Hd]%elem_of_sources. unfold demand_of. rewrite Hd. by eapply np_demands. Qed.

Lemma delay_nonneg l s : l ∈ (items caps).*1 -> (0 <= delay_of rnd g l s)%Q.
Proof using All.
  intros Hl. unfold delay_of. destruct (_ !! l) as [link|] eqn:Hlink; [|done]. pose proof (np_delay _ _ _ _ Hp l link Hl Hlink) as Hd. unfold link_cost.
  assert (H0 : (rnd 0 == 0)%Q) by (apply (on_grid_exact rnd 0 0 0); [unfold on_grid; ring|lia|lia]). rewrite <-H0. apply rnd_mono.
  unfold Qdiv. apply Qmult_le_0_compat; [|done]. by rewrite <-(Zle_Qle 0).
Qed.

(** The program of [GetShortestPaths]. *)
Lemma min_delay_program :
  exists q m, program rnd p = Ok (q, m) /\ cost_program caps g (sources p) (source p) (λ _, sink_ p) (delay_of rnd g) q m.
Proof using All.
  destruct (construct_adjacency caps g (base p) (np_base _ _ _ _ Hp)) as (Hg & Hcaps & Hadj & Hexist).
  destruct (cost_program_ok caps g (FlowProblem.adjacency_map_ (base p)) (sources p) (source p) (λ s, s) (λ _, sink_ p) (demand_of p) (delay_of rnd g)
    (NoDup_items_keys _) Hadj Hexist source_of source_linked
    (λ q (link_and_sources : nat * gmap nat nat),
      link ← GraphStorage.GetLink (FlowProblem.graph_ (base p)) link_and_sources.1;
      mfold (λ q (source_and_var : nat * nat), Problem.SetObjectiveCoefficient q source_and_var.2 (link_cost rnd link))
        (items link_and_sources.2) q)) as (b & m & q & Hb & Hcosts & Hq).
  { intros q l vs Hl _. cbn [fst snd]. destruct (proj1 (Forall_forall _ _) Hexist l Hl) as [link Hlink].
    rewrite Hg. unfold GraphStorage.GetLink. rewrite (proj2 (PerfectHashStore.GetItemOrDie_Ok _ _ _) Hlink), bind_Ok_l.
    unfold delay_of. by rewrite Hlink. }
  unfold build in Hb. apply bind_Ok in Hb as ([b0 m0] & Hv & Hb). apply bind_Ok in Hb as (b1 & Hc & Hb). injection Hb as -> ->.
  unfold program, link_variables, AddFlowConservationConstraints, set_costs. rewrite Hcaps, Hv, bind_Ok_l, Hc, bind_Ok_l, Hcosts, bind_Ok_l. eauto.
Qed.

(** A round of [RecoverPaths]. *)
Lemma paths_of_step fuel m solution (sd : nat * Q) fs r st :
  sd ∈ items (demands_ p) -> link_flows m solution sd.1 = Ok fs ->
  Recover.RecoverPathsRecursive rnd (FlowProblem.adjacency_map_ (base p)) g (sink_ p) (demand_of p sd.1) fuel sd.1 (demand_of p sd.1) (Recover.mk fs [] ∅ []) = Ok (r, st) ->
  close_to rnd (total_of rnd (Recover.out st)) (demand_of p sd.1) = true -> paths_of rnd fuel p m solution sd.1 sd.2 = Ok (Recover.out st).
Proof using Hp.
  destruct sd as [s d]. intros Hin%elem_of_items Hfs. destruct (construct_adjacency caps g (base p) (np_base _ _ _ _ Hp)) as (Hg & _).
  cbn [fst snd] in *. unfold demand_of. rewrite Hin. cbn [default from_option Datatypes.id]. intros Hrec Hclose. unfold paths_of. rewrite Hfs, bind_Ok_l.
  destruct (np_demands _ _ _ _ Hp s d Hin) as [Hpos _]. assert (Hvol : Qle_bool d 0 = false) by (apply not_true_iff_false; rewrite Qle_bool_iff; lra).
  rewrite Hvol, Hg. cbn [negb]. rewrite Hrec, bind_Ok_l, Hclose. done.
Qed.
End min_delay.

(** [GetShortestPaths] finds paths that carry every demand, when the solution of
    the optimizer has amounts that are multiples of a power of two that doubles
    hold and no flow around cycles: it returns nothing exactly when the
    capacities do not admit the demands; otherwise every source gets walks to
    the sink without repeated links that carry its demand together, the paths
    of all sources fit the capacities, and their total delay is at most that of
    any flow when the optimizer reports an optimum.  The depth of the recursion
    is the number of levels of the flow. *)
Theorem GetShortestPaths_carries_demands rnd `{!Rounding rnd} k caps g p solve rank fuel :
  k <= 60 -> network_problem k caps g p ->
  (forall q m, program rnd p = Ok (q, m) -> solves q (solve q) /\
     (Solution.found (solve q) = true -> good_flows caps g (sources p) k rank (flow_of m (Solution.assignment (solve q))))) ->
  (forall s, s ∈ sources p -> rank s s < fuel) ->
  exists q m r, program rnd p = Ok (q, m) /\ GetShortestPaths rnd solve fuel p = Ok r /\
    if Solution.found (solve q) then
      (forall s, s ∈ sources p -> paths_carry caps g p s (paths_for r s)) /\
      (forall l cap, caps !! l = Some cap -> (sum_of (λ s, load l (paths_for r s)) (sources p) <= cap)%Q) /\
      (Solution.type (solve q) = OPTIMAL -> forall f, flows_of caps g p f ->
         (paths_cost (sources p) (delay_of rnd g) r <= flow_cost (items caps) (sources p) (delay_of rnd g) f)%Q)
    else r = ∅ /\ forall f, ~ flows_of caps g p f.
Proof.
  intros Hk Hp Hsolve Hfuel. destruct (construct_adjacency caps g (base p) (np_base _ _ _ _ Hp)) as (Hg & Hcaps & Hadj & Hexist).
  destruct (min_delay_program rnd k Hk caps g p Hp) as (q & m & Hprog & Hq). destruct (Hsolve q m Hprog) as [Hsol Hgood].
  pose proof (recovered_paths caps g (FlowProblem.adjacency_map_ (base p)) (sources p) (source p) (λ s, s) (λ _, sink_ p) (demand_of p) (delay_of rnd g)
    (NoDup_items_keys _) Hadj Hexist (source_of p) (source_linked k caps g p Hp) (λ l s Hl _, delay_nonneg rnd k Hk caps g p Hp l s Hl) rnd k Hk
    (np_delays _ _ _ _ Hp) (source_amount k caps g p Hp) q m (solve q) rank fuel
    (λ src_index_and_demand : nat * Q, paths_of rnd fuel p m (solve q) src_index_and_demand.1 src_index_and_demand.2) fst (items (demands_ p))
    Hq Hsol Hgood Hfuel (NoDup_items_keys _)) as H.
  exists q, m. unfold GetShortestPaths. rewrite Hprog, bind_Ok_l. destruct (Solution.found (solve q)).
  - destruct H as (r & Hr & Hcar & Hfit & Hle & Hbest); [done|by apply (paths_of_step rnd k caps g p Hp)|].
    exists r. split_and!; [done|exact Hr|done|done|]. intros Hopt f Hf. eapply Qle_trans; [exact Hle|by apply Hbest].
  - exists ∅. split_and!; [done..|]. apply H; [done|by apply (paths_of_step rnd k caps g p Hp)].
Qed.

(** ** Examples *)

(** The demand of 3 over the link of capacity 5. *)
Definition one_sink : t :=
  match construct one_capacity 1 one_link ≫= (λ p, AddDemand p 0 3) with
  | Ok p => p
  | Fail _ => mk (FlowProblem.mk one_link ∅ ∅) 1 ∅
  end.

Lemma one_demands s d : demands_ one_sink !! s = Some d -> s = 0 /\ d = 3%Q.
Proof.
  assert (Hd : demands_ one_sink = {[0 := 3%Q]}) by (vm_compute; reflexivity). rewrite Hd. intros [<- <-]%lookup_singleton_Some. done.
Qed.

Lemma one_network : network_problem 0 one_capacity one_link one_sink.
Proof.
  assert (Hw : whole 0 3) by (exists 3%Z; split; [done|lia]). split; rewrite ?one_links.
  - vm_compute. reflexivity.
  - intros s d [-> ->]%one_demands. exists 0. split; [by eexists|by left].
  - intros s d [-> ->]%one_demands. split_and!; [done|exact Hw|done].
  - rewrite <-one_links. apply one_delays.
  - intros l link ->%list_elem_of_singleton Hl. vm_compute in Hl. injection Hl as <-. done.
Qed.

Lemma GetShortestPaths_carries_demands_witness :
  exists q m r, program Qred one_sink = Ok (q, m) /\ GetShortestPaths Qred (one_solution 3) 2 one_sink = Ok r /\
    if Solution.found (one_solution 3 q) then
      (forall s, s ∈ sources one_sink -> paths_carry one_capacity one_link one_sink s (paths_for r s)) /\
      (forall l cap, one_capacity !! l = Some cap -> (sum_of (λ s, load l (paths_for r s)) (sources one_sink) <= cap)%Q) /\
      (Solution.type (one_solution 3 q) = OPTIMAL -> forall f, flows_of one_capacity one_link one_sink f ->
         (paths_cost (sources one_sink) (delay_of Qred one_link) r <= flow_cost (items one_capacity) (sources one_sink) (delay_of Qred one_link) f)%Q)
    else r = ∅ /\ forall f, ~ flows_of one_capacity one_link one_sink f.
Proof.
  apply (GetShortestPaths_carries_demands Qred 0 one_capacity one_link one_sink (one_solution 3) (λ _ n, 1 - n) 2).
  - lia.
  - exact one_network.
  - intros q m Hq. vm_compute in Hq. injection Hq as <- <-. split.
    + eapply (one_solves_best 5 3 3); [by repeat split|reflexivity|split; lra|]. cbn [as_good Problem.direction]. intros y Hy. nra.
    + intros _. assert (Hs : sources one_sink = [0]) by (vm_compute; reflexivity). split; rewrite one_links, Hs.
      * intros l s ->%list_elem_of_singleton ->%list_elem_of_singleton. exists 3%Z. split; [vm_compute; reflexivity|lia].
      * intros l s ->%list_elem_of_singleton ->%list_elem_of_singleton _. exists 0, 1. vm_compute. split_and!; [reflexivity..|constructor].
  - intros s Hs. lia.
Defined.

(** A network in which flow can go around: from A to B, from B to C, from C
    back to B and from C to D. *)
Definition cycle_links : list GraphLinkBase :=
  [mkGraphLinkBase "A" "B" 1%Z 1%Z 100%Z 1%Z; mkGraphLinkBase "B" "C" 2%Z 1%Z 100%Z 1%Z;
   mkGraphLinkBase "C" "B" 2%Z 2%Z 100%Z 1%Z; mkGraphLinkBase "C" "D" 3%Z 1%Z 100%Z 1%Z].
Definition cycle_graph : GraphStorage.t :=
  match GraphStorage.construct (GraphBuilder.mk false cycle_links) [] with Ok g => g | Fail _ => GraphStorage.init [] end.
Definition cycle_flows : gmap nat Q := list_to_map [(0, 1%Q); (1, 2%Q); (2, 1%Q); (3, 1%Q)].

(** A flow of 1 from A to D together with a flow of 1 around the cycle: a
    neighbour that has been visited is left out without taking its link from
    the path, so that the path that is recovered contains the link back from C
    to B and is not a walk. *)
Theorem visited_neighbour_breaks_path :
  match FlowProblem.construct cycle_flows cycle_graph with
  | Ok fp =>
      match Recover.RecoverPathsRecursive Qred (FlowProblem.adjacency_map_ fp) cycle_graph 3 1 4 0 1 (Recover.mk cycle_flows [] ∅ []) with
      | Ok (_, st) => (λ fp, Walk.links_ (path fp)) <$> Recover.out st = [[0; 1; 2; 3]]
      | Fail _ => False
      end
  | Fail _ => False
  end.
Proof. vm_compute. reflexivity. Qed.
