(* ===== verification/MinMax.v ===== *)
(** Model of the rest of the single-commodity problems of
    [src/src/lp/mc_flow.cc]: the recovery of paths by a problem with a single
    sink for each destination, [GetMaxFlow] with paths, and [MinMaxProblem],
    which spreads the demands over the links. *)

From Stdlib Require Import Qabs.
From S2P Require Import Prelude OrderedMap PerfectHash Graph Rational LinearProgram FlowProblem FlowOptima DemandScaling FlowPaths FlowRecovery.

Import SingleCommodityFlowProblem.

(** ** Paths by destination *)
Module ByDestination.
Section ops.
Context (rnd : Q -> Q) (solve : Problem.t -> Solution.t) (fuel : nat).

(** The links that carry flow to the destination, and what leaves the nodes. *)
Record gathered := mk { capacities_for_destination : gmap nat Q; flow_exiting_sources : gmap nat Q }.

Definition add_flow (node : nat) (q : Q) (m : gmap nat Q) : gmap nat Q := <[node := rnd (default 0 (m !! node) + q)%Q]> m.

Definition gather (g : GraphStorage.t) (solution : Solution.t) (dst_index : nat) (acc : gathered) (link_and_variables : nat * gmap nat nat)
  : outcome gathered :=
  let link_index := link_and_variables.1 in
  link ← GraphStorage.GetLink g link_index;
  var ← value_or_die link_and_variables.2 dst_index;
  flow_over_link ← Solution.VariableValue solution var;
  if Qeq_bool flow_over_link 0 then Ok acc
  else
    Ok (mk (<[link_index := flow_over_link]> (capacities_for_destination acc))
           (add_flow (dst link) (- flow_over_link) (add_flow (src link) flow_over_link (flow_exiting_sources acc)))).

(** The demands of the problem of a destination. *)
Definition sub_demands (acc : gathered) (loads : list SrcAndLoad) (p : SingleCommoditySingleSinkFlowProblem.t)
  : outcome SingleCommoditySingleSinkFlowProblem.t :=
  mfold (λ p (src_and_load : SrcAndLoad),
      flow_out ← value_or_die (flow_exiting_sources acc) src_and_load.1;
      let demand := if Qeq_bool src_and_load.2 0 then flow_out else src_and_load.2 in
      SingleCommoditySingleSinkFlowProblem.AddDemand p src_and_load.1 demand) loads p.

Definition paths_to (p : t) (m : VarMap nat) (solution : Solution.t) (out : gmap (nat * nat) (list FlowAndPath)) (dst_and_srcs : nat * list SrcAndLoad)
  : outcome (gmap (nat * nat) (list FlowAndPath)) :=
  let dst_index := dst_and_srcs.1 in
  acc ← mfold (gather (FlowProblem.graph_ (base p)) solution dst_index) (items m) (mk ∅ ∅);
  sub_problem ← SingleCommoditySingleSinkFlowProblem.construct (capacities_for_destination acc) dst_index (FlowProblem.graph_ (base p));
  sub_problem ← sub_demands acc dst_and_srcs.2 sub_problem;
  paths_in_sub_problem ← SingleCommoditySingleSinkFlowProblem.GetShortestPaths rnd solve fuel sub_problem;
  _ ← check (negb (length (items paths_in_sub_problem) =? 0));
  Ok (fold_left (λ out (src_and_paths : nat * list FlowAndPath), <[(src_and_paths.1, dst_index) := src_and_paths.2]> out)
        (items paths_in_sub_problem) out).

Definition RecoverPathsFromSolution (p : t) (m : VarMap nat) (solution : Solution.t) : outcome (gmap (nat * nat) (list FlowAndPath)) :=
  mfold (paths_to p m solution) (items (demands_ p)) ∅.

(** [GetMaxFlow] when the caller asks for paths. *)
Definition GetMaxFlow (p : t) : outcome (option (Q * gmap (nat * nat) (list FlowAndPath))) :=
  '(q, m) ← MaxFlow.program p;
  let solution := solve q in
  if Solution.found solution then
    paths ← RecoverPathsFromSolution p m solution; Ok (Some (Solution.ObjectiveValue solution, paths))
  else Ok None.
End ops.
End ByDestination.

(** ** MinMaxProblem *)
Module MinMaxProblem.
Section ops.
Context (rnd : Q -> Q).

(** [link->bandwidth().Mbps()]. *)
Definition link_capacity (link : GraphLink) : Q := rnd (rnd (inject_Z (bandwidth (Graph.base link)) / 1000) / 1000)%Q.

Definition set_coefficient (b : building) (v : nat) (q : Q) : outcome building :=
  p ← Problem.SetObjectiveCoefficient (problem b) v q; Ok (mkBuilding p (problem_matrix b)).

(** The coefficient of the utilization of a link in the objective. *)
Definition utilization_weight (also_minimize_delay : bool) (link : GraphLink) : Q :=
  let link_weight := link_cost rnd link in
  if also_minimize_delay then rnd (link_weight * link_capacity link) else (- link_weight)%Q.

(** The utilization of one link.  The coefficient for a link without capacity
    is infinite, for which linear programs have no meaning. *)
Definition add_utilization (also_minimize_delay : bool) (g : GraphStorage.t) (max_utilization_var : nat) (b : building)
    (link_and_variables : nat * gmap nat nat) : outcome building :=
  link ← GraphStorage.GetLink g link_and_variables.1;
  '(b, utilization_var_constraint) ← new_constraint b NegInf (Fin 0);
  let b := emplace b (mkElement utilization_var_constraint max_utilization_var (-(1))) in
  '(b, link_utilization_var) ← new_variable b;
  let b := emplace b (mkElement utilization_var_constraint link_utilization_var 1) in
  '(b, constraint) ← new_constraint b (Fin 0) (Fin 0);
  let b := emplace b (mkElement constraint link_utilization_var (-(1))) in
  _ ← (if Qeq_bool (link_capacity link) 0 then Fail Undefined else Ok tt);
  let b := fold_left (λ b (dst_and_variable : nat * nat), emplace b (mkElement constraint dst_and_variable.2 (rnd (1 / link_capacity link))))
             (items link_and_variables.2) b in
  set_coefficient b link_utilization_var (utilization_weight also_minimize_delay link).

(** The program of [Solve], its variables and the one of the maximum. *)
Definition program (also_minimize_delay : bool) (p : t) : outcome (Problem.t * VarMap nat * nat) :=
  '(b, m) ← start p MINIMIZE false;
  '(b, max_utilization_var) ← new_variable b;
  b ← set_coefficient b max_utilization_var 100000;
  b ← mfold (add_utilization also_minimize_delay (FlowProblem.graph_ (base p)) max_utilization_var) (items m) b;
  Ok (finish b, m, max_utilization_var).

Definition Solve (solve : Problem.t -> Solution.t) (fuel : nat) (also_minimize_delay : bool) (p : t) (want_paths : bool)
  : outcome (Q * option (gmap (nat * nat) (list FlowAndPath))) :=
  '(q, m, max_utilization_var) ← program also_minimize_delay p;
  let solution := solve q in
  _ ← check (Solution.found solution);
  paths ← (if want_paths then paths ← ByDestination.RecoverPathsFromSolution rnd solve fuel p m solution; Ok (Some paths) else Ok None);
  max_utilization ← Solution.VariableValue solution max_utilization_var;
  Ok (max_utilization, paths).
End ops.
End MinMaxProblem.

(** ** What the program of [MinMaxProblem] means *)

Lemma linear_objective_snoc cs q x : (linear_objective (cs ++ [q]) x == linear_objective cs x + q * x (length cs))%Q.
Proof.
  unfold linear_objective. rewrite length_app. cbn [length]. rewrite seq_app, sum_of_app. cbn [Nat.add seq]. rewrite sum_of_cons, sum_of_nil.
  rewrite lookup_app_r, Nat.sub_diag by lia. cbn [lookup list_lookup default from_option Datatypes.id].
  apply Qplus_comp; [|lra]. apply sum_of_ext. intros v Hv%elem_of_seq. by rewrite lookup_app_l by lia.
Qed.

Lemma emplace_fold {A} (e : A -> ProblemMatrixElement) l b : fold_left (λ b a, emplace b (e a)) l b = extend b 0 [] (e <$> l).
Proof.
  revert b. induction l as [|a l IH]; intros b; cbn [fold_left fmap list_fmap]; [by rewrite extend_nil|].
  rewrite IH, emplace_extend, extend_extend. done.
Qed.

Section utilization.
Context (rnd : Q -> Q) (also_minimize_delay : bool) (g : GraphStorage.t).

(** The factor from the flow over a link to its utilization. *)
Definition per_capacity (link : GraphLink) : Q := rnd (1 / MinMaxProblem.link_capacity rnd link)%Q.

(** [b'] has one more variable, for the utilization of the link, with the
    coefficient [w] in the objective. *)
Record utilizes (mv : nat) (link : GraphLink) (vs : gmap nat nat) (b b' : building) : Prop := {
  ut_vars : num_vars b' = S (num_vars b);
  ut_matrix : matrix_ok b';
  ut_direction : Problem.direction (problem b') = Problem.direction (problem b);
  ut_offset : Problem.offset (problem b') = Problem.offset (problem b);
  ut_objective : Problem.objective (problem b') = Problem.objective (problem b) ++ [MinMaxProblem.utilization_weight rnd also_minimize_delay link];
  ut_sat : forall x, sat b' x <-> sat b x /\ (0 <= x (num_vars b))%Q /\ (x (num_vars b) <= x mv)%Q /\
    (x (num_vars b) == per_capacity link * sum_of (λ kv : nat * nat, x kv.2) (items vs))%Q
}.

(** The entries of the two rows of a link. *)
Definition utilization_entries (link : GraphLink) (mv : nat) (vs : gmap nat nat) (b : building) : list ProblemMatrixElement :=
  [mkElement (num_rows b) mv (-(1)); mkElement (num_rows b) (num_vars b) 1; mkElement (num_rows b + 1) (num_vars b) (-(1))] ++
  ((λ kv : nat * nat, mkElement (num_rows b + 1) kv.2 (per_capacity link)) <$> items vs).

Lemma utilization_rows link mv vs b x :
  let es := utilization_entries link mv vs b in
  (row_value es (num_rows b) x == x (num_vars b) - x mv)%Q /\
  (row_value es (num_rows b + 1) x == per_capacity link * sum_of (λ kv : nat * nat, x kv.2) (items vs) - x (num_vars b))%Q.
Proof.
  intros es. unfold es, utilization_entries. rewrite !row_value_app. split.
  - rewrite (row_value_other (_ <$> _)) by (apply Forall_fmap, Forall_true; cbn; lia). unfold row_value. rewrite !sum_of_cons, sum_of_nil.
    cbn [constraint variable value]. rewrite !decide_True, decide_False by lia. lra.
  - rewrite (row_value_same (items vs) (λ kv : nat * nat, kv.2)). unfold row_value. rewrite !sum_of_cons, sum_of_nil.
    cbn [constraint variable value]. rewrite !decide_False, decide_True by lia. lra.
Qed.

Lemma add_utilization_ok mv l link vs b :
  PerfectHashStore.items_ (GraphStorage.link_store_ g) !! l = Some link -> Qeq_bool (MinMaxProblem.link_capacity rnd link) 0 = false ->
  matrix_ok b -> length (Problem.objective (problem b)) = num_vars b ->
  exists b', MinMaxProblem.add_utilization rnd also_minimize_delay g mv b (l, vs) = Ok b' /\ utilizes mv link vs b b'.
Proof.
  intros Hl Hcap Hmat Hobj. unfold MinMaxProblem.add_utilization. cbn [fst snd].
  unfold GraphStorage.GetLink. rewrite (proj2 (PerfectHashStore.GetItemOrDie_Ok _ _ _) Hl), bind_Ok_l, new_constraint_extend, bind_Ok_l, emplace_extend, extend_extend.
  rewrite new_variable_extend, bind_Ok_l, emplace_extend, !extend_extend, new_constraint_extend, bind_Ok_l, emplace_extend, !extend_extend, Hcap, bind_Ok_l.
  rewrite emplace_fold, extend_extend. rewrite !num_rows_extend, !num_vars_extend. cbn [length app Nat.add]. rewrite ?Nat.add_0_r, ?app_nil_r.
  set (es := _ :: _ :: _ :: _). assert (Hes : es = utilization_entries link mv vs b) by done. clearbody es. subst es.
  unfold MinMaxProblem.set_coefficient, Problem.SetObjectiveCoefficient. cbn [extend problem Problem.objective replicate].
  rewrite (proj2 (vec_at_Ok _ _ 0%Q)), !bind_Ok_l by (rewrite <-Hobj, lookup_app_r, Nat.sub_diag by lia; done).
  eexists. split; [done|]. destruct (utilization_rows link mv vs b (λ _, 0%Q)) as [_ _].
  assert (Hent : Forall (λ e, num_rows b <= constraint e < num_rows b + 2) (utilization_entries link mv vs b)).
  { unfold utilization_entries. repeat (apply Forall_cons; split; [cbn; lia|]). apply Forall_fmap, Forall_true. cbn. lia. }
  split; cbn [problem Problem.vars Problem.direction Problem.offset Problem.objective].
  - rewrite length_app. cbn. lia.
  - exact (proj1 (sat_extend b 1 [(NegInf, Fin 0); (Fin 0, Fin 0)] (utilization_entries link mv vs b) (λ _, 0%Q) Hmat Hent)).
  - done.
  - done.
  - rewrite <-Hobj, insert_app_r_alt, Nat.sub_diag by lia. done.
  - intros x. transitivity (sat (extend b 1 [(NegInf, Fin 0); (Fin 0, Fin 0)] (utilization_entries link mv vs b)) x); [done|].
    destruct (sat_extend b 1 [(NegInf, Fin 0); (Fin 0, Fin 0)] (utilization_entries link mv vs b) x Hmat Hent) as [_ ->].
    destruct (utilization_rows link mv vs b x) as [H0 H1]. cbv zeta in H0, H1. apply and_iff_compat_l. split.
    + intros [Hx Hr]. specialize (Hx 0 ltac:(lia)). rewrite Nat.add_0_r in Hx. split; [done|].
      pose proof (Hr 0 _ eq_refl) as [_ Hr0]. pose proof (Hr 1 _ eq_refl) as [Hr1 Hr1']. rewrite Nat.add_0_r in Hr0. cbn [fst snd at_least at_most] in Hr0, Hr1, Hr1'. cbv zeta in H0, H1. split; lra.
    + intros (Hx & Hle & Heq). split; [intros i Hi; by replace (num_vars b + i) with (num_vars b) by lia|].
      intros [|[|i]] r Hi; simplify_eq/=; [rewrite Nat.add_0_r|]; (split; cbn [fst snd at_least at_most]; [done || lra|lra]).
Qed.
End utilization.

Section min_max.
Context (rnd : Q -> Q) (caps : gmap nat Q) (g : GraphStorage.t) (p0 p : t) (ds : list demand).

Notation links := (items caps).*1.
Notation link_at l := (PerfectHashStore.items_ (GraphStorage.link_store_ g) !! l).

(** Links have a capacity and a delay that is not negative. *)
Definition links_ok : Prop :=
  forall l link, l ∈ links -> link_at l = Some link -> Qeq_bool (MinMaxProblem.link_capacity rnd link) 0 = false /\ (0 <= per_capacity rnd link)%Q /\ (0 <= link_cost rnd link)%Q.

(** The delay of a link, and the utilization of a link by a flow. *)
Definition weight_of (l : nat) : Q := match link_at l with Some link => link_cost rnd link | None => 0%Q end.
Definition utilization (f : nat -> nat -> Q) (l : nat) : Q :=
  match link_at l with Some link => (per_capacity rnd link * sum_of (f l) (destinations p))%Q | None => 0%Q end.
(** The utilization that the variables of a link stand for. *)
Definition used (x : nat -> Q) (lv : nat * gmap nat nat) : Q :=
  match link_at lv.1 with Some link => (per_capacity rnd link * sum_of (λ kv : nat * nat, x kv.2) (items lv.2))%Q | None => 0%Q end.

(** The program after some links: the maximum is the variable [mv], and the
    utilizations follow it. *)
Record spread (b : building) (done_ : list (nat * gmap nat nat)) (b' : building) : Prop := {
  sp_vars : num_vars b' = S (num_vars b) + length done_;
  sp_matrix : matrix_ok b';
  sp_length : length (Problem.objective (problem b')) = num_vars b';
  sp_direction : Problem.direction (problem b') = Problem.direction (problem b);
  sp_offset : Problem.offset (problem b') = Problem.offset (problem b);
  sp_sat : forall x, sat b' x <-> sat b x /\ (0 <= x (num_vars b))%Q /\
    forall i lv, done_ !! i = Some lv -> (0 <= x (S (num_vars b) + i)%nat)%Q /\ (x (S (num_vars b) + i)%nat <= x (num_vars b))%Q /\ (x (S (num_vars b) + i)%nat == used x lv)%Q;
  sp_objective : forall x, (linear_objective (Problem.objective (problem b')) x ==
    100000 * x (num_vars b) - sum_of (λ i, default 0 ((λ lv, weight_of lv.1) <$> done_ !! i) * x (S (num_vars b) + i)%nat) (seq 0 (length done_)))%Q
}.

Lemma spread_step b done_ b' l vs link :
  link_at l = Some link -> Qeq_bool (MinMaxProblem.link_capacity rnd link) 0 = false -> spread b done_ b' ->
  exists b'', MinMaxProblem.add_utilization rnd false g (num_vars b) b' (l, vs) = Ok b'' /\ spread b (done_ ++ [(l, vs)]) b''.
Proof.
  intros Hl Hc []. destruct (add_utilization_ok rnd false g (num_vars b) l link vs b' Hl Hc sp_matrix0 sp_length0) as (b'' & -> & []).
  exists b''. split; [done|]. split; rewrite ?length_app; cbn [length].
  - lia.
  - done.
  - rewrite ut_objective0, length_app. cbn [length]. lia.
  - by rewrite ut_direction0.
  - by rewrite ut_offset0.
  - intros x. rewrite ut_sat0, sp_sat0, sp_vars0. assert (Hu : (used x (l, vs) == per_capacity rnd link * sum_of (λ kv : nat * nat, x kv.2) (items vs))%Q).
    { unfold used. cbn [fst snd]. by rewrite Hl. } split.
    + intros ((Hs & H0 & Hd) & Hnew). split_and!; [done..|]. intros i lv Hi. apply lookup_snoc_Some in Hi as [[_ Hi]|[-> <-]]; [by apply Hd|by rewrite Hu].
    + intros (Hs & H0 & Hd). split_and!; [done..| | | |].
      * intros i lv Hi. apply Hd. by apply lookup_app_l_Some.
      * eapply (Hd (length done_)). rewrite lookup_app_r, Nat.sub_diag by lia. done.
      * eapply (Hd (length done_)). rewrite lookup_app_r, Nat.sub_diag by lia. done.
      * rewrite <-Hu. eapply (Hd (length done_)). rewrite lookup_app_r, Nat.sub_diag by lia. done.
  - intros x. rewrite ut_objective0, linear_objective_snoc, sp_objective0, sp_length0, sp_vars0, seq_app, sum_of_app. cbn [Nat.add seq].
    rewrite sum_of_cons, sum_of_nil, lookup_app_r, Nat.sub_diag by lia. cbn [lookup list_lookup fmap option_fmap option_map default from_option Datatypes.id fst].
    rewrite (sum_of_ext (λ i, default 0 ((λ lv, weight_of lv.1) <$> (done_ ++ [(l, vs)]) !! i) * x (S (num_vars b) + i)%nat)%Q
               (λ i, default 0 ((λ lv, weight_of lv.1) <$> done_ !! i) * x (S (num_vars b) + i)%nat)%Q) by (intros i Hi%elem_of_seq; by rewrite lookup_app_l by lia).
    unfold weight_of at 3. rewrite Hl. cbn [Nat.add]. unfold MinMaxProblem.utilization_weight. lra.
Qed.

Hypothesis Hp0 : construct caps g = Ok p0.
Hypothesis Hp : add_demands ds p0 = Ok p.
Hypothesis Hlinked : sources_linked caps g ds.
Hypothesis Hlinks : links_ok.

(** The program of [Solve]. *)
Lemma min_max_program :
  exists b m b', MinMaxProblem.program rnd false p = Ok (finish b', m, num_vars b) /\
    encodes g (items caps) (destinations p) (source p) (λ d, d) false MINIMIZE b m /\
    (forall x, sat b x <-> routes caps g false ds (flow_of m x)) /\
    (forall l vs, m !! l = Some vs -> l ∈ links /\ forall d, is_Some (vs !! d) -> d ∈ destinations p) /\
    spread b (items m) b' /\ num_vars b = length (items caps) * length (destinations p) /\
    Problem.direction (problem b) = MINIMIZE /\ Problem.offset (problem b) = 0%Q.
Proof using All.
  destruct (start_encodes caps g p0 ds p MINIMIZE false Hp0 Hp Hlinked) as (b & m & Hs & Hen & Hsat).
  destruct (add_demands_holds caps g p0 ds p Hp0 Hp) as [Hc Hh]. destruct (construct_adjacency caps g (base p) Hc) as (Hg & Hcaps & Hadj & Hexist).
  assert (Honly : forall l vs, m !! l = Some vs -> l ∈ links /\ forall d, is_Some (vs !! d) -> d ∈ destinations p).
  { pose proof Hs as Hs'. unfold start in Hs'. apply bind_Ok in Hs' as ([b1 m1] & H1 & Hs'). apply bind_Ok in Hs' as (b2 & _ & Hs'). injection Hs' as _ ->.
    unfold link_variables in H1. rewrite Hcaps in H1. by eapply GetLinkToVariableMap_only. }
  destruct (en_extend _ _ _ _ _ _ _ _ _ Hen) as (rs & es & Hext). pose proof (en_matrix _ _ _ _ _ _ _ _ _ Hen) as Hmat.
  assert (Hnv : num_vars b = length (items caps) * length (destinations p)) by (rewrite Hext, num_vars_extend; done).
  assert (Hobj : Problem.objective (problem b) = replicate (num_vars b) 0%Q) by (rewrite Hnv, Hext; done).
  unfold MinMaxProblem.program. rewrite Hs, bind_Ok_l, new_variable_extend, bind_Ok_l. unfold MinMaxProblem.set_coefficient, Problem.SetObjectiveCoefficient.
  cbn [extend problem Problem.objective replicate].
  rewrite (proj2 (vec_at_Ok _ _ 0%Q)), !bind_Ok_l by (rewrite Hobj, lookup_app_r, length_replicate, Nat.sub_diag by (rewrite ?length_replicate; lia); done).
  rewrite Hg. set (b1 := mkBuilding _ _). assert (Hb1 : spread b [] b1).
  { destruct (sat_extend b 1 [] [] (λ _, 0%Q) Hmat) as [Hm1 _]; [constructor|]. unfold b1. split; cbn [problem Problem.vars Problem.direction Problem.offset Problem.objective length].
    - rewrite length_app. cbn. lia.
    - exact Hm1.
    - rewrite length_insert, !length_app, Hobj, length_replicate. done.
    - done.
    - done.
    - intros x. transitivity (sat (extend b 1 [] []) x); [done|]. destruct (sat_extend b 1 [] [] x Hmat) as [_ ->]; [constructor|].
      split; [intros (Hx & Hn & _); specialize (Hn 0 ltac:(lia)); rewrite Nat.add_0_r in Hn; split_and!; [done..|by intros i lv Hi]|].
      intros (Hx & Hn & _). split_and!; [done| |by intros i r Hi]. intros i Hi. by replace (num_vars b + i) with (num_vars b) by lia.
    - intros x. rewrite linear_objective_insert by (rewrite length_app, Hobj, length_replicate; cbn; lia).
      rewrite linear_objective_snoc, Hobj, linear_objective_zero, lookup_app_r, length_replicate, Nat.sub_diag by (rewrite length_replicate; lia). cbn. lra. }
  destruct (mfold_inv (spread b) (MinMaxProblem.add_utilization rnd false g (num_vars b)) (items m) b1 Hb1) as (b' & -> & Hsp).
  - intros done_ [l vs] b2 [rest Hpre] H2. assert (Hl : m !! l = Some vs) by (apply elem_of_items; rewrite Hpre; set_solver).
    destruct (Honly l vs Hl) as [Hin _]. destruct (proj1 (Forall_forall _ _) Hexist l Hin) as [link Hlink]. destruct (Hlinks l link Hin Hlink) as [Hcl _].
    by eapply spread_step.
  - rewrite bind_Ok_l. exists b, m, b'. split_and!; [done..| |]; by rewrite Hext.
Qed.

(** The variables of a link are the flows over it. *)
Lemma used_utilization b m x lv :
  encodes g (items caps) (destinations p) (source p) (λ d, d) false MINIMIZE b m ->
  (forall l vs, m !! l = Some vs -> l ∈ links /\ forall d, is_Some (vs !! d) -> d ∈ destinations p) ->
  lv ∈ items m -> (used x lv == utilization (flow_of m x) lv.1)%Q.
Proof using Type.
  intros Hen Honly Hin. destruct lv as [l vs]. apply elem_of_items in Hin. unfold used, utilization. cbn [fst snd].
  destruct (PerfectHashStore.items_ _ !! l) as [link|]; [|done]. apply Qmult_comp; [done|].
  destruct (Honly l vs Hin) as [Hl Hd]. apply list_elem_of_fmap in Hl as (lc & -> & Hl). apply list_elem_of_lookup in Hl as [i Hi].
  assert (Hval : forall d, d ∈ destinations p -> vs !! d = Some (var_of m lc.1 d)).
  { intros d Hdd. apply list_elem_of_lookup in Hdd as [j Hj]. pose proof (en_vars _ _ _ _ _ _ _ _ _ Hen i lc j d Hi Hj) as Hv.
    unfold var_of. rewrite Hv. unfold GetVar, value_or_die in Hv. rewrite Hin, bind_Ok_l in Hv. destruct (vs !! d); congruence. }
  rewrite (sum_of_ext _ (λ kv : nat * nat, flow_of m x lc.1 kv.1)).
  - rewrite <-(sum_of_fmap fst (λ d, flow_of m x lc.1 d)). apply sum_of_proper, NoDup_Permutation; [apply NoDup_items_keys..|].
    intros d. rewrite list_elem_of_fmap. split.
    + intros ([d' v] & -> & Hdv%elem_of_items). apply Hd. eauto.
    + intros Hdd. exists (d, var_of m lc.1 d). split; [done|]. apply elem_of_items. by apply Hval.
  - intros [d v] Hdv%elem_of_items. unfold flow_of. cbn. rewrite (Hval d) in Hdv by (apply Hd; eauto). by injection Hdv as ->.
Qed.

(** The delays of the links that have variables. *)
Lemma weights_le m :
  (forall l vs, m !! l = Some vs -> l ∈ links /\ forall d : nat, is_Some (vs !! d) -> d ∈ destinations p) ->
  (sum_of (λ lv : nat * gmap nat nat, weight_of lv.1) (items m) <= sum_of weight_of links)%Q.
Proof using Hlinks.
  intros Honly. rewrite <-(sum_of_fmap fst weight_of). assert (Hsub : (items m).*1 ⊆ links).
  { intros l Hl. apply list_elem_of_fmap in Hl as ([l' vs] & -> & Hlv%elem_of_items). by apply (Honly l' vs). }
  rewrite (sum_of_sub weight_of _ links (NoDup_items_keys m) (NoDup_items_keys caps) Hsub). apply sum_of_le. intros l Hl.
  case_decide; [lra|]. unfold weight_of. destruct (PerfectHashStore.items_ _ !! l) as [link|] eqn:Hlink; [|lra]. by apply (Hlinks l link).
Qed.

(** The objective is at least the maximum utilization, up to the delays. *)
Lemma objective_at_least b m b' x :
  spread b (items m) b' -> sat b' x ->
  (forall l vs, m !! l = Some vs -> l ∈ links /\ forall d : nat, is_Some (vs !! d) -> d ∈ destinations p) ->
  ((100000 - sum_of weight_of links) * x (num_vars b) <= linear_objective (Problem.objective (problem b')) x)%Q.
Proof using Hlinks.
  intros Hsp Hx Honly. rewrite (sp_objective _ _ _ Hsp). destruct (proj1 (sp_sat _ _ _ Hsp x) Hx) as (_ & H0 & Hu). pose proof (weights_le m Honly) as Hw.
  assert (Hle : (sum_of (λ i, default 0 ((λ lv, weight_of lv.1) <$> items m !! i) * x (S (num_vars b) + i)%nat) (seq 0 (length (items m))) <=
                 sum_of (λ lv : nat * gmap nat nat, weight_of lv.1) (items m) * x (num_vars b))%Q).
  { rewrite (sum_of_seq (λ lv : nat * gmap nat nat, weight_of lv.1) (λ i, default 0%Q ((λ lv : nat * gmap nat nat, weight_of lv.1) <$> items m !! i)) (items m) 0)
      by (intros i lv Hi; cbn [Nat.add]; by rewrite Hi).
    rewrite Qmult_comm, <-sum_of_scale. apply sum_of_le. intros i Hi%elem_of_seq. destruct (lookup_lt_is_Some_2 (items m) i) as [[l vs] Hlv]; [lia|]. rewrite Hlv.
    cbn [fmap option_fmap option_map default from_option Datatypes.id fst]. destruct (Hu i _ Hlv) as (_ & Hule & _).
    assert (Hwl : (0 <= weight_of l)%Q).
    { unfold weight_of. destruct (PerfectHashStore.items_ _ !! l) as [link|] eqn:Hlink; [|lra]. apply (Hlinks l link); [|done].
      apply (Honly l vs). apply elem_of_items. by eapply list_elem_of_lookup_2. }
    nra. }
  nra.
Qed.

(** A way of routing the demands within a utilization is an assignment. *)
Lemma realize_utilization b m b' f u :
  encodes g (items caps) (destinations p) (source p) (λ d, d) false MINIMIZE b m ->
  (forall x, sat b x <-> routes caps g false ds (flow_of m x)) ->
  (forall l vs, m !! l = Some vs -> l ∈ links /\ forall d, is_Some (vs !! d) -> d ∈ destinations p) ->
  spread b (items m) b' -> num_vars b = length (items caps) * length (destinations p) ->
  routes caps g false ds f -> (0 <= u)%Q -> (forall l, l ∈ links -> (0 <= utilization f l <= u)%Q) ->
  exists y, sat b' y /\ y (num_vars b) = u /\ (linear_objective (Problem.objective (problem b')) y <= 100000 * u)%Q.
Proof using All.
  intros Hen Hsat Honly Hsp Hnv Hf Hu Hutil. destruct (add_demands_holds caps g p0 ds p Hp0 Hp) as [_ Hh].
  destruct (realize g _ _ _ _ _ _ _ _ f Hen) as [x Hx].
  set (y := λ v, if decide (v < num_vars b) then x v else if decide (v = num_vars b) then u
                 else match items m !! (v - S (num_vars b)) with Some lv => utilization f lv.1 | None => 0%Q end).
  assert (Hyf : forall l k, l ∈ links -> k ∈ destinations p -> flow_of m y l k = f l k).
  { intros l k Hl Hkd. rewrite <-(Hx l k Hl Hkd). unfold flow_of, y. rewrite decide_True; [done|].
    apply list_elem_of_fmap in Hl as (lc & -> & Hl). apply list_elem_of_lookup in Hl as [i Hi], Hkd as [j Hj].
    rewrite (var_of_index _ _ m i lc j k (en_vars _ _ _ _ _ _ _ _ _ Hen) Hi Hj), Hnv. apply var_index; by eapply lookup_lt_Some. }
  assert (Hymv : y (num_vars b) = u) by (unfold y; by rewrite decide_False, decide_True by lia).
  assert (Hyi : forall i lv, items m !! i = Some lv -> y (S (num_vars b) + i) = utilization f lv.1).
  { intros i lv Hi. unfold y. rewrite !decide_False by lia. replace (S (num_vars b) + i - S (num_vars b)) with i by lia. by rewrite Hi. }
  assert (Hin : forall i lv, items m !! i = Some lv -> lv.1 ∈ links).
  { intros i [l vs] Hi. apply (Honly l vs), elem_of_items. by eapply list_elem_of_lookup_2. }
  assert (Hsame : forall l, l ∈ links -> (utilization (flow_of m y) l == utilization f l)%Q).
  { intros l Hl. unfold utilization. destruct (PerfectHashStore.items_ _ !! l); [|done]. apply Qmult_comp; [done|]. apply sum_of_ext. intros d Hd. by rewrite Hyf. }
  assert (Hy : sat b' y).
  { apply (sp_sat _ _ _ Hsp). split_and!.
    - apply Hsat. rewrite (routes_is_flow _ _ _ _ p) in Hf |- * by done. eapply is_flow_ext; [|exact Hf]. intros l k Hl Hkd. by rewrite Hyf.
    - by rewrite Hymv.
    - intros i lv Hi. rewrite (Hyi i lv Hi), Hymv. pose proof (Hutil lv.1 (Hin i lv Hi)) as [Hu0 Hule]. split_and!; [done..|].
      rewrite (used_utilization b m y lv Hen Honly); [by rewrite Hsame by (by eapply Hin)|by eapply list_elem_of_lookup_2]. }
  exists y. split_and!; [done..|]. rewrite (sp_objective _ _ _ Hsp), Hymv.
  assert (Hnn : (0 <= sum_of (λ i, default 0 ((λ lv, weight_of lv.1) <$> items m !! i) * y (S (num_vars b) + i)%nat) (seq 0 (length (items m))))%Q); [|lra].
  apply sum_of_nonneg. intros i Hi%elem_of_seq. destruct (lookup_lt_is_Some_2 (items m) i) as [lv Hlv]; [lia|]. rewrite Hlv, (Hyi i lv Hlv).
  cbn [fmap option_fmap option_map default from_option Datatypes.id]. apply Qmult_le_0_compat; [|apply Hutil; by eapply Hin].
  unfold weight_of. destruct (PerfectHashStore.items_ _ !! lv.1) as [link|] eqn:Hlink; [|lra]. apply (Hlinks lv.1 link); [by eapply Hin|done].
Qed.
Lemma utilization_nonneg f : routes caps g false ds f -> forall l, l ∈ links -> (0 <= utilization f l)%Q.
Proof using Hp0 Hp Hlinks.
  intros Hf l Hl. destruct (add_demands_holds caps g p0 ds p Hp0 Hp) as [_ Hh]. unfold utilization.
  destruct (PerfectHashStore.items_ _ !! l) as [link|] eqn:Hlink; [|done]. apply Qmult_le_0_compat; [by apply (Hlinks l link)|].
  apply sum_of_nonneg. intros d (s & v & Hd)%(elem_of_destinations ds p d Hh). eapply (ro_nonneg _ _ _ _ _ Hf); [by apply elem_of_links|done].
Qed.

(** The maximum that a solution reports is a maximum of a flow. *)
Lemma solution_utilization b m b' s :
  encodes g (items caps) (destinations p) (source p) (λ d, d) false MINIMIZE b m ->
  (forall x, sat b x <-> routes caps g false ds (flow_of m x)) ->
  (forall l vs, m !! l = Some vs -> l ∈ links /\ forall d, is_Some (vs !! d) -> d ∈ destinations p) ->
  spread b (items m) b' -> length (Solution.variables_ s) = length (Problem.vars (finish b')) -> feasible (finish b') (Solution.assignment s) ->
  Solution.VariableValue s (num_vars b) = Ok (Solution.assignment s (num_vars b)) /\
  exists f, routes caps g false ds f /\ forall l, is_Some (caps !! l) -> (utilization f l <= Solution.assignment s (num_vars b))%Q.
Proof using Type.
  intros Hen Hsat Honly Hsp Hlen Hfe. split.
  - unfold Solution.VariableValue, Solution.assignment. destruct (lookup_lt_is_Some_2 (Solution.variables_ s) (num_vars b)) as [y Hy].
    + rewrite Hlen. cbn [finish Problem.SetMatrix Problem.vars]. rewrite (sp_vars _ _ _ Hsp). clear. lia.
    + rewrite Hy. by apply vec_at_Ok.
  - destruct (proj1 (sp_sat _ _ _ Hsp _) Hfe) as (Hb & Hu0 & Hu). eexists. split; [by apply Hsat|]. intros l Hlk%elem_of_links.
    destruct (m !! l) as [vs|] eqn:Hvs.
    + assert (Hin : (l, vs) ∈ items m) by (by apply elem_of_items). apply list_elem_of_lookup in Hin as Hi. destruct Hi as [i Hi].
      destruct (Hu i _ Hi) as (_ & Hle & Heq). rewrite (used_utilization b m _ (l, vs) Hen Honly Hin) in Heq. cbn [fst] in Heq. by rewrite <-Heq.
    + assert (Hd : destinations p = []).
      { destruct (destinations p) as [|d dd] eqn:Hdd; [done|]. exfalso. apply list_elem_of_fmap in Hlk as (lc & -> & Hlc). apply list_elem_of_lookup in Hlc as [i Hi].
        pose proof (en_vars _ _ _ _ _ _ _ _ _ Hen i lc 0 d Hi eq_refl) as Hv. unfold GetVar, value_or_die in Hv. by rewrite Hvs in Hv. }
      unfold utilization. rewrite Hd. destruct (PerfectHashStore.items_ _ !! l); [|done]. rewrite sum_of_nil, Qmult_0_r. done.
Qed.
End min_max.

(** C25: [MinMaxProblem::Solve], asked for the utilization only (no paths, and
    [also_minimize_delay] not set), spreads the demands.  For demands whose
    sources have links, links with a capacity that is not zero and delays that
    are not negative and add up to less than 100 seconds, and an optimizer that
    solves its program, it dies exactly when the demands cannot be routed at
    all.  Otherwise there is a way of routing the demands in which no link is
    utilized more than the value it returns, and, when the optimizer reports an
    optimum, every way of routing the demands has a maximum utilization of at
    least [1 - W / 100000] times the returned value, where [W] is the sum of
    the delays of the links in milliseconds.  ([slow_link_unbounded]
    shows what happens from 100 seconds on.) *)
Theorem MinMax_Solve_near_minimum rnd caps g p0 p ds solve fuel :
  construct caps g = Ok p0 -> add_demands ds p0 = Ok p -> sources_linked caps g ds -> links_ok rnd caps g ->
  (sum_of (weight_of rnd g) (items caps).*1 < 100000)%Q ->
  (forall q m v, MinMaxProblem.program rnd false p = Ok (q, m, v) -> solves q (solve q)) ->
  exists q m v, MinMaxProblem.program rnd false p = Ok (q, m, v) /\
    if Solution.found (solve q) then
      exists u, MinMaxProblem.Solve rnd solve fuel false p false = Ok (u, None) /\
        (exists f, routes caps g false ds f /\ forall l, is_Some (caps !! l) -> (utilization rnd g p f l <= u)%Q) /\
        (Solution.type (solve q) = OPTIMAL -> forall f u', routes caps g false ds f -> (0 <= u')%Q ->
           (forall l, is_Some (caps !! l) -> (utilization rnd g p f l <= u')%Q) ->
           ((100000 - sum_of (weight_of rnd g) (items caps).*1) * u <= 100000 * u')%Q)
    else MinMaxProblem.Solve rnd solve fuel false p false = Fail CheckFailed /\ forall f, ~ routes caps g false ds f.
Proof.
  intros H0 H Hl Hok Hw Hsolve. destruct (min_max_program rnd caps g p0 p ds H0 H Hl Hok) as (b & m & b' & Hprog & Hen & Hsat & Honly & Hsp & Hnv & Hdir & Hoff).
  specialize (Hsolve _ _ _ Hprog). exists (finish b'), m, (num_vars b). split; [done|]. destruct (add_demands_holds caps g p0 ds p H0 H) as [_ Hh].
  assert (Hobj : forall x, (objective_value (finish b') x == linear_objective (Problem.objective (problem b')) x)%Q).
  { intros x. unfold objective_value. cbn [finish Problem.SetMatrix Problem.objective Problem.offset]. rewrite (sp_offset _ _ _ _ _ Hsp), Hoff. lra. }
  assert (Hdir' : Problem.direction (finish b') = MINIMIZE) by (cbn; by rewrite (sp_direction _ _ _ _ _ Hsp)).
  pose proof (utilization_nonneg rnd caps g p0 p ds H0 H Hok) as Hpos.
  assert (Hreal : forall f u, routes caps g false ds f -> (0 <= u)%Q -> (forall l, l ∈ (items caps).*1 -> (utilization rnd g p f l <= u)%Q) ->
    exists y, feasible (finish b') y /\ (objective_value (finish b') y <= 100000 * u)%Q).
  { intros f u Hf Hu Hle. destruct (realize_utilization rnd caps g p0 p ds H0 H Hl Hok b m b' f u Hen Hsat Honly Hsp Hnv Hf Hu) as (y & Hy & _ & Hyo).
    - intros l Hlk. split; [by apply Hpos|by apply Hle].
    - exists y. split; [done|]. by rewrite Hobj. }
  assert (Hlow : forall x, feasible (finish b') x -> ((100000 - sum_of (weight_of rnd g) (items caps).*1) * x (num_vars b) <= objective_value (finish b') x)%Q).
  { intros x Hx. rewrite Hobj. by eapply (objective_at_least rnd caps g p Hok b m b' x Hsp). }
  unfold MinMaxProblem.Solve, Solution.found. rewrite Hprog, bind_Ok_l. unfold solves in Hsolve. rewrite Hdir' in Hsolve. cbn [as_good] in Hsolve.
  pose proof (solution_utilization rnd caps g p ds b m b' (solve (finish b')) Hen Hsat Honly Hsp) as Hgot.
  destruct (Solution.type (solve (finish b'))) eqn:Hty.
  - destruct Hsolve as (Hlen & Hfe & _ & Hbest). destruct (Hgot Hlen Hfe) as [Hv Hf]. eexists. cbn [check]. rewrite !bind_Ok_l, Hv, bind_Ok_l. split_and!; [done|done|].
    intros _ f u' Hf' Hu' Hle. destruct (Hreal f u' Hf' Hu') as (y & Hy & Hyo); [intros l Hlk; by apply Hle, elem_of_links|].
    specialize (Hbest eq_refl y Hy). pose proof (Hlow _ Hfe). lra.
  - destruct Hsolve as (Hlen & Hfe & _ & _). destruct (Hgot Hlen Hfe) as [Hv Hf]. eexists. cbn [check]. rewrite !bind_Ok_l, Hv, bind_Ok_l. by split_and!.
  - split; [done|]. intros f Hf. destruct (Hreal f (sum_of (utilization rnd g p f) (items caps).*1) Hf) as (y & Hy & _).
    + apply sum_of_nonneg. by apply (Hpos f Hf).
    + intros l Hlk. apply sum_of_elem_le; [by apply (Hpos f Hf)|done].
    + destruct Hsolve as [Hno|Hunb]; [by apply (Hno y)|]. destruct (Hunb (-(1))%Q) as (z & Hz & Hzo). rewrite Hdir' in Hzo. cbn [as_good] in Hzo.
      pose proof (Hlow z Hz) as Hlz. destruct (proj1 (sp_sat _ _ _ _ _ Hsp z) Hz) as (_ & Hz0 & _). nra.
Qed.

(** ** Examples *)

(** The demand of 3 over the link of 5 Mbps: the utilization is 3/5. *)
Definition spread_solution (q : Problem.t) : Solution.t :=
  let x := [3; 3 # 5; 3 # 5]%Q in
  Solution.mk OPTIMAL (linear_objective (Problem.objective q) (λ v, default 0%Q (x !! v))) x false.

(** The rows of the program of the example. *)
Definition spread_rows (q : Problem.t) : Prop :=
  Problem.vars q = [nonneg_var; nonneg_var; nonneg_var] /\
  Problem.rows q = [Some (Fin 0, Fin 0); Some (Fin 3, PosInf); Some (Fin 0, Fin 0); Some (NegInf, Fin 0); Some (Fin 0, Fin 0)] /\
  Problem.elements q = [mkElement 1 0 1; mkElement 3 1 (-(1)); mkElement 3 2 1; mkElement 4 2 (-(1)); mkElement 4 0 (1 # 5)] /\
  Problem.objective q = [0; 100000; (-1 # 100)]%Q /\ Problem.offset q = 0%Q /\ Problem.direction q = MINIMIZE.

Lemma spread_feasible q x :
  spread_rows q -> feasible q x <-> (0 <= x 1%nat /\ 3 <= x 0%nat /\ x 2%nat <= x 1%nat /\ x 2%nat == (1 # 5) * x 0%nat)%Q.
Proof.
  intros (Hv & Hr & He & _). unfold feasible. rewrite Hv, Hr, He. set (es := [_; _; _; _; mkElement _ _ _]).
  assert (Hrow : forall c, (row_value es c x ==
      (if decide (1%nat = c) then x 0%nat else 0) + (if decide (3%nat = c) then x 2%nat - x 1%nat else 0) + (if decide (4%nat = c) then (1 # 5) * x 0%nat - x 2%nat else 0))%Q).
  { intros c. unfold row_value, es. rewrite !sum_of_cons, sum_of_nil. cbn [constraint variable value]. repeat case_decide; lra. }
  assert (E0 : (row_value es 0 x == 0)%Q) by (rewrite Hrow; repeat case_decide; lia || lra).
  assert (E1 : (row_value es 1 x == x 0%nat)%Q) by (rewrite Hrow; repeat case_decide; lia || lra).
  assert (E2 : (row_value es 2 x == 0)%Q) by (rewrite Hrow; repeat case_decide; lia || lra).
  assert (E3 : (row_value es 3 x == x 2%nat - x 1%nat)%Q) by (rewrite Hrow; repeat case_decide; lia || lra).
  assert (E4 : (row_value es 4 x == (1 # 5) * x 0%nat - x 2%nat)%Q) by (rewrite Hrow; repeat case_decide; lia || lra).
  clearbody es. clear Hrow. split.
  - intros [Hvs Hrows]. destruct (Hvs 1 _ eq_refl) as [[H1 _] _]. cbn in H1. destruct (Hrows 1 _ eq_refl) as [Hr1 _]. destruct (Hrows 3 _ eq_refl) as [_ Hr3].
    destruct (Hrows 4 _ eq_refl) as [Hr4 Hr4']. cbn [fst snd at_least at_most] in *. lra.
  - intros (H1 & H0 & H2 & Heq). split.
    + intros [|[|[|v]]] var Hvar; simplify_eq/=; (split; [split; cbn; [lra|done]|done]).
    + intros c r Hc. destruct c as [|[|[|[|[|c]]]]]; simplify_eq/=; split; cbn [fst snd at_least at_most]; done || lra.
Qed.

Lemma spread_solves q : spread_rows q -> solves q (spread_solution q).
Proof.
  intros Hq. assert (Ho : forall x, (objective_value q x == 100000 * x 1%nat - (1 # 100) * x 2%nat)%Q).
  { intros x. destruct Hq as (_ & _ & _ & Hobj & Hoff & _). unfold objective_value, linear_objective. rewrite Hobj, Hoff. cbn [length seq].
    rewrite !sum_of_cons, sum_of_nil. cbn. lra. }
  unfold solves, spread_solution. cbn [Solution.type Solution.solution_type_]. split_and!.
  - destruct Hq as (-> & _). done.
  - apply (spread_feasible q _ Hq). vm_compute. split_and!; congruence.
  - rewrite Ho. destruct Hq as (_ & _ & _ & Hobj & _). cbn [Solution.ObjectiveValue Solution.objective_value_]. unfold linear_objective. rewrite Hobj. vm_compute. done.
  - intros _ y Hy. apply (spread_feasible q _ Hq) in Hy as (H1 & H0 & H2 & Heq). destruct Hq as (_ & _ & _ & _ & _ & Hdir). rewrite Hdir. cbn [as_good].
    rewrite !Ho. change (Solution.assignment _ 1) with (3 # 5)%Q. change (Solution.assignment _ 2) with (3 # 5)%Q. lra.
Qed.

Lemma MinMax_Solve_near_minimum_witness :
  exists q m v, MinMaxProblem.program Qred false one_problem = Ok (q, m, v) /\
    if Solution.found (spread_solution q) then
      exists u, MinMaxProblem.Solve Qred spread_solution 0 false one_problem false = Ok (u, None) /\
        (exists f, routes one_capacity one_link false one_demand f /\ forall l, is_Some (one_capacity !! l) -> (utilization Qred one_link one_problem f l <= u)%Q) /\
        (Solution.type (spread_solution q) = OPTIMAL -> forall f u', routes one_capacity one_link false one_demand f -> (0 <= u')%Q ->
           (forall l, is_Some (one_capacity !! l) -> (utilization Qred one_link one_problem f l <= u')%Q) ->
           ((100000 - sum_of (weight_of Qred one_link) (items one_capacity).*1) * u <= 100000 * u')%Q)
    else MinMaxProblem.Solve Qred spread_solution 0 false one_problem false = Fail CheckFailed /\ forall f, ~ routes one_capacity one_link false one_demand f.
Proof.
  eapply (MinMax_Solve_near_minimum Qred one_capacity one_link _ one_problem one_demand spread_solution 0).
  - vm_compute. reflexivity.
  - vm_compute. reflexivity.
  - apply one_linked.
  - intros l link Hl Hlink. rewrite one_links in Hl. apply list_elem_of_singleton in Hl as ->. vm_compute in Hlink. injection Hlink as <-.
    split_and!; vm_compute; congruence.
  - vm_compute. reflexivity.
  - intros q m v Hq. vm_compute in Hq. injection Hq as <- <- <-. apply spread_solves. repeat split.
Defined.

(** A delay of 200 seconds outweighs the maximum utilization in the objective:
    sending more and more over the link is better and better, so that the
    optimizer finds no optimum and [Solve] dies although the demand fits. *)
Definition slow_link : GraphStorage.t :=
  match GraphStorage.construct (GraphBuilder.mk false [mkGraphLinkBase "A" "B" 1%Z 1%Z 5000000%Z 200000000%Z]) [] with Ok g => g | Fail _ => GraphStorage.init [] end.
Definition slow_problem : t :=
  match construct one_capacity slow_link ≫= add_demands one_demand with Ok p => p | Fail _ => mk (FlowProblem.mk slow_link ∅ ∅) ∅ end.

Theorem slow_link_unbounded : exists q m v, MinMaxProblem.program Qred false slow_problem = Ok (q, m, v) /\ unbounded q.
Proof.
  eexists _, _, _. split; [vm_compute; reflexivity|]. intros b.
  set (n := (3 + Qabs b)%Q). assert (Hn : (3 <= n)%Q) by (unfold n; pose proof (Qabs_nonneg b); lra).
  assert (Hb : (- n <= b)%Q) by (unfold n; pose proof (Qle_Qabs (- b)); rewrite Qabs_opp in *; lra).
  clearbody n. exists (λ v, match v with O => n | _ => ((1 # 5) * n)%Q end). split.
  - split.
    + intros [|[|[|v]]] var Hvar; simplify_eq/=; (split; [split; cbn; [lra|done]|done]).
    + intros c r Hc. destruct c as [|[|[|[|[|c]]]]]; simplify_eq/=; unfold row_value; rewrite !sum_of_cons, sum_of_nil;
        cbn [constraint variable value]; repeat (case_decide; try lia); split; cbn [fst snd at_least at_most]; done || lra.
  - cbn [as_good Problem.direction]. unfold objective_value, linear_objective. cbn [length seq Problem.objective Problem.offset].
    rewrite !sum_of_cons, sum_of_nil. cbn [lookup list_lookup default from_option Datatypes.id]. lra.
Qed.

(** Two links that do not touch, and a demand without volume from the source
    of one to the destination of the other. *)
Definition apart : GraphStorage.t :=
  match GraphStorage.construct (GraphBuilder.mk false [mkGraphLinkBase "A" "B" 1%Z 1%Z 5000000%Z 10%Z; mkGraphLinkBase "C" "D" 1%Z 1%Z 5000000%Z 10%Z]) [] with
  | Ok g => g
  | Fail _ => GraphStorage.init []
  end.
Definition apart_problem : t :=
  match construct {[0 := 5%Q; 1 := 5%Q]} apart ≫= add_demands [(2, 1, 0%Q)] with Ok p => p | Fail _ => mk (FlowProblem.mk apart ∅ ∅) ∅ end.
Definition apart_solution (q : Problem.t) : Solution.t := Solution.mk OPTIMAL 0 [0; 0]%Q false.

(** The maximum flow of the demand is zero, which [GetMaxFlow] reports when it
    is not asked for paths; asked for paths it dies, because a source from
    which nothing flows is missing from the flows that leave the nodes. *)
Theorem no_flow_dies :
  exists q m, MaxFlow.program apart_problem = Ok (q, m) /\ solves q (apart_solution q) /\
    MaxFlow.GetMaxFlow apart_solution apart_problem = Ok (Some 0%Q) /\
    ByDestination.GetMaxFlow Qred apart_solution 9 apart_problem = Fail CheckFailed.
Proof.
  eexists _, _. split_and!; [vm_compute; reflexivity| |vm_compute; reflexivity|vm_compute; reflexivity].
  unfold solves. cbn [apart_solution Solution.type Solution.solution_type_]. split_and!.
  - done.
  - split.
    + intros [|[|v]] var Hvar; simplify_eq/=; (split; [split; cbn; [lra|done]|done]).
    + intros c r Hc. do 7 (destruct c as [|c]; [simplify_eq/=; split; vm_compute; done|]). by simplify_eq/=.
  - vm_compute. reflexivity.
  - intros _ y [_ Hrows]. pose proof (Hrows 6 _ eq_refl) as [H1 H2]. unfold row_value in H1, H2. cbn [Problem.elements] in H1, H2. rewrite !sum_of_cons, sum_of_nil in H1, H2.
    cbn [constraint variable value fst snd at_least at_most] in H1, H2.
    repeat (case_decide; try lia).
    cbn [as_good Problem.direction]. unfold objective_value, linear_objective. cbn [length seq Problem.objective Problem.offset]. rewrite !sum_of_cons, !sum_of_nil.
    cbn [lookup list_lookup default from_option Datatypes.id]. change (Solution.assignment _ 0) with 0%Q. change (Solution.assignment _ 1) with 0%Q. lra.
Qed.
