(* ===== verification/MultiCommodity.v ===== *)
(** Model of the multi-commodity flow problems of [src/src/lp/mc_flow.h] and
    [src/src/lp/mc_flow.cc], in which every pair of a source and a destination
    is a commodity with a weight of its own, and of the theorem that
    [MinCostMultiCommodityFlowProblem::Solve] finds a flow of minimum cost. *)

From S2P Require Import Prelude OrderedMap PerfectHash Graph Rational LinearProgram FlowProblem FlowOptima DemandScaling FlowPaths FlowRecovery.

(** ** MultiCommodityFlowProblem *)
Module MultiCommodityFlowProblem.
Import FlowProblem.

Notation SrcAndDst := (nat * nat)%type (only parsing).
(** The magnitude of a demand and its weight. *)
Notation DemandAndWeight := (Q * Q)%type (only parsing).

Record t := mk { base : FlowProblem.t; demands_ : gmap SrcAndDst DemandAndWeight }.

Definition construct (link_capacities : gmap nat Q) (g : GraphStorage.t) : outcome t :=
  b ← FlowProblem.construct link_capacities g; Ok (mk b ∅).

Definition AddDemand (p : t) (source dst : nat) (demand weight : Q) : t :=
  mk (base p) (<[(source, dst) := (demand, weight)]> (demands_ p)).

Definition pairs (p : t) : list SrcAndDst := (items (demands_ p)).*1.
(** The commodity of a pair has its demand at the source only. *)
Definition source (p : t) (src_and_dst : SrcAndDst) (node : nat) : option Q :=
  if node =? src_and_dst.1 then fst <$> demands_ p !! src_and_dst else None.

Definition link_variables (p : t) (b : building) : outcome (building * VarMap SrcAndDst) :=
  GetLinkToVariableMap (items (link_capacities_ (base p))) (pairs p) true b.

Definition AddFlowConservationConstraints (p : t) (link_to_variables : VarMap SrcAndDst) (b : building) : outcome building :=
  mfold (conserve (adjacency_map_ (base p)) link_to_variables (source p) snd) (pairs p) b.

(** The paths of one pair. *)
Definition paths_of (rnd : Q -> Q) (fuel : nat) (p : t) (m : VarMap SrcAndDst) (solution : Solution.t) (src_and_dst : SrcAndDst) (demand : Q)
  : outcome (list FlowAndPath) :=
  _ ← check (negb (Qle_bool demand 0));
  link_to_flow ← link_flows m solution src_and_dst;
  '(_, st) ← Recover.RecoverPathsRecursive rnd (adjacency_map_ (base p)) (graph_ (base p)) src_and_dst.2 demand fuel src_and_dst.1 demand
               (Recover.mk link_to_flow [] ∅ []);
  _ ← check (close_to rnd (total_of rnd (Recover.out st)) demand); Ok (Recover.out st).

Definition RecoverPathsFromSolution (rnd : Q -> Q) (fuel : nat) (p : t) (m : VarMap SrcAndDst) (solution : Solution.t)
  : outcome (gmap SrcAndDst (list FlowAndPath)) :=
  mfold (λ out (src_dst_and_rest : SrcAndDst * DemandAndWeight),
      paths ← paths_of rnd fuel p m solution src_dst_and_rest.1 src_dst_and_rest.2.1;
      Ok (<[src_dst_and_rest.1 := paths]> out)) (items (demands_ p)) ∅.
End MultiCommodityFlowProblem.

(** ** MinCostMultiCommodityFlowProblem *)
Module MinCost.
Import MultiCommodityFlowProblem.

Record t := mk { base : MultiCommodityFlowProblem.t; link_costs_ : gmap nat Q }.

Definition construct (link_capacities link_costs : gmap nat Q) (g : GraphStorage.t) : outcome t :=
  b ← MultiCommodityFlowProblem.construct link_capacities g; Ok (mk b link_costs).

Definition set_costs (rnd : Q -> Q) (p : t) (m : VarMap (nat * nat)) (q : Problem.t) : outcome Problem.t :=
  mfold (λ q (link_and_rest : nat * gmap (nat * nat) nat),
      link_cost ← value_or_die (link_costs_ p) link_and_rest.1;
      mfold (λ q (src_and_dst_and_var : (nat * nat) * nat),
          demand_and_weight ← value_or_die (demands_ (base p)) src_and_dst_and_var.1;
          Problem.SetObjectiveCoefficient q src_and_dst_and_var.2 (rnd (link_cost * demand_and_weight.2)%Q))
        (items link_and_rest.2) q) (items m) q.

(** The program of [Solve] and its variables. *)
Definition program (rnd : Q -> Q) (p : t) : outcome (Problem.t * VarMap (nat * nat)) :=
  '(b, m) ← link_variables (base p) (mkBuilding (Problem.init MINIMIZE) []);
  b ← AddFlowConservationConstraints (base p) m b;
  q ← set_costs rnd p m (problem b);
  Ok (Problem.SetMatrix q (problem_matrix b), m).

(** The cost, and the paths when the caller asks for them. *)
Definition Solve (rnd : Q -> Q) (solve : Problem.t -> Solution.t) (fuel : nat) (p : t) (want_paths : bool)
  : outcome (Q * option (gmap (nat * nat) (list FlowAndPath))) :=
  '(q, m) ← program rnd p;
  let solution := solve q in
  if Solution.found solution then
    paths ← (if want_paths then paths ← RecoverPathsFromSolution rnd fuel (base p) m solution; Ok (Some paths) else Ok None);
    Ok (Solution.ObjectiveValue solution, paths)
  else Ok (double_max, None).
End MinCost.

(** ** Minimum cost *)
Import MultiCommodityFlowProblem.

(** A problem over a network with capacities and costs: the sources have
    links, every link has a cost, and costs and weights are not negative. *)
Record priced_problem (caps : gmap nat Q) (g : GraphStorage.t) (p : MinCost.t) : Prop := {
  pp_base : FlowProblem.construct caps g = Ok (base (MinCost.base p));
  pp_linked : forall k, is_Some (demands_ (MinCost.base p) !! k) -> exists l, is_Some (caps !! l) /\ (src_of g l = Some k.1 \/ dst_of g l = Some k.1);
  pp_weights : forall k d w, demands_ (MinCost.base p) !! k = Some (d, w) -> (0 <= w)%Q;
  pp_costs : forall l, l ∈ (items caps).*1 -> exists c, MinCost.link_costs_ p !! l = Some c /\ (0 <= c)%Q
}.

(** One whose demands are positive amounts that doubles hold, between different
    nodes, and whose delays can be added up. *)
Record weighted_problem (j : nat) (caps : gmap nat Q) (g : GraphStorage.t) (p : MinCost.t) : Prop := {
  wp_priced : priced_problem caps g p;
  wp_demands : forall k d w, demands_ (MinCost.base p) !! k = Some (d, w) -> (0 < d)%Q /\ whole j d /\ k.1 <> k.2;
  wp_delays : forall ls, NoDup ls -> ls ⊆ (items caps).*1 -> is_Ok (TotalDelayOfLinks ls g)
}.

Definition demand_at (p : MinCost.t) (k : nat * nat) : Q := default 0%Q (fst <$> demands_ (MinCost.base p) !! k).
Definition weight_at (p : MinCost.t) (k : nat * nat) : Q := default 0%Q (snd <$> demands_ (MinCost.base p) !! k).
(** The coefficient of a link for a pair. *)
Definition cost_at (rnd : Q -> Q) (p : MinCost.t) (l : nat) (k : nat * nat) : Q := rnd (default 0 (MinCost.link_costs_ p !! l) * weight_at p k)%Q.

Notation pair_flows caps g p := (carries_all caps g (pairs (MinCost.base p)) (source (MinCost.base p)) snd).
Notation pair_paths caps g p := (carries caps g fst snd (demand_at p)).

Lemma elem_of_pairs p k : k ∈ pairs p <-> is_Some (demands_ p !! k).
Proof.
  unfold pairs. rewrite list_elem_of_fmap. split.
  - intros ([k' d] & -> & Hin%elem_of_items). eauto.
  - intros [d Hd]. exists (k, d). split; [done|]. by apply elem_of_items.
Qed.

Section min_cost.
Context (rnd : Q -> Q) `{!Rounding rnd} (caps : gmap nat Q) (g : GraphStorage.t) (p : MinCost.t).
Hypothesis Hp : priced_problem caps g p.

Lemma pair_source k n : k ∈ pairs (MinCost.base p) -> source (MinCost.base p) k n = if n =? k.1 then Some (demand_at p k) else None.
Proof using Type. intros [d Hd]%elem_of_pairs. unfold source, demand_at. rewrite Hd. by destruct (n =? k.1). Qed.

Lemma pair_linked k : k ∈ pairs (MinCost.base p) -> exists l, is_Some (caps !! l) /\ (src_of g l = Some k.1 \/ dst_of g l = Some k.1).
Proof using Hp. intros Hk%elem_of_pairs. by eapply pp_linked. Qed.

Lemma pair_cost l k : l ∈ (items caps).*1 -> k ∈ pairs (MinCost.base p) -> (0 <= cost_at rnd p l k)%Q.
Proof using All.
  intros Hl [[d w] Hd]%elem_of_pairs. destruct (pp_costs _ _ _ Hp l Hl) as (c & Hc & Hc0). pose proof (pp_weights _ _ _ Hp k d w Hd) as Hw.
  unfold cost_at, weight_at. rewrite Hc, Hd. cbn [fmap option_fmap option_map default from_option Datatypes.id snd].
  assert (H0 : (rnd 0 == 0)%Q) by (apply (on_grid_exact rnd 0 0 0); [unfold on_grid; ring|lia|lia]). rewrite <-H0. by apply rnd_mono, Qmult_le_0_compat.
Qed.

(** The program of [Solve]. *)
Lemma min_cost_program :
  exists q m, MinCost.program rnd p = Ok (q, m) /\ cost_program caps g (pairs (MinCost.base p)) (source (MinCost.base p)) snd (cost_at rnd p) q m.
Proof using All.
  destruct (construct_adjacency caps g (base (MinCost.base p)) (pp_base _ _ _ Hp)) as (Hg & Hcaps & Hadj & Hexist).
  destruct (cost_program_ok caps g (FlowProblem.adjacency_map_ (base (MinCost.base p))) (pairs (MinCost.base p)) (source (MinCost.base p)) fst snd (demand_at p)
    (cost_at rnd p) (NoDup_items_keys _) Hadj Hexist pair_source pair_linked
    (λ q (link_and_rest : nat * gmap (nat * nat) nat),
      link_cost ← value_or_die (MinCost.link_costs_ p) link_and_rest.1;
      mfold (λ q (src_and_dst_and_var : (nat * nat) * nat),
          demand_and_weight ← value_or_die (demands_ (MinCost.base p)) src_and_dst_and_var.1;
          Problem.SetObjectiveCoefficient q src_and_dst_and_var.2 (rnd (link_cost * demand_and_weight.2)%Q))
        (items link_and_rest.2) q)) as (b & m & q & Hb & Hcosts & Hq).
  { intros q l vs Hl Hvs. cbn [fst snd]. destruct (pp_costs _ _ _ Hp l Hl) as (c & Hc & _). assert (Hvc : value_or_die (MinCost.link_costs_ p) l = Ok c) by (unfold value_or_die; by rewrite Hc). rewrite Hvc, bind_Ok_l.
    apply mfold_ext. intros q' [k v] Hin%elem_of_items. cbn [fst snd]. destruct (proj1 (elem_of_pairs _ _) (Hvs k ltac:(eauto))) as [[d w] Hd].
    unfold value_or_die, cost_at, weight_at. by rewrite Hd, bind_Ok_l, Hc. }
  unfold build in Hb. apply bind_Ok in Hb as ([b0 m0] & Hv & Hb). apply bind_Ok in Hb as (b1 & Hc & Hb). injection Hb as -> ->.
  unfold MinCost.program, link_variables, AddFlowConservationConstraints, MinCost.set_costs. rewrite Hcaps, Hv, bind_Ok_l, Hc, bind_Ok_l, Hcosts, bind_Ok_l. eauto.
Qed.
(** The flow of a solution. *)
Lemma min_cost_flow q m s :
  cost_program caps g (pairs (MinCost.base p)) (source (MinCost.base p)) snd (cost_at rnd p) q m -> solves q s ->
  if Solution.found s then
    (exists f, pair_flows caps g p f /\ (Solution.ObjectiveValue s == flow_cost (items caps) (pairs (MinCost.base p)) (cost_at rnd p) f)%Q) /\
    (Solution.type s = OPTIMAL -> forall f, pair_flows caps g p f ->
       (Solution.ObjectiveValue s <= flow_cost (items caps) (pairs (MinCost.base p)) (cost_at rnd p) f)%Q)
  else forall f, ~ pair_flows caps g p f.
Proof using All.
  intros Hq Hsol. destruct (construct_adjacency caps g (base (MinCost.base p)) (pp_base _ _ _ Hp)) as (_ & _ & Hadj & Hexist).
  pose proof (solution_flow caps g (FlowProblem.adjacency_map_ (base (MinCost.base p))) (pairs (MinCost.base p)) (source (MinCost.base p)) fst snd (demand_at p)
    (cost_at rnd p) (NoDup_items_keys _) Hadj Hexist pair_source pair_linked pair_cost q m s Hq Hsol) as Hfl.
  destruct (Solution.found s); [|done]. destruct Hfl as (_ & Hcarry & Hval & Hbest). split; [by eauto|].
  intros Hopt f Hf. rewrite Hval. by apply Hbest.
Qed.
End min_cost.

Section min_cost_paths.
Context (rnd : Q -> Q) `{!Rounding rnd} (j : nat) (caps : gmap nat Q) (g : GraphStorage.t) (p : MinCost.t).
Hypothesis Hw : weighted_problem j caps g p.

Lemma pair_amount k : k ∈ pairs (MinCost.base p) -> (0 < demand_at p k)%Q /\ whole j (demand_at p k) /\ k.1 <> k.2.
Proof using Hw. intros [[d w] Hd]%elem_of_pairs. unfold demand_at. rewrite Hd. cbn. by apply (wp_demands _ _ _ _ Hw k d w Hd). Qed.

(** A round of [RecoverPathsFromSolution]. *)
Lemma pair_step fuel m solution (kd : (nat * nat) * DemandAndWeight) fs r st :
  kd ∈ items (demands_ (MinCost.base p)) -> link_flows m solution kd.1 = Ok fs ->
  Recover.RecoverPathsRecursive rnd (FlowProblem.adjacency_map_ (base (MinCost.base p))) g kd.1.2 (demand_at p kd.1) fuel kd.1.1 (demand_at p kd.1)
    (Recover.mk fs [] ∅ []) = Ok (r, st) ->
  close_to rnd (total_of rnd (Recover.out st)) (demand_at p kd.1) = true ->
  paths_of rnd fuel (MinCost.base p) m solution kd.1 kd.2.1 = Ok (Recover.out st).
Proof using Hw.
  destruct kd as [k [d w]]. intros Hin%elem_of_items Hfs. destruct (construct_adjacency caps g (base (MinCost.base p)) (pp_base _ _ _ (wp_priced _ _ _ _ Hw))) as (Hg & _).
  cbn [fst snd] in *. unfold demand_at. rewrite Hin. cbn [fmap option_fmap option_map default from_option Datatypes.id fst]. intros Hrec Hclose. unfold paths_of.
  destruct (wp_demands _ _ _ _ Hw k d w Hin) as [Hpos _]. assert (Hvol : Qle_bool d 0 = false) by (apply not_true_iff_false; rewrite Qle_bool_iff; lra).
  rewrite Hvol, Hg. cbn [negb check]. rewrite bind_Ok_l, Hfs, bind_Ok_l, Hrec, bind_Ok_l, Hclose. done.
Qed.
End min_cost_paths.


(** The paths that [Solve] recovers are walks that carry the demand of every
    pair, fit the capacities together and cost no more than the returned value,
    for demands that doubles hold and solutions whose flows have no cycles and
    have amounts that doubles hold; [visited_neighbour_breaks_path] shows what
    a cycle does. *)
Theorem MinCost_Solve_paths_carry rnd `{!Rounding rnd} j caps g p solve rank fuel :
  j <= 60 -> weighted_problem j caps g p ->
  (forall q m, MinCost.program rnd p = Ok (q, m) -> solves q (solve q) /\
     (Solution.found (solve q) = true -> good_flows caps g (pairs (MinCost.base p)) j rank (flow_of m (Solution.assignment (solve q))))) ->
  (forall k, k ∈ pairs (MinCost.base p) -> rank k k.1 < fuel) ->
  exists q m, MinCost.program rnd p = Ok (q, m) /\
    if Solution.found (solve q) then
      exists cost r, MinCost.Solve rnd solve fuel p true = Ok (cost, Some r) /\ MinCost.Solve rnd solve fuel p false = Ok (cost, None) /\
        (exists f, pair_flows caps g p f /\ (cost == flow_cost (items caps) (pairs (MinCost.base p)) (cost_at rnd p) f)%Q) /\
        (Solution.type (solve q) = OPTIMAL -> forall f, pair_flows caps g p f ->
           (cost <= flow_cost (items caps) (pairs (MinCost.base p)) (cost_at rnd p) f)%Q) /\
        (forall k, k ∈ pairs (MinCost.base p) -> pair_paths caps g p k (paths_for r k)) /\
        (forall l cap, caps !! l = Some cap -> (sum_of (λ k, load l (paths_for r k)) (pairs (MinCost.base p)) <= cap)%Q) /\
        (paths_cost (pairs (MinCost.base p)) (cost_at rnd p) r <= cost)%Q
    else MinCost.Solve rnd solve fuel p true = Ok (double_max, None) /\ forall f, ~ pair_flows caps g p f.
Proof.
  intros Hj Hw Hsolve Hfuel. pose proof (wp_priced _ _ _ _ Hw) as Hp. destruct (construct_adjacency caps g (base (MinCost.base p)) (pp_base _ _ _ Hp)) as (Hg & Hcaps & Hadj & Hexist).
  destruct (min_cost_program rnd caps g p Hp) as (q & m & Hprog & Hq). destruct (Hsolve q m Hprog) as [Hsol Hgood].
  pose proof (recovered_paths caps g (FlowProblem.adjacency_map_ (base (MinCost.base p))) (pairs (MinCost.base p)) (source (MinCost.base p)) fst snd (demand_at p)
    (cost_at rnd p) (NoDup_items_keys _) Hadj Hexist (pair_source p) (pair_linked caps g p Hp) (pair_cost rnd caps g p Hp) rnd j Hj
    (wp_delays _ _ _ _ Hw) (pair_amount j caps g p Hw) q m (solve q) rank fuel
    (λ kd : (nat * nat) * DemandAndWeight, paths_of rnd fuel (MinCost.base p) m (solve q) kd.1 kd.2.1) fst (items (demands_ (MinCost.base p)))
    Hq Hsol Hgood Hfuel (NoDup_items_keys _)) as H.
  pose proof (min_cost_flow rnd caps g p Hp q m (solve q) Hq Hsol) as Hfl.
  exists q, m. split; [done|]. unfold MinCost.Solve. rewrite Hprog, bind_Ok_l. destruct (Solution.found (solve q)) eqn:Hfound.
  - destruct H as (r & Hr & Hcar & Hfit & Hle & Hbest); [done|by apply (pair_step rnd j caps g p Hw)|]. destruct Hfl as (Hflow & _).
    exists (Solution.ObjectiveValue (solve q)), r. unfold RecoverPathsFromSolution. rewrite Hr, !bind_Ok_l, Hfound. split_and!; done.
  - split; [done|]. apply H; [done|by apply (pair_step rnd j caps g p Hw)].
Qed.

(** ** An example: the demand of 3 over the link of capacity 5, at a cost of 2 *)

Definition one_pair : MinCost.t :=
  match MinCost.construct one_capacity {[0 := 2%Q]} one_link with
  | Ok p => MinCost.mk (AddDemand (MinCost.base p) 0 1 3 1) (MinCost.link_costs_ p)
  | Fail _ => MinCost.mk (mk (FlowProblem.mk one_link ∅ ∅) ∅) ∅
  end.

Lemma one_pair_demands k d : demands_ (MinCost.base one_pair) !! k = Some d -> k = (0, 1) /\ d = (3, 1)%Q.
Proof.
  assert (Hd : demands_ (MinCost.base one_pair) = {[(0, 1) := (3, 1)%Q]}) by (vm_compute; reflexivity). rewrite Hd. intros [<- <-]%lookup_singleton_Some. done.
Qed.

Lemma one_pair_priced : priced_problem one_capacity one_link one_pair.
Proof.
  split; rewrite ?one_links.
  - vm_compute. reflexivity.
  - intros k [d [-> ->]%one_pair_demands]. exists 0. split; [by eexists|by left].
  - by intros k d w [-> [= -> ->]]%one_pair_demands.
  - intros l ->%list_elem_of_singleton. by exists 2%Q.
Qed.

Lemma one_pair_weighted : weighted_problem 0 one_capacity one_link one_pair.
Proof.
  split.
  - exact one_pair_priced.
  - intros k d w [-> [= -> ->]]%one_pair_demands. split_and!; [done| |done]. exists 3%Z. split; [done|lia].
  - apply one_delays.
Qed.

Lemma MinCost_Solve_paths_carry_witness :
  exists q m, MinCost.program Qred one_pair = Ok (q, m) /\
    if Solution.found (one_solution 3 q) then
      exists cost r, MinCost.Solve Qred (one_solution 3) 2 one_pair true = Ok (cost, Some r) /\
        MinCost.Solve Qred (one_solution 3) 2 one_pair false = Ok (cost, None) /\
        (exists f, pair_flows one_capacity one_link one_pair f /\
           (cost == flow_cost (items one_capacity) (pairs (MinCost.base one_pair)) (cost_at Qred one_pair) f)%Q) /\
        (Solution.type (one_solution 3 q) = OPTIMAL -> forall f, pair_flows one_capacity one_link one_pair f ->
           (cost <= flow_cost (items one_capacity) (pairs (MinCost.base one_pair)) (cost_at Qred one_pair) f)%Q) /\
        (forall k, k ∈ pairs (MinCost.base one_pair) -> pair_paths one_capacity one_link one_pair k (paths_for r k)) /\
        (forall l cap, one_capacity !! l = Some cap -> (sum_of (λ k, load l (paths_for r k)) (pairs (MinCost.base one_pair)) <= cap)%Q) /\
        (paths_cost (pairs (MinCost.base one_pair)) (cost_at Qred one_pair) r <= cost)%Q
    else MinCost.Solve Qred (one_solution 3) 2 one_pair true = Ok (double_max, None) /\ forall f, ~ pair_flows one_capacity one_link one_pair f.
Proof.
  apply (MinCost_Solve_paths_carry Qred 0 one_capacity one_link one_pair (one_solution 3) (λ _ n, 1 - n) 2).
  - lia.
  - exact one_pair_weighted.
  - intros q m Hq. vm_compute in Hq. injection Hq as <- <-. split.
    + eapply (one_solves_best 5 3 3); [by repeat split|reflexivity|split; lra|]. cbn [as_good Problem.direction]. intros y Hy. nra.
    + intros _. assert (Hs : pairs (MinCost.base one_pair) = [(0, 1)]) by (vm_compute; reflexivity). split; rewrite one_links, Hs.
      * intros l s ->%list_elem_of_singleton ->%list_elem_of_singleton. exists 3%Z. split; [vm_compute; reflexivity|lia].
      * intros l s ->%list_elem_of_singleton ->%list_elem_of_singleton _. exists 0, 1. vm_compute. split_and!; [reflexivity..|constructor].
  - intros k Hk. lia.
Defined.

