(* ===== verification/SourceMerge.v ===== *)
(** The merge of several sources of timed events that the traffic generators
    share ([src/src/htsim/bulk_gen.cc], [flow_driver.cc]).  A priority queue
    holds the next event of every source that has one; the earliest event is
    taken out and its source is asked for the next one.  A source is a state
    with a [pull] operation that returns an event or nothing.  The class
    [Orderly] states what the generators rely on of a source; for every such
    source the merge is proved to hand out, in the order of time, a prefix of
    what every source produces. *)

From S2P Require Import Prelude PriorityQueue StdSort.

Import VectorPriorityQueue.

Module SourceMerge.
Section merge.
Context {A S : Type} (at_ : A -> Z) (pull : S -> outcome (option A * S)).

(** An event in the queue names its source by its index. *)
Record t : Type := mk { queue_ : list (A * nat); sources_ : list S }.

Definition Comparator (lhs rhs : A * nat) : bool := (at_ rhs.1 <? at_ lhs.1)%Z.

Definition AddEventFromSource (m : t) (i : nat) : outcome t :=
  source ← vec_at (sources_ m) i;
  '(next_pkt, source') ← pull source;
  let sources := <[i := source']> (sources_ m) in
  Ok (match next_pkt with
      | Some a => mk (emplace Comparator (queue_ m) (a, i)) sources
      | None => mk (queue_ m) sources
      end).

Definition AddInitialEvents (m : t) : outcome t := mfold AddEventFromSource (seq 0 (length (sources_ m))) m.

Definition NextEvent (m : t) : outcome (option (A * nat) * t) :=
  if empty (queue_ m) then Ok (None, m)
  else
    '(ev, q) ← PopTop Comparator (queue_ m);
    m' ← AddEventFromSource (mk q (sources_ m)) ev.2;
    Ok (Some ev, m').

(** At most [n] events, less when no source has one left. *)
Fixpoint NextEvents (n : nat) (m : t) : outcome (list (A * nat) * t) :=
  match n with
  | O => Ok ([], m)
  | Datatypes.S n' =>
      '(o, m1) ← NextEvent m;
      match o with
      | None => Ok ([], m1)
      | Some ev => '(l, m2) ← NextEvents n' m1; Ok (ev :: l, m2)
      end
  end.

(** ** What a source produces *)

(** [pulled s l e s']: asking [s] gave the events [l], in order, and then
    nothing when [e]; the source is in state [s'] afterwards. *)
Inductive pulled (s : S) : list A -> bool -> S -> Prop :=
| pulled_start : pulled s [] false s
| pulled_event l s1 a s2 : pulled s l false s1 -> pull s1 = Ok (Some a, s2) -> pulled s (l ++ [a]) false s2
| pulled_end l s1 s2 : pulled s l false s1 -> pull s1 = Ok (None, s2) -> pulled s l true s2.

(** [ready n t s]: the source can be asked [n] times; it does not fail, and its
    events do not lie before [t] nor before one another. *)
Class Orderly (ready : nat -> Z -> S -> Prop) : Prop := {
  ready_less n t s : ready (Datatypes.S n) t s -> ready n t s;
  pull_ready n t s : ready (Datatypes.S n) t s ->
    exists o s', pull s = Ok (o, s') /\ match o with Some a => (t <= at_ a)%Z /\ ready n (at_ a) s' | None => True end
}.

Definition of_source (i : nat) (l : list (A * nat)) : list A := (filter (λ e, e.2 = i) l).*1.

Definition before (e f : A * nat) : Prop := (at_ e.1 <= at_ f.1)%Z.

#[local] Instance Comparator_swo : StrictWeakOrder Comparator.
Proof using Type. apply (key_greater_swo (λ e : A * nat, at_ e.1)). Qed.

Lemma of_source_app i l1 l2 : of_source i (l1 ++ l2) = of_source i l1 ++ of_source i l2.
Proof using Type. unfold of_source. by rewrite filter_app, fmap_app. Qed.

Lemma of_source_cons i a j l :
  of_source i ((a, j) :: l) = (if decide (j = i) then [a] else []) ++ of_source i l.
Proof using Type. unfold of_source. rewrite filter_cons. cbn [snd]. by case_decide. Qed.

#[local] Instance of_source_perm i : Proper ((≡ₚ) ==> (≡ₚ)) (of_source i).
Proof using Type. intros l1 l2 Hl. unfold of_source. by rewrite Hl. Qed.

Lemma elem_of_source i a l : a ∈ of_source i l <-> (a, i) ∈ l.
Proof using Type.
  unfold of_source. rewrite list_elem_of_fmap. setoid_rewrite list_elem_of_filter. split.
  - intros ([b j] & -> & [= <-] & H). done.
  - intros H. by exists (a, i).
Qed.

(** ** The invariant *)
Context (ready : nat -> Z -> S -> Prop) `{!Orderly ready}.

(** The state of a source whose events in the queue are [ql], after the events
    [outl] of it were handed out. *)
Definition source_state (n : nat) (s0 : S) (outl ql : list A) (s : S) : Prop :=
  match ql with
  | [] => pulled s0 outl true s
  | [a] => pulled s0 (outl ++ [a]) false s /\ ready n (at_ a) s
  | _ => False
  end.

(** The state of a source that has to be asked, after the events [out]. *)
Definition source_hole (n : nat) (s0 : S) (i : nat) (out : list (A * nat)) (ql : list A) (s : S) : Prop :=
  ql = [] /\ pulled s0 (of_source i out) false s /\ exists t, ready (Datatypes.S n) t s /\ Forall (λ e, at_ e.1 <= t)%Z out.

(** Every source can still be asked [n] times, and once more if it has to. *)
Record merging (hole : nat -> Prop) (n : nat) (ss : list S) (out : list (A * nat)) (m : t) : Prop := {
  mg_heap : heap Comparator (queue_ m);
  mg_length : length (sources_ m) = length ss;
  mg_index : Forall (λ e, e.2 < length ss) (queue_ m);
  mg_hole i s0 s : ss !! i = Some s0 -> sources_ m !! i = Some s -> hole i ->
    source_hole n s0 i out (of_source i (queue_ m)) s;
  mg_source i s0 s : ss !! i = Some s0 -> sources_ m !! i = Some s -> ~ hole i ->
    source_state n s0 (of_source i out) (of_source i (queue_ m)) s;
  mg_out : Forall (λ e, e.2 < length ss) out;
  mg_sorted : StronglySorted before out;
  mg_before e f : e ∈ out -> f ∈ queue_ m -> before e f
}.

Definition merged : nat -> list S -> list (A * nat) -> t -> Prop := merging (λ _, False).

Lemma merging_start n ss t : Forall (ready (Datatypes.S n) t) ss -> merging (λ _, True) n ss [] (mk [] ss).
Proof using Type.
  intros Hss. split; cbn [queue_ sources_]; [by intros j Hj a b|done|constructor| |done|constructor|constructor|].
  - intros i s0 s H0 H _. simplify_eq. rewrite Forall_lookup in Hss. split; [done|]. split; [constructor|].
    exists t. split; [by eapply Hss|constructor].
  - intros e f He. by apply not_elem_of_nil in He.
Qed.

Lemma merging_ext (hole1 hole2 : nat -> Prop) n ss out m :
  (forall i, i < length ss -> hole1 i <-> hole2 i) -> merging hole1 n ss out m -> merging hole2 n ss out m.
Proof using Type.
  intros Heq [? ? ? Hh Hs ? ? ?]. split; try done; intros i s0 s H0 H Hi;
    rewrite <-Heq in Hi by (by eapply lookup_lt_Some); [by eapply Hh|by eapply Hs].
Qed.

Lemma source_state_perm n s0 outl ql1 ql2 s :
  ql1 ≡ₚ ql2 -> source_state n s0 outl ql2 s -> source_state n s0 outl ql1 s.
Proof using Type.
  intros Hp. destruct ql2 as [|b [|c l]]; [|by apply Permutation_singleton_r in Hp as ->|done].
  by apply Permutation_nil_r in Hp as ->.
Qed.

Lemma source_state_less n s0 outl ql s : source_state (Datatypes.S n) s0 outl ql s -> source_state n s0 outl ql s.
Proof using All.
  destruct ql as [|a [|b l]]; [done| |done]. intros [Hp Hr]. split; [done|]. by apply ready_less.
Qed.

(** Asking a source puts its next event into the queue. *)
Lemma refill hole n ss out m i :
  merging hole n ss out m -> hole i -> i < length ss ->
  exists m', AddEventFromSource m i = Ok m' /\ merging (λ j, hole j /\ j <> i) n ss out m'.
Proof using All.
  intros Hm Hi Hlt. destruct Hm as [Hheap Hlen Hidx Hhole Hsrc Hout' Hsort Hbef].
  destruct (lookup_lt_is_Some_2 ss i Hlt) as [s0 Hs0].
  destruct (lookup_lt_is_Some_2 (sources_ m) i ltac:(lia)) as [s Hs].
  destruct (Hhole i s0 s Hs0 Hs Hi) as (Hq & Hp & t & Ht & Hout).
  destruct (pull_ready n t s Ht) as (o & s' & Hpull & Ho).
  unfold AddEventFromSource. apply vec_at_Ok in Hs as Hv. rewrite Hv. cbn [mbind outcome_bind].
  rewrite Hpull. cbn [mbind outcome_bind].
  assert (Hother : forall j sj, j <> i -> <[i := s']> (sources_ m) !! j = Some sj -> sources_ m !! j = Some sj).
  { intros j sj Hj. by rewrite list_lookup_insert_ne. }
  assert (Hself : forall sj, <[i := s']> (sources_ m) !! i = Some sj -> sj = s').
  { intros sj. rewrite list_lookup_insert_eq by lia. congruence. }
  eexists. split; [done|]. destruct o as [a|].
  - destruct Ho as [Hta Hra]. destruct (emplace_spec Comparator (queue_ m) (a, i) Hheap) as [Hh1 Hh2].
    split; cbn [queue_ sources_]; try done.
    + by rewrite length_insert.
    + rewrite Hh2. by constructor.
    + intros j s1 sj H1 H2 [Hj Hne]. specialize (Hhole j s1 sj H1 (Hother _ _ Hne H2) Hj).
      destruct Hhole as (Hqj & Hrest). split; [|done]. apply Permutation_nil_r.
      rewrite Hh2, of_source_cons, decide_False by done. by rewrite Hqj.
    + intros j s1 sj H1 H2 Hj. destruct (decide (j = i)) as [->|Hne].
      * simplify_eq. rewrite (Hself _ H2). apply (source_state_perm _ _ _ _ [a]).
        -- rewrite Hh2, of_source_cons, decide_True by done. by rewrite Hq.
        -- split; [by econstructor|done].
      * apply (source_state_perm _ _ _ _ (of_source j (queue_ m))).
        -- by rewrite Hh2, of_source_cons, decide_False by done.
        -- apply (Hsrc j); [done|by apply Hother|naive_solver].
    + intros e f He. rewrite Hh2, elem_of_cons. intros [->|Hf]; [|by eapply Hbef].
      rewrite Forall_forall in Hout. specialize (Hout e He). unfold before. cbn [fst]. lia.
  - split; cbn [queue_ sources_]; try done.
    + by rewrite length_insert.
    + intros j s1 sj H1 H2 [Hj Hne]. by apply (Hhole j); [|apply Hother|].
    + intros j s1 sj H1 H2 Hj. destruct (decide (j = i)) as [->|Hne].
      * simplify_eq. rewrite (Hself _ H2), Hq. cbn [source_state]. by econstructor.
      * apply (Hsrc j); [done|by apply Hother|]. naive_solver.
Qed.

(** The earliest event leaves the queue; its source has to be asked. *)
Lemma take_out n ss out m a i rest :
  merged (Datatypes.S n) ss out m -> queue_ m = (a, i) :: rest ->
  exists q, PopTop Comparator (queue_ m) = Ok ((a, i), q) /\ i < length ss /\
    merging (λ j, j = i) n ss (out ++ [(a, i)]) (mk q (sources_ m)).
Proof using All.
  intros [Hheap Hlen Hidx _ Hsrc Hout' Hsort Hbef] Hq. rewrite Hq in *.
  destruct (PopTop_spec Comparator _ Hheap) as (q & Hpop & Hh & Hp). exists q. split; [done|].
  assert (Hmax : forall e, e ∈ rest -> before (a, i) e).
  { intros e He. pose proof (heap_top_max Comparator _ (a, i) Hheap eq_refl) as Hall.
    rewrite Forall_forall in Hall. specialize (Hall e (list_elem_of_further _ _ _ He)).
    unfold Comparator in Hall. apply Z.ltb_ge in Hall. done. }
  apply Forall_cons in Hidx as [Hi Hidx]. split; [done|].
  assert (Hout : forall e, e ∈ out -> before e (a, i)) by (intros e He; apply Hbef; [done|constructor]).
  split; cbn [queue_ sources_]; try done.
  - by rewrite Hp.
  - intros j s0 s H0 H ->. specialize (Hsrc i s0 s H0 H ltac:(naive_solver)).
    rewrite of_source_cons, decide_True in Hsrc by done. cbn [app source_state] in Hsrc.
    destruct (of_source i rest) as [|b l] eqn:Hrest; [|done]. destruct Hsrc as [Hpull Hready].
    split; [apply Permutation_nil_r; by rewrite Hp, Hrest|].
    rewrite of_source_app, of_source_cons, decide_True by done. split; [done|]. exists (at_ a). split; [done|].
    apply Forall_app. split; [|by repeat constructor]. apply Forall_forall, Hout.
  - intros j s0 s H0 H Hj. specialize (Hsrc j s0 s H0 H ltac:(naive_solver)).
    rewrite of_source_cons, decide_False in Hsrc by done.
    rewrite of_source_app, of_source_cons, decide_False, app_nil_r by done.
    eapply source_state_perm; [|by apply source_state_less]. by rewrite Hp.
  - apply Forall_app. split; [done|]. by repeat constructor.
  - apply StronglySorted_snoc; [done|]. apply Forall_forall, Hout.
  - intros e f. rewrite elem_of_app, Hp, list_elem_of_singleton. intros [He| ->] Hf; [|by apply Hmax].
    apply Hbef; [done|by constructor].
Qed.

(** Every source that has an event left has it in the queue. *)
Lemma AddInitialEvents_spec n ss t :
  Forall (ready (Datatypes.S n) t) ss -> exists m, AddInitialEvents (mk [] ss) = Ok m /\ merged n ss [] m.
Proof using All.
  intros Hss. unfold AddInitialEvents. cbn [sources_].
  destruct (mfold_seq_inv (λ k m, merging (λ j, k <= j) n ss [] m) AddEventFromSource (length ss) (mk [] ss))
    as (m & Hm & Hinv).
  - eapply merging_ext; [|by eapply merging_start]. intros. split; lia.
  - intros k m Hk Hinv. destruct (refill _ _ _ _ _ k Hinv) as (m' & -> & Hm'); [done..|].
    exists m'. split; [done|]. eapply merging_ext; [|exact Hm']. intros j _. cbn. lia.
  - exists m. split; [done|]. eapply merging_ext; [|exact Hinv]. intros j Hj. cbn. lia.
Qed.

Lemma NextEvent_spec n ss out m :
  merged (Datatypes.S n) ss out m ->
  (queue_ m = [] /\ NextEvent m = Ok (None, m)) \/
  (exists e m', NextEvent m = Ok (Some e, m') /\ merged n ss (out ++ [e]) m').
Proof using All.
  intros Hm. unfold NextEvent. destruct (queue_ m) as [|[a i] rest] eqn:Hq; [by left|right]. cbn [empty].
  destruct (take_out n ss out m a i rest Hm Hq) as (q & Hpop & Hi & Hhole). rewrite Hq in Hpop.
  rewrite Hpop. cbn [mbind outcome_bind snd].
  destruct (refill _ _ _ _ _ i Hhole) as (m' & -> & Hm'); [done..|]. cbn [mbind outcome_bind].
  exists (a, i), m'. split; [done|]. eapply merging_ext; [|exact Hm']. cbn. naive_solver.
Qed.

Lemma merged_less n k ss out m : merged (n + k) ss out m -> merged k ss out m.
Proof using All.
  induction n as [|n IH]; [done|]. intros [? ? ? _ Hs ? ? ?]. apply IH. split; try done.
  intros i s0 s H0 H Hi. apply source_state_less. by eapply Hs.
Qed.

Lemma NextEvents_spec n : forall k ss out m, merged (n + k) ss out m ->
  exists l m', NextEvents n m = Ok (l, m') /\ merged k ss (out ++ l) m' /\ length l <= n /\
    (length l < n -> queue_ m' = []).
Proof using All.
  induction n as [|n IH]; intros k ss out m Hm; cbn [NextEvents].
  { exists [], m. rewrite app_nil_r. split_and!; [done..|cbn; lia]. }
  destruct (NextEvent_spec (n + k) ss out m Hm) as [[Hq ->]|(e & m1 & -> & Hm1)]; cbn [mbind outcome_bind].
  { exists [], m. rewrite app_nil_r. split_and!; [done|by eapply (merged_less (Datatypes.S n))|cbn; lia|done]. }
  destruct (IH _ _ _ _ Hm1) as (l & m' & -> & Hm' & Hl & Hend). cbn [mbind outcome_bind].
  exists (e :: l), m'. rewrite <-app_assoc in Hm'. split_and!; [done|done|cbn; lia|].
  cbn [length]. intros. apply Hend. lia.
Qed.

(** When the queue is empty no source has an event left. *)
Lemma merged_exhausted n ss out m i s0 :
  merged n ss out m -> queue_ m = [] -> ss !! i = Some s0 -> exists s, pulled s0 (of_source i out) true s.
Proof using Type.
  intros [_ Hlen _ _ Hsrc _ _ _] Hq H0.
  destruct (lookup_lt_is_Some_2 (sources_ m) i) as [s Hs]; [rewrite Hlen; by eapply lookup_lt_Some|].
  specialize (Hsrc i s0 s H0 Hs ltac:(naive_solver)). rewrite Hq in Hsrc. by exists s.
Qed.

Lemma merged_prefix n ss out m i s0 :
  merged n ss out m -> ss !! i = Some s0 -> exists l e s, pulled s0 (of_source i out ++ l) e s.
Proof using Type.
  intros [_ Hlen _ _ Hsrc _ _ _] H0.
  destruct (lookup_lt_is_Some_2 (sources_ m) i) as [s Hs]; [rewrite Hlen; by eapply lookup_lt_Some|].
  specialize (Hsrc i s0 s H0 Hs ltac:(naive_solver)).
  destruct (of_source i (queue_ m)) as [|a [|b l]]; [|by destruct Hsrc; eexists [a], _, _|done].
  exists [], true, s. by rewrite app_nil_r.
Qed.

Lemma NextEvents_end k m m' : NextEvent m = Ok (None, m') -> m' = m /\ NextEvents k m = Ok ([], m).
Proof using Type.
  intros H. assert (m' = m) as ->.
  { unfold NextEvent in H. destruct (empty (queue_ m)); [by injection H|].
    apply bind_Ok in H as ([ev q] & _ & H). apply bind_Ok in H as (m1 & _ & H). done. }
  split; [done|]. destruct k; [done|]. cbn [NextEvents]. by rewrite H.
Qed.

(** Asking for events twice. *)
Lemma NextEvents_add n k m :
  NextEvents (n + k) m =
    '(l1, m1) ← NextEvents n m; '(l2, m2) ← NextEvents k m1; Ok (l1 ++ l2, m2).
Proof using Type.
  revert m. induction n as [|n IH]; intros m; cbn [NextEvents Nat.add mbind outcome_bind].
  { by destruct (NextEvents k m) as [[]|]. }
  destruct (NextEvent m) as [[[e|] m1]|f] eqn:Hm; cbn [mbind outcome_bind]; [| |done].
  - rewrite IH. destruct (NextEvents n m1) as [[l1 m2]|f]; cbn [mbind outcome_bind]; [|done].
    by destruct (NextEvents k m2) as [[]|].
  - destruct (NextEvents_end k m m1 Hm) as [-> Hk]. by rewrite Hk.
Qed.

Lemma NextEvents_empty n m : queue_ m = [] -> NextEvents n m = Ok ([], m).
Proof using Type. intros Hq. apply (NextEvents_end n m m). unfold NextEvent. by rewrite Hq. Qed.

Lemma NextEvents_length n : forall m l m',
  NextEvents n m = Ok (l, m') -> length l <= n /\ (length l < n -> queue_ m' = []).
Proof using Type.
  induction n as [|n IH]; intros m l m' H; cbn [NextEvents] in H.
  { injection H as <- <-. cbn. lia. }
  apply bind_Ok in H as ([[e|] m1] & H1 & H).
  - apply bind_Ok in H as ([l2 m2] & H2 & [= <- <-]). apply IH in H2 as [? ?]. cbn. split; [lia|].
    intros. auto with lia.
  - injection H as <- <-. split; [cbn; lia|]. intros _. unfold NextEvent in H1.
    destruct (queue_ m) eqn:Hq; cbn [empty] in H1; [by injection H1 as <-|].
    apply bind_Ok in H1 as ([ev q] & _ & H1). apply bind_Ok in H1 as (m2 & _ & H1). done.
Qed.

(** Two requests agree on the events that both return. *)
Lemma NextEvents_agree n k m l1 m1 l2 m2 raw rest :
  NextEvents n m = Ok (l1, m1) -> NextEvents k m = Ok (l2, m2) -> l1 = raw ++ rest -> length raw <= k ->
  take (length raw) l2 = raw /\ (length raw < k -> rest = [] -> queue_ m1 = [] -> l2 = raw).
Proof using Type.
  intros H1 H2 Hl Hk. destruct (NextEvents_length _ _ _ _ H1) as [Hlen1 Hend1].
  destruct (NextEvents_length _ _ _ _ H2) as [Hlen2 Hend2]. destruct (decide (n <= k)) as [Hnk|Hnk].
  - replace k with (n + (k - n)) in H2 by lia. rewrite NextEvents_add, H1 in H2. cbn [mbind outcome_bind] in H2.
    apply bind_Ok in H2 as ([l3 m3] & H3 & [= <- <-]). subst l1. split.
    + by rewrite <-app_assoc, take_app_length.
    + intros _ -> Hq. rewrite (NextEvents_empty _ _ Hq) in H3. injection H3 as <- <-. by rewrite !app_nil_r.
  - replace n with (k + (n - k)) in H1 by lia. rewrite NextEvents_add, H2 in H1. cbn [mbind outcome_bind] in H1.
    apply bind_Ok in H1 as ([l3 m3] & H3 & H1). injection H1 as Hl1 <-.
    assert (Hshort : length l2 < k -> l3 = []).
    { intros Hlt. rewrite (NextEvents_empty _ _ (Hend2 Hlt)) in H3. by injection H3. }
    assert (Hle : length raw <= length l2).
    { destruct (decide (length l2 < k)) as [Hlt|]; [|lia]. rewrite (Hshort Hlt), app_nil_r in Hl1.
      rewrite Hl1, Hl, length_app. lia. }
    rewrite Hl in Hl1. split.
    + rewrite <-(take_app_le l2 l3) by done. by rewrite Hl1, take_app_length.
    + intros Hlt -> _. rewrite app_nil_r in Hl1.
      assert (length l2 < k) as Hs. { apply (f_equal length) in Hl1. rewrite length_app in Hl1. lia. }
      by rewrite (Hshort Hs), app_nil_r in Hl1.
Qed.

(** ** Sources that never fail *)
Context (safe : S -> Prop) (Hsafe : forall s, safe s -> exists o s', pull s = Ok (o, s') /\ safe s').

Definition sound (m : t) : Prop :=
  heap Comparator (queue_ m) /\ Forall (λ e, e.2 < length (sources_ m)) (queue_ m) /\ Forall safe (sources_ m).

Lemma AddEventFromSource_sound m i :
  sound m -> i < length (sources_ m) ->
  exists m', AddEventFromSource m i = Ok m' /\ sound m' /\ length (sources_ m') = length (sources_ m).
Proof using Hsafe.
  intros (Hh & Hidx & Hall) Hi. destruct (lookup_lt_is_Some_2 _ _ Hi) as [s Hs].
  destruct (Hsafe s) as (o & s' & Hp & Hs'); [rewrite Forall_lookup in Hall; by eapply Hall|].
  unfold AddEventFromSource. rewrite (proj2 (vec_at_Ok _ _ _) Hs). cbn [mbind outcome_bind]. rewrite Hp.
  cbn [mbind outcome_bind]. eexists. split; [done|].
  assert (Hins : Forall safe (<[i := s']> (sources_ m))) by (by apply Forall_insert).
  destruct o as [a|]; cbn [sources_]; rewrite length_insert; (split; [|done]); split_and!; cbn [queue_ sources_];
    rewrite ?length_insert; try done; destruct (emplace_spec Comparator (queue_ m) (a, i) Hh) as [Hh' Hp']; [done|].
  rewrite Hp'. by constructor.
Qed.

Lemma AddInitialEvents_sound ss : Forall safe ss -> exists m, AddInitialEvents (mk [] ss) = Ok m /\ sound m.
Proof using Hsafe.
  intros Hss. unfold AddInitialEvents. cbn [sources_].
  destruct (mfold_seq_inv (λ _ m, sound m /\ length (sources_ m) = length ss) AddEventFromSource (length ss) (mk [] ss))
    as (m & Hm & Hs & _); [| |by exists m].
  - split; [|done]. split_and!; cbn; [by intros j Hj a b|constructor|done].
  - intros k m Hk [Hs Hl]. destruct (AddEventFromSource_sound m k Hs) as (m' & -> & Hs' & Hl'); [lia|].
    exists m'. split; [done|]. split; [done|]. lia.
Qed.

Lemma NextEvents_sound n : forall m, sound m -> is_Ok (NextEvents n m).
Proof using Hsafe.
  induction n as [|n IH]; intros m Hm; cbn [NextEvents]; [by eexists|].
  unfold NextEvent. destruct (queue_ m) as [|e q] eqn:Hq; [by eexists|]. cbn [empty].
  destruct Hm as (Hh & Hidx & Hall). rewrite Hq in Hh, Hidx.
  destruct (PopTop_spec Comparator _ Hh) as (q' & -> & Hh' & Hp). cbn [mbind outcome_bind].
  apply Forall_cons in Hidx as [He Hidx].
  destruct (AddEventFromSource_sound (mk q' (sources_ m)) e.2) as (m' & -> & Hm' & _); [|done|].
  { split_and!; cbn [queue_ sources_]; [done|by rewrite Hp|done]. }
  cbn [mbind outcome_bind]. destruct (IH m' Hm') as [[l m''] ->]. by eexists.
Qed.

End merge.
End SourceMerge.
