(* ===== verification/PacketSources.v ===== *)
(** The packet sources of [src/src/htsim/bulk_gen.h] and [bulk_gen.cc]: a
    constant stream, a stream with random gaps and a stream that is made of
    spikes.  Their packets are proved to be in the order of time, which is what
    the generators rely on, as long as the clock does not wrap around. *)

From S2P Require Import Prelude Double EventQueue NetAddr Packet Device SourceMerge.

Import EventQueue.

(** ** ConstantPacketSource *)
Module ConstantPacketSource.

Record t := mk { five_tuple_ : FiveTuple.t; pkt_size_ : Z; gap_ : Z; time_ : Z }.

(** [mean_time_between_packets] is in nanoseconds. *)
Definition construct (five_tuple : FiveTuple.t) (mean_time_between_packets packet_size_bytes : Z) : outcome t :=
  _ ← check (FiveTuple.ip_proto five_tuple =? kProtoUDP)%Z;
  Ok (mk five_tuple packet_size_bytes (NanosToTime mean_time_between_packets) 0).

Definition NextPacket (s : t) : outcome (option Packet.t * t) :=
  let time := EventQueueTime.add (time_ s) (gap_ s) in
  pkt ← Packet.construct_udp (five_tuple_ s) (pkt_size_ s) time;
  Ok (Some pkt, mk (five_tuple_ s) (pkt_size_ s) (gap_ s) time).

(** The clock does not wrap around within [n] packets. *)
Definition ready (n : nat) (t0 : Z) (s : t) : Prop :=
  (0 <= t0 <= time_ s)%Z /\ (0 <= gap_ s)%Z /\ (0 < pkt_size_ s)%Z /\ (time_ s + Z.of_nat n * gap_ s < 2 ^ 64)%Z.

#[export] Instance orderly : SourceMerge.Orderly Packet.time_sent NextPacket ready.
Proof.
  split.
  - intros n t0 s (? & ? & ? & ?). unfold ready. split_and!; lia.
  - intros n t0 s (H0 & Hgap & Hsize & Hlt). unfold NextPacket, Packet.construct_udp.
    rewrite (proj2 (Z.ltb_lt _ _) Hsize). cbn [check mbind outcome_bind]. do 2 eexists. split; [done|].
    assert (EventQueueTime.add (time_ s) (gap_ s) = time_ s + gap_ s)%Z as ->.
    { apply wrap_id. lia. }
    cbn [Packet.construct Packet.time_sent]. split; [lia|]. unfold ready. cbn [time_ gap_ pkt_size_]. split_and!; lia.
Qed.

End ConstantPacketSource.

(** ** ExpPacketSource *)
Module ExpPacketSource.
Section source.
Context {G : Type}.

(** [distribution_(generator_)]: a draw of the exponential distribution. *)
Variable distribution_ : G -> spec_float * G.

Record t := mk { five_tuple_ : FiveTuple.t; pkt_size_ : Z; generator_ : G; time_ : Z }.

Definition construct (five_tuple : FiveTuple.t) (packet_size_bytes : Z) (generator : G) : outcome t :=
  _ ← check (FiveTuple.ip_proto five_tuple =? kProtoUDP)%Z;
  Ok (mk five_tuple packet_size_bytes generator 0).

Definition NextPacket (s : t) : outcome (option Packet.t * t) :=
  let '(draw, generator) := distribution_ (generator_ s) in
  delta_nanos ← Double.to_u64 draw;
  let delta := NanosToTime delta_nanos in
  let time := EventQueueTime.add (time_ s) delta in
  pkt ← Packet.construct_udp (five_tuple_ s) (pkt_size_ s) time;
  Ok (Some pkt, mk (five_tuple_ s) (pkt_size_ s) generator time).

(** The next [n] draws add up to at most [span] units of time. *)
Fixpoint draws_within (n : nat) (g : G) (span : Z) : Prop :=
  match n with
  | O => (0 <= span)%Z
  | S n' =>
      exists nanos, Double.to_u64 (distribution_ g).1 = Ok nanos /\ (0 <= nanos)%Z /\
        (nanos * 1000 <= span)%Z /\ draws_within n' (distribution_ g).2 (span - nanos * 1000)
  end.

Definition ready (n : nat) (t0 : Z) (s : t) : Prop :=
  (0 <= t0 <= time_ s)%Z /\ (0 < pkt_size_ s)%Z /\ draws_within n (generator_ s) (2 ^ 64 - 1 - time_ s)%Z.

Lemma draws_within_nonneg n g span : draws_within n g span -> (0 <= span)%Z.
Proof using Type. destruct n; cbn; [done|]. intros (nanos & ? & ? & ? & ?). lia. Qed.

Lemma draws_within_less n : forall g span, draws_within (S n) g span -> draws_within n g span.
Proof using Type.
  induction n as [|n IH]; intros g span.
  - intros (nanos & ? & ? & ? & ?). cbn. lia.
  - intros (nanos & ? & ? & ? & Hrest). exists nanos. split_and!; [done..|]. by apply IH.
Qed.

Lemma ready_orderly : SourceMerge.Orderly Packet.time_sent NextPacket ready.
Proof using Type.
  split.
  - intros n t0 s (? & ? & ?%draws_within_less). done.
  - intros n t0 s (H0 & Hsize & nanos & Hdraw & Hn & Hle & Hrest). unfold NextPacket, Packet.construct_udp.
    destruct (distribution_ (generator_ s)) as [draw g]. cbn [fst snd] in *. rewrite Hdraw. cbn [mbind outcome_bind].
    assert (NanosToTime nanos = nanos * 1000)%Z as ->.
    { unfold NanosToTime, u64. rewrite (wrap_id 64 nanos), wrap_id; lia. }
    assert (EventQueueTime.add (time_ s) (nanos * 1000) = time_ s + nanos * 1000)%Z as -> by (apply wrap_id; lia).
    rewrite (proj2 (Z.ltb_lt _ _) Hsize). cbn [check mbind outcome_bind]. do 2 eexists. split; [done|].
    cbn [Packet.construct Packet.time_sent]. split; [lia|]. unfold ready. cbn [time_ generator_ pkt_size_].
    split_and!; [lia..|]. replace (2 ^ 64 - 1 - (time_ s + nanos * 1000))%Z
      with (2 ^ 64 - 1 - time_ s - nanos * 1000)%Z by lia. done.
Qed.

End source.
End ExpPacketSource.

(** ** SpikyPacketSource *)
Module SpikyPacketSource.

(** Times in milliseconds. *)
Record SpikeInTrafficLevel := mkSpike { at_ms : Z; duration_ms : Z; rate_bps : Z }.

Record t := mk {
  five_tuple_ : FiveTuple.t;
  pkt_size_ : Z;
  spikes_ : list SpikeInTrafficLevel;
  current_spike_ : nat;
  packets_generated_from_current_spike_ : Z
}.

Definition construct (five_tuple : FiveTuple.t) (spikes : list SpikeInTrafficLevel) (packet_size_bytes : Z) : t :=
  mk five_tuple packet_size_bytes spikes 0 0.

(** [event_queue_->ToTime] of a number of milliseconds, which is cast to
    nanoseconds of type [int64_t]. *)
Definition ToTime_ms (ms : Z) : outcome Z :=
  if (Z.abs (ms * 1000000) <=? int64_max)%Z then Ok (NanosToTime (ms * 1000000)) else Fail Undefined.

(** The time between two packets of a spike. *)
Definition gap (pkt_size : Z) (spike : SpikeInTrafficLevel) : outcome Z :=
  let rate_Bps := Double.div (Double.of_Z (rate_bps spike)) (Double.of_Z 8) in
  let pps := Double.div rate_Bps (Double.of_Z pkt_size) in
  Double.to_u64 (Double.div (Double.of_Z (NanosToTime 1000000000)) pps).

Fixpoint NextPacket_from (fuel : nat) (s : t) : outcome (option Packet.t * t) :=
  match fuel with
  | O => Fail OutOfFuel
  | S fuel' =>
      if current_spike_ s =? length (spikes_ s) then Ok (None, s)
      else
        spike ← vec_at (spikes_ s) (current_spike_ s);
        g ← gap (pkt_size_ s) spike;
        let time_into_spike := EventQueueTime.mul g (packets_generated_from_current_spike_ s) in
        duration ← ToTime_ms (duration_ms spike);
        if (duration <? time_into_spike)%Z
        then NextPacket_from fuel' (mk (five_tuple_ s) (pkt_size_ s) (spikes_ s) (S (current_spike_ s)) 0)
        else
          start ← ToTime_ms (at_ms spike);
          pkt ← Packet.construct_udp (five_tuple_ s) (pkt_size_ s) (EventQueueTime.add start time_into_spike);
          Ok (Some pkt, mk (five_tuple_ s) (pkt_size_ s) (spikes_ s) (current_spike_ s)
                           (u64 (packets_generated_from_current_spike_ s + 1)))
  end.

(** Every call of itself moves on to the next spike. *)
Definition NextPacket (s : t) : outcome (option Packet.t * t) :=
  NextPacket_from (S (length (spikes_ s) - current_spike_ s)) s.

(** *** The order of the packets *)

(** The start, the duration and the gap of a spike, in units of time. *)
Definition spike_times (pkt_size : Z) (spike : SpikeInTrafficLevel) (x : Z * Z * Z) : Prop :=
  let '(start, duration, g) := x in
  ToTime_ms (at_ms spike) = Ok start /\ ToTime_ms (duration_ms spike) = Ok duration /\ gap pkt_size spike = Ok g /\
  (0 <= start /\ 0 <= duration /\ 0 < g /\ start + duration + g < 2 ^ 64)%Z.

(** A spike ends before the next one starts. *)
Definition spike_before (x y : Z * Z * Z) : Prop := (x.1.1 + x.1.2 <= y.1.1)%Z.

(** The last packet of the current spike was not sent before [t0]. *)
Definition position (t0 k : Z) (x : Z * Z * Z) : Prop :=
  let '(start, duration, g) := x in
  (0 <= k /\ (k - 1) * g <= duration /\ t0 <= start + Z.max 0 (k - 1) * g)%Z.

Definition ready (n : nat) (t0 : Z) (s : t) : Prop :=
  (0 < pkt_size_ s)%Z /\ current_spike_ s <= length (spikes_ s) /\
  exists times, Forall2 (spike_times (pkt_size_ s)) (spikes_ s) times /\
    (forall i x y, times !! i = Some x -> times !! S i = Some y -> spike_before x y) /\
    (forall x, times !! current_spike_ s = Some x -> position t0 (packets_generated_from_current_spike_ s) x).

(** A packet of the current spike. *)
Lemma next_in_spike fuel s spike start duration g :
  (0 < pkt_size_ s)%Z -> spikes_ s !! current_spike_ s = Some spike ->
  spike_times (pkt_size_ s) spike (start, duration, g) ->
  let k := packets_generated_from_current_spike_ s in
  (0 <= k)%Z -> (k * g <= duration)%Z ->
  NextPacket_from (S fuel) s =
    Ok (Some (Packet.construct (five_tuple_ s) (pkt_size_ s) (start + k * g)%Z),
        mk (five_tuple_ s) (pkt_size_ s) (spikes_ s) (current_spike_ s) (k + 1)).
Proof.
  intros Hsize Hspike (Hs & Hd & Hg & H0 & H1 & H2 & H3) k Hk Hle. cbn [NextPacket_from].
  pose proof (lookup_lt_Some _ _ _ Hspike) as Hlt. rewrite (proj2 (Nat.eqb_neq _ _)) by lia.
  rewrite (proj2 (vec_at_Ok _ _ _) Hspike). cbn [mbind outcome_bind]. rewrite Hg, Hd. cbn [mbind outcome_bind]. fold k.
  assert (EventQueueTime.mul g k = k * g)%Z as -> by (unfold EventQueueTime.mul; rewrite Z.mul_comm; apply wrap_id; nia).
  rewrite (proj2 (Z.ltb_ge _ _)) by lia. rewrite Hs. cbn [mbind outcome_bind].
  assert (EventQueueTime.add start (k * g) = start + k * g)%Z as -> by (apply wrap_id; nia).
  unfold Packet.construct_udp. rewrite (proj2 (Z.ltb_lt _ _) Hsize). cbn [check mbind outcome_bind].
  do 3 f_equal. apply wrap_id. nia.
Qed.

(** Moving on to the next spike. *)
Lemma next_spike fuel s spike start duration g :
  spikes_ s !! current_spike_ s = Some spike ->
  spike_times (pkt_size_ s) spike (start, duration, g) ->
  let k := packets_generated_from_current_spike_ s in
  (0 <= k)%Z -> ((k - 1) * g <= duration < k * g)%Z ->
  NextPacket_from (S fuel) s =
    NextPacket_from fuel (mk (five_tuple_ s) (pkt_size_ s) (spikes_ s) (S (current_spike_ s)) 0).
Proof.
  intros Hspike (Hs & Hd & Hg & H0 & H1 & H2 & H3) k Hk Hle. cbn [NextPacket_from].
  pose proof (lookup_lt_Some _ _ _ Hspike) as Hlt. rewrite (proj2 (Nat.eqb_neq _ _)) by lia.
  rewrite (proj2 (vec_at_Ok _ _ _) Hspike). cbn [mbind outcome_bind]. rewrite Hg, Hd. cbn [mbind outcome_bind]. fold k.
  assert (EventQueueTime.mul g k = k * g)%Z as -> by (unfold EventQueueTime.mul; rewrite Z.mul_comm; apply wrap_id; nia).
  by rewrite (proj2 (Z.ltb_lt _ _)) by lia.
Qed.

Definition answers (n : nat) (t0 : Z) (r : outcome (option Packet.t * t)) : Prop :=
  exists o s', r = Ok (o, s') /\
    match o with Some p => (t0 <= Packet.time_sent p)%Z /\ ready n (Packet.time_sent p) s' | None => True end.

Lemma answers_in_spike fuel n t0 s times start duration g :
  (0 < pkt_size_ s)%Z -> Forall2 (spike_times (pkt_size_ s)) (spikes_ s) times ->
  (forall i x y, times !! i = Some x -> times !! S i = Some y -> spike_before x y) ->
  times !! current_spike_ s = Some (start, duration, g) ->
  let k := packets_generated_from_current_spike_ s in
  (0 <= k)%Z -> (k * g <= duration)%Z -> (t0 <= start + k * g)%Z -> answers n t0 (NextPacket_from (S fuel) s).
Proof.
  intros Hsize Hall Hord Hx k Hk Hle Ht.
  destruct (Forall2_lookup_r _ _ _ _ _ Hall Hx) as (spike & Hspike & Htimes).
  pose proof Htimes as (_ & _ & _ & H0 & H1 & H2 & H3).
  rewrite (next_in_spike fuel s spike start duration g Hsize Hspike Htimes Hk Hle). do 2 eexists. split; [done|].
  cbn [Packet.construct Packet.time_sent]. fold k. split; [done|].
  split; [done|]. cbn [pkt_size_ spikes_ current_spike_ packets_generated_from_current_spike_].
  split; [apply lookup_lt_Some in Hspike; lia|]. exists times. split_and!; [done..|].
  intros x Hx'. simplify_eq. unfold position. split_and!; [lia|lia|]. rewrite Z.max_r by lia. lia.
Qed.

#[export] Instance orderly : SourceMerge.Orderly Packet.time_sent NextPacket ready.
Proof.
  split; [done|]. intros n t0 s (Hsize & Hlen & times & Hall & Hord & Hpos). fold (answers n t0 (NextPacket s)).
  pose proof (Forall2_length _ _ _ Hall) as Hl. unfold NextPacket.
  destruct (decide (current_spike_ s = length (spikes_ s))) as [Hend|Hend].
  { exists None, s. cbn [NextPacket_from]. by rewrite (proj2 (Nat.eqb_eq _ _) Hend). }
  destruct (lookup_lt_is_Some_2 times (current_spike_ s)) as [[[start duration] g] Hx]; [lia|].
  pose proof (Hpos _ Hx) as (Hk & Hle & Ht). set (k := packets_generated_from_current_spike_ s) in *.
  destruct (Forall2_lookup_r _ _ _ _ _ Hall Hx) as (spike & Hspike & Htimes).
  pose proof Htimes as (_ & _ & _ & H0 & H1 & H2 & H3).
  destruct (decide (k * g <= duration)%Z) as [Hin|Hout].
  { apply (answers_in_spike _ _ _ _ times start duration g); [done..|]. fold k.
    destruct (Z.max_spec 0 (k - 1)) as [[? Hm]|[? Hm]]; rewrite Hm in Ht; nia. }
  rewrite (next_spike _ s spike start duration g Hspike Htimes Hk) by (fold k; lia).
  destruct (length (spikes_ s) - current_spike_ s) as [|m] eqn:Hm; [lia|].
  destruct (decide (S (current_spike_ s) = length (spikes_ s))) as [Hend'|Hend'].
  { do 2 eexists. cbn [NextPacket_from current_spike_ spikes_]. rewrite (proj2 (Nat.eqb_eq _ _) Hend'). by split. }
  destruct (lookup_lt_is_Some_2 times (S (current_spike_ s))) as [[[start' duration'] g'] Hx']; [lia|].
  specialize (Hord _ _ _ Hx Hx') as Hb. unfold spike_before in Hb. cbn [fst snd] in Hb.
  destruct (Forall2_lookup_r _ _ _ _ _ Hall Hx') as (spike' & _ & _ & _ & _ & ? & ? & ? & _).
  apply (answers_in_spike _ _ _ _ times start' duration' g'); [done..| |].
  all: cbn [packets_generated_from_current_spike_]; try lia.
Qed.

End SpikyPacketSource.

(** ** BulkPacketSource: the virtual [NextPacket] *)
Module BulkPacketSource.
Section source.
Context {G : Type} (distribution_ : G -> spec_float * G).

Inductive t : Type :=
| Constant (s : ConstantPacketSource.t)
| Exp (s : ExpPacketSource.t (G := G))
| Spiky (s : SpikyPacketSource.t).

Definition NextPacket (s : t) : outcome (option Packet.t * t) :=
  match s with
  | Constant s => '(p, s') ← ConstantPacketSource.NextPacket s; Ok (p, Constant s')
  | Exp s => '(p, s') ← ExpPacketSource.NextPacket distribution_ s; Ok (p, Exp s')
  | Spiky s => '(p, s') ← SpikyPacketSource.NextPacket s; Ok (p, Spiky s')
  end.

Definition ready (n : nat) (t0 : Z) (s : t) : Prop :=
  match s with
  | Constant s => ConstantPacketSource.ready n t0 s
  | Exp s => ExpPacketSource.ready distribution_ n t0 s
  | Spiky s => SpikyPacketSource.ready n t0 s
  end.

#[global] Instance orderly : SourceMerge.Orderly Packet.time_sent NextPacket ready.
Proof using Type.
  pose proof (ExpPacketSource.ready_orderly distribution_) as Hexp.
  split; intros n t0 [s|s|s] Hr; cbn [ready NextPacket] in *.
  - exact (SourceMerge.ready_less _ _ (Orderly := ConstantPacketSource.orderly) n t0 s Hr).
  - exact (SourceMerge.ready_less _ _ (Orderly := Hexp) n t0 s Hr).
  - exact (SourceMerge.ready_less _ _ (Orderly := SpikyPacketSource.orderly) n t0 s Hr).
  - destruct (SourceMerge.pull_ready _ _ (Orderly := ConstantPacketSource.orderly) n t0 s Hr) as (o & s' & -> & Ho).
    exists o, (Constant s'). split; [done|]. by destruct o.
  - destruct (SourceMerge.pull_ready _ _ (Orderly := Hexp) n t0 s Hr) as (o & s' & -> & Ho).
    exists o, (Exp s'). split; [done|]. by destruct o.
  - destruct (SourceMerge.pull_ready _ _ (Orderly := SpikyPacketSource.orderly) n t0 s Hr) as (o & s' & -> & Ho).
    exists o, (Spiky s'). split; [done|]. by destruct o.
Qed.

End source.
End BulkPacketSource.
