(* ===== verification/BulkGen.v ===== *)
(** The generators of bulk traffic ([src/src/htsim/bulk_gen.h], [bulk_gen.cc]).
    Both merge their sources with [SourceMerge].  [SingleThreadBulkPacketGenerator]
    asks for the next packet when it has sent one; [BulkPacketGenerator] takes
    the packets in batches from a thread that fills them in the background, over
    a [PtrQueue] of one batch.  The two threads are a step relation; every
    interleaving is proved to send what the other generator sends, and not to
    block for ever. *)

From S2P Require Import Prelude Double PriorityQueue EventQueue NetAddr Packet PtrQueue StdSort SourceMerge PacketSources Device.

Import EventQueue.

(** ** SingleThreadBulkPacketGenerator *)
Module SingleThreadBulkPacketGenerator.
Section generator.
Context {S : Type} (NextPacket : S -> outcome (option Packet.t * S)).

(** [consumer] is the address of the generator in the event queue. *)
Variable consumer : nat.

Notation base := (SourceMerge.t (A := Packet.t) (S := S)).

Record t := mk { base_ : base; next_pkt_ : option Packet.t }.

(** The constructor of the base class; a source must not be null. *)
Definition construct_base (sources : list (option S)) : outcome base :=
  _ ← check (forallb (λ src, match src with Some _ => true | None => false end) sources);
  Ok (SourceMerge.mk [] (omap (λ src, src) sources)).

(** [BulkPacketGeneratorBase::NextPacket]. *)
Definition next (b : base) : outcome (option Packet.t * base) :=
  '(ev, b') ← SourceMerge.NextEvent Packet.time_sent NextPacket b;
  Ok (option_map fst ev, b').

(** The generator and the calls that it makes into the event queue. *)
Definition EnqueueNextPacket (b : base) : outcome (t * list call) :=
  '(next_pkt, b') ← next b;
  Ok (mk b' next_pkt,
      match next_pkt with Some p => [CallEnqueueAt consumer (Packet.time_sent p)] | None => [] end).

Definition construct (sources : list (option S)) : outcome (t * list call) :=
  b ← construct_base sources;
  b' ← SourceMerge.AddInitialEvents Packet.time_sent NextPacket b;
  EnqueueNextPacket b'.

(** The packets that go to [out_] come first. *)
Definition HandleEvent (g : t) : outcome (list Packet.t * t * list call) :=
  match next_pkt_ g with
  | None => Ok ([], g, [])
  | Some p => '(g', calls) ← EnqueueNextPacket (base_ g); Ok ([p], g', calls)
  end.

(** At most [n] events of the generator, each at the time for which it was
    scheduled; the packets with the time at which they go out. *)
Fixpoint run (n : nat) (g : t) (calls : list call) : outcome (list (Z * Packet.t) * t * list call) :=
  match n, calls with
  | Datatypes.S n', [CallEnqueueAt _ now] =>
      '(sent, g', calls') ← HandleEvent g;
      '(rest, g'', calls'') ← run n' g' calls';
      Ok (((λ p, (now, p)) <$> sent) ++ rest, g'', calls'')
  | _, _ => Ok ([], g, calls)
  end.

End generator.
End SingleThreadBulkPacketGenerator.

(** ** BulkPacketGenerator *)
Module BulkPacketGenerator.

(** A packet that was handed out leaves a null pointer. *)
Notation Batch := (list (option Packet.t)).

Section generator.
Context {S : Type} (NextPacket : S -> outcome (option Packet.t * S)).
Variable consumer : nat.
Variable kBatchSize : nat.

Notation base := (SourceMerge.t (A := Packet.t) (S := S)).
Notation merge_next n b := (SourceMerge.NextEvents Packet.time_sent NextPacket n b).

(** *** The thread that fills batches *)

(** One round of [PopulateBatches]: [Next] adds packets until the batch is full
    or there are none left. *)
Definition FillBatch (b : base) : outcome (Batch * base) :=
  '(l, b') ← merge_next kBatchSize b; Ok (Some <$> l.*1, b').

(** *** The generator *)
Record t := mk {
  current_batch_ : Batch;
  current_batch_index_ : nat;
  default_tag_ : Z;
  stop_queue_when_done_ : bool
}.

Definition construct : t := mk [] 0 Packet.kDefaultTag false.

Definition set_default_tag (g : t) (tag : Z) : t :=
  mk (current_batch_ g) (current_batch_index_ g) tag (stop_queue_when_done_ g).
Definition StopQueueWhenDone (g : t) : t :=
  mk (current_batch_ g) (current_batch_index_ g) (default_tag_ g) true.

(** The pointer [current_batch_[current_batch_index_]], which is read. *)
Definition current (g : t) : outcome Packet.t :=
  p ← vec_at (current_batch_ g) (current_batch_index_ g);
  match p with Some p => Ok p | None => Fail Undefined end.

(** [GetNewBatchIfNeeded], as far as it gets without waiting. *)
Definition GetNewBatchIfNeeded (g : t) (q : PtrQueue.t (T := Batch)) :
    outcome (PtrQueue.t (T := Batch) * PtrQueue.progress t) :=
  if current_batch_index_ g =? length (current_batch_ g) then
    '(q', r) ← PtrQueue.ConsumeOrBlock 1 q;
    Ok (q', match r with
            | PtrQueue.MustWait => PtrQueue.MustWait
            | PtrQueue.Returned None => PtrQueue.Returned g
            | PtrQueue.Returned (Some incoming_batch) =>
                PtrQueue.Returned (mk incoming_batch 0 (default_tag_ g) (stop_queue_when_done_ g))
            end)
  else Ok (q, PtrQueue.Returned g).

(** [HandleEvent] until it calls [GetNewBatchIfNeeded]: the packet that goes to
    [out_]. *)
Definition HandOut (g : t) : outcome (Packet.t * t) :=
  packet ← vec_at (current_batch_ g) (current_batch_index_ g);
  match packet with
  | None => Fail CheckFailed
  | Some p =>
      Ok (Packet.set_tag p (default_tag_ g),
          mk (<[current_batch_index_ g := None]> (current_batch_ g)) (Datatypes.S (current_batch_index_ g))
             (default_tag_ g) (stop_queue_when_done_ g))
  end.

(** The rest of [HandleEvent] and of [Init]; only [HandleEvent] stops the
    queue. *)
Definition ScheduleNext (init : bool) (g : t) : outcome (list call) :=
  match current_batch_ g with
  | [] => Ok (if negb init && stop_queue_when_done_ g then [CallStop] else [])
  | _ => p ← current g; Ok [CallEnqueueAt consumer (Packet.time_sent p)]
  end.

(** *** Both threads *)

Inductive populator : Type := Filling | Producing (b : Batch) | Finished.

(** What the thread of the event queue does: it is in [GetNewBatchIfNeeded],
    called by [Init] or not; it runs the queue, in which the generator has an
    event or not; the generator is destroyed. *)
Inductive control : Type := Getting (init : bool) | Scheduled (at_ : Z) | Unscheduled (stopped : bool) | Destroyed.

Record world := mkWorld {
  base_ : base;
  thread_ : populator;
  ptr_queue_ : PtrQueue.t (T := Batch);
  gen : t;
  control_ : control;
  sent : list (Z * Packet.t)
}.

(** [Init] after the thread was started; [g] is the generator as it was set up. *)
Definition start (g : t) (b : base) : world :=
  mkWorld b Filling (PtrQueue.construct 1) g (Getting true) [].

(** The constructor; the tag and [stop_queue_when_done_] of [g] are set after
    it, and the constructor does not read them. *)
Definition Init (sources : list (option S)) (g : t) : outcome world :=
  b ← SingleThreadBulkPacketGenerator.construct_base sources;
  b' ← SourceMerge.AddInitialEvents Packet.time_sent NextPacket b;
  Ok (start g b').

Definition after_calls (calls : list call) : control :=
  match calls with
  | [CallEnqueueAt _ at_] => Scheduled at_
  | [CallStop] => Unscheduled true
  | _ => Unscheduled false
  end.

(** A thread that waits makes no step. *)
Inductive step : world -> world -> Prop :=
| step_fill w b base' :
    thread_ w = Filling -> FillBatch (base_ w) = Ok (b, base') ->
    step w (mkWorld base' (Producing b) (ptr_queue_ w) (gen w) (control_ w) (sent w))
| step_produce w b q' produced :
    thread_ w = Producing b -> PtrQueue.produce 1 (ptr_queue_ w) b = Ok (q', PtrQueue.Returned produced) ->
    step w (mkWorld (base_ w) (if produced then Filling else Finished) q' (gen w) (control_ w) (sent w))
| step_handle w now p g' :
    control_ w = Scheduled now -> HandOut (gen w) = Ok (p, g') ->
    step w (mkWorld (base_ w) (thread_ w) (ptr_queue_ w) g' (Getting false) (sent w ++ [(now, p)]))
| step_get w init q' g' calls :
    control_ w = Getting init -> GetNewBatchIfNeeded (gen w) (ptr_queue_ w) = Ok (q', PtrQueue.Returned g') ->
    ScheduleNext init g' = Ok calls ->
    step w (mkWorld (base_ w) (thread_ w) q' g' (after_calls calls) (sent w))
| step_destroy w :
    match control_ w with Scheduled _ | Unscheduled _ => True | _ => False end ->
    step w (mkWorld (base_ w) (thread_ w) (PtrQueue.Close (ptr_queue_ w)) (gen w) Destroyed (sent w)).

End generator.

Definition kBatchSize : nat := 10000.

(** ** The single-threaded generator sends the merged packets *)
Section single.
Context {S : Type} (NextPacket : S -> outcome (option Packet.t * S)) (consumer : nat).

Import SingleThreadBulkPacketGenerator.

Notation merge_next n b := (SourceMerge.NextEvents Packet.time_sent NextPacket n b).

Definition calls_of (p : option Packet.t) : list call :=
  match p with Some p => [CallEnqueueAt consumer (Packet.time_sent p)] | None => [] end.

Definition stamped (p : Packet.t) : Z * Packet.t := (Packet.time_sent p, p).

Lemma EnqueueNextPacket_spec b l m :
  merge_next 1 b = Ok (l, m) ->
  EnqueueNextPacket NextPacket consumer b = Ok (mk m (head l.*1), calls_of (head l.*1)).
Proof using Type.
  intros H. cbn [SourceMerge.NextEvents] in H. apply bind_Ok in H as ([[e|] m1] & H1 & H);
    unfold EnqueueNextPacket, next; rewrite H1; cbn in *; by simplify_eq.
Qed.

Lemma single_run k : forall b g calls l m,
  EnqueueNextPacket NextPacket consumer b = Ok (g, calls) -> merge_next (Datatypes.S k) b = Ok (l, m) ->
  run NextPacket consumer k g calls =
    Ok (stamped <$> take k l.*1, mk m (l.*1 !! k), calls_of (l.*1 !! k)).
Proof using Type.
  induction k as [|k IH]; intros b g calls l m Hg Hl.
  { rewrite (EnqueueNextPacket_spec b l m Hl) in Hg. injection Hg as <- <-. by rewrite head_lookup. }
  replace (Datatypes.S (Datatypes.S k)) with (1 + Datatypes.S k) in Hl by lia. rewrite SourceMerge.NextEvents_add in Hl.
  apply bind_Ok in Hl as ([l1 m1] & H1 & Hl). apply bind_Ok in Hl as ([l2 m2] & H2 & [= <- <-]).
  rewrite (EnqueueNextPacket_spec b l1 m1 H1) in Hg. injection Hg as <- <-.
  destruct (SourceMerge.NextEvents_length _ _ _ _ _ _ H1) as [Hlen Hend].
  destruct l1 as [|e [|e' l1]]; [| |cbn in Hlen; lia].
  - rewrite (SourceMerge.NextEvents_empty _ _ _ _ (Hend ltac:(cbn; lia))) in H2. by injection H2 as <- <-.
  - cbn [fmap list_fmap head app calls_of run HandleEvent next_pkt_ base_].
    assert (exists l3 m3, merge_next 1 m1 = Ok (l3, m3)) as (l3 & m3 & H3).
    { replace (Datatypes.S k) with (1 + k) in H2 by lia. rewrite SourceMerge.NextEvents_add in H2.
      apply bind_Ok in H2 as ([l3 m3] & H3 & _). by exists l3, m3. }
    pose proof (EnqueueNextPacket_spec m1 l3 m3 H3) as Hg1. rewrite Hg1. cbn [mbind outcome_bind].
    rewrite (IH _ _ _ _ _ Hg1 H2). done.
Qed.

End single.

(** ** The queue of one batch *)
Section slot.

Definition holds (q : PtrQueue.t (T := Batch)) (bs : list Batch) : Prop :=
  PtrQueue.ring 1 q /\ PtrQueue.contents 1 q = Some <$> bs.

Lemma holds_length q bs : holds q bs -> PtrQueue.num_items_ q = length bs /\ length bs <= 1.
Proof using Type.
  intros [[_ Hn _ _] Hc]. pose proof (PtrQueue.length_contents 1 q) as Hl. rewrite Hc, length_fmap in Hl. lia.
Qed.

Lemma holds_new : holds (PtrQueue.construct 1) [].
Proof using Type. destruct (PtrQueue.ring_construct (T := Batch) 1 0 eq_refl). by split. Qed.

Lemma holds_close q bs : holds q bs -> holds (PtrQueue.Close q) bs.
Proof using Type. intros [[? ? ? ?] Hc]. by split. Qed.

Lemma produce_closed (q : PtrQueue.t (T := Batch)) b : PtrQueue.closed_ q = true -> PtrQueue.produce 1 q b = Ok (q, PtrQueue.Returned false).
Proof using Type. intros H. unfold PtrQueue.produce. by rewrite H. Qed.

Lemma produce_full (q : PtrQueue.t (T := Batch)) b b' : holds q [b'] -> PtrQueue.closed_ q = false -> PtrQueue.produce 1 q b = Ok (q, PtrQueue.MustWait).
Proof using Type.
  intros Hq Hc. unfold PtrQueue.produce. destruct (holds_length _ _ Hq) as [Hn _]. by rewrite Hc, Hn.
Qed.

Lemma produce_room (q : PtrQueue.t (T := Batch)) b : holds q [] -> PtrQueue.closed_ q = false ->
  exists q', PtrQueue.produce 1 q b = Ok (q', PtrQueue.Returned true) /\ holds q' [b] /\ PtrQueue.closed_ q' = false.
Proof using Type.
  intros Hq Hc. unfold PtrQueue.produce. destruct (holds_length _ _ Hq) as [Hn _]. rewrite Hc, Hn. cbn [Nat.eqb length].
  destruct Hq as [Hr Hcont]. destruct (PtrQueue.push_spec 1 0 eq_refl q b Hr) as (q' & -> & Hr' & Hc' & Hcont').
  { cbn in Hn. lia. }
  exists q'. split; [done|]. split; [|congruence]. split; [done|]. by rewrite Hcont', Hcont.
Qed.

Lemma consume_full (q : PtrQueue.t (T := Batch)) b : holds q [b] ->
  exists q', PtrQueue.ConsumeOrBlock 1 q = Ok (q', PtrQueue.Returned (Some b)) /\ holds q' [] /\
    PtrQueue.closed_ q' = PtrQueue.closed_ q.
Proof using Type.
  intros [Hr Hc]. pose proof (holds_length q [b] (conj Hr Hc)) as [Hn _].
  destruct (PtrQueue.consume_spec 1 0 eq_refl (PtrQueue.num_items_ q) q Hr (Nat.le_refl _)) as (q' & r & Hq & Hr' & Hcl & Hcase).
  rewrite Hc in Hcase. cbn in Hcase.
  destruct Hcase as [(item & -> & [= <- _] & Hlen)|(? & _)]; [|done]. exists q'. split; [done|]. split; [|done].
  split; [done|]. destruct (PtrQueue.contents 1 q'); [done|cbn in Hlen; lia].
Qed.

Lemma consume_empty (q : PtrQueue.t (T := Batch)) : holds q [] -> PtrQueue.closed_ q = false ->
  exists q', PtrQueue.ConsumeOrBlock 1 q = Ok (q', PtrQueue.MustWait).
Proof using Type.
  intros [Hr Hc] Hcl.
  destruct (PtrQueue.consume_spec 1 0 eq_refl (PtrQueue.num_items_ q) q Hr (Nat.le_refl _)) as (q' & r & Hq & _ & _ & Hcase).
  rewrite Hc in Hcase. cbn in Hcase. destruct Hcase as [(item & _ & ? & _)|(_ & _ & ->)]; [done|].
  rewrite Hcl in Hq. by exists q'.
Qed.

End slot.

(** ** The invariant of both threads *)
Section invariant.
Context {S : Type} (NextPacket : S -> outcome (option Packet.t * S)) (consumer size : nat).
Hypothesis Hsize : 0 < size.

Notation base := (SourceMerge.t (A := Packet.t) (S := S)).
Notation merge_next n b := (SourceMerge.NextEvents Packet.time_sent NextPacket n b).

Definition thread_batch (w : world (S := S)) : list Batch :=
  match thread_ w with Producing b => [b] | _ => [] end.

(** An empty batch comes only when no source has a packet left ([e]); nothing
    comes after it. *)
Fixpoint tidy (bs : list Batch) (e : Prop) : Prop :=
  match bs with
  | [] => True
  | b :: bs' => (b = [] -> e /\ Forall (eq []) bs') /\ tidy bs' e
  end.

(** Another batch, after which the sources are as [e'] says. *)
Lemma tidy_snoc bs b (e e' : Prop) :
  (e -> e') -> (b = [] -> e') -> (e -> b = []) -> tidy bs e -> tidy (bs ++ [b]) e'.
Proof using Type.
  intros Hee Hb1 Hb2. induction bs as [|c bs IH]; cbn; [intros _; split; [|done]; intros; split; [naive_solver|constructor]|].
  intros [Hc Hbs]. split; [|by apply IH]. intros H. destruct (Hc H) as [He Hall]. split; [by apply Hee|].
  apply Forall_app. split; [done|]. constructor; [|constructor]. by rewrite Hb2.
Qed.

(** What [FillBatch] appends. *)
Lemma FillBatch_spec n (b0 b b' : base) batch l :
  merge_next n b0 = Ok (l, b) -> FillBatch NextPacket size b = Ok (batch, b') ->
  exists l', merge_next (n + size) b0 = Ok (l ++ l', b') /\ batch = Some <$> l'.*1 /\
    (batch = [] -> SourceMerge.queue_ b' = []) /\
    (SourceMerge.queue_ b = [] -> batch = [] /\ SourceMerge.queue_ b' = []).
Proof using Hsize.
  intros Hn Hfill. unfold FillBatch in Hfill. apply bind_Ok in Hfill as ([l' b1] & Hl' & [= <- <-]).
  destruct (SourceMerge.NextEvents_length _ _ _ _ _ _ Hl') as [_ Hend]. exists l'.
  rewrite SourceMerge.NextEvents_add, Hn. cbn [mbind outcome_bind]. rewrite Hl'. split; [done|]. split; [done|]. split.
  - intros Hnil. apply Hend. apply (f_equal length) in Hnil. rewrite !length_fmap in Hnil. cbn in Hnil. lia.
  - intros Hq. rewrite (SourceMerge.NextEvents_empty _ _ _ _ Hq) in Hl'. by injection Hl' as <- <-.
Qed.

Definition tagged (tag : Z) (p : Packet.t) : Z * Packet.t := (Packet.time_sent p, Packet.set_tag p tag).

(** What is to be sent of the current batch. *)
Definition left_over (g : t) : Batch := drop (current_batch_index_ g) (current_batch_ g).

Definition exhausted (w : world (S := S)) : Prop := SourceMerge.queue_ (base_ w) = [].

(** [raw] are the packets that were sent, as the sources made them; [bs] is in
    the queue; [lost] is what the thread had left when it finished. *)
Record inv (tag : Z) (b0 : base) (w : world (S := S)) (bs : list Batch) (raw : list Packet.t) (lost : Batch) : Prop := {
  inv_holds : holds (ptr_queue_ w) bs;
  inv_merge : exists n l, merge_next n b0 = Ok (l, base_ w) /\
    Some <$> l.*1 = (Some <$> raw) ++ left_over (gen w) ++ concat (bs ++ thread_batch w) ++ lost;
  inv_open : control_ w <> Destroyed -> PtrQueue.closed_ (ptr_queue_ w) = false /\ thread_ w <> Finished;
  inv_lost : thread_ w <> Finished -> lost = [];
  inv_closed : control_ w = Destroyed -> PtrQueue.closed_ (ptr_queue_ w) = true;
  inv_sent : sent w = tagged tag <$> raw;
  inv_tag : default_tag_ (gen w) = tag;
  inv_index : current_batch_index_ (gen w) <= length (current_batch_ (gen w));
  inv_tidy : tidy (bs ++ thread_batch w) (exhausted w);
  inv_control :
    match control_ w with
    | Scheduled at_ => exists p, current_batch_ (gen w) !! current_batch_index_ (gen w) = Some (Some p) /\ at_ = Packet.time_sent p
    | Unscheduled _ => current_batch_ (gen w) = [] /\ exhausted w /\ Forall (eq []) (bs ++ thread_batch w)
    | _ => True
    end
}.

(** Only packets are in the batches. *)
Lemma left_over_some (raw pkts : list Packet.t) (g : t) (rest : Batch) i x :
  Some <$> pkts = (Some <$> raw) ++ left_over g ++ rest ->
  current_batch_ g !! (current_batch_index_ g + i) = Some x -> exists p, x = Some p.
Proof using Type.
  intros Heq Hx. assert (Hl : ((Some <$> raw) ++ left_over g ++ rest) !! (length raw + i) = Some x).
  { rewrite lookup_app_r by (rewrite length_fmap; apply Nat.le_add_r). rewrite length_fmap.
    rewrite Nat.add_comm, Nat.add_sub. apply lookup_app_l_Some. unfold left_over. by rewrite lookup_drop. }
  rewrite <-Heq, list_lookup_fmap in Hl. destruct (pkts !! _) as [p|]; [|done]. exists p. by injection Hl.
Qed.

Lemma threads_start g b0 :
  current_batch_ g = [] -> current_batch_index_ g = 0 -> inv (default_tag_ g) b0 (start g b0) [] [] [].
Proof using Type.
  intros Hc Hi. split; cbn [start ptr_queue_ gen control_ sent base_ thread_ thread_batch]; try done.
  - apply holds_new.
  - exists 0, []. split; [done|]. unfold left_over. by rewrite Hc, Hi.
  - rewrite Hi. apply Nat.le_0_l.
Qed.

Lemma step_fill_inv tag b0 w bs raw lost b base' :
  inv tag b0 w bs raw lost -> thread_ w = Filling -> FillBatch NextPacket size (base_ w) = Ok (b, base') ->
  inv tag b0 (mkWorld base' (Producing b) (ptr_queue_ w) (gen w) (control_ w) (sent w)) bs raw lost.
Proof using Hsize.
  intros [Hh (n & l & Hn & Hl) Ho Hlost Hcl Hs Ht Hi Htidy Hc] Hth Hfill.
  destruct (FillBatch_spec _ _ _ _ _ _ Hn Hfill) as (l' & Hn' & Hb & Hb1 & Hb2).
  unfold thread_batch in *. rewrite Hth in *. rewrite app_nil_r in *. rewrite (Hlost ltac:(done)) in *.
  split; cbn [ptr_queue_ gen control_ sent base_ thread_ thread_batch]; try done.
  - exists (n + size), (l ++ l'). split; [done|]. rewrite !fmap_app, Hl, concat_app. cbn [concat].
    rewrite !app_nil_r, <-!app_assoc, Hb. done.
  - intros Hd. split; [by apply Ho|done].
  - eapply tidy_snoc; [| | |exact Htidy]; unfold exhausted; cbn [base_]; naive_solver.
  - destruct (control_ w); [done|done| |done]. destruct Hc as (H1 & H2 & H3). unfold exhausted. cbn [base_].
    destruct (Hb2 H2). split_and!; [done..|]. apply Forall_app. split; [done|]. by repeat constructor.
Qed.

Lemma step_produce_inv tag b0 w bs raw lost b q' produced :
  inv tag b0 w bs raw lost -> thread_ w = Producing b ->
  PtrQueue.produce 1 (ptr_queue_ w) b = Ok (q', PtrQueue.Returned produced) ->
  exists bs' lost',
    inv tag b0 (mkWorld (base_ w) (if produced then Filling else Finished) q' (gen w) (control_ w) (sent w)) bs' raw lost'.
Proof using Hsize.
  intros [Hh (n & l & Hn & Hl) Ho Hlost Hcl Hs Ht Hi Htidy Hc] Hth Hp.
  unfold thread_batch in *. rewrite Hth in *. rewrite (Hlost ltac:(done)) in *.
  destruct (PtrQueue.closed_ (ptr_queue_ w)) eqn:Hclosed.
  - rewrite (produce_closed _ b Hclosed) in Hp. injection Hp as <- <-.
    assert (control_ w = Destroyed) as Hd by (destruct (control_ w); naive_solver).
    exists bs, b. split; unfold thread_batch; cbn [ptr_queue_ gen control_ sent base_ thread_]; try done.
    + exists n, l. split; [done|]. rewrite Hl, concat_app. cbn. by rewrite !app_nil_r.
    + rewrite app_nil_r. clear -Htidy. induction bs as [|c bs IH]; [done|]. cbn in *. destruct Htidy as [H1 H2].
      split; [|by apply IH]. intros Hc. destruct (H1 Hc) as [? [? ?]%Forall_app]. done.
    + by rewrite Hd.
  - destruct bs as [|b' [|b'' bs]]; [| |by destruct (holds_length _ _ Hh); cbn in *; lia].
    + destruct (produce_room _ b Hh Hclosed) as (q1 & Hq1 & Hh1 & Hc1). rewrite Hq1 in Hp. injection Hp as <- <-.
      exists [b], []. split; unfold thread_batch; cbn [ptr_queue_ gen control_ sent base_ thread_]; try done.
      * by exists n, l.
      * intros Hd. by specialize (Hcl Hd).
    + by rewrite (produce_full _ b b' Hh Hclosed) in Hp.
Qed.

Lemma step_handle_inv tag b0 w bs raw lost now p g' :
  inv tag b0 w bs raw lost -> control_ w = Scheduled now -> HandOut (gen w) = Ok (p, g') ->
  exists p0, inv tag b0 (mkWorld (base_ w) (thread_ w) (ptr_queue_ w) g' (Getting false) (sent w ++ [(now, p)]))
    bs (raw ++ [p0]) lost.
Proof using Type.
  intros [Hh (n & l & Hn & Hl) Ho Hlost Hcl Hs Ht Hi Htidy Hc] Hctl Hhand. rewrite Hctl in *.
  destruct Hc as (p0 & Hp0 & ->). unfold HandOut in Hhand. rewrite (proj2 (vec_at_Ok _ _ _) Hp0) in Hhand.
  injection Hhand as <- <-. exists p0. pose proof (lookup_lt_Some _ _ _ Hp0) as Hlt.
  split; cbn [ptr_queue_ gen control_ sent base_ thread_ thread_batch]; try done.
  - exists n, l. split; [done|]. rewrite Hl. unfold left_over. cbn [current_batch_ current_batch_index_].
    rewrite fmap_app, <-app_assoc. f_equal. rewrite (drop_S _ _ _ Hp0). cbn [fmap list_fmap app]. f_equal. f_equal.
    symmetry. apply drop_insert_lt, Nat.lt_succ_diag_r.
  - intros _. by apply Ho.
  - by rewrite Hs, fmap_app, Ht.
  - cbn [current_batch_ current_batch_index_]. rewrite length_insert. exact Hlt.
Qed.

Lemma ScheduleNext_spec init g calls :
  ScheduleNext consumer init g = Ok calls ->
  (current_batch_ g = [] /\ exists stopped, after_calls calls = Unscheduled stopped) \/
  (exists p, current_batch_ g !! current_batch_index_ g = Some (Some p) /\ after_calls calls = Scheduled (Packet.time_sent p)).
Proof using Type.
  unfold ScheduleNext. destruct (current_batch_ g) as [|x b] eqn:Hb; intros H.
  - left. split; [done|]. injection H as <-. destruct (_ && _); by eexists.
  - right. apply bind_Ok in H as (p & Hp & [= <-]). unfold current in Hp. rewrite Hb in Hp.
    apply bind_Ok in Hp as ([p'|] & Hp' & Hp); [|done]. injection Hp as ->. apply vec_at_Ok in Hp'. by exists p.
Qed.

(** The batch that [GetNewBatchIfNeeded] leaves, and what stays in the queue. *)
Lemma GetNewBatch_spec q bs g q' g' :
  holds q bs -> PtrQueue.closed_ q = false -> current_batch_index_ g <= length (current_batch_ g) ->
  GetNewBatchIfNeeded g q = Ok (q', PtrQueue.Returned g') ->
  exists bs', holds q' bs' /\ PtrQueue.closed_ q' = false /\ default_tag_ g' = default_tag_ g /\
    current_batch_index_ g' <= length (current_batch_ g') /\
    left_over g ++ concat bs = left_over g' ++ concat bs' /\
    (bs = current_batch_ g' :: bs' \/ (bs' = bs /\ g' = g /\ current_batch_ g <> [])).
Proof using Type.
  intros Hh Hclosed Hi Hget. unfold GetNewBatchIfNeeded in Hget.
  destruct (Nat.eqb_spec (current_batch_index_ g) (length (current_batch_ g))) as [He|He].
  - destruct bs as [|b [|b' bs]]; [| |by destruct (holds_length _ _ Hh) as [_ ?%Nat.succ_le_mono%Nat.nle_succ_0]].
    + destruct (consume_empty q Hh Hclosed) as (q1 & Hq1). by rewrite Hq1 in Hget.
    + destruct (consume_full q b Hh) as (q1 & Hq1 & Hh1 & Hc1). rewrite Hq1 in Hget. injection Hget as <- <-.
      exists []. unfold left_over. cbn [current_batch_ current_batch_index_ default_tag_]. rewrite He, drop_all, drop_0.
      split_and!; [done|congruence|done|apply Nat.le_0_l|done|by left].
  - injection Hget as <- <-. exists bs. split_and!; try done. right. split_and!; [done..|]. intros Hnil.
    rewrite Hnil in *. cbn in *. by apply He, Nat.le_0_r.
Qed.

Lemma step_get_inv tag b0 w bs raw lost init q' g' calls :
  inv tag b0 w bs raw lost -> control_ w = Getting init ->
  GetNewBatchIfNeeded (gen w) (ptr_queue_ w) = Ok (q', PtrQueue.Returned g') ->
  ScheduleNext consumer init g' = Ok calls ->
  exists bs', inv tag b0 (mkWorld (base_ w) (thread_ w) q' g' (after_calls calls) (sent w)) bs' raw lost.
Proof using Hsize.
  intros [Hh (n & l & Hn & Hl) Ho Hlost Hcl Hs Ht Hi Htidy Hc] Hctl Hget Hsched. rewrite Hctl in *.
  destruct (Ho ltac:(done)) as [Hclosed Hfin].
  destruct (GetNewBatch_spec _ _ _ _ _ Hh Hclosed Hi Hget) as (bs' & Hh' & Hclosed' & Ht' & Hi' & Hleft & Hbs).
  assert (Hnd : after_calls calls <> Destroyed).
  { destruct (ScheduleNext_spec _ _ _ Hsched) as [(_ & st & ->)|(p & _ & ->)]; done. }
  change (thread_batch w) with (thread_batch (mkWorld (base_ w) (thread_ w) q' g' (after_calls calls) (sent w))) in *.
  exists bs'. split; cbn [ptr_queue_ gen control_ sent base_ thread_]; try done.
  - exists n, l. split; [done|]. rewrite Hl. f_equal. rewrite !concat_app, !app_assoc. by rewrite Hleft.
  - congruence.
  - destruct Hbs as [->|[-> _]]; [|done]. apply Htidy.
  - destruct (ScheduleNext_spec _ _ _ Hsched) as [(Hnil & st & ->)|(p & Hp & ->)]; [|by exists p].
    destruct Hbs as [->|(_ & -> & Hne)]; [|done]. destruct Htidy as [Hend _]. by destruct (Hend Hnil).
Qed.

Lemma step_inv tag b0 w w' bs raw lost :
  inv tag b0 w bs raw lost -> step NextPacket consumer size w w' -> exists bs' raw' lost', inv tag b0 w' bs' raw' lost'.
Proof using Hsize.
  intros Hinv Hstep. destruct Hstep as [w b base' Hth Hfill|w b q' produced Hth Hp|w now p g' Hc Hh
                                       |w init q' g' calls Hc Hget Hsched|w Hc].
  - exists bs, raw, lost. by apply step_fill_inv.
  - destruct (step_produce_inv _ _ _ _ _ _ _ _ _ Hinv Hth Hp) as (bs' & lost' & H). by exists bs', raw, lost'.
  - destruct (step_handle_inv _ _ _ _ _ _ _ _ _ Hinv Hc Hh) as (p0 & H). by exists bs, (raw ++ [p0]), lost.
  - destruct (step_get_inv _ _ _ _ _ _ _ _ _ _ Hinv Hc Hget Hsched) as (bs' & H). by exists bs', raw, lost.
  - destruct Hinv as [Hh Hm Ho Hlost Hcl Hs Ht Hi Htidy Hctl]. exists bs, raw, lost.
    split; cbn [ptr_queue_ gen control_ sent base_ thread_]; try done. by apply holds_close.
Qed.

Lemma threads_inv g b0 w :
  current_batch_ g = [] -> current_batch_index_ g = 0 -> rtc (step NextPacket consumer size) (start g b0) w ->
  exists bs raw lost, inv (default_tag_ g) b0 w bs raw lost.
Proof using Hsize.
  intros Hc Hi. revert w. apply rtc_ind_r.
  - do 3 eexists. by apply threads_start.
  - intros w w' _ Hstep (bs & raw & lost & Hinv). by eapply step_inv.
Qed.

(** ** Progress *)

(** While a thread waits for the other one, every step makes this less. *)
Definition wait_measure (w : world (S := S)) : nat :=
  match thread_ w with Filling => 2 | Producing _ => 1 | Finished => 0 end +
  if PtrQueue.num_items_ (ptr_queue_ w) =? 0 then 2 else 0.

Definition waits (w : world (S := S)) : bool :=
  match control_ w with Getting _ | Destroyed => true | _ => false end.

Lemma step_measure tag b0 w w' bs raw lost :
  inv tag b0 w bs raw lost -> step NextPacket consumer size w w' -> waits w = true -> waits w' = true ->
  wait_measure w' < wait_measure w.
Proof using Hsize.
  intros Hinv Hstep Hw Hw'. destruct Hstep as [w b base' Hth Hfill|w b q' produced Hth Hp|w now p g' Hc Hh
                                       |w init q' g' calls Hc Hget Hsched|w Hc]; unfold waits, wait_measure in *; cbn in *.
  - rewrite Hth. lia.
  - rewrite Hth. destruct (PtrQueue.closed_ (ptr_queue_ w)) eqn:Hclosed.
    { rewrite (produce_closed _ b Hclosed) in Hp. injection Hp as <- <-. lia. }
    pose proof (inv_holds _ _ _ _ _ _ Hinv) as Hh.
    destruct bs as [|b' [|b'' bs]]; [| |by destruct (holds_length _ _ Hh); cbn in *; lia].
    + destruct (produce_room _ b Hh Hclosed) as (q1 & Hq1 & Hh1 & Hc1). rewrite Hq1 in Hp. injection Hp as <- <-.
      destruct (holds_length _ _ Hh) as [-> _], (holds_length _ _ Hh1) as [-> _]. cbn. lia.
    + by rewrite (produce_full _ b b' Hh Hclosed) in Hp.
  - by rewrite Hc in Hw.
  - destruct (ScheduleNext_spec _ _ _ Hsched) as [(_ & st & Ha)|(p & _ & Ha)]; by rewrite Ha in Hw'.
  - by destruct (control_ w).
Qed.

Lemma waits_end tag b0 k : forall w bs raw lost,
  inv tag b0 w bs raw lost -> wait_measure w < k -> waits w = true ->
  sn (λ w w', step NextPacket consumer size w w' /\ waits w' = true) w.
Proof using Hsize.
  induction k as [|k IH]; intros w bs raw lost Hinv Hk Hw; [lia|]. constructor. intros w' [Hstep Hw'].
  pose proof (step_measure _ _ _ _ _ _ _ Hinv Hstep Hw Hw').
  destruct (step_inv _ _ _ _ _ _ _ Hinv Hstep) as (bs' & raw' & lost' & Hinv'). apply (IH _ _ _ _ Hinv'); [lia|done].
Qed.

(** The sources never fail. *)
Definition never_fails (b0 : base) : Prop := forall n, is_Ok (merge_next n b0).

Lemma fill_progress tag b0 w bs raw lost :
  never_fails b0 -> inv tag b0 w bs raw lost -> thread_ w = Filling -> exists w', step NextPacket consumer size w w'.
Proof using Type.
  intros Hok [_ (n & l & Hn & _) _ _ _ _ _ _ _ _] Hth. destruct (Hok (n + size)) as [[l2 b2] H2].
  rewrite SourceMerge.NextEvents_add, Hn in H2. cbn [mbind outcome_bind] in H2.
  apply bind_Ok in H2 as ([l' b'] & H' & _). eexists. eapply step_fill; [done|]. unfold FillBatch. by rewrite H'.
Qed.

(** A generator with a batch finds a packet in it. *)
Lemma ScheduleNext_progress init g raw pkts rest :
  Some <$> pkts = (Some <$> raw) ++ left_over g ++ rest ->
  (current_batch_ g = [] \/ current_batch_index_ g < length (current_batch_ g)) -> is_Ok (ScheduleNext consumer init g).
Proof using Type.
  intros Heq Hg. unfold ScheduleNext. destruct (current_batch_ g) as [|y ys] eqn:Hb; [by eexists|].
  destruct Hg as [?|Hlt]; [done|]. rewrite <-Hb in Hlt. destruct (lookup_lt_is_Some_2 _ _ Hlt) as [x Hx].
  destruct (left_over_some raw pkts g rest 0 x Heq) as [p ->]; [by rewrite Nat.add_0_r|].
  unfold current. rewrite (proj2 (vec_at_Ok _ _ _) Hx). by eexists.
Qed.

Lemma get_progress tag b0 w bs raw lost init :
  never_fails b0 -> inv tag b0 w bs raw lost -> control_ w = Getting init -> exists w', step NextPacket consumer size w w'.
Proof using Hsize.
  intros Hok Hinv Hctl. pose proof Hinv as [Hh (n & l & Hn & Hl) Ho Hlost _ _ _ Hi _ _].
  destruct (Ho ltac:(congruence)) as [Hclosed Hfin].
  destruct (Nat.eqb_spec (current_batch_index_ (gen w)) (length (current_batch_ (gen w)))) as [He|He].
  - destruct bs as [|b [|b' bs]]; [| |by destruct (holds_length _ _ Hh); cbn in *; lia].
    + destruct (thread_ w) as [|b|] eqn:Hth; [by eapply fill_progress| |done].
      destruct (produce_room _ b Hh Hclosed) as (q1 & Hq1 & _). eexists. by eapply step_produce.
    + destruct (consume_full _ b Hh) as (q1 & Hq1 & _).
      set (g' := mk b 0 (default_tag_ (gen w)) (stop_queue_when_done_ (gen w))).
      destruct (ScheduleNext_progress init g' raw l.*1 (concat (thread_batch w) ++ lost)) as [calls Hcalls].
      { rewrite Hl. unfold left_over. cbn. rewrite He, drop_all, drop_0. cbn. by rewrite <-app_assoc. }
      { destruct b; [by left|right; cbn; lia]. }
      eexists. eapply (step_get _ _ _ w init q1 g' calls); [done| |done]. unfold GetNewBatchIfNeeded.
      rewrite (proj2 (Nat.eqb_eq _ _) He), Hq1. done.
  - destruct (ScheduleNext_progress init (gen w) raw l.*1 _ Hl) as [calls Hcalls]; [right; lia|].
    eexists. eapply (step_get _ _ _ w init _ (gen w) calls); [done| |done]. unfold GetNewBatchIfNeeded.
    by rewrite (proj2 (Nat.eqb_neq _ _) He).
Qed.

End invariant.
End BulkPacketGenerator.

Import BulkPacketGenerator.

Section theorems.
Context {S : Type} (NextPacket : S -> outcome (option Packet.t * S)) (consumer : nat).

(** C21: the generators merge their sources.  When no source fails or goes back
    in time within [n + 1] packets, the first [n] packets that
    [BulkPacketGeneratorBase::NextPacket] returns are in the order of their
    time of sending; of every source they are a prefix, in order, of what that
    source produces; and when there are less than [n], they are everything that
    every source produces until it returns a null pointer. *)
Theorem BulkPacketGeneratorBase_merges (ready : nat -> Z -> S -> Prop) n t0 (sources : list S) :
  SourceMerge.Orderly Packet.time_sent NextPacket ready -> Forall (ready (1 + n) t0) sources ->
  exists b l b',
    SourceMerge.AddInitialEvents Packet.time_sent NextPacket (SourceMerge.mk [] sources) = Ok b /\
    SourceMerge.NextEvents Packet.time_sent NextPacket n b = Ok (l, b') /\ length l <= n /\
    StronglySorted (λ e f, Packet.time_sent e.1 <= Packet.time_sent f.1)%Z l /\
    (forall i s, sources !! i = Some s -> exists later e s',
       SourceMerge.pulled NextPacket s (SourceMerge.of_source i l ++ later) e s') /\
    (length l < n -> forall i s, sources !! i = Some s -> exists s',
       SourceMerge.pulled NextPacket s (SourceMerge.of_source i l) true s').
Proof using Type.
  intros Hord Hready.
  destruct (SourceMerge.AddInitialEvents_spec Packet.time_sent NextPacket ready n sources t0 Hready) as (b & Hb & Hm).
  rewrite <-(Nat.add_0_r n) in Hm.
  destruct (SourceMerge.NextEvents_spec Packet.time_sent NextPacket ready n 0 sources [] b Hm) as (l & b' & Hl & Hm' & Hlen & Hend).
  exists b, l, b'. split_and!; [done..|by destruct Hm'| |].
  - intros i s Hs. by eapply SourceMerge.merged_prefix.
  - intros Hlt i s Hs. eapply SourceMerge.merged_exhausted; [exact Hm'|by apply Hend|done].
Qed.

(** C18: the two generators are equivalent.  However the background thread and
    the thread of the event queue interleave, the packets that
    [BulkPacketGenerator] has sent, and the times at which it sent them, are
    those that [SingleThreadBulkPacketGenerator] sends for the same sources in
    as many events, with the default tag in place of the tag of the packet; and
    when [BulkPacketGenerator] has no event left, the other one has none
    either. *)
Theorem BulkPacketGenerator_equivalent (size : nat) sources g w0 w :
  0 < size -> current_batch_ g = [] -> current_batch_index_ g = 0 ->
  Init NextPacket sources g = Ok w0 -> never_fails NextPacket (base_ w0) ->
  rtc (step NextPacket consumer size) w0 w ->
  exists g1 calls1 outs g2 calls2,
    SingleThreadBulkPacketGenerator.construct NextPacket consumer sources = Ok (g1, calls1) /\
    SingleThreadBulkPacketGenerator.run NextPacket consumer (length (sent w)) g1 calls1 = Ok (outs, g2, calls2) /\
    sent w = (λ x, (x.1, Packet.set_tag x.2 (default_tag_ g))) <$> outs /\
    (forall stopped, control_ w = Unscheduled stopped -> calls2 = []).
Proof using Type.
  intros Hsize Hc Hi Hinit Hok Hreach. unfold Init in Hinit.
  apply bind_Ok in Hinit as (b1 & Hb1 & Hinit). apply bind_Ok in Hinit as (b & Hb & [= <-]). cbn [base_ start] in Hok.
  destruct (threads_inv NextPacket consumer size Hsize g b w Hc Hi Hreach) as (bs & raw & lost & Hinv).
  destruct Hinv as [_ (n & l & Hn & Hl) Ho Hlost _ Hs _ _ _ Hctl].
  destruct (Hok (1 + length raw)) as [[l2 m2] H2]. pose proof H2 as H1. rewrite SourceMerge.NextEvents_add in H1.
  apply bind_Ok in H1 as ([l1 m1] & H1 & _). pose proof (EnqueueNextPacket_spec NextPacket consumer b l1 m1 H1) as Henq.
  pose proof (single_run NextPacket consumer (length raw) _ _ _ _ _ Henq H2) as Hrun.
  assert (exists raw' rest', l = raw' ++ rest' /\ raw'.*1 = raw /\
    Some <$> rest'.*1 = left_over (gen w) ++ concat (bs ++ thread_batch w) ++ lost) as (raw' & rest' & -> & <- & Hrest).
  { exists (take (length raw) l), (drop (length raw) l). rewrite take_drop. split; [done|].
    rewrite !fmap_take, !fmap_drop. split.
    - apply (inj (fmap Some)). rewrite fmap_take, Hl. apply take_app_length'. by rewrite length_fmap.
    - rewrite Hl. apply drop_app_length'. by rewrite length_fmap. }
  rewrite length_fmap in *.
  destruct (SourceMerge.NextEvents_agree _ _ _ _ _ _ _ _ _ raw' rest' Hn H2 eq_refl) as [Htake Hend]; [lia|].
  do 5 eexists. split; [unfold SingleThreadBulkPacketGenerator.construct; by rewrite Hb1; cbn; rewrite Hb|].
  rewrite Hs, !length_fmap. split; [exact Hrun|]. split.
  - by rewrite <-fmap_take, Htake, <-!list_fmap_compose.
  - intros st Hst. rewrite Hst in Hctl. destruct Hctl as (Hcur & Hq & Hall).
    destruct (Ho ltac:(by rewrite Hst)) as [_ Hfin]. rewrite (Hlost Hfin), app_nil_r in Hrest.
    assert (rest' = []) as ->.
    { apply (fmap_nil_inv fst), (fmap_nil_inv Some). rewrite Hrest. unfold left_over. rewrite Hcur, drop_nil. cbn.
      clear -Hall. induction Hall as [|x l <- _ IH]; [done|]. exact IH. }
    rewrite (Hend ltac:(lia) eq_refl Hq). by rewrite lookup_ge_None_2 by (by rewrite length_fmap).
Qed.

(** C19: no thread of [BulkPacketGenerator] blocks for ever.  Sources that do not
    fail given, the thread of the event queue gets its next batch, in [Init] and
    in [HandleEvent]: some thread can make a step, and there are only finitely
    many before it has it; a scheduled event finds its packet; and once the
    destructor has closed the queue, the background thread finishes, so that
    [join] returns. *)
Theorem BulkPacketGenerator_does_not_block (size : nat) sources g w0 w :
  0 < size -> current_batch_ g = [] -> current_batch_index_ g = 0 ->
  Init NextPacket sources g = Ok w0 -> never_fails NextPacket (base_ w0) ->
  rtc (step NextPacket consumer size) w0 w ->
  match control_ w with
  | Getting _ => exists w', step NextPacket consumer size w w'
  | Scheduled now => exists p g', HandOut (gen w) = Ok (p, g') /\ Packet.time_sent p = now
  | Unscheduled _ => current_batch_ (gen w) = []
  | Destroyed => thread_ w = Finished \/ exists w', step NextPacket consumer size w w'
  end /\
  (waits w = true -> sn (λ w w', step NextPacket consumer size w w' /\ waits w' = true) w).
Proof using Type.
  intros Hsize Hc Hi Hinit Hok Hreach. unfold Init in Hinit.
  apply bind_Ok in Hinit as (b1 & Hb1 & Hinit). apply bind_Ok in Hinit as (b & Hb & [= <-]). cbn [base_ start] in Hok.
  destruct (threads_inv NextPacket consumer size Hsize g b w Hc Hi Hreach) as (bs & raw & lost & Hinv).
  split; [|intros Hw; exact (waits_end NextPacket consumer size Hsize _ _ _ _ _ _ _ Hinv (Nat.lt_succ_diag_r _) Hw)]. destruct (control_ w) as [init|now|st|] eqn:Hctl.
  - exact (get_progress NextPacket consumer size Hsize _ _ _ _ _ _ init Hok Hinv Hctl).
  - pose proof (inv_control _ _ _ _ _ _ _ Hinv) as Hp. rewrite Hctl in Hp. destruct Hp as (p & Hp & ->).
    unfold HandOut. rewrite (proj2 (vec_at_Ok _ _ _) Hp). do 2 eexists. split; [done|]. done.
  - pose proof (inv_control _ _ _ _ _ _ _ Hinv) as Hp. rewrite Hctl in Hp. by destruct Hp.
  - destruct (thread_ w) as [|batch|] eqn:Hth; [|right|by left].
    { right. exact (fill_progress NextPacket consumer size _ _ _ _ _ _ Hok Hinv Hth). }
    eexists.
    eapply step_produce; [done|]. apply produce_closed. by eapply inv_closed.
Qed.

End theorems.

(** ** Concrete generators *)

Definition udp_tuple (src_port : Z) : FiveTuple.t := FiveTuple.mk 1 2 kProtoUDP src_port 200.

(** A packet every 1.5 ms, and a spike from 1 ms to 3 ms of 1000 packets per
    second. *)
Definition steady : ConstantPacketSource.t := ConstantPacketSource.mk (udp_tuple 1) 100 1500000000 0.
Definition bursty : SpikyPacketSource.t :=
  SpikyPacketSource.construct (udp_tuple 2) [SpikyPacketSource.mkSpike 1 2 8000000] 1000.

Definition mixed : list (BulkPacketSource.t (G := unit)) := [BulkPacketSource.Constant steady; BulkPacketSource.Spiky bursty].
Definition no_draw (g : unit) : spec_float * unit := (S754_zero false, g).

Lemma mixed_ready n : n <= 100 -> Forall (BulkPacketSource.ready no_draw n 0) mixed.
Proof.
  intros Hn. constructor; [|constructor; [|constructor]].
  - unfold BulkPacketSource.ready, ConstantPacketSource.ready, steady.
    cbn [ConstantPacketSource.time_ ConstantPacketSource.gap_ ConstantPacketSource.pkt_size_]. lia.
  - split; [done|]. split; [cbn; lia|]. exists [(1000000000, 2000000000, 1000000000)%Z]. split_and!.
    + constructor; [|constructor]. by vm_compute.
    + intros [|[|i]] x y; done.
    + intros x [= <-]. unfold SpikyPacketSource.position, bursty. cbn. lia.
Qed.

Lemma BulkPacketGeneratorBase_merges_witness :
  Forall (BulkPacketSource.ready no_draw 11 0) mixed /\
  exists b l b',
    SourceMerge.AddInitialEvents Packet.time_sent (BulkPacketSource.NextPacket no_draw) (SourceMerge.mk [] mixed) = Ok b /\
    SourceMerge.NextEvents Packet.time_sent (BulkPacketSource.NextPacket no_draw) 10 b = Ok (l, b') /\
    StronglySorted (λ e f, Packet.time_sent e.1 <= Packet.time_sent f.1)%Z l.
Proof.
  pose proof (mixed_ready 11 ltac:(lia)) as Hready. split; [exact Hready|].
  destruct (BulkPacketGeneratorBase_merges (BulkPacketSource.NextPacket no_draw) (BulkPacketSource.ready no_draw) 10 0 mixed
              (BulkPacketSource.orderly no_draw) Hready) as (b & l & b' & H1 & H2 & _ & H3 & _).
  exists b, l, b'. split; [exact H1|]. split; [exact H2|exact H3].
Defined.

(** The times of the first packets, and their sources. *)
Example merged_times :
  ('(b, l) ← (b ← SourceMerge.AddInitialEvents Packet.time_sent (BulkPacketSource.NextPacket no_draw) (SourceMerge.mk [] mixed);
              '(l, _) ← SourceMerge.NextEvents Packet.time_sent (BulkPacketSource.NextPacket no_draw) 6 b; Ok (b, l));
   Ok ((λ e, (Packet.time_sent e.1, e.2)) <$> l)) =
  Ok [(1000000000, 1%nat); (1500000000, 0%nat); (2000000000, 1%nat); (3000000000, 0%nat); (3000000000, 1%nat);
      (4500000000, 0%nat)]%Z.
Proof. vm_compute. reflexivity. Qed.

(** A generator whose only source is the constant one, with a tag and batches
    of two packets; the world after its first packet. *)
Definition tagging : t := set_default_tag construct 7.
Definition steady_start : outcome (world (S := ConstantPacketSource.t)) :=
  Init ConstantPacketSource.NextPacket [Some steady] tagging.

Definition steady_world : world (S := ConstantPacketSource.t) :=
  match steady_start with Ok w => w | Fail _ => start tagging (SourceMerge.mk [] []) end.

Lemma constant_safe s : (0 < ConstantPacketSource.pkt_size_ s)%Z ->
  exists o s', ConstantPacketSource.NextPacket s = Ok (o, s') /\ (0 < ConstantPacketSource.pkt_size_ s')%Z.
Proof.
  intros H. unfold ConstantPacketSource.NextPacket, Packet.construct_udp. rewrite (proj2 (Z.ltb_lt _ _) H).
  by do 2 eexists.
Qed.

Lemma steady_never_fails : never_fails ConstantPacketSource.NextPacket (base_ steady_world).
Proof.
  destruct (SourceMerge.AddInitialEvents_sound Packet.time_sent ConstantPacketSource.NextPacket _ constant_safe [steady])
    as (b & Hb & Hsound); [by repeat constructor|].
  assert (base_ steady_world = b) as ->.
  { unfold steady_world, steady_start, Init.
    change (SingleThreadBulkPacketGenerator.construct_base [Some steady]) with (Ok (SourceMerge.mk (A := Packet.t) [] [steady])).
    cbn [mbind outcome_bind]. by rewrite Hb. }
  intros n. exact (SourceMerge.NextEvents_sound _ _ _ constant_safe n b Hsound).
Qed.

(** The thread fills and produces a batch, [Init] gets it, the first event is
    handled. *)
Definition after_one : world (S := ConstantPacketSource.t) :=
  let p1 := Packet.construct (udp_tuple 1) 100 1500000000 in
  let p2 := Packet.construct (udp_tuple 1) 100 3000000000 in
  let p3 := Packet.construct (udp_tuple 1) 100 4500000000 in
  mkWorld (SourceMerge.mk [(p3, 0)] [ConstantPacketSource.mk (udp_tuple 1) 100 1500000000 4500000000])
    Filling (PtrQueue.mk 0 0 0 false [None]) (mk [None; Some p2] 1 7 false) (Getting false)
    [(1500000000%Z, Packet.set_tag p1 7)].

Lemma after_one_reached : rtc (step ConstantPacketSource.NextPacket 0 2) steady_world after_one.
Proof.
  eapply rtc_l; [eapply step_fill; [reflexivity|vm_compute; reflexivity]|].
  eapply rtc_l; [eapply step_produce; [reflexivity|vm_compute; reflexivity]|].
  eapply rtc_l; [eapply step_get; [reflexivity|vm_compute; reflexivity|vm_compute; reflexivity]|].
  eapply rtc_l; [eapply step_handle; [reflexivity|vm_compute; reflexivity]|].
  exact (rtc_refl _ _).
Qed.

Lemma BulkPacketGenerator_equivalent_witness :
  exists g1 calls1 outs g2 calls2,
    SingleThreadBulkPacketGenerator.construct ConstantPacketSource.NextPacket 0 [Some steady] = Ok (g1, calls1) /\
    SingleThreadBulkPacketGenerator.run ConstantPacketSource.NextPacket 0 1 g1 calls1 = Ok (outs, g2, calls2) /\
    sent after_one = (λ x, (x.1, Packet.set_tag x.2 7)) <$> outs.
Proof.
  destruct (BulkPacketGenerator_equivalent ConstantPacketSource.NextPacket 0 2 [Some steady] tagging steady_world after_one
              (Nat.lt_0_succ 1) eq_refl eq_refl eq_refl steady_never_fails after_one_reached)
    as (g1 & calls1 & outs & g2 & calls2 & H1 & H2 & H3 & _).
  exists g1, calls1, outs, g2, calls2. split; [exact H1|]. split; [exact H2|exact H3].
Defined.

Lemma BulkPacketGenerator_does_not_block_witness :
  waits after_one = true /\ exists w', step ConstantPacketSource.NextPacket 0 2 after_one w'.
Proof.
  split; [reflexivity|].
  exact (proj1 (BulkPacketGenerator_does_not_block ConstantPacketSource.NextPacket 0 2 [Some steady] tagging steady_world after_one
              (Nat.lt_0_succ 1) eq_refl eq_refl eq_refl steady_never_fails after_one_reached)).
Defined.

(** A spike of rate zero has no gap between packets that fits. *)
Example spike_of_rate_zero :
  SpikyPacketSource.NextPacket (SpikyPacketSource.construct (udp_tuple 2) [SpikyPacketSource.mkSpike 1 2 0] 1000) = Fail Undefined.
Proof. vm_compute. reflexivity. Qed.
