(* ===== verification/FlowDriver.v ===== *)
(** The drivers that add data to connections ([src/src/htsim/flow_driver.h],
    [flow_driver.cc]).  An independent driver produces timed events: those that
    were configured by hand, or packets at a rate that changes at key frames.
    A dependent driver reacts to its connection; what it does is a list of
    effects.  The events of both independent drivers are proved to be in the
    order of time, which is what [FlowPack] relies on. *)

From S2P Require Import Prelude Double PriorityQueue StdSort EventQueue SourceMerge.

(** ** [std::stable_sort] *)

(** An element goes in front of those that are not less. *)
Fixpoint stable_insert {A} (cmp : A -> A -> bool) (x : A) (l : list A) : list A :=
  match l with
  | [] => [x]
  | y :: l' => if cmp y x then y :: stable_insert cmp x l' else x :: y :: l'
  end.

Definition stable_sort {A} (cmp : A -> A -> bool) (l : list A) : list A := foldr (stable_insert cmp) [] l.

Lemma stable_insert_perm {A} (cmp : A -> A -> bool) x l : stable_insert cmp x l ≡ₚ x :: l.
Proof.
  induction l as [|y l IH]; [done|]. cbn. destruct (cmp y x); [|done]. by rewrite IH, Permutation_swap.
Qed.

Lemma stable_sort_perm {A} (cmp : A -> A -> bool) l : stable_sort cmp l ≡ₚ l.
Proof. induction l as [|x l IH]; [done|]. cbn. by rewrite stable_insert_perm, IH. Qed.

Lemma stable_insert_sorted {A} (cmp : A -> A -> bool) `{!StrictWeakOrder cmp} x l :
  sorted_by cmp l -> sorted_by cmp (stable_insert cmp x l).
Proof.
  induction 1 as [|y l Hl IH Hall]; [by repeat constructor|]. cbn. destruct (cmp y x) eqn:Hyx.
  - constructor; [done|]. rewrite stable_insert_perm. constructor; [by apply swo_asym|done].
  - constructor; [by constructor|]. constructor; [done|]. eapply Forall_impl; [exact Hall|]. intros z Hz.
    by apply (swo_trans _ y).
Qed.

Lemma stable_sort_sorted {A} (cmp : A -> A -> bool) `{!StrictWeakOrder cmp} l : sorted_by cmp (stable_sort cmp l).
Proof. induction l as [|x l IH]; [constructor|]. by apply stable_insert_sorted. Qed.

(** Elements of which none is less than another keep their order. *)
Lemma stable_sort_stable {A} (cmp : A -> A -> bool) (P : A -> Prop) `{forall x, Decision (P x)} l :
  (forall x y, P x -> P y -> cmp x y = false) -> filter P (stable_sort cmp l) = filter P l.
Proof.
  intros HP. induction l as [|x l IH]; [done|]. cbn [stable_sort foldr]. fold (stable_sort cmp l).
  rewrite filter_cons, <-IH. generalize (stable_sort cmp l). clear IH l. intros l.
  induction l as [|y l IH]; cbn [stable_insert]; [by rewrite filter_cons|].
  destruct (cmp y x) eqn:Hyx; [|by rewrite filter_cons].
  rewrite !filter_cons, IH. repeat case_decide; try done. by rewrite HP in Hyx.
Qed.

(** ** AddDataEvent *)
Module AddDataEvent.

Record t := mk { at_ : Z; bytes : Z; close : bool }.

#[global] Instance t_eq_dec : EqDecision t.
Proof. solve_decision. Defined.

Definition construct (at_ bytes : Z) : t := mk at_ bytes false.

Definition kAddDataInfinity : t := construct EventQueueTime.MaxTime 0.

(** [operator==] does not look at [close]. *)
Definition eqb (a b : t) : bool := ((at_ a =? at_ b) && (bytes a =? bytes b))%Z.

End AddDataEvent.

(** ** ManualFlowDriver *)
Module ManualFlowDriver.

(** The latest event is first. *)
Definition t : Type := list AddDataEvent.t.

Definition AddData (d : t) (events : list AddDataEvent.t) : t :=
  stable_sort (λ lhs rhs, AddDataEvent.at_ rhs <? AddDataEvent.at_ lhs)%Z (d ++ events).

Definition PeekNextAddData (d : t) : AddDataEvent.t := default AddDataEvent.kAddDataInfinity (last d).
Definition PopNextAddData (d : t) : t := take (length d - 1) d.

Definition Next (d : t) : AddDataEvent.t * t := (PeekNextAddData d, PopNextAddData d).

(** The events that are left are in order and do not lie before [t0]. *)
Definition ready (n : nat) (t0 : Z) (d : t) : Prop :=
  sorted_by (λ lhs rhs, AddDataEvent.at_ rhs <? AddDataEvent.at_ lhs)%Z d /\ Forall (λ ev, t0 <= AddDataEvent.at_ ev)%Z d.

Lemma AddData_ready n t0 d events :
  Forall (λ ev, t0 <= AddDataEvent.at_ ev)%Z (d ++ events) -> ready n t0 (AddData d events).
Proof.
  intros H. split; [apply stable_sort_sorted, (key_greater_swo AddDataEvent.at_)|]. unfold AddData. by rewrite stable_sort_perm.
Qed.

Lemma Manual_Next_ready n t0 d ev d' :
  ready (S n) t0 d -> Next d = (ev, d') ->
  (t0 <= AddDataEvent.at_ ev \/ AddDataEvent.at_ ev = EventQueueTime.MaxTime)%Z /\ ready n (AddDataEvent.at_ ev) d'.
Proof.
  intros [Hs Hall]. unfold Next, PeekNextAddData, PopNextAddData.
  destruct d as [|x d _] using rev_ind; [intros [= <- <-]; split; [by right|by split; constructor]|].
  rewrite last_snoc, length_app, Nat.add_sub, take_app_length. cbn [default]. intros [= <- <-].
  apply Forall_app in Hall as [Hall [Hx _]%Forall_cons]. split; [by left|].
  apply StronglySorted_app in Hs as (Hx' & Hs & _). split; [done|]. apply Forall_forall. intros e He.
  specialize (Hx' e x He ltac:(by constructor)). by apply Z.ltb_ge in Hx'.
Qed.

End ManualFlowDriver.

(** ** ConstantRateFlowDriver *)
Module ConstantRateFlowDriver.

Record RateKeyFrame := mkFrame { frame_at : Z; rate_bps : Z }.

Record t := mk {
  packet_size_bytes_ : Z;
  inter_packet_gap_ : Z;
  rate_change_key_frames_ : list RateKeyFrame;
  next_key_frame_index_ : nat;
  curr_time_ : Z;
  curr_rate_ : Z;
  second_ : Z
}.

Definition construct (packet_size_bytes second : Z) : t := mk packet_size_bytes 0 [] 0 0 0 second.

Definition AddRateChangeKeyframes (d : t) (key_frames : list RateKeyFrame) : t :=
  mk (packet_size_bytes_ d) (inter_packet_gap_ d)
     (stable_sort (λ lhs rhs, frame_at lhs <? frame_at rhs)%Z (rate_change_key_frames_ d ++ key_frames))
     (next_key_frame_index_ d) (curr_time_ d) (curr_rate_ d) (second_ d).

Definition NextKeyFrame (d : t) : outcome RateKeyFrame :=
  if next_key_frame_index_ d =? length (rate_change_key_frames_ d)
  then Ok (mkFrame EventQueueTime.MaxTime (curr_rate_ d))
  else vec_at (rate_change_key_frames_ d) (next_key_frame_index_ d).

(** [EventQueueTime(second_.Raw() / ((curr_rate_ / 8.0) / packet_size_bytes_))]. *)
Definition gap_at_rate (second packet_size rate : Z) : outcome Z :=
  Double.to_u64 (Double.div (Double.of_Z second)
    (Double.div (Double.div (Double.of_Z rate) (Double.of_Z 8)) (Double.of_Z packet_size))).

Definition AdvanceToNextKeyFrame (d : t) : outcome t :=
  next_key_frame ← NextKeyFrame d;
  gap ← gap_at_rate (second_ d) (packet_size_bytes_ d) (rate_bps next_key_frame);
  Ok (mk (packet_size_bytes_ d) gap (rate_change_key_frames_ d) (S (next_key_frame_index_ d))
         (frame_at next_key_frame) (rate_bps next_key_frame) (second_ d)).

Fixpoint Next_from (fuel : nat) (d : t) : outcome (AddDataEvent.t * t) :=
  match fuel with
  | O => Fail OutOfFuel
  | S fuel' =>
      if (curr_time_ d =? EventQueueTime.MaxTime)%Z
      then Ok (AddDataEvent.construct EventQueueTime.MaxTime 0, d)
      else
        let next_packet_time := EventQueueTime.add (curr_time_ d) (inter_packet_gap_ d) in
        next_key_frame ← NextKeyFrame d;
        if ((inter_packet_gap_ d =? 0) || (frame_at next_key_frame <? next_packet_time))%Z then
          d' ← AdvanceToNextKeyFrame d;
          Next_from fuel' d'
        else
          Ok (AddDataEvent.construct next_packet_time (packet_size_bytes_ d),
              mk (packet_size_bytes_ d) (inter_packet_gap_ d) (rate_change_key_frames_ d) (next_key_frame_index_ d)
                 next_packet_time (curr_rate_ d) (second_ d))
  end.

(** Every call of itself moves on to the next key frame, and the last one to
    the end of time. *)
Definition Next (d : t) : outcome (AddDataEvent.t * t) :=
  Next_from (S (S (length (rate_change_key_frames_ d) - next_key_frame_index_ d))) d.

(** A key frame whose rate gives a gap that fits; the clock does not reach the
    end of time within [n] packets. *)
Definition frame_ok (n : nat) (d : t) (f : RateKeyFrame) : Prop :=
  exists g, gap_at_rate (second_ d) (packet_size_bytes_ d) (rate_bps f) = Ok g /\ (0 < g)%Z /\ (0 <= frame_at f)%Z /\
    (frame_at f + Z.of_nat n * g < EventQueueTime.MaxTime)%Z.

(** The key frames that are left. *)
Record frames_ok (n : nat) (d : t) : Prop := {
  frames_index : next_key_frame_index_ d <= length (rate_change_key_frames_ d);
  frames_valid i f : next_key_frame_index_ d <= i -> rate_change_key_frames_ d !! i = Some f -> frame_ok n d f;
  frames_order i f f' : next_key_frame_index_ d <= i ->
    rate_change_key_frames_ d !! i = Some f -> rate_change_key_frames_ d !! S i = Some f' -> (frame_at f <= frame_at f')%Z
}.

(** In the middle of a key frame. *)
Definition running (n : nat) (t0 : Z) (d : t) : Prop :=
  (0 < inter_packet_gap_ d /\ 0 <= curr_time_ d /\ t0 <= curr_time_ d)%Z /\
  (curr_time_ d + Z.of_nat n * inter_packet_gap_ d < EventQueueTime.MaxTime)%Z /\
  (forall f, rate_change_key_frames_ d !! next_key_frame_index_ d = Some f -> curr_time_ d <= frame_at f)%Z.

(** Before the first key frame. *)
Definition unstarted (t0 : Z) (d : t) : Prop :=
  inter_packet_gap_ d = 0%Z /\ curr_time_ d <> EventQueueTime.MaxTime /\
  exists f, rate_change_key_frames_ d !! next_key_frame_index_ d = Some f /\ (t0 <= frame_at f)%Z.

Definition ready (n : nat) (t0 : Z) (d : t) : Prop := frames_ok n d /\ (running n t0 d \/ unstarted t0 d).

Lemma frames_ok_less n d : frames_ok (S n) d -> frames_ok n d.
Proof.
  intros [H1 H2 H3]. split; [done| |done]. intros i f Hi Hf. destruct (H2 i f Hi Hf) as (g & ? & ? & ? & ?).
  exists g. split_and!; [done..|lia].
Qed.

Lemma ready_less n t0 d : ready (S n) t0 d -> ready n t0 d.
Proof.
  intros [Hf Hr]. split; [by apply frames_ok_less|]. destruct Hr as [(H1 & H2 & H3)|Hu]; [left|by right].
  split_and!; try done; lia.
Qed.

(** Moving on to a key frame. *)
Lemma Advance_running n t0 d f :
  frames_ok n d -> rate_change_key_frames_ d !! next_key_frame_index_ d = Some f -> (t0 <= frame_at f)%Z ->
  exists d', AdvanceToNextKeyFrame d = Ok d' /\ frames_ok n d' /\ running n t0 d' /\
    rate_change_key_frames_ d' = rate_change_key_frames_ d /\ next_key_frame_index_ d' = S (next_key_frame_index_ d).
Proof.
  intros [Hidx Hval Hord] Hf Ht. pose proof (lookup_lt_Some _ _ _ Hf) as Hlt. unfold AdvanceToNextKeyFrame, NextKeyFrame.
  rewrite (proj2 (Nat.eqb_neq _ _)), (proj2 (vec_at_Ok _ _ _) Hf) by lia. cbn [mbind outcome_bind].
  destruct (Hval _ f (Nat.le_refl _) Hf) as (g & Hg & Hg0 & Hat & Hend). rewrite Hg. cbn [mbind outcome_bind].
  eexists. split; [done|]. split; [|split; [split_and!; try done|done]].
  - split; cbn [next_key_frame_index_ rate_change_key_frames_]; [lia| |].
    + intros i f' Hi Hf'. apply (Hval i f'); [lia|done].
    + intros i f1 f2 Hi. apply Hord. lia.
  - intros f' Hf'. by apply (Hord (next_key_frame_index_ d) f f').
Qed.

Definition emits (n : nat) (t0 : Z) (r : outcome (AddDataEvent.t * t)) : Prop :=
  exists ev d', r = Ok (ev, d') /\ (t0 <= AddDataEvent.at_ ev < EventQueueTime.MaxTime)%Z /\ ready n (AddDataEvent.at_ ev) d'.

(** The next key frame is not before the next packet. *)
Lemma Next_packet fuel n t0 d f :
  frames_ok (S n) d -> running (S n) t0 d -> NextKeyFrame d = Ok f ->
  (curr_time_ d + inter_packet_gap_ d <= frame_at f)%Z -> emits n t0 (Next_from (S fuel) d).
Proof.
  intros Hok ((Hgap & Hcur & Ht) & Hend & Hnext) Hf Hle. cbn [Next_from]. unfold EventQueueTime.MaxTime, umax in *.
  assert (Hadd : EventQueueTime.add (curr_time_ d) (inter_packet_gap_ d) = (curr_time_ d + inter_packet_gap_ d)%Z)
    by (apply wrap_id; nia).
  rewrite Hadd, (proj2 (Z.eqb_neq (curr_time_ d) _)), Hf by nia. cbn [mbind outcome_bind].
  rewrite (proj2 (Z.eqb_neq (inter_packet_gap_ d) _)), (proj2 (Z.ltb_ge _ _)) by lia. cbn [orb].
  do 2 eexists. split; [done|]. cbn [AddDataEvent.construct AddDataEvent.at_].
  split; [unfold EventQueueTime.MaxTime, umax; nia|]. split; [by destruct (frames_ok_less n d Hok)|]. left.
  unfold running, EventQueueTime.MaxTime, umax. cbn [inter_packet_gap_ curr_time_ rate_change_key_frames_ next_key_frame_index_].
  split_and!; try nia. intros f' Hf'. unfold NextKeyFrame in Hf. pose proof (lookup_lt_Some _ _ _ Hf').
  rewrite (proj2 (Nat.eqb_neq _ _)), (proj2 (vec_at_Ok _ _ _) Hf') in Hf by lia. by injection Hf as <-.
Qed.

(** The next key frame comes first. *)
Lemma Next_frame fuel d f d' :
  NextKeyFrame d = Ok f -> AdvanceToNextKeyFrame d = Ok d' -> curr_time_ d <> EventQueueTime.MaxTime ->
  inter_packet_gap_ d = 0%Z \/ (frame_at f < EventQueueTime.add (curr_time_ d) (inter_packet_gap_ d))%Z ->
  Next_from (S fuel) d = Next_from fuel d'.
Proof.
  intros Hf Hd Hcur Hor. cbn [Next_from]. rewrite (proj2 (Z.eqb_neq _ _) Hcur), Hf. cbn [mbind outcome_bind].
  assert ((inter_packet_gap_ d =? 0) || (frame_at f <? EventQueueTime.add (curr_time_ d) (inter_packet_gap_ d)) = true)%Z as ->.
  { apply orb_true_iff. destruct Hor; [left; by apply Z.eqb_eq|right; by apply Z.ltb_lt]. }
  by rewrite Hd.
Qed.

Lemma Next_running m : forall n t0 d fuel,
  m = length (rate_change_key_frames_ d) - next_key_frame_index_ d -> m < fuel ->
  frames_ok (S n) d -> running (S n) t0 d -> emits n t0 (Next_from fuel d).
Proof.
  induction m as [|m IH]; intros n t0 d [|fuel] Hm Hfuel Hok Hrun; try lia;
    pose proof Hok as [Hidx _ _]; pose proof Hrun as ((Hgap & Hcur & Ht) & Hend & Hnext).
  - eapply Next_packet; [done..| |]; [unfold NextKeyFrame; by rewrite (proj2 (Nat.eqb_eq _ _)) by lia|]. cbn [frame_at]. nia.
  - destruct (lookup_lt_is_Some_2 (rate_change_key_frames_ d) (next_key_frame_index_ d)) as [f Hf]; [lia|].
    assert (Hkey : NextKeyFrame d = Ok f).
    { unfold NextKeyFrame. rewrite (proj2 (Nat.eqb_neq _ _)) by lia. by apply vec_at_Ok. }
    destruct (decide (curr_time_ d + inter_packet_gap_ d <= frame_at f)%Z) as [Hle|Hlt]; [by eapply Next_packet|].
    destruct (Advance_running (S n) t0 d f Hok Hf) as (d' & Hd & Hok' & Hrun' & Hfr & Hix); [specialize (Hnext f Hf); lia|].
    unfold EventQueueTime.MaxTime, umax in *.
    rewrite (Next_frame fuel d f d'); [|done|done|unfold EventQueueTime.MaxTime, umax; nia|].
    + apply IH; [rewrite Hfr, Hix; lia|lia|done|done].
    + right. assert (EventQueueTime.add (curr_time_ d) (inter_packet_gap_ d) = curr_time_ d + inter_packet_gap_ d)%Z as ->; [|lia].
      apply wrap_id. nia.
Qed.

Lemma Next_ready n t0 d : ready (S n) t0 d -> emits n t0 (Next d).
Proof.
  intros [Hok [Hrun|(Hgap & Hcur & f & Hf & Ht)]]; unfold Next.
  - eapply Next_running; [done|lia|done|done].
  - pose proof (lookup_lt_Some _ _ _ Hf) as Hlt.
    destruct (Advance_running (S n) t0 d f Hok Hf Ht) as (d' & Hd & Hok' & Hrun' & Hfr & Hix).
    rewrite (Next_frame _ d f d'); [|unfold NextKeyFrame|done|done|by left].
    + eapply Next_running; [done|rewrite Hfr, Hix; lia|done|done].
    + rewrite (proj2 (Nat.eqb_neq _ _)) by lia. by apply vec_at_Ok.
Qed.

End ConstantRateFlowDriver.

(** ** IndependentFlowDriver: the virtual [Next] *)
Module IndependentFlowDriver.

Inductive t : Type :=
| Manual (d : ManualFlowDriver.t)
| ConstantRate (d : ConstantRateFlowDriver.t).

Definition Next (d : t) : outcome (AddDataEvent.t * t) :=
  match d with
  | Manual d => let '(ev, d') := ManualFlowDriver.Next d in Ok (ev, Manual d')
  | ConstantRate d => '(ev, d') ← ConstantRateFlowDriver.Next d; Ok (ev, ConstantRate d')
  end.

(** [Next] as [FlowPack] uses it: an event at the end of time is none. *)
Definition pull (d : t) : outcome (option AddDataEvent.t * t) :=
  '(ev, d') ← Next d;
  Ok (if (AddDataEvent.at_ ev =? EventQueueTime.MaxTime)%Z then None else Some ev, d').

Definition ready (n : nat) (t0 : Z) (d : t) : Prop :=
  match d with
  | Manual d => ManualFlowDriver.ready n t0 d
  | ConstantRate d => ConstantRateFlowDriver.ready n t0 d
  end.

#[global] Instance orderly : SourceMerge.Orderly AddDataEvent.at_ pull ready.
Proof.
  split; intros n t0 [d|d] Hr; cbn [ready] in *; [done|by apply ConstantRateFlowDriver.ready_less| |]; unfold pull; cbn [Next].
  - destruct (ManualFlowDriver.Next d) as [ev d'] eqn:Hd. cbn [mbind outcome_bind].
    destruct (ManualFlowDriver.Manual_Next_ready n t0 d ev d' Hr Hd) as [Ht Hr']. do 2 eexists. split; [done|].
    destruct (Z.eqb_spec (AddDataEvent.at_ ev) EventQueueTime.MaxTime) as [He|He]; [done|]. split; [|done]. by destruct Ht.
  - destruct (ConstantRateFlowDriver.Next_ready n t0 d Hr) as (ev & d' & -> & Ht & Hr'). cbn [mbind outcome_bind].
    do 2 eexists. split; [done|]. rewrite (proj2 (Z.eqb_neq _ _)) by lia. split; [lia|done].
Qed.

End IndependentFlowDriver.

(** ** ObjectSizeAndWaitTimeGenerator *)
Module ObjectSizes.

Record ObjectSizeAndWaitTime := mkObject { object_size : Z; wait_time : Z }.

Section default_generator.
Context {R : Type}.

(** Draws of the two exponential distributions from [generator_]. *)
Variable object_size_distribution_ wait_time_distribution_ : R -> spec_float * R.

Record t := mk {
  mean_object_size_ : Z;
  mean_wait_time_ : Z;
  object_size_fixed_ : bool;
  wait_time_fixed_ : bool;
  generator_ : R;
  constant_delay_ms_ : Z
}.

(** The mean wait time is in milliseconds. *)
Definition construct (mean_object_size_bytes : Z) (size_fixed : bool) (mean_wait_time_ms : Z)
    (wait_time_fixed : bool) (generator : R) : t :=
  mk mean_object_size_bytes (u64 mean_wait_time_ms) size_fixed wait_time_fixed generator 0.

Definition set_constant_delay (g : t) (constant_delay : Z) : t :=
  mk (mean_object_size_ g) (mean_wait_time_ g) (object_size_fixed_ g) (wait_time_fixed_ g) (generator_ g) (u64 constant_delay).

Definition Next (g : t) : outcome (ObjectSizeAndWaitTime * t) :=
  '(object_size_bytes, r1) ←
    (if (mean_object_size_ g =? umax 64)%Z then Ok (umax 64, generator_ g)
     else if object_size_fixed_ g then Ok (mean_object_size_ g, generator_ g)
     else
       let '(draw, r) := object_size_distribution_ (generator_ g) in
       x ← Double.to_u64 draw; Ok (Z.max 1 x, r));
  '(wait_time_ms, r2) ←
    (if (mean_wait_time_ g =? 0)%Z then Ok (0%Z, r1)
     else if wait_time_fixed_ g then Ok (mean_wait_time_ g, r1)
     else
       let '(draw, r) := wait_time_distribution_ r1 in
       x ← Double.to_u64 (Double.add (Double.of_Z (constant_delay_ms_ g)) draw); Ok (Z.max 1 x, r));
  wait_time ← EventQueue.RawMillisToTime wait_time_ms;
  Ok (mkObject object_size_bytes wait_time,
      mk (mean_object_size_ g) (mean_wait_time_ g) (object_size_fixed_ g) (wait_time_fixed_ g) r2 (constant_delay_ms_ g)).

End default_generator.
End ObjectSizes.

(** ** Dependent drivers *)
Module DependentFlowDriver.
Import ObjectSizes.
Section driver.
Context {G : Type}.

(** The virtual [Next] of the generator that the driver owns. *)
Variable generator_Next : G -> ObjectSizeAndWaitTime * G.

(** A connection is named by a number. *)
Record t := mk { generator_ : G; data_to_add_ : Z; connection_ : option nat }.

(** What a driver does, in order.  The callback of [OnSendBufferDrained] calls
    [ScheduleNext] or does nothing. *)
Inductive effect : Type :=
| EnqueueIn (in_ : Z)
| OnSendBufferDrained (connection : nat) (schedules : bool)
| AddData (connection : nat) (bytes : Z).

(** [ScheduleNext], the same in both classes. *)
Definition ScheduleNext (d : t) : t * list effect :=
  let '(next, g) := generator_Next (generator_ d) in
  (mk g (object_size next) (connection_ d), [EnqueueIn (wait_time next)]).

Definition construct (generator : G) : t * list effect := ScheduleNext (mk generator 0 None).

Definition ConnectionAttached (d : t) (connection : nat) : t := mk (generator_ d) (data_to_add_ d) (Some connection).

(** The pointer to the connection, which is followed. *)
Definition the_connection (d : t) : outcome nat :=
  match connection_ d with Some c => Ok c | None => Fail Undefined end.

Definition FeedbackLoop_HandleEvent (d : t) : outcome (t * list effect) :=
  let prev_data_to_add := data_to_add_ d in
  let '(d1, effects) := if (data_to_add_ d =? 0)%Z then ScheduleNext d else (d, []) in
  if (prev_data_to_add =? 0)%Z then Ok (d1, effects)
  else
    c ← the_connection d1;
    Ok (d1, effects ++ [OnSendBufferDrained c true; AddData c (data_to_add_ d1)]).

Definition OpenLoop_HandleEvent (d : t) : outcome (t * list effect) :=
  c ← the_connection d;
  let '(d', effects) := ScheduleNext d in
  Ok (d', [OnSendBufferDrained c false; AddData c (data_to_add_ d)] ++ effects).

(** *** A driver with its event queue and its connection *)

(** [events] counts the events of the driver in the queue, [callback] tells
    whether the connection will call [ScheduleNext]; [added] is the data that
    was added. *)
Record world := mkWorld { driver : t; events : nat; callback : bool; added : list Z }.

Definition perform (w : world) (x : effect) : world :=
  match x with
  | EnqueueIn _ => mkWorld (driver w) (S (events w)) (callback w) (added w)
  | OnSendBufferDrained _ b => mkWorld (driver w) (events w) b (added w)
  | AddData _ n => mkWorld (driver w) (events w) (callback w) (added w ++ [n])
  end.

Definition performs (w : world) (d : t) (l : list effect) : world :=
  fold_left perform l (mkWorld d (events w) (callback w) (added w)).

(** The queue hands an event to the driver; the connection calls the callback
    when its buffer is drained, and forgets it. *)
Inductive step (HandleEvent : t -> outcome (t * list effect)) : world -> world -> Prop :=
| step_event w d' l :
    0 < events w -> HandleEvent (driver w) = Ok (d', l) ->
    step HandleEvent w (performs (mkWorld (driver w) (pred (events w)) (callback w) (added w)) d' l)
| step_drained w d' l :
    callback w = true -> ScheduleNext (driver w) = (d', l) ->
    step HandleEvent w (let w' := performs w d' l in mkWorld (driver w') (events w') false (added w')).

Definition start (generator : G) (connection : nat) : world :=
  let '(d, l) := construct generator in
  performs (mkWorld d 0 false []) (ConnectionAttached d connection) l.

(** The objects that the generator makes. *)
Fixpoint objects (n : nat) (g : G) : list Z :=
  match n with
  | O => []
  | S n' => object_size (generator_Next g).1 :: objects n' (generator_Next g).2
  end.

(** The generator after [n] objects. *)
Definition advanced (n : nat) (g : G) : G := Nat.iter n (λ g, (generator_Next g).2) g.

#[local] Arguments advanced : simpl never.

Lemma advanced_S n g : advanced (S n) g = (generator_Next (advanced n g)).2.
Proof using Type. done. Qed.

Lemma objects_snoc n g : objects (S n) g = objects n g ++ [object_size (generator_Next (advanced n g)).1].
Proof using Type.
  revert g. induction n as [|n IH]; intros g; [done|].
  change (objects (S (S n)) g) with (object_size (generator_Next g).1 :: objects (S n) (generator_Next g).2).
  rewrite IH. cbn [objects app]. f_equal. f_equal. f_equal. f_equal. f_equal. f_equal. exact (Nat.iter_swap n _ (λ g, (generator_Next g).2) g).
Qed.

(** The driver made [n + 1] objects and has the last one still to add, or it
    made [n] and has added them; [f] selects those that it adds. *)
Record inv (f : Z -> bool) (g : G) (c : nat) (w : world) : Prop := {
  inv_connection : connection_ (driver w) = Some c;
  inv_one : (events w = 1 /\ callback w = false) \/ (events w = 0 /\ callback w = true);
  inv_added : exists n,
    if callback w
    then generator_ (driver w) = advanced n g /\ added w = filter (λ x, f x = true) (objects n g)
    else generator_ (driver w) = advanced (S n) g /\ added w = filter (λ x, f x = true) (objects n g) /\
      data_to_add_ (driver w) = object_size (generator_Next (advanced n g)).1
}.

Lemma start_inv f g c : inv f g c (start g c).
Proof using Type.
  unfold start, construct, ScheduleNext. cbn [generator_]. destruct (generator_Next g) as [next g'] eqn:Hg. cbn.
  split; cbn; [done|by left|]. exists 0. unfold advanced. cbn. by rewrite Hg.
Qed.

(** Another object. *)
Lemma ScheduleNext_inv (f : Z -> bool) g c n d d' l cb :
  connection_ d = Some c -> generator_ d = advanced n g -> ScheduleNext d = (d', l) ->
  inv f g c (let w' := performs (mkWorld d 0 cb (filter (λ x, f x = true) (objects n g))) d' l in
             mkWorld (driver w') (events w') false (added w')).
Proof using Type.
  intros Hc Hg Hs. unfold ScheduleNext in Hs. destruct (generator_Next (generator_ d)) as [next g'] eqn:Hnext.
  injection Hs as <- <-. cbn. split; cbn; [done|by left|]. exists n. by rewrite advanced_S, <-Hg, Hnext.
Qed.

Lemma Feedback_step_inv g c w w' :
  inv (λ x, negb (x =? 0)%Z) g c w -> step FeedbackLoop_HandleEvent w w' -> inv (λ x, negb (x =? 0)%Z) g c w'.
Proof using Type.
  intros [Hc Hone (n & Hn)] Hstep. destruct Hstep as [[d ev cb ad] d' l Hev Hh|[d ev cb ad] d' l Hcb Hs];
    cbn [driver events callback added] in *.
  - destruct Hone as [[-> ->]|[-> _]]; [|lia]. destruct Hn as (Hg & -> & Hdata). cbn [pred].
    unfold FeedbackLoop_HandleEvent in Hh. destruct (Z.eqb_spec (data_to_add_ d) 0) as [Hz|Hz].
    + destruct (ScheduleNext d) as [d1 l1] eqn:Hs. injection Hh as <- <-.
      assert (filter (λ x, negb (x =? 0)%Z = true) (objects n g) = filter (λ x, negb (x =? 0)%Z = true) (objects (S n) g)) as ->.
      { rewrite objects_snoc, filter_app, <-Hdata, Hz. cbn. by rewrite app_nil_r. }
      pose proof (ScheduleNext_inv (λ x, negb (x =? 0)%Z) g c (S n) d d1 l1 false Hc Hg Hs) as H.
      unfold ScheduleNext in Hs. destruct (generator_Next _) in Hs. injection Hs as <- <-. exact H.
    + unfold the_connection in Hh. rewrite Hc in Hh. injection Hh as <- <-. cbn. split; cbn; [done|by right|].
      exists (S n). split; [done|]. rewrite objects_snoc, filter_app, <-Hdata, filter_cons.
      rewrite decide_True; [done|]. by rewrite (proj2 (Z.eqb_neq _ _) Hz).
  - subst cb. destruct Hone as [[_ ?]|[-> _]]; [done|]. destruct Hn as [Hg ->]. by apply ScheduleNext_inv.
Qed.

Lemma Open_step_inv g c w w' :
  inv (λ _, true) g c w -> callback w = false -> step OpenLoop_HandleEvent w w' ->
  inv (λ _, true) g c w' /\ callback w' = false.
Proof using Type.
  intros [Hc Hone (n & Hn)] Hcb Hstep. destruct Hstep as [[d ev cb ad] d' l Hev Hh|[d ev cb ad] d' l Hcb' Hs];
    cbn [driver events callback added] in *; [|congruence].
  subst cb. destruct Hone as [[-> _]|[_ ?]]; [|done]. destruct Hn as (Hg & -> & Hdata).
  unfold OpenLoop_HandleEvent, the_connection in Hh. rewrite Hc in Hh. cbn [mbind outcome_bind] in Hh.
  unfold ScheduleNext in Hh. destruct (generator_Next (generator_ d)) as [next g'] eqn:Hnext. injection Hh as <- <-.
  cbn. split; [|done]. split; cbn; [done|by left|]. exists (S n). split_and!.
  - by rewrite advanced_S, <-Hg, Hnext.
  - by rewrite objects_snoc, filter_app, <-Hdata.
  - by rewrite <-Hg, Hnext.
Qed.

End driver.
End DependentFlowDriver.

Import DependentFlowDriver.

(** A feedback loop has one transfer in progress at a time.  Whatever the
    order in which events are handled and buffers are drained, the driver either
    has exactly one event in the queue and no callback registered, or no event
    and the callback of the transfer in progress; the data that it has added is
    a prefix of the objects of its generator, in order and without those of size
    zero, and when a transfer is in progress it is the object that was made
    last. *)
Theorem FeedbackLoopFlowDriver_one_transfer {G} (generator_Next : G -> ObjectSizes.ObjectSizeAndWaitTime * G) g c w :
  rtc (step generator_Next (FeedbackLoop_HandleEvent generator_Next)) (start generator_Next g c) w ->
  ((events w = 1 /\ callback w = false) \/ (events w = 0 /\ callback w = true)) /\
  exists n, added w = filter (λ x, negb (x =? 0)%Z = true) (objects generator_Next n g) /\
    generator_ (driver w) = advanced generator_Next (if callback w then n else S n) g.
Proof.
  intros Hr. assert (inv generator_Next (λ x, negb (x =? 0)%Z) g c w) as [_ Hone (n & Hn)].
  { revert w Hr. apply rtc_ind_r; [apply start_inv|]. intros w w' _ Hstep Hw. by eapply Feedback_step_inv. }
  split; [done|]. exists n. destruct (callback w); [by destruct Hn|]. by destruct Hn as (? & ? & _).
Qed.

(** A generator of objects of 5, 0, 5, 0, ... bytes. *)
Definition every_other (b : bool) : ObjectSizes.ObjectSizeAndWaitTime * bool :=
  (ObjectSizes.mkObject (if b then 5 else 0) 10, negb b).

Definition second_transfer : world (G := bool) := mkWorld (mk true 0 (Some 3)) 1 false [5%Z].

Lemma second_transfer_reached :
  rtc (step every_other (FeedbackLoop_HandleEvent every_other)) (start every_other true 3) second_transfer.
Proof.
  eapply rtc_l; [eapply step_event; [cbn; lia|reflexivity]|].
  eapply rtc_l; [eapply step_drained; reflexivity|]. exact (rtc_refl _ _).
Qed.

Lemma FeedbackLoopFlowDriver_one_transfer_witness :
  events second_transfer = 1 /\
  exists n, added second_transfer = filter (λ x, negb (x =? 0)%Z = true) (objects every_other n true).
Proof.
  destruct (FeedbackLoopFlowDriver_one_transfer every_other true 3 second_transfer second_transfer_reached) as [_ (n & Hn & _)].
  split; [reflexivity|]. exists n. exact Hn.
Defined.

(** An open loop adds data without waiting for its connection: it always has
    exactly one event, and every object, of size zero or not, is added. *)
Lemma OpenLoopFlowDriver_does_not_wait {G} (generator_Next : G -> ObjectSizes.ObjectSizeAndWaitTime * G) g c w :
  rtc (step generator_Next (OpenLoop_HandleEvent generator_Next)) (start generator_Next g c) w ->
  events w = 1 /\ exists n, added w = objects generator_Next n g.
Proof.
  intros Hr. assert (inv generator_Next (λ _, true) g c w /\ callback w = false) as [[_ Hone (n & Hn)] Hcb].
  { revert w Hr. apply rtc_ind_r.
    - split; [apply start_inv|]. unfold start, construct, ScheduleNext. cbn. by destruct (generator_Next g).
    - intros w w' _ Hstep [Hw Hcb]. by eapply Open_step_inv. }
  rewrite Hcb in *. split; [by destruct Hone as [[? _]|[_ ?]]|]. exists n. destruct Hn as (_ & -> & _).
  apply list_filter_all. by apply Forall_forall.
Qed.

(** The delay that is to be added to all wait times is only added to those that
    are drawn. *)
Example constant_delay_ignored (size_draw wait_draw : unit -> spec_float * unit) :
  let g := ObjectSizes.set_constant_delay (ObjectSizes.construct 1000 true 20 true tt) 500 in
  (fst <$> ObjectSizes.Next size_draw wait_draw g) = Ok (ObjectSizes.mkObject 1000 20000000000).
Proof. vm_compute. reflexivity. Qed.

(** A driver without key frames, and one whose rate becomes zero, convert an
    infinite gap to an integer. *)
Example no_key_frames_undefined :
  ConstantRateFlowDriver.Next (ConstantRateFlowDriver.construct 1000 1000000000000) = Fail Undefined.
Proof. vm_compute. reflexivity. Qed.

Example rate_zero_undefined :
  ConstantRateFlowDriver.Next
    (ConstantRateFlowDriver.AddRateChangeKeyframes (ConstantRateFlowDriver.construct 1000 1000000000000)
       [ConstantRateFlowDriver.mkFrame 0 0; ConstantRateFlowDriver.mkFrame 5000 8000]) = Fail Undefined.
Proof. vm_compute. reflexivity. Qed.
