(* ===== verification/FlowPack.v ===== *)
(** [FlowPack] ([src/src/htsim/flow_driver.h], [flow_driver.cc]): connections
    that are managed by independent drivers.  The events of the drivers are
    merged with [SourceMerge], a number of them ahead of time into a cache; the
    pack is a consumer of the event queue that handles the cached events one
    after the other.  The cache is proved to be invisible: whatever its size,
    the events are handled in the order of the merge, each at its time. *)

From S2P Require Import Prelude PriorityQueue StdSort EventQueue SourceMerge FlowDriver.

Import EventQueue.

Module FlowPack.
Section pack.
Context {G : Type}.

(** The address of the pack in the event queue, and [kEventCacheSize]. *)
Variable consumer cache_size : nat.

(** The event and the index of [connection_and_driver]; the pointer of an entry
    that was never written is null. *)
Definition entry : Type := AddDataEvent.t * option nat.

Record t := mk {
  drivers : SourceMerge.t (A := AddDataEvent.t) (S := IndependentFlowDriver.t);
  connections : list nat;
  dependent_drivers_ : list (DependentFlowDriver.t (G := G));
  pending_events_ : list entry;
  next_event_index_ : nat;
  num_events_cached_ : nat
}.

Definition construct : t :=
  mk (SourceMerge.mk [] []) [] [] (replicate cache_size (AddDataEvent.kAddDataInfinity, None)) 0 0.

(** A driver as [AddDriver] gets it, with its type. *)
Inductive FlowDriver : Type :=
| INDEPENDENT (d : IndependentFlowDriver.t)
| DEPENDENT (d : DependentFlowDriver.t (G := G)).

Definition AddDriver (p : t) (driver : FlowDriver) (connection : nat) : t :=
  match driver with
  | INDEPENDENT d =>
      mk (SourceMerge.mk (SourceMerge.queue_ (drivers p)) (SourceMerge.sources_ (drivers p) ++ [d]))
         (connections p ++ [connection]) (dependent_drivers_ p) (pending_events_ p) (next_event_index_ p) (num_events_cached_ p)
  | DEPENDENT d =>
      mk (drivers p) (connections p) (dependent_drivers_ p ++ [DependentFlowDriver.ConnectionAttached d connection]) (pending_events_ p) (next_event_index_ p) (num_events_cached_ p)
  end.

Definition set_drivers (p : t) (m : SourceMerge.t) : t :=
  mk m (connections p) (dependent_drivers_ p) (pending_events_ p) (next_event_index_ p) (num_events_cached_ p).
Definition set_pending (p : t) (l : list entry) : t :=
  mk (drivers p) (connections p) (dependent_drivers_ p) l (next_event_index_ p) (num_events_cached_ p).
Definition set_cache (p : t) (index cached : nat) : t :=
  mk (drivers p) (connections p) (dependent_drivers_ p) (pending_events_ p) index cached.

Definition AddFirstEvents (p : t) : outcome t :=
  m ← SourceMerge.AddInitialEvents AddDataEvent.at_ IndependentFlowDriver.pull (drivers p);
  Ok (set_drivers p m).

(** The loop of [CacheEvents] from [i], with [n] rounds left: the number of
    events that were cached. *)
Fixpoint CacheEvents_from (n i : nat) (p : t) : outcome (nat * t) :=
  match n with
  | O => Ok (i, p)
  | S n' =>
      '(ev, m) ← SourceMerge.NextEvent AddDataEvent.at_ IndependentFlowDriver.pull (drivers p);
      match ev with
      | None => Ok (i, set_drivers p m)
      | Some (ev, d) =>
          _ ← vec_at (pending_events_ p) i;
          CacheEvents_from n' (S i) (set_pending (set_drivers p m) (<[i := (ev, Some d)]> (pending_events_ p)))
      end
  end.

Definition CacheEvents (p : t) : outcome (nat * t) := CacheEvents_from cache_size 0 p.

(** [EnqueueAt(pending_events_[i].add_data_event.at)]. *)
Definition enqueue (p : t) (i : nat) : outcome (list call) :=
  ev ← vec_at (pending_events_ p) i;
  Ok [CallEnqueueAt consumer (AddDataEvent.at_ ev.1)].

Definition Init (p : t) : outcome (t * list call) :=
  p1 ← AddFirstEvents p;
  '(n, p2) ← CacheEvents p1;
  let p3 := set_cache p2 (next_event_index_ p2) n in
  calls ← (if n =? 0 then Ok [] else enqueue p3 0);
  Ok (p3, calls).

(** What is done to a connection. *)
Inductive action : Type :=
| Close (connection : nat)
| AddData (connection : nat) (bytes : Z).

Definition action_of (ev : AddDataEvent.t) (connection : nat) : list action :=
  if AddDataEvent.close ev then [Close connection]
  else if (AddDataEvent.bytes ev =? 0)%Z then [] else [AddData connection (AddDataEvent.bytes ev)].

Definition HandleEvent (p : t) : outcome (list action * t * list call) :=
  '(ev, driver) ← vec_at (pending_events_ p) (next_event_index_ p);
  let p1 := set_cache p (S (next_event_index_ p)) (num_events_cached_ p) in
  connection ← (match driver with Some d => vec_at (connections p1) d | None => Fail Undefined end);
  let actions := action_of ev connection in
  if next_event_index_ p1 =? num_events_cached_ p1 then
    '(n, p2) ← CacheEvents p1;
    let p3 := set_cache p2 0 n in
    if n =? 0 then Ok (actions, p3, [])
    else calls ← enqueue p3 0; Ok (actions, p3, calls)
  else calls ← enqueue p1 (next_event_index_ p1); Ok (actions, p1, calls).

(** At most [n] events of the pack, each at the time for which it was scheduled;
    the actions with their times. *)
Fixpoint run (n : nat) (p : t) (calls : list call) : outcome (list (Z * action) * t * list call) :=
  match n, calls with
  | S n', [CallEnqueueAt _ now] =>
      '(actions, p', calls') ← HandleEvent p;
      '(rest, p'', calls'') ← run n' p' calls';
      Ok (((λ a, (now, a)) <$> actions) ++ rest, p'', calls'')
  | _, _ => Ok ([], p, calls)
  end.

End pack.

Definition kEventCacheSize : nat := Z.to_nat 1000000.

(** ** The cache is invisible *)
Section cache.
Context {G : Type}.
Variable consumer cache_size : nat.
Hypothesis Hcache : 0 < cache_size.

Notation merge := (SourceMerge.t (A := AddDataEvent.t) (S := IndependentFlowDriver.t)).
Notation merge_next n m := (SourceMerge.NextEvents AddDataEvent.at_ IndependentFlowDriver.pull n m).

Definition cached (e : AddDataEvent.t * nat) : entry := (e.1, Some e.2).

Lemma CacheEvents_from_spec n : forall i (p : t (G := G)) l m,
  merge_next n (drivers p) = Ok (l, m) -> i + n <= length (pending_events_ p) ->
  exists pend, CacheEvents_from n i p = Ok (i + length l, set_pending (set_drivers p m) pend) /\
    length pend = length (pending_events_ p) /\ (forall j, j < i -> pend !! j = pending_events_ p !! j) /\
    (forall j e, l !! j = Some e -> pend !! (i + j) = Some (cached e)).
Proof using Type.
  clear Hcache. induction n as [|n IH]; intros i p l m Hl Hlen; cbn [SourceMerge.NextEvents CacheEvents_from] in *.
  { injection Hl as <- <-. exists (pending_events_ p). rewrite Nat.add_0_r. destruct p. by split_and!. }
  apply bind_Ok in Hl as ([[[ev d]|] m1] & Hm1 & Hl); rewrite Hm1; cbn [mbind outcome_bind].
  - apply bind_Ok in Hl as ([l2 m2] & Hl2 & [= <- <-]).
    destruct (vec_at_lt (pending_events_ p) i) as [x ->]; [lia|]. cbn [mbind outcome_bind].
    set (p1 := set_pending (set_drivers p m1) (<[i := (ev, Some d)]> (pending_events_ p))).
    destruct (IH (S i) p1 l2 m2) as (pend & -> & Hlen' & Hlow & Hhigh); [done|cbn; rewrite length_insert; lia|].
    exists pend. split; [|split_and!].
    + destruct p. cbn. by rewrite Nat.add_succ_r.
    + rewrite Hlen'. apply length_insert.
    + intros j Hj. rewrite Hlow by lia. cbn. by rewrite list_lookup_insert_ne by lia.
    + intros [|j] e He.
      * injection He as <-. rewrite Nat.add_0_r, Hlow by lia. cbn. by rewrite list_lookup_insert_eq by lia.
      * cbn in He. replace (i + S j) with (S i + j) by lia. by apply Hhigh.
  - injection Hl as <- <-. exists (pending_events_ p). rewrite Nat.add_0_r. destruct p. by split_and!.
Qed.

(** ** Serving the events of the merge *)

(** The merge [m0] after [Init] does not fail within [budget] events, and they
    name drivers of the pack. *)
Variable m0 : merge.
Variable conns : list nat.
Variable budget : nat.
Hypothesis Hok : forall n, n <= budget ->
  exists l m, merge_next n m0 = Ok (l, m) /\ Forall (λ e, e.2 < length conns) l.

Definition calls_of (e : option (AddDataEvent.t * nat)) : list call :=
  match e with Some e => [CallEnqueueAt consumer (AddDataEvent.at_ e.1)] | None => [] end.

(** [k] events were handled; [l] are those that were merged. *)
Record serving (k : nat) (p : t (G := G)) (calls : list call) (N : nat) (l : list (AddDataEvent.t * nat)) : Prop := {
  sv_connections : connections p = conns;
  sv_length : length (pending_events_ p) = cache_size;
  sv_index : next_event_index_ p <= num_events_cached_ p;
  sv_ahead : N <= k + cache_size;
  sv_merge : merge_next N m0 = Ok (l, drivers p);
  sv_left : length l = k + (num_events_cached_ p - next_event_index_ p);
  sv_cached j e : l !! (k + j) = Some e -> pending_events_ p !! (next_event_index_ p + j) = Some (cached e);
  sv_calls : calls = calls_of (l !! k);
  sv_end : next_event_index_ p = num_events_cached_ p -> SourceMerge.queue_ (drivers p) = []
}.

(** Caching when all events that were merged are handled. *)
Lemma refill_cache k (p : t (G := G)) N l :
  connections p = conns -> length (pending_events_ p) = cache_size -> N <= k + cache_size ->
  merge_next N m0 = Ok (l, drivers p) -> length l = k -> k + cache_size <= budget ->
  exists n p2 N' l', CacheEvents cache_size p = Ok (n, p2) /\ next_event_index_ p2 = next_event_index_ p /\
    serving k (set_cache p2 0 n) (calls_of (l' !! k)) N' l' /\ (n = 0 <-> l' !! k = None).
Proof using Hcache Hok.
  intros Hconn Hpend HN Hl Hk Hb. destruct (SourceMerge.NextEvents_length _ _ _ _ _ _ Hl) as [HlN Hlast].
  assert (exists l2 m2, merge_next cache_size (drivers p) = Ok (l2, m2) /\
    exists N', N' <= k + cache_size /\ merge_next N' m0 = Ok (l ++ l2, m2)) as (l2 & m2 & Hl2 & N' & HN' & Hmerge).
  { destruct (SourceMerge.queue_ (drivers p)) as [|x q] eqn:Hq.
    - exists [], (drivers p). rewrite (SourceMerge.NextEvents_empty _ _ _ _ Hq), app_nil_r. split; [done|]. by exists N.
    - assert (N = k) as -> by (destruct (decide (length l < N)) as [Hlt|]; [by specialize (Hlast Hlt)|lia]).
      destruct (Hok (k + cache_size) Hb) as (L & m & HL & _). pose proof HL as HL'.
      rewrite SourceMerge.NextEvents_add, Hl in HL. cbn [mbind outcome_bind] in HL.
      apply bind_Ok in HL as ([l2 m2] & H2 & [= <- <-]). exists l2, m2. split; [done|]. by exists (k + cache_size). }
  destruct (SourceMerge.NextEvents_length _ _ _ _ _ _ Hl2) as [Hle Hend].
  destruct (CacheEvents_from_spec cache_size 0 p l2 m2 Hl2) as (pend & Hcache' & Hlen & _ & Hhigh); [lia|].
  assert (Hlook : forall j, (l ++ l2) !! (k + j) = l2 !! j) by (intros j; rewrite <-Hk; apply lookup_app_add).
  do 2 eexists. exists N', (l ++ l2). split; [exact Hcache'|]. split; [done|]. split; [split|].
  all: cbn [set_cache set_pending set_drivers connections pending_events_ next_event_index_ num_events_cached_ drivers].
  all: try done.
  - lia.
  - lia.
  - rewrite length_app. lia.
  - intros j e. rewrite Hlook. apply Hhigh.
  - intros H0. apply Hend. cbn in H0. lia.
  - rewrite <-(Nat.add_0_r k), Hlook. cbn. destruct l2; [done|]. split; done.
Qed.

Lemma enqueue_serving k (p : t (G := G)) calls N l e :
  serving k p calls N l -> l !! k = Some e -> enqueue consumer p (next_event_index_ p) = Ok (calls_of (Some e)).
Proof using Type.
  intros Hs He. pose proof (sv_cached _ _ _ _ _ Hs 0 e) as Hp. rewrite !Nat.add_0_r in Hp.
  unfold enqueue. by rewrite (proj2 (vec_at_Ok _ _ _) (Hp He)).
Qed.

Lemma HandleEvent_serving k (p : t (G := G)) calls N l e conn :
  serving k p calls N l -> l !! k = Some e -> conns !! e.2 = Some conn -> S k + cache_size <= budget ->
  exists p' calls' N' l',
    HandleEvent consumer cache_size p = Ok (action_of e.1 conn, p', calls') /\ serving (S k) p' calls' N' l'.
Proof using Hcache Hok.
  intros Hs He Hconn Hb. pose proof Hs as [Hc Hlen Hidx HN Hm Hleft Hcached _ Hend].
  pose proof (lookup_lt_Some _ _ _ He) as Hlt. pose proof (Hcached 0 e) as H0. rewrite !Nat.add_0_r in H0.
  unfold HandleEvent. rewrite (proj2 (vec_at_Ok _ _ _) (H0 He)). cbn [mbind outcome_bind cached].
  cbn [connections set_cache]. rewrite Hc, (proj2 (vec_at_Ok _ _ _) Hconn). cbn [mbind outcome_bind next_event_index_ num_events_cached_].
  set (p1 := set_cache p (S (next_event_index_ p)) (num_events_cached_ p)).
  change (next_event_index_ p1 =? num_events_cached_ p1) with (S (next_event_index_ p) =? num_events_cached_ p).
  destruct (Nat.eqb_spec (S (next_event_index_ p)) (num_events_cached_ p)) as [Heq|Hne].
  - destruct (refill_cache (S k) p1 N l) as (n & p2 & N' & l' & Hcache' & _ & Hs' & Hn); [done|done|lia|done|lia|done|].
    rewrite Hcache'. cbn [mbind outcome_bind]. destruct (Nat.eqb_spec n 0) as [Hz|Hz].
    + do 4 eexists. split; [done|]. apply Hn in Hz as Hnone. by rewrite Hnone in Hs'.
    + destruct (l' !! S k) as [e'|] eqn:He'; [|by destruct (Hz (proj2 Hn eq_refl))].
      pose proof (enqueue_serving (S k) (set_cache p2 0 n) _ N' l' e' Hs' He') as Henq.
      change (next_event_index_ (set_cache p2 0 n)) with 0 in Henq. rewrite Henq. cbn [mbind outcome_bind]. by do 4 eexists.
  - assert (Hs' : serving (S k) p1 (calls_of (l !! S k)) N l).
    { split; cbn [p1 set_cache connections pending_events_ next_event_index_ num_events_cached_ drivers]; try done; try lia.
      intros j e' He'. replace (S (next_event_index_ p) + j) with (next_event_index_ p + S j) by lia.
      apply Hcached. by rewrite Nat.add_succ_r. }
    destruct (lookup_lt_is_Some_2 l (S k)) as [e' He']; [lia|]. rewrite (enqueue_serving _ _ _ _ _ _ Hs' He').
    cbn [mbind outcome_bind]. rewrite He' in Hs'. by do 4 eexists.
Qed.

(** What is done for an event, with its time. *)
Definition handled (e : AddDataEvent.t * nat) : list (Z * action) :=
  match conns !! e.2 with
  | Some conn => (λ a, (AddDataEvent.at_ e.1, a)) <$> action_of e.1 conn
  | None => []
  end.

Lemma run_serving n : forall k (p : t (G := G)) calls N l lk mk,
  serving k p calls N l -> k + n + cache_size <= budget -> merge_next (k + n) m0 = Ok (lk, mk) ->
  exists p' calls', run consumer cache_size n p calls = Ok (concat (handled <$> drop k lk), p', calls').
Proof using Hcache Hok.
  induction n as [|n IH]; intros k p calls N l lk mk Hs Hb Hlk.
  { destruct (SourceMerge.NextEvents_length _ _ _ _ _ _ Hlk) as [Hlen _]. rewrite drop_ge by lia. by exists p, calls. }
  pose proof Hs as [_ _ Hidx _ Hm Hleft _ -> Hend]. destruct (l !! k) as [e|] eqn:He; cbn [calls_of run].
  - destruct (SourceMerge.NextEvents_agree _ _ _ _ _ _ _ _ _ (take (S k) l) (drop (S k) l) Hm Hlk) as [Htake _];
      [by rewrite take_drop|rewrite length_take; lia|].
    pose proof (lookup_lt_Some _ _ _ He) as Hlt. rewrite length_take, Nat.min_l in Htake by lia.
    assert (Hek : lk !! k = Some e). { rewrite <-(lookup_take_lt lk (S k) k), Htake, lookup_take_lt by lia. done. }
    destruct (Hok (k + S n)) as (l' & m' & Hl' & Hall); [lia|]. rewrite Hlk in Hl'. injection Hl' as <- <-.
    rewrite Forall_lookup in Hall. destruct (lookup_lt_is_Some_2 conns e.2 (Hall _ _ Hek)) as [conn Hconn].
    destruct (HandleEvent_serving k p _ N l e conn Hs He Hconn) as (p' & calls' & N' & l' & -> & Hs'); [lia|].
    cbn [mbind outcome_bind]. replace (k + S n) with (S k + n) in Hlk by lia.
    destruct (IH (S k) p' calls' N' l' lk mk Hs') as (p2 & calls2 & ->); [lia|done|]. cbn [mbind outcome_bind].
    exists p2, calls2. rewrite (drop_S lk e k Hek). cbn [fmap list_fmap concat]. unfold handled at 2. by rewrite Hconn.
  - apply lookup_ge_None in He.
    destruct (SourceMerge.NextEvents_agree _ _ _ _ _ _ _ _ _ l [] Hm Hlk) as [_ Hall]; [by rewrite app_nil_r|lia|].
    rewrite (Hall ltac:(lia) eq_refl (Hend ltac:(lia))), drop_ge by lia. by exists p, [].
Qed.

End cache.
End FlowPack.

Import FlowPack.

(** A pack to which drivers were added, each with its connection. *)
Definition pack_of {G} (cache_size : nat) (added : list (IndependentFlowDriver.t * nat)) : t (G := G) :=
  fold_left (λ p x, AddDriver p (INDEPENDENT x.1) x.2) added (construct cache_size).

Lemma pack_of_fields {G} cache_size added :
  pack_of (G := G) cache_size added =
    mk (SourceMerge.mk [] added.*1) added.*2 [] (replicate cache_size (AddDataEvent.kAddDataInfinity, None)) 0 0.
Proof.
  unfold pack_of. assert (forall ds cs, fold_left (λ (p : t (G := G)) x, AddDriver p (INDEPENDENT x.1) x.2) added
    (mk (SourceMerge.mk [] ds) cs [] (replicate cache_size (AddDataEvent.kAddDataInfinity, None)) 0 0) =
    mk (SourceMerge.mk [] (ds ++ added.*1)) (cs ++ added.*2) [] (replicate cache_size (AddDataEvent.kAddDataInfinity, None)) 0 0)
    as H; [|apply (H [] [])].
  induction added as [|[d c] added IH]; intros ds cs; cbn; [by rewrite !app_nil_r|]. rewrite IH, <-!app_assoc. done.
Qed.

(** C20: the events of the drivers reach their connections in order, and the cache
    is invisible.  For independent drivers that do not fail or go back in time
    within the events that are cached or handled, [Init] and then [n] events
    handled, each at the time for which it was scheduled, close connections and
    add data to them exactly as the first [n] events of the merged drivers say,
    for every size of the cache: at the time of the event, in the order of time,
    for every driver in the order in which it produces them and to its own
    connection; when there are less than [n] events, every driver has reached
    the end of time. *)
Theorem FlowPack_serves_drivers {G} consumer cache_size n t0 (added : list (IndependentFlowDriver.t * nat)) :
  0 < cache_size -> Forall (IndependentFlowDriver.ready (1 + (n + cache_size)) t0) added.*1 ->
  exists p1 calls1 l p2 calls2,
    Init consumer cache_size (pack_of (G := G) cache_size added) = Ok (p1, calls1) /\
    run consumer cache_size n p1 calls1 = Ok (concat (handled added.*2 <$> l), p2, calls2) /\ length l <= n /\
    StronglySorted (λ e f, AddDataEvent.at_ e.1 <= AddDataEvent.at_ f.1)%Z l /\
    (forall i d, added.*1 !! i = Some d -> exists later e d',
       SourceMerge.pulled IndependentFlowDriver.pull d (SourceMerge.of_source i l ++ later) e d') /\
    (length l < n -> forall i d, added.*1 !! i = Some d -> exists d',
       SourceMerge.pulled IndependentFlowDriver.pull d (SourceMerge.of_source i l) true d').
Proof.
  intros Hcache Hready. set (next := SourceMerge.NextEvents AddDataEvent.at_ IndependentFlowDriver.pull).
  destruct (SourceMerge.AddInitialEvents_spec _ _ _ _ _ _ Hready) as (m & Hm & Hmerged).
  assert (Hspec : forall k, k <= n + cache_size -> exists l m', next k m = Ok (l, m') /\
    SourceMerge.merged AddDataEvent.at_ IndependentFlowDriver.pull IndependentFlowDriver.ready (n + cache_size - k) added.*1 l m' /\
    length l <= k /\ (length l < k -> SourceMerge.queue_ m' = [])).
  { intros k Hk. apply (SourceMerge.NextEvents_spec _ _ _ k (n + cache_size - k) _ [] m).
    by replace (k + (n + cache_size - k)) with (n + cache_size) by lia. }
  assert (Hok : forall k, k <= n + cache_size -> exists l m', next k m = Ok (l, m') /\
    Forall (λ e, e.2 < length added.*2) l).
  { intros k Hk. destruct (Hspec k Hk) as (l & m' & Hl & Hmg & _). exists l, m'. split; [done|].
    pose proof (SourceMerge.mg_out _ _ _ _ _ _ _ _ Hmg) as Hout. by rewrite !length_fmap in *. }
  destruct (refill_cache consumer cache_size Hcache m added.*2 (n + cache_size) Hok 0
              (set_drivers (pack_of (G := G) cache_size added) m) 0 [])
    as (c & p2 & N & l' & Hc & Hidx & Hserve & Hzero); try (rewrite pack_of_fields; done || (cbn; apply length_replicate)); [lia|done|lia|].
  destruct (Hspec n) as (l & m' & Hl & Hmg & Hlen & Hend); [lia|].
  destruct (run_serving consumer cache_size Hcache m added.*2 (n + cache_size) Hok n 0 _ _ N l' l m' Hserve) as (p3 & calls3 & Hrun);
    [lia|done|]. rewrite drop_0 in Hrun.
  exists (set_cache p2 0 c), (calls_of consumer (l' !! 0)), l, p3, calls3. split; [|split_and!; [done|done|by destruct Hmg| |]].
  - rewrite pack_of_fields in *. unfold Init, AddFirstEvents. cbn [drivers]. rewrite Hm. cbn [mbind outcome_bind].
    rewrite Hc. cbn [mbind outcome_bind]. rewrite Hidx. cbn [set_drivers next_event_index_].
    destruct (Nat.eqb_spec c 0) as [Hz|Hz].
    + by rewrite (proj1 Hzero Hz).
    + destruct (l' !! 0) as [e|] eqn:He; [|by destruct (Hz (proj2 Hzero eq_refl))].
      pose proof (enqueue_serving consumer cache_size m added.*2 0 _ _ N l' e Hserve He) as Henq.
      change (next_event_index_ (set_cache p2 0 c)) with 0 in Henq. by rewrite Henq.
  - intros i d Hd. by eapply SourceMerge.merged_prefix.
  - intros Hlt i d Hd. eapply SourceMerge.merged_exhausted; [exact Hmg|by apply Hend|done].
Qed.

(** ** A concrete pack *)

(** Data by hand at 2, 5 and 9, the last of which closes; and packets of 100
    bytes every 4 units from time 1 on. *)
Definition by_hand : ManualFlowDriver.t :=
  ManualFlowDriver.AddData [] [AddDataEvent.construct 5 70; AddDataEvent.construct 2 30; AddDataEvent.mk 9 0 true].
Definition at_rate : ConstantRateFlowDriver.t :=
  ConstantRateFlowDriver.AddRateChangeKeyframes (ConstantRateFlowDriver.construct 100 1000)
    [ConstantRateFlowDriver.mkFrame 1 200000].
Definition two_flows : list (IndependentFlowDriver.t * nat) :=
  [(IndependentFlowDriver.Manual by_hand, 10); (IndependentFlowDriver.ConstantRate at_rate, 20)].

Lemma two_flows_ready n : n <= 100 -> Forall (IndependentFlowDriver.ready n 0) two_flows.*1.
Proof.
  intros Hn. constructor; [|constructor; [|constructor]].
  - apply ManualFlowDriver.AddData_ready. repeat constructor; cbn; lia.
  - split; [split|right].
    + cbn. lia.
    + intros [|i] f _ [= <-]. exists 4%Z. split; [by vm_compute|]. unfold EventQueueTime.MaxTime, umax. cbn [ConstantRateFlowDriver.frame_at]. lia.
    + intros [|i] f f' _ H1 H2; done.
    + split; [done|]. split; [done|]. eexists. split; [done|]. cbn. lia.
Qed.

Lemma FlowPack_serves_drivers_witness :
  Forall (IndependentFlowDriver.ready 9 0) two_flows.*1 /\
  exists p1 calls1 l p2 calls2,
    Init 0 2 (pack_of (G := unit) 2 two_flows) = Ok (p1, calls1) /\
    run 0 2 6 p1 calls1 = Ok (concat (handled [10; 20] <$> l), p2, calls2) /\
    StronglySorted (λ e f, AddDataEvent.at_ e.1 <= AddDataEvent.at_ f.1)%Z l.
Proof.
  pose proof (two_flows_ready 9 ltac:(lia)) as Hready. split; [exact Hready|].
  destruct (FlowPack_serves_drivers (G := unit) 0 2 6 0 two_flows ltac:(lia) Hready) as (p1 & calls1 & l & p2 & calls2 & H1 & H2 & _ & H3 & _).
  exists p1, calls1, l, p2, calls2. split; [exact H1|]. split; [exact H2|exact H3].
Defined.

Example two_flows_actions :
  ('(p, calls) ← Init 0 2 (pack_of (G := unit) 2 two_flows); '(log, _, _) ← run 0 2 6 p calls; Ok log) =
  Ok [(2, AddData 10 30); (5, AddData 20 100); (5, AddData 10 70); (9, AddData 20 100); (9, Close 10);
      (13, AddData 20 100)]%Z.
Proof. vm_compute. reflexivity. Qed.
